(* ===== verification/_CoqProject ===== *)
-Q . S2P
Prelude.v
Float64.v
RustOrd.v
Paths.v
StoreKey.v
Disk.v
Store.v
Dag.v
Cache.v
CheckDag.v
CacheService.v
Scheduler.v
SchedulerInv.v
SchedulerSpec.v
SchedulerProps.v
SchedulerCorrect.v
Proto.v
Executor.v
WorkerManager.v
Text.v
Diagnostics.v
Checks.v
CheckComments.v
UiMessage.v
Machine.v
FloatText.v
Build.v
Languages.v
SourceFile.v
SourceFileCorrect.v
Scoring.v
ScoringCorrect.v
UiState.v
UiStateCorrect.v
Client.v
OutputChecks.v
Judge.v
IoiDag.v
IoiDagCorrect.v
IoiTaskCorrect.v
Peg.v
GenGrammar.v
TaskInput.v
CasesGen.v
GenGen.v
Booklets.v
BookletsCorrect.v
IoiClean.v
SanityChecks.v
AttChecks.v
StatementChecks.v
SanityChecksCorrect.v
TaskLoad.v
GrammarShape.v
TaskClosure.v
TaskEntries.v
TaskFiles.v
CasesGenCorrect.v
GenGenCorrect.v
TaskLoadCorrect.v
GenToml.v
TomlWalk.v
TomlPlan.v
TomlCorrect.v
Terry.v
TerryCorrect.v
TerryChecks.v
TerryUi.v
TerryUiCorrect.v
JudgeCorrect.v
SanityTheorems.v
ClientCorrect.v
Sandbox.v
SandboxCorrect.v
Worker.v
WorkerView.v
Controller.v
WorkerCorrect.v
WorkerResults.v
ControllerCorrect.v
