(* ===== verification/Prelude.v ===== *)
(** * task-maker-rust: a verification of its execution core

    task-maker evaluates programming-contest tasks: it turns a task into a DAG
    of sandboxed executions, runs the DAG on a set of workers and reuses cached
    results.  The program is a set of crates; the ones modelled here are
    [task-maker-dag], [task-maker-store], [task-maker-cache], [task-maker-exec]
    (client, server and workers), [task-maker-lang], [task-maker-diagnostics] and,
    of [task-maker-format], the parsers of the IOI tasks (YAML and TOML) and of the
    Terry ones, the builders of their DAGs, the booklets, the sanity checks, the
    callbacks, the scores, the checks of the solutions and the states of the user
    interfaces.
    All the paths below are relative to the directory of the sources.

    ** The program

    A client builds an [ExecutionDAG] (executions, execution groups, files that
    are provided or produced, callbacks) and sends its data to an executor.  For
    each client the executor runs a client manager, which checks the DAG
    ([check_dag]), passes it to the scheduler, and moves the provided files from
    the client to the file store.  The scheduler keeps, for each client, the
    groups that wait for files, that are ready and that run; it asks the cache
    for each ready group, gives jobs to the idle workers through the worker
    manager, and reports what happens to the binder of the executor, which
    forwards it to the client.  The file store is content addressed: a file is
    under the hash of its content, a reference-counted handle keeps it from being
    evicted, and a flush brings the total size below a threshold.  A worker asks
    for a job and for the files it misses, runs the executions of the job in
    sandboxes, and reports their results and their outputs, of which the server
    asks the ones that are not in its store.  The client sends the files the
    server asks, and gives the results to the callbacks of the DAG: for an IOI
    task these send messages to the user interface and the scores to the score
    manager.

    ** Files

    - [Prelude]: outcomes of Rust code (return, error, panic, end of fuel), the
      state monad of the [&mut self] methods with total ([wp]) and partial
      ([wlp]) correctness rules and the rules for stable properties ([stable]),
      the unspecified iteration order of maps, sets and heaps ([IterOrder]), the
      arithmetic of [u64] in the two build profiles, [BinaryHeap].
    - [Float64]: [f64] as the exactly rounded binary64 of the standard library.
    - [RustOrd]: derived orders and sorting.  [Paths]: [PathBuf] and its
      components.
    - [StoreKey] ([task-maker-store/src/lib.rs], the key of a content),
      [Disk] (a file system with faults), [Store] ([lib.rs] and [index.rs]: store,
      get, handles, flush, the index on disk; the calls of several threads on one store
      as a step relation, [store_step]).
    - [Dag] ([task-maker-dag/src]: executions, groups, files, callbacks and the
      builder methods, the status of an execution against its limits).
    - [Cache] ([task-maker-cache/src]: keys, entries, the compatibility of limits,
      insert and get on the state of the store).
    - [CheckDag] ([task-maker-exec/src/check_dag.rs]).
    - [CacheService]: the interface between the scheduler and the cache, a class
      of operations and a class of laws; the cache of [Cache] is an instance.
    - [Scheduler] ([task-maker-exec/src/scheduler.rs]); its invariant in
      [SchedulerInv], the specifications of its methods in [SchedulerSpec] and
      [SchedulerProps], the theorems in [SchedulerCorrect].
    - [Proto] ([task-maker-exec/src/proto.rs] and
      [task-maker-store/src/read_file_iterator.rs]): messages, channels and the
      transfer of a file in chunks.
    - [Executor] ([task-maker-exec/src/executor.rs]): the binder and the client
      manager.  [WorkerManager] ([task-maker-exec/src/worker_manager.rs]).
    - [Client] ([task-maker-exec/src/client.rs]: the evaluation of a DAG, its
      callbacks, the thread that polls the status), its theorems in
      [ClientCorrect].
    - [Sandbox] ([task-maker-exec/src/execution_unit] and [detect_exe.rs]: the
      directory of a sandbox, its configuration as the list of the calls on
      [tabox], the compilations with Typst), theorems in [SandboxCorrect].
    - [Worker] ([task-maker-exec/src/worker/mod.rs]: the thread that talks with
      the server and the thread of a job, as a step relation on their common
      state), the invariants in [WorkerCorrect], results and outputs in
      [WorkerResults].  [WorkerView]: the part of that state the invariants are about, and what a
      job with a controller promises to the worker.
    - [Controller] ([task-maker-exec/src/worker/controller.rs]: the threads of an
      interactive execution, which starts its solutions on request, as a step
      relation), theorems in [ControllerCorrect].
    - [Text] (strings as UTF-8 text), [Diagnostics]
      ([task-maker-diagnostics/src/span.rs] and [lib.rs]), [Checks] and
      [CheckComments] ([task-maker-format/src/solution.rs] and
      [src/tools/add_solution_checks.rs]: the checks of a solution and the comments
      that hold them).
    - [Machine]: the state of the code that builds a DAG ([EvaluationData] with the
      cells, the uuids and the messages sent) and its local files.  [Build]: the
      invariant of that state ([build_ok]) and the specifications of the operations
      of [Dag] on it.
    - [Languages] ([task-maker-lang/src/language.rs], [languages],
      [grader_map.rs], [lib.rs]): the languages, their compilation and the search of
      the imports.  [SourceFile] ([source_file.rs]), theorems in
      [SourceFileCorrect].
    - [Judge] ([task-maker-format/src/ioi/dag] and [src/terry]: the callbacks of both
      formats as data, what a checker says), theorems in [JudgeCorrect].  [IoiDag]
      ([task-maker-format/src/ioi/dag], [source_file.rs] and [ioi/mod.rs]: the
      builders of the executions of a task), the specifications of the builders in
      [IoiDagCorrect] and of a whole task in [IoiTaskCorrect].
    - [FloatText]: numbers as text ([f64::from_str] and the shortest decimal of
      [Display]).
    - [Booklets] ([task-maker-format/src/ioi/statement]: the booklets of a task and of a
      contest, the rendered templates, the figures, the executions that compile them),
      the specifications of the builders in [BookletsCorrect].
    - [OutputChecks] (the states that two sanity checks share with their closures),
      [SanityChecks] ([task-maker-format/src/sanity_checks.rs] and, of
      [ioi/sanity_checks], [subtasks.rs], [io.rs], [mod.rs], [sol.rs], [task.rs]),
      [AttChecks] ([att.rs], [checker.rs]), [StatementChecks] ([statement.rs], the list
      of all the checks, and [IOITask::build_dag] to its end); the specifications of the
      hooks before the evaluation in [SanityChecksCorrect], the theorems in
      [SanityTheorems].
    - [IoiClean] ([IOITask::clean] of [ioi/mod.rs], on a disk that changes), with its
      theorem.
    - [Peg]: parsing expression grammars as the crate pest reads them, with the
      relation they implement.  [GenGrammar]
      ([task-maker-format/src/ioi/format/italian_yaml/GEN.pest] and
      [cases.gen.pest], rule by rule), the shapes of the parse trees in
      [GrammarShape].
    - [TaskInput] ([italian_yaml/mod.rs], [static_inputs.rs] and [find_source_file]
      of [task-maker-format/src/lib.rs]: the task file, the parts of a task that are
      source files, the entries), [CasesGen] ([cases_gen.rs]: each command of
      cases.gen as a method on the state of the parser), [GenGen] ([gen_gen.rs], and
      the gen/GEN that [cases_gen.rs] writes), [TaskLoad] ([mod.rs]: [parse_task]).
      Theorems: [TaskClosure] (the testcases of the dependencies), [TaskEntries]
      (what a description of the inputs promises), [TaskFiles] (the source files),
      [CasesGenCorrect], [GenGenCorrect], and [TaskLoadCorrect] for the whole.
    - [GenToml] ([italian_toml/gen_toml.rs]: the groups and the subtasks of gen.toml;
      [italian_toml/mod.rs], and [IOITask::new] of [ioi/mod.rs], which chooses the
      format).  Theorems: [TomlWalk] (the groups that a subtask reaches), [TomlPlan] (the
      testcases, the inclusions and the subtasks that a description asks for, and that
      the loops gather these), [TomlCorrect] (the whole, and loading with building for
      both formats).
    - [Terry] ([task-maker-format/src/terry/mod.rs], [dag/mod.rs], [format/mod.rs],
      [statement/mod.rs]: the managers, the executions, the DAG, the cleaning), theorems
      in [TerryCorrect].  [TerryChecks] ([terry/sanity_checks] and [TerryTask::build_dag]
      to its end).  [TerryUi] ([terry/ui_state.rs]), theorems in [TerryUiCorrect].
    - [UiMessage] ([task-maker-format/src/ui/ui_message.rs] and the data of
      [ioi/mod.rs]), [Scoring] ([ioi/dag/mod.rs], [ioi/mod.rs]: the aggregator
      and [ScoreManager]), [UiState] ([ioi/ui_state.rs]); theorems in
      [ScoringCorrect] and [UiStateCorrect].

    Fields and functions keep the names of the source; where a name of a Rust
    method is used by several types the type comes first ([Cache_insert]), and
    the body of a loop of a Rust function is a definition of its own (for
    example [release_group] is the body of the loop of [file_success]).

    ** What the theorems show

    - DAG: the builder keeps the DAG well formed; [check_dag] ends, accepts
      exactly the DAGs in which every group can run and every callback refers to
      something that exists, and reports errors that are there.
    - Store: however the steps of the calls of several threads interleave, a live handle
      made by store, or by get while its file was there, points to a file with the content
      of its key, and the reference counts are the numbers of live handles; get tests the
      path before it takes the lock, and a flush in between makes a handle without a file
      ([get_races_flush]); store and flush do what they promise, errors of the disk included.
    - Cache: a result is found again after its insertion, a hit carries handles
      for exactly the outputs of the group, and the limits of an entry are
      compatible with themselves; keys do not depend on the order of the inputs.
    - Scheduler: from any reachable state every message of a well-behaved peer
      is handled without a panic and to the end, with a cache that returns ([CacheLaws],
      which the cache of this program satisfies in the release profile); a client with
      nothing ready or running is done; a watched group is notified exactly once; the
      queue and the running groups agree with the state of the workers; a message that
      brings work or a worker leaves no worker idle while a group is ready, and of the
      others only the disconnection of a worker can; the job given is the first of the
      queue in the order of the priorities recorded in it.
    - Executor and worker manager: what is forwarded, in which order, what is
      sent at the end, the round trip of a file transfer.
    - Client: what it sends is whole messages and whole files, what it does with
      a file, and, with the client manager, that a file the server asks arrives
      in the store of the server.
    - Sandbox: what a process may write and read, and that the limits of the
      execution are in the configuration.
    - Worker: with a server that answers what it is asked nothing unexpected
      arrives, a job starts when all its files are there, the two threads do not
      mix their messages; the report does not depend on the order in which the
      sandboxes end; with the thread of the server, that an output arrives.
    - Controller: no more solutions are started than the limit; a reported job has had the
      result of the controller and of each started solution once; the sandboxes that run
      when the job has to end are killed when the manager leaves its loop, but a solution
      that runs when the controller ends later is not ([solution_outlives_controller]).
    - Source files and builder of a task: a source file is compiled once, the search
      of its imports ends and finds them all; the DAG of a task is accepted by
      [check_dag] and evaluates every solution on every testcase; the callbacks give
      each solution the scores it would get alone.
    - Booklets and sanity checks: the DAG with the executions of the booklets and of any
      of the sanity checks is accepted too when no check fails, for both formats; what
      the checks of the outputs and of the samples report is what they are meant to; the
      hooks after the evaluation return, with one exception, which is proved.
    - Cleaning: when the path of the task has no metacharacter of glob nothing is removed
      but what task-maker makes, whatever the system refuses, and all of it on an ordinary
      directory; an official output that is not generated is removed when the input of its
      testcase is static too; with a metacharacter files elsewhere can be removed
      ([clean_removes_elsewhere]).
    - Loading a task: from a directory that is [loadable] ([toml_loadable] for TOML, where
      the groups that the testcases name have to be declared) the parsers end without a
      panic and give subtasks and testcases that are numbered without gaps; the loop over
      the dependencies computes their closure; a task that is loaded satisfies what the
      builder of the DAG asks, so that loading, building and the check of the server
      compose, for both formats.  In TOML the testcases and the subtasks are those of the
      description ([plan]), the subtasks have the testcases of the groups they reach and
      each testcase one owner, whatever the order of the maps.
    - Terry: the same composition; each solution has a generation, a validation, a run
      and a check that read each other's files; the interface shows its progress.
    - Checks, scores and user interface: the search of a check agrees with the
      documentation of the checks, comments written are read back (but for the check of
      the wall time limit), the scores, none of which is NaN, do not depend on the order of
      the results, and the state of the interface refines the score manager and stays well
      typed.

    The state of the scheduler is reached by a step relation ([sched_step]) on
    the messages that a well-behaved peer can send ([admissible]); what the
    scheduler does with the other messages is in the lemmas at the end of
    [SchedulerCorrect].

    ** Fuel

    Recursion that is not structural takes fuel, and the theorems show that the
    fuel given is enough: [file_failed] takes one more than the groups that wait
    (each nested call follows the removal of one), [schedule_cached] one more
    than the groups that are ready or wait, [retain_clients] the length of the
    queue, the loops of a client manager, of a client and of a worker thread one
    more than the packets received, [capture_loop] one more than the bytes of the
    file, the visit of [check_dag] one more than the groups, the loop
    of [flush] one more than the entries of the index, a repetition of a grammar one
    more than the characters left, the closure of the dependencies one more than
    subtasks times testcases, the walk over the groups of gen.toml two more than the
    groups and the inclusions together.  The search of the files of [input/] takes a bound on
    their number ([loadable]).  The links of a statement are followed at most 40 times,
    as in the source.

    ** Modelling choices

    Methods under a mutex are atomic steps; [get] of the store, which tests the path
    without the lock, is three of them in [store_step], and the components that use the
    store run each of its methods whole.  The content of a file is the list
    of its bytes; writes through a [BufWriter] are writes that can report an
    error.  blake3 and bincode are parameters, with injectivity on the contents
    and the round trip as their laws where a theorem needs them.  The texts of
    log messages are left out; an error keeps its static contexts, also where
    the source uses [map_err].  In the scheduler, the executor and the worker
    manager the clones and drops of the handles, which only change the reference
    counts of the store, are not recorded.  A channel is the list of the
    messages sent with a flag for a receiver that was dropped; starting a thread
    is assumed to succeed.  The chunks of a file are taken from the channel
    before they are stored.

    ** Not modelled

    The process that keeps the lines of a controller, the tabox and typst crates and
    the processes; the starting of threads and the sockets; what the user interfaces
    print, the information printed on a task and the command line with its tools, but
    for the comments that add-solution-checks writes.  Parameters, with the behaviour
    relied on as hypotheses: serde_yaml, serde_json, toml, bincode, blake3, fastrand,
    the Unicode tables, the matching of glob patterns, the regular expressions on LaTeX
    logs and on statements, fontdb, locale_codes, the output of git, approx, shell_words. *)
From Stdlib Require Export ZArith NArith.
From stdpp Require Export base tactics list gmap sets strings pretty sorting fin_maps.

#[export] Set Default Goal Selector "!".
#[export] Set Warnings "-clear-no-such-hyp".

Declare Scope tm_scope.
Delimit Scope tm_scope with tm.
Open Scope tm_scope.

(** ** Identifiers

    Every [Uuid] of the source is a 128-bit value compared, hashed and ordered
    as a number. *)
Abbreviation Uuid := N (only parsing).
Abbreviation FileUuid := N (only parsing).
Abbreviation ExecutionGroupUuid := N (only parsing).
Abbreviation FifoUuid := N (only parsing).
Abbreviation WorkerUuid := N (only parsing).
Abbreviation ClientUuid := N (only parsing).

(** ** Outcomes of Rust code

    [Ret] is a normal return, [Fail] an [Err] value of [anyhow] (with the
    static text of the error and of its contexts, the outermost first),
    [Panicked] a panic, [OutOfFuel] the exhaustion of the fuel of a recursion
    that Rocq does not accept as structural. *)
Abbreviation Error := (list string) (only parsing).

Inductive Outcome (A : Type) : Type :=
  | Ret (a : A)
  | Fail (e : Error)
  | Panicked (msg : string)
  | OutOfFuel.
Arguments Ret {A} _.
Arguments Fail {A} _.
Arguments Panicked {A} _.
Arguments OutOfFuel {A}.

#[export] Instance outcome_ret : MRet Outcome := λ _ a, Ret a.
#[export] Instance outcome_bind : MBind Outcome := λ _ _ f m,
  match m with
  | Ret a => f a
  | Fail e => Fail e
  | Panicked s => Panicked s
  | OutOfFuel => OutOfFuel
  end.

#[export] Instance outcome_fmap : FMap Outcome := λ _ _ f m, a ← m; Ret (f a).

(** An [Option] whose [None] is a panic ([unwrap], [expect], map indexing). *)
Definition unwrap {A} (msg : string) (o : option A) : Outcome A :=
  match o with Some a => Ret a | None => Panicked msg end.

(** The value of a run known to return. *)
Definition is_ret {A} (o : Outcome A) : bool := match o with Ret _ => true | _ => false end.
Definition from_ret {A} (d : A) (o : Outcome A) : A := match o with Ret a => a | _ => d end.

(** [Result::context]. *)
Definition outcome_context {A} (ctx : string) (m : Outcome A) : Outcome A :=
  match m with Fail e => Fail (ctx :: e) | _ => m end.

(** Iterating a fallible function and collecting its results. *)
Fixpoint try_map {A B} (f : A → Outcome B) (l : list A) : Outcome (list B) :=
  match l with
  | [] => Ret []
  | x :: l => y ← f x; ys ← try_map f l; Ret (y :: ys)
  end.

(** ** Stateful code: [&mut self] methods returning [Result] *)
Definition M (S A : Type) : Type := S → Outcome A * S.

#[export] Instance M_ret {S} : MRet (M S) := λ _ a s, (Ret a, s).
#[export] Instance M_bind {S} : MBind (M S) := λ _ _ f m s,
  match m s with
  | (Ret a, s') => f a s'
  | (Fail e, s') => (Fail e, s')
  | (Panicked msg, s') => (Panicked msg, s')
  | (OutOfFuel, s') => (OutOfFuel, s')
  end.

Definition get_st {S} : M S S := λ s, (Ret s, s).
Definition gets {S A} (f : S → A) : M S A := λ s, (Ret (f s), s).
Definition modify {S} (f : S → S) : M S unit := λ s, (Ret tt, f s).
Definition lift {S A} (o : Outcome A) : M S A := λ s, (o, s).
Definition bail {S A} (e : string) : M S A := λ s, (Fail [e], s).
Definition panic {S A} (e : string) : M S A := λ s, (Panicked e, s).
Definition out_of_fuel {S A} : M S A := λ s, (OutOfFuel, s).
Definition with_context {S A} (ctx : string) (m : M S A) : M S A := λ s,
  let '(r, s') := m s in (outcome_context ctx r, s').
(** [if let Err(e) = m { warn!(..) }]: the failure is logged and dropped. *)
Definition or_warn {S} (m : M S unit) : M S unit := λ s,
  match m s with (Fail _, s') => (Ret tt, s') | r => r end.

(** [m.is_err()], [m.is_ok()]: the error is turned into a boolean. *)
Definition is_ok {S A} (m : M S A) : M S bool := λ s,
  match m s with
  | (Ret _, s') => (Ret true, s')
  | (Fail _, s') => (Ret false, s')
  | (Panicked msg, s') => (Panicked msg, s')
  | (OutOfFuel, s') => (OutOfFuel, s')
  end.

(** [m.ok()]. *)
Definition ok {S A} (m : M S A) : M S (option A) := λ s,
  match m s with
  | (Ret a, s') => (Ret (Some a), s')
  | (Fail _, s') => (Ret None, s')
  | (Panicked msg, s') => (Panicked msg, s')
  | (OutOfFuel, s') => (OutOfFuel, s')
  end.

(** A method of a part of the state. *)
Definition zoom {S T A} (get : S → T) (set : T → S → S) (m : M T A) : M S A := λ s,
  let '(r, t) := m (get s) in (r, set t s).

Fixpoint for_each {S A} (l : list A) (f : A → M S unit) : M S unit :=
  match l with
  | [] => mret tt
  | x :: l => _ ← f x; for_each l f
  end.

Lemma for_each_ext {S A} (l : list A) (f g : A → M S unit) :
  (∀ x, f x = g x) → for_each l f = for_each l g.
Proof. intros Hfg. induction l as [|x l IH]; [done|]. cbn [for_each]. by rewrite Hfg, IH. Qed.

(** ** Iteration order of the standard collections

    The iteration order of a [HashMap], of a [HashSet] and of a [BinaryHeap] is
    not specified.  The development is parametric in it: a class gives the
    order in which the elements come out, and its law is all that is known. *)
Class IterOrder : Type := {
  iter_order : ∀ {A : Type}, list A → list A;
  iter_order_perm : ∀ {A : Type} (l : list A), iter_order l ≡ₚ l
}.

Definition map_iter `{IterOrder} `{Countable K} {V} (m : gmap K V) : list (K * V) :=
  iter_order (map_to_list m).
Definition keys_iter `{IterOrder} `{Countable K} {V} (m : gmap K V) : list K :=
  (map_iter m).*1.
Definition values_iter `{IterOrder} `{Countable K} {V} (m : gmap K V) : list V :=
  (map_iter m).*2.
Definition set_iter `{IterOrder} `{Countable K} (s : gset K) : list K :=
  iter_order (elements s).

(** Two concrete orders, to evaluate the model. *)
Definition forward_order : IterOrder :=
  {| iter_order := λ _ l, l; iter_order_perm := λ _ l, reflexivity l |}.
Definition backward_order : IterOrder :=
  {| iter_order := λ _ l, reverse l; iter_order_perm := λ _ l, reverse_Permutation l |}.

(** ** Machine integers

    [u64], [u32] and [usize] are [N] below their modulus.  Arithmetic that
    leaves the range panics when the crate is compiled with overflow checks
    (the dev profile) and wraps otherwise (the release profile). *)
Class BuildProfile : Type := { overflow_checks : bool }.
Definition dev_profile : BuildProfile := {| overflow_checks := true |}.
Definition release_profile : BuildProfile := {| overflow_checks := false |}.

Definition u64_modulus : N := (2 ^ 64)%N.

Definition u64_add `{BuildProfile} (a b : N) : Outcome N :=
  if (a + b <? u64_modulus)%N then Ret (a + b)%N
  else if overflow_checks then Panicked "attempt to add with overflow"
  else Ret ((a + b) mod u64_modulus)%N.

Definition u64_sub `{BuildProfile} (a b : N) : Outcome N :=
  if (b <=? a)%N then Ret (a - b)%N
  else if overflow_checks then Panicked "attempt to subtract with overflow"
  else Ret (a + u64_modulus - b)%N.

(** ** Collections *)

(** [HashMap::insert] without the returned value, [HashMap[&k]]. *)
Definition index {K V} `{Countable K} (m : gmap K V) (k : K) : Outcome V :=
  unwrap "no entry found for key" (m !! k).

(** A [BinaryHeap] seen as the multiset of its elements.  [heap_pop] takes out
    a greatest element for the order [leb] of the element type. *)
Section heap.
Context {E : Type} (leb : E → E → bool).

Fixpoint heap_max (x : E) (l : list E) : E * list E :=
  match l with
  | [] => (x, [])
  | y :: l =>
      if leb x y then let '(m, r) := heap_max y l in (m, x :: r)
      else let '(m, r) := heap_max x l in (m, y :: r)
  end.

Definition heap_push (x : E) (h : list E) : list E := x :: h.
Definition heap_pop (h : list E) : option (E * list E) :=
  match h with [] => None | x :: l => Some (heap_max x l) end.
End heap.

(** ** Weakest preconditions

    [wp m Q E s]: run from [s], [m] neither panics nor exhausts its fuel; a
    normal return satisfies [Q], an error return satisfies [E]. *)
Definition wp {S A} (m : M S A) (Q : A → S → Prop) (E : S → Prop) (s : S) : Prop :=
  match m s with
  | (Ret a, s') => Q a s'
  | (Fail _, s') => E s'
  | (Panicked _, _) | (OutOfFuel, _) => False
  end.

(** The error case the development uses when a function cannot fail. *)
Definition no_error {S} : S → Prop := λ _, False.
(** The error case when a failure leaves nothing to prove. *)
Definition may_fail {S} : S → Prop := λ _, True.

Section wp_rules.
Context {S : Type}.
Implicit Types (E : S → Prop) (s : S).

Lemma wp_ret {A} (a : A) (Q : A → S → Prop) E s : Q a s → wp (mret a) Q E s.
Proof. done. Qed.

Lemma wp_bind {A B} (m : M S A) (f : A → M S B) (Q : B → S → Prop) E s :
  wp m (λ a, wp (f a) Q E) E s → wp (m ≫= f) Q E s.
Proof. unfold wp, mbind, M_bind. by destruct (m s) as [[] ?]. Qed.

Lemma wp_bind_inv {A B} (m : M S A) (f : A → M S B) (Q : B → S → Prop) E s :
  wp (m ≫= f) Q E s → wp m (λ a, wp (f a) Q E) E s.
Proof. unfold wp, mbind, M_bind. by destruct (m s) as [[] ?]. Qed.

Lemma wp_mono {A} (m : M S A) (Q Q' : A → S → Prop) E E' s :
  wp m Q E s → (∀ a s', Q a s' → Q' a s') → (∀ s', E s' → E' s') → wp m Q' E' s.
Proof. unfold wp. destruct (m s) as [[] ?]; eauto. Qed.

Lemma wp_conj {A} (m : M S A) (Q Q' : A → S → Prop) E E' s :
  wp m Q E s → wp m Q' E' s →
  wp m (λ a s', Q a s' ∧ Q' a s') (λ s', E s' ∧ E' s') s.
Proof. unfold wp. destruct (m s) as [[] ?]; eauto. Qed.

Lemma wp_conj_no_error {A} (m : M S A) (Q Q' : A → S → Prop) s :
  wp m Q no_error s → wp m Q' no_error s → wp m (λ a s', Q a s' ∧ Q' a s') no_error s.
Proof. unfold wp. destruct (m s) as [[] ?]; eauto. Qed.

Lemma wp_get (Q : S → S → Prop) E s : Q s s → wp get_st Q E s.
Proof. done. Qed.

Lemma wp_gets {A} (f : S → A) (Q : A → S → Prop) E s : Q (f s) s → wp (gets f) Q E s.
Proof. done. Qed.

Lemma wp_modify f (Q : unit → S → Prop) E s : Q tt (f s) → wp (modify f) Q E s.
Proof. done. Qed.

Lemma wp_lift_ret {A} (o : Outcome A) a (Q : A → S → Prop) E s :
  o = Ret a → Q a s → wp (lift o) Q E s.
Proof. by intros ->. Qed.

Lemma wp_context {A} ctx (m : M S A) (Q : A → S → Prop) E s :
  wp m Q E s → wp (with_context ctx m) Q E s.
Proof. unfold wp, with_context. by destruct (m s) as [[] ?]. Qed.

Lemma wp_or_warn (m : M S unit) (Q : unit → S → Prop) E s :
  wp m Q (Q tt) s → wp (or_warn m) Q E s.
Proof. unfold wp, or_warn. by destruct (m s) as [[] ?]. Qed.

Lemma wp_is_ok {A} (m : M S A) (Q : bool → S → Prop) E s :
  wp m (λ _, Q true) (Q false) s → wp (is_ok m) Q E s.
Proof. unfold wp, is_ok. by destruct (m s) as [[] ?]. Qed.

Lemma wp_ok {A} (m : M S A) (Q : option A → S → Prop) E s :
  wp m (λ a, Q (Some a)) (Q None) s → wp (ok m) Q E s.
Proof. unfold wp, ok. by destruct (m s) as [[] ?]. Qed.

Lemma wp_zoom {T A} get set (m : M T A) (Q : A → S → Prop) E s :
  wp m (λ a t, Q a (set t s)) (λ t, E (set t s)) (get s) → wp (zoom get set m) Q E s.
Proof. unfold wp, zoom. by destruct (m (get s)) as [[] ?]. Qed.

(** A run that cannot fail returns. *)
Lemma wp_run {A} (m : M S A) (Q : A → S → Prop) s :
  wp m Q no_error s → ∃ a s', m s = (Ret a, s') ∧ Q a s'.
Proof. unfold wp. destruct (m s) as [[a| | |] s1]; [|done..]. intros HQ. by exists a, s1. Qed.

(** The loop rule: an invariant indexed by the elements still to visit. *)
Lemma wp_for_each {A} (I : list A → S → Prop) (f : A → M S unit) E l s :
  I l s →
  (∀ x l s, I (x :: l) s → wp (f x) (λ _, I l) E s) →
  wp (for_each l f) (λ _, I []) E s.
Proof.
  intros HI Hstep. revert s HI.
  induction l as [|x l IH]; intros s HI; [done|].
  apply wp_bind. eapply wp_mono; [by apply Hstep| |done]. eauto.
Qed.

(** The loop rule for an invariant that does not mention the list. *)
Lemma wp_for_each_inv {A} (I : S → Prop) (f : A → M S unit) E l s :
  I s →
  (∀ x s, x ∈ l → I s → wp (f x) (λ _, I) E s) →
  wp (for_each l f) (λ _, I) E s.
Proof.
  intros HI Hstep. revert s HI Hstep.
  induction l as [|x l IH]; intros s HI Hstep; [done|].
  apply wp_bind. eapply wp_mono; [apply Hstep; [set_solver|done]| |done].
  intros [] s' HI'. apply IH; [done|]. intros; apply Hstep; set_solver.
Qed.
End wp_rules.

Create HintDb wp.
#[export] Hint Resolve wp_ret wp_get wp_modify : wp.

(** Decompose a monadic program along its binds. *)
Ltac wp_step :=
  lazymatch goal with
  | |- wp (mbind _ _) _ _ _ => apply wp_bind
  | |- wp (mret _) _ _ _ => apply wp_ret
  | |- wp (modify _) _ _ _ => apply wp_modify
  | |- wp get_st _ _ _ => apply wp_get
  | |- wp (gets _) _ _ _ => apply wp_gets
  | |- wp (with_context _ _) _ _ _ => apply wp_context
  | |- wp (or_warn _) _ _ _ => apply wp_or_warn
  | |- wp (is_ok _) _ _ _ => apply wp_is_ok
  | |- wp (zoom _ _ _) _ _ _ => apply wp_zoom
  | |- wp (if ?b then _ else _) _ _ _ => destruct b eqn:?
  end.
Ltac wp_steps := repeat (wp_step; cbn beta).

(** Partial correctness: as [wp], but a panic is allowed.  It is used for the
    loops that serve a peer and that a misbehaving peer can crash. *)
Definition wlp {S A} (m : M S A) (Q : A → S → Prop) (E : S → Prop) (s : S) : Prop :=
  match m s with
  | (Ret a, s') => Q a s'
  | (Fail _, s') => E s'
  | (Panicked _, _) | (OutOfFuel, _) => True
  end.

Section wlp_rules.
Context {S : Type}.
Implicit Types (E : S → Prop) (s : S).

Lemma wlp_ret {A} (a : A) (Q : A → S → Prop) E s : Q a s → wlp (mret a) Q E s.
Proof. done. Qed.

Lemma wlp_bind {A B} (m : M S A) (f : A → M S B) (Q : B → S → Prop) E s :
  wlp m (λ a, wlp (f a) Q E) E s → wlp (m ≫= f) Q E s.
Proof. unfold wlp, mbind, M_bind. by destruct (m s) as [[] ?]. Qed.

Lemma wlp_mono {A} (m : M S A) (Q Q' : A → S → Prop) E E' s :
  wlp m Q E s → (∀ a s', Q a s' → Q' a s') → (∀ s', E s' → E' s') → wlp m Q' E' s.
Proof. unfold wlp. destruct (m s) as [[] ?]; eauto. Qed.

Lemma wlp_get (Q : S → S → Prop) E s : Q s s → wlp get_st Q E s.
Proof. done. Qed.

Lemma wlp_modify f (Q : unit → S → Prop) E s : Q tt (f s) → wlp (modify f) Q E s.
Proof. done. Qed.

Lemma wlp_run {A} (m : M S A) (Q : A → S → Prop) s :
  (∀ a s', m s = (Ret a, s') → Q a s') → wlp m Q (λ _, True) s.
Proof. unfold wlp. destruct (m s) as [[] ?]; auto. Qed.

Lemma wlp_lift {A} (o : Outcome A) (Q : A → S → Prop) E s :
  (∀ a, o = Ret a → Q a s) → E s → wlp (lift o) Q E s.
Proof. unfold wlp, lift. destruct o; auto. Qed.

Lemma wlp_context {A} ctx (m : M S A) (Q : A → S → Prop) E s :
  wlp m Q E s → wlp (with_context ctx m) Q E s.
Proof. unfold wlp, with_context. by destruct (m s) as [[] ?]. Qed.

Lemma wlp_or_warn (m : M S unit) (Q : unit → S → Prop) E s :
  wlp m Q (Q tt) s → wlp (or_warn m) Q E s.
Proof. unfold wlp, or_warn. by destruct (m s) as [[] ?]. Qed.

Lemma wlp_ok {A} (m : M S A) (Q : option A → S → Prop) E s :
  wlp m (λ a, Q (Some a)) (Q None) s → wlp (ok m) Q E s.
Proof. unfold wlp, ok. by destruct (m s) as [[] ?]. Qed.

Lemma wlp_zoom {T A} get set (m : M T A) (Q : A → S → Prop) E s :
  wlp m (λ a t, Q a (set t s)) (λ t, E (set t s)) (get s) → wlp (zoom get set m) Q E s.
Proof. unfold wlp, zoom. by destruct (m (get s)) as [[] ?]. Qed.

Lemma wlp_any {A} (m : M S A) (Q : A → S → Prop) E s :
  (∀ a s', Q a s') → (∀ s', E s') → wlp m Q E s.
Proof. unfold wlp. destruct (m s) as [[] ?]; auto. Qed.

(** A call on a part of the state that the conditions do not mention. *)
Lemma wlp_zoom_any {T A} get set (m : M T A) (Q : A → S → Prop) E s :
  (∀ a t, Q a (set t s)) → (∀ t, E (set t s)) → wlp (zoom get set m) Q E s.
Proof. unfold wlp, zoom. destruct (m (get s)) as [[] ?]; auto. Qed.

Lemma wlp_for_each {A} (I : S → Prop) (f : A → M S unit) E l s :
  I s → (∀ x s, I s → wlp (f x) (λ _, I) E s) → wlp (for_each l f) (λ _, I) E s.
Proof.
  intros HI Hf. revert s HI. induction l as [|x l IH]; intros s HI; [done|].
  apply wlp_bind. eapply wlp_mono; [by apply Hf| |done]. intros [] s' HI'. by apply IH.
Qed.
End wlp_rules.

(** What a program preserves whatever its outcome is, a panic included. *)
Definition stable {S A} (I : S → Prop) (m : M S A) : Prop := ∀ s, I s → I (m s).2.

Lemma wlp_stable {S A} (I : S → Prop) (m : M S A) s :
  stable I m → I s → wlp m (λ _, I) I s.
Proof. intros Hm Hs. specialize (Hm s Hs). unfold wlp. by destruct (m s) as [[] ?]. Qed.

Section stable_rules.
Context {S : Type} (I : S → Prop).

Lemma stable_ret {A} (a : A) : stable I (mret a).
Proof. by intros s. Qed.
Lemma stable_gets {A} (f : S → A) : stable I (gets f).
Proof. by intros s. Qed.
Lemma stable_lift {A} (o : Outcome A) : stable I (lift o).
Proof. by intros s. Qed.
Lemma stable_bail {A} e : stable I (bail e : M S A).
Proof. by intros s. Qed.
Lemma stable_modify f : (∀ s, I s → I (f s)) → stable I (modify f).
Proof. intros Hf s. apply Hf. Qed.
Lemma stable_bind {A B} (m : M S A) (f : A → M S B) :
  stable I m → (∀ a, stable I (f a)) → stable I (m ≫= f).
Proof.
  intros Hm Hf s HI. specialize (Hm s HI). unfold mbind, M_bind.
  destruct (m s) as [[] s']; auto. by apply Hf.
Qed.
Lemma stable_lift_bind {A B} (o : Outcome A) (f : A → M S B) :
  (∀ a, o = Ret a → stable I (f a)) → stable I (lift o ≫= f).
Proof. intros Hf s HI. destruct o; [by apply Hf|done..]. Qed.
Lemma stable_get_bind {B} (f : S → M S B) :
  (∀ s, I s → I (f s s).2) → stable I (get_st ≫= f).
Proof. intros Hf s HI. by apply Hf. Qed.
Lemma stable_read {B} (f : S → M S B) :
  (∀ s, I s → stable I (f s)) → stable I (get_st ≫= f).
Proof. intros Hf s Hs. by apply Hf. Qed.
Lemma stable_context {A} ctx (m : M S A) : stable I m → stable I (with_context ctx m).
Proof. intros Hm s HI. specialize (Hm s HI). unfold with_context. by destruct (m s). Qed.
Lemma stable_or_warn (m : M S unit) : stable I m → stable I (or_warn m).
Proof. intros Hm s HI. specialize (Hm s HI). unfold or_warn. by destruct (m s) as [[] ?]. Qed.
Lemma stable_ok {A} (m : M S A) : stable I m → stable I (ok m).
Proof. intros Hm s HI. specialize (Hm s HI). unfold ok. by destruct (m s) as [[] ?]. Qed.
Lemma stable_zoom {T A} get set (m : M T A) :
  (∀ s t, I s → I (set t s)) → stable I (zoom get set m).
Proof. intros Hs s HI. unfold zoom. destruct (m (get s)). by apply Hs. Qed.
Lemma stable_for_each {A} (f : A → M S unit) l : (∀ x, stable I (f x)) → stable I (for_each l f).
Proof.
  intros Hf. induction l; [apply stable_ret|]. apply stable_bind; [apply Hf|done].
Qed.
End stable_rules.

Create HintDb stable.
#[export] Hint Resolve stable_ret stable_gets stable_lift stable_bail stable_bind stable_context
  stable_or_warn stable_ok stable_zoom stable_for_each : stable.

(** ** Lemmas on iteration *)
Section iteration.
Context `{IterOrder}.

Lemma elem_of_iter_order {A} (x : A) l : x ∈ iter_order l ↔ x ∈ l.
Proof. by rewrite iter_order_perm. Qed.

Lemma length_iter_order {A} (l : list A) : length (iter_order l) = length l.
Proof. by rewrite iter_order_perm. Qed.

Lemma elem_of_map_iter `{Countable K} {V} (m : gmap K V) k v :
  (k, v) ∈ map_iter m ↔ m !! k = Some v.
Proof. unfold map_iter. by rewrite elem_of_iter_order, elem_of_map_to_list. Qed.

Lemma elem_of_keys_iter `{Countable K} {V} (m : gmap K V) k :
  k ∈ keys_iter m ↔ is_Some (m !! k).
Proof.
  unfold keys_iter. rewrite list_elem_of_fmap. split.
  - intros ([k' v] & -> & Hk%elem_of_map_iter). by exists v.
  - intros [v Hv]. exists (k, v). by rewrite elem_of_map_iter.
Qed.

Lemma elem_of_values_iter `{Countable K} {V} (m : gmap K V) v :
  v ∈ values_iter m ↔ ∃ k, m !! k = Some v.
Proof.
  unfold values_iter. rewrite list_elem_of_fmap. split.
  - intros ([k v'] & -> & Hk%elem_of_map_iter). by exists k.
  - intros [k Hk]. exists (k, v). by rewrite elem_of_map_iter.
Qed.

Lemma elem_of_set_iter `{Countable K} (s : gset K) k : k ∈ set_iter s ↔ k ∈ s.
Proof. unfold set_iter. by rewrite elem_of_iter_order, elem_of_elements. Qed.

Lemma map_iter_perm `{Countable K} {V} (m : gmap K V) : map_iter m ≡ₚ map_to_list m.
Proof. apply iter_order_perm. Qed.

Lemma NoDup_keys_iter `{Countable K} {V} (m : gmap K V) : NoDup (keys_iter m).
Proof.
  unfold keys_iter. rewrite map_iter_perm. apply NoDup_fst_map_to_list.
Qed.

Lemma NoDup_set_iter `{Countable K} (s : gset K) : NoDup (set_iter s).
Proof. unfold set_iter. rewrite iter_order_perm. apply NoDup_elements. Qed.

Lemma map_iter_empty `{Countable K} {V} : map_iter (∅ : gmap K V) = [].
Proof. apply Permutation_nil. by rewrite map_iter_perm, map_to_list_empty. Qed.
End iteration.

Create Rewrite HintDb iter.
#[export] Hint Rewrite @elem_of_iter_order @elem_of_map_iter @elem_of_keys_iter
  @elem_of_values_iter @elem_of_set_iter : iter.

(** ** Lemmas on heaps *)
Section heap_lemmas.
Context {E : Type} (leb : E → E → bool).

Lemma heap_max_perm x l m r : heap_max leb x l = (m, r) → x :: l ≡ₚ m :: r.
Proof.
  revert x m r. induction l as [|y l IH]; intros x m r; simpl; [by intros [= <- <-]|].
  destruct (leb x y); destruct (heap_max leb _ l) as [m' r'] eqn:Hm;
    intros [= <- <-]; apply IH in Hm.
  - rewrite Hm. constructor.
  - rewrite Permutation_swap, Hm. constructor.
Qed.

Lemma heap_pop_perm h m r : heap_pop leb h = Some (m, r) → h ≡ₚ m :: r.
Proof. destruct h as [|x h]; simpl; [done|]. intros [= Hm]. by apply heap_max_perm. Qed.

Lemma heap_pop_None h : heap_pop leb h = None ↔ h = [].
Proof. by destruct h. Qed.

Hypothesis leb_total : ∀ x y, leb x y = true ∨ leb y x = true.
Hypothesis leb_trans : ∀ x y z, leb x y = true → leb y z = true → leb x z = true.

Lemma heap_max_greatest x l m r :
  heap_max leb x l = (m, r) → leb x m = true ∧ ∀ y, y ∈ r → leb y m = true.
Proof.
  assert (∀ z, leb z z = true) as Hrefl by (intros z; by destruct (leb_total z z)).
  revert x m r. induction l as [|y l IH]; intros x m r; simpl.
  { intros [= <- <-]. split; [done|]. set_solver. }
  destruct (leb x y) eqn:Hxy; destruct (heap_max leb _ l) as [m' r'] eqn:Hm;
    intros [= <- <-]; apply IH in Hm as [H1 H2].
  - split; [by eauto|]. intros z [->|?]%elem_of_cons; eauto.
  - assert (leb y x = true) by (destruct (leb_total x y); congruence).
    split; [done|]. intros z [->|?]%elem_of_cons; eauto.
Qed.

(** [BinaryHeap::pop] returns a greatest element. *)
Lemma heap_pop_greatest h m r :
  heap_pop leb h = Some (m, r) → ∀ y, y ∈ h → leb y m = true.
Proof.
  assert (∀ z, leb z z = true) as Hrefl by (intros z; by destruct (leb_total z z)).
  destruct h as [|x h]; simpl; [done|]. intros [= Hm] y Hy.
  rewrite (heap_max_perm _ _ _ _ Hm) in Hy.
  apply heap_max_greatest in Hm as [_ Hm].
  apply elem_of_cons in Hy as [->|Hy]; eauto.
Qed.
End heap_lemmas.

(** ** Lemmas on outcomes *)
Lemma try_map_Ret {A B} (f : A → Outcome B) l ys :
  try_map f l = Ret ys ↔ Forall2 (λ x y, f x = Ret y) l ys.
Proof.
  revert ys. induction l as [|x l IH]; intros ys; simpl.
  { split; [intros [= <-]; constructor|]. by inversion 1. }
  destruct (f x) as [y|e|msg|] eqn:Hf; cbn;
    [|split; [done|]; inversion 1; congruence ..].
  destruct (try_map f l) as [zs|e|msg|] eqn:Hl; cbn;
    [|split; [done|]; inversion 1 as [|? ? ? zs' ? Hzs]; subst;
      apply IH in Hzs; congruence ..].
  split.
  - intros [= <-]. constructor; [done|]. by apply IH.
  - inversion 1 as [|? y' ? zs' Hy Hzs]; subst.
    apply IH in Hzs. congruence.
Qed.

Lemma try_map_perm {A B} (f : A → Outcome B) l l' ys :
  l ≡ₚ l' → try_map f l = Ret ys → ∃ ys', try_map f l' = Ret ys' ∧ ys ≡ₚ ys'.
Proof.
  setoid_rewrite try_map_Ret. intros Hl. revert ys.
  induction Hl as [|x l l' Hl IH|x y l|l1 l2 l3 H12 IH12 H23 IH23]; intros ys Hys.
  - exists ys. done.
  - inversion Hys as [|? b ? bs Hb Hbs]; subst. destruct (IH bs Hbs) as (ys' & ? & ?).
    exists (b :: ys'). split; [by constructor|by constructor].
  - inversion Hys as [|? b1 ? bs Hb1 Hbs]; subst. inversion Hbs as [|? b2 ? bs' Hb2 Hbs']; subst.
    exists (b2 :: b1 :: bs'). split; [by repeat constructor|constructor].
  - destruct (IH12 ys Hys) as (ys2 & H2 & ?). destruct (IH23 ys2 H2) as (ys3 & H3 & ?).
    exists ys3. split; [done|by trans ys2].
Qed.

Lemma try_map_length {A B} (f : A → Outcome B) l ys : try_map f l = Ret ys → length ys = length l.
Proof. rewrite try_map_Ret. intros Hf. by rewrite (Forall2_length _ _ _ Hf). Qed.

Lemma try_map_total {A B} (f : A → Outcome B) l :
  (∀ x, x ∈ l → ∃ y, f x = Ret y) → ∃ ys, try_map f l = Ret ys.
Proof.
  induction l as [|x l IH]; intros Hf; [by exists []|].
  destruct (Hf x) as [y Hy]; [set_solver|]. destruct IH as [ys Hys]; [set_solver|].
  exists (y :: ys). simpl. by rewrite Hy; simpl; rewrite Hys.
Qed.

(** A [HashMap] filled by a loop of [insert]. *)
Lemma foldl_insert_lookup {A V} `{Countable K} (key : A → K) (val : A → V) l (m : gmap K V) x :
  NoDup (key <$> l) → x ∈ l → foldl (λ m y, <[key y := val y]> m) m l !! key x = Some (val x).
Proof.
  revert m. induction l as [|y l IH]; intros m; simpl; [set_solver|].
  rewrite NoDup_cons. intros [Hy Hl] [->|Hx]%elem_of_cons; [|by apply IH].
  clear IH Hl. revert m Hy. induction l as [|z l IH]; intros m Hy; simpl; [apply lookup_insert_eq|].
  rewrite insert_insert_ne; [apply IH|]; set_solver.
Qed.

Lemma foldl_insert_lookup_None {A V} `{Countable K} (key : A → K) (val : A → V) l (m : gmap K V) k :
  k ∉ key <$> l → foldl (λ m y, <[key y := val y]> m) m l !! k = m !! k.
Proof.
  revert m. induction l as [|y l IH]; intros m Hk; simpl; [done|].
  rewrite IH by set_solver. apply lookup_insert_ne. set_solver.
Qed.

Lemma unwrap_Ret {A} msg (o : option A) a : unwrap msg o = Ret a ↔ o = Some a.
Proof. destruct o; split; naive_solver. Qed.

Lemma u64_add_Ret `{BuildProfile} a b :
  (a + b < u64_modulus)%N → u64_add a b = Ret (a + b)%N.
Proof. intros ?. unfold u64_add. by rewrite (proj2 (N.ltb_lt _ _)). Qed.

Lemma u64_sub_Ret `{BuildProfile} a b : (b ≤ a)%N → u64_sub a b = Ret (a - b)%N.
Proof. intros ?. unfold u64_sub. by rewrite (proj2 (N.leb_le _ _)). Qed.

(** The result of a run, the final state left as it is. *)
Lemma run_result {A B} (p : A * B) a : p.1 = a → p = (a, p.2).
Proof. by destruct p; intros <-. Qed.

Lemma from_ret_eq {A} (d : A) o : is_ret o = true → o = Ret (from_ret d o).
Proof. by destruct o. Qed.

(** ** Lemmas on lists *)
Lemma NoDup_fmap_inj_on {A B} (f : A → B) l x y :
  NoDup (f <$> l) → x ∈ l → y ∈ l → f x = f y → x = y.
Proof.
  induction l as [|z l IH]; [set_solver|]. rewrite fmap_cons, NoDup_cons. intros [Hz Hl].
  intros [->|Hx]%elem_of_cons [->|Hy]%elem_of_cons Hf; auto; exfalso; apply Hz.
  - rewrite Hf. by apply list_elem_of_fmap_2.
  - rewrite <-Hf. by apply list_elem_of_fmap_2.
Qed.
