(* ===== verification/Float64.v ===== *)
(** * IEEE 754 binary64 numbers

    The [f64] of the source is the standard library's [spec_float] at the
    parameters of binary64: a signed zero, an infinity, a NaN, or a mantissa and
    an exponent, with the exactly rounded operations.  This file instantiates
    the operations the source uses and proves the order facts the components
    need. *)
From Stdlib Require Export Floats.SpecFloat.
From S2P Require Import Prelude.

Abbreviation f64 := spec_float.

Definition f64_prec : Z := 53.
Definition f64_emax : Z := 1024.

#[export] Instance f64_eq_dec : EqDecision f64.
Proof. solve_decision. Defined.

Definition f64_add : f64 → f64 → f64 := SFadd f64_prec f64_emax.
Definition f64_sub : f64 → f64 → f64 := SFsub f64_prec f64_emax.
Definition f64_mul : f64 → f64 → f64 := SFmul f64_prec f64_emax.
Definition f64_div : f64 → f64 → f64 := SFdiv f64_prec f64_emax.
Definition f64_abs : f64 → f64 := SFabs.
(** The comparison operators of Rust: all false on a NaN. *)
Definition f64_eqb : f64 → f64 → bool := SFeqb.
Definition f64_ltb : f64 → f64 → bool := SFltb.
Definition f64_leb : f64 → f64 → bool := SFleb.
Definition f64_gtb (x y : f64) : bool := f64_ltb y x.
(** [f64::partial_cmp]. *)
Definition f64_partial_cmp : f64 → f64 → option comparison := SFcompare.

(** The conversion of an integer, rounded to nearest. *)
Definition f64_of_Z (z : Z) : f64 := binary_normalize f64_prec f64_emax z 0 false.

(** A decimal literal [m * 10^-k], rounded to nearest (exact numerator and
    denominator below [2^53]). *)
Definition f64_dec (m : Z) (k : nat) : f64 := f64_div (f64_of_Z m) (f64_of_Z (10 ^ Z.of_nat k)).

Definition f64_zero : f64 := S754_zero false.
Definition f64_one : f64 := f64_of_Z 1.

Definition is_nan (x : f64) : bool := match x with S754_nan => true | _ => false end.
Definition is_finite (x : f64) : bool :=
  match x with S754_zero _ | S754_finite _ _ _ => true | _ => false end.

Example f64_dec_half : f64_dec 5 1 = S754_finite false 4503599627370496 (-53).
Proof. reflexivity. Qed.

(** ** Comparison *)
Section compare.
Implicit Types (x y z : f64).

Lemma f64_compare_refl x : is_nan x = false → SFcompare x x = Some Eq.
Proof.
  destruct x as [s|s| |s m e]; intros; try done; [by destruct s..|].
  simpl. rewrite Z.compare_refl.
  change (PosDef.Pos.compare_cont Eq m m) with (m ?= m)%positive.
  rewrite Pos.compare_refl. by destruct s.
Qed.

Lemma f64_compare_antisym x y :
  SFcompare y x = CompOpp <$> SFcompare x y.
Proof.
  destruct x as [[]|[]| |[] m e], y as [[]|[]| |[] m' e']; try done; simpl;
    change (PosDef.Pos.compare_cont Eq) with Pos.compare;
    rewrite (Z.compare_antisym e e'), (Pos.compare_antisym m m');
    by destruct (e ?= e')%Z, (m ?= m')%positive.
Qed.

Lemma f64_compare_None x y : SFcompare x y = None ↔ is_nan x = true ∨ is_nan y = true.
Proof. destruct x, y; simpl; intuition congruence. Qed.

(** The key under which the order is the lexicographic order of integers. *)
Definition f64_rank x : Z * Z * Z :=
  match x with
  | S754_nan => (0, 0, 0)
  | S754_zero _ => (0, 0, 0)
  | S754_infinity true => (-2, 0, 0)
  | S754_infinity false => (2, 0, 0)
  | S754_finite true m e => (-1, -e, Zneg m)
  | S754_finite false m e => (1, e, Zpos m)
  end%Z.

Definition rank_compare (a b : Z * Z * Z) : comparison :=
  match (a.1.1 ?= b.1.1)%Z with
  | Eq => match (a.1.2 ?= b.1.2)%Z with Eq => (a.2 ?= b.2)%Z | c => c end
  | c => c
  end.

Lemma f64_compare_rank x y :
  is_nan x = false → is_nan y = false →
  SFcompare x y = Some (rank_compare (f64_rank x) (f64_rank y)).
Proof.
  destruct x as [[]|[]| |[] m e], y as [[]|[]| |[] m' e']; intros; try done;
    unfold rank_compare; simpl; change (PosDef.Pos.compare_cont Eq) with Pos.compare;
    rewrite ?Z.compare_opp; try done;
    rewrite ?(Z.compare_antisym e e'), ?(Pos.compare_antisym m m');
    by destruct (e ?= e')%Z, (m ?= m')%positive.
Qed.

Lemma rank_compare_Lt a b :
  rank_compare a b = Lt ↔
  (a.1.1 < b.1.1 ∨ a.1.1 = b.1.1 ∧ (a.1.2 < b.1.2 ∨ a.1.2 = b.1.2 ∧ a.2 < b.2))%Z.
Proof.
  unfold rank_compare.
  destruct (Z.compare_spec a.1.1 b.1.1); [|split; [lia|done]|split; [done|lia]].
  destruct (Z.compare_spec a.1.2 b.1.2); [|split; [lia|done]|split; [done|lia]].
  destruct (Z.compare_spec a.2 b.2); split; (done || lia).
Qed.

Lemma rank_compare_opp a b : rank_compare b a = CompOpp (rank_compare a b).
Proof.
  unfold rank_compare.
  rewrite (Z.compare_antisym a.1.1), (Z.compare_antisym a.1.2), (Z.compare_antisym a.2).
  by destruct (a.1.1 ?= b.1.1)%Z, (a.1.2 ?= b.1.2)%Z, (a.2 ?= b.2)%Z.
Qed.

Lemma f64_ltb_rank x y :
  f64_ltb x y = true ↔
  is_nan x = false ∧ is_nan y = false ∧ rank_compare (f64_rank x) (f64_rank y) = Lt.
Proof.
  unfold f64_ltb, SFltb.
  destruct (is_nan x) eqn:Hx; [destruct x; simplify_eq/=; intuition congruence|].
  destruct (is_nan y) eqn:Hy; [destruct x, y; simplify_eq/=; intuition congruence|].
  rewrite f64_compare_rank by done. destruct (rank_compare _ _); intuition congruence.
Qed.

Lemma f64_leb_rank x y :
  f64_leb x y = true ↔
  is_nan x = false ∧ is_nan y = false ∧ rank_compare (f64_rank y) (f64_rank x) ≠ Lt.
Proof.
  unfold f64_leb, SFleb.
  destruct (is_nan x) eqn:Hx; [destruct x; simplify_eq/=; intuition congruence|].
  destruct (is_nan y) eqn:Hy; [destruct x, y; simplify_eq/=; intuition congruence|].
  rewrite f64_compare_rank, (rank_compare_opp (f64_rank x)) by done.
  destruct (rank_compare _ _); simpl; intuition congruence.
Qed.

Lemma f64_ltb_irrefl x : f64_ltb x x = false.
Proof.
  apply not_true_iff_false. rewrite f64_ltb_rank, rank_compare_Lt. lia.
Qed.

Lemma f64_ltb_trans x y z : f64_ltb x y = true → f64_ltb y z = true → f64_ltb x z = true.
Proof. rewrite !f64_ltb_rank, !rank_compare_Lt. intuition lia. Qed.

Lemma f64_leb_refl x : is_nan x = false → f64_leb x x = true.
Proof. intros. rewrite f64_leb_rank, rank_compare_Lt. split_and!; [done..|lia]. Qed.

Lemma f64_leb_trans x y z : f64_leb x y = true → f64_leb y z = true → f64_leb x z = true.
Proof. rewrite !f64_leb_rank, !rank_compare_Lt. intuition lia. Qed.

Lemma f64_ltb_leb x y :
  is_nan x = false → is_nan y = false → f64_ltb x y = negb (f64_leb y x).
Proof.
  intros. apply eq_true_iff_eq.
  rewrite negb_true_iff, <- not_true_iff_false, f64_ltb_rank, f64_leb_rank.
  rewrite !rank_compare_Lt. intuition lia.
Qed.

Lemma f64_leb_total x y :
  is_nan x = false → is_nan y = false → f64_leb x y = true ∨ f64_leb y x = true.
Proof.
  intros. destruct (f64_leb x y) eqn:Hxy; [by left|right].
  apply not_true_iff_false in Hxy. revert Hxy. rewrite !f64_leb_rank, !rank_compare_Lt.
  intuition lia.
Qed.

Lemma f64_gtb_irrefl x : f64_gtb x x = false.
Proof. apply f64_ltb_irrefl. Qed.
End compare.

(** ** Arithmetic *)
Lemma f64_sub_diag x : is_finite x = true → f64_sub x x = f64_zero.
Proof.
  destruct x as [[]|s| |s m e]; try done; intros _.
  unfold f64_sub, SFsub. by rewrite Z.sub_diag.
Qed.

Lemma f64_add_zero_r x : is_nan x = false → f64_leb (f64_add x f64_zero) x = true.
Proof.
  destruct x as [[]|[]| |s m e]; try done; intros _.
  by apply f64_leb_refl.
Qed.
