(* ===== verification/RustOrd.v ===== *)
(** * The [Ord] trait, sorting and priority queues

    The source orders tuples, paths, hashes and index entries through Rust's
    [Ord] trait.  The trait is a type class with one operation; its laws are
    split in two classes because one implementation of the source
    ([FileStoreIndexItem]) is a total preorder whose [Equal] is not equality. *)
From S2P Require Import Prelude.

(** [Ord::cmp]. *)
Class Ord (A : Type) : Type := cmp : A → A → comparison.

(** A total preorder. *)
Class TotalPreOrd (A : Type) `{Ord A} : Prop := {
  cmp_opp (x y : A) : cmp y x = CompOpp (cmp x y);
  cmp_le_trans (x y z : A) : cmp x y ≠ Gt → cmp y z ≠ Gt → cmp x z ≠ Gt
}.

(** The contract of the trait: the order is total and agrees with equality. *)
Class TotalOrd (A : Type) `{Ord A} : Prop := {
  total_ord_pre :: TotalPreOrd A;
  cmp_eq (x y : A) : cmp x y = Eq → x = y
}.

Definition ord_leb {A} `{Ord A} (x y : A) : bool :=
  match cmp x y with Gt => false | _ => true end.

Definition ord_le {A} `{Ord A} (x y : A) : Prop := ord_leb x y = true.
#[export] Instance ord_le_dec {A} `{Ord A} (x y : A) : Decision (ord_le x y).
Proof. unfold ord_le. apply _. Defined.

(** [slice::sort] and [Itertools::sorted]. *)
Definition sorted {A} `{Ord A} (l : list A) : list A :=
  merge_sort ord_le l.

(** [BinaryHeap::pop] for an element type with an [Ord] instance. *)
Definition ord_pop {A} `{Ord A} : list A → option (A * list A) := heap_pop ord_leb.

(** ** Instances of the standard library *)
#[export] Instance N_ord : Ord N := N.compare.
#[export] Instance Z_ord : Ord Z := Z.compare.

(** [#[derive(Ord)]] on a tuple: lexicographic. *)
#[export] Instance prod_ord {A B} `{Ord A} `{Ord B} : Ord (A * B) := λ p q,
  match cmp p.1 q.1 with Eq => cmp p.2 q.2 | c => c end.

(** Slices: lexicographic, a proper prefix comes first. *)
Fixpoint list_cmp {A} `{Ord A} (l k : list A) : comparison :=
  match l, k with
  | [], [] => Eq
  | [], _ :: _ => Lt
  | _ :: _, [] => Gt
  | x :: l, y :: k => match cmp x y with Eq => list_cmp l k | c => c end
  end.
#[export] Instance list_ord {A} `{Ord A} : Ord (list A) := list_cmp.

(** [bool]: [false < true]. *)
#[export] Instance bool_ord : Ord bool := λ a b,
  match a, b with false, true => Lt | true, false => Gt | _, _ => Eq end.

(** [str]: the order of the bytes. *)
Definition string_bytes (s : string) : list N := Ascii.N_of_ascii <$> String.list_ascii_of_string s.
#[export] Instance string_ord : Ord string := λ s t, cmp (string_bytes s) (string_bytes t).

(** An order pulled back along a function. *)
Definition ord_by {A B} `{Ord B} (f : A → B) : Ord A := λ x y, cmp (f x) (f y).

(** ** Laws *)
Section laws.
Context {A : Type} `{TotalPreOrd A}.
Implicit Types (x y z : A).

Lemma cmp_refl x : cmp x x = Eq.
Proof. pose proof (cmp_opp x x) as Hx. by destruct (cmp x x). Qed.

Lemma cmp_Gt_Lt x y : cmp x y = Gt ↔ cmp y x = Lt.
Proof. rewrite (cmp_opp x y). by destruct (cmp x y). Qed.

Lemma cmp_Eq_sym x y : cmp x y = Eq → cmp y x = Eq.
Proof. rewrite (cmp_opp x y). by intros ->. Qed.

Lemma cmp_Eq_trans x y z : cmp x y = Eq → cmp y z = Eq → cmp x z = Eq.
Proof.
  intros Hxy Hyz.
  pose proof (cmp_le_trans x y z). pose proof (cmp_le_trans z y x) as Hzx.
  rewrite (cmp_opp x z), (cmp_opp y z), (cmp_opp x y), Hxy, Hyz in Hzx.
  rewrite Hxy, Hyz in *. destruct (cmp x z); simpl in *; naive_solver.
Qed.

Lemma cmp_Lt_le_trans x y z : cmp x y = Lt → cmp y z ≠ Gt → cmp x z = Lt.
Proof.
  intros Hxy Hyz. pose proof (cmp_le_trans x y z) as H1.
  pose proof (cmp_le_trans y z x) as H2.
  rewrite (cmp_opp x y), (cmp_opp x z), Hxy in H2. rewrite Hxy in H1.
  destruct (cmp x z); simpl in *; naive_solver.
Qed.

Lemma cmp_le_Lt_trans x y z : cmp x y ≠ Gt → cmp y z = Lt → cmp x z = Lt.
Proof.
  intros Hxy Hyz. pose proof (cmp_le_trans x y z) as H1.
  pose proof (cmp_le_trans z x y) as H2.
  rewrite (cmp_opp y z), (cmp_opp x z), Hyz in H2. rewrite Hyz in H1.
  destruct (cmp x z); simpl in *; naive_solver.
Qed.

Lemma ord_leb_le x y : ord_leb x y = true ↔ cmp x y ≠ Gt.
Proof. unfold ord_leb. destruct (cmp x y); naive_solver. Qed.

Lemma ord_leb_total x y : ord_leb x y = true ∨ ord_leb y x = true.
Proof. rewrite !ord_leb_le, (cmp_opp x y). destruct (cmp x y); naive_solver. Qed.

Lemma ord_leb_trans x y z : ord_leb x y = true → ord_leb y z = true → ord_leb x z = true.
Proof. rewrite !ord_leb_le. apply cmp_le_trans. Qed.

#[export] Instance ord_leb_Total : Total ord_le.
Proof. intros x y. apply ord_leb_total. Qed.
#[export] Instance ord_leb_Transitive : Transitive ord_le.
Proof. intros x y z. apply ord_leb_trans. Qed.

Lemma ord_pop_greatest h m r :
  ord_pop h = Some (m, r) → ∀ y, y ∈ h → cmp y m ≠ Gt.
Proof.
  intros Hp y Hy. apply ord_leb_le.
  eapply heap_pop_greatest; eauto using ord_leb_total, ord_leb_trans.
Qed.

Lemma sorted_perm (l : list A) : sorted l ≡ₚ l.
Proof. apply (merge_sort_Permutation ord_le). Qed.

Lemma sorted_StronglySorted (l : list A) :
  StronglySorted ord_le (sorted l).
Proof. apply (StronglySorted_merge_sort ord_le). Qed.
End laws.

Lemma ord_pop_perm {A} `{Ord A} h (m : A) r : ord_pop h = Some (m, r) → h ≡ₚ m :: r.
Proof. apply heap_pop_perm. Qed.

Lemma ord_pop_None {A} `{Ord A} (h : list A) : ord_pop h = None ↔ h = [].
Proof. apply heap_pop_None. Qed.

Section total_laws.
Context {A : Type} `{TotalOrd A}.

Lemma cmp_eq_iff (x y : A) : cmp x y = Eq ↔ x = y.
Proof. split; [apply cmp_eq|]. intros ->. apply cmp_refl. Qed.

#[export] Instance ord_leb_AntiSymm : AntiSymm (=) (@ord_le A _).
Proof.
  intros x y. unfold ord_le. rewrite !ord_leb_le, (cmp_opp x y). intros.
  apply cmp_eq. destruct (cmp x y); simpl in *; naive_solver.
Qed.

(** Sorting forgets the order of the input. *)
Lemma sorted_unique (l k : list A) : l ≡ₚ k → sorted l = sorted k.
Proof.
  intros Hlk. apply (StronglySorted_unique ord_le).
  - apply sorted_StronglySorted.
  - apply sorted_StronglySorted.
  - by rewrite !sorted_perm.
Qed.
End total_laws.

(** ** The instances satisfy the laws *)
#[export] Instance N_total : TotalOrd N.
Proof.
  split; [split|].
  - intros x y. apply N.compare_antisym.
  - intros x y z. unfold cmp, N_ord. rewrite !N.compare_le_iff. lia.
  - intros x y. apply N.compare_eq.
Qed.

#[export] Instance Z_total : TotalOrd Z.
Proof.
  split; [split|].
  - intros x y. apply Z.compare_antisym.
  - intros x y z. unfold cmp, Z_ord. rewrite !Z.compare_le_iff. lia.
  - intros x y. apply Z.compare_eq.
Qed.

#[export] Instance bool_total : TotalOrd bool.
Proof.
  split; [split|].
  - by intros [] [].
  - intros [] [] []; cbv; intuition congruence.
  - by intros [] [].
Qed.

#[export] Instance prod_pre {A B} `{TotalPreOrd A} `{TotalPreOrd B} : TotalPreOrd (A * B).
Proof.
  split.
  - intros [a b] [c d]. unfold cmp, prod_ord. simpl.
    rewrite (cmp_opp a c), (cmp_opp b d). by destruct (cmp a c).
  - intros [a b] [c d] [e f]. unfold cmp, prod_ord. simpl.
    destruct (cmp a c) eqn:Hac; destruct (cmp c e) eqn:Hce; try done; intros H3 H4.
    + rewrite (cmp_Eq_trans a c e) by done. by apply (cmp_le_trans b d f).
    + by rewrite (cmp_le_Lt_trans a c e) by congruence.
    + by rewrite (cmp_Lt_le_trans a c e) by congruence.
    + by rewrite (cmp_Lt_le_trans a c e) by congruence.
Qed.

#[export] Instance prod_total {A B} `{TotalOrd A} `{TotalOrd B} : TotalOrd (A * B).
Proof.
  split; [apply _|]. intros [a b] [c d]. unfold cmp, prod_ord. simpl.
  destruct (cmp a c) eqn:Hac; try done. intros Hbd. f_equal; by apply cmp_eq.
Qed.

#[export] Instance list_pre {A} `{TotalPreOrd A} : TotalPreOrd (list A).
Proof.
  split.
  - intros l k. change (list_cmp k l = CompOpp (list_cmp l k)).
    revert k. induction l as [|x l IH]; intros [|y k]; try done. simpl.
    rewrite (cmp_opp x y), IH. by destruct (cmp x y).
  - intros l k j. change (list_cmp l k ≠ Gt → list_cmp k j ≠ Gt → list_cmp l j ≠ Gt).
    revert k j. induction l as [|x l IH]; intros [|y k] [|z j]; try done. simpl.
    destruct (cmp x y) eqn:Hxy; destruct (cmp y z) eqn:Hyz; try done; intros H3 H4.
    + rewrite (cmp_Eq_trans x y z) by done. eauto.
    + by rewrite (cmp_le_Lt_trans x y z) by congruence.
    + by rewrite (cmp_Lt_le_trans x y z) by congruence.
    + by rewrite (cmp_Lt_le_trans x y z) by congruence.
Qed.

#[export] Instance list_total {A} `{TotalOrd A} : TotalOrd (list A).
Proof.
  split; [apply _|]. intros l k. change (list_cmp l k = Eq → l = k).
  revert k. induction l as [|x l IH]; intros [|y k]; try done. simpl.
  destruct (cmp x y) eqn:Hxy; try done. intros Hlk. f_equal; [by apply cmp_eq|by apply IH].
Qed.

Lemma ord_by_pre {A B} `{TotalPreOrd B} (f : A → B) :
  @TotalPreOrd A (ord_by f).
Proof.
  split; intros; unfold cmp, ord_by in *; [apply cmp_opp|by eapply cmp_le_trans].
Qed.

Lemma ord_by_total {A B} `{TotalOrd B} (f : A → B) `{!Inj (=) (=) f} :
  @TotalOrd A (ord_by f).
Proof.
  split; [apply ord_by_pre|]. intros x y Hxy. apply (inj f), cmp_eq, Hxy.
Qed.

#[export] Instance string_bytes_inj : Inj (=) (=) string_bytes.
Proof.
  intros s t Hst. apply (list_fmap_eq_inj Ascii.N_of_ascii) in Hst.
  - apply (f_equal String.string_of_list_ascii) in Hst.
    by rewrite !String.string_of_list_ascii_of_string in Hst.
  - intros a b Hab. apply (f_equal Ascii.ascii_of_N) in Hab. by rewrite !Ascii.ascii_N_embedding in Hab.
Qed.

#[export] Instance string_total : TotalOrd string.
Proof. apply (ord_by_total string_bytes). Qed.
