(* ===== verification/Paths.v ===== *)
(** * Paths

    A [PathBuf] is compared, hashed and ordered by its components, so it is the
    list of them.  [path_of_string] is the parsing of [Path::components]: empty
    components disappear and so does a [.] that does not come first. *)
From S2P Require Import Prelude RustOrd.

Inductive Component : Type :=
  | RootDir
  | CurDir
  | ParentDir
  | Normal (name : string).

#[export] Instance Component_eq_dec : EqDecision Component.
Proof. solve_decision. Defined.

Definition Component_code (c : Component) : N * string :=
  match c with
  | RootDir => (0%N, EmptyString)
  | CurDir => (1%N, EmptyString)
  | ParentDir => (2%N, EmptyString)
  | Normal s => (3%N, s)
  end.
Definition Component_decode (p : N * string) : option Component :=
  match p with
  | (0%N, _) => Some RootDir
  | (1%N, _) => Some CurDir
  | (2%N, _) => Some ParentDir
  | (_, s) => Some (Normal s)
  end.

Lemma Component_decode_code c : Component_decode (Component_code c) = Some c.
Proof. by destruct c. Qed.

#[export] Instance Component_countable : Countable Component :=
  inj_countable Component_code Component_decode Component_decode_code.

(** [#[derive(Ord)]] on [std::path::Component]: the constructors in order. *)
#[export] Instance Component_ord : Ord Component := ord_by Component_code.

#[export] Instance Component_code_inj : Inj (=) (=) Component_code.
Proof. intros [] [] [=]; congruence. Qed.

#[export] Instance Component_total : TotalOrd Component.
Proof. apply (ord_by_total Component_code). Qed.

Abbreviation PathBuf := (list Component).

Definition slash : Ascii.ascii := Ascii.ascii_of_N 47.

(** [str::split] on one character. *)
Fixpoint split_char_go (c : Ascii.ascii) (acc : string) (s : string) : list string :=
  match s with
  | EmptyString => [acc]
  | String.String a s =>
      if decide (a = c) then acc :: split_char_go c EmptyString s
      else split_char_go c (acc +:+ String.String a EmptyString) s
  end.
Definition split_char (c : Ascii.ascii) (s : string) : list string := split_char_go c EmptyString s.

Definition component_of_piece (first : bool) (p : string) : option Component :=
  if decide (p = EmptyString) then None
  else if decide (p = ".") then (if first then Some CurDir else None)
  else if decide (p = "..") then Some ParentDir
  else Some (Normal p).

Definition path_of_string (s : string) : PathBuf :=
  match split_char slash s with
  | [] => []
  | [EmptyString] => []
  | EmptyString :: ps => RootDir :: omap (component_of_piece false) ps
  | p :: ps => option_list (component_of_piece true p) ++ omap (component_of_piece false) ps
  end.

Definition component_to_string (c : Component) : string :=
  match c with
  | RootDir => "/"
  | CurDir => "."
  | ParentDir => ".."
  | Normal s => s
  end.

(** [Path::to_string_lossy]. *)
Fixpoint path_to_string (p : PathBuf) : string :=
  match p with
  | [] => EmptyString
  | [c] => component_to_string c
  | RootDir :: p => "/" +:+ path_to_string p
  | c :: p => component_to_string c +:+ "/" +:+ path_to_string p
  end.

(** [Path::join]: an absolute argument replaces the receiver. *)
Definition path_join (p q : PathBuf) : PathBuf :=
  match q with
  | RootDir :: _ => q
  | CurDir :: q' => if decide (p = []) then q else p ++ q'
  | _ => p ++ q
  end.

(** [Path::parent]. *)
Definition path_parent (p : PathBuf) : option PathBuf :=
  match reverse p with
  | [] => None
  | RootDir :: _ => None
  | _ :: r => Some (reverse r)
  end.

(** [Path::with_extension] on a path that ends with a file name: what follows
    the last dot of the name is replaced. *)
Definition dot : Ascii.ascii := Ascii.ascii_of_N 46.
Fixpoint join_string (sep : string) (l : list string) : string :=
  match l with
  | [] => EmptyString
  | [s] => s
  | s :: l => s +:+ sep +:+ join_string sep l
  end.
Definition file_stem (name : string) : string :=
  match split_char dot name with
  | [] | [_] => name
  | [EmptyString; _] => name
  | pieces => join_string "." (removelast pieces)
  end.
Definition with_extension (ext : string) (p : PathBuf) : PathBuf :=
  match reverse p with
  | Normal name :: r => reverse r ++ [Normal (file_stem name +:+ "." +:+ ext)]
  | _ => p
  end.

(** [Path::file_name]: the last component, when it is a name. *)
Definition path_file_name (p : PathBuf) : option string :=
  match last p with Some (Normal name) => Some name | _ => None end.
(** [Path::file_stem]. *)
Definition path_file_stem (p : PathBuf) : option string := file_stem <$> path_file_name p.
(** [Path::extension]: what follows the last dot, unless the name starts with it. *)
Definition name_extension (name : string) : option string :=
  match reverse (split_char dot name) with
  | [] | [_] | [_; EmptyString] => None
  | ext :: _ => Some ext
  end.
Definition path_extension (p : PathBuf) : option string := path_file_name p ≫= name_extension.
(** [Path::with_file_name]: the name is dropped and the argument is pushed. *)
Definition with_file_name (p name : PathBuf) : PathBuf :=
  path_join (match path_file_name p with Some _ => removelast p | None => p end) name.

Example path_extension_ex :
  path_extension <$> [[Normal "a.tar.gz"]; [Normal ".gz"]; [Normal "gz"]; [Normal "a."]; [ParentDir]] =
  [Some "gz"; None; None; Some EmptyString; None].
Proof. reflexivity. Qed.
Example with_file_name_ex :
  with_file_name [RootDir; Normal "a"; Normal "b.c"] [Normal "x"; Normal "y"] =
  [RootDir; Normal "a"; Normal "x"; Normal "y"].
Proof. reflexivity. Qed.

Example with_extension_ex :
  with_extension "tmp" [Normal "a.b"; Normal "index.bin"] = [Normal "a.b"; Normal "index.tmp"].
Proof. reflexivity. Qed.

Example path_parse_ex :
  path_of_string "a//b/./c/" = [Normal "a"; Normal "b"; Normal "c"].
Proof. reflexivity. Qed.

Example path_parse_abs : path_of_string "/a/.." = [RootDir; Normal "a"; ParentDir].
Proof. reflexivity. Qed.

Example path_order_ex :
  cmp (path_of_string "a/b") (path_of_string "a.b") = Lt.
Proof. reflexivity. Qed.

Lemma path_join_relative p s q : path_join p (Normal s :: q) = p ++ Normal s :: q.
Proof. done. Qed.

Lemma path_parent_app p s : path_parent (p ++ [Normal s]) = Some p.
Proof. unfold path_parent. rewrite reverse_snoc. simpl. by rewrite reverse_involutive. Qed.

Lemma with_extension_app ext p name :
  with_extension ext (p ++ [Normal name]) = p ++ [Normal (file_stem name +:+ "." +:+ ext)].
Proof. unfold with_extension. rewrite reverse_snoc. by rewrite reverse_involutive. Qed.
