(* ===== verification/StoreKey.v ===== *)
(** * Keys of the file store ([task-maker-store/src/lib.rs], [FileStoreKey])

    A key is the hash of a file's content.  The hash function and its
    hexadecimal rendering belong to the [blake3] crate and are parameters. *)
From Stdlib Require Export Init.Byte.
From stdpp Require Export vector.
From S2P Require Import Prelude RustOrd Paths.

#[export] Instance byte_eq_dec : EqDecision byte := Byte.byte_eq_dec.
#[export] Instance byte_countable : Countable byte.
Proof.
  refine (inj_countable Byte.to_N Byte.of_N _).
  intros b. apply Byte.of_to_N.
Defined.
#[export] Instance byte_ord : Ord byte := ord_by Byte.to_N.
#[export] Instance byte_to_N_inj : Inj (=) (=) Byte.to_N.
Proof.
  intros a b Hab. apply (f_equal Byte.of_N) in Hab. rewrite !Byte.of_to_N in Hab. congruence.
Qed.
#[export] Instance byte_total : TotalOrd byte.
Proof. apply (ord_by_total Byte.to_N). Qed.

(** The [blake3] crate: [blake3::hash] (also the streaming [Hasher], which
    hashes the concatenation of the chunks it is fed), a digest of 32 bytes, and
    [Hash::to_hex], its rendering as 64 characters. *)
Abbreviation Hash := (vec byte 32) (only parsing).
Class Blake3 : Type := {
  blake3_hash : list byte → Hash;
  to_hex : Hash → string;
  to_hex_length (h : Hash) : String.length (to_hex h) = 64;
  to_hex_inj :: Inj (=) (=) to_hex
}.

Record FileStoreKey : Type := mkKey { key_hash : Hash }.

#[export] Instance FileStoreKey_eq_dec : EqDecision FileStoreKey.
Proof. solve_decision. Defined.
(** The first [n] bytes of a list, padded with zeros. *)
Fixpoint pad_vec (n : nat) (l : list byte) : vec byte n :=
  match n with
  | O => [#]
  | S n => match l with [] => Byte.x00 ::: pad_vec n [] | b :: l => b ::: pad_vec n l end
  end.

Lemma pad_vec_to_list {n} (v : vec byte n) : pad_vec n (vec_to_list v) = v.
Proof. induction v as [|b n v IH]; simpl; [done|]. by rewrite IH. Qed.

#[export] Instance FileStoreKey_countable : Countable FileStoreKey.
Proof.
  refine (inj_countable (λ k, vec_to_list (key_hash k)) (λ l, Some (mkKey (pad_vec 32 l))) _).
  intros [h]. do 2 f_equal. apply pad_vec_to_list.
Defined.
(** [Ord]: the order of the bytes of the hash. *)
#[export] Instance FileStoreKey_ord : Ord FileStoreKey := ord_by (λ k, vec_to_list (key_hash k)).

Section key.
Context `{Blake3}.

(** [FileStoreKey::from_content]. *)
Definition from_content (content : list byte) : FileStoreKey := mkKey (blake3_hash content).

(** The loop of [FileStoreKey::from_file] over the chunks of the file. *)
Definition from_chunks (chunks : list (list byte)) : FileStoreKey :=
  mkKey (blake3_hash (concat chunks)).

(** [FileStoreKey::suffix]: [aa/bb/aabb...]. *)
Definition suffix (k : FileStoreKey) : PathBuf :=
  let full := to_hex (key_hash k) in
  [Normal (String.substring 0 2 full); Normal (String.substring 2 2 full); Normal full].

#[export] Instance suffix_inj : Inj (=) (=) suffix.
Proof.
  intros [h1] [h2]. unfold suffix. simpl. intros [= _ _ Hfull%(inj to_hex)]. by subst.
Qed.
End key.

#[export] Instance FileStoreKey_total : TotalOrd FileStoreKey.
Proof.
  assert (Inj (=) (=) (λ k : FileStoreKey, vec_to_list (key_hash k))).
  { intros [h] [k]. simpl. intros Hhk%vec_to_list_inj2. congruence. }
  exact (ord_by_total (λ k, vec_to_list (key_hash k))).
Qed.

(** A concrete instance, to evaluate the model: the first 32 bytes of the
    content, padded, and the usual hexadecimal digits. *)
Definition hex_digit (n : N) : Ascii.ascii :=
  Ascii.ascii_of_N (if (n <? 10)%N then 48 + n else 87 + n)%N.
Definition hex_of_byte (b : byte) : string :=
  let n := Byte.to_N b in
  String.String (hex_digit (n / 16)) (String.String (hex_digit (n mod 16)) EmptyString).
Fixpoint hex_of_bytes (l : list byte) : string :=
  match l with [] => EmptyString | b :: l => hex_of_byte b +:+ hex_of_bytes l end.
Definition hex_value (a : Ascii.ascii) : N :=
  let n := Ascii.N_of_ascii a in (if n <? 58 then n - 48 else n - 87)%N.
Definition byte_of_hex (s : string) : option byte :=
  match s with
  | String.String a (String.String b EmptyString) => Byte.of_N (16 * hex_value a + hex_value b)
  | _ => None
  end.
Lemma hex_of_bytes_length l : String.length (hex_of_bytes l) = 2 * length l.
Proof.
  induction l as [|b l IH]; [done|].
  change (S (S (String.length (hex_of_bytes l))) = 2 * S (length l)). rewrite IH. lia.
Qed.

Lemma byte_of_hex_of_byte b : byte_of_hex (hex_of_byte b) = Some b.
Proof. by destruct b. Qed.

Lemma hex_of_byte_inj a b : hex_of_byte a = hex_of_byte b → a = b.
Proof.
  intros Hab. apply (f_equal byte_of_hex) in Hab. rewrite !byte_of_hex_of_byte in Hab.
  congruence.
Qed.

Lemma hex_of_bytes_inj h k : length h = length k → hex_of_bytes h = hex_of_bytes k → h = k.
Proof.
  revert k. induction h as [|a h IH]; intros [|b k] [=]; [done|].
  intros Heq. simpl in Heq. injection Heq as H1 H2 H3.
  f_equal; [|by apply IH]. apply hex_of_byte_inj. unfold hex_of_byte. by rewrite H1, H2.
Qed.

Definition toy_to_hex (h : Hash) : string := hex_of_bytes (vec_to_list h).

Lemma toy_to_hex_length h : String.length (toy_to_hex h) = 64.
Proof. unfold toy_to_hex. by rewrite hex_of_bytes_length, length_vec_to_list. Qed.

Lemma toy_to_hex_inj : Inj (=) (=) toy_to_hex.
Proof.
  intros h k Hhk. apply hex_of_bytes_inj in Hhk; [by apply vec_to_list_inj2|].
  by rewrite !length_vec_to_list.
Qed.

Definition toy_blake3 : Blake3 := {|
  blake3_hash := pad_vec 32;
  to_hex := toy_to_hex;
  to_hex_length := toy_to_hex_length;
  to_hex_inj := toy_to_hex_inj
|}.
