(* ===== verification/Disk.v ===== *)
(** * The file system and the clock

    The calls of the standard library that the file store and the cache make.
    Any call may fail, and the clock may show any time: a [World] decides, for
    the [n]-th call of the process, whether it fails and what the clock shows. *)
From S2P Require Import Prelude RustOrd Paths StoreKey.

Class World : Type := {
  io_ok : nat → bool;
  clock : nat → N;
  (** The absolute form of a path, symbolic links resolved. *)
  canonical : PathBuf → PathBuf
}.

(** A world without faults whose clock advances at every call. *)
Definition quiet_world : World :=
  {| io_ok := λ _, true; clock := N.of_nat; canonical := λ p, p |}.

Record DiskFile : Type := mkDiskFile { content : list byte; readonly : bool }.

Record Disk : Type := mkDisk {
  tick : nat;
  files : gmap PathBuf DiskFile;
  dirs : gset PathBuf
}.

Definition advance (d : Disk) : Disk := mkDisk (S (tick d)) (files d) (dirs d).
Definition map_files (f : gmap PathBuf DiskFile → gmap PathBuf DiskFile) (d : Disk) : Disk :=
  mkDisk (tick d) (f (files d)) (dirs d).
Definition map_dirs (f : gset PathBuf → gset PathBuf) (d : Disk) : Disk :=
  mkDisk (tick d) (files d) (f (dirs d)).

(** [Path::parent] iterated: the ancestors of a path, the closest first. *)
Fixpoint parents_rev (r : list Component) : list PathBuf :=
  match r with
  | [] | RootDir :: _ => []
  | _ :: r => reverse r :: parents_rev r
  end.
Definition parents (p : PathBuf) : list PathBuf := parents_rev (reverse p).

Section disk.
Context `{World}.

(** One call: it fails when the world says so or when [f] has no result. *)
Definition io_call {A} (f : Disk → option (A * Disk)) : M Disk A := λ d,
  if io_ok (tick d) then
    match f (advance d) with
    | Some (a, d') => (Ret a, d')
    | None => (Fail ["I/O error"], advance d)
    end
  else (Fail ["I/O error"], advance d).

(** [SystemTime::now]. *)
Definition system_time : M Disk N := λ d, (Ret (clock (tick d)), advance d).

(** [Path::exists]: a failing call counts as a missing file. *)
Definition path_exists (p : PathBuf) : M Disk bool :=
  is_ok (io_call (λ d, if decide (is_Some (files d !! p) ∨ p ∈ dirs d)
                       then Some (tt, d) else None)).
Definition create_dir_all (p : PathBuf) : M Disk unit :=
  io_call (λ d, Some (tt, map_dirs (λ s, list_to_set (p :: parents p) ∪ s) d)).
(** Creating a temporary directory and a file in it, writing to that file.
    The names are fresh and the directory is removed when its owner is
    dropped, so no other path changes. *)
Definition create_temporary : M Disk unit := io_call (λ d, Some (tt, d)).
Definition write_chunk (chunk : list byte) : M Disk unit := io_call (λ d, Some (tt, d)).
(** [rename] of a file with content [c], atomic. *)
Definition rename_to (c : list byte) (p : PathBuf) : M Disk unit :=
  io_call (λ d, Some (tt, map_files <[p := mkDiskFile c false]> d)).
(** [File::create], a write at the end of a file, [rename] between files. *)
Definition create_file (p : PathBuf) : M Disk unit :=
  io_call (λ d, Some (tt, map_files <[p := mkDiskFile [] false]> d)).
Definition append_file (p : PathBuf) (data : list byte) : M Disk unit :=
  io_call (λ d, f ← files d !! p;
    Some (tt, map_files <[p := mkDiskFile (content f ++ data) (readonly f)]> d)).
Definition rename (p q : PathBuf) : M Disk unit :=
  io_call (λ d, f ← files d !! p; Some (tt, map_files (λ m, <[q := f]> (delete p m)) d)).
Definition read_file (p : PathBuf) : M Disk (list byte) :=
  io_call (λ d, f ← files d !! p; Some (content f, d)).
(** [metadata]: of a file, its length. *)
Definition metadata_len (p : PathBuf) : M Disk N :=
  io_call (λ d, f ← files d !! p; Some (N.of_nat (length (content f)), d)).
Definition set_permissions (p : PathBuf) (ro : bool) : M Disk unit :=
  io_call (λ d, f ← files d !! p;
    Some (tt, map_files <[p := mkDiskFile (content f) ro]> d)).
(** [std::fs::remove_file]. *)
Definition unlink (p : PathBuf) : M Disk unit :=
  io_call (λ d, _ ← files d !! p; Some (tt, map_files (delete p) d)).
(** [remove_dir]: only an empty directory. *)
Definition dir_empty (d : Disk) (p : PathBuf) : Prop :=
  map_Forall (λ q _, path_parent q ≠ Some p) (files d) ∧
  set_Forall (λ q, path_parent q ≠ Some p) (dirs d).
#[export] Instance dir_empty_dec d p : Decision (dir_empty d p).
Proof. unfold dir_empty. apply _. Defined.
Definition remove_dir (p : PathBuf) : M Disk unit :=
  io_call (λ d, if decide (p ∈ dirs d ∧ dir_empty d p)
                then Some (tt, map_dirs (λ s, s ∖ {[p]}) d) else None).
Definition canonicalize (p : PathBuf) : M Disk PathBuf :=
  io_call (λ d, Some (canonical p, d)).

Lemma wp_io_call {A} (f : Disk → option (A * Disk)) (Q : A → Disk → Prop) E d :
  E (advance d) → (∀ a d', f (advance d) = Some (a, d') → Q a d') → wp (io_call f) Q E d.
Proof.
  intros HE HQ. unfold wp, io_call. destruct (io_ok _); [|done].
  destruct (f (advance d)) as [[a d']|] eqn:Hf; eauto.
Qed.

Lemma wp_system_time (Q : N → Disk → Prop) E d :
  Q (clock (tick d)) (advance d) → wp system_time Q E d.
Proof. done. Qed.
End disk.

(** ** Serialization

    The [bincode] crate on a type [A]: what is written can be read back. *)
Class Bincode (A : Type) : Type := {
  serialize : A → list byte;
  deserialize : list byte → option A;
  deserialize_serialize (a : A) : deserialize (serialize a) = Some a
}.

Definition bytes_of_string (s : string) : list byte := String.list_byte_of_string s.
Definition newline : string := String.String (Ascii.ascii_of_N 10) EmptyString.

(** A concrete format, to evaluate the model: the binary code of the value. *)
Fixpoint bytes_of_pos (p : positive) : list byte :=
  match p with
  | xH => []
  | xO p => Byte.x00 :: bytes_of_pos p
  | xI p => Byte.x01 :: bytes_of_pos p
  end.
Fixpoint pos_of_bytes (l : list byte) : positive :=
  match l with
  | [] => xH
  | b :: l => if decide (b = Byte.x00) then xO (pos_of_bytes l) else xI (pos_of_bytes l)
  end.

Lemma pos_of_bytes_of_pos p : pos_of_bytes (bytes_of_pos p) = p.
Proof. induction p as [p IH|p IH|]; simpl; [by rewrite IH..|done]. Qed.

Definition binary_format {A} `{Countable A} : Bincode A.
Proof.
  refine {| serialize a := bytes_of_pos (encode a); deserialize l := decode (pos_of_bytes l) |}.
  intros a. by rewrite pos_of_bytes_of_pos, decode_encode.
Defined.

(** *** Saving data aside and renaming it

    The index and the cache are written to a temporary file next to the final
    one, after a magic string, and then renamed. *)
Definition save_file `{World} (ctx_create ctx_write : string) (magic data : list byte)
    (path : PathBuf) : M Disk unit :=
  let tmp := with_extension "tmp" path in
  _ ← with_context ctx_create (create_file tmp);
  _ ← with_context "Failed to write cache magic number" (append_file tmp magic);
  _ ← with_context ctx_write (append_file tmp data);
  with_context "Failed to move" (rename tmp path).

Lemma save_file_spec `{World} ctx1 ctx2 magic data path d :
  let tmp := with_extension "tmp" path in
  wp (save_file ctx1 ctx2 magic data path)
    (λ _ d', files d' = <[path := mkDiskFile (magic ++ data) false]> (delete tmp (files d)) ∧
       dirs d' = dirs d)
    (λ d', (∀ p, p ≠ tmp → files d' !! p = files d !! p) ∧ dirs d' = dirs d) d.
Proof.
  intros tmp. unfold save_file. fold tmp.
  apply wp_bind, wp_context, wp_io_call; [done|]. intros [] d1 [= <-].
  apply wp_bind, wp_context, wp_io_call.
  { split; [|done]. intros p Hp. simpl. by rewrite lookup_insert_ne. }
  intros [] d2 Hd2. simpl in Hd2. rewrite lookup_insert_eq in Hd2. injection Hd2 as <-.
  apply wp_bind, wp_context, wp_io_call.
  { split; [|done]. intros p Hp. simpl. by rewrite !lookup_insert_ne. }
  intros [] d3 Hd3. simpl in Hd3. rewrite lookup_insert_eq in Hd3. injection Hd3 as <-.
  apply wp_context, wp_io_call.
  { split; [|done]. intros p Hp. simpl. by rewrite !lookup_insert_ne. }
  intros [] d4 Hd4. simpl in Hd4. rewrite lookup_insert_eq in Hd4. injection Hd4 as <-. simpl.
  split; [|done]. by rewrite !delete_insert_eq.
Qed.

(** The dual: read a file back, unless its magic string is of another version.
    A file shorter than the magic string is read to its end and then
    deserialized from nothing. *)
Definition load_file `{World} {A} `{!Bincode A} (ctx_open ctx_decode : string)
    (magic : list byte) (path : PathBuf) :
    M Disk (option A) :=
  e ← path_exists path;
  if negb e then mret None else
  bytes ← with_context ctx_open (read_file path);
  let head := take (length magic) bytes in
  if bool_decide (length head = length magic ∧ head ≠ magic) then mret None else
  match deserialize (drop (length magic) bytes) with
  | Some a => mret (Some a)
  | None => bail ctx_decode
  end.

Lemma load_file_spec `{World} {A} `{!Bincode A} ctx1 ctx2 magic path (a : A) f d :
  (∀ n, io_ok n = true) → files d !! path = Some f → content f = magic ++ serialize a →
  load_file ctx1 ctx2 magic path d = (Ret (Some a), advance (advance d)).
Proof.
  intros Hio Hf Hc.
  assert (path_exists path d = (Ret true, advance d)) as Hex.
  { unfold path_exists, is_ok, io_call. rewrite Hio. simpl.
    by rewrite decide_True by (rewrite Hf; eauto). }
  assert (read_file path (advance d) = (Ret (content f), advance (advance d))) as Hrd.
  { unfold read_file, io_call. rewrite Hio. simpl. by rewrite Hf. }
  unfold load_file, mbind, M_bind. rewrite Hex. cbn [negb].
  unfold with_context. rewrite Hrd. cbn [outcome_context]. rewrite Hc.
  cbv beta iota zeta. rewrite take_app_length, drop_app_length, deserialize_serialize.
  by rewrite bool_decide_eq_false_2 by tauto.
Qed.
