(* ===== verification/Store.v ===== *)
(** * The file store ([task-maker-store])

    [FileStoreIndex] of [index.rs] and [FileStore], [FileStoreHandle] of
    [lib.rs].  The state of a store is its index, the reference counts of its
    handles and the disk below it.  Each method is a sequence of steps: what it does with
    a mutex held, and the accesses to the disk in between; the methods are defined as
    these sequences, and [store_step] lets the steps of several threads interleave. *)
From S2P Require Import Prelude RustOrd Paths StoreKey Disk.

(** ** Data *)
Record FileStoreIndexItem : Type := mkItem { item_size : N; last_access : N }.
#[export] Instance FileStoreIndexItem_eq_dec : EqDecision FileStoreIndexItem.
Proof. solve_decision. Defined.
#[export] Instance FileStoreIndexItem_countable : Countable FileStoreIndexItem.
Proof.
  refine (inj_countable (λ i, (item_size i, last_access i)) (λ p, Some (mkItem p.1 p.2)) _).
  by intros [].
Defined.
(** [impl Ord]: only the time counts. *)
#[export] Instance FileStoreIndexItem_ord : Ord FileStoreIndexItem := ord_by last_access.

Record FileStoreIndex : Type := mkIndex {
  total_size : N;
  known_files : gmap FileStoreKey FileStoreIndexItem
}.
#[export] Instance FileStoreIndex_eq_dec : EqDecision FileStoreIndex.
Proof. solve_decision. Defined.
#[export] Instance FileStoreIndex_countable : Countable FileStoreIndex.
Proof.
  refine (inj_countable (λ i, (total_size i, known_files i)) (λ p, Some (mkIndex p.1 p.2)) _).
  by intros [].
Defined.

(** [locked_files] is [LockedFiles::ref_counts]. *)
Record FileStore : Type := mkStore {
  base_path : PathBuf;
  locked_files : gmap FileStoreKey N;
  store_index : FileStoreIndex;
  max_store_size : N;
  min_store_size : N;
  disk : Disk
}.

Record FileStoreHandle : Type := mkHandle { handle_key : FileStoreKey; handle_path : PathBuf }.

Definition STORE_INDEX_FILE : string := "index.bin".
Definition INTEGRITY_CHECKS_ENABLED : bool := false.
Definition STORE_MAGIC : list byte :=
  bytes_of_string ("task-maker-store v0.7.4" +:+ newline).

Definition with_locked (l : gmap FileStoreKey N) (s : FileStore) : FileStore :=
  mkStore (base_path s) l (store_index s) (max_store_size s) (min_store_size s) (disk s).
Definition with_index (i : FileStoreIndex) (s : FileStore) : FileStore :=
  mkStore (base_path s) (locked_files s) i (max_store_size s) (min_store_size s) (disk s).
Definition with_disk (d : Disk) (s : FileStore) : FileStore :=
  mkStore (base_path s) (locked_files s) (store_index s) (max_store_size s) (min_store_size s) d.
Definition known (s : FileStore) : gmap FileStoreKey FileStoreIndexItem :=
  known_files (store_index s).
Definition total (s : FileStore) : N := total_size (store_index s).
Definition set_total (n : N) : M FileStore unit :=
  modify (λ s, with_index (mkIndex n (known s)) s).
Definition set_known (m : gmap FileStoreKey FileStoreIndexItem) : M FileStore unit :=
  modify (λ s, with_index (mkIndex (total s) m) s).
Definition on_disk {A} (m : M Disk A) : M FileStore A := zoom disk with_disk m.

(** The reference counts of a key: [entry(key).or_default() += 1]. *)
Definition add_ref (k : FileStoreKey) (m : gmap FileStoreKey N) : gmap FileStoreKey N :=
  <[k := (default 0 (m !! k) + 1)%N]> m.

Section store.
Context `{IterOrder} `{BuildProfile} `{Blake3} `{World} `{!Bincode FileStoreIndex}.

(** ** [FileStoreIndex] *)

(** [FileStoreIndex::load]. *)
Definition index_load (path : PathBuf) : M Disk FileStoreIndex :=
  i ← load_file "Failed to open index file" "Failed to deserialize index file" STORE_MAGIC path;
  mret (default (mkIndex 0 ∅) i).

(** [FileStoreIndex::store]: the file is written aside and renamed. *)
Definition index_store (i : FileStoreIndex) (path : PathBuf) : M Disk unit :=
  dir ← lift (unwrap "Invalid store file path" (path_parent path));
  _ ← with_context "Failed to create store directory" (create_dir_all dir);
  save_file "Failed to create index file" "Failed to write index"
    STORE_MAGIC (serialize i) path.

Definition touch (key : FileStoreKey) : M FileStore unit :=
  s ← get_st;
  match known s !! key with
  | Some file =>
      t ← on_disk system_time;
      set_known (<[key := mkItem (item_size file) t]> (known s))
  | None => mret tt
  end.

Definition index_add (key : FileStoreKey) (path : PathBuf) : M FileStore unit :=
  s ← get_st;
  match known s !! key with
  | Some entry =>
      t ← on_disk system_time;
      set_known (<[key := mkItem (item_size entry) t]> (known s))
  | None =>
      len ← on_disk (with_context "Cannot get file metadata" (metadata_len path));
      t ← on_disk system_time;
      _ ← set_known (<[key := mkItem len t]> (known s));
      n ← lift (u64_add (total s) len);
      set_total n
  end.

Definition need_flush (i : FileStoreIndex) (size_limit : N) : bool :=
  (size_limit <=? total_size i)%N.

(** [FileStore::key_to_path], [mark_readonly] and [remove_file]. *)
Definition key_to_path (base : PathBuf) (k : FileStoreKey) : PathBuf := path_join base (suffix k).

Definition mark_readonly (path : PathBuf) : M Disk unit :=
  _ ← with_context "Failed to get file metadata" (metadata_len path);
  with_context "Failed to set permission" (set_permissions path true).

Definition remove_file (path : PathBuf) : M Disk unit :=
  _ ← with_context "Failed to get file metadata" (metadata_len path);
  _ ← with_context "Failed to set permission" (set_permissions path false);
  with_context "Failed to remove" (unlink path).

(** The loop over the parents of a removed file. *)
Fixpoint remove_empty_dirs (base : PathBuf) (l : list PathBuf) : M Disk unit :=
  match l with
  | [] => mret tt
  | p :: l =>
      if decide (p = base) then mret tt else
      removed ← is_ok (remove_dir p);
      if removed : bool then remove_empty_dirs base l else mret tt
  end.

(** The removal of one entry of the queue of [flush]. *)
Definition evict (key : FileStoreKey) (entry : FileStoreIndexItem) : M FileStore unit :=
  s ← get_st;
  n ← lift (u64_sub (total s) (item_size entry));
  _ ← set_total n;
  let path := key_to_path (base_path s) key in
  _ ← on_disk (or_warn (remove_file path));
  base ← on_disk (with_context "Invalid file store base path" (canonicalize (base_path s)));
  on_disk (remove_empty_dirs base (parents path)).

(** The [while] of [flush].  Every turn takes one element out of the queue,
    [fuel] is the length of the queue plus one. *)
Fixpoint flush_loop (fuel : nat) (target : N)
    (queue : list (FileStoreIndexItem * FileStoreKey))
    (surviving : list (FileStoreKey * FileStoreIndexItem)) :
    M FileStore (list (FileStoreIndexItem * FileStoreKey)
                 * list (FileStoreKey * FileStoreIndexItem)) :=
  size ← gets total;
  if (size <=? target)%N then mret (queue, surviving) else
  match fuel with
  | O => out_of_fuel
  | S fuel =>
      match ord_pop queue with
      | None => mret ([], surviving)
      | Some ((entry, key), queue) =>
          locked ← gets locked_files;
          if decide (is_Some (locked !! key))
          then flush_loop fuel target queue (surviving ++ [(key, entry)])
          else _ ← evict key entry; flush_loop fuel target queue surviving
      end
  end.

Definition insert_all (l : list (FileStoreKey * FileStoreIndexItem))
    (m : gmap FileStoreKey FileStoreIndexItem) : gmap FileStoreKey FileStoreIndexItem :=
  foldl (λ m p, <[p.1 := p.2]> m) m l.

Definition flush (target : N) : M FileStore unit :=
  s ← get_st;
  let queue := prod_swap <$> map_iter (known s) in
  _ ← set_known ∅;
  '(queue, surviving) ← flush_loop (S (length queue)) target queue [];
  s ← get_st;
  set_known (insert_all (prod_swap <$> iter_order queue) (insert_all surviving (known s))).

(** ** [FileStoreHandle] *)
Definition handle_new (key : FileStoreKey) : M FileStore FileStoreHandle :=
  s ← get_st;
  _ ← modify (with_locked (add_ref key (locked_files s)));
  mret (mkHandle key (key_to_path (base_path s) key)).

Definition handle_clone (h : FileStoreHandle) : M FileStore FileStoreHandle :=
  s ← get_st;
  _ ← modify (with_locked (add_ref (handle_key h) (locked_files s)));
  mret (mkHandle (handle_key h) (handle_path h)).

(** [Drop for FileStoreHandle]. *)
Definition handle_drop (h : FileStoreHandle) : M FileStore unit :=
  s ← get_st;
  n ← lift (unwrap "Ref counts are broken" (locked_files s !! handle_key h));
  n ← lift (u64_sub n 1);
  if decide (n = 0%N)
  then modify (with_locked (delete (handle_key h) (locked_files s)))
  else modify (with_locked (<[handle_key h := n]> (locked_files s))).

(** ** [FileStore] *)
Definition maybe_flush : M FileStore unit :=
  s ← get_st;
  if need_flush (store_index s) (max_store_size s)
  then with_context "Failed to flush index" (flush (min_store_size s))
  else mret tt.

(** Writing the chunks stops at the first failure. *)
Fixpoint write_chunks (chunks : list (list byte)) : M Disk bool :=
  match chunks with
  | [] => mret true
  | c :: chunks =>
      ok ← is_ok (write_chunk c);
      if ok : bool then write_chunks chunks else mret false
  end.

(** [Path::exists] on the place of a key: no mutex is held. *)
Definition file_exists (key : FileStoreKey) : M FileStore bool :=
  s ← get_st;
  on_disk (path_exists (key_to_path (base_path s) key)).

(** The branch of [store] for a file that is not on disk: the file is written aside and
    moved to its place; then, with the mutex of the index held, it is added. *)
Definition store_write (path : PathBuf) (chunks : list (list byte)) : M FileStore unit :=
  dir ← lift (unwrap "called `Option::unwrap()` on a `None` value" (path_parent path));
  _ ← on_disk (with_context "Cannot create directory" (create_dir_all dir));
  _ ← on_disk (with_context "Failed to create temporary directory for storing the file"
                 create_temporary);
  _ ← on_disk (with_context "Failed to create temporary file" create_temporary);
  written ← on_disk (write_chunks chunks);
  if negb written then bail "Failed to store file" else
  _ ← on_disk (with_context "Failed to rename" (rename_to (concat chunks) path));
  on_disk (with_context "Failed to mark file as readonly" (mark_readonly path)).
Definition store_index_file (key : FileStoreKey) (path : PathBuf) : M FileStore unit :=
  _ ← with_context "Failed to add file to index" (index_add key path);
  _ ← maybe_flush;
  s ← get_st;
  on_disk (with_context "Failed to store the index to file"
    (index_store (store_index s) (path_join (base_path s) [Normal STORE_INDEX_FILE]))).
Definition store_new (key : FileStoreKey) (path : PathBuf) (chunks : list (list byte)) :
    M FileStore unit :=
  _ ← store_write path chunks;
  store_index_file key path.

(** A value owned by a function is dropped when the function fails. *)
Definition drop_on_error {A} (h : FileStoreHandle) (m : M FileStore A) : M FileStore A := λ s,
  match m s with
  | (Fail e, s') => let '(r, s'') := handle_drop h s' in (_ ← r; Fail e, s'')
  | r => r
  end.

(** [FileStore::store]; the content is the list of the chunks of the iterator. *)
Definition store (key : FileStoreKey) (chunks : list (list byte)) : M FileStore FileStoreHandle :=
  handle ← handle_new key;
  exists_ ← file_exists key;
  if exists_ : bool then mret handle
  else _ ← drop_on_error handle (store_new key (handle_path handle) chunks); mret handle.

(** [FileStore::get]: the file is looked for before any mutex is taken, the entry is touched
    with the mutex of the index, and the handle is counted with the one of the locked files.
    [store_step] interleaves the three steps with those of other threads; the callers of [get]
    in the other files run them in a row.  The integrity check is compiled out by its
    constant. *)
Definition get (key : FileStoreKey) : M FileStore (option FileStoreHandle) :=
  exists_ ← file_exists key;
  if negb exists_ then mret None else
  _ ← touch key;
  h ← handle_new key;
  mret (Some h).

(** [FileStore::new] on a disk; taking the lock file is one more call. *)
Definition FileStore_new (base : PathBuf) (max_size min_size : N) : M Disk FileStore :=
  _ ← with_context "Failed to create storage directory" (create_dir_all base);
  _ ← with_context "Failed to create lock file" create_temporary;
  _ ← with_context "Failed to obtain exclusive lock on storage" create_temporary;
  index ← with_context "Failed to load storage index"
    (index_load (path_join base [Normal STORE_INDEX_FILE]));
  d ← get_st;
  mret (mkStore base ∅ index max_size min_size d).

(** [Drop for FileStore]. *)
Definition FileStore_drop : M FileStore unit :=
  s ← get_st;
  _ ← (if need_flush (store_index s) (max_store_size s)
       then or_warn (flush (min_store_size s)) else mret tt);
  s ← get_st;
  or_warn (on_disk (index_store (store_index s)
    (path_join (base_path s) [Normal STORE_INDEX_FILE]))).
End store.

(** ** Specification *)

(** The bytes of the known files. *)
Fixpoint sizes (l : list FileStoreIndexItem) : N :=
  match l with [] => 0 | i :: l => item_size i + sizes l end%N.
Definition index_sum (m : gmap FileStoreKey FileStoreIndexItem) : N :=
  sizes (map_to_list m).*2.

(** The accounting of the index: [total_size] is the sum of the sizes. *)
Definition index_wf (s : FileStore) : Prop := index_sum (known s) = total s.

Section spec.
Context `{Blake3}.

(** The part of a store that no operation changes. *)
Definition same_store (s s' : FileStore) : Prop :=
  base_path s' = base_path s ∧ locked_files s' = locked_files s ∧
  max_store_size s' = max_store_size s ∧ min_store_size s' = min_store_size s.

(** A file of the store holds the content its key promises, and no directory
    is in the place of a file. *)
Record disk_ok (base : PathBuf) (d : Disk) : Prop := {
  ok_content : ∀ k f, files d !! key_to_path base k = Some f → from_content (content f) = k;
  ok_dirs : ∀ k, key_to_path base k ∉ dirs d
}.

(** What an operation may do while handles are alive: only the files of the
    keys without handles can disappear, and the invariants are kept. *)
Record evolves (s s' : FileStore) : Prop := {
  ev_same : same_store s s';
  ev_disk : disk_ok (base_path s) (disk s) → disk_ok (base_path s) (disk s');
  ev_files : ∀ k, is_Some (locked_files s !! k) →
    is_Some (files (disk s) !! key_to_path (base_path s) k) →
    is_Some (files (disk s') !! key_to_path (base_path s) k);
  ev_index : (index_sum (known s) ≤ total s)%N → (index_sum (known s') ≤ total s')%N
}.
End spec.

(** ** Lemmas *)
#[export] Instance FileStoreIndexItem_pre : TotalPreOrd FileStoreIndexItem.
Proof. apply ord_by_pre. Qed.

Lemma sizes_app l k : sizes (l ++ k) = (sizes l + sizes k)%N.
Proof. induction l as [|i l IH]; simpl; [done|]. rewrite IH. lia. Qed.

#[export] Instance sizes_perm : Proper ((≡ₚ) ==> (=)) sizes.
Proof. intros l k Hlk. induction Hlk; simpl; lia. Qed.

Lemma index_sum_empty : index_sum ∅ = 0%N.
Proof. unfold index_sum. by rewrite map_to_list_empty. Qed.

Lemma index_sum_insert m k i :
  m !! k = None → index_sum (<[k:=i]> m) = (item_size i + index_sum m)%N.
Proof. intros Hk. unfold index_sum. by rewrite map_to_list_insert. Qed.

Lemma index_sum_delete m k i :
  m !! k = Some i → index_sum m = (item_size i + index_sum (delete k m))%N.
Proof.
  intros Hk. rewrite <-(insert_delete_id m k i) at 1 by done.
  apply index_sum_insert. apply lookup_delete_eq.
Qed.

Lemma index_sum_replace m k i j :
  m !! k = Some i → item_size j = item_size i → index_sum (<[k:=j]> m) = index_sum m.
Proof.
  intros Hk Hij. rewrite (index_sum_delete m k i) by done.
  rewrite <-insert_delete_eq, index_sum_insert, Hij by apply lookup_delete_eq. done.
Qed.

Lemma insert_all_lookup l m :
  NoDup l.*1 → (∀ k, k ∈ l.*1 → m !! k = None) →
  insert_all l m = list_to_map l ∪ m.
Proof.
  revert m. induction l as [|[k i] l IH]; intros m Hnd Hm; simpl in *.
  { by rewrite (left_id_L ∅ (∪)). }
  apply NoDup_cons in Hnd as [Hk Hnd]. rewrite IH; [|done|].
  - rewrite <-insert_union_r, <-insert_union_l; [done|]. by apply not_elem_of_list_to_map_1.
  - intros k' Hk'. rewrite lookup_insert_ne by set_solver. apply Hm. set_solver.
Qed.

Lemma index_sum_union l m :
  NoDup l.*1 → (∀ k, k ∈ l.*1 → m !! k = None) →
  index_sum (list_to_map l ∪ m) = (sizes l.*2 + index_sum m)%N.
Proof.
  induction l as [|[k i] l IH]; intros Hnd Hm; simpl in *.
  { by rewrite (left_id_L ∅ (∪)). }
  apply NoDup_cons in Hnd as [Hk Hnd].
  rewrite <-insert_union_l, index_sum_insert, IH; [apply N.add_assoc|done|set_solver|].
  apply lookup_union_None. split; [by apply not_elem_of_list_to_map_1|]. apply Hm. set_solver.
Qed.

Section disk_lemmas.
Context `{World}.
Implicit Types (d : Disk).

Lemma path_exists_spec p (Q : bool → Disk → Prop) E d :
  Q false (advance d) →
  (is_Some (files d !! p) ∨ p ∈ dirs d → Q true (advance d)) → wp (path_exists p) Q E d.
Proof.
  intros Hf Ht. apply wp_is_ok, wp_io_call; [done|].
  intros [] d' Hd. destruct (decide _) as [Hp|]; [|done]. simplify_eq. auto.
Qed.

Lemma remove_empty_dirs_spec base l d :
  wp (remove_empty_dirs base l) (λ _ d', files d' = files d ∧ dirs d' ⊆ dirs d) no_error d.
Proof.
  revert d. induction l as [|p l IH]; intros d; simpl; [done|].
  destruct (decide (p = base)); [done|].
  apply wp_bind, wp_is_ok, wp_io_call; [done|]. intros [] d' Hd.
  destruct (decide _); [|done]. simplify_eq.
  eapply wp_mono; [apply IH| |done]. simpl. intros [] d' [Hf Hd]. split; [done|]. set_solver.
Qed.

Lemma write_chunks_spec l d :
  wp (write_chunks l) (λ _ d', files d' = files d ∧ dirs d' = dirs d) no_error d.
Proof.
  revert d. induction l as [|c l IH]; intros d; simpl; [done|].
  apply wp_bind, wp_is_ok, wp_io_call; [done|]. intros [] d' [= <-].
  exact (IH (advance d)).
Qed.

(** [remove_file] only removes [p]. *)
Lemma remove_file_spec p d :
  let P d' := dirs d' = dirs d ∧ ∀ q, q ≠ p → files d' !! q = files d !! q in
  wp (remove_file p) (λ _ d', P d' ∧ files d' !! p = None) (λ d', P d' ∧
    (content <$> files d' !! p) = (content <$> files d !! p)) d.
Proof.
  intros P. apply wp_bind, wp_context, wp_io_call; [done|]. intros n d1 Hd1. simpl in Hd1.
  destruct (files d !! p) as [f|] eqn:Hf; simplify_option_eq.
  apply wp_bind, wp_context, wp_io_call.
  { split; [done|]. simpl. by rewrite Hf. }
  intros [] d2 Hd2. simpl in Hd2. simplify_option_eq.
  apply wp_context, wp_io_call; simpl.
  - rewrite lookup_insert_eq. split; [|done]. split; [done|]. intros q Hq. simpl.
    by rewrite lookup_insert_ne.
  - rewrite lookup_insert_eq. intros [] d3 [= <-]. simpl. split; [split; [done|]|].
    + intros q Hq. simpl. by rewrite lookup_delete_ne, lookup_insert_ne.
    + apply lookup_delete_eq.
Qed.
End disk_lemmas.

Section store_lemmas.
Context `{IterOrder} `{BuildProfile} `{Blake3} `{World} `{!Bincode FileStoreIndex}.
Implicit Types (s : FileStore).

#[export] Instance key_to_path_inj base : Inj (=) (=) (key_to_path base).
Proof.
  intros k1 k2. unfold key_to_path, suffix. rewrite !path_join_relative.
  intros Hk%app_inv_head. by apply (inj suffix).
Qed.

#[export] Instance same_store_preorder : PreOrder same_store.
Proof. split; unfold same_store; [done|]. intros s1 s2 s3. intuition congruence. Qed.

(** Only files of the keys in [K] may have been removed. *)
Record frame (K : FileStoreKey → Prop) s s' : Prop := {
  fr_same : same_store s s';
  fr_dirs : dirs (disk s') ⊆ dirs (disk s);
  fr_content : ∀ q f, files (disk s') !! q = Some f →
    ∃ f0, files (disk s) !! q = Some f0 ∧ content f = content f0;
  fr_files : ∀ q, (∀ k, K k → q ≠ key_to_path (base_path s) k) →
    files (disk s') !! q = files (disk s) !! q
}.

Lemma frame_refl K s : frame K s s.
Proof. split; [done..|eauto|done]. Qed.

Lemma frame_trans K s1 s2 s3 : frame K s1 s2 → frame K s2 s3 → frame K s1 s3.
Proof.
  intros [Hs1 Hd1 Hc1 Hf1] [Hs2 Hd2 Hc2 Hf2].
  assert (base_path s2 = base_path s1) as Hb by apply Hs1. split.
  - by trans s2.
  - by trans (dirs (disk s2)).
  - intros q f (f' & Hf' & ->)%Hc2. apply Hc1 in Hf' as (f0 & ? & ->). eauto.
  - intros q Hq. rewrite Hf2, Hf1; [done|done|]. by rewrite Hb.
Qed.

Lemma frame_mono (K K' : FileStoreKey → Prop) s s' :
  (∀ k, K k → K' k) → frame K s s' → frame K' s s'.
Proof. intros HK []. split; try done. auto. Qed.

(** A frame that spares the locked keys is an evolution. *)
Lemma frame_evolves K s s' :
  frame K s s' → (∀ k, K k → locked_files s !! k = None) →
  ((index_sum (known s) ≤ total s)%N → (index_sum (known s') ≤ total s')%N) → evolves s s'.
Proof.
  intros [Hs Hd Hc Hf] HK Hi. split; [done| | |done].
  - intros [Hok1 Hok2]. split.
    + intros k f (f0 & Hf0 & ->)%Hc. eauto.
    + intros k Hk. apply (Hok2 k). set_solver.
  - intros k Hl Hk. rewrite Hf; [done|]. intros k' Hk' ->%(inj (key_to_path _)).
    rewrite HK in Hl by done. by destruct Hl.
Qed.

Lemma evict_spec key entry s :
  (item_size entry ≤ total s)%N →
  let F s' := frame (λ k, k = key) s s' ∧ known s' = known s ∧
              total s' = (total s - item_size entry)%N in
  wp (evict key entry) (λ _, F) F s.
Proof.
  intros Hle F. apply wp_bind, wp_get, wp_bind.
  eapply wp_lift_ret; [by apply u64_sub_Ret|]. apply wp_bind, wp_modify.
  set (s1 := with_index _ s). set (p := key_to_path _ key).
  assert (∀ d, dirs d ⊆ dirs (disk s) → (∀ q, q ≠ p → files d !! q = files (disk s) !! q) →
    (files d !! p = None ∨ content <$> files d !! p = content <$> files (disk s) !! p) →
    F (with_disk d s1)) as HF.
  { intros d Hd Hq Hp. split; [|done]. split; [done|done| |].
    - intros q f Hf. simpl in Hf. destruct (decide (q = p)) as [->|].
      + rewrite Hf in Hp. simpl in Hp. destruct Hp as [?|Hp]; [done|].
        destruct (files (disk s) !! p) as [f0|]; [|done]. exists f0. naive_solver.
      + rewrite Hq in Hf by done. eauto.
    - intros q Hqk. apply Hq. by apply Hqk. }
  assert (∀ d, dirs d ⊆ dirs (disk s) → (∀ q, q ≠ p → files d !! q = files (disk s) !! q) →
    (files d !! p = None ∨ content <$> files d !! p = content <$> files (disk s) !! p) →
    wp (on_disk (with_context "Invalid file store base path" (canonicalize (base_path s)))
        ≫= λ base, on_disk (remove_empty_dirs base (parents p))) (λ _, F) F (with_disk d s1))
    as Hrest.
  { intros d Hd Hq Hp. apply wp_bind, wp_zoom, wp_context, wp_io_call; [by apply HF|].
    intros base d' [= <- <-]. apply wp_zoom.
    eapply wp_mono; [apply remove_empty_dirs_spec| |done]. simpl.
    intros [] d' [Hf' Hd']. apply HF; rewrite ?Hf'; [set_solver|done..]. }
  apply wp_bind, wp_zoom, wp_or_warn.
  eapply wp_mono; [apply remove_file_spec| |].
  - intros [] d [[Hd Hq] Hp]. apply Hrest; [by rewrite Hd|done|by left].
  - intros d [[Hd Hq] Hp]. apply Hrest; [by rewrite Hd|done|by right].
Qed.

(** The keys without handles. *)
Definition unlocked s (k : FileStoreKey) : Prop := locked_files s !! k = None.

(** The result of the loop of [flush]: the queue splits in evicted entries,
    locked entries and entries left in the queue. *)
Record loop_post (target : N) (queue : list (FileStoreIndexItem * FileStoreKey))
    (surviving : list (FileStoreKey * FileStoreIndexItem)) s
    (r : list (FileStoreIndexItem * FileStoreKey) * list (FileStoreKey * FileStoreIndexItem)) s'
    (evicted : list (FileStoreIndexItem * FileStoreKey))
    (spared : list (FileStoreKey * FileStoreIndexItem)) : Prop := {
  lp_split : queue ≡ₚ evicted ++ (prod_swap <$> spared) ++ r.1;
  lp_surviving : r.2 = surviving ++ spared;
  lp_evicted : ∀ x, x ∈ evicted → unlocked s x.2;
  lp_spared : ∀ x, x ∈ spared → is_Some (locked_files s !! x.1);
  lp_order : ∀ x y, x ∈ evicted ++ (prod_swap <$> spared) → y ∈ r.1 → cmp y x ≠ Gt;
  lp_target : (total s' ≤ target)%N ∨ r.1 = [];
  lp_total : (total s' + sizes evicted.*1 = total s)%N;
  lp_known : known s' = known s;
  lp_frame : frame (unlocked s) s s'
}.

Lemma flush_loop_spec fuel target queue surviving s :
  length queue < fuel → (sizes queue.*1 ≤ total s)%N →
  wp (flush_loop fuel target queue surviving)
    (λ r s', ∃ evicted spared, loop_post target queue surviving s r s' evicted spared)
    (λ s', frame (unlocked s) s s' ∧ known s' = known s) s.
Proof.
  revert queue surviving s. induction fuel as [|fuel IH]; intros queue surviving s Hfuel Hsz; [lia|].
  simpl. apply wp_bind, wp_gets.
  assert (∀ q, q = queue → (total s ≤ target)%N ∨ q = [] →
    ∃ evicted spared, loop_post target queue surviving s (q, surviving) s evicted spared) as Hstop.
  { intros q -> Ht. exists [], []. split; simpl; try done; try set_solver.
    - by rewrite (right_id_L [] (++)).
    - lia.
    - apply frame_refl. }
  destruct (N.leb_spec (total s) target); [apply wp_ret, Hstop; auto|].
  destruct (ord_pop queue) as [[[entry key] queue']|] eqn:Hpop.
  2:{ apply ord_pop_None in Hpop as ->. apply wp_ret. auto. }
  pose proof (ord_pop_perm _ _ _ Hpop) as Hperm.
  pose proof (ord_pop_greatest _ _ _ Hpop) as Hmax.
  assert (length queue' < fuel) by (rewrite Hperm in Hfuel; simpl in Hfuel; lia).
  rewrite Hperm in Hsz. simpl in Hsz.
  apply wp_bind, wp_gets. destruct (decide (is_Some (locked_files s !! key))) as [Hl|Hl].
  - eapply wp_mono; [apply IH; [done|unfold fmap in *; lia]| |done]. simpl.
    intros [q' surv'] s' (ev & sp & []). simpl in *. exists ev, ((key, entry) :: sp). split; simpl.
    + rewrite Hperm, lp_split0. apply (Permutation_middle ev _ (entry, key)).
    + by rewrite lp_surviving0, <-(assoc_L (++)).
    + done.
    + intros x [->|?]%elem_of_cons; auto.
    + intros x y Hx Hy. rewrite elem_of_app, elem_of_cons in Hx.
      destruct Hx as [Hx|[->|Hx]]; [apply lp_order0; set_solver| |apply lp_order0; set_solver].
      apply Hmax. rewrite Hperm, lp_split0. set_solver.
    + done. 
    + done.
    + done.
    + done.
  - apply eq_None_not_Some in Hl. apply wp_bind.
    eapply wp_mono; [apply evict_spec; lia| |].
    2:{ intros s' (Hf & Hk & _). split; [|done]. eapply frame_mono; [|done]. by intros k ->. }
    intros [] s1 (Hf & Hk & Ht).
    assert (frame (unlocked s) s s1) as Hf1 by (eapply frame_mono; [|done]; by intros k ->).
    assert (locked_files s1 = locked_files s) as Hlk by apply Hf.
    assert (unlocked s1 = unlocked s) as Hun by (unfold unlocked; by rewrite Hlk).
    eapply wp_mono; [apply IH; [done|unfold fmap in *; lia]| |].
    2:{ intros s' [? ?]. rewrite Hun in *. split; [by eapply frame_trans|congruence]. }
    intros [q' surv'] s' (ev & sp & []). simpl in *. exists ((entry, key) :: ev), sp.
    rewrite Hun, Hlk in *. split; simpl; try done.
    + by rewrite Hperm, lp_split0.
    + intros x [->|?]%elem_of_cons; auto.
    + intros x y Hx Hy. apply elem_of_cons in Hx as [->|Hx]; [|auto].
      apply Hmax. rewrite Hperm, lp_split0. set_solver.
    + unfold fmap in *. lia.
    + congruence.
    + by eapply frame_trans.
Qed.

(** What [flush] does to the index. *)
Record flush_post (target : N) s s' : Prop := {
  fp_frame : frame (unlocked s) s s';
  fp_total : (total s' + index_sum (known s) = total s + index_sum (known s'))%N;
  fp_target : (total s' ≤ target)%N ∨
    ∀ k, is_Some (known s' !! k) → is_Some (locked_files s !! k);
  fp_subset : known s' ⊆ known s;
  fp_locked : ∀ k, is_Some (locked_files s !! k) → known s' !! k = known s !! k;
  fp_order : ∀ k i k' j, known s !! k = Some i → known s' !! k = None →
    known s' !! k' = Some j → unlocked s k' → (last_access j ≤ last_access i)%N
}.

Lemma index_sum_list (m : gmap FileStoreKey FileStoreIndexItem) l :
  l ≡ₚ map_to_list m → index_sum m = sizes l.*2.
Proof. intros Hl. unfold index_sum. by rewrite Hl. Qed.

Lemma list_to_map_perm (l : list (FileStoreKey * FileStoreIndexItem)) m :
  l ≡ₚ map_to_list m → NoDup l.*1 ∧ list_to_map l = m.
Proof.
  intros Hl. assert (NoDup l.*1) as Hnd by (rewrite Hl; apply NoDup_fst_map_to_list).
  split; [done|]. rewrite <-(list_to_map_to_list m). by apply list_to_map_proper.
Qed.

Lemma prod_swap_swap {A B} (l : list (A * B)) : prod_swap <$> (prod_swap <$> l) = l.
Proof. rewrite <-list_fmap_compose. rewrite <-(list_fmap_id l) at 2. by apply list_fmap_ext; intros ? []. Qed.

Lemma fst_swap {A B} (l : list (A * B)) : (prod_swap <$> l).*1 = l.*2.
Proof. rewrite <-list_fmap_compose. by apply list_fmap_ext; intros ? []. Qed.

Lemma snd_swap {A B} (l : list (A * B)) : (prod_swap <$> l).*2 = l.*1.
Proof. rewrite <-list_fmap_compose. by apply list_fmap_ext; intros ? []. Qed.

Lemma insert_all_app a b m : insert_all (a ++ b) m = insert_all b (insert_all a m).
Proof. apply foldl_app. Qed.

(** The rebuilt index, given how the loop split the old one. *)
Lemma flush_rebuild target s s' q ev sp :
  loop_post target (prod_swap <$> map_iter (known s)) [] (with_index (mkIndex (total s) ∅) s)
    (q, sp) s' ev sp →
  let m := insert_all (prod_swap <$> iter_order q) (insert_all sp (known s')) in
  flush_post target s (with_index (mkIndex (total s') m) s').
Proof.
  intros [Hsplit _ Hev Hsp Hord Htgt Htot Hkn Hfr] m. simpl in *.
  set (L := sp ++ (prod_swap <$> iter_order q)).
  assert ((prod_swap <$> ev) ++ L ≡ₚ map_to_list (known s)) as Hall.
  { rewrite <-map_iter_perm, <-(prod_swap_swap (map_iter (known s))), Hsplit, !fmap_app.
    unfold L. by rewrite prod_swap_swap, iter_order_perm. }
  destruct (list_to_map_perm _ _ Hall) as [Hnd Hknown].
  rewrite fmap_app in Hnd. apply NoDup_app in Hnd as (Hnd1 & Hdisj & Hnd2).
  assert (m = list_to_map L) as ->.
  { unfold m. assert (known s' = ∅) as -> by exact Hkn.
    rewrite <-insert_all_app, insert_all_lookup; [by rewrite (right_id_L ∅ (∪))|done|done]. }
  assert (∀ k i, (list_to_map L : gmap _ _) !! k = Some i ↔ (k, i) ∈ L) as HL
    by (intros; symmetry; by apply elem_of_list_to_map).
  assert (∀ k i, known s !! k = Some i ↔ (k, i) ∈ prod_swap <$> ev ∨ (k, i) ∈ L) as HK.
  { intros k i. by rewrite <-elem_of_map_to_list, <-Hall, elem_of_app. }
  assert (∀ k i, (k, i) ∈ prod_swap <$> ev ↔ (i, k) ∈ ev) as Hswap.
  { intros k i. rewrite list_elem_of_fmap. split; [by intros ([] & [= -> ->] & ?)|].
    intros. by exists (i, k). }
  assert (∀ k i, (k, i) ∈ L ↔ (k, i) ∈ sp ∨ (i, k) ∈ q) as HLs.
  { intros k i. unfold L. rewrite elem_of_app, list_elem_of_fmap. f_equiv. split.
    - intros ([a b] & [= -> ->] & Hin). by rewrite elem_of_iter_order in Hin.
    - intros. exists (i, k). by rewrite elem_of_iter_order. }
  split; simpl.
  - destruct Hfr as [Hs Hd Hc Hf]. by split.
  - unfold known at 2. simpl. rewrite (index_sum_list (known s) ((prod_swap <$> ev) ++ L)) by done.
    rewrite (index_sum_list (list_to_map L) L) by (by rewrite map_to_list_to_map).
    rewrite fmap_app, sizes_app, snd_swap.
    change (total (with_index _ s')) with (total s').
    change (total (with_index _ s)) with (total s) in Htot. lia.
  - destruct Htgt as [?| ->]; [by left|right]. intros k [i Hi%HL%HLs].
    destruct Hi as [Hi|Hi]; [by apply (Hsp (k, i))|]. by apply elem_of_nil in Hi.
  - apply map_subseteq_spec. intros k i Hi%HL. apply HK. by right.
  - intros k Hk. apply option_eq. intros i. unfold known at 1. simpl. rewrite HL, HK.
    split; [by right|]. intros [Hi%Hswap%Hev|?]; [|done].
    unfold unlocked in Hi. simpl in Hi. rewrite Hi in Hk. by destruct Hk.
  - intros k i k' j Hk Hk0 Hk' Hun. apply HK in Hk as [Hk|Hk]; [|apply HL in Hk; unfold known in Hk0; simpl in Hk0; congruence].
    apply HL, HLs in Hk' as [Hk'%Hsp|Hk'].
    { unfold unlocked in Hun. simpl in Hk'. rewrite Hun in Hk'. by destruct Hk'. }
    apply Hswap in Hk. specialize (Hord (i, k) (j, k') ltac:(set_solver) Hk').
    unfold cmp, prod_ord, cmp, FileStoreIndexItem_ord, ord_by, cmp, N_ord in Hord. simpl in Hord.
    destruct (N.compare_spec (last_access j) (last_access i)); [lia..|done].
Qed.

Lemma flush_spec target s :
  (index_sum (known s) ≤ total s)%N →
  wp (flush target) (λ _, flush_post target s)
    (λ s', frame (unlocked s) s s' ∧ known s' = ∅) s.
Proof.
  intros Hle. apply wp_bind, wp_get, wp_bind, wp_modify, wp_bind.
  set (s1 := with_index _ s).
  eapply wp_mono; [apply flush_loop_spec; [lia|]|simpl|simpl].
  - rewrite (index_sum_list _ (map_iter (known s))) in Hle by apply map_iter_perm.
    by rewrite fst_swap.
  - intros [q sv] s' (ev & sp & Hpost).
    assert (sv = sp) as -> by (apply Hpost).
    apply wp_bind, wp_get, wp_modify. by eapply flush_rebuild.
  - intros s' [[Hs Hd Hc Hf] Hk]. split; [by split|done].
Qed.

(** *** Operations that leave the files of the store alone *)
Definition untouched (base : PathBuf) (d d' : Disk) : Prop :=
  ∀ k, files d' !! key_to_path base k = files d !! key_to_path base k ∧
    (key_to_path base k ∉ dirs d → key_to_path base k ∉ dirs d').

#[export] Instance untouched_preorder base : PreOrder (untouched base).
Proof.
  split; unfold untouched; [done|]. intros d1 d2 d3 H12 H23 k.
  destruct (H12 k) as [<- ?], (H23 k) as [<- ?]. auto.
Qed.

Lemma untouched_same base d d' : files d' = files d → dirs d' = dirs d → untouched base d d'.
Proof. intros Hf Hd k. by rewrite Hf, Hd. Qed.

#[export] Instance evolves_preorder : PreOrder evolves.
Proof.
  split.
  - intros s. by split.
  - intros s1 s2 s3 [Hs1 Hd1 Hf1 Hi1] [Hs2 Hd2 Hf2 Hi2].
    destruct Hs1 as (Hb1 & Hl1 & ? & ?). rewrite Hb1, Hl1 in *.
    split; [|by auto..]. destruct Hs2 as (? & ? & ? & ?). split_and!; congruence.
Qed.

Lemma evolves_untouched s s' :
  same_store s s' → untouched (base_path s) (disk s) (disk s') →
  ((index_sum (known s) ≤ total s)%N → (index_sum (known s') ≤ total s')%N) → evolves s s'.
Proof.
  intros Hs Hu Hi. split; [done| | |done].
  - intros [Hc Hd]. split.
    + intros k f. destruct (Hu k) as [-> _]. eauto.
    + intros k. destruct (Hu k) as [_ Hk]. auto.
  - intros k _. by destruct (Hu k) as [-> _].
Qed.

Lemma parents_length p q : q ∈ parents p → length q < length p.
Proof.
  unfold parents. rewrite <-(length_reverse p). generalize (reverse p) as r.
  induction r as [|c r IH]; simpl; [set_solver|].
  assert (q ∈ reverse r :: parents_rev r → length q < S (length r)).
  { intros [->|Hq]%elem_of_cons; [rewrite length_reverse; lia|]. specialize (IH Hq). lia. }
  destruct c; [set_solver|done..].
Qed.

Lemma length_key_to_path base k : length (key_to_path base k) = length base + 3.
Proof. unfold key_to_path, suffix. rewrite path_join_relative, length_app. done. Qed.

(** A directory above a file of the store is not in the place of a file. *)
Lemma dir_not_key base k p q :
  length p ≤ length base + 2 → q ∈ p :: parents p → q ≠ key_to_path base k.
Proof.
  intros Hp Hq ->. assert (length (key_to_path base k) ≤ length p).
  { apply elem_of_cons in Hq as [<-|Hq%parents_length]; lia. }
  rewrite length_key_to_path in *. lia.
Qed.

Lemma create_dirs_untouched base p d :
  length p ≤ length base + 2 →
  wp (create_dir_all p) (λ _, untouched base d) (untouched base d) d.
Proof.
  intros Hp. apply wp_io_call; [by apply untouched_same|]. intros [] d' [= <-]. intros k.
  split; [done|]. simpl. intros Hk [Hin|?]%elem_of_union; [|done].
  rewrite elem_of_union, elem_of_singleton, elem_of_list_to_set in Hin.
  eapply (dir_not_key base k p); [done| |done]. set_solver.
Qed.

Lemma index_path_not_key base k : key_to_path base k ≠ path_join base [Normal STORE_INDEX_FILE].
Proof.
  intros Hk. apply (f_equal length) in Hk. rewrite length_key_to_path in Hk.
  rewrite path_join_relative, length_app in Hk. simpl in Hk. lia.
Qed.

Lemma index_store_spec i base d :
  let idx := path_join base [Normal STORE_INDEX_FILE] in
  wp (index_store i idx)
    (λ _ d', untouched base d d' ∧
       content <$> files d' !! idx = Some (STORE_MAGIC ++ serialize i))
    (untouched base d) d.
Proof.
  intros idx. unfold index_store.
  assert (path_parent idx = Some base) as -> by (unfold idx; by rewrite path_join_relative, path_parent_app).
  apply wp_bind. eapply wp_lift_ret; [done|]. apply wp_bind, wp_context.
  eapply wp_mono; [apply (create_dirs_untouched base base); lia| |done].
  intros [] d1 Hd1.
  set (tmp := with_extension "tmp" idx).
  assert (∀ k, key_to_path base k ≠ idx ∧ key_to_path base k ≠ tmp) as Hne.
  { intros k. split; [apply index_path_not_key|]. intros Hk. apply (f_equal length) in Hk.
    unfold tmp, idx in Hk. rewrite path_join_relative, with_extension_app, length_key_to_path,
      length_app in Hk. simpl in Hk. lia. }
  eapply wp_mono; [apply save_file_spec|simpl|simpl].
  - intros [] d2 [Hf Hdd]. rewrite Hf, lookup_insert_eq. split; [|done].
    trans d1; [done|]. intros k. destruct (Hne k). rewrite Hf, Hdd.
    by rewrite lookup_insert_ne, lookup_delete_ne.
  - intros d2 [Hf Hdd]. trans d1; [done|]. intros k. destruct (Hne k). rewrite Hdd.
    split; [by apply Hf|done].
Qed.

Lemma flush_evolves target s s' : flush_post target s s' → evolves s s'.
Proof.
  intros []. apply (frame_evolves (unlocked s)); [done|done|]. lia.
Qed.

(** *** The invariant accounting, as a relation *)
Lemma maybe_flush_spec s :
  (index_sum (known s) ≤ total s)%N →
  wp maybe_flush (λ _ s', evolves s s' ∧ frame (unlocked s) s s' ∧
      (total s' + index_sum (known s) = total s + index_sum (known s'))%N) (evolves s) s.
Proof.
  intros Hle. apply wp_bind, wp_get. destruct (need_flush _ _); [|by split; [|split; [apply frame_refl|]]].
  apply wp_context. eapply wp_mono; [by apply flush_spec| |].
  - intros [] s' Hp. split; [by eapply flush_evolves|]. by destruct Hp.
  - intros s' [Hf Hk]. apply (frame_evolves (unlocked s)); [done|done|].
    rewrite Hk, index_sum_empty. lia.
Qed.

Lemma touch_spec key s :
  wp (touch key) (λ _ s', evolves s s' ∧ files (disk s') = files (disk s) ∧
      total s' = total s ∧ index_sum (known s') = index_sum (known s)) no_error s.
Proof.
  apply wp_bind, wp_get. destruct (known s !! key) as [file|] eqn:Hk; [|done].
  apply wp_bind, wp_zoom, wp_system_time, wp_modify.
  assert (index_sum (<[key:=mkItem (item_size file) (clock (tick (disk s)))]> (known s)) =
    index_sum (known s)) as Hs by by apply (index_sum_replace _ _ file).
  split; [|done]. apply evolves_untouched; [done|by apply untouched_same|].
  unfold known at 2, total at 2. simpl. by rewrite Hs.
Qed.

Lemma index_add_spec key path f s :
  files (disk s) !! path = Some f →
  (total s + N.of_nat (length (content f)) < u64_modulus)%N →
  let P s' := evolves s s' ∧ files (disk s') = files (disk s) in
  wp (index_add key path) (λ _ s', P s' ∧ is_Some (known s' !! key) ∧
      (total s' + index_sum (known s) = total s + index_sum (known s'))%N) P s.
Proof.
  intros Hf Hlt P. apply wp_bind, wp_get.
  assert (∀ d m t, files d = files (disk s) → dirs d = dirs (disk s) →
    ((index_sum (known s) ≤ total s)%N → (index_sum m ≤ t)%N) →
    P (with_index (mkIndex t m) (with_disk d s))) as HP.
  { intros d m t Hfd Hdd Hi. split; [|done].
    apply evolves_untouched; [done|by apply untouched_same|done]. }
  destruct (known s !! key) as [entry|] eqn:Hk.
  - apply wp_bind, wp_zoom, wp_system_time, wp_modify.
    set (i' := mkItem _ _).
    assert (index_sum (<[key:=i']> (known s)) = index_sum (known s)) as Hs
      by by apply (index_sum_replace _ _ entry).
    split; [apply HP; [done..|by rewrite Hs]|]. clear HP P. unfold known, total in *. simpl.
    rewrite lookup_insert_eq, Hs. split; [by eexists|done].
  - apply wp_bind, wp_zoom, wp_context, wp_io_call.
    { split; [|done]. apply evolves_untouched; [done|by apply untouched_same|done]. }
    intros n d1 Hd1. simpl in Hd1. rewrite Hf in Hd1. injection Hd1 as <- <-.
    apply wp_bind, wp_zoom, wp_system_time, wp_bind, wp_modify, wp_bind.
    eapply wp_lift_ret; [by apply u64_add_Ret|]. apply wp_modify. simpl.
    set (i' := mkItem _ _).
    assert (index_sum (<[key:=i']> (known s)) = item_size i' + index_sum (known s))%N as Hs
      by by apply index_sum_insert.
    split; [apply HP; [done..|]; clear HP P; unfold known, total in *; simpl; rewrite Hs; simpl; lia|].
    clear HP P. unfold known, total in *.
    simpl. rewrite lookup_insert_eq, Hs. split; [by eexists|]. simpl. lia.
Qed.

(** *** Storing a file *)
Lemma evolves_put key f s d :
  from_content (content f) = key →
  (∀ k, k ≠ key → files d !! key_to_path (base_path s) k =
                  files (disk s) !! key_to_path (base_path s) k) →
  files d !! key_to_path (base_path s) key = Some f →
  (∀ k, key_to_path (base_path s) k ∉ dirs (disk s) → key_to_path (base_path s) k ∉ dirs d) →
  evolves s (with_disk d s).
Proof.
  intros Hc Hne Heq Hd. split; [done| | |done].
  - intros [Hok1 Hok2]. split; simpl; [|eauto]. intros k f' Hf'.
    destruct (decide (k = key)) as [->|]; [congruence|]. rewrite Hne in Hf' by done. eauto.
  - intros k _ Hk. simpl. destruct (decide (k = key)) as [->|]; [by rewrite Heq|].
    by rewrite Hne.
Qed.

Lemma path_parent_key base k :
  ∃ dir, path_parent (key_to_path base k) = Some dir ∧ length dir = length base + 2.
Proof.
  unfold key_to_path, suffix. rewrite path_join_relative. set (h := to_hex _).
  exists (base ++ [Normal (String.substring 0 2 h); Normal (String.substring 2 2 h)]).
  rewrite length_app. split; [|done].
  rewrite <-(path_parent_app (base ++ _) h), <-(assoc_L (++)). done.
Qed.

(** The file of [key] is on disk, complete and readonly. *)
Definition stored (key : FileStoreKey) (c : list byte) s : Prop :=
  files (disk s) !! key_to_path (base_path s) key = Some (mkDiskFile c true).

(** The end of [store], once the file is in its place. *)
Lemma store_index_spec key f s :
  let path := key_to_path (base_path s) key in
  files (disk s) !! path = Some f → is_Some (locked_files s !! key) →
  (index_sum (known s) ≤ total s)%N → (total s + N.of_nat (length (content f)) < u64_modulus)%N →
  wp (store_index_file key path)
    (λ _ s', evolves s s' ∧ files (disk s') !! path = Some f ∧
      (total s' + index_sum (known s) = total s + index_sum (known s'))%N)
    (evolves s) s.
Proof.
  intros path Hst Hlk Hle Hlt. apply wp_bind, wp_context.
  eapply wp_mono; [by eapply index_add_spec|simpl|by intros s' []].
  intros [] s1 ([Hev1 Hf1] & _ & Ht1).
  assert (base_path s1 = base_path s ∧ locked_files s1 = locked_files s) as [Hb1 Hl1]
    by (split; apply Hev1).
  apply wp_bind. eapply wp_mono; [apply maybe_flush_spec; lia|simpl|simpl].
  2:{ intros s' ?. by trans s1. }
  intros [] s2 (Hev2 & Hfr & Ht2).
  assert (base_path s2 = base_path s) as Hb2 by (rewrite <-Hb1; apply Hev2).
  assert (files (disk s2) !! path = Some f) as Hst2.
  { rewrite (fr_files _ _ _ Hfr), Hf1; [done|]. rewrite Hb1.
    intros k Hk Heq%(inj (key_to_path _)). subst k. unfold unlocked in Hk.
    rewrite Hl1 in Hk. rewrite Hk in Hlk. by destruct Hlk. }
  apply wp_bind, wp_get, wp_zoom, wp_context.
  eapply wp_mono; [apply index_store_spec|simpl|simpl].
  - intros [] d [Hu _]. split_and!.
    + trans s1; [done|]. trans s2; [done|]. by apply evolves_untouched.
    + destruct (Hu key) as [Hk _]. unfold path in *. rewrite <- Hb2 in *. simpl. by rewrite Hk.
    + change (total (with_disk d s2)) with (total s2).
      change (known (with_disk d s2)) with (known s2). lia.
  - intros d Hu. trans s1; [done|]. trans s2; [done|]. by apply evolves_untouched.
Qed.

Lemma store_write_spec key chunks s :
  from_content (concat chunks) = key →
  wp (store_write (key_to_path (base_path s) key) chunks)
    (λ _ s', evolves s s' ∧ stored key (concat chunks) s' ∧
       total s' = total s ∧ known s' = known s) (evolves s) s.
Proof.
  intros Hkey. destruct (path_parent_key (base_path s) key) as (dir & Hdir & Hlen).
  unfold store_write. rewrite Hdir. apply wp_bind. eapply wp_lift_ret; [done|].
  assert (∀ d, untouched (base_path s) (disk s) d → evolves s (with_disk d s)) as Hun.
  { intros d Hd. by apply evolves_untouched. }
  apply wp_bind, wp_zoom, wp_context.
  eapply wp_mono; [apply (create_dirs_untouched (base_path s) dir); lia| |apply Hun].
  intros [] d1 Hd1.
  assert (∀ d, files d = files d1 → dirs d = dirs d1 → untouched (base_path s) (disk s) d) as Hd.
  { intros d Hf Hdd. trans d1; [done|]. by apply untouched_same. }
  do 2 (apply wp_bind, wp_zoom, wp_context, wp_io_call; [by apply Hun, Hd|]; intros [] ? [= <-]).
  apply wp_bind, wp_zoom. eapply wp_mono; [apply write_chunks_spec|simpl|done].
  intros [] d2 [Hf2 Hdd2]; simpl; [|by apply Hun, Hd].
  apply wp_bind, wp_zoom, wp_context, wp_io_call; [by apply Hun, Hd|]. intros [] d3 [= <-]. simpl.
  set (p := key_to_path (base_path s) key) in *.
  assert (∀ d ro, files d = <[p := mkDiskFile (concat chunks) ro]> (files d1) →
    dirs d = dirs d1 → evolves s (with_disk d s)) as Hput.
  { intros d ro Hf Hds. apply (evolves_put key (mkDiskFile (concat chunks) ro)); [done| | |].
    - intros k Hk. rewrite Hf, lookup_insert_ne; [by apply Hd1|]. by intros ->%(inj (key_to_path _)).
    - by rewrite Hf, lookup_insert_eq.
    - intros k. rewrite Hds. by apply Hd1. }
  apply wp_zoom, wp_context. apply wp_bind, wp_context, wp_io_call.
  { apply (Hput _ false); simpl; [by rewrite Hf2|by rewrite Hdd2]. }
  intros n d4 Hd4. simpl in Hd4. rewrite lookup_insert_eq in Hd4. injection Hd4 as <- <-.
  apply wp_context, wp_io_call; [apply (Hput _ false); simpl; [by rewrite Hf2|by rewrite Hdd2]|].
  intros [] d5 Hd5. simpl in Hd5. rewrite lookup_insert_eq in Hd5. injection Hd5 as <-. simpl.
  split_and!; [apply (Hput _ true); simpl; [by rewrite insert_insert_eq, Hf2|by rewrite Hdd2]| |done..].
  unfold stored. simpl. apply lookup_insert_eq.
Qed.

Lemma store_new_spec key chunks s :
  from_content (concat chunks) = key → is_Some (locked_files s !! key) →
  (index_sum (known s) ≤ total s)%N →
  (total s + N.of_nat (length (concat chunks)) < u64_modulus)%N →
  wp (store_new key (key_to_path (base_path s) key) chunks)
    (λ _ s', evolves s s' ∧ stored key (concat chunks) s' ∧
      (total s' + index_sum (known s) = total s + index_sum (known s'))%N)
    (evolves s) s.
Proof.
  intros Hkey Hlk Hle Hlt. apply wp_bind. eapply wp_mono; [by apply store_write_spec|intros []|done].
  intros s1 (Hev & Hst & Ht & Hk). destruct (ev_same _ _ Hev) as (Hb & Hl & _). rewrite <- Hb.
  eapply wp_mono; [eapply store_index_spec; [exact Hst|by rewrite Hl|by rewrite Hk, Ht|by rewrite Ht]|simpl|].
  - intros [] s2 (Hev2 & Hf2 & Ht2). destruct (ev_same _ _ Hev2) as (Hb2 & _). rewrite Hk, Ht in Ht2.
    split_and!; [by trans s1| |done]. unfold stored. by rewrite Hb2.
  - intros s2 Hev2. by trans s1.
Qed.

(** *** Handles *)
Definition count_handles (k : FileStoreKey) (live : list FileStoreHandle) : N :=
  N.of_nat (length (filter (λ h, handle_key h = k) live)).

(** The reference counts are the numbers of live handles. *)
Definition refs_ok (live : list FileStoreHandle) s : Prop :=
  ∀ k, locked_files s !! k =
    if decide (count_handles k live = 0%N) then None else Some (count_handles k live).

(** The file of every live handle is on disk. *)
Definition files_ok (live : list FileStoreHandle) s : Prop :=
  ∀ h, h ∈ live → handle_path h = key_to_path (base_path s) (handle_key h) ∧
    is_Some (files (disk s) !! handle_path h).

Record store_inv (live : list FileStoreHandle) s : Prop := {
  inv_refs : refs_ok live s;
  inv_files : files_ok live s;
  inv_disk : disk_ok (base_path s) (disk s);
  inv_index : (index_sum (known s) ≤ total s)%N
}.

Lemma count_handles_cons k h live :
  count_handles k (h :: live) =
    ((if decide (handle_key h = k) then 1 else 0) + count_handles k live)%N.
Proof.
  unfold count_handles. rewrite filter_cons. destruct (decide (handle_key h = k)); cbn [length]; lia.
Qed.

Lemma count_handles_middle k l1 h l2 :
  count_handles k (l1 ++ h :: l2) = count_handles k (h :: l1 ++ l2).
Proof. unfold count_handles. by rewrite <-Permutation_middle. Qed.

Lemma refs_ok_locked live s h :
  refs_ok live s → h ∈ live → is_Some (locked_files s !! handle_key h).
Proof.
  intros Hr Hh. rewrite Hr. destruct (decide _) as [Hz|]; [|eauto]. exfalso.
  unfold count_handles in Hz. apply list_elem_of_split in Hh as (l1 & l2 & ->).
  rewrite filter_app, length_app, filter_cons, decide_True in Hz by done. simpl in Hz. lia.
Qed.

Lemma refs_evolves live s s' : evolves s s' → refs_ok live s → refs_ok live s'.
Proof. intros [(_ & Hl & _) _ _ _] Hr k. by rewrite Hl. Qed.

Lemma files_evolves live s s' :
  evolves s s' → (∀ h, h ∈ live → is_Some (locked_files s !! handle_key h)) →
  files_ok live s → files_ok live s'.
Proof.
  intros [Hs _ Hf _] Hr Hfl h Hh. destruct Hs as (Hb & Hl & _ & _).
  destruct (Hfl h Hh) as [Hp Hx]. rewrite Hb. split; [done|].
  rewrite Hp in *. apply Hf; auto.
Qed.

Lemma add_ref_ok live s h :
  refs_ok live s → refs_ok (h :: live) (with_locked (add_ref (handle_key h) (locked_files s)) s).
Proof.
  intros Hr k. simpl. rewrite count_handles_cons. unfold add_ref. rewrite lookup_insert.
  destruct (decide (handle_key h = k)) as [->|].
  - rewrite Hr. destruct (decide (count_handles k live = 0%N)) as [Hz|]; simpl.
    + rewrite Hz. done.
    + rewrite decide_False by lia. f_equal. lia.
  - by rewrite Hr.
Qed.

Lemma handle_drop_spec l1 h l2 s :
  refs_ok (l1 ++ h :: l2) s →
  wp (handle_drop h) (λ _ s', refs_ok (l1 ++ l2) s' ∧ ∃ m, s' = with_locked m s) no_error s.
Proof.
  intros Hr. apply wp_bind, wp_get.
  assert (∀ k, locked_files s !! k =
    let n := ((if decide (handle_key h = k) then 1 else 0) + count_handles k (l1 ++ l2))%N in
    if decide (n = 0%N) then None else Some n) as Hr'.
  { intros k. by rewrite Hr, count_handles_middle, count_handles_cons. }
  pose proof (Hr' (handle_key h)) as Hk. cbn zeta in Hk.
  rewrite (decide_True (P := handle_key h = handle_key h)) in Hk by done.
  rewrite decide_False in Hk by lia.
  apply wp_bind. eapply wp_lift_ret; [by rewrite Hk|].
  apply wp_bind. eapply wp_lift_ret; [apply u64_sub_Ret; lia|].
  set (c := count_handles (handle_key h) (l1 ++ l2)) in *.
  replace (1 + c - 1)%N with c by lia.
  destruct (decide (c = 0%N)) as [Hc|Hc]; apply wp_modify; (split; [|by eexists]); intros k; simpl.
  - rewrite lookup_delete. destruct (decide (handle_key h = k)) as [<-|Hne].
    + by rewrite decide_True.
    + rewrite Hr'. rewrite (decide_False (P := handle_key h = k)) by done.
      cbn zeta. by rewrite N.add_0_l.
  - rewrite lookup_insert. destruct (decide (handle_key h = k)) as [<-|Hne].
    + by rewrite decide_False.
    + rewrite Hr'. rewrite (decide_False (P := handle_key h = k)) by done.
      cbn zeta. by rewrite N.add_0_l.
Qed.

Lemma wp_drop_on_error {A} h (m : M FileStore A) (Q : A → FileStore → Prop) E s :
  wp m Q (wp (handle_drop h) (λ _, E) no_error) s → wp (drop_on_error h m) Q E s.
Proof.
  unfold wp, drop_on_error. destruct (m s) as [[] s']; try done.
  by destruct (handle_drop h s') as [[] ?].
Qed.

(** The state after [handle_new]. *)
Lemma with_locked_inv live s m :
  store_inv live s → disk_ok (base_path s) (disk s) ∧ (index_sum (known s) ≤ total s)%N ∧
    files_ok live (with_locked m s).
Proof. by intros []. Qed.

Lemma store_spec live key chunks s :
  store_inv live s → from_content (concat chunks) = key →
  (total s + N.of_nat (length (concat chunks)) < u64_modulus)%N →
  wp (store key chunks)
    (λ h s', store_inv (h :: live) s' ∧ handle_key h = key ∧ base_path s' = base_path s ∧
       (files (disk s) !! key_to_path (base_path s) key = None → stored key (concat chunks) s') ∧
       (index_wf s → index_wf s'))
    (store_inv live) s.
Proof.
  intros [Hr Hf Hd Hi] Hkey Hlt. apply wp_bind, wp_bind, wp_get, wp_bind, wp_modify.
  apply wp_ret. set (h := mkHandle key _). set (s1 := with_locked _ s).
  assert (refs_ok (h :: live) s1) as Hr1 by (by apply (add_ref_ok live s h)).
  assert (files_ok live s1) as Hf1 by done.
  apply wp_bind, wp_bind, wp_get, wp_zoom, path_exists_spec.
  - set (s2 := with_disk _ s1). apply wp_bind, wp_drop_on_error.
    assert (evolves s1 s2) as Hev12 by (by apply evolves_untouched).
    eapply wp_mono; [apply (store_new_spec key chunks s2); [done| |done|done]|simpl|simpl].
    + apply (refs_ok_locked (h :: live) s1 h); [done|set_solver].
    + intros [] s3 (Hev & Hst & Ht). assert (evolves s1 s3) as Hev13 by by trans s2.
      assert (base_path s3 = base_path s) as Hb by apply Hev13.
      apply wp_ret. split_and!; [|done|done|intros _; by unfold stored in *; rewrite Hb in *|].
      * split; [by eapply refs_evolves| | |by apply Hev13].
        -- intros h' [->|Hh']%elem_of_cons.
           ++ rewrite Hb. unfold stored in Hst. rewrite Hb in Hst. simpl. by rewrite Hst.
           ++ eapply files_evolves; [exact Hev13| |exact Hf1|done].
              intros h'' Hh''. eapply refs_ok_locked; [exact Hr1|set_solver].
        -- rewrite Hb. by apply Hev13.
      * unfold index_wf. intros Hwf. change (known s2) with (known s) in Ht.
        change (total s2) with (total s) in Ht. lia.
    + intros s3 Hev. assert (evolves s1 s3) as Hev13 by by trans s2.
      assert (base_path s3 = base_path s) as Hb by apply Hev13.
      eapply wp_mono; [apply (handle_drop_spec [] h live)|simpl|done].
      { by eapply refs_evolves. }
      intros [] s4 [Hr4 [m ->]]. split; [done| |simpl|by apply Hev13].
      * assert (files_ok live s3) as Hf3; [|done]. eapply files_evolves; [exact Hev13| |exact Hf1].
        intros h'' Hh''. eapply refs_ok_locked; [exact Hr1|set_solver].
      * rewrite Hb. by apply Hev13.
  - intros [Hex|Hex]; [|by destruct (ok_dirs _ _ Hd key)].
    apply wp_ret. split_and!; [|done|done| |done].
    + split; [exact Hr1| |by destruct Hd; split|done]. intros h' [->|Hh']%elem_of_cons; [by split|].
      apply (Hf1 h' Hh').
    + intros Hn. simpl in Hex. rewrite Hn in Hex. by destruct Hex.
Qed.

Lemma get_spec live key s :
  store_inv live s →
  wp (get key)
    (λ r s', base_path s' = base_path s ∧ (index_wf s → index_wf s') ∧
       match r with
       | Some h => store_inv (h :: live) s' ∧ handle_key h = key
       | None => store_inv live s' ∧ locked_files s' = locked_files s
       end) no_error s.
Proof.
  intros [Hr Hf Hd Hi]. apply wp_bind, wp_bind, wp_get, wp_zoom, path_exists_spec; simpl.
  - apply wp_ret. split_and!; [done|done| |done]. split; [done..|by destruct Hd; split|done].
  - intros [Hex|Hex]; [|by destruct (ok_dirs _ _ Hd key)].
    set (s1 := with_disk _ s). apply wp_bind.
    eapply wp_mono; [apply touch_spec|simpl|done].
    intros [] s2 (Hev & Hfs & Ht & Hs). assert (base_path s2 = base_path s) as Hb by apply Hev.
    apply wp_bind, wp_bind, wp_get, wp_bind, wp_modify, wp_ret, wp_ret.
    split_and!; [done| | |done].
    { unfold index_wf. intros Hwf. unfold known, total in *. simpl in *. congruence. }
    set (h := mkHandle key _). split; [| | |by apply Hev].
    + apply (add_ref_ok live s2 h). by eapply (refs_evolves live s1).
    + intros h' [->|Hh']%elem_of_cons; simpl.
      * split; [done|]. by rewrite Hfs, Hb.
      * assert (files_ok live s2) as Hf2; [|by apply Hf2].
        eapply files_evolves; [exact Hev| |exact Hf]. intros h'' Hh''.
        by apply (refs_ok_locked live s).
    + simpl. rewrite Hb. apply Hev. by destruct Hd; split.
Qed.

Lemma handle_clone_spec live h s :
  store_inv live s → h ∈ live →
  wp (handle_clone h) (λ h' s', h' = h ∧ store_inv (h' :: live) s') no_error s.
Proof.
  intros [Hr Hf Hd Hi] Hh. apply wp_bind, wp_get, wp_bind, wp_modify, wp_ret.
  split; [by destruct h|]. split; [|simpl|done|done].
  - by apply (add_ref_ok live s (mkHandle (handle_key h) (handle_path h))).
  - intros h' [->|Hh']%elem_of_cons; [apply (Hf h Hh)|by apply Hf].
Qed.

Lemma drop_inv l1 h l2 s :
  store_inv (l1 ++ h :: l2) s →
  wp (handle_drop h) (λ _ s', store_inv (l1 ++ l2) s') no_error s.
Proof.
  intros [Hr Hf Hd Hi]. eapply wp_mono; [by apply handle_drop_spec| |done].
  intros [] s' [Hr' [m ->]]. split; [done| |done|done].
  intros h' Hh'. apply (Hf h'). set_solver.
Qed.
End store_lemmas.

(** ** A store in use

    Several threads use a store.  A call of [store] or [get] that has not returned is
    between two of its steps: [Shared] keeps the calls of all the threads, and the handles
    they have got so far; the flag of a handle tells whether the store had promised its file:
    [store] gives a handle once the file is there, [get] makes one for a file it saw
    before, and the file may have been flushed since.  A client stores a content under its own key, and the
    files on disk stay below [2^64] bytes. *)

(** Where a call is: [store] after making its handle ([Storing]), after not finding the
    file ([Writing]) and after moving it to its place ([Indexing]); [get] after finding the
    file ([Getting]) and after touching its entry ([Touched]). *)
Inductive Call : Type :=
  | Storing (h : FileStoreHandle) (chunks : list (list byte))
  | Writing (h : FileStoreHandle) (chunks : list (list byte))
  | Indexing (h : FileStoreHandle)
  | Getting (key : FileStoreKey)
  | Touched (key : FileStoreKey).

Record Shared : Type := mkShared {
  sh_store : FileStore;
  sh_live : list (FileStoreHandle * bool);
  sh_calls : list Call
}.

Section clients.
Context `{IterOrder} `{BuildProfile} `{Blake3} `{World} `{!Bincode FileStoreIndex}.

Definition file_present (h : FileStoreHandle) (s : FileStore) : bool :=
  bool_decide (is_Some (files (disk s) !! handle_path h)).

(** One step of a thread; both lists are multisets. *)
Inductive store_step : Shared → Shared → Prop :=
  | step_store key chunks h s s' live calls :
      from_content (concat chunks) = key →
      handle_new key s = (Ret h, s') →
      store_step (mkShared s live calls) (mkShared s' live (Storing h chunks :: calls))
  | step_store_exists h chunks found s s' live calls rest :
      calls ≡ₚ Storing h chunks :: rest →
      file_exists (handle_key h) s = (Ret found, s') →
      store_step (mkShared s live calls)
        (if found : bool then mkShared s' ((h, true) :: live) rest
         else mkShared s' live (Writing h chunks :: rest))
  | step_store_write h chunks r s s' live calls rest :
      calls ≡ₚ Writing h chunks :: rest →
      drop_on_error h (store_write (handle_path h) chunks) s = (r, s') →
      store_step (mkShared s live calls)
        (mkShared s' live (match r with Ret _ => Indexing h :: rest | _ => rest end))
  | step_store_index h r s s' live calls rest :
      calls ≡ₚ Indexing h :: rest →
      (∀ f, files (disk s) !! handle_path h = Some f →
         (total s + N.of_nat (length (content f)) < u64_modulus)%N) →
      drop_on_error h (store_index_file (handle_key h) (handle_path h)) s = (r, s') →
      store_step (mkShared s live calls)
        (mkShared s' (match r with Ret _ => (h, true) :: live | _ => live end) rest)
  | step_get key found s s' live calls :
      file_exists key s = (Ret found, s') →
      store_step (mkShared s live calls)
        (mkShared s' live (if found : bool then Getting key :: calls else calls))
  | step_get_touch key s s' live calls rest :
      calls ≡ₚ Getting key :: rest →
      touch key s = (Ret tt, s') →
      store_step (mkShared s live calls) (mkShared s' live (Touched key :: rest))
  | step_get_handle key h s s' live calls rest :
      calls ≡ₚ Touched key :: rest →
      handle_new key s = (Ret h, s') →
      store_step (mkShared s live calls) (mkShared s' ((h, file_present h s) :: live) rest)
  | step_handle_clone h promised h' s s' live calls :
      (h, promised) ∈ live → handle_clone h s = (Ret h', s') →
      store_step (mkShared s live calls) (mkShared s' ((h', promised) :: live) calls)
  | step_handle_drop h promised r s s' live calls rest :
      live ≡ₚ (h, promised) :: rest → handle_drop h s = (r, s') →
      store_step (mkShared s live calls) (mkShared s' rest calls).

(** A store just opened: no handle, the files as a previous store left them. *)
Record store_start (s : FileStore) : Prop := {
  start_locked : locked_files s = ∅;
  start_disk : disk_ok (base_path s) (disk s);
  start_index : (index_sum (known s) ≤ total s)%N
}.

Lemma store_start_inv s : store_start s → store_inv [] s.
Proof.
  intros [Hl Hd Hi]. split; [|by intros h ?%elem_of_nil|done|done].
  intros k. by rewrite Hl.
Qed.

(** *** The invariant of the steps *)

(** The handles [hs] are counted, and the files of the ones in [sec] are on disk. *)
Record owns (hs : list FileStoreHandle) (sec : FileStoreHandle → Prop) (s : FileStore) : Prop := {
  own_refs : refs_ok hs s;
  own_paths : ∀ h, h ∈ hs → handle_path h = key_to_path (base_path s) (handle_key h);
  own_sec : ∀ h, sec h → h ∈ hs;
  own_files : ∀ h, sec h → is_Some (files (disk s) !! handle_path h);
  own_disk : disk_ok (base_path s) (disk s);
  own_index : (index_sum (known s) ≤ total s)%N
}.

Lemma owns_perm hs hs' (sec sec' : FileStoreHandle → Prop) s :
  hs ≡ₚ hs' → (∀ h, sec' h → sec h) → owns hs sec s → owns hs' sec' s.
Proof.
  intros Hp Hs [Hr Hpa Hse Hf Hd Hi]. split; [| | |by auto|done|done].
  - intros k. assert (count_handles k hs' = count_handles k hs) as ->; [|done].
    unfold count_handles. by rewrite Hp.
  - intros h Hh. apply Hpa. by rewrite Hp.
  - intros h Hh. rewrite <- Hp. auto.
Qed.

Lemma owns_evolves hs sec s s' : evolves s s' → owns hs sec s → owns hs sec s'.
Proof.
  intros Hev [Hr Hpa Hse Hf Hd Hi]. destruct (ev_same _ _ Hev) as (Hb & _).
  split; [by eapply refs_evolves|by rewrite Hb|done| |rewrite Hb; by apply Hev|by apply Hev].
  intros h Hh. rewrite Hpa by auto. apply Hev; [|rewrite <- Hpa by auto; auto].
  eapply refs_ok_locked; eauto.
Qed.

Lemma owns_secure hs (sec sec' : FileStoreHandle → Prop) h s :
  owns hs sec s → h ∈ hs → is_Some (files (disk s) !! handle_path h) →
  (∀ h', sec' h' → h' = h ∨ sec h') → owns hs sec' s.
Proof.
  intros [Hr Hpa Hse Hf Hd Hi] Hh Hx Hs. split; try done.
  - intros h' [->|?]%Hs; auto.
  - intros h' [->|?]%Hs; auto.
Qed.

Lemma owns_new hs sec key s :
  owns hs sec s →
  wp (handle_new key) (λ h s', handle_key h = key ∧ owns (h :: hs) sec s' ∧ disk s' = disk s)
    no_error s.
Proof.
  intros [Hr Hpa Hse Hf Hd Hi]. apply wp_bind, wp_get, wp_bind, wp_modify, wp_ret.
  split_and!; [done| |done]. split; [|intros h [->|?]%elem_of_cons; [done|by apply Hpa]| |done..].
  - by apply (add_ref_ok hs s (mkHandle key _)).
  - intros h ?. right. auto.
Qed.

Lemma owns_clone hs sec h s :
  owns hs sec s → h ∈ hs →
  wp (handle_clone h) (λ h' s', h' = h ∧ owns (h :: hs) sec s' ∧ disk s' = disk s) no_error s.
Proof.
  intros [Hr Hpa Hse Hf Hd Hi] Hh. apply wp_bind, wp_get, wp_bind, wp_modify, wp_ret.
  split_and!; [by destruct h| |done].
  split; [by apply (add_ref_ok hs s h)|intros h' [->|?]%elem_of_cons; by apply Hpa| |done..].
  intros h' ?. right. auto.
Qed.

Lemma owns_drop hs hs' (sec sec' : FileStoreHandle → Prop) h s :
  owns hs sec s → hs ≡ₚ h :: hs' → (∀ h', sec' h' → sec h') → (∀ h', sec' h' → h' ∈ hs') →
  wp (handle_drop h) (λ _, owns hs' sec') no_error s.
Proof.
  intros Hown Hp Hs Hs'. apply (owns_perm _ (h :: hs') _ sec) in Hown as []; [|done..].
  eapply wp_mono; [by apply (handle_drop_spec [] h hs')| |done].
  intros [] s' [Hr [m ->]]. split; try done; [|naive_solver].
  intros h' Hh'. apply own_paths0. by right.
Qed.

Lemma file_exists_spec key s :
  wp (file_exists key)
    (λ found s', evolves s s' ∧ files (disk s') = files (disk s) ∧ total s' = total s ∧
       (found = true → disk_ok (base_path s) (disk s) →
          is_Some (files (disk s) !! key_to_path (base_path s) key))) no_error s.
Proof.
  apply wp_bind, wp_get, wp_zoom, path_exists_spec; simpl.
  - split_and!; [by apply evolves_untouched|done..].
  - intros Hex. split_and!; [by apply evolves_untouched|done|done|]. intros _ Hd.
    destruct Hex as [?|Hex]; [done|]. by destruct (ok_dirs _ _ Hd key).
Qed.

(** The handle a call holds. *)
Definition call_handles (c : Call) : list FileStoreHandle :=
  match c with Storing h _ | Writing h _ | Indexing h => [h] | Getting _ | Touched _ => [] end.

Definition counted (st : Shared) : list FileStoreHandle :=
  (sh_live st).*1 ++ (sh_calls st ≫= call_handles).
Definition secured (st : Shared) (h : FileStoreHandle) : Prop :=
  (h, true) ∈ sh_live st ∨ Indexing h ∈ sh_calls st.

(** What a call stores has its own key. *)
Definition call_ok (c : Call) : Prop :=
  match c with
  | Storing h chunks | Writing h chunks => from_content (concat chunks) = handle_key h
  | _ => True
  end.

Record shared_inv (st : Shared) : Prop := {
  shi_owns : owns (counted st) (secured st) (sh_store st);
  shi_calls : Forall call_ok (sh_calls st)
}.

Lemma shared_perm s live live' calls calls' :
  live ≡ₚ live' → calls ≡ₚ calls' →
  shared_inv (mkShared s live calls) → shared_inv (mkShared s live' calls').
Proof.
  intros Hl Hc [Ho Hk]. split; [|simpl in *; by rewrite <- Hc].
  eapply owns_perm; [| |exact Ho]; unfold counted, secured; simpl; [by rewrite Hl, Hc|].
  intros h. by rewrite Hl, Hc.
Qed.

(** A step that makes a handle. *)
Lemma shared_new s s' live calls c h :
  owns (h :: counted (mkShared s live calls)) (secured (mkShared s live calls)) s' →
  call_handles c = [h] → call_ok c → (∀ h', c ≠ Indexing h') →
  Forall call_ok calls → shared_inv (mkShared s' live (c :: calls)).
Proof.
  intros Ho Hc Hok Hne Hk. split; [|by constructor].
  eapply owns_perm; [| |exact Ho]; unfold counted, secured; simpl.
  - rewrite Hc. apply Permutation_middle.
  - intros h' [?|[<-|?]%elem_of_cons]; [by left|by edestruct Hne|by right].
Qed.

(** A call that keeps its handle, and its promise, while the store evolves. *)
Lemma shared_evolves s s' live calls c c' :
  evolves s s' → call_handles c' = call_handles c → call_ok c' →
  (∀ h, c' = Indexing h → is_Some (files (disk s') !! handle_path h)) →
  shared_inv (mkShared s live (c :: calls)) → shared_inv (mkShared s' live (c' :: calls)).
Proof.
  intros Hev Hh Hok Hi [Ho [_ Hk]%Forall_cons]. split; [|by constructor].
  apply (owns_evolves _ _ _ _ Hev) in Ho. unfold counted in Ho. simpl in Ho.
  rewrite <- Hh in Ho. destruct c' as [h ?|h ?|h|key|key].
  3:{ eapply owns_secure; [exact Ho|simpl|by apply Hi|].
      - apply elem_of_app. right. by left.
      - intros h' [?|[[= ->]|?]%elem_of_cons]; [right; by left|by left|right; right; by right]. }
  all: eapply owns_perm; [done| |exact Ho]; intros h' [?|[[=]|?]%elem_of_cons];
    [by left|right; by right].
Qed.

(** A call that returns its handle with the file. *)
Lemma shared_return s s' live calls c h :
  evolves s s' → call_handles c = [h] → is_Some (files (disk s') !! handle_path h) →
  shared_inv (mkShared s live (c :: calls)) → shared_inv (mkShared s' ((h, true) :: live) calls).
Proof.
  intros Hev Hc Hf [Ho [_ Hk]%Forall_cons]. split; [|done].
  apply (owns_evolves _ _ _ _ Hev) in Ho. unfold counted in Ho. simpl in Ho. rewrite Hc in Ho.
  apply (owns_perm _ (h :: live.*1 ++ (calls ≫= call_handles)) _
    (secured (mkShared s live (c :: calls)))) in Ho; [|symmetry; apply Permutation_middle|done].
  eapply owns_secure; [exact Ho|by left|done|].
  intros h' [[[= <-]|?]%elem_of_cons|?]; [by left|right; by left|right; right; by right].
Qed.

(** A call that fails gives its handle back. *)
Lemma shared_drop_on_error {A} s live calls c h (m : M FileStore A) (Q : A → FileStore → Prop) :
  call_handles c = [h] → shared_inv (mkShared s live (c :: calls)) →
  wp m (λ x s', evolves s s' ∧ Q x s') (evolves s) s →
  wp (drop_on_error h m) (λ x s', evolves s s' ∧ Q x s')
    (λ s', shared_inv (mkShared s' live calls)) s.
Proof.
  intros Hc [Ho [_ Hk]%Forall_cons] Hm. apply wp_drop_on_error.
  eapply wp_mono; [exact Hm|done|]. intros s' Hev. apply (owns_evolves _ _ _ _ Hev) in Ho.
  eapply wp_mono; [eapply (owns_drop _ (counted (mkShared s live calls)) _
    (secured (mkShared s live calls))); [exact Ho| | |]| |done].
  - unfold counted. simpl. rewrite Hc. symmetry. apply Permutation_middle.
  - intros h' [?|?]; [by left|right; by right].
  - unfold counted. simpl. intros h' [Hh|Hh].
    + apply elem_of_app. left. by apply (list_elem_of_fmap_2 fst _ (h', true)).
    + apply elem_of_app. right. apply list_elem_of_bind. exists (Indexing h'). split; [by left|done].
  - intros [] s'' Hown. by split.
Qed.

Lemma wp_result {A} (m : M FileStore A) (Q : A → FileStore → Prop) E s r s' :
  wp m Q E s → m s = (r, s') →
  match r with Ret x => Q x s' | Fail _ => E s' | Panicked _ | OutOfFuel => False end.
Proof. unfold wp. by intros Hm Hr; rewrite Hr in Hm. Qed.

(** The steps of [store]. *)
Lemma step_store_inv key chunks h s s' live calls :
  from_content (concat chunks) = key → handle_new key s = (Ret h, s') →
  shared_inv (mkShared s live calls) → shared_inv (mkShared s' live (Storing h chunks :: calls)).
Proof.
  intros Hk Hn [Ho Hc]. destruct (wp_result _ _ _ _ _ _ (owns_new _ _ key s Ho) Hn) as (Hkey & Hn' & _).
  eapply shared_new; [exact Hn'|done|simpl; congruence|done|done].
Qed.

Lemma step_exists_inv h chunks found s s' live calls :
  file_exists (handle_key h) s = (Ret found, s') →
  shared_inv (mkShared s live (Storing h chunks :: calls)) →
  shared_inv (if found : bool then mkShared s' ((h, true) :: live) calls
              else mkShared s' live (Writing h chunks :: calls)).
Proof.
  intros He Hinv. pose proof Hinv as [Ho Hc].
  destruct (wp_result _ _ _ _ _ _ (file_exists_spec (handle_key h) s) He) as (Hev & Hf & _ & Hfound).
  destruct found.
  - eapply (shared_return _ _ _ _ (Storing h chunks)); [exact Hev|done| |exact Hinv]. rewrite Hf, (own_paths _ _ _ Ho h).
    { by apply Hfound, Ho. } apply elem_of_app. right. by left.
  - eapply (shared_evolves _ _ _ _ (Storing h chunks)); [exact Hev|done| |done|exact Hinv]. by apply Forall_cons in Hc as [? _].
Qed.

Lemma step_write_inv h chunks r s s' live calls :
  drop_on_error h (store_write (handle_path h) chunks) s = (r, s') →
  shared_inv (mkShared s live (Writing h chunks :: calls)) →
  shared_inv (mkShared s' live (match r with Ret _ => Indexing h :: calls | _ => calls end)).
Proof.
  intros Hw Hinv. pose proof Hinv as [Ho [Hok _]%Forall_cons]. simpl in Hok.
  assert (handle_path h = key_to_path (base_path s) (handle_key h)) as Hp
    by (apply (own_paths _ _ _ Ho); apply elem_of_app; right; by left).
  rewrite Hp in Hw. eapply wp_result in Hw; [|eapply (shared_drop_on_error _ live calls (Writing h chunks) h _
    (λ _ s', stored (handle_key h) (concat chunks) s')); [done|exact Hinv|]].
  2:{ eapply wp_mono; [by apply store_write_spec|simpl; naive_solver|done]. }
  destruct r; [|done..]. destruct Hw as [Hev Hst].
  eapply (shared_evolves _ _ _ _ (Writing h chunks)); [exact Hev|done|done| |exact Hinv]. intros h' [= <-].
  destruct (ev_same _ _ Hev) as (Hb & _). unfold stored in Hst. rewrite Hb in Hst.
  by rewrite Hp, Hst.
Qed.

Lemma step_index_inv h r s s' live calls :
  (∀ f, files (disk s) !! handle_path h = Some f →
     (total s + N.of_nat (length (content f)) < u64_modulus)%N) →
  drop_on_error h (store_index_file (handle_key h) (handle_path h)) s = (r, s') →
  shared_inv (mkShared s live (Indexing h :: calls)) →
  shared_inv (mkShared s' (match r with Ret _ => (h, true) :: live | _ => live end) calls).
Proof.
  intros Hlt Hw Hinv. pose proof Hinv as [Ho _].
  assert (h ∈ counted (mkShared s live (Indexing h :: calls))) as Hh
    by (apply elem_of_app; right; by left).
  pose proof (own_paths _ _ _ Ho h Hh) as Hp. destruct (own_files _ _ _ Ho h) as [f Hf].
  { right. by left. }
  simpl in Hp, Hf. pose proof (Hlt f Hf) as Hsz. rewrite Hp in Hw, Hf.
  eapply wp_result in Hw; [|eapply (shared_drop_on_error _ live calls (Indexing h) h _
    (λ _ s', files (disk s') !! handle_path h = Some f)); [done|exact Hinv|]].
  2:{ eapply wp_mono; [eapply store_index_spec; [exact Hf| |by apply Ho|done]|simpl|done].
      - eapply refs_ok_locked; [by apply Ho|done].
      - rewrite Hp. naive_solver. }
  destruct r; [|done..]. destruct Hw as [Hev Hst].
  eapply (shared_return _ _ _ _ (Indexing h)); [exact Hev|done|by rewrite Hst|exact Hinv].
Qed.

(** The last step of [get]. *)
Lemma step_handle_inv key h s s' live calls :
  handle_new key s = (Ret h, s') →
  shared_inv (mkShared s live (Touched key :: calls)) →
  shared_inv (mkShared s' ((h, file_present h s) :: live) calls).
Proof.
  intros Hn [Ho [_ Hc]%Forall_cons].
  destruct (wp_result _ _ _ _ _ _ (owns_new _ _ key s Ho) Hn) as (Hkey & Hn' & Hd).
  split; [|done]. unfold counted in Hn'. simpl in Hn'.
  destruct (file_present h s) eqn:Hp.
  - eapply owns_secure; [exact Hn'|by left|simpl; rewrite Hd; by apply bool_decide_eq_true in Hp|].
    intros h' [[[= ->]|?]%elem_of_cons|?]; [by left|right; by left|right; right; by right].
  - eapply owns_perm; [done| |exact Hn'].
    intros h' [[[=]|?]%elem_of_cons|?]; [by left|right; by right].
Qed.

Lemma step_clone_inv h promised h' s s' live calls :
  (h, promised) ∈ live → handle_clone h s = (Ret h', s') →
  shared_inv (mkShared s live calls) → shared_inv (mkShared s' ((h', promised) :: live) calls).
Proof.
  intros Hl Hn [Ho Hc]. assert (h ∈ counted (mkShared s live calls)) as Hh.
  { apply elem_of_app. left. by apply (list_elem_of_fmap_2 fst _ (h, promised)). }
  destruct (wp_result _ _ _ _ _ _ (owns_clone _ _ h s Ho Hh) Hn) as (-> & Hn' & Hd).
  split; [|done]. destruct promised.
  - eapply owns_secure; [exact Hn'|by left|simpl; rewrite Hd; apply (own_files _ _ _ Ho); by left|].
    intros h' [[[= ->]|?]%elem_of_cons|?]; [by left|right; by left|right; by right].
  - eapply owns_perm; [done| |exact Hn'].
    intros h' [[[=]|?]%elem_of_cons|?]; [by left|by right].
Qed.

Lemma step_drop_inv h promised r s s' live calls :
  handle_drop h s = (r, s') → shared_inv (mkShared s ((h, promised) :: live) calls) →
  shared_inv (mkShared s' live calls).
Proof.
  intros Hn [Ho Hc]. eapply wp_result in Hn; [|eapply (owns_drop _ (counted (mkShared s live calls)) _
    (secured (mkShared s live calls))); [exact Ho|done| |]].
  - destruct r; [by split|done..].
  - intros h' [?|?]; [left; by right|by right].
  - intros h' [Hh|Hh]; apply elem_of_app.
    + left. by apply (list_elem_of_fmap_2 fst _ (h', true)).
    + right. apply list_elem_of_bind. exists (Indexing h'). split; [by left|done].
Qed.

Lemma store_step_inv st st' : store_step st st' → shared_inv st → shared_inv st'.
Proof.
  destruct 1 as [| | | |key found s s' live calls He|key s s' live calls rest Hp Ht| | |];
    intros Hinv;
    try match goal with
    | H : ?live ≡ₚ (_, _) :: _ |- _ => apply (shared_perm _ _ _ _ _ H (reflexivity _)) in Hinv
    | H : ?calls ≡ₚ _ :: _ |- _ => apply (shared_perm _ _ _ _ _ (reflexivity _) H) in Hinv
    end.
  - by eapply step_store_inv.
  - by eapply step_exists_inv.
  - by eapply step_write_inv.
  - by eapply step_index_inv.
  - destruct (wp_result _ _ _ _ _ _ (file_exists_spec key s) He) as (Hev & _).
    destruct Hinv as [Ho Hc]. apply (owns_evolves _ _ _ _ Hev) in Ho.
    destruct found; [|by split]. split; [|by constructor].
    eapply owns_perm; [done| |exact Ho]. intros h [?|[[=]|?]%elem_of_cons]; [by left|by right].
  - destruct (wp_result _ _ _ _ _ _ (touch_spec key s) Ht) as (Hev & _).
    by eapply (shared_evolves _ _ _ _ (Getting key)).
  - by eapply step_handle_inv.
  - by eapply step_clone_inv.
  - by eapply step_drop_inv.
Qed.

Lemma store_reachable_inv s0 st :
  store_start s0 → rtc store_step (mkShared s0 [] []) st → shared_inv st.
Proof.
  intros Hs Hr. assert (shared_inv (mkShared s0 [] [])) as Hinv.
  { apply store_start_inv in Hs as [Hr0 Hf Hd Hi]. split; [|by constructor].
    split; try done; by (intros h [?%elem_of_nil|?%elem_of_nil] || intros h ?%elem_of_nil). }
  revert Hinv. induction Hr; eauto using store_step_inv.
Qed.

(** *** A call that no other thread interrupts *)
Lemma bind_returns {A B} (m : M FileStore A) (f : A → M FileStore B) s b s' :
  (m ≫= f) s = (Ret b, s') ↔ ∃ a s1, m s = (Ret a, s1) ∧ f a s1 = (Ret b, s').
Proof.
  unfold mbind, M_bind. destruct (m s) as [[a| | |] s1]; split; try done.
  all: try by intros (a' & s1' & [=] & _). { eauto. } by intros (a' & s1' & [= <- <-] & Hf).
Qed.

Lemma drop_on_error_returns {A} h (m : M FileStore A) s x s' :
  drop_on_error h m s = (Ret x, s') ↔ m s = (Ret x, s').
Proof.
  unfold drop_on_error. destruct (m s) as [[a| | |] s1]; try done.
  by destruct (handle_drop h s1) as [[[]| | |] s2].
Qed.

Lemma handle_new_returns key s h s' :
  handle_new key s = (Ret h, s') → h = mkHandle key (key_to_path (base_path s) key) ∧
    s' = with_locked (add_ref key (locked_files s)) s.
Proof. by intros [= <- <-]. Qed.

Lemma store_run key chunks s h s' live calls :
  from_content (concat chunks) = key →
  (total s + N.of_nat (length (concat chunks)) < u64_modulus)%N →
  store key chunks s = (Ret h, s') →
  rtc store_step (mkShared s live calls) (mkShared s' ((h, true) :: live) calls).
Proof.
  intros Hk Hlt (h' & s1 & Hn & Hst)%bind_returns.
  eapply rtc_l; [by apply (step_store key chunks h' s s1)|].
  apply handle_new_returns in Hn as [-> ->]. set (h' := mkHandle _ _) in *.
  apply bind_returns in Hst as (found & s2 & He & Hst).
  eapply rtc_l; [by apply (step_store_exists h' chunks found _ s2 _ _ calls)|].
  destruct found; [injection Hst as <- <-; apply rtc_refl|].
  apply bind_returns in Hst as ([] & s3 & Hst%drop_on_error_returns & [= <- <-]).
  apply bind_returns in Hst as ([] & s4 & Hw & Hi).
  eapply rtc_l; [apply (step_store_write h' chunks (Ret tt) s2 s4 _ _ calls); [done|]|].
  { by apply drop_on_error_returns. }
  apply rtc_once, (step_store_index h' (Ret tt)); [done| |by apply drop_on_error_returns].
  destruct (wp_result _ _ _ _ _ _ (file_exists_spec key _) He) as (Hev & _ & Ht & _).
  assert (base_path s2 = base_path s) as Hb by apply Hev.
  change (total s2 = total s) in Ht.
  pose proof (store_write_spec key chunks s2 Hk) as Hspec. rewrite Hb in Hspec.
  destruct (wp_result _ _ _ _ _ _ Hspec Hw) as (Hev4 & Hst & Ht4 & _).
  assert (base_path s4 = base_path s) as Hb4 by (rewrite <- Hb; apply Hev4).
  unfold stored in Hst. rewrite Hb4 in Hst. simpl. intros f Hf.
  rewrite Ht4, Ht. rewrite Hst in Hf. by injection Hf as <-.
Qed.

Lemma get_run key s h s' live calls :
  get key s = (Ret (Some h), s') →
  rtc store_step (mkShared s live calls) (mkShared s' ((h, file_present h s') :: live) calls).
Proof.
  intros (found & s1 & He & Hg)%bind_returns.
  eapply rtc_l; [by apply (step_get key found s s1)|]. destruct found; [|done].
  apply bind_returns in Hg as ([] & s2 & Ht & Hg).
  eapply rtc_l; [by apply (step_get_touch key s1 s2 _ _ calls)|].
  apply bind_returns in Hg as (h' & s3 & Hn & [= <- <-]).
  eapply rtc_l; [by apply (step_get_handle key h' s2 s3 _ _ calls)|].
  apply handle_new_returns in Hn as [-> ->]. apply rtc_refl.
Qed.

Lemma index_load_store i base d d' :
  (∀ n, io_ok n = true) →
  let idx := path_join base [Normal STORE_INDEX_FILE] in
  index_store i idx d = (Ret tt, d') → (index_load idx d').1 = Ret i.
Proof.
  intros Hio idx Hst. pose proof (index_store_spec i base d) as Hw. unfold wp in Hw.
  fold idx in Hw. rewrite Hst in Hw. destruct Hw as [_ Hf].
  destruct (files d' !! idx) as [f|] eqn:Hfi; [|done].
  assert (content f = STORE_MAGIC ++ serialize i) as Hc by exact (inj Some _ _ Hf).
  unfold index_load, mbind, M_bind. by erewrite load_file_spec.
Qed.
End clients.

(** ** Properties *)
Section properties.
Context `{IterOrder} `{BuildProfile} `{Blake3} `{World} `{!Bincode FileStoreIndex}.

(** C5: while any number of threads call [store] and [get], clone and drop handles, each
    step of a call interleaved with the steps of the others, and whatever the I/O faults and the
    flushes: the file of every live handle that [store] has returned, or that [get] made while its file was on disk, and of
    their clones, is on disk, and its content hashes to the key of the handle.  Clients store a content under its own key
    and the sizes fit in 64 bits; a flush between the two accesses of [get] makes the other
    handles, see [get_races_flush]. *)
Theorem live_handle_file s0 st h :
  store_start s0 → rtc store_step (mkShared s0 [] []) st → (h, true) ∈ sh_live st →
  ∃ f, files (disk (sh_store st)) !! handle_path h = Some f ∧
       from_content (content f) = handle_key h.
Proof.
  intros Hs Hr Hh. destruct (store_reachable_inv _ _ Hs Hr) as [Ho _].
  destruct (own_files _ _ _ Ho h) as [f Hf]; [by left|]. exists f. split; [done|].
  rewrite (own_paths _ _ _ Ho h) in Hf by (apply (own_sec _ _ _ Ho); by left).
  by apply (ok_content _ _ (own_disk _ _ _ Ho)).
Qed.

(** In every reachable state the reference count of a key is the number of its handles,
    those of the calls in progress included, and dropping a live handle never panics. *)
Theorem live_handle_refs s0 st :
  store_start s0 → rtc store_step (mkShared s0 [] []) st →
  (∀ k, default 0%N (locked_files (sh_store st) !! k) = count_handles k (counted st)) ∧
  (∀ h promised, (h, promised) ∈ sh_live st →
     ∃ s', handle_drop h (sh_store st) = (Ret tt, s')).
Proof.
  intros Hs Hr. destruct (store_reachable_inv _ _ Hs Hr) as [Ho _]. split.
  - intros k. rewrite (own_refs _ _ _ Ho). by destruct (decide _).
  - intros h promised Hh. assert (h ∈ counted st) as (l1 & l2 & Hl)%list_elem_of_split.
    { apply elem_of_app. left. by apply (list_elem_of_fmap_2 fst _ (h, promised)). }
    pose proof (own_refs _ _ _ Ho) as Hrefs. rewrite Hl in Hrefs.
    destruct (wp_run _ _ _ (handle_drop_spec l1 h l2 _ Hrefs)) as ([] & s' & Hd & _). eauto.
Qed.

(** C26: [FileStore::store] gives a handle of the key it was given; when the file
    was not on disk it is now there, complete and readonly, even if the store
    was flushed meanwhile; and the accounting of the index stays exact. *)
Theorem store_correct live key chunks s h s' :
  store_inv live s → from_content (concat chunks) = key →
  (total s + N.of_nat (length (concat chunks)) < u64_modulus)%N →
  store key chunks s = (Ret h, s') →
  handle_key h = key ∧ handle_path h = key_to_path (base_path s) key ∧
  (files (disk s) !! key_to_path (base_path s) key = None → stored key (concat chunks) s') ∧
  (index_wf s → index_wf s').
Proof.
  intros Hinv Hk Hlt Hst. pose proof (store_spec live key chunks s Hinv Hk Hlt) as Hw.
  unfold wp in Hw. rewrite Hst in Hw. destruct Hw as (Hinv' & Hkey & Hb & Hn & Hwf).
  split_and!; [done| |done|done]. destruct (inv_files _ _ Hinv' h) as [Hp _]; [set_solver|].
  by rewrite Hp, Hb, Hkey.
Qed.

(** A flush that returns reaches its target or leaves only locked files in
    the index; it never touches the file or the entry of a key with handles, adds
    no entry, and keeps the accounting of the index exact. *)
Theorem flush_correct target s s' :
  (index_sum (known s) ≤ total s)%N → flush target s = (Ret tt, s') →
  ((total s' ≤ target)%N ∨ ∀ k, is_Some (known s' !! k) → is_Some (locked_files s !! k)) ∧
  (∀ k, is_Some (locked_files s !! k) → known s' !! k = known s !! k ∧
     files (disk s') !! key_to_path (base_path s) k =
     files (disk s) !! key_to_path (base_path s) k) ∧
  known s' ⊆ known s ∧ (index_wf s → index_wf s').
Proof.
  intros Hle Hfl. pose proof (flush_spec target s Hle) as Hw. unfold wp in Hw.
  rewrite Hfl in Hw. destruct Hw as [Hfr Htot Htgt Hsub Hlk _]. split_and!; try done.
  - intros k Hk. split; [by apply Hlk|]. apply (fr_files _ _ _ Hfr).
    intros k' Hk' ->%(inj (key_to_path _)). unfold unlocked in Hk'. rewrite Hk' in Hk. by destruct Hk.
  - unfold index_wf. lia.
Qed.

(** The order of the evictions: when an entry is evicted and an entry without
    handles is kept, the evicted one is the most recently used of the two. *)
Theorem flush_evicts_newest target s s' k i k' j :
  (index_sum (known s) ≤ total s)%N → flush target s = (Ret tt, s') →
  known s !! k = Some i → known s' !! k = None →
  known s' !! k' = Some j → locked_files s !! k' = None →
  (last_access j ≤ last_access i)%N.
Proof.
  intros Hle Hfl. pose proof (flush_spec target s Hle) as Hw. unfold wp in Hw.
  rewrite Hfl in Hw. destruct Hw as [_ _ _ _ _ Ho]. eauto.
Qed.

(** A flush that fails leaves an empty index: the entries of all the files,
    the locked ones included, are forgotten. *)
Theorem flush_error_forgets target s e s' :
  (index_sum (known s) ≤ total s)%N → flush target s = (Fail e, s') → known s' = ∅.
Proof.
  intros Hle Hfl. pose proof (flush_spec target s Hle) as Hw. unfold wp in Hw.
  rewrite Hfl in Hw. apply Hw.
Qed.

(** An index written to disk is the index read back. *)
Theorem index_roundtrip i base d d' :
  (∀ n, io_ok n = true) →
  index_store i (path_join base [Normal STORE_INDEX_FILE]) d = (Ret tt, d') →
  (index_load (path_join base [Normal STORE_INDEX_FILE]) d').1 = Ret i.
Proof. apply index_load_store. Qed.
End properties.

(** ** A concrete store *)
Definition ex_base : PathBuf := [RootDir; Normal "store"].
Definition ex_store : FileStore :=
  mkStore ex_base ∅ (mkIndex 0 ∅) 4 2 (mkDisk 0 ∅ {[ex_base]}).
Definition ex_content1 : list byte := bytes_of_string "abc".
Definition ex_content2 : list byte := bytes_of_string "defg".
Definition ex_key1 : FileStoreKey := from_content (H := toy_blake3) ex_content1.
Definition ex_key2 : FileStoreKey := from_content (H := toy_blake3) ex_content2.

(** The instances used in the examples. *)
Module StoreExample.
#[export] Instance ex_order : IterOrder := forward_order.
#[export] Instance ex_profile : BuildProfile := dev_profile.
#[export] Instance ex_blake3 : Blake3 := toy_blake3.
#[export] Instance ex_world : World := quiet_world.
#[export] Instance ex_bincode : Bincode FileStoreIndex := binary_format.
End StoreExample.

Import StoreExample.

Lemma ex_store_start : store_start ex_store.
Proof.
  split; [done| |change (index_sum ∅ ≤ 0)%N; by rewrite index_sum_empty].
  split; [done|]. intros k. simpl. rewrite elem_of_singleton. intros Hk.
  apply (f_equal length) in Hk. by rewrite length_key_to_path in Hk.
Qed.


(** Two files and no handle: the second one is the most recent. *)
Definition ex_full : FileStore :=
  mkStore ex_base ∅ (mkIndex 7 {[ex_key1 := mkItem 3 1; ex_key2 := mkItem 4 9]}) 4 2
    (mkDisk 0 {[key_to_path ex_base ex_key1 := mkDiskFile ex_content1 true;
                key_to_path ex_base ex_key2 := mkDiskFile ex_content2 true]} {[ex_base]}).
(** A world where every call fails. *)
Definition broken_world : World :=
  {| io_ok := λ _, false; clock := N.of_nat; canonical := λ p, p |}.

Definition ex_stored := store ex_key1 [ex_content1] ex_store.
Definition ex_handle : FileStoreHandle := mkHandle ex_key1 (key_to_path ex_base ex_key1).

Lemma ex_stored_handle : ex_stored.1 = Ret ex_handle.
Proof. vm_compute. reflexivity. Qed.

Lemma ex_stored_returns : store ex_key1 [ex_content1] ex_store = (Ret ex_handle, ex_stored.2).
Proof. by rewrite <-ex_stored_handle, <-surjective_pairing. Qed.

Lemma ex_reachable live calls :
  rtc store_step (mkShared ex_store live calls)
    (mkShared ex_stored.2 ((ex_handle, true) :: live) calls).
Proof. eapply store_run, ex_stored_returns; [done|by vm_compute]. Qed.

Lemma ex_stored_inv : store_inv [ex_handle] ex_stored.2.
Proof.
  pose proof (store_spec [] ex_key1 [ex_content1] ex_store (store_start_inv _ ex_store_start)
    (reflexivity _) ltac:(by vm_compute)) as Hw. apply (wp_result _ _ _ _ _ _ Hw ex_stored_returns).
Qed.

Lemma live_handle_file_witness :
  ∃ f, files (disk ex_stored.2) !! handle_path ex_handle = Some f ∧
       from_content (content f) = handle_key ex_handle.
Proof.
  apply (live_handle_file ex_store (mkShared ex_stored.2 [(ex_handle, true)] []));
    [apply ex_store_start|apply ex_reachable|]. constructor.
Defined.

Lemma live_handle_refs_witness :
  let st := mkShared ex_stored.2 [(ex_handle, true)] [] in
  (∀ k, default 0%N (locked_files ex_stored.2 !! k) = count_handles k (counted st)) ∧
  (∀ h promised, (h, promised) ∈ sh_live st → ∃ s', handle_drop h ex_stored.2 = (Ret tt, s')).
Proof. intros st. apply (live_handle_refs ex_store st); [apply ex_store_start|apply ex_reachable]. Defined.

(** A thread looks for a file that has no handle; before it touches the entry, another one
    stores a file, and the flush removes the first; then the handle is made. *)
Definition ex_dropped := (handle_drop ex_handle ex_stored.2).2.
Definition ex_seen := (file_exists ex_key1 ex_dropped).2.
Definition ex_flushed := (store ex_key2 [ex_content2] ex_seen).2.
Definition ex_touched := (touch ex_key1 ex_flushed).2.
Definition ex_handle2 : FileStoreHandle := mkHandle ex_key2 (key_to_path ex_base ex_key2).
Definition ex_raced : Shared :=
  mkShared (handle_new ex_key1 ex_touched).2 [(ex_handle, false); (ex_handle2, true)] [].

Lemma ex_dropped_returns : handle_drop ex_handle ex_stored.2 = (Ret tt, ex_dropped).
Proof. unfold ex_dropped. apply run_result. vm_compute. reflexivity. Qed.
Lemma ex_seen_returns : file_exists ex_key1 ex_dropped = (Ret true, ex_seen).
Proof. unfold ex_seen. apply run_result. vm_compute. reflexivity. Qed.
Lemma ex_flushed_returns : store ex_key2 [ex_content2] ex_seen = (Ret ex_handle2, ex_flushed).
Proof. unfold ex_flushed. apply run_result. vm_compute. reflexivity. Qed.
Lemma ex_touched_returns : touch ex_key1 ex_flushed = (Ret tt, ex_touched).
Proof. unfold ex_touched. apply run_result. vm_compute. reflexivity. Qed.
Lemma ex_raced_returns : handle_new ex_key1 ex_touched = (Ret ex_handle, sh_store ex_raced).
Proof. unfold ex_raced, sh_store. apply run_result. vm_compute. reflexivity. Qed.

(** The handle [get] has made is alive and counted, and its file is gone. *)
Lemma get_races_flush :
  rtc store_step (mkShared ex_store [] []) ex_raced ∧
  (ex_handle, false) ∈ sh_live ex_raced ∧
  locked_files (sh_store ex_raced) !! ex_key1 = Some 1%N ∧
  files (disk (sh_store ex_raced)) !! handle_path ex_handle = None.
Proof.
  split; [|split_and!; [left|vm_compute; reflexivity..]].
  etrans; [apply ex_reachable|].
  eapply rtc_l; [by eapply (step_handle_drop ex_handle true (Ret tt) _ ex_dropped), ex_dropped_returns|].
  eapply rtc_l; [eapply (step_get ex_key1 true), ex_seen_returns|].
  etrans; [apply (store_run ex_key2 [ex_content2] _ ex_handle2 ex_flushed);
    [done|by vm_compute|apply ex_flushed_returns]|].
  eapply rtc_l; [by eapply (step_get_touch ex_key1), ex_touched_returns|].
  apply rtc_once. unfold ex_raced.
  replace false with (file_present ex_handle ex_touched) by (vm_compute; reflexivity).
  by eapply (step_get_handle ex_key1 ex_handle), ex_raced_returns.
Qed.

Lemma store_correct_witness :
  handle_key ex_handle = ex_key1 ∧ handle_path ex_handle = key_to_path ex_base ex_key1 ∧
  (files (disk ex_store) !! key_to_path ex_base ex_key1 = None →
     stored ex_key1 (concat [ex_content1]) ex_stored.2) ∧
  (index_wf ex_store → index_wf ex_stored.2).
Proof.
  apply (store_correct [] ex_key1 [ex_content1] ex_store).
  - apply store_start_inv, ex_store_start.
  - reflexivity.
  - by vm_compute.
  - apply ex_stored_returns.
Defined.

Lemma flush_correct_witness :
  let s' := (flush 3 ex_full).2 in
  ((total s' ≤ 3)%N ∨ ∀ k, is_Some (known s' !! k) → is_Some (locked_files ex_full !! k)) ∧
  (∀ k, is_Some (locked_files ex_full !! k) → known s' !! k = known ex_full !! k ∧
     files (disk s') !! key_to_path (base_path ex_full) k =
     files (disk ex_full) !! key_to_path (base_path ex_full) k) ∧
  known s' ⊆ known ex_full ∧ (index_wf ex_full → index_wf s').
Proof.
  apply (flush_correct 3 ex_full); [by vm_compute|]. apply run_result. vm_compute. reflexivity.
Defined.

(** The older file stays, the one accessed last is removed. *)
Lemma flush_evicts_newest_witness : (1 ≤ 9)%N.
Proof.
  apply (flush_evicts_newest 3 ex_full (flush 3 ex_full).2 ex_key2 (mkItem 4 9) ex_key1 (mkItem 3 1));
    first [apply run_result|idtac]; vm_compute; first [reflexivity|congruence].
Defined.

Lemma flush_error_forgets_witness : known (@flush _ _ _ broken_world 3 ex_full).2 = ∅.
Proof.
  apply (flush_error_forgets (H2 := broken_world) 3 ex_full
    ["Invalid file store base path"; "I/O error"]); [by vm_compute|].
  apply run_result. vm_compute. reflexivity.
Defined.

Lemma index_roundtrip_witness :
  let idx := path_join ex_base [Normal STORE_INDEX_FILE] in
  (index_load idx (index_store (store_index ex_full) idx (disk ex_full)).2).1 =
    Ret (store_index ex_full).
Proof.
  apply (index_roundtrip (store_index ex_full) ex_base (disk ex_full)); [done|].
  apply run_result. vm_compute. reflexivity.
Defined.
