(* ===== verification/Dag.v ===== *)
(** * The execution DAG ([task-maker-dag])

    Files, executions, execution groups and the DAG itself, with the builder
    operations a client uses.  The closures of the callbacks are opaque values
    of a type [CB]; a fresh [Uuid] is an argument of the operations that draw
    one. *)
From S2P Require Import Prelude Float64 RustOrd Paths StoreKey.

(** ** Files ([file.rs]) *)
Record WriteToCallback : Type := {
  dest : PathBuf;
  wt_executable : bool;
  allow_failure : bool
}.

Record FileCallbacks {CB : Type} : Type := mkFileCallbacks {
  write_to : option WriteToCallback;
  get_content : option (N * CB);
  get_content_chunked : list CB
}.
Arguments FileCallbacks : clear implicits.

(** [#[derive(Default)]]. *)
Definition FileCallbacks_default {CB} : FileCallbacks CB := mkFileCallbacks CB None None [].

Record File : Type := mkFile {
  file_uuid : FileUuid;
  file_description : string
}.
#[export] Instance File_eq_dec : EqDecision File.
Proof. solve_decision. Defined.

(** [File::new], the uuid drawn by [Uuid::new_v4] is an argument. *)
Definition File_new (fresh : Uuid) (description : string) : File := mkFile fresh description.

(** ** Executions ([execution.rs]) *)
Definition Priority := Z.
Definition DagPriority := Z.
Definition HIGH_PRIORITY : DagPriority := 1000000000000%Z.

Record ExecutionTag : Type := mkTag { tag_name : string }.
#[export] Instance ExecutionTag_eq_dec : EqDecision ExecutionTag.
Proof. solve_decision. Defined.
#[export] Instance ExecutionTag_countable : Countable ExecutionTag.
Proof. refine (inj_countable tag_name (λ s, Some (mkTag s)) _). by intros []. Defined.

Inductive ExecutionCommand : Type :=
  | System (p : PathBuf)
  | Local (p : PathBuf)
  | TypstCompilation (inputs : list (string * string)).
#[export] Instance ExecutionCommand_eq_dec : EqDecision ExecutionCommand.
Proof. solve_decision. Defined.

Record ExecutionInput : Type := mkInput {
  input_file : FileUuid;
  input_executable : bool
}.

Record ExecutionCallbacks {CB : Type} : Type := mkExecutionCallbacks {
  on_start : list CB;
  on_done : list CB;
  on_skip : list CB
}.
Arguments ExecutionCallbacks : clear implicits.

Definition ExecutionCallbacks_default {CB} : ExecutionCallbacks CB :=
  mkExecutionCallbacks CB [] [] [].

Inductive ExecutionOutputBehaviour : Type :=
  | Output_Capture (file : File) (size_limit : option N)
  | Output_Path (p : PathBuf)
  | Output_Ignored
  | Output_Inherit.

Inductive ExecutionInputBehaviour : Type :=
  | Input_File (file : FileUuid)
  | Input_Path (p : PathBuf)
  | Input_Ignored
  | Input_Inherit.

Record ExecutionLimits : Type := mkLimits {
  cpu_time : option f64;
  sys_time : option f64;
  wall_time : option f64;
  memory : option N;
  allow_multiprocess : bool;
  nofile : option N;
  fsize : option N;
  memlock : option N;
  stack : option N;
  read_only : bool;
  mount_tmpfs : bool;
  mount_proc : bool;
  extra_readable_dirs : list PathBuf;
  permissive : bool
}.

Record Execution : Type := mkExecution {
  exec_description : string;
  exec_command : ExecutionCommand;
  exec_args : list string;
  exec_stdin : ExecutionInputBehaviour;
  exec_stdout : ExecutionOutputBehaviour;
  exec_stderr : ExecutionOutputBehaviour;
  exec_input_files : gmap PathBuf ExecutionInput;
  exec_output_files : gmap PathBuf File;
  exec_env : gmap string string;
  exec_copy_env : list string;
  exec_limits : ExecutionLimits
}.

Inductive ExecutionStatus : Type :=
  | Success
  | Failure (msg : string)
  | ReturnCode (code : N)
  | Signal (signal : N) (name : string)
  | TimeLimitExceeded
  | SysTimeLimitExceeded
  | WallTimeLimitExceeded
  | MemoryLimitExceeded
  | InternalError (msg : string).
#[export] Instance ExecutionStatus_eq_dec : EqDecision ExecutionStatus.
Proof. solve_decision. Defined.

Record ExecutionResourcesUsage : Type := mkResources {
  res_cpu_time : f64;
  res_sys_time : f64;
  res_wall_time : f64;
  res_memory : N
}.

Record ExecutionResult : Type := mkResult {
  status : ExecutionStatus;
  was_killed : bool;
  was_cached : bool;
  resources : ExecutionResourcesUsage;
  result_stdout : option (list byte);
  result_stderr : option (list byte)
}.

(** *** [ExecutionLimits] *)
Definition unrestricted : ExecutionLimits :=
  {| cpu_time := None; sys_time := None; wall_time := None; memory := None;
     allow_multiprocess := true; nofile := None; fsize := None; memlock := None;
     stack := None; read_only := false; mount_tmpfs := true; mount_proc := true;
     extra_readable_dirs := []; permissive := true |}.

Definition ExecutionLimits_default : ExecutionLimits :=
  {| cpu_time := None; sys_time := None; wall_time := None; memory := None;
     allow_multiprocess := false; nofile := None; fsize := Some (1024 ^ 3)%N;
     memlock := None; stack := None; read_only := true; mount_tmpfs := false;
     mount_proc := false; extra_readable_dirs := []; permissive := false |}.

Definition set_cpu_time (limit : f64) (l : ExecutionLimits) : ExecutionLimits :=
  let '(mkLimits _ st wt m mp nf fs ml s ro tmp proc dirs perm) := l in
  mkLimits (Some limit) st wt m mp nf fs ml s ro tmp proc dirs perm.
Definition set_sys_time (limit : f64) (l : ExecutionLimits) : ExecutionLimits :=
  let '(mkLimits ct _ wt m mp nf fs ml s ro tmp proc dirs perm) := l in
  mkLimits ct (Some limit) wt m mp nf fs ml s ro tmp proc dirs perm.
Definition set_wall_time (limit : f64) (l : ExecutionLimits) : ExecutionLimits :=
  let '(mkLimits ct st _ m mp nf fs ml s ro tmp proc dirs perm) := l in
  mkLimits ct st (Some limit) m mp nf fs ml s ro tmp proc dirs perm.
Definition set_memory (limit : N) (l : ExecutionLimits) : ExecutionLimits :=
  let '(mkLimits ct st wt _ mp nf fs ml s ro tmp proc dirs perm) := l in
  mkLimits ct st wt (Some limit) mp nf fs ml s ro tmp proc dirs perm.
Definition set_multiprocess (b : bool) (l : ExecutionLimits) : ExecutionLimits :=
  let '(mkLimits ct st wt m _ nf fs ml s ro tmp proc dirs perm) := l in
  mkLimits ct st wt m b nf fs ml s ro tmp proc dirs perm.
Definition limits_allow_multiprocess : ExecutionLimits → ExecutionLimits := set_multiprocess true.
Definition limits_block_multiprocess : ExecutionLimits → ExecutionLimits := set_multiprocess false.
Definition set_nofile (limit : N) (l : ExecutionLimits) : ExecutionLimits :=
  let '(mkLimits ct st wt m mp _ fs ml s ro tmp proc dirs perm) := l in
  mkLimits ct st wt m mp (Some limit) fs ml s ro tmp proc dirs perm.
Definition set_fsize (limit : N) (l : ExecutionLimits) : ExecutionLimits :=
  let '(mkLimits ct st wt m mp nf _ ml s ro tmp proc dirs perm) := l in
  mkLimits ct st wt m mp nf (Some limit) ml s ro tmp proc dirs perm.
Definition set_memlock (limit : N) (l : ExecutionLimits) : ExecutionLimits :=
  let '(mkLimits ct st wt m mp nf fs _ s ro tmp proc dirs perm) := l in
  mkLimits ct st wt m mp nf fs (Some limit) s ro tmp proc dirs perm.
Definition set_stack (limit : N) (l : ExecutionLimits) : ExecutionLimits :=
  let '(mkLimits ct st wt m mp nf fs ml _ ro tmp proc dirs perm) := l in
  mkLimits ct st wt m mp nf fs ml (Some limit) ro tmp proc dirs perm.
Definition set_read_only (b : bool) (l : ExecutionLimits) : ExecutionLimits :=
  let '(mkLimits ct st wt m mp nf fs ml s _ tmp proc dirs perm) := l in
  mkLimits ct st wt m mp nf fs ml s b tmp proc dirs perm.
Definition set_mount_tmpfs (b : bool) (l : ExecutionLimits) : ExecutionLimits :=
  let '(mkLimits ct st wt m mp nf fs ml s ro _ proc dirs perm) := l in
  mkLimits ct st wt m mp nf fs ml s ro b proc dirs perm.
Definition set_mount_proc (b : bool) (l : ExecutionLimits) : ExecutionLimits :=
  let '(mkLimits ct st wt m mp nf fs ml s ro tmp _ dirs perm) := l in
  mkLimits ct st wt m mp nf fs ml s ro tmp b dirs perm.
Definition add_extra_readable_dir (dir : PathBuf) (l : ExecutionLimits) : ExecutionLimits :=
  let '(mkLimits ct st wt m mp nf fs ml s ro tmp proc dirs perm) := l in
  mkLimits ct st wt m mp nf fs ml s ro tmp proc (dirs ++ [dir]) perm.

(** [#[derive(PartialEq)]] on the limits: the comparison of [f64] is the one of
    IEEE 754. *)
Definition option_f64_eqb (a b : option f64) : bool :=
  match a, b with
  | Some x, Some y => f64_eqb x y
  | None, None => true
  | _, _ => false
  end.
Definition limits_eqb (a b : ExecutionLimits) : bool :=
  option_f64_eqb (cpu_time a) (cpu_time b)
  && option_f64_eqb (sys_time a) (sys_time b)
  && option_f64_eqb (wall_time a) (wall_time b)
  && bool_decide (memory a = memory b)
  && Bool.eqb (allow_multiprocess a) (allow_multiprocess b)
  && bool_decide (nofile a = nofile b)
  && bool_decide (fsize a = fsize b)
  && bool_decide (memlock a = memlock b)
  && bool_decide (stack a = stack b)
  && Bool.eqb (read_only a) (read_only b)
  && Bool.eqb (mount_tmpfs a) (mount_tmpfs b)
  && Bool.eqb (mount_proc a) (mount_proc b)
  && bool_decide (extra_readable_dirs a = extra_readable_dirs b)
  && Bool.eqb (permissive a) (permissive b).

(** *** [ExecutionStatus] *)
Definition is_success (s : ExecutionStatus) : bool :=
  match s with Success => true | _ => false end.
Definition is_internal_error (s : ExecutionStatus) : bool :=
  match s with InternalError _ => true | _ => false end.
Definition internal_error (error : string) : ExecutionStatus := InternalError error.

(** *** [Execution] *)
Definition Execution_new (description : string) (command : ExecutionCommand) : Execution :=
  {| exec_description := description; exec_command := command; exec_args := [];
     exec_stdin := Input_Ignored; exec_stdout := Output_Ignored; exec_stderr := Output_Ignored;
     exec_input_files := ∅; exec_output_files := ∅; exec_env := ∅; exec_copy_env := [];
     exec_limits := ExecutionLimits_default |}.

Definition set_args (args : list string) (e : Execution) : Execution :=
  let '(mkExecution d c _ i o r inp out env cp lim) := e in
  mkExecution d c args i o r inp out env cp lim.
Definition set_stdin (stdin : ExecutionInputBehaviour) (e : Execution) : Execution :=
  let '(mkExecution d c a _ o r inp out env cp lim) := e in
  mkExecution d c a stdin o r inp out env cp lim.
Definition set_stdout (b : ExecutionOutputBehaviour) (e : Execution) : Execution :=
  let '(mkExecution d c a i _ r inp out env cp lim) := e in
  mkExecution d c a i b r inp out env cp lim.
Definition set_stderr (b : ExecutionOutputBehaviour) (e : Execution) : Execution :=
  let '(mkExecution d c a i o _ inp out env cp lim) := e in
  mkExecution d c a i o b inp out env cp lim.

(** [capture_stdout] draws a uuid when the output is not captured yet. *)
Definition capture_stdout (fresh : Uuid) (size_limit : option N) (e : Execution) :
    File * Execution :=
  match exec_stdout e with
  | Output_Capture file _ => (file, set_stdout (Output_Capture file size_limit) e)
  | _ =>
      let file := File_new fresh ("Stdout of '" +:+ exec_description e +:+ "'") in
      (file, set_stdout (Output_Capture file size_limit) e)
  end.
Definition stdout_redirect_path (path : PathBuf) (e : Execution) : Execution :=
  set_stdout (Output_Path path) e.
Definition capture_stderr (fresh : Uuid) (size_limit : option N) (e : Execution) :
    File * Execution :=
  match exec_stderr e with
  | Output_Capture file _ => (file, set_stderr (Output_Capture file size_limit) e)
  | _ =>
      let file := File_new fresh ("Stderr of '" +:+ exec_description e +:+ "'") in
      (file, set_stderr (Output_Capture file size_limit) e)
  end.
Definition stderr_redirect_path (path : PathBuf) (e : Execution) : Execution :=
  set_stderr (Output_Path path) e.

Definition input (file : FileUuid) (path : PathBuf) (executable : bool) (e : Execution) :
    Execution :=
  let '(mkExecution d c a i o r inp out env cp lim) := e in
  mkExecution d c a i o r (<[path := mkInput file executable]> inp) out env cp lim.

(** The [Debug] form of a path without characters to escape. *)
Definition quote : string := String.String (Ascii.ascii_of_N 34) EmptyString.
Definition debug_path (p : PathBuf) : string := quote +:+ path_to_string p +:+ quote.

(** [output] draws a uuid on every call and keeps the file already bound. *)
Definition output (fresh : Uuid) (path : PathBuf) (e : Execution) : File * Execution :=
  let file := File_new fresh
    ("Output of '" +:+ exec_description e +:+ "' at " +:+ debug_path path) in
  let '(mkExecution d c a i o r inp out env cp lim) := e in
  match out !! path with
  | Some old => (old, e)
  | None => (file, mkExecution d c a i o r inp (<[path := file]> out) env cp lim)
  end.

Definition set_env (key value : string) (e : Execution) : Execution :=
  let '(mkExecution d c a i o r inp out env cp lim) := e in
  mkExecution d c a i o r inp out (<[key := value]> env) cp lim.
Definition copy_env (key : string) (e : Execution) : Execution :=
  let '(mkExecution d c a i o r inp out env cp lim) := e in
  mkExecution d c a i o r inp out env (cp ++ [key]) lim.
(** [limits_mut]: a method of the limits run in place. *)
Definition limits_mut (f : ExecutionLimits → ExecutionLimits) (e : Execution) : Execution :=
  let '(mkExecution d c a i o r inp out env cp lim) := e in
  mkExecution d c a i o r inp out env cp (f lim).

Definition exec_status (e : Execution) (st : ExecutionStatus) (res : ExecutionResourcesUsage) :
    ExecutionStatus :=
  let exceeded (limit : option f64) (used : f64) : bool :=
    match limit with Some l => f64_gtb used l | None => false end in
  if exceeded (cpu_time (exec_limits e)) (res_cpu_time res) then TimeLimitExceeded
  else if exceeded (sys_time (exec_limits e)) (res_sys_time res) then SysTimeLimitExceeded
  else if exceeded (wall_time (exec_limits e)) (res_wall_time res) then WallTimeLimitExceeded
  else if match memory (exec_limits e) with Some l => (l <? res_memory res)%N | None => false end
  then MemoryLimitExceeded
  else st.

(** ** The configuration of a DAG ([dag.rs]) *)
Inductive CacheMode : Type :=
  | Everything
  | Nothing
  | Except (tags : gset ExecutionTag).

Record ExecutionDAGConfig : Type := mkConfig {
  keep_sandboxes : bool;
  dry_run : bool;
  cache_mode : CacheMode;
  extra_time : f64;
  extra_memory : N;
  copy_exe : bool;
  copy_logs : bool;
  dag_priority : DagPriority
}.

Definition ExecutionDAGConfig_new : ExecutionDAGConfig :=
  {| keep_sandboxes := false; dry_run := false; cache_mode := Everything;
     extra_time := f64_dec 5 1; extra_memory := (8 * 1024)%N; copy_exe := false;
     copy_logs := false; dag_priority := 0%Z |}.

Definition config_keep_sandboxes (b : bool) (c : ExecutionDAGConfig) : ExecutionDAGConfig :=
  let '(mkConfig _ dr cm et em ce cl p) := c in mkConfig b dr cm et em ce cl p.
Definition config_dry_run (b : bool) (c : ExecutionDAGConfig) : ExecutionDAGConfig :=
  let '(mkConfig ks _ cm et em ce cl p) := c in mkConfig ks b cm et em ce cl p.
Definition config_cache_mode (m : CacheMode) (c : ExecutionDAGConfig) : ExecutionDAGConfig :=
  let '(mkConfig ks dr _ et em ce cl p) := c in mkConfig ks dr m et em ce cl p.
(** [extra_time] asserts that its argument is not negative (and not a NaN). *)
Definition config_extra_time (t : f64) (c : ExecutionDAGConfig) : Outcome ExecutionDAGConfig :=
  if f64_leb f64_zero t then
    let '(mkConfig ks dr cm _ em ce cl p) := c in Ret (mkConfig ks dr cm t em ce cl p)
  else Panicked "assertion failed: extra_time >= 0.0".
Definition config_extra_memory (m : N) (c : ExecutionDAGConfig) : ExecutionDAGConfig :=
  let '(mkConfig ks dr cm et _ ce cl p) := c in mkConfig ks dr cm et m ce cl p.
Definition config_copy_exe (b : bool) (c : ExecutionDAGConfig) : ExecutionDAGConfig :=
  let '(mkConfig ks dr cm et em _ cl p) := c in mkConfig ks dr cm et em b cl p.
Definition config_copy_logs (b : bool) (c : ExecutionDAGConfig) : ExecutionDAGConfig :=
  let '(mkConfig ks dr cm et em ce _ p) := c in mkConfig ks dr cm et em ce b p.
Definition config_priority (p : DagPriority) (c : ExecutionDAGConfig) : ExecutionDAGConfig :=
  let '(mkConfig ks dr cm et em ce cl _) := c in mkConfig ks dr cm et em ce cl p.

Definition comma : Ascii.ascii := Ascii.ascii_of_N 44.

(** [CacheMode::try_from].  The tags are checked in the order of a [HashSet]
    iteration; the error names the first one that is not valid. *)
Definition CacheMode_try_from `{IterOrder}
    (conf : option (option string)) (valid_tags : list string) : Outcome CacheMode :=
  match conf with
  | None => Ret Everything
  | Some None => Ret Nothing
  | Some (Some l) =>
      let tags : gset ExecutionTag := list_to_set (mkTag <$> split_char comma l) in
      match filter (λ tag, tag_name tag ∉ valid_tags) (set_iter tags) with
      | tag :: _ => Fail ["Invalid cache mode: " +:+ tag_name tag]
      | [] => Ret (Except tags)
      end
  end.

(** ** Execution groups ([execution_group.rs]) *)
Record Fifo : Type := mkFifo { fifo_uuid : FifoUuid }.

Record ControllerSettings : Type := mkController {
  process_limit : N;
  concurrent : bool
}.

Record ExecutionGroup : Type := mkGroup {
  group_uuid : ExecutionGroupUuid;
  group_description : string;
  executions : list Execution;
  fifo : list Fifo;
  group_config : ExecutionDAGConfig;
  tag : option ExecutionTag;
  priority : Priority;
  controller_settings : option ControllerSettings
}.

Definition FIFO_SANDBOX_DIR : string := "tm_pipes".

(** The [uuid] crate's [Display] of an identifier, injective. *)
Class UuidDisplay : Type := {
  uuid_to_string : Uuid → string;
  uuid_to_string_inj :: Inj (=) (=) uuid_to_string
}.
Definition decimal_uuid : UuidDisplay := {| uuid_to_string := pretty |}.

Definition sandbox_path `{UuidDisplay} (f : Fifo) : PathBuf :=
  path_join [Normal FIFO_SANDBOX_DIR] [Normal (uuid_to_string (fifo_uuid f))].

Definition ExecutionGroup_new (fresh : Uuid) (descr : string) : ExecutionGroup :=
  {| group_uuid := fresh; group_description := descr; executions := []; fifo := [];
     group_config := ExecutionDAGConfig_new; tag := None; priority := 0%Z;
     controller_settings := None |}.

Definition group_add_execution (exec : Execution) (g : ExecutionGroup) : ExecutionGroup :=
  let '(mkGroup u d es fs c t p cs) := g in mkGroup u d (es ++ [exec]) fs c t p cs.
Definition new_fifo (fresh : Uuid) (g : ExecutionGroup) : Fifo * ExecutionGroup :=
  let '(mkGroup u d es fs c t p cs) := g in
  (mkFifo fresh, mkGroup u d es (fs ++ [mkFifo fresh]) c t p cs).
Definition group_set_config (c : ExecutionDAGConfig) (g : ExecutionGroup) : ExecutionGroup :=
  let '(mkGroup u d es fs _ t p cs) := g in mkGroup u d es fs c t p cs.

(** [From<Execution>], also [Execution::into_group]. *)
Definition into_group (fresh : Uuid) (e : Execution) : ExecutionGroup :=
  group_add_execution e (ExecutionGroup_new fresh (exec_description e)).

Section group.
Context `{IterOrder}.

Definition execution_dependencies (e : Execution) : list FileUuid :=
  match exec_stdin e with Input_File f => [f] | _ => [] end
  ++ (input_file <$> values_iter (exec_input_files e)).
Definition dependencies (g : ExecutionGroup) : list FileUuid :=
  executions g ≫= execution_dependencies.

Definition execution_outputs (e : Execution) : list FileUuid :=
  match exec_stdout e with Output_Capture f _ => [file_uuid f] | _ => [] end
  ++ match exec_stderr e with Output_Capture f _ => [file_uuid f] | _ => [] end
  ++ (file_uuid <$> values_iter (exec_output_files e)).
Definition outputs (g : ExecutionGroup) : list FileUuid :=
  executions g ≫= execution_outputs.
End group.

(** ** The DAG ([dag.rs]) *)
Inductive ProvidedFile : Type :=
  | LocalFile (file : File) (key : FileStoreKey) (local_path : PathBuf)
  | Content (file : File) (key : FileStoreKey) (content : list byte).

Record ExecutionDAGData : Type := mkDagData {
  provided_files : gmap FileUuid ProvidedFile;
  execution_groups : gmap ExecutionGroupUuid ExecutionGroup;
  config : ExecutionDAGConfig
}.

Record ExecutionDAGCallbacks {CB : Type} : Type := mkDagCallbacks {
  execution_callbacks : gmap ExecutionGroupUuid (ExecutionCallbacks CB);
  file_callbacks : gmap FileUuid (FileCallbacks CB);
  urgent_files : gset FileUuid
}.
Arguments ExecutionDAGCallbacks : clear implicits.

Record ExecutionDAG {CB : Type} : Type := mkDag {
  data : ExecutionDAGData;
  callbacks : option (ExecutionDAGCallbacks CB)
}.
Arguments ExecutionDAG : clear implicits.
Arguments mkDag {CB} _ _.
Arguments mkDagCallbacks {CB} _ _ _.
Arguments mkFileCallbacks {CB} _ _ _.
Arguments mkExecutionCallbacks {CB} _ _ _.

Definition data_insert_file (u : FileUuid) (p : ProvidedFile) (d : ExecutionDAGData) :
    ExecutionDAGData :=
  mkDagData (<[u := p]> (provided_files d)) (execution_groups d) (config d).
Definition data_insert_group (g : ExecutionGroup) (d : ExecutionDAGData) : ExecutionDAGData :=
  mkDagData (provided_files d) (<[group_uuid g := g]> (execution_groups d)) (config d).
Definition data_map_config (f : ExecutionDAGConfig → ExecutionDAGConfig) (d : ExecutionDAGData) :
    ExecutionDAGData :=
  mkDagData (provided_files d) (execution_groups d) (f (config d)).

Section dag.
Context {CB : Type} `{Blake3}.
Implicit Types (dag : ExecutionDAG CB).

Definition ExecutionDAG_new : ExecutionDAG CB :=
  {| data := {| provided_files := ∅; execution_groups := ∅; config := ExecutionDAGConfig_new |};
     callbacks := Some {| execution_callbacks := ∅; file_callbacks := ∅; urgent_files := ∅ |} |}.

(** [provide_file]; [key] is the outcome of [FileStoreKey::from_file]. *)
Definition provide_file (file : File) (path : PathBuf) (key : Outcome FileStoreKey) dag :
    Outcome (ExecutionDAG CB) :=
  k ← outcome_context "Failed to compute file key" key;
  Ret (mkDag (data_insert_file (file_uuid file) (LocalFile file k path) (data dag))
         (callbacks dag)).

Definition provide_content (file : File) (content : list byte) dag : ExecutionDAG CB :=
  mkDag (data_insert_file (file_uuid file) (Content file (from_content content) content)
           (data dag))
    (callbacks dag).

Definition add_execution_group (group : ExecutionGroup) dag :
    ExecutionGroupUuid * ExecutionDAG CB :=
  (group_uuid group,
   mkDag (data_insert_group (group_set_config (config (data dag)) group) (data dag))
     (callbacks dag)).

Definition add_execution (fresh : Uuid) (execution : Execution) dag :
    ExecutionGroupUuid * ExecutionDAG CB :=
  let group := ExecutionGroup_new fresh (exec_description execution) in
  let group := group_add_execution execution group in
  (fresh,
   mkDag (data_insert_group (group_set_config (config (data dag)) group) (data dag))
     (callbacks dag)).

Definition config_mut (f : ExecutionDAGConfig → ExecutionDAGConfig) dag : ExecutionDAG CB :=
  mkDag (data_map_config f (data dag)) (callbacks dag).

(** [file_callback(file)]: the entry, created if missing, changed in place. *)
Definition file_callback (file : FileUuid) (f : FileCallbacks CB → FileCallbacks CB) dag :
    Outcome (ExecutionDAG CB) :=
  cb ← unwrap "Cannot change callbacks after cloning" (callbacks dag);
  let old := default FileCallbacks_default (file_callbacks cb !! file) in
  Ret (mkDag (data dag) (Some (mkDagCallbacks (execution_callbacks cb)
         (<[file := f old]> (file_callbacks cb)) (urgent_files cb)))).

Definition execution_callback (execution : ExecutionGroupUuid)
    (f : ExecutionCallbacks CB → ExecutionCallbacks CB) dag : Outcome (ExecutionDAG CB) :=
  cb ← unwrap "Cannot change callbacks after cloning" (callbacks dag);
  let old := default ExecutionCallbacks_default (execution_callbacks cb !! execution) in
  Ret (mkDag (data dag) (Some (mkDagCallbacks
         (<[execution := f old]> (execution_callbacks cb))
         (file_callbacks cb) (urgent_files cb)))).

Definition set_write_to (w : WriteToCallback) (c : FileCallbacks CB) : FileCallbacks CB :=
  mkFileCallbacks (Some w) (get_content c) (get_content_chunked c).

Definition write_file_to (file : FileUuid) (path : PathBuf) (executable : bool) dag :
    Outcome (ExecutionDAG CB) :=
  if dry_run (config (data dag)) then Ret dag
  else file_callback file (set_write_to
         {| dest := path; wt_executable := executable; allow_failure := false |}) dag.

Definition write_file_to_allow_fail (file : FileUuid) (path : PathBuf) (executable : bool) dag :
    Outcome (ExecutionDAG CB) :=
  if dry_run (config (data dag)) then Ret dag
  else file_callback file (set_write_to
         {| dest := path; wt_executable := executable; allow_failure := true |}) dag.

(** [get_file_content] panics when the file has such a callback already. *)
Definition get_file_content (file : FileUuid) (limit : N) (callback : CB) dag :
    Outcome (ExecutionDAG CB) :=
  let old := cb ← callbacks dag; fc ← file_callbacks cb !! file; get_content fc in
  dag' ← file_callback file
    (λ c, mkFileCallbacks (write_to c) (Some (limit, callback)) (get_content_chunked c)) dag;
  match old with
  | Some _ => Panicked "Overwriting get_file_content callback"
  | None => Ret dag'
  end.

Definition get_file_content_chunked (file : FileUuid) (callback : CB) dag :
    Outcome (ExecutionDAG CB) :=
  file_callback file
    (λ c, mkFileCallbacks (write_to c) (get_content c) (get_content_chunked c ++ [callback])) dag.

Definition on_execution_start (execution : ExecutionGroupUuid) (callback : CB) dag :
    Outcome (ExecutionDAG CB) :=
  execution_callback execution
    (λ c, mkExecutionCallbacks (on_start c ++ [callback]) (on_done c) (on_skip c)) dag.
Definition on_execution_done (execution : ExecutionGroupUuid) (callback : CB) dag :
    Outcome (ExecutionDAG CB) :=
  execution_callback execution
    (λ c, mkExecutionCallbacks (on_start c) (on_done c ++ [callback]) (on_skip c)) dag.
Definition on_execution_skip (execution : ExecutionGroupUuid) (callback : CB) dag :
    Outcome (ExecutionDAG CB) :=
  execution_callback execution
    (λ c, mkExecutionCallbacks (on_start c) (on_done c) (on_skip c ++ [callback])) dag.

Definition urgent_file (file : FileUuid) dag : Outcome (ExecutionDAG CB) :=
  cb ← unwrap "Cannot change callbacks after cloning" (callbacks dag);
  Ret (mkDag (data dag) (Some (mkDagCallbacks (execution_callbacks cb) (file_callbacks cb)
         ({[file]} ∪ urgent_files cb)))).

(** [Clone]: the callbacks are not cloned. *)
Definition clone_dag dag : ExecutionDAG CB := mkDag (data dag) None.
End dag.

(** ** Building a DAG

    One step of a client: any of the builder operations.  [File]s are values,
    so only the operations on the DAG are steps. *)
Inductive build_step {CB} `{Blake3} : ExecutionDAG CB → ExecutionDAG CB → Prop :=
  | step_provide_file f p k d d' :
      provide_file f p k d = Ret d' → build_step d d'
  | step_provide_content f c d : build_step d (provide_content f c d)
  | step_add_execution u e d : build_step d (add_execution u e d).2
  | step_add_group g d : build_step d (add_execution_group g d).2
  | step_config f d : build_step d (config_mut f d)
  | step_write_to f p x d d' : write_file_to f p x d = Ret d' → build_step d d'
  | step_write_to_fail f p x d d' : write_file_to_allow_fail f p x d = Ret d' → build_step d d'
  | step_get_content f l c d d' : get_file_content f l c d = Ret d' → build_step d d'
  | step_get_chunked f c d d' : get_file_content_chunked f c d = Ret d' → build_step d d'
  | step_on_start u c d d' : on_execution_start u c d = Ret d' → build_step d d'
  | step_on_done u c d d' : on_execution_done u c d = Ret d' → build_step d d'
  | step_on_skip u c d d' : on_execution_skip u c d = Ret d' → build_step d d'
  | step_urgent f d d' : urgent_file f d = Ret d' → build_step d d'
  | step_clone d : build_step d (clone_dag d).

Definition provided_uuid (p : ProvidedFile) : FileUuid :=
  match p with LocalFile f _ _ | Content f _ _ => file_uuid f end.
Definition provided_key (p : ProvidedFile) : FileStoreKey :=
  match p with LocalFile _ k _ | Content _ k _ => k end.

(** The maps of a DAG are indexed by the identifiers of their values, and the
    key of an in-memory file is the hash of its content. *)
Record data_wf `{Blake3} (d : ExecutionDAGData) : Prop := {
  wf_groups : map_Forall (λ u g, group_uuid g = u) (execution_groups d);
  wf_provided : map_Forall (λ u p, provided_uuid p = u) (provided_files d);
  wf_content : map_Forall (λ _ p,
    match p with Content _ k c => k = from_content c | LocalFile _ _ _ => True end)
    (provided_files d)
}.

(** The dependencies and outputs of a group, as sets, without iteration order. *)
Definition dep_of (g : ExecutionGroup) (f : FileUuid) : Prop :=
  ∃ e, e ∈ executions g ∧
    (exec_stdin e = Input_File f ∨ ∃ p i, exec_input_files e !! p = Some i ∧ input_file i = f).
Definition output_of (g : ExecutionGroup) (f : FileUuid) : Prop :=
  ∃ e, e ∈ executions g ∧
    ((∃ x l, exec_stdout e = Output_Capture x l ∧ file_uuid x = f)
     ∨ (∃ x l, exec_stderr e = Output_Capture x l ∧ file_uuid x = f)
     ∨ ∃ p x, exec_output_files e !! p = Some x ∧ file_uuid x = f).

Section dag_lemmas.
Context {CB : Type} `{Blake3} `{IterOrder}.
Implicit Types (dag : ExecutionDAG CB).

Lemma elem_of_dependencies g f : f ∈ dependencies g ↔ dep_of g f.
Proof.
  unfold dependencies, dep_of. rewrite list_elem_of_bind.
  enough (∀ e, f ∈ execution_dependencies e ↔ exec_stdin e = Input_File f ∨
    ∃ p i, exec_input_files e !! p = Some i ∧ input_file i = f) as Hx.
  { setoid_rewrite Hx. naive_solver. }
  intros e. unfold execution_dependencies. rewrite elem_of_app, list_elem_of_fmap.
  f_equiv.
  - destruct (exec_stdin e) as [f'|p| |]; rewrite ?list_elem_of_singleton, ?elem_of_nil; naive_solver.
  - setoid_rewrite elem_of_values_iter. naive_solver.
Qed.

Lemma elem_of_outputs g f : f ∈ outputs g ↔ output_of g f.
Proof.
  unfold outputs, output_of. rewrite list_elem_of_bind.
  enough (∀ e, f ∈ execution_outputs e ↔
    (∃ x l, exec_stdout e = Output_Capture x l ∧ file_uuid x = f)
    ∨ (∃ x l, exec_stderr e = Output_Capture x l ∧ file_uuid x = f)
    ∨ ∃ p x, exec_output_files e !! p = Some x ∧ file_uuid x = f) as Hx.
  { setoid_rewrite Hx. naive_solver. }
  intros e. unfold execution_outputs. rewrite !elem_of_app, list_elem_of_fmap.
  f_equiv; [|f_equiv].
  - destruct (exec_stdout e) as [x l|p| |]; rewrite ?list_elem_of_singleton, ?elem_of_nil; naive_solver.
  - destruct (exec_stderr e) as [x l|p| |]; rewrite ?list_elem_of_singleton, ?elem_of_nil; naive_solver.
  - setoid_rewrite elem_of_values_iter. naive_solver.
Qed.

Lemma data_wf_new : data_wf (data (ExecutionDAG_new (CB := CB))).
Proof. split; apply map_Forall_empty. Qed.

Lemma data_wf_insert_file u p d :
  provided_uuid p = u →
  match p with Content _ k c => k = from_content c | LocalFile _ _ _ => True end →
  data_wf d → data_wf (data_insert_file u p d).
Proof. intros ?? []. split; simpl; [done|by apply map_Forall_insert_2..]. Qed.

Lemma data_wf_insert_group g d : data_wf d → data_wf (data_insert_group g d).
Proof. intros []. split; simpl; [by apply map_Forall_insert_2|done..]. Qed.

Lemma file_callback_data f h dag dag' :
  file_callback f h dag = Ret dag' → data dag' = data dag.
Proof. unfold file_callback. destruct (callbacks dag); cbn; naive_solver. Qed.

Lemma execution_callback_data f h dag dag' :
  execution_callback f h dag = Ret dag' → data dag' = data dag.
Proof. unfold execution_callback. destruct (callbacks dag); cbn; naive_solver. Qed.

Lemma group_uuid_set_config c g : group_uuid (group_set_config c g) = group_uuid g.
Proof. by destruct g. Qed.

Lemma build_step_wf dag dag' : build_step dag dag' → data_wf (data dag) → data_wf (data dag').
Proof.
  intros Hs Hwf.
  destruct Hs as [f p k d d' Hd|f c d|u e d|g d|f d|f p x d d' Hd|f p x d d' Hd
    |f l c d d' Hd|f c d d' Hd|u c d d' Hd|u c d d' Hd|u c d d' Hd|f d d' Hd|d].
  - unfold provide_file in Hd. destruct k; cbn in Hd; simplify_eq. by apply data_wf_insert_file.
  - by apply data_wf_insert_file.
  - by apply data_wf_insert_group.
  - by apply data_wf_insert_group.
  - by destruct Hwf.
  - unfold write_file_to in Hd. destruct (dry_run _); [congruence|].
    by rewrite (file_callback_data _ _ _ _ Hd).
  - unfold write_file_to_allow_fail in Hd. destruct (dry_run _); [congruence|].
    by rewrite (file_callback_data _ _ _ _ Hd).
  - unfold get_file_content in Hd. destruct (file_callback _ _ _) eqn:Hc; cbn in Hd; try done.
    destruct (callbacks d ≫= _) as [[]|]; simplify_eq. by rewrite (file_callback_data _ _ _ _ Hc).
  - by rewrite (file_callback_data _ _ _ _ Hd).
  - by rewrite (execution_callback_data _ _ _ _ Hd).
  - by rewrite (execution_callback_data _ _ _ _ Hd).
  - by rewrite (execution_callback_data _ _ _ _ Hd).
  - unfold urgent_file in Hd. destruct (callbacks d); cbn in Hd; by simplify_eq.
  - done.
Qed.
End dag_lemmas.

(** The resources used stay within the limits of the execution. *)
Definition within_limits (e : Execution) (res : ExecutionResourcesUsage) : Prop :=
  (∀ l, cpu_time (exec_limits e) = Some l → f64_gtb (res_cpu_time res) l = false) ∧
  (∀ l, sys_time (exec_limits e) = Some l → f64_gtb (res_sys_time res) l = false) ∧
  (∀ l, wall_time (exec_limits e) = Some l → f64_gtb (res_wall_time res) l = false) ∧
  (∀ l, memory (exec_limits e) = Some l → (res_memory res ≤ l)%N).

(** ** Properties *)

(** Every DAG a client can build, by any sequence of the builder operations,
    has its groups and its provided files stored under their own identifiers, and
    in-memory files under the hash of their content. *)
Theorem built_dag_wf {CB} `{Blake3} (d : ExecutionDAG CB) :
  rtc build_step ExecutionDAG_new d → data_wf (data d).
Proof.
  intros Hr. enough (∀ x y : ExecutionDAG CB, rtc build_step x y → data_wf (data x) → data_wf (data y))
    as Hx by (eapply Hx; [done|apply data_wf_new]).
  induction 1; eauto using build_step_wf.
Qed.

Lemma built_dag_wf_witness :
  data_wf (H := toy_blake3) (data (clone_dag (CB := unit) (provide_content (H := toy_blake3)
    (mkFile 3 "input") [Byte.x61] ExecutionDAG_new))).
Proof.
  apply (built_dag_wf (H := toy_blake3)).
  eapply rtc_l; [apply step_provide_content|]. eapply rtc_l; [apply step_clone|]. apply rtc_refl.
Defined.

(** An execution is successful exactly when the sandbox reported a success
    and no resource exceeds its limit; a limit that is not set is never
    exceeded. *)
Theorem exec_status_success e st res :
  exec_status e st res = Success ↔ st = Success ∧ within_limits e res.
Proof.
  unfold exec_status, within_limits.
  destruct (cpu_time _) as [c|]; [destruct (f64_gtb _ c) eqn:?|];
    [split; [done|]; intros (_ & H1 & _); specialize (H1 c eq_refl); congruence|..];
  destruct (sys_time _) as [s|]; [destruct (f64_gtb _ s) eqn:?| |destruct (f64_gtb _ s) eqn:?|];
    try (split; [done|]; intros (_ & _ & H1 & _); specialize (H1 s eq_refl); congruence);
  destruct (wall_time _) as [w|]; try (destruct (f64_gtb _ w) eqn:?);
    try (split; [done|]; intros (_ & _ & _ & H1 & _); specialize (H1 w eq_refl); congruence);
  destruct (memory _) as [m|]; try (destruct (N.ltb_spec m (res_memory res)));
    try (split; [done|]; intros (_ & _ & _ & _ & H1); specialize (H1 m eq_refl); lia);
  naive_solver.
Qed.

(** A list of tags is accepted as a cache mode exactly when all of them are
    valid, and the cache is then skipped for exactly those tags. *)
Theorem CacheMode_try_from_tags `{IterOrder} l valid_tags m :
  CacheMode_try_from (Some (Some l)) valid_tags = Ret m ↔
  (∀ t, t ∈ split_char comma l → t ∈ valid_tags) ∧
  m = Except (list_to_set (mkTag <$> split_char comma l)).
Proof.
  unfold CacheMode_try_from. set (tags := list_to_set _ : gset ExecutionTag).
  assert (∀ t, mkTag t ∈ set_iter tags ↔ t ∈ split_char comma l) as Htags.
  { intros t. rewrite elem_of_set_iter. unfold tags. rewrite elem_of_list_to_set, list_elem_of_fmap.
    split; [|eauto]. intros (t' & [= ->] & ?). done. }
  destruct (filter _ (set_iter tags)) as [|t ts] eqn:Hfil.
  - split; [|by intros [_ ->]]. intros [= <-]. split; [|done]. intros t Ht%Htags.
    destruct (decide (t ∈ valid_tags)) as [|Hn]; [done|]. exfalso.
    eapply (elem_of_nil (mkTag t)). rewrite <-Hfil. by apply list_elem_of_filter.
  - split; [done|]. intros [Hv _]. assert (t ∈ t :: ts) as Hin by set_solver.
    rewrite <-Hfil in Hin. apply list_elem_of_filter in Hin as [Hn Hin]. destruct t as [t].
    exfalso. by apply Hn, Hv, Htags.
Qed.

(** Once the standard output of an execution is captured, capturing it again
    gives the same file and only changes the size limit. *)
Theorem capture_stdout_stable fresh fresh' l l' e :
  let '(f, e') := capture_stdout fresh l e in
  capture_stdout fresh' l' e' = (f, set_stdout (Output_Capture f l') e).
Proof.
  unfold capture_stdout. destruct e as [d c a i o r inp out env cp lim].
  by destruct o as [f sz|p| |].
Qed.
