(* ===== verification/Cache.v ===== *)
(** * The cache of the executions ([task-maker-cache])

    [CacheKey] of [key.rs], [CacheEntry] of [entry.rs], [CacheFile] of
    [storage.rs] and [Cache] of [lib.rs].  Looking an entry up takes handles of
    the file store, so [Cache_get] runs on the state of the store. *)
From S2P Require Import Prelude Float64 RustOrd Paths StoreKey Disk Store Dag.

(** ** Keys ([key.rs]) *)
Record CacheKeyItem : Type := mkKeyItem {
  key_command : ExecutionCommand;
  key_args : list string;
  key_stdin : option FileStoreKey;
  key_inputs : list (PathBuf * FileStoreKey * bool);
  key_env : list (string * string)
}.
#[export] Instance CacheKeyItem_eq_dec : EqDecision CacheKeyItem.
Proof. solve_decision. Defined.

Record CacheKey : Type := mkCacheKey { key_items : list CacheKeyItem }.
#[export] Instance CacheKey_eq_dec : EqDecision CacheKey.
Proof. solve_decision. Defined.

#[export] Instance ExecutionCommand_countable : Countable ExecutionCommand.
Proof.
  refine (inj_countable
    (λ c, match c with
          | System p => inl (inl p) | Local p => inl (inr p) | TypstCompilation l => inr l end)
    (λ x, Some match x with
          | inl (inl p) => System p | inl (inr p) => Local p | inr l => TypstCompilation l end) _).
  by intros [].
Defined.
#[export] Instance CacheKeyItem_countable : Countable CacheKeyItem.
Proof.
  refine (inj_countable
    (λ i, (key_command i, key_args i, key_stdin i, key_inputs i, key_env i))
    (λ '(c, a, s, i, e), Some (mkKeyItem c a s i e)) _).
  by intros [].
Defined.
#[export] Instance CacheKey_countable : Countable CacheKey.
Proof. refine (inj_countable key_items (λ l, Some (mkCacheKey l)) _). by intros []. Defined.

(** The handles of the files known to a DAG. *)
Abbreviation FileKeys := (gmap FileUuid FileStoreHandle) (only parsing).

(** [file_keys[uuid].key()]. *)
Definition file_key (file_keys : FileKeys) (f : FileUuid) : Outcome FileStoreKey :=
  handle_key <$> index file_keys f.

Section key.
Context `{IterOrder} `{UuidDisplay}.

(** The names of the FIFOs in the arguments do not depend on their uuids. *)
Definition fifo_names (group : ExecutionGroup) : gmap string string :=
  foldl (λ m p, <[path_to_string (sandbox_path p.2) := "tm_fifo_" +:+ pretty p.1]> m) ∅
    (imap (λ i f, (N.of_nat i, f)) (fifo group)).

Definition key_item_from_execution (execution : Execution) (file_keys : FileKeys)
    (group : option ExecutionGroup) : Outcome CacheKeyItem :=
  stdin ← match exec_stdin execution with
          | Input_File file => Some <$> file_key file_keys file
          | _ => Ret None
          end;
  inputs ← try_map (λ p : PathBuf * ExecutionInput,
      k ← file_key file_keys (input_file p.2); Ret (p.1, k, input_executable p.2))
    (map_iter (exec_input_files execution));
  let args := match group with
    | Some group => (λ arg, default arg (fifo_names group !! arg)) <$> exec_args execution
    | None => exec_args execution
    end in
  Ret {| key_command := exec_command execution; key_args := args; key_stdin := stdin;
         key_inputs := sorted inputs; key_env := sorted (map_iter (exec_env execution)) |}.

Definition key_from_execution_group (group : ExecutionGroup) (file_keys : FileKeys) :
    Outcome CacheKey :=
  items ← try_map (λ e, key_item_from_execution e file_keys (Some group)) (executions group);
  Ret (mkCacheKey items).
End key.

(** ** Entries ([entry.rs]) *)
Record CacheEntryItem : Type := mkEntryItem {
  item_result : ExecutionResult;
  item_limits : ExecutionLimits;
  item_stdout : option FileStoreKey;
  item_stderr : option FileStoreKey;
  item_outputs : gmap PathBuf FileStoreKey
}.

Record CacheEntry : Type := mkEntry {
  entry_items : list CacheEntryItem;
  entry_extra_time : f64;
  entry_extra_memory : N
}.

Definition captured_key (b : ExecutionOutputBehaviour) (file_keys : FileKeys) :
    option FileStoreKey :=
  match b with
  | Output_Capture file _ => handle_key <$> file_keys !! file_uuid file
  | _ => None
  end.

Section entry.
Context `{IterOrder} `{BuildProfile} `{Blake3} `{World}.

Definition entry_from_execution (execution : Execution) (file_keys : FileKeys)
    (result : ExecutionResult) : Outcome CacheEntryItem :=
  outs ← try_map (λ p : PathBuf * File,
      k ← file_key file_keys (file_uuid p.2); Ret (p.1, k))
    (map_iter (exec_output_files execution));
  Ret {| item_result := {| status := status result; was_killed := was_killed result;
                           was_cached := was_cached result; resources := resources result;
                           result_stdout := None; result_stderr := None |};
         item_limits := exec_limits execution;
         item_stdout := captured_key (exec_stdout execution) file_keys;
         item_stderr := captured_key (exec_stderr execution) file_keys;
         item_outputs := list_to_map outs |}.

Definition entry_from_execution_group (group : ExecutionGroup) (file_keys : FileKeys)
    (result : list ExecutionResult) : Outcome CacheEntry :=
  items ← try_map (λ p, entry_from_execution p.1 file_keys p.2)
    (zip (executions group) result);
  Ret {| entry_items := items; entry_extra_time := extra_time (group_config group);
         entry_extra_memory := extra_memory (group_config group) |}.

Definition same_limits (self other : CacheEntry) : bool :=
  bool_decide (length (entry_items self) = length (entry_items other)) &&
  forallb (λ p, limits_eqb (item_limits p.1) (item_limits p.2))
    (zip (entry_items self) (entry_items other)).

(** *** [CacheEntry::outputs] *)

(** [outputs.insert]: a handle that was there is dropped. *)
Definition insert_handle (u : FileUuid) (h : FileStoreHandle) (outs : FileKeys) :
    M FileStore FileKeys :=
  _ ← match outs !! u with Some old => handle_drop old | None => mret tt end;
  mret (<[u := h]> outs).

Definition drop_handles (outs : FileKeys) : M FileStore unit :=
  for_each (values_iter outs) handle_drop.

(** [try_get!]: [None] when the key is missing or its file is gone. *)
Definition try_get (key : option FileStoreKey) : M FileStore (option FileStoreHandle) :=
  match key with None => mret None | Some k => get k end.

(** The files an execution writes, with the keys they had when the entry was
    made. *)
Definition wanted_outputs (p : Execution * CacheEntryItem) :
    list (FileUuid * option FileStoreKey) :=
  let '(exec, item) := p in
  match exec_stdout exec with
  | Output_Capture file _ => [(file_uuid file, item_stdout item)] | _ => [] end
  ++ match exec_stderr exec with
     | Output_Capture file _ => [(file_uuid file, item_stderr item)] | _ => [] end
  ++ ((λ q : PathBuf * File, (file_uuid q.2, item_outputs item !! q.1)) <$>
      map_iter (exec_output_files exec)).

(** A missing file is an early return: the handles taken so far are dropped. *)
Fixpoint collect_outputs (outs : FileKeys) (l : list (FileUuid * option FileStoreKey)) :
    M FileStore (option FileKeys) :=
  match l with
  | [] => mret (Some outs)
  | (u, key) :: l =>
      h ← try_get key;
      match h with
      | None => _ ← drop_handles outs; mret None
      | Some h => outs ← insert_handle u h outs; collect_outputs outs l
      end
  end.

Definition entry_outputs (entry : CacheEntry) (group : ExecutionGroup) :
    M FileStore (option FileKeys) :=
  collect_outputs ∅ (zip (executions group) (entry_items entry) ≫= wanted_outputs).

(** *** [CacheEntry::is_compatible] *)

(** [check_limit!]: whether to go on.  The extra quantity is only computed
    when both limits are set. *)
Definition check_limit {A} (above : A → A → Outcome bool) (left right : option A) :
    Outcome bool :=
  match left, right with
  | Some l, Some r => exceeded ← above l r; Ret (negb exceeded)
  | None, Some _ => Ret false
  | _, None => Ret true
  end.

Definition time_above (extra : f64) (l r : f64) : Outcome bool :=
  Ret (f64_gtb (f64_add l extra) r).
Definition memory_above (extra : Outcome N) (l r : N) : Outcome bool :=
  e ← extra; s ← u64_add l e; Ret (r <? s)%N.
Definition above (l r : N) : Outcome bool := Ret (r <? l)%N.

Definition check_dirs (left right : list PathBuf) : bool :=
  let l : gset PathBuf := list_to_set left in
  let r : gset PathBuf := list_to_set right in
  negb (bool_decide (l ≠ r) && bool_decide (r ⊆ l)).

(** The checks run in order and stop at the first that fails. *)
Fixpoint all_checks (l : list (unit → Outcome bool)) : Outcome bool :=
  match l with
  | [] => Ret true
  | c :: l => ok ← c tt; if ok : bool then all_checks l else Ret false
  end.

(** [check_limits!]. *)
Definition check_limits (left right : ExecutionLimits) (extra_time : f64)
    (extra_memory : Outcome N) : Outcome bool :=
  all_checks
    [λ _, check_limit (time_above extra_time) (cpu_time left) (cpu_time right);
     λ _, check_limit (time_above extra_time) (sys_time left) (sys_time right);
     λ _, check_limit (time_above extra_time) (wall_time left) (wall_time right);
     λ _, check_limit (memory_above extra_memory) (memory left) (memory right);
     λ _, check_limit above (nofile left) (nofile right);
     λ _, check_limit above (fsize left) (fsize right);
     λ _, check_limit above (memlock left) (memlock right);
     λ _, check_limit above (stack left) (stack right);
     λ _, Ret (negb (allow_multiprocess left && negb (allow_multiprocess right)));
     λ _, Ret (negb (negb (read_only left) && read_only right));
     λ _, Ret (negb (mount_tmpfs left && negb (mount_tmpfs right)));
     λ _, Ret (check_dirs (extra_readable_dirs left) (extra_readable_dirs right))].

Definition item_compatible (entry : CacheEntry) (group : ExecutionGroup)
    (p : Execution * CacheEntryItem) : Outcome bool :=
  let '(exec, item) := p in
  let time := extra_time (group_config group) in
  let mem := extra_memory (group_config group) in
  match status (item_result item) with
  | Success =>
      check_limits (item_limits item) (exec_limits exec)
        (f64_sub (entry_extra_time entry) time) (u64_sub (entry_extra_memory entry) mem)
  | _ =>
      check_limits (exec_limits exec) (item_limits item)
        (f64_sub time (entry_extra_time entry)) (u64_sub mem (entry_extra_memory entry))
  end.

Definition is_compatible (entry : CacheEntry) (group : ExecutionGroup) : Outcome bool :=
  all_checks ((λ p _, item_compatible entry group p) <$>
    zip (executions group) (entry_items entry)).
End entry.

(** ** The file ([storage.rs]) and the cache ([lib.rs]) *)
Record Cache : Type := mkCache {
  entries : gmap CacheKey (list CacheEntry);
  cache_path : PathBuf;
  dirty : bool
}.

Inductive CacheResult : Type :=
  | Miss
  | Hit (result : list ExecutionResult) (outs : FileKeys).

Definition CACHE_FILE : string := "cache.bin".
Definition CACHE_MAGIC : list byte :=
  bytes_of_string ("task-maker-cache v0.7.4" +:+ newline).

(** [Cache::is_cacheable]. *)
Definition is_cacheable (result : ExecutionResult) : bool :=
  match status result with InternalError _ => false | _ => true end.

(** [find_position]: the first entry that satisfies [f]. *)
Fixpoint find_position {A} (f : A → bool) (l : list A) : option nat :=
  match l with
  | [] => None
  | x :: l => if f x then Some 0 else S <$> find_position f l
  end.

Section cache.
Context `{IterOrder} `{BuildProfile} `{Blake3} `{World} `{UuidDisplay}
  `{!Bincode (list (CacheKey * list CacheEntry))}.

(** [CacheFile::load]. *)
Definition cache_load (path : PathBuf) : M Disk Cache :=
  l ← load_file "Cannot open cache file" "Failed to deserialize cache content" CACHE_MAGIC path;
  mret (mkCache (list_to_map (reverse (default [] l))) path false).

(** [CacheFile::store]. *)
Definition cache_store (c : Cache) : M Disk unit :=
  if negb (dirty c) then mret tt else
  dir ← match path_parent (cache_path c) with
        | Some dir => mret dir
        | None => bail "Invalid cache file"
        end;
  _ ← with_context "Failed to create cache directory" (create_dir_all dir);
  save_file "Failed to create cache file" "Failed to write cache content"
    CACHE_MAGIC (serialize (map_iter (entries c))) (cache_path c).

Definition Cache_new (cache_dir : PathBuf) : M Disk Cache :=
  _ ← with_context "Failed to create cache directory" (create_dir_all cache_dir);
  with_context "Failed to load cache file" (cache_load (path_join cache_dir [Normal CACHE_FILE])).

(** [Drop for Cache]. *)
Definition Cache_drop (c : Cache) : M Disk unit := or_warn (cache_store c).

Definition Cache_insert (c : Cache) (group : ExecutionGroup) (file_keys : FileKeys)
    (result : list ExecutionResult) : Outcome Cache :=
  key ← key_from_execution_group group file_keys;
  let set := default [] (entries c !! key) in
  entry ← entry_from_execution_group group file_keys result;
  let set := match find_position (λ e, same_limits e entry) set with
    | Some pos => <[pos := entry]> set
    | None => set ++ [entry]
    end in
  Ret (mkCache (<[key := set]> (entries c)) (cache_path c) true).

(** Reading a cached standard output: a failure is the same as a missing file. *)
Definition read_cached (key : option FileStoreKey) : M FileStore (option (list byte)) :=
  match key with
  | None => mret None
  | Some key =>
      h ← get key;
      match h with
      | None => mret None
      | Some h =>
          content ← on_disk (ok (read_file (handle_path h)));
          _ ← handle_drop h;
          mret content
      end
  end.

Fixpoint hit_results (l : list (Execution * CacheEntryItem)) :
    M FileStore (list ExecutionResult) :=
  match l with
  | [] => mret []
  | (exec, item) :: l =>
      out ← read_cached (item_stdout item);
      err ← read_cached (item_stderr item);
      rest ← hit_results l;
      let r := item_result item in
      mret ({| status := exec_status exec (status r) (resources r);
               was_killed := was_killed r; was_cached := true; resources := resources r;
               result_stdout := out; result_stderr := err |} :: rest)
  end.

(** The loop of [Cache::get] over the entries of the key. *)
Fixpoint search_entries (group : ExecutionGroup) (l : list CacheEntry) :
    M FileStore CacheResult :=
  match l with
  | [] => mret Miss
  | entry :: l =>
      outs ← entry_outputs entry group;
      match outs with
      | None => search_entries group l
      | Some outs =>
          compatible ← lift (is_compatible entry group);
          if compatible : bool then
            results ← hit_results (zip (executions group) (entry_items entry));
            mret (Hit results outs)
          else
            _ ← drop_handles outs; search_entries group l
      end
  end.

Definition Cache_get (c : Cache) (group : ExecutionGroup) (file_keys : FileKeys) :
    M FileStore CacheResult :=
  key ← lift (key_from_execution_group group file_keys);
  match entries c !! key with
  | None => mret Miss
  | Some l => search_entries group l
  end.
End cache.

(** ** Specification *)

(** The handles owned by a map. *)
Definition handles (outs : FileKeys) : list FileStoreHandle := (map_to_list outs).*2.

(** The entries of a key have one item per execution of the key. *)
Definition cache_wf (c : Cache) : Prop :=
  ∀ k l e, entries c !! k = Some l → e ∈ l → length (entry_items e) = length (key_items k).

(** Every output of the group is in the map. *)
Definition covers (outs : FileKeys) (group : ExecutionGroup) : Prop :=
  ∀ f, output_of group f → is_Some (outs !! f).

(** Only outputs of the group are in the map. *)
Definition only_outputs (outs : FileKeys) (group : ExecutionGroup) : Prop :=
  ∀ f, is_Some (outs !! f) → output_of group f.

(** ** Handles taken and dropped by the cache *)
Section cache_handles.
Context `{IterOrder} `{BuildProfile} `{Blake3} `{World} `{UuidDisplay}
  `{!Bincode FileStoreIndex}.
Implicit Types (s : FileStore) (live : list FileStoreHandle).

Lemma store_inv_perm live live' s : live ≡ₚ live' → store_inv live s → store_inv live' s.
Proof.
  intros Hl [Hr Hf Hd Hi]. split; [|by intros h; rewrite <-Hl; apply Hf|done|done].
  intros k. assert (count_handles k live = count_handles k live') as <- by
    (unfold count_handles; by rewrite Hl). apply Hr.
Qed.

Lemma store_inv_disk live s d :
  files d = files (disk s) → dirs d = dirs (disk s) → store_inv live s →
  store_inv live (with_disk d s).
Proof.
  intros Hf Hd [Hr Hfl [Hc Hn] Hi]. split; [done| |split; simpl|done].
  - intros h Hh. simpl. rewrite Hf. by apply Hfl.
  - by rewrite Hf.
  - by rewrite Hd.
Qed.

Lemma handles_insert outs u h :
  outs !! u = None → handles (<[u:=h]> outs) ≡ₚ h :: handles outs.
Proof. intros Hu. unfold handles. by rewrite map_to_list_insert. Qed.

Lemma handles_delete outs u h :
  outs !! u = Some h → handles outs ≡ₚ h :: handles (delete u outs).
Proof.
  intros Hu. rewrite <-(insert_delete_id outs u h) at 1 by done.
  apply handles_insert, lookup_delete_eq.
Qed.

Lemma insert_handle_spec live u h outs s :
  store_inv (h :: handles outs ++ live) s →
  wp (insert_handle u h outs) (λ outs' s', outs' = <[u:=h]> outs ∧
    store_inv (handles outs' ++ live) s') no_error s.
Proof.
  intros Hinv. apply wp_bind. destruct (outs !! u) as [old|] eqn:Hu.
  - eapply wp_mono; [apply (drop_inv [h] old (handles (delete u outs) ++ live))|simpl|done].
    { eapply store_inv_perm; [|done]. by rewrite (handles_delete outs u old). }
    intros [] s' Hs'. split; [done|]. eapply store_inv_perm; [|done].
    rewrite <-insert_delete_eq. by rewrite handles_insert by apply lookup_delete_eq.
  - apply wp_ret, wp_ret. split; [done|]. eapply store_inv_perm; [|done].
    by rewrite handles_insert.
Qed.

Lemma drop_handles_spec live outs s :
  store_inv (handles outs ++ live) s →
  wp (drop_handles outs) (λ _, store_inv live) no_error s.
Proof.
  intros Hinv. apply (wp_for_each (λ l s, store_inv (l ++ live) s)).
  - eapply store_inv_perm; [|done]. unfold handles, values_iter. by rewrite map_iter_perm.
  - intros h l s' Hs'. by apply (drop_inv [] h (l ++ live)).
Qed.

Lemma try_get_spec live key s :
  store_inv live s →
  wp (try_get key) (λ r s', match r with
    | Some h => store_inv (h :: live) s' ∧ key = Some (handle_key h)
    | None => store_inv live s' end) no_error s.
Proof.
  intros Hinv. destruct key as [k|]; [|done]. eapply wp_mono; [by apply get_spec| |done].
  intros [h|] s' (_ & _ & Hr); [|apply Hr]. destruct Hr as [? <-]. done.
Qed.

Lemma collect_outputs_spec live l outs s :
  store_inv (handles outs ++ live) s →
  wp (collect_outputs outs l) (λ r s', match r with
    | None => store_inv live s'
    | Some outs' => store_inv (handles outs' ++ live) s' ∧
        (∀ u, u ∈ l.*1 ∨ is_Some (outs !! u) → is_Some (outs' !! u)) ∧
        (∀ u h, outs' !! u = Some h → outs !! u = Some h ∨ (u, Some (handle_key h)) ∈ l)
    end) no_error s.
Proof.
  revert outs s. induction l as [|[u key] l IH]; intros outs s Hinv.
  { apply wp_ret. set_solver. }
  apply wp_bind. eapply wp_mono; [by apply try_get_spec| |done].
  intros [h|] s1 Hs1.
  - destruct Hs1 as [Hs1 ->]. apply wp_bind.
    eapply wp_mono; [by apply insert_handle_spec| |done]. intros outs1 s2 [-> Hs2].
    eapply wp_mono; [by apply IH| |done]. intros [outs'|] s' Hs'; [|done].
    destruct Hs' as (Hs' & Hin & Hkeys). split; [done|]. split.
    + intros u' Hu'. apply Hin. rewrite lookup_insert.
      destruct (decide (u = u')); [right; eauto|]. set_solver.
    + intros u' h' [Hu'|Hu']%Hkeys; [|set_solver]. rewrite lookup_insert in Hu'.
      destruct (decide (u = u')); [|by left]. simplify_eq. right. set_solver.
  - apply wp_bind. eapply wp_mono; [by apply drop_handles_spec| |done]. done.
Qed.

Lemma elem_of_wanted exec item u :
  u ∈ (wanted_outputs (exec, item)).*1 ↔ u ∈ execution_outputs exec.
Proof.
  unfold wanted_outputs, execution_outputs. rewrite !fmap_app, !elem_of_app.
  f_equiv; [by destruct (exec_stdout exec)|]. f_equiv; [by destruct (exec_stderr exec)|].
  unfold values_iter. by rewrite <-!list_fmap_compose.
Qed.

Lemma entry_outputs_spec live entry group s :
  store_inv live s →
  wp (entry_outputs entry group) (λ r s', match r with
    | None => store_inv live s'
    | Some outs => store_inv (handles outs ++ live) s' ∧
        (length (entry_items entry) = length (executions group) → covers outs group) ∧
        only_outputs outs group
    end) no_error s.
Proof.
  intros Hinv. eapply wp_mono; [by apply (collect_outputs_spec live _ ∅)| |done].
  intros [outs|] s' Hs'; [|done]. destruct Hs' as (Hs' & Hin & Hkeys). split_and!; [done| |].
  2:{ intros f [h [?|Hf]%Hkeys]; [done|]. apply elem_of_outputs.
      apply list_elem_of_bind in Hf as ([e item] & Hw & He%elem_of_zip_l).
      apply list_elem_of_bind. exists e. split; [|done]. apply (elem_of_wanted e item).
      apply list_elem_of_fmap. by exists (f, Some (handle_key h)). }
  intros Hlen f Ho%elem_of_outputs. apply Hin. left.
  unfold outputs in Ho. apply list_elem_of_bind in Ho as (e & He & Hee).
  apply list_elem_of_lookup in Hee as [i Hi].
  destruct (entry_items entry !! i) as [item|] eqn:Hit.
  2:{ apply lookup_ge_None in Hit. apply lookup_lt_Some in Hi. lia. }
  rewrite list_elem_of_fmap. apply (elem_of_wanted e item), list_elem_of_fmap in He
    as (x & -> & Hx). exists x. split; [done|].
  apply list_elem_of_bind. exists (e, item). split; [done|].
  apply list_elem_of_lookup. exists i. apply lookup_zip_with_Some. eauto.
Qed.

Lemma read_cached_spec live key s :
  store_inv live s → wp (read_cached key) (λ _, store_inv live) no_error s.
Proof.
  intros Hinv. destruct key as [k|]; [|done].
  apply wp_bind. eapply wp_mono; [by apply get_spec| |done].
  intros [h|] s1 (_ & _ & Hs1); [|apply wp_ret, Hs1]. destruct Hs1 as [Hs1 _].
  apply wp_bind, wp_zoom, wp_ok, wp_io_call.
  - apply wp_bind. eapply wp_mono; [apply (drop_inv [] h live)| |done].
    + by apply store_inv_disk.
    + done.
  - intros c d Hd. simpl in Hd. simplify_option_eq. apply wp_bind.
    eapply wp_mono; [apply (drop_inv [] h live)| |done]; [by apply store_inv_disk|done].
Qed.

Lemma hit_results_spec live l s :
  store_inv live s →
  wp (hit_results l) (λ rs s', store_inv live s' ∧
    (λ r, (status r, resources r)) <$> rs =
    (λ p : Execution * CacheEntryItem, let r := item_result p.2 in
       (exec_status p.1 (status r) (resources r), resources r)) <$> l) no_error s.
Proof.
  revert s. induction l as [|[exec item] l IH]; intros s Hinv; [done|].
  apply wp_bind. eapply wp_mono; [by apply (read_cached_spec live)| |done]. intros out s1 Hs1.
  apply wp_bind. eapply wp_mono; [by apply (read_cached_spec live)| |done]. intros err s2 Hs2.
  apply wp_bind. eapply wp_mono; [by apply IH| |done]. intros rs s3 [Hs3 Heq].
  apply wp_ret. split; [done|]. rewrite !fmap_cons, Heq. done.
Qed.

(** The comparison of the limits does not overflow. *)
Definition comparable (group : ExecutionGroup) (entry : CacheEntry) : Prop :=
  ∃ b, is_compatible entry group = Ret b.

Lemma search_entries_spec live group l s :
  store_inv live s → Forall (comparable group) l →
  wp (search_entries group l) (λ r s', match r with
    | Miss => store_inv live s'
    | Hit rs outs => store_inv (handles outs ++ live) s' ∧ ∃ e, e ∈ l ∧
        is_compatible e group = Ret true ∧
        (length (entry_items e) = length (executions group) → covers outs group) ∧
        only_outputs outs group ∧
        (λ r, (status r, resources r)) <$> rs =
        (λ p : Execution * CacheEntryItem, let r := item_result p.2 in
           (exec_status p.1 (status r) (resources r), resources r)) <$>
        zip (executions group) (entry_items e)
    end) no_error s.
Proof.
  intros Hinv Hl. revert s Hinv. induction Hl as [|e l [b Hb] Hl IH]; intros s Hinv; [done|].
  assert (∀ s, store_inv live s → wp (search_entries group l) (λ r s', match r with
    | Miss => store_inv live s'
    | Hit rs outs => store_inv (handles outs ++ live) s' ∧ ∃ e', e' ∈ e :: l ∧
        is_compatible e' group = Ret true ∧
        (length (entry_items e') = length (executions group) → covers outs group) ∧
        only_outputs outs group ∧
        (λ r, (status r, resources r)) <$> rs =
        (λ p : Execution * CacheEntryItem, let r := item_result p.2 in
           (exec_status p.1 (status r) (resources r), resources r)) <$>
        zip (executions group) (entry_items e')
    end) no_error s) as IH'.
  { intros s1 Hs1. eapply wp_mono; [by apply IH| |done]. intros [|rs outs] s2 Hs2; [done|].
    destruct Hs2 as (? & e' & ? & ?). split; [done|]. exists e'. split; [set_solver|done]. }
  apply wp_bind. eapply wp_mono; [by apply entry_outputs_spec| |done].
  intros [outs|] s1 Hs1; [|by apply IH']. destruct Hs1 as (Hs1 & Hcov & Honly).
  apply wp_bind. eapply wp_lift_ret; [done|]. destruct b.
  - apply wp_bind. eapply wp_mono; [by apply hit_results_spec| |done].
    intros rs s2 [Hs2 Heq]. apply wp_ret. split; [done|]. exists e. split; [set_solver|]. done.
  - apply wp_bind. eapply wp_mono; [by apply drop_handles_spec| |done]. intros [] s2 Hs2.
    by apply IH'.
Qed.
End cache_handles.

(** ** Keys *)
Section cache_keys.
Context `{UuidDisplay}.

Lemma key_item_order (o1 o2 : IterOrder) e file_keys group k :
  @key_item_from_execution o1 _ e file_keys group = Ret k →
  @key_item_from_execution o2 _ e file_keys group = Ret k.
Proof.
  unfold key_item_from_execution. set (f := λ p : PathBuf * ExecutionInput, _).
  destruct (match exec_stdin e with Input_File file => _ | _ => _ end) as [stdin| | |]; try done.
  cbn. destruct (try_map f (@map_iter o1 _ _ _ _ (exec_input_files e))) as [l1| | |] eqn:H1;
    try done.
  destruct (try_map_perm f (@map_iter o1 _ _ _ _ (exec_input_files e)) (@map_iter o2 _ _ _ _ (exec_input_files e)) l1) as (l2 & -> & Hl);
    [by rewrite !map_iter_perm|done|].
  cbn. intros [= <-]. do 2 f_equal; symmetry; apply sorted_unique; [done|].
  by rewrite !map_iter_perm.
Qed.

(** Two groups that differ only in the uuids of their FIFOs. *)
Definition fifo_path (f : Fifo) : string := path_to_string (sandbox_path f).
Definition same_arg (g1 g2 : ExecutionGroup) (a1 a2 : string) : Prop :=
  (∃ i f1 f2, fifo g1 !! i = Some f1 ∧ fifo g2 !! i = Some f2 ∧
     a1 = fifo_path f1 ∧ a2 = fifo_path f2) ∨
  (a1 = a2 ∧ (a1 ∉ (fifo_path <$> fifo g1)) ∧ (a2 ∉ (fifo_path <$> fifo g2))).
Record same_execution (g1 g2 : ExecutionGroup) (e1 e2 : Execution) : Prop := {
  se_command : exec_command e1 = exec_command e2;
  se_stdin : exec_stdin e1 = exec_stdin e2;
  se_inputs : exec_input_files e1 = exec_input_files e2;
  se_env : exec_env e1 = exec_env e2;
  se_args : Forall2 (same_arg g1 g2) (exec_args e1) (exec_args e2)
}.

Lemma fifo_path_inj f1 f2 : fifo_path f1 = fifo_path f2 → f1 = f2.
Proof.
  destruct f1 as [u1], f2 as [u2]. unfold fifo_path, sandbox_path. simpl.
  intros Hp. f_equal. apply (inj uuid_to_string). by simplify_eq.
Qed.

Lemma NoDup_fifo_path fs : NoDup (fifo_uuid <$> fs) → NoDup (fifo_path <$> fs).
Proof.
  intros Hnd. apply NoDup_fmap_2_strong; [|by eapply NoDup_fmap_1].
  intros ???? Hf. by apply fifo_path_inj.
Qed.

Lemma fifo_names_some g i f :
  NoDup (fifo_uuid <$> fifo g) → fifo g !! i = Some f →
  fifo_names g !! fifo_path f = Some ("tm_fifo_" +:+ pretty (N.of_nat i)).
Proof.
  intros Hnd Hi. unfold fifo_names. set (l := imap _ _).
  assert (snd <$> l = fifo g) as Hl.
  { apply list_eq. intros j. unfold l. rewrite list_lookup_fmap, list_lookup_imap.
    by destruct (fifo g !! j). }
  apply (foldl_insert_lookup (λ p, fifo_path p.2) (λ p, "tm_fifo_" +:+ pretty p.1) l ∅
    (N.of_nat i, f)).
  - assert ((λ p, fifo_path p.2) <$> l = fifo_path <$> fifo g) as ->
      by by rewrite <-Hl, <-list_fmap_compose.
    by apply NoDup_fifo_path.
  - apply list_elem_of_lookup. exists i. unfold l. rewrite list_lookup_imap, Hi. done.
Qed.

Lemma fifo_names_none g a : a ∉ fifo_path <$> fifo g → fifo_names g !! a = None.
Proof.
  intros Ha. unfold fifo_names. set (l := imap _ _).
  assert (snd <$> l = fifo g) as Hl.
  { apply list_eq. intros j. unfold l. rewrite list_lookup_fmap, list_lookup_imap.
    by destruct (fifo g !! j). }
  rewrite (foldl_insert_lookup_None (λ p, fifo_path p.2) (λ p, "tm_fifo_" +:+ pretty p.1) l ∅);
    [done|].
  by assert ((λ p, fifo_path p.2) <$> l = fifo_path <$> fifo g) as ->
    by by rewrite <-Hl, <-list_fmap_compose.
Qed.

Lemma same_execution_key `{IterOrder} g1 g2 e1 e2 file_keys :
  NoDup (fifo_uuid <$> fifo g1) → NoDup (fifo_uuid <$> fifo g2) → same_execution g1 g2 e1 e2 →
  key_item_from_execution e1 file_keys (Some g1) = key_item_from_execution e2 file_keys (Some g2).
Proof.
  intros Hn1 Hn2 [Hc Hi Hin He Ha]. unfold key_item_from_execution. rewrite Hc, Hi, Hin, He.
  assert ((λ arg, default arg (fifo_names g1 !! arg)) <$> exec_args e1 =
          (λ arg, default arg (fifo_names g2 !! arg)) <$> exec_args e2) as ->; [|done].
  induction Ha as [|a1 a2 l1 l2 Ha _ IH]; [done|]. rewrite !fmap_cons, IH. f_equal.
  destruct Ha as [(i & f1 & f2 & H1 & H2 & -> & ->)|(-> & H1 & H2)].
  - by erewrite !fifo_names_some.
  - by rewrite !fifo_names_none.
Qed.
End cache_keys.

(** ** Compatibility of the limits *)
Section compatible.
Context `{IterOrder} `{BuildProfile}.

Lemma all_checks_Ret (l : list (unit → Outcome bool)) :
  Forall (λ c, ∃ b, c tt = Ret b) l → ∃ b, all_checks l = Ret b.
Proof.
  induction 1 as [|c l [b Hb] Hl IH]; [by exists true|]. simpl. rewrite Hb. cbn.
  destruct b; [done|by exists false].
Qed.

Lemma all_checks_true (l : list (unit → Outcome bool)) :
  all_checks l = Ret true ↔ Forall (λ c, c tt = Ret true) l.
Proof.
  induction l as [|c l IH]; simpl; [by split|]. rewrite Forall_cons, <-IH.
  destruct (c tt) as [[]| | |]; cbn; naive_solver.
Qed.

Lemma check_limit_Ret {A} (f : A → A → Outcome bool) l r :
  (∀ x y, ∃ b, f x y = Ret b) → ∃ b, check_limit f l r = Ret b.
Proof.
  intros Hf. destruct l as [x|], r as [y|]; simpl; eauto.
  destruct (Hf x y) as [b ->]. cbn. eauto.
Qed.

Lemma check_limits_Ret l r time mem :
  (∀ x y, ∃ b, memory_above mem x y = Ret b) → ∃ b, check_limits l r time mem = Ret b.
Proof.
  intros Hm. apply all_checks_Ret. repeat constructor; eauto; apply check_limit_Ret; try done;
    intros; by eexists.
Qed.

(** Without overflow checks the comparison never panics. *)
Lemma comparable_release group entry : overflow_checks = false → comparable group entry.
Proof.
  intros Hoc. apply all_checks_Ret, Forall_fmap, Forall_forall. intros [e i] _. simpl.
  assert (∀ a b x y, ∃ r, memory_above (u64_sub a b) x y = Ret r) as Hm.
  { intros a b x y. unfold memory_above, u64_sub, u64_add. rewrite Hoc.
    destruct (b <=? a)%N; cbn; destruct (_ <? _)%N; cbn; eauto. }
  destruct (status (item_result i)); apply check_limits_Ret; auto.
Qed.

Definition memory_ok (l : ExecutionLimits) : Prop :=
  ∀ m, memory l = Some m → (m < u64_modulus)%N.

Lemma check_limit_refl {A} (f : A → A → Outcome bool) o :
  (∀ x, o = Some x → f x x = Ret false) → check_limit f o o = Ret true.
Proof. intros Hf. destruct o as [x|]; simpl; [by rewrite Hf|done]. Qed.

Lemma time_above_refl t x : is_finite t = true → time_above (f64_sub t t) x x = Ret false.
Proof.
  intros Ht. unfold time_above. rewrite f64_sub_diag by done. f_equal.
  destruct (is_nan x) eqn:Hx; [by destruct x|]. unfold f64_gtb.
  destruct (f64_ltb x (f64_add x f64_zero)) eqn:Hl; [|done].
  pose proof (f64_add_zero_r x Hx) as Hle.
  apply f64_ltb_rank in Hl as (? & Hn & Hl). rewrite f64_leb_rank in Hle. tauto.
Qed.

Lemma check_limits_refl l t m :
  is_finite t = true → memory_ok l → check_limits l l (f64_sub t t) (u64_sub m m) = Ret true.
Proof.
  intros Ht Hm. apply all_checks_true. repeat constructor; cbn beta.
  1-3: apply check_limit_refl; intros; by apply time_above_refl.
  1: { apply check_limit_refl. intros x Hx. unfold memory_above.
       rewrite u64_sub_Ret by done. cbn. rewrite N.sub_diag.
       rewrite u64_add_Ret by (rewrite N.add_0_r; by apply Hm). cbn.
       by rewrite N.add_0_r, N.ltb_irrefl. }
  1-4: apply check_limit_refl; intros; unfold above; by rewrite N.ltb_irrefl.
  - by destruct (allow_multiprocess l).
  - by destruct (read_only l).
  - by destruct (mount_tmpfs l).
  - unfold check_dirs. by rewrite bool_decide_eq_false_2 by tauto.
Qed.

(** An entry is compatible with the group it was made from. *)
Lemma entry_compatible_refl group file_keys results entry :
  entry_from_execution_group group file_keys results = Ret entry →
  is_finite (extra_time (group_config group)) = true →
  Forall (λ e, memory_ok (exec_limits e)) (executions group) →
  is_compatible entry group = Ret true.
Proof.
  unfold entry_from_execution_group. intros Hent Ht Hmem.
  destruct (try_map _ _) as [items| | |] eqn:Hit; try done. injection Hent as <-.
  apply all_checks_true, Forall_fmap, Forall_forall. intros [e i] Hi. simpl.
  apply try_map_Ret in Hit. apply list_elem_of_lookup in Hi as [n Hn].
  apply lookup_zip_with_Some in Hn as (e' & i' & [= -> ->] & He & Hii).
  assert (memory_ok (exec_limits e')) as Hme by (eapply Forall_lookup_1 in Hmem; eauto).
  destruct (Forall2_lookup_r _ _ _ n i' Hit Hii) as ([e2 r2] & Hz & Hfrom).
  apply lookup_zip_with_Some in Hz as (e3 & r3 & [= -> ->] & He3 & Hr3). simplify_eq. simpl in Hfrom.
  unfold entry_from_execution in Hfrom. destruct (try_map _ (map_iter _)); try done.
  injection Hfrom as <-. unfold item_compatible. simpl.
  destruct (status r3); by apply check_limits_refl.
Qed.
End compatible.

(** ** Inserting and looking up *)
Section cache_lemmas.
Context `{IterOrder} `{BuildProfile} `{Blake3} `{World} `{UuidDisplay}
  `{!Bincode FileStoreIndex}.
Implicit Types (s : FileStore) (live : list FileStoreHandle).

Lemma find_position_lt {A} (f : A → bool) l pos : find_position f l = Some pos → pos < length l.
Proof.
  revert pos. induction l as [|x l IH]; intros pos; simpl; [done|].
  destruct (f x); [intros [= <-]; lia|]. destruct (find_position f l); [|done].
  intros [= <-]. specialize (IH _ eq_refl). lia.
Qed.

(** The entries of the key after an insertion: the new one, and old ones. *)
Lemma Cache_insert_spec c group file_keys results c' :
  Cache_insert c group file_keys results = Ret c' →
  ∃ key entry l, key_from_execution_group group file_keys = Ret key ∧
    entry_from_execution_group group file_keys results = Ret entry ∧
    entries c' = <[key := l]> (entries c) ∧ entry ∈ l ∧
    (∀ e, e ∈ l → e = entry ∨ e ∈ default [] (entries c !! key)).
Proof.
  unfold Cache_insert. destruct (key_from_execution_group group file_keys) as [key| | |]; try done.
  cbn. destruct (entry_from_execution_group group file_keys results) as [entry| | |]; try done.
  cbn. intros [= <-]. exists key, entry. eexists. split_and!; [done|done|done| |]; simpl.
  - destruct (find_position _ _) as [pos|] eqn:Hp; [|set_solver].
    apply list_elem_of_lookup. exists pos. apply list_lookup_insert_eq.
    by eapply find_position_lt.
  - intros e. destruct (find_position _ _) as [pos|] eqn:Hp; [|set_solver].
    intros [i Hi]%list_elem_of_lookup. apply list_lookup_insert_Some in Hi
      as [(_ & <- & _)|[_ Hi]]; [by left|right]. by eapply list_elem_of_lookup_2.
Qed.

(** Every dependency of the group is in the map. *)
Lemma key_total group (file_keys : FileKeys) :
  (∀ f, dep_of group f → is_Some (file_keys !! f)) →
  ∃ key, key_from_execution_group group file_keys = Ret key.
Proof.
  intros Hdeps. unfold key_from_execution_group.
  destruct (try_map_total (λ e, key_item_from_execution e file_keys (Some group))
    (executions group)) as [items Hitems]; [|rewrite Hitems; by eexists].
  intros e He. unfold key_item_from_execution.
  assert (∀ f, f ∈ execution_dependencies e → ∃ k, file_key file_keys f = Ret k) as Hf.
  { intros f Hf. destruct (Hdeps f) as [h Hh].
    - apply elem_of_dependencies, list_elem_of_bind. by exists e.
    - exists (handle_key h). unfold file_key, index. by rewrite Hh. }
  unfold execution_dependencies, values_iter in Hf.
  destruct (try_map_total (λ p : PathBuf * ExecutionInput,
      k ← file_key file_keys (input_file p.2); Ret (p.1, k, input_executable p.2))
    (map_iter (exec_input_files e))) as [ins Hins].
  { intros [p i] Hp. destruct (Hf (input_file i)) as [k Hk]; [|exists (p, k, input_executable i); simpl; by rewrite Hk].
    apply elem_of_app. right. rewrite <-list_fmap_compose. apply list_elem_of_fmap. by exists (p, i). }
  destruct (exec_stdin e) as [f|p| |]; [|cbn; rewrite Hins; by eexists..].
  destruct (Hf f) as [k Hk]; [set_solver|]. rewrite Hk; cbn. rewrite Hins. by eexists.
Qed.

Lemma entry_total group (file_keys : FileKeys) results :
  covers file_keys group → ∃ entry, entry_from_execution_group group file_keys results = Ret entry.
Proof.
  intros Hcov. unfold entry_from_execution_group.
  destruct (try_map_total (λ p, entry_from_execution p.1 file_keys p.2)
    (zip (executions group) results)) as [items Hitems]; [|rewrite Hitems; by eexists].
  intros [e r] He%elem_of_zip_l. unfold entry_from_execution. simpl.
  destruct (try_map_total (λ p : PathBuf * File,
      k ← file_key file_keys (file_uuid p.2); Ret (p.1, k))
    (map_iter (exec_output_files e))) as [outs Houts]; [|rewrite Houts; by eexists].
  intros [p f] Hp. destruct (Hcov (file_uuid f)) as [h Hh].
  - exists e. split; [done|]. right. right. exists p, f. split; [|done]. by apply elem_of_map_iter.
  - exists (p, handle_key h). unfold file_key, index. simpl. by rewrite Hh.
Qed.

Lemma Cache_insert_total c group (file_keys : FileKeys) results :
  (∀ f, dep_of group f → is_Some (file_keys !! f)) → covers file_keys group →
  ∃ c', Cache_insert c group file_keys results = Ret c'.
Proof.
  intros Hdeps Hcov. destruct (key_total group file_keys Hdeps) as [key Hkey].
  destruct (entry_total group file_keys results Hcov) as [entry Hentry].
  unfold Cache_insert. rewrite Hkey; cbn. rewrite Hentry; cbn. by eexists.
Qed.

Lemma key_length group file_keys key :
  key_from_execution_group group file_keys = Ret key →
  length (key_items key) = length (executions group).
Proof.
  unfold key_from_execution_group. destruct (try_map _ _) as [items| | |] eqn:Hi; try done.
  intros [= <-]. simpl. by eapply try_map_length.
Qed.

Lemma entry_length group file_keys results entry :
  entry_from_execution_group group file_keys results = Ret entry →
  length results = length (executions group) →
  length (entry_items entry) = length (executions group).
Proof.
  unfold entry_from_execution_group. destruct (try_map _ _) as [items| | |] eqn:Hi; try done.
  intros [= <-] Hlen. simpl. apply try_map_length in Hi. rewrite Hi, length_zip_with. lia.
Qed.

Lemma cache_wf_insert c group file_keys results c' :
  cache_wf c → length results = length (executions group) →
  Cache_insert c group file_keys results = Ret c' → cache_wf c'.
Proof.
  intros Hwf Hlen (key & entry & l & Hk & He & Hc' & Hin & Hold)%Cache_insert_spec.
  intros k l' e Hl Hel. rewrite Hc', lookup_insert in Hl. destruct (decide (key = k)) as [<-|].
  - simplify_eq. destruct (Hold e Hel) as [->|Ho].
    + by rewrite (entry_length _ _ _ _ He), (key_length _ _ _ Hk).
    + destruct (entries c !! key) as [l0|] eqn:Hl0; [by eapply Hwf|]. set_solver.
  - by eapply Hwf.
Qed.

Lemma Cache_get_spec live c group file_keys s :
  store_inv live s → cache_wf c →
  (∀ key l, key_from_execution_group group file_keys = Ret key → entries c !! key = Some l →
     Forall (comparable group) l) →
  (∃ key, key_from_execution_group group file_keys = Ret key) →
  wp (Cache_get c group file_keys) (λ r s', match r with
    | Miss => store_inv live s'
    | Hit rs outs => store_inv (handles outs ++ live) s' ∧ covers outs group ∧
        only_outputs outs group ∧ length rs = length (executions group)
    end) no_error s.
Proof.
  intros Hinv Hwf Hcmp [key Hkey]. apply wp_bind. eapply wp_lift_ret; [done|].
  destruct (entries c !! key) as [l|] eqn:Hl; [|done].
  eapply wp_mono; [apply (search_entries_spec live); [done|by eapply Hcmp]| |done].
  intros [|rs outs] s' Hs'; [done|]. destruct Hs' as (Hs' & e & He & _ & Hcov & Honly & Hrs).
  assert (length (entry_items e) = length (executions group)) as Hlen.
  { rewrite <-(key_length _ _ _ Hkey). by eapply Hwf. }
  split_and!; [done|by apply Hcov|done|]. apply (f_equal length) in Hrs.
  rewrite !length_fmap, length_zip_with in Hrs. lia.
Qed.

(** *** A hit, when no call fails *)
Hypothesis Hio : ∀ n, io_ok n = true.

Lemma get_live live key s :
  store_inv live s → key ∈ handle_key <$> live →
  wp (get key) (λ r _, is_Some r) no_error s.
Proof.
  intros [Hr Hf Hd Hi] (h & -> & Hh)%list_elem_of_fmap. destruct (Hf h Hh) as [Hp [f Hx]].
  apply wp_bind, wp_bind, wp_get, wp_zoom, wp_is_ok.
  unfold wp, io_call. rewrite Hio. simpl. rewrite <-Hp.
  rewrite decide_True by (rewrite Hx; eauto). simpl.
  change (wp (_ ← touch (handle_key h); h' ← handle_new (handle_key h); mret (Some h'))
    (λ r _, is_Some r) no_error (with_disk (advance (disk s)) s)).
  apply wp_bind. eapply wp_mono; [apply touch_spec| |done]. intros [] s' _.
  apply wp_bind, wp_bind, wp_get, wp_bind, wp_modify, wp_ret, wp_ret. by eexists.
Qed.

Lemma collect_outputs_hit live l outs s :
  store_inv (handles outs ++ live) s →
  (∀ u k, (u, k) ∈ l → ∃ key, k = Some key ∧ key ∈ handle_key <$> live) →
  wp (collect_outputs outs l) (λ r _, is_Some r) no_error s.
Proof.
  revert outs s. induction l as [|[u k] l IH]; intros outs s Hinv Hl.
  { apply wp_ret. by eexists. }
  destruct (Hl u k) as (key & -> & Hkey); [set_solver|]. apply wp_bind.
  eapply wp_mono; [apply wp_conj_no_error|simpl|done].
  - apply (try_get_spec (handles outs ++ live) (Some key)). done.
  - simpl. eapply (get_live (handles outs ++ live)); [done|]. set_solver.
  - intros [h|] s1 [Hs1 Hsome]; [|by destruct Hsome]. destruct Hs1 as [Hs1 _].
    apply wp_bind. eapply wp_mono; [by apply insert_handle_spec| |done]. intros outs1 s2 [_ Hs2].
    apply IH; [done|]. set_solver.
Qed.

(** Every file of an entry made from [file_keys] has a live handle. *)
Lemma wanted_live group file_keys results entry live :
  entry_from_execution_group group file_keys results = Ret entry →
  covers file_keys group → (∀ u h, file_keys !! u = Some h → h ∈ live) →
  ∀ u k, (u, k) ∈ (zip (executions group) (entry_items entry) ≫= wanted_outputs) →
  ∃ key, k = Some key ∧ key ∈ handle_key <$> live.
Proof.
  intros Hent Hcov Hlive u k (p & Hu & Hp)%list_elem_of_bind. destruct p as [e item].
  apply list_elem_of_lookup in Hp as [n Hn].
  apply lookup_zip_with_Some in Hn as (e' & i' & [= <- <-] & He & Hi).
  unfold entry_from_execution_group in Hent.
  destruct (try_map _ _) as [items| | |] eqn:Hit; try done. injection Hent as <-.
  apply try_map_Ret in Hit. destruct (Forall2_lookup_r _ _ _ n item Hit Hi) as ([e2 r2] & Hz & Hfrom).
  apply lookup_zip_with_Some in Hz as (e3 & r3 & [= -> ->] & He3 & _). simplify_eq. simpl in Hfrom.
  unfold entry_from_execution in Hfrom.
  destruct (try_map _ (map_iter _)) as [outs| | |] eqn:Ho; try done. injection Hfrom as <-.
  assert (∀ f, f ∈ execution_outputs e →
    ∃ h, file_keys !! f = Some h ∧ handle_key h ∈ handle_key <$> live) as Hout.
  { intros f Hf. destruct (Hcov f) as [h Hh].
    - apply elem_of_outputs, list_elem_of_bind. exists e. split; [done|].
      by eapply list_elem_of_lookup_2.
    - exists h. split; [done|]. apply list_elem_of_fmap_2. by eapply Hlive. }
  unfold execution_outputs in Hout. simpl in Hu. unfold captured_key in Hu.
  apply elem_of_app in Hu as [Hu|[Hu|Hu]%elem_of_app].
  - destruct (exec_stdout e) as [f sz|p'| |]; [|by apply elem_of_nil in Hu..].
    apply list_elem_of_singleton in Hu. injection Hu as -> ->.
    destruct (Hout (file_uuid f)) as (h & Hh & ?); [set_solver|]. rewrite Hh. eauto.
  - destruct (exec_stderr e) as [f sz|p'| |]; [|by apply elem_of_nil in Hu..].
    apply list_elem_of_singleton in Hu. injection Hu as -> ->.
    destruct (Hout (file_uuid f)) as (h & Hh & ?); [set_solver|]. rewrite Hh. eauto.
  - apply list_elem_of_fmap in Hu as ([p f] & [= -> ->] & Hpf).
    destruct (Hout (file_uuid f)) as (h & Hh & Hin).
    { rewrite !elem_of_app. right. right. unfold values_iter.
      rewrite <-list_fmap_compose. apply list_elem_of_fmap. by exists (p, f). }
    exists (handle_key h). split; [|done]. apply try_map_Ret in Ho.
    apply elem_of_list_to_map.
    + assert (outs.*1 = (map_iter (exec_output_files e)).*1) as ->.
      { clear -Ho. induction Ho as [|[p f] [q k] l1 l2 Hx _ IH]; [done|].
        rewrite !fmap_cons, IH. f_equal. unfold file_key, index in Hx. simpl in Hx.
        destruct (file_keys !! file_uuid f); [|done]. cbn in Hx. by simplify_eq. }
      apply NoDup_keys_iter.
    + apply list_elem_of_lookup in Hpf as [j Hj].
      destruct (Forall2_lookup_l _ _ _ j _ Ho Hj) as (y & Hy & Hx).
      unfold file_key, index in Hx. simpl in Hx. rewrite Hh in Hx. cbn in Hx. simplify_eq.
      by eapply list_elem_of_lookup_2.
Qed.

Lemma search_entries_hit live group l e s :
  store_inv live s → Forall (comparable group) l → e ∈ l → is_compatible e group = Ret true →
  (∀ u k, (u, k) ∈ (zip (executions group) (entry_items e) ≫= wanted_outputs) →
     ∃ key, k = Some key ∧ key ∈ handle_key <$> live) →
  wp (search_entries group l) (λ r _, r ≠ Miss) no_error s.
Proof.
  intros Hinv Hl He Hc Hw. revert s Hinv.
  induction Hl as [|e' l [b Hb] Hl IH]; intros s Hinv; [by apply elem_of_nil in He|].
  apply wp_bind. apply elem_of_cons in He as [->|He].
  - assert (b = true) as -> by congruence.
    eapply wp_mono; [apply wp_conj_no_error|simpl|done].
    + by apply (entry_outputs_spec live).
    + by apply (collect_outputs_hit live).
    + intros [outs|] s1 [Hs1 Hsome]; [|by destruct Hsome]. destruct Hs1 as [Hs1 _].
      apply wp_bind. eapply wp_lift_ret; [done|]. apply wp_bind.
      eapply wp_mono; [by apply (hit_results_spec (handles outs ++ live))| |done].
      intros rs s2 _. by apply wp_ret.
  - eapply wp_mono; [by apply (entry_outputs_spec live)|simpl|done].
    intros [outs|] s1 Hs1; [|by apply IH]. destruct Hs1 as [Hs1 _].
    apply wp_bind. eapply wp_lift_ret; [done|]. destruct b; apply wp_bind.
    + eapply wp_mono; [by apply (hit_results_spec (handles outs ++ live))| |done].
      intros rs s2 _. by apply wp_ret.
    + eapply wp_mono; [by apply (drop_handles_spec live)| |done]. intros [] s2 Hs2. by apply IH.
Qed.
End cache_lemmas.

(** ** Properties *)
Section cache_file.
Context `{IterOrder} `{World} `{!Bincode (list (CacheKey * list CacheEntry))}.

Lemma list_to_map_map_iter `{Countable K} {V} (m : gmap K V) :
  list_to_map (reverse (map_iter m)) = m.
Proof.
  rewrite <-(list_to_map_to_list m) at 2. apply list_to_map_proper.
  - rewrite fmap_reverse, reverse_Permutation. apply NoDup_keys_iter.
  - by rewrite reverse_Permutation, map_iter_perm.
Qed.

Lemma cache_store_spec c d :
  dirty c = true →
  wp (cache_store c) (λ _ d', ∃ f, files d' !! cache_path c = Some f ∧
    content f = CACHE_MAGIC ++ serialize (map_iter (entries c))) (λ _, True) d.
Proof.
  intros Hd. unfold cache_store. rewrite Hd. cbn [negb].
  destruct (path_parent (cache_path c)) as [dir|]; apply wp_bind; [|done].
  apply wp_ret, wp_bind, wp_context, wp_io_call; [done|]. intros [] d1 _.
  eapply wp_mono; [apply save_file_spec|simpl|done]. intros [] d2 [Hf _].
  eexists. by rewrite Hf, lookup_insert_eq.
Qed.
End cache_file.

Section cache_properties.
Context `{IterOrder} `{BuildProfile} `{Blake3} `{World} `{UuidDisplay}
  `{!Bincode FileStoreIndex} `{!Bincode (list (CacheKey * list CacheEntry))}.

(** C27: after the results of a group have been inserted, a lookup of the same
    group hits, as long as the files of the DAG are alive and no I/O call fails:
    it does not panic, fail or miss. *)
Theorem cache_hit_after_insert live c group file_keys results c' s :
  (∀ n, io_ok n = true) → overflow_checks = false →
  store_inv live s → (∀ u h, file_keys !! u = Some h → h ∈ live) → covers file_keys group →
  is_finite (extra_time (group_config group)) = true →
  Forall (λ e, memory_ok (exec_limits e)) (executions group) →
  Cache_insert c group file_keys results = Ret c' →
  ∃ rs outs, (Cache_get c' group file_keys s).1 = Ret (Hit rs outs).
Proof.
  intros Hio Hoc Hinv Hlive Hcov Ht Hm Hins.
  destruct (Cache_insert_spec _ _ _ _ _ Hins) as (key & e & l & Hkey & Hent & Hc' & Hin & _).
  assert (wp (Cache_get c' group file_keys) (λ r _, r ≠ Miss) no_error s) as Hw.
  { apply wp_bind. eapply wp_lift_ret; [done|]. rewrite Hc', lookup_insert_eq.
    apply (search_entries_hit Hio live group l e); [done| |done| |].
    - apply Forall_forall. intros e' _. by apply comparable_release.
    - by eapply entry_compatible_refl.
    - by eapply wanted_live. }
  unfold wp in Hw. destruct (Cache_get c' group file_keys s) as [[[|rs outs]| | |] s'];
    [done|by exists rs, outs|by destruct Hw..].
Qed.

(** A lookup never leaks nor loses a handle: on a miss the live handles are
    the ones before, on a hit the ones of the returned map are added; and a hit
    has one result per execution and a handle for exactly the outputs of the
    group. *)
Theorem cache_get_handles live c group file_keys s r s' :
  store_inv live s → cache_wf c → overflow_checks = false →
  Cache_get c group file_keys s = (Ret r, s') →
  match r with
  | Miss => store_inv live s'
  | Hit rs outs => store_inv (handles outs ++ live) s' ∧ covers outs group ∧
      only_outputs outs group ∧ length rs = length (executions group)
  end.
Proof.
  intros Hinv Hwf Hoc Hget.
  assert (∃ key, key_from_execution_group group file_keys = Ret key) as Hkey.
  { unfold Cache_get, mbind, M_bind, lift in Hget.
    destruct (key_from_execution_group group file_keys); [by eexists|done..]. }
  pose proof (Cache_get_spec live c group file_keys s Hinv Hwf) as Hw.
  unfold wp in Hw. rewrite Hget in Hw. apply Hw; [|done]. intros key l _ _.
  apply Forall_forall. intros e _. by apply comparable_release.
Qed.

(** The key of a group does not depend on the iteration order of the maps it
    is computed from. *)
Theorem cache_key_order (o1 o2 : IterOrder) group file_keys k :
  @key_from_execution_group o1 _ group file_keys = Ret k →
  @key_from_execution_group o2 _ group file_keys = Ret k.
Proof.
  unfold key_from_execution_group. destruct (try_map _ _) as [items| | |] eqn:Hi; try done.
  intros [= <-]. apply try_map_Ret in Hi.
  assert (try_map (λ e, @key_item_from_execution o2 _ e file_keys (Some group)) (executions group)
    = Ret items) as ->; [|done].
  apply try_map_Ret. eapply Forall2_impl; [exact Hi|]. intros e i. apply key_item_order.
Qed.

(** The key of a group does not depend on the identifiers of its FIFOs: two
    groups whose executions only differ in the FIFO that an argument names at the
    same position have the same key. *)
Theorem cache_key_fifos g1 g2 file_keys :
  NoDup (fifo_uuid <$> fifo g1) → NoDup (fifo_uuid <$> fifo g2) →
  Forall2 (same_execution g1 g2) (executions g1) (executions g2) →
  key_from_execution_group g1 file_keys = key_from_execution_group g2 file_keys.
Proof.
  intros Hn1 Hn2 Hes. unfold key_from_execution_group.
  assert (try_map (λ e, key_item_from_execution e file_keys (Some g1)) (executions g1) =
    try_map (λ e, key_item_from_execution e file_keys (Some g2)) (executions g2)) as ->; [|done].
  induction Hes as [|e1 e2 l1 l2 He _ IH]; [done|]. simpl.
  by rewrite (same_execution_key g1 g2 e1 e2), IH.
Qed.

(** An entry is compatible with the group it was made from, whatever the
    result of the executions. *)
Theorem entry_compatible_origin group file_keys results entry :
  entry_from_execution_group group file_keys results = Ret entry →
  is_finite (extra_time (group_config group)) = true →
  Forall (λ e, memory_ok (exec_limits e)) (executions group) →
  is_compatible entry group = Ret true.
Proof. apply entry_compatible_refl. Qed.

(** A cache written to disk is the cache read back. *)
Theorem cache_roundtrip c d d' :
  (∀ n, io_ok n = true) → dirty c = true → cache_store c d = (Ret tt, d') →
  (cache_load (cache_path c) d').1 = Ret (mkCache (entries c) (cache_path c) false).
Proof.
  intros Hio Hd Hst. pose proof (cache_store_spec c d Hd) as Hw. unfold wp in Hw.
  rewrite Hst in Hw. destruct Hw as (f & Hf & Hc).
  unfold cache_load, mbind, M_bind. erewrite load_file_spec by done. simpl.
  by rewrite list_to_map_map_iter.
Qed.
End cache_properties.

(** ** Concrete caches *)
#[export] Instance f64_countable : Countable f64.
Proof.
  refine (inj_countable
    (λ x, match x with
          | S754_zero s => (0%N, s, 1%positive, 0%Z) | S754_infinity s => (1%N, s, 1%positive, 0%Z)
          | S754_nan => (2%N, false, 1%positive, 0%Z) | S754_finite s m e => (3%N, s, m, e) end)
    (λ '(t, s, m, e), Some match t with
          | 0%N => S754_zero s | 1%N => S754_infinity s | 2%N => S754_nan
          | _ => S754_finite s m e end) _).
  by intros [].
Defined.
#[export] Instance ExecutionLimits_eq_dec : EqDecision ExecutionLimits.
Proof. solve_decision. Defined.
#[export] Instance ExecutionLimits_countable : Countable ExecutionLimits.
Proof.
  refine (inj_countable
    (λ l, ((cpu_time l, sys_time l, wall_time l, memory l, allow_multiprocess l),
           (nofile l, fsize l, memlock l, stack l, read_only l),
           (mount_tmpfs l, mount_proc l, extra_readable_dirs l, permissive l)))
    (λ '((a, b, c, d, e), (f, g, h, i, j), (k, l, m, n)),
      Some (mkLimits a b c d e f g h i j k l m n)) _).
  by intros [].
Defined.
#[export] Instance ExecutionStatus_countable : Countable ExecutionStatus.
Proof.
  refine (inj_countable
    (λ s, match s with
          | Success => (0%N, EmptyString, 0%N) | Failure m => (1%N, m, 0%N)
          | ReturnCode c => (2%N, EmptyString, c) | Signal n m => (3%N, m, n)
          | TimeLimitExceeded => (4%N, EmptyString, 0%N)
          | SysTimeLimitExceeded => (5%N, EmptyString, 0%N)
          | WallTimeLimitExceeded => (6%N, EmptyString, 0%N)
          | MemoryLimitExceeded => (7%N, EmptyString, 0%N) | InternalError m => (8%N, m, 0%N) end)
    (λ '(t, m, n), Some match t with
          | 0%N => Success | 1%N => Failure m | 2%N => ReturnCode n | 3%N => Signal n m
          | 4%N => TimeLimitExceeded | 5%N => SysTimeLimitExceeded
          | 6%N => WallTimeLimitExceeded | 7%N => MemoryLimitExceeded
          | _ => InternalError m end) _).
  by intros [].
Defined.
#[export] Instance ExecutionResourcesUsage_eq_dec : EqDecision ExecutionResourcesUsage.
Proof. solve_decision. Defined.
#[export] Instance ExecutionResourcesUsage_countable : Countable ExecutionResourcesUsage.
Proof.
  refine (inj_countable (λ r, (res_cpu_time r, res_sys_time r, res_wall_time r, res_memory r))
    (λ '(a, b, c, d), Some (mkResources a b c d)) _).
  by intros [].
Defined.
#[export] Instance ExecutionResult_eq_dec : EqDecision ExecutionResult.
Proof. solve_decision. Defined.
#[export] Instance ExecutionResult_countable : Countable ExecutionResult.
Proof.
  refine (inj_countable (λ r, (status r, was_killed r, was_cached r, resources r,
      result_stdout r, result_stderr r))
    (λ '(a, b, c, d, e, f), Some (mkResult a b c d e f)) _).
  by intros [].
Defined.
#[export] Instance CacheEntryItem_eq_dec : EqDecision CacheEntryItem.
Proof. solve_decision. Defined.
#[export] Instance CacheEntryItem_countable : Countable CacheEntryItem.
Proof.
  refine (inj_countable (λ i, (item_result i, item_limits i, item_stdout i, item_stderr i,
      item_outputs i))
    (λ '(a, b, c, d, e), Some (mkEntryItem a b c d e)) _).
  by intros [].
Defined.
#[export] Instance CacheEntry_eq_dec : EqDecision CacheEntry.
Proof. solve_decision. Defined.
#[export] Instance CacheEntry_countable : Countable CacheEntry.
Proof.
  refine (inj_countable (λ e, (entry_items e, entry_extra_time e, entry_extra_memory e))
    (λ '(a, b, c), Some (mkEntry a b c)) _).
  by intros [].
Defined.

Import StoreExample.

Module CacheExample.
#[export] Instance ex_uuid : UuidDisplay := decimal_uuid.
#[export] Instance ex_cache_bincode : Bincode (list (CacheKey * list CacheEntry)) :=
  binary_format.
End CacheExample.

Import CacheExample.

Definition ex_exec : Execution :=
  set_stdout (Output_Capture (mkFile 8 "out") None)
    (set_stdin (Input_File 7) (Execution_new "copy" (System [Normal "cat"]))).
Definition ex_group : ExecutionGroup := into_group 1 ex_exec.
Definition ex_keys : FileKeys := {[7%N := ex_handle; 8%N := ex_handle]}.
Definition ex_result : ExecutionResult :=
  mkResult Success false false (mkResources f64_zero f64_zero f64_one 4) None None.
Definition ex_empty_cache : Cache := mkCache ∅ [RootDir; Normal "cache.bin"] false.
Definition ex_cache : Cache :=
  from_ret ex_empty_cache (Cache_insert ex_empty_cache ex_group ex_keys [ex_result]).
Definition ex_entry : CacheEntry :=
  from_ret (mkEntry [] f64_zero 0) (entry_from_execution_group ex_group ex_keys [ex_result]).

Lemma ex_cache_eq : Cache_insert ex_empty_cache ex_group ex_keys [ex_result] = Ret ex_cache.
Proof. refine (from_ret_eq ex_empty_cache _ _). vm_compute. reflexivity. Qed.

Lemma ex_entry_eq : entry_from_execution_group ex_group ex_keys [ex_result] = Ret ex_entry.
Proof. refine (from_ret_eq (mkEntry [] f64_zero 0) _ _). vm_compute. reflexivity. Qed.

Lemma ex_keys_cover : covers ex_keys ex_group.
Proof.
  intros f Hf%(elem_of_outputs (H0 := forward_order)).
  vm_compute in Hf. apply list_elem_of_singleton in Hf as ->. by eexists.
Qed.

Lemma ex_memory_ok : Forall (λ e, memory_ok (exec_limits e)) (executions ex_group).
Proof. constructor; [|constructor]. intros m Hm. vm_compute in Hm. discriminate. Qed.

Lemma ex_keys_live u h : ex_keys !! u = Some h → h ∈ [ex_handle].
Proof.
  unfold ex_keys. rewrite lookup_insert. destruct (decide (7%N = u)); [intros [= <-]; constructor|].
  rewrite lookup_singleton. destruct (decide (8%N = u)); [intros [= <-]; constructor|done].
Qed.

Lemma cache_hit_after_insert_witness :
  ∃ rs outs, (@Cache_get _ release_profile _ _ _ ex_cache ex_group ex_keys ex_stored.2).1
    = Ret (Hit rs outs).
Proof.
  apply (cache_hit_after_insert (H0 := release_profile) [ex_handle] ex_empty_cache ex_group
    ex_keys [ex_result]).
  - done.
  - done.
  - apply ex_stored_inv.
  - apply ex_keys_live.
  - apply ex_keys_cover.
  - vm_compute. reflexivity.
  - exact ex_memory_ok.
  - exact ex_cache_eq.
Defined.

Lemma cache_get_handles_witness :
  store_inv [ex_handle]
    (@Cache_get _ release_profile _ _ _ ex_empty_cache ex_group ex_keys ex_stored.2).2.
Proof.
  apply (cache_get_handles (H0 := release_profile) [ex_handle] ex_empty_cache ex_group ex_keys
    ex_stored.2 Miss).
  - apply ex_stored_inv.
  - intros k l e Hl. change ((∅ : gmap CacheKey (list CacheEntry)) !! k = Some l) in Hl.
    by rewrite lookup_empty in Hl.
  - done.
  - apply run_result. vm_compute. reflexivity.
Defined.

Definition ex_cache_key : CacheKey :=
  from_ret (mkCacheKey []) (key_from_execution_group ex_group ex_keys).

Lemma ex_cache_key_eq : key_from_execution_group ex_group ex_keys = Ret ex_cache_key.
Proof. refine (from_ret_eq (mkCacheKey []) _ _). vm_compute. reflexivity. Qed.

Lemma cache_key_order_witness :
  @key_from_execution_group backward_order _ ex_group ex_keys = Ret ex_cache_key.
Proof.
  apply (cache_key_order forward_order backward_order), ex_cache_key_eq.
Defined.

(** Two groups that read from their own FIFO. *)
Definition ex_fifo_group (u : Uuid) : ExecutionGroup :=
  let g := mkGroup u "fifo" [] [mkFifo (u + 10)] ExecutionDAGConfig_new None 0%Z None in
  group_add_execution
    (set_args [fifo_path (mkFifo (u + 10)); "x"] (Execution_new "e" (System [Normal "cat"]))) g.

Lemma cache_key_fifos_witness :
  key_from_execution_group (ex_fifo_group 1) ∅ = key_from_execution_group (ex_fifo_group 2) ∅.
Proof.
  apply (cache_key_fifos (ex_fifo_group 1) (ex_fifo_group 2)).
  - apply NoDup_singleton.
  - apply NoDup_singleton.
  - constructor; [|constructor]. split; [done..|]. constructor; [|constructor; [|constructor]].
    + left. exists 0, (mkFifo 11), (mkFifo 12). done.
    + right. split; [done|]. vm_compute. split; intros Hx;
        apply list_elem_of_singleton in Hx; discriminate.
Defined.

Lemma entry_compatible_origin_witness : is_compatible ex_entry ex_group = Ret true.
Proof.
  apply (entry_compatible_origin ex_group ex_keys [ex_result]).
  - exact ex_entry_eq.
  - vm_compute. reflexivity.
  - exact ex_memory_ok.
Defined.

Lemma cache_roundtrip_witness :
  (cache_load (cache_path ex_cache) (cache_store ex_cache (disk ex_store)).2).1 =
  Ret (mkCache (entries ex_cache) (cache_path ex_cache) false).
Proof.
  apply (cache_roundtrip ex_cache (disk ex_store)); [done|vm_compute; reflexivity|].
  apply run_result. vm_compute. reflexivity.
Defined.

(** ** Divergences from the documentation of the crate *)

(** The same execution, with other limits and another extra memory. *)
Definition ex_entry_with (f : ExecutionLimits → ExecutionLimits) : CacheEntry :=
  from_ret (mkEntry [] f64_zero 0) (entry_from_execution_group
    (into_group 1 (limits_mut f ex_exec)) ex_keys [ex_result]).
Definition ex_group_with (f : ExecutionLimits → ExecutionLimits) (extra : N) : ExecutionGroup :=
  group_set_config (config_extra_memory extra ExecutionDAGConfig_new)
    (into_group 1 (limits_mut f ex_exec)).

(** With overflow checks, a query whose DAG has more extra memory than the
    cached entry panics. *)
Lemma is_compatible_underflow :
  is_compatible (ex_entry_with (set_memory 100)) (ex_group_with (set_memory 100) 10000) =
  Panicked "attempt to subtract with overflow".
Proof. vm_compute. reflexivity. Qed.

(** A success obtained with [/proc] mounted, without the restrictions of the
    sandbox or with other readable directories is reused without them. *)
Lemma is_compatible_ignores_mount_proc :
  is_compatible (ex_entry_with (set_mount_proc true)) (ex_group_with (set_mount_proc false) 8192) =
  Ret true.
Proof. vm_compute. reflexivity. Qed.

Lemma is_compatible_incomparable_dirs :
  is_compatible (ex_entry_with (add_extra_readable_dir [Normal "a"]))
    (ex_group_with (add_extra_readable_dir [Normal "b"]) 8192) = Ret true.
Proof. vm_compute. reflexivity. Qed.
