(* ===== verification/CheckDag.v ===== *)
(** * Validation of a DAG ([task-maker-exec/src/check_dag.rs])

    [check_dag] is run by the server on every DAG a client sends.  The function
    is modelled with its work lists; the specification is an inductive notion
    of a group that can eventually run. *)
From S2P Require Import Prelude Paths StoreKey Dag.

(** The callbacks the client is interested in ([executor.rs]). *)
Record ExecutionDAGWatchSet : Type := mkWatch {
  watch_executions : gset ExecutionGroupUuid;
  watch_files : gset FileUuid;
  watch_urgent_files : gset FileUuid
}.

Inductive DAGError : Type :=
  | MissingFile (uuid : FileUuid) (description : string)
  | MissingExecution (uuid : ExecutionGroupUuid)
  | CycleDetected (description : string)
  | DuplicateFileUUID (uuid : FileUuid)
  | DuplicateFifoUUID (uuid : FifoUuid)
  | DuplicateExecutionUUID (uuid : ExecutionGroupUuid)
  | EmptyGroup (uuid : ExecutionGroupUuid).

(** The local variables of [check_dag]. *)
Record Visit : Type := mkVisit {
  v_dependencies : gmap FileUuid (list ExecutionGroupUuid);
  v_num_dependencies : gmap ExecutionGroupUuid nat;
  v_known_files : gset FileUuid;
  v_known_execs : gset ExecutionGroupUuid;
  v_ready_groups : list ExecutionGroupUuid;
  v_ready_files : list FileUuid
}.

Definition visit_init : Visit := mkVisit ∅ ∅ ∅ ∅ [] [].

(** The result of a phase: it stops with an error or goes on. *)
Abbreviation Checked A := (DAGError + A)%type.

Fixpoint first_duplicate (seen : gset N) (l : list N) : option N :=
  match l with
  | [] => None
  | x :: l => if decide (x ∈ seen) then Some x else first_duplicate ({[x]} ∪ seen) l
  end.

Section check_dag.
Context `{IterOrder}.

Definition add_dependency (file : FileUuid) (group : ExecutionGroupUuid)
    (m : gmap FileUuid (list ExecutionGroupUuid)) : gmap FileUuid (list ExecutionGroupUuid) :=
  <[file := default [] (m !! file) ++ [group]]> m.

(** One turn of the first loop. *)
Definition visit_group (v : Visit) (p : ExecutionGroupUuid * ExecutionGroup) : Checked Visit :=
  let '(uuid, group) := p in
  if bool_decide (executions group = []) then inl (EmptyGroup uuid) else
  match first_duplicate ∅ (fifo_uuid <$> fifo group) with
  | Some f => inl (DuplicateFifoUUID f)
  | None =>
      if decide (group_uuid group ∈ v_known_execs v)
      then inl (DuplicateExecutionUUID (group_uuid group)) else
      let deps := dependencies group in
      let count := length deps in
      let outs := outputs group in
      match first_duplicate (v_known_files v) outs with
      | Some f => inl (DuplicateFileUUID f)
      | None =>
          inr {| v_dependencies :=
                   foldl (λ m dep, add_dependency dep uuid m) (v_dependencies v) deps;
                 v_num_dependencies := <[uuid := count]> (v_num_dependencies v);
                 v_known_files := v_known_files v ∪ list_to_set outs;
                 v_known_execs := {[group_uuid group]} ∪ v_known_execs v;
                 v_ready_groups :=
                   v_ready_groups v ++ (if decide (count = 0) then [uuid] else []);
                 v_ready_files := v_ready_files v |}
      end
  end.

Fixpoint visit_groups (v : Visit) (l : list (ExecutionGroupUuid * ExecutionGroup)) :
    Checked Visit :=
  match l with
  | [] => inr v
  | p :: l => match visit_group v p with inl e => inl e | inr v' => visit_groups v' l end
  end.

(** The loop over the provided files. *)
Fixpoint visit_provided (v : Visit) (l : list FileUuid) : Checked Visit :=
  match l with
  | [] => inr v
  | uuid :: l =>
      if decide (uuid ∈ v_known_files v) then inl (DuplicateFileUUID uuid)
      else visit_provided
        {| v_dependencies := v_dependencies v;
           v_num_dependencies := v_num_dependencies v;
           v_known_files := {[uuid]} ∪ v_known_files v;
           v_known_execs := v_known_execs v;
           v_ready_groups := v_ready_groups v;
           v_ready_files := v_ready_files v ++ [uuid] |} l
  end.

(** A dependency of [group] is satisfied. *)
Definition release (num : gmap ExecutionGroupUuid nat) (ready : list ExecutionGroupUuid)
    (group : ExecutionGroupUuid) :
    Outcome (gmap ExecutionGroupUuid nat * list ExecutionGroupUuid) :=
  n ← unwrap "num_dependencies of an unknown execution group" (num !! group);
  match n with
  | O => Panicked "num_dependencies is going to be negative"
  | S n' => Ret (<[group := n']> num, ready ++ (if decide (n' = 0) then [group] else []))
  end.

Fixpoint release_all (num : gmap ExecutionGroupUuid nat) (ready l : list ExecutionGroupUuid) :
    Outcome (gmap ExecutionGroupUuid nat * list ExecutionGroupUuid) :=
  match l with
  | [] => Ret (num, ready)
  | g :: l => '(num', ready') ← release num ready g; release_all num' ready' l
  end.

(** Draining [ready_files]. *)
Fixpoint drain_files (deps : gmap FileUuid (list ExecutionGroupUuid))
    (num : gmap ExecutionGroupUuid nat) (ready : list ExecutionGroupUuid) (l : list FileUuid) :
    Outcome (gmap ExecutionGroupUuid nat * list ExecutionGroupUuid) :=
  match l with
  | [] => Ret (num, ready)
  | file :: l =>
      match deps !! file with
      | None => drain_files deps num ready l
      | Some gs => '(num', ready') ← release_all num ready gs; drain_files deps num' ready' l
      end
  end.

(** Draining [ready_groups]: the outputs of the groups become ready. *)
Definition drain_groups (dag : ExecutionDAGData) (l : list ExecutionGroupUuid) :
    Outcome (list FileUuid) :=
  gs ← try_map (λ u, unwrap "No such exec group" (execution_groups dag !! u)) l;
  Ret (gs ≫= outputs).

(** The visit; [fuel] bounds the turns of the [while]. *)
Fixpoint visit_loop (fuel : nat) (dag : ExecutionDAGData)
    (deps : gmap FileUuid (list ExecutionGroupUuid)) (num : gmap ExecutionGroupUuid nat)
    (ready_groups : list ExecutionGroupUuid) (ready_files : list FileUuid) :
    Outcome (gmap ExecutionGroupUuid nat) :=
  match ready_groups, ready_files with
  | [], [] => Ret num
  | _, _ =>
      match fuel with
      | O => OutOfFuel
      | S fuel =>
          '(num', ready) ← drain_files deps num ready_groups ready_files;
          files ← drain_groups dag ready;
          visit_loop fuel dag deps num' [] files
      end
  end.

(** The search for an execution that was not reached. *)
Definition unreached_error (dag : ExecutionDAGData) (known_files : gset FileUuid)
    (num : gmap ExecutionGroupUuid nat) : Outcome (option DAGError) :=
  match filter (λ p, p.2 ≠ 0) (map_iter num) with
  | [] => Ret None
  | (uuid, _) :: _ =>
      group ← index (execution_groups dag) uuid;
      match filter (λ dep, dep ∉ known_files) (dependencies group) with
      | dep :: _ =>
          Ret (Some (MissingFile dep ("Dependency of '" +:+ group_description group +:+ "'")))
      | [] => Ret (Some (CycleDetected (group_description group)))
      end
  end.

Definition callbacks_error (watch : ExecutionDAGWatchSet) (known_files : gset FileUuid)
    (known_execs : gset ExecutionGroupUuid) : option DAGError :=
  match filter (λ f, f ∉ known_files) (set_iter (watch_files watch)) with
  | f :: _ => Some (MissingFile f "File required by a callback")
  | [] =>
      match filter (λ e, e ∉ known_execs) (set_iter (watch_executions watch)) with
      | e :: _ => Some (MissingExecution e)
      | [] => None
      end
  end.

(** The number of turns of the visit is at most the number of groups plus
    one, see [check_dag_total]. *)
Definition visit_fuel (dag : ExecutionDAGData) : nat := S (size (execution_groups dag)).

Definition check_dag (dag : ExecutionDAGData) (watch : ExecutionDAGWatchSet) :
    Outcome (Checked unit) :=
  match visit_groups visit_init (map_iter (execution_groups dag)) with
  | inl e => Ret (inl e)
  | inr v =>
      match visit_provided v (keys_iter (provided_files dag)) with
      | inl e => Ret (inl e)
      | inr v =>
          num ← visit_loop (visit_fuel dag) dag (v_dependencies v) (v_num_dependencies v)
                  (v_ready_groups v) (v_ready_files v);
          err ← unreached_error dag (v_known_files v) num;
          match err with
          | Some e => Ret (inl e)
          | None =>
              match callbacks_error watch (v_known_files v) (v_known_execs v) with
              | Some e => Ret (inl e)
              | None => Ret (inr tt)
              end
          end
      end
  end.
End check_dag.

(** ** Specification *)

(** A file is available when it is provided or produced by a group that can run;
    a group can run when all its dependencies are available. *)
Inductive available (dag : ExecutionDAGData) : FileUuid → Prop :=
  | available_provided f : is_Some (provided_files dag !! f) → available dag f
  | available_output u g f :
      execution_groups dag !! u = Some g → output_of g f → runnable dag u → available dag f
with runnable (dag : ExecutionDAGData) : ExecutionGroupUuid → Prop :=
  | runnable_intro u g :
      execution_groups dag !! u = Some g → (∀ f, dep_of g f → available dag f) → runnable dag u.

Scheme available_mind := Induction for available Sort Prop
  with runnable_mind := Induction for runnable Sort Prop.

(** [u] reads a file that [u'] writes. *)
Definition depends_on (dag : ExecutionDAGData) (u' u : ExecutionGroupUuid) : Prop :=
  ∃ g g' f, execution_groups dag !! u = Some g ∧ execution_groups dag !! u' = Some g' ∧
    dep_of g f ∧ output_of g' f.

Definition known_file (dag : ExecutionDAGData) (f : FileUuid) : Prop :=
  is_Some (provided_files dag !! f) ∨
  ∃ u g, execution_groups dag !! u = Some g ∧ output_of g f.

(** No two outputs of a group share a file. *)
Definition output_uuids_distinct (g : ExecutionGroup) : Prop :=
  NoDup (@outputs forward_order g).

(** What [check_dag] promises to the scheduler. *)
Record dag_valid (dag : ExecutionDAGData) (watch : ExecutionDAGWatchSet) : Prop := {
  valid_nonempty : map_Forall (λ _ g, executions g ≠ []) (execution_groups dag);
  valid_fifos : map_Forall (λ _ g, NoDup (fifo_uuid <$> fifo g)) (execution_groups dag);
  valid_uuids : ∀ u1 u2 g1 g2, execution_groups dag !! u1 = Some g1 →
    execution_groups dag !! u2 = Some g2 → group_uuid g1 = group_uuid g2 → u1 = u2;
  valid_outputs : map_Forall (λ _ g, output_uuids_distinct g) (execution_groups dag);
  valid_disjoint : ∀ u1 u2 g1 g2 f, execution_groups dag !! u1 = Some g1 →
    execution_groups dag !! u2 = Some g2 → output_of g1 f → output_of g2 f → u1 = u2;
  valid_provided : ∀ u g f, execution_groups dag !! u = Some g → output_of g f →
    provided_files dag !! f = None;
  valid_runnable : ∀ u, is_Some (execution_groups dag !! u) → runnable dag u;
  valid_watch_files : ∀ f, f ∈ watch_files watch → known_file dag f;
  valid_watch_executions : ∀ e, e ∈ watch_executions watch →
    ∃ u g, execution_groups dag !! u = Some g ∧ group_uuid g = e
}.

(** *** Counting: the occurrences of [x], the dependencies outside [P] *)
Definition cnt (x : N) (l : list N) : nat := length (filter (λ y, y = x) l).
Definition pending (P l : list N) : nat := length (filter (λ x, x ∉ P) l).

(** The first loop accepts the groups [l]. *)
Record groups_ok `{IterOrder} (l : list (ExecutionGroupUuid * ExecutionGroup)) : Prop := {
  ok_nonempty : ∀ p, p ∈ l → executions p.2 ≠ [];
  ok_fifos : ∀ p, p ∈ l → NoDup (fifo_uuid <$> fifo p.2);
  ok_uuids : NoDup ((λ p, group_uuid p.2) <$> l);
  ok_outputs : NoDup (l ≫= λ p, outputs p.2)
}.

(** What an error of [check_dag] says about the DAG. *)
Definition error_reason `{IterOrder} (dag : ExecutionDAGData) (watch : ExecutionDAGWatchSet)
    (e : DAGError) : Prop :=
  match e with
  | EmptyGroup u => ∃ g, execution_groups dag !! u = Some g ∧ executions g = []
  | DuplicateFifoUUID f => ∃ u g, execution_groups dag !! u = Some g ∧
      2 ≤ cnt f (fifo_uuid <$> fifo g)
  | DuplicateExecutionUUID x =>
      2 ≤ cnt x ((λ p, group_uuid p.2) <$> map_iter (execution_groups dag))
  | DuplicateFileUUID f =>
      2 ≤ cnt f (keys_iter (provided_files dag)
        ++ (map_iter (execution_groups dag) ≫= λ p, outputs p.2))
  | MissingFile f _ => ¬ known_file dag f ∧
      (f ∈ watch_files watch ∨ ∃ u g, execution_groups dag !! u = Some g ∧ dep_of g f)
  | MissingExecution x => x ∈ watch_executions watch ∧
      ¬ ∃ u g, execution_groups dag !! u = Some g ∧ group_uuid g = x
  | CycleDetected d => ∃ u g, execution_groups dag !! u = Some g ∧ group_description g = d ∧
      ¬ runnable dag u
  end.

(** The errors of the first loop, for the groups [l]. *)
Definition error_in `{IterOrder} (l : list (ExecutionGroupUuid * ExecutionGroup))
    (e : DAGError) : Prop :=
  match e with
  | EmptyGroup u => ∃ g, (u, g) ∈ l ∧ executions g = []
  | DuplicateFifoUUID f => ∃ u g, (u, g) ∈ l ∧ 2 ≤ cnt f (fifo_uuid <$> fifo g)
  | DuplicateExecutionUUID x => 2 ≤ cnt x ((λ p, group_uuid p.2) <$> l)
  | DuplicateFileUUID f => 2 ≤ cnt f (l ≫= λ p, outputs p.2)
  | _ => False
  end.

(** ** Lemmas on counting *)
Lemma cnt_cons x y l : cnt x (y :: l) = (if decide (y = x) then 1 else 0) + cnt x l.
Proof. unfold cnt. rewrite filter_cons. by destruct (decide (y = x)). Qed.

Lemma cnt_app x l k : cnt x (l ++ k) = cnt x l + cnt x k.
Proof. unfold cnt. by rewrite filter_app, length_app. Qed.

Lemma cnt_not_elem x l : x ∉ l → cnt x l = 0.
Proof.
  induction l as [|y l IH]; [done|]. rewrite cnt_cons. intros Hx.
  destruct (decide (y = x)); [set_solver|]. apply IH. set_solver.
Qed.

Lemma cnt_elem x l : x ∈ l → cnt x l ≠ 0.
Proof.
  induction l as [|y l IH]; [set_solver|]. rewrite cnt_cons. intros Hx.
  destruct (decide (y = x)); [lia|]. apply IH. set_solver.
Qed.

Lemma pending_nil l : pending [] l = length l.
Proof.
  unfold pending. induction l as [|x l IH]; [done|].
  rewrite filter_cons_True by set_solver. cbn [length]. by rewrite IH.
Qed.

Lemma pending_snoc P f l : f ∉ P → pending P l = pending (P ++ [f]) l + cnt f l.
Proof.
  unfold pending. intros Hf. induction l as [|x l IH]; [done|]. rewrite cnt_cons.
  destruct (decide (x ∈ P)).
  - rewrite !filter_cons_False by set_solver. destruct (decide (x = f)); [by subst|]. lia.
  - rewrite filter_cons_True by done. destruct (decide (x = f)).
    + rewrite (filter_cons_False _ x) by set_solver. cbn [length]. lia.
    + rewrite (filter_cons_True _ x) by set_solver. cbn [length]. lia.
Qed.

Lemma pending_0 P l : pending P l = 0 ↔ ∀ x, x ∈ l → x ∈ P.
Proof.
  unfold pending. rewrite length_zero_iff_nil. split.
  - intros Hn x Hx. destruct (decide (x ∈ P)) as [|Hd]; [done|].
    assert (x ∈ filter (λ y, y ∉ P) l) as Hf by (by apply list_elem_of_filter).
    rewrite Hn in Hf. by apply elem_of_nil in Hf.
  - intros Hl. apply elem_of_nil_inv. intros x [? ?]%list_elem_of_filter. auto.
Qed.

Lemma NoDup_bind_iff {A B} (f : A → list B) l :
  NoDup l →
  NoDup (l ≫= f) ↔
    (∀ x, x ∈ l → NoDup (f x)) ∧
    (∀ x y b, x ∈ l → y ∈ l → b ∈ f x → b ∈ f y → x = y).
Proof.
  intros Hl. split; [|intros [? ?]; by apply NoDup_bind].
  induction l as [|x l IH]; [set_solver|]. cbn. apply NoDup_cons in Hl as [Hx Hl].
  intros (Hfx & Hd & Hr)%NoDup_app. destruct (IH Hl Hr) as [H1 H2].
  assert (∀ y b, y ∈ l → b ∈ f x → b ∈ f y → False) as Hxy.
  { intros y b Hy Hb1 Hb2. apply (Hd b Hb1), list_elem_of_bind. eauto. }
  split.
  - intros y [->|]%elem_of_cons; auto.
  - intros y z b [->|?]%elem_of_cons [->|?]%elem_of_cons ??; try done; [by destruct (Hxy z b)
      |by destruct (Hxy y b)|eauto].
Qed.

Lemma first_duplicate_None seen l :
  first_duplicate seen l = None ↔ NoDup l ∧ ∀ x, x ∈ l → x ∉ seen.
Proof.
  revert seen. induction l as [|x l IH]; intros seen; simpl.
  { split; [|done]. intros _. split; [constructor|set_solver]. }
  rewrite NoDup_cons. destruct (decide (x ∈ seen)); [set_solver|].
  rewrite IH. set_solver.
Qed.

Lemma first_duplicate_Some seen l x :
  first_duplicate seen l = Some x → ∃ l1 l2, l = l1 ++ x :: l2 ∧ (x ∈ seen ∨ x ∈ l1).
Proof.
  revert seen. induction l as [|y l IH]; intros seen; simpl; [done|].
  destruct (decide (y ∈ seen)).
  - intros [= ->]. exists [], l. auto.
  - intros (l1 & l2 & -> & Hx)%IH. exists (y :: l1), l2. set_solver.
Qed.

Lemma NoDup_cnt x l : NoDup l → cnt x l ≤ 1.
Proof.
  induction l as [|y l IH]; [unfold cnt; simpl; lia|]. rewrite NoDup_cons, cnt_cons. intros [Hy Hl].
  destruct (decide (y = x)) as [->|]; [|by apply IH]. rewrite cnt_not_elem by done. lia.
Qed.

Lemma cnt_perm x l k : l ≡ₚ k → cnt x l = cnt x k.
Proof. intros Hlk. unfold cnt. by rewrite Hlk. Qed.

Lemma first_duplicate_cnt seen l x :
  first_duplicate seen l = Some x → x ∈ l ∧ (x ∈ seen ∨ 2 ≤ cnt x l).
Proof.
  intros (l1 & l2 & -> & Hx)%first_duplicate_Some. split; [set_solver|].
  destruct Hx as [?|Hx%cnt_elem]; [by left|]. right.
  rewrite cnt_app, cnt_cons, decide_True by done. lia.
Qed.

(** ** The first loop *)
Section first_loop.
Context `{IterOrder}.
Implicit Types (acc l : list (ExecutionGroupUuid * ExecutionGroup)).

(** The groups are those without pending dependencies. *)
Definition ready_ok (num : gmap ExecutionGroupUuid nat) (rs : list ExecutionGroupUuid) : Prop :=
  NoDup rs ∧ ∀ u, u ∈ rs ↔ num !! u = Some 0.

(** The state of the loop after the groups [acc], the last one first. *)
Record seen acc (v : Visit) : Prop := {
  seen_deps : ∀ f u, cnt u (default [] (v_dependencies v !! f)) =
    match (list_to_map acc : gmap _ _) !! u with
    | Some g => cnt f (dependencies g) | None => 0 end;
  seen_num : ∀ u, v_num_dependencies v !! u =
    (λ g, length (dependencies g)) <$> (list_to_map acc : gmap _ _) !! u;
  seen_files : ∀ f, f ∈ v_known_files v ↔ f ∈ acc ≫= λ p, outputs p.2;
  seen_execs : ∀ x, x ∈ v_known_execs v ↔ x ∈ (λ p, group_uuid p.2) <$> acc;
  seen_ready : ready_ok (v_num_dependencies v) (v_ready_groups v);
  seen_nofiles : v_ready_files v = []
}.

Lemma groups_ok_perm l l' : l ≡ₚ l' → groups_ok l → groups_ok l'.
Proof. intros Hl []. split; by setoid_rewrite <-Hl. Qed.

Lemma error_in_not_ok l e : error_in l e → ¬ groups_ok l.
Proof.
  intros He []. destruct e; simpl in He; try done.
  - pose proof (NoDup_cnt uuid _ ok_outputs0). lia.
  - destruct He as (u & g & Hg & ?). pose proof (NoDup_cnt uuid _ (ok_fifos0 _ Hg)). simpl in *. lia.
  - pose proof (NoDup_cnt uuid _ ok_uuids0). lia.
  - destruct He as (g & Hg & ?). by apply (ok_nonempty0 _ Hg).
Qed.

Lemma error_in_perm l l' e : l ≡ₚ l' → error_in l e → error_in l' e.
Proof.
  intros Hl. destruct e; simpl; try done.
  - by rewrite (cnt_perm _ _ _ (bind_Permutation _ _ _ Hl)).
  - by setoid_rewrite Hl.
  - by rewrite (cnt_perm _ _ _ (fmap_Permutation _ _ _ Hl)).
  - by setoid_rewrite Hl.
Qed.

Lemma error_in_app l l' e : error_in l e → error_in (l ++ l') e.
Proof.
  destruct e; simpl; try done.
  - rewrite bind_app, cnt_app. lia.
  - set_solver.
  - rewrite fmap_app, cnt_app. lia.
  - set_solver.
Qed.

Lemma cnt_add_dependencies u f uuid deps (m : gmap FileUuid (list ExecutionGroupUuid)) :
  cnt u (default [] (foldl (λ m dep, add_dependency dep uuid m) m deps !! f)) =
  cnt u (default [] (m !! f)) + (if decide (uuid = u) then cnt f deps else 0).
Proof.
  revert m. induction deps as [|d deps IH]; intros m; simpl.
  { destruct (decide _); unfold cnt; simpl; lia. }
  rewrite IH. unfold add_dependency at 1. rewrite lookup_insert, (cnt_cons f).
  destruct (decide (d = f)) as [->|].
  - simpl. rewrite cnt_app, cnt_cons. unfold cnt at 2. simpl. destruct (decide (uuid = u)); lia.
  - destruct (decide (uuid = u)); lia.
Qed.

Lemma ready_ok_insert num rs u n :
  ready_ok num rs → num !! u = None →
  ready_ok (<[u:=n]> num) (rs ++ if decide (n = 0) then [u] else []).
Proof.
  intros [Hnd Hz] Hu. assert (u ∉ rs) by (rewrite Hz, Hu; done). split.
  - apply NoDup_app. split; [done|]. destruct (decide (n = 0)); [|set_solver by constructor].
    split; [set_solver|apply NoDup_singleton].
  - intros u'. rewrite elem_of_app, Hz, lookup_insert.
    destruct (decide (u = u')) as [->|]; destruct (decide (n = 0)); set_solver.
Qed.

Lemma visit_group_spec acc v p :
  seen acc v → groups_ok acc → p.1 ∉ acc.*1 →
  match visit_group v p with
  | inr v' => seen (p :: acc) v' ∧ groups_ok (p :: acc)
  | inl e => error_in (p :: acc) e
  end.
Proof.
  intros [Hdeps Hnum Hfiles Hexecs Hready Hnof] [Hne Hff Huu Hout] Hfresh.
  assert ((list_to_map acc : gmap _ _) !! p.1 = None) as Hnone
    by by apply not_elem_of_list_to_map_1.
  destruct p as [uuid group]. unfold visit_group. simpl in Hnone.
  destruct (bool_decide_reflect (executions group = [])) as [He|He].
  { exists group. set_solver. }
  destruct (first_duplicate ∅ _) as [f|] eqn:Hfifo.
  { apply first_duplicate_cnt in Hfifo as [_ [?|?]]; [set_solver|].
    exists uuid, group. set_solver. }
  apply first_duplicate_None in Hfifo as [Hfifo _].
  destruct (decide (group_uuid group ∈ v_known_execs v)) as [Hx|Hx].
  { apply Hexecs, cnt_elem in Hx. unfold error_in.
    rewrite fmap_cons, cnt_cons, decide_True by done. lia. }
  destruct (first_duplicate (v_known_files v) _) as [f|] eqn:Hf.
  { apply first_duplicate_cnt in Hf as [Hin Hf]. unfold error_in. rewrite bind_cons, cnt_app.
    simpl. destruct Hf as [Hf%Hfiles%cnt_elem|]; [|lia]. apply cnt_elem in Hin. lia. }
  apply first_duplicate_None in Hf as [Hndo Hdis]. split; [split|split]; simpl.
  - intros f u. rewrite cnt_add_dependencies, Hdeps, lookup_insert.
    destruct (decide (uuid = u)) as [->|]; [by rewrite Hnone|lia].
  - intros u. rewrite !lookup_insert, Hnum. by destruct (decide (uuid = u)).
  - intros f. rewrite elem_of_union, elem_of_list_to_set, Hfiles, elem_of_app. tauto.
  - intros x. rewrite elem_of_union, elem_of_singleton, Hexecs, elem_of_cons. tauto.
  - apply ready_ok_insert; [done|]. by rewrite Hnum, Hnone.
  - done.
  - intros q [->|?]%elem_of_cons; auto.
  - intros q [->|?]%elem_of_cons; auto.
  - constructor; [by rewrite <-Hexecs|done].
  - apply NoDup_app. split_and!; [done| |done]. intros f Hfo Hfa. by apply (Hdis f), Hfiles.
Qed.

Lemma visit_groups_spec acc v l :
  seen acc v → groups_ok acc → NoDup ((reverse acc ++ l).*1) →
  match visit_groups v l with
  | inr v' => seen (reverse l ++ acc) v' ∧ groups_ok (reverse l ++ acc)
  | inl e => error_in (reverse l ++ acc) e
  end.
Proof.
  revert acc v. induction l as [|p l IH]; intros acc v Hs Hok Hnd; [done|]. simpl.
  pose proof (visit_group_spec acc v p Hs Hok) as Hp.
  rewrite reverse_cons, <-(assoc_L (++)). simpl.
  destruct (visit_group v p) as [e|v'].
  - eapply error_in_perm; [by rewrite Permutation_app_comm|]. apply error_in_app, Hp.
    rewrite fmap_app, fmap_reverse in Hnd. apply NoDup_app in Hnd as (_ & Hd & _).
    intros Hin. apply (Hd p.1); [by rewrite elem_of_reverse|]. set_solver.
  - destruct Hp as [Hs' Hok'].
    { rewrite fmap_app, fmap_reverse in Hnd. apply NoDup_app in Hnd as (_ & Hd & _).
      intros Hin. apply (Hd p.1); [by rewrite elem_of_reverse|]. set_solver. }
    apply (IH (p :: acc) v' Hs' Hok'). by rewrite reverse_cons, <-(assoc_L (++)).
Qed.

Lemma seen_init : seen [] visit_init.
Proof. split; try done; try set_solver. split; [constructor|set_solver]. Qed.

Lemma groups_ok_nil : groups_ok [].
Proof. split; try set_solver; constructor. Qed.
End first_loop.

(** ** The visit *)
Section visit.
Context `{IterOrder}.
Implicit Types (num : gmap ExecutionGroupUuid nat) (drained ready gs : list ExecutionGroupUuid).

Lemma release_all_spec drained gs num ready :
  (∀ u, u ∈ gs → ∃ n, num !! u = Some n ∧ cnt u gs ≤ n) →
  ready_ok num (drained ++ ready) →
  ∃ num' ready', release_all num ready gs = Ret (num', ready') ∧
    (∀ u, num' !! u = (λ n, n - cnt u gs) <$> num !! u) ∧
    ready_ok num' (drained ++ ready').
Proof.
  revert num ready. induction gs as [|g gs IH]; intros num ready Hn Hok.
  { exists num, ready. split; [done|]. split; [|done]. intros u.
    destruct (num !! u); simpl; [|done]. f_equal. unfold cnt. simpl. lia. }
  destruct (Hn g) as (n & Hg & Hle); [set_solver|].
  rewrite cnt_cons, decide_True in Hle by done. destruct n as [|n]; [lia|].
  destruct Hok as [Hnd Hz].
  assert (g ∉ drained ++ ready) as Hgn by (rewrite Hz, Hg; congruence).
  assert (ready_ok (<[g:=n]> num) (drained ++ (ready ++ if decide (n = 0) then [g] else [])))
    as Hok'.
  { rewrite (assoc_L _). split.
    - apply NoDup_app. split; [done|]. destruct (decide (n = 0)); [|set_solver by constructor].
      split; [set_solver|apply NoDup_singleton].
    - intros u. rewrite elem_of_app, Hz, lookup_insert.
      destruct (decide (g = u)) as [->|]; destruct (decide (n = 0)); set_solver. }
  destruct (IH (<[g:=n]> num) (ready ++ if decide (n = 0) then [g] else []))
    as (num' & ready' & Hrel & Hnum & Hok''); [|done|].
  { intros u Hu. destruct (Hn u) as (m & Hm & Hmle); [set_solver|].
    rewrite cnt_cons in Hmle. rewrite lookup_insert.
    destruct (decide (g = u)) as [->|]; [|eauto].
    eexists; split; [done|]. simplify_eq. lia. }
  exists num', ready'. split; [|split; [|done]].
  - cbn. unfold release. rewrite Hg. cbn. exact Hrel.
  - intros u. rewrite Hnum, lookup_insert, cnt_cons.
    destruct (decide (g = u)) as [->|]; [rewrite Hg; simpl; f_equal; lia|].
    destruct (num !! u); simpl; [f_equal; lia|done].
Qed.

Variable dag : ExecutionDAGData.

Definition deps_ok (deps : gmap FileUuid (list ExecutionGroupUuid)) : Prop :=
  ∀ f u, cnt u (default [] (deps !! f)) =
    match execution_groups dag !! u with Some g => cnt f (dependencies g) | None => 0 end.

(** [num] counts the dependencies outside the drained files [P]. *)
Definition num_ok (P : list FileUuid) num : Prop :=
  ∀ u, num !! u = (λ g, pending P (dependencies g)) <$> execution_groups dag !! u.

Lemma drain_files_spec deps drained P l num ready :
  deps_ok deps → num_ok P num → NoDup (P ++ l) → ready_ok num (drained ++ ready) →
  ∃ num' ready', drain_files deps num ready l = Ret (num', ready') ∧
    num_ok (P ++ l) num' ∧ ready_ok num' (drained ++ ready').
Proof.
  intros Hdeps. revert P num ready. induction l as [|f l IH]; intros P num ready Hnum Hnd Hok.
  { exists num, ready. by rewrite (right_id_L [] _). }
  assert (f ∉ P) as HfP by (apply NoDup_app in Hnd as (_ & Hd & _); set_solver).
  assert (∃ num' ready', match deps !! f with None => Ret (num, ready)
      | Some gs => release_all num ready gs end = Ret (num', ready') ∧
      num_ok (P ++ [f]) num' ∧ ready_ok num' (drained ++ ready'))
    as (num' & ready' & Hrel & Hnum' & Hok').
  { destruct (deps !! f) as [gs|] eqn:Hf.
    - assert (∀ u, cnt u gs = match execution_groups dag !! u with
          Some g => cnt f (dependencies g) | None => 0 end) as Hgs.
      { intros u. by rewrite <-Hdeps, Hf. }
      destruct (release_all_spec drained gs num ready) as (num' & ready' & Hrel & Hn' & Hok');
        [|done|].
      + intros u Hu%cnt_elem. rewrite Hgs, Hnum in *.
        destruct (execution_groups dag !! u) as [g|]; [|done].
        eexists; split; [done|]. rewrite (pending_snoc P f) by done. lia.
      + exists num', ready'. split_and!; [done| |done]. intros u. rewrite Hn', Hnum, Hgs.
        destruct (execution_groups dag !! u) as [g|]; simpl; [|done].
        rewrite (pending_snoc P f) by done. f_equal. lia.
    - exists num, ready. split_and!; [done| |done]. intros u. rewrite Hnum.
      specialize (Hdeps f u). rewrite Hf in Hdeps. cbn in Hdeps.
      destruct (execution_groups dag !! u) as [g|]; simpl; [|done].
      rewrite (pending_snoc P f) by done. f_equal. unfold cnt in *. simpl in *. lia. }
  destruct (IH (P ++ [f]) num' ready') as (num2 & ready2 & Hdr & ? & ?); [done| |done|].
  { by rewrite <-(assoc_L _). }
  exists num2, ready2. split; [|by rewrite cons_middle, (assoc_L (++))].
  cbn. destruct (deps !! f); [|by simplify_eq]. by rewrite Hrel.
Qed.

Definition outputs_of (u : ExecutionGroupUuid) : list FileUuid :=
  default [] (outputs <$> execution_groups dag !! u).

Lemma drain_groups_spec l :
  (∀ u, u ∈ l → is_Some (execution_groups dag !! u)) →
  drain_groups dag l = Ret (l ≫= outputs_of).
Proof.
  intros Hl. unfold drain_groups.
  enough (∃ gs : list ExecutionGroup, try_map (λ u, unwrap "No such exec group" (execution_groups dag !! u)) l = Ret gs
    ∧ gs ≫= outputs = l ≫= outputs_of) as (gs & -> & Hgs) by (cbn; by f_equal).
  induction l as [|u l IH]; [by exists []|].
  destruct (Hl u) as [g Hg]; [set_solver|]. destruct IH as (gs & Hgs & Heq); [set_solver|].
  exists (g :: gs). split; [simpl; by rewrite Hg, Hgs|]. rewrite !bind_cons, Heq.
  unfold outputs_of at 2. by rewrite Hg.
Qed.

(** The state between two turns of the [while]: the groups of [drained] have
    been run, the files of [P] and of [files] are theirs or provided. *)
Record visit_inv (P : list FileUuid) drained num ready (files : list FileUuid) : Prop := {
  vi_num : num_ok P num;
  vi_ready : ready_ok num (drained ++ ready);
  vi_files : P ++ files ≡ₚ keys_iter (provided_files dag) ++ (drained ≫= outputs_of);
  vi_available : ∀ f, f ∈ P ++ files → available dag f
}.

Lemma runnable_of_num P num u :
  num_ok P num → (∀ f, f ∈ P → available dag f) → num !! u = Some 0 → runnable dag u.
Proof.
  intros Hnum HP. rewrite Hnum. destruct (execution_groups dag !! u) as [g|] eqn:Hg; [|done].
  intros [= Hz]. rewrite pending_0 in Hz. econstructor; [done|]. intros f Hf.
  apply HP, Hz. by apply elem_of_dependencies.
Qed.

Lemma ready_ok_bound P num rs :
  num_ok P num → ready_ok num rs → length rs ≤ size (execution_groups dag).
Proof.
  intros Hnum [Hnd Hz]. rewrite <-size_dom, <-(size_list_to_set (C := gset N) rs) by done.
  apply subseteq_size. intros u. rewrite elem_of_list_to_set, Hz, Hnum, elem_of_dom.
  destruct (execution_groups dag !! u); [eauto|done].
Qed.

Hypothesis Hdisjoint :
  NoDup (keys_iter (provided_files dag) ++ (keys_iter (execution_groups dag) ≫= outputs_of)).

Lemma files_NoDup P num rs :
  num_ok P num → ready_ok num rs →
  NoDup (keys_iter (provided_files dag) ++ (rs ≫= outputs_of)).
Proof.
  intros Hnum [Hnd Hz].
  assert (∀ u, u ∈ rs → u ∈ keys_iter (execution_groups dag)) as Hsub.
  { intros u Hu%Hz. rewrite elem_of_keys_iter. rewrite Hnum in Hu.
    destruct (execution_groups dag !! u); [eauto|done]. }
  apply NoDup_app in Hdisjoint as (H1 & H2 & H3).
  apply NoDup_bind_iff in H3 as [H3 H4]; [|apply NoDup_keys_iter].
  apply NoDup_app. split_and!; [done| |].
  - intros f Hf (u & Hfu & Hu)%list_elem_of_bind. apply (H2 f Hf), list_elem_of_bind. eauto.
  - apply NoDup_bind_iff; [done|]. split; eauto.
Qed.

Lemma visit_turn deps P drained num ready files :
  deps_ok deps → visit_inv P drained num ready files →
  ∃ num' ready', drain_files deps num ready files = Ret (num', ready') ∧
    drain_groups dag ready' = Ret (ready' ≫= outputs_of) ∧
    visit_inv (P ++ files) (drained ++ ready') num' [] (ready' ≫= outputs_of).
Proof.
  intros Hdeps [Hnum Hok Hf Hav].
  destruct (drain_files_spec deps drained P files num ready) as (num' & ready' & Hd & Hnum' & Hok');
    [done|done| |done|].
  { rewrite Hf. pose proof (files_NoDup P num _ Hnum Hok) as Hnd.
    rewrite bind_app, (assoc_L _) in Hnd. by apply NoDup_app in Hnd as [? _]. }
  assert (∀ u, u ∈ drained ++ ready' → runnable dag u) as Hrun.
  { intros u Hu%Hok'. by eapply runnable_of_num. }
  exists num', ready'. split; [done|]. split.
  { apply drain_groups_spec. intros u Hu. destruct (Hrun u); [set_solver|]. eauto. }
  split; [done|by rewrite (right_id_L [] _)| |].
  - by rewrite bind_app, (assoc_L _), Hf.
  - intros f [Hfl|(u & Hfu & Hu)%list_elem_of_bind]%elem_of_app; [by apply Hav|].
    unfold outputs_of in Hfu. destruct (Hrun u) as [u g Hg]; [set_solver|].
    rewrite Hg in Hfu. eapply available_output; [done|by apply elem_of_outputs|].
    apply Hrun. set_solver.
Qed.

Lemma visit_loop_spec deps fuel P drained num ready files :
  deps_ok deps → visit_inv P drained num ready files →
  ready = [] ∧ files = [] ∨ size (execution_groups dag) < fuel + length drained →
  ∃ P' drained' num', visit_loop fuel dag deps num ready files = Ret num' ∧
    visit_inv P' drained' num' [] [].
Proof.
  intros Hdeps. revert P drained num ready files.
  induction fuel as [|fuel IH]; intros P drained num ready files Hinv Hfuel.
  { destruct Hfuel as [[-> ->]|Hfuel]; [by exists P, drained, num|].
    pose proof (ready_ok_bound _ _ _ (vi_num _ _ _ _ _ Hinv) (vi_ready _ _ _ _ _ Hinv)) as Hb.
    rewrite length_app in Hb. lia. }
  destruct (decide (ready = [] ∧ files = [])) as [[-> ->]|Hne]; [by exists P, drained, num|].
  destruct (visit_turn deps P drained num ready files) as (num' & ready' & Hd & Hg & Hinv');
    [done..|].
  destruct (IH (P ++ files) (drained ++ ready') num' [] (ready' ≫= outputs_of))
    as (P2 & drained2 & num2 & Hl & Hinv2); [done| |].
  { destruct ready' as [|r ready']; [by left|]. right. rewrite length_app. simpl.
    destruct Hfuel as [?|?]; [done|]. lia. }
  exists P2, drained2, num2. split; [|done].
  assert (visit_loop (S fuel) dag deps num ready files =
    '(num', ready) ← drain_files deps num ready files;
    files ← drain_groups dag ready; visit_loop fuel dag deps num' [] files) as ->
    by (destruct ready, files; tauto).
  rewrite Hd. cbn. by rewrite Hg.
Qed.

(** At the end of the visit the groups without pending dependencies are
    exactly those that can run. *)
Lemma visit_end P drained num u :
  visit_inv P drained num [] [] → num !! u = Some 0 ↔ runnable dag u.
Proof.
  intros [Hnum Hok Hf Hav]. rewrite (right_id_L [] _) in *. split.
  { by apply (runnable_of_num P). }
  intros Hu. revert u Hu.
  apply (runnable_mind dag (λ f _, f ∈ P) (λ u _, num !! u = Some 0)).
  - intros f Hp. rewrite Hf, elem_of_app, elem_of_keys_iter. by left.
  - intros u g f Hg Ho _ Hz%Hok. rewrite Hf, elem_of_app, list_elem_of_bind. right.
    exists u. split; [|done]. unfold outputs_of. rewrite Hg. by apply elem_of_outputs.
  - intros u g Hg _ HP. rewrite Hnum, Hg. simpl. f_equal. apply pending_0.
    intros f Hfd. by apply HP, elem_of_dependencies.
Qed.
End visit.

(** ** The whole function *)
Lemma bind_perm_ext {A B} (f g : A → list B) l : (∀ x, f x ≡ₚ g x) → l ≫= f ≡ₚ l ≫= g.
Proof. intros Hfg. induction l as [|x l IH]; [done|]. by rewrite !bind_cons, IH, Hfg. Qed.

Lemma outputs_perm (o1 o2 : IterOrder) g : @outputs o1 g ≡ₚ @outputs o2 g.
Proof.
  apply bind_perm_ext. intros e. unfold execution_outputs.
  do 2 f_equiv. unfold values_iter. by rewrite !map_iter_perm.
Qed.

Lemma outputs_NoDup `{IterOrder} g : output_uuids_distinct g ↔ NoDup (outputs g).
Proof. unfold output_uuids_distinct. by rewrite (outputs_perm forward_order _). Qed.

Section whole.
Context `{IterOrder}.

Lemma visit_provided_spec v l :
  NoDup l →
  match visit_provided v l with
  | inr v' => v_dependencies v' = v_dependencies v ∧
      v_num_dependencies v' = v_num_dependencies v ∧
      v_known_execs v' = v_known_execs v ∧ v_ready_groups v' = v_ready_groups v ∧
      v_ready_files v' = v_ready_files v ++ l ∧
      (∀ f, f ∈ v_known_files v' ↔ f ∈ l ∨ f ∈ v_known_files v) ∧
      (∀ f, f ∈ l → f ∉ v_known_files v)
  | inl e => ∃ f, e = DuplicateFileUUID f ∧ f ∈ l ∧ f ∈ v_known_files v
  end.
Proof.
  revert v. induction l as [|f l IH]; intros v Hnd; simpl.
  { rewrite (right_id_L [] _). set_solver. }
  apply NoDup_cons in Hnd as [Hf Hnd]. destruct (decide (f ∈ v_known_files v)); [set_solver|].
  set (v1 := mkVisit _ _ _ _ _ _). specialize (IH v1 Hnd).
  destruct (visit_provided v1 l) as [e|v'].
  - destruct IH as (f' & -> & ? & Hk). simpl in Hk. exists f'. set_solver.
  - destruct IH as (-> & -> & -> & -> & -> & Hk & Hn). simpl in *.
    split_and!; try done; [by rewrite <-(assoc_L (++))|set_solver|set_solver].
Qed.

Variables (dag : ExecutionDAGData) (watch : ExecutionDAGWatchSet).
Let G := map_iter (execution_groups dag).

Lemma groups_outputs :
  G ≫= (λ p, outputs p.2) = keys_iter (execution_groups dag) ≫= outputs_of dag.
Proof.
  unfold keys_iter. fold G. rewrite list_fmap_bind. apply Forall_bind_ext, Forall_forall.
  intros [u g] Hg%elem_of_map_iter. simpl. unfold outputs_of. by rewrite Hg.
Qed.

Lemma elem_of_G u g : (u, g) ∈ G ↔ execution_groups dag !! u = Some g.
Proof. apply elem_of_map_iter. Qed.

Lemma elem_of_G_outputs f :
  f ∈ G ≫= (λ p, outputs p.2) ↔
  ∃ u g, execution_groups dag !! u = Some g ∧ output_of g f.
Proof.
  rewrite list_elem_of_bind. setoid_rewrite <-elem_of_outputs. setoid_rewrite <-elem_of_G.
  split; [intros ([u g] & ? & ?); by exists u, g|intros (u & g & ? & ?); by exists (u, g)].
Qed.

Lemma G_lookup u : (list_to_map (reverse G) : gmap _ _) !! u = execution_groups dag !! u.
Proof.
  assert (list_to_map (reverse G) = execution_groups dag) as ->; [|done].
  rewrite <-(list_to_map_to_list (execution_groups dag)).
  apply list_to_map_proper.
  - rewrite fmap_reverse. unfold G. rewrite reverse_Permutation. apply NoDup_keys_iter.
  - by rewrite reverse_Permutation, <-map_iter_perm.
Qed.

Lemma groups_ok_valid :
  dag_valid dag watch → groups_ok G.
Proof.
  intros []. split.
  - intros [u g] Hg%elem_of_G. by apply (valid_nonempty0 u g).
  - intros [u g] Hg%elem_of_G. by apply (valid_fifos0 u g).
  - apply NoDup_fmap_2_strong.
    + intros [u1 g1] [u2 g2] H1%elem_of_G H2%elem_of_G Hu.
      assert (u1 = u2) as -> by eauto. congruence.
    + apply (NoDup_fmap_1 fst), NoDup_keys_iter.
  - apply NoDup_bind_iff; [apply (NoDup_fmap_1 fst), NoDup_keys_iter|]. split.
    + intros [u g] Hg%elem_of_G. apply outputs_NoDup. by apply (valid_outputs0 u g).
    + intros [u1 g1] [u2 g2] f H1%elem_of_G H2%elem_of_G Ho1%elem_of_outputs Ho2%elem_of_outputs.
      assert (u1 = u2) as -> by eauto. simpl in *. congruence.
Qed.

Lemma files_valid :
  dag_valid dag watch → NoDup (keys_iter (provided_files dag) ++ (G ≫= λ p, outputs p.2)).
Proof.
  intros Hv. pose proof (ok_outputs _ (groups_ok_valid Hv)). destruct Hv.
  apply NoDup_app. split_and!; [apply NoDup_keys_iter| |done].
  intros f [p Hp]%elem_of_keys_iter (u & g & Hg & Ho)%elem_of_G_outputs.
  rewrite (valid_provided0 u g f) in Hp; done.
Qed.

Lemma error_reason_invalid e : error_reason dag watch e → ¬ dag_valid dag watch.
Proof.
  intros He Hv. destruct e as [f d|x|d|f|f|x|u]; simpl in He.
  - destruct Hv. destruct He as [Hn [Hf|(u & g & Hg & Hf)]]; [by auto|].
    destruct (valid_runnable0 u) as [u g' Hg' Hdeps]; [eauto|]. simplify_eq.
    destruct (Hdeps f Hf) as [f ?|u' g'' f ???]; apply Hn; [by left|right; eauto].
  - destruct Hv. naive_solver.
  - destruct Hv. destruct He as (u & g & Hg & _ & Hn). eauto.
  - pose proof (NoDup_cnt f _ (files_valid Hv)). fold G in He. lia.
  - destruct Hv. destruct He as (u & g & Hg & ?).
    pose proof (NoDup_cnt f _ (valid_fifos0 u g Hg)). lia.
  - pose proof (NoDup_cnt x _ (ok_uuids _ (groups_ok_valid Hv))). fold G in He. lia.
  - destruct Hv, He as (g & Hg & ?). by apply (valid_nonempty0 u g).
Qed.

Lemma error_in_reason e : error_in G e → error_reason dag watch e.
Proof.
  destruct e; simpl; try done.
  - fold G. rewrite cnt_app. lia.
  - by setoid_rewrite elem_of_G.
  - by setoid_rewrite elem_of_G.
Qed.

(** The state before the visit. *)
Lemma visit_start v v' :
  seen (reverse G) v → groups_ok (reverse G) →
  visit_provided v (keys_iter (provided_files dag)) = inr v' →
  deps_ok dag (v_dependencies v') ∧
  visit_inv dag [] [] (v_num_dependencies v') (v_ready_groups v') (v_ready_files v') ∧
  NoDup (keys_iter (provided_files dag) ++ (keys_iter (execution_groups dag) ≫= outputs_of dag)) ∧
  (∀ f, f ∈ v_known_files v' ↔ known_file dag f) ∧
  (∀ x, x ∈ v_known_execs v' ↔ ∃ u g, execution_groups dag !! u = Some g ∧ group_uuid g = x).
Proof.
  intros [Hdeps Hnum Hfiles Hexecs Hready Hnof] Hok Hp.
  pose proof (visit_provided_spec v (keys_iter (provided_files dag)) (NoDup_keys_iter _)) as Hs.
  rewrite Hp in Hs. destruct Hs as (-> & -> & -> & -> & -> & Hk & Hn). rewrite Hnof in *.
  assert (∀ f, f ∈ reverse G ≫= (λ p, outputs p.2) ↔ f ∈ G ≫= (λ p, outputs p.2)) as Hrev.
  { intros f. by rewrite (bind_Permutation _ _ _ (reverse_Permutation G)). }
  split_and!.
  - intros f u. by rewrite Hdeps, G_lookup.
  - split; [| done | by rewrite (right_id_L [] _) |].
    + intros u. rewrite Hnum, G_lookup. destruct (execution_groups dag !! u); simpl; [|done].
      by rewrite pending_nil.
    + intros f Hf%elem_of_keys_iter. by apply available_provided.
  - apply NoDup_app. split_and!; [apply NoDup_keys_iter| |].
    + intros f Hf. rewrite <-groups_outputs, <-Hrev, <-Hfiles. by apply Hn.
    + rewrite <-groups_outputs. apply (groups_ok_perm _ G (reverse_Permutation G)), Hok.
  - intros f. rewrite Hk, Hfiles, Hrev, elem_of_G_outputs, elem_of_keys_iter. done.
  - intros x. rewrite Hexecs, reverse_Permutation, list_elem_of_fmap. split.
    + intros ([u g] & -> & Hg%elem_of_G). eauto.
    + intros (u & g & Hg%elem_of_G & <-). by exists (u, g).
Qed.

Lemma unreached_error_spec known num P :
  num_ok dag P num →
  (∀ u, num !! u = Some 0 ↔ runnable dag u) →
  (∀ f, f ∈ known ↔ known_file dag f) →
  ∃ r, unreached_error dag known num = Ret r ∧
    match r with
    | Some e => error_reason dag watch e
    | None => ∀ u, is_Some (execution_groups dag !! u) → runnable dag u
    end.
Proof.
  intros Hnum Hrun Hknown. unfold unreached_error.
  destruct (filter _ (map_iter num)) as [|[u n] rest] eqn:Hfil.
  { eexists; split; [done|]. intros u [g Hg]. apply Hrun.
    destruct (num !! u) as [[|n]|] eqn:Hu; [done| |by rewrite Hnum, Hg in Hu].
    assert ((u, S n) ∈ filter (λ p, p.2 ≠ 0) (map_iter num)) as Hin.
    { apply list_elem_of_filter. by rewrite elem_of_map_iter. }
    rewrite Hfil in Hin. by apply elem_of_nil in Hin. }
  assert ((u, n) ∈ filter (λ p, p.2 ≠ 0) (map_iter num)) as Hin by (rewrite Hfil; set_solver).
  apply list_elem_of_filter in Hin as [Hn Hu%elem_of_map_iter]. simpl in Hn.
  assert (¬ runnable dag u) as Hnr by (rewrite <-Hrun, Hu; congruence).
  rewrite Hnum in Hu. destruct (execution_groups dag !! u) as [g|] eqn:Hg; [|done].
  unfold index. rewrite Hg. simpl.
  destruct (filter _ (dependencies g)) as [|f fs] eqn:Hdep; (eexists; split; [done|]).
  - exists u, g. done.
  - assert (f ∈ filter (λ dep, dep ∉ known) (dependencies g)) as Hf by (rewrite Hdep; set_solver).
    apply list_elem_of_filter in Hf as [Hf Hfd%elem_of_dependencies]. rewrite Hknown in Hf.
    split; [done|]. right. eauto.
Qed.

Lemma callbacks_error_spec known execs :
  (∀ f, f ∈ known ↔ known_file dag f) →
  (∀ x, x ∈ execs ↔ ∃ u g, execution_groups dag !! u = Some g ∧ group_uuid g = x) →
  match callbacks_error watch known execs with
  | Some e => error_reason dag watch e
  | None => (∀ f, f ∈ watch_files watch → known_file dag f) ∧
      (∀ e, e ∈ watch_executions watch →
        ∃ u g, execution_groups dag !! u = Some g ∧ group_uuid g = e)
  end.
Proof.
  intros Hknown Hexecs. unfold callbacks_error.
  destruct (filter _ (set_iter (watch_files watch))) as [|f fs] eqn:Hf; cycle 1.
  { assert (f ∈ f :: fs) as Hin by set_solver. rewrite <-Hf in Hin.
    apply list_elem_of_filter in Hin as [Hn Hw%elem_of_set_iter]. rewrite Hknown in Hn.
    split; auto. }
  destruct (filter _ (set_iter (watch_executions watch))) as [|x xs] eqn:Hx; cycle 1.
  { assert (x ∈ x :: xs) as Hin by set_solver. rewrite <-Hx in Hin.
    apply list_elem_of_filter in Hin as [Hn Hw%elem_of_set_iter]. rewrite Hexecs in Hn.
    split; auto. }
  split.
  - intros f Hw%elem_of_set_iter. rewrite <-Hknown. destruct (decide (f ∈ known)) as [|Hn]; [done|].
    exfalso. eapply (elem_of_nil (A := N)). rewrite <-Hf. by apply list_elem_of_filter.
  - intros x Hw%elem_of_set_iter. rewrite <-Hexecs. destruct (decide (x ∈ execs)) as [|Hn]; [done|].
    exfalso. eapply (elem_of_nil (A := N)). rewrite <-Hx. by apply list_elem_of_filter.
Qed.

(** What [check_dag] returns, on every path. *)
Lemma check_dag_spec :
  ∃ r, check_dag dag watch = Ret r ∧
    match r with
    | inl e => error_reason dag watch e
    | inr _ => dag_valid dag watch
    end.
Proof.
  unfold check_dag. fold G.
  pose proof (visit_groups_spec [] visit_init G seen_init groups_ok_nil) as Hv.
  rewrite (right_id_L [] (++)) in Hv. specialize (Hv (NoDup_keys_iter _)).
  destruct (visit_groups visit_init G) as [e|v].
  { exists (inl e). split; [done|]. apply error_in_reason.
    eapply error_in_perm; [apply reverse_Permutation|done]. }
  destruct Hv as [Hseen Hok].
  pose proof (visit_provided_spec v (keys_iter (provided_files dag)) (NoDup_keys_iter _)) as Hp.
  destruct (visit_provided v _) as [e|v'] eqn:Hpv.
  { destruct Hp as (f & -> & Hf & Hk). eexists; split; [done|]. simpl. fold G.
    apply (seen_files _ _ Hseen) in Hk.
    rewrite (bind_Permutation _ _ _ (reverse_Permutation G)) in Hk.
    apply cnt_elem in Hf, Hk. rewrite cnt_app. lia. }
  destruct (visit_start v v' Hseen Hok Hpv) as (Hdeps & Hinv & Hnd & Hknown & Hexecs).
  destruct (visit_loop_spec dag Hnd (v_dependencies v') (visit_fuel dag) _ _ _ _ _ Hdeps Hinv)
    as (P & drained & num & Hloop & Hend).
  { right. unfold visit_fuel. simpl. lia. }
  rewrite Hloop. cbn.
  destruct (unreached_error_spec (v_known_files v') num P) as ([e|] & Hun & Hr);
    [by destruct Hend|by intros u; apply (visit_end dag P drained)|done| |];
    rewrite Hun; cbn; [by exists (inl e)|].
  pose proof (callbacks_error_spec _ _ Hknown Hexecs) as Hcb.
  destruct (callbacks_error _ _ _) as [e|]; [by exists (inl e)|].
  exists (inr tt). split; [done|]. destruct Hcb as [Hwf Hwe].
  apply (groups_ok_perm _ G (reverse_Permutation G)) in Hok. destruct Hok as [Hne Hff Huu Hout].
  apply NoDup_bind_iff in Hout as [Hout1 Hout2]; [|apply (NoDup_fmap_1 fst), NoDup_keys_iter].
  rewrite <-groups_outputs in Hnd. apply NoDup_app in Hnd as (_ & Hdis & _).
  split; try done.
  - intros u g Hg%elem_of_G. by apply (Hne (u, g)).
  - intros u g Hg%elem_of_G. by apply (Hff (u, g)).
  - intros u1 u2 g1 g2 H1%elem_of_G H2%elem_of_G Hg.
    assert ((u1, g1) = (u2, g2)); [|congruence]. by eapply (NoDup_fmap_inj_on (λ p, group_uuid p.2)).
  - intros u g Hg%elem_of_G. apply outputs_NoDup, (Hout1 (u, g)), Hg.
  - intros u1 u2 g1 g2 f H1%elem_of_G H2%elem_of_G Ho1%elem_of_outputs Ho2%elem_of_outputs.
    pose proof (Hout2 _ _ f H1 H2 Ho1 Ho2). congruence.
  - intros u g f Hg Ho. apply eq_None_not_Some. intros Hpf.
    apply (Hdis f); [by apply elem_of_keys_iter|]. apply elem_of_G_outputs. eauto.
Qed.

(** A group that can run does not depend on itself. *)
Lemma runnable_acc u :
  dag_valid dag watch → runnable dag u → Acc (depends_on dag) u.
Proof.
  intros [_ _ _ _ Hdis Hprov _ _ _]. revert u.
  apply (runnable_mind dag
    (λ f _, ∀ u' g', execution_groups dag !! u' = Some g' → output_of g' f →
       Acc (depends_on dag) u')
    (λ u _, Acc (depends_on dag) u)).
  - intros f [p Hp] u' g' Hg' Ho. by rewrite (Hprov u' g' f) in Hp.
  - intros u g f Hg Ho _ Hacc u' g' Hg' Ho'. by rewrite (Hdis u' u g' g f).
  - intros u g Hg _ HP. constructor. intros u' (g0 & g' & f & Hg0 & Hg' & Hd & Ho). simplify_eq. eauto.
Qed.
End whole.

(** ** Concrete DAGs *)

(** [reader] reads file 7, which nobody provides, and writes file 8; [second]
    reads file 8. *)
Definition ex_reader : ExecutionGroup :=
  into_group 1 (set_stdout (Output_Capture (mkFile 8 "out") None)
    (set_stdin (Input_File 7) (Execution_new "reader" (System [Normal "cat"])))).
Definition ex_second : ExecutionGroup :=
  into_group 2 (set_stdin (Input_File 8) (Execution_new "second" (System [Normal "cat"]))).
Definition ex_broken_dag : ExecutionDAGData :=
  data_insert_group ex_reader (data_insert_group ex_second
    (mkDagData ∅ ∅ ExecutionDAGConfig_new)).
Definition ex_good_dag : ExecutionDAGData :=
  data_insert_file 7 (Content (mkFile 7 "in") (mkKey (pad_vec 32 [])) []) ex_broken_dag.
Definition ex_watch : ExecutionDAGWatchSet := mkWatch {[1%N; 2%N]} {[8%N]} ∅.

Example check_good_dag : @check_dag forward_order ex_good_dag ex_watch = Ret (inr tt).
Proof. vm_compute. reflexivity. Qed.

(** ** Properties *)

(** C7: [check_dag] always returns: whatever the DAG, the callbacks and the
    iteration order of the maps, it neither panics (no missing map entry, no
    counter going negative) nor loops. *)
Theorem check_dag_total `{IterOrder} dag watch : ∃ r, check_dag dag watch = Ret r.
Proof. destruct (check_dag_spec dag watch) as (r & Hr & _). by exists r. Qed.

(** C4: [check_dag] accepts exactly the valid DAGs: all identifiers distinct, no
    empty group, every group able to run from the provided files, every watched
    file and execution present. *)
Theorem check_dag_correct `{IterOrder} dag watch :
  check_dag dag watch = Ret (inr tt) ↔ dag_valid dag watch.
Proof.
  destruct (check_dag_spec dag watch) as ([e|[]] & -> & Hr); [|done].
  split; [done|]. intros Hv. by destruct (error_reason_invalid _ _ _ Hr).
Qed.

(** An error of [check_dag] tells the truth: the duplicated identifier occurs
    twice, the missing file or execution is needed and absent, the group is
    empty, and the execution of a reported cycle can never run. *)
Theorem check_dag_error_sound `{IterOrder} dag watch e :
  check_dag dag watch = Ret (inl e) → error_reason dag watch e.
Proof. destruct (check_dag_spec dag watch) as (r & -> & Hr). by intros [= ->]. Qed.

Lemma check_dag_error_sound_witness :
  error_reason (H := backward_order) ex_broken_dag ex_watch
    (MissingFile 7 "Dependency of 'reader'").
Proof.
  apply (check_dag_error_sound (H := backward_order) ex_broken_dag ex_watch).
  vm_compute. reflexivity.
Defined.

(** C8: the executions of an accepted DAG can be ordered: the relation between a
    group and the groups that read its outputs is well founded. *)
Theorem check_dag_acyclic `{IterOrder} dag watch :
  check_dag dag watch = Ret (inr tt) → well_founded (depends_on dag).
Proof.
  rewrite check_dag_correct. intros Hv u.
  destruct (execution_groups dag !! u) as [g|] eqn:Hg.
  - apply (runnable_acc dag watch); [done|]. by apply (valid_runnable _ _ Hv).
  - constructor. intros u' (g & ? & ? & Hg' & _). congruence.
Qed.

Lemma check_dag_acyclic_witness : well_founded (depends_on ex_good_dag).
Proof.
  apply (check_dag_acyclic (H := forward_order) ex_good_dag ex_watch).
  vm_compute. reflexivity.
Defined.

(** ** A misleading error

    [CycleDetected] may be reported for a DAG without cycles: the first
    unreached group of the iteration has all its dependencies among the known
    files, and only the group that produces one of them misses a file. *)
Lemma check_dag_spurious_cycle :
  @check_dag forward_order ex_broken_dag ex_watch = Ret (inl (CycleDetected "second")).
Proof. vm_compute. reflexivity. Qed.

Lemma ex_broken_dag_acyclic : well_founded (depends_on ex_broken_dag).
Proof.
  assert (∀ u g, execution_groups ex_broken_dag !! u = Some g →
    (u, g) = (1%N, ex_reader) ∨ (u, g) = (2%N, ex_second)) as Hgs.
  { intros u g Hg. apply elem_of_map_to_list in Hg. change (map_to_list _) with
      (@map_iter forward_order _ _ _ _ (execution_groups ex_broken_dag)) in Hg.
    vm_compute in Hg. set_solver. }
  assert (∀ g f, dep_of g f → f ∈ @dependencies forward_order g) as Hd
    by (intros; by apply elem_of_dependencies).
  assert (∀ g f, output_of g f → f ∈ @outputs forward_order g) as Ho
    by (intros; by apply elem_of_outputs).
  assert (∀ u' u, depends_on ex_broken_dag u' u → u' = 1%N ∧ u = 2%N) as Hdep.
  { intros u' u (g & g' & f & Hg%Hgs & Hg'%Hgs & Hf%Hd & Hf'%Ho).
    destruct Hg as [[= -> ->]|[= -> ->]], Hg' as [[= -> ->]|[= -> ->]];
      vm_compute in Hf, Hf'; set_solver. }
  intros u. constructor. intros u' [-> ->]%Hdep. constructor. intros u'' [_ ?]%Hdep. done.
Qed.
