(* ===== verification/CacheService.v ===== *)
(** * The cache as the scheduler sees it

    The scheduler asks the cache for the result of a group and tells it the
    result of a group; [CacheOps] are these two operations, on a state that holds
    the cache and the store it looks the files up in, and [CacheLaws] is what the
    scheduler relies on.  The instances below are the cache of [Cache.v] on the
    file store of [Store.v]. *)
From S2P Require Import Prelude Disk Paths StoreKey Store Dag Cache.

(** Every dependency of the group has a handle. *)
Definition knows_deps (file_keys : FileKeys) (group : ExecutionGroup) : Prop :=
  ∀ f, dep_of group f → is_Some (file_keys !! f).

Class CacheOps : Type := {
  cache_state : Type;
  cache_get : ExecutionGroup → FileKeys → M cache_state CacheResult;
  cache_insert : ExecutionGroup → FileKeys → list ExecutionResult → M cache_state unit
}.

Class CacheLaws `{CacheOps} : Type := {
  cache_ok : cache_state → Prop;
  cache_get_law group file_keys s :
    cache_ok s → knows_deps file_keys group →
    wp (cache_get group file_keys) (λ r s', cache_ok s' ∧
      match r with
      | Miss => True
      | Hit results outs => covers outs group ∧ only_outputs outs group ∧
          length results = length (executions group)
      end) no_error s;
  cache_insert_law group file_keys results s :
    cache_ok s → knows_deps file_keys group → covers file_keys group →
    length results = length (executions group) →
    wp (cache_insert group file_keys results) (λ _, cache_ok) no_error s
}.

(** ** The cache on the store *)
Record CacheOnStore : Type := mkCacheOnStore { the_cache : Cache; the_store : FileStore }.

Section instance.
Context `{IterOrder} `{BuildProfile} `{Blake3} `{World} `{UuidDisplay}
  `{!Bincode FileStoreIndex}.

#[export] Instance store_cache_ops : CacheOps := {|
  cache_state := CacheOnStore;
  cache_get := λ group file_keys,
    c ← gets the_cache;
    zoom the_store (λ st s, mkCacheOnStore (the_cache s) st) (Cache_get c group file_keys);
  cache_insert := λ group file_keys results,
    c ← gets the_cache;
    c' ← lift (Cache_insert c group file_keys results);
    modify (λ s, mkCacheOnStore c' (the_store s))
|}.

(** The handles that other parts of the system own are some list [live]. *)
Definition cache_on_store_ok (s : CacheOnStore) : Prop :=
  cache_wf (the_cache s) ∧ ∃ live, store_inv live (the_store s).

Lemma store_cache_get group file_keys (s : CacheOnStore) :
  overflow_checks = false → cache_on_store_ok s → knows_deps file_keys group →
  wp (cache_get group file_keys) (λ r s', cache_on_store_ok s' ∧
    match r with
    | Miss => True
    | Hit results outs => covers outs group ∧ only_outputs outs group ∧
        length results = length (executions group)
    end) no_error s.
Proof.
  intros Hoc [Hwf [live Hinv]] Hdeps. apply wp_bind, wp_gets, wp_zoom.
  eapply wp_mono; [eapply (Cache_get_spec live _ group file_keys _ Hinv Hwf)| |done].
  - intros key l _ _. apply Forall_forall. intros e _. by apply comparable_release.
  - by apply key_total.
  - intros [|rs outs] st.
    + intros Hst. split; [|done]. split; [done|]. by exists live.
    + intros (Hst & Hcov & Honly & Hlen). split; [|done]. split; [done|].
      by exists (handles outs ++ live).
Qed.

Lemma store_cache_insert group file_keys results (s : CacheOnStore) :
  cache_on_store_ok s → knows_deps file_keys group → covers file_keys group →
  length results = length (executions group) →
  wp (cache_insert group file_keys results) (λ _, cache_on_store_ok) no_error s.
Proof.
  intros [Hwf Hinv] Hdeps Hcov Hlen. apply wp_bind, wp_gets, wp_bind.
  destruct (Cache_insert_total (the_cache s) group file_keys results Hdeps Hcov) as [c' Hins].
  eapply wp_lift_ret; [done|]. apply wp_modify. split; [|done]. by eapply cache_wf_insert.
Qed.

(** The cache keeps its promises in the release profile. *)
Definition store_cache_laws (Hoc : overflow_checks = false) : CacheLaws :=
  {| cache_ok := cache_on_store_ok;
     cache_get_law group file_keys s := store_cache_get group file_keys s Hoc;
     cache_insert_law := store_cache_insert |}.
End instance.
