(* ===== verification/Scheduler.v ===== *)
(** * The scheduler ([task-maker-exec/src/scheduler.rs])

    The state of the scheduler, its messages and its handlers.  The two
    [Sender]s are the lists of the messages sent on them with a flag that tells
    whether the receiving side is alive; the channel the scheduler reads is the
    argument of [run].  The clone and the drop of a file handle only change the
    reference counts of the store and are not recorded here. *)
From S2P Require Import Prelude Paths StoreKey Store Dag Cache CheckDag CacheService.

(** ** Messages *)
Record ClientInfo : Type := mkClientInfo {
  info_uuid : ClientUuid;
  info_name : string
}.

(** A point in time and a length of time, in nanoseconds. *)
Abbreviation Instant := N (only parsing).
Abbreviation Duration := N (only parsing).
(** A [SystemTime], from the epoch on or before it. *)
Abbreviation SystemTime := Z (only parsing).

Record WorkerJob : Type := mkJob {
  job_group : ExecutionGroup;
  dep_keys : gmap FileUuid FileStoreKey
}.

Record WorkerCurrentJobStatus {T : Type} : Type := mkCurrentJob {
  status_job : string;
  status_client : ClientInfo;
  status_duration : T
}.
Arguments WorkerCurrentJobStatus : clear implicits.
Arguments mkCurrentJob {T} _ _ _.

Record ExecutorWorkerStatus {T : Type} : Type := mkWorkerStatus {
  status_uuid : WorkerUuid;
  status_name : string;
  status_current_job : option (WorkerCurrentJobStatus T)
}.
Arguments ExecutorWorkerStatus : clear implicits.
Arguments mkWorkerStatus {T} _ _ _.

Record ExecutorStatus {T : Type} : Type := mkExecutorStatus {
  status_connected_workers : list (ExecutorWorkerStatus T);
  status_ready_execs : nat;
  status_waiting_execs : nat
}.
Arguments ExecutorStatus : clear implicits.
Arguments mkExecutorStatus {T} _ _ _.

(** Messages to the scheduler. *)
Inductive SchedulerInMessage : Type :=
  | In_EvaluateDAG (client : ClientInfo) (dag : ExecutionDAGData)
      (callbacks : ExecutionDAGWatchSet)
  | In_ClientDisconnected (client : ClientUuid)
  | In_FileReady (client : ClientUuid) (uuid : FileUuid) (handle : FileStoreHandle)
  | In_WorkerResult (worker : WorkerUuid) (result : list ExecutionResult) (outs : FileKeys)
  | In_WorkerConnected (uuid : WorkerUuid) (name : string)
  | In_WorkerDisconnected (uuid : WorkerUuid)
  | In_Status (client : ClientUuid)
  | In_Exit.

(** Messages of the scheduler to the executor, for a client. *)
Inductive SchedulerExecutorMessageData : Type :=
  | Out_ExecutionStarted (execution : ExecutionGroupUuid) (worker : WorkerUuid)
  | Out_ExecutionDone (execution : ExecutionGroupUuid) (result : list ExecutionResult)
  | Out_ExecutionSkipped (execution : ExecutionGroupUuid)
  | Out_FileReady (file : FileUuid) (handle : FileStoreHandle) (successful urgent : bool)
  | Out_EvaluationDone
  | Out_Status (status : ExecutorStatus Duration).
Abbreviation SchedulerExecutorMessage := (ClientUuid * SchedulerExecutorMessageData)%type (only parsing).

(** The connection of a worker, without its channels. *)
Record WorkerConn : Type := mkWorkerConn { conn_uuid : WorkerUuid; conn_name : string }.

(** Messages to the worker manager ([worker_manager.rs]). *)
Inductive WorkerManagerInMessage : Type :=
  | Wm_WorkerConnected (worker : WorkerConn)
  | Wm_WorkerDisconnected (worker : WorkerUuid)
  | Wm_WorkerJob (worker : WorkerUuid) (job : WorkerJob)
  | Wm_StopWorkerJob (worker : WorkerUuid) (job : ExecutionGroupUuid)
  | Wm_Exit.

(** ** State *)
Record ConnectedWorker : Type := mkWorker {
  worker_uuid : WorkerUuid;
  worker_name : string;
  current_job : option (ClientUuid * ExecutionGroupUuid * Instant)
}.

Record SchedulerClientData : Type := mkClientData {
  cd_name : string;
  cd_dag : ExecutionDAGData;
  cd_callbacks : ExecutionDAGWatchSet;
  input_of : gmap FileUuid (gset ExecutionGroupUuid);
  ready_groups : gset ExecutionGroupUuid;
  running_groups : gset ExecutionGroupUuid;
  missing_deps : gmap ExecutionGroupUuid (gset FileUuid);
  file_handles : FileKeys
}.

Definition SchedulerClientData_new (name : string) (dag : ExecutionDAGData)
    (callbacks : ExecutionDAGWatchSet) : SchedulerClientData :=
  mkClientData name dag callbacks ∅ ∅ ∅ ∅ ∅.

Definition set_input_of x (c : SchedulerClientData) : SchedulerClientData :=
  mkClientData (cd_name c) (cd_dag c) (cd_callbacks c) x (ready_groups c) (running_groups c)
    (missing_deps c) (file_handles c).
Definition set_ready_groups x (c : SchedulerClientData) : SchedulerClientData :=
  mkClientData (cd_name c) (cd_dag c) (cd_callbacks c) (input_of c) x (running_groups c)
    (missing_deps c) (file_handles c).
Definition set_running_groups x (c : SchedulerClientData) : SchedulerClientData :=
  mkClientData (cd_name c) (cd_dag c) (cd_callbacks c) (input_of c) (ready_groups c) x
    (missing_deps c) (file_handles c).
Definition set_missing_deps x (c : SchedulerClientData) : SchedulerClientData :=
  mkClientData (cd_name c) (cd_dag c) (cd_callbacks c) (input_of c) (ready_groups c)
    (running_groups c) x (file_handles c).
Definition set_file_handles x (c : SchedulerClientData) : SchedulerClientData :=
  mkClientData (cd_name c) (cd_dag c) (cd_callbacks c) (input_of c) (ready_groups c)
    (running_groups c) (missing_deps c) x.

Definition is_done (c : SchedulerClientData) : bool :=
  bool_decide (ready_groups c = ∅) && bool_decide (running_groups c = ∅)
  && bool_decide (missing_deps c = ∅).

(** The elements of [ready_execs], ordered as tuples.  The first component is what was
    recorded when the element was queued: the priority of the DAG for the groups that are
    ready at the beginning, [HIGH_PRIORITY] for a group released by a file or queued again
    when its worker left. *)
Definition ReadyExec : Type := DagPriority * Priority * ExecutionGroupUuid * ClientUuid.

Definition ready_leb (a b : ReadyExec) : bool :=
  let '(dp1, p1, g1, c1) := a in
  let '(dp2, p2, g2, c2) := b in
  (dp1 <? dp2)%Z || (dp1 =? dp2)%Z &&
  ((p1 <? p2)%Z || (p1 =? p2)%Z &&
  ((g1 <? g2)%N || (g1 =? g2)%N && (c1 <=? c2)%N)).

Section scheduler.
Context `{IterOrder} `{CacheOps}.

Record Scheduler : Type := mkScheduler {
  cache : cache_state;
  executor : list SchedulerExecutorMessage;
  executor_open : bool;
  worker_manager : list WorkerManagerInMessage;
  worker_manager_open : bool;
  ready_execs : list ReadyExec;
  clients : gmap ClientUuid SchedulerClientData;
  connected_workers : gmap WorkerUuid ConnectedWorker;
  clock : Instant
}.

Definition Scheduler_new (c : cache_state) (start : Instant) : Scheduler :=
  mkScheduler c [] true [] true [] ∅ ∅ start.

Definition with_cache x (s : Scheduler) : Scheduler :=
  mkScheduler x (executor s) (executor_open s) (worker_manager s) (worker_manager_open s)
    (ready_execs s) (clients s) (connected_workers s) (clock s).
Definition with_executor x (s : Scheduler) : Scheduler :=
  mkScheduler (cache s) x (executor_open s) (worker_manager s) (worker_manager_open s)
    (ready_execs s) (clients s) (connected_workers s) (clock s).
Definition with_worker_manager x (s : Scheduler) : Scheduler :=
  mkScheduler (cache s) (executor s) (executor_open s) x (worker_manager_open s)
    (ready_execs s) (clients s) (connected_workers s) (clock s).
Definition with_ready_execs x (s : Scheduler) : Scheduler :=
  mkScheduler (cache s) (executor s) (executor_open s) (worker_manager s) (worker_manager_open s)
    x (clients s) (connected_workers s) (clock s).
Definition with_clients x (s : Scheduler) : Scheduler :=
  mkScheduler (cache s) (executor s) (executor_open s) (worker_manager s) (worker_manager_open s)
    (ready_execs s) x (connected_workers s) (clock s).
Definition with_workers x (s : Scheduler) : Scheduler :=
  mkScheduler (cache s) (executor s) (executor_open s) (worker_manager s) (worker_manager_open s)
    (ready_execs s) (clients s) x (clock s).

(** [Sender::send] fails when the receiver has been dropped. *)
Definition send_executor (m : SchedulerExecutorMessage) : M Scheduler unit :=
  s ← get_st;
  if executor_open s then modify (with_executor (executor s ++ [m]))
  else bail "sending on a closed channel".
Definition send_worker_manager (m : WorkerManagerInMessage) : M Scheduler unit :=
  s ← get_st;
  if worker_manager_open s then modify (with_worker_manager (worker_manager s ++ [m]))
  else bail "sending on a closed channel".

(** [self.clients.get_mut(&client)], read; the client a method already borrowed;
    a change through the borrow. *)
Definition get_client (client : ClientUuid) : M Scheduler (option SchedulerClientData) :=
  gets (λ s, clients s !! client).
Definition the_client (client : ClientUuid) : M Scheduler SchedulerClientData :=
  c ← get_client client; lift (unwrap "client is gone" c).
Definition update_client (client : ClientUuid) (f : SchedulerClientData → SchedulerClientData) :
    M Scheduler unit :=
  modify (λ s, with_clients (alter f client (clients s)) s).
Definition push_ready (e : ReadyExec) : M Scheduler unit :=
  modify (λ s, with_ready_execs (heap_push e (ready_execs s)) s).
Definition on_cache {A} (m : M cache_state A) : M Scheduler A := zoom cache with_cache m.

(** ** Notifications *)
Definition check_completion (client_uuid : ClientUuid) : M Scheduler unit :=
  client ← get_client client_uuid;
  match client with
  | None => mret tt
  | Some client =>
      if is_done client then
        with_context "Failed to send EvaluationDone to the executor"
          (send_executor (client_uuid, Out_EvaluationDone))
      else mret tt
  end.

Definition send_file (client_uuid : ClientUuid) (file : FileUuid) (successful : bool) :
    M Scheduler unit :=
  client ← get_client client_uuid;
  match client with
  | None => mret tt
  | Some client =>
      if bool_decide (file ∉ watch_files (cd_callbacks client)) then mret tt else
      match file_handles client !! file with
      | None => mret tt
      | Some handle =>
          or_warn (send_executor (client_uuid, Out_FileReady file handle successful
            (bool_decide (file ∈ watch_urgent_files (cd_callbacks client)))))
      end
  end.

(** [if client.callbacks.executions.contains(&group) { send, or warn }]. *)
Definition notify (client_uuid : ClientUuid) (client : SchedulerClientData)
    (group : ExecutionGroupUuid) (m : SchedulerExecutorMessageData) : M Scheduler unit :=
  if bool_decide (group ∈ watch_executions (cd_callbacks client))
  then or_warn (send_executor (client_uuid, m)) else mret tt.

(** ** Failed files *)

(** The body of the first loop of [file_failed]: the outputs of the group if it
    is skipped now. *)
Definition skip_group (client_uuid : ClientUuid) (uuid : ExecutionGroupUuid) :
    M Scheduler (list FileUuid) :=
  client ← the_client client_uuid;
  match missing_deps client !! uuid with
  | None => mret []
  | Some _ =>
      _ ← update_client client_uuid (λ c, set_missing_deps (delete uuid (missing_deps c)) c);
      group ← lift (index (execution_groups (cd_dag client)) uuid);
      _ ← notify client_uuid client (group_uuid group) (Out_ExecutionSkipped (group_uuid group));
      mret (outputs group)
  end.

Fixpoint skip_groups (client_uuid : ClientUuid) (l : list ExecutionGroupUuid) :
    M Scheduler (list FileUuid) :=
  match l with
  | [] => mret []
  | uuid :: l =>
      files ← skip_group client_uuid uuid;
      rest ← skip_groups client_uuid l;
      mret (files ++ rest)
  end.

Fixpoint file_failed_loop (fuel : nat) (client_uuid : ClientUuid) (file : FileUuid) :
    M Scheduler unit :=
  match fuel with
  | O => out_of_fuel
  | S fuel =>
      _ ← with_context "Failed sending failed file to client"
            (send_file client_uuid file false);
      client ← get_client client_uuid;
      match client with
      | None => mret tt
      | Some client =>
          match input_of client !! file with
          | None => mret tt
          | Some groups =>
              failed_files ← skip_groups client_uuid (set_iter groups);
              for_each failed_files (file_failed_loop fuel client_uuid)
          end
      end
  end.

(** Each nested call comes after the removal of a group from [missing_deps]. *)
Definition waiting (s : Scheduler) (client_uuid : ClientUuid) : nat :=
  match clients s !! client_uuid with Some c => size (missing_deps c) | None => 0 end.
Definition file_failed (client_uuid : ClientUuid) (file : FileUuid) : M Scheduler unit :=
  s ← get_st; file_failed_loop (S (waiting s client_uuid)) client_uuid file.

(** ** Giving jobs to the workers *)
Definition job_keys (client : SchedulerClientData) (group : ExecutionGroup) :
    Outcome (gmap FileUuid FileStoreKey) :=
  l ← try_map (λ f, h ← unwrap "Unknown file key" (file_handles client !! f);
                    Ret (f, handle_key h)) (dependencies group);
  Ret (foldl (λ m p, <[p.1 := p.2]> m) ∅ l).

(** The body of the loop for a free worker and the job popped for it. *)
Definition assign_job (worker : WorkerUuid) (group_id : ExecutionGroupUuid)
    (client_uuid : ClientUuid) : M Scheduler unit :=
  _ ← modify (λ s, with_workers (alter (λ w,
        mkWorker (worker_uuid w) (worker_name w) (Some (client_uuid, group_id, clock s)))
        worker (connected_workers s)) s);
  client ← get_client client_uuid;
  match client with
  | None => mret tt
  | Some client =>
      _ ← update_client client_uuid (λ c, set_ready_groups (ready_groups c ∖ {[group_id]}) c);
      _ ← update_client client_uuid (λ c, set_running_groups ({[group_id]} ∪ running_groups c) c);
      group ← lift (index (execution_groups (cd_dag client)) group_id);
      keys ← lift (job_keys client group);
      _ ← with_context "Failed to send WorkerJob to worker"
            (send_worker_manager (Wm_WorkerJob worker (mkJob group keys)));
      notify client_uuid client (group_uuid group)
        (Out_ExecutionStarted (group_uuid group) worker)
  end.

Fixpoint assign_loop (l : list (WorkerUuid * ConnectedWorker)) : M Scheduler unit :=
  match l with
  | [] => mret tt
  | (worker, data) :: l =>
      match current_job data with
      | Some _ => assign_loop l
      | None =>
          s ← get_st;
          match heap_pop ready_leb (ready_execs s) with
          | None => mret tt
          | Some ((_, _, group, client), rest) =>
              _ ← modify (with_ready_execs rest);
              _ ← assign_job worker group client;
              assign_loop l
          end
      end
  end.

Definition assign_jobs : M Scheduler unit :=
  s ← get_st; assign_loop (map_iter (connected_workers s)).

(** ** Completed executions *)

(** The map [file_keys] of the source is computed and not used: only its
    lookups, which can panic, are left. *)
Definition cache_execution (client_uuid : ClientUuid) (group : ExecutionGroup) (outs : FileKeys)
    (result : list ExecutionResult) : M Scheduler unit :=
  client ← get_client client_uuid;
  match client with
  | None => mret tt
  | Some client =>
      _ ← lift (try_map (λ f, h ← index (file_handles client) f; Ret (f, handle_key h))
            (dependencies group));
      _ ← lift (try_map (λ f, h ← index outs f; Ret (f, handle_key h)) (outputs group));
      on_cache (cache_insert group (file_handles client) result)
  end.

(** The body of the loop of [file_success]. *)
Definition release_group (client_uuid : ClientUuid) (file : FileUuid)
    (uuid : ExecutionGroupUuid) : M Scheduler unit :=
  client ← the_client client_uuid;
  group ← lift (index (execution_groups (cd_dag client)) uuid);
  match missing_deps client !! uuid with
  | None => mret tt
  | Some files =>
      let files := files ∖ {[file]} in
      _ ← update_client client_uuid (λ c, set_missing_deps (<[uuid := files]> (missing_deps c)) c);
      if bool_decide (files = ∅) then
        _ ← update_client client_uuid (λ c, set_missing_deps (delete uuid (missing_deps c)) c);
        _ ← push_ready (HIGH_PRIORITY, priority group, uuid, client_uuid);
        update_client client_uuid (λ c, set_ready_groups ({[uuid]} ∪ ready_groups c) c)
      else mret tt
  end.

(** [file_success], [exec_completed] and [schedule_cached] call each other: the
    first two take the nested [schedule_cached] as an argument. *)
Definition file_success_with (nested : M Scheduler unit) (client_uuid : ClientUuid)
    (file : FileUuid) : M Scheduler unit :=
  _ ← with_context "Failed sending succeeded file to client"
        (send_file client_uuid file true);
  client ← get_client client_uuid;
  match client with
  | None => mret tt
  | Some client =>
      match input_of client !! file with
      | None => mret tt
      | Some groups =>
          _ ← for_each (set_iter groups) (release_group client_uuid file);
          _ ← nested;
          assign_jobs
      end
  end.

Definition exec_completed_with (nested : M Scheduler unit) (client_uuid : ClientUuid)
    (group : ExecutionGroup) (result : list ExecutionResult) (outs : FileKeys)
    (from_cache : bool) : M Scheduler unit :=
  client ← get_client client_uuid;
  match client with
  | None => mret tt
  | Some client =>
      _ ← notify client_uuid client (group_uuid group)
            (Out_ExecutionDone (group_uuid group) result);
      _ ← update_client client_uuid (λ c, set_file_handles
            (foldl (λ m p, <[p.1 := p.2]> m) (file_handles c) (map_iter outs)) c);
      let successful := forallb (λ r, is_success (status r)) result in
      let internal_error := existsb (λ r, is_internal_error (status r)) result in
      _ ← (if negb from_cache && negb internal_error
           then cache_execution client_uuid group outs result else mret tt);
      _ ← (if successful then
             for_each (outputs group) (λ output,
               with_context "Failed to mark execution group as completed"
                 (file_success_with nested client_uuid output))
           else
             for_each (outputs group) (λ output,
               with_context "Failed to mark execution group as failed"
                 (file_failed client_uuid output)));
      nested
  end.

(** [Scheduler::is_cacheable]. *)
Definition group_cacheable (group : ExecutionGroup) (mode : CacheMode) : bool :=
  match mode, tag group with
  | Except set, Some tag => negb (bool_decide (tag ∈ set))
  | _, _ => true
  end.

Definition CachedExec : Type := ClientUuid * ExecutionGroup * list ExecutionResult * FileKeys.

(** The first loop of [schedule_cached]. *)
Fixpoint scan_ready (l : list ReadyExec) (not_cached : list ReadyExec)
    (cached : list CachedExec) : M Scheduler (list ReadyExec * list CachedExec) :=
  match l with
  | [] => mret (not_cached, cached)
  | (dag_prio, prio, group_id, client_uuid) :: l =>
      client ← get_client client_uuid;
      match client with
      | None => scan_ready l not_cached cached
      | Some client =>
          let mode := cache_mode (config (cd_dag client)) in
          if match mode with Nothing => true | _ => false end
          then scan_ready l (heap_push (dag_prio, prio, group_id, client_uuid) not_cached) cached
          else
            group ← lift (index (execution_groups (cd_dag client)) group_id);
            if negb (group_cacheable group mode)
            then scan_ready l
                   (heap_push (dag_prio, prio, group_uuid group, client_uuid) not_cached) cached
            else
              r ← on_cache (cache_get group (file_handles client));
              match r with
              | Hit result outs =>
                  _ ← update_client client_uuid (λ c,
                        set_ready_groups (ready_groups c ∖ {[group_uuid group]}) c);
                  scan_ready l not_cached (cached ++ [(client_uuid, group, result, outs)])
              | Miss =>
                  scan_ready l
                    (heap_push (dag_prio, prio, group_uuid group, client_uuid) not_cached) cached
              end
      end
  end.

Fixpoint schedule_cached_loop (fuel : nat) : M Scheduler unit :=
  match fuel with
  | O => out_of_fuel
  | S fuel =>
      s ← get_st;
      found ← scan_ready (iter_order (ready_execs s)) [] [];
      _ ← modify (with_ready_execs found.1);
      for_each found.2 (λ e : CachedExec, let '(client, exec, result, outs) := e in
        exec_completed_with (schedule_cached_loop fuel) client exec result outs true)
  end.

(** The executions that wait for files or for a worker: each nested call of
    [schedule_cached] comes after the removal of one of them. *)
Definition work (s : Scheduler) : nat :=
  length (ready_execs s)
  + sum_list_with (λ p, size (missing_deps p.2)) (map_to_list (clients s)).
Definition schedule_cached : M Scheduler unit :=
  s ← get_st; schedule_cached_loop (S (work s)).
Definition file_success : ClientUuid → FileUuid → M Scheduler unit :=
  file_success_with schedule_cached.
Definition exec_completed : ClientUuid → ExecutionGroup → list ExecutionResult → FileKeys →
    bool → M Scheduler unit :=
  exec_completed_with schedule_cached.

(** ** Handlers *)

(** The body of the loop of [handle_evaluate_dag], on the data of the new client
    and the queue of the ready executions. *)
Definition add_input (group : ExecutionGroupUuid)
    (acc : gmap FileUuid (gset ExecutionGroupUuid) * gset FileUuid) (file : FileUuid) :
    gmap FileUuid (gset ExecutionGroupUuid) * gset FileUuid :=
  (<[file := {[group]} ∪ default ∅ (acc.1 !! file)]> acc.1, {[file]} ∪ acc.2).

Definition init_group (prio : DagPriority) (client_uuid : ClientUuid)
    (acc : SchedulerClientData * list ReadyExec) (group : ExecutionGroup) :
    SchedulerClientData * list ReadyExec :=
  let '(data, ready) := acc in
  let uuid := group_uuid group in
  let '(inputs, missing) := foldl (add_input uuid)
    (input_of data, default ∅ (missing_deps data !! uuid)) (dependencies group) in
  let data := set_missing_deps (<[uuid := missing]> (missing_deps data))
    (set_input_of inputs data) in
  if bool_decide (missing = ∅) then
    (set_ready_groups ({[uuid]} ∪ ready_groups data)
       (set_missing_deps (delete uuid (missing_deps data)) data),
     heap_push (prio, priority group, uuid, client_uuid) ready)
  else (data, ready).

Definition handle_evaluate_dag (client : ClientInfo) (dag : ExecutionDAGData)
    (callbacks : ExecutionDAGWatchSet) : M Scheduler unit :=
  s ← get_st;
  let '(data, ready) := foldl (init_group (dag_priority (config dag)) (info_uuid client))
    (SchedulerClientData_new (info_name client) dag callbacks, ready_execs s)
    (values_iter (execution_groups dag)) in
  _ ← modify (with_ready_execs ready);
  _ ← modify (λ s, with_clients (<[info_uuid client := data]> (clients s)) s);
  _ ← check_completion (info_uuid client);
  _ ← schedule_cached;
  assign_jobs.

Definition handle_file_ready (client_uuid : ClientUuid) (uuid : FileUuid)
    (handle : FileStoreHandle) : M Scheduler unit :=
  client ← get_client client_uuid;
  match client with
  | Some _ =>
      _ ← update_client client_uuid (λ c,
            set_file_handles (<[uuid := handle]> (file_handles c)) c);
      _ ← file_success client_uuid uuid;
      check_completion client_uuid
  | None => mret tt
  end.

Definition handle_worker_result (worker : WorkerUuid) (result : list ExecutionResult)
    (outs : FileKeys) : M Scheduler unit :=
  s ← get_st;
  match connected_workers s !! worker with
  | None => mret tt
  | Some data =>
      _ ← modify (with_workers (delete worker (connected_workers s)));
      match current_job data with
      | None => mret tt
      | Some (client_uuid, group_id, _) =>
          client ← get_client client_uuid;
          match client with
          | None => _ ← assign_jobs; check_completion client_uuid
          | Some client =>
              group ← lift (index (execution_groups (cd_dag client)) group_id);
              if bool_decide (length (executions group) ≠ length result)
              then bail "Invalid worker result" else
              _ ← update_client client_uuid (λ c,
                    set_running_groups (running_groups c ∖ {[group_id]}) c);
              _ ← exec_completed client_uuid group result outs false;
              _ ← assign_jobs;
              check_completion client_uuid
          end
      end
  end.

Definition handle_worker_connected (uuid : WorkerUuid) (name : string) : M Scheduler unit :=
  _ ← modify (λ s, with_workers (<[uuid := mkWorker uuid name None]> (connected_workers s)) s);
  assign_jobs.

Definition handle_worker_disconnected (uuid : WorkerUuid) : M Scheduler unit :=
  s ← get_st;
  match connected_workers s !! uuid with
  | None => mret tt
  | Some worker =>
      _ ← modify (with_workers (delete uuid (connected_workers s)));
      match current_job worker with
      | None => mret tt
      | Some (client_uuid, job, _) =>
          client ← get_client client_uuid;
          match client with
          | None => mret tt
          | Some client =>
              group ← lift (index (execution_groups (cd_dag client)) job);
              _ ← push_ready (HIGH_PRIORITY, priority group, job, client_uuid);
              _ ← update_client client_uuid (λ c,
                    set_ready_groups ({[job]} ∪ ready_groups c) c);
              update_client client_uuid (λ c,
                set_running_groups (running_groups c ∖ {[job]}) c)
          end
      end
  end.

(** The loop that pops the whole queue and keeps the executions of the clients
    that are left; the queue gets shorter at each turn. *)
Fixpoint retain_clients (fuel : nat) (cs : gmap ClientUuid SchedulerClientData)
    (ready remaining : list ReadyExec) : list ReadyExec :=
  match fuel, heap_pop ready_leb ready with
  | S fuel, Some ((dp, p, exec, client), rest) =>
      retain_clients fuel cs rest
        (if bool_decide (is_Some (cs !! client))
         then heap_push (dp, p, exec, client) remaining else remaining)
  | _, _ => remaining
  end.

Definition handle_client_disconnected (client_uuid : ClientUuid) : M Scheduler unit :=
  client ← get_client client_uuid;
  _ ← match client with
      | Some client =>
          if is_done client then mret tt
          else with_context "Failed to send EvaluationDone to the executor"
                 (send_executor (client_uuid, Out_EvaluationDone))
      | None => mret tt
      end;
  _ ← modify (λ s, with_clients (delete client_uuid (clients s)) s);
  _ ← modify (λ s, with_ready_execs
        (retain_clients (length (ready_execs s)) (clients s) (ready_execs s) []) s);
  s ← get_st;
  for_each (map_iter (connected_workers s)) (λ p : WorkerUuid * ConnectedWorker,
    match current_job p.2 with
    | Some (owner, exec, _) =>
        if bool_decide (owner = client_uuid) then
          with_context "Failed to send StopWorkerJob to worker"
            (send_worker_manager (Wm_StopWorkerJob p.1 exec))
        else mret tt
    | None => mret tt
    end).

Definition worker_status (s : Scheduler) (worker : ConnectedWorker) :
    Outcome (ExecutorWorkerStatus Duration) :=
  job ← match current_job worker with
        | None => Ret None
        | Some (client_uuid, exec_uuid, start) =>
            match clients s !! client_uuid with
            | None => Ret None
            | Some client =>
                exec ← index (execution_groups (cd_dag client)) exec_uuid;
                Ret (Some (mkCurrentJob (group_description exec)
                  (mkClientInfo client_uuid (cd_name client)) (clock s - start)%N))
            end
        end;
  Ret (mkWorkerStatus (worker_uuid worker) (worker_name worker) job).

Definition handle_status_request (client_uuid : ClientUuid) : M Scheduler unit :=
  s ← get_st;
  let ready := sum_list_with (λ c, size (ready_groups c)) (values_iter (clients s)) in
  let waiting := sum_list_with (λ c, size (missing_deps c)) (values_iter (clients s)) in
  workers ← lift (try_map (worker_status s) (values_iter (connected_workers s)));
  or_warn (send_executor (client_uuid, Out_Status (mkExecutorStatus workers ready waiting))).

(** One turn of the loop of [run]. *)
Definition handle_message (m : SchedulerInMessage) : M Scheduler unit :=
  match m with
  | In_Exit => mret tt
  | In_EvaluateDAG client dag callbacks =>
      with_context "Failed to handle EvaluateDAG" (handle_evaluate_dag client dag callbacks)
  | In_FileReady client uuid handle =>
      with_context "Failed to handle FileReady" (handle_file_ready client uuid handle)
  | In_WorkerResult worker result outs =>
      with_context "Failed to handle WorkerResult" (handle_worker_result worker result outs)
  | In_WorkerConnected uuid name =>
      with_context "Failed to handle WorkerConnected" (handle_worker_connected uuid name)
  | In_WorkerDisconnected uuid =>
      with_context "Failed to handle WorkerDisconnected" (handle_worker_disconnected uuid)
  | In_ClientDisconnected client =>
      with_context "Failed to handle ClientDisconnected" (handle_client_disconnected client)
  | In_Status client =>
      with_context "Failed to handle Status" (handle_status_request client)
  end.

(** [run] on the messages received before the channel is closed. *)
Fixpoint run_loop (messages : list SchedulerInMessage) : M Scheduler unit :=
  match messages with
  | [] | In_Exit :: _ => mret tt
  | m :: messages => _ ← handle_message m; run_loop messages
  end.
Definition run (messages : list SchedulerInMessage) : M Scheduler unit :=
  _ ← run_loop messages;
  with_context "Cannot tell the worker manager to exit" (send_worker_manager Wm_Exit).
End scheduler.
