(* ===== verification/SchedulerInv.v ===== *)
(** * The invariant of the scheduler

    What holds of the state of the scheduler between two messages, and how each
    piece of the handlers preserves it.  While a handler runs, some groups are
    completed but not yet notified (the list [P]) and some files are ready or
    failed but not yet propagated to the groups that read them (the list [F]). *)
From S2P Require Import Prelude Paths StoreKey Store Dag Cache CheckDag CacheService Scheduler.

(** ** Clients *)

(** The messages that tell the end of a group to its client. *)
Definition settles (client : ClientUuid) (group : ExecutionGroupUuid)
    (m : SchedulerExecutorMessage) : bool :=
  match m with
  | (c, Out_ExecutionDone e _) | (c, Out_ExecutionSkipped e) => bool_decide (c = client ∧ e = group)
  | _ => false
  end.
Definition settled_count (client : ClientUuid) (group : ExecutionGroupUuid)
    (log : list SchedulerExecutorMessage) : nat :=
  length (filter (λ m, settles client group m = true) log).

Abbreviation groups_of c := (execution_groups (cd_dag c)).
Abbreviation Groups := (list (ClientUuid * ExecutionGroupUuid)).
Abbreviation Files := (list (ClientUuid * FileUuid)).

(** Groups whose dependencies are all known: ready, running or in [P]. *)
Definition active (P : Groups) (client : ClientUuid) (c : SchedulerClientData)
    (u : ExecutionGroupUuid) : Prop :=
  u ∈ ready_groups c ∨ u ∈ running_groups c ∨ (client, u) ∈ P.
(** Groups that are still to be completed or skipped. *)
Definition unsettled (P : Groups) (client : ClientUuid) (c : SchedulerClientData)
    (u : ExecutionGroupUuid) : Prop :=
  is_Some (missing_deps c !! u) ∨ active P client c u.

Record client_ok (P : Groups) (F : Files) (client : ClientUuid) (c : SchedulerClientData) :
    Prop := {
  co_keys : map_Forall (λ u g, group_uuid g = u) (groups_of c);
  co_valid : dag_valid (cd_dag c) (cd_callbacks c);
  co_inputs : ∀ f u, (u ∈ default ∅ (input_of c !! f)) ↔
    ∃ g, groups_of c !! u = Some g ∧ dep_of g f;
  co_missing : ∀ u fs, missing_deps c !! u = Some fs → fs ≠ ∅ ∧
    ∃ g, groups_of c !! u = Some g ∧ (∀ f, f ∈ fs → dep_of g f) ∧
      (∀ f, dep_of g f → f ∉ fs → is_Some (file_handles c !! f));
  co_active : ∀ u, active P client c u →
    missing_deps c !! u = None ∧
    ∃ g, groups_of c !! u = Some g ∧ knows_deps (file_handles c) g;
  co_ready : ∀ u, u ∈ ready_groups c → (u ∉ running_groups c) ∧ (client, u) ∉ P;
  co_running : ∀ u, u ∈ running_groups c → (client, u) ∉ P;
  co_waiting : ∀ u fs f, missing_deps c !! u = Some fs → f ∈ fs →
    (client, f) ∈ F ∨
    (file_handles c !! f = None ∧
     ∀ u' g', groups_of c !! u' = Some g' → output_of g' f → unsettled P client c u')
}.

(** Each watched group has been told to the client exactly once when it is
    settled and never before. *)
Definition counts_ok (P : Groups) (log : list SchedulerExecutorMessage) (client : ClientUuid)
    (c : SchedulerClientData) : Prop :=
  ∀ u, is_Some (groups_of c !! u) → u ∈ watch_executions (cd_callbacks c) →
    (unsettled P client c u → settled_count client u log = 0) ∧
    (¬ unsettled P client c u → settled_count client u log = 1).

(** ** The whole state *)
Definition ready_of (cs : gmap ClientUuid SchedulerClientData) (client : ClientUuid) :
    gset ExecutionGroupUuid :=
  match cs !! client with Some c => ready_groups c | None => ∅ end.
Definition running_of (cs : gmap ClientUuid SchedulerClientData) (client : ClientUuid) :
    gset ExecutionGroupUuid :=
  match cs !! client with Some c => running_groups c | None => ∅ end.

Definition exec_id (e : ReadyExec) : ClientUuid * ExecutionGroupUuid := (e.2, e.1.2).

(** The queue holds each ready group once and nothing else. *)
Definition queue_ok (ready : list ReadyExec) (cs : gmap ClientUuid SchedulerClientData) : Prop :=
  NoDup (exec_id <$> ready) ∧
  ∀ client u, (client, u) ∈ exec_id <$> ready ↔ u ∈ ready_of cs client.

Definition doing (ws : gmap WorkerUuid ConnectedWorker) (w : WorkerUuid)
    (job : ClientUuid * ExecutionGroupUuid) : Prop :=
  ∃ d t, ws !! w = Some d ∧ current_job d = Some (job, t).

(** The jobs of the workers are the running groups, each on one worker; a worker
    may still be busy for a client that left. *)
Record jobs_ok (ws : gmap WorkerUuid ConnectedWorker) (cs : gmap ClientUuid SchedulerClientData) :
    Prop := {
  jo_running : ∀ w client u, doing ws w (client, u) → is_Some (cs !! client) →
    u ∈ running_of cs client;
  jo_once : ∀ w w' client u, doing ws w (client, u) → doing ws w' (client, u) →
    is_Some (cs !! client) → w = w';
  jo_worker : ∀ client u, u ∈ running_of cs client → ∃ w, doing ws w (client, u)
}.

(** The jobs sent carry the keys of all the files their group reads. *)
Definition sent_ok (log : list WorkerManagerInMessage) : Prop :=
  ∀ w job f, Wm_WorkerJob w job ∈ log → dep_of (job_group job) f → is_Some (dep_keys job !! f).

Section invariant.
Context {iter : IterOrder} {ops : CacheOps} {laws : CacheLaws}.
Implicit Types (s : Scheduler) (c : SchedulerClientData).

Record inv (P : Groups) (F : Files) (s : Scheduler) : Prop := {
  inv_client : ∀ client c, clients s !! client = Some c → client_ok P F client c;
  inv_counts : ∀ client c, clients s !! client = Some c → executor_open s = true →
    counts_ok P (executor s) client c;
  inv_flight : NoDup P;
  inv_queue : queue_ok (ready_execs s) (clients s);
  inv_jobs : jobs_ok (connected_workers s) (clients s);
  inv_sent : sent_ok (worker_manager s);
  inv_cache : cache_ok (cache s)
}.

(** What no part of a handler changes. *)
Definition static (c : SchedulerClientData) := (cd_dag c, cd_callbacks c, input_of c).
Definition has_handle s client f : Prop :=
  ∃ c, clients s !! client = Some c ∧ is_Some (file_handles c !! f).
Record frame (s s' : Scheduler) : Prop := {
  fr_static : static <$> clients s' = static <$> clients s;
  fr_handles : ∀ client f, has_handle s client f → has_handle s' client f;
  fr_open : executor_open s' = executor_open s
}.

#[local] Instance frame_preorder : PreOrder frame.
Proof.
  split; [by split|]. intros s1 s2 s3 [H1 H2 H3] [H1' H2' H3'].
  split; [congruence|by eauto|congruence].
Qed.

Lemma frame_lookup s s' client c :
  frame s s' → clients s !! client = Some c →
  ∃ c', clients s' !! client = Some c' ∧ static c' = static c.
Proof.
  intros [Hst _ _] Hc. apply (f_equal (.!! client)) in Hst.
  rewrite !lookup_fmap, Hc in Hst. destruct (clients s' !! client) as [c'|]; [|done].
  exists c'. split; [done|]. by apply (inj Some).
Qed.

(** ** Lemmas on clients *)
Lemma client_ok_agree P F P' F' client c :
  (∀ u, (client, u) ∈ P ↔ (client, u) ∈ P') → (∀ f, (client, f) ∈ F → (client, f) ∈ F') →
  client_ok P F client c → client_ok P' F' client c.
Proof.
  intros HP HF [H1 H2 H3 H4 H5 H6 H7 H8]. unfold unsettled, active in *.
  split; try done.
  - intros u. unfold active. rewrite <-HP. apply H5.
  - intros u. rewrite <-HP. apply H6.
  - intros u. rewrite <-HP. apply H7.
  - intros u fs f Hu Hf. destruct (H8 u fs f Hu Hf) as [?|[? Hprod]]; [left; auto|right].
    split; [done|]. intros u' g' Hu' Ho. unfold unsettled, active. rewrite <-HP. eauto.
Qed.

Lemma counts_ok_agree P P' log log' client c c' :
  static c' = static c →
  (∀ u, unsettled P client c u ↔ unsettled P' client c' u) →
  (∀ u, settled_count client u log' = settled_count client u log) →
  counts_ok P log client c → counts_ok P' log' client c'.
Proof.
  intros Hst Hu Hl Hc u Hg Hw. injection Hst as Hd Hcb _. rewrite Hd in Hg. rewrite Hcb in Hw.
  rewrite <-Hu, Hl. by apply Hc.
Qed.

(** Moving groups between the three active sets. *)
Lemma client_ok_move P F P' client c c' :
  static c' = static c → missing_deps c' = missing_deps c → file_handles c' = file_handles c →
  (∀ u, active P' client c' u ↔ active P client c u) →
  (∀ u, u ∈ ready_groups c' → (u ∉ running_groups c') ∧ (client, u) ∉ P') →
  (∀ u, u ∈ running_groups c' → (client, u) ∉ P') →
  client_ok P F client c → client_ok P' F client c'.
Proof.
  intros Hst Hm Hh Ha Hr Hn [H1 H2 H3 H4 H5 H6 H7 H8]. injection Hst as Hd Hc Hi.
  split; rewrite ?Hd, ?Hc, ?Hi, ?Hm, ?Hh; try done.
  - intros u Hu%Ha. by apply H5.
  - intros u fs f Hu Hf. destruct (H8 u fs f Hu Hf) as [?|[? Hprod]]; [by left|right].
    split; [done|]. intros u' g' Hu' Ho. unfold unsettled. rewrite Hm, Ha. by eapply Hprod.
Qed.

Lemma unsettled_move P P' client c c' u :
  missing_deps c' = missing_deps c → (active P' client c' u ↔ active P client c u) →
  unsettled P client c u ↔ unsettled P' client c' u.
Proof. intros Hm Ha. unfold unsettled. by rewrite Hm, Ha. Qed.

(** A file that no group waits for needs no propagation. *)
Lemma client_ok_propagated P F client c f :
  (∀ u fs, missing_deps c !! u = Some fs → f ∉ fs) →
  client_ok P ((client, f) :: F) client c → client_ok P F client c.
Proof.
  intros Hf [H1 H2 H3 H4 H5 H6 H7 H8]. split; try done. intros u fs f' Hu Hf'.
  destruct (H8 u fs f' Hu Hf') as [[[= ->]|?]%elem_of_cons|?]; [|by left|by right].
  by destruct (Hf u fs).
Qed.

(** [release_group], when the group still waits. *)
Lemma client_ok_release P F client c u f fs :
  client_ok P F client c → missing_deps c !! u = Some fs → fs ∖ {[f]} ≠ ∅ →
  is_Some (file_handles c !! f) →
  client_ok P F client (set_missing_deps (<[u := fs ∖ {[f]}]> (missing_deps c)) c).
Proof.
  intros [H1 H2 H3 H4 H5 H6 H7 H8] Hu Hne Hh.
  assert (∀ u', is_Some (<[u := fs ∖ {[f]}]> (missing_deps c) !! u') ↔
    is_Some (missing_deps c !! u')) as Hdom.
  { intros u'. rewrite lookup_insert. destruct (decide (u = u')) as [<-|]; [|done]. rewrite Hu.
    split; eauto. }
  split; simpl; try done.
  - intros u' fs'. rewrite lookup_insert. destruct (decide (u = u')) as [<-|]; [|apply H4].
    intros [= <-]. split; [done|]. destruct (H4 u fs Hu) as (_ & g & Hg & Hd & Hk).
    exists g. split_and!; [done|set_solver|]. intros f' Hd' Hf'.
    destruct (decide (f' = f)) as [->|]; [done|]. apply Hk; set_solver.
  - intros u' Hu'. change (active P client c u') in Hu'. destruct (H5 u' Hu') as [Hn ?].
    split; [|done]. apply eq_None_not_Some. rewrite Hdom. rewrite Hn. by intros [].
  - intros u' fs' f'. unfold unsettled. simpl. setoid_rewrite Hdom. rewrite lookup_insert.
    destruct (decide (u = u')) as [<-|]; [|apply H8]. intros [= <-] Hf'.
    apply (H8 u fs); [done|set_solver].
Qed.

(** [release_group], when the file was the last one. *)
Lemma client_ok_released P F client c u f fs :
  client_ok P F client c → missing_deps c !! u = Some fs → fs ∖ {[f]} = ∅ →
  is_Some (file_handles c !! f) →
  client_ok P F client (set_ready_groups ({[u]} ∪ ready_groups c)
    (set_missing_deps (delete u (missing_deps c)) c)).
Proof.
  intros [H1 H2 H3 H4 H5 H6 H7 H8] Hu Hfs Hh.
  assert (¬ active P client c u) as Hna.
  { intros Ha. destruct (H5 u Ha). congruence. }
  unfold active in Hna. split; simpl; try done.
  - intros u' fs' [_ Hu']%lookup_delete_Some. by apply H4.
  - intros u' Hu'. unfold active in Hu'. simpl in Hu'.
    destruct (decide (u' = u)) as [->|Hne].
    + split; [apply lookup_delete_eq|]. destruct (H4 u fs Hu) as (_ & g & Hg & _ & Hk).
      exists g. split; [done|]. intros f' Hd'. destruct (decide (f' = f)) as [->|]; [done|].
      apply Hk; set_solver.
    + rewrite lookup_delete_ne by done. apply H5. unfold active. set_solver.
  - intros u' [->%elem_of_singleton|Hu']%elem_of_union; [set_solver|]. by apply H6.
  - intros u' fs' f' [_ Hu']%lookup_delete_Some Hf'. destruct (H8 u' fs' f' Hu' Hf') as
      [?|[? Hprod]]; [by left|right]. split; [done|]. intros u2 g2 Hg2 Ho2.
    destruct (Hprod u2 g2 Hg2 Ho2) as [Hs|Ha]; unfold unsettled, active; simpl.
    + destruct (decide (u2 = u)) as [->|]; [set_solver|]. rewrite lookup_delete_ne by done. by left.
    + unfold active in Ha. set_solver.
Qed.

(** [skip_group]: the outputs of the group have to be propagated. *)
Lemma client_ok_skip P F client c u g fs :
  client_ok P F client c → missing_deps c !! u = Some fs → groups_of c !! u = Some g →
  client_ok P ((pair client <$> outputs g) ++ F) client
    (set_missing_deps (delete u (missing_deps c)) c).
Proof.
  intros [H1 H2 H3 H4 H5 H6 H7 H8] Hu Hg. split; simpl; try done.
  - intros u' fs' [_ Hu']%lookup_delete_Some. by apply H4.
  - intros u' Hu'. destruct (H5 u' Hu') as [Hn ?]. split; [|done].
    apply lookup_delete_None. by right.
  - intros u' fs' f' [_ Hu']%lookup_delete_Some Hf'.
    destruct (H8 u' fs' f' Hu' Hf') as [?|[? Hprod]]; [left; set_solver|].
    destruct (decide (f' ∈ outputs g)) as [Hin|Hout].
    { left. apply elem_of_app. left. by apply list_elem_of_fmap_2. }
    right. split; [done|]. intros u2 g2 Hg2 Ho2.
    destruct (Hprod u2 g2 Hg2 Ho2) as [Hs|Ha]; [left|by right]. simpl.
    destruct (decide (u2 = u)) as [->|]; [|by rewrite lookup_delete_ne by done].
    simplify_eq. by rewrite elem_of_outputs in Hout.
Qed.

(** [exec_completed]: the outputs are stored and have to be propagated. *)
Lemma client_ok_complete P F client c u g (outs : FileKeys) :
  client_ok ((client, u) :: P) F client c → (client, u) ∉ P → groups_of c !! u = Some g →
  only_outputs outs g →
  client_ok P ((pair client <$> outputs g) ++ F) client
    (set_file_handles (outs ∪ file_handles c) c).
Proof.
  intros [H1 H2 H3 H4 H5 H6 H7 H8] HuP Hg Honly.
  assert (∀ f, is_Some (file_handles c !! f) → is_Some ((outs ∪ file_handles c) !! f)) as Hgrow.
  { intros f [h Hh]. rewrite lookup_union. rewrite Hh. destruct (outs !! f); cbn; eauto. }
  split; simpl; try done.
  - intros u' fs' Hu'. destruct (H4 u' fs' Hu') as (? & g' & ? & ? & ?).
    split; [done|]. exists g'. split_and!; auto.
  - intros u' Hu'. destruct (H5 u') as (? & g' & Hg' & Hk).
    { unfold active in *. set_solver. }
    split; [done|]. exists g'. split; [done|]. intros f Hf. by apply Hgrow, Hk.
  - intros u' Hu'%H6. set_solver.
  - intros u' Hu'%H7. set_solver.
  - intros u' fs' f' Hu' Hf'. destruct (H8 u' fs' f' Hu' Hf') as [?|[Hnone Hprod]]; [left; set_solver|].
    destruct (decide (f' ∈ outputs g)) as [Hin|Hout].
    { left. apply elem_of_app. left. by apply list_elem_of_fmap_2. }
    right. rewrite elem_of_outputs in Hout. split.
    + apply lookup_union_None. split; [|done]. apply eq_None_not_Some. by intros ?%Honly.
    + intros u2 g2 Hg2 Ho2. assert (u2 ≠ u) by (intros ->; simplify_eq; done).
      destruct (Hprod u2 g2 Hg2 Ho2) as [?|Ha]; [by left|right]. unfold active in *. set_solver.
Qed.

(** [handle_file_ready]: the file has to be propagated. *)
Lemma client_ok_file P F client c f h :
  client_ok P F client c →
  client_ok P ((client, f) :: F) client (set_file_handles (<[f := h]> (file_handles c)) c).
Proof.
  intros [H1 H2 H3 H4 H5 H6 H7 H8].
  assert (∀ f', is_Some (file_handles c !! f') → is_Some (<[f := h]> (file_handles c) !! f')) as Hgrow.
  { intros f' ?. rewrite lookup_insert. destruct (decide _); eauto. }
  split; simpl; try done.
  - intros u' fs' Hu'. destruct (H4 u' fs' Hu') as (? & g' & ? & ? & ?).
    split; [done|]. exists g'. split_and!; auto.
  - intros u' Hu'. destruct (H5 u' Hu') as (? & g' & Hg' & Hk).
    split; [done|]. exists g'. split; [done|]. intros f' Hf'. by apply Hgrow, Hk.
  - intros u' fs' f' Hu' Hf'. destruct (H8 u' fs' f' Hu' Hf') as [?|[Hnone Hprod]]; [left; set_solver|].
    destruct (decide (f' = f)) as [->|]; [left; set_solver|]. right.
    split; [by rewrite lookup_insert_ne|done].
Qed.
End invariant.
