(* ===== verification/SchedulerSpec.v ===== *)
(** * The pieces of the handlers preserve the invariant of the scheduler *)
From S2P Require Import Prelude Paths StoreKey Store Dag Cache CheckDag CacheService Scheduler.
From S2P Require Import SchedulerInv.

Section spec.
Context {iter : IterOrder} {ops : CacheOps} {laws : CacheLaws}.
Implicit Types (s : Scheduler) (c : SchedulerClientData).

#[local] Existing Instance frame_preorder.

(** ** Logging *)
Definition quiet (m : SchedulerExecutorMessage) : Prop := ∀ client u, settles client u m = false.
Definition logged (l : list SchedulerExecutorMessage) s : Scheduler :=
  with_executor (executor s ++ l) s.

Lemma logged_nil s : logged [] s = s.
Proof. destruct s. unfold logged, with_executor. simpl. by rewrite app_nil_r. Qed.

Lemma settled_count_app client u l k :
  settled_count client u (l ++ k) = settled_count client u l + settled_count client u k.
Proof. unfold settled_count. by rewrite filter_app, length_app. Qed.

Lemma settled_count_quiet client u l : Forall quiet l → settled_count client u l = 0.
Proof.
  unfold settled_count. induction 1 as [|m l Hm _ IH]; [done|].
  rewrite filter_cons, decide_False; [done|]. by rewrite Hm.
Qed.

Lemma settled_count_one client u client' u' m :
  (∀ a b, settles a b m = bool_decide (client' = a ∧ u' = b)) →
  settled_count client u [m] = if bool_decide (client' = client ∧ u' = u) then 1 else 0.
Proof.
  intros Hm. unfold settled_count. rewrite filter_cons, filter_nil, Hm.
  by destruct (bool_decide _).
Qed.

Lemma wp_send_executor m (Q : unit → Scheduler → Prop) E s :
  (executor_open s = true → Q tt (logged [m] s)) → (executor_open s = false → E s) →
  wp (send_executor m) Q E s.
Proof.
  intros HQ HE. apply wp_bind, wp_get. destruct (executor_open s); [|by apply HE].
  apply wp_modify. by apply HQ.
Qed.

Lemma wp_notify client c g m (Q : unit → Scheduler → Prop) E s :
  (∀ l, l = (if executor_open s && bool_decide (g ∈ watch_executions (cd_callbacks c))
             then [(client, m)] else []) → Q tt (logged l s)) →
  wp (notify client c g m) Q E s.
Proof.
  intros HQ. unfold notify. destruct (bool_decide _) eqn:Hw.
  - apply wp_or_warn, wp_send_executor; intros Ho; rewrite Ho in HQ; [by apply HQ|].
    rewrite <-(logged_nil s). by apply HQ.
  - apply wp_ret. rewrite <-(logged_nil s). apply HQ. by rewrite andb_false_r.
Qed.

Lemma wp_send_file client f b (Q : unit → Scheduler → Prop) E s :
  (∀ l, Forall quiet l → Q tt (logged l s)) → wp (send_file client f b) Q E s.
Proof.
  intros HQ. assert (Q tt s) by (rewrite <-(logged_nil s); by apply HQ).
  apply wp_bind, wp_gets. destruct (clients s !! client) as [c|]; [|done].
  destruct (bool_decide _); [done|]. destruct (file_handles c !! f) as [h|]; [|done].
  apply wp_or_warn, wp_send_executor; intros _; [|done]. apply HQ. by repeat constructor.
Qed.

(** A message that does not settle a group. *)
Lemma inv_logged P F l s : Forall quiet l → inv P F s → inv P F (logged l s).
Proof.
  intros Hl [H1 H2 H3 H4 H5 H6 H7]. split; try done. intros client c Hc Ho.
  eapply counts_ok_agree; [done|done| |by apply H2].
  intros u. simpl. rewrite settled_count_app, (settled_count_quiet _ _ l) by done. lia.
Qed.

Lemma frame_same_clients s s' :
  clients s' = clients s → executor_open s' = executor_open s → frame s s'.
Proof. intros Hc Ho. split; [by rewrite Hc| |done]. unfold has_handle. by rewrite Hc. Qed.

(** ** Changing one client *)
Lemma alter_insert_Some {K V} `{Countable K} (f : V → V) (m : gmap K V) k v :
  m !! k = Some v → alter f k m = <[k := f v]> m.
Proof.
  intros Hk. apply map_eq. intros i. rewrite lookup_insert. destruct (decide (k = i)) as [<-|].
  - by rewrite lookup_alter_eq, Hk.
  - by rewrite lookup_alter_ne.
Qed.

Lemma wp_update_client client f c (Q : unit → Scheduler → Prop) E s :
  clients s !! client = Some c →
  Q tt (with_clients (<[client := f c]> (clients s)) s) → wp (update_client client f) Q E s.
Proof. intros Hc HQ. apply wp_modify. by rewrite (alter_insert_Some _ _ _ c). Qed.

Lemma wp_the_client client c (Q : SchedulerClientData → Scheduler → Prop) E s :
  clients s !! client = Some c → Q c s → wp (the_client client) Q E s.
Proof.
  intros Hc HQ. apply wp_bind, wp_gets. eapply wp_lift_ret; [by rewrite Hc|done].
Qed.

Lemma wp_get_client client c (Q : option SchedulerClientData → Scheduler → Prop) E s :
  clients s !! client = Some c → Q (Some c) s → wp (get_client client) Q E s.
Proof. intros Hc HQ. apply wp_gets. by rewrite Hc. Qed.

Lemma queue_ok_same ready cs client c c' :
  cs !! client = Some c → ready_groups c' = ready_groups c →
  queue_ok ready cs → queue_ok ready (<[client := c']> cs).
Proof.
  intros Hc Hr [Hn Hq]. split; [done|]. intros cl u. rewrite Hq. unfold ready_of.
  rewrite lookup_insert. destruct (decide (client = cl)) as [<-|]; [|done].
  by rewrite Hc, Hr.
Qed.

Lemma jobs_ok_same ws cs client c c' :
  cs !! client = Some c → running_groups c' = running_groups c →
  jobs_ok ws cs → jobs_ok ws (<[client := c']> cs).
Proof.
  intros Hc Hr [H1 H2 H3].
  assert (∀ cl, running_of (<[client := c']> cs) cl = running_of cs cl) as Hrun.
  { intros cl. unfold running_of. rewrite lookup_insert.
    destruct (decide (client = cl)) as [<-|]; [|done]. by rewrite Hc. }
  assert (∀ cl, is_Some (<[client := c']> cs !! cl) ↔ is_Some (cs !! cl)) as Hdom.
  { intros cl. rewrite lookup_insert. destruct (decide (client = cl)) as [<-|]; [|done].
    rewrite Hc. split; eauto. }
  split; intros *; rewrite ?Hrun, ?Hdom; eauto.
Qed.

(** The rule for all the steps that change one client: the rest of the state is
    described by its projections. *)
Lemma inv_set_client P F P' F' s s' client c c' :
  inv P F s → clients s !! client = Some c → clients s' = <[client := c']> (clients s) →
  (∀ cl u, cl ≠ client → (cl, u) ∈ P ↔ (cl, u) ∈ P') →
  (∀ cl f, cl ≠ client → (cl, f) ∈ F → (cl, f) ∈ F') →
  NoDup P' → client_ok P' F' client c' →
  executor_open s' = executor_open s →
  (executor_open s = true → counts_ok P' (executor s') client c') →
  (∀ cl u, cl ≠ client → settled_count cl u (executor s') = settled_count cl u (executor s)) →
  queue_ok (ready_execs s') (<[client := c']> (clients s)) →
  jobs_ok (connected_workers s') (<[client := c']> (clients s)) →
  sent_ok (worker_manager s') → cache_ok (cache s') → inv P' F' s'.
Proof.
  intros [H1 H2 H3 H4 H5 H6 H7] Hc Hcs HP HF HP' Hok Hopen Hcnt Hlog Hq Hj Hsent Hcache.
  split; rewrite ?Hcs, ?Hopen; try done.
  - intros cl d. rewrite lookup_insert. destruct (decide (client = cl)) as [<-|Hne].
    + intros [= <-]. done.
    + intros Hd. eapply client_ok_agree; [| |by apply H1]; intros; [by apply HP|by apply HF].
  - intros cl d. rewrite lookup_insert. destruct (decide (client = cl)) as [<-|Hne].
    + intros [= <-] Ho. by apply Hcnt.
    + intros Hd Ho. eapply counts_ok_agree; [done| |by intros; apply Hlog|by apply H2].
      intros u. unfold unsettled, active. by rewrite HP.
Qed.

Lemma frame_set_client s s' client c c' :
  clients s !! client = Some c → clients s' = <[client := c']> (clients s) →
  static c' = static c → (∀ f, is_Some (file_handles c !! f) → is_Some (file_handles c' !! f)) →
  executor_open s' = executor_open s → frame s s'.
Proof.
  intros Hc Hcs Hst Hh Ho. split; [| |done].
  - rewrite Hcs, fmap_insert, Hst. apply insert_id. by rewrite lookup_fmap, Hc.
  - intros cl f (d & Hd & Hf). unfold has_handle. rewrite Hcs.
    destruct (decide (client = cl)) as [<-|Hne].
    + exists c'. rewrite lookup_insert_eq. simplify_eq. eauto.
    + exists d. by rewrite lookup_insert_ne.
Qed.

(** The amount of work after a change. *)
Lemma map_size_delete_S {K V} `{Countable K} (m : gmap K V) k v :
  m !! k = Some v → size m = S (size (delete k m)).
Proof.
  intros Hk. rewrite <-(insert_delete_id m k v) at 1 by done.
  apply map_size_insert_None, lookup_delete_eq.
Qed.

Lemma sum_list_with_perm {A} (f : A → nat) l k : l ≡ₚ k → sum_list_with f l = sum_list_with f k.
Proof. induction 1; simpl; lia. Qed.

Definition total_waiting (cs : gmap ClientUuid SchedulerClientData) : nat :=
  sum_list_with (λ p, size (missing_deps p.2)) (map_to_list cs).

Lemma total_waiting_insert cs client c c' :
  cs !! client = Some c →
  total_waiting (<[client := c']> cs) + size (missing_deps c)
    = total_waiting cs + size (missing_deps c').
Proof.
  intros Hc. unfold total_waiting.
  rewrite <-(insert_delete_id cs client c) at 2 by done.
  rewrite <-insert_delete_eq.
  rewrite !(sum_list_with_perm _ _ _ (map_to_list_insert _ _ _ (lookup_delete_eq cs client))).
  simpl. lia.
Qed.

(** The queue after a push and after the removal of an element. *)
Lemma queue_ok_push ready cs client c c' dp p u :
  cs !! client = Some c → u ∉ ready_groups c → ready_groups c' = {[u]} ∪ ready_groups c →
  queue_ok ready cs → queue_ok (heap_push (dp, p, u, client) ready) (<[client := c']> cs).
Proof.
  intros Hc Hu Hr [Hn Hq]. unfold heap_push. split.
  - rewrite fmap_cons. apply NoDup_cons. split; [|done].
    change (exec_id (dp, p, u, client)) with (client, u). rewrite Hq. unfold ready_of.
    by rewrite Hc.
  - intros cl u'. rewrite fmap_cons, elem_of_cons, Hq. unfold ready_of, exec_id. simpl.
    rewrite lookup_insert. destruct (decide (client = cl)) as [<-|Hne].
    + rewrite Hc, Hr, elem_of_union, elem_of_singleton. naive_solver.
    + naive_solver.
Qed.

Lemma queue_ok_perm ready ready' cs : ready ≡ₚ ready' → queue_ok ready cs → queue_ok ready' cs.
Proof. intros Hp [Hn Hq]. split; [by rewrite <-Hp|]. intros cl u. by rewrite <-Hp. Qed.

Lemma queue_ok_remove e ready cs client c c' u :
  exec_id e = (client, u) → cs !! client = Some c → ready_groups c' = ready_groups c ∖ {[u]} →
  queue_ok (e :: ready) cs → queue_ok ready (<[client := c']> cs).
Proof.
  intros He Hc Hr [Hn Hq]. rewrite fmap_cons, He in *. apply NoDup_cons in Hn as [Hni Hn].
  split; [done|]. intros cl u'. specialize (Hq cl u'). rewrite elem_of_cons in Hq.
  unfold ready_of in *. rewrite lookup_insert. destruct (decide (client = cl)) as [<-|Hne].
  - rewrite Hc in Hq. rewrite Hr, elem_of_difference, <-Hq, elem_of_singleton.
    split; [|naive_solver]. intros Hin. split; [by right|]. by intros ->.
  - rewrite <-Hq. naive_solver.
Qed.

Lemma queue_ready e ready cs client u :
  exec_id e = (client, u) → queue_ok (e :: ready) cs →
  ∃ c, cs !! client = Some c ∧ u ∈ ready_groups c.
Proof.
  intros He [_ Hq]. specialize (Hq client u). unfold ready_of in Hq.
  rewrite fmap_cons, He in Hq. destruct (cs !! client) as [c|]; [|set_solver].
  exists c. split; [done|]. apply Hq. by left.
Qed.

(** ** Propagating a file *)
Definition keeps (P : Groups) (F : Files) s : unit → Scheduler → Prop :=
  λ _ s', inv P F s' ∧ frame s s' ∧ work s' ≤ work s.

Lemma keeps_trans P F s s1 s2 :
  frame s s1 → work s1 ≤ work s → keeps P F s1 tt s2 → keeps P F s tt s2.
Proof. intros Hf Hw (? & ? & ?). split_and!; [done|by trans s1|lia]. Qed.

(** The groups of a client that wait for a file. *)
Definition waits_for s client f u : Prop :=
  ∃ c fs, clients s !! client = Some c ∧ missing_deps c !! u = Some fs ∧ f ∈ fs.

Lemma inv_propagated P F s client f :
  (∀ u, ¬ waits_for s client f u) → inv P ((client, f) :: F) s → inv P F s.
Proof.
  intros Hf [H1 H2 H3 H4 H5 H6 H7]. split; try done. intros cl c Hc.
  destruct (decide (cl = client)) as [->|Hne].
  - apply (client_ok_propagated _ _ _ _ f); [|by apply H1].
    intros u fs Hu Hin. apply (Hf u). by exists c, fs.
  - eapply client_ok_agree; [done| |by apply H1]. set_solver.
Qed.

Lemma waits_for_input P F s client c f u :
  inv P F s → clients s !! client = Some c → waits_for s client f u →
  ∃ gs, input_of c !! f = Some gs ∧ u ∈ gs.
Proof.
  intros Hinv Hc (c' & fs & Hc' & Hu & Hf). simplify_eq.
  pose proof (inv_client _ _ _ Hinv _ _ Hc) as Hok.
  destruct (co_missing _ _ _ _ Hok u fs Hu) as (_ & g & Hg & Hd & _).
  assert (u ∈ default ∅ (input_of c !! f)) as Hin by (apply (co_inputs _ _ _ _ Hok); eauto).
  destruct (input_of c !! f) as [gs|]; [by exists gs|set_solver].
Qed.

(** Two states that differ in the clients and the queue only. *)
Definition same_rest s s' : Prop :=
  executor s' = executor s ∧ executor_open s' = executor_open s ∧
  worker_manager s' = worker_manager s ∧ connected_workers s' = connected_workers s ∧
  cache s' = cache s.

Definition released P F s s' client f u : Prop :=
  keeps P F s tt s' ∧ ∀ u', waits_for s' client f u' → u' ≠ u ∧ waits_for s client f u'.

Lemma group_released P F s s' client c f u dp p fs :
  inv P F s → clients s !! client = Some c → is_Some (file_handles c !! f) →
  missing_deps c !! u = Some fs → fs ∖ {[f]} = ∅ →
  clients s' = <[client := set_ready_groups ({[u]} ∪ ready_groups c)
    (set_missing_deps (delete u (missing_deps c)) c)]> (clients s) →
  ready_execs s' = heap_push (dp, p, u, client) (ready_execs s) → same_rest s s' →
  released P F s s' client f u.
Proof.
  intros Hinv Hc Hh Hu Hfs Hcs Hre (He & Ho & Hw & Hcw & Hca).
  destruct (Hinv) as [H1 H2 H3 H4 H5 H6 H7]. pose proof (H1 client c Hc) as Hok.
  set (c' := set_ready_groups _ _) in *.
  assert (u ∉ ready_groups c) as Hnr.
  { intros Hr. destruct (co_active _ _ _ _ Hok u) as [? _]; [by left|congruence]. }
  unfold released, keeps. split_and!.
  - eapply (inv_set_client P F P F s s'); try done; rewrite ?He, ?Hre, ?Hw, ?Hcw, ?Hca; try done.
    + by eapply client_ok_released.
    + intros Hopen. eapply counts_ok_agree; [..|by apply H2]; [done| |done].
      intros u'. unfold unsettled, active, c'. simpl. destruct (decide (u' = u)) as [->|].
      * rewrite lookup_delete_eq, Hu. set_solver.
      * rewrite lookup_delete_ne by done. set_solver.
    + by eapply queue_ok_push.
    + by eapply jobs_ok_same.
  - by eapply (frame_set_client s s' client c c').
  - unfold work. fold (total_waiting (clients s')) (total_waiting (clients s)).
    rewrite Hre, Hcs. pose proof (total_waiting_insert (clients s) client c c' Hc) as Ht.
    pose proof (map_size_delete_S _ _ _ Hu). simpl in *. lia.
  - intros u' (c2 & fs2 & Hc2 & Hu2 & Hf2). rewrite Hcs, lookup_insert_eq in Hc2.
    injection Hc2 as <-. simpl in Hu2. apply lookup_delete_Some in Hu2 as [? ?].
    split; [done|]. by exists c, fs2.
Qed.

Lemma group_not_released P F s s' client c f u fs :
  inv P F s → clients s !! client = Some c → is_Some (file_handles c !! f) →
  missing_deps c !! u = Some fs → fs ∖ {[f]} ≠ ∅ →
  clients s' = <[client := set_missing_deps (<[u := fs ∖ {[f]}]> (missing_deps c)) c]> (clients s) →
  ready_execs s' = ready_execs s → same_rest s s' →
  released P F s s' client f u.
Proof.
  intros Hinv Hc Hh Hu Hfs Hcs Hre (He & Ho & Hw & Hcw & Hca).
  destruct (Hinv) as [H1 H2 H3 H4 H5 H6 H7]. pose proof (H1 client c Hc) as Hok.
  set (c' := set_missing_deps _ _) in *. unfold released, keeps. split_and!.
  - eapply (inv_set_client P F P F s s'); try done; rewrite ?He, ?Hre, ?Hw, ?Hcw, ?Hca; try done.
    + by eapply client_ok_release.
    + intros Hopen. eapply counts_ok_agree; [..|by apply H2]; [done| |done].
      intros u'. unfold unsettled, active, c'. simpl. rewrite lookup_insert.
      destruct (decide (u = u')) as [<-|]; [|done]. rewrite Hu. split; [|naive_solver].
      intros _. left. eauto.
    + by eapply queue_ok_same.
    + by eapply jobs_ok_same.
  - by eapply (frame_set_client s s' client c c').
  - unfold work. fold (total_waiting (clients s')) (total_waiting (clients s)).
    rewrite Hre, Hcs. pose proof (total_waiting_insert (clients s) client c c' Hc) as Ht.
    assert (size (missing_deps c') = size (missing_deps c)) as Hsz
      by (unfold c'; simpl; by apply map_size_insert_Some).
    lia.
  - intros u' (c2 & fs2 & Hc2 & Hu2 & Hf2). rewrite Hcs, lookup_insert_eq in Hc2.
    injection Hc2 as <-. simpl in Hu2. rewrite lookup_insert in Hu2.
    destruct (decide (u = u')) as [<-|Hne]; [simplify_eq; set_solver|].
    split; [done|]. by exists c, fs2.
Qed.

Lemma release_group_spec P F s client c f u :
  inv P F s → clients s !! client = Some c → is_Some (groups_of c !! u) →
  has_handle s client f →
  wp (release_group client f u) (λ _ s', released P F s s' client f u) may_fail s.
Proof.
  intros Hinv Hc [g Hg] (c0 & Hc0 & Hh). simplify_eq.
  apply wp_bind. apply (wp_the_client _ c); [done|].
  apply wp_bind. eapply wp_lift_ret; [unfold index; by rewrite Hg|].
  destruct (missing_deps c !! u) as [fs|] eqn:Hu.
  2:{ apply wp_ret. split; [by split_and!|]. intros u' Hw. split; [|done].
      intros ->. destruct Hw as (c' & fs & ? & ? & ?). by simplify_eq. }
  apply wp_bind. eapply wp_update_client; [done|].
  destruct (bool_decide (fs ∖ {[f]} = ∅)) eqn:Hfs.
  - apply bool_decide_eq_true in Hfs.
    apply wp_bind. eapply wp_update_client; [apply lookup_insert_eq|].
    apply wp_bind, wp_modify. eapply wp_update_client; [apply lookup_insert_eq|].
    eapply group_released; [done..| |done|done].
    simpl. by rewrite !insert_insert_eq, delete_insert_eq.
  - apply bool_decide_eq_false in Hfs. apply wp_ret. by eapply group_not_released.
Qed.

(** ** Failed files *)
Lemma inv_files P F F' s : (∀ x, x ∈ F → x ∈ F') → inv P F s → inv P F' s.
Proof.
  intros HF [H1 H2 H3 H4 H5 H6 H7]. split; try done. intros cl c Hc.
  eapply client_ok_agree; [done| |by apply H1]. auto.
Qed.

(** What a part of [file_failed] does: the files [fs] are left to propagate, no
    new group waits for [f]. *)
Record skipped P F s s' client f (us : list ExecutionGroupUuid) (fs : list FileUuid) : Prop := {
  sk_keeps : keeps P ((pair client <$> fs) ++ F) s tt s';
  sk_waiting : waiting s' client ≤ waiting s client;
  sk_less : fs ≠ [] → waiting s' client < waiting s client;
  sk_waits : ∀ u, waits_for s' client f u → (u ∉ us) ∧ waits_for s client f u
}.

Lemma waiting_eq s client c : clients s !! client = Some c → waiting s client = size (missing_deps c).
Proof. intros Hc. unfold waiting. by rewrite Hc. Qed.

Lemma group_skipped P F s client c f u g fs l :
  inv P F s → clients s !! client = Some c →
  missing_deps c !! u = Some fs → groups_of c !! u = Some g →
  l = (if executor_open s && bool_decide (u ∈ watch_executions (cd_callbacks c))
       then [(client, Out_ExecutionSkipped u)] else []) →
  skipped P F s (logged l (with_clients
    (<[client := set_missing_deps (delete u (missing_deps c)) c]> (clients s)) s))
    client f [u] (outputs g).
Proof.
  intros Hinv Hc Hu Hg Hl. destruct (Hinv) as [H1 H2 H3 H4 H5 H6 H7].
  pose proof (H1 client c Hc) as Hok. set (c' := set_missing_deps _ _). set (s' := logged _ _).
  pose proof (total_waiting_insert (clients s) client c c' Hc) as Ht.
  pose proof (map_size_delete_S _ _ _ Hu) as Hsz.
  assert (clients s' !! client = Some c') as Hc' by apply lookup_insert_eq.
  assert (∀ cl u', settled_count cl u' (executor s') = settled_count cl u' (executor s) +
    if executor_open s && bool_decide (u ∈ watch_executions (cd_callbacks c))
       && bool_decide (client = cl ∧ u = u') then 1 else 0) as Hcnt.
  { intros cl u'. simpl. rewrite settled_count_app, Hl. f_equal.
    destruct (_ && _); [|done]. by apply settled_count_one. }
  split; [split_and! | | |].
  - eapply (inv_set_client P F P _ s s'); try done.
    + intros cl f' Hne Hf'. apply elem_of_app. by right.
    + by eapply client_ok_skip.
    + intros Ho u' Hu' Hwatch. rewrite Hcnt, Ho. destruct (H2 client c Hc Ho u' Hu' Hwatch) as [Hz Ho'].
      unfold unsettled, active in *. simpl. destruct (decide (u' = u)) as [->|Hne].
      * rewrite !bool_decide_eq_true_2 by done. simpl. rewrite Hz by eauto. split; [|done].
        rewrite lookup_delete_eq. intros [[? ?]|Ha]; [done|].
        destruct (co_active _ _ _ _ Hok u Ha). congruence.
      * rewrite (bool_decide_eq_false_2 (client = client ∧ u = u')) by naive_solver.
        rewrite andb_false_r, Nat.add_0_r, lookup_delete_ne by done. done.
    + intros cl u' Hne. rewrite Hcnt, (bool_decide_eq_false_2 (client = cl ∧ u = u')) by naive_solver.
      rewrite andb_false_r. lia.
    + by eapply queue_ok_same.
    + by eapply jobs_ok_same.
  - by eapply (frame_set_client s s' client c c').
  - unfold work. fold (total_waiting (clients s')) (total_waiting (clients s)). simpl in *. lia.
  - rewrite (waiting_eq s _ c), (waiting_eq s' _ c') by done. simpl in *. lia.
  - intros _. rewrite (waiting_eq s _ c), (waiting_eq s' _ c') by done. simpl in *. lia.
  - intros u' (c2 & fs2 & Hc2 & Hu2 & Hf2). rewrite Hc' in Hc2. injection Hc2 as <-.
    simpl in Hu2. apply lookup_delete_Some in Hu2 as [? ?]. split; [set_solver|]. by exists c, fs2.
Qed.

Lemma skip_group_spec P F s client c f u :
  inv P F s → clients s !! client = Some c → is_Some (groups_of c !! u) →
  wp (skip_group client u) (λ fs s', skipped P F s s' client f [u] fs) may_fail s.
Proof.
  intros Hinv Hc [g Hg]. pose proof (inv_client _ _ _ Hinv _ _ Hc) as Hok.
  apply wp_bind. apply (wp_the_client _ c); [done|].
  destruct (missing_deps c !! u) as [fs|] eqn:Hu.
  - apply wp_bind. eapply wp_update_client; [done|].
    apply wp_bind. eapply wp_lift_ret; [unfold index; by rewrite Hg|].
    assert (group_uuid g = u) as Hgu by by apply (co_keys _ _ _ _ Hok) in Hg.
    rewrite Hgu. apply wp_bind, wp_notify. intros l Hl. apply wp_ret. by eapply group_skipped.
  - apply wp_ret. split; [by split_and!|done|done|]. intros u' Hw. split; [|done].
    intros ->%list_elem_of_singleton. destruct Hw as (c' & fs & ? & ? & ?). by simplify_eq.
Qed.

Lemma skip_groups_spec P F s client c f us :
  inv P F s → clients s !! client = Some c → (∀ u, u ∈ us → is_Some (groups_of c !! u)) →
  wp (skip_groups client us) (λ fs s', skipped P F s s' client f us fs) may_fail s.
Proof.
  revert F s c. induction us as [|u us IH]; intros F s c Hinv Hc Hus.
  { apply wp_ret. split; [by split_and!|done|done|]. intros u Hw. split; [set_solver|done]. }
  apply wp_bind. eapply wp_mono; [apply (skip_group_spec P F s client c f u)| |done]; [done|done|set_solver|].
  intros fs1 s1 [(Hi1 & Hf1 & Hw1) Hle1 Hlt1 Hws1].
  destruct (frame_lookup _ _ _ _ Hf1 Hc) as (c1 & Hc1 & Hst1).
  apply wp_bind. eapply wp_mono; [apply (IH _ _ c1 Hi1 Hc1)| |done].
  { injection Hst1 as -> _ _. set_solver. }
  intros fs2 s2 [(Hi2 & Hf2 & Hw2) Hle2 Hlt2 Hws2]. apply wp_ret. split.
  - split_and!; [|by trans s1|lia]. eapply inv_files; [|done]. set_solver.
  - lia.
  - intros Hne. destruct fs1 as [|f1 fs1]; [specialize (Hlt2 Hne)|specialize (Hlt1 ltac:(done))]; lia.
  - intros u' [? [? ?]%Hws1]%Hws2. set_solver.
Qed.

Lemma file_failed_loop_spec P fuel F s client c f :
  inv P ((client, f) :: F) s → clients s !! client = Some c → waiting s client < fuel →
  wp (file_failed_loop fuel client f) (λ _ s', keeps P F s tt s' ∧
    waiting s' client ≤ waiting s client) may_fail s.
Proof.
  revert F s c f. induction fuel as [|fuel IH]; intros F s c f Hinv Hc Hfuel; [lia|].
  apply wp_bind, wp_context, wp_send_file. intros l Hl.
  apply (inv_logged _ _ l) in Hinv; [|done].
  assert (frame s (logged l s)) as Hf0 by by apply frame_same_clients.
  assert (work (logged l s) = work s) as Hw0 by done.
  assert (waiting (logged l s) client = waiting s client) as Hwt by done.
  assert (clients (logged l s) !! client = Some c) as Hc0 by done.
  revert Hinv Hf0 Hw0 Hwt Hc0. generalize (logged l s). intros s0 Hinv Hf0 Hw0 Hwt Hc0.
  apply wp_bind, (wp_get_client _ c); [done|].
  pose proof (inv_client _ _ _ Hinv _ _ Hc0) as Hok.
  destruct (input_of c !! f) as [gs|] eqn:Hin.
  2:{ apply wp_ret. split; [split_and!; [|done|lia]|lia]. eapply inv_propagated; [|done].
      intros u Hu. destruct (waits_for_input _ _ _ _ _ _ _ Hinv Hc0 Hu) as (? & ? & _). congruence. }
  apply wp_bind. eapply wp_mono; [apply (skip_groups_spec P _ s0 client c f (set_iter gs) Hinv Hc0)| |done].
  { intros u Hu%elem_of_set_iter. destruct (co_inputs _ _ _ _ Hok f u) as [Hx _].
    rewrite Hin in Hx. destruct (Hx Hu) as (g & -> & _). eauto. }
  intros fs s1 [(Hi1 & Hf1 & Hw1) Hle1 Hlt1 Hws1].
  assert (inv P ((pair client <$> fs) ++ F) s1) as Hi1'.
  { apply (inv_propagated _ _ _ client f); [|eapply inv_files; [|done]; set_solver].
    intros u [Hn Hu]%Hws1. apply Hn, elem_of_set_iter.
    destruct (waits_for_input _ _ _ _ _ _ _ Hinv Hc0 Hu) as (? & ? & ?). congruence. }
  eapply wp_mono; [apply (wp_for_each (λ l s', keeps P ((pair client <$> l) ++ F) s tt s' ∧
    waiting s' client ≤ waiting s client ∧ (l ≠ [] → waiting s' client < fuel)))| |done].
  - split; [split_and!; [done|by trans s0|lia]|]. split; [lia|]. intros Hne%Hlt1. lia.
  - intros f2 l2 s2 ((Hi2 & Hf2 & Hw2) & Hle2 & Hlt2). specialize (Hlt2 ltac:(done)).
    destruct (frame_lookup _ _ _ _ Hf2 Hc) as (c2 & Hc2 & Hst2).
    eapply wp_mono; [apply (IH _ s2 c2 f2 Hi2 Hc2 Hlt2)| |done].
    intros [] s3 [Hk3 Hle3]. split; [by eapply keeps_trans|]. split; [lia|]. intros _. lia.
  - intros [] s' (Hk & Hle & _). done.
Qed.

Lemma file_failed_spec P F s client c f :
  inv P ((client, f) :: F) s → clients s !! client = Some c →
  wp (file_failed client f) (keeps P F s) may_fail s.
Proof.
  intros Hinv Hc. apply wp_bind, wp_get.
  eapply wp_mono; [by eapply (file_failed_loop_spec P _ F s client c f); [..|lia]| |done].
  by intros [] s' [? _].
Qed.

(** ** Giving jobs to the workers *)
Lemma foldl_insert_fn {K V} `{Countable K} (v : K → V) (l : list (K * V)) (m : gmap K V) k :
  (∀ p, p ∈ l → p.2 = v p.1) →
  foldl (λ m p, <[p.1 := p.2]> m) m l !! k = if decide (k ∈ l.*1) then Some (v k) else m !! k.
Proof.
  revert m. induction l as [|[k' v'] l IH]; intros m Hl.
  { by rewrite decide_False by (simpl; set_solver). }
  cbn [foldl]. rewrite IH by set_solver. rewrite fmap_cons. simpl.
  destruct (decide (k ∈ l.*1)) as [Hin|Hnin]; [by rewrite decide_True by set_solver|].
  rewrite lookup_insert. destruct (decide (k' = k)) as [<-|Hne].
  - rewrite decide_True by set_solver. f_equal. apply (Hl (k', v')). set_solver.
  - by rewrite decide_False by set_solver.
Qed.

(** The keys sent with a job are those of the handles of all its dependencies. *)
Lemma job_keys_spec c g :
  knows_deps (file_handles c) g →
  ∃ keys, job_keys c g = Ret keys ∧
    ∀ f, dep_of g f → ∃ h, file_handles c !! f = Some h ∧ keys !! f = Some (handle_key h).
Proof.
  intros Hk. unfold job_keys.
  destruct (try_map_total (λ f, h ← unwrap "Unknown file key" (file_handles c !! f);
      Ret (f, handle_key h)) (dependencies g)) as [l Hl].
  { intros f Hf%elem_of_dependencies. destruct (Hk f Hf) as [h Hh]. rewrite Hh. by eexists. }
  rewrite Hl. eexists; split; [done|]. intros f Hf.
  destruct (Hk f Hf) as [h Hh]. exists h. split; [done|]. apply try_map_Ret in Hl.
  assert (∀ p, p ∈ l → ∃ h', file_handles c !! p.1 = Some h' ∧ p.2 = handle_key h') as Hp.
  { intros p [i Hi]%list_elem_of_lookup. destruct (Forall2_lookup_r _ _ _ i p Hl Hi) as (f' & _ & Hx).
    destruct (file_handles c !! f') as [h'|] eqn:Hf'; [|done]. cbn in Hx. simplify_eq. eauto. }
  rewrite (foldl_insert_fn (λ f, match file_handles c !! f with
    | Some h => handle_key h | None => handle_key h end)).
  - rewrite Hh, decide_True; [done|]. apply elem_of_dependencies, list_elem_of_lookup in Hf as [i Hi].
    destruct (Forall2_lookup_l _ _ _ i f Hl Hi) as (p & Hpi & Hx). rewrite Hh in Hx. cbn in Hx.
    simplify_eq. apply list_elem_of_fmap. eexists; split; [|by eapply list_elem_of_lookup_2]. done.
  - intros p (h' & -> & ->)%Hp. done.
Qed.

Lemma doing_insert ws w d client u t w' job :
  doing (<[w := mkWorker (worker_uuid d) (worker_name d) (Some (client, u, t))]> ws) w' job ↔
  (w' = w ∧ job = (client, u)) ∨ (w' ≠ w ∧ doing ws w' job).
Proof.
  unfold doing. setoid_rewrite lookup_insert. destruct (decide (w = w')) as [<-|Hne].
  - split; [|naive_solver]. intros (d' & t' & [= <-] & [= <- <-]). by left.
  - split; [right; naive_solver|]. intros [[-> _]|[_ ?]]; done.
Qed.

Lemma jobs_ok_assign ws cs client c c' w d u t :
  jobs_ok ws cs → cs !! client = Some c → ws !! w = Some d → current_job d = None →
  u ∉ running_groups c → running_groups c' = {[u]} ∪ running_groups c →
  jobs_ok (<[w := mkWorker (worker_uuid d) (worker_name d) (Some (client, u, t))]> ws)
    (<[client := c']> cs).
Proof.
  intros [H1 H2 H3] Hc Hw Hd Hu Hr.
  assert (∀ cl u', u' ∈ running_of (<[client := c']> cs) cl ↔
    (cl = client ∧ u' = u) ∨ u' ∈ running_of cs cl) as Hrun.
  { intros cl u'. unfold running_of. rewrite lookup_insert.
    destruct (decide (client = cl)) as [<-|]; [|naive_solver]. rewrite Hc, Hr. set_solver. }
  assert (∀ cl, is_Some (<[client := c']> cs !! cl) ↔ is_Some (cs !! cl)) as Hdom.
  { intros cl. rewrite lookup_insert. destruct (decide (client = cl)) as [<-|]; [|done].
    rewrite Hc. split; eauto. }
  assert (∀ w', ¬ doing ws w' (client, u)) as Hnd.
  { intros w' Hw'. apply Hu. specialize (H1 _ _ _ Hw' ltac:(by eauto)).
    unfold running_of in H1. by rewrite Hc in H1. }
  split; intros *; rewrite ?Hdom, ?Hrun, ?doing_insert.
  - intros [[-> [= -> ->]]|[_ Hx]] Hs; [by left|right; eauto].
  - intros [[-> Hx]|[Hw1 Hx]] [[-> Hy]|[Hw2 Hy]] Hs; simplify_eq; eauto; by destruct (Hnd _ Hx) || by destruct (Hnd _ Hy).
  - intros [[-> ->]|Hx].
    + exists w. rewrite doing_insert. by left.
    + destruct (H3 _ _ Hx) as [w' Hw']. exists w'. rewrite doing_insert. right. split; [|done].
      intros ->. destruct Hw' as (d' & t' & ? & ?). congruence.
Qed.

Lemma job_assigned P F s s' e rest client c u w d l lw t :
  inv P F s → ready_execs s ≡ₚ e :: rest → exec_id e = (client, u) →
  clients s !! client = Some c → connected_workers s !! w = Some d → current_job d = None →
  clients s' = <[client := set_running_groups ({[u]} ∪ running_groups c)
    (set_ready_groups (ready_groups c ∖ {[u]}) c)]> (clients s) →
  ready_execs s' = rest →
  connected_workers s' = <[w := mkWorker (worker_uuid d) (worker_name d) (Some (client, u, t))]>
    (connected_workers s) →
  executor s' = executor s ++ l → Forall quiet l → executor_open s' = executor_open s →
  worker_manager s' = worker_manager s ++ lw → sent_ok lw → cache s' = cache s →
  keeps P F s tt s' ∧ work s' < work s.
Proof.
  intros Hinv Hre He Hc Hw Hd Hcs Hre' Hws Hlog Hl Ho Hwm Hlw Hca.
  destruct (Hinv) as [H1 H2 H3 H4 H5 H6 H7]. pose proof (H1 client c Hc) as Hok.
  apply (queue_ok_perm _ _ _ Hre) in H4.
  destruct (queue_ready _ _ _ _ _ He H4) as (c0 & Hc0 & Hur). simplify_eq.
  destruct (co_ready _ _ _ _ Hok u Hur) as [Hnrun HnP].
  set (c' := set_running_groups _ _) in *.
  assert (∀ u', active P client c' u' ↔ active P client c u') as Hact.
  { intros u'. unfold active, c'. simpl. destruct (decide (u' = u)) as [->|]; set_solver. }
  assert (work s' < work s) as Hwork.
  { unfold work. fold (total_waiting (clients s')) (total_waiting (clients s)).
    rewrite Hcs, (Permutation_length Hre). simpl.
    pose proof (total_waiting_insert (clients s) client c c' Hc) as Ht. simpl in *. lia. }
  unfold keeps. split_and!; [|by eapply (frame_set_client s s' client c c')|lia|done].
  eapply (inv_set_client P F P F s s'); try done; rewrite ?Hlog, ?Hwm, ?Hws, ?Hca.
  - eapply client_ok_move; [..|exact Hok]; try done; unfold c'; simpl.
    + intros u' Hu'. destruct (co_ready _ _ _ _ Hok u'); set_solver.
    + intros u' [->%elem_of_singleton|Hu']%elem_of_union; [done|]. by apply (co_running _ _ _ _ Hok).
  - intros Hopen. eapply counts_ok_agree; [..|by apply H2]; [done| |].
    + intros u'. by apply unsettled_move.
    + intros u'. rewrite settled_count_app, (settled_count_quiet _ _ l) by done. lia.
  - intros cl u' _. rewrite settled_count_app, (settled_count_quiet _ _ l) by done. lia.
  - by eapply queue_ok_remove.
  - by eapply jobs_ok_assign.
  - intros w' job f [Hj|Hj]%elem_of_app; [by eapply H6|by eapply Hlw].
  - done.
Qed.

Definition busy_with (d : ConnectedWorker) client u t : ConnectedWorker :=
  mkWorker (worker_uuid d) (worker_name d) (Some (client, u, t)).

Lemma assign_job_spec P F s dp p u client rest w d :
  inv P F s → ready_execs s ≡ₚ (dp, p, u, client) :: rest →
  connected_workers s !! w = Some d → current_job d = None →
  wp (assign_job w u client) (λ _ s', keeps P F s tt s' ∧ work s' < work s ∧
    ready_execs s' = rest ∧
    connected_workers s' = <[w := busy_with d client u (clock s)]> (connected_workers s))
    may_fail (with_ready_execs rest s).
Proof.
  intros Hinv Hre Hw Hd.
  pose proof (queue_ok_perm _ _ _ Hre (inv_queue _ _ _ Hinv)) as Hq.
  destruct (queue_ready (dp, p, u, client) _ _ client u eq_refl Hq) as (c & Hc & Hur).
  pose proof (inv_client _ _ _ Hinv _ _ Hc) as Hok.
  destruct (co_active _ _ _ _ Hok u) as (_ & g & Hg & Hk); [by left|].
  assert (group_uuid g = u) as Hgu by by apply (co_keys _ _ _ _ Hok) in Hg.
  destruct (job_keys_spec c g Hk) as (keys & Hkeys & Hall).
  apply wp_bind, wp_modify. simpl. rewrite (alter_insert_Some _ _ _ d) by done.
  apply wp_bind, (wp_get_client _ c); [done|].
  apply wp_bind. eapply wp_update_client; [done|].
  apply wp_bind. eapply wp_update_client; [apply lookup_insert_eq|].
  simpl. rewrite insert_insert_eq.
  apply wp_bind. eapply wp_lift_ret; [unfold index; by rewrite Hg|].
  apply wp_bind. eapply wp_lift_ret; [done|].
  apply wp_bind, wp_context, wp_bind, wp_get. simpl.
  destruct (worker_manager_open s) eqn:Hwo; [|done]. apply wp_modify, wp_notify. intros l Hl.
  set (s' := logged _ _). assert (Forall quiet l) as Hq'.
  { rewrite Hl. destruct (_ && _); [|done]. by repeat constructor. }
  destruct (job_assigned P F s s' _ rest client c u w d l [Wm_WorkerJob w (mkJob g keys)] (clock s)
    Hinv Hre) as [Hkeep Hlt]; try done.
  intros w' job f [= -> ->]%list_elem_of_singleton (h & _ & Hh)%Hall. simpl. eauto.
Qed.

Definition all_busy s : Prop :=
  ∀ w d, connected_workers s !! w = Some d → is_Some (current_job d).
(** No worker is idle while an execution is ready. *)
Definition settled_queue s : Prop := ready_execs s = [] ∨ all_busy s.

(** The workers of [l] are still to be visited. *)
Lemma assign_loop_spec P F s l :
  inv P F s → NoDup l.*1 → (∀ w d, (w, d) ∈ l → connected_workers s !! w = Some d) →
  (∀ w d, connected_workers s !! w = Some d → current_job d = None → (w, d) ∈ l) →
  wp (assign_loop l) (λ _ s', keeps P F s tt s' ∧ settled_queue s')
    may_fail s.
Proof.
  revert s. induction l as [|[w d] l IH]; intros s Hinv Hnd Hin Hfree.
  { apply wp_ret. split; [by split_and!|]. right. intros w d Hw.
    destruct (current_job d) eqn:Hd; [eauto|]. specialize (Hfree _ _ Hw Hd). set_solver. }
  rewrite fmap_cons in Hnd. apply NoDup_cons in Hnd as [Hnw Hnd]. simpl in Hnw.
  assert (connected_workers s !! w = Some d) as Hw by (apply Hin; set_solver).
  cbn [assign_loop]. destruct (current_job d) as [job|] eqn:Hd.
  { apply IH; [done..|set_solver|]. intros w' d' Hw' Hd'.
    specialize (Hfree w' d' Hw' Hd'). apply elem_of_cons in Hfree as [[= -> ->]|?]; [congruence|done]. }
  apply wp_bind, wp_get.
  destruct (heap_pop ready_leb (ready_execs s)) as [[[[[dp p] u] client] rest]|] eqn:Hpop.
  2:{ apply wp_ret. split; [by split_and!|]. left. by apply heap_pop_None in Hpop. }
  apply heap_pop_perm in Hpop. apply wp_bind, wp_modify, wp_bind.
  eapply wp_mono; [by eapply (assign_job_spec P F s dp p u client rest w d)| |done].
  intros [] s1 ((Hi1 & Hf1 & Hw1) & _ & _ & Hws).
  eapply wp_mono; [apply IH; [done|done| |]| |done].
  - intros w' d' Hw'. rewrite Hws, lookup_insert_ne; [apply Hin; set_solver|].
    intros <-. apply Hnw. apply list_elem_of_fmap. by exists (w, d').
  - intros w' d'. rewrite Hws, lookup_insert. destruct (decide (w = w')) as [<-|Hne].
    + by intros [= <-].
    + intros Hw' Hd'. specialize (Hfree w' d' Hw' Hd'). set_solver.
  - intros [] s2 [Hk2 Hb]. split; [|done]. by eapply keeps_trans.
Qed.

Lemma assign_jobs_spec P F s :
  inv P F s →
  wp assign_jobs (λ _ s', keeps P F s tt s' ∧ settled_queue s') may_fail s.
Proof.
  intros Hinv. apply wp_bind, wp_get. apply assign_loop_spec; [done|apply NoDup_keys_iter| |].
  - intros w d Hw. by apply elem_of_map_iter in Hw.
  - intros w d Hw _. by apply elem_of_map_iter.
Qed.

(** ** Successful files *)

(** What the nested calls of [schedule_cached] promise for less than [n] units
    of work. *)
Definition nested_ok (n : nat) (m : M Scheduler unit) : Prop :=
  ∀ P F s, inv P F s → work s < n → wp m (keeps P F s) may_fail s.

Lemma file_success_spec n nested P F s client c f :
  nested_ok n nested → inv P ((client, f) :: F) s → clients s !! client = Some c →
  has_handle s client f → work s < n →
  wp (file_success_with nested client f) (λ _ s', keeps P F s tt s' ∧
    (settled_queue s → settled_queue s')) may_fail s.
Proof.
  intros Hnest Hinv Hc Hh Hn. apply wp_bind, wp_context, wp_send_file. intros l Hl.
  apply (inv_logged _ _ l) in Hinv; [|done].
  assert (frame s (logged l s)) as Hf0 by by apply frame_same_clients.
  assert (work (logged l s) = work s) as Hw0 by done.
  assert (clients (logged l s) !! client = Some c) as Hc0 by done.
  assert (settled_queue s → settled_queue (logged l s)) as Hq0 by done.
  apply (fr_handles _ _ Hf0) in Hh.
  revert Hinv Hf0 Hw0 Hc0 Hq0 Hh. generalize (logged l s). intros s0 Hinv Hf0 Hw0 Hc0 Hq0 Hh.
  apply wp_bind, (wp_get_client _ c); [done|].
  pose proof (inv_client _ _ _ Hinv _ _ Hc0) as Hok.
  destruct (input_of c !! f) as [gs|] eqn:Hin.
  2:{ apply wp_ret. split; [|done]. split_and!; [|done|lia]. eapply inv_propagated; [|done].
      intros u Hu. destruct (waits_for_input _ _ _ _ _ _ _ Hinv Hc0 Hu) as (? & ? & _). congruence. }
  apply wp_bind. eapply wp_mono; [apply (wp_for_each (λ us s',
    keeps P ((client, f) :: F) s0 tt s' ∧ (∀ u, u ∈ us → u ∈ gs) ∧
    ∀ u, waits_for s' client f u → u ∈ us))| |done].
  - split; [by split_and!|]. split; [by intros u ?%elem_of_set_iter|]. intros u Hu. apply elem_of_set_iter.
    destruct (waits_for_input _ _ _ _ _ _ _ Hinv Hc0 Hu) as (? & ? & ?). congruence.
  - intros u us s1 ((Hi1 & Hf1 & Hw1) & Hus & Hws).
    destruct (frame_lookup _ _ _ _ Hf1 Hc0) as (c1 & Hc1 & Hst1).
    eapply wp_mono; [apply (release_group_spec P _ s1 client c1 f u Hi1 Hc1)| |done].
    + injection Hst1 as -> _ _. destruct (co_inputs _ _ _ _ Hok f u) as [Hx _].
      rewrite Hin in Hx. destruct Hx as (g & -> & _); [apply Hus; set_solver|eauto].
    + by apply (fr_handles _ _ Hf1).
    + intros [] s2 [Hk2 Hws2]. split; [by eapply keeps_trans|]. split; [set_solver|].
      intros u' [Hne Hu']%Hws2. specialize (Hws u' Hu'). set_solver.
  - intros [] s1 ((Hi1 & Hf1 & Hw1) & _ & Hws).
    assert (inv P F s1) as Hi1'.
    { apply (inv_propagated _ _ _ client f); [|done]. intros u Hu%Hws. set_solver. }
    apply wp_bind. eapply wp_mono; [apply (Hnest P F s1 Hi1')| |done]; [lia|].
    intros [] s2 (Hi2 & Hf2 & Hw2).
    eapply wp_mono; [by apply assign_jobs_spec| |done]. intros [] s3 [(Hi3 & Hf3 & Hw3) Hq3].
    split; [|done]. split_and!; [done| |lia]. trans s0; [done|]. trans s1; [done|]. by trans s2.
Qed.

(** ** Completed executions *)
Lemma foldl_map_iter_union {K V} `{Countable K} (m m' : gmap K V) :
  foldl (λ m p, <[p.1 := p.2]> m) m (map_iter m') = m' ∪ m.
Proof.
  apply map_eq. intros k. rewrite lookup_union. destruct (m' !! k) as [v|] eqn:Hk.
  - rewrite (foldl_insert_lookup fst snd _ m (k, v)).
    + by destruct (m !! k).
    + apply NoDup_keys_iter.
    + by apply elem_of_map_iter.
  - rewrite (foldl_insert_lookup_None fst snd); [by destruct (m !! k)|].
    intros [v Hv]%elem_of_keys_iter. congruence.
Qed.

Lemma group_completed P F s s' client c g result (outs : FileKeys) l :
  inv ((client, group_uuid g) :: P) F s → clients s !! client = Some c →
  groups_of c !! group_uuid g = Some g → only_outputs outs g →
  l = (if executor_open s && bool_decide (group_uuid g ∈ watch_executions (cd_callbacks c))
       then [(client, Out_ExecutionDone (group_uuid g) result)] else []) →
  s' = with_clients (<[client := set_file_handles (outs ∪ file_handles c) c]> (clients s))
         (logged l s) →
  keeps P ((pair client <$> outputs g) ++ F) s tt s' ∧ work s' = work s.
Proof.
  intros Hinv Hc Hg Honly Hl Hs'. destruct (Hinv) as [H1 H2 H3 H4 H5 H6 H7].
  pose proof (H1 client c Hc) as Hok. apply NoDup_cons in H3 as [HnP HP].
  set (u := group_uuid g) in *. set (c' := set_file_handles _ _) in *.
  assert (clients s' = <[client := c']> (clients s)) as Hcs by by subst s'.
  assert (∀ cl u', settled_count cl u' (executor s') = settled_count cl u' (executor s) +
    if executor_open s && bool_decide (u ∈ watch_executions (cd_callbacks c))
       && bool_decide (client = cl ∧ u = u') then 1 else 0) as Hcnt.
  { intros cl u'. subst s'. simpl. rewrite settled_count_app, Hl. f_equal.
    destruct (_ && _); [|done]. by apply settled_count_one. }
  assert (work s' = work s) as Hwork.
  { unfold work. fold (total_waiting (clients s')) (total_waiting (clients s)).
    rewrite Hcs. pose proof (total_waiting_insert (clients s) client c c' Hc) as Ht.
    subst s'. simpl in *. lia. }
  unfold keeps. split_and!; [| |lia|done].
  - eapply (inv_set_client ((client, u) :: P) F P _ s s'); try done; [..|by subst s'].
    + intros cl u' Hne. rewrite elem_of_cons. naive_solver.
    + intros cl f' Hne Hf'. apply elem_of_app. by right.
    + by eapply client_ok_complete.
    + by subst s'.
    + intros Ho u' Hu' Hwatch. rewrite Hcnt, Ho.
      destruct (H2 client c Hc Ho u' Hu' Hwatch) as [Hz Ho'].
      unfold unsettled, active in *. simpl. destruct (decide (u' = u)) as [->|Hne].
      * rewrite !bool_decide_eq_true_2 by done. simpl. rewrite Hz by set_solver. split; [|done].
        intros Hun. exfalso. destruct (co_active _ _ _ _ Hok u) as [Hm _]; [unfold active; set_solver|].
        destruct Hun as [[? ?]|[Hr|[Hr|Hr]]]; [congruence| | |done].
        -- apply (co_ready _ _ _ _ Hok) in Hr. set_solver.
        -- apply (co_running _ _ _ _ Hok) in Hr. set_solver.
      * rewrite (bool_decide_eq_false_2 (client = client ∧ u = u')) by naive_solver.
        rewrite andb_false_r, Nat.add_0_r. rewrite elem_of_cons in Hz, Ho'. naive_solver.
    + intros cl u' Hne. rewrite Hcnt, (bool_decide_eq_false_2 (client = cl ∧ u = u')) by naive_solver.
      rewrite andb_false_r. lia.
    + subst s'. by eapply queue_ok_same.
    + subst s'. by eapply jobs_ok_same.
    + by subst s'.
  - eapply (frame_set_client s s' client c c'); try done; [|by subst s']. intros f [h Hh]. simpl.
    rewrite lookup_union, Hh. destruct (outs !! f); cbn; eauto.
Qed.

Lemma inv_with_cache P F s x : cache_ok x → inv P F s → inv P F (with_cache x s).
Proof. intros Hx [H1 H2 H3 H4 H5 H6 H7]. by split. Qed.

Lemma cache_execution_spec P F s client c g (outs : FileKeys) result :
  inv P F s → clients s !! client = Some c → knows_deps (file_handles c) g →
  covers outs g → covers (file_handles c) g → length result = length (executions g) →
  wp (cache_execution client g outs result) (keeps P F s) may_fail s.
Proof.
  intros Hinv Hc Hk Hcov Hcov' Hlen. apply wp_bind, (wp_get_client _ c); [done|].
  assert (∀ (m : FileKeys) l, (∀ f, f ∈ l → is_Some (m !! f)) →
    ∃ ks, try_map (λ f, h ← index m f; Ret (f, handle_key h)) l = Ret ks) as Htot.
  { intros m l Hl. apply try_map_total. intros f Hf. destruct (Hl f Hf) as [h Hh].
    unfold index. rewrite Hh. by eexists. }
  destruct (Htot (file_handles c) (dependencies g)) as [k1 Hk1].
  { intros f Hf%elem_of_dependencies. by apply Hk. }
  destruct (Htot outs (outputs g)) as [k2 Hk2].
  { intros f Hf%elem_of_outputs. by apply Hcov. }
  apply wp_bind. eapply wp_lift_ret; [done|]. apply wp_bind. eapply wp_lift_ret; [done|].
  apply wp_zoom. eapply wp_mono; [apply cache_insert_law; try done; apply (inv_cache _ _ _ Hinv)| |done].
  intros [] x Hx. split_and!; [by apply inv_with_cache| |done]. by apply frame_same_clients.
Qed.

Lemma all_success_not_internal result :
  forallb (λ r, is_success (status r)) result = true →
  existsb (λ r, is_internal_error (status r)) result = false.
Proof.
  induction result as [|r result IH]; simpl; [done|]. intros [Hr Hl]%andb_true_iff.
  rewrite IH by done. by destruct (status r).
Qed.

(** What [exec_completed] needs to know of its arguments. *)
Record completion s client (g : ExecutionGroup) (result : list ExecutionResult)
    (outs : FileKeys) : Prop := {
  cm_group : ∃ c, clients s !! client = Some c ∧ groups_of c !! group_uuid g = Some g;
  cm_only : only_outputs outs g;
  cm_length : length result = length (executions g);
  cm_covers : existsb (λ r, is_internal_error (status r)) result = false → covers outs g
}.

Lemma completion_frame s s' client g result outs :
  frame s s' → completion s client g result outs → completion s' client g result outs.
Proof.
  intros Hf [(c & Hc & Hg) H1 H2 H3]. split; try done.
  destruct (frame_lookup _ _ _ _ Hf Hc) as (c' & Hc' & Hst). exists c'. split; [done|].
  by injection Hst as -> _ _.
Qed.

(** The propagation of the outputs, one file at a time; the files have handles
    when [ok] holds. *)
Lemma propagate_spec P F s0 s client c (ok : Prop) (step : FileUuid → M Scheduler unit) fs :
  (∀ F f s c, inv P ((client, f) :: F) s → clients s !! client = Some c →
     (ok → has_handle s client f) → work s ≤ work s0 → wp (step f) (keeps P F s) may_fail s) →
  keeps P ((pair client <$> fs) ++ F) s0 tt s → clients s0 !! client = Some c →
  (∀ f, f ∈ fs → ok → has_handle s client f) →
  wp (for_each fs step) (keeps P F s0) may_fail s.
Proof.
  intros Hstep Hs Hc Hh.
  eapply wp_mono; [apply (wp_for_each (λ fs s, keeps P ((pair client <$> fs) ++ F) s0 tt s ∧
    ∀ f, f ∈ fs → ok → has_handle s client f))| |done]; [done| |].
  - clear s Hs Hh. intros f l s ((Hi & Hf & Hw) & Hh).
    destruct (frame_lookup _ _ _ _ Hf Hc) as (c1 & Hc1 & _).
    eapply wp_mono; [apply (Hstep _ f s c1 Hi Hc1); [apply Hh; set_solver|done]| |done].
    intros [] s1 Hk. split; [by eapply keeps_trans|]. intros f' Hf' Hok.
    destruct Hk as (_ & Hf1 & _). apply (fr_handles _ _ Hf1), Hh; [set_solver|done].
  - by intros [] s' [? _].
Qed.

Lemma exec_completed_spec n nested P F s client g result outs from_cache :
  nested_ok n nested → inv ((client, group_uuid g) :: P) F s →
  completion s client g result outs → work s < n →
  wp (exec_completed_with nested client g result outs from_cache) (keeps P F s) may_fail s.
Proof.
  intros Hnest Hinv [(c & Hc & Hg) Honly Hlen Hcov] Hn.
  pose proof (inv_client _ _ _ Hinv _ _ Hc) as Hok.
  destruct (co_active _ _ _ _ Hok (group_uuid g)) as (_ & g' & Hg' & Hk); [unfold active; set_solver|].
  simplify_eq.
  apply wp_bind, (wp_get_client _ c); [done|]. apply wp_bind, wp_notify. intros l Hl.
  apply wp_bind. eapply wp_update_client; [done|]. cbv beta. rewrite foldl_map_iter_union.
  set (c1 := set_file_handles _ c). set (s1 := with_clients _ _).
  destruct (group_completed P F s s1 client c g result outs l) as [Hk1 Hw1]; [done..|].
  assert (clients s1 !! client = Some c1) as Hc1 by apply lookup_insert_eq.
  assert (∀ f, is_Some (file_handles c !! f) ∨ is_Some (outs !! f) →
    is_Some (file_handles c1 !! f)) as Hgrow.
  { intros f Hf. simpl. rewrite lookup_union.
    destruct (outs !! f), (file_handles c !! f); cbn; eauto. by destruct Hf as [[]|[]]. }
  apply wp_bind. eapply (wp_mono _ (λ _ s2, keeps P ((pair client <$> outputs g) ++ F) s tt s2 ∧
    frame s1 s2) _ may_fail); [| |done].
  { destruct (negb from_cache && _) eqn:Hb; [|by apply wp_ret].
    apply andb_true_iff in Hb as [_ Hi%negb_true_iff]. destruct Hk1 as (Hi1 & Hf1 & _).
    eapply wp_mono; [eapply (cache_execution_spec _ _ s1 client c1 g outs result)| |done]; try done.
    - intros f Hf. apply Hgrow. left. by apply Hk.
    - by apply Hcov.
    - intros f Hf. apply Hgrow. right. by apply Hcov.
    - intros [] s2 Hk2. destruct (Hk2) as (_ & ? & _). split; [|done]. eapply keeps_trans; [done|lia|done]. }
  intros [] s2 [Hk2 Hf2]. apply wp_bind. eapply (wp_mono _ (keeps P F s) _ may_fail); [| |done].
  - destruct (forallb _ result) eqn:Hsucc.
    + apply (propagate_spec P F s s2 client c True); try done.
      * intros F' f s3 c3 Hi3 Hc3 Hh3 Hw3. apply wp_context.
        eapply wp_mono; [eapply (file_success_spec n); try done; [by apply Hh3|lia]| |done].
        by intros [] s4 [? _].
      * intros f Hf%elem_of_outputs _. apply (fr_handles _ _ Hf2). exists c1. split; [done|].
        apply Hgrow. right. apply Hcov; [by apply all_success_not_internal|done].
    + apply (propagate_spec P F s s2 client c False); try done.
      intros F' f s3 c3 Hi3 Hc3 _ Hw3. apply wp_context. by eapply file_failed_spec.
  - intros [] s3 (Hi3 & Hf3 & Hw3). eapply wp_mono; [apply (Hnest _ _ _ Hi3); lia| |done].
    intros [] s4 Hk4. by eapply keeps_trans.
Qed.

(** ** The executions in the cache *)
Definition cached_id (e : CachedExec) : ClientUuid * ExecutionGroupUuid :=
  let '(client, g, _, _) := e in (client, group_uuid g).
Definition cached_ok s (e : CachedExec) : Prop :=
  let '(client, g, result, outs) := e in completion s client g result outs.

Lemma cached_ok_frame s s' l :
  frame s s' → Forall (cached_ok s) l → Forall (cached_ok s') l.
Proof.
  intros Hf Hl. eapply Forall_impl; [done|]. intros [[[cl g] r] o] Hcm. by eapply completion_frame.
Qed.

(** A ready group found in the cache. *)
Lemma group_hit P F s s' client c g e rest :
  inv P F s → ready_execs s ≡ₚ e :: rest → exec_id e = (client, group_uuid g) →
  clients s !! client = Some c →
  clients s' = <[client := set_ready_groups (ready_groups c ∖ {[group_uuid g]}) c]> (clients s) →
  ready_execs s' = rest → same_rest s s' →
  inv ((client, group_uuid g) :: P) F s' ∧ frame s s' ∧ work s' < work s.
Proof.
  intros Hinv Hre He Hc Hcs Hre' (Hex & Ho & Hwm & Hcw & Hca).
  destruct (Hinv) as [H1 H2 H3 H4 H5 H6 H7]. pose proof (H1 client c Hc) as Hok.
  apply (queue_ok_perm _ _ _ Hre) in H4.
  destruct (queue_ready _ _ _ _ _ He H4) as (c0 & Hc0 & Hur). simplify_eq.
  set (u := group_uuid g) in *. destruct (co_ready _ _ _ _ Hok u Hur) as [Hnrun HnP].
  set (c' := set_ready_groups _ _) in *.
  assert (∀ u', active ((client, u) :: P) client c' u' ↔ active P client c u') as Hact.
  { intros u'. unfold active, c'. simpl. rewrite elem_of_cons.
    destruct (decide (u' = u)) as [->|Hne]; [set_solver|].
    assert ((client, u') ≠ (client, u)) by naive_solver. set_solver. }
  split_and!; [|by eapply (frame_set_client s s' client c c')|].
  - eapply (inv_set_client P F _ F s s'); try done; rewrite ?Hex, ?Hcw, ?Hwm, ?Hca; try done.
    + intros cl u' Hne. rewrite elem_of_cons. naive_solver.
    + by apply NoDup_cons.
    + eapply client_ok_move; [..|exact Hok]; try done; unfold c'; simpl; intros u' Hu'; rewrite elem_of_cons.
      * destruct (co_ready _ _ _ _ Hok u') as [??]; [set_solver|]. split; [done|].
        intros [[= ->]|?]; set_solver.
      * pose proof (co_running _ _ _ _ Hok u' Hu'). intros [[= ->]|?]; done.
    + intros Hopen. eapply counts_ok_agree; [..|by apply H2]; [done| |done].
      intros u'. by apply unsettled_move.
    + by eapply queue_ok_remove.
    + by eapply jobs_ok_same.
  - unfold work. fold (total_waiting (clients s')) (total_waiting (clients s)).
    rewrite Hcs, (Permutation_length Hre). simpl.
    pose proof (total_waiting_insert (clients s) client c c' Hc) as Ht. simpl in *. lia.
Qed.

(** The first loop of [schedule_cached]; the queue it will leave is [not_cached]
    with the executions not yet seen. *)
Lemma scan_ready_spec P F l not_cached cached s :
  inv ((cached_id <$> cached) ++ P) F (with_ready_execs (not_cached ++ l) s) →
  Forall (cached_ok s) cached →
  wp (scan_ready l not_cached cached) (λ r s',
    inv ((cached_id <$> r.2) ++ P) F (with_ready_execs r.1 s') ∧
    Forall (cached_ok s') r.2 ∧ frame s s' ∧
    total_waiting (clients s') = total_waiting (clients s) ∧
    length r.1 + length r.2 ≤ length not_cached + length l + length cached) may_fail s.
Proof.
  revert not_cached cached s. induction l as [|[[[dp p] u] client] l IH];
    intros not_cached cached s Hinv Hcached.
  { apply wp_ret. simpl. rewrite app_nil_r in Hinv. split_and!; [done|done|done|done|lia]. }
  assert (not_cached ++ (dp, p, u, client) :: l ≡ₚ (dp, p, u, client) :: not_cached ++ l) as Hperm
    by by rewrite Permutation_middle.
  pose proof (queue_ok_perm _ _ _ Hperm (inv_queue _ _ _ Hinv)) as Hq.
  destruct (queue_ready (dp, p, u, client) _ _ client u eq_refl Hq) as (c & Hc & Hur).
  simpl in Hc. pose proof (inv_client _ _ _ Hinv _ _ Hc) as Hok.
  destruct (co_active _ _ _ _ Hok u) as (_ & g & Hg & Hk); [by left|].
  assert (group_uuid g = u) as Hgu by by apply (co_keys _ _ _ _ Hok) in Hg.
  (* the execution stays in the queue, whatever happened to the cache *)
  assert (∀ x, cache_ok x →
    wp (scan_ready l (heap_push (dp, p, u, client) not_cached) cached) (λ r s',
      inv ((cached_id <$> r.2) ++ P) F (with_ready_execs r.1 s') ∧
      Forall (cached_ok s') r.2 ∧ frame s s' ∧
      total_waiting (clients s') = total_waiting (clients s) ∧
      length r.1 + length r.2 ≤ length not_cached + length ((dp, p, u, client) :: l) + length cached)
      may_fail (with_cache x s)) as Hstay.
  { intros x Hx. eapply wp_mono; [apply IH| |done].
    - destruct Hinv as [H1 H2 H3 H4 H5 H6 H7]. by split.
    - eapply cached_ok_frame; [|done]. by apply frame_same_clients.
    - intros r s' (? & ? & Hf & ? & Hlen). split_and!; [done|done| |done|unfold heap_push, ReadyExec in *; simpl in *; lia].
      trans (with_cache x s); [by apply frame_same_clients|done]. }
  assert (cache_ok (cache s)) as Hca by apply (inv_cache _ _ _ Hinv).
  pose proof (Hstay (cache s) Hca) as Hstay0.
  assert (with_cache (cache s) s = s) as Hsame by by destruct s. rewrite Hsame in Hstay0.
  cbn [scan_ready]. apply wp_bind, (wp_get_client _ c); [done|]. cbv zeta.
  destruct (match cache_mode (config (cd_dag c)) with Nothing => true | _ => false end).
  { done. }
  apply wp_bind. eapply wp_lift_ret; [unfold index; by rewrite Hg|]. rewrite Hgu.
  destruct (negb _); [done|].
  apply wp_bind, wp_zoom. eapply wp_mono; [by apply (cache_get_law g (file_handles c))| |done].
  intros [|result outs] x; [by intros [Hx _]; apply Hstay|]. intros (Hx & Hcov & Honly & Hlen).
  apply wp_bind. eapply wp_update_client; [done|]. cbv beta.
  set (s1 := with_clients _ _).
  destruct (group_hit _ F _ (with_ready_execs (not_cached ++ l) s1) client c g
    (dp, p, u, client) (not_cached ++ l) (inv_with_cache _ _ _ x Hx Hinv)) as (Hi1 & Hf1 & Hw1);
    simpl; try done; try (by rewrite Hgu).
  assert (frame s s1) as Hfs.
  { eapply (frame_set_client s s1 client c); try done. }
  eapply wp_mono; [apply IH| |done].
  - rewrite fmap_app, <-app_assoc. simpl. destruct Hi1 as [H1 H2 H3 H4 H5 H6 H7].
    assert (∀ y, y ∈ (client, group_uuid g) :: (cached_id <$> cached) ++ P ↔
      y ∈ (cached_id <$> cached) ++ (client, group_uuid g) :: P) as Hiff by set_solver.
    split; try done.
    + intros cl d Hd. eapply client_ok_agree; [|done|by apply H1]. intros; apply Hiff.
    + intros cl d Hd Ho. eapply counts_ok_agree; [done| |done|by apply H2].
      intros u'. unfold unsettled, active. by rewrite Hiff.
    + by rewrite <-Permutation_middle.
  - apply Forall_app. split.
    + by eapply cached_ok_frame.
    + constructor; [|done]. split; [|done..]. exists (set_ready_groups (ready_groups c ∖ {[u]}) c).
      split; [apply lookup_insert_eq|]. simpl. congruence.
  - intros r s' (? & ? & Hf & Ht & Hl). split_and!; [done|done|by trans s1| |].
    + rewrite Ht. pose proof (total_waiting_insert (clients s) client c
        (set_ready_groups (ready_groups c ∖ {[u]}) c) Hc) as Ht'. simpl in *. lia.
    + rewrite length_app in Hl. simpl in *. lia.
Qed.

Lemma schedule_cached_loop_ok n : nested_ok n (schedule_cached_loop n).
Proof.
  induction n as [|n IH]; intros P F s Hinv Hn; [lia|].
  apply wp_bind, wp_get, wp_bind.
  eapply wp_mono; [apply (scan_ready_spec P F)| |done].
  { simpl. destruct Hinv as [H1 H2 H3 H4 H5 H6 H7]. split; try done.
    eapply queue_ok_perm; [|done]. simpl. symmetry. apply iter_order_perm. }
  { done. }
  intros [nc cached] s1 (Hi1 & Hc1 & Hf1 & Ht1 & Hl1). apply wp_bind, wp_modify. simpl in *.
  rewrite length_iter_order in Hl1. set (s2 := with_ready_execs nc s1) in *.
  assert (frame s s2) as Hf2 by (trans s1; [done|by apply frame_same_clients]).
  assert (work s2 + length cached ≤ work s) as Hw2.
  { unfold work. fold (total_waiting (clients s)) (total_waiting (clients s2)). simpl. lia. }
  eapply wp_mono; [apply (wp_for_each (λ l s', keeps ((cached_id <$> l) ++ P) F s tt s' ∧
    Forall (cached_ok s') l ∧ (l ≠ [] → work s' < n)))| |done].
  - split; [split_and!; [done|done|lia]|]. split.
    { eapply cached_ok_frame; [|done]. by apply frame_same_clients. }
    intros Hne. destruct cached; [done|]. simpl in *. lia.
  - intros [[[client g] result] outs] l s3 ((Hi3 & Hf3 & Hw3) & Hc3 & Hlt3).
    specialize (Hlt3 ltac:(done)). apply Forall_cons in Hc3 as [Hcm Hc3].
    eapply wp_mono; [by apply (exec_completed_spec n _ ((cached_id <$> l) ++ P) F s3 client g result outs)| |done].
    intros [] s4 Hk4. destruct (Hk4) as (_ & Hf4 & Hw4). split; [by eapply keeps_trans|]. split; [|intros _; lia].
    by eapply cached_ok_frame.
  - by intros [] s' [? _].
Qed.

Lemma schedule_cached_spec P F s : inv P F s → wp schedule_cached (keeps P F s) may_fail s.
Proof. intros Hinv. apply wp_bind, wp_get. apply schedule_cached_loop_ok; [done|lia]. Qed.

Lemma schedule_cached_ok n : nested_ok n schedule_cached.
Proof. intros P F s Hinv _. by apply schedule_cached_spec. Qed.
End spec.
