(* ===== verification/SchedulerProps.v ===== *)
(** * Correctness of the scheduler

    The handlers preserve the invariant, the states reachable by messages that
    respect the protocol, and what holds of them. *)
From S2P Require Import Prelude Paths StoreKey Store Dag Cache CheckDag CacheService Scheduler.
From S2P Require Import SchedulerInv SchedulerSpec.

Section handlers.
Context {iter : IterOrder} {ops : CacheOps} {laws : CacheLaws}.
Implicit Types (s : Scheduler) (c : SchedulerClientData).

#[local] Existing Instance frame_preorder.

(** ** A new DAG *)
Lemma add_inputs_spec u deps io m :
  let r := foldl (add_input u) (io, m) deps in
  (∀ u' f, u' ∈ default ∅ (r.1 !! f) ↔ u' ∈ default ∅ (io !! f) ∨ (u' = u ∧ f ∈ deps)) ∧
  (∀ f, f ∈ r.2 ↔ f ∈ m ∨ f ∈ deps).
Proof.
  revert io m. induction deps as [|d deps IH]; intros io m; cbn [foldl].
  { simpl. set_solver. }
  unfold add_input at 2 4. simpl. destruct (IH (<[d := {[u]} ∪ default ∅ (io !! d)]> io) ({[d]} ∪ m))
    as [H1 H2]. split.
  - intros u' f. rewrite H1, lookup_insert. destruct (decide (d = f)) as [<-|Hne]; simpl; set_solver.
  - intros f. rewrite H2. set_solver.
Qed.

Definition group_no_deps (l : list ExecutionGroup) (u : ExecutionGroupUuid) : Prop :=
  ∃ g, g ∈ l ∧ group_uuid g = u ∧ dependencies g = [].

(** The data of the client and the queue after the groups [l]. *)
Record initialised dag watch client (queue : list ReadyExec) (l : list ExecutionGroup)
    (acc : SchedulerClientData * list ReadyExec) : Prop := {
  in_dag : cd_dag acc.1 = dag;
  in_watch : cd_callbacks acc.1 = watch;
  in_inputs : ∀ u f, (u ∈ default ∅ (input_of acc.1 !! f)) ↔
    ∃ g, g ∈ l ∧ group_uuid g = u ∧ f ∈ dependencies g;
  in_missing : ∀ u fs, missing_deps acc.1 !! u = Some fs → fs ≠ ∅ ∧
    ∃ g, g ∈ l ∧ group_uuid g = u ∧ ∀ f, f ∈ fs ↔ f ∈ dependencies g;
  in_missing_some : ∀ g, g ∈ l → dependencies g ≠ [] → is_Some (missing_deps acc.1 !! group_uuid g);
  in_ready : ∀ u, (u ∈ ready_groups acc.1) ↔ group_no_deps l u;
  in_running : running_groups acc.1 = ∅;
  in_handles : file_handles acc.1 = ∅;
  in_queue : ∃ new, acc.2 = new ++ queue ∧ NoDup (exec_id <$> new) ∧
    ∀ x, x ∈ exec_id <$> new ↔ x.1 = client ∧ group_no_deps l x.2
}.

Lemma init_group_spec dag watch client queue l acc g prio :
  initialised dag watch client queue l acc → group_uuid g ∉ group_uuid <$> l →
  initialised dag watch client queue (l ++ [g]) (init_group prio client acc g).
Proof.
  intros [H1 H2 H3 H4 H5 H6 H7 H8 (new & H9 & H10 & H11)] Hnew. destruct acc as [data ready].
  cbn [fst snd] in *.
  assert (missing_deps data !! group_uuid g = None) as Hm.
  { apply eq_None_not_Some. intros [fs Hfs]. apply H4 in Hfs as (_ & g' & Hg' & Hu & _). apply Hnew. rewrite <-Hu.
    by apply list_elem_of_fmap_2. }
  assert (∀ u, group_no_deps (l ++ [g]) u ↔ group_no_deps l u ∨
    (u = group_uuid g ∧ dependencies g = [])) as Hno.
  { clear. intros u. unfold group_no_deps. setoid_rewrite elem_of_app.
    setoid_rewrite list_elem_of_singleton. naive_solver. }
  unfold init_group. rewrite Hm. simpl default.
  pose proof (add_inputs_spec (group_uuid g) (dependencies g) (input_of data) ∅) as [Hio Hmiss].
  destruct (foldl (add_input (group_uuid g)) _ _) as [inputs missing]. cbn [fst snd] in Hio, Hmiss.
  assert (missing = ∅ ↔ dependencies g = []) as Hempty.
  { clear -Hmiss. split.
    - intros ->. destruct (dependencies g) as [|f ?]; [done|]. specialize (Hmiss f). set_solver.
    - intros Hd. rewrite Hd in Hmiss. set_solver. }
  assert (∀ u f, (u ∈ default ∅ (inputs !! f)) ↔
    ∃ g', g' ∈ l ++ [g] ∧ group_uuid g' = u ∧ f ∈ dependencies g') as Hin.
  { intros u f. rewrite Hio, H3. clear. setoid_rewrite elem_of_app.
    setoid_rewrite list_elem_of_singleton. naive_solver. }
  assert (∀ g', g' ∈ l → group_uuid g' ≠ group_uuid g) as Hne.
  { intros g' Hg' Heq. apply Hnew. rewrite <-Heq. by apply list_elem_of_fmap_2. }
  destruct (bool_decide (missing = ∅)) eqn:Hb.
  - apply bool_decide_eq_true, Hempty in Hb. split; simpl; try done.
    + intros u fs. rewrite delete_insert_eq. intros Hfs. apply lookup_delete_Some in Hfs as [_ Hfs].
      apply H4 in Hfs as (? & g' & ? & ?). split; [done|]. exists g'. split; [by apply elem_of_app; left|done].
    + intros g' [Hg'| ->%list_elem_of_singleton]%elem_of_app Hd; [|done].
      rewrite delete_insert_eq, lookup_delete_ne by (apply not_eq_sym; auto). auto.
    + intros u. rewrite Hno, elem_of_union, elem_of_singleton, H6. clear -Hb. naive_solver.
    + exists ((prio, priority g, group_uuid g, client) :: new). subst ready. split; [done|].
      rewrite fmap_cons. change (exec_id _) with (client, group_uuid g). split.
      * apply NoDup_cons. split; [|done]. rewrite H11. simpl. intros [_ (g' & Hg' & Hu & _)].
        by apply (Hne g').
      * intros [cl u]. rewrite elem_of_cons, H11, Hno. simpl. clear -Hb. naive_solver.
  - apply bool_decide_eq_false in Hb. split; simpl; try done.
    + intros u fs. rewrite lookup_insert. destruct (decide (group_uuid g = u)) as [<-|].
      * intros [= <-]. split; [done|]. exists g. split; [apply elem_of_app; right; by apply list_elem_of_singleton|]. split; [done|].
        clear -Hmiss. intros f. rewrite Hmiss. set_solver.
      * intros (? & g' & ? & ?)%H4. split; [done|]. exists g'. split; [by apply elem_of_app; left|done].
    + intros g' Hg' Hd. rewrite lookup_insert. destruct (decide _); [eauto|].
      apply elem_of_app in Hg' as [?| ->%list_elem_of_singleton]; [auto|done].
    + intros u. rewrite Hno, H6. clear -Hb Hempty. naive_solver.
    + exists new. split_and!; [done..|]. intros x. rewrite H11, Hno. clear -Hb Hempty. naive_solver.
Qed.

Lemma init_groups_spec dag watch client queue l name prio :
  NoDup (group_uuid <$> l) →
  initialised dag watch client queue l
    (foldl (init_group prio client) (SchedulerClientData_new name dag watch, queue) l).
Proof.
  intros Hnd. assert (∀ pre acc, initialised dag watch client queue pre acc →
    NoDup (group_uuid <$> (pre ++ l)) →
    initialised dag watch client queue (pre ++ l) (foldl (init_group prio client) acc l)) as Hgen.
  { clear Hnd. induction l as [|g l IH]; intros pre acc Hpre Hnd; [by rewrite app_nil_r|].
    simpl. rewrite cons_middle, app_assoc in *. apply IH; [|done]. apply init_group_spec; [done|].
    rewrite <-app_assoc, fmap_app, NoDup_app in Hnd. destruct Hnd as (_ & Hd & _).
    intros Hin. apply (Hd _ Hin). simpl. set_solver. }
  apply (Hgen []); [|done]. split; simpl; unfold group_no_deps; try done; try set_solver.
  exists []. split; [done|]. split; [constructor|]. set_solver.
Qed.

(** The groups are stored under their own identifiers ([built_dag_wf]). *)
Definition groups_keyed (dag : ExecutionDAGData) : Prop :=
  map_Forall (λ u g, group_uuid g = u) (execution_groups dag).

Lemma NoDup_group_uuids dag :
  groups_keyed dag → NoDup (group_uuid <$> values_iter (execution_groups dag)).
Proof.
  intros Hk. assert (group_uuid <$> values_iter (execution_groups dag) =
    keys_iter (execution_groups dag)) as ->; [|apply NoDup_keys_iter].
  unfold values_iter, keys_iter. rewrite <-list_fmap_compose. apply list_fmap_ext.
  intros i [u g] Hi. simpl. apply Hk. apply elem_of_map_iter. by eapply list_elem_of_lookup_2.
Qed.

Lemma elem_of_groups dag g :
  groups_keyed dag → g ∈ values_iter (execution_groups dag) ↔
    execution_groups dag !! group_uuid g = Some g.
Proof.
  intros Hk. rewrite elem_of_values_iter. split; [|eauto]. intros [u Hu].
  by rewrite (Hk u g Hu).
Qed.

Section new_client.
Context (dag : ExecutionDAGData) (watch : ExecutionDAGWatchSet) (client : ClientUuid)
  (queue : list ReadyExec) (acc : SchedulerClientData * list ReadyExec).
Hypothesis Hkeyed : groups_keyed dag.
Hypothesis Hvalid : dag_valid dag watch.
Hypothesis Hacc : initialised dag watch client queue (values_iter (execution_groups dag)) acc.

(** At the beginning every group waits or is ready. *)
Lemma new_unsettled u g : execution_groups dag !! u = Some g → unsettled [] client acc.1 u.
Proof.
  destruct Hacc as [H1 H2 H3 H4 H5 H6 H7 H8 H9]. intros Hg. pose proof (Hkeyed _ _ Hg) as Hu.
  cbv beta in Hu. subst u. apply (elem_of_groups _ _ Hkeyed) in Hg.
  destruct (dependencies g) as [|f fs] eqn:Hd.
  - right. left. apply H6. by exists g.
  - left. apply H5; [done|]. by rewrite Hd.
Qed.

Lemma new_client_ok : client_ok [] [] client acc.1.
Proof.
  pose proof new_unsettled as Hun. destruct Hacc as [H1 H2 H3 H4 H5 H6 H7 H8 H9]. split.
  - by rewrite H1.
  - by rewrite H1, H2.
  - intros f u. rewrite H3, H1. split.
    + intros (g & Hg%(elem_of_groups _ _ Hkeyed) & <- & Hf%elem_of_dependencies). eauto.
    + intros (g & Hg & Hf). pose proof (Hkeyed _ _ Hg) as Hu. cbv beta in Hu. subst u.
      exists g. rewrite elem_of_groups, elem_of_dependencies by done. done.
  - intros u fs (Hne & g & Hg%(elem_of_groups _ _ Hkeyed) & <- & Hfs)%H4. split; [done|].
    exists g. rewrite H1. split; [done|]. split; intros f; rewrite Hfs, elem_of_dependencies; [done|].
    by intros ? [].
  - intros u [Hu|[Hu|Hu]]; [|rewrite H7 in Hu; set_solver|set_solver].
    apply H6 in Hu as (g & Hg & <- & Hd). split.
    + apply eq_None_not_Some. intros [fs (Hne & g' & Hg' & Hu' & Hfs)%H4].
      apply (elem_of_groups _ _ Hkeyed) in Hg, Hg'. rewrite Hu' in Hg'. simplify_eq.
      rewrite Hd in Hfs. set_solver.
    + apply (elem_of_groups _ _ Hkeyed) in Hg. exists g. rewrite H1. split; [done|].
      intros f Hf%elem_of_dependencies. rewrite Hd in Hf. set_solver.
  - intros u _. rewrite H7. set_solver.
  - intros u. rewrite H7. set_solver.
  - intros u fs f _ _. right. rewrite H8, H1. split; [done|]. intros u' g' Hg' _. by eapply Hun.
Qed.

Lemma new_queue_ok cs :
  cs !! client = None → queue_ok queue cs → queue_ok acc.2 (<[client := acc.1]> cs).
Proof.
  destruct Hacc as [H1 H2 H3 H4 H5 H6 H7 H8 (new & -> & Hnd & Hnew)]. intros Hc [Hn Hq].
  assert (∀ u, (client, u) ∉ exec_id <$> queue) as Hold.
  { intros u Hu%Hq. unfold ready_of in Hu. rewrite Hc in Hu. set_solver. }
  split.
  - rewrite fmap_app. apply NoDup_app. split_and!; [done| |done].
    intros [cl u] Hx. apply Hnew in Hx as [Hx _]. simpl in Hx. subst cl. apply Hold.
  - intros cl u. rewrite fmap_app, elem_of_app, Hnew, Hq. simpl. unfold ready_of.
    rewrite lookup_insert. destruct (decide (client = cl)) as [<-|Hne].
    + rewrite Hc, H6. set_solver.
    + split; [|by right]. intros [[-> _]|?]; done.
Qed.
End new_client.

(** ** The jobs of the workers *)
Lemma doing_delete ws w w' job : doing (delete w ws) w' job ↔ w' ≠ w ∧ doing ws w' job.
Proof.
  unfold doing. setoid_rewrite lookup_delete_Some. split.
  - intros (d & t & [? ?] & ?). split; [done|]. by exists d, t.
  - intros (? & d & t & ? & ?). by exists d, t.
Qed.

Lemma jobs_ok_free ws cs w ws' :
  jobs_ok ws cs → (∀ client u, doing ws w (client, u) → cs !! client = None) →
  (∀ w' job, doing ws' w' job ↔ w' ≠ w ∧ doing ws w' job) → jobs_ok ws' cs.
Proof.
  intros [H1 H2 H3] Hw Hd. split.
  - intros w' cl u [_ ?]%Hd. by eapply H1.
  - intros w1 w2 cl u [_ ?]%Hd [_ ?]%Hd. by eapply H2.
  - intros cl u Hu. destruct (H3 cl u Hu) as [w' Hw']. exists w'. apply Hd. split; [|done].
    intros ->. apply Hw in Hw'. unfold running_of in Hu. rewrite Hw' in Hu. set_solver.
Qed.

Lemma jobs_ok_done ws cs w client c c' u :
  jobs_ok ws cs → doing ws w (client, u) → cs !! client = Some c →
  running_groups c' = running_groups c ∖ {[u]} →
  jobs_ok (delete w ws) (<[client := c']> cs).
Proof.
  intros [H1 H2 H3] Hw Hc Hr.
  assert (∀ cl u', u' ∈ running_of (<[client := c']> cs) cl ↔
    (u' ∈ running_of cs cl) ∧ ¬ (cl = client ∧ u' = u)) as Hrun.
  { intros cl u'. unfold running_of. rewrite lookup_insert.
    destruct (decide (client = cl)) as [<-|]; [|naive_solver]. rewrite Hc, Hr. set_solver. }
  assert (∀ cl, is_Some (<[client := c']> cs !! cl) ↔ is_Some (cs !! cl)) as Hdom.
  { intros cl. rewrite lookup_insert. destruct (decide (client = cl)) as [<-|]; [|done].
    rewrite Hc. split; eauto. }
  split; intros *; rewrite ?Hrun, ?Hdom, ?doing_delete.
  - intros [Hne Hx] Hs. split; [by eapply H1|]. intros [-> ->]. by apply Hne, (H2 _ _ _ _ Hx Hw).
  - intros [_ Hx] [_ Hy]. by eapply H2.
  - intros [Hx Hne]. destruct (H3 _ _ Hx) as [w' Hw']. exists w'. rewrite doing_delete.
    split; [|done]. intros ->. apply Hne. destruct Hw as (d & t & ? & ?), Hw' as (d' & t' & ? & ?).
    by simplify_eq.
Qed.

(** ** Notifications at the end of a handler *)
Lemma check_completion_spec P F s client :
  inv P F s →
  wp (check_completion client) (λ _ s', inv P F s' ∧ ∃ l, s' = logged l s) may_fail s.
Proof.
  intros Hinv. assert (inv P F s ∧ ∃ l, s = logged l s) as Hsame
    by (split; [done|exists []; by rewrite logged_nil]).
  apply wp_bind, wp_gets. destruct (clients s !! client) as [c|]; [|done].
  destruct (is_done c); [|done]. apply wp_context, wp_send_executor; [|done]. intros _.
  split; [|by eexists]. apply inv_logged; [|done]. by repeat constructor.
Qed.


(** ** The handlers *)

(** A client the scheduler does not know: no data, no worker busy for it, no
    group of it ever told to be over. *)
Definition fresh_client s client : Prop :=
  clients s !! client = None ∧ (∀ w u, ¬ doing (connected_workers s) w (client, u)) ∧
  ∀ u, settled_count client u (executor s) = 0.

Lemma new_client_inv s s' dag watch client acc :
  inv [] [] s → fresh_client s client → groups_keyed dag → dag_valid dag watch →
  initialised dag watch client (ready_execs s) (values_iter (execution_groups dag)) acc →
  clients s' = <[client := acc.1]> (clients s) → ready_execs s' = acc.2 → same_rest s s' →
  inv [] [] s'.
Proof.
  intros Hinv (Hc & Hw & Hlog) Hk Hv Hacc Hcs Hre (He & Ho & Hwm & Hcw & Hca).
  destruct (Hinv) as [H1 H2 H3 H4 H5 H6 H7].
  split; rewrite ?Hcs, ?Hre, ?He, ?Ho, ?Hwm, ?Hcw, ?Hca; try done.
  - intros cl c. rewrite lookup_insert. destruct (decide (client = cl)) as [<-|]; [|apply H1].
    intros [= <-]. by eapply new_client_ok.
  - intros cl c. rewrite lookup_insert. destruct (decide (client = cl)) as [<-|]; [|apply H2].
    intros [= <-] _ u [g Hg] _. split; [by intros _|]. intros Hn. exfalso. apply Hn.
    eapply (new_unsettled dag watch client); [done|done|]. rewrite <-(in_dag _ _ _ _ _ _ Hacc). done.
  - eapply new_queue_ok; [|done..]. done.
  - destruct H5 as [J1 J2 J3].
    assert (∀ cl, running_of (<[client := acc.1]> (clients s)) cl = running_of (clients s) cl) as Hrun.
    { intros cl. unfold running_of. rewrite lookup_insert.
      destruct (decide (client = cl)) as [<-|]; [|done]. by rewrite Hc, (in_running _ _ _ _ _ _ Hacc). }
    assert (∀ cl w u, doing (connected_workers s) w (cl, u) →
      is_Some (<[client := acc.1]> (clients s) !! cl) → is_Some (clients s !! cl)) as Hdom.
    { intros cl w u Hd. rewrite lookup_insert_ne; [done|]. intros <-. by apply (Hw w u). }
    split; intros *; rewrite ?Hrun; eauto.
Qed.

Lemma handle_evaluate_dag_spec s client dag watch :
  inv [] [] s → fresh_client s (info_uuid client) → groups_keyed dag → dag_valid dag watch →
  wp (handle_evaluate_dag client dag watch) (λ _ s', inv [] [] s' ∧ settled_queue s') may_fail s.
Proof.
  intros Hinv Hfresh Hk Hv. apply wp_bind, wp_get.
  pose proof (init_groups_spec dag watch (info_uuid client) (ready_execs s)
    (values_iter (execution_groups dag)) (info_name client) (dag_priority (config dag))
    (NoDup_group_uuids dag Hk)) as Hacc.
  destruct (foldl _ _ _) as [data ready]. apply wp_bind, wp_modify, wp_bind, wp_modify, wp_bind.
  eapply wp_mono; [apply (check_completion_spec [] [])| |done].
  { by eapply new_client_inv. }
  intros [] s1 [Hi1 _]. apply wp_bind. eapply wp_mono; [by apply schedule_cached_spec| |done].
  intros [] s2 (Hi2 & _ & _). eapply wp_mono; [by apply assign_jobs_spec| |done].
  intros [] s3 [(Hi3 & _ & _) Hq]. done.
Qed.

Lemma handle_file_ready_spec s client f h :
  inv [] [] s →
  wp (handle_file_ready client f h) (λ _ s', inv [] [] s' ∧
    (settled_queue s → settled_queue s')) may_fail s.
Proof.
  intros Hinv. destruct (Hinv) as [H1 H2 H3 H4 H5 H6 H7]. apply wp_bind, wp_gets.
  destruct (clients s !! client) as [c|] eqn:Hc; [|done].
  apply wp_bind. eapply wp_update_client; [done|]. cbv beta.
  set (c1 := set_file_handles _ c). set (s1 := with_clients _ s).
  assert (clients s1 !! client = Some c1) as Hc1 by apply lookup_insert_eq.
  assert (inv [] [(client, f)] s1) as Hi1.
  { eapply (inv_set_client [] [] [] _ s s1 client c c1); try done.
    - intros cl f' _ Hf. set_solver.
    - apply client_ok_file. by apply H1.
    - intros Ho. eapply counts_ok_agree; [..|by apply H2]; done.
    - by eapply queue_ok_same.
    - by eapply jobs_ok_same. }
  apply wp_bind. eapply wp_mono; [eapply (file_success_spec (S (work s1)) _ [] [] s1 client c1 f)| |done].
  - apply schedule_cached_ok.
  - done.
  - done.
  - exists c1. split; [done|]. simpl. rewrite lookup_insert_eq. eauto.
  - lia.
  - intros [] s2 [(Hi2 & _ & _) Hq2].
    eapply wp_mono; [by apply check_completion_spec| |done]. by intros [] s3 [? [l ->]].
Qed.

(** The result of a worker for a group it was running. *)
Definition result_ok (g : ExecutionGroup) (result : list ExecutionResult) (outs : FileKeys) : Prop :=
  only_outputs outs g ∧
  (existsb (λ r, is_internal_error (status r)) result = false → covers outs g).

Lemma group_finished s s' w client c u :
  inv [] [] s → doing (connected_workers s) w (client, u) → clients s !! client = Some c →
  clients s' = <[client := set_running_groups (running_groups c ∖ {[u]}) c]> (clients s) →
  connected_workers s' = delete w (connected_workers s) →
  ready_execs s' = ready_execs s → executor s' = executor s →
  executor_open s' = executor_open s → worker_manager s' = worker_manager s →
  cache s' = cache s → inv [(client, u)] [] s'.
Proof.
  intros Hinv Hw Hc Hcs Hcw Hre He Ho Hwm Hca. destruct (Hinv) as [H1 H2 H3 H4 H5 H6 H7].
  pose proof (H1 client c Hc) as Hok.
  assert (u ∈ running_groups c) as Hur.
  { pose proof (jo_running _ _ H5 _ _ _ Hw ltac:(by eauto)) as Hr. unfold running_of in Hr.
    by rewrite Hc in Hr. }
  assert (u ∉ ready_groups c) as Hnr by (intros ?%(co_ready _ _ _ _ Hok); naive_solver).
  set (c' := set_running_groups _ _) in *.
  assert (∀ u', active [(client, u)] client c' u' ↔ active [] client c u') as Hact.
  { intros u'. unfold active, c'. simpl. rewrite list_elem_of_singleton.
    destruct (decide (u' = u)) as [->|Hne]; [set_solver|].
    assert ((client, u') ≠ (client, u)) by naive_solver. set_solver. }
  eapply (inv_set_client [] [] _ [] s s'); try done; rewrite ?He, ?Hcw, ?Hwm, ?Hca, ?Hre; try done.
  - intros cl u' Hne. rewrite list_elem_of_singleton. set_solver.
  - apply NoDup_singleton.
  - eapply client_ok_move; [..|exact Hok]; try done; unfold c'; simpl; intros u' Hu';
      rewrite list_elem_of_singleton.
    + destruct (co_ready _ _ _ _ Hok u' Hu') as [??]. split; [set_solver|]. by intros [= ->].
    + intros [= ->]. set_solver.
  - intros Hopen. eapply counts_ok_agree; [..|by apply H2]; [done| |done].
    intros u'. by apply unsettled_move.
  - by eapply queue_ok_same.
  - by eapply jobs_ok_done.
Qed.

Lemma inv_drop_worker s w :
  inv [] [] s → (∀ client u, doing (connected_workers s) w (client, u) → clients s !! client = None) →
  inv [] [] (with_workers (delete w (connected_workers s)) s).
Proof.
  intros [H1 H2 H3 H4 H5 H6 H7] Hw. split; try done. simpl.
  eapply jobs_ok_free; [done|done|]. intros. apply doing_delete.
Qed.

Lemma not_doing ws w d : ws !! w = Some d → current_job d = None → ∀ job, ¬ doing ws w job.
Proof. intros Hw Hd job (d' & t & ? & ?). congruence. Qed.

Lemma settled_queue_drop s w :
  settled_queue s → settled_queue (with_workers (delete w (connected_workers s)) s).
Proof.
  intros [?|Hb]; [by left|right]. intros w' d Hd. simpl in Hd.
  apply lookup_delete_Some in Hd as [_ Hd]. by eapply Hb.
Qed.

Lemma handle_worker_result_spec s w result outs :
  inv [] [] s →
  (∀ client u c g, doing (connected_workers s) w (client, u) → clients s !! client = Some c →
     groups_of c !! u = Some g → result_ok g result outs) →
  wp (handle_worker_result w result outs) (λ _ s', inv [] [] s' ∧
    (settled_queue s ∨ (∃ job, doing (connected_workers s) w job) → settled_queue s')) may_fail s.
Proof.
  intros Hinv Hres. apply wp_bind, wp_get.
  destruct (connected_workers s !! w) as [d|] eqn:Hw.
  2:{ apply wp_ret. split; [done|]. intros [?|(job & d & t & Hx & _)]; [done|congruence]. }
  apply wp_bind, wp_modify.
  destruct (current_job d) as [[[client u] t]|] eqn:Hd.
  2:{ apply wp_ret. split.
      - apply inv_drop_worker; [done|]. intros ?? Hx. by eapply not_doing in Hx.
      - intros [?|(job & d' & t & Hx & Hj)]; [by apply settled_queue_drop|congruence]. }
  assert (doing (connected_workers s) w (client, u)) as Hdo by by exists d, t.
  apply wp_bind, wp_gets. simpl. destruct (clients s !! client) as [c|] eqn:Hc.
  2:{ apply wp_bind. eapply wp_mono; [apply (assign_jobs_spec [] [])| |done].
      - apply inv_drop_worker; [done|]. intros cl u' (d' & t' & ? & ?). by simplify_eq.
      - intros [] s1 [(Hi1 & _ & _) Hq]. eapply wp_mono; [by apply check_completion_spec| |done].
        by intros [] s2 [? [l ->]]. }
  pose proof (inv_client _ _ _ Hinv _ _ Hc) as Hok.
  assert (u ∈ running_groups c) as Hur.
  { pose proof (jo_running _ _ (inv_jobs _ _ _ Hinv) _ _ _ Hdo ltac:(by eauto)) as Hr.
    unfold running_of in Hr. by rewrite Hc in Hr. }
  destruct (co_active _ _ _ _ Hok u) as (_ & g & Hg & Hk); [right; by left|].
  assert (group_uuid g = u) as Hgu by by apply (co_keys _ _ _ _ Hok) in Hg.
  destruct (Hres client u c g Hdo Hc Hg) as [Honly Hcov].
  apply wp_bind. eapply wp_lift_ret; [unfold index; by rewrite Hg|].
  destruct (bool_decide _) eqn:Hlen; [done|]. apply bool_decide_eq_false in Hlen.
  apply wp_bind. eapply wp_update_client; [done|]. cbv beta. set (s1 := with_clients _ _).
  assert (inv [(client, group_uuid g)] [] s1) as Hi1 by (rewrite Hgu; by eapply group_finished).
  apply wp_bind. eapply wp_mono; [eapply (exec_completed_spec (S (work s1)) _ [] [] s1)| |done].
  - apply schedule_cached_ok.
  - done.
  - split; [|done|lia|done]. eexists. split; [apply lookup_insert_eq|]. simpl. congruence.
  - lia.
  - intros [] s2 (Hi2 & _ & _). apply wp_bind.
    eapply wp_mono; [by apply assign_jobs_spec| |done]. intros [] s3 [(Hi3 & _ & _) Hq].
    eapply wp_mono; [by apply check_completion_spec| |done]. by intros [] s4 [? [l ->]].
Qed.

Lemma handle_worker_connected_spec s w name :
  inv [] [] s → (∀ job, ¬ doing (connected_workers s) w job) →
  wp (handle_worker_connected w name) (λ _ s', inv [] [] s' ∧ settled_queue s') may_fail s.
Proof.
  intros [H1 H2 H3 H4 H5 H6 H7] Hw. apply wp_bind, wp_modify.
  eapply wp_mono; [apply (assign_jobs_spec [] [])| |done].
  - split; try done. simpl. eapply (jobs_ok_free _ _ w); [done|by intros ?? ?%Hw|].
    intros w' job. unfold doing. rewrite lookup_insert. destruct (decide (w = w')) as [<-|Hne].
    + split; [|naive_solver]. by intros (d & t & [= <-] & ?).
    + naive_solver.
  - by intros [] s' [(? & _ & _) ?].
Qed.

Lemma group_rescheduled s s' w client c u dp p :
  inv [] [] s → doing (connected_workers s) w (client, u) → clients s !! client = Some c →
  clients s' = <[client := set_running_groups (running_groups c ∖ {[u]})
    (set_ready_groups ({[u]} ∪ ready_groups c) c)]> (clients s) →
  connected_workers s' = delete w (connected_workers s) →
  ready_execs s' = heap_push (dp, p, u, client) (ready_execs s) → executor s' = executor s →
  executor_open s' = executor_open s → worker_manager s' = worker_manager s →
  cache s' = cache s → inv [] [] s'.
Proof.
  intros Hinv Hw Hc Hcs Hcw Hre He Ho Hwm Hca. destruct (Hinv) as [H1 H2 H3 H4 H5 H6 H7].
  pose proof (H1 client c Hc) as Hok.
  assert (u ∈ running_groups c) as Hur.
  { pose proof (jo_running _ _ H5 _ _ _ Hw ltac:(by eauto)) as Hr. unfold running_of in Hr.
    by rewrite Hc in Hr. }
  assert (u ∉ ready_groups c) as Hnr by (intros ?%(co_ready _ _ _ _ Hok); naive_solver).
  set (c' := set_running_groups _ _) in *.
  assert (∀ u', active [] client c' u' ↔ active [] client c u') as Hact.
  { intros u'. unfold active, c'. simpl. destruct (decide (u' = u)) as [->|Hne]; set_solver. }
  eapply (inv_set_client [] [] [] [] s s'); try done; rewrite ?He, ?Hcw, ?Hwm, ?Hca, ?Hre; try done.
  - eapply client_ok_move; [..|exact Hok]; try done; unfold c'; simpl; [|set_solver].
    intros u' [->%elem_of_singleton|Hu']%elem_of_union; [set_solver|].
    destruct (co_ready _ _ _ _ Hok u' Hu'). set_solver.
  - intros Hopen. eapply counts_ok_agree; [..|by apply H2]; [done| |done].
    intros u'. by apply unsettled_move.
  - by eapply queue_ok_push.
  - by eapply jobs_ok_done.
Qed.

Lemma handle_worker_disconnected_spec s w :
  inv [] [] s → wp (handle_worker_disconnected w) (λ _ s', inv [] [] s') may_fail s.
Proof.
  intros Hinv. apply wp_bind, wp_get.
  destruct (connected_workers s !! w) as [d|] eqn:Hw; [|done]. apply wp_bind, wp_modify.
  destruct (current_job d) as [[[client u] t]|] eqn:Hd.
  2:{ apply wp_ret. apply inv_drop_worker; [done|]. intros ?? Hx. by eapply not_doing in Hx. }
  assert (doing (connected_workers s) w (client, u)) as Hdo by by exists d, t.
  apply wp_bind, wp_gets. simpl. destruct (clients s !! client) as [c|] eqn:Hc.
  2:{ apply wp_ret, inv_drop_worker; [done|]. intros cl u' (d' & t' & ? & ?). by simplify_eq. }
  pose proof (jo_running _ _ (inv_jobs _ _ _ Hinv) _ _ _ Hdo ltac:(by eauto)) as Hr.
  unfold running_of in Hr. rewrite Hc in Hr.
  destruct (co_active _ _ _ _ (inv_client _ _ _ Hinv _ _ Hc) u) as (_ & g & Hg & _); [right; by left|].
  apply wp_bind. eapply wp_lift_ret; [unfold index; by rewrite Hg|].
  apply wp_bind, wp_modify, wp_bind. eapply wp_update_client; [done|].
  eapply wp_update_client; [apply lookup_insert_eq|].
  eapply group_rescheduled; [done|done|done| |done..]. simpl. by rewrite insert_insert_eq.
Qed.

Lemma retain_clients_perm n cs ready remaining :
  length ready ≤ n →
  retain_clients n cs ready remaining ≡ₚ filter (λ e, is_Some (cs !! e.2)) ready ++ remaining.
Proof.
  revert ready remaining. induction n as [|n IH]; intros ready remaining Hlen.
  { destruct ready; [done|simpl in Hlen; lia]. }
  cbn [retain_clients]. destruct (heap_pop ready_leb ready) as [[[[[dp p] u] client] rest]|] eqn:Hpop.
  2:{ apply heap_pop_None in Hpop. by subst. }
  apply heap_pop_perm in Hpop. pose proof (Permutation_length Hpop) as Hl. simpl in Hl.
  rewrite IH by lia. rewrite (filter_Permutation _ _ _ Hpop), filter_cons. simpl.
  destruct (bool_decide (is_Some (cs !! client))) eqn:Hb.
  - apply bool_decide_eq_true in Hb. rewrite decide_True by done. unfold heap_push.
    by rewrite <-Permutation_middle.
  - apply bool_decide_eq_false in Hb. by rewrite decide_False.
Qed.

(** The state without the client, before its jobs are stopped. *)
Lemma inv_drop_client s s' client :
  inv [] [] s → clients s' = delete client (clients s) →
  ready_execs s' ≡ₚ filter (λ e, is_Some (delete client (clients s) !! e.2)) (ready_execs s) →
  same_rest s s' → inv [] [] s'.
Proof.
  intros [H1 H2 H3 [Hn Hq] [J1 J2 J3] H6 H7] Hcs Hre (He & Ho & Hwm & Hcw & Hca).
  assert (∀ cl c, delete client (clients s) !! cl = Some c → clients s !! cl = Some c) as Hsub
    by (intros cl c [_ ?]%lookup_delete_Some; done).
  assert (∀ cl u, u ∈ running_of (delete client (clients s)) cl ↔
    (u ∈ running_of (clients s) cl) ∧ cl ≠ client) as Hrun.
  { intros cl u. unfold running_of. destruct (decide (cl = client)) as [->|].
    - rewrite lookup_delete_eq. set_solver.
    - rewrite lookup_delete_ne by done. naive_solver. }
  split; rewrite ?Hcs, ?He, ?Ho, ?Hwm, ?Hcw, ?Hca; try done; eauto.
  - eapply queue_ok_perm; [done|]. split.
    + eapply sublist_NoDup; [done|]. apply fmap_sublist, sublist_filter.
    + intros cl u. unfold ready_of. rewrite list_elem_of_fmap.
      setoid_rewrite list_elem_of_filter. destruct (decide (cl = client)) as [->|Hne].
      * rewrite lookup_delete_eq. split; [|set_solver].
        intros (e & [= -> ->] & [d Hd] & _). by rewrite lookup_delete_eq in Hd.
      * rewrite lookup_delete_ne by done. specialize (Hq cl u). unfold ready_of in Hq.
        rewrite <-Hq, list_elem_of_fmap. split; [naive_solver|].
        intros (e & Hid & Hin). exists e. split_and!; [done| |done].
        assert ((cl, u) ∈ exec_id <$> ready_execs s) as Hx by (apply list_elem_of_fmap; by exists e).
        apply Hq in Hx. assert (e.2 = cl) as -> by by injection Hid.
        rewrite lookup_delete_ne by done. destruct (clients s !! cl); [eauto|set_solver].
  - assert (∀ cl, is_Some (delete client (clients s) !! cl) → is_Some (clients s !! cl) ∧ cl ≠ client)
      as Hdom.
    { intros cl [d Hd]. apply lookup_delete_Some in Hd as [? ?]. naive_solver. }
    split; intros *; rewrite ?Hrun.
    + intros Hd [? ?]%Hdom. eauto.
    + intros Hd Hd' [? ?]%Hdom. by eapply J2.
    + intros [? ?]. eauto.
Qed.

Lemma handle_client_disconnected_spec s client :
  inv [] [] s →
  wp (handle_client_disconnected client) (λ _ s', inv [] [] s' ∧
    clients s' = delete client (clients s) ∧
    (∀ e, e ∈ ready_execs s' → e.2 ≠ client) ∧
    (∀ w u, doing (connected_workers s) w (client, u) →
       Wm_StopWorkerJob w u ∈ worker_manager s') ∧
    (settled_queue s → settled_queue s')) may_fail s.
Proof.
  intros Hinv. apply wp_bind, wp_gets. apply wp_bind.
  eapply (wp_mono _ (λ _ s1, ∃ l, Forall quiet l ∧ s1 = logged l s) _ may_fail); [| |done].
  { assert (∃ l, Forall quiet l ∧ s = logged l s) as Hs by (exists []; by rewrite logged_nil).
    destruct (clients s !! client) as [c|]; [|done]. destruct (is_done c); [done|].
    apply wp_context, wp_send_executor; [|done]. intros _. eexists. split; [|done]. by repeat constructor. }
  intros [] s1 (l & Hl & ->). apply wp_bind, wp_modify, wp_bind, wp_modify, wp_bind, wp_get.
  set (s2 := with_ready_execs _ _).
  assert (ready_execs s2 ≡ₚ filter (λ e, is_Some (delete client (clients s) !! e.2)) (ready_execs s))
    as Hre by (simpl; rewrite retain_clients_perm by done; by rewrite app_nil_r).
  assert (inv [] [] s2) as Hi2.
  { eapply (inv_drop_client (logged l s)); [by apply inv_logged|done|done|done]. }
  eapply wp_mono; [apply (wp_for_each (λ ws s', inv [] [] s' ∧ clients s' = clients s2 ∧
    ready_execs s' = ready_execs s2 ∧ connected_workers s' = connected_workers s ∧
    ∀ w u, doing (connected_workers s) w (client, u) →
      (∃ d t, (w, d) ∈ ws ∧ current_job d = Some (client, u, t)) ∨
      Wm_StopWorkerJob w u ∈ worker_manager s') _ may_fail)| |done].
  - split_and!; [done..|]. intros w u (d & t & Hw & Hd). left. exists d, t.
    split; [by apply elem_of_map_iter|done].
  - intros [w d] ws s3 (Hi3 & Hc3 & Hr3 & Hw3 & Hst). simpl.
    assert ((∀ u t, current_job d ≠ Some (client, u, t)) → inv [] [] s3 ∧ clients s3 = clients s2 ∧
      ready_execs s3 = ready_execs s2 ∧ connected_workers s3 = connected_workers s ∧
      ∀ w u, doing (connected_workers s) w (client, u) →
        (∃ d t, (w, d) ∈ ws ∧ current_job d = Some (client, u, t)) ∨
        Wm_StopWorkerJob w u ∈ worker_manager s3) as Hskip.
    { intros Hno. split_and!; [done..|]. intros w' u' Hd'.
      destruct (Hst w' u' Hd') as [(d' & t' & [[= -> ->]|Hin]%elem_of_cons & Hj)|?]; [|naive_solver..].
      by apply Hno in Hj. }
    destruct (current_job d) as [[[owner u] t]|] eqn:Hd; [|by apply wp_ret, Hskip].
    destruct (bool_decide (owner = client)) eqn:Ho.
    2:{ apply wp_ret, Hskip. intros u' t' [= -> _ _]. by apply bool_decide_eq_false in Ho. }
    apply bool_decide_eq_true in Ho. subst owner. apply wp_context, wp_bind, wp_get.
    destruct (worker_manager_open s3); [|done]. apply wp_modify. split_and!; [|done..|].
    + destruct Hi3 as [H1 H2 H3 H4 H5 H6 H7]. split; try done. intros w' job f. simpl.
      rewrite elem_of_app, list_elem_of_singleton. intros [?|?]; [by eapply H6|done].
    + intros w' u' Hd'. simpl. destruct (Hst w' u' Hd') as [(d' & t' & [[= -> ->]|Hin]%elem_of_cons & Hj)|?].
      * right. rewrite Hd in Hj. simplify_eq. apply elem_of_app. right. by apply list_elem_of_singleton.
      * left. by exists d', t'.
      * right. apply elem_of_app. by left.
  - intros [] s3 (Hi3 & Hc3 & Hr3 & Hw3 & Hst). split_and!; [done|done| | |].
    + intros e. rewrite Hr3, Hre, list_elem_of_filter. intros [[d Hd] _] <-.
      by rewrite lookup_delete_eq in Hd.
    + intros w u Hd. destruct (Hst w u Hd) as [(d & t & ? & _)|?]; [set_solver|done].
    + intros [Hq|Hb]; [left|right; unfold all_busy; by rewrite Hw3].
      rewrite Hr3. apply Permutation_nil. by rewrite Hre, Hq.
Qed.

Lemma handle_status_request_spec s client :
  inv [] [] s →
  wp (handle_status_request client) (λ _ s', inv [] [] s' ∧ ∃ l, s' = logged l s) may_fail s.
Proof.
  intros Hinv. apply wp_bind, wp_get. apply wp_bind.
  destruct (try_map_total (worker_status s) (values_iter (connected_workers s))) as [ws Hws].
  { intros d [w Hw]%elem_of_values_iter. unfold worker_status.
    destruct (current_job d) as [[[cl u] t]|] eqn:Hd; [|by eexists].
    destruct (clients s !! cl) as [c|] eqn:Hc; [|by eexists].
    pose proof (jo_running _ _ (inv_jobs _ _ _ Hinv) w cl u ltac:(by exists d, t) ltac:(by eauto)) as Hr.
    unfold running_of in Hr. rewrite Hc in Hr.
    destruct (co_active _ _ _ _ (inv_client _ _ _ Hinv _ _ Hc) u) as (_ & g & Hg & _); [right; by left|].
    unfold index. rewrite Hg. by eexists. }
  eapply wp_lift_ret; [done|]. apply wp_or_warn, wp_send_executor; intros _.
  - split; [|by eexists]. apply inv_logged; [|done]. by repeat constructor.
  - split; [done|]. exists []. by rewrite logged_nil.
Qed.

(** ** Messages and reachable states *)

(** What the other parts of the system guarantee of a message: the executor
    forwards one checked DAG per client, a worker asks for work when it is idle
    and sends the outputs of its group, all of them unless the sandbox failed. *)
Definition admissible s (m : SchedulerInMessage) : Prop :=
  match m with
  | In_EvaluateDAG client dag watch =>
      fresh_client s (info_uuid client) ∧ groups_keyed dag ∧ check_dag dag watch = Ret (inr tt)
  | In_WorkerResult w result outs =>
      ∀ client u c g, doing (connected_workers s) w (client, u) →
        clients s !! client = Some c → groups_of c !! u = Some g → result_ok g result outs
  | In_WorkerConnected w _ => ∀ job, ¬ doing (connected_workers s) w job
  | _ => True
  end.

Definition worker_left (m : SchedulerInMessage) : bool :=
  match m with In_WorkerDisconnected _ => true | _ => false end.

(** The messages that bring work or a free worker: the handler gives out the jobs. *)
Definition assigns s (m : SchedulerInMessage) : Prop :=
  match m with
  | In_EvaluateDAG _ _ _ | In_WorkerConnected _ _ => True
  | In_WorkerResult w _ _ => ∃ job, doing (connected_workers s) w job
  | _ => False
  end.

Lemma handle_message_spec s m :
  inv [] [] s → admissible s m →
  wp (handle_message m) (λ _ s', inv [] [] s' ∧ (assigns s m → settled_queue s') ∧
    (worker_left m = false → settled_queue s → settled_queue s')) may_fail s.
Proof.
  intros Hinv Hm. destruct m as [client dag watch|client|client f h|w result outs|w name|w|client|];
    try apply wp_context; simpl in Hm.
  - destruct Hm as (Hf & Hk & Hc). rewrite check_dag_correct in Hc.
    eapply wp_mono; [by apply handle_evaluate_dag_spec| |done]. by intros [] s' [? ?]; split_and!.
  - eapply wp_mono; [by apply handle_client_disconnected_spec| |done].
    by intros [] s' (? & _ & _ & _ & ?); split_and!.
  - eapply wp_mono; [by apply handle_file_ready_spec| |done]. by intros [] s' [? ?]; split_and!.
  - eapply wp_mono; [by apply handle_worker_result_spec| |done]. intros [] s' [? Hq].
    split_and!; [done|intros ?; apply Hq; by right|intros _ ?; apply Hq; by left].
  - eapply wp_mono; [by apply handle_worker_connected_spec| |done]. by intros [] s' [? ?]; split_and!.
  - eapply wp_mono; [by apply handle_worker_disconnected_spec| |done]. by intros [] s' ?; split_and!.
  - eapply wp_mono; [by apply handle_status_request_spec| |done]. by intros [] s' [? [l ->]]; split_and!.
  - done.
Qed.

(** The steps of the scheduler and of its environment: time passes, the other
    threads use the file store, the other ends of the channels are closed. *)
Inductive sched_step : Scheduler → Scheduler → Prop :=
  | step_message s m s' :
      admissible s m → handle_message m s = (Ret tt, s') → sched_step s s'
  | step_environment s s' :
      ready_execs s' = ready_execs s → clients s' = clients s →
      connected_workers s' = connected_workers s → executor s' = executor s →
      worker_manager s' = worker_manager s → cache_ok (cache s') →
      (executor_open s' = true → executor_open s = true) → sched_step s s'.

Definition reachable s : Prop :=
  ∃ x t, cache_ok x ∧ rtc sched_step (Scheduler_new x t) s.

Lemma inv_init x t : cache_ok x → inv [] [] (Scheduler_new x t).
Proof.
  intros Hc. split; simpl; try done.
  - constructor.
  - split; [constructor|]. intros cl u. unfold ready_of. rewrite lookup_empty. set_solver.
  - split.
    + intros w cl u (d & ? & Hd & _). by rewrite lookup_empty in Hd.
    + intros w w' cl u (d & ? & Hd & _). by rewrite lookup_empty in Hd.
    + intros cl u. unfold running_of. rewrite lookup_empty. set_solver.
  - intros w job f Hj. set_solver.
Qed.

Lemma step_inv s s' : sched_step s s' → inv [] [] s → inv [] [] s'.
Proof.
  intros [s0 m s1 Hm Hh|s0 s1 Hre Hcs Hcw He Hwm Hca Ho] Hinv.
  - pose proof (handle_message_spec s0 m Hinv Hm) as Hw. unfold wp in Hw. rewrite Hh in Hw. apply Hw.
  - destruct Hinv as [H1 H2 H3 H4 H5 H6 H7].
    split; rewrite ?Hre, ?Hcs, ?Hcw, ?He, ?Hwm; try done. intros cl c Hc Ho'%Ho. by apply H2.
Qed.

Lemma reachable_inv s : reachable s → inv [] [] s.
Proof.
  intros (c & t & Hc & Hr). apply (inv_init c t) in Hc. revert Hc.
  induction Hr as [|x y z Hxy _ IH]; eauto using step_inv.
Qed.

(** ** The order of the queue *)
Lemma ready_leb_total a b : ready_leb a b = true ∨ ready_leb b a = true.
Proof.
  destruct a as [[[dp1 p1] g1] c1], b as [[[dp2 p2] g2] c2]. unfold ready_leb.
  repeat (rewrite orb_true_iff || rewrite andb_true_iff).
  rewrite !Z.ltb_lt, !Z.eqb_eq, !N.ltb_lt, !N.eqb_eq, !N.leb_le. lia.
Qed.

(** The first two components alone: the priority of the DAG, then the one of the
    group. *)
Definition outranks (a b : ReadyExec) : Prop :=
  let '(dp1, p1, _, _) := a in let '(dp2, p2, _, _) := b in
  (dp2 < dp1 ∨ dp1 = dp2 ∧ p2 < p1)%Z.
Lemma ready_leb_outranks a b : ready_leb a b = true → ¬ outranks a b.
Proof.
  destruct a as [[[dp1 p1] g1] c1], b as [[[dp2 p2] g2] c2]. unfold ready_leb, outranks.
  repeat (rewrite orb_true_iff || rewrite andb_true_iff). lia.
Qed.

Lemma ready_leb_trans (a b c : ReadyExec) :
  ready_leb a b = true → ready_leb b c = true → ready_leb a c = true.
Proof.
  destruct a as [[[dp1 p1] g1] c1], b as [[[dp2 p2] g2] c2], c as [[[dp3 p3] g3] c3].
  unfold ready_leb. repeat (rewrite orb_true_iff || rewrite andb_true_iff).
  rewrite !Z.ltb_lt, !Z.eqb_eq, !N.ltb_lt, !N.eqb_eq, !N.leb_le. lia.
Qed.

Lemma assign_loop_busy l k :
  Forall (λ p : WorkerUuid * ConnectedWorker, is_Some (current_job p.2)) l →
  assign_loop (l ++ k) = assign_loop k.
Proof.
  induction 1 as [|[w d] l [j Hj] _ IH]; [done|]. simpl in *. by rewrite Hj.
Qed.

(** The only idle worker gets a greatest element of the queue. *)
Lemma assign_jobs_best s w d :
  inv [] [] s → connected_workers s !! w = Some d → current_job d = None →
  (∀ w' d', connected_workers s !! w' = Some d' → w' ≠ w → is_Some (current_job d')) →
  ready_execs s ≠ [] →
  wp assign_jobs (λ _ s', ∃ e rest, ready_execs s ≡ₚ e :: rest ∧ ready_execs s' = rest ∧
    (∀ e', e' ∈ ready_execs s → ready_leb e' e = true) ∧
    doing (connected_workers s') w (exec_id e)) may_fail s.
Proof.
  intros Hinv Hw Hd Hothers Hne. apply wp_bind, wp_get.
  assert ((w, d) ∈ map_iter (connected_workers s)) as Hin by by apply elem_of_map_iter.
  pose proof (NoDup_keys_iter (connected_workers s)) as Hnd. unfold keys_iter in Hnd.
  assert (∀ w' d', (w', d') ∈ map_iter (connected_workers s) →
    connected_workers s !! w' = Some d') as Hall by (intros; by apply elem_of_map_iter).
  destruct (list_elem_of_split _ _ Hin) as (l1 & l2 & Hl). rewrite Hl in *. clear Hl Hin.
  rewrite fmap_app, fmap_cons in Hnd. simpl in Hnd.
  apply NoDup_app in Hnd as (_ & Hd1 & [Hd2 _]%NoDup_cons).
  assert (∀ l, (∀ p, p ∈ l → p ∈ l1 ++ (w, d) :: l2) → w ∉ l.*1 →
    Forall (λ p : WorkerUuid * ConnectedWorker, is_Some (current_job p.2)) l) as Hbusy.
  { intros l Hsub Hnw. apply Forall_forall. intros [w' d'] Hp. simpl.
    apply (Hothers w'); [by apply Hall, Hsub|]. intros ->. apply Hnw, list_elem_of_fmap.
    by exists (w, d'). }
  rewrite assign_loop_busy.
  2:{ apply Hbusy; [set_solver|]. intros Hx. apply (Hd1 _ Hx). set_solver. }
  cbn [assign_loop]. rewrite Hd. apply wp_bind, wp_get.
  destruct (heap_pop ready_leb (ready_execs s)) as [[[[[dp p] u] client] rest]|] eqn:Hpop.
  2:{ by apply heap_pop_None in Hpop. }
  pose proof (heap_pop_greatest _ ready_leb_total ready_leb_trans _ _ _ Hpop) as Hmax.
  apply heap_pop_perm in Hpop. apply wp_bind, wp_modify, wp_bind.
  eapply wp_mono; [by eapply (assign_job_spec [] [] s dp p u client rest w d)| |done].
  intros [] s1 (_ & _ & Hre & Hws). rewrite <-(app_nil_r l2), assign_loop_busy.
  - apply wp_ret. exists (dp, p, u, client), rest. split_and!; [done|done|done|].
    rewrite Hws. eexists _, _. split; [apply lookup_insert_eq|done].
  - apply Hbusy; [set_solver|done].
Qed.
End handlers.
