(* ===== verification/SchedulerCorrect.v ===== *)
(** * Theorems on the scheduler

    The properties of the states reachable by the scheduler, an evaluation run
    step by step, and two states in which an evaluation is stuck. *)
From S2P Require Import Prelude Paths StoreKey Disk Store Dag Cache CheckDag CacheService.
From S2P Require Import Scheduler SchedulerInv SchedulerSpec SchedulerProps.

Section theorems.
Context {iter : IterOrder} {ops : CacheOps} {laws : CacheLaws}.
Implicit Types (s : Scheduler) (c : SchedulerClientData).

Lemma reachable_step s m :
  reachable s → admissible s m → (handle_message m s).1 = Ret tt →
  reachable (handle_message m s).2.
Proof.
  intros (x & t & Hx & Hr) Hm Hret. exists x, t. split; [done|].
  eapply rtc_r; [done|]. eapply step_message; [done|]. by apply run_result.
Qed.

(** A check of the results of a worker. *)
Definition check_result s (w : WorkerUuid) (result : list ExecutionResult) (outs : FileKeys) :
    bool :=
  match connected_workers s !! w with
  | Some (mkWorker _ _ (Some (client, u, _))) =>
      match clients s !! client with
      | Some c =>
          match groups_of c !! u with
          | Some g =>
              bool_decide (Forall (λ f, f ∈ outputs g) (keys_iter outs)) &&
              (existsb (λ r, is_internal_error (status r)) result ||
               bool_decide (Forall (λ f, is_Some (outs !! f)) (outputs g)))
          | None => true
          end
      | None => true
      end
  | _ => true
  end.

Lemma check_result_ok s w result outs :
  check_result s w result outs = true → admissible s (In_WorkerResult w result outs).
Proof.
  intros Hc client u c g ([? ? job] & t & Hw & Hj) Hcl Hg. simpl in Hj. unfold check_result in Hc.
  rewrite Hw, Hj, Hcl, Hg in Hc. apply andb_true_iff in Hc as [H1 H2]. split.
  - intros f Hf. apply bool_decide_eq_true in H1. rewrite Forall_forall in H1.
    apply elem_of_outputs, H1. by apply elem_of_keys_iter.
  - intros Hi. rewrite Hi in H2. apply bool_decide_eq_true in H2. rewrite Forall_forall in H2.
    intros f Hf%elem_of_outputs. by apply H2.
Qed.

(** C1: no message of a well-behaved peer crashes or blocks the scheduler: in a
    reachable state every handler returns, with a value or with an error; no map
    lookup, no missing file key and no mutual recursion of [file_success],
    [exec_completed] and [schedule_cached] makes it panic or loop.  The cache is assumed
    to return ([CacheLaws]): the one of this program does in the release profile
    ([store_cache_laws]); in the dev profile a subtraction of [is_compatible] can
    overflow, see [is_compatible_underflow]. *)
Theorem scheduler_safe s m :
  reachable s → admissible s m →
  ∃ r s', handle_message m s = (r, s') ∧ (r = Ret tt ∨ ∃ e, r = Fail e).
Proof.
  intros Hr%reachable_inv Hm. pose proof (handle_message_spec s m Hr Hm) as Hw. unfold wp in Hw.
  destruct (handle_message m s) as [[[]|e|msg|] s']; eauto 6; done.
Qed.

(** C2: an evaluation cannot get stuck: when all the provided files of a client
    have arrived and none of its groups is ready or running, it is done, no
    group waits for a file any more. *)
Theorem scheduler_no_deadlock s client c :
  reachable s → clients s !! client = Some c →
  ready_groups c = ∅ → running_groups c = ∅ →
  (∀ f, is_Some (provided_files (cd_dag c) !! f) → is_Some (file_handles c !! f)) →
  is_done c = true.
Proof.
  intros Hr%reachable_inv Hc Hready Hrun Hprov.
  pose proof (inv_client _ _ _ Hr _ _ Hc) as Hok. pose proof (co_valid _ _ _ _ Hok) as Hv.
  unfold is_done. rewrite Hready, Hrun, !bool_decide_eq_true_2 by done. simpl.
  apply bool_decide_eq_true, map_empty. intros u.
  destruct (missing_deps c !! u) as [fs0|] eqn:Hu0; [|done]. exfalso.
  destruct (co_missing _ _ _ _ Hok u fs0 Hu0) as (_ & g0 & Hg0 & _).
  assert (Acc (depends_on (cd_dag c)) u) as Hacc.
  { apply (runnable_acc _ (cd_callbacks c)); [done|]. apply (valid_runnable _ _ Hv). eauto. }
  clear Hg0 g0. revert fs0 Hu0. induction Hacc as [u _ IH]. intros fs Hu.
  destruct (co_missing _ _ _ _ Hok u fs Hu) as (Hne & g & Hg & Hd & _).
  destruct (set_choose_L fs Hne) as [f Hf].
  destruct (co_waiting _ _ _ _ Hok u fs f Hu Hf) as [Hx|[Hnone Hprod]]; [set_solver|].
  pose proof (valid_runnable _ _ Hv u ltac:(by eauto)) as Hrn.
  inversion Hrn as [? g' Hg' Hav]; simplify_eq.
  pose proof (Hav f (Hd f Hf)) as Hf'. inversion Hf' as [? Hp|u' g' ? Hg'' Ho _]; simplify_eq.
  - apply Hprov in Hp as [? ?]. congruence.
  - destruct (Hprod u' g' Hg'' Ho) as [[fs' Hu']|[Ha|[Ha|Ha]]]; [|set_solver..].
    eapply (IH u'); [|done]. exists g, g', f. auto.
Qed.

(** C3: the client hears of every group it watches exactly once: no
    [ExecutionDone] or [ExecutionSkipped] is sent while the group waits, is ready
    or is running, exactly one afterwards; so when the client is done each of
    the groups it watches has been told once. *)
Theorem scheduler_notifies_once s client c u :
  reachable s → executor_open s = true → clients s !! client = Some c →
  u ∈ watch_executions (cd_callbacks c) →
  (is_Some (missing_deps c !! u) ∨ u ∈ ready_groups c ∨ u ∈ running_groups c →
     settled_count client u (executor s) = 0) ∧
  (missing_deps c !! u = None → u ∉ ready_groups c → u ∉ running_groups c →
     settled_count client u (executor s) = 1) ∧
  (is_done c = true → settled_count client u (executor s) = 1).
Proof.
  intros Hr%reachable_inv Ho Hc Hw. pose proof (inv_client _ _ _ Hr _ _ Hc) as Hok.
  assert (is_Some (groups_of c !! u)) as Hg.
  { destruct (valid_watch_executions _ _ (co_valid _ _ _ _ Hok) u Hw) as (u' & g & Hg & <-).
    pose proof (co_keys _ _ _ _ Hok _ _ Hg) as Hu. simpl in Hu. rewrite Hu. eauto. }
  destruct (inv_counts _ _ _ Hr _ _ Hc Ho u Hg Hw) as [Hz Hone]. unfold unsettled, active in *.
  split_and!.
  - intros Hx. apply Hz. naive_solver.
  - intros H1 H2 H3. apply Hone. rewrite H1. intros [[]|[?|[?|?]]]; set_solver.
  - unfold is_done. rewrite !andb_true_iff, !bool_decide_eq_true. intros [[H1 H2] H3].
    apply Hone. rewrite H1, H2, H3, lookup_empty. intros [[]|[?|[?|?]]]; set_solver.
Qed.

(** C6: the jobs are consistent: the groups marked as running are exactly those
    a worker is doing, each on one worker only, and every job ever sent to a
    worker came with the keys of all the files its group reads. *)
Theorem scheduler_jobs s :
  reachable s →
  (∀ client c u, clients s !! client = Some c →
     u ∈ running_groups c ↔ ∃ w, doing (connected_workers s) w (client, u)) ∧
  (∀ client c u w w', clients s !! client = Some c → doing (connected_workers s) w (client, u) →
     doing (connected_workers s) w' (client, u) → w = w') ∧
  (∀ w job f, Wm_WorkerJob w job ∈ worker_manager s → dep_of (job_group job) f →
     is_Some (dep_keys job !! f)).
Proof.
  intros Hr%reachable_inv. destruct (inv_jobs _ _ _ Hr) as [J1 J2 J3]. split_and!.
  - intros client c u Hc. assert (running_groups c = running_of (clients s) client) as ->
      by (unfold running_of; by rewrite Hc). split; [by apply J3|]. intros [w Hw]. eauto.
  - eauto.
  - apply (inv_sent _ _ _ Hr).
Qed.

(** C9: the queue of the ready executions holds exactly the ready groups of the
    connected clients, each once; no group is ready and running, or ready and
    waiting, at the same time. *)
Theorem scheduler_queue s :
  reachable s →
  NoDup (exec_id <$> ready_execs s) ∧
  (∀ client u, (client, u) ∈ exec_id <$> ready_execs s ↔
     ∃ c, clients s !! client = Some c ∧ u ∈ ready_groups c) ∧
  (∀ client c u, clients s !! client = Some c → u ∈ ready_groups c →
     (u ∉ running_groups c) ∧ missing_deps c !! u = None).
Proof.
  intros Hr%reachable_inv. destruct (inv_queue _ _ _ Hr) as [Hn Hq]. split_and!; [done| |].
  - intros client u. rewrite Hq. unfold ready_of. destruct (clients s !! client) as [c|]; set_solver.
  - intros client c u Hc Hu. pose proof (inv_client _ _ _ Hr _ _ Hc) as Hok.
    destruct (co_ready _ _ _ _ Hok u Hu) as [? _].
    destruct (co_active _ _ _ _ Hok u) as [? _]; [by left|]. done.
Qed.

(** C10: the scheduler is work conserving.  A message that brings work or a free worker
    (a DAG, a worker that connects, the result of a worker that had a job) leaves no worker
    idle with a ready execution in the queue, whatever the state before; any other message
    but the disconnection of a worker keeps it so if it was so before.  After a
    disconnection it may not be so, see [scheduler_strands_job]. *)
Theorem scheduler_work_conserving s m s' :
  reachable s → admissible s m → handle_message m s = (Ret tt, s') →
  (assigns s m → settled_queue s') ∧
  (worker_left m = false → settled_queue s → settled_queue s').
Proof.
  intros Hr%reachable_inv Hm Hh. pose proof (handle_message_spec s m Hr Hm) as Hw.
  unfold wp in Hw. rewrite Hh in Hw. apply Hw.
Qed.

(** C11: when the only idle worker connects and the queue is not empty it gets an entry
    of the queue that no other one outranks, by the DAG priority and then the priority
    recorded in the entries (the DAG priority is [HIGH_PRIORITY] for a group released by a
    file or queued again after a disconnection, see [ready_leb]); only that one leaves the
    queue. *)
Theorem scheduler_best_job s w name s' :
  reachable s → (∀ job, ¬ doing (connected_workers s) w job) →
  (∀ w' d, connected_workers s !! w' = Some d → w' ≠ w → is_Some (current_job d)) →
  ready_execs s ≠ [] → handle_worker_connected w name s = (Ret tt, s') →
  ∃ e rest, ready_execs s ≡ₚ e :: rest ∧ ready_execs s' = rest ∧
    (∀ e', e' ∈ ready_execs s → ¬ outranks e' e) ∧
    doing (connected_workers s') w (exec_id e).
Proof.
  intros Hr%reachable_inv Hw Hbusy Hne Hh. pose proof (inv_jobs _ _ _ Hr) as Hj.
  set (s1 := with_workers (<[w := mkWorker w name None]> (connected_workers s)) s).
  change (assign_jobs s1 = (Ret tt, s')) in Hh.
  assert (inv [] [] s1) as Hi1.
  { destruct Hr as [H1 H2 H3 H4 H5 H6 H7]. split; try done.
    eapply (jobs_ok_free _ _ w); [done|by intros ?? ?%Hw|].
    intros w' job. unfold doing. simpl. rewrite lookup_insert. destruct (decide (w = w')) as [<-|].
    - split; [|naive_solver]. by intros (d & t & [= <-] & ?).
    - naive_solver. }
  pose proof (assign_jobs_best s1 w (mkWorker w name None) Hi1) as Hb. unfold wp in Hb.
  rewrite Hh in Hb. destruct Hb as (e & rest & ? & ? & Hmax & ?); [apply lookup_insert_eq|done| |done|].
  - intros w' d'. simpl. rewrite lookup_insert. destruct (decide (w = w')) as [<-|]; [done|].
    intros Hd' _. by eapply Hbusy.
  - exists e, rest. split_and!; [done..| |done]. intros e' He'. by apply ready_leb_outranks, Hmax.
Qed.

(** C12: after a client disconnected nothing of it is left: its data and its ready
    executions are gone and every worker that was running one of its groups has
    been told to stop it; the data of the other clients is untouched. *)
Theorem scheduler_client_gone s client s' :
  reachable s → handle_client_disconnected client s = (Ret tt, s') →
  clients s' = delete client (clients s) ∧
  (∀ e, e ∈ ready_execs s' → e.2 ≠ client) ∧
  (∀ w u, doing (connected_workers s) w (client, u) → Wm_StopWorkerJob w u ∈ worker_manager s').
Proof.
  intros Hr%reachable_inv Hh. pose proof (handle_client_disconnected_spec s client Hr) as Hw.
  unfold wp in Hw. rewrite Hh in Hw. naive_solver.
Qed.
End theorems.

(** ** An evaluation

    The client 50 sends a DAG of two groups, the worker 100 runs them; the cache
    is the one of [Cache.v] on the store of [Store.v]. *)
Module SchedulerExample.
#[export] Instance ex_ops : CacheOps :=
  @store_cache_ops forward_order release_profile toy_blake3 quiet_world decimal_uuid.
#[export] Instance ex_laws : CacheLaws :=
  @store_cache_laws forward_order release_profile toy_blake3 quiet_world decimal_uuid eq_refl.
#[export] Instance ex_iter : IterOrder := forward_order.
End SchedulerExample.

Import SchedulerExample.

Definition ex_sort : ExecutionGroup :=
  into_group 2 (set_stdin (Input_File 8) (Execution_new "sort" (System [Normal "sort"]))).
Definition ex_dag : ExecutionDAGData :=
  data_insert_group ex_reader (data_insert_group ex_sort
    (data_insert_file 7 (Content (mkFile 7 "in") (mkKey (pad_vec 32 [])) [])
      (mkDagData ∅ ∅ ExecutionDAGConfig_new))).

Definition ex_evaluate : SchedulerInMessage :=
  In_EvaluateDAG (mkClientInfo 50 "client") ex_dag ex_watch.
Definition ex_file_ready : SchedulerInMessage := In_FileReady 50 7 ex_handle.
Definition ex_connected : SchedulerInMessage := In_WorkerConnected 100 "worker".
Definition ex_first_result : SchedulerInMessage := In_WorkerResult 100 [ex_result] {[8%N := ex_handle]}.
Definition ex_second_result : SchedulerInMessage := In_WorkerResult 100 [ex_result] ∅.

Definition ex_start : Scheduler := Scheduler_new (mkCacheOnStore ex_empty_cache ex_stored.2) 0.
Definition after (m : SchedulerInMessage) (s : Scheduler) : Scheduler := (handle_message m s).2.
Definition ex_evaluating : Scheduler := after ex_evaluate ex_start.
Definition ex_ready : Scheduler := after ex_file_ready ex_evaluating.
Definition ex_first : Scheduler := after ex_connected ex_ready.
Definition ex_between : Scheduler := after ex_first_result ex_first.
Definition ex_second_job : Scheduler := after ex_connected ex_between.
Definition ex_end : Scheduler := after ex_second_result ex_second_job.

Lemma ex_start_reachable : reachable ex_start.
Proof.
  eexists _, _. split; [|apply rtc_refl]. split.
  - intros k l e Hl. change ((∅ : gmap CacheKey (list CacheEntry)) !! k = Some l) in Hl.
    by rewrite lookup_empty in Hl.
  - exists [ex_handle]. apply ex_stored_inv.
Qed.

Lemma ex_dag_keyed : groups_keyed ex_dag.
Proof. refine (bool_decide_unpack _ _). vm_compute. reflexivity. Qed.

Lemma ex_evaluate_admissible : admissible ex_start ex_evaluate.
Proof.
  split; [split_and!|split].
  - vm_compute. reflexivity.
  - intros w u (d & t & Hd & _). change ((∅ : gmap N ConnectedWorker) !! w = Some d) in Hd.
    by rewrite lookup_empty in Hd.
  - intros u. reflexivity.
  - apply ex_dag_keyed.
  - vm_compute. reflexivity.
Qed.

Lemma not_connected_idle (s : Scheduler) (w : WorkerUuid) name :
  bool_decide (connected_workers s !! w = None) = true →
  admissible s (In_WorkerConnected w name).
Proof. intros Hn%bool_decide_eq_true job (d & t & Hd & _). congruence. Qed.

Lemma ex_evaluating_reachable : reachable ex_evaluating.
Proof.
  apply reachable_step; [apply ex_start_reachable|apply ex_evaluate_admissible|].
  vm_compute. reflexivity.
Qed.

Lemma ex_ready_reachable : reachable ex_ready.
Proof. apply reachable_step; [apply ex_evaluating_reachable|done|]. vm_compute. reflexivity. Qed.

Lemma ex_connected_admissible : admissible ex_ready ex_connected.
Proof. apply not_connected_idle. vm_compute. reflexivity. Qed.

Lemma ex_first_reachable : reachable ex_first.
Proof.
  apply reachable_step; [apply ex_ready_reachable|apply ex_connected_admissible|].
  vm_compute. reflexivity.
Qed.

Lemma ex_first_result_admissible : admissible ex_first ex_first_result.
Proof. apply check_result_ok. vm_compute. reflexivity. Qed.

Lemma ex_between_reachable : reachable ex_between.
Proof.
  apply reachable_step; [apply ex_first_reachable|apply ex_first_result_admissible|].
  vm_compute. reflexivity.
Qed.

Lemma ex_second_job_reachable : reachable ex_second_job.
Proof.
  apply reachable_step; [apply ex_between_reachable| |vm_compute; reflexivity].
  apply not_connected_idle. vm_compute. reflexivity.
Qed.

Lemma ex_end_reachable : reachable ex_end.
Proof.
  apply reachable_step; [apply ex_second_job_reachable| |vm_compute; reflexivity].
  apply check_result_ok. vm_compute. reflexivity.
Qed.

Definition client_of (s : Scheduler) : SchedulerClientData :=
  default (SchedulerClientData_new "x" ex_dag ex_watch) (clients s !! 50%N).
Lemma client_of_eq (s : Scheduler) :
  bool_decide (is_Some (clients s !! 50%N)) = true → clients s !! 50%N = Some (client_of s).
Proof. unfold client_of. intros [c ->]%bool_decide_eq_true. done. Qed.

Definition ex_client : SchedulerClientData := client_of ex_end.
Lemma ex_client_eq : clients ex_end !! 50%N = Some ex_client.
Proof. apply client_of_eq. vm_compute. reflexivity. Qed.

(** The whole conversation with the client and with the worker. *)
Example ex_messages :
  ((λ m : SchedulerExecutorMessage, match m.2 with
     | Out_ExecutionStarted e w => (e, Some "started")
     | Out_ExecutionDone e _ => (e, Some "done")
     | Out_FileReady f _ true _ => (f, Some "file")
     | Out_EvaluationDone => (m.1, Some "end")
     | _ => (0%N, None)
     end) <$> executor ex_end) =
  [(1%N, Some "started"); (1%N, Some "done"); (8%N, Some "file"); (2%N, Some "started");
   (2%N, Some "done"); (50%N, Some "end")].
Proof. vm_compute. reflexivity. Qed.

Lemma scheduler_safe_witness :
  ∃ r s', handle_message ex_first_result ex_first = (r, s') ∧ (r = Ret tt ∨ ∃ e, r = Fail e).
Proof.
  apply (scheduler_safe ex_first ex_first_result).
  - apply ex_first_reachable.
  - apply ex_first_result_admissible.
Defined.

Lemma scheduler_no_deadlock_witness : is_done ex_client = true.
Proof.
  apply (scheduler_no_deadlock ex_end 50 ex_client).
  - apply ex_end_reachable.
  - apply ex_client_eq.
  - vm_compute. reflexivity.
  - vm_compute. reflexivity.
  - assert (∀ f, is_Some (provided_files (cd_dag ex_client) !! f) → f = 7%N) as Hf.
    { intros f [p Hp]. change (provided_files (cd_dag ex_client)) with
        (<[7%N := Content (mkFile 7 "in") (mkKey (pad_vec 32 [])) []]>
           (∅ : gmap FileUuid ProvidedFile)) in Hp.
      rewrite lookup_insert in Hp. destruct (decide (7%N = f)); [done|].
      by rewrite lookup_empty in Hp. }
    intros f ->%Hf. vm_compute. by eexists.
Defined.

Lemma scheduler_notifies_once_witness : settled_count 50 1 (executor ex_end) = 1.
Proof.
  apply (scheduler_notifies_once ex_end 50 ex_client 1).
  - apply ex_end_reachable.
  - vm_compute. reflexivity.
  - apply ex_client_eq.
  - vm_compute. reflexivity.
  - vm_compute. reflexivity.
Defined.

Lemma scheduler_jobs_witness : ∃ w, doing (connected_workers ex_first) w (50%N, 1%N).
Proof.
  apply (scheduler_jobs ex_first ex_first_reachable) with (c := client_of ex_first).
  - apply client_of_eq. vm_compute. reflexivity.
  - apply (bool_decide_eq_true (1%N ∈ running_groups (client_of ex_first))).
    vm_compute. reflexivity.
Defined.

Lemma scheduler_queue_witness : NoDup (exec_id <$> ready_execs ex_ready).
Proof. apply (scheduler_queue ex_ready). apply ex_ready_reachable. Defined.

Lemma scheduler_work_conserving_witness : settled_queue (handle_message ex_first_result ex_first).2.
Proof.
  apply (scheduler_work_conserving ex_first ex_first_result).
  - apply ex_first_reachable.
  - apply ex_first_result_admissible.
  - apply run_result. vm_compute. reflexivity.
  - reflexivity.
  - left. vm_compute. reflexivity.
Defined.

Lemma scheduler_best_job_witness :
  let s' := (handle_worker_connected 100 "worker" ex_ready).2 in
  ∃ e rest, ready_execs ex_ready ≡ₚ e :: rest ∧ ready_execs s' = rest ∧
    (∀ e', e' ∈ ready_execs ex_ready → ¬ outranks e' e) ∧
    doing (connected_workers s') 100 (exec_id e).
Proof.
  apply (scheduler_best_job ex_ready 100 "worker").
  - apply ex_ready_reachable.
  - apply ex_connected_admissible.
  - intros w d Hd. exfalso. assert (bool_decide (connected_workers ex_ready = ∅) = true) as He
      by (vm_compute; reflexivity). apply bool_decide_eq_true in He. by rewrite He, lookup_empty in Hd.
  - intros Hn. apply (f_equal length) in Hn. vm_compute in Hn. discriminate.
  - apply run_result. vm_compute. reflexivity.
Defined.

Lemma scheduler_client_gone_witness :
  Wm_StopWorkerJob 100 1 ∈ worker_manager (handle_client_disconnected 50 ex_first).2.
Proof.
  apply (scheduler_client_gone ex_first 50).
  - apply ex_first_reachable.
  - apply run_result. vm_compute. reflexivity.
  - exists (mkWorker 100 "worker" (Some (50, 1, 0)%N)), 0%N. split; [|reflexivity].
    vm_compute. reflexivity.
Defined.

(** ** Evaluations that get stuck *)

(** A worker that leaves while another one is idle: its job goes back to the
    queue and nobody gets it, until another message arrives. *)
Definition ex_two_workers : Scheduler := after (In_WorkerConnected 101 "idle") ex_first.
Definition ex_stranded : Scheduler := after (In_WorkerDisconnected 100) ex_two_workers.

Lemma scheduler_strands_job : reachable ex_stranded ∧ ¬ settled_queue ex_stranded.
Proof.
  split.
  - apply reachable_step; [|done|vm_compute; reflexivity].
    apply reachable_step; [apply ex_first_reachable| |vm_compute; reflexivity].
    apply not_connected_idle. vm_compute. reflexivity.
  - intros [Hq|Hb].
    + apply (f_equal length) in Hq. vm_compute in Hq. discriminate.
    + destruct (Hb 101%N (mkWorker 101 "idle" None)) as [? [=]]. vm_compute. reflexivity.
Qed.

(** A DAG whose groups all come from the cache as soon as it arrives: the client
    is done and [EvaluationDone] is not sent. *)
Definition ex_alone : ExecutionDAGData :=
  data_insert_group (into_group 3 (Execution_new "date" (System [Normal "date"])))
    (mkDagData ∅ ∅ ExecutionDAGConfig_new).
Definition ex_no_watch : ExecutionDAGWatchSet := mkWatch ∅ ∅ ∅.
Definition ex_evaluate_alone (client : ClientUuid) : SchedulerInMessage :=
  In_EvaluateDAG (mkClientInfo client "client") ex_alone ex_no_watch.
Definition ex_cached_start : Scheduler :=
  after (In_WorkerResult 100 [ex_result] ∅)
    (after (ex_evaluate_alone 50) (after ex_connected ex_start)).
Definition ex_cached_dag : Scheduler := after (ex_evaluate_alone 51) ex_cached_start.

Lemma scheduler_cached_dag_silent :
  (handle_message (ex_evaluate_alone 51) ex_cached_start).1 = Ret tt ∧
  option_map is_done (clients ex_cached_dag !! 51%N) = Some true ∧
  filter (λ m, m.1 = 51%N) (executor ex_cached_dag) = [].
Proof. split_and!; vm_compute; reflexivity. Qed.

(** A second DAG of the same client while executions of the first one are in the
    queue: the scheduler panics. *)
Lemma scheduler_second_dag_panics :
  (handle_message ex_evaluate (after (ex_evaluate_alone 50) ex_start)).1 =
    Panicked "no entry found for key".
Proof. vm_compute. reflexivity. Qed.
