(* ===== verification/Proto.v ===== *)
(** * Messages between client, server and workers ([task-maker-exec/src/proto.rs])

    The messages and the transfer of a file in the raw mode of a channel.  A
    channel of [ductile] carries messages and raw data in order; [Channel] is the
    list of what was sent with a flag that tells whether the other side still
    listens, and a receiver is the list of what is still to be received. *)
From S2P Require Import Prelude Disk Paths StoreKey Store Dag Cache CheckDag Scheduler.

Inductive ExecutorClientMessage : Type :=
  | Cl_Evaluate (dag : ExecutionDAGData) (callbacks : ExecutionDAGWatchSet)
  | Cl_ProvideFile (uuid : FileUuid) (key : FileStoreKey)
  | Cl_AskFile (uuid : FileUuid) (key : FileStoreKey) (success : bool)
  | Cl_Stop
  | Cl_Status.

Inductive ExecutorServerMessage : Type :=
  | Sv_AskFile (uuid : FileUuid)
  | Sv_ProvideFile (uuid : FileUuid) (success : bool)
  | Sv_NotifyStart (group : ExecutionGroupUuid) (worker : WorkerUuid)
  | Sv_NotifyDone (group : ExecutionGroupUuid) (result : list ExecutionResult)
  | Sv_NotifySkip (group : ExecutionGroupUuid)
  | Sv_Error (msg : string)
  | Sv_Status (status : ExecutorStatus Duration)
  | Sv_Done (files : list (FileUuid * FileStoreKey * bool)).

Inductive WorkerClientMessage : Type :=
  | Wk_GetWork
  | Wk_WorkerDone (result : list ExecutionResult) (outs : gmap FileUuid FileStoreKey)
  | Wk_ProvideFile (uuid : FileUuid) (key : FileStoreKey)
  | Wk_AskFile (key : FileStoreKey).

Inductive WorkerServerMessage : Type :=
  | Ws_Work (job : WorkerJob)
  | Ws_KillJob (job : ExecutionGroupUuid)
  | Ws_ProvideFile (key : FileStoreKey)
  | Ws_AskFiles (files : list FileUuid)
  | Ws_Exit.

(** ** Channels *)
Inductive Packet (T : Type) : Type :=
  | Item (m : T)
  | RawData (data : list byte).
Arguments Item {T} _.
Arguments RawData {T} _.

Record Channel (T : Type) : Type := mkChannel {
  sent : list (Packet T);
  channel_open : bool
}.
Arguments mkChannel {T} _ _.
Arguments sent {T} _.
Arguments channel_open {T} _.

Section channel.
Context {T : Type}.

Definition send_packet (p : Packet T) : M (Channel T) unit :=
  ch ← get_st;
  if channel_open ch then modify (λ ch, mkChannel (sent ch ++ [p]) (channel_open ch))
  else bail "Cannot send message".
Definition send (m : T) : M (Channel T) unit := send_packet (Item m).
Definition send_raw (data : list byte) : M (Channel T) unit := send_packet (RawData data).

(** [recv] fails when the channel is closed or in the raw mode, [recv_raw] when
    it is closed or not in the raw mode. *)
Definition recv : M (list (Packet T)) T := λ ps,
  match ps with
  | Item m :: ps => (Ret m, ps)
  | RawData _ :: ps => (Fail ["Expected item, got raw data"], ps)
  | [] => (Fail ["receiving on a closed channel"], [])
  end.
Definition recv_raw : M (list (Packet T)) (list byte) := λ ps,
  match ps with
  | RawData data :: ps => (Ret data, ps)
  | Item _ :: ps => (Fail ["Expected raw data, got item"], ps)
  | [] => (Fail ["receiving on a closed channel"], [])
  end.

(** ** Reading a file in blocks ([read_file_iterator.rs]) *)
Definition READ_FILE_BUFFER_SIZE : nat := 8 * 1024.

(** Each read fills the buffer, the last one may be shorter; the reader stops at
    a read of zero bytes.  The content gets shorter at each read. *)
Fixpoint read_blocks (fuel : nat) (content : list byte) : list (list byte) :=
  match fuel, content with
  | S fuel, _ :: _ =>
      take READ_FILE_BUFFER_SIZE content
      :: read_blocks fuel (drop READ_FILE_BUFFER_SIZE content)
  | _, _ => []
  end.
Definition file_blocks (content : list byte) : list (list byte) :=
  read_blocks (length content) content.

(** ** Sending and receiving a file *)

(** [ChannelFileSender::send], on the content of the file. *)
Definition send_file_content (content : list byte) : M (Channel T) unit :=
  _ ← for_each (file_blocks content) (λ buf,
        with_context "Failed to send file chunk" (send_raw buf));
  with_context "Failed to send file terminator" (send_raw []).

Definition send_data (data : list byte) : M (Channel T) unit :=
  _ ← with_context "Failed to send file chunk" (send_raw data);
  if bool_decide (data = []) then mret tt
  else with_context "Failed to send file terminator" (send_raw []).

(** [ChannelFileIterator], run to its end: an error of the channel is a panic. *)
Fixpoint receive_file (ps : list (Packet T)) : Outcome (list (list byte)) * list (Packet T) :=
  match ps with
  | RawData [] :: ps => (Ret [], ps)
  | RawData data :: ps =>
      let '(r, ps) := receive_file ps in (ys ← r; Ret (data :: ys), ps)
  | _ => (Panicked "deserialize error", ps)
  end.
End channel.

(** ** Properties of the transfer *)
Section transfer.
Context {T : Type}.

Lemma concat_read_blocks fuel content :
  length content ≤ fuel → concat (read_blocks fuel content) = content.
Proof.
  revert content. induction fuel as [|fuel IH]; intros content Hlen.
  { destruct content; [done|]. simpl in Hlen. lia. }
  destruct content as [|b content]; [done|]. cbn [read_blocks]. cbn [concat].
  rewrite IH; [apply take_drop|]. rewrite length_drop. cbn [length] in *.
  unfold READ_FILE_BUFFER_SIZE. lia.
Qed.

Lemma concat_file_blocks content : concat (file_blocks content) = content.
Proof. by apply concat_read_blocks. Qed.

Lemma file_blocks_nonempty content : Forall (λ b, b ≠ []) (file_blocks content).
Proof.
  unfold file_blocks. generalize (length content). intros fuel. revert content.
  induction fuel as [|fuel IH]; intros [|b content]; by constructor.
Qed.

(** What [send_raw] in a loop leaves in an open channel. *)
Lemma send_blocks_spec ctx bs (ch : Channel T) :
  channel_open ch = true →
  for_each bs (λ buf, with_context ctx (send_raw buf)) ch =
    (Ret tt, mkChannel (sent ch ++ (RawData <$> bs)) true).
Proof.
  revert ch. induction bs as [|b bs IH]; intros [l o] Ho; simpl in Ho; subst o.
  { unfold for_each, mret, M_ret. simpl. by rewrite app_nil_r. }
  cbn [for_each]. unfold mbind, M_bind. cbn [with_context send_raw send_packet].
  unfold with_context, send_raw, send_packet, mbind, M_bind, get_st, modify. simpl.
  change (for_each bs (λ buf, with_context ctx (send_raw buf)) (mkChannel (l ++ [RawData b]) true) =
    (Ret tt, mkChannel (l ++ (RawData <$> b :: bs)) true)).
  rewrite IH by done. cbn [sent]. by rewrite <-app_assoc.
Qed.

Lemma send_file_content_open content (ch : Channel T) :
  channel_open ch = true →
  send_file_content content ch =
    (Ret tt, mkChannel (sent ch ++ (RawData <$> (file_blocks content ++ [[]]))) true).
Proof.
  intros Ho. unfold send_file_content, mbind, M_bind. rewrite send_blocks_spec by done.
  unfold with_context, send_raw, send_packet, mbind, M_bind, get_st, modify. simpl.
  by rewrite fmap_app, app_assoc.
Qed.

(** The chunks of a content sent from memory. *)
Definition data_chunks (c : list byte) : list (list byte) :=
  match c with [] => [] | _ => [c] end.

Lemma send_data_open c (ch : Channel T) :
  channel_open ch = true →
  send_data c ch = (Ret tt, mkChannel (sent ch ++ (RawData <$> data_chunks c) ++ [RawData []]) true).
Proof.
  destruct ch as [l o]. simpl. intros ->.
  unfold send_data, with_context, send_raw, send_packet, mbind, M_bind, get_st, modify, mret, M_ret.
  destruct c; simpl; [done|]. by rewrite <-app_assoc.
Qed.

Lemma data_chunks_nonempty c : Forall (λ b, b ≠ []) (data_chunks c).
Proof. destruct c; by repeat constructor. Qed.

Lemma concat_data_chunks c : concat (data_chunks c) = c.
Proof. destruct c; simpl; by rewrite ?app_nil_r. Qed.

(** Sending never panics. *)
Lemma wp_send_packet p (ch : Channel T) : wp (send_packet p) (λ _ _, True) may_fail ch.
Proof. apply wp_bind, wp_get. by destruct (channel_open ch). Qed.

Lemma wp_send_file_content content (ch : Channel T) :
  wp (send_file_content content) (λ _ _, True) may_fail ch.
Proof.
  apply wp_bind. eapply wp_mono; [apply (wp_for_each_inv (λ _, True) _ may_fail)| |done]; [done| |].
  - intros b ch' _ _. apply wp_context, wp_send_packet.
  - intros [] ch' _. apply wp_context, wp_send_packet.
Qed.

Lemma receive_blocks bs rest :
  Forall (λ b, b ≠ []) bs →
  receive_file ((RawData <$> bs) ++ RawData [] :: rest) = (Ret bs, rest : list (Packet T)).
Proof.
  induction 1 as [|b bs Hb _ IH]; [done|]. rewrite fmap_cons. cbn [app receive_file].
  rewrite IH. by destruct b.
Qed.

(** A file sent through a channel arrives as it was: the receiver gets blocks
    whose concatenation is the content of the file, and what follows the file in
    the channel is left for the next message. *)
Theorem file_transfer_roundtrip (content : list byte) (ch : Channel T) (rest : list (Packet T)) :
  channel_open ch = true →
  ∃ packets blocks, send_file_content content ch = (Ret tt, mkChannel (sent ch ++ packets) true) ∧
    receive_file (packets ++ rest) = (Ret blocks, rest) ∧ concat blocks = content.
Proof.
  intros Ho. exists ((RawData <$> file_blocks content) ++ [RawData []]), (file_blocks content).
  split_and!.
  - rewrite send_file_content_open by done. by rewrite fmap_app.
  - rewrite <-app_assoc. simpl. apply receive_blocks, file_blocks_nonempty.
  - apply concat_file_blocks.
Qed.

(** The same for a content sent from memory, the empty one included. *)
Theorem data_transfer_roundtrip (content : list byte) (ch : Channel T) (rest : list (Packet T)) :
  channel_open ch = true →
  ∃ packets blocks, send_data content ch = (Ret tt, mkChannel (sent ch ++ packets) true) ∧
    receive_file (packets ++ rest) = (Ret blocks, rest) ∧ concat blocks = content.
Proof.
  destruct ch as [l o]. simpl. intros ->.
  unfold send_data, with_context, send_raw, send_packet, mbind, M_bind, get_st, modify, mret, M_ret.
  simpl. destruct content as [|b content].
  - exists [RawData []], []. done.
  - exists [RawData (b :: content); RawData []], [b :: content]. simpl.
    rewrite app_nil_r. split_and!; [by rewrite <-app_assoc|done|done].
Qed.
End transfer.

Lemma file_transfer_roundtrip_witness :
  ∃ packets blocks,
    send_file_content (bytes_of_string "hello") (mkChannel [Item Ws_Exit] true) =
      (Ret tt, mkChannel ([Item Ws_Exit] ++ packets) true) ∧
    receive_file (packets ++ [Item Ws_Exit]) = (Ret blocks, [Item Ws_Exit]) ∧
    concat blocks = bytes_of_string "hello".
Proof.
  apply (file_transfer_roundtrip (bytes_of_string "hello") (mkChannel [Item Ws_Exit] true)).
  reflexivity.
Defined.

Lemma data_transfer_roundtrip_witness :
  ∃ packets blocks,
    send_data [] (mkChannel [Item Ws_Exit] true) =
      (Ret tt, mkChannel ([Item Ws_Exit] ++ packets) true) ∧
    receive_file (packets ++ [Item Ws_Exit]) = (Ret blocks, [Item Ws_Exit]) ∧ concat blocks = [].
Proof. apply (data_transfer_roundtrip [] (mkChannel [Item Ws_Exit] true)). reflexivity. Defined.
