(* ===== verification/Executor.v ===== *)
(** * The executor ([task-maker-exec/src/executor.rs])

    The two loops of the executor: the binder forwards the messages of the
    scheduler to the clients, a client manager forwards the messages of a client
    to the scheduler.  The drops of file handles at the end of a loop are not
    recorded. *)
From S2P Require Import Prelude Disk Paths StoreKey Store Dag Cache CheckDag Scheduler Proto.

Section executor.
Context `{IterOrder} `{Blake3} `{World} `{BuildProfile} `{UuidDisplay}
  `{!Bincode FileStoreIndex}.

(** [ChannelFileSender::send]: the file is read, then sent; [file] is the disk of
    the state and [chan] the channel. *)
Definition send_path {S T} (get_disk : S → Disk) (set_disk : Disk → S → S)
    (chan : M (Channel T) unit → M S unit) (path : PathBuf) : M S unit :=
  content ← zoom get_disk set_disk
              (with_context "Failed to read file to send" (read_file path));
  chan (send_file_content content).

(** ** The binder: from the scheduler to the clients *)
Record Binder : Type := mkBinder {
  ready_files : gmap ClientUuid (list (FileUuid * FileStoreHandle * bool));
  binder_clients : gmap ClientUuid (Channel ExecutorServerMessage);
  binder_disk : Disk
}.

Definition with_ready_files x (b : Binder) : Binder :=
  mkBinder x (binder_clients b) (binder_disk b).
Definition with_binder_disk x (b : Binder) : Binder :=
  mkBinder (ready_files b) (binder_clients b) x.

(** A method of the channel of a client the binder looked up. *)
Definition on_client (client : ClientUuid) (m : M (Channel ExecutorServerMessage) unit) :
    M Binder unit := λ b,
  match binder_clients b !! client with
  | None => (Ret tt, b)
  | Some ch =>
      let '(r, ch) := m ch in
      (r, mkBinder (ready_files b) (<[client := ch]> (binder_clients b)) (binder_disk b))
  end.

Definition deliver (client : ClientUuid) (m : ExecutorServerMessage) : M Binder unit :=
  or_warn (on_client client (send m)).

Definition handle_scheduler_message (message : SchedulerExecutorMessage) : M Binder unit :=
  let '(client_uuid, message) := message in
  client ← gets (λ b, binder_clients b !! client_uuid);
  match client with
  | None => mret tt
  | Some _ =>
      match message with
      | Out_ExecutionStarted execution worker =>
          deliver client_uuid (Sv_NotifyStart execution worker)
      | Out_ExecutionSkipped execution => deliver client_uuid (Sv_NotifySkip execution)
      | Out_ExecutionDone execution result => deliver client_uuid (Sv_NotifyDone execution result)
      | Out_FileReady file handle successful urgent =>
          if urgent : bool then
            sent ← is_ok (on_client client_uuid (send (Sv_ProvideFile file successful)));
            if sent : bool then
              or_warn (send_path binder_disk with_binder_disk (on_client client_uuid)
                (handle_path handle))
            else mret tt
          else
            modify (λ b, with_ready_files (<[client_uuid :=
              default [] (ready_files b !! client_uuid) ++ [(file, handle, successful)]]>
              (ready_files b)) b)
      | Out_Status status => deliver client_uuid (Sv_Status status)
      | Out_EvaluationDone =>
          files ← gets (λ b, default [] (ready_files b !! client_uuid));
          _ ← modify (λ b, with_ready_files (delete client_uuid (ready_files b)) b);
          deliver client_uuid
            (Sv_Done ((λ p, (p.1.1, handle_key p.1.2, p.2)) <$> files))
      end
  end.

Definition handle_scheduler_messages (messages : list SchedulerExecutorMessage) : M Binder unit :=
  for_each messages handle_scheduler_message.

(** ** The client manager: from a client to the scheduler *)
Record ClientManager : Type := mkManager {
  cm_store : FileStore;
  cm_sender : Channel ExecutorServerMessage;
  cm_receiver : list (Packet ExecutorClientMessage);
  cm_scheduler : option unit;
  cm_sent : list SchedulerInMessage;
  cm_open : bool
}.

Definition with_cm_store x (s : ClientManager) : ClientManager :=
  mkManager x (cm_sender s) (cm_receiver s) (cm_scheduler s) (cm_sent s) (cm_open s).
Definition with_cm_sender x (s : ClientManager) : ClientManager :=
  mkManager (cm_store s) x (cm_receiver s) (cm_scheduler s) (cm_sent s) (cm_open s).
Definition with_cm_receiver x (s : ClientManager) : ClientManager :=
  mkManager (cm_store s) (cm_sender s) x (cm_scheduler s) (cm_sent s) (cm_open s).
Definition with_cm_scheduler x (s : ClientManager) : ClientManager :=
  mkManager (cm_store s) (cm_sender s) (cm_receiver s) x (cm_sent s) (cm_open s).
Definition with_cm_sent x (s : ClientManager) : ClientManager :=
  mkManager (cm_store s) (cm_sender s) (cm_receiver s) (cm_scheduler s) x (cm_open s).

Definition on_store {A} (m : M FileStore A) : M ClientManager A := zoom cm_store with_cm_store m.
Definition on_sender (m : M (Channel ExecutorServerMessage) unit) : M ClientManager unit :=
  zoom cm_sender with_cm_sender m.
Definition on_cm_disk (s : ClientManager) : Disk := disk (cm_store s).
Definition with_cm_disk (d : Disk) (s : ClientManager) : ClientManager :=
  with_cm_store (with_disk d (cm_store s)) s.

(** [Sender::send] to the scheduler; [scheduler.as_ref().ok_or(..)?.send(..)]. *)
Definition send_scheduler (m : SchedulerInMessage) : M ClientManager unit :=
  s ← get_st;
  if cm_open s then modify (with_cm_sent (cm_sent s ++ [m]))
  else bail "sending on a closed channel".
Definition to_scheduler (ctx : string) (m : SchedulerInMessage) : M ClientManager unit :=
  s ← get_st;
  match cm_scheduler s with
  | None => bail "Stopped execution"
  | Some _ => with_context ctx (send_scheduler m)
  end.

Definition provided_key (p : ProvidedFile) : FileStoreKey :=
  match p with Content _ key _ => key | LocalFile _ key _ => key end.

(** The loop over the provided files: the ones already in the store. *)
Fixpoint find_provided (l : list (FileUuid * ProvidedFile)) :
    M ClientManager (list (FileUuid * FileStoreHandle)) :=
  match l with
  | [] => mret []
  | (uuid, file) :: l =>
      handle ← on_store (get (provided_key file));
      match handle with
      | Some handle => rest ← find_provided l; mret ((uuid, handle) :: rest)
      | None =>
          _ ← with_context "Failed to send AskFile" (on_sender (send (Sv_AskFile uuid)));
          find_provided l
      end
  end.

(** [Display for DAGError] ([check_dag.rs]). *)
Definition DAGError_to_string (e : DAGError) : string :=
  match e with
  | MissingFile uuid description =>
      "missing file " +:+ description +:+ " (" +:+ uuid_to_string uuid +:+ ")"
  | MissingExecution uuid => "missing execution " +:+ uuid_to_string uuid
  | CycleDetected description =>
      "detected dependency cycle, '" +:+ description +:+ "' is in the cycle"
  | DuplicateFileUUID uuid => "duplicate file UUID " +:+ uuid_to_string uuid
  | DuplicateFifoUUID uuid => "duplicate FIFO UUID " +:+ uuid_to_string uuid
  | DuplicateExecutionUUID uuid => "duplicate execution UUID " +:+ uuid_to_string uuid
  | EmptyGroup uuid => "empty execution group " +:+ uuid_to_string uuid
  end.

(** One turn of the loop; the result tells whether the loop goes on. *)
Definition handle_client_message (client : ClientInfo) (message : ExecutorClientMessage) :
    M ClientManager bool :=
  match message with
  | Cl_Evaluate dag callbacks =>
      checked ← lift (check_dag dag callbacks);
      match checked with
      | inl e =>
          _ ← with_context "Failed to send Error message to client"
                (on_sender (send (Sv_Error (DAGError_to_string e))));
          mret false
      | inr _ =>
          ready_files ← find_provided (map_iter (provided_files dag));
          _ ← to_scheduler "Failed to send EvaluateDAG to the scheduler"
                (In_EvaluateDAG client dag callbacks);
          _ ← for_each ready_files (λ p,
                to_scheduler "Failed to send FileReady to the scheduler"
                  (In_FileReady (info_uuid client) p.1 p.2));
          mret true
      end
  | Cl_ProvideFile uuid key =>
      s ← get_st;
      chunks ← (let '(r, rest) := receive_file (cm_receiver s) in
                _ ← modify (with_cm_receiver rest); lift r);
      handle ← with_context "Failed to store client provided file" (on_store (store key chunks));
      _ ← to_scheduler "Failed to send FileReady to the scheduler"
            (In_FileReady (info_uuid client) uuid handle);
      mret true
  | Cl_AskFile uuid key success =>
      handle ← on_store (get key);
      _ ← match handle with
          | Some handle =>
              _ ← with_context "Failed to send ProvideFile to the client"
                    (on_sender (send (Sv_ProvideFile uuid success)));
              with_context "Failed to send file to the client"
                (send_path on_cm_disk with_cm_disk on_sender (handle_path handle))
          | None =>
              with_context "Failed to send Error to the client"
                (on_sender (send (Sv_Error "Unknown file")))
          end;
      mret true
  | Cl_Status =>
      s ← get_st;
      _ ← match cm_scheduler s with
          | Some _ => or_warn (send_scheduler (In_Status (info_uuid client)))
          | None => mret tt
          end;
      mret true
  | Cl_Stop =>
      s ← get_st;
      _ ← modify (with_cm_scheduler None);
      _ ← match cm_scheduler s with
          | Some _ => with_context "Failed to send ClientDisconnected to the scheduler"
                        (send_scheduler (In_ClientDisconnected (info_uuid client)))
          | None => mret tt
          end;
      mret true
  end.

(** The loop reads at least one packet per turn. *)
Fixpoint client_loop (fuel : nat) (client : ClientInfo) : M ClientManager unit :=
  match fuel with
  | O => out_of_fuel
  | S fuel =>
      message ← ok (zoom cm_receiver with_cm_receiver recv);
      match message with
      | None => mret tt
      | Some message =>
          continue ← handle_client_message client message;
          if continue : bool then client_loop fuel client else mret tt
      end
  end.

Definition handle_client_messages (client : ClientInfo) : M ClientManager unit :=
  s ← get_st;
  _ ← client_loop (S (length (cm_receiver s))) client;
  s ← get_st;
  _ ← modify (with_cm_scheduler None);
  match cm_scheduler s with
  | Some _ => with_context "Failed to send ClientDisconnected to the scheduler"
                (send_scheduler (In_ClientDisconnected (info_uuid client)))
  | None => mret tt
  end.
End executor.

(** ** Specification *)
Section binder_spec.
Context `{World}.

(** The files announced to the client by the packets sent to it, and the
    notifications. *)
Definition announced (ps : list (Packet ExecutorServerMessage)) :
    list (FileUuid * FileStoreKey * bool) :=
  ps ≫= λ p, match p with Item (Sv_Done files) => files | _ => [] end.
Definition notices (ps : list (Packet ExecutorServerMessage)) : list ExecutorServerMessage :=
  omap (λ p, match p with
    | Item (Sv_NotifyStart e w) => Some (Sv_NotifyStart e w)
    | Item (Sv_NotifyDone e r) => Some (Sv_NotifyDone e r)
    | Item (Sv_NotifySkip e) => Some (Sv_NotifySkip e)
    | _ => None
    end) ps.

(** What the scheduler asked for a client: the files to send at the end, the
    events to notify. *)
Definition late_files (client : ClientUuid) (ms : list SchedulerExecutorMessage) :
    list (FileUuid * FileStoreKey * bool) :=
  ms ≫= λ m, match m with
    | (c, Out_FileReady f h successful false) =>
        if bool_decide (c = client) then [(f, handle_key h, successful)] else []
    | _ => []
    end.
Definition events (client : ClientUuid) (ms : list SchedulerExecutorMessage) :
    list ExecutorServerMessage :=
  omap (λ m, if bool_decide (m.1 = client) then
      match m.2 with
      | Out_ExecutionStarted e w => Some (Sv_NotifyStart e w)
      | Out_ExecutionDone e r => Some (Sv_NotifyDone e r)
      | Out_ExecutionSkipped e => Some (Sv_NotifySkip e)
      | _ => None
      end
    else None) ms.

Definition pending_files (b : Binder) (client : ClientUuid) : list (FileUuid * FileStoreKey * bool) :=
  (λ p, (p.1.1, handle_key p.1.2, p.2)) <$> default [] (ready_files b !! client).

(** The packets of a client after some messages. *)
Record forwarded (client : ClientUuid) (b b' : Binder) (ms : list SchedulerExecutorMessage)
    (ps ps' : list (Packet ExecutorServerMessage)) : Prop := {
  fw_open : binder_clients b' !! client = Some (mkChannel ps' true);
  fw_files : announced ps' ++ pending_files b' client =
    announced ps ++ pending_files b client ++ late_files client ms;
  fw_notices : notices ps' = notices ps ++ events client ms
}.

Lemma announced_app ps qs : announced (ps ++ qs) = announced ps ++ announced qs.
Proof. apply bind_app. Qed.
Lemma notices_app ps qs : notices (ps ++ qs) = notices ps ++ notices qs.
Proof. apply omap_app. Qed.

Lemma announced_raw bs : announced (RawData <$> bs) = [].
Proof. induction bs; [done|]. by rewrite fmap_cons. Qed.
Lemma notices_raw bs : notices (RawData <$> bs) = [].
Proof. induction bs; [done|]. by rewrite fmap_cons. Qed.

(** A step that only changes the channel of a client, by [qs] if it is open. *)
Definition sends (client : ClientUuid) (P : list (Packet ExecutorServerMessage) → Prop)
    (b b' : Binder) : Prop :=
  ready_files b' = ready_files b ∧
  (∀ c, c ≠ client → binder_clients b' !! c = binder_clients b !! c) ∧
  ∀ ps, binder_clients b !! client = Some (mkChannel ps true) →
    ∃ qs, P qs ∧ binder_clients b' !! client = Some (mkChannel (ps ++ qs) true).

Lemma wp_on_client client m qs (b : Binder) (Q : unit → Binder → Prop) E :
  (∀ ch, wp m (λ _ _, True) may_fail ch) →
  (∀ l, m (mkChannel l true) = (Ret tt, mkChannel (l ++ qs) true)) →
  (∀ b', sends client (λ x, x = qs) b b' → Q tt b') →
  (∀ b', ready_files b' = ready_files b →
     (∀ c, c ≠ client → binder_clients b' !! c = binder_clients b !! c) →
     (∀ ps, binder_clients b !! client ≠ Some (mkChannel ps true)) → E b') →
  wp (on_client client m) Q E b.
Proof.
  intros Hnp Hopen HQ HE. unfold wp, on_client.
  destruct (binder_clients b !! client) as [[l [|]]|] eqn:Hc.
  - rewrite Hopen. apply HQ. split_and!; [done|intros c ?; simpl; by rewrite lookup_insert_ne|].
    rewrite Hc. intros ps [= <-]. exists qs. split; [done|]. apply lookup_insert_eq.
  - specialize (Hnp (mkChannel l false)). unfold wp in Hnp.
    destruct (m (mkChannel l false)) as [[[]|e| |] ch']; try done.
    + apply HQ. split_and!; [done|intros c ?; simpl; by rewrite lookup_insert_ne|].
      rewrite Hc. by intros ps [=].
    + apply HE; [done|intros c ?; simpl; by rewrite lookup_insert_ne|]. by intros ps [=].
  - apply HQ. split_and!; [done|done|]. rewrite Hc. by intros ps [=].
Qed.

Lemma wp_deliver client m (b : Binder) E :
  wp (deliver client m) (λ _, sends client (λ x, x = [Item m]) b) E b.
Proof.
  apply wp_or_warn, (wp_on_client client _ [Item m]); [intros; apply wp_send_packet|done|done|].
  intros b' Hr Ho Hn. split_and!; [done|done|]. intros ps Hps. by destruct (Hn ps).
Qed.

(** An urgent file: its announcement and its content. *)
Definition urgent_packets (ps : list (Packet ExecutorServerMessage)) : Prop :=
  announced ps = [] ∧ notices ps = [].

Lemma wp_urgent client m path (b : Binder) E :
  urgent_packets [Item m] →
  wp (x ← is_ok (on_client client (send m));
      if x : bool then or_warn (send_path binder_disk with_binder_disk (on_client client) path)
      else mret tt) (λ _, sends client urgent_packets b) E b.
Proof.
  intros Hm. apply wp_bind, wp_is_ok, (wp_on_client client _ [Item m]);
    [intros; apply wp_send_packet|done| |].
  - intros b1 (Hr1 & Ho1 & Hs1). apply wp_or_warn, wp_bind, wp_zoom, wp_context.
    assert (∀ d, sends client urgent_packets b (with_binder_disk d b1)) as Hkeep.
    { intros d. split_and!; [done|done|]. intros ps Hps. destruct (Hs1 ps Hps) as (? & -> & ?). eauto. }
    apply wp_io_call; [apply Hkeep|]. intros content d _. cbn beta.
    apply (wp_on_client client _ (RawData <$> (file_blocks content ++ [[]]))).
    + intros. apply wp_send_file_content.
    + intros l. by rewrite send_file_content_open.
    + intros b2 (Hr2 & Ho2 & Hs2). split_and!; [by rewrite Hr2|intros; by rewrite Ho2, <-Ho1|].
      intros ps Hps. destruct (Hs1 ps Hps) as (? & -> & Hp1). destruct (Hs2 _ Hp1) as (? & -> & Hp2).
      eexists. split; [|by rewrite <-app_assoc in Hp2]. destruct Hm as [Ha Hn]. split.
      * by rewrite announced_app, announced_raw, Ha.
      * by rewrite notices_app, notices_raw, Hn.
    + intros b2 Hr2 Ho2 Hn2. split_and!; [by rewrite Hr2|intros; by rewrite Ho2, <-Ho1|].
      intros ps Hps. destruct (Hs1 ps Hps) as (? & -> & Hp1). by destruct (Hn2 _ Hp1).
  - intros b' Hr Ho Hn. apply wp_ret. split_and!; [done|done|]. intros ps Hps. by destruct (Hn ps).
Qed.

Lemma other_client client c msg :
  c ≠ client → late_files client [(c, msg)] = [] ∧ events client [(c, msg)] = [].
Proof.
  intros Hne. unfold late_files, events. simpl. rewrite bool_decide_eq_false_2 by done.
  split; [|done]. by destruct msg as [| | |? ? ? []| |].
Qed.

(** The rule for the messages that only send packets. *)
Lemma sends_forwarded client c msg (b b' : Binder) P ps :
  binder_clients b !! client = Some (mkChannel ps true) → sends c P b b' →
  (∀ qs, P qs → c = client → announced qs = late_files client [(c, msg)] ∧
     notices qs = events client [(c, msg)]) →
  (c = client → late_files client [(c, msg)] = []) →
  ∃ ps', forwarded client b b' [(c, msg)] ps ps'.
Proof.
  intros Hps (Hr & Ho & Hs) HP Hl.
  assert (pending_files b' client = pending_files b client) as Hpend
    by (unfold pending_files; by rewrite Hr).
  destruct (decide (c = client)) as [->|Hne].
  - destruct (Hs ps Hps) as (qs & Hqs & Hch). destruct (HP qs Hqs eq_refl) as [Ha Hn].
    exists (ps ++ qs). split; [done| |].
    + specialize (Hl eq_refl). rewrite announced_app, Ha, Hpend. by rewrite Hl, !app_nil_r.
    + by rewrite notices_app, Hn.
  - destruct (other_client client c msg Hne) as [Hlf Hev]. exists ps. split.
    + by rewrite Ho.
    + by rewrite Hpend, Hlf, app_nil_r.
    + by rewrite Hev, app_nil_r.
Qed.

Lemma handle_scheduler_message_spec client m (b : Binder) ps :
  binder_clients b !! client = Some (mkChannel ps true) →
  wp (handle_scheduler_message m) (λ _ b', ∃ ps', forwarded client b b' [m] ps ps') no_error b.
Proof.
  intros Hps. destruct m as [c msg]. apply wp_bind, wp_gets.
  destruct (binder_clients b !! c) as [ch|] eqn:Hc.
  2:{ assert (c ≠ client) as Hne by congruence. apply wp_ret.
      destruct (other_client client c msg Hne) as [Hlf Hev].
      exists ps. split; [done|by rewrite Hlf, app_nil_r|by rewrite Hev, app_nil_r]. }
  assert (∀ m' (b0 : Binder), ready_files b0 = ready_files b → binder_clients b0 = binder_clients b →
    announced [Item m'] = [] → late_files client [(c, msg)] = [] →
    notices [Item m'] = (if bool_decide (c = client) then events client [(c, msg)] else notices [Item m']) →
    wp (deliver c m') (λ _ b', ∃ ps', forwarded client b b' [(c, msg)] ps ps') no_error b0) as Hdel.
  { intros m' b0 Hr0 Hc0 Ha Hl Hn. eapply wp_mono; [apply wp_deliver| |done].
    intros [] b' (Hr & Ho & Hs). rewrite Hr0 in Hr. rewrite Hc0 in Ho, Hs.
    eapply (sends_forwarded client c msg b b' (λ x, x = [Item m'])); [done|by split_and!| |done].
    intros qs -> ->. rewrite bool_decide_eq_true_2 in Hn by done. by rewrite Hl. }
  assert (c ≠ client → bool_decide (c = client) = false) as Hbd by apply bool_decide_eq_false_2.
  destruct msg as [e w|e r|e|f h succ urgent| |st].
  1-3: apply Hdel; try done; unfold events; simpl; by destruct (bool_decide _).
  - destruct urgent.
    + eapply wp_mono; [by apply (wp_urgent c (Sv_ProvideFile f succ))| |done].
      intros [] b' Hs. eapply (sends_forwarded client c _ b b'); [done|done| |done].
      intros qs [Ha Hn] ->. unfold late_files, events. simpl. by rewrite bool_decide_eq_true_2.
    + apply wp_modify. exists ps. split; [done| |].
      * unfold pending_files. simpl. unfold late_files. simpl. rewrite app_nil_r.
        destruct (bool_decide (c = client)) eqn:Hb.
        -- apply bool_decide_eq_true in Hb as ->. rewrite lookup_insert_eq. simpl.
           by rewrite fmap_app.
        -- apply bool_decide_eq_false in Hb. rewrite lookup_insert_ne by done. by rewrite app_nil_r.
      * unfold events. simpl. destruct (bool_decide _); by rewrite app_nil_r.
  - apply wp_bind, wp_gets, wp_bind, wp_modify.
    eapply wp_mono; [apply wp_deliver| |done]. intros [] b' (Hr & Ho & Hs). simpl in *.
    unfold late_files, events. destruct (decide (c = client)) as [->|Hne].
    + destruct (Hs ps Hps) as (qs & -> & Hch). eexists. split; [done| |].
      * rewrite announced_app. unfold pending_files. rewrite Hr, lookup_delete_eq. simpl.
        by rewrite !app_nil_r.
      * rewrite notices_app. simpl. by destruct (bool_decide _).
    + exists ps. split.
      * by rewrite Ho.
      * unfold pending_files. rewrite Hr, lookup_delete_ne by done. simpl. by rewrite !app_nil_r.
      * simpl. destruct (bool_decide _); by rewrite app_nil_r.
  - apply Hdel; try done. unfold events. simpl. by destruct (bool_decide _).
Qed.

Lemma forwarded_trans client b b1 b2 m ms ps ps1 ps2 :
  forwarded client b b1 [m] ps ps1 → forwarded client b1 b2 ms ps1 ps2 →
  forwarded client b b2 (m :: ms) ps ps2.
Proof.
  intros [_ Hf1 Hn1] [Ho2 Hf2 Hn2]. split; [done| |].
  - rewrite Hf2, app_assoc, Hf1. change (m :: ms) with ([m] ++ ms).
    unfold late_files. rewrite bind_app. by rewrite <-!app_assoc.
  - rewrite Hn2, Hn1. change (m :: ms) with ([m] ++ ms). unfold events. rewrite omap_app.
    by rewrite app_assoc.
Qed.
End binder_spec.

Section manager_spec.
Context `{IterOrder} `{Blake3} `{World} `{BuildProfile} `{UuidDisplay} `{!Bincode FileStoreIndex}.
Implicit Types (s : ClientManager).

(** The DAGs forwarded to the scheduler have been checked. *)
Definition checked_dags (client : ClientInfo) s : Prop :=
  ∀ c dag watch, In_EvaluateDAG c dag watch ∈ cm_sent s →
    c = client ∧ check_dag dag watch = Ret (inr tt).

Lemma checked_send client m s :
  checked_dags client s →
  (∀ c dag watch, m = In_EvaluateDAG c dag watch →
     c = client ∧ check_dag dag watch = Ret (inr tt)) →
  checked_dags client (send_scheduler m s).2.
Proof.
  intros Hs Hm. unfold send_scheduler, mbind, M_bind, get_st, modify, bail.
  destruct (cm_open s); [|done]. intros c dag watch. simpl.
  rewrite elem_of_app, list_elem_of_singleton. intros [?|<-]; auto.
Qed.

Lemma checked_to_scheduler client ctx m :
  (∀ c dag watch, m = In_EvaluateDAG c dag watch →
     c = client ∧ check_dag dag watch = Ret (inr tt)) →
  stable (checked_dags client) (to_scheduler ctx m).
Proof.
  intros Hm. apply stable_get_bind. intros s Hs. destruct (cm_scheduler s); [|done].
  apply stable_context; [|done]. intros s' Hs'. by apply checked_send.
Qed.

Lemma stable_find_provided (I : ClientManager → Prop) l :
  (∀ s x, I s → I (with_cm_store x s)) → (∀ s x, I s → I (with_cm_sender x s)) →
  stable I (find_provided l).
Proof.
  intros H1' H2'. induction l as [|[u p] l IH]; [apply stable_ret|].
  cbn [find_provided]. apply stable_bind; [by apply stable_zoom|]. intros [h|].
  - apply stable_bind; [done|]. intros. apply stable_ret.
  - apply stable_bind; [|done]. apply stable_context, stable_zoom. auto.
Qed.

Lemma stable_send_path (I : ClientManager → Prop) path :
  (∀ s x, I s → I (with_cm_store x s)) → (∀ s x, I s → I (with_cm_sender x s)) →
  stable I (send_path on_cm_disk with_cm_disk on_sender path).
Proof.
  intros H1' H2'. apply stable_bind; [apply stable_zoom; intros; by apply H1'|].
  intros c. apply stable_zoom. auto.
Qed.

Lemma stable_send_sender (I : ClientManager → Prop) ctx m :
  (∀ s x, I s → I (with_cm_sender x s)) → stable I (with_context ctx (on_sender m)).
Proof. intros HI. apply stable_context, stable_zoom. auto. Qed.

Lemma checked_message client m : stable (checked_dags client) (handle_client_message client m).
Proof.
  destruct m as [dag watch|uuid key|uuid key succ| |]; unfold handle_client_message.
  - apply stable_lift_bind. intros [e|[]] Hc.
    + apply stable_bind; [|intros; apply stable_ret]. by apply stable_send_sender.
    + apply stable_bind; [by apply stable_find_provided|]. intros ready.
      apply stable_bind; [apply checked_to_scheduler; naive_solver|]. intros _.
      apply stable_bind; [|intros; apply stable_ret]. apply stable_for_each.
      intros x. by apply checked_to_scheduler.
  - apply stable_get_bind. intros s Hs. revert s Hs.
    enough (∀ s0, stable (checked_dags client) (λ s, (chunks ← (let '(r, rest) :=
      receive_file (cm_receiver s0) in _ ← modify (with_cm_receiver rest); lift r);
      handle ← with_context "Failed to store client provided file" (on_store (store key chunks));
      _ ← to_scheduler "Failed to send FileReady to the scheduler"
            (In_FileReady (info_uuid client) uuid handle);
      mret true) s)) as Hst by (intros s Hs; by apply (Hst s)).
    intros s0. destruct (receive_file (cm_receiver s0)) as [r rest].
    apply stable_bind; [apply stable_bind; [by apply stable_modify|intros; apply stable_lift]|].
    intros chunks. apply stable_bind; [by apply stable_context, stable_zoom|]. intros h.
    apply stable_bind; [by apply checked_to_scheduler|]. intros; apply stable_ret.
  - apply stable_bind; [by apply stable_zoom|]. intros [h|]; (apply stable_bind; [|intros; apply stable_ret]).
    + apply stable_bind; [by apply stable_send_sender|]. intros _.
      by apply stable_context, stable_send_path.
    + by apply stable_send_sender.
  - apply stable_get_bind. intros s Hs.
    refine (stable_bind (checked_dags client) (modify (with_cm_scheduler None)) _ _ _ s Hs); [by apply stable_modify|]. intros _.
    apply stable_bind; [|intros; apply stable_ret]. destruct (cm_scheduler s); [|apply stable_ret].
    apply stable_context. intros s' Hs'. by apply checked_send.
  - apply stable_get_bind. intros s Hs.
    assert (stable (checked_dags client) (match cm_scheduler s with
      | Some _ => or_warn (send_scheduler (In_Status (info_uuid client)))
      | None => mret tt end)) as Hst.
    { destruct (cm_scheduler s); [|apply stable_ret]. apply stable_or_warn.
      intros s' Hs'. by apply checked_send. }
    refine (stable_bind (checked_dags client) _ _ Hst _ s Hs). intros; apply stable_ret.
Qed.

Lemma checked_loop client fuel : stable (checked_dags client) (client_loop fuel client).
Proof.
  induction fuel as [|fuel IH]; [by intros s|]. cbn [client_loop].
  apply stable_bind; [apply stable_ok; by apply stable_zoom|]. intros [m|]; [|apply stable_ret].
  apply stable_bind; [apply checked_message|]. intros [|]; [done|apply stable_ret].
Qed.

(** The scheduler hears of the end of the client at most once, as the last
    message. *)
Definition farewell (client : ClientInfo) s : list SchedulerInMessage :=
  match cm_scheduler s with
  | Some _ => []
  | None => [In_ClientDisconnected (info_uuid client)]
  end.
Definition goodbye (client : ClientInfo) (base : list SchedulerInMessage) s : Prop :=
  ∃ l, cm_sent s = base ++ l ++ farewell client s ∧
    In_ClientDisconnected (info_uuid client) ∉ l.

Lemma wlp_to_scheduler client base ctx m s (E : ClientManager → Prop) :
  goodbye client base s → m ≠ In_ClientDisconnected (info_uuid client) → (∀ s', E s') →
  wlp (to_scheduler ctx m) (λ _ s', goodbye client base s' ∧ cm_scheduler s' = cm_scheduler s) E s.
Proof.
  intros (l & Hl & Hn) Hm HE. apply wlp_bind, wlp_get. unfold farewell in Hl.
  destruct (cm_scheduler s) as [[]|] eqn:Hsch; [|apply HE]. apply wlp_context, wlp_bind, wlp_get.
  destruct (cm_open s); [|apply HE].
  unfold wlp. simpl. split; [|done]. exists (l ++ [m]). unfold farewell. simpl. rewrite Hsch, Hl.
  split; [by rewrite !app_nil_r, app_assoc|]. rewrite elem_of_app, list_elem_of_singleton. naive_solver.
Qed.

Lemma goodbye_message client base m s :
  goodbye client base s →
  wlp (handle_client_message client m) (λ _, goodbye client base) may_fail s.
Proof.
  assert (∀ s, may_fail s) as HE by done.
  intros Hs. destruct m as [dag watch|uuid key|uuid key succ| |]; unfold handle_client_message.
  - apply wlp_bind, wlp_lift; [|done]. intros [e|[]] _; apply wlp_bind.
    + eapply wlp_mono; [apply (wlp_stable (goodbye client base)); [by apply stable_send_sender|done]| |done].
      by intros [] s'.
    + eapply wlp_mono; [apply (wlp_stable (goodbye client base)); [by apply stable_find_provided|done]| |done].
      intros ready s1 Hs1. apply wlp_bind.
      eapply wlp_mono; [by apply (wlp_to_scheduler client base)| |done]. intros [] s2 [Hs2 _].
      apply wlp_bind. eapply wlp_mono; [apply (wlp_for_each (goodbye client base))| |done]; [done| |].
      * intros x s3 Hs3. eapply wlp_mono; [by apply (wlp_to_scheduler client base)| |done].
        by intros [] s4 [? _].
      * by intros [] s3 Hs3.
  - apply wlp_bind, wlp_get. destruct (receive_file (cm_receiver s)) as [r rest].
    apply wlp_bind, wlp_bind, wlp_modify, wlp_lift; [|done]. intros chunks _.
    apply wlp_bind, wlp_context, wlp_zoom_any; [|done]. intros h x. apply wlp_bind.
    eapply wlp_mono; [by apply (wlp_to_scheduler client base)| |done]. by intros [] s2 [? _].
  - apply wlp_bind, wlp_zoom_any; [|done]. intros [h|] x; apply wlp_bind.
    + apply wlp_bind, wlp_context, wlp_zoom_any; [|done]. intros [] ch. apply wlp_context.
      eapply wlp_mono; [apply (wlp_stable (goodbye client base)); [by apply stable_send_path|done]| |done].
      by intros [] s'.
    + apply wlp_context, wlp_zoom_any; [|done]. by intros [] ch.
  - apply wlp_bind, wlp_get. destruct Hs as (l & Hl & Hn). unfold farewell in Hl.
    apply wlp_bind, wlp_modify. destruct (cm_scheduler s) as [[]|] eqn:Hsch.
    + apply wlp_bind, wlp_context, wlp_bind, wlp_get. simpl. destruct (cm_open s); [|done].
      unfold wlp. simpl. exists l. simpl. rewrite Hl, app_nil_r, app_assoc. done.
    + unfold wlp. simpl. exists l. done.
  - apply wlp_bind, wlp_get. destruct (cm_scheduler s) as [[]|] eqn:Hsch; [|done].
    apply wlp_bind, wlp_or_warn, wlp_bind, wlp_get. destruct (cm_open s); [|done].
    unfold wlp. simpl. destruct Hs as (l & Hl & Hn). unfold farewell in Hl. rewrite Hsch in Hl.
    exists (l ++ [In_Status (info_uuid client)]). unfold farewell. simpl. rewrite Hsch, Hl.
    split; [by rewrite !app_nil_r, app_assoc|]. rewrite elem_of_app, list_elem_of_singleton. naive_solver.
Qed.

Lemma goodbye_loop client base fuel s :
  goodbye client base s → wlp (client_loop fuel client) (λ _, goodbye client base) may_fail s.
Proof.
  revert s. induction fuel as [|fuel IH]; intros s Hs; [done|]. cbn [client_loop].
  apply wlp_bind, wlp_ok, wlp_zoom_any; [|done]. intros m x. apply wlp_bind.
  eapply wlp_mono; [by apply goodbye_message| |done]. intros [|] s' Hs'; [by apply IH|done].
Qed.

(** The receiver only gets shorter. *)
Lemma receive_file_length {T} (ps : list (Packet T)) : length (receive_file ps).2 ≤ length ps.
Proof.
  induction ps as [|[m|[|b data]] ps IH]; simpl; try lia.
  destruct (receive_file ps) as [r rest]. simpl in *. lia.
Qed.

Definition receiver_below (n : nat) s : Prop := length (cm_receiver s) ≤ n.

Lemma receiver_message client n m : stable (receiver_below n) (handle_client_message client m).
Proof.
  assert (∀ ctx msg, stable (receiver_below n) (to_scheduler ctx msg)) as Hto.
  { intros ctx msg. apply stable_get_bind. intros s Hs. destruct (cm_scheduler s); [|done].
    apply stable_context; [|done]. apply stable_get_bind. intros s' Hs'. by destruct (cm_open s'). }
  destruct m as [dag watch|uuid key|uuid key succ| |]; unfold handle_client_message.
  - apply stable_lift_bind. intros [e|[]] _.
    + apply stable_bind; [by apply stable_send_sender|]. intros; apply stable_ret.
    + apply stable_bind; [by apply stable_find_provided|]. intros ready.
      apply stable_bind; [done|]. intros _. apply stable_bind; [|intros; apply stable_ret].
      by apply stable_for_each.
  - apply stable_get_bind. intros s Hs. pose proof (receive_file_length (cm_receiver s)) as Hlen.
    destruct (receive_file (cm_receiver s)) as [r rest]. simpl in Hlen.
    assert (stable (receiver_below n) (_ ← modify (with_cm_receiver rest); lift r)) as Hst.
    { apply stable_bind; [|intros; apply stable_lift]. apply stable_modify. intros s' _.
      unfold receiver_below in *. simpl. lia. }
    refine (stable_bind (receiver_below n) _ _ Hst _ s Hs).
    intros chunks. apply stable_bind; [by apply stable_context, stable_zoom|]. intros h.
    apply stable_bind; [done|]. intros; apply stable_ret.
  - apply stable_bind; [by apply stable_zoom|]. intros [h|]; (apply stable_bind; [|intros; apply stable_ret]).
    + apply stable_bind; [by apply stable_send_sender|]. intros _.
      by apply stable_context, stable_send_path.
    + by apply stable_send_sender.
  - apply stable_get_bind. intros s Hs.
    refine (stable_bind (receiver_below n) (modify (with_cm_scheduler None)) _ _ _ s Hs); [by apply stable_modify|]. intros _.
    apply stable_bind; [|intros; apply stable_ret]. destruct (cm_scheduler s); [|apply stable_ret].
    apply stable_context, stable_get_bind. intros s' Hs'. by destruct (cm_open s').
  - apply stable_get_bind. intros s Hs.
    assert (stable (receiver_below n) (match cm_scheduler s with
      | Some _ => or_warn (send_scheduler (In_Status (info_uuid client)))
      | None => mret tt end)) as Hst.
    { destruct (cm_scheduler s); [|apply stable_ret]. apply stable_or_warn, stable_get_bind.
      intros s' Hs'. by destruct (cm_open s'). }
    refine (stable_bind (receiver_below n) _ _ Hst _ s Hs). intros; apply stable_ret.
Qed.

(** The fuel of the loop never runs out: more fuel gives the same run. *)
Lemma client_loop_fuel client n k s :
  length (cm_receiver s) < n → n ≤ k → client_loop k client s = client_loop n client s.
Proof.
  revert n s. induction k as [|k IH]; intros [|n] s Hlen Hle; [lia..|].
  cbn [client_loop]. unfold mbind, M_bind, ok, zoom.
  destruct (cm_receiver s) as [|[m|d] ps] eqn:Hr; [done| |done]. simpl.
  pose proof (receiver_message client (length ps) m (with_cm_receiver ps s) (le_n _)) as Hb.
  destruct (handle_client_message client m (with_cm_receiver ps s)) as [[[|]|e|msg|] s']; try done.
  apply IH; [|lia]. unfold receiver_below in Hb. simpl in *. lia.
Qed.

Lemma wlp_get_key key (st : FileStore) :
  wlp (get key) (λ r _, ∀ h, r = Some h → handle_key h = key) may_fail st.
Proof.
  apply wlp_bind, wlp_any; [|done]. intros [|] st1; [|done].
  apply wlp_bind, wlp_any; [|done]. intros [] st2. apply wlp_bind, wlp_bind, wlp_get.
  apply wlp_bind, wlp_modify. unfold wlp. simpl. by intros h [= <-].
Qed.

Definition ask_packets (asked : list FileUuid) : list (Packet ExecutorServerMessage) :=
  (λ u, Item (Sv_AskFile u)) <$> asked.

Lemma wlp_find_provided l s :
  wlp (find_provided l) (λ ready s', ∃ asked,
    sent (cm_sender s') = sent (cm_sender s) ++ ask_packets asked ∧
    cm_sent s' = cm_sent s ∧ asked ++ ready.*1 ≡ₚ l.*1 ∧
    ∀ u h, (u, h) ∈ ready → ∃ p, (u, p) ∈ l ∧ handle_key h = provided_key p) may_fail s.
Proof.
  revert s. induction l as [|[u p] l IH]; intros s.
  { unfold wlp. simpl. exists []. rewrite app_nil_r. split_and!; [done|done|done|set_solver]. }
  cbn [find_provided]. apply wlp_bind, wlp_zoom.
  eapply wlp_mono; [apply wlp_get_key| |done]. intros [h|] st Hh.
  - apply wlp_bind. eapply wlp_mono; [apply IH| |done]. intros ready s' (asked & Hs & Hl & Hp & Hk).
    unfold wlp. simpl. exists asked. split_and!; [done|done| |].
    + rewrite <-Permutation_middle. by rewrite Hp.
    + intros u' h' [[= -> ->]|Hin]%elem_of_cons.
      * exists p. split; [set_solver|]. by apply Hh.
      * destruct (Hk u' h' Hin) as (p' & ? & ?). exists p'. split; [set_solver|done].
  - apply wlp_bind, wlp_context, wlp_zoom, wlp_bind, wlp_get. simpl.
    destruct (channel_open (cm_sender s)); [|done]. apply wlp_modify. simpl.
    eapply wlp_mono; [apply IH| |done]. intros ready s' (asked & Hs & Hl & Hp & Hk).
    exists (u :: asked). simpl in *. split_and!; [by rewrite Hs, <-app_assoc|done|by rewrite Hp|].
    intros u' h' Hin. destruct (Hk u' h' Hin) as (p' & ? & ?). exists p'. split; [set_solver|done].
Qed.

Lemma wlp_to_scheduler_sent ctx m s :
  wlp (to_scheduler ctx m) (λ _ s', cm_sent s' = cm_sent s ++ [m] ∧ cm_sender s' = cm_sender s)
    may_fail s.
Proof.
  apply wlp_bind, wlp_get. destruct (cm_scheduler s); [|done].
  apply wlp_context, wlp_bind, wlp_get. by destruct (cm_open s).
Qed.

Lemma wlp_all_to_scheduler {A} ctx (f : A → SchedulerInMessage) l s :
  wlp (for_each l (λ x, to_scheduler ctx (f x))) (λ _ s',
    cm_sent s' = cm_sent s ++ (f <$> l) ∧ cm_sender s' = cm_sender s) may_fail s.
Proof.
  revert s. induction l as [|x l IH]; intros s; [unfold wlp; simpl; by rewrite app_nil_r|].
  cbn [for_each]. apply wlp_bind. eapply wlp_mono; [apply wlp_to_scheduler_sent| |done].
  intros [] s1 [Hs1 Hc1]. eapply wlp_mono; [apply IH| |done]. intros [] s2 [Hs2 Hc2].
  rewrite Hs2, Hs1, Hc2, Hc1, fmap_cons, <-app_assoc. done.
Qed.
End manager_spec.

Section executor_properties.
Context `{IterOrder} `{Blake3} `{World} `{BuildProfile} `{UuidDisplay} `{!Bincode FileStoreIndex}.

(** The binder loses nothing and invents nothing: to a connected client it
    sends the start, the end and the skip of its executions in the order of the
    scheduler, and the files that are not urgent are announced in the [Done]
    messages, in order and once each, or still wait for the next one. *)
Theorem binder_forwards client (b : Binder) ps ms :
  binder_clients b !! client = Some (mkChannel ps true) → ready_files b !! client = None →
  ∃ b' ps', handle_scheduler_messages ms b = (Ret tt, b') ∧
    binder_clients b' !! client = Some (mkChannel ps' true) ∧
    announced ps' ++ pending_files b' client = announced ps ++ late_files client ms ∧
    notices ps' = notices ps ++ events client ms.
Proof.
  intros Hps Hr. assert (wp (handle_scheduler_messages ms) (λ _ b', ∃ ps',
    forwarded client b b' ms ps ps') no_error b) as Hw.
  { clear Hr. revert b ps Hps. induction ms as [|m ms IH]; intros b ps Hps.
    - apply wp_ret. exists ps. split; [done|..]; simpl; by rewrite app_nil_r.
    - apply wp_bind. eapply wp_mono; [by apply (handle_scheduler_message_spec client m b ps)| |done].
      intros [] b1 [ps1 Hm1]. eapply wp_mono; [apply (IH b1 ps1); apply Hm1| |done].
      intros [] b2 [ps2 Hm2]. exists ps2. by eapply forwarded_trans. }
  unfold wp in Hw. destruct (handle_scheduler_messages ms b) as [[[]|e|msg|] b']; try done.
  destruct Hw as [ps' [Ho Hf Hn]]. exists b', ps'. split_and!; try done.
  rewrite Hf. unfold pending_files. by rewrite Hr.
Qed.

(** Whatever a client sends and however its connection ends, every DAG that
    reaches the scheduler comes with the identity of that client and was accepted
    by [check_dag]. *)
Theorem client_manager_checks client (s : ClientManager) :
  cm_sent s = [] →
  ∀ c dag watch, In_EvaluateDAG c dag watch ∈ cm_sent (handle_client_messages client s).2 →
    c = client ∧ check_dag dag watch = Ret (inr tt).
Proof.
  intros Hnil. change (checked_dags client (handle_client_messages client s).2).
  assert (checked_dags client s) as Hs by (intros c dag watch; rewrite Hnil; set_solver).
  revert s Hs Hnil. intros s Hs _. revert s Hs.
  change (stable (checked_dags client) (handle_client_messages client)).
  apply stable_get_bind. intros s Hs.
  refine (stable_bind (checked_dags client) _ _ (checked_loop client _) _ s Hs). intros _.
  apply stable_get_bind. intros s1 Hs1.
  refine (stable_bind (checked_dags client) (modify (with_cm_scheduler None)) _ _ _ s1 Hs1);
    [by apply stable_modify|]. intros _.
  destruct (cm_scheduler s1); [|apply stable_ret]. apply stable_context.
  intros s' Hs'. by apply checked_send.
Qed.

(** The loop of a client manager that ends without an error has told the
    scheduler that the client left, exactly once and as its last message,
    whether the client stopped, sent an invalid DAG or hung up. *)
Theorem client_manager_disconnects client (s s' : ClientManager) :
  cm_scheduler s = Some tt → handle_client_messages client s = (Ret tt, s') →
  ∃ l, cm_sent s' = cm_sent s ++ l ++ [In_ClientDisconnected (info_uuid client)] ∧
    In_ClientDisconnected (info_uuid client) ∉ l.
Proof.
  intros Hsch Hrun. assert (wlp (handle_client_messages client) (λ _ s', ∃ l,
    cm_sent s' = cm_sent s ++ l ++ [In_ClientDisconnected (info_uuid client)] ∧
    In_ClientDisconnected (info_uuid client) ∉ l) may_fail s) as Hw.
  { apply wlp_bind, wlp_get, wlp_bind.
    eapply wlp_mono; [apply (goodbye_loop client (cm_sent s))| |done].
    { exists []. unfold farewell. rewrite Hsch. simpl. rewrite app_nil_r. split; [done|set_solver]. }
    intros [] s1 (l & Hl & Hn). unfold farewell in Hl. apply wlp_bind, wlp_get, wlp_bind, wlp_modify.
    destruct (cm_scheduler s1).
    - apply wlp_context, wlp_bind, wlp_get. simpl. destruct (cm_open s1); [|done].
      unfold wlp. simpl. exists l. rewrite Hl, app_nil_r, app_assoc. done.
    - exists l. done. }
  unfold wlp in Hw. by rewrite Hrun in Hw.
Qed.

(** The fuel of the loop of a client manager is never used up, since each
    turn receives a message: any larger amount gives the same run. *)
Theorem client_manager_fuel client (s : ClientManager) k :
  length (cm_receiver s) < k →
  client_loop k client s = client_loop (S (length (cm_receiver s))) client s.
Proof. intros Hk. apply client_loop_fuel; lia. Qed.

(** An accepted DAG reaches the scheduler before any of its files; each of
    its provided files is either announced as ready, with a handle of the key
    written in the DAG, or asked to the client, never both and never neither. *)
Theorem client_manager_provided client dag watch (s s' : ClientManager) :
  handle_client_message client (Cl_Evaluate dag watch) s = (Ret true, s') →
  ∃ asked ready,
    sent (cm_sender s') = sent (cm_sender s) ++ ask_packets asked ∧
    cm_sent s' = cm_sent s ++ In_EvaluateDAG client dag watch ::
      ((λ p, In_FileReady (info_uuid client) p.1 p.2) <$> ready) ∧
    asked ++ ready.*1 ≡ₚ keys_iter (provided_files dag) ∧
    ∀ u h, (u, h) ∈ ready → ∃ p, provided_files dag !! u = Some p ∧ handle_key h = provided_key p.
Proof.
  intros Hrun. assert (wlp (handle_client_message client (Cl_Evaluate dag watch)) (λ r s', r = true →
    ∃ asked ready,
    sent (cm_sender s') = sent (cm_sender s) ++ ask_packets asked ∧
    cm_sent s' = cm_sent s ++ In_EvaluateDAG client dag watch ::
      ((λ p, In_FileReady (info_uuid client) p.1 p.2) <$> ready) ∧
    asked ++ ready.*1 ≡ₚ keys_iter (provided_files dag) ∧
    ∀ u h, (u, h) ∈ ready → ∃ p, provided_files dag !! u = Some p ∧ handle_key h = provided_key p)
    may_fail s) as Hw; [|unfold wlp in Hw; rewrite Hrun in Hw; by apply Hw].
  unfold handle_client_message. apply wlp_bind, wlp_lift; [|done]. intros [e|[]] _; apply wlp_bind.
  { apply wlp_any; [|done]. by intros [] s1. }
  eapply wlp_mono; [apply wlp_find_provided| |done].
  intros ready s1 (asked & Hs1 & Hl1 & Hp & Hk).
  apply wlp_bind. eapply wlp_mono; [apply wlp_to_scheduler_sent| |done]. intros [] s2 [Hs2 Hc2].
  apply wlp_bind. eapply wlp_mono; [apply wlp_all_to_scheduler| |done]. intros [] s3 [Hs3 Hc3].
  intros _. exists asked, ready. rewrite Hc3, Hc2, Hs3, Hs2, Hl1, <-app_assoc.
  split_and!; [done|done|done|]. intros u h Hin. destruct (Hk u h Hin) as (p & Hup & ?).
  exists p. split; [|done]. by apply elem_of_map_iter.
Qed.
End executor_properties.

(** ** A conversation with a client *)
Import StoreExample CacheExample.

Definition ex_manager (ps : list (Packet ExecutorClientMessage)) : ClientManager :=
  mkManager ex_stored.2 (mkChannel [] true) ps (Some tt) [] true.
Definition ex_info : ClientInfo := mkClientInfo 50 "client".
Definition ex_conversation : ClientManager :=
  ex_manager [Item (Cl_Evaluate ex_good_dag ex_watch); Item Cl_Status; Item Cl_Stop; Item Cl_Status].

Example ex_conversation_sent :
  (λ m, match m with
    | In_EvaluateDAG _ _ _ => 1 | In_Status _ => 2 | In_ClientDisconnected _ => 3 | _ => 0 end) <$>
  cm_sent (handle_client_messages ex_info ex_conversation).2 = [1; 2; 3].
Proof. vm_compute. reflexivity. Qed.

Lemma client_manager_checks_witness :
  ex_info = ex_info ∧ check_dag ex_good_dag ex_watch = Ret (inr tt).
Proof.
  apply (client_manager_checks ex_info ex_conversation).
  - reflexivity.
  - assert (head (cm_sent (handle_client_messages ex_info ex_conversation).2) =
      Some (In_EvaluateDAG ex_info ex_good_dag ex_watch)) as Hh by (vm_compute; reflexivity).
    by apply head_Some_elem_of in Hh.
Defined.

Lemma client_manager_disconnects_witness :
  ∃ l, cm_sent (handle_client_messages ex_info ex_conversation).2 =
      [] ++ l ++ [In_ClientDisconnected 50] ∧ In_ClientDisconnected 50 ∉ l.
Proof.
  apply (client_manager_disconnects ex_info ex_conversation).
  - reflexivity.
  - apply run_result. vm_compute. reflexivity.
Defined.

Lemma client_manager_fuel_witness :
  client_loop 9 ex_info ex_conversation = client_loop 5 ex_info ex_conversation.
Proof. apply (client_manager_fuel ex_info ex_conversation 9). simpl. lia. Defined.

Lemma client_manager_provided_witness :
  let s' := (handle_client_message ex_info (Cl_Evaluate ex_good_dag ex_watch) (ex_manager [])).2 in
  ∃ asked ready,
    sent (cm_sender s') = [] ++ ask_packets asked ∧
    cm_sent s' = [] ++ In_EvaluateDAG ex_info ex_good_dag ex_watch ::
      ((λ p, In_FileReady 50 p.1 p.2) <$> ready) ∧
    asked ++ ready.*1 ≡ₚ keys_iter (provided_files ex_good_dag) ∧
    ∀ u h, (u, h) ∈ ready → ∃ p, provided_files ex_good_dag !! u = Some p ∧
      handle_key h = provided_key p.
Proof.
  apply (client_manager_provided ex_info ex_good_dag ex_watch (ex_manager [])).
  apply run_result. vm_compute. reflexivity.
Defined.

Lemma binder_forwards_witness :
  ∃ b' ps', handle_scheduler_messages
      [(50%N, Out_FileReady 8 ex_handle true false); (50%N, Out_EvaluationDone)]
      (mkBinder ∅ {[50%N := mkChannel [] true]} (disk ex_stored.2)) = (Ret tt, b') ∧
    binder_clients b' !! 50%N = Some (mkChannel ps' true) ∧
    announced ps' ++ pending_files b' 50 = [] ++ [(8%N, ex_key1, true)] ∧ notices ps' = [] ++ [].
Proof.
  apply (binder_forwards 50 (mkBinder ∅ {[50%N := mkChannel [] true]} (disk ex_stored.2)) []
    [(50%N, Out_FileReady 8 ex_handle true false); (50%N, Out_EvaluationDone)]).
  - vm_compute. reflexivity.
  - vm_compute. reflexivity.
Defined.
