(* ===== verification/WorkerManager.v ===== *)
(** * The worker manager ([task-maker-exec/src/worker_manager.rs])

    The loop that forwards the messages of the scheduler to the workers and the
    thread that serves a worker.  The drops of file handles when a thread fails
    are not recorded. *)
From S2P Require Import Prelude Disk Paths StoreKey Store Dag Cache CheckDag Scheduler Proto Executor.

Section manager.
Context `{IterOrder} `{Blake3} `{World} `{BuildProfile} `{!Bincode FileStoreIndex}.

(** ** The loop of the manager *)
Record WorkerManager : Type := mkWm {
  wm_workers : gmap WorkerUuid (Channel WorkerServerMessage);
  wm_spawned : list WorkerConn
}.

Definition send_to_worker (ctx : string) (worker : WorkerUuid) (m : WorkerServerMessage) :
    M WorkerManager unit := λ s,
  match wm_workers s !! worker with
  | None => (Ret tt, s)
  | Some ch =>
      let '(r, ch) := with_context ctx (send m) ch in
      (r, mkWm (<[worker := ch]> (wm_workers s)) (wm_spawned s))
  end.

(** One turn of the loop; [false] ends it. *)
Definition handle_manager_message (m : WorkerManagerInMessage) : M WorkerManager bool :=
  match m with
  | Wm_WorkerConnected worker =>
      s ← get_st;
      if bool_decide (is_Some (wm_workers s !! conn_uuid worker)) then mret true else
      _ ← modify (λ s, mkWm (<[conn_uuid worker := mkChannel [] true]> (wm_workers s))
                        (wm_spawned s ++ [worker]));
      mret true
  | Wm_WorkerDisconnected worker =>
      s ← get_st;
      match wm_workers s !! worker with
      | None => bail "Unknown worker disconnected"
      | Some _ =>
          _ ← modify (λ s, mkWm (delete worker (wm_workers s)) (wm_spawned s));
          mret true
      end
  | Wm_WorkerJob worker job =>
      _ ← send_to_worker "Failed to send Work to worker" worker (Ws_Work job);
      mret true
  | Wm_StopWorkerJob worker job =>
      _ ← send_to_worker "Failed to send KillJob to worker" worker (Ws_KillJob job);
      mret true
  | Wm_Exit => mret false
  end.

Fixpoint manager_loop (messages : list WorkerManagerInMessage) : M WorkerManager unit :=
  match messages with
  | [] => mret tt
  | m :: messages =>
      continue ← handle_manager_message m;
      if continue : bool then manager_loop messages else mret tt
  end.

Definition manager_run (messages : list WorkerManagerInMessage) : M WorkerManager unit :=
  _ ← manager_loop messages;
  s ← get_st;
  for_each (keys_iter (wm_workers s)) (λ worker,
    or_warn (send_to_worker "Cannot tell worker to exit" worker Ws_Exit)).

(** ** The thread of a worker *)
Record WorkerThread : Type := mkThread {
  wt_store : FileStore;
  wt_sender : Channel WorkerServerMessage;
  wt_receiver : list (Packet WorkerClientMessage);
  wt_scheduler : list SchedulerInMessage;
  wt_scheduler_open : bool;
  wt_manager : list WorkerManagerInMessage;
  wt_manager_open : bool
}.

Definition with_wt_store x (s : WorkerThread) : WorkerThread :=
  mkThread x (wt_sender s) (wt_receiver s) (wt_scheduler s) (wt_scheduler_open s) (wt_manager s)
    (wt_manager_open s).
Definition with_wt_sender x (s : WorkerThread) : WorkerThread :=
  mkThread (wt_store s) x (wt_receiver s) (wt_scheduler s) (wt_scheduler_open s) (wt_manager s)
    (wt_manager_open s).
Definition with_wt_receiver x (s : WorkerThread) : WorkerThread :=
  mkThread (wt_store s) (wt_sender s) x (wt_scheduler s) (wt_scheduler_open s) (wt_manager s)
    (wt_manager_open s).
Definition with_wt_scheduler x (s : WorkerThread) : WorkerThread :=
  mkThread (wt_store s) (wt_sender s) (wt_receiver s) x (wt_scheduler_open s) (wt_manager s)
    (wt_manager_open s).
Definition with_wt_manager x (s : WorkerThread) : WorkerThread :=
  mkThread (wt_store s) (wt_sender s) (wt_receiver s) (wt_scheduler s) (wt_scheduler_open s) x
    (wt_manager_open s).

Definition on_wt_store {A} (m : M FileStore A) : M WorkerThread A := zoom wt_store with_wt_store m.
Definition on_wt_sender (m : M (Channel WorkerServerMessage) unit) : M WorkerThread unit :=
  zoom wt_sender with_wt_sender m.
Definition wt_recv : M WorkerThread WorkerClientMessage := zoom wt_receiver with_wt_receiver recv.
Definition wt_disk (s : WorkerThread) : Disk := disk (wt_store s).
Definition with_wt_disk (d : Disk) (s : WorkerThread) : WorkerThread :=
  with_wt_store (with_disk d (wt_store s)) s.

Definition wt_to_scheduler (m : SchedulerInMessage) : M WorkerThread unit :=
  s ← get_st;
  if wt_scheduler_open s then modify (with_wt_scheduler (wt_scheduler s ++ [m]))
  else bail "sending on a closed channel".
Definition wt_to_manager (m : WorkerManagerInMessage) : M WorkerThread unit :=
  s ← get_st;
  if wt_manager_open s then modify (with_wt_manager (wt_manager s ++ [m]))
  else bail "sending on a closed channel".

(** The outputs already in the store and the ones to ask to the worker. *)
Fixpoint find_outputs (l : list (FileUuid * FileStoreKey)) (found : FileKeys)
    (missing : list FileUuid) : M WorkerThread (FileKeys * list FileUuid) :=
  match l with
  | [] => mret (found, missing)
  | (uuid, key) :: l =>
      handle ← on_wt_store (get key);
      match handle with
      | Some handle => find_outputs l (<[uuid := handle]> found) missing
      | None => find_outputs l found (missing ++ [uuid])
      end
  end.

(** [for _ in 0..num_missing]: the files the worker sends. *)
Fixpoint receive_outputs (n : nat) (found : FileKeys) : M WorkerThread FileKeys :=
  match n with
  | O => mret found
  | S n =>
      message ← with_context "Failed to receive file from worker" wt_recv;
      match message with
      | Wk_ProvideFile uuid key =>
          s ← get_st;
          chunks ← (let '(r, rest) := receive_file (wt_receiver s) in
                    _ ← modify (with_wt_receiver rest); lift r);
          handle ← with_context "Failed to store worker-provided file"
                     (on_wt_store (store key chunks));
          receive_outputs n (<[uuid := handle]> found)
      | _ => bail "Unexpected message from worker"
      end
  end.

Definition handle_worker_message (worker : WorkerConn) (message : WorkerClientMessage) :
    M WorkerThread bool :=
  match message with
  | Wk_GetWork =>
      is_ok (wt_to_scheduler (In_WorkerConnected (conn_uuid worker) (conn_name worker)))
  | Wk_AskFile key =>
      handle ← on_wt_store (get key);
      match handle with
      | None => bail "Worker is asking for an unknown file"
      | Some handle =>
          _ ← with_context "Failed to send ProvideFile to worker"
                (on_wt_sender (send (Ws_ProvideFile key)));
          _ ← with_context "Failed to send file to worker"
                (send_path wt_disk with_wt_disk on_wt_sender (handle_path handle));
          mret true
      end
  | Wk_ProvideFile _ _ =>
      panic "internal error: entered unreachable code: Unexpected ProvideFile from worker"
  | Wk_WorkerDone result outs =>
      found ← find_outputs (map_iter outs) ∅ [];
      let '(handlers, missing) := found in
      _ ← with_context "Failed to send AskFiles to worker"
            (on_wt_sender (send (Ws_AskFiles missing)));
      handlers ← receive_outputs (length missing) handlers;
      is_ok (wt_to_scheduler (In_WorkerResult (conn_uuid worker) result handlers))
  end.

(** The loop reads at least one packet per turn. *)
Fixpoint worker_loop (fuel : nat) (worker : WorkerConn) : M WorkerThread unit :=
  match fuel with
  | O => out_of_fuel
  | S fuel =>
      message ← ok wt_recv;
      match message with
      | None => mret tt
      | Some message =>
          continue ← handle_worker_message worker message;
          if continue : bool then worker_loop fuel worker else mret tt
      end
  end.

Definition worker_thread (worker : WorkerConn) : M WorkerThread unit :=
  s ← get_st;
  _ ← worker_loop (S (length (wt_receiver s))) worker;
  _ ← or_warn (wt_to_scheduler (In_WorkerDisconnected (conn_uuid worker)));
  or_warn (wt_to_manager (Wm_WorkerDisconnected (conn_uuid worker))).
End manager.

(** ** Specification *)

(** The packets the scheduler ordered for a worker. *)
Definition orders (worker : WorkerUuid) (ms : list WorkerManagerInMessage) :
    list (Packet WorkerServerMessage) :=
  omap (λ m, match m with
    | Wm_WorkerJob w job => if bool_decide (w = worker) then Some (Item (Ws_Work job)) else None
    | Wm_StopWorkerJob w job => if bool_decide (w = worker) then Some (Item (Ws_KillJob job)) else None
    | _ => None
    end) ms.

Definition leaves (worker : WorkerUuid) (m : WorkerManagerInMessage) : Prop :=
  m = Wm_WorkerDisconnected worker ∨ m = Wm_Exit.

Section worker_spec.
Context `{IterOrder} `{Blake3} `{World} `{BuildProfile} `{!Bincode FileStoreIndex}.

Lemma wlp_send_to_worker ctx w m worker ps (s : WorkerManager) :
  wm_workers s !! worker = Some (mkChannel ps true) →
  wlp (send_to_worker ctx w m) (λ _ s', wm_workers s' !! worker =
    Some (mkChannel (ps ++ if bool_decide (w = worker) then [Item m] else []) true)) may_fail s.
Proof.
  intros Hw. unfold wlp, send_to_worker. destruct (decide (w = worker)) as [->|Hne].
  - rewrite Hw. assert (with_context ctx (send m) (mkChannel ps true) =
      (Ret tt, mkChannel (ps ++ [Item m]) true)) as -> by done.
    rewrite bool_decide_eq_true_2 by done. apply lookup_insert_eq.
  - rewrite bool_decide_eq_false_2, app_nil_r by done.
    destruct (wm_workers s !! w) as [ch|]; [|done].
    destruct (with_context ctx (send m) ch) as [[]]; simpl; try done. by rewrite lookup_insert_ne.
Qed.

Lemma wlp_manager_message worker ps m (s : WorkerManager) :
  wm_workers s !! worker = Some (mkChannel ps true) → ¬ leaves worker m →
  wlp (handle_manager_message m) (λ r s', r = true ∧ wm_workers s' !! worker =
    Some (mkChannel (ps ++ orders worker [m]) true)) may_fail s.
Proof.
  intros Hw Hl. unfold leaves in Hl. destruct m as [c|w|w job|w job|]; simpl.
  - apply wlp_bind, wlp_get. rewrite app_nil_r. destruct (bool_decide _) eqn:Hb; [done|].
    apply bool_decide_eq_false in Hb. apply wlp_bind, wlp_modify. split; [done|]. simpl.
    rewrite lookup_insert_ne; [done|]. intros Heq. apply Hb. rewrite Heq, Hw. eauto.
  - apply wlp_bind, wlp_get. rewrite app_nil_r. destruct (wm_workers s !! w); [|done].
    apply wlp_bind, wlp_modify. split; [done|]. simpl. rewrite lookup_delete_ne; [done|]. naive_solver.
  - apply wlp_bind. eapply wlp_mono; [by apply wlp_send_to_worker| |done]. intros [] s' Hs'.
    unfold wlp. simpl. rewrite Hs'. by destruct (bool_decide _).
  - apply wlp_bind. eapply wlp_mono; [by apply wlp_send_to_worker| |done]. intros [] s' Hs'.
    unfold wlp. simpl. rewrite Hs'. by destruct (bool_decide _).
  - naive_solver.
Qed.

(** As long as a worker is connected it receives the jobs and the kills that
    the scheduler ordered for it, all of them and in order, and nothing else. *)
Theorem manager_forwards worker ps ms (s s' : WorkerManager) :
  wm_workers s !! worker = Some (mkChannel ps true) → Forall (λ m, ¬ leaves worker m) ms →
  manager_loop ms s = (Ret tt, s') →
  wm_workers s' !! worker = Some (mkChannel (ps ++ orders worker ms) true).
Proof.
  intros Hw Hms Hrun. assert (wlp (manager_loop ms) (λ _ s', wm_workers s' !! worker =
    Some (mkChannel (ps ++ orders worker ms) true)) may_fail s) as Hx;
    [|unfold wlp in Hx; by rewrite Hrun in Hx].
  clear Hrun. revert ps s Hw. induction Hms as [|m ms Hm _ IH]; intros ps s Hw.
  { unfold wlp. simpl. by rewrite app_nil_r. }
  apply wlp_bind. eapply wlp_mono; [by apply wlp_manager_message| |done]. intros r s1 [-> Hs1].
  eapply wlp_mono; [by apply IH| |done]. intros [] s2 ->. change (m :: ms) with ([m] ++ ms).
  unfold orders. by rewrite (omap_app _ [m] ms), app_assoc.
Qed.

(** ** The thread of a worker *)

(** The scheduler and the manager have not been told that the worker left. *)
Definition still_here (base : list SchedulerInMessage) (based : list WorkerManagerInMessage)
    (s : WorkerThread) : Prop :=
  wt_scheduler_open s = true ∧ wt_manager_open s = true ∧ wt_manager s = based ∧
  ∃ l, wt_scheduler s = base ++ l ∧ ∀ u, In_WorkerDisconnected u ∉ l.

Section here.
Context (base : list SchedulerInMessage) (based : list WorkerManagerInMessage).
Abbreviation here := (still_here base based).

Lemma here_store {A} (m : M FileStore A) : stable here (on_wt_store m).
Proof. by apply stable_zoom. Qed.
Lemma here_sender m : stable here (on_wt_sender m).
Proof. by apply stable_zoom. Qed.
Lemma here_recv : stable here wt_recv.
Proof. by apply stable_zoom. Qed.
Lemma here_path path : stable here (send_path wt_disk with_wt_disk on_wt_sender path).
Proof. apply stable_bind; [by apply stable_zoom|]. intros; apply here_sender. Qed.
Lemma here_is_ok {A} (m : M WorkerThread A) : stable here m → stable here (is_ok m).
Proof. intros Hm s Hs. specialize (Hm s Hs). unfold is_ok. by destruct (m s) as [[] ?]. Qed.

Lemma here_to_scheduler m : (∀ u, m ≠ In_WorkerDisconnected u) → stable here (wt_to_scheduler m).
Proof.
  intros Hm. apply stable_get_bind. intros s (Ho & Hmo & Hb & l & Hl & Hn). rewrite Ho.
  split_and!; [done|done|done|]. exists (l ++ [m]). simpl. rewrite Hl, app_assoc. split; [done|].
  intros u. rewrite elem_of_app, list_elem_of_singleton. naive_solver.
Qed.

#[local] Hint Resolve here_store here_sender here_recv here_path here_is_ok here_to_scheduler : stable.

Lemma here_find_outputs l found missing : stable here (find_outputs l found missing).
Proof.
  revert found missing. induction l as [|[u k] l IH]; intros found missing; [apply stable_ret|].
  cbn [find_outputs]. apply stable_bind; [apply here_store|]. intros [h|]; apply IH.
Qed.

Lemma here_receive_outputs n found : stable here (receive_outputs n found).
Proof.
  revert found. induction n as [|n IH]; intros found; [apply stable_ret|].
  cbn [receive_outputs]. apply stable_bind; [apply stable_context, here_recv|].
  intros [|r o|uuid key|key]; try apply stable_bail. apply stable_get_bind. intros s Hs.
  destruct (receive_file (wt_receiver s)) as [r rest].
  assert (stable here (_ ← modify (with_wt_receiver rest); lift r)) as Hst.
  { apply stable_bind; [by apply stable_modify|]. intros; apply stable_lift. }
  refine (stable_bind here _ _ Hst _ s Hs). intros chunks.
  apply stable_bind; [apply stable_context, here_store|]. intros h. apply IH.
Qed.

Lemma here_message worker m : stable here (handle_worker_message worker m).
Proof.
  destruct m as [|result outs|uuid key|key]; unfold handle_worker_message.
  - by apply here_is_ok, here_to_scheduler.
  - apply stable_bind; [apply here_find_outputs|]. intros [handlers missing].
    apply stable_bind; [apply stable_context, here_sender|]. intros _.
    apply stable_bind; [apply here_receive_outputs|]. intros hs. by apply here_is_ok, here_to_scheduler.
  - by intros s.
  - apply stable_bind; [apply here_store|]. intros [h|]; [|apply stable_bail].
    apply stable_bind; [apply stable_context, here_sender|]. intros _.
    apply stable_bind; [apply stable_context, here_path|]. intros; apply stable_ret.
Qed.

Lemma here_loop worker fuel : stable here (worker_loop fuel worker).
Proof.
  induction fuel as [|fuel IH]; [by intros s|]. cbn [worker_loop].
  apply stable_bind; [apply stable_ok, here_recv|]. intros [m|]; [|apply stable_ret].
  apply stable_bind; [apply here_message|]. intros [|]; [done|apply stable_ret].
Qed.
End here.

(** A worker thread that returns without an error has told the scheduler and
    the manager that its worker left, once each and as its last message, so that
    the job of the worker is scheduled again. *)
Theorem worker_thread_disconnects worker (s s' : WorkerThread) :
  wt_scheduler_open s = true → wt_manager_open s = true →
  worker_thread worker s = (Ret tt, s') →
  wt_manager s' = wt_manager s ++ [Wm_WorkerDisconnected (conn_uuid worker)] ∧
  ∃ l, wt_scheduler s' = wt_scheduler s ++ l ++ [In_WorkerDisconnected (conn_uuid worker)] ∧
    ∀ u, In_WorkerDisconnected u ∉ l.
Proof.
  intros Ho Hm Hrun. unfold worker_thread, mbind, M_bind, get_st in Hrun.
  pose proof (here_loop (wt_scheduler s) (wt_manager s) worker (S (length (wt_receiver s))) s) as Hh.
  destruct (worker_loop (S (length (wt_receiver s))) worker s) as [[[]|e|msg|] s1]; try done.
  simpl in Hh. destruct Hh as (Ho1 & Hm1 & Hb1 & l & Hl & Hn).
  { split_and!; [done|done|done|]. exists []. rewrite app_nil_r. split; [done|set_solver]. }
  unfold or_warn, wt_to_scheduler, wt_to_manager, mbind, M_bind, get_st, modify in Hrun.
  rewrite Ho1 in Hrun. simpl in Hrun. rewrite Hm1 in Hrun. injection Hrun as <-. simpl.
  split; [by rewrite Hb1|]. exists l. by rewrite Hl, app_assoc.
Qed.

(** ** The outputs of a job *)
Lemma wlp_find_outputs l found missing (s : WorkerThread) :
  wlp (find_outputs l found missing) (λ r s',
    wt_sender s' = wt_sender s ∧ wt_scheduler s' = wt_scheduler s ∧
    (∀ u, is_Some (found !! u) → is_Some (r.1 !! u)) ∧ (∀ u, u ∈ missing → u ∈ r.2) ∧
    ∀ u, u ∈ l.*1 → u ∈ r.2 ∨ is_Some (r.1 !! u)) may_fail s.
Proof.
  revert found missing s. induction l as [|[u k] l IH]; intros found missing s.
  { unfold wlp. simpl. split_and!; [done..|set_solver]. }
  cbn [find_outputs]. apply wlp_bind, wlp_zoom_any; [|done]. intros [h|] st.
  - eapply wlp_mono; [apply IH| |done]. intros r s' (Hs & Hl & Hf & Hm & Hall).
    assert (is_Some (r.1 !! u)) by (apply Hf; rewrite lookup_insert_eq; eauto).
    split_and!; [done|done| |done|].
    + intros u' Hu'. apply Hf. rewrite lookup_insert. destruct (decide _); eauto.
    + intros u'. rewrite fmap_cons. intros [->|Hu']%elem_of_cons; [by right|by apply Hall].
  - eapply wlp_mono; [apply IH| |done]. intros r s' (Hs & Hl & Hf & Hm & Hall).
    split_and!; [done|done|done|set_solver|].
    intros u'. rewrite fmap_cons. intros [->|Hu']%elem_of_cons; [left; apply Hm; set_solver|by apply Hall].
Qed.

Lemma wlp_receive_outputs n found (s : WorkerThread) :
  wlp (receive_outputs n found) (λ r s',
    wt_sender s' = wt_sender s ∧ wt_scheduler s' = wt_scheduler s ∧
    ∀ u, is_Some (found !! u) → is_Some (r !! u)) may_fail s.
Proof.
  revert found s. induction n as [|n IH]; intros found s; [done|].
  cbn [receive_outputs]. apply wlp_bind, wlp_context, wlp_zoom_any; [|done].
  intros [|r o|uuid key|key] ps; try done. apply wlp_bind, wlp_get.
  destruct (receive_file _) as [r rest]. apply wlp_bind, wlp_bind, wlp_modify, wlp_lift; [|done].
  intros chunks _. apply wlp_bind, wlp_context, wlp_zoom_any; [|done]. intros h st.
  eapply wlp_mono; [apply IH| |done]. intros found' s' (Hs & Hl & Hf). split_and!; [done|done|].
  intros u Hu. apply Hf. rewrite lookup_insert. destruct (decide _); eauto.
Qed.

(** When a worker reports the end of a job, the server asks for exactly one
    list of files and forwards the results to the scheduler with a handle for
    every output that was not in that list. *)
Theorem worker_done_files worker result outs (s s' : WorkerThread) :
  handle_worker_message worker (Wk_WorkerDone result outs) s = (Ret true, s') →
  ∃ asked handlers,
    sent (wt_sender s') = sent (wt_sender s) ++ [Item (Ws_AskFiles asked)] ∧
    wt_scheduler s' = wt_scheduler s ++ [In_WorkerResult (conn_uuid worker) result handlers] ∧
    ∀ u, is_Some (outs !! u) → u ∈ asked ∨ is_Some (handlers !! u).
Proof.
  intros Hrun. assert (wlp (handle_worker_message worker (Wk_WorkerDone result outs)) (λ r s',
    r = true → ∃ asked handlers,
    sent (wt_sender s') = sent (wt_sender s) ++ [Item (Ws_AskFiles asked)] ∧
    wt_scheduler s' = wt_scheduler s ++ [In_WorkerResult (conn_uuid worker) result handlers] ∧
    ∀ u, is_Some (outs !! u) → u ∈ asked ∨ is_Some (handlers !! u)) may_fail s) as Hw;
    [|unfold wlp in Hw; rewrite Hrun in Hw; by apply Hw].
  apply wlp_bind. eapply wlp_mono; [apply wlp_find_outputs| |done].
  intros [handlers missing] s1 (Hs1 & Hl1 & _ & _ & Hall). simpl in Hall. apply wlp_bind, wlp_context, wlp_zoom.
  apply wlp_bind, wlp_get. destruct (channel_open (wt_sender s1)); [|done]. apply wlp_modify.
  apply wlp_bind. eapply wlp_mono; [apply wlp_receive_outputs| |done].
  intros handlers' s2 (Hs2 & Hl2 & Hf2). unfold wlp, is_ok, wt_to_scheduler, mbind, M_bind, get_st.
  destruct (wt_scheduler_open s2); [|done]. simpl. intros _. exists missing, handlers'. simpl.
  rewrite Hs2, Hl2. simpl. rewrite Hs1, Hl1. split_and!; [done|done|]. intros u Hu.
  destruct (Hall u) as [?|?]; [by apply elem_of_keys_iter|by left|right; auto].
Qed.
End worker_spec.

(** ** A worker *)
Import StoreExample CacheExample.

Definition ex_conn : WorkerConn := mkWorkerConn 100 "worker".
Definition ex_thread (ps : list (Packet WorkerClientMessage)) : WorkerThread :=
  mkThread ex_stored.2 (mkChannel [] true) ps [] true [] true.
(** A job whose first output is in the store and whose second one is sent. *)
Definition ex_done : WorkerClientMessage :=
  Wk_WorkerDone [ex_result] {[8%N := ex_key1; 9%N := ex_key2]}.
Definition ex_work : WorkerThread :=
  ex_thread [Item Wk_GetWork; Item ex_done; Item (Wk_ProvideFile 9 ex_key2);
             RawData ex_content2; RawData []].

Lemma manager_forwards_witness :
  wm_workers (manager_loop [Wm_StopWorkerJob 101 4; Wm_StopWorkerJob 100 3]
    (mkWm {[100%N := mkChannel [] true]} [])).2 !! 100%N =
    Some (mkChannel ([] ++ [Item (Ws_KillJob 3)]) true).
Proof.
  apply (manager_forwards 100 [] [Wm_StopWorkerJob 101 4; Wm_StopWorkerJob 100 3]
    (mkWm {[100%N := mkChannel [] true]} [])).
  - vm_compute. reflexivity.
  - repeat constructor; intros [?|?]; discriminate.
  - apply run_result. vm_compute. reflexivity.
Defined.

Lemma worker_thread_disconnects_witness :
  wt_manager (worker_thread ex_conn ex_work).2 = [] ++ [Wm_WorkerDisconnected 100].
Proof.
  apply (worker_thread_disconnects ex_conn ex_work).
  - reflexivity.
  - reflexivity.
  - apply run_result. vm_compute. reflexivity.
Defined.

Lemma worker_done_files_witness :
  let s := ex_thread [Item (Wk_ProvideFile 9 ex_key2); RawData ex_content2; RawData []] in
  let s' := (handle_worker_message ex_conn ex_done s).2 in
  ∃ asked handlers,
    sent (wt_sender s') = sent (wt_sender s) ++ [Item (Ws_AskFiles asked)] ∧
    wt_scheduler s' = wt_scheduler s ++ [In_WorkerResult 100 [ex_result] handlers] ∧
    ∀ u, is_Some (({[8%N := ex_key1; 9%N := ex_key2]} : gmap N FileStoreKey) !! u) →
      u ∈ asked ∨ is_Some (handlers !! u).
Proof.
  apply (worker_done_files ex_conn [ex_result]).
  apply run_result. vm_compute. reflexivity.
Defined.

(** ** A lost worker

    A worker that hangs up while it sends the outputs of its job: the thread
    fails before it tells anyone that the worker left, the scheduler keeps the
    group as running and waits for ever. *)
Lemma worker_thread_error_silent :
  let s' := worker_thread ex_conn (ex_thread [Item Wk_GetWork; Item ex_done]) in
  s'.1 = Fail ["Failed to receive file from worker"; "receiving on a closed channel"] ∧
  wt_scheduler s'.2 = [In_WorkerConnected 100 "worker"] ∧ wt_manager s'.2 = [].
Proof. split_and!; vm_compute; reflexivity. Qed.

(** A worker whose connection is closed but not yet removed: the next job for it
    stops the whole manager. *)
Lemma manager_stops_on_closed_worker job :
  (manager_run [Wm_WorkerJob 100 job] (mkWm {[100%N := mkChannel [] false]} [])).1 =
    Fail ["Failed to send Work to worker"; "Cannot send message"].
Proof. vm_compute. reflexivity. Qed.
