(* ===== verification/Text.v ===== *)
(** * Texts

    A [str] that the source searches or cuts is the list of its characters
    (Unicode scalar values); offsets and lengths count the bytes of its UTF-8
    encoding, as in Rust.  Strings that are only carried around stay [string]. *)
From S2P Require Import Prelude.

Abbreviation char := N (only parsing).
Abbreviation text := (list N) (only parsing).

(** [char::len_utf8], [str::len]. *)
Definition char_len (c : char) : N :=
  (if c <? 128 then 1 else if c <? 2048 then 2 else if c <? 65536 then 3 else 4)%N.
Fixpoint text_len (s : text) : N :=
  match s with [] => 0 | c :: s => char_len c + text_len s end%N.

(** The text of an ASCII literal. *)
Fixpoint text_of (s : string) : text :=
  match s with
  | EmptyString => []
  | String.String a s => Ascii.N_of_ascii a :: text_of s
  end.

Definition newline : char := 10%N.

(** [str::split] on a character: at least one piece. *)
Fixpoint split_text (sep : char) (s : text) : list text :=
  match s with
  | [] => [[]]
  | c :: s =>
      if decide (c = sep) then [] :: split_text sep s
      else match split_text sep s with
           | [] => [[c]]
           | piece :: pieces => (c :: piece) :: pieces
           end
  end.

(** The parts of a text around a byte offset; there is none inside a character or
    after the end. *)
Fixpoint split_at (n : N) (s : text) : option (text * text) :=
  if (n =? 0)%N then Some ([], s)
  else match s with
       | [] => None
       | c :: s =>
           if (char_len c <=? n)%N
           then p ← split_at (n - char_len c) s; Some (c :: p.1, p.2)
           else None
       end.

(** [&s[start..end]]. *)
Definition slice (s : text) (start end_ : N) : Outcome text :=
  if (end_ <? start)%N then Panicked "begin is greater than end"
  else unwrap "byte index is out of bounds or not a char boundary"
         (p ← split_at start s; q ← split_at (end_ - start) p.2; Some q.1).

(** [char::is_whitespace], and [\s] in a regular expression: the property
    [White_Space] of Unicode. *)
Definition is_whitespace (c : char) : bool :=
  ((9 <=? c) && (c <=? 13) || (c =? 32) || (c =? 133) || (c =? 160) || (c =? 5760)
   || (8192 <=? c) && (c <=? 8202) || (c =? 8232) || (c =? 8233) || (c =? 8239)
   || (c =? 8287) || (c =? 12288))%N.

(** [str::split_whitespace]. *)
Fixpoint split_whitespace_go (word : text) (s : text) : list text :=
  match s with
  | [] => match word with [] => [] | _ => [word] end
  | c :: s =>
      if is_whitespace c
      then match word with [] => [] | _ => [word] end ++ split_whitespace_go [] s
      else split_whitespace_go (word ++ [c]) s
  end.
Definition split_whitespace (s : text) : list text := split_whitespace_go [] s.

(** [str::strip_prefix]. *)
Fixpoint strip_prefix (p s : text) : option text :=
  match p, s with
  | [], _ => Some s
  | a :: p, b :: s => if decide (a = b) then strip_prefix p s else None
  | _, [] => None
  end.

(** ** Lengths and offsets *)
Lemma char_len_pos c : (1 ≤ char_len c)%N.
Proof. unfold char_len. repeat case_match; lia. Qed.

Lemma text_len_app s t : text_len (s ++ t) = (text_len s + text_len t)%N.
Proof. induction s; simpl; lia. Qed.

Lemma text_len_zero s : text_len s = 0%N → s = [].
Proof. destruct s as [|c s]; [done|]. simpl. pose proof (char_len_pos c). lia. Qed.

Lemma split_at_Some n s p q : split_at n s = Some (p, q) ↔ s = p ++ q ∧ text_len p = n.
Proof.
  revert n p q. induction s as [|c s IH]; intros n p q; simpl.
  - destruct (N.eqb_spec n 0) as [->|Hn].
    + split; [by intros [= <- <-]|]. intros [Hs Hp]. symmetry in Hs.
      by apply app_nil in Hs as [-> ->].
    + split; [done|]. intros [Hs <-]. symmetry in Hs. apply app_nil in Hs as [-> ->]. done.
  - pose proof (char_len_pos c). destruct (N.eqb_spec n 0) as [->|Hn].
    + split; [by intros [= <- <-]|]. intros [Hs Hp]. apply text_len_zero in Hp as ->. by rewrite Hs.
    + destruct (N.leb_spec (char_len c) n) as [Hle|Hlt].
      * split.
        -- intros ([p1 q1] & Hp & [= <- <-])%bind_Some. apply IH in Hp as [-> Hlen]. simpl.
           split; [done|lia].
        -- intros [Hs <-]. destruct p as [|c' p]; [done|]. simplify_eq/=.
           apply bind_Some. exists (p, q). split; [|done]. apply IH. split; [done|lia].
      * split; [done|]. intros [Hs <-]. destruct p as [|c' p]; simplify_eq/=; lia.
Qed.

Lemma split_at_app p q : split_at (text_len p) (p ++ q) = Some (p, q).
Proof. by apply split_at_Some. Qed.

(** Cutting after a prefix is cutting the rest. *)
Lemma split_at_skip p s n :
  split_at (text_len p + n) (p ++ s) = prod_map (app p) id <$> split_at n s.
Proof.
  destruct (split_at n s) as [[a b]|] eqn:Hn; simpl.
  - apply split_at_Some in Hn as [-> <-]. apply split_at_Some.
    by rewrite app_assoc, text_len_app.
  - destruct (split_at _ (p ++ s)) as [[a b]|] eqn:Ha; [|done].
    apply split_at_Some in Ha as [Hs Hlen].
    apply app_eq_inv in Hs as [(k & -> & ->)|(k & -> & ->)].
    + rewrite text_len_app in Hlen. assert (k = []) as -> by (apply text_len_zero; lia).
      assert (n = 0%N) as -> by (simpl in Hlen; lia). by destruct s.
    + rewrite text_len_app in Hlen. assert (split_at n (k ++ b) = Some (k, b)); [|congruence].
      apply split_at_Some. split; [done|lia].
Qed.

(** Cutting within a prefix does not look at the rest. *)
Lemma split_at_within p s n :
  (n ≤ text_len p)%N → split_at n (p ++ s) = prod_map id (λ q, q ++ s) <$> split_at n p.
Proof.
  intros Hle. destruct (split_at n p) as [[a b]|] eqn:Hn; simpl.
  - apply split_at_Some in Hn as [-> <-]. apply split_at_Some. by rewrite <-app_assoc.
  - destruct (split_at n (p ++ s)) as [[a b]|] eqn:Ha; [|done].
    apply split_at_Some in Ha as [Hs Hlen]. apply app_eq_inv in Hs as [(k & -> & ->)|(k & -> & ->)].
    + assert (split_at n (a ++ k) = Some (a, k)); [by apply split_at_Some|congruence].
    + rewrite text_len_app in Hlen. assert (k = []) as -> by (apply text_len_zero; lia).
      assert (split_at n p = Some (p, [])); [|congruence].
      apply split_at_Some. split; [by rewrite app_nil_r|]. simpl in *. lia.
Qed.

(** A slice of a piece in the middle of a text. *)
Lemma slice_middle p l s a b :
  (b ≤ text_len l)%N →
  slice (p ++ l ++ s) (text_len p + a) (text_len p + b) = slice l a b.
Proof.
  intros Hb. unfold slice.
  replace (text_len p + b <? text_len p + a)%N with (b <? a)%N
    by (apply eq_true_iff_eq; rewrite !N.ltb_lt; lia).
  destruct (N.ltb_spec b a) as [|Hab]; [done|].
  replace (text_len p + b - (text_len p + a))%N with (b - a)%N by lia.
  rewrite split_at_skip, split_at_within by lia.
  destruct (split_at a l) as [[x y]|] eqn:Ha; [|done]. simpl.
  apply split_at_Some in Ha as [-> Ha]. rewrite text_len_app in Hb.
  rewrite split_at_within by lia. by destruct (split_at (b - a) y) as [[]|].
Qed.

Lemma slice_full s : slice s 0 (text_len s) = Ret s.
Proof.
  unfold slice. replace (text_len s <? 0)%N with false by (symmetry; apply N.ltb_ge; lia).
  assert (split_at 0 s = Some ([], s)) as -> by (by apply split_at_Some).
  assert (split_at (text_len s) s = Some (s, [])) as Hs.
  { apply split_at_Some. by rewrite app_nil_r. }
  rewrite N.sub_0_r. cbn. by rewrite Hs.
Qed.

(** ** Splitting in lines *)
Definition join_text (sep : char) (l : list text) : text :=
  match l with [] => [] | x :: l => x ++ concat ((λ y, sep :: y) <$> l) end.

Lemma split_text_nonempty sep s : split_text sep s ≠ [].
Proof. destruct s as [|c s]; simpl; [done|]. by repeat case_match. Qed.

Lemma join_split sep s : join_text sep (split_text sep s) = s.
Proof.
  induction s as [|c s IH]; simpl; [done|].
  destruct (split_text sep s) as [|x l] eqn:Hs; [by apply split_text_nonempty in Hs|].
  destruct (decide (c = sep)) as [->|]; cbn in *; by rewrite IH.
Qed.

Lemma split_text_no_sep sep s : Forall (λ l, sep ∉ l) (split_text sep s).
Proof.
  induction s as [|c s IH]; simpl; [repeat constructor; set_solver|].
  destruct (decide (c = sep)); [constructor; [set_solver|done]|].
  destruct (split_text sep s) as [|x l]; [repeat constructor; set_solver|].
  apply Forall_cons in IH as [? ?]. constructor; set_solver.
Qed.

Lemma split_text_cons_inv sep s x l :
  split_text sep s = x :: l →
  (sep ∉ x) ∧ (l = [] ∧ s = x ∨ (∃ t, s = x ++ sep :: t ∧ l = split_text sep t)).
Proof.
  revert x l. induction s as [|c s IH]; intros x l; simpl.
  { intros [= <- <-]. split; [set_solver|by left]. }
  destruct (decide (c = sep)) as [->|Hc].
  { intros [= <- <-]. split; [set_solver|right; eauto]. }
  destruct (split_text sep s) as [|y l'] eqn:Hs; [by apply split_text_nonempty in Hs|].
  intros [= <- <-]. destruct (IH y l' eq_refl) as [Hy [[-> ->]|(t & -> & ->)]].
  - split; [set_solver|by left].
  - split; [set_solver|]. right. by exists t.
Qed.
