(* ===== verification/Diagnostics.v ===== *)
(** * Diagnostics and code spans ([task-maker-diagnostics/src])

    The messages about a task, and the spans of source code they point to.  What
    prints them on a terminal is not modelled. *)
From S2P Require Import Prelude Paths StoreKey Text.

Inductive DiagnosticLevel : Type := Warning | Error.
#[export] Instance DiagnosticLevel_eq_dec : EqDecision DiagnosticLevel.
Proof. solve_decision. Defined.

Definition DiagnosticLevel_as_str (l : DiagnosticLevel) : string :=
  match l with Error => "Error" | Warning => "Warning" end.

(** ** [CodeSpan] *)
Record CodeSpan : Type := mkSpan {
  file_name : PathBuf;
  line_number : N;
  file_offset : N;
  line_offset : N;
  span_len : N;
  line : text
}.

Section span.
Context `{BuildProfile}.

(** The loop over the lines.  The sum of [previous_lines_len] and of the length
    of a line is at most the length of the content plus one; the sum with
    [len], which comes from the caller, can leave the range of [usize].  The
    [assert!] of the source repeats the comparison before it and is left out. *)
Fixpoint from_str_loop (lines : list text) (name : PathBuf) (offset len : N)
    (previous_lines_len skipped_lines : N) : Outcome CodeSpan :=
  match lines with
  | [] => Fail ["The offset exceeds the length of the file"]
  | l :: lines =>
      if (previous_lines_len + text_len l =? offset)%N
      then Fail ["Offset cannot be on the newline character"]
      else if (previous_lines_len + text_len l <? offset)%N
      then from_str_loop lines name offset len (previous_lines_len + (text_len l + 1))
             (skipped_lines + 1)
      else
        let line_offset := (offset - previous_lines_len)%N in
        end_ ← u64_add line_offset len;
        if (text_len l <? end_)%N then Fail ["Multiline spans are not supported"]
        else Ret (mkSpan name (skipped_lines + 1) offset line_offset len l)
  end.

Definition from_str (name : PathBuf) (content : text) (offset len : N) : Outcome CodeSpan :=
  from_str_loop (split_text newline content) name offset len 0 0.

Definition as_str (s : CodeSpan) : Outcome text :=
  end_ ← u64_add (line_offset s) (span_len s);
  slice (line s) (line_offset s) end_.
End span.

(** ** [Diagnostic] *)
Record Diagnostic : Type := mkDiagnostic {
  level : DiagnosticLevel;
  message : string;
  note : option string;
  help : option string;
  help_attachment : option (list byte);
  code_spans : list CodeSpan
}.

Definition Diagnostic_error (m : string) : Diagnostic := mkDiagnostic Error m None None None [].
Definition Diagnostic_warning (m : string) : Diagnostic := mkDiagnostic Warning m None None None [].
Definition with_note (n : string) (d : Diagnostic) : Diagnostic :=
  mkDiagnostic (level d) (message d) (Some n) (help d) (help_attachment d) (code_spans d).
Definition with_help (h : string) (d : Diagnostic) : Diagnostic :=
  mkDiagnostic (level d) (message d) (note d) (Some h) (help_attachment d) (code_spans d).
Definition with_help_attachment (a : list byte) (d : Diagnostic) : Diagnostic :=
  mkDiagnostic (level d) (message d) (note d) (help d) (Some a) (code_spans d).
Definition with_code_span (c : CodeSpan) (d : Diagnostic) : Diagnostic :=
  mkDiagnostic (level d) (message d) (note d) (help d) (help_attachment d) (code_spans d ++ [c]).

Record DiagnosticContext : Type := mkDiagnosticContext { diagnostics : list Diagnostic }.
Definition DiagnosticContext_new : DiagnosticContext := mkDiagnosticContext [].
Definition add_diagnostic (d : Diagnostic) (c : DiagnosticContext) : DiagnosticContext :=
  mkDiagnosticContext (diagnostics c ++ [d]).

(** ** What a span is *)

(** A newline at a byte offset of a text. *)
Definition newline_at (s : text) (k : N) : Prop :=
  ∃ p q, s = p ++ newline :: q ∧ text_len p = k.

(** The bytes of the span are in the text, the first one exists, and none of
    them, the first included, is a newline. *)
Definition on_one_line (content : text) (offset len : N) : Prop :=
  (offset < text_len content)%N ∧ (offset + len ≤ text_len content)%N ∧
  ∀ k, newline_at content k → ¬ (offset ≤ k < offset + N.max len 1)%N.

Section span_facts.
Context `{BuildProfile}.
Implicit Types (content t : text).

Lemma u64_add_small a b : (a + b < u64_modulus)%N → u64_add a b = Ret (a + b)%N.
Proof. intros Hlt. unfold u64_add. by apply N.ltb_lt in Hlt as ->. Qed.

Lemma newline_at_skip l t k :
  newline ∉ l → newline_at (l ++ newline :: t) k ↔
  k = text_len l ∨ ∃ k', newline_at t k' ∧ k = (text_len l + 1 + k')%N.
Proof.
  intros Hl. split.
  - intros (p & q & Heq & <-). apply app_eq_inv in Heq as [(m & -> & Hm)|(m & -> & Hm)].
    + destruct m as [|c m]; simplify_eq/=; [left; by rewrite app_nil_r|]. set_solver.
    + destruct m as [|c m]; simplify_eq/=; [left; by rewrite app_nil_r|].
      right. exists (text_len m). split; [by exists m, q|]. rewrite text_len_app. simpl.
      change (char_len newline) with 1%N. lia.
  - intros [->|(k' & (p & q & -> & <-) & ->)]; [by exists l, t|].
    exists (l ++ newline :: p), q. split; [by rewrite <-app_assoc|].
    rewrite text_len_app. simpl. change (char_len newline) with 1%N. lia.
Qed.

Lemma newline_at_bound t k : newline_at t k → (k < text_len t)%N.
Proof.
  intros (p & q & -> & <-). rewrite text_len_app. simpl. change (char_len newline) with 1%N. lia.
Qed.

Lemma no_newline_at l k : newline ∉ l → ¬ newline_at l k.
Proof. intros Hl (p & q & -> & _). set_solver. Qed.

(** Going past a line moves the span and the newlines by the length of it. *)
Lemma on_one_line_skip l t offset len :
  newline ∉ l → (text_len l < offset)%N →
  on_one_line (l ++ newline :: t) offset len ↔ on_one_line t (offset - (text_len l + 1)) len.
Proof.
  intros Hl Hlt. unfold on_one_line. rewrite text_len_app. simpl.
  change (char_len newline) with 1%N. split.
  - intros (H1 & H2 & H3). split_and!; [lia..|]. intros k Hk ?.
    apply (H3 (text_len l + 1 + k)%N); [|lia]. apply newline_at_skip; eauto.
  - intros (H1 & H2 & H3). split_and!; [lia..|]. intros k.
    rewrite newline_at_skip by done. intros [->|(k' & Hk' & ->)] ?; [lia|]. by apply (H3 k'); [|lia].
Qed.

(** The line that holds the span is the first one of the rest. *)
Lemma on_one_line_here l t offset len :
  newline ∉ l → (offset < text_len l)%N →
  on_one_line (l ++ newline :: t) offset len ↔ (offset + len ≤ text_len l)%N.
Proof.
  intros Hl Hlt. unfold on_one_line. rewrite text_len_app. simpl.
  change (char_len newline) with 1%N. split.
  - intros (H1 & H2 & H3). destruct (N.le_gt_cases (offset + len) (text_len l)) as [|Hgt]; [done|].
    exfalso. apply (H3 (text_len l)); [|lia]. apply newline_at_skip; [done|by left].
  - intros Hle. split_and!; [lia..|]. intros k.
    rewrite newline_at_skip by done. intros [->|(k' & _ & ->)]; lia.
Qed.

Lemma on_one_line_last l offset len :
  newline ∉ l → (offset < text_len l)%N →
  on_one_line l offset len ↔ (offset + len ≤ text_len l)%N.
Proof.
  intros Hl Hlt. split; [by intros (? & ? & ?)|]. intros. split_and!; [lia..|].
  intros k Hk. by apply no_newline_at in Hk.
Qed.

(** The result of the loop on the lines of a text that follows [before]. *)
Definition loop_result (before content : text) (offset len : N) (r : Outcome CodeSpan) : Prop :=
  (is_ret r = true ↔ on_one_line content (offset - text_len before) len) ∧
  (is_ret r = true ∨ ∃ e, r = Fail e) ∧
  ∀ s, r = Ret s → span_len s = len ∧
    ∃ p q, before ++ content = p ++ line s ++ q ∧ offset = (text_len p + line_offset s)%N ∧
      (line_offset s + len ≤ text_len (line s))%N.

Lemma loop_result_fail before content offset len e :
  ¬ on_one_line content (offset - text_len before) len →
  loop_result before content offset len (Fail e).
Proof. intros Hn. split_and!; [done|eauto|done]. Qed.

Lemma from_str_loop_spec before content name offset len skipped :
  (offset + len < u64_modulus)%N → (text_len before ≤ offset)%N →
  loop_result before content offset len
    (from_str_loop (split_text newline content) name offset len (text_len before) skipped).
Proof.
  intros Hw. remember (split_text newline content) as ls eqn:Hls. symmetry in Hls.
  revert before content skipped Hls.
  induction ls as [|l ls IH]; intros before content skipped Hls Hle.
  { by apply split_text_nonempty in Hls. }
  cbn [from_str_loop].
  destruct (split_text_cons_inv _ _ _ _ Hls) as [Hl Hrest].
  destruct (N.eqb_spec (text_len before + text_len l) offset) as [Heq|Hne].
  { apply loop_result_fail. subst offset. intros (H1 & H2 & H3).
    destruct Hrest as [[-> ->]|(t & -> & ->)]; [lia|].
    apply (H3 (text_len l)); [apply newline_at_skip; [done|by left]|lia]. }
  destruct (N.ltb_spec (text_len before + text_len l) offset) as [Hlt|Hge].
  - destruct Hrest as [[-> ->]|(t & -> & ->)].
    { apply loop_result_fail. intros (H1 & _). lia. }
    replace (text_len before + (text_len l + 1))%N with (text_len (before ++ l ++ [newline])).
    2:{ rewrite !text_len_app. simpl. change (char_len newline) with 1%N. lia. }
    destruct (IH (before ++ l ++ [newline]) t (skipped + 1)%N eq_refl) as (H1 & H2 & H3).
    { rewrite !text_len_app. simpl. change (char_len newline) with 1%N. lia. }
    split_and!; [|done|].
    + rewrite H1, on_one_line_skip by (done || lia). rewrite !text_len_app. simpl.
      change (char_len newline) with 1%N.
      by replace (offset - (text_len before + (text_len l + (1 + 0))))%N
        with (offset - text_len before - (text_len l + 1))%N by lia.
    + intros s Hs. destruct (H3 s Hs) as (? & p & q & Hp & ?). split; [done|].
      exists p, q. split; [|done]. rewrite <-Hp. by rewrite <-!app_assoc.
  - rewrite u64_add_small by lia. cbn [mbind outcome_bind].
    assert (on_one_line content (offset - text_len before) len ↔
            (offset - text_len before + len ≤ text_len l)%N) as Hon.
    { destruct Hrest as [[-> ->]|(t & -> & ->)];
        [apply on_one_line_last|apply on_one_line_here]; (done || lia). }
    destruct (N.ltb_spec (text_len l) (offset - text_len before + len)) as [Hover|Hfit].
    { apply loop_result_fail. rewrite Hon. lia. }
    split_and!; [|by left|].
    + rewrite Hon. done.
    + intros s [= <-]. simpl. split; [done|]. exists before.
      destruct Hrest as [[-> ->]|(t & -> & ->)].
      * exists []. rewrite app_nil_r. split_and!; [done|lia..].
      * exists (newline :: t). split_and!; [done|lia..].
Qed.

Lemma from_str_spec name content offset len :
  (offset + len < u64_modulus)%N →
  loop_result [] content offset len (from_str name content offset len).
Proof. intros Hw. apply (from_str_loop_spec []); [done|simpl; lia]. Qed.
End span_facts.

(** A span can be built exactly when its first byte is in the file and neither
    that byte nor any other of the span is a newline; otherwise the result is an
    error, never a panic. *)
Theorem code_span_exists `{BuildProfile} name content offset len :
  (offset + len < u64_modulus)%N →
  (∃ s, from_str name content offset len = Ret s) ∧ on_one_line content offset len ∨
  (∃ e, from_str name content offset len = Fail e) ∧ ¬ on_one_line content offset len.
Proof.
  intros Hw. destruct (from_str_spec name content offset len Hw) as (H1 & H2 & _).
  simpl in H1. rewrite N.sub_0_r in H1. destruct (from_str name content offset len).
  - left. split; [eauto|]. by apply H1.
  - right. split; [eauto|]. by intros [=]%H1.
  - destruct H2 as [|[? ?]]; done.
  - destruct H2 as [|[? ?]]; done.
Qed.

(** The text of a span is the slice of the file at its offset; both panic when
    an end of the span is inside a character. *)
Theorem code_span_slice `{BuildProfile} name content offset len s :
  (offset + len < u64_modulus)%N → from_str name content offset len = Ret s →
  as_str s = slice content offset (offset + len).
Proof.
  intros Hw Hs. destruct (from_str_spec name content offset len Hw) as (_ & _ & H3).
  destruct (H3 s Hs) as (Hlen & p & q & Hc & -> & Hle). simpl in Hc.
  unfold as_str. rewrite Hlen, u64_add_small by lia. cbn [mbind outcome_bind].
  rewrite Hc, <-N.add_assoc. symmetry. by apply slice_middle.
Qed.

(** ** Examples *)
Definition ex_file : text := text_of "content" ++ newline :: text_of "nope".

Example ex_span :
  (s ← from_str (H := dev_profile) [Normal "file.txt"] ex_file 9 2; as_str (H := dev_profile) s)
  = Ret (text_of "op").
Proof. reflexivity. Qed.

(** A character of two bytes: the slice in the middle of it panics. *)
Example ex_span_inside :
  (s ← from_str (H := dev_profile) [] [233%N] 1 1; as_str (H := dev_profile) s)
  = Panicked "byte index is out of bounds or not a char boundary".
Proof. reflexivity. Qed.

Lemma code_span_exists_witness :
  (∃ s, from_str (H := dev_profile) [] ex_file 9 2 = Ret s) ∧ on_one_line ex_file 9 2 ∨
  (∃ e, from_str (H := dev_profile) [] ex_file 9 2 = Fail e) ∧ ¬ on_one_line ex_file 9 2.
Proof. apply (code_span_exists (H := dev_profile)). vm_compute. reflexivity. Defined.

Lemma code_span_slice_witness :
  as_str (H := dev_profile) (mkSpan [] 2 9 1 2 (text_of "nope")) = slice ex_file 9 (9 + 2).
Proof. apply (code_span_slice (H := dev_profile) []); vm_compute; reflexivity. Defined.
