(* ===== verification/Checks.v ===== *)
(** * Checks of the solutions ([task-maker-format/src/solution.rs],
    [src/tools/add_solution_checks.rs])

    The result a solution should have on some subtasks, the comments of a source
    file that say so, and the tool that writes these comments. *)
From S2P Require Import Prelude RustOrd Paths StoreKey Text Diagnostics.

(** ** Results of a testcase *)
Inductive TestcaseEvaluationResult : Type :=
  | TER_Accepted | TER_Partial | TER_WrongAnswer | TER_TimeLimitExceeded
  | TER_WallTimeLimitExceeded | TER_MemoryLimitExceeded | TER_RuntimeError.
#[export] Instance TestcaseEvaluationResult_eq_dec : EqDecision TestcaseEvaluationResult.
Proof. solve_decision. Defined.

Definition proj (r : TestcaseEvaluationResult) : Z :=
  match r with TER_Accepted => 2 | TER_Partial => 1 | _ => 0 end.

(** The hand-written [PartialOrd]: the derived operators [<] and [>] compare with
    [Less] and [Greater]. *)
Definition partial_cmp (a b : TestcaseEvaluationResult) : option comparison :=
  if (proj b <? proj a)%Z then Some Gt
  else if (proj a <? proj b)%Z then Some Lt
  else if (proj a =? proj b)%Z && bool_decide (a = b) then Some Eq
  else None.
Definition result_ltb (a b : TestcaseEvaluationResult) : bool :=
  match partial_cmp a b with Some Lt => true | _ => false end.

(** ** Expected results *)
Inductive SolutionCheckResult : Type :=
  | SCR_Accepted | SCR_PartialScore | SCR_WrongAnswer | SCR_TimeLimitExceeded
  | SCR_WallTimeLimitExceeded | SCR_MemoryLimitExceeded | SCR_RuntimeError | SCR_Zero.
#[export] Instance SolutionCheckResult_eq_dec : EqDecision SolutionCheckResult.
Proof. solve_decision. Defined.

Definition sorted_all : list SolutionCheckResult :=
  [SCR_Accepted; SCR_PartialScore; SCR_WrongAnswer; SCR_TimeLimitExceeded;
   SCR_WallTimeLimitExceeded; SCR_MemoryLimitExceeded; SCR_RuntimeError; SCR_Zero].

Definition check_as_str (r : SolutionCheckResult) : string :=
  match r with
  | SCR_Accepted => "accepted"
  | SCR_PartialScore => "partial-score"
  | SCR_WrongAnswer => "wrong-answer"
  | SCR_TimeLimitExceeded => "time-limit-exceeded"
  | SCR_WallTimeLimitExceeded => "wall-time-limit-exceeded"
  | SCR_MemoryLimitExceeded => "memory-limit-exceeded"
  | SCR_RuntimeError => "runtime-error"
  | SCR_Zero => "zero"
  end.

Definition as_compact_str (r : SolutionCheckResult) : string :=
  match r with
  | SCR_Accepted => "AC"
  | SCR_PartialScore => "PS"
  | SCR_WrongAnswer => "WA"
  | SCR_TimeLimitExceeded => "TLE"
  | SCR_WallTimeLimitExceeded => "WTLE"
  | SCR_MemoryLimitExceeded => "MLE"
  | SCR_RuntimeError => "RE"
  | SCR_Zero => "ZR"
  end.

(** [FromStr]. *)
Definition check_from_str (s : text) : Outcome SolutionCheckResult :=
  if decide (s = text_of "accepted") then Ret SCR_Accepted
  else if decide (s = text_of "partial-score") then Ret SCR_PartialScore
  else if decide (s = text_of "wrong-answer") then Ret SCR_WrongAnswer
  else if decide (s = text_of "time-limit-exceeded") then Ret SCR_TimeLimitExceeded
  else if decide (s = text_of "wall-time-limit-exceeded") then Ret SCR_WallTimeLimitExceeded
  else if decide (s = text_of "memory-limit-exceeded") then Ret SCR_MemoryLimitExceeded
  else if decide (s = text_of "runtime-error") then Ret SCR_RuntimeError
  else if decide (s = text_of "zero") then Ret SCR_Zero
  else Fail ["Invalid check name"].

Definition minimals (r : SolutionCheckResult) : list TestcaseEvaluationResult :=
  match r with
  | SCR_Accepted => [TER_Accepted]
  | SCR_PartialScore => [TER_Partial]
  | SCR_WrongAnswer => [TER_WrongAnswer]
  | SCR_TimeLimitExceeded => [TER_TimeLimitExceeded]
  | SCR_WallTimeLimitExceeded => [TER_WallTimeLimitExceeded]
  | SCR_MemoryLimitExceeded => [TER_MemoryLimitExceeded]
  | SCR_RuntimeError => [TER_RuntimeError]
  | SCR_Zero => [TER_WrongAnswer; TER_TimeLimitExceeded; TER_WallTimeLimitExceeded;
                 TER_MemoryLimitExceeded; TER_RuntimeError]
  end.

(** The loop of [SolutionCheckResult::check]: the first minimal outcome that is one
    of the expected ones ends it. *)
Fixpoint check_loop (r : SolutionCheckResult) (outcomes : list TestcaseEvaluationResult)
    (l : list TestcaseEvaluationResult) : bool :=
  match l with
  | [] => false
  | o :: l =>
      if existsb (λ o', result_ltb o' o) outcomes then check_loop r outcomes l
      else if bool_decide (o ∈ minimals r) then true
      else check_loop r outcomes l
  end.
Definition check (r : SolutionCheckResult) (outcomes : list TestcaseEvaluationResult) : bool :=
  if check_loop r outcomes outcomes then true
  else match outcomes with [] => bool_decide (TER_Accepted ∈ minimals r) | _ => false end.

Record SolutionCheck : Type := mkCheck {
  check_result : SolutionCheckResult;
  subtask_name_pattern : text;
  code_span : CodeSpan
}.

(** ** The comments of a source file *)
Definition CHECK_PREFIX : text := text_of "@check-".

(** The expression [FIND_CHECKS] of [extract_check_list]: any characters, as many
    as possible, then the group, from a [@check-] to the end of the line.  The
    group starts at the last occurrence.  The result is the text before the group
    and the group. *)
Fixpoint find_last (p s : text) : option (text * text) :=
  let here := match strip_prefix p s with Some _ => Some ([], s) | None => None end in
  match s with
  | [] => here
  | c :: s' =>
      match find_last p s' with
      | Some (before, found) => Some (c :: before, found)
      | None => here
      end
  end.

(** The alternatives of the group [result] of [EXTRACT_CHECKS]. *)
Definition RESULTS : list text :=
  text_of <$> ["accepted"; "partial-score"; "wrong-answer"; "time-limit-exceeded";
               "memory-limit-exceeded"; "runtime-error"; "zero"]%string.

(** The first part of [EXTRACT_CHECKS], up to the colon, at the start of a text:
    the group [result] and what follows the colon. *)
Definition match_result (s : text) : option (text * text) :=
  rest ← strip_prefix CHECK_PREFIX s;
  foldr (λ name other,
      match strip_prefix (name ++ text_of ":") rest with
      | Some tail => Some (name, tail)
      | None => other
      end) None RESULTS.

(** The group [subtasks] of [EXTRACT_CHECKS], words with spaces before them, is
    everything up to the last character that is not a space; the spaces that
    follow are the rest of the match, which ends with the line. *)
Fixpoint skip_spaces (s : text) : text :=
  match s with c :: s' => if is_whitespace c then skip_spaces s' else s | [] => [] end.
Definition trim_end (s : text) : text := reverse (skip_spaces (reverse s)).

(** The first match of [EXTRACT_CHECKS]: the groups and the length of the match. *)
Fixpoint extract_checks (s : text) : option (text * text * N) :=
  match match_result s with
  | Some (result, tail) => Some (result, trim_end tail, text_len s)
  | None => match s with [] => None | _ :: s' => extract_checks s' end
  end.

(** The UTF-8 encoding of a character and of a text. *)
Definition utf8_char (c : char) : list N :=
  (if c <? 128 then [c]
   else if c <? 2048 then [192 + c / 64; 128 + c mod 64]
   else if c <? 65536 then [224 + c / 4096; 128 + c / 64 mod 64; 128 + c mod 64]
   else [240 + c / 262144; 128 + c / 4096 mod 64; 128 + c / 64 mod 64; 128 + c mod 64])%N.
Definition string_of_text (s : text) : string :=
  foldr (λ b r, String.String (Ascii.ascii_of_N b) r) EmptyString (s ≫= utf8_char).

Section extract.
Context `{BuildProfile}.

Definition invalid_check (name : PathBuf) (content : text) (offset len : N) (line : text) :
    Outcome Diagnostic :=
  let d := Diagnostic_error ("In '" +:+ path_to_string name +:+ "' the check '"
             +:+ string_of_text line +:+ "' is not valid") in
  match from_str name content offset len with
  | Ret span => Ret (with_code_span span d)
  | Fail _ => Ret d
  | Panicked m => Panicked m
  | OutOfFuel => OutOfFuel
  end.

(** [Path::strip_prefix]. *)
Fixpoint path_strip_prefix (base p : PathBuf) : option PathBuf :=
  match base, p with
  | [], _ => Some p
  | a :: base, b :: p => if decide (a = b) then path_strip_prefix base p else None
  | _, [] => None
  end.

(** The body of the loop of [extract_check_list] for a line that starts at
    [line_start].  The state is the list of the diagnostics given to
    [eval.add_diagnostic], whose result is ignored. *)
Definition extract_line (name : PathBuf) (content line : text) (line_start : N) :
    M (list Diagnostic) (list SolutionCheck) :=
  match find_last CHECK_PREFIX line with
  | None => mret []
  | Some (before, found) =>
      let offset := (line_start + text_len before)%N in
      match extract_checks line with
      | Some (result, subtasks, len) =>
          code_span ← lift (outcome_context "Failed to build CodeSpan for check rule"
                              (from_str name content offset len));
          result ← lift (check_from_str result);
          mret ((λ pattern, mkCheck result pattern code_span) <$> split_whitespace subtasks)
      | None =>
          d ← lift (invalid_check name content offset (text_len found) line);
          _ ← modify (λ ds, ds ++ [d]);
          mret []
      end
  end.

Fixpoint extract_lines (name : PathBuf) (content : text) (lines : list text) (line_start : N) :
    M (list Diagnostic) (list SolutionCheck) :=
  match lines with
  | [] => mret []
  | line :: lines =>
      checks ← extract_line name content line line_start;
      rest ← extract_lines name content lines (line_start + (text_len line + 1));
      mret (checks ++ rest)
  end.

(** [SolutionCheck::extract_check_list]; [content] is the outcome of opening and
    reading the file. *)
Definition extract_check_list (task_root path : PathBuf) (content : Outcome text) :
    M (list Diagnostic) (list SolutionCheck) :=
  content ← lift content;
  let name := match path_strip_prefix task_root path with Some p => p | None => path end in
  extract_lines name content (split_text newline content) 0.
End extract.

(** ** The tool that adds the comments *)

(** The discriminant, [res as u32]. *)
Definition result_code (r : TestcaseEvaluationResult) : N :=
  match r with
  | TER_Accepted => 0 | TER_Partial => 1 | TER_WrongAnswer => 2 | TER_TimeLimitExceeded => 3
  | TER_WallTimeLimitExceeded => 4 | TER_MemoryLimitExceeded => 5 | TER_RuntimeError => 6
  end.
Definition result_ord : Ord TestcaseEvaluationResult := ord_by result_code.

(** [Vec::dedup]. *)
Fixpoint dedup {A} `{EqDecision A} (l : list A) : list A :=
  match l with
  | x :: ((y :: _) as l') => if decide (x = y) then dedup l' else x :: dedup l'
  | _ => l
  end.

Definition minimal_results (l : list TestcaseEvaluationResult) : list TestcaseEvaluationResult :=
  filter (λ res, forallb (λ res2, negb (result_ltb res2 res)) l = true) l.

Definition choose_check_for_subtask (testcase_results : list TestcaseEvaluationResult) :
    Outcome SolutionCheckResult :=
  let results := dedup (@sorted _ result_ord testcase_results) in
  match filter (λ c, forallb (λ res, bool_decide (res ∈ minimals c)) (minimal_results results) = true)
          sorted_all with
  | c :: _ => Ret c
  | [] => Panicked "failed to find check for subtask"
  end.

(** [iter().join(sep)]. *)
Fixpoint join_with (sep : text) (l : list text) : text :=
  match l with
  | [] => []
  | [x] => x
  | x :: l => x ++ sep ++ join_with sep l
  end.

(** The comment of [process_solution] for the subtasks with the same check. *)
Definition check_comment (prefix : text) (result : SolutionCheckResult) (subtasks : list text) : text :=
  prefix ++ text_of " @check-" ++ text_of (check_as_str result) ++ text_of ": "
  ++ join_with (text_of " ") subtasks.

(** [str::lines]: a last empty piece is dropped, and so is a carriage return before
    a newline. *)
Definition strip_cr (l : text) : text :=
  match reverse l with c :: r => if decide (c = 13%N) then reverse r else l | [] => l end.
Fixpoint lines_of (pieces : list text) : list text :=
  match pieces with
  | [] => []
  | [last] => match last with [] => [] | _ => [last] end
  | l :: pieces => strip_cr l :: lines_of pieces
  end.
Definition text_lines (s : text) : list text := lines_of (split_text newline s).

(** [Vec::remove], [Vec::insert]. *)
Definition vec_remove {A} (l : list A) (i : nat) : Outcome (list A) :=
  if decide (i < length l)%nat then Ret (delete i l) else Panicked "removal index out of bounds".
Definition vec_insert {A} (l : list A) (i : nat) (x : A) : Outcome (list A) :=
  if decide (i ≤ length l)%nat then Ret (take i l ++ x :: drop i l)
  else Panicked "insertion index out of bounds".

Fixpoint remove_lines (lines : list text) (to_remove : list N) : Outcome (list text) :=
  match to_remove with
  | [] => Ret lines
  | l :: to_remove =>
      lines ← vec_remove lines (N.to_nat l); remove_lines lines to_remove
  end.

(** [write_comments_to_file], from the content that is read to the one that is
    written. *)
Definition write_comments (content : text) (comments : list text)
    (checks_to_remove : list SolutionCheck) : Outcome text :=
  let to_remove := reverse (sorted (elements (list_to_set
    ((λ c, line_number (code_span c) - 1)%N <$> checks_to_remove) : gset N))) in
  lines ← remove_lines (text_lines content) to_remove;
  let insert_position := match strip_prefix (text_of "#!") content with Some _ => 1 | None => 0 end in
  lines ← vec_insert lines insert_position (join_with [newline] comments);
  Ret (join_with [newline] lines ++ [newline]).

(** ** What a check means *)

(** A testcase that got no points. *)
Definition failing (o : TestcaseEvaluationResult) : Prop := o ≠ TER_Accepted ∧ o ≠ TER_Partial.

(** The documentation of [SolutionCheckResult], case by case. *)
Definition expected (r : SolutionCheckResult) (outcomes : list TestcaseEvaluationResult) : Prop :=
  match r with
  | SCR_Accepted => ∀ o, o ∈ outcomes → o = TER_Accepted
  | SCR_PartialScore => TER_Partial ∈ outcomes ∧ ∀ o, o ∈ outcomes → ¬ failing o
  | SCR_WrongAnswer => TER_WrongAnswer ∈ outcomes
  | SCR_TimeLimitExceeded => TER_TimeLimitExceeded ∈ outcomes
  | SCR_WallTimeLimitExceeded => TER_WallTimeLimitExceeded ∈ outcomes
  | SCR_MemoryLimitExceeded => TER_MemoryLimitExceeded ∈ outcomes
  | SCR_RuntimeError => TER_RuntimeError ∈ outcomes
  | SCR_Zero => ∃ o, o ∈ outcomes ∧ failing o
  end.

Lemma result_ltb_proj a b : result_ltb a b = true ↔ (proj a < proj b)%Z.
Proof. by destruct a, b. Qed.

Lemma result_ltb_false a b : result_ltb a b = false ↔ (proj b ≤ proj a)%Z.
Proof. by destruct a, b. Qed.

(** An outcome that no other one is below of. *)
Definition minimal (o : TestcaseEvaluationResult) (outcomes : list TestcaseEvaluationResult) : Prop :=
  o ∈ outcomes ∧ ∀ o', o' ∈ outcomes → (proj o ≤ proj o')%Z.

Lemma check_loop_spec r outcomes l :
  check_loop r outcomes l = true ↔
  ∃ o, o ∈ l ∧ o ∈ minimals r ∧ ∀ o', o' ∈ outcomes → (proj o ≤ proj o')%Z.
Proof.
  assert (∀ o, existsb (λ o', result_ltb o' o) outcomes = false ↔
    ∀ o', o' ∈ outcomes → (proj o ≤ proj o')%Z) as Hmin.
  { intros o. rewrite <-not_true_iff_false, existsb_exists. split.
    - intros Hn o' Ho'. apply result_ltb_false, not_true_is_false. intros ?. apply Hn.
      exists o'. by rewrite <-list_elem_of_In.
    - intros Ha (o' & Ho'%list_elem_of_In & ?%result_ltb_proj). specialize (Ha o' Ho'). lia. }
  induction l as [|o l IH]; simpl; [set_solver|].
  destruct (existsb _ outcomes) eqn:He.
  - rewrite IH. split; [set_solver|]. intros (x & [->|Hx]%elem_of_cons & Hm & Hl); [|eauto].
    apply Hmin in Hl. congruence.
  - case_bool_decide as Hd.
    + split; [|done]. intros _. exists o. split_and!; [set_solver|done|]. by apply Hmin.
    + rewrite IH. set_solver.
Qed.

Lemma check_spec r outcomes :
  check r outcomes = true ↔
  (∃ o, minimal o outcomes ∧ o ∈ minimals r) ∨ outcomes = [] ∧ TER_Accepted ∈ minimals r.
Proof.
  unfold check, minimal. pose proof (check_loop_spec r outcomes outcomes) as Hl.
  destruct (check_loop r outcomes outcomes).
  - split; [|done]. intros _. left. destruct (proj1 Hl eq_refl) as (o & ? & ? & ?). eauto.
  - assert (¬ ∃ o, (o ∈ outcomes ∧ (∀ o', o' ∈ outcomes → (proj o ≤ proj o')%Z)) ∧ o ∈ minimals r).
    { intros (o & [? ?] & ?). by assert (false = true) by (apply Hl; eauto). }
    destruct outcomes; [rewrite bool_decide_eq_true|]; naive_solver.
Qed.

(** Every non-empty list of outcomes has a minimal one. *)
Lemma minimal_exists o outcomes : o ∈ outcomes → ∃ m, minimal m outcomes.
Proof.
  intros Ho. destruct (decide (Exists (λ x, proj x = 0%Z) outcomes)) as [Hz|Hz].
  { apply Exists_exists in Hz as (x & Hx & Hp). exists x. split; [done|].
    intros o' _. rewrite Hp. by destruct o'. }
  destruct (decide (TER_Partial ∈ outcomes)) as [Hp|Hp].
  - exists TER_Partial. split; [done|]. intros o' Ho'.
    destruct o'; try done; exfalso; apply Hz, Exists_exists; eauto.
  - exists o. split; [done|]. intros o' Ho'.
    destruct o'; simpl; try done; try (exfalso; apply Hz, Exists_exists; by eauto); by destruct o.
Qed.

Lemma failing_proj o : failing o ↔ proj o = 0%Z.
Proof. unfold failing. destruct o; simpl; naive_solver. Qed.

Lemma check_expected r outcomes : check r outcomes = true ↔ expected r outcomes.
Proof.
  rewrite check_spec. split.
  - intros [(o & [Ho Hmin] & Hr)|[-> Hr]].
    + destruct r; simpl in *; repeat (apply elem_of_cons in Hr as [->|Hr]); try set_solver.
      all: try (by apply not_elem_of_nil in Hr); try (eexists; by rewrite failing_proj).
      * intros o' Ho'. specialize (Hmin o' Ho'). by destruct o'.
      * split; [done|]. intros o' Ho'. specialize (Hmin o' Ho'). rewrite failing_proj.
        simpl in Hmin. lia.
    + destruct r; simpl in *; set_solver.
  - assert (∀ o, o ∈ outcomes → failing o → minimal o outcomes) as Hf.
    { intros o Ho Hz%failing_proj. split; [done|]. intros o' _. rewrite Hz. by destruct o'. }
    destruct r; simpl; intros Hr; try (left; eexists; split; [by apply (Hf _ Hr)|set_solver]).
    + destruct outcomes as [|o l]; [right; set_solver|left]. exists o.
      assert (o = TER_Accepted) as Ho by (apply Hr; by left).
      split; [split; [by left|]|rewrite Ho; set_solver].
      intros o' Ho'. by rewrite Ho, (Hr o' Ho').
    + destruct Hr as [Hp Hno]. left. exists TER_Partial. split; [|set_solver]. split; [done|].
      intros o' Ho'. specialize (Hno o' Ho'). rewrite failing_proj in Hno. by destruct o'.
    + destruct Hr as (o & Ho & Hfo). left. exists o. split; [by apply Hf|].
      destruct Hfo. destruct o; set_solver.
Qed.

(** A check of a solution holds exactly when the outcomes of the testcases are
    as the documentation of the check says; with no testcase only [Accepted]
    holds. *)
Theorem check_correct r outcomes : check r outcomes = true ↔ expected r outcomes.
Proof. apply check_expected. Qed.

(** The names of the checks: a text is read as a check exactly when it is the
    name of that check. *)
Theorem check_name_roundtrip s r : check_from_str s = Ret r ↔ s = text_of (check_as_str r).
Proof.
  unfold check_from_str. split.
  - repeat case_decide; intros [= <-]; done.
  - intros ->. by destruct r.
Qed.

(** ** The choice of a check *)
Section choose.
Implicit Types (outcomes : list TestcaseEvaluationResult).

Lemma elem_of_dedup {A} `{EqDecision A} (x : A) l : x ∈ dedup l ↔ x ∈ l.
Proof.
  induction l as [|y l IH]; [done|]. destruct l as [|z l]; [done|].
  change (dedup (y :: z :: l)) with
    (if decide (y = z) then dedup (z :: l) else y :: dedup (z :: l)).
  destruct (decide (y = z)) as [->|].
  - rewrite IH, !elem_of_cons. tauto.
  - rewrite !elem_of_cons, IH, !elem_of_cons. tauto.
Qed.

Lemma elem_of_minimal_results outcomes o :
  o ∈ minimal_results (dedup (@sorted _ result_ord outcomes)) ↔ minimal o outcomes.
Proof.
  assert (∀ x, x ∈ dedup (@sorted _ result_ord outcomes) ↔ x ∈ outcomes) as Hs.
  { intros x. rewrite elem_of_dedup. by rewrite (@sorted_perm _ result_ord outcomes). }
  unfold minimal_results, minimal. rewrite list_elem_of_filter, Hs, forallb_forall.
  split; intros [H1 H2]; split; try done.
  - intros o' Ho'. apply result_ltb_false, negb_true_iff, H1, list_elem_of_In. by apply Hs.
  - intros o' Ho'%list_elem_of_In. apply negb_true_iff, result_ltb_false, H2. by apply Hs.
Qed.

(** The check covers all the minimal outcomes. *)
Definition covers (c : SolutionCheckResult) outcomes : Prop :=
  ∀ m, minimal m outcomes → m ∈ minimals c.

Lemma minimal_same_proj m m' outcomes :
  minimal m outcomes → minimal m' outcomes → proj m = proj m'.
Proof. intros [H1 H2] [H3 H4]. specialize (H2 m' H3). specialize (H4 m H1). lia. Qed.

Lemma some_check_covers outcomes : ∃ c, covers c outcomes.
Proof.
  destruct outcomes as [|o l].
  { exists SCR_Accepted. intros m [Hm _]. set_solver. }
  destruct (minimal_exists o (o :: l)) as [m Hm]; [by left|].
  assert (∀ m', minimal m' (o :: l) → proj m = proj m') as Hs.
  { intros m'. by apply minimal_same_proj. }
  exists (match m with TER_Accepted => SCR_Accepted | TER_Partial => SCR_PartialScore
          | _ => SCR_Zero end).
  intros m' Hm'%Hs. destruct m, m'; try done; set_solver.
Qed.

(** The first element of a list sorted by a key that passes a filter. *)
Lemma filter_first {A} (P : A → Prop) `{∀ x, Decision (P x)} (key : A → nat) l c l' :
  StronglySorted (λ x y, key x ≤ key y) l → filter P l = c :: l' →
  ∀ c', c' ∈ l → P c' → key c ≤ key c'.
Proof.
  induction 1 as [|x l Hl IH Hx]; [done|]. rewrite filter_cons.
  destruct (decide (P x)).
  - intros [= -> _] c' [->|Hc']%elem_of_cons Hp; [done|]. rewrite Forall_forall in Hx. by apply Hx.
  - intros Heq c' [->|Hc']%elem_of_cons Hp; [done|]. by apply IH.
Qed.

Lemma sorted_all_full c : c ∈ sorted_all.
Proof. apply (bool_decide_unpack _). by destruct c. Qed.

Lemma sorted_all_sorted : StronglySorted (λ x y, length (minimals x) ≤ length (minimals y)) sorted_all.
Proof. repeat constructor; simpl; lia. Qed.
End choose.

(** The tool that writes the checks finds one for every list of outcomes; the
    outcomes satisfy it, and none that covers all the minimal outcomes is more
    specific. *)
Theorem chosen_check_holds outcomes :
  ∃ c, choose_check_for_subtask outcomes = Ret c ∧ check c outcomes = true ∧
    ∀ c', covers c' outcomes → length (minimals c) ≤ length (minimals c').
Proof.
  assert (∀ c, forallb (λ res, bool_decide (res ∈ minimals c))
    (minimal_results (dedup (@sorted _ result_ord outcomes))) = true ↔ covers c outcomes) as Hcov.
  { intros c. rewrite forallb_forall. unfold covers. split; intros Hc m Hm.
    - apply (bool_decide_eq_true (m ∈ minimals c)), Hc, list_elem_of_In.
      by apply elem_of_minimal_results.
    - apply bool_decide_eq_true, Hc. by apply elem_of_minimal_results, list_elem_of_In. }
  unfold choose_check_for_subtask.
  destruct (filter _ sorted_all) as [|c l] eqn:Hf.
  { destruct (some_check_covers outcomes) as [c Hc%Hcov]. exfalso.
    apply (not_elem_of_nil c). rewrite <-Hf. apply list_elem_of_filter.
    split; [done|apply sorted_all_full]. }
  assert (covers c outcomes) as Hc.
  { apply Hcov. assert (c ∈ c :: l) as Hin by (by left). rewrite <-Hf in Hin.
    by apply list_elem_of_filter in Hin as [? _]. }
  exists c. split_and!; [done| |].
  - apply check_spec. destruct outcomes as [|o l']; [right|left].
    + split; [done|]. vm_compute in Hf. injection Hf as <- _. set_solver.
    + destruct (minimal_exists o (o :: l')) as [m Hm]; [by left|]. eauto.
  - intros c' Hc'%Hcov.
    eapply (filter_first _ (λ x, length (minimals x)));
      [apply sorted_all_sorted|exact Hf|apply sorted_all_full|exact Hc'].
Qed.
