(* ===== verification/CheckComments.v ===== *)
(** * Reading and writing the check comments

    The properties of [extract_check_list] and of the tool that writes the comments
    ([Checks]): what a well-formed comment is read as, and that the comments the
    tool writes are read back. *)
From S2P Require Import Prelude RustOrd Paths StoreKey Text Diagnostics Checks.

(** The at sign: a line with only one has only one comment. *)
Definition at_sign : char := 64%N.

Definition has_check (line : text) : Prop := ∃ a b, line = a ++ CHECK_PREFIX ++ b.

(** What a line says: nothing, or one comment with the names of some subtasks. *)
Inductive line_says : text → list (SolutionCheckResult * text) → Prop :=
  | says_nothing line : ¬ has_check line → line_says line []
  | says_check before r rest :
      at_sign ∉ before → at_sign ∉ rest → r ≠ SCR_WallTimeLimitExceeded →
      line_says (before ++ CHECK_PREFIX ++ text_of (check_as_str r) ++ text_of ":" ++ rest)
        ((λ p, (r, p)) <$> split_whitespace rest).

(** The content of a list of checks, without the spans. *)
Definition said (c : SolutionCheck) : SolutionCheckResult * text :=
  (check_result c, subtask_name_pattern c).

(** ** The regular expressions *)
Section regex.
Implicit Types (s t line : text).

Lemma strip_prefix_Some p s t : strip_prefix p s = Some t ↔ s = p ++ t.
Proof.
  revert s. induction p as [|c p IH]; intros s; simpl; [naive_solver|].
  destruct s as [|d s]; [done|]. case_decide as Hc; [|naive_solver].
  rewrite IH. naive_solver.
Qed.

Lemma strip_prefix_other p c d s t : c ≠ d → strip_prefix (c :: p) (d :: s) ≠ Some t.
Proof. intros Hc. rewrite strip_prefix_Some. intros [=]. congruence. Qed.

Lemma find_last_None p s : find_last p s = None ↔ ¬ ∃ a b, s = a ++ p ++ b.
Proof.
  split.
  - intros Hf (a & b & ->). revert Hf. induction a as [|c a IH]; simpl.
    + destruct (p ++ b) as [|c s] eqn:Hpb; simpl.
      * destruct (strip_prefix p []) eqn:Hs; [done|].
        assert (strip_prefix p (p ++ b) = Some b) as Hb by (by apply strip_prefix_Some).
        rewrite Hpb in Hb. congruence.
      * destruct (find_last p s) as [[]|]; [done|].
        assert (strip_prefix p (p ++ b) = Some b) as Hb by (by apply strip_prefix_Some).
        rewrite Hpb in Hb. by rewrite Hb.
    + destruct (find_last p (a ++ p ++ b)) as [[]|]; [done|]. by destruct (IH eq_refl).
  - intros Hn. assert (∀ t, strip_prefix p s ≠ Some t) as Hs.
    { intros t Ht%strip_prefix_Some. apply Hn. by exists [], t. }
    revert Hn Hs. induction s as [|c s IH]; simpl; intros Hn Hs.
    { destruct (strip_prefix p []) as [u|]; [by destruct (Hs u)|done]. }
    rewrite IH.
    + destruct (strip_prefix p (c :: s)) as [u|]; [by destruct (Hs u)|done].
    + intros (a & b & ->). apply Hn. by exists (c :: a), b.
    + intros t Ht%strip_prefix_Some. apply Hn. exists [c], t. by rewrite Ht.
Qed.

Lemma no_at_no_check s : at_sign ∉ s → ¬ has_check s.
Proof. intros Hs (a & b & ->). apply Hs. set_solver. Qed.

Lemma find_last_once a t :
  at_sign ∉ t → find_last CHECK_PREFIX (a ++ CHECK_PREFIX ++ t) = Some (a, CHECK_PREFIX ++ t).
Proof.
  intros Ht. induction a as [|c a IH]; simpl in *; [|by rewrite IH].
  assert (find_last CHECK_PREFIX (text_of "check-" ++ t) = None) as Hf.
  { apply find_last_None, no_at_no_check. simpl. unfold at_sign in *.
    rewrite !not_elem_of_cons. split_and!; done. }
  simpl in Hf. by rewrite Hf.
Qed.

Lemma match_result_name r t :
  r ≠ SCR_WallTimeLimitExceeded →
  match_result (CHECK_PREFIX ++ text_of (check_as_str r) ++ text_of ":" ++ t) =
  Some (text_of (check_as_str r), t).
Proof. intros Hr. destruct r; try done; vm_compute; reflexivity. Qed.

Lemma match_result_other c s : c ≠ at_sign → match_result (c :: s) = None.
Proof.
  intros Hc. unfold match_result. destruct (strip_prefix CHECK_PREFIX (c :: s)) eqn:Hs; [|done].
  apply strip_prefix_Some in Hs. simplify_eq/=.
Qed.

Lemma extract_checks_once a r t :
  at_sign ∉ a → r ≠ SCR_WallTimeLimitExceeded →
  let found := CHECK_PREFIX ++ text_of (check_as_str r) ++ text_of ":" ++ t in
  extract_checks (a ++ found) = Some (text_of (check_as_str r), trim_end t, text_len found).
Proof.
  intros Ha Hr found. induction a as [|c a IH].
  - rewrite app_nil_l. unfold found. pose proof (match_result_name r t Hr) as Hm.
    destruct (CHECK_PREFIX ++ _) as [|c s] eqn:He; [done|]. cbn [extract_checks].
    by rewrite Hm.
  - apply not_elem_of_cons in Ha as [Hc Ha]. cbn [app extract_checks].
    rewrite match_result_other by done. by apply IH.
Qed.

(** ** Words *)
Definition word (w : text) : Prop := w ≠ [] ∧ Forall (λ c, is_whitespace c = false) w.

Lemma split_whitespace_trailing w s sp :
  Forall (λ c, is_whitespace c = true) sp →
  split_whitespace_go w (s ++ sp) = split_whitespace_go w s.
Proof.
  intros Hsp. assert (split_whitespace_go [] sp = []) as Hnil.
  { induction Hsp as [|c sp Hc _ IH]; simpl; [done|]. by rewrite Hc. }
  revert w. induction s as [|c s IH]; intros w; simpl.
  - destruct Hsp as [|c sp Hc Hsp]; [done|]. simpl. rewrite Hc.
    simpl in Hnil. rewrite Hc in Hnil. simpl in Hnil. by rewrite Hnil, app_nil_r.
  - destruct (is_whitespace c); by rewrite IH.
Qed.

Lemma skip_spaces_app s : ∃ sp, s = sp ++ skip_spaces s ∧ Forall (λ c, is_whitespace c = true) sp.
Proof.
  induction s as [|c s (sp & Hs & Hsp)]; simpl; [by exists []|].
  destruct (is_whitespace c) eqn:Hc; [|by exists []].
  exists (c :: sp). split; [by rewrite Hs at 1|by constructor].
Qed.

Lemma split_whitespace_trim s : split_whitespace (trim_end s) = split_whitespace s.
Proof.
  destruct (skip_spaces_app (reverse s)) as (sp & Hs & Hsp). unfold trim_end.
  assert (s = reverse (skip_spaces (reverse s)) ++ reverse sp) as Hr.
  { by rewrite <-reverse_app, <-Hs, reverse_involutive. }
  rewrite Hr at 2. symmetry. apply split_whitespace_trailing. by apply Forall_reverse.
Qed.

Lemma split_whitespace_word w v s :
  Forall (λ c, is_whitespace c = false) v →
  split_whitespace_go w (v ++ s) = split_whitespace_go (w ++ v) s.
Proof.
  intros Hv. revert w. induction Hv as [|c v Hc _ IH]; intros w; simpl.
  - by rewrite app_nil_r.
  - by rewrite Hc, IH, <-app_assoc.
Qed.

Lemma split_whitespace_join ws :
  Forall word ws → split_whitespace (text_of " " ++ join_with (text_of " ") ws) = ws.
Proof.
  intros Hws. change (split_whitespace (join_with [32%N] ws) = ws). unfold split_whitespace. induction Hws as [|w ws [Hw Hv] Hws IH]; [done|].
  destruct ws as [|w' ws].
  - cbn [join_with]. rewrite <-(app_nil_r w) at 1. rewrite split_whitespace_word by done. by destruct w.
  - change (join_with [32%N] (w :: w' :: ws)) with (w ++ [32%N] ++ join_with [32%N] (w' :: ws)).
    rewrite split_whitespace_word by done. cbn [app split_whitespace_go].
    change (is_whitespace 32) with true. rewrite IH. by destruct w.
Qed.
End regex.

(** ** Reading the comments *)
Section reading.
Context `{BuildProfile}.
Implicit Types (content line : text) (ds : list Diagnostic).

(** A non-empty part of a line can be a span. *)
Lemma span_in_line name content pre before found post :
  content = pre ++ (before ++ found) ++ post → newline ∉ before ++ found → found ≠ [] →
  (text_len content < u64_modulus)%N →
  ∃ s, from_str name content (text_len pre + text_len before) (text_len found) = Ret s ∧
       as_str s = Ret found.
Proof.
  intros -> Hline Hne Hlen. rewrite !text_len_app in Hlen.
  assert (0 < text_len found)%N as Hpos.
  { destruct found as [|c f]; [done|]. simpl. pose proof (char_len_pos c). lia. }
  destruct (from_str_spec name (pre ++ (before ++ found) ++ post)
    (text_len pre + text_len before) (text_len found)) as (H1 & H2 & H3); [lia|].
  simpl in H1. rewrite N.sub_0_r in H1.
  destruct (from_str _ _ _ _) as [s| | |]; try (by destruct H2 as [|[? ?]]).
  - exists s. split; [done|]. destruct (H3 s eq_refl) as (Hl & p & q & Hc & Ho & Hle).
    unfold as_str. rewrite Hl, u64_add_small by (apply (f_equal text_len) in Hc;
      simpl in Hc; rewrite !text_len_app in Hc; lia). cbn [mbind outcome_bind].
    rewrite <-(slice_middle p _ q) by done. simpl in Hc. rewrite <-Hc.
    replace (text_len p + (line_offset s + text_len found))%N with
      (text_len (pre ++ before) + text_len found)%N by (rewrite text_len_app; lia).
    rewrite <-Ho. replace (pre ++ (before ++ found) ++ post)
      with ((pre ++ before) ++ found ++ post) by (by rewrite !app_assoc).
    replace (text_len pre + text_len before)%N with (text_len (pre ++ before) + 0)%N
      by (rewrite text_len_app; lia).
    rewrite slice_middle by done. apply slice_full.
  - exfalso. assert (on_one_line (pre ++ (before ++ found) ++ post)
      (text_len pre + text_len before) (text_len found)) as Hon%H1; [|done].
    unfold on_one_line. rewrite !text_len_app. split_and!; [lia..|].
    intros k (p & q & Heq & <-) Hk.
    apply app_eq_inv in Heq as [(m & -> & Hm)|(m & -> & Hm)].
    { destruct m as [|c m]; simplify_eq/=.
      - destruct (before ++ found) as [|c l] eqn:Hbf; [by apply app_nil in Hbf as [_ ?]|].
        simplify_eq/=. apply Hline. by left.
      - rewrite text_len_app in Hk. simpl in Hk. pose proof (char_len_pos newline). lia. }
    apply app_eq_inv in Hm as [(m' & Hm' & Hq)|(m' & -> & Hq)].
    + destruct m' as [|c m']; simplify_eq/=.
      * apply (f_equal text_len) in Hm'. rewrite !text_len_app in Hm'.
        rewrite !text_len_app in Hk. simpl in Hm'. lia.
      * apply Hline. rewrite Hm'. set_solver.
    + rewrite !text_len_app in Hk. lia.
Qed.

(** What [extract_line] does with such a line. *)
Lemma extract_line_says name content pre line post says ds :
  content = pre ++ line ++ post → newline ∉ line → (text_len content < u64_modulus)%N →
  line_says line says →
  ∃ checks, extract_line name content line (text_len pre) ds = (Ret checks, ds) ∧
    said <$> checks = says ∧
    ∀ c, c ∈ checks → ∃ t, as_str (code_span c) = Ret (CHECK_PREFIX ++ t).
Proof.
  intros Hc Hn Hlen Hsays. unfold extract_line.
  destruct Hsays as [line Hno|before r rest Hb Hrest Hr].
  { exists []. apply find_last_None in Hno. rewrite Hno. split_and!; [done..|]. set_solver. }
  set (t := text_of (check_as_str r) ++ text_of ":" ++ rest) in *.
  assert (at_sign ∉ t) as Ht.
  { unfold t. rewrite !not_elem_of_app. split_and!; [|apply (bool_decide_unpack _); done|done].
    apply (bool_decide_unpack _). by destruct r. }
  rewrite find_last_once by done. cbn [app].
  pose proof (extract_checks_once before r rest Hb Hr) as Hx. cbn zeta in Hx. fold t in Hx.
  rewrite Hx. rewrite Hc in *.
  destruct (span_in_line name (pre ++ (before ++ CHECK_PREFIX ++ t) ++ post) pre before
    (CHECK_PREFIX ++ t) post eq_refl Hn) as (s & Hs & Hstr); [done|done|].
  rewrite (split_whitespace_trim rest).
  exists ((λ p, mkCheck r p s) <$> split_whitespace rest). split_and!.
  - unfold mbind at 1, M_bind at 1, lift at 1. rewrite Hs. cbn.
    assert (check_from_str (text_of (check_as_str r)) = Ret r) as -> by (by destruct r). done.
  - rewrite <-list_fmap_compose. done.
  - intros c (p & -> & _)%list_elem_of_fmap. by exists t.
Qed.

Lemma extract_lines_says name content pre rest lines says ds :
  content = pre ++ rest → split_text newline rest = lines →
  (text_len content < u64_modulus)%N → Forall2 line_says lines says →
  ∃ checks, extract_lines name content lines (text_len pre) ds = (Ret checks, ds) ∧
    said <$> checks = concat says ∧
    ∀ c, c ∈ checks → ∃ t, as_str (code_span c) = Ret (CHECK_PREFIX ++ t).
Proof.
  intros Hc Hl Hlen Hf. revert pre rest Hc Hl.
  induction Hf as [|line says' lines says Hline Hf IH]; intros pre rest Hc Hl.
  { exists []. split_and!; [done..|]. set_solver. }
  destruct (split_text_cons_inv _ _ _ _ Hl) as [Hn Hrest].
  assert (∃ post, rest = line ++ post) as [post Hpost].
  { destruct Hrest as [[_ ->]|(t & -> & _)]; [exists []; by rewrite app_nil_r|eauto]. }
  destruct (extract_line_says name content pre line post says' ds) as (cs & Hcs & Hsaid & Hsp);
    [by rewrite Hc, Hpost|done..|].
  assert (∃ checks, extract_lines name content lines (text_len pre + (text_len line + 1)) ds
    = (Ret checks, ds) ∧ said <$> checks = concat says ∧
    ∀ c, c ∈ checks → ∃ t, as_str (code_span c) = Ret (CHECK_PREFIX ++ t))
    as (cs' & Hcs' & Hsaid' & Hsp').
  { destruct Hrest as [[-> _]|(t & Ht & ->)].
    - apply Forall2_nil_inv_l in Hf as ->. exists []. split_and!; [done..|]. set_solver.
    - destruct (IH (pre ++ line ++ [newline]) t) as (cs' & Hcs' & ?);
        [by rewrite Hc, Ht, <-!app_assoc|done|]. exists cs'.
      rewrite !text_len_app in Hcs'. simpl in Hcs'. change (char_len newline) with 1%N in Hcs'.
      by rewrite N.add_0_r in Hcs'. }
  exists (cs ++ cs'). split_and!.
  - cbn [extract_lines]. unfold mbind, M_bind. rewrite Hcs, Hcs'. done.
  - by rewrite fmap_app, Hsaid, Hsaid'.
  - intros c [?|?]%elem_of_app; eauto.
Qed.
End reading.

(** A source file in which every line says something well-formed, or nothing, is
    read as what its lines say, in order and with no diagnostic; the span of each
    check is its comment. *)
Theorem comments_read `{BuildProfile} task_root path content says ds :
  (text_len content < u64_modulus)%N →
  Forall2 line_says (split_text newline content) says →
  ∃ checks, extract_check_list task_root path (Ret content) ds = (Ret checks, ds) ∧
    said <$> checks = concat says ∧
    ∀ c, c ∈ checks → ∃ t, as_str (code_span c) = Ret (CHECK_PREFIX ++ t).
Proof. intros Hlen Hf. by apply (extract_lines_says _ content [] content). Qed.

(** ** Writing the comments *)
Section writing.
Implicit Types (s line : text) (lines : list text).

Lemma split_join sep lines :
  lines ≠ [] → Forall (λ l, sep ∉ l) lines → split_text sep (join_with [sep] lines) = lines.
Proof.
  assert (∀ l s, sep ∉ l → split_text sep (l ++ s) =
    match split_text sep s with [] => [l] | x :: xs => (l ++ x) :: xs end) as Hpre.
  { intros l s Hl. induction l as [|c l IH]; simpl.
    - destruct (split_text sep s) eqn:Hs; [by apply split_text_nonempty in Hs|done].
    - apply not_elem_of_cons in Hl as [Hc Hl]. destruct (decide (c = sep)); [congruence|].
      rewrite IH by done. by destruct (split_text sep s). }
  intros Hne Hf. induction Hf as [|l lines Hl Hf IH]; [done|].
  destruct lines as [|l' lines].
  - cbn [join_with]. rewrite <-(app_nil_r l) at 1. rewrite Hpre by done. simpl. by rewrite app_nil_r.
  - change (join_with [sep] (l :: l' :: lines)) with (l ++ sep :: join_with [sep] (l' :: lines)).
    rewrite Hpre by done. cbn [split_text]. destruct (decide (sep = sep)); [|done].
    by rewrite IH, app_nil_r.
Qed.

(** The lines of a text are pieces of it, some without their carriage return. *)
Lemma strip_cr_prefix l : ∃ t, l = strip_cr l ++ t.
Proof.
  unfold strip_cr. destruct (reverse l) as [|c r] eqn:Hr; [exists []; by rewrite app_nil_r|].
  case_decide; [|exists []; by rewrite app_nil_r].
  exists [c]. by rewrite <-(reverse_involutive l), Hr, reverse_cons.
Qed.

Lemma text_lines_pieces s line :
  line ∈ text_lines s → ∃ t, line ++ t ∈ split_text newline s.
Proof.
  unfold text_lines. induction (split_text newline s) as [|l [|l' ls] IH]; [set_solver| |].
  - destruct l; [set_solver|]. intros ->%list_elem_of_singleton. exists []. rewrite app_nil_r. by left.
  - change (lines_of (l :: l' :: ls)) with (strip_cr l :: lines_of (l' :: ls)).
    intros [->|Hin]%elem_of_cons.
    + destruct (strip_cr_prefix l) as [t Ht]. exists t. rewrite <-Ht. by left.
    + destruct (IH Hin) as [t ?]. exists t. by right.
Qed.

Lemma text_lines_no_newline s : Forall (λ l, newline ∉ l) (text_lines s).
Proof.
  apply Forall_forall. intros line (t & Hin)%text_lines_pieces.
  pose proof (split_text_no_sep newline s) as Hn. rewrite Forall_forall in Hn.
  specialize (Hn _ Hin). set_solver.
Qed.

(** Removing lines from the last to the first one. *)
Lemma remove_lines_desc lines idx :
  StronglySorted (λ a b, b < a)%N idx → (∀ i, i ∈ idx → N.to_nat i < length lines) →
  ∃ lines', remove_lines lines idx = Ret lines' ∧
    length lines' + length idx = length lines ∧
    ∀ l, l ∈ lines' → ∃ k, lines !! k = Some l ∧ N.of_nat k ∉ idx.
Proof.
  intros Hs. revert lines. induction Hs as [|i idx Hs IH Hi]; intros lines Hlt.
  { exists lines. split_and!; [done|simpl; lia|]. intros l [k Hk]%list_elem_of_lookup.
    exists k. split; [done|set_solver]. }
  assert (N.to_nat i < length lines) as Hil by (apply Hlt; by left).
  rewrite Forall_forall in Hi.
  destruct (IH (delete (N.to_nat i) lines)) as (lines' & Hr & Hlen & Hin).
  { intros j Hj. specialize (Hi j Hj). rewrite length_delete; [lia|]. by apply lookup_lt_is_Some. }
  rewrite length_delete in Hlen by (by apply lookup_lt_is_Some).
  exists lines'. split_and!.
  - cbn [remove_lines]. unfold vec_remove. by rewrite decide_True.
  - simpl. lia.
  - intros l Hl. destruct (Hin l Hl) as (k & Hk & Hki).
    destruct (decide (k < N.to_nat i)) as [Hlt'|Hge].
    + rewrite list_lookup_delete_lt in Hk by done. exists k. split; [done|].
      apply not_elem_of_cons. split; [lia|done].
    + rewrite list_lookup_delete_ge in Hk by lia. exists (S k). split; [done|].
      apply not_elem_of_cons. split; [lia|]. intros Hj. specialize (Hi _ Hj). lia.
Qed.

(** ** Joining lines *)
Definition joined (sep : text) (l : list text) : text := concat ((λ y, sep ++ y) <$> l).

Lemma joined_app sep l l' : joined sep (l ++ l') = joined sep l ++ joined sep l'.
Proof. unfold joined. by rewrite fmap_app, concat_app. Qed.

Lemma joined_join sep l : l ≠ [] → sep ++ join_with sep l = joined sep l.
Proof.
  induction l as [|x l IH]; [done|]. intros _. destruct l as [|y l].
  - unfold joined. simpl. by rewrite app_nil_r.
  - change (join_with sep (x :: y :: l)) with (x ++ sep ++ join_with sep (y :: l)).
    rewrite IH by done. unfold joined. simpl. by rewrite !app_assoc.
Qed.

Lemma join_with_nested sep a cs b :
  cs ≠ [] → join_with sep (a ++ join_with sep cs :: b) = join_with sep (a ++ cs ++ b).
Proof.
  intros Hcs. apply (app_inv_head sep). rewrite !joined_join.
  - rewrite !joined_app. f_equal.
    change (joined sep (join_with sep cs :: b)) with ((sep ++ join_with sep cs) ++ joined sep b).
    rewrite joined_join by done. done.
  - destruct a, cs; done.
  - by destruct a.
Qed.

Lemma join_with_last sep a : a ≠ [] → join_with sep a ++ sep = join_with sep (a ++ [[]]).
Proof.
  intros Ha. apply (app_inv_head sep). rewrite app_assoc, joined_join by done.
  rewrite joined_join by (by destruct a). rewrite joined_app. f_equal. unfold joined. simpl.
  by rewrite !app_nil_r.
Qed.

(** ** The comments of the tool *)

(** A comment that can be read back: subtask names are words without an at sign. *)
Definition comment_ok (p : SolutionCheckResult * list text) : Prop :=
  p.1 ≠ SCR_WallTimeLimitExceeded ∧ Forall (λ w, word w ∧ at_sign ∉ w) p.2.

(** The checks a comment stands for. *)
Definition checks_of (p : SolutionCheckResult * list text) : list (SolutionCheckResult * text) :=
  (λ w, (p.1, w)) <$> p.2.

Lemma join_with_notin c sep l : c ∉ sep → Forall (λ w, c ∉ w) l → c ∉ join_with sep l.
Proof.
  intros Hsep Hl. induction Hl as [|w l Hw Hl IH]; [set_solver|].
  destruct l as [|w' l]; [done|]. change (c ∉ w ++ sep ++ join_with sep (w' :: l)). set_solver.
Qed.

Lemma word_no_newline w : word w → newline ∉ w.
Proof. intros [_ Hw] Hn. rewrite Forall_forall in Hw. by apply Hw in Hn. Qed.

Lemma check_comment_says prefix p :
  at_sign ∉ prefix → comment_ok p →
  line_says (check_comment prefix p.1 p.2) (checks_of p).
Proof.
  intros Hp [Hr Hw]. destruct p as [r ws]. unfold checks_of. simpl in *.
  assert (Forall word ws) as Hws by (eapply Forall_impl; [exact Hw|]; by intros ? [? _]).
  rewrite <-(split_whitespace_join ws Hws) at 2.
  replace (check_comment prefix r ws) with ((prefix ++ [32%N]) ++ CHECK_PREFIX ++
    text_of (check_as_str r) ++ text_of ":" ++ text_of " " ++ join_with (text_of " ") ws).
  - constructor; [|apply not_elem_of_app; split|done].
    + apply not_elem_of_app. split; [done|]. by apply (bool_decide_unpack _).
    + by apply (bool_decide_unpack _).
    + apply join_with_notin; [by apply (bool_decide_unpack _)|].
      eapply Forall_impl; [exact Hw|]. by intros ? [_ ?].
  - unfold check_comment. by rewrite <-app_assoc.
Qed.

Lemma check_comment_no_newline prefix p :
  newline ∉ prefix → comment_ok p → newline ∉ check_comment prefix p.1 p.2.
Proof.
  intros Hp [_ Hw]. unfold check_comment. rewrite !not_elem_of_app. split_and!; [done|..].
  - by apply (bool_decide_unpack _).
  - apply (bool_decide_unpack _). by destruct p as [[] ?].
  - by apply (bool_decide_unpack _).
  - apply join_with_notin; [by apply (bool_decide_unpack _)|].
    eapply Forall_impl; [exact Hw|]. intros w [? _]. by apply word_no_newline.
Qed.

Lemma says_nothing_all lines :
  Forall (λ l, ¬ has_check l) lines → Forall2 line_says lines ((λ _, []) <$> lines).
Proof. induction 1; constructor; [by constructor|done]. Qed.

Lemma concat_nothing {A B} (l : list A) : concat ((λ _, []) <$> l) = @nil B.
Proof. by induction l. Qed.

(** The lines that are removed, from the last one. *)
Definition removed (to_remove : list SolutionCheck) : list N :=
  reverse (sorted (elements (list_to_set
    ((λ c, line_number (code_span c) - 1)%N <$> to_remove) : gset N))).

Lemma elem_of_removed to_remove i :
  i ∈ removed to_remove ↔ ∃ c, c ∈ to_remove ∧ i = (line_number (code_span c) - 1)%N.
Proof.
  unfold removed. rewrite elem_of_reverse, sorted_perm, elem_of_elements, elem_of_list_to_set,
    list_elem_of_fmap. naive_solver.
Qed.

Lemma StronglySorted_reverse {A} (R : A → A → Prop) l :
  StronglySorted R l → StronglySorted (flip R) (reverse l).
Proof.
  induction 1 as [|x l Hl IH Hx]; [constructor|]. rewrite reverse_cons.
  assert (∀ k, StronglySorted (flip R) k → Forall (R x) k → StronglySorted (flip R) (k ++ [x])) as Ha.
  { induction 1 as [|y k Hk IHk Hy]; intros Hf; [repeat constructor|].
    apply Forall_cons in Hf as [? ?]. constructor; [by apply IHk|].
    apply Forall_app. split; [done|by repeat constructor]. }
  apply Ha; [done|]. by apply Forall_reverse.
Qed.

Lemma removed_sorted to_remove : StronglySorted (λ a b, b < a)%N (removed to_remove).
Proof.
  apply (StronglySorted_reverse (λ a b, a < b)%N).
  set (l := elements _). assert (NoDup (sorted l)) as Hnd.
  { rewrite sorted_perm. apply NoDup_elements. }
  pose proof (sorted_StronglySorted l) as Hs. revert Hnd.
  induction Hs as [|x k Hk IH Hx]; intros Hnd; [constructor|].
  apply NoDup_cons in Hnd as [Hnin Hnd]. constructor; [by apply IH|].
  rewrite Forall_forall in *. intros y Hy. specialize (Hx y Hy).
  assert (x ≠ y) by (by intros ->). unfold ord_le, ord_leb, cmp, N_ord in Hx.
  destruct (N.compare_spec x y); [done|done|done].
Qed.

(** The lines written for a list of comments, and the checks they stand for. *)
Definition comment_lines (prefix : text) (comments : list (SolutionCheckResult * list text)) :
    list text := (λ p, check_comment prefix p.1 p.2) <$> comments.
Definition comment_checks (comments : list (SolutionCheckResult * list text)) :
    list (list (SolutionCheckResult * text)) := checks_of <$> comments.

(** The lines that survive say nothing. *)
Definition old_lines_removed (content : text) (to_remove : list SolutionCheck) : Prop :=
  ∀ i l, text_lines content !! i = Some l → has_check l →
    ∃ c, c ∈ to_remove ∧ line_number (code_span c) = (N.of_nat i + 1)%N.

Lemma written_lines_say `{BuildProfile} task_root path content before comments after prefix ds :
  at_sign ∉ prefix → newline ∉ prefix → Forall comment_ok comments →
  Forall (λ l, ¬ has_check l ∧ newline ∉ l) before → Forall (λ l, ¬ has_check l ∧ newline ∉ l) after →
  content = join_with [newline] (before ++ comment_lines prefix comments ++ after ++ [[]]) →
  (text_len content < u64_modulus)%N →
  ∃ checks, extract_check_list task_root path (Ret content) ds = (Ret checks, ds) ∧
    said <$> checks = concat (comment_checks comments).
Proof.
  intros Hat Hnl Hok Hb Ha -> Hlen.
  set (ls := before ++ comment_lines prefix comments ++ after ++ [[]]) in *.
  assert (split_text newline (join_with [newline] ls) = ls) as Hsplit.
  { apply split_join; [by destruct before, (comment_lines prefix comments), after|].
    unfold ls. rewrite !Forall_app. split_and!.
    - eapply Forall_impl; [exact Hb|]. by intros ? [_ ?].
    - apply Forall_fmap. eapply Forall_impl; [exact Hok|].
      intros p Hp. by apply check_comment_no_newline.
    - eapply Forall_impl; [exact Ha|]. by intros ? [_ ?].
    - repeat constructor. set_solver. }
  set (says := ((λ _, []) <$> before) ++ comment_checks comments ++ ((λ _, []) <$> (after ++ [[]]))).
  destruct (extract_lines_says (match path_strip_prefix task_root path with
      Some p => p | None => path end) (join_with [newline] ls) [] (join_with [newline] ls)
      ls says ds) as (checks & Hc & Hsaid & _); [done..| |].
  - apply Forall2_app; [|apply Forall2_app].
    + apply says_nothing_all. eapply Forall_impl; [exact Hb|]. by intros ? [? _].
    + apply Forall2_fmap. apply Forall_Forall2_diag. eapply Forall_impl; [exact Hok|].
      intros p Hp. by apply check_comment_says.
    + apply says_nothing_all. apply Forall_app. split.
      * eapply Forall_impl; [exact Ha|]. by intros ? [? _].
      * repeat constructor. apply no_at_no_check. set_solver.
  - exists checks. split.
    + rewrite <-Hc. unfold extract_check_list, lift, mbind, M_bind. by rewrite Hsplit.
    + rewrite Hsaid. unfold says. rewrite !concat_app, !concat_nothing. by rewrite app_nil_r.
Qed.

Lemma survivors content to_remove :
  old_lines_removed content to_remove →
  (∀ c, c ∈ to_remove →
     (1 ≤ line_number (code_span c) ≤ N.of_nat (length (text_lines content)))%N) →
  ∃ lines, remove_lines (text_lines content) (removed to_remove) = Ret lines ∧
    length lines + length (removed to_remove) = length (text_lines content) ∧
    Forall (λ l, ¬ has_check l ∧ newline ∉ l) lines ∧
    (∀ l, text_lines content !! 0 = Some l → 0%N ∉ removed to_remove → lines ≠ []).
Proof.
  intros Hold Hrange.
  destruct (remove_lines_desc (text_lines content) (removed to_remove)) as (lines & Hr & Hlen & Hin).
  - apply removed_sorted.
  - intros i (c & Hc & ->)%elem_of_removed. specialize (Hrange c Hc). lia.
  - exists lines. split_and!; [done|done| |].
    + apply Forall_forall. intros l Hl. destruct (Hin l Hl) as (k & Hk & Hnk). split.
      * intros (c & Hc & Heq)%(Hold k l Hk). apply Hnk, elem_of_removed. exists c. split; [done|lia].
      * pose proof (text_lines_no_newline content) as Hn. rewrite Forall_forall in Hn.
        by eapply Hn, list_elem_of_lookup_2.
    + intros l Hl H0 ->. simpl in Hlen.
      assert (NoDup (removed to_remove)) as Hnd.
      { unfold removed. rewrite reverse_Permutation, sorted_perm. apply NoDup_elements. }
      assert (length (removed to_remove) ≤ length (N.of_nat <$> seq 1 (length (text_lines content) - 1)))
        as Hle.
      { apply NoDup_incl_length; [by apply NoDup_ListNoDup|].
        intros i Hi%list_elem_of_In. apply list_elem_of_In, list_elem_of_fmap.
        exists (N.to_nat i). split; [lia|]. apply elem_of_seq.
        assert (i ≠ 0%N) by congruence. apply elem_of_removed in Hi as (c & Hc & ->).
        specialize (Hrange c Hc). lia. }
      rewrite length_fmap, length_seq in Hle. apply lookup_lt_Some in Hl. lia.
Qed.
End writing.

(** C23: the comments the tool writes are read back: after the lines of the old checks
    are removed and the comments are added, the checks of the source file are
    exactly the ones written.  None of them is for the wall time limit, whose comment is
    refused when it is read ([wall_time_comment_refused]); the names are words without [@],
    every line with an old check is removed, and the removed lines are lines of the file but
    not its shebang. *)
Theorem comments_written `{BuildProfile} task_root path prefix content comments to_remove ds :
  at_sign ∉ prefix → newline ∉ prefix → comments ≠ [] → Forall comment_ok comments →
  old_lines_removed content to_remove →
  (∀ c, c ∈ to_remove →
     (1 ≤ line_number (code_span c) ≤ N.of_nat (length (text_lines content)))%N) →
  (∀ t c, content = text_of "#!" ++ t → c ∈ to_remove → line_number (code_span c) ≠ 1%N) →
  ∃ content', write_comments content (comment_lines prefix comments) to_remove = Ret content' ∧
    ((text_len content' < u64_modulus)%N →
     ∃ checks, extract_check_list task_root path (Ret content') ds = (Ret checks, ds) ∧
       said <$> checks = concat (comment_checks comments)).
Proof.
  intros Hat Hnl Hne Hok Hold Hrange Hbang.
  destruct (survivors content to_remove Hold Hrange) as (lines & Hr & Hlen & Hlines & Hfirst).
  unfold write_comments. change (reverse (sorted _)) with (removed to_remove).
  rewrite Hr. cbn [mbind outcome_bind].
  set (pos := match strip_prefix _ content with Some _ => 1 | None => 0 end).
  assert (pos ≤ length lines) as Hpos.
  { subst pos. destruct (strip_prefix _ content) as [t|] eqn:Hs; [|lia].
    apply strip_prefix_Some in Hs. destruct lines as [|l lines]; [exfalso|simpl; lia].
    assert (∃ l, text_lines content !! 0 = Some l) as [l Hl].
    { subst content. unfold text_lines. destruct (split_text newline (text_of "#!" ++ t))
        as [|[|c x] [|y ls]] eqn:Hsp; try (by eexists);
        apply (f_equal (join_text newline)) in Hsp; rewrite join_split in Hsp; done. }
    eapply Hfirst; [done| |done]. intros (c & Hc & H0)%elem_of_removed.
    specialize (Hrange c Hc). apply (Hbang t c Hs Hc). lia. }
  unfold vec_insert. rewrite decide_True by done. cbn [mbind outcome_bind].
  eexists. split; [done|]. intros Hsmall.
  eapply (written_lines_say _ _ _ (take pos lines) comments (drop pos lines) prefix);
    [done..| | | |done].
  - by apply Forall_take.
  - by apply Forall_drop.
  - rewrite join_with_last by (by destruct (take pos lines)).
    rewrite <-app_assoc. cbn [app]. rewrite join_with_nested by (by destruct comments).
    done.
Qed.

(** ** Examples *)
Definition ex_source : text :=
  text_of "#!/bin/sh" ++ newline :: text_of "# @check-accepted: st1  st2*" ++ newline :: text_of "cat".
Definition ex_read := extract_check_list (H := dev_profile) [] [] (Ret ex_source) [].
Definition ex_checks : list SolutionCheck := from_ret [] ex_read.1.

Example ex_read_checks :
  (said <$> ex_checks, ex_read.2) =
  ([(SCR_Accepted, text_of "st1"); (SCR_Accepted, text_of "st2*")], []).
Proof. vm_compute. reflexivity. Qed.

(** Two comments on a line: the span is cut with the start of the last one and the
    length of the first one, so it leaves the line; the whole file is refused. *)
Lemma two_checks_on_a_line :
  (extract_check_list (H := dev_profile) [] []
     (Ret (text_of "// @check-accepted: st1 @check-zero: st2")) []).1 =
  Fail ["Failed to build CodeSpan for check rule"; "Multiline spans are not supported"].
Proof. vm_compute. reflexivity. Qed.

(** The comment the tool writes for the wall time limit is not a valid one. *)
Lemma wall_time_comment_refused :
  let r := extract_check_list (H := dev_profile) [] []
    (Ret (check_comment (text_of "//") SCR_WallTimeLimitExceeded [text_of "st1"])) [] in
  r.1 = Ret [] ∧ message <$> r.2 =
    ["In '' the check '// @check-wall-time-limit-exceeded: st1' is not valid"].
Proof. vm_compute. split; reflexivity. Qed.

(** A property of a short list of lines, line by line. *)
Lemma silent_line l : bool_decide (at_sign ∈ l) = false → ¬ has_check l.
Proof. intros Hl%bool_decide_eq_false. by apply no_at_no_check. Qed.

Lemma comments_read_witness :
  ∃ checks, extract_check_list (H := dev_profile) [] [] (Ret ex_source) [] = (Ret checks, []) ∧
    said <$> checks = concat [[]; [(SCR_Accepted, text_of "st1"); (SCR_Accepted, text_of "st2*")]; []] ∧
    ∀ c, c ∈ checks → ∃ t, as_str (H := dev_profile) (code_span c) = Ret (CHECK_PREFIX ++ t).
Proof.
  apply (comments_read (H := dev_profile)); [vm_compute; reflexivity|].
  constructor; [constructor; by apply silent_line|].
  constructor; [|constructor; [constructor; by apply silent_line|constructor]].
  apply (says_check (text_of "# ") SCR_Accepted (text_of " st1  st2*"));
    [by apply (bool_decide_unpack _)..|done].
Defined.

Lemma comments_written_witness :
  ∃ content', write_comments ex_source
      (comment_lines (text_of "#") [(SCR_Zero, [text_of "st1"; text_of "st2"])]) ex_checks = Ret content' ∧
    ((text_len content' < u64_modulus)%N →
     ∃ checks, extract_check_list (H := dev_profile) [] [] (Ret content') [] = (Ret checks, []) ∧
       said <$> checks = concat (comment_checks [(SCR_Zero, [text_of "st1"; text_of "st2"])])).
Proof.
  apply (comments_written (H := dev_profile)).
  - by apply (bool_decide_unpack _).
  - by apply (bool_decide_unpack _).
  - done.
  - repeat constructor; by apply (bool_decide_unpack _).
  - intros i l Hl Hc. destruct i as [|[|[|i]]]; [| | |done].
    + injection Hl as <-. exfalso. revert Hc. by apply silent_line.
    + exists (hd (mkCheck SCR_Zero [] (mkSpan [] 0 0 0 0 [])) ex_checks).
      split; [|reflexivity]. apply list_elem_of_lookup. by exists 0.
    + injection Hl as <-. exfalso. revert Hc. by apply silent_line.
  - intros c Hc. assert (Forall (λ c, line_number (code_span c) = 2%N) ex_checks) as Hf
      by (vm_compute; repeat constructor).
    rewrite Forall_forall in Hf. rewrite (Hf c Hc). by vm_compute.
  - intros t c _ Hc. assert (Forall (λ c, line_number (code_span c) = 2%N) ex_checks) as Hf
      by (vm_compute; repeat constructor).
    rewrite Forall_forall in Hf. by rewrite (Hf c Hc).
Defined.
