(* ===== verification/UiMessage.v ===== *)
(** * Tasks and messages to the user interface ([task-maker-format/src])

    The data of an IOI task that the scoring and the user interface read
    ([ioi/mod.rs]; the generators, the validators, the graders, the booklets and
    the sanity checks of a task, which they only carry, are left out), the messages
    of [ui/ui_message.rs] and the statuses of [ui/mod.rs]. *)
From S2P Require Import Prelude Float64 Paths StoreKey Dag Scheduler Text Diagnostics Checks.

Abbreviation SubtaskId := N (only parsing).
Abbreviation TestcaseId := N (only parsing).


(** ** IOI tasks *)
Inductive TestcaseScoreAggregator : Type := Min | Sum.

Record SubtaskInfo : Type := mkSubtask {
  subtask_id : SubtaskId;
  subtask_name : option text;
  max_score : f64;
  subtask_testcases : list TestcaseId;
  testcases_owned : list TestcaseId;
  subtask_span : option CodeSpan;
  is_default : bool;
  subtask_dependencies : list SubtaskId;
  always_show_testcases : bool
}.

Record TestcaseInfo : Type := mkTestcase {
  testcase_id : TestcaseId;
  input_file : option FileUuid;
  official_output_file : option FileUuid
}.

Record IOITask : Type := mkTask {
  task_path : PathBuf;
  task_name : string;
  task_title : string;
  time_limit : option f64;
  memory_limit : option N;
  subtasks : gmap SubtaskId SubtaskInfo;
  testcases : gmap TestcaseId TestcaseInfo;
  testcase_score_aggregator : TestcaseScoreAggregator;
  score_precision : nat
}.

(** ** Terry tasks: what their messages carry *)
Record TerryTask : Type := mkTerryTask {
  terry_path : PathBuf;
  terry_name : string;
  terry_description : string;
  terry_max_score : f64
}.
Abbreviation Seed := N (only parsing).

Inductive CaseStatus : Type := Missing | Parsed | Invalid.
Record SolutionAlert : Type := mkAlert { severity : string; alert_message : string }.
Record SolutionValidation : Type := mkValidation {
  validation_cases : list (CaseStatus * option string);
  validation_alerts : list SolutionAlert
}.
Record SolutionFeedback : Type := mkFeedback {
  feedback_cases : list (bool * option string);
  feedback_alerts : list SolutionAlert
}.
Record TerrySubtask : Type := mkTerrySubtask {
  terry_subtask_max : f64;
  terry_subtask_score : f64;
  terry_subtask_cases : list nat
}.
Record SolutionOutcome : Type := mkOutcome {
  outcome_score : f64;
  outcome_validation : SolutionValidation;
  outcome_feedback : SolutionFeedback;
  outcome_subtasks : option (list TerrySubtask)
}.

(** ** Statuses *)
Inductive UIExecutionStatus : Type :=
  | UI_Pending
  | UI_Started (worker : WorkerUuid)
  | UI_Done (result : list ExecutionResult)
  | UI_Skipped.

Record SolutionInfo : Type := mkSolutionInfo {
  info_path : PathBuf;
  info_solution : string;
  language_name : string;
  info_checks : list SolutionCheck
}.

(** ** Messages *)
Inductive UIMessage : Type :=
  | StopUI
  | ServerStatus (status : ExecutorStatus SystemTime)
  | Solutions (solutions : list SolutionInfo)
  | Compilation (file : PathBuf) (status : UIExecutionStatus)
  | UI_IOITask (task : IOITask)
  | IOIGeneration (subtask : SubtaskId) (testcase : TestcaseId) (status : UIExecutionStatus)
  | IOIValidation (subtask : SubtaskId) (testcase : TestcaseId) (status : UIExecutionStatus)
  | IOISolution (subtask : SubtaskId) (testcase : TestcaseId) (status : UIExecutionStatus)
  | IOIEvaluation (subtask : SubtaskId) (testcase : TestcaseId) (solution : PathBuf)
      (status : UIExecutionStatus) (manager_index : option nat)
  | IOIChecker (subtask : SubtaskId) (testcase : TestcaseId) (solution : PathBuf)
      (status : UIExecutionStatus)
  | IOITestcaseScore (subtask : SubtaskId) (testcase : TestcaseId) (solution : PathBuf)
      (score : f64) (message : string)
  | IOISubtaskScore (subtask : SubtaskId) (solution : PathBuf) (normalized_score score : f64)
  | IOITaskScore (solution : PathBuf) (score : f64)
  | IOIBooklet (name : string) (status : UIExecutionStatus)
  | IOIBookletDependency (booklet name : string) (step num_steps : nat) (status : UIExecutionStatus)
  | UI_TerryTask (task : TerryTask)
  | TerryGeneration (solution : PathBuf) (seed : Seed) (status : UIExecutionStatus)
  | TerryValidation (solution : PathBuf) (status : UIExecutionStatus)
  | TerrySolution (solution : PathBuf) (status : UIExecutionStatus)
  | TerryChecker (solution : PathBuf) (status : UIExecutionStatus)
  | TerrySolutionOutcome (solution : PathBuf) (outcome : SolutionOutcome + string)
  | UI_Diagnostic (diagnostic : Diagnostic).

(** ** The status of a compilation *)

(** [String::from_utf8_lossy]: each maximal part of an encoding that is not
    completed becomes a replacement character. *)
Definition replacement : char := 65533%N.
Definition cont (lo hi b : N) : bool := ((lo <=? b) && (b <=? hi))%N.
(** The ranges of the second byte, the number of the other ones and the bits of the
    first byte. *)
Definition utf8_head (b : N) : option (N * N * nat * N) :=
  (if (194 <=? b) && (b <=? 223) then Some (128, 191, O, b - 192)
   else if b =? 224 then Some (160, 191, 1%nat, 0)
   else if b =? 237 then Some (128, 159, 1%nat, 13)
   else if (225 <=? b) && (b <=? 239) then Some (128, 191, 1%nat, b - 224)
   else if b =? 240 then Some (144, 191, 2%nat, 0)
   else if (241 <=? b) && (b <=? 243) then Some (128, 191, 2%nat, b - 240)
   else if b =? 244 then Some (128, 143, 2%nat, 4)
   else None)%N.

(** The state of the decoder: nothing pending, or the bits read so far, the range of
    the next byte and the number of bytes after it. *)
Definition utf8_start (b : N) : option (N * N * N * nat) * text :=
  if (b <? 128)%N then (None, [b])
  else match utf8_head b with
       | Some (lo, hi, n, bits) => (Some (bits, lo, hi, n), [])
       | None => (None, [replacement])
       end.
Fixpoint utf8_lossy (pending : option (N * N * N * nat)) (l : list N) : text :=
  match l with
  | [] => match pending with None => [] | Some _ => [replacement] end
  | b :: l =>
      match pending with
      | None => (utf8_start b).2 ++ utf8_lossy (utf8_start b).1 l
      | Some (bits, lo, hi, n) =>
          if cont lo hi b then
            let bits := (bits * 64 + (b - 128))%N in
            match n with
            | O => bits :: utf8_lossy None l
            | S n => utf8_lossy (Some (bits, 128, 191, n)%N) l
            end
          else replacement :: (utf8_start b).2 ++ utf8_lossy (utf8_start b).1 l
      end
  end.
Definition from_utf8_lossy (l : list byte) : text := utf8_lossy None (Byte.to_N <$> l).

Example from_utf8_lossy_ex :
  from_utf8_lossy [Byte.x61; Byte.xc3; Byte.xa9; Byte.xe2; Byte.x82; Byte.x62; Byte.xff] =
  [97; 233; replacement; 98; replacement]%N.
Proof. reflexivity. Qed.

Inductive CompilationStatus : Type :=
  | CS_Pending
  | CS_Running
  | CS_Done (result : ExecutionResult) (stdout stderr : option text)
  | CS_Failed (result : ExecutionResult) (stdout stderr : option text)
  | CS_Skipped.

(** [CompilationStatus::apply_status]: it does not depend on the old status. *)
Definition apply_status (status : UIExecutionStatus) : Outcome CompilationStatus :=
  match status with
  | UI_Pending => Ret CS_Pending
  | UI_Started _ => Ret CS_Running
  | UI_Done [result] =>
      let stdout := from_utf8_lossy <$> result_stdout result in
      let stderr := from_utf8_lossy <$> result_stderr result in
      match Dag.status result with
      | Success => Ret (CS_Done result stdout stderr)
      | _ => Ret (CS_Failed result stdout stderr)
      end
  | UI_Done _ => Panicked "assertion failed: result.len() == 1"
  | UI_Skipped => Ret CS_Skipped
  end.

(** ** The channel to the user interface ([UIMessageSender]) *)
Record UIChannel : Type := mkUIChannel { ui_sent : list UIMessage; ui_open : bool }.

Definition ui_send (m : UIMessage) : M UIChannel unit :=
  c ← get_st;
  if ui_open c then modify (λ c, mkUIChannel (ui_sent c ++ [m]) (ui_open c))
  else bail "sending on a closed channel".
