(* ===== verification/Machine.v ===== *)
(** * The machine of the client

    What building a DAG reads of the machine it runs on: the files, the
    environment variables, the platform.  Nothing is written while a DAG is built,
    so they do not change. *)
From S2P Require Import Prelude Paths StoreKey Text Checks UiMessage.

(** ** Files

    [canonical] is the resolution of the operating system (symbolic links, [..]):
    the place of an existing file.  What is in a place is a file with its content,
    a directory, or something that cannot be opened. *)
Inductive Node : Type :=
  | RegularFile (content : list byte)
  | UnreadableFile
  | Directory.

Class LocalFiles : Type := {
  canonical : PathBuf → option PathBuf;
  nodes : gmap PathBuf Node
}.

(** [str::from_utf8]: the decoding of the texts that encode to the bytes given. *)
Definition from_utf8 (l : list byte) : option text :=
  let s := from_utf8_lossy l in
  if decide (s ≫= utf8_char = Byte.to_N <$> l) then Some s else None.

Section files.
Context `{LocalFiles}.

Definition stat (p : PathBuf) : option Node := q ← canonical p; nodes !! q.
(** [Path::exists], [Path::is_file]. *)
Definition path_exists (p : PathBuf) : bool := bool_decide (is_Some (stat p)).
Definition path_is_file (p : PathBuf) : bool :=
  match stat p with Some (RegularFile _ | UnreadableFile) => true | _ => false end.

(** [std::fs::read_to_string(..).ok()]. *)
Definition read_to_string (p : PathBuf) : option text :=
  match stat p with Some (RegularFile c) => from_utf8 c | _ => None end.

(** [FileStoreKey::from_file].  The iterator on a file stops at the first error: a
    directory, which can be opened but not read, has the key of an empty file. *)
Definition from_file `{Blake3} (p : PathBuf) : Outcome FileStoreKey :=
  match stat p with
  | None => Fail ["Cannot read " +:+ path_to_string p +:+ ", maybe broken symlink?"]
  | Some UnreadableFile =>
      Fail ["Cannot make file iterator of " +:+ path_to_string p;
            "Failed to open " +:+ path_to_string p]
  | Some Directory => Ret (from_chunks [])
  | Some (RegularFile c) => Ret (from_chunks [c])
  end.

Lemma path_exists_stat p : path_exists p = true ↔ is_Some (stat p).
Proof. unfold path_exists. apply bool_decide_eq_true. Qed.

(** Every text that can be read is the content of one of the files. *)
Lemma read_to_string_node p t :
  read_to_string p = Some t → ∃ q c, nodes !! q = Some (RegularFile c) ∧ from_utf8 c = Some t.
Proof.
  unfold read_to_string, stat. destruct (canonical p) as [q|]; [|done]. simpl.
  destruct (nodes !! q) as [[c| |]|] eqn:Hq; [|done..]. eauto.
Qed.
End files.

(** ** Environment and platform *)
Class Platform : Type := {
  env_var : string → option string;          (** [std::env::var(..).ok()], [var_os] *)
  which : string → option PathBuf;           (** the [which] crate *)
  shell_words : string → option (list string); (** [shell_words::split(..).ok()] *)
  target_os : string;                        (** [cfg!(target_os)] *)
  arch : string                              (** [std::env::consts::ARCH] *)
}.

(** The first variable of a list that is set. *)
Fixpoint env_first `{Platform} (names : list string) : option string :=
  match names with
  | [] => None
  | name :: names => match env_var name with Some v => Some v | None => env_first names end
  end.

(** ** Text of paths and strings *)
Definition path_of_text (t : text) : PathBuf := path_of_string (string_of_text t).

Fixpoint skip_while (f : char → bool) (s : text) : text :=
  match s with c :: s' => if f c then skip_while f s' else s | [] => [] end.
Fixpoint take_while (f : char → bool) (s : text) : text :=
  match s with c :: s' => if f c then c :: take_while f s' else [] | [] => [] end.
(** [str::trim]. *)
Definition trim (s : text) : text := skip_spaces (trim_end s).

Definition ascii_lower (a : Ascii.ascii) : Ascii.ascii :=
  let n := Ascii.N_of_ascii a in
  if ((65 <=? n) && (n <=? 90))%N then Ascii.ascii_of_N (n + 32) else a.
Fixpoint string_lower (s : string) : string :=
  match s with
  | EmptyString => EmptyString
  | String.String a s => String.String (ascii_lower a) (string_lower s)
  end.

Lemma take_skip_while f s : take_while f s ++ skip_while f s = s.
Proof. induction s as [|c s IH]; simpl; [done|]. destruct (f c); simpl; congruence. Qed.
