(* ===== verification/FloatText.v ===== *)
(** * Floating point numbers as texts

    [str::parse::<f64>()] and the [Display] form of [f64], which the checkers, the
    descriptions of the tasks and the messages about the scores go through. *)
From S2P Require Import Prelude Float64 Text Checks Machine.

(** ** [str::parse::<f64>()]

    A sign, then an infinity, a NaN or a decimal number with an optional exponent;
    the result is the nearest number. *)
Definition is_digit (c : char) : bool := ((48 <=? c) && (c <=? 57))%N.
Definition digits_value (l : text) : Z := foldl (λ v c, v * 10 + (Z.of_N c - 48))%Z 0%Z l.
Definition lower_text (s : text) : text :=
  (λ c, if (65 <=? c) && (c <=? 90) then c + 32 else c)%N <$> s.

(** [m * 10^e], rounded: the division of integers is exact before the rounding. *)
Definition f64_of_decimal (neg : bool) (m : Z) (e : Z) : f64 :=
  match m with
  | Z.pos p =>
      if (0 <=? e)%Z then
        binary_normalize f64_prec f64_emax (if neg then - (m * 10 ^ e) else m * 10 ^ e) 0 neg
      else SFdiv f64_prec f64_emax (S754_finite neg p 0)
             (S754_finite false (Z.to_pos (10 ^ (- e))) 0)
  | _ => S754_zero neg
  end.

Definition split_sign (s : text) : bool * text :=
  match s with
  | c :: r => if (c =? 45)%N then (true, r) else if (c =? 43)%N then (false, r) else (false, s)
  | [] => (false, s)
  end.
(** The exponent that may follow the digits; nothing else may. *)
Definition parse_exponent (s : text) : option Z :=
  match s with
  | [] => Some 0%Z
  | c :: r =>
      if ((c =? 101) || (c =? 69))%N then
        let '(neg, ds) := split_sign r in
        if bool_decide (ds ≠ []) && forallb is_digit ds
        then Some (if neg then - digits_value ds else digits_value ds)%Z else None
      else None
  end.
Definition parse_number (neg : bool) (s : text) : option f64 :=
  let int := take_while is_digit s in
  let rest := skip_while is_digit s in
  let '(frac, rest) := match rest with
    | c :: r => if (c =? 46)%N then (take_while is_digit r, skip_while is_digit r) else ([], rest)
    | [] => ([], [])
    end in
  match int ++ frac with
  | [] => None
  | ds =>
      e ← parse_exponent rest;
      Some (f64_of_decimal neg (digits_value ds) (e - Z.of_nat (length frac))%Z)
  end.
Definition parse_f64 (s : text) : option f64 :=
  let '(neg, r) := split_sign s in
  let word := lower_text r in
  if decide (word = text_of "inf" ∨ word = text_of "infinity") then Some (S754_infinity neg)
  else if decide (word = text_of "nan") then Some S754_nan
  else parse_number neg r.

Example parse_f64_ex :
  parse_f64 <$> [text_of "0.5"; text_of "1"; text_of "-.5e1"; text_of "1."; text_of "."; text_of "0x1";
                 text_of "+1e-1"; text_of "NaN"; []] =
  [Some (f64_dec 5 1); Some f64_one; Some (f64_of_Z (-5)); Some f64_one; None; None;
   Some (f64_dec 1 1); Some S754_nan; None].
Proof. vm_compute. reflexivity. Qed.

(** The [Debug] form of the error. *)
Definition parse_error (s : text) : string :=
  "ParseFloatError { kind: " +:+ (if decide (s = []) then "Empty" else "Invalid") +:+ " }".

(** ** [f64] as a text: the [Display] form

    The shortest decimal number that is read back as the same float, the nearest one
    when there are two, without an exponent. *)

(** The least [p ≥ from] such that [num / den < 10 ^ p]; the fuel covers the error of the
    estimate of [decimal_exponent]. *)
Fixpoint exponent_from (fuel : nat) (num den from : Z) : Z :=
  match fuel with
  | O => from
  | S fuel =>
      let below := if (0 <=? from)%Z then (num <? den * 10 ^ from)%Z else (num * 10 ^ (- from) <? den)%Z in
      if below then from else exponent_from fuel num den (from + 1)
  end.
Definition decimal_exponent (m : positive) (e : Z) : Z :=
  exponent_from 5 (Z.pos m * 2 ^ Z.max 0 e) (2 ^ Z.max 0 (- e))
    ((Z.log2 (Z.pos m) + e) * 30103 / 100000 - 1).
(** The numbers of [k] digits below and above, the nearest of those that are read back. *)
Definition digits_of_length (m : positive) (e p k : Z) : option Z :=
  let num := (Z.pos m * 2 ^ Z.max 0 e * 10 ^ Z.max 0 (k - p))%Z in
  let den := (2 ^ Z.max 0 (- e) * 10 ^ Z.max 0 (p - k))%Z in
  let low := (num / den)%Z in
  let reads_back d := bool_decide (f64_of_decimal false d (p - k) = S754_finite false m e) in
  match reads_back low, reads_back (low + 1)%Z with
  | true, true => Some (if (den <=? 2 * (num mod den))%Z then low + 1 else low)%Z
  | true, false => Some low
  | false, true => Some (low + 1)%Z
  | false, false => None
  end.
Fixpoint shortest_digits (fuel : nat) (m : positive) (e p k : Z) : option (Z * Z) :=
  match fuel with
  | O => None
  | S fuel =>
      match digits_of_length m e p k with
      | Some d => Some (d, (p - k)%Z)
      | None => shortest_digits fuel m e p (k + 1)
      end
  end.
(** [d * 10 ^ e] in decimal notation, without the zeros that end the fraction. *)
Fixpoint strip_zeros (fuel : nat) (d e : Z) : Z * Z :=
  match fuel with
  | O => (d, e)
  | S fuel => if (e <? 0)%Z && (d mod 10 =? 0)%Z then strip_zeros fuel (d / 10) (e + 1) else (d, e)
  end.
Definition zeros (n : nat) : text := replicate n 48%N.
Definition decimal_text (d e : Z) : text :=
  let '(d, e) := strip_zeros 400 d e in
  let digits := text_of (pretty (Z.to_N d)) in
  if (0 <=? e)%Z then digits ++ zeros (Z.to_nat e)
  else
    let frac := Z.to_nat (- e) in
    let int := length digits - frac in
    if decide (0 < int) then take int digits ++ text_of "." ++ drop int digits
    else text_of "0." ++ zeros (frac - length digits) ++ digits.
(** 17 digits are always enough. *)
Definition f64_display (x : f64) : text :=
  match x with
  | S754_nan => text_of "NaN"
  | S754_infinity s => text_of (if s then "-inf" else "inf")
  | S754_zero s => text_of (if s then "-0" else "0")
  | S754_finite s m e =>
      (if s then text_of "-" else []) ++
      match shortest_digits 17 m e (decimal_exponent m e) 1 with
      | Some (d, e) => decimal_text d e
      | None => []
      end
  end.

Example f64_display_ex :
  string_of_text ∘ f64_display <$>
    [f64_of_Z 100; f64_dec 5 1; f64_dec 1 1; f64_of_Z 0; f64_of_Z 42; f64_dec 123456 3; f64_of_Z (10 ^ 22);
     f64_dec 1 10; f64_div (f64_of_Z 1) (f64_of_Z 3); f64_of_Z (2 ^ 53 - 1)] =
  ["100"; "0.5"; "0.1"; "0"; "42"; "123.456"; "10000000000000000000000"; "0.0000000001";
   "0.3333333333333333"; "9007199254740991"].
Proof. vm_compute. reflexivity. Qed.
