(* ===== verification/Build.v ===== *)
(** * Building a DAG

    [EvaluationData] ([task-maker-format/src/lib.rs]): the DAG that the parts of a
    task extend and the channel to the user interface.  The state has also what the
    program takes from its surroundings while it builds: the [Uuid]s drawn so far and
    the cells that hold the executables of the source files.

    The second part is the invariant that every step of a builder keeps, so that the
    DAG in the end is one that [check_dag] accepts. *)
From S2P Require Import Prelude RustOrd Paths StoreKey Dag CheckDag UiMessage.

(** [Uuid::new_v4]: the identifiers that come out, all different. *)
Class UuidV4 : Type := {
  nth_uuid : N → Uuid;
  nth_uuid_inj :: Inj (=) (=) nth_uuid
}.
Definition counting_uuids : UuidV4 := {| nth_uuid := λ n, n; nth_uuid_inj := λ x y H, H |}.

(** The solutions are returned by the function that finds them, they are not part of
    the state. *)
Record EvaluationData {CB : Type} : Type := mkEval {
  task_root : PathBuf;
  eval_dag : ExecutionDAG CB;
  eval_sender : UIChannel;
  uuids_drawn : N;
  executables : gmap N File;
  next_cell : N
}.
Arguments EvaluationData : clear implicits.
Arguments mkEval {CB} _ _ _ _ _ _.

Section build.
Context {CB : Type} `{UuidV4}.
Implicit Types (s : EvaluationData CB).

Definition EvaluationData_new (root : PathBuf) : EvaluationData CB :=
  mkEval root ExecutionDAG_new (mkUIChannel [] true) 0 ∅ 0.

Definition with_dag d s : EvaluationData CB :=
  mkEval (task_root s) d (eval_sender s) (uuids_drawn s) (executables s) (next_cell s).
Definition with_eval_sender c s : EvaluationData CB :=
  mkEval (task_root s) (eval_dag s) c (uuids_drawn s) (executables s) (next_cell s).
Definition with_executable (cell : N) (f : File) s : EvaluationData CB :=
  mkEval (task_root s) (eval_dag s) (eval_sender s) (uuids_drawn s)
    (<[cell := f]> (executables s)) (next_cell s).

(** [Uuid::new_v4]. *)
Definition draw : M (EvaluationData CB) Uuid :=
  s ← get_st;
  _ ← modify (λ s, mkEval (task_root s) (eval_dag s) (eval_sender s) (uuids_drawn s + 1)
                     (executables s) (next_cell s));
  mret (nth_uuid (uuids_drawn s)).
(** [Arc::new(Mutex::new(None))]. *)
Definition new_cell : M (EvaluationData CB) N :=
  s ← get_st;
  _ ← modify (λ s, mkEval (task_root s) (eval_dag s) (eval_sender s) (uuids_drawn s)
                     (executables s) (next_cell s + 1));
  mret (next_cell s).

(** The constructors that draw an identifier. *)
Definition new_file (description : string) : M (EvaluationData CB) File :=
  u ← draw; mret (File_new u description).
Definition new_group (description : string) : M (EvaluationData CB) ExecutionGroup :=
  u ← draw; mret (ExecutionGroup_new u description).
Definition exec_into_group (e : Execution) : M (EvaluationData CB) ExecutionGroup :=
  u ← draw; mret (into_group u e).
Definition group_new_fifo (g : ExecutionGroup) : M (EvaluationData CB) (Fifo * ExecutionGroup) :=
  u ← draw; mret (new_fifo u g).
Definition exec_capture_stdout (size_limit : option N) (e : Execution) :
    M (EvaluationData CB) (File * Execution) :=
  match exec_stdout e with
  | Output_Capture _ _ => mret (capture_stdout 0 size_limit e)
  | _ => u ← draw; mret (capture_stdout u size_limit e)
  end.
Definition exec_capture_stderr (size_limit : option N) (e : Execution) :
    M (EvaluationData CB) (File * Execution) :=
  match exec_stderr e with
  | Output_Capture _ _ => mret (capture_stderr 0 size_limit e)
  | _ => u ← draw; mret (capture_stderr u size_limit e)
  end.
Definition exec_output (path : PathBuf) (e : Execution) :
    M (EvaluationData CB) (File * Execution) :=
  u ← draw; mret (output u path e).

(** A method of the DAG, a message to the user interface. *)
Definition on_dag (f : ExecutionDAG CB → Outcome (ExecutionDAG CB)) : M (EvaluationData CB) unit :=
  s ← get_st;
  d ← lift (f (eval_dag s));
  modify (with_dag d).
Definition send (m : UIMessage) : M (EvaluationData CB) unit :=
  zoom eval_sender with_eval_sender (ui_send m).

(** ** What is in use *)
Definition drawn s (u : Uuid) : Prop := ∃ n, (n < uuids_drawn s)%N ∧ u = nth_uuid n.
Definition group_of s (u : Uuid) : option ExecutionGroup := execution_groups (data (eval_dag s)) !! u.
Definition produced s (f : FileUuid) : Prop := ∃ u g, group_of s u = Some g ∧ output_of g f.
Definition provided s (f : FileUuid) : Prop := is_Some (provided_files (data (eval_dag s)) !! f).
Definition ready s (f : FileUuid) : Prop := available (data (eval_dag s)) f.

Definition exec_needs (e : Execution) (f : FileUuid) : Prop :=
  exec_stdin e = Input_File f ∨ ∃ p i, exec_input_files e !! p = Some i ∧ Dag.input_file i = f.
Definition exec_outs (e : Execution) : list FileUuid := @execution_outputs forward_order e.

(** The callbacks registered on a group. *)
Definition starts s (u : Uuid) (c : CB) : Prop :=
  ∃ cb x, callbacks (eval_dag s) = Some cb ∧ execution_callbacks cb !! u = Some x ∧ c ∈ on_start x.
Definition does s (u : Uuid) (c : CB) : Prop :=
  ∃ cb x, callbacks (eval_dag s) = Some cb ∧ execution_callbacks cb !! u = Some x ∧ c ∈ on_done x.
Definition skips s (u : Uuid) (c : CB) : Prop :=
  ∃ cb x, callbacks (eval_dag s) = Some cb ∧ execution_callbacks cb !! u = Some x ∧ c ∈ on_skip x.

(** ** The invariant

    [G] are the files that may be provided more than once (the graders), [Q] the
    groups and [R] the files that have an identifier and are not in the DAG yet; a
    callback may be registered on them already. *)
Definition watched (Q R : list Uuid) s : Prop :=
  ∃ cb, callbacks (eval_dag s) = Some cb ∧
    (∀ u, is_Some (execution_callbacks cb !! u) → u ∈ Q ∨ is_Some (group_of s u)) ∧
    (∀ f, is_Some (file_callbacks cb !! f) → f ∈ R ∨ provided s f ∨ produced s f).

Record group_fine (u : Uuid) (g : ExecutionGroup) : Prop := {
  fine_uuid : group_uuid g = u;
  fine_nonempty : executions g ≠ [];
  fine_fifos : NoDup (fifo_uuid <$> fifo g);
  fine_outputs : NoDup (@outputs forward_order g)
}.

Record builds (G : gset Uuid) (Q R : list Uuid) s : Prop := {
  b_watched : watched Q R s;
  b_groups_drawn : ∀ u, is_Some (group_of s u) → drawn s u;
  b_files_drawn : ∀ f, provided s f ∨ produced s f → drawn s f;
  b_pending : NoDup (Q ++ R);
  b_pending_drawn : ∀ u, u ∈ Q ++ R → drawn s u;
  b_pending_unused : ∀ u, u ∈ Q ++ R → group_of s u = None ∧ ¬ provided s u ∧ ¬ produced s u ∧ u ∉ G;
  b_graders : ∀ f, f ∈ G → drawn s f ∧ ¬ produced s f;
  b_groups : ∀ u g, group_of s u = Some g → group_fine u g;
  b_disjoint : ∀ u1 u2 g1 g2 f, group_of s u1 = Some g1 → group_of s u2 = Some g2 →
    output_of g1 f → output_of g2 f → u1 = u2;
  b_provided : ∀ f, provided s f → ¬ produced s f;
  b_runnable : ∀ u, is_Some (group_of s u) → runnable (data (eval_dag s)) u;
  b_cells : ∀ c f, executables s !! c = Some f → ready s (file_uuid f)
}.

(** What a step keeps. *)
Record extends s s' : Prop := {
  ext_root : task_root s' = task_root s;
  ext_drawn : (uuids_drawn s ≤ uuids_drawn s')%N;
  ext_groups : execution_groups (data (eval_dag s)) ⊆ execution_groups (data (eval_dag s'));
  ext_provided : ∀ f, provided s f → provided s' f;
  ext_config : config (data (eval_dag s')) = config (data (eval_dag s));
  ext_does : ∀ u c, does s u c → does s' u c;
  ext_cells : ∀ c, is_Some (executables s !! c) → is_Some (executables s' !! c);
  ext_sent : ∃ l, ui_sent (eval_sender s') = ui_sent (eval_sender s) ++ l
}.

#[export] Instance extends_preorder : PreOrder extends.
Proof.
  split.
  - intros s. split; auto; try lia. exists []. by rewrite app_nil_r.
  - intros s1 s2 s3 [] []. split; eauto; try congruence; try lia; [by etrans|].
    destruct ext_sent0 as [l1 H1], ext_sent1 as [l2 H2]. exists (l1 ++ l2).
    by rewrite H2, H1, app_assoc.
Qed.

Lemma extends_group s s' u g : extends s s' → group_of s u = Some g → group_of s' u = Some g.
Proof. intros [] Hu. by eapply lookup_weaken. Qed.

Lemma available_mono (d d' : ExecutionDAGData) f :
  execution_groups d ⊆ execution_groups d' →
  (∀ f, is_Some (provided_files d !! f) → is_Some (provided_files d' !! f)) →
  available d f → available d' f.
Proof.
  intros Hg Hp Hf.
  refine (available_mind d (λ f _, available d' f) (λ u _, runnable d' u) _ _ _ f Hf).
  - intros f0 H0. by apply available_provided, Hp.
  - intros u g f0 Hu Ho _ Hr. eapply available_output; [|done|done]. by eapply lookup_weaken.
  - intros u g Hu Hd IH. eapply runnable_intro; [by eapply lookup_weaken|done].
Qed.

Lemma runnable_mono (d d' : ExecutionDAGData) u :
  execution_groups d ⊆ execution_groups d' →
  (∀ f, is_Some (provided_files d !! f) → is_Some (provided_files d' !! f)) →
  runnable d u → runnable d' u.
Proof.
  intros Hg Hp [u' g Hu Hd]. eapply runnable_intro; [by eapply lookup_weaken|].
  intros f Hf. eapply available_mono; eauto.
Qed.

Lemma extends_ready s s' f : extends s s' → ready s f → ready s' f.
Proof. intros []. by apply available_mono. Qed.

Lemma extends_runnable s s' u :
  extends s s' → runnable (data (eval_dag s)) u → runnable (data (eval_dag s')) u.
Proof. intros []. by apply runnable_mono. Qed.

Lemma extends_starts_drawn s s' u : extends s s' → drawn s u → drawn s' u.
Proof. intros [] (n & Hn & ->). exists n. split; [lia|done]. Qed.

Lemma ready_provided s f : provided s f → ready s f.
Proof. intros Hf. by apply available_provided. Qed.

(** The order of the identifiers that wait does not matter. *)
#[export] Instance builds_proper G :
  Proper ((≡ₚ) ==> (≡ₚ) ==> eq ==> iff) (builds G).
Proof.
  assert (∀ Q1 Q2 R1 R2 s, Q1 ≡ₚ Q2 → R1 ≡ₚ R2 → builds G Q1 R1 s → builds G Q2 R2 s) as Hx.
  { intros Q1 Q2 R1 R2 s HQ HR []. split; auto.
    - destruct b_watched0 as (cb & ? & ? & ?). exists cb. setoid_rewrite <-HQ. by setoid_rewrite <-HR.
    - by rewrite <-HQ, <-HR.
    - intros u. rewrite <-HQ, <-HR. auto.
    - intros u. rewrite <-HQ, <-HR. auto. }
  intros Q1 Q2 HQ R1 R2 HR s ? <-. split; by apply Hx.
Qed.
End build.

(** ** The rules of the steps *)
Section rules.
Context {CB : Type} `{UuidV4}.
Implicit Types (s : EvaluationData CB) (G : gset Uuid) (Q R : list Uuid).

Definition group_outs (g : ExecutionGroup) : list FileUuid := @outputs forward_order g.

Lemma elem_of_exec_outs g f : output_of g f ↔ f ∈ group_outs g.
Proof. symmetry. apply (elem_of_outputs (H0 := forward_order)). Qed.

Lemma not_drawn s u : ¬ drawn s u ↔ ∀ n, u = nth_uuid n → (uuids_drawn s ≤ n)%N.
Proof.
  unfold drawn. split.
  - intros Hn n ->. destruct (N.le_gt_cases (uuids_drawn s) n); [done|].
    exfalso. apply Hn. eauto.
  - intros Hn (n & Hlt & ->). specialize (Hn n eq_refl). lia.
Qed.

(** The state after a [Uuid] is drawn. *)
Definition after_draw s : EvaluationData CB :=
  mkEval (task_root s) (eval_dag s) (eval_sender s) (uuids_drawn s + 1) (executables s) (next_cell s).

Lemma draw_extends s : extends s (after_draw s).
Proof. split; auto; simpl; [lia|]. exists []. by rewrite app_nil_r. Qed.

Lemma draw_new s : ¬ drawn s (nth_uuid (uuids_drawn s)) ∧ drawn (after_draw s) (nth_uuid (uuids_drawn s)).
Proof.
  split.
  - intros (n & Hn & Heq%(inj _)). lia.
  - exists (uuids_drawn s). split; [simpl; lia|done].
Qed.

Lemma builds_draw G Q R s : builds G Q R s → builds G Q R (after_draw s).
Proof.
  pose proof (draw_extends s) as He. intros []. split; auto.
  - intros u Hu. eapply extends_starts_drawn; eauto.
  - intros u Hu. eapply extends_starts_drawn; eauto.
  - intros u Hu. eapply extends_starts_drawn; eauto.
  - intros f Hf. destruct (b_graders0 f Hf). split; [by eapply extends_starts_drawn|done].
Qed.

(** An identifier that was not drawn yet can wait, as a group or as a file. *)
Lemma builds_reserve G Q R Q' R' u s :
  builds G Q R s → Q' ++ R' ≡ₚ u :: Q ++ R → Q ⊆ Q' → R ⊆ R' →
  u = nth_uuid (uuids_drawn s) → builds G Q' R' (after_draw s).
Proof.
  intros Hb HQR HQ HR ->. destruct (draw_new s) as [Hold Hnew].
  pose proof (builds_draw _ _ _ _ Hb) as []. split; auto.
  - destruct b_watched0 as (cb & ? & Hq & Hr). exists cb. split_and!; [done| |].
    + intros u Hu. destruct (Hq u Hu); auto.
    + intros f Hf. destruct (Hr f Hf); auto.
  - rewrite HQR. apply NoDup_cons. split; [|done]. intros Hu. by apply Hold, (b_pending_drawn _ _ _ _ Hb).
  - intros u. rewrite HQR. intros [->|Hu]%elem_of_cons; auto.
  - intros u. rewrite HQR. intros [->|Hu]%elem_of_cons; auto.
    destruct (group_of (after_draw s) _) eqn:Hg.
    { destruct Hold. apply (b_groups_drawn _ _ _ _ Hb). unfold group_of in *. simpl in *. by rewrite Hg. }
    split_and!; [done| | |]; intros Hin; apply Hold.
    + apply (b_files_drawn _ _ _ _ Hb). by left.
    + apply (b_files_drawn _ _ _ _ Hb). by right.
    + by apply (b_graders _ _ _ _ Hb).
Qed.

Lemma wp_draw G Q R s (P : Uuid → EvaluationData CB → Prop) E :
  builds G Q R s →
  (∀ u s', u = nth_uuid (uuids_drawn s) → s' = after_draw s → extends s s' →
     builds G Q R s' → builds G Q (u :: R) s' → builds G (u :: Q) R s' → P u s') →
  wp draw P E s.
Proof.
  intros Hb HP. unfold draw. wp_steps. apply HP; try done.
  - apply draw_extends.
  - by apply builds_draw.
  - by eapply (builds_reserve _ Q R); [done| |set_solver..|done]; rewrite <-Permutation_middle.
  - by eapply (builds_reserve _ Q R); [done| |set_solver..|done].
Qed.

Lemma wp_on_dag f s (P : unit → EvaluationData CB → Prop) E :
  wp (on_dag f) P E s ↔
    match f (eval_dag s) with
    | Ret d => P tt (with_dag d s)
    | Fail _ => E s
    | _ => False
    end.
Proof. unfold wp, on_dag, mbind, M_bind, get_st, lift, modify. by destruct (f (eval_dag s)). Qed.

(** *** Files provided *)
Definition after_provide u (p : ProvidedFile) s : EvaluationData CB :=
  with_dag (mkDag (data_insert_file u p (data (eval_dag s))) (callbacks (eval_dag s))) s.

Lemma provided_after_provide u p s f : provided (after_provide u p s) f ↔ f = u ∨ provided s f.
Proof.
  unfold provided, after_provide. simpl. destruct (decide (f = u)) as [->|].
  - rewrite lookup_insert_eq. naive_solver.
  - rewrite lookup_insert_ne by done. naive_solver.
Qed.

Lemma provide_extends u p s : extends s (after_provide u p s).
Proof.
  split; auto; try done.
  - intros f Hf. apply provided_after_provide. by right.
  - exists []. by rewrite app_nil_r.
Qed.

Lemma builds_provide G Q R R' u p s :
  builds G Q R' s → (R' ≡ₚ u :: R ∨ R' = R ∧ u ∈ G) → builds G Q R (after_provide u p s).
Proof.
  intros Hb Hu. pose proof (provide_extends u p s) as He.
  assert (¬ produced s u ∧ drawn s u) as [Hnp Hdr].
  { destruct Hu as [Hu|[-> Hu]].
    - assert (u ∈ Q ++ R') by (rewrite Hu; set_solver).
      split; [by apply (b_pending_unused _ _ _ _ Hb)|by apply (b_pending_drawn _ _ _ _ Hb)].
    - split; by apply (b_graders _ _ _ _ Hb). }
  assert (∀ x, x ∈ Q ++ R → x ∈ Q ++ R') as Hsub.
  { intros x. destruct Hu as [->|[-> _]]; set_solver. }
  pose proof Hb as []. split; auto.
  - destruct b_watched0 as (cb & ? & Hq & Hr). exists cb. split_and!; [done|done|].
    intros f Hf. rewrite provided_after_provide.
    destruct (Hr f Hf) as [Hin|[|]]; [|by auto..]. destruct Hu as [Hu|[-> _]]; [|by auto].
    rewrite Hu in Hin. apply elem_of_cons in Hin as [->|]; auto.
  - intros f [[->|Hf]%provided_after_provide|Hf]; [done|..]; apply b_files_drawn0; auto.
  - destruct Hu as [Hu|[-> _]]; [|done].
    rewrite Hu, <-Permutation_middle in b_pending0. by inversion b_pending0.
  - intros x Hx. apply b_pending_drawn0; auto.
  - intros x Hx. destruct (b_pending_unused0 x (Hsub x Hx)) as (? & ? & ? & ?).
    split_and!; try done. intros [->|]%provided_after_provide; [|done].
    destruct Hu as [Hu|[-> ?]]; [|done].
    rewrite Hu, <-Permutation_middle in b_pending0. by inversion b_pending0.
  - intros f [->|Hf]%provided_after_provide; [done|by apply b_provided0].
  - intros x Hx. eapply extends_runnable; eauto.
  - intros c f Hc. eapply extends_ready; eauto.
Qed.

Definition no_panic {A} (o : Outcome A) : Prop :=
  match o with Ret _ | Fail _ => True | _ => False end.

Lemma wp_provide_file G Q R R' f path key s (P : unit → EvaluationData CB → Prop) :
  builds G Q R' s → (R' ≡ₚ file_uuid f :: R ∨ R' = R ∧ file_uuid f ∈ G) → no_panic key →
  (∀ s', builds G Q R s' → extends s s' → ready s' (file_uuid f) → P tt s') →
  wp (on_dag (provide_file f path key)) P may_fail s.
Proof.
  intros Hb Hu Hk HP. unfold on_dag, provide_file. wp_steps.
  destruct key as [k|e|m|]; try done. apply HP.
  - by eapply builds_provide.
  - apply provide_extends.
  - apply ready_provided, provided_after_provide. by left.
Qed.

Lemma wp_provide_content `{Blake3} G Q R f content s (P : unit → EvaluationData CB → Prop) E :
  builds G Q (file_uuid f :: R) s →
  (∀ s', builds G Q R s' → extends s s' → ready s' (file_uuid f) → P tt s') →
  wp (on_dag (λ d, Ret (provide_content f content d))) P E s.
Proof.
  intros Hb HP. unfold on_dag. wp_steps. apply HP.
  - eapply builds_provide; [done|by left].
  - apply provide_extends.
  - apply ready_provided, provided_after_provide. by left.
Qed.

(** *** Callbacks *)
Definition after_callbacks cb s : EvaluationData CB := with_dag (mkDag (data (eval_dag s)) (Some cb)) s.

Lemma callbacks_extends cb cb' s :
  callbacks (eval_dag s) = Some cb →
  (∀ u x, execution_callbacks cb !! u = Some x →
     ∃ x', execution_callbacks cb' !! u = Some x' ∧ (∀ c, c ∈ on_done x → c ∈ on_done x')) →
  extends s (after_callbacks cb' s).
Proof.
  intros Hcb Hx. split; auto; try done.
  - intros u c (cb0 & x & Hcb0 & Hu & Hc). rewrite Hcb in Hcb0. injection Hcb0 as <-.
    destruct (Hx u x Hu) as (x' & ? & ?). exists cb', x'. auto.
  - exists []. by rewrite app_nil_r.
Qed.

Lemma builds_callbacks G Q R cb' s :
  builds G Q R s →
  (∀ u, is_Some (execution_callbacks cb' !! u) → u ∈ Q ∨ is_Some (group_of s u)) →
  (∀ f, is_Some (file_callbacks cb' !! f) → f ∈ R ∨ provided s f ∨ produced s f) →
  builds G Q R (after_callbacks cb' s).
Proof. intros [] Hq Hr. split; auto. exists cb'. auto. Qed.

Lemma lookup_insert_is_Some_or `{Countable K} {V} (m : gmap K V) k k' v :
  is_Some (<[k := v]> m !! k') → k' = k ∨ is_Some (m !! k').
Proof.
  destruct (decide (k' = k)) as [->|]; [auto|]. rewrite lookup_insert_ne by done. auto.
Qed.

Lemma wp_file_callback G Q R file h s (P : unit → EvaluationData CB → Prop) E :
  builds G Q R s → file ∈ R ∨ ready s file →
  (∀ s', builds G Q R s' → extends s s' → P tt s') →
  wp (on_dag (file_callback file h)) P E s.
Proof.
  intros Hb Hf HP. unfold on_dag. wp_steps.
  destruct (b_watched _ _ _ _ Hb) as (cb & Hcb & Hq & Hr).
  eapply wp_lift_ret; [unfold file_callback; by rewrite Hcb|]. wp_steps. apply HP.
  - apply builds_callbacks; [done|done|]. intros f [->|Hi]%lookup_insert_is_Some_or; [|by auto].
    destruct Hf as [|Ha]; [by auto|]. destruct Ha as [f Ha|u g f Hu Ho _]; [by auto|].
    right. right. exists u, g. auto.
  - eapply callbacks_extends; [done|]. intros u x Hx. exists x. auto.
Qed.

Lemma wp_write_file_to G Q R file path x s (P : unit → EvaluationData CB → Prop) E :
  builds G Q R s → file ∈ R ∨ ready s file →
  (∀ s', builds G Q R s' → extends s s' → P tt s') →
  wp (on_dag (write_file_to file path x)) P E s.
Proof.
  intros Hb Hf HP.
  assert (wp (on_dag (file_callback file
      (set_write_to {| dest := path; wt_executable := x; allow_failure := false |}))) P E s) as Hw
    by (by eapply wp_file_callback).
  apply wp_on_dag in Hw. apply wp_on_dag. unfold write_file_to.
  destruct (dry_run _); [|done].
  replace (with_dag (eval_dag s) s) with s by (by destruct s). by apply HP.
Qed.

Lemma wp_execution_callback G Q R u h s (P : unit → EvaluationData CB → Prop) E :
  builds G Q R s → u ∈ Q ∨ is_Some (group_of s u) →
  (∀ x c, c ∈ on_done x → c ∈ on_done (h x)) →
  (∀ s', builds G Q R s' → extends s s' →
     (∀ c, (∀ x, c ∈ on_done (h x)) → does s' u c) → P tt s') →
  wp (on_dag (execution_callback u h)) P E s.
Proof.
  intros Hb Hu Hh HP. unfold on_dag. wp_steps.
  destruct (b_watched _ _ _ _ Hb) as (cb & Hcb & Hq & Hr).
  eapply wp_lift_ret; [unfold execution_callback; by rewrite Hcb|]. wp_steps. apply HP.
  - apply builds_callbacks; [done| |done]. intros u' [->|Hi]%lookup_insert_is_Some_or; auto.
  - eapply callbacks_extends; [done|]. intros u' x Hx. simpl.
    destruct (decide (u' = u)) as [->|].
    + rewrite lookup_insert_eq, Hx. eauto.
    + rewrite lookup_insert_ne by done. eauto.
  - intros c Hc. eexists _, _. split_and!; [done|apply lookup_insert_eq|apply Hc].
Qed.

Lemma wp_on_start G Q R u c s (P : unit → EvaluationData CB → Prop) E :
  builds G Q R s → u ∈ Q ∨ is_Some (group_of s u) →
  (∀ s', builds G Q R s' → extends s s' → P tt s') →
  wp (on_dag (on_execution_start u c)) P E s.
Proof. intros Hb Hu HP. eapply wp_execution_callback; eauto. Qed.
Lemma wp_on_done G Q R u c s (P : unit → EvaluationData CB → Prop) E :
  builds G Q R s → u ∈ Q ∨ is_Some (group_of s u) →
  (∀ s', builds G Q R s' → extends s s' → does s' u c → P tt s') →
  wp (on_dag (on_execution_done u c)) P E s.
Proof.
  intros Hb Hu HP. eapply wp_execution_callback; [done..| |].
  - intros x c' Hc. simpl. rewrite elem_of_app. auto.
  - intros s' ? ? Hc. apply HP; [done..|]. apply Hc. intros x. simpl. set_solver.
Qed.
Lemma wp_on_skip G Q R u c s (P : unit → EvaluationData CB → Prop) E :
  builds G Q R s → u ∈ Q ∨ is_Some (group_of s u) →
  (∀ s', builds G Q R s' → extends s s' → P tt s') →
  wp (on_dag (on_execution_skip u c)) P E s.
Proof. intros Hb Hu HP. eapply wp_execution_callback; eauto. Qed.

(** *** Messages *)
Lemma wp_send G Q R m s (P : unit → EvaluationData CB → Prop) :
  builds G Q R s →
  (∀ s', builds G Q R s' → extends s s' → eval_dag s' = eval_dag s → P tt s') →
  wp (send m) P may_fail s.
Proof.
  intros Hb HP. unfold send, ui_send. wp_steps; [|done]. apply HP; [|split; auto; try done|done].
  - by destruct Hb.
  - by exists [m].
Qed.

(** *** Groups *)
Definition after_group g s : EvaluationData CB :=
  with_dag (add_execution_group g (eval_dag s)).2 s.

Lemma group_outs_config c g : group_outs (group_set_config c g) = group_outs g.
Proof. by destruct g. Qed.
Lemma dep_of_config c g f : dep_of (group_set_config c g) f ↔ dep_of g f.
Proof. by destruct g. Qed.

Lemma group_of_after_group g s u :
  group_of (after_group g s) u =
    if decide (u = group_uuid g) then Some (group_set_config (config (data (eval_dag s))) g)
    else group_of s u.
Proof.
  unfold group_of, after_group. simpl. rewrite group_uuid_set_config.
  case_decide as Hu; [subst; apply lookup_insert_eq|by rewrite lookup_insert_ne].
Qed.

Lemma produced_after_group g s f :
  group_of s (group_uuid g) = None →
  produced (after_group g s) f ↔ f ∈ group_outs g ∨ produced s f.
Proof.
  intros Hn. unfold produced. setoid_rewrite group_of_after_group. split.
  - intros (u & g' & Hg & Ho). case_decide; [|by eauto 10]. left. simplify_eq.
    by rewrite elem_of_exec_outs, group_outs_config in Ho.
  - intros [Ho|(u & g' & Hg & Ho)].
    + exists (group_uuid g), (group_set_config (config (data (eval_dag s))) g).
      by rewrite decide_True, elem_of_exec_outs, group_outs_config by done.
    + exists u, g'. rewrite decide_False by congruence. auto.
Qed.

Lemma group_extends g s : group_of s (group_uuid g) = None → extends s (after_group g s).
Proof.
  intros Hn. split; auto; try done.
  - simpl. apply insert_subseteq. by rewrite group_uuid_set_config.
  - exists []. by rewrite app_nil_r.
Qed.

Lemma builds_group G Q Q' R R' g s :
  builds G Q' R' s → Q' ≡ₚ group_uuid g :: Q → R' ≡ₚ group_outs g ++ R →
  executions g ≠ [] → NoDup (fifo_uuid <$> fifo g) → (∀ f, dep_of g f → ready s f) →
  builds G Q R (after_group g s).
Proof.
  intros Hb HQ HR Hne Hfifo Hdep. rewrite HQ, HR in Hb.
  assert (∀ x, x ∈ (group_uuid g :: Q) ++ group_outs g ++ R ↔
    x = group_uuid g ∨ x ∈ group_outs g ∨ x ∈ Q ++ R) as Hall
    by (intros x; rewrite !elem_of_app, elem_of_cons; tauto).
  assert (group_uuid g ∈ (group_uuid g :: Q) ++ group_outs g ++ R) as Hin by (apply Hall; auto).
  assert (∀ f, f ∈ group_outs g → f ∈ (group_uuid g :: Q) ++ group_outs g ++ R) as Hout
    by (intros f ?; apply Hall; auto).
  assert (∀ x, x ∈ Q ++ R → x ∈ (group_uuid g :: Q) ++ group_outs g ++ R) as Hsub
    by (intros x ?; apply Hall; auto).
  destruct (b_pending_unused _ _ _ _ Hb _ Hin) as (Hnone & _).
  pose proof (group_extends g s Hnone) as He.
  pose proof (b_pending _ _ _ _ Hb) as Hnd.
  simpl in Hnd. rewrite (Permutation_app_comm Q), <-(assoc_L (++)) in Hnd.
  apply NoDup_cons in Hnd as [Hug Hnd]. apply NoDup_app in Hnd as (Hndo & Hdisj & Hnd).
  pose proof (λ f, produced_after_group g s f Hnone) as Hprod.
  pose proof (group_of_after_group g s) as Hgo.
  destruct Hb. split.
  - destruct b_watched0 as (cb & ? & Hq & Hr). exists cb. split_and!; [done| |].
    + intros u Hu. rewrite Hgo. case_decide; [by eauto|].
      destruct (Hq u Hu) as [[]%elem_of_cons|]; auto; done.
    + intros f Hf. rewrite Hprod. destruct (Hr f Hf) as [[]%elem_of_app|[]]; auto.
  - intros u. rewrite Hgo. case_decide as Hu; [subst; intros _; by apply b_pending_drawn0|].
    apply b_groups_drawn0.
  - intros f. rewrite Hprod. intros [Hf|[Hf|Hf]]; [|by apply b_pending_drawn0; auto|];
      apply b_files_drawn0; auto.
  - rewrite (Permutation_app_comm Q). done.
  - intros x Hx. by apply b_pending_drawn0, Hsub.
  - intros x Hx. rewrite Hgo, Hprod. destruct (b_pending_unused0 x (Hsub x Hx)) as (? & ? & ? & ?).
    assert (x ∈ R ++ Q) as Hx' by (by rewrite (Permutation_app_comm R)).
    rewrite decide_False by (intros ->; apply Hug, elem_of_app; auto). split_and!; try done.
    intros [Ho|]; [|done]. by apply (Hdisj x).
  - intros f Hf. rewrite Hprod. destruct (b_graders0 f Hf). split; [done|].
    intros [Ho|]; [|done]. by apply (b_pending_unused0 f (Hout f Ho)).
  - intros u g'. rewrite Hgo. case_decide as Hu; [|by apply b_groups0]. intros [= <-]. subst u.
    destruct g; split; done.
  - assert (∀ u g', group_of s u = Some g' → ∀ f, output_of g' f → f ∉ group_outs g) as Hno.
    { intros u g' Hu f Ho Hf. destruct (b_pending_unused0 f (Hout f Hf)) as (_ & _ & Hn & _).
      apply Hn. by exists u, g'. }
    intros u1 u2 g1 g2 f. rewrite !Hgo. case_decide; case_decide; try congruence.
    + intros [= <-] H2 Ho1 Ho2. rewrite elem_of_exec_outs, group_outs_config in Ho1.
      by destruct (Hno u2 g2 H2 f Ho2 Ho1).
    + intros Hg1 [= <-] Ho1 Ho2. rewrite elem_of_exec_outs, group_outs_config in Ho2.
      by destruct (Hno u1 g1 Hg1 f Ho1 Ho2).
    + eauto.
  - intros f Hf. rewrite Hprod. intros [Ho|]; [|by destruct (b_provided0 f Hf)].
    by destruct (b_pending_unused0 f (Hout f Ho)) as (_ & Hn & _).
  - intros u. rewrite Hgo. case_decide as Hu.
    + intros _. subst u.
      assert (group_of (after_group g s) (group_uuid g) = Some
          (group_set_config (config (data (eval_dag s))) g)) as Hg by (by rewrite Hgo, decide_True).
      eapply runnable_intro; [exact Hg|].
      intros f Hf%dep_of_config. eapply extends_ready; eauto.
    + intros Hs. eapply extends_runnable; eauto.
  - intros c f Hc. eapply extends_ready; eauto.
Qed.

Lemma wp_add_group G Q Q' R R' g s (P : unit → EvaluationData CB → Prop) E :
  builds G Q' R' s → Q' ≡ₚ group_uuid g :: Q → R' ≡ₚ group_outs g ++ R →
  executions g ≠ [] → NoDup (fifo_uuid <$> fifo g) → (∀ f, dep_of g f → ready s f) →
  (∀ s', builds G Q R s' → extends s s' →
     group_of s' (group_uuid g) = Some (group_set_config (config (data (eval_dag s))) g) →
     (∀ f, f ∈ group_outs g → ready s' f) → P tt s') →
  wp (on_dag (λ d, Ret (add_execution_group g d).2)) P E s.
Proof.
  intros Hb HQ HR Hne Hfifo Hdep HP. apply wp_on_dag.
  assert (group_of s (group_uuid g) = None) as Hnone.
  { apply (b_pending_unused _ _ _ _ Hb). rewrite HQ. set_solver. }
  pose proof (builds_group _ _ _ _ _ _ _ Hb HQ HR Hne Hfifo Hdep) as Hb'.
  assert (group_of (after_group g s) (group_uuid g) =
      Some (group_set_config (config (data (eval_dag s))) g)) as Hg
    by by rewrite group_of_after_group, decide_True.
  apply HP; [done|by apply group_extends|done|].
  intros f Hf. eapply available_output; [exact Hg| |].
  - by rewrite elem_of_exec_outs, group_outs_config.
  - apply (b_runnable _ _ _ _ Hb'). by rewrite Hg.
Qed.

(** *** Executions under construction *)
Definition supplied s (e : Execution) : Prop := ∀ f, exec_needs e f → ready s f.

Lemma supplied_extends s s' e : extends s s' → supplied s e → supplied s' e.
Proof. intros He Hs f Hf. eapply extends_ready; eauto. Qed.

Lemma exec_needs_input f p x e f' : exec_needs (input f p x e) f' → f' = f ∨ exec_needs e f'.
Proof.
  destruct e as [d c a i o r inp out env cp lim]. intros [Hi|(p' & i' & Hp & Hi)]; [right; by left|].
  simpl in Hp. apply lookup_insert_Some in Hp as [[<- <-]|[_ Hp]]; [by left|].
  right. right. eauto.
Qed.
Lemma supplied_input s f p x e : supplied s e → ready s f → supplied s (input f p x e).
Proof. intros Hs Hf f' [->|]%exec_needs_input; auto. Qed.
Lemma supplied_stdin s f e : supplied s e → ready s f → supplied s (set_stdin (Input_File f) e).
Proof.
  intros Hs Hf f' Hn. destruct e. destruct Hn as [[= <-]|Hn]; [done|]. apply Hs. by right.
Qed.

(** The operations on an execution that change neither what it needs nor what it
    produces. *)
Definition neutral (h : Execution → Execution) : Prop :=
  ∀ e, exec_stdin (h e) = exec_stdin e ∧ exec_input_files (h e) = exec_input_files e ∧
    exec_stdout (h e) = exec_stdout e ∧ exec_stderr (h e) = exec_stderr e ∧
    exec_output_files (h e) = exec_output_files e.
Lemma neutral_args a : neutral (set_args a).
Proof. by intros []. Qed.
Lemma neutral_env k v : neutral (set_env k v).
Proof. by intros []. Qed.
Lemma neutral_copy_env k : neutral (copy_env k).
Proof. by intros []. Qed.
Lemma neutral_limits h : neutral (limits_mut h).
Proof. by intros []. Qed.
Lemma neutral_supplied h s e : neutral h → supplied s e → supplied s (h e).
Proof.
  intros Hh Hs f Hf. apply Hs. unfold exec_needs in *. destruct (Hh e) as (Hi & Hin & _).
  by rewrite <-Hi, <-Hin.
Qed.
Lemma neutral_outs h e : neutral h → exec_outs (h e) = exec_outs e.
Proof.
  intros Hh. destruct (Hh e) as (_ & _ & Ho & Hr & Hf). unfold exec_outs, execution_outputs.
  by rewrite Ho, Hr, Hf.
Qed.

Lemma exec_outs_input f p x e : exec_outs (input f p x e) = exec_outs e.
Proof. by destruct e. Qed.
Lemma exec_outs_stdin i e : exec_outs (set_stdin i e) = exec_outs e.
Proof. by destruct e. Qed.
Lemma supplied_set_stdout s b e : supplied s e → supplied s (set_stdout b e).
Proof. by destruct e. Qed.
Lemma supplied_set_stderr s b e : supplied s e → supplied s (set_stderr b e).
Proof. by destruct e. Qed.

Lemma wp_capture_stdout G Q R l e s (P : File * Execution → EvaluationData CB → Prop) E :
  builds G Q (exec_outs e ++ R) s → supplied s e →
  (∀ f s', let e' := set_stdout (Output_Capture f l) e in
     builds G Q (exec_outs e' ++ R) s' → extends s s' → supplied s' e' →
     file_uuid f ∈ exec_outs e' → exec_outs e ⊆ exec_outs e' → P (f, e') s') →
  wp (exec_capture_stdout l e) P E s.
Proof.
  intros Hb Hs HP. unfold exec_capture_stdout, capture_stdout.
  destruct e as [d c a i o r inp out env cp lim]. destruct o as [f sz|p| |]; simpl.
  1: { wp_steps. apply HP; [done|done|done| |done]. simpl. set_solver. }
  all: wp_steps; eapply wp_draw; [done|]; intros u s' Hu Hs' He _ Hr _; wp_steps;
    apply HP; [by apply Hr|done|by eapply supplied_extends|simpl; set_solver|].
  all: intros x; apply list_elem_of_further.
Qed.
Lemma wp_capture_stderr G Q R l e s (P : File * Execution → EvaluationData CB → Prop) E :
  builds G Q (exec_outs e ++ R) s → supplied s e →
  (∀ f s', let e' := set_stderr (Output_Capture f l) e in
     builds G Q (exec_outs e' ++ R) s' → extends s s' → supplied s' e' →
     file_uuid f ∈ exec_outs e' → exec_outs e ⊆ exec_outs e' → P (f, e') s') →
  wp (exec_capture_stderr l e) P E s.
Proof.
  intros Hb Hs HP. unfold exec_capture_stderr, capture_stderr.
  destruct e as [d c a i o r inp out env cp lim]. destruct r as [f sz|p| |]; simpl.
  1: { wp_steps. apply HP; [done|done|done| |done]. simpl. set_solver. }
  all: wp_steps; eapply wp_draw; [done|]; intros u s' Hu Hs' He _ Hr _; wp_steps;
    (apply HP; [|done|by eapply supplied_extends|simpl; set_solver|]).
  all: lazymatch goal with
    | |- _ ⊆ _ => unfold exec_outs, execution_outputs; simpl; set_solver
    | _ => eapply builds_proper; [reflexivity| |reflexivity|apply Hr];
           unfold exec_outs, execution_outputs; simpl; rewrite ?(Permutation_middle); solve_Permutation
    end.
Qed.

Lemma wp_output G Q R p e s (P : File * Execution → EvaluationData CB → Prop) E :
  builds G Q (exec_outs e ++ R) s → supplied s e →
  (∀ f e' s', builds G Q (exec_outs e' ++ R) s' → extends s s' → supplied s' e' →
     file_uuid f ∈ exec_outs e' → exec_outs e ⊆ exec_outs e' → exec_stdin e' = exec_stdin e →
     exec_stdout e' = exec_stdout e → exec_stderr e' = exec_stderr e → P (f, e') s') →
  wp (exec_output p e) P E s.
Proof.
  intros Hb Hs HP. unfold exec_output, output. wp_steps. eapply wp_draw; [done|].
  intros u s' Hu Hs' He Hb' Hr _. wp_steps.
  destruct e as [d c a i o r inp out env cp lim]. destruct (out !! p) as [old|] eqn:Hp.
  - apply HP; try done; [by eapply supplied_extends|]. unfold exec_outs, execution_outputs. simpl.
    rewrite !elem_of_app, list_elem_of_fmap. right. right. exists old. split; [done|].
    apply (elem_of_values_iter (H := forward_order)). eauto.
  - set (file := File_new u _).
    set (e' := mkExecution d c a i o r inp (<[p := file]> out) env cp lim).
    assert (exec_outs e' ≡ₚ u :: exec_outs (mkExecution d c a i o r inp out env cp lim)) as Heq.
    { unfold exec_outs, execution_outputs, values_iter, map_iter. subst e'. simpl.
      rewrite (map_to_list_insert out p _ Hp). simpl. solve_Permutation. }
    apply HP; try done; [|by eapply supplied_extends|rewrite Heq; set_solver|
      intros x Hx; rewrite Heq; by apply list_elem_of_further].
    by rewrite Heq.
Qed.

(** *** The first state and the last one *)

(** Nothing is built yet: the graders have their identifiers. *)
Record unbuilt G s : Prop := {
  unbuilt_groups : execution_groups (data (eval_dag s)) = ∅;
  unbuilt_files : provided_files (data (eval_dag s)) = ∅;
  unbuilt_callbacks : callbacks (eval_dag s) = Some (mkDagCallbacks ∅ ∅ ∅);
  unbuilt_executables : executables s = ∅;
  unbuilt_graders : ∀ f, f ∈ G → drawn s f
}.

Lemma builds_start G s : unbuilt G s → builds G [] [] s.
Proof.
  intros [Hd Hf0 Hcb Hx HG].
  assert (∀ u, group_of s u = None) as Hg by (intros u; unfold group_of; by rewrite Hd, lookup_empty).
  assert (∀ f, ¬ provided s f) as Hp
    by (intros f [x Hf]; unfold provided in Hf; by rewrite Hf0, lookup_empty in Hf).
  assert (∀ f, ¬ produced s f) as Hr by (intros f (u & g & Hu & _); by rewrite Hg in Hu).
  split; try done.
  - exists (mkDagCallbacks ∅ ∅ ∅). split_and!; [done|..]; simpl; intros u []%lookup_empty_is_Some.
  - intros u. rewrite Hg. by intros [].
  - intros f [Hf|Hf]; [by destruct (Hp f)|by destruct (Hr f)].
  - constructor.
  - intros u []%elem_of_nil.
  - intros u []%elem_of_nil.
  - intros f Hf. split; [by apply HG|done].
  - intros u g Hu. by rewrite Hg in Hu.
  - intros u1 u2 g1 g2 f Hu. by rewrite Hg in Hu.
  - intros u. rewrite Hg. by intros [].
  - intros c f. by rewrite Hx, lookup_empty.
Qed.

(** The callbacks of a DAG as the client announces them. *)
Definition watch_of (d : ExecutionDAG CB) : ExecutionDAGWatchSet :=
  match callbacks d with
  | Some cb => mkWatch (dom (execution_callbacks cb)) (dom (file_callbacks cb)) (urgent_files cb)
  | None => mkWatch ∅ ∅ ∅
  end.

(** When nothing waits any more, the DAG is valid. *)
Lemma builds_valid G s : builds G [] [] s → dag_valid (data (eval_dag s)) (watch_of (eval_dag s)).
Proof.
  intros []. destruct b_watched0 as (cb & Hcb & Hq & Hr). unfold watch_of. rewrite Hcb. split.
  - intros u g Hu. by apply (b_groups0 u g Hu).
  - intros u g Hu. by apply (b_groups0 u g Hu).
  - intros u1 u2 g1 g2 H1 H2 Heq.
    by rewrite <-(fine_uuid _ _ (b_groups0 _ _ H1)), <-(fine_uuid _ _ (b_groups0 _ _ H2)).
  - intros u g Hu. by apply (b_groups0 u g Hu).
  - intros u1 u2 g1 g2 f H1 H2. by eapply b_disjoint0.
  - intros u g f Hu Ho. destruct (provided_files (data (eval_dag s)) !! f) eqn:Hf; [|done].
    destruct (b_provided0 f); [unfold provided; by rewrite Hf|]. by exists u, g.
  - done.
  - simpl. intros f Hf%elem_of_dom. destruct (Hr f Hf) as [[]%elem_of_nil|[|]]; [by left|by right].
  - simpl. intros e He%elem_of_dom. destruct (Hq e He) as [[]%elem_of_nil|[g Hg]].
    exists e, g. split; [done|]. by apply (b_groups0 e g Hg).
Qed.
End rules.

#[export] Hint Extern 1 (extends ?s ?s) => reflexivity : core.
