(* ===== verification/Languages.v ===== *)
(** * Languages ([task-maker-lang/src])

    The trait [Language] and its implementations ([language.rs], [languages/]), the
    search of the dependencies of a source file, the graders ([grader_map.rs]) and
    the builder of a compilation. *)
From S2P Require Import Prelude Paths StoreKey Dag Text Checks UiMessage Machine Build.

(** [Dependency] ([lib.rs]). *)
Record Dependency : Type := mkDependency {
  dep_file : File;
  local_path : PathBuf;
  dep_sandbox_path : PathBuf;
  dep_executable : bool
}.

(** ** The implementations of the trait [Language], with their configurations *)
Record LanguageConfiguration : Type := mkLanguageConfiguration {
  lang_compiler : ExecutionCommand;
  std_version : string;
  extra_flags : list string
}.
Inductive Language : Type :=
  | LanguageCpp (config : LanguageConfiguration)
  | LanguageC (config : LanguageConfiguration)
  | LanguagePython
  | LanguageShell
  | LanguagePascal
  | LanguageRust (rustup_home_path : option PathBuf)
  | LanguageCSharp
  | LanguageGo
  | LanguageJava
  | LanguageJS.

Definition system (command : string) : ExecutionCommand := System (path_of_string command).
Definition set_permissive (b : bool) (l : ExecutionLimits) : ExecutionLimits :=
  let '(mkLimits ct st wt m mp nf fs ml s ro tmp proc dirs _) := l in
  mkLimits ct st wt m mp nf fs ml s ro tmp proc dirs b.

(** The methods of the trait but for [compilation_builder] and
    [runtime_dependencies], with the ones that have a default. *)
Record LanguageImpl : Type := mkImpl {
  impl_name : string;
  impl_extensions : list string;
  impl_need_compilation : bool;
  impl_comment_prefix : option string;
  impl_runtime_command : PathBuf → option PathBuf → Outcome ExecutionCommand;
  impl_runtime_args : PathBuf → option PathBuf → list string → Outcome (list string);
  impl_custom_limits : ExecutionLimits → ExecutionLimits;
  impl_executable_name : PathBuf → option PathBuf → Outcome PathBuf
}.
Definition default_executable_name (path : PathBuf) (write_to : option PathBuf) : Outcome PathBuf :=
  match write_to with
  | Some w => n ← unwrap "Invalid file name" (path_file_name w); Ret [Normal n]
  | None => n ← unwrap "Invalid file name" (path_file_stem path); Ret [Normal n]
  end.
Definition default_runtime_command (path : PathBuf) (write_to : option PathBuf) : Outcome ExecutionCommand :=
  Local <$> default_executable_name path write_to.
Definition default_runtime_args (path : PathBuf) (write_to : option PathBuf) (args : list string) :
    Outcome (list string) := Ret args.
Definition runtime_add_file (l : Language) (args : list string) (file : PathBuf) : list string := args.

(** An implementation that overrides no method with a default. *)
Definition plain_impl (name : string) (exts : list string) : LanguageImpl :=
  mkImpl name exts true (Some "//") default_runtime_command default_runtime_args (λ limits, limits)
    default_executable_name.
Definition LanguageCpp_impl : LanguageImpl := plain_impl "C++" ["cpp"; "cc"; "c++"].
Definition LanguageC_impl : LanguageImpl := plain_impl "C" ["c"].
Definition LanguagePascal_impl : LanguageImpl := plain_impl "Pascal" ["pas"].
Definition LanguageRust_impl : LanguageImpl := plain_impl "Rust" ["rs"].
Definition LanguagePython_impl : LanguageImpl :=
  mkImpl "Python3" ["py"] false (Some "#")
    (λ _ _, Ret (system "python3"))
    (λ path write_to args, e ← default_executable_name path write_to; Ret (path_to_string e :: args))
    (λ limits, limits) default_executable_name.
(** The name of the executable keeps the extension. *)
Definition LanguageShell_impl : LanguageImpl :=
  let name (path : PathBuf) (write_to : option PathBuf) : Outcome PathBuf :=
    n ← unwrap "Invalid file name" (path_file_name path); Ret [Normal n] in
  mkImpl "Shell" ["sh"] false (Some "#") (λ path write_to, Local <$> name path write_to)
    default_runtime_args limits_allow_multiprocess name.
Definition LanguageCSharp_impl : LanguageImpl :=
  mkImpl "C#" ["cs"] true (Some "//")
    (λ _ _, Ret (system "mono"))
    (λ path write_to args, e ← default_executable_name path write_to; Ret (args ++ [path_to_string e]))
    (λ limits, limits_allow_multiprocess (set_mount_proc true
      (add_extra_readable_dir (path_of_string "/etc/mono") limits)))
    default_executable_name.
Definition LanguageGo_impl : LanguageImpl :=
  mkImpl "Go" ["go"] true (Some "//") default_runtime_command default_runtime_args (set_permissive true)
    default_executable_name.
Definition LanguageJava_impl : LanguageImpl :=
  mkImpl "Java" ["java"] true (Some "//")
    (λ _ _, Ret (system "java"))
    (λ path write_to args,
      e ← default_executable_name path write_to;
      Ret (["-Xmx512M"; "-Xss64M"; "-XX:+UseSerialGC"; "-Dfile.encoding=UTF-8"; "-jar";
            path_to_string e] ++ args))
    (λ limits, add_extra_readable_dir (path_of_string "/etc")
      (limits_allow_multiprocess (set_mount_proc true limits)))
    default_executable_name.
Definition LanguageJS_impl : LanguageImpl :=
  mkImpl "JavaScript" ["js"; "cjs"; "mjs"] false (Some "//")
    (λ _ _, Ret (system "node"))
    (λ path write_to args, e ← default_executable_name path write_to; Ret (args ++ [path_to_string e]))
    limits_allow_multiprocess default_executable_name.

Definition impl_of (l : Language) : LanguageImpl :=
  match l with
  | LanguageCpp _ => LanguageCpp_impl
  | LanguageC _ => LanguageC_impl
  | LanguagePython => LanguagePython_impl
  | LanguageShell => LanguageShell_impl
  | LanguagePascal => LanguagePascal_impl
  | LanguageRust _ => LanguageRust_impl
  | LanguageCSharp => LanguageCSharp_impl
  | LanguageGo => LanguageGo_impl
  | LanguageJava => LanguageJava_impl
  | LanguageJS => LanguageJS_impl
  end.
Definition lang_name (l : Language) : string := impl_name (impl_of l).
Definition extensions (l : Language) : list string := impl_extensions (impl_of l).
Definition need_compilation (l : Language) : bool := impl_need_compilation (impl_of l).
Definition inline_comment_prefix (l : Language) : option string := impl_comment_prefix (impl_of l).
Definition executable_name (l : Language) := impl_executable_name (impl_of l).
Definition runtime_command (l : Language) := impl_runtime_command (impl_of l).
Definition runtime_args (l : Language) := impl_runtime_args (impl_of l).
Definition custom_limits (l : Language) := impl_custom_limits (impl_of l).

(** *** Configurations from the environment *)
Section configuration.
Context `{Platform}.

Definition c_configuration (compiler_vars : list string) (compiler : string) (std_var std : string)
    (flag_vars : list string) (invalid : string) : Outcome LanguageConfiguration :=
  flags ← unwrap invalid (shell_words (default EmptyString (env_first flag_vars)));
  Ret (mkLanguageConfiguration (system (default compiler (env_first compiler_vars)))
         (default std (env_var std_var)) flags).
Definition LanguageCppConfiguration_from_env : Outcome LanguageConfiguration :=
  c_configuration ["TM_CXX"; "CXX"] "g++" "TM_CXX_STD_VERSION" "c++17" ["TM_CXXFLAGS"; "CXXFLAGS"]
    "Invalid $TM_CXXFLAGS".
Definition LanguageCConfiguration_from_env : Outcome LanguageConfiguration :=
  c_configuration ["TM_CC"; "CC"] "gcc" "TM_CC_STD_VERSION" "c11" ["TM_CFLAGS"; "CFLAGS"]
    "Invalid $TM_CFLAGS".
Definition LanguageRustConfiguration_from_env : option PathBuf :=
  path_of_string <$> env_first ["TM_RUSTUP_HOME"; "RUSTUP_HOME"].

(** ** [LanguageManager] *)
Definition LanguageManager_new : Outcome (list Language) :=
  cpp ← LanguageCppConfiguration_from_env;
  c ← LanguageCConfiguration_from_env;
  Ret [LanguageCpp cpp; LanguageC c; LanguagePython; LanguageShell; LanguagePascal;
       LanguageRust LanguageRustConfiguration_from_env; LanguageCSharp; LanguageGo; LanguageJava;
       LanguageJS].
End configuration.

(** [LANGUAGE_MANAGER_SINGL], after it was initialised. *)
Class LanguageManager `{Platform} : Type := {
  known_languages : list Language;
  known_languages_new : LanguageManager_new = Ret known_languages
}.

Section manager.
Context `{LanguageManager}.

(** The extension is compared in lowercase; no extension has a letter that is the
    lowercase of a character outside ASCII. *)
Definition detect_language (path : PathBuf) : option Language :=
  let ext := string_lower (default EmptyString (path_extension path)) in
  head (filter (λ l, ext ∈ extensions l) known_languages).
Definition from_name (name : string) : option Language :=
  head (filter (λ l, lang_name l = name) known_languages).
End manager.

(** ** Imports

    [captures_iter] gives the matches from left to right, each one after the end of
    the one before: [skip] counts the characters left of the last match. *)

(** The expression of [extract_includes]: [#include], spaces, an opening quote or
    bracket, the group (anything but a quote or a closing bracket), a quote or a
    closing bracket.  The results are the group and the length of the match. *)
Definition quote_char : char := 34%N.
Definition is_quote (c : char) : bool := ((c =? quote_char) || (c =? 62))%N.
Definition match_include (s : text) : option (text * nat) :=
  rest ← strip_prefix (text_of "#include") s;
  match skip_spaces rest with
  | c :: rest =>
      if ((c =? quote_char) || (c =? 60))%N then
        match take_while (λ c, negb (is_quote c)) rest, skip_while (λ c, negb (is_quote c)) rest with
        | (_ :: _) as name, _ :: after => Some (name, length s - length after)
        | _, _ => None
        end
      else None
  | [] => None
  end.

(** The expression [import +(.+)|from +(.+) +import]: the group 1 or the group 2. *)
Definition is_space (c : char) : bool := (c =? 32)%N.
Definition line_of (s : text) : text := take_while (λ c, negb (c =? newline)%N) s.
Definition match_import (s : text) : option (text * nat) :=
  rest ← strip_prefix (text_of "import") s;
  let spaces := take_while is_space rest in
  let line := line_of (skip_while is_space rest) in
  match spaces, line with
  | [], _ => None
  | _ :: _, _ :: _ => Some (line, 6 + length spaces + length line)
  | [_], [] => None
  | _ :: _ :: _, [] => Some ([32%N], 6 + length spaces)
  end.
(** The group is as long as possible: it ends before the last [import] of the line
    with a space before it.  It can be one of the spaces after [from]. *)
Definition match_from (s : text) : option (text * nat) :=
  rest ← strip_prefix (text_of "from") s;
  let spaces := take_while is_space rest in
  let line := line_of (skip_while is_space rest) in
  match spaces with
  | [] => None
  | _ =>
      match find_last (text_of " import") line with
      | Some (name, _) => Some (name, 4 + length spaces + length name + 7)
      | None =>
          match strip_prefix (text_of "import") line with
          | Some _ => if 3 <=? length spaces then Some ([32%N], 4 + length spaces + 6) else None
          | None => None
          end
      end
  end.

Section captures.
Context {A : Type} (m : text → option (A * nat)).
Fixpoint captures_iter (skip : nat) (s : text) : list A :=
  match s with
  | [] => []
  | _ :: s' =>
      match skip with
      | S skip => captures_iter skip s'
      | O =>
          match m s with
          | Some (a, len) => a :: captures_iter (len - 1) s'
          | None => captures_iter 0 s'
          end
      end
  end.
End captures.

Definition includes (content : text) : list PathBuf :=
  path_of_text <$> captures_iter match_include 0 content.

Definition py_path (piece : text) : PathBuf := path_of_text (trim piece ++ text_of ".py").
Definition match_python (s : text) : option (list text * nat) :=
  match match_import s with
  | Some (group, len) => Some (split_text 44%N group, len)
  | None => match match_from s with Some (group, len) => Some ([group], len) | None => None end
  end.
Definition imports (content : text) : list PathBuf :=
  py_path <$> concat (captures_iter match_python 0 content).

Example includes_ex :
  includes (text_of "blabla #include<iostream>
#include ") = [path_of_string "iostream"].
Proof. vm_compute. reflexivity. Qed.
Example imports_ex :
  imports (text_of "import a, b
from c  import d, import
xfrom   import
import  ") =
  path_of_string <$> ["a.py"; "b.py"; "c  import d,.py"; ".py"; ".py"].
Proof. vm_compute. reflexivity. Qed.

(** ** [find_dependencies] ([languages/mod.rs]) *)
Record Search : Type := mkSearch {
  found : list Dependency;
  result_files : gset PathBuf;
  pending_files : list PathBuf;
  done_files : gset PathBuf
}.

(** Every name that some file of the machine imports. *)
Definition import_names `{LocalFiles} (names : text → list PathBuf) : gset PathBuf :=
  list_to_set ((map_to_list nodes).*2 ≫= λ n,
    match n with RegularFile c => default [] (names <$> from_utf8 c) | _ => [] end).

Section dependencies.
Context {CB : Type} `{UuidV4} `{LocalFiles}.
Abbreviation Eval := (M (EvaluationData CB)).

Section search.
Context (extract_imports : PathBuf → list (PathBuf * PathBuf)) (base : PathBuf) (filename : string).

(** The body of the inner loop. *)
Definition visit_import (im : PathBuf * PathBuf) (a : Search) : Eval Search :=
  let local := path_join base im.1 in
  if path_exists local && bool_decide (local ∉ done_files a)
     && bool_decide (im.2 ∉ result_files a) then
    file ← new_file ("Dependency " +:+ debug_path im.2 +:+ " at " +:+ debug_path local +:+ " of "
                       +:+ quote +:+ filename +:+ quote);
    mret (mkSearch (found a ++ [mkDependency file local im.2 false]) ({[im.2]} ∪ result_files a)
            (pending_files a ++ [local]) (done_files a))
  else mret a.
Fixpoint visit_imports (l : list (PathBuf * PathBuf)) (a : Search) : Eval Search :=
  match l with
  | [] => mret a
  | im :: l => a ← visit_import im a; visit_imports l a
  end.
Fixpoint search_loop (fuel : nat) (a : Search) : Eval (list Dependency) :=
  match fuel with
  | O => out_of_fuel
  | S fuel =>
      match pending_files a with
      | [] => mret (found a)
      | path :: pending =>
          a ← visit_imports (extract_imports path)
                (mkSearch (found a) (result_files a) pending ({[path]} ∪ done_files a));
          search_loop fuel a
      end
  end.
End search.

Definition find_dependencies (fuel : nat) (extract_imports : PathBuf → list (PathBuf * PathBuf))
    (path : PathBuf) : Eval (list Dependency) :=
  base ← lift (unwrap "Invalid path" (path_parent path));
  filename ← lift (unwrap "Invalid path" (path_file_name path));
  search_loop extract_imports base filename fuel (mkSearch [] ∅ [path] ∅).

(** [languages/cpp.rs] and [languages/python.rs]. *)
Definition extract_includes (path : PathBuf) : list (PathBuf * PathBuf) :=
  match read_to_string path with
  | None => []
  | Some content => (λ include, (with_file_name path include, include)) <$> includes content
  end.
Definition find_cpp_deps (path : PathBuf) : Eval (list Dependency) :=
  find_dependencies (S (S (size (import_names includes)))) extract_includes path.
Definition extract_imports (path : PathBuf) : list (PathBuf * PathBuf) :=
  match read_to_string path with
  | None => []
  | Some content => (λ p, (p, p)) <$> imports content
  end.
Definition find_python_deps (path : PathBuf) : Eval (list Dependency) :=
  find_dependencies (S (S (size (import_names imports)))) extract_imports path.

(** [Language::runtime_dependencies]. *)
Definition runtime_dependencies (l : Language) (path : PathBuf) : Eval (list Dependency) :=
  match l with LanguagePython => find_python_deps path | _ => mret [] end.

(** [find_fpc_cfg] ([languages/pascal.rs]). *)
Definition if_exists (p : PathBuf) : option PathBuf := if path_exists p then Some p else None.
Definition find_fpc_cfg `{Platform} : option PathBuf :=
  let home := p ← env_var "HOME"; if_exists (path_join (path_of_string p) (path_of_string ".fpc.cfg")) in
  let config := p ← env_var "PPC_CONFIG_PATH";
                if_exists (path_join (path_of_string p) (path_of_string "fpc.cfg")) in
  let fpc := p ← which "fpc"; p ← path_parent p; p ← path_parent p;
             if_exists (path_join p (path_of_string "etc/fpc.cfg")) in
  match home, config, fpc with
  | Some p, _, _ | None, Some p, _ | None, None, Some p => Some p
  | None, None, None => if_exists (path_of_string "/etc/fpc.cfg")
  end.
End dependencies.

(** ** Graders ([grader_map.rs]) *)
Record GraderMap : Type := mkGraderMap { graders : gmap string Dependency }.

Section graders.
Context {CB : Type} `{UuidV4} `{LanguageManager}.

(** The body of the loop of [new]. *)
Definition add_grader (map : GraderMap) (grader : PathBuf) : M (EvaluationData CB) GraderMap :=
  match detect_language grader with
  | None => mret map
  | Some lang =>
      file ← new_file ("Grader for " +:+ lang_name lang);
      name ← lift (unwrap "Invalid file name" (path_file_name grader));
      mret (mkGraderMap (<[lang_name lang := mkDependency file grader [Normal name] false]>
              (graders map)))
  end.
Fixpoint add_graders (map : GraderMap) (l : list PathBuf) : M (EvaluationData CB) GraderMap :=
  match l with
  | [] => mret map
  | g :: l => map ← add_grader map g; add_graders map l
  end.
Definition GraderMap_new (l : list PathBuf) : M (EvaluationData CB) GraderMap :=
  add_graders (mkGraderMap ∅) l.
End graders.

Definition get_compilation_deps (map : GraderMap) (lang : Language) : option Dependency :=
  if negb (need_compilation lang) then None else graders map !! lang_name lang.
Definition get_runtime_deps (map : GraderMap) (lang : Language) : list Dependency :=
  if need_compilation lang then [] else option_list (graders map !! lang_name lang).
Definition all_paths `{IterOrder} (map : GraderMap) : list PathBuf :=
  local_path <$> values_iter (graders map).

(** ** Compilations ([language.rs]) *)
Record CompilationSettings : Type := mkSettings {
  settings_write_to : option PathBuf;
  settings_copy_exe : bool;
  list_static : bool
}.

Record SimpleCompiledLanguageBuilder : Type := mkBuilder {
  builder_language : Language;
  settings : CompilationSettings;
  source_path : PathBuf;
  source_name : string;
  binary_name : string;
  compiler : ExecutionCommand;
  builder_args : list string;
  grader : option Dependency;
  builder_dependencies : list Dependency;
  grader_only : bool;
  builder_callback : option (Execution → Execution)
}.

Definition builder_new (language : Language) (path : PathBuf) (settings : CompilationSettings)
    (compiler : ExecutionCommand) : Outcome SimpleCompiledLanguageBuilder :=
  name ← unwrap "Invalid file name" (path_file_name path);
  let name := if String.prefix "-" name then "./" +:+ name else name in
  Ret (mkBuilder language settings path name "__compiled" compiler [] None [] false None).
Definition add_args (l : list string) (b : SimpleCompiledLanguageBuilder) :
    SimpleCompiledLanguageBuilder :=
  let '(mkBuilder lg st sp sn bn c a g d o cb) := b in mkBuilder lg st sp sn bn c (a ++ l) g d o cb.
Definition builder_add_dependencies (l : list Dependency) (b : SimpleCompiledLanguageBuilder) :
    SimpleCompiledLanguageBuilder :=
  let '(mkBuilder lg st sp sn bn c a g d o cb) := b in mkBuilder lg st sp sn bn c a g (d ++ l) o cb.
Definition set_grader_only (b : SimpleCompiledLanguageBuilder) : SimpleCompiledLanguageBuilder :=
  let '(mkBuilder lg st sp sn bn c a g d _ cb) := b in mkBuilder lg st sp sn bn c a g d true cb.
Definition set_source_name (n : string) (b : SimpleCompiledLanguageBuilder) :
    SimpleCompiledLanguageBuilder :=
  let '(mkBuilder lg st sp _ bn c a g d o cb) := b in mkBuilder lg st sp n bn c a g d o cb.
Definition set_callback (h : Execution → Execution) (b : SimpleCompiledLanguageBuilder) :
    SimpleCompiledLanguageBuilder :=
  let '(mkBuilder lg st sp sn bn c a g d o _) := b in mkBuilder lg st sp sn bn c a g d o (Some h).
Definition use_grader (map : GraderMap) (b : SimpleCompiledLanguageBuilder) :
    SimpleCompiledLanguageBuilder :=
  match get_compilation_deps map (builder_language b) with
  | Some dep =>
      let '(mkBuilder lg st sp sn bn c a _ d o cb) := b in mkBuilder lg st sp sn bn c a (Some dep) d o cb
  | None => b
  end.

(** What a dependency adds to an execution. *)
Definition input_dep (dep : Dependency) : Execution → Execution :=
  input (file_uuid (dep_file dep)) (dep_sandbox_path dep) (dep_executable dep).

Section compilation.
Context {CB : Type} `{UuidV4} `{LocalFiles} `{Platform} `{Blake3}.
Abbreviation Eval := (M (EvaluationData CB)).

Definition c_builder (l : Language) (conf : LanguageConfiguration) (libs : list string)
    (source : PathBuf) (settings : CompilationSettings) : Eval (option SimpleCompiledLanguageBuilder) :=
  b ← lift (builder_new l source settings (lang_compiler conf));
  let b := add_args (["-O2"; "-Wall"; "-ggdb3"; "-DEVAL"; "-fdiagnostics-color=always";
    "-std=" +:+ std_version conf; "-o"; binary_name b] ++ libs) b in
  let b := add_args (extra_flags conf) b in
  let b := if list_static settings then add_args ["-static"] b else b in
  deps ← find_cpp_deps source;
  mret (Some (builder_add_dependencies deps b)).

Definition pascal_builder (source : PathBuf) (settings : CompilationSettings) :
    Eval (option SimpleCompiledLanguageBuilder) :=
  b ← lift (builder_new LanguagePascal source settings (system "fpc"));
  let b := add_args ["-dEVAL"; "-Fe/dev/stderr"; "-O2"; "-XS"; "-o" +:+ binary_name b] b in
  match find_fpc_cfg with
  | Some fpc_cfg =>
      file ← new_file "fpc configuration";
      mret (Some (builder_add_dependencies
        [mkDependency file fpc_cfg (path_of_string "fpc.cfg") false] b))
  | None => mret (Some b)
  end.

Definition rust_callback (rustup_home_path : option PathBuf) (comp : Execution) : Execution :=
  match rustup_home_path with
  | Some home =>
      limits_mut (add_extra_readable_dir home) (set_env "RUSTUP_HOME" (path_to_string home) comp)
  | None => comp
  end.
Definition rust_builder (rustup_home_path : option PathBuf) (source : PathBuf)
    (settings : CompilationSettings) : Eval (option SimpleCompiledLanguageBuilder) :=
  b ← lift (builder_new (LanguageRust rustup_home_path) source settings (system "rustc"));
  let b := set_source_name "source.rs" (set_grader_only b) in
  let b := add_args ["-O"; "--cfg"; "EVAL"; "-o"; binary_name b] b in
  let b := if list_static settings
           then add_args ["--target"; "x86_64-unknown-linux-musl"] b else b in
  mret (Some (set_callback (rust_callback rustup_home_path) b)).

Definition csharp_builder (source : PathBuf) (settings : CompilationSettings) :
    Eval (option SimpleCompiledLanguageBuilder) :=
  b ← lift (builder_new LanguageCSharp source settings (system "csc"));
  let b := add_args ["-define:EVAL"; "-optimize+"; "-out:" +:+ binary_name b] b in
  mret (Some (set_callback (limits_mut (add_extra_readable_dir (path_of_string "/etc/mono"))) b)).

Definition go_callback (comp : Execution) : Execution :=
  let comp := set_env "CGO_ENABLED" "0" (set_env "GO111MODULE" "off" (set_env "GOCACHE" "/tmp" comp)) in
  if decide (target_os = "linux") then
    if decide (arch = "x86_64") then set_env "GOARCH" "386" comp
    else if decide (arch = "aarch64") then set_env "GOARCH" "arm" comp
    else comp
  else comp.
Definition go_builder (source : PathBuf) (settings : CompilationSettings) :
    Eval (option SimpleCompiledLanguageBuilder) :=
  b ← lift (builder_new LanguageGo source settings (system "go"));
  mret (Some (set_callback go_callback (add_args ["build"; "-o"; binary_name b] b))).

Definition java_builder (source : PathBuf) (settings : CompilationSettings) :
    Eval (option SimpleCompiledLanguageBuilder) :=
  b ← lift (builder_new LanguageJava source settings (system "sh"));
  main_class ← lift (unwrap "Invalid file name" (path_file_stem source));
  mret (Some (set_grader_only (add_args ["-c";
    "javac -encoding UTF-8 -d . *.java && jar cfe " +:+ binary_name b +:+ " " +:+ main_class
      +:+ " *.class"] b))).

(** [Language::compilation_builder]. *)
Definition compilation_builder (l : Language) (source : PathBuf) (settings : CompilationSettings) :
    Eval (option SimpleCompiledLanguageBuilder) :=
  match l with
  | LanguageCpp conf => c_builder l conf [] source settings
  | LanguageC conf => c_builder l conf ["-lm"] source settings
  | LanguagePascal => pascal_builder source settings
  | LanguageRust home => rust_builder home source settings
  | LanguageCSharp => csharp_builder source settings
  | LanguageGo => go_builder source settings
  | LanguageJava => java_builder source settings
  | LanguagePython | LanguageShell | LanguageJS => mret None
  end.

Definition provide_dep (ctx : string) (dep : Dependency) : Eval unit :=
  with_context ctx (on_dag (provide_file (dep_file dep) (local_path dep) (from_file (local_path dep)))).

(** The loop over the dependencies, also those of [SourceFile::execute]. *)
Fixpoint add_deps (ctx : string) (deps : list Dependency) (e : Execution) : Eval Execution :=
  match deps with
  | [] => mret e
  | dep :: deps => _ ← provide_dep ctx dep; add_deps ctx deps (input_dep dep e)
  end.

Definition push_args (l : list string) (e : Execution) : Execution := set_args (exec_args e ++ l) e.

(** [SimpleCompiledLanguageBuilder::finalize], which is called once: the fields it
    takes out of the builder are not put back. *)
Definition finalize (b : SimpleCompiledLanguageBuilder) : Eval (ExecutionGroup * File) :=
  name ← lift (unwrap "called `Option::unwrap()` on a `None` value" (path_file_name (source_path b)));
  let comp := set_args (builder_args b) (Execution_new ("Compilation of " +:+ name) (compiler b)) in
  comp ← add_deps "Failed to provide compilation dependency" (builder_dependencies b) comp;
  source ← new_file ("Source file of " +:+ debug_path (source_path b));
  let comp := input (file_uuid source) (path_of_string (source_name b)) false comp in
  _ ← with_context "Failed to provide source file"
        (on_dag (provide_file source (source_path b) (from_file (source_path b))));
  comp ← match grader b with
         | Some dep =>
             let comp := input_dep dep (push_args [path_to_string (dep_sandbox_path dep)] comp) in
             _ ← provide_dep "Failed to provide grader dependency" dep;
             mret (if grader_only b then comp else push_args [source_name b] comp)
         | None => mret (push_args [source_name b] comp)
         end;
  '(exec, comp) ← exec_output (path_of_string (binary_name b)) comp;
  _ ← match settings_copy_exe (settings b), settings_write_to (settings b) with
      | true, Some write_to => on_dag (write_file_to (file_uuid exec) write_to true)
      | _, _ => mret tt
      end;
  let comp := match builder_callback b with Some callback => callback comp | None => comp end in
  group ← exec_into_group comp;
  mret (group, exec).
End compilation.
