(* ===== verification/SourceFile.v ===== *)
(** * Source files ([task-maker-lang/src/source_file.rs])

    A source file is executed through its executable: the file itself, or the output
    of a compilation that is added to the DAG the first time it is needed.  The cell
    that holds the handle is shared by the clones of the source file. *)
From S2P Require Import Prelude Paths StoreKey Dag Text Checks UiMessage Machine Build Languages.

Definition COMPILATION_CONTENT_LENGTH : N := (10 * 1024)%N.
Definition COMPILATION_PRIORITY : Priority := 1000000000%Z.

Record SourceFile : Type := mkSourceFile {
  sf_path : PathBuf;
  base_path : PathBuf;
  sf_language : Language;
  executable_cell : N;
  grader_map : option GraderMap;
  sf_copy_exe : bool;
  write_bin_to : option PathBuf;
  link_static : bool
}.

Section source_file.
Context {CB : Type} `{UuidV4} `{LocalFiles} `{Blake3} `{LanguageManager}.
Abbreviation Eval := (M (EvaluationData CB)).

Definition SourceFile_new (path base : PathBuf) (grader_map : option GraderMap)
    (write_bin_to : option PathBuf) : Eval (option SourceFile) :=
  match detect_language path with
  | None => mret None
  | Some lang =>
      cell ← new_cell;
      mret (Some (mkSourceFile path base lang cell grader_map false write_bin_to false))
  end.

Definition set_copy_exe (sf : SourceFile) : SourceFile :=
  let '(mkSourceFile p b l c g _ w s) := sf in mkSourceFile p b l c g true w s.
Definition set_link_static (sf : SourceFile) : SourceFile :=
  let '(mkSourceFile p b l c g x w s) := sf in
  mkSourceFile p b l c g x w (if decide (target_os = "macos") then s else true).

Definition sf_name (sf : SourceFile) : Outcome string :=
  unwrap "Invalid file name" (path_file_name (sf_path sf)).
Definition relative_path (sf : SourceFile) : PathBuf :=
  default (sf_path sf) (path_strip_prefix (base_path sf) (sf_path sf)).

(** The changes of [prepare] to the execution of a compilation. *)
Definition compilation_limits (l : Language) : Execution → Execution :=
  limits_mut (λ lim, custom_limits l (set_mount_proc true (set_mount_tmpfs true
    (set_read_only false (limits_allow_multiprocess lim))))).
Definition tune_execution (l : Language) (e : Execution) : Eval Execution :=
  let e := compilation_limits l e in
  '(_, e) ← exec_capture_stdout (Some COMPILATION_CONTENT_LENGTH) e;
  '(_, e) ← exec_capture_stderr (Some COMPILATION_CONTENT_LENGTH) e;
  mret e.
Fixpoint tune_executions (l : Language) (es : list Execution) : Eval (list Execution) :=
  match es with
  | [] => mret []
  | e :: es => e ← tune_execution l e; es ← tune_executions l es; mret (e :: es)
  end.
Definition set_group (es : list Execution) (t : option ExecutionTag) (p : Priority)
    (g : ExecutionGroup) : ExecutionGroup :=
  let '(mkGroup u d _ fs c _ _ cs) := g in mkGroup u d es fs c t p cs.

Definition read_executable (sf : SourceFile) : Eval (option File) :=
  gets (λ s, executables s !! executable_cell sf).

Definition prepare_compiled (sf : SourceFile) (metadata : SimpleCompiledLanguageBuilder) :
    Eval (option ExecutionGroupUuid) :=
  let metadata := match grader_map sf with
                  | Some map => use_grader map metadata
                  | None => metadata
                  end in
  '(comp, exec) ← finalize metadata;
  es ← tune_executions (sf_language sf) (executions comp);
  let comp := set_group es (Some (mkTag "compilation")) COMPILATION_PRIORITY comp in
  _ ← on_dag (λ d, Ret (add_execution_group comp d).2);
  _ ← modify (with_executable (executable_cell sf) exec);
  mret (Some (group_uuid comp)).

Definition prepare_interpreted (sf : SourceFile) (copy : bool) : Eval (option ExecutionGroupUuid) :=
  executable ← new_file ("Source file of " +:+ debug_path (sf_path sf));
  _ ← match copy, write_bin_to sf with
      | true, Some w => on_dag (write_file_to (file_uuid executable) w true)
      | _, _ => mret tt
      end;
  _ ← modify (with_executable (executable_cell sf) executable);
  _ ← with_context "Failed to provide executable"
        (on_dag (provide_file executable (sf_path sf) (from_file (sf_path sf))));
  mret None.

Definition prepare (sf : SourceFile) : Eval (option ExecutionGroupUuid) :=
  executable ← read_executable sf;
  match executable with
  | Some _ => mret None
  | None =>
      s ← get_st;
      let copy := copy_exe (config (data (eval_dag s))) || sf_copy_exe sf in
      metadata ← compilation_builder (sf_language sf) (sf_path sf)
        (mkSettings (write_bin_to sf) copy (link_static sf));
      match metadata with
      | Some metadata => prepare_compiled sf metadata
      | None => prepare_interpreted sf copy
      end
  end.

(** The loop of [execute] over the arguments. *)
Fixpoint add_arg_files (sf : SourceFile) (args : list string) (e : Execution) : Eval Execution :=
  match args with
  | [] => mret e
  | arg :: args =>
      let path := path_join (base_path sf) (path_of_string arg) in
      if path_exists path then
        file ← new_file ("Command line dependency " +:+ debug_path path +:+ " of "
                           +:+ debug_path (sf_path sf));
        let e := input (file_uuid file) (path_of_string arg) false e in
        _ ← with_context "Failed to provide input file from arg"
              (on_dag (provide_file file path (from_file path)));
        add_arg_files sf args e
      else add_arg_files sf args e
  end.

(** The loop of [execute] over the graders. *)
Fixpoint add_runtime_deps (l : Language) (deps : list Dependency) (e : Execution) : Eval Execution :=
  match deps with
  | [] => mret e
  | dep :: deps =>
      let e := input_dep dep e in
      let e := set_args (runtime_add_file l (exec_args e) (dep_sandbox_path dep)) e in
      _ ← provide_dep "Failed to provide grader dependency" dep;
      add_runtime_deps l deps e
  end.

Definition the_executable (sf : SourceFile) : Eval File :=
  f ← read_executable sf;
  lift (unwrap "called `Option::unwrap()` on a `None` value" f).

Definition execute (sf : SourceFile) (description : string) (args : list string) :
    Eval (option ExecutionGroupUuid * Execution) :=
  comp ← with_context "Failed to prepare source file" (prepare sf);
  command ← lift (runtime_command (sf_language sf) (sf_path sf) (write_bin_to sf));
  exec ← add_arg_files sf args (Execution_new description command);
  args ← lift (runtime_args (sf_language sf) (sf_path sf) (write_bin_to sf) args);
  let exec := set_args args exec in
  executable ← the_executable sf;
  name ← lift (executable_name (sf_language sf) (sf_path sf) (write_bin_to sf));
  let exec := input (file_uuid executable) name true exec in
  deps ← runtime_dependencies (sf_language sf) (sf_path sf);
  exec ← add_deps "Failed to provide dependency" deps exec;
  exec ← match grader_map sf with
         | Some map => add_runtime_deps (sf_language sf) (get_runtime_deps map (sf_language sf)) exec
         | None => mret exec
         end;
  let exec := limits_mut (custom_limits (sf_language sf)) exec in
  mret (comp, copy_env "LC_ALL" (copy_env "LANG" exec)).

Definition executable (sf : SourceFile) : Eval (FileUuid * option ExecutionGroupUuid) :=
  comp ← with_context "Failed to prepare source file" (prepare sf);
  f ← the_executable sf;
  mret (file_uuid f, comp).
End source_file.
