(* ===== verification/SourceFileCorrect.v ===== *)
(** * Source files: what they add to a DAG

    The search of the dependencies ends and finds every import once; preparing and
    executing a source file keep the invariant of the builders ([Build]), so that
    the inputs of the execution returned are in the DAG. *)
From S2P Require Import Prelude Paths StoreKey Dag CheckDag Text Checks UiMessage Machine Build.
From S2P Require Import Languages SourceFile.

Definition dep_uuids (l : list Dependency) : list FileUuid := (λ d, file_uuid (dep_file d)) <$> l.

Lemma size_difference_one `{Countable A} (X Y : gset A) x :
  x ∈ X → x ∉ Y → size (X ∖ Y) = S (size (X ∖ ({[x]} ∪ Y))).
Proof.
  intros Hx Hy. rewrite <-(Nat.add_1_l (size _)), <-(size_singleton (C := gset A) x).
  rewrite <-size_union by set_solver.
  apply set_size_proper. intros y. destruct (decide (y = x)); set_solver.
Qed.

(** ** The search of the dependencies *)
Section search.
Context {CB : Type} `{UuidV4} `{LocalFiles}.
Context (imports_of : PathBuf → list (PathBuf * PathBuf)) (names : gset PathBuf).
Context (names_all : ∀ p im, im ∈ imports_of p → im.2 ∈ names).
Context (path base : PathBuf) (filename : string).
Implicit Types (s : EvaluationData CB) (a : Search).

(** The files that were read or will be: the source and what was found. *)
Definition reached a (p : PathBuf) : Prop := p = path ∨ p ∈ local_path <$> found a.

Record search_ok a : Prop := {
  so_files : ∀ sb, sb ∈ result_files a ↔ sb ∈ dep_sandbox_path <$> found a;
  so_nodup : NoDup (dep_sandbox_path <$> found a);
  so_names : result_files a ⊆ names;
  so_reached : ∀ p, p ∈ done_files a ∨ p ∈ pending_files a ↔ reached a p;
  so_origin : ∀ d, d ∈ found a → path_exists (local_path d) = true ∧
    ∃ p l, reached a p ∧ (l, dep_sandbox_path d) ∈ imports_of p ∧ local_path d = path_join base l
}.

(** The imports of a list are found, or they are files already read. *)
Definition covered a (l : list (PathBuf * PathBuf)) : Prop :=
  ∀ im, im ∈ l → path_exists (path_join base im.1) = true →
    im.2 ∈ result_files a ∨ path_join base im.1 ∈ done_files a.

(** What a search gives in the end. *)
Record search_result (deps : list Dependency) : Prop := {
  sr_once : NoDup (dep_sandbox_path <$> deps);
  sr_origin : ∀ d, d ∈ deps → path_exists (local_path d) = true ∧
    ∃ p l, (p = path ∨ p ∈ local_path <$> deps) ∧ (l, dep_sandbox_path d) ∈ imports_of p ∧
      local_path d = path_join base l;
  sr_closed : ∀ p im, p = path ∨ p ∈ local_path <$> deps → im ∈ imports_of p →
    path_exists (path_join base im.1) = true →
    im.2 ∈ dep_sandbox_path <$> deps ∨
    path_join base im.1 = path ∨ path_join base im.1 ∈ local_path <$> deps
}.

(** The steps left: what waits and the names that can still be found. *)
Definition search_left a : nat := length (pending_files a) + size (names ∖ result_files a).

Record grown a a' : Prop := {
  gr_files : result_files a ⊆ result_files a';
  gr_done : done_files a' = done_files a;
  gr_left : search_left a' = search_left a
}.
#[local] Instance grown_preorder : PreOrder grown.
Proof.
  split; [by split|]. intros a1 a2 a3 [] []. split; [by etrans|congruence..].
Qed.

Lemma covered_grown a a' l : grown a a' → covered a l → covered a' l.
Proof. intros [Hf Hd _] Hc im Him Hx. rewrite Hd. destruct (Hc im Him Hx); [left; set_solver|auto]. Qed.

Section visit.
(** What holds of the state and of the identifiers of the files found. *)
Context (I : list Uuid → EvaluationData CB → Prop).
Context (I_draw : ∀ l s, I l s → I (l ++ [nth_uuid (uuids_drawn s)]) (after_draw s)).

Definition search_state a s : Prop := search_ok a ∧ I (dep_uuids (found a)) s.

Lemma visit_import_spec im from a s :
  search_state a s → im ∈ imports_of from → from ∈ done_files a →
  wp (visit_import base filename im a)
    (λ a' s', search_state a' s' ∧ extends s s' ∧ grown a a' ∧ covered a' [im]) no_error s.
Proof.
  intros [Ha Hb] Him Hfrom. unfold visit_import, new_file.
  set (local := path_join base im.1).
  destruct (path_exists local) eqn:Hx; simpl.
  2: { wp_steps. split_and!; [done..|]. intros im' ->%list_elem_of_singleton He. unfold local in Hx. congruence. }
  case_bool_decide as Hd; simpl.
  2: { wp_steps. split_and!; [done..|]. intros im' ->%list_elem_of_singleton He. by right. }
  case_bool_decide as Hr; simpl.
  2: { wp_steps. split_and!; [done..|]. intros im' ->%list_elem_of_singleton He. by left. }
  unfold draw. wp_steps. pose proof (draw_extends s) as He.
  pose proof (names_all _ _ Him) as Hn. destruct Ha.
  assert (reached a from) as Hrf by (apply so_reached0; auto).
  split_and!; [split; [split|]|done|split|]; simpl.
  - intros sb. rewrite fmap_app, elem_of_union, elem_of_app, <-so_files0. set_solver.
  - rewrite fmap_app. apply NoDup_app. split_and!; [done| |apply NoDup_singleton].
    intros sb Hsb. simpl. rewrite <-so_files0 in Hsb. set_solver.
  - set_solver.
  - intros p. unfold reached. simpl. rewrite fmap_app, !elem_of_app. simpl.
    rewrite !list_elem_of_singleton. specialize (so_reached0 p). unfold reached in so_reached0. tauto.
  - intros d [Hin|Hin]%elem_of_app.
    + destruct (so_origin0 d Hin) as (? & p & l & Hp & ?). split; [done|]. exists p, l.
      split; [|done]. unfold reached in *. simpl. rewrite fmap_app, elem_of_app. tauto.
    + apply list_elem_of_singleton in Hin as ->. simpl. split; [done|]. exists from, im.1.
      split_and!; [|by destruct im|done]. unfold reached in *. simpl. rewrite fmap_app, elem_of_app. tauto.
  - unfold dep_uuids. rewrite fmap_app. simpl. by apply I_draw.
  - set_solver.
  - done.
  - unfold search_left. simpl. rewrite length_app. simpl.
    rewrite (size_difference_one names (result_files a) im.2) by done. lia.
  - intros im' ->%list_elem_of_singleton _. left. simpl. set_solver.
Qed.

Lemma visit_imports_spec from l a s :
  search_state a s → (∀ im, im ∈ l → im ∈ imports_of from) → from ∈ done_files a →
  wp (visit_imports base filename l a)
    (λ a' s', search_state a' s' ∧ extends s s' ∧ grown a a' ∧ covered a' l) no_error s.
Proof.
  revert a s. induction l as [|im l IH]; intros a s Ha Hl Hfrom; simpl.
  { wp_steps. split_and!; [done..|]. by intros im []%elem_of_nil. }
  wp_steps. eapply wp_mono; [eapply visit_import_spec; [done|apply Hl; set_solver|done]| |done].
  intros a1 s1 (Ha1 & He1 & Hg1 & Hc1).
  eapply wp_mono; [apply IH; [done|set_solver|by rewrite (gr_done _ _ Hg1)]| |done].
  intros a2 s2 (Ha2 & He2 & Hg2 & Hc2). split_and!; [done|by etrans|by etrans|].
  apply (covered_grown _ _ _ Hg2) in Hc1. intros im' [->|]%elem_of_cons; [apply Hc1; set_solver|by apply Hc2].
Qed.

Lemma search_loop_spec fuel a s :
  search_state a s → (∀ p, p ∈ done_files a → covered a (imports_of p)) → search_left a < fuel →
  wp (search_loop imports_of base filename fuel a)
    (λ deps s', search_result deps ∧ I (dep_uuids deps) s' ∧ extends s s') no_error s.
Proof.
  revert a s. induction fuel as [|fuel IH]; intros a s [Ha Hb] Hc Hf; [lia|]. simpl.
  destruct (pending_files a) as [|p pending] eqn:Hp.
  { wp_steps. split_and!; [|done..]. destruct Ha. split; [done|done|].
    intros p im Hr Him Hx. apply so_reached0 in Hr as [Hr|Hr]; [|by rewrite Hp in Hr; apply elem_of_nil in Hr].
    destruct (Hc p Hr im Him Hx) as [Hin|Hin]; [left; by apply so_files0|right].
    by apply so_reached0; left. }
  wp_steps. eapply wp_mono; [apply (visit_imports_spec p)| |done].
  - split; [|done]. destruct Ha. split; try done. simpl. intros x.
    unfold reached in *. simpl. rewrite <-so_reached0, Hp. set_solver.
  - done.
  - simpl. set_solver.
  - intros a1 s1 ([Ha1 Hb1] & He1 & Hg1 & Hc1).
    eapply wp_mono; [apply IH; [done| |]| |done].
    + intros x Hx. rewrite (gr_done _ _ Hg1) in Hx. simpl in Hx.
      apply elem_of_union in Hx as [->%elem_of_singleton|Hx]; [done|].
      eapply covered_grown; [done|]. intros im Him Hex. simpl.
      destruct (Hc x Hx im Him Hex); [by left|right; set_solver].
    + rewrite (gr_left _ _ Hg1). unfold search_left in *. simpl. rewrite Hp in Hf. simpl in Hf. lia.
    + intros deps s2 (Hr & Hb2 & He2). split_and!; [done|done|by etrans].
Qed.
End visit.
End search.

Lemma path_file_name_parent p n : path_file_name p = Some n → ∃ b, path_parent p = Some b.
Proof.
  unfold path_file_name. destruct p as [|x p _] using rev_ind; [done|].
  rewrite last_snoc. destruct x; try done. intros _. exists p. apply path_parent_app.
Qed.

Section source_files.
Context {CB : Type} `{UuidV4} `{LocalFiles} `{Blake3} `{LanguageManager}.
Implicit Types (s : EvaluationData CB) (G : gset Uuid) (Q R : list Uuid).

(** The names that the files import are finitely many: the search has fuel enough. *)
Lemma import_names_spec names p t i :
  read_to_string p = Some t → i ∈ names t → i ∈ import_names names.
Proof.
  intros (q & c & Hq & Hc)%read_to_string_node Hi. unfold import_names.
  apply elem_of_list_to_set, list_elem_of_bind. exists (RegularFile c).
  rewrite Hc. split; [done|]. apply list_elem_of_fmap. exists (q, RegularFile c).
  split; [done|]. by apply elem_of_map_to_list.
Qed.
Lemma extract_includes_names p im : im ∈ extract_includes p → im.2 ∈ import_names includes.
Proof.
  unfold extract_includes. destruct (read_to_string p) as [t|] eqn:Ht; [|by intros ?%elem_of_nil].
  intros (i & -> & Hi)%list_elem_of_fmap. by eapply import_names_spec.
Qed.
Lemma extract_imports_names p im : im ∈ extract_imports p → im.2 ∈ import_names imports.
Proof.
  unfold extract_imports. destruct (read_to_string p) as [t|] eqn:Ht; [|by intros ?%elem_of_nil].
  intros (i & -> & Hi)%list_elem_of_fmap. by eapply import_names_spec.
Qed.

Lemma find_dependencies_spec (I : list Uuid → EvaluationData CB → Prop)
    (imports_of : PathBuf → list (PathBuf * PathBuf)) (names : gset PathBuf) path n s :
  (∀ l s, I l s → I (l ++ [nth_uuid (uuids_drawn s)]) (after_draw s)) →
  (∀ p im, im ∈ imports_of p → im.2 ∈ names) → path_file_name path = Some n → I [] s →
  wp (find_dependencies (S (S (size names))) imports_of path)
    (λ deps s', (∃ base, path_parent path = Some base ∧ search_result imports_of path base deps) ∧
       I (dep_uuids deps) s' ∧ extends s s') no_error s.
Proof.
  intros Hdraw Hn Hname HI. unfold find_dependencies.
  destruct (path_file_name_parent _ _ Hname) as [base Hbase]. rewrite Hbase, Hname.
  wp_steps. eapply wp_lift_ret; [done|]. wp_steps. eapply wp_lift_ret; [done|].
  eapply wp_mono; [apply (search_loop_spec imports_of names Hn path base n I Hdraw)| |done].
  - split; [|done]. split; simpl; try done.
    + intros sb. split; [by intros ?%not_elem_of_empty|by intros ?%elem_of_nil].
    + constructor.
    + intros p. unfold reached. simpl. rewrite list_elem_of_singleton, elem_of_nil.
      split; [intros [[]%not_elem_of_empty|]; auto|naive_solver].
    + by intros d ?%elem_of_nil.
  - simpl. by intros p ?%not_elem_of_empty.
  - unfold search_left. simpl. assert (size (names ∖ ∅) = size names) as ->; [|lia].
    apply set_size_proper. set_solver.
  - intros deps s' (Hr & HI' & He). split_and!; [by exists base|done|done].
Qed.

Lemma wp_find_dependencies G Q R (imports_of : PathBuf → list (PathBuf * PathBuf))
    (names : gset PathBuf) path n s :
  (∀ p im, im ∈ imports_of p → im.2 ∈ names) → path_file_name path = Some n → builds G Q R s →
  wp (find_dependencies (S (S (size names))) imports_of path)
    (λ deps s', (∃ base, path_parent path = Some base ∧ search_result imports_of path base deps) ∧
       builds G Q (dep_uuids deps ++ R) s' ∧ extends s s') no_error s.
Proof.
  intros Hn Hname Hb.
  eapply (find_dependencies_spec (λ l, builds G Q (l ++ R))); [|done..]. intros l s0 Hb0.
  eapply (builds_reserve _ Q (l ++ R)); [done| |set_solver..|done].
  rewrite <-(assoc_L (++)). simpl. rewrite <-Permutation_middle. by rewrite <-Permutation_middle.
Qed.

Lemma wp_runtime_dependencies G Q R l path n s (P : list Dependency → EvaluationData CB → Prop) E :
  path_file_name path = Some n → builds G Q R s →
  (∀ deps s', builds G Q (dep_uuids deps ++ R) s' → extends s s' → P deps s') →
  wp (runtime_dependencies l path) P E s.
Proof.
  intros Hn Hb HP. destruct l; simpl; try (wp_steps; by apply HP).
  eapply wp_mono; [eapply wp_find_dependencies; [apply extract_imports_names|done..]| |done].
  intros deps s' (_ & Hb' & He). by apply HP.
Qed.

(** ** Compilations *)
Record builder_fine G (b : SimpleCompiledLanguageBuilder) : Prop := {
  bf_name : is_Some (path_file_name (source_path b));
  bf_grader : ∀ d, grader b = Some d → file_uuid (dep_file d) ∈ G;
  bf_callback : ∀ h, builder_callback b = Some h → neutral h
}.

Lemma neutral_compose h k : neutral h → neutral k → neutral (λ e, h (k e)).
Proof.
  intros Hh Hk e. destruct (Hh (k e)) as (-> & -> & -> & -> & ->). apply Hk.
Qed.
Lemma neutral_id : neutral (λ e, e).
Proof. by intros e. Qed.
Lemma neutral_rust o : neutral (rust_callback o).
Proof. intros e. destruct o; [|done]. simpl. by destruct e. Qed.
Lemma neutral_go : neutral go_callback.
Proof. intros []. unfold go_callback. by repeat case_decide. Qed.

Lemma wp_builder G Q R l path settings n s
    (P : option SimpleCompiledLanguageBuilder → EvaluationData CB → Prop) E :
  path_file_name path = Some n → builds G Q R s →
  (∀ b s', builder_fine G b → builder_language b = l → source_path b = path →
     builds G Q (dep_uuids (builder_dependencies b) ++ R) s' → extends s s' →
     need_compilation l = true → P (Some b) s') →
  (need_compilation l = false → P None s) →
  wp (compilation_builder l path settings) P E s.
Proof.
  intros Hn Hb HP HN.
  assert (∀ m st sn bn c a d o cb, (∀ h, cb = Some h → neutral h) →
    builder_fine G (mkBuilder m st path sn bn c a None d o cb)) as Hfine by (split; eauto; done).
  assert (∀ conf libs, need_compilation l = true →
    wp (c_builder l conf libs path settings) P E s) as Hc.
  { intros conf libs Hl. unfold c_builder, builder_new. rewrite Hn. wp_steps.
    eapply wp_lift_ret; [done|]. wp_steps.
    eapply wp_mono; [eapply wp_find_dependencies; [apply extract_includes_names|done..]| |done].
    intros deps s' (_ & Hb' & He). cbn beta. wp_steps. destruct (list_static settings); by apply HP; auto. }
  destruct l; simpl; try (by apply Hc); try (wp_steps; by apply HN).
  - unfold pascal_builder, builder_new. rewrite Hn. wp_steps. eapply wp_lift_ret; [done|].
    destruct find_fpc_cfg as [p|]; [|wp_steps; by apply HP; auto].
    unfold new_file. wp_steps. eapply wp_draw; [done|]. intros u s' _ _ He _ Hb' _. wp_steps.
    by apply HP.
  - unfold rust_builder, builder_new. rewrite Hn. wp_steps. eapply wp_lift_ret; [done|]. wp_steps.
    apply HP; try done; destruct (list_static settings); simpl; auto; apply Hfine; intros h [= <-];
      apply neutral_rust.
  - unfold csharp_builder, builder_new. rewrite Hn. wp_steps. eapply wp_lift_ret; [done|]. wp_steps.
    apply HP; try done. apply Hfine. intros h [= <-]. apply neutral_limits.
  - unfold go_builder, builder_new. rewrite Hn. wp_steps. eapply wp_lift_ret; [done|]. wp_steps.
    apply HP; try done. apply Hfine. intros h [= <-]. apply neutral_go.
  - unfold java_builder, builder_new, path_file_stem. rewrite Hn. wp_steps.
    eapply wp_lift_ret; [done|]. wp_steps. eapply wp_lift_ret; [done|]. wp_steps. by apply HP; auto.
Qed.

(** The standard streams and the outputs are as they were. *)
Record same_io (e e' : Execution) : Prop := {
  io_stdin : exec_stdin e' = exec_stdin e;
  io_stdout : exec_stdout e' = exec_stdout e;
  io_stderr : exec_stderr e' = exec_stderr e;
  io_outputs : exec_output_files e' = exec_output_files e
}.
#[export] Instance same_io_preorder : PreOrder same_io.
Proof. split; [by split|]. intros e1 e2 e3 [] []. split; congruence. Qed.
Lemma same_io_outs e e' : same_io e e' → exec_outs e' = exec_outs e.
Proof. intros [_ Ho Hr Hf]. unfold exec_outs, execution_outputs. by rewrite Ho, Hr, Hf. Qed.
Lemma same_io_neutral h e : neutral h → same_io e (h e).
Proof. intros Hh. destruct (Hh e) as (? & _ & ? & ? & ?). by split. Qed.
Lemma same_io_input f p x e : same_io e (input f p x e).
Proof. by destruct e. Qed.

Lemma neutral_push_args l : neutral (push_args l).
Proof. by intros []. Qed.
Lemma supplied_push_args s l e : supplied s e → supplied s (push_args l e).
Proof. apply neutral_supplied, neutral_push_args. Qed.
Lemma exec_outs_push_args l e : exec_outs (push_args l e) = exec_outs e.
Proof. apply neutral_outs, neutral_push_args. Qed.

Lemma from_file_no_panic p : no_panic (from_file p).
Proof. unfold from_file. by destruct (stat p) as [[]|]. Qed.
Hint Resolve from_file_no_panic : core.

Lemma wp_provide_dep G Q R R' ctx dep s (P : unit → EvaluationData CB → Prop) :
  builds G Q R' s → (R' ≡ₚ file_uuid (dep_file dep) :: R ∨ R' = R ∧ file_uuid (dep_file dep) ∈ G) →
  (∀ s', builds G Q R s' → extends s s' → ready s' (file_uuid (dep_file dep)) → P tt s') →
  wp (provide_dep ctx dep) P may_fail s.
Proof. intros Hb Hu HP. unfold provide_dep. wp_steps. by eapply wp_provide_file. Qed.

(** The rules follow an execution whose outputs [O] are among what waits. *)
Lemma wp_add_deps G Q R ctx deps e s (P : Execution → EvaluationData CB → Prop) :
  builds G Q (dep_uuids deps ++ R) s → supplied s e →
  (∀ e' s', builds G Q R s' → extends s s' → supplied s' e' → same_io e e' → P e' s') →
  wp (add_deps ctx deps e) P may_fail s.
Proof.
  revert e s P. induction deps as [|dep deps IH]; intros e s P Hb Hs HP; simpl.
  { wp_steps. by apply HP. }
  wp_steps. eapply (wp_provide_dep G Q (dep_uuids deps ++ R)); [done|by left|]. intros s1 Hb1 He1 Hr1.
  apply IH; [done|by apply supplied_input; [by eapply supplied_extends|]|].
  intros e' s' Hb' He' Hs' Hio. apply HP; [done|by etrans|done|].
  eapply transitivity; [apply same_io_input|exact Hio].
Qed.

Lemma wp_add_arg_files G Q R sf args e s (P : Execution → EvaluationData CB → Prop) :
  builds G Q R s → supplied s e →
  (∀ e' s', builds G Q R s' → extends s s' → supplied s' e' → same_io e e' → P e' s') →
  wp (add_arg_files sf args e) P may_fail s.
Proof.
  revert e s P. induction args as [|arg args IH]; intros e s P Hb Hs HP; simpl.
  { wp_steps. by apply HP. }
  destruct (path_exists _); [|by apply IH]. unfold new_file. wp_steps.
  eapply wp_draw; [done|]. intros u s1 _ _ He1 _ Hb1 _. wp_steps.
  eapply (wp_provide_file G Q R); [done|by left|done|]. intros s2 Hb2 He2 Hr2.
  apply IH; [done| |].
  - apply supplied_input; [|done]. eapply supplied_extends; [|done]. by etrans.
  - intros e' s' Hb' He' Hs' Hio. apply HP; [done|by do 2 (etrans; [done|])|done|].
    etrans; [apply same_io_input|done].
Qed.

Lemma wp_add_runtime_deps G Q R l deps e s (P : Execution → EvaluationData CB → Prop) :
  builds G Q R s → supplied s e → (∀ d, d ∈ deps → file_uuid (dep_file d) ∈ G) →
  (∀ e' s', builds G Q R s' → extends s s' → supplied s' e' → same_io e e' → P e' s') →
  wp (add_runtime_deps l deps e) P may_fail s.
Proof.
  revert e s P. induction deps as [|dep deps IH]; intros e s P Hb Hs HG HP; simpl.
  { wp_steps. by apply HP. }
  wp_steps. eapply (wp_provide_dep G Q R); [done|right; split; [done|apply HG; set_solver]|].
  intros s1 Hb1 He1 Hr1. apply IH; [done| |intros d ?; apply HG; set_solver|].
  - apply neutral_supplied; [apply neutral_args|]. apply supplied_input; [|done].
    by eapply supplied_extends.
  - intros e' s' Hb' He' Hs' Hio. apply HP; [done|by etrans|done|].
    etrans; [apply same_io_input|]. etrans; [apply same_io_neutral, neutral_args|done].
Qed.

Lemma supplied_new s d c : supplied s (Execution_new d c).
Proof. intros f [[=]|(p & i & Hp & _)]. simpl in Hp. by apply lookup_empty_Some in Hp. Qed.

Lemma group_outs_into u e : group_outs (into_group u e) = exec_outs e.
Proof. unfold group_outs, outputs. simpl. by rewrite app_nil_r. Qed.

(** The execution returned by [finalize] is complete and its group waits. *)
Lemma wp_finalize G Q R b s (P : ExecutionGroup * File → EvaluationData CB → Prop) :
  builder_fine G b → builds G Q (dep_uuids (builder_dependencies b) ++ R) s →
  (∀ u e f s', builds G (u :: Q) (exec_outs e ++ R) s' → extends s s' → supplied s' e →
     file_uuid f ∈ exec_outs e → P (into_group u e, f) s') →
  wp (finalize b) P may_fail s.
Proof.
  intros [[n Hn] Hgr Hcb] Hb HP. unfold finalize. rewrite Hn. wp_steps. eapply wp_lift_ret; [done|].
  wp_steps. eapply wp_add_deps; [done|apply neutral_supplied; [apply neutral_args|apply supplied_new]|].
  intros e1 s1 Hb1 He1 Hs1 Hio1. unfold new_file. wp_steps.
  eapply wp_draw; [done|]. intros u1 s2 _ _ He2 _ Hb2 _. wp_steps.
  eapply (wp_provide_file G Q R); [done|by left|done|]. intros s3 Hb3 He3 Hr3.
  assert (extends s s3) as He13 by (do 2 (etrans; [done|]); done).
  set (e3 := input _ _ _ e1).
  assert (supplied s3 e3) as Hs3.
  { apply supplied_input; [|done]. eapply supplied_extends; [|done]. by etrans. }
  assert (exec_outs e3 = []) as Ho3.
  { etrans; [eapply same_io_outs; etrans; [exact Hio1|apply same_io_input]|done]. }
  clearbody e3. wp_steps.
  eapply (wp_mono _ (λ e s', builds G Q R s' ∧ extends s3 s' ∧ supplied s' e ∧ exec_outs e = [])).
  { destruct (grader b) as [dep|] eqn:Hg; wp_steps.
    - eapply (wp_provide_dep G Q R); [done|right; split; [done|by eapply Hgr]|]. intros s4 Hb4 He4 Hr4.
      set (e4 := input_dep dep (push_args [path_to_string (dep_sandbox_path dep)] e3)).
      assert (supplied s4 e4) as Hs4.
      { apply supplied_input; [|done]. apply supplied_push_args. by eapply supplied_extends. }
      assert (exec_outs e4 = []) as Ho4
        by (unfold e4, input_dep; by rewrite exec_outs_input, exec_outs_push_args).
      clearbody e4. wp_steps. split_and!; [done|done| |].
      + destruct (grader_only b); [done|]. by apply supplied_push_args.
      + destruct (grader_only b); [done|]. by rewrite exec_outs_push_args.
    - split_and!; [done|done|by apply supplied_push_args|by rewrite exec_outs_push_args]. }
  2: done.
  intros e4 s4 (Hb4 & He4 & Hs4 & Ho4).
  wp_steps. eapply (wp_output G Q R); [by rewrite Ho4|done|].
  intros f e5 s5 Hb5 He5 Hs5 Hf _ _ _ _. cbn beta iota. apply wp_bind.
  eapply (wp_mono _ (λ _ s', builds G Q (exec_outs e5 ++ R) s' ∧ extends s5 s') _ may_fail).
  { destruct (settings_copy_exe (settings b)), (settings_write_to (settings b)) as [w|];
      wp_steps; try (by split).
    eapply (wp_write_file_to G Q (exec_outs e5 ++ R)); [done| |by split]. left.
    apply elem_of_app. by left. }
  2: done.
  intros _ s6 [Hb6 He6].
  set (e6 := match builder_callback b with Some callback => callback e5 | None => e5 end).
  assert (neutral (λ e, match builder_callback b with Some callback => callback e | None => e end)) as Hnb.
  { destruct (builder_callback b) eqn:Hc; [by apply Hcb|apply neutral_id]. }
  assert (supplied s6 e6) as Hs6.
  { apply (neutral_supplied _ s6 e5 Hnb). by eapply supplied_extends. }
  assert (exec_outs e6 = exec_outs e5) as Ho6 by apply (neutral_outs _ e5 Hnb).
  clearbody e6. unfold exec_into_group. wp_steps. eapply wp_draw; [done|].
  intros u s7 _ _ He7 _ _ Hb7. wp_steps. apply HP.
  - by rewrite Ho6.
  - do 4 (etrans; [done|]). done.
  - by eapply supplied_extends.
  - by rewrite Ho6.
Qed.

(** ** Preparing *)

(** The source file ends with a name, its graders are among [G]. *)
Record sf_ok G (sf : SourceFile) : Prop := {
  sf_ok_path : is_Some (path_file_name (sf_path sf));
  sf_ok_write : ∀ w, write_bin_to sf = Some w → is_Some (path_file_name w);
  sf_ok_graders : ∀ m l d, grader_map sf = Some m → graders m !! l = Some d →
    file_uuid (dep_file d) ∈ G
}.

Lemma builds_executable G Q R c f s :
  builds G Q R s → ready s (file_uuid f) → builds G Q R (with_executable c f s).
Proof.
  intros [] Hf. split; auto. intros c' f' Hc. simpl in Hc.
  apply lookup_insert_Some in Hc as [[_ <-]|[_ Hc]]; [done|by eapply b_cells].
Qed.
Lemma executable_extends c f s : extends s (with_executable c f s).
Proof.
  split; auto; try done; [|exists []; by rewrite app_nil_r]. intros c'. simpl.
  destruct (decide (c' = c)) as [->|]; [by rewrite lookup_insert_eq|by rewrite lookup_insert_ne].
Qed.

Lemma neutral_compilation_limits l : neutral (compilation_limits l).
Proof. apply neutral_limits. Qed.

Lemma wp_tune_execution G Q R l e s (P : Execution → EvaluationData CB → Prop) E :
  builds G Q (exec_outs e ++ R) s → supplied s e →
  (∀ e' s', builds G Q (exec_outs e' ++ R) s' → extends s s' → supplied s' e' →
     exec_outs e ⊆ exec_outs e' → P e' s') →
  wp (tune_execution l e) P E s.
Proof.
  intros Hb Hs HP. unfold tune_execution.
  pose proof (neutral_outs _ e (neutral_compilation_limits l)) as Ho.
  wp_steps. eapply wp_capture_stdout; [by rewrite Ho|by apply neutral_supplied; [apply neutral_limits|]|].
  intros f1 s1 e1 Hb1 He1 Hs1 _ Hsub1. cbn beta iota. wp_steps.
  eapply wp_capture_stderr; [done..|].
  intros f2 s2 e2 Hb2 He2 Hs2 _ Hsub2. cbn beta iota. wp_steps.
  apply HP; [done|by etrans|done|]. rewrite <-Ho. by etrans.
Qed.

(** What [prepare] did: nothing, or a compilation, or the file itself. *)
Definition prepared (sf : SourceFile) s (o : option ExecutionGroupUuid) s' : Prop :=
  match executables s !! executable_cell sf with
  | Some _ => o = None ∧ s' = s
  | None =>
      ∃ f, executables s' !! executable_cell sf = Some f ∧
        if need_compilation (sf_language sf) then
          ∃ u g, o = Some u ∧ group_of s u = None ∧ group_of s' u = Some g ∧
            tag g = Some (mkTag "compilation") ∧ priority g = COMPILATION_PRIORITY ∧
            output_of g (file_uuid f)
        else o = None ∧ provided s' (file_uuid f)
  end.

Lemma wp_prepare_compiled G Q R sf b s (P : option ExecutionGroupUuid → EvaluationData CB → Prop) :
  sf_ok G sf → builder_fine G b → builds G Q (dep_uuids (builder_dependencies b) ++ R) s →
  (∀ u g f s', builds G Q R s' → extends s s' → group_of s u = None → group_of s' u = Some g →
     tag g = Some (mkTag "compilation") → priority g = COMPILATION_PRIORITY →
     output_of g (file_uuid f) → executables s' !! executable_cell sf = Some f → P (Some u) s') →
  wp (prepare_compiled sf b) P may_fail s.
Proof.
  intros Hsf Hfine Hb HP. unfold prepare_compiled.
  set (b' := match grader_map sf with Some m => use_grader m b | None => b end).
  assert (builder_fine G b' ∧ builder_dependencies b' = builder_dependencies b) as [Hfine' Hdeps].
  { subst b'. destruct (grader_map sf) as [m|] eqn:Hm; [|done]. unfold use_grader.
    destruct (get_compilation_deps _ _) as [d|] eqn:Hd; [|done]. split; [|by destruct b].
    destruct Hfine as [Hn _ Hc]. destruct b. split; [done| |done]. simpl. intros ? [= <-].
    unfold get_compilation_deps in Hd. destruct (negb _); [done|]. by eapply sf_ok_graders. }
  clearbody b'. rewrite <-Hdeps in Hb. wp_steps.
  eapply wp_finalize; [done..|]. intros u e f s1 Hb1 He1 Hs1 Hf. cbn beta iota. wp_steps.
  simpl executions. simpl tune_executions. wp_steps.
  eapply wp_tune_execution; [done..|]. intros e' s2 Hb2 He2 Hs2 Hsub. wp_steps.
  set (g := set_group [e'] _ _ _).
  assert (group_outs g = exec_outs e') as Hog by (unfold group_outs, outputs; simpl; by rewrite app_nil_r).
  assert (output_of g (file_uuid f)) as Hof by (rewrite elem_of_exec_outs, Hog; by apply Hsub).
  assert (group_of s u = None) as Hnone.
  { destruct (group_of s u) eqn:Hg; [|done]. eapply extends_group in Hg; [|exact He1].
    destruct (b_pending_unused _ _ _ _ Hb1 u) as [Hn _]; [set_solver|congruence]. }
  eapply (wp_add_group G Q); [exact Hb2|done|by rewrite Hog|done|constructor| |].
  { intros f' (e0 & He0 & Hf'). apply list_elem_of_singleton in He0 as ->. by apply Hs2. }
  intros s3 Hb3 He3 Hg3 Hr3. wp_steps.
  apply (HP _ (group_set_config (config (data (eval_dag s2))) g) f).
  - apply builds_executable; [done|]. apply Hr3. by apply elem_of_exec_outs.
  - etrans; [|apply executable_extends]. by do 2 (etrans; [done|]).
  - done.
  - done.
  - done.
  - done.
  - done.
  - apply lookup_insert_eq.
Qed.

Lemma wp_prepare_interpreted G Q R sf copy s
    (P : option ExecutionGroupUuid → EvaluationData CB → Prop) :
  builds G Q R s →
  (∀ f s', builds G Q R s' → extends s s' → provided s' (file_uuid f) →
     executables s' !! executable_cell sf = Some f → P None s') →
  wp (prepare_interpreted sf copy) P may_fail s.
Proof.
  intros Hb HP. unfold prepare_interpreted, new_file. wp_steps. eapply wp_draw; [done|].
  intros u s1 _ _ He1 _ Hb1 _. apply wp_ret. apply wp_bind.
  eapply (wp_mono _ (λ _ s', builds G Q (u :: R) s' ∧ extends s s') _ may_fail).
  { destruct copy; [destruct (write_bin_to sf) as [w|]|]; wp_steps; try done.
    eapply (wp_write_file_to G Q (u :: R)); [done|set_solver|]. intros s2 Hb2 He2.
    split; [done|by etrans]. }
  2: done.
  intros _ s2 [Hb2 He2]. wp_steps. apply wp_on_dag. unfold provide_file.
  destruct (from_file (sf_path sf)) as [k|e|m|] eqn:Hk; try done.
  2, 3: by pose proof (from_file_no_panic (sf_path sf)) as Hp; rewrite Hk in Hp.
  simpl. wp_steps. set (f := File_new u _).
  assert (builds G Q R (after_provide u (LocalFile f k (sf_path sf)) s2)) as Hb3
    by (eapply builds_provide; [done|by left]).
  assert (provided (after_provide u (LocalFile f k (sf_path sf)) s2) u) as Hpr
    by (apply provided_after_provide; by left).
  pose proof (provide_extends u (LocalFile f k (sf_path sf)) s2) as He3.
  apply (HP f).
  - change (builds G Q R (with_executable (executable_cell sf) f
      (after_provide u (LocalFile f k (sf_path sf)) s2))).
    apply builds_executable; [done|]. by apply ready_provided.
  - do 2 (etrans; [done|]). apply (executable_extends (executable_cell sf) f).
  - done.
  - apply lookup_insert_eq.
Qed.

Lemma wp_prepare G Q R sf s (P : option ExecutionGroupUuid → EvaluationData CB → Prop) :
  sf_ok G sf → builds G Q R s →
  (∀ o s', builds G Q R s' → extends s s' → prepared sf s o s' → P o s') →
  wp (prepare sf) P may_fail s.
Proof.
  intros Hsf Hb HP. unfold prepare, read_executable. apply wp_bind, wp_gets.
  destruct (executables s !! executable_cell sf) as [f|] eqn:Hx.
  { wp_steps. apply HP; [done|done|]. unfold prepared. by rewrite Hx. }
  wp_steps. destruct (sf_ok_path _ _ Hsf) as [n Hn].
  eapply (wp_builder G Q R); [done..| |].
  - intros b s1 Hfine Hbl Hbp Hb1 He1 Hnc. eapply wp_prepare_compiled; [done..|].
    intros u g f s2 Hb2 He2 Hnone Hg ? ? ? Hf. apply HP; [done|by etrans|].
    unfold prepared. rewrite Hx. exists f. split; [done|]. rewrite Hnc. exists u, g.
    split_and!; try done. destruct (group_of s u) eqn:Hgu; [|done].
    by rewrite (extends_group _ _ _ _ He1 Hgu) in Hnone.
  - intros Hnc. eapply wp_prepare_interpreted; [done|]. intros f s2 Hb2 He2 Hp Hf.
    apply HP; [done|done|]. unfold prepared. rewrite Hx. exists f. by rewrite Hnc.
Qed.

Lemma prepared_executable sf s o s' :
  prepared sf s o s' → is_Some (executables s' !! executable_cell sf).
Proof.
  unfold prepared. destruct (executables s !! _) as [f|] eqn:Hx.
  - intros [_ ->]. by rewrite Hx.
  - by intros (f & -> & _).
Qed.

(** Whatever the state is, a successful [prepare] sets the cell. *)
Lemma prepare_sets sf s :
  wlp (prepare sf) (λ _ s', is_Some (executables s' !! executable_cell sf)) may_fail s.
Proof.
  unfold prepare, read_executable. apply wlp_bind. unfold gets, wlp at 1.
  destruct (executables s !! executable_cell sf) as [f|] eqn:Hx.
  { apply wlp_ret. by rewrite Hx. }
  apply wlp_bind, wlp_get, wlp_bind, wlp_any; [|done]. intros [b|] s1.
  - unfold prepare_compiled. apply wlp_bind, wlp_any; [|done]. intros [g f] s2.
    do 2 (apply wlp_bind, wlp_any; [|done]; intros ? ?). apply wlp_bind, wlp_modify, wlp_ret.
    simpl. by rewrite lookup_insert_eq.
  - unfold prepare_interpreted. do 2 (apply wlp_bind, wlp_any; [|done]; intros ? ?).
    apply wlp_bind, wlp_modify, wlp_bind, wlp_context. unfold on_dag.
    apply wlp_bind, wlp_get, wlp_bind, wlp_lift; [|done]. intros d _. apply wlp_modify, wlp_ret.
    simpl. by rewrite lookup_insert_eq.
Qed.

(** ** Executing *)
Lemma default_name_ok G sf :
  sf_ok G sf → ∃ n, default_executable_name (sf_path sf) (write_bin_to sf) = Ret [Normal n].
Proof.
  intros [[n Hn] Hw _]. unfold default_executable_name, path_file_stem. rewrite Hn.
  destruct (write_bin_to sf) as [w|]; [destruct (Hw w eq_refl) as [m ->]|]; simpl; eauto.
Qed.
Lemma executable_name_ok G sf :
  sf_ok G sf → ∃ n, executable_name (sf_language sf) (sf_path sf) (write_bin_to sf) = Ret [Normal n].
Proof.
  intros Hsf. pose proof (default_name_ok _ _ Hsf) as Hn. destruct (sf_ok_path _ _ Hsf) as [m Hm].
  unfold executable_name. destruct (sf_language sf); try done. simpl. rewrite Hm. simpl. eauto.
Qed.

Lemma runtime_command_ok G sf :
  sf_ok G sf → ∃ c, runtime_command (sf_language sf) (sf_path sf) (write_bin_to sf) = Ret c.
Proof.
  intros Hsf. destruct (default_name_ok _ _ Hsf) as [n Hn]. destruct (sf_ok_path _ _ Hsf) as [m Hm].
  unfold runtime_command, default_runtime_command.
  destruct (sf_language sf); simpl; unfold default_runtime_command; rewrite ?Hn, ?Hm; simpl; eauto.
Qed.
Lemma runtime_args_ok G sf args :
  sf_ok G sf → ∃ l, runtime_args (sf_language sf) (sf_path sf) (write_bin_to sf) args = Ret l.
Proof.
  intros Hsf. destruct (default_name_ok _ _ Hsf) as [n Hn]. unfold runtime_args.
  destruct (sf_language sf); simpl; unfold default_runtime_args; rewrite ?Hn; simpl; eauto.
Qed.

Lemma prepared_group sf s o s' u : prepared sf s o s' → o = Some u → is_Some (group_of s' u).
Proof.
  unfold prepared. destruct (executables s !! _); [by intros [-> _]|].
  intros (f & _ & Hf) ->. destruct (need_compilation _); [|by destruct Hf].
  destruct Hf as (u' & g & [= <-] & _ & -> & _). eauto.
Qed.

(** An execution to which a caller has still to give its streams and files. *)
Record plain (e : Execution) : Prop := {
  plain_stdin : exec_stdin e = Input_Ignored;
  plain_stdout : exec_stdout e = Output_Ignored;
  plain_stderr : exec_stderr e = Output_Ignored;
  plain_outputs : exec_output_files e = ∅
}.
Lemma plain_outs e : plain e → exec_outs e = [].
Proof. intros [_ Ho Hr Hf]. unfold exec_outs, execution_outputs. by rewrite Ho, Hr, Hf. Qed.
Lemma plain_same_io e e' : plain e → same_io e e' → plain e'.
Proof. intros [] []. split; congruence. Qed.

Lemma wp_the_executable sf s (P : File → EvaluationData CB → Prop) E :
  is_Some (executables s !! executable_cell sf) →
  (∀ f, executables s !! executable_cell sf = Some f → P f s) → wp (the_executable sf) P E s.
Proof.
  intros [f Hf] HP. unfold the_executable, read_executable. apply wp_bind, wp_gets.
  rewrite Hf. eapply wp_lift_ret; [done|]. by apply HP.
Qed.

Lemma wp_execute G Q R sf descr args s
    (P : option ExecutionGroupUuid * Execution → EvaluationData CB → Prop) :
  sf_ok G sf → builds G Q R s →
  (∀ o e s', builds G Q R s' → extends s s' → supplied s' e → plain e →
     (∀ u, o = Some u → is_Some (group_of s' u)) → P (o, e) s') →
  wp (execute sf descr args) P may_fail s.
Proof.
  intros Hsf Hb HP. unfold execute.
  destruct (executable_name_ok _ _ Hsf) as [n Hn], (runtime_command_ok _ _ Hsf) as [c Hc],
    (runtime_args_ok _ _ args Hsf) as [l Hl]. rewrite Hn, Hc, Hl.
  wp_steps. eapply wp_prepare; [done..|]. intros o s1 Hb1 He1 Hprep.
  pose proof (prepared_executable _ _ _ _ Hprep) as Hx. wp_steps.
  eapply wp_lift_ret; [done|]. wp_steps.
  eapply (wp_add_arg_files G Q R); [done|apply supplied_new|]. intros e2 s2 Hb2 He2 Hs2 Hio2. wp_steps.
  eapply wp_lift_ret; [done|]. wp_steps.
  apply wp_the_executable; [by apply (ext_cells _ _ He2)|]. intros f Hf. wp_steps.
  eapply wp_lift_ret; [done|]. wp_steps.
  pose proof (b_cells _ _ _ _ Hb2 _ _ Hf) as Hrf.
  set (e3 := input _ _ true _).
  assert (supplied s2 e3 ∧ plain e3) as [Hs3 Hp3].
  { split; [apply supplied_input, Hrf; by apply neutral_supplied; [apply neutral_args|]|].
    eapply plain_same_io; [|apply same_io_input].
    eapply plain_same_io; [|apply same_io_neutral, neutral_args].
    by eapply plain_same_io; [|exact Hio2]. }
  clearbody e3. destruct (sf_ok_path _ _ Hsf) as [m Hm].
  eapply (wp_runtime_dependencies G Q R); [done..|]. intros deps s4 Hb4 He4. wp_steps.
  eapply (wp_add_deps G Q R); [done|by eapply supplied_extends|].
  intros e5 s5 Hb5 He5 Hs5 Hio5. wp_steps.
  eapply (wp_mono _ (λ e s', builds G Q R s' ∧ extends s5 s' ∧ supplied s' e ∧ same_io e5 e) _ may_fail).
  { destruct (grader_map sf) as [map|] eqn:Hmap; [|by wp_steps].
    eapply (wp_add_runtime_deps G Q R); [done..| |by auto].
    intros d. unfold get_runtime_deps. destruct (need_compilation _); [by intros ?%elem_of_nil|].
    destruct (graders map !! _) as [d'|] eqn:Hd; simpl; [|by intros ?%elem_of_nil].
    intros ->%list_elem_of_singleton. by eapply sf_ok_graders. }
  2: done.
  intros e6 s6 (Hb6 & He6 & Hs6 & Hio6). wp_steps. apply HP.
  - done.
  - do 4 (etrans; [done|]). done.
  - do 2 (apply neutral_supplied; [apply neutral_copy_env|]).
    by apply neutral_supplied; [apply neutral_limits|].
  - do 2 (eapply plain_same_io; [|apply same_io_neutral, neutral_copy_env]).
    eapply plain_same_io; [|apply same_io_neutral, neutral_limits].
    eapply plain_same_io; [|done]. by eapply plain_same_io.
  - intros u Hu. destruct (prepared_group _ _ _ _ _ Hprep Hu) as [g Hg]. exists g.
    eapply extends_group; [|exact Hg]. do 3 (etrans; [done|]). done.
Qed.
End source_files.

(** ** Examples: a small machine *)
Definition bytes_of (s : string) : list byte := omap (λ c, Byte.of_N c) (text_of s).
Definition ex_node (content : string) : Node := RegularFile (bytes_of content).
Definition ex_dir : PathBuf := path_of_string "/task/sol".
Definition ex_nodes : gmap PathBuf Node :=
  list_to_map [
    (path_join ex_dir [Normal "a.cpp"], RegularFile (bytes_of "#include " ++ [Byte.x22] ++
       bytes_of "b.h" ++ [Byte.x22] ++ bytes_of " #include <iostream> #include<a.cpp>"));
    (path_join ex_dir [Normal "b.h"], ex_node "#include <a.cpp> #include<c.h>#include <b.h>");
    (path_join ex_dir [Normal "c.h"], ex_node "int x;");
    (path_join ex_dir [Normal "s.py"], ex_node "import lib, sys");
    (path_join ex_dir [Normal "lib.py"], ex_node "x = 1");
    (path_of_string "/task", Directory); (ex_dir, Directory)].
Definition ex_files : LocalFiles := {| canonical := Some; nodes := ex_nodes |}.
Definition ex_platform : Platform :=
  {| env_var := λ _, None; which := λ _, None;
     shell_words := λ s, Some (string_of_text <$> split_whitespace (text_of s));
     target_os := "linux"; arch := "x86_64" |}.
Definition ex_config (compiler std : string) : LanguageConfiguration :=
  mkLanguageConfiguration (system compiler) std [].
Program Definition ex_languages : @LanguageManager ex_platform :=
  {| known_languages := [LanguageCpp (ex_config "g++" "c++17"); LanguageC (ex_config "gcc" "c11");
       LanguagePython; LanguageShell; LanguagePascal; LanguageRust None; LanguageCSharp; LanguageGo;
       LanguageJava; LanguageJS] |}.
Next Obligation. reflexivity. Qed.
Definition ex_source (name : string) (l : Language) (cell : N) : SourceFile :=
  mkSourceFile (path_join ex_dir [Normal name]) (path_of_string "/task") l cell None true
    (Some (path_of_string "/task/bin/exe")) false.
Definition ex_cpp : SourceFile := ex_source "a.cpp" (LanguageCpp (ex_config "g++" "c++17")) 0.
Definition ex_py : SourceFile := ex_source "s.py" LanguagePython 1.

(** [a.cpp] includes itself and [b.h], which includes [a.cpp], itself and [c.h]. *)
Example ex_cpp_deps :
  dep_sandbox_path <$> from_ret []
    (@find_cpp_deps unit counting_uuids ex_files (sf_path ex_cpp) (EvaluationData_new [])).1 =
  [[Normal "b.h"]; [Normal "c.h"]].
Proof. vm_compute. reflexivity. Qed.

(** ** Properties *)

(** The search of the imports of a source file ends, for every file system and
    every way of extracting the imports of a file (cyclic imports included), when
    the names that can be imported are finitely many.  Each name is found once, what
    is found exists and is imported by the source or by a file found, and every
    existing import of the source and of the files found is found, or is one of
    these files. *)
Theorem find_dependencies_correct {CB : Type} `{UuidV4} `{LocalFiles}
    (imports_of : PathBuf → list (PathBuf * PathBuf)) (names : gset PathBuf) path name
    (s : EvaluationData CB) :
  (∀ p im, im ∈ imports_of p → im.2 ∈ names) → path_file_name path = Some name →
  ∃ deps s' base,
    find_dependencies (S (S (size names))) imports_of path s = (Ret deps, s') ∧
    path_parent path = Some base ∧ search_result imports_of path base deps ∧
    eval_dag s' = eval_dag s.
Proof.
  intros Hn Hname.
  assert (wp (find_dependencies (S (S (size names))) imports_of path)
    (λ deps s', (∃ base, path_parent path = Some base ∧ search_result imports_of path base deps) ∧
       eval_dag s' = eval_dag s ∧ extends s s') no_error s) as Hw
    by (by eapply (find_dependencies_spec (λ _ s', eval_dag s' = eval_dag s))).
  apply wp_run in Hw as (deps & s' & Hrun & (base & Hbase & Hr) & Hd & _). by exists deps, s', base.
Qed.

Lemma find_dependencies_correct_witness :
  ∃ deps s' base,
    @find_dependencies unit counting_uuids ex_files
      (S (S (size (@import_names ex_files includes)))) (@extract_includes ex_files) (sf_path ex_cpp)
      (EvaluationData_new []) = (Ret deps, s') ∧
    path_parent (sf_path ex_cpp) = Some base ∧
    search_result (H0 := ex_files) (@extract_includes ex_files) (sf_path ex_cpp) base deps ∧
    eval_dag s' = eval_dag (EvaluationData_new []).
Proof.
  apply (find_dependencies_correct (H := counting_uuids) (H0 := ex_files) (@extract_includes ex_files)
    (@import_names ex_files includes) (sf_path ex_cpp) "a.cpp" (EvaluationData_new [])).
  - apply (@extract_includes_names ex_files).
  - reflexivity.
Defined.

(** A source file is compiled once: after a successful [prepare] the executable
    is known, and preparing again gives no compilation and changes nothing. *)
Theorem prepare_once {CB : Type} `{UuidV4} `{LocalFiles} `{Blake3} `{LanguageManager} sf o
    (s s' : EvaluationData CB) :
  prepare sf s = (Ret o, s') →
  is_Some (executables s' !! executable_cell sf) ∧ prepare sf s' = (Ret None, s').
Proof.
  intros Hrun.
  assert (is_Some (executables s' !! executable_cell sf)) as Hx
    by (pose proof (prepare_sets sf s) as Hw; unfold wlp in Hw; by rewrite Hrun in Hw).
  split; [done|]. destruct Hx as [f Hf].
  unfold prepare, read_executable, mbind, M_bind, gets. by rewrite Hf.
Qed.

Lemma prepare_once_witness :
  let s' := (@prepare unit counting_uuids ex_files toy_blake3 ex_platform ex_cpp
               (EvaluationData_new [])).2 in
  is_Some (executables s' !! executable_cell ex_cpp) ∧
  @prepare unit counting_uuids ex_files toy_blake3 ex_platform ex_cpp s' = (Ret None, s').
Proof.
  apply (@prepare_once unit counting_uuids ex_files toy_blake3 ex_platform ex_languages ex_cpp (Some 4%N)
    (EvaluationData_new [])).
  apply run_result. vm_compute. reflexivity.
Defined.

(** A client that executes source files and adds the executions to the DAG. *)
Section client.
Context {CB : Type} `{UuidV4} `{LocalFiles} `{Blake3} `{LanguageManager}.

Definition run_execution (x : SourceFile * string * list string) : M (EvaluationData CB) unit :=
  '(_, e) ← execute x.1.1 x.1.2 x.2;
  u ← draw;
  on_dag (λ d, Ret (add_execution u e d).2).

Lemma wp_run_execution G x s :
  sf_ok G x.1.1 → builds G [] [] s →
  wp (run_execution x) (λ _ s', builds G [] [] s') may_fail s.
Proof.
  intros Hsf Hb. unfold run_execution. wp_steps. eapply wp_execute; [done..|].
  intros o e s1 Hb1 He1 Hs1 Hp1 _. cbn beta iota. wp_steps. eapply wp_draw; [done|].
  intros u s2 _ _ He2 _ _ Hb2.
  assert (group_outs (into_group u e) = []) as Hout by (rewrite group_outs_into; by apply plain_outs).
  eapply (wp_add_group G [] [u] [] [] (into_group u e)); [done|done|by rewrite Hout|done|constructor| |done].
  intros f (e0 & ->%list_elem_of_singleton & Hf). eapply supplied_extends; [done|exact Hs1|done].
Qed.
End client.

(** Whatever source files a client executes and in whichever order, with any
    arguments and graders, building the DAG does not panic, and the DAG built is
    accepted by the server: all identifiers are distinct, every input is provided or
    produced, nothing is cyclic. *)
Theorem executions_valid {CB : Type} `{UuidV4} `{LocalFiles} `{Blake3} `{LanguageManager}
    `{IterOrder} (G : gset Uuid) (l : list (SourceFile * string * list string))
    (s : EvaluationData CB) :
  (∀ x, x ∈ l → sf_ok G x.1.1) → unbuilt G s →
  match for_each l run_execution s with
  | (Ret _, s') => check_dag (data (eval_dag s')) (watch_of (eval_dag s')) = Ret (inr tt)
  | (Fail _, _) => True
  | (Panicked _, _) | (OutOfFuel, _) => False
  end.
Proof.
  intros Hl Hs%builds_start. assert (wp (for_each l run_execution) (λ _, builds G [] []) may_fail s) as Hw.
  { apply wp_for_each_inv; [done|]. intros x s0 Hx Hb0. apply wp_run_execution; auto. }
  unfold wp in Hw. destruct (for_each l run_execution s) as [[] s']; try done.
  destruct (check_dag_spec (data (eval_dag s')) (watch_of (eval_dag s'))) as ([e|[]] & -> & Hr); [|done].
  exfalso. eapply error_reason_invalid; [exact Hr|]. by eapply builds_valid.
Qed.

Definition ex_runs : list (SourceFile * string * list string) :=
  [(ex_cpp, "first", ["c.h"; "sol/c.h"]); (ex_py, "second", []); (ex_cpp, "third", [EmptyString])].

Lemma ex_source_ok G name l cell : sf_ok G (ex_source name l cell).
Proof.
  split; [by exists name| |done]. simpl. intros w Hw. injection Hw as <-. by exists "exe".
Qed.

Lemma executions_valid_witness :
  match for_each ex_runs (@run_execution unit counting_uuids ex_files toy_blake3 ex_platform)
          (EvaluationData_new []) with
  | (Ret _, s') => @check_dag backward_order (data (eval_dag s')) (watch_of (eval_dag s')) = Ret (inr tt)
  | (Fail _, _) => True
  | (Panicked _, _) | (OutOfFuel, _) => False
  end.
Proof.
  apply (@executions_valid unit counting_uuids ex_files toy_blake3 ex_platform ex_languages backward_order
    ∅ ex_runs).
  - intros x [->|[->|[->|[]%elem_of_nil]%elem_of_cons]%elem_of_cons]%elem_of_cons; apply ex_source_ok.
  - by split.
Defined.

(** Three executions and one compilation, in the order in which they were drawn. *)
Example ex_runs_groups :
  let s' := (for_each ex_runs (@run_execution unit counting_uuids ex_files toy_blake3 ex_platform)
    (EvaluationData_new [])).2 in
  group_description <$> execution_groups (data (eval_dag s')) = list_to_map [
  (4%N, "Compilation of a.cpp"); (8%N, "first"); (11%N, "second"); (13%N, "third")].
Proof. vm_compute. reflexivity. Qed.

(** *** Languages *)
Section manager.
Context `{LanguageManager}.

Lemma known_languages_list : ∃ cpp c rust, known_languages =
  [LanguageCpp cpp; LanguageC c; LanguagePython; LanguageShell; LanguagePascal; LanguageRust rust;
   LanguageCSharp; LanguageGo; LanguageJava; LanguageJS].
Proof.
  pose proof known_languages_new as Hn. unfold LanguageManager_new in Hn.
  destruct LanguageCppConfiguration_from_env as [cpp| | |]; [|done..].
  destruct LanguageCConfiguration_from_env as [c| | |]; [|done..].
  injection Hn as <-. by eexists _, _, _.
Qed.

(** The language of a source file is found again from its name, as the
    serialization of the tasks needs, and the search by extension and the lists of
    extensions agree: a language is found exactly when the extension, in lowercase,
    is one of its extensions. *)
Theorem language_found (lang : Language) (path : PathBuf) :
  (lang ∈ known_languages → from_name (lang_name lang) = Some lang) ∧
  (detect_language path = Some lang ↔
   lang ∈ known_languages ∧ string_lower (default EmptyString (path_extension path)) ∈ extensions lang).
Proof.
  destruct known_languages_list as (cpp & c & rust & Hk). unfold from_name, detect_language. rewrite Hk.
  generalize (string_lower (default EmptyString (path_extension path))) as ext. intros ext. split.
  - intros Hl. repeat (apply elem_of_cons in Hl as [->|Hl]; [reflexivity|]). by apply elem_of_nil in Hl.
  - split.
    + intros Hh%head_Some_elem_of. apply list_elem_of_filter in Hh as [? ?]. done.
    + intros [Hl He].
      repeat (apply elem_of_cons in Hl as [->|Hl];
        [simpl in He; repeat (apply elem_of_cons in He as [->|He]; [reflexivity|]);
         by apply elem_of_nil in He|]).
      by apply elem_of_nil in Hl.
Qed.
End manager.

(** ** What the model shows *)

(** An argument that names a directory, or an empty one, is taken for a file that the
    program reads: the sandbox gets an empty file at that path, for the empty
    argument at the path of the sandbox itself. *)
Lemma directory_argument :
  let '(r, s') := @execute unit counting_uuids ex_files toy_blake3 ex_platform ex_py "run" ["sol"; EmptyString]
                    (EvaluationData_new []) in
  ∃ e u v, r = Ret (None, e) ∧
    Dag.input_file <$> exec_input_files e !! path_of_string "sol" = Some u ∧
    Dag.input_file <$> exec_input_files e !! [] = Some v ∧
    provided_key <$> provided_files (data (eval_dag s')) !! u = Some (@from_content toy_blake3 []) ∧
    provided_key <$> provided_files (data (eval_dag s')) !! v = Some (@from_content toy_blake3 []).
Proof. vm_compute. eexists _, _, _. repeat split; reflexivity. Qed.

(** The includes of a C or C++ source are searched next to the file that has them,
    under the directory of the source: with a relative path the directory comes
    twice and no header is found. *)
Definition ex_relative_files : LocalFiles :=
  {| canonical := λ p, Some (path_join (path_of_string "/task") p); nodes := ex_nodes |}.
Lemma relative_source_deps :
  @path_exists ex_relative_files (path_of_string "sol/b.h") = true ∧
  (@find_cpp_deps unit counting_uuids ex_relative_files (path_of_string "sol/a.cpp")
     (EvaluationData_new [])).1 = Ret [].
Proof. vm_compute. split; reflexivity. Qed.

(** The comment of [extract_includes] says that the local path is the include itself:
    it is next to the file that includes it. *)
Lemma include_local_path :
  @extract_includes ex_files (path_join ex_dir [Normal "b.h"]) =
  (λ n, (path_join ex_dir [Normal n], [Normal n])) <$> ["a.cpp"; "c.h"; "b.h"].
Proof. vm_compute. reflexivity. Qed.
