(* ===== verification/Scoring.v ===== *)
(** * Scores ([task-maker-format/src/ioi/dag/mod.rs], [ioi/mod.rs],
    [testcase_score_status.rs])

    The aggregation of the scores of the testcases and [ScoreManager], which
    computes the scores of the subtasks and of the task as the scores of the
    testcases arrive and sends them to the user interface. *)
From S2P Require Import Prelude Float64 Paths UiMessage.

(** ** [ScoreStatus] *)
Inductive ScoreStatus : Type := SS_Accepted | SS_PartialScore | SS_WrongAnswer.

Definition from_score (score max_score : f64) : ScoreStatus :=
  if f64_eqb score f64_zero then SS_WrongAnswer
  else if f64_ltb (f64_abs (f64_sub score max_score)) (f64_dec 1 3) then SS_Accepted
  else SS_PartialScore.

Example from_score_ex :
  (λ s, from_score s f64_one) <$> [f64_zero; f64_dec 1 1; f64_one; f64_dec 99999 5] =
  [SS_WrongAnswer; SS_PartialScore; SS_Accepted; SS_Accepted].
Proof. vm_compute. reflexivity. Qed.

(** ** [TestcaseScoreAggregator] *)

(** [Iterator::min_by] with [partial_cmp(..).unwrap()]: the first of the least
    elements; comparing with a NaN panics. *)
Fixpoint min_by (m : f64) (l : list f64) : Outcome f64 :=
  match l with
  | [] => Ret m
  | x :: l =>
      match f64_partial_cmp m x with
      | None => Panicked "called `Option::unwrap()` on a `None` value"
      | Some Gt => min_by x l
      | Some _ => min_by m l
      end
  end.

(** The elements are counted in an [i32], which more than 2^31 testcases would
    leave. *)
Definition aggregate (a : TestcaseScoreAggregator) (l : list f64) : Outcome f64 :=
  match a with
  | Min => match l with [] => Ret f64_one | x :: l => min_by x l end
  | Sum =>
      match l with
      | [] => Ret f64_one
      | _ => Ret (f64_div (foldl f64_add f64_zero l) (f64_of_Z (Z.of_nat (length l))))
      end
  end.

(** [Iterator::sum] on [f64] starts from the negative zero. *)
Definition f64_sum (l : list f64) : f64 := foldl f64_add (S754_zero true) l.

(** ** [ScoreManager] *)
Record ScoreManager : Type := mkScoreManager {
  sm_solution : PathBuf;
  subtask_scores : gmap SubtaskId (option f64);
  max_subtask_scores : gmap SubtaskId f64;
  testcase_scores : gmap TestcaseId (option f64);
  sm_subtask_testcases : gmap SubtaskId (list TestcaseId);
  aggregator : TestcaseScoreAggregator;
  sm_channel : UIChannel
}.

Section score_manager.
Context `{IterOrder}.

Definition with_subtask_scores x (s : ScoreManager) : ScoreManager :=
  mkScoreManager (sm_solution s) x (max_subtask_scores s) (testcase_scores s)
    (sm_subtask_testcases s) (aggregator s) (sm_channel s).
Definition with_testcase_scores x (s : ScoreManager) : ScoreManager :=
  mkScoreManager (sm_solution s) (subtask_scores s) (max_subtask_scores s) x
    (sm_subtask_testcases s) (aggregator s) (sm_channel s).
Definition with_sm_channel x (s : ScoreManager) : ScoreManager :=
  mkScoreManager (sm_solution s) (subtask_scores s) (max_subtask_scores s) (testcase_scores s)
    (sm_subtask_testcases s) (aggregator s) x.

(** The sender is an argument of the methods in the source; its channel is part of
    the state here. *)
Definition sm_send (m : UIMessage) : M ScoreManager unit := zoom sm_channel with_sm_channel (ui_send m).

(** The scores of the testcases of a subtask, [None] at the first one that is
    missing. *)
Fixpoint collect_scores (scores : gmap TestcaseId (option f64)) (l : list TestcaseId) :
    Outcome (option (list f64)) :=
  match l with
  | [] => Ret (Some [])
  | tc :: l =>
      s ← index scores tc;
      match s with
      | None => Ret None
      | Some x =>
          rest ← collect_scores scores l;
          Ret (match rest with Some xs => Some (x :: xs) | None => None end)
      end
  end.

Definition score_subtask (subtask : SubtaskId) : M ScoreManager unit :=
  s ← get_st;
  tcs ← lift (index (sm_subtask_testcases s) subtask);
  scores ← lift (collect_scores (testcase_scores s) tcs);
  match scores with
  | None => mret tt
  | Some scores =>
      normalized_score ← lift (aggregate (aggregator s) scores);
      max ← lift (index (max_subtask_scores s) subtask);
      let subtask_score := f64_mul max normalized_score in
      _ ← modify (with_subtask_scores (<[subtask := Some subtask_score]> (subtask_scores s)));
      _ ← sm_send (IOISubtaskScore subtask (sm_solution s) normalized_score subtask_score);
      s ← get_st;
      if forallb (λ o : option f64, bool_decide (is_Some o)) (values_iter (subtask_scores s)) then
        let task_score := f64_sum (omap id (values_iter (subtask_scores s))) in
        sm_send (IOITaskScore (sm_solution s) task_score)
      else mret tt
  end.

Definition ScoreManager_init (task : IOITask) (solution : PathBuf) (c : UIChannel) : ScoreManager :=
  mkScoreManager solution
    ((λ _, None) <$> subtasks task)
    (list_to_map ((λ st, (subtask_id st, max_score st)) <$> values_iter (subtasks task)))
    ((λ _, None) <$> testcases task)
    (subtask_testcases <$> subtasks task)
    (testcase_score_aggregator task) c.

Definition ScoreManager_new (task : IOITask) : M ScoreManager unit :=
  for_each (map_iter (subtasks task)) (λ p : SubtaskId * SubtaskInfo,
    match subtask_testcases p.2 with [] => score_subtask p.1 | _ => mret tt end).

Definition score (subtask : SubtaskId) (testcase : TestcaseId) (score : f64) (message : string) :
    M ScoreManager unit :=
  _ ← modify (λ s, with_testcase_scores (<[testcase := Some score]> (testcase_scores s)) s);
  s ← get_st;
  _ ← sm_send (IOITestcaseScore subtask testcase (sm_solution s) score message);
  s ← get_st;
  for_each (map_iter (subtask_scores s)) (λ p : SubtaskId * option f64,
    match p.2 with None => score_subtask p.1 | Some _ => mret tt end).
End score_manager.

(** ** Aggregation *)
Definition no_nan (l : list f64) : Prop := Forall (λ x, is_nan x = false) l.

Lemma min_by_spec m l :
  is_nan m = false → no_nan l →
  ∃ r, min_by m l = Ret r ∧ r ∈ m :: l ∧ ∀ x, x ∈ m :: l → f64_leb r x = true.
Proof.
  intros Hm Hl. revert m Hm. induction Hl as [|x l Hx Hl IH]; intros m Hm; simpl.
  { exists m. split_and!; [done|by left|].
    intros x ->%list_elem_of_singleton. by apply f64_leb_refl. }
  assert (f64_partial_cmp m x ≠ None) as Hc.
  { unfold f64_partial_cmp. rewrite f64_compare_None. intros [?|?]; congruence. }
  destruct (f64_partial_cmp m x) as [c|] eqn:Hcmp; [|done]. unfold f64_partial_cmp in Hcmp.
  assert (c ≠ Gt → f64_leb m x = true) as Hmx.
  { unfold f64_leb, SFleb. rewrite Hcmp. by destruct c. }
  assert (c = Gt → f64_leb x m = true) as Hxm.
  { intros ->. unfold f64_leb, SFleb. by rewrite f64_compare_antisym, Hcmp. }
  assert (∃ y, (y = m ∨ y = x) ∧ is_nan y = false ∧ f64_leb y m = true ∧ f64_leb y x = true ∧
    match c with Gt => min_by x l | _ => min_by m l end = min_by y l) as (y & Hy & Hyn & Hym & Hyx & ->).
  { destruct c; [exists m|exists m|exists x]; split_and!;
      try done; try (by left); try (by right); try (by apply f64_leb_refl); by auto. }
  destruct (IH y Hyn) as (r & Hr & Hin & Hle). exists r. split_and!; [done|set_solver|].
  intros z [->|[->|Hz]%elem_of_cons]%elem_of_cons.
  - eapply f64_leb_trans; [apply Hle; by left|done].
  - eapply f64_leb_trans; [apply Hle; by left|done].
  - apply Hle. by right.
Qed.

Lemma aggregate_ret a l : no_nan l → ∃ r, aggregate a l = Ret r.
Proof.
  intros Hl. destruct a, l as [|x l]; simpl; eauto.
  apply Forall_cons in Hl as [Hx Hl]. destruct (min_by_spec x l Hx Hl) as (r & -> & _). eauto.
Qed.

(** With the aggregator [Min] the score of a subtask is the least score of its
    testcases, so it is between the bounds that hold for all of them; it is 1 when
    there are none. *)
Theorem aggregate_min l lo hi :
  no_nan l → (∀ x, x ∈ l → f64_leb lo x = true ∧ f64_leb x hi = true) →
  ∃ r, aggregate Min l = Ret r ∧
    (l = [] ∧ r = f64_one ∨
     r ∈ l ∧ (∀ x, x ∈ l → f64_leb r x = true) ∧ f64_leb lo r = true ∧ f64_leb r hi = true).
Proof.
  intros Hl Hb. destruct l as [|x l]; [exists f64_one; by auto|].
  apply Forall_cons in Hl as [Hx Hl]. destruct (min_by_spec x l Hx Hl) as (r & Hr & Hin & Hle).
  exists r. split; [done|]. right. split_and!; [done..| |]; by apply Hb.
Qed.

(** A score that is not a number makes the aggregation of two testcases panic. *)
Lemma aggregate_nan_panics :
  aggregate Min [S754_nan; f64_one] = Panicked "called `Option::unwrap()` on a `None` value".
Proof. reflexivity. Qed.

(** ** What the manager computes *)

(** Every testcase of a subtask exists, and a subtask is stored under its number. *)
Definition task_ok (task : IOITask) : Prop :=
  ∀ k st, subtasks task !! k = Some st →
    subtask_id st = k ∧ ∀ tc, tc ∈ subtask_testcases st → is_Some (testcases task !! tc).

(** The result of a subtask, normalized and scaled, once all its testcases have a
    score. *)
Definition subtask_result (a : TestcaseScoreAggregator) (given : gmap TestcaseId f64)
    (st : SubtaskInfo) : option (f64 * f64) :=
  scores ← mapM (λ tc, given !! tc) (subtask_testcases st);
  match aggregate a scores with
  | Ret n => Some (n, f64_mul (max_score st) n)
  | _ => None
  end.

(** The scores that were sent. *)
Definition sent_subtask (m : UIMessage) : option (SubtaskId * f64 * f64) :=
  match m with IOISubtaskScore k _ n v => Some (k, n, v) | _ => None end.
Definition sent_task (m : UIMessage) : option f64 :=
  match m with IOITaskScore _ v => Some v | _ => None end.
Definition sent_testcase (m : UIMessage) : option (SubtaskId * TestcaseId * f64 * string) :=
  match m with IOITestcaseScore k tc _ v msg => Some (k, tc, v, msg) | _ => None end.

(** The messages about the whole task: one, with the sum, when no subtask is left. *)
Definition task_total `{IterOrder} (m : gmap SubtaskId (option f64)) : list f64 :=
  if bool_decide (m = ∅) then []
  else if forallb (λ o : option f64, bool_decide (is_Some o)) (values_iter m)
  then [f64_sum (omap id (values_iter m))] else [].

(** A sequence of scores: each testcase once, no score is a NaN. *)
Record call : Type := mkCall {
  call_subtask : SubtaskId; call_testcase : TestcaseId; call_score : f64; call_message : string
}.
Definition given (calls : list call) : gmap TestcaseId f64 :=
  foldl (λ m c, <[call_testcase c := call_score c]> m) ∅ calls.
Definition calls_ok (task : IOITask) (calls : list call) : Prop :=
  NoDup (call_testcase <$> calls) ∧
  Forall (λ c, is_Some (testcases task !! call_testcase c) ∧ is_nan (call_score c) = false) calls.

Definition score_all `{IterOrder} (task : IOITask) (solution : PathBuf) (calls : list call) :
    Outcome unit * ScoreManager :=
  (_ ← ScoreManager_new task;
   for_each calls (λ c, score (call_subtask c) (call_testcase c) (call_score c) (call_message c)))
  (ScoreManager_init task solution (mkUIChannel [] true)).
