(* ===== verification/ScoringCorrect.v ===== *)
(** * The scores are right

    The invariant of [ScoreManager] ([Scoring]) and its correctness: whatever the
    order in which the scores of the testcases arrive, the score of each subtask
    is computed and sent once, when its last testcase gets a score, and the one of
    the task once, after the last subtask. *)
From S2P Require Import Prelude Float64 Paths UiMessage Scoring.

Section manager.
Context `{IterOrder} (task : IOITask) (sol : PathBuf) (Htask : task_ok task).
Implicit Types (s : ScoreManager) (g : gmap TestcaseId f64).
Abbreviation result_of g st := (subtask_result (testcase_score_aggregator task) g st).

Record score_inv (g : gmap TestcaseId f64) (s : ScoreManager) : Prop := {
  si_solution : sm_solution s = sol;
  si_max : ∀ k st, subtasks task !! k = Some st → max_subtask_scores s !! k = Some (max_score st);
  si_tcs : sm_subtask_testcases s = subtask_testcases <$> subtasks task;
  si_agg : aggregator s = testcase_score_aggregator task;
  si_given : ∀ tc, is_Some (testcases task !! tc) → testcase_scores s !! tc = Some (g !! tc);
  si_nan : ∀ tc x, g !! tc = Some x → is_nan x = false;
  si_dom : ∀ k, is_Some (subtask_scores s !! k) ↔ is_Some (subtasks task !! k);
  si_nodup : NoDup ((λ p : SubtaskId * f64 * f64, p.1.1) <$> omap sent_subtask (ui_sent (sm_channel s)));
  si_sent : ∀ k n v, (k, n, v) ∈ omap sent_subtask (ui_sent (sm_channel s)) ↔
    ∃ st, subtasks task !! k = Some st ∧ subtask_scores s !! k = Some (Some v) ∧
          result_of g st = Some (n, v);
  si_value : ∀ k st v, subtasks task !! k = Some st → subtask_scores s !! k = Some (Some v) →
    ∃ n, result_of g st = Some (n, v);
  si_total : omap sent_task (ui_sent (sm_channel s)) = task_total (subtask_scores s);
  si_open : ui_open (sm_channel s) = true
}.

(** Every subtask whose testcases all have a score has one. *)
Definition settled g s : Prop :=
  ∀ k st, subtasks task !! k = Some st → subtask_scores s !! k = Some (snd <$> result_of g st).

Lemma collect_scores_given g s l :
  score_inv g s → (∀ tc, tc ∈ l → is_Some (testcases task !! tc)) →
  collect_scores (testcase_scores s) l = Ret (mapM (λ tc, g !! tc) l).
Proof.
  intros Hi. induction l as [|tc l IH]; intros Hl; [done|]. cbn [collect_scores].
  unfold index. rewrite (si_given _ _ Hi) by (apply Hl; by left). cbn [unwrap mbind outcome_bind].
  destruct (g !! tc) as [x|] eqn:Hx.
  - rewrite IH by (intros; apply Hl; by right). cbn. rewrite Hx. cbn. by destruct (mapM _ l).
  - cbn. by rewrite Hx.
Qed.

Lemma mapM_no_nan g l scores :
  (∀ tc x, g !! tc = Some x → is_nan x = false) → mapM (λ tc, g !! tc) l = Some scores →
  no_nan scores.
Proof.
  intros Hg Hs. apply mapM_Some in Hs. induction Hs; constructor; eauto.
Qed.

Lemma result_of_scores g s st scores n :
  score_inv g s → mapM (λ tc, g !! tc) (subtask_testcases st) = Some scores →
  aggregate (testcase_score_aggregator task) scores = Ret n →
  result_of g st = Some (n, f64_mul (max_score st) n).
Proof. intros Hi Hs Hn. unfold subtask_result. rewrite Hs. cbn. by rewrite Hn. Qed.

Lemma forallb_values (m : gmap SubtaskId (option f64)) :
  m ≠ ∅ → task_total m =
  if forallb (λ o : option f64, bool_decide (is_Some o)) (values_iter m)
  then [f64_sum (omap id (values_iter m))] else [].
Proof. intros Hm. unfold task_total. by rewrite bool_decide_false. Qed.

Lemma task_total_missing (m : gmap SubtaskId (option f64)) k :
  m !! k = Some None → task_total m = [].
Proof.
  intros Hk. rewrite forallb_values by (intros ->; by rewrite lookup_empty in Hk).
  destruct (forallb _ _) eqn:Hf; [|done]. rewrite forallb_forall in Hf.
  assert (None ∈ values_iter m) as Hin%list_elem_of_In.
  { apply list_elem_of_fmap. exists (k, None). split; [done|]. by apply elem_of_map_iter. }
  by specialize (Hf _ Hin).
Qed.

Lemma wp_sm_send m (Q : unit → ScoreManager → Prop) E s :
  ui_open (sm_channel s) = true →
  Q tt (with_sm_channel (mkUIChannel (ui_sent (sm_channel s) ++ [m]) true) s) →
  wp (sm_send m) Q E s.
Proof.
  intros Ho HQ. unfold wp, sm_send, zoom, ui_send, mbind, M_bind, get_st, modify. rewrite Ho.
  simpl. by rewrite Ho.
Qed.

(** The state after a subtask got its score. *)
Definition scored s k n v (extra : list UIMessage) : ScoreManager :=
  with_sm_channel (mkUIChannel (ui_sent (sm_channel s) ++ IOISubtaskScore k (sm_solution s) n v :: extra) true)
    (with_subtask_scores (<[k := Some v]> (subtask_scores s)) s).

Lemma inv_scored g s k st n v extra :
  score_inv g s → subtasks task !! k = Some st → subtask_scores s !! k = Some None →
  result_of g st = Some (n, v) → omap sent_subtask extra = [] →
  omap sent_task extra = task_total (<[k := Some v]> (subtask_scores s)) →
  score_inv g (scored s k n v extra).
Proof.
  intros [] Hst Hk Hres Hs Ht. 
  set (sent := ui_sent (sm_channel s) ++ IOISubtaskScore k (sm_solution s) n v :: extra).
  assert (omap sent_subtask sent = omap sent_subtask (ui_sent (sm_channel s)) ++ [(k, n, v)]) as Hsub.
  { unfold sent. rewrite omap_app. f_equal.
    change (omap sent_subtask (_ :: extra)) with ((k, n, v) :: omap sent_subtask extra). by rewrite Hs. }
  assert (omap sent_task sent = omap sent_task (ui_sent (sm_channel s)) ++ omap sent_task extra) as Htk.
  { unfold sent. by rewrite omap_app. }
  unfold scored. split; simpl; fold sent; try done.
  - intros k'. rewrite <-si_dom0. destruct (decide (k = k')) as [<-|].
    + rewrite lookup_insert_eq, Hk. split; eauto.
    + by rewrite lookup_insert_ne.
  - rewrite Hsub, fmap_app. apply NoDup_app. split_and!; [done| |apply NoDup_singleton].
    intros k' Hin Hk'%list_elem_of_singleton.
    apply list_elem_of_fmap in Hin as ([[k0 n'] v'] & -> & Hin). simpl in Hk'. subst k0.
    apply si_sent0 in Hin as (? & _ & ? & _). simpl in *. congruence.
  - intros k' n' v'. rewrite Hsub, elem_of_app, list_elem_of_singleton, si_sent0.
    destruct (decide (k' = k)) as [->|Hne].
    + rewrite lookup_insert_eq. split; [naive_solver congruence|].
      intros (st' & Hst' & [= <-] & Hr). right. rewrite Hst in Hst'. injection Hst' as <-.
      rewrite Hres in Hr. by injection Hr as <-.
    + rewrite lookup_insert_ne by done. naive_solver.
  - intros k' st' v' Hst'. destruct (decide (k' = k)) as [->|Hne].
    + rewrite lookup_insert_eq. intros [= <-]. simplify_eq. eauto.
    + rewrite lookup_insert_ne by done. eauto.
  - by rewrite Htk, si_total0, (task_total_missing _ k), Ht.
Qed.

(** The step of a subtask that has no score yet. *)
Lemma score_subtask_spec g s k st :
  score_inv g s → subtasks task !! k = Some st → subtask_scores s !! k = Some None →
  wp (score_subtask k) (λ _ s', score_inv g s' ∧
    subtask_scores s' = <[k := snd <$> result_of g st]> (subtask_scores s) ∧
    omap sent_testcase (ui_sent (sm_channel s')) = omap sent_testcase (ui_sent (sm_channel s)))
  no_error s.
Proof.
  intros Hi Hst Hk. unfold score_subtask. wp_steps.
  eapply wp_lift_ret. { unfold index. by rewrite (si_tcs _ _ Hi), lookup_fmap, Hst. }
  wp_steps. eapply wp_lift_ret.
  { apply (collect_scores_given g); [done|]. apply (Htask _ _ Hst). }
  destruct (mapM _ (subtask_testcases st)) as [scores|] eqn:Hs.
  2:{ apply wp_ret. split_and!; [done| |done]. unfold subtask_result. rewrite Hs. simpl.
      symmetry. by apply insert_id. }
  destruct (aggregate_ret (testcase_score_aggregator task) scores) as [n Hn].
  { eapply mapM_no_nan; [apply (si_nan _ _ Hi)|done]. }
  pose proof (result_of_scores g s st scores n Hi Hs Hn) as Hres. rewrite Hres. simpl.
  wp_steps. eapply wp_lift_ret; [by rewrite (si_agg _ _ Hi)|].
  wp_steps. eapply wp_lift_ret. { unfold index. by rewrite (si_max _ _ Hi _ _ Hst). }
  wp_step. apply wp_modify. wp_step. apply wp_sm_send; [apply (si_open _ _ Hi)|].
  wp_step. apply wp_get.
  change (with_sm_channel _ _) with (scored s k n (f64_mul (max_score st) n) []).
  set (v := f64_mul (max_score st) n) in *. set (m := <[k := Some v]> (subtask_scores s)).
  change (subtask_scores (scored s k n v [])) with m.
  assert (task_total m = if forallb (λ o : option f64, bool_decide (is_Some o)) (values_iter m)
    then [f64_sum (omap id (values_iter m))] else []) as Htot.
  { apply forallb_values, insert_non_empty. }
  destruct (forallb _ _).
  - apply wp_sm_send; [done|].
    change (ui_sent (sm_channel (scored s k n v []))) with
      (ui_sent (sm_channel s) ++ [IOISubtaskScore k (sm_solution s) n v]). rewrite <-app_assoc.
    change (with_sm_channel _ _) with (scored s k n v
      [IOITaskScore (sm_solution s) (f64_sum (omap id (values_iter m)))]).
    split_and!; [by eapply inv_scored|done|]. simpl. rewrite omap_app. simpl. by rewrite app_nil_r.
  - apply wp_ret. split_and!; [by eapply inv_scored|done|].
    simpl. rewrite omap_app. simpl. by rewrite app_nil_r.
Qed.

(** ** The loops over the subtasks *)

(** The subtasks in [keys] are still to look at; the other ones are settled. *)
Definition settled_but (keys : list SubtaskId) g s : Prop :=
  ∀ k st, subtasks task !! k = Some st →
    k ∈ keys ∨ subtask_scores s !! k = Some (snd <$> result_of g st).

(** The testcase scores sent so far. *)
Definition log s : list (SubtaskId * TestcaseId * f64 * string) :=
  omap sent_testcase (ui_sent (sm_channel s)).

Lemma settled_but_nil g s : settled_but [] g s → settled g s.
Proof. intros Hb k st Hst. destruct (Hb k st Hst) as [?%not_elem_of_nil|]; done. Qed.

Lemma settled_but_step g s s' k keys st :
  settled_but (k :: keys) g s → subtasks task !! k = Some st →
  subtask_scores s' = <[k := snd <$> result_of g st]> (subtask_scores s) → settled_but keys g s'.
Proof.
  intros Hb Hst Heq k' st' Hst'. rewrite Heq. destruct (decide (k = k')) as [<-|Hne].
  - right. rewrite lookup_insert_eq. by simplify_eq.
  - rewrite lookup_insert_ne by done. destruct (Hb k' st' Hst') as [[->|?]%elem_of_cons|]; by auto.
Qed.

(** One loop for the two methods: [todo] tells the subtasks that get a score. *)
Lemma score_subtasks_spec {A} (todo : A → bool) (l : list (SubtaskId * A)) g s :
  score_inv g s → NoDup l.*1 → settled_but l.*1 g s →
  (∀ k a, (k, a) ∈ l → ∃ st, subtasks task !! k = Some st ∧
     if todo a then subtask_scores s !! k = Some None
     else subtask_scores s !! k = Some (snd <$> result_of g st)) →
  wp (for_each l (λ p, if todo p.2 then score_subtask p.1 else mret tt))
    (λ _ s', score_inv g s' ∧ settled g s' ∧ log s' = log s) no_error s.
Proof.
  revert s. induction l as [|[k a] l IH]; intros s Hi Hnd Hb Hl.
  { apply wp_ret. split_and!; [done| |done]. by apply settled_but_nil. }
  apply NoDup_cons in Hnd as [Hk Hnd]. destruct (Hl k a) as (st & Hst & Ha); [by left|].
  apply wp_bind. cbn [fst snd]. destruct (todo a).
  - eapply wp_mono; [by eapply score_subtask_spec| |done]. intros [] s' (Hi' & Hs' & Hlog).
    eapply wp_mono; [apply IH; [done|done|by eapply settled_but_step|]| |done].
    + intros k' a' Hin. destruct (Hl k' a') as (st' & ? & ?); [by right|]. exists st'. split; [done|].
      assert (k ≠ k') as Hne by (intros ->; apply Hk, list_elem_of_fmap; by exists (k', a')).
      by rewrite Hs', lookup_insert_ne.
    + intros [] s'' (? & ? & ?). split_and!; [done..|]. unfold log in *. congruence.
  - apply wp_ret. apply IH; [done|done| |].
    + intros k' st' Hst'. destruct (Hb k' st' Hst') as [[->|?]%elem_of_cons|]; [|by left|by right].
      right. by simplify_eq/=.
    + intros k' a' Hin. apply Hl. by right.
Qed.

Lemma NoDup_map_iter {K A} `{Countable K} (m : gmap K A) : NoDup (map_iter m).*1.
Proof.
  unfold map_iter. rewrite (fmap_Permutation _ _ _ (iter_order_perm (map_to_list m))).
  apply NoDup_fst_map_to_list.
Qed.

Lemma elem_of_map_iter_fst {K A} `{Countable K} (m : gmap K A) k :
  is_Some (m !! k) → k ∈ (map_iter m).*1.
Proof. intros [x Hx]. apply list_elem_of_fmap. exists (k, x). split; [done|]. by apply elem_of_map_iter. Qed.

(** ** Scores do not change *)
Lemma result_of_grows g tc x st r :
  g !! tc = None → result_of g st = Some r → result_of (<[tc := x]> g) st = Some r.
Proof.
  intros Hg. unfold subtask_result. intros (scores & Hs & Hr)%bind_Some.
  apply bind_Some. exists scores. split; [|done]. apply mapM_Some. apply mapM_Some in Hs.
  eapply Forall2_impl; [done|]. intros tc' y Hy. rewrite lookup_insert_ne; [done|congruence].
Qed.

Lemma inv_given g s tc x :
  score_inv g s → g !! tc = None → is_nan x = false →
  score_inv (<[tc := x]> g) (with_testcase_scores (<[tc := Some x]> (testcase_scores s)) s).
Proof.
  intros [] Hg Hx. split; simpl; try done.
  - intros tc' Htc'. destruct (decide (tc = tc')) as [<-|].
    + by rewrite !lookup_insert_eq.
    + rewrite !lookup_insert_ne by done. by apply si_given0.
  - intros tc' y. destruct (decide (tc = tc')) as [<-|].
    + rewrite lookup_insert_eq. by intros [= <-].
    + rewrite lookup_insert_ne by done. apply si_nan0.
  - intros k n v. rewrite si_sent0. split.
    + intros (st & ? & ? & ?). exists st. split_and!; [done..|]. by apply result_of_grows.
    + intros (st & Hst & Hs & Hr). exists st. split_and!; [done..|].
      destruct (si_value0 k st v Hst Hs) as [n' Hn'].
      rewrite (result_of_grows _ _ _ _ _ Hg Hn') in Hr. congruence.
  - intros k st v Hst Hs. destruct (si_value0 k st v Hst Hs) as [n Hn]. exists n.
    by apply result_of_grows.
Qed.

Lemma inv_message_sent g s k tc x msg :
  score_inv g s →
  score_inv g (with_sm_channel (mkUIChannel
    (ui_sent (sm_channel s) ++ [IOITestcaseScore k tc (sm_solution s) x msg]) true) s).
Proof.
  intros []. split; simpl; try done; rewrite ?omap_app; simpl; by rewrite ?app_nil_r.
Qed.

Lemma settled_grows g s s' tc x :
  g !! tc = None → score_inv g s → settled g s → subtask_scores s' = subtask_scores s →
  ∀ k st, subtasks task !! k = Some st →
    subtask_scores s' !! k = Some None ∨
    subtask_scores s' !! k = Some (snd <$> result_of (<[tc := x]> g) st).
Proof.
  intros Hg Hi Hs -> k st Hst. rewrite (Hs k st Hst).
  destruct (result_of g st) as [r|] eqn:Hr; [right|by left].
  by rewrite (result_of_grows _ _ _ _ _ Hg Hr).
Qed.

(** ** The methods *)
Definition missing (o : option f64) : bool := match o with None => true | Some _ => false end.

Lemma score_spec g s k tc x msg :
  score_inv g s → settled g s → g !! tc = None → is_Some (testcases task !! tc) → is_nan x = false →
  wp (score k tc x msg) (λ _ s', score_inv (<[tc := x]> g) s' ∧ settled (<[tc := x]> g) s' ∧
    log s' = log s ++ [(k, tc, x, msg)]) no_error s.
Proof.
  intros Hi Hs Hg Htc Hx. unfold score. wp_step. apply wp_modify. wp_step. apply wp_get.
  pose proof (inv_given g s tc x Hi Hg Hx) as Hi1.
  set (s1 := with_testcase_scores _ s) in *.
  wp_step. apply wp_sm_send; [apply (si_open _ _ Hi1)|]. wp_step. apply wp_get.
  pose proof (inv_message_sent _ _ k tc x msg Hi1) as Hi2.
  set (s2 := with_sm_channel _ s1) in *.
  assert (log s2 = log s ++ [(k, tc, x, msg)]) as Hlog.
  { unfold log. simpl. by rewrite omap_app. }
  rewrite <-Hlog.
  rewrite (for_each_ext _ _ (λ p : SubtaskId * option f64,
    if missing p.2 then score_subtask p.1 else mret tt)) by (by intros [? []]).
  pose proof (settled_grows g s s2 tc x Hg Hi Hs eq_refl) as Hgrow.
  apply score_subtasks_spec.
  - done.
  - apply NoDup_map_iter.
  - intros k' st' Hst'. left. apply elem_of_map_iter_fst, (si_dom _ _ Hi2). eauto.
  - intros k' o Hin%elem_of_map_iter.
    assert (is_Some (subtasks task !! k')) as [st Hst] by (apply (si_dom _ _ Hi2); eauto).
    exists st. split; [done|]. destruct (Hgrow k' st Hst) as [Hn|Hn].
    + change (subtask_scores s2) with (subtask_scores s) in *. rewrite Hn in Hin.
      injection Hin as <-. done.
    + change (subtask_scores s2) with (subtask_scores s) in *. rewrite Hn in Hin.
      injection Hin as <-. destruct (result_of _ st); simpl; [done|by rewrite Hn].
Qed.

Lemma map_values_lookup (k : SubtaskId) st :
  subtasks task !! k = Some st →
  (list_to_map ((λ st, (subtask_id st, max_score st)) <$> values_iter (subtasks task))
    : gmap SubtaskId f64) !! k = Some (max_score st).
Proof.
  intros Hst. apply elem_of_list_to_map.
  - rewrite <-list_fmap_compose. unfold values_iter.
    assert ((fst ∘ (λ st, (subtask_id st, max_score st))) <$> (map_iter (subtasks task)).*2
      = (map_iter (subtasks task)).*1) as ->; [|apply NoDup_map_iter].
    rewrite <-list_fmap_compose. apply list_fmap_ext. intros i [k' st'] Hin. simpl.
    by destruct (Htask k' st') as [? _]; [apply elem_of_map_iter, list_elem_of_lookup; eauto|].
  - apply list_elem_of_fmap. exists st. split; [by destruct (Htask k st Hst) as [-> _]|].
    apply list_elem_of_fmap. exists (k, st). split; [done|]. by apply elem_of_map_iter.
Qed.

Lemma init_inv : score_inv ∅ (ScoreManager_init task sol (mkUIChannel [] true)).
Proof.
  split; simpl; try done.
  - apply map_values_lookup.
  - intros tc [t Ht]. by rewrite lookup_fmap, Ht, lookup_empty.
  - intros k. by rewrite lookup_fmap, fmap_is_Some.
  - apply NoDup_nil_2.
  - intros k n v. split; [by intros ?%not_elem_of_nil|].
    intros (st & Hst & Hs & _). by rewrite lookup_fmap, Hst in Hs.
  - intros k st v Hst. by rewrite lookup_fmap, Hst.
  - destruct (decide (subtasks task = ∅)) as [->|Hne]; [by rewrite fmap_empty|].
    apply map_choose in Hne as (k & st & Hst). symmetry. apply (task_total_missing _ k).
    by rewrite lookup_fmap, Hst.
Qed.

Lemma new_spec :
  wp (ScoreManager_new task) (λ _ s', score_inv ∅ s' ∧ settled ∅ s' ∧ log s' = []) no_error
    (ScoreManager_init task sol (mkUIChannel [] true)).
Proof.
  pose proof init_inv as Hi. unfold ScoreManager_new.
  set (todo := λ st, bool_decide (subtask_testcases st = [])).
  rewrite (for_each_ext _ _ (λ p : SubtaskId * SubtaskInfo,
    if todo p.2 then score_subtask p.1 else mret tt))
    by (intros [k st]; unfold todo; simpl; by destruct (subtask_testcases st)).
  apply score_subtasks_spec.
  - done.
  - apply NoDup_map_iter.
  - intros k st Hst. left. apply elem_of_map_iter_fst. eauto.
  - intros k st Hin%elem_of_map_iter. exists st. split; [done|]. simpl.
    rewrite lookup_fmap, Hin. unfold todo, subtask_result.
    destruct (subtask_testcases st) as [|tc l]; [done|]. simpl. by rewrite lookup_empty.
Qed.

Lemma given_snoc calls c :
  given (calls ++ [c]) = <[call_testcase c := call_score c]> (given calls).
Proof. unfold given. by rewrite foldl_app. Qed.

Lemma given_None calls tc : tc ∉ call_testcase <$> calls → given calls !! tc = None.
Proof.
  induction calls as [|c calls IH] using rev_ind; intros Hn; [apply lookup_empty|].
  rewrite fmap_app, not_elem_of_app in Hn. destruct Hn as [Hn Hc].
  rewrite given_snoc, lookup_insert_ne by (intros Heq; apply Hc; rewrite <-Heq; by left). by apply IH.
Qed.

Definition call_log (calls : list call) : list (SubtaskId * TestcaseId * f64 * string) :=
  (λ c, (call_subtask c, call_testcase c, call_score c, call_message c)) <$> calls.

(** The calls [done] were made, the calls [todo] are still to come. *)
Lemma calls_spec before after s :
  NoDup (call_testcase <$> before ++ after) →
  Forall (λ c, is_Some (testcases task !! call_testcase c) ∧ is_nan (call_score c) = false) after →
  score_inv (given before) s → settled (given before) s → log s = call_log before →
  wp (for_each after (λ c, score (call_subtask c) (call_testcase c) (call_score c) (call_message c)))
    (λ _ s', score_inv (given (before ++ after)) s' ∧ settled (given (before ++ after)) s' ∧
       log s' = call_log (before ++ after)) no_error s.
Proof.
  revert before s. induction after as [|c after IH]; intros before s Hnd Hok Hi Hs Hlog.
  { apply wp_ret. by rewrite app_nil_r. }
  apply Forall_cons in Hok as [[Hc Hx] Hok]. apply wp_bind.
  eapply wp_mono; [apply (score_spec (given before)); try done| |done].
  - apply given_None. rewrite fmap_app in Hnd. apply NoDup_app in Hnd as (_ & Hdis & _).
    intros Hin. apply (Hdis _ Hin). by left.
  - intros [] s' (Hi' & Hs' & Hlog'). rewrite <-given_snoc in Hi', Hs'.
    replace (before ++ c :: after) with ((before ++ [c]) ++ after) in * by (by rewrite <-app_assoc).
    apply IH; [done|done|done|done|]. rewrite Hlog', Hlog. unfold call_log. by rewrite fmap_app.
Qed.
End manager.

Lemma score_all_run `{IterOrder} task solution calls :
  task_ok task → calls_ok task calls →
  ∃ s, score_all task solution calls = (Ret tt, s) ∧
    score_inv task solution (given calls) s ∧ settled task (given calls) s ∧
    log s = (λ c, (call_subtask c, call_testcase c, call_score c, call_message c)) <$> calls.
Proof.
  intros Htask [Hnd Hok].
  assert (wp (_ ← ScoreManager_new task;
     for_each calls (λ c, score (call_subtask c) (call_testcase c) (call_score c) (call_message c)))
    (λ _ s', score_inv task solution (given calls) s' ∧ settled task (given calls) s' ∧
       log s' = (λ c, (call_subtask c, call_testcase c, call_score c, call_message c)) <$> calls)
    no_error (ScoreManager_init task solution (mkUIChannel [] true))) as Hw.
  { apply wp_bind. eapply wp_mono; [by apply (new_spec task solution)| |done].
    intros [] s (Hi & Hs & Hlog).
    eapply (calls_spec task solution Htask [] calls); done. }
  apply wp_run in Hw as ([] & s & Hrun & Hw). by exists s.
Qed.

(** The results that were sent are the ones of the specification. *)
Lemma settled_sent `{IterOrder} task solution g s :
  score_inv task solution g s → settled task g s →
  ∀ k n v, (k, n, v) ∈ omap sent_subtask (ui_sent (sm_channel s)) ↔
    ∃ st, subtasks task !! k = Some st ∧
          subtask_result (testcase_score_aggregator task) g st = Some (n, v).
Proof.
  intros Hi Hs k n v. rewrite (si_sent _ _ _ _ Hi). split; [naive_solver|].
  intros (st & Hst & Hr). exists st. split_and!; [done| |done]. by rewrite (Hs k st Hst), Hr.
Qed.

(** C22: for a well-formed task, with the channel open, and scores of its testcases, each
    scored at most once and none with a NaN (on which the aggregation panics,
    [aggregate_nan_panics]): whatever their order the manager does not fail; a subtask has
    its score exactly when all its testcases have one, the product of its maximum score and
    of the aggregated scores; that score was sent once, and the score of the task, the sum of the ones of the subtasks, once, when
    all the subtasks had theirs; the testcase scores were sent in order. *)
Theorem score_manager_correct `{IterOrder} task solution calls :
  task_ok task → calls_ok task calls →
  ∃ s, score_all task solution calls = (Ret tt, s) ∧
    let result := subtask_result (testcase_score_aggregator task) (given calls) in
    let sent := ui_sent (sm_channel s) in
    (∀ k st, subtasks task !! k = Some st → subtask_scores s !! k = Some (snd <$> result st)) ∧
    NoDup ((λ p : SubtaskId * f64 * f64, p.1.1) <$> omap sent_subtask sent) ∧
    (∀ k n v, (k, n, v) ∈ omap sent_subtask sent ↔
       ∃ st, subtasks task !! k = Some st ∧ result st = Some (n, v)) ∧
    omap sent_task sent = task_total (subtask_scores s) ∧
    omap sent_testcase sent =
      (λ c, (call_subtask c, call_testcase c, call_score c, call_message c)) <$> calls.
Proof.
  intros Htask Hcalls. destruct (score_all_run task solution calls Htask Hcalls) as (s & Hrun & Hi & Hs & Hlog).
  exists s. split; [exact Hrun|]. split_and!; [done|apply Hi| |apply Hi|done].
  by apply (settled_sent task solution).
Qed.

(** ** An example *)
Definition ex_subtask (id : SubtaskId) (max : f64) (tcs : list TestcaseId) : SubtaskInfo :=
  mkSubtask id None max tcs tcs None false [] false.
Definition ex_task : IOITask :=
  mkTask [] "task" "Task" None None
    {[0%N := ex_subtask 0 (f64_of_Z 0) []; 1%N := ex_subtask 1 (f64_of_Z 40) [0%N; 1%N];
      2%N := ex_subtask 2 (f64_of_Z 60) [1%N]]}
    {[0%N := mkTestcase 0 None None; 1%N := mkTestcase 1 None None]} Min 0.
Definition ex_calls : list call :=
  [mkCall 1 0 f64_one "ok"; mkCall 1 1 (f64_dec 5 1) "half"].
Definition ex_scored : ScoreManager := (score_all (H := forward_order) ex_task [] ex_calls).2.

Example ex_scores :
  omap sent_task (ui_sent (sm_channel ex_scored)) = [f64_of_Z 50] ∧
  (omap sent_subtask (ui_sent (sm_channel ex_scored))).*1.*1 = [0%N; 2%N; 1%N].
Proof. vm_compute. split; reflexivity. Qed.

Lemma ex_task_ok : task_ok ex_task.
Proof.
  assert (map_Forall (λ k st, subtask_id st = k ∧
    Forall (λ tc, is_Some (testcases ex_task !! tc)) (subtask_testcases st)) (subtasks ex_task)) as Hf.
  { apply (bool_decide_unpack _). vm_compute. done. }
  intros k st Hst. destruct (Hf k st Hst) as [? Ht]. rewrite Forall_forall in Ht. done.
Qed.

Lemma aggregate_min_witness :
  ∃ r, aggregate Min [f64_one; f64_dec 5 1] = Ret r ∧
    ([f64_one; f64_dec 5 1] = [] ∧ r = f64_one ∨
     r ∈ [f64_one; f64_dec 5 1] ∧ (∀ x, x ∈ [f64_one; f64_dec 5 1] → f64_leb r x = true) ∧
     f64_leb f64_zero r = true ∧ f64_leb r f64_one = true).
Proof.
  apply aggregate_min; [by repeat constructor|].
  apply Forall_forall. repeat constructor; vm_compute; done.
Defined.

Lemma score_manager_correct_witness :
  omap sent_task (ui_sent (sm_channel ex_scored)) =
  task_total (H := forward_order) (subtask_scores ex_scored).
Proof.
  destruct (score_manager_correct (H := forward_order) ex_task [] ex_calls) as (s & Hs & _ & _ & _ & Ht & _).
  - apply ex_task_ok.
  - split; [apply (bool_decide_unpack _); vm_compute; done|].
    repeat constructor; apply (bool_decide_unpack _); vm_compute; done.
  - unfold ex_scored. rewrite Hs. exact Ht.
Defined.
