(* ===== verification/UiState.v ===== *)
(** * The state of the user interface ([task-maker-format/src/ioi/ui_state.rs])

    [UIState] is what an evaluation is shown from and what the checks of the
    solutions are evaluated on: the messages are applied one at a time. *)
From S2P Require Import Prelude Float64 Paths StoreKey Dag Scheduler Text Diagnostics Checks.
From S2P Require Import UiMessage Scoring.

(** ** Statuses *)
Inductive TestcaseGenerationStatus : Type :=
  | TGS_Pending | TGS_Generating | TGS_Generated | TGS_Validating | TGS_Validated
  | TGS_Solving | TGS_Solved | TGS_Failed | TGS_Skipped.
#[export] Instance TestcaseGenerationStatus_eq_dec : EqDecision TestcaseGenerationStatus.
Proof. solve_decision. Defined.

Inductive TestcaseEvaluationStatus : Type :=
  | TES_Pending | TES_Solving | TES_Solved | TES_Checking
  | TES_Accepted (message : string) | TES_WrongAnswer (message : string)
  | TES_Partial (message : string)
  | TES_TimeLimitExceeded | TES_WallTimeLimitExceeded | TES_MemoryLimitExceeded
  | TES_RuntimeError | TES_Failed | TES_Skipped.
#[export] Instance TestcaseEvaluationStatus_eq_dec : EqDecision TestcaseEvaluationStatus.
Proof. solve_decision. Defined.

(** [From<&TestcaseEvaluationStatus> for Option<TestcaseEvaluationResult>]. *)
Definition result_of_status (s : TestcaseEvaluationStatus) : option TestcaseEvaluationResult :=
  match s with
  | TES_Accepted _ => Some TER_Accepted
  | TES_Partial _ => Some TER_Partial
  | TES_WrongAnswer _ => Some TER_WrongAnswer
  | TES_TimeLimitExceeded => Some TER_TimeLimitExceeded
  | TES_WallTimeLimitExceeded => Some TER_WallTimeLimitExceeded
  | TES_MemoryLimitExceeded => Some TER_MemoryLimitExceeded
  | TES_RuntimeError => Some TER_RuntimeError
  | _ => None
  end.

Definition has_completed (s : TestcaseEvaluationStatus) : bool :=
  match s with TES_Pending | TES_Solving | TES_Solved | TES_Checking => false | _ => true end.
Definition tes_is_success (s : TestcaseEvaluationStatus) : bool :=
  match s with TES_Accepted _ => true | _ => false end.
Definition tes_is_partial (s : TestcaseEvaluationStatus) : bool :=
  match s with TES_Partial _ => true | _ => false end.

Definition or_default (s default : string) : string := if decide (s = EmptyString) then default else s.
Definition tes_message (s : TestcaseEvaluationStatus) : string :=
  match s with
  | TES_Pending => "Not done"
  | TES_Solving => "Solution running"
  | TES_Solved => "Solution completed"
  | TES_Checking => "Checker running"
  | TES_Accepted s => or_default s "Output is correct"
  | TES_WrongAnswer s => or_default s "Output is not correct"
  | TES_Partial s => or_default s "Partially correct"
  | TES_TimeLimitExceeded => "Time limit exceeded"
  | TES_WallTimeLimitExceeded => "Execution took too long"
  | TES_MemoryLimitExceeded => "Memory limit exceeded"
  | TES_RuntimeError => "Runtime error"
  | TES_Failed => "Execution failed"
  | TES_Skipped => "Execution skipped"
  end.

(** ** State *)
Record TestcaseGenerationState : Type := mkGen {
  gen_status : TestcaseGenerationStatus;
  generation : option ExecutionResult;
  validation : option ExecutionResult;
  gen_solution : option (list ExecutionResult)
}.
Abbreviation SubtaskGenerationState := (gmap TestcaseId TestcaseGenerationState) (only parsing).

Record SolutionTestcaseEvaluationState : Type := mkTestcaseEval {
  te_score : option f64;
  te_status : TestcaseEvaluationStatus;
  te_results : list (option ExecutionResult);
  te_checker : option ExecutionResult
}.

Record SolutionSubtaskEvaluationState : Type := mkSubtaskEval {
  se_score : option f64;
  se_normalized_score : option f64
}.

Record SolutionEvaluationState : Type := mkEval {
  ev_score : option f64;
  ev_subtasks : gmap SubtaskId SolutionSubtaskEvaluationState;
  ev_testcases : gmap TestcaseId SolutionTestcaseEvaluationState
}.

Record BookletState : Type := mkBooklet {
  booklet_status : UIExecutionStatus;
  booklet_dependencies : gmap string (list UIExecutionStatus)
}.

Record UIState : Type := mkUIState {
  ui_task : IOITask;
  ui_config : ExecutionDAGConfig;
  ui_max_score : f64;
  ui_solutions : gmap PathBuf SolutionInfo;
  compilations : gmap PathBuf CompilationStatus;
  generations : gmap SubtaskId SubtaskGenerationState;
  evaluations : gmap PathBuf SolutionEvaluationState;
  executor_status : option (ExecutorStatus SystemTime);
  booklets : gmap string BookletState;
  ui_diagnostics : DiagnosticContext
}.

Definition with_ui_solutions x (s : UIState) : UIState :=
  mkUIState (ui_task s) (ui_config s) (ui_max_score s) x (compilations s) (generations s)
    (evaluations s) (executor_status s) (booklets s) (ui_diagnostics s).
Definition with_compilations x (s : UIState) : UIState :=
  mkUIState (ui_task s) (ui_config s) (ui_max_score s) (ui_solutions s) x (generations s)
    (evaluations s) (executor_status s) (booklets s) (ui_diagnostics s).
Definition with_generations x (s : UIState) : UIState :=
  mkUIState (ui_task s) (ui_config s) (ui_max_score s) (ui_solutions s) (compilations s) x
    (evaluations s) (executor_status s) (booklets s) (ui_diagnostics s).
Definition with_evaluations x (s : UIState) : UIState :=
  mkUIState (ui_task s) (ui_config s) (ui_max_score s) (ui_solutions s) (compilations s)
    (generations s) x (executor_status s) (booklets s) (ui_diagnostics s).
Definition with_executor_status x (s : UIState) : UIState :=
  mkUIState (ui_task s) (ui_config s) (ui_max_score s) (ui_solutions s) (compilations s)
    (generations s) (evaluations s) x (booklets s) (ui_diagnostics s).
Definition with_booklets x (s : UIState) : UIState :=
  mkUIState (ui_task s) (ui_config s) (ui_max_score s) (ui_solutions s) (compilations s)
    (generations s) (evaluations s) (executor_status s) x (ui_diagnostics s).
Definition with_ui_diagnostics x (s : UIState) : UIState :=
  mkUIState (ui_task s) (ui_config s) (ui_max_score s) (ui_solutions s) (compilations s)
    (generations s) (evaluations s) (executor_status s) (booklets s) x.

Section ui_state.
Context `{IterOrder}.

(** Maps are collected from the values of the maps of the task: a later value with
    the same id replaces an earlier one. *)
Definition collect {K A} `{Countable K} (l : list (K * A)) : gmap K A :=
  foldl (λ m p, <[p.1 := p.2]> m) ∅ l.

Definition SolutionEvaluationState_new (task : IOITask) : SolutionEvaluationState :=
  mkEval None
    (collect ((λ st, (subtask_id st, mkSubtaskEval None None)) <$> values_iter (subtasks task)))
    (collect ((λ tc, (testcase_id tc, mkTestcaseEval None TES_Pending [] None))
                <$> values_iter (testcases task))).

Definition UIState_new (task : IOITask) (config : ExecutionDAGConfig) : UIState :=
  mkUIState task config (f64_sum (max_score <$> values_iter (subtasks task))) ∅ ∅
    ((λ st, collect ((λ tc, (tc, mkGen TGS_Pending None None None)) <$> testcases_owned st))
       <$> subtasks task)
    ∅ None ∅ DiagnosticContext_new.

(** ** [SolutionTestcaseEvaluationState::is_close_to_limits] *)

(** [f64::ceil]: the least integer that is not below, the sign of a zero kept. *)
Definition f64_ceil (x : f64) : f64 :=
  match x with
  | S754_finite neg m e =>
      if (0 <=? e)%Z then x
      else
        let n := (if neg then - (Zpos m / 2 ^ (- e)) else - (Zneg m / 2 ^ (- e)))%Z in
        if (n =? 0)%Z then S754_zero neg else f64_of_Z n
  | _ => x
  end.

Definition close_to_limits (time_limit : option f64) (extra_time : f64) (memory_limit : option N)
    (threshold : f64) (result : ExecutionResult) : bool :=
  let r := Dag.resources result in
  match time_limit with
  | Some limit =>
      f64_leb (f64_mul limit threshold) (res_cpu_time r)
      && f64_leb (res_cpu_time r) (f64_div limit threshold)
      && f64_leb (res_cpu_time r) (f64_sub (f64_ceil (f64_add limit extra_time)) (f64_dec 1 1))
  | None => false
  end
  || match memory_limit with
     | Some limit =>
         f64_leb (f64_mul (f64_mul (f64_of_Z (Z.of_N limit)) (f64_of_Z 1024)) threshold)
           (f64_of_Z (Z.of_N (res_memory r)))
     | None => false
     end.
Definition is_close_to_limits (s : SolutionTestcaseEvaluationState) (time_limit : option f64)
    (extra_time : f64) (memory_limit : option N) (threshold : f64) : bool :=
  existsb (close_to_limits time_limit extra_time memory_limit threshold) (omap id (te_results s)).

(** ** [apply] *)

(** [generations.get_mut(&subtask)] and [testcases.get_mut(&testcase)]. *)
Definition on_generation (subtask : SubtaskId) (testcase : TestcaseId)
    (f : TestcaseGenerationState → Outcome TestcaseGenerationState) : M UIState unit :=
  s ← get_st;
  st ← lift (unwrap "Subtask is gone" (generations s !! subtask));
  gen ← lift (unwrap "Testcase is gone" (st !! testcase));
  gen ← lift (f gen);
  modify (with_generations (<[subtask := <[testcase := gen]> st]> (generations s))).

Definition set_gen_status (x : TestcaseGenerationStatus) (g : TestcaseGenerationState) :
    TestcaseGenerationState := mkGen x (generation g) (validation g) (gen_solution g).
Definition skip_gen (g : TestcaseGenerationState) : TestcaseGenerationState :=
  match gen_status g with TGS_Failed => g | _ => set_gen_status TGS_Skipped g end.

Definition apply_generation (status : UIExecutionStatus) (g : TestcaseGenerationState) :
    Outcome TestcaseGenerationState :=
  match status with
  | UI_Pending => Ret (set_gen_status TGS_Pending g)
  | UI_Started _ => Ret (set_gen_status TGS_Generating g)
  | UI_Done [r] =>
      let g := set_gen_status (match Dag.status r with Success => TGS_Generated | _ => TGS_Failed end) g in
      Ret (mkGen (gen_status g) (Some r) (validation g) (gen_solution g))
  | UI_Done _ => Panicked "assertion failed: result.len() == 1"
  | UI_Skipped => Ret (set_gen_status TGS_Skipped g)
  end.

Definition apply_validation (status : UIExecutionStatus) (g : TestcaseGenerationState) :
    Outcome TestcaseGenerationState :=
  match status with
  | UI_Pending => Ret (set_gen_status TGS_Pending g)
  | UI_Started _ => Ret (set_gen_status TGS_Validating g)
  | UI_Done [r] =>
      let g := set_gen_status (match Dag.status r with Success => TGS_Validated | _ => TGS_Failed end) g in
      Ret (mkGen (gen_status g) (generation g) (Some r) (gen_solution g))
  | UI_Done _ => Panicked "assertion failed: result.len() == 1"
  | UI_Skipped => Ret (skip_gen g)
  end.

Definition apply_solution (status : UIExecutionStatus) (g : TestcaseGenerationState) :
    TestcaseGenerationState :=
  match status with
  | UI_Pending => set_gen_status TGS_Pending g
  | UI_Started _ => set_gen_status TGS_Solving g
  | UI_Done rs =>
      let g := set_gen_status
        (if forallb (λ r, is_success (Dag.status r)) rs then TGS_Solved else TGS_Failed) g in
      mkGen (gen_status g) (generation g) (validation g) (Some rs)
  | UI_Skipped => skip_gen g
  end.

(** [evaluations.entry(solution).or_insert_with(..)]. *)
Definition on_evaluation (solution : PathBuf)
    (f : SolutionEvaluationState → Outcome SolutionEvaluationState) : M UIState unit :=
  s ← get_st;
  let eval := default (SolutionEvaluationState_new (ui_task s)) (evaluations s !! solution) in
  _ ← modify (with_evaluations (<[solution := eval]> (evaluations s)));
  eval ← lift (f eval);
  modify (λ s, with_evaluations (<[solution := eval]> (evaluations s)) s).

Definition on_testcase (solution : PathBuf) (testcase : TestcaseId)
    (f : SolutionTestcaseEvaluationState → Outcome SolutionTestcaseEvaluationState) :
    M UIState unit :=
  on_evaluation solution (λ e,
    tc ← unwrap "Missing testcase" (ev_testcases e !! testcase);
    tc ← f tc;
    Ret (mkEval (ev_score e) (ev_subtasks e) (<[testcase := tc]> (ev_testcases e)))).

Definition set_te_status (x : TestcaseEvaluationStatus) (t : SolutionTestcaseEvaluationState) :
    SolutionTestcaseEvaluationState := mkTestcaseEval (te_score t) x (te_results t) (te_checker t).

(** The status for the last execution that was not successful. *)
Definition failed_status (s : ExecutionStatus) : TestcaseEvaluationStatus :=
  match s with
  | Success => TES_Solved
  | Failure _ | ReturnCode _ | Signal _ _ => TES_RuntimeError
  | TimeLimitExceeded | SysTimeLimitExceeded => TES_TimeLimitExceeded
  | WallTimeLimitExceeded => TES_WallTimeLimitExceeded
  | MemoryLimitExceeded => TES_MemoryLimitExceeded
  | InternalError _ => TES_Failed
  end.
Definition evaluation_status (rs : list ExecutionResult) : TestcaseEvaluationStatus :=
  match filter (λ r, is_success (Dag.status r) = false) (reverse rs) with
  | r :: _ => failed_status (Dag.status r)
  | [] => TES_Solved
  end.

Definition apply_evaluation (status : UIExecutionStatus) (t : SolutionTestcaseEvaluationState) :
    SolutionTestcaseEvaluationState :=
  match status with
  | UI_Pending => t
  | UI_Started _ => set_te_status TES_Solving t
  | UI_Done rs => mkTestcaseEval (te_score t) (evaluation_status rs) (Some <$> rs) (te_checker t)
  | UI_Skipped => set_te_status TES_Skipped t
  end.

Definition apply_checker (status : UIExecutionStatus) (t : SolutionTestcaseEvaluationState) :
    Outcome SolutionTestcaseEvaluationState :=
  match status with
  | UI_Started _ => Ret (set_te_status TES_Checking t)
  | UI_Done (r :: _) => Ret (mkTestcaseEval (te_score t) (te_status t) (te_results t) (Some r))
  | UI_Done [] => Panicked "index out of bounds"
  | _ => Ret t
  end.

Definition manager_succeeded (t : SolutionTestcaseEvaluationState) : bool :=
  match te_results t with
  | Some r :: _ :: _ => is_success (Dag.status r)
  | _ => false
  end.

Definition score_status (score : f64) (message : string) (t : SolutionTestcaseEvaluationState) :
    TestcaseEvaluationStatus :=
  if negb (has_completed (te_status t)) then
    match from_score score f64_one with
    | SS_WrongAnswer => TES_WrongAnswer message
    | SS_Accepted => TES_Accepted message
    | SS_PartialScore => TES_Partial message
    end
  else if bool_decide (te_status t = TES_RuntimeError) && f64_leb score (f64_dec 1 8)
          && manager_succeeded t
  then TES_WrongAnswer (message +:+ " maybe caused by runtime error")
  else te_status t.

Definition apply_testcase_score (score : f64) (message : string)
    (t : SolutionTestcaseEvaluationState) : SolutionTestcaseEvaluationState :=
  mkTestcaseEval (Some score) (score_status score message t) (te_results t) (te_checker t).

Definition booklet_or_pending (s : UIState) (name : string) : BookletState :=
  default (mkBooklet UI_Pending ∅) (booklets s !! name).

Definition apply_dependency (booklet name : string) (step num_steps : nat)
    (status : UIExecutionStatus) : M UIState unit :=
  s ← get_st;
  let b := booklet_or_pending s booklet in
  let steps := default (replicate num_steps UI_Pending) (booklet_dependencies b !! name) in
  _ ← modify (with_booklets (<[booklet := mkBooklet (booklet_status b)
        (<[name := steps]> (booklet_dependencies b))]> (booklets s)));
  _ ← lift (unwrap "Statement dependency step is gone" (steps !! step));
  modify (with_booklets (<[booklet := mkBooklet (booklet_status b)
    (<[name := <[step := status]> steps]> (booklet_dependencies b))]> (booklets s))).

Definition apply (message : UIMessage) : M UIState unit :=
  match message with
  | StopUI | UI_IOITask _ => mret tt
  | ServerStatus status => modify (with_executor_status (Some status))
  | Solutions solutions =>
      modify (with_ui_solutions (collect ((λ info, (info_path info, info)) <$> solutions)))
  | Compilation file status =>
      s ← get_st;
      _ ← modify (with_compilations (<[file := default CS_Pending (compilations s !! file)]> (compilations s)));
      c ← lift (apply_status status);
      modify (λ s, with_compilations (<[file := c]> (compilations s)) s)
  | IOIGeneration subtask testcase status =>
      on_generation subtask testcase (apply_generation status)
  | IOIValidation subtask testcase status =>
      s ← get_st;
      st ← lift (unwrap "Subtask is gone" (generations s !! subtask));
      match st !! testcase with
      | None => mret tt
      | Some _ => on_generation subtask testcase (apply_validation status)
      end
  | IOISolution subtask testcase status =>
      on_generation subtask testcase (λ g, Ret (apply_solution status g))
  | IOIEvaluation _ testcase solution status _ =>
      on_testcase solution testcase (λ t, Ret (apply_evaluation status t))
  | IOIChecker _ testcase solution status =>
      on_testcase solution testcase (apply_checker status)
  | IOITestcaseScore _ testcase solution score message =>
      on_testcase solution testcase (λ t, Ret (apply_testcase_score score message t))
  | IOISubtaskScore subtask solution normalized_score score =>
      on_evaluation solution (λ e,
        _ ← unwrap "Missing subtask" (ev_subtasks e !! subtask);
        Ret (mkEval (ev_score e)
          (<[subtask := mkSubtaskEval (Some score) (Some normalized_score)]> (ev_subtasks e))
          (ev_testcases e)))
  | IOITaskScore solution score =>
      on_evaluation solution (λ e, Ret (mkEval (Some score) (ev_subtasks e) (ev_testcases e)))
  | IOIBooklet name status =>
      modify (λ s, with_booklets (<[name := mkBooklet status
        (booklet_dependencies (booklet_or_pending s name))]> (booklets s)) s)
  | IOIBookletDependency booklet name step num_steps status =>
      apply_dependency booklet name step num_steps status
  | UI_Diagnostic d => modify (λ s, with_ui_diagnostics (add_diagnostic d (ui_diagnostics s)) s)
  | UI_TerryTask _ | TerryGeneration _ _ _ | TerryValidation _ _ | TerrySolution _ _
  | TerryChecker _ _ | TerrySolutionOutcome _ _ => panic "Terry message on IOI UI"
  end.
End ui_state.

(** ** The checks of the solutions *)

(** The normalization of Unicode and the patterns of the crate [wildmatch]. *)
Class NamePatterns : Type := {
  nfkc : text → text;
  wild_matches (pattern name : text) : bool
}.

Record SolutionCheckOutcome : Type := mkCheckOutcome {
  co_solution : PathBuf;
  co_check : SolutionCheck;
  co_subtask : SubtaskId;
  co_success : bool
}.

Section checks.
Context `{IterOrder} `{NamePatterns}.

Definition name_matches (pattern : text) (st : SubtaskInfo) : bool :=
  match subtask_name st with Some name => wild_matches pattern name | None => false end.
Definition find_subtasks_by_pattern_name (task : IOITask) (pattern : text) : list SubtaskInfo :=
  filter (λ st, name_matches (nfkc pattern) st = true) (values_iter (subtasks task)).

Definition testcase_result (e : SolutionEvaluationState) (tc : TestcaseId) :
    Outcome (option TestcaseEvaluationResult) :=
  t ← index (ev_testcases e) tc; Ret (result_of_status (te_status t)).

(** The body of the innermost loop of [run_solution_checks]. *)
Definition run_check (s : UIState) (path : PathBuf) (c : SolutionCheck) (subtask : SubtaskInfo) :
    Outcome (list SolutionCheckOutcome) :=
  match evaluations s !! path with
  | None => Ret []
  | Some e =>
      st ← index (subtasks (ui_task s)) (subtask_id subtask);
      results ← try_map (testcase_result e) (subtask_testcases st);
      match mapM id results with
      | None => Ret []
      | Some results =>
          Ret [mkCheckOutcome path c (subtask_id subtask) (check (check_result c) results)]
      end
  end.

(** A loop that appends the results of its turns. *)
Definition flat_map_try {A B} (f : A → Outcome (list B)) (l : list A) : Outcome (list B) :=
  ls ← try_map f l; Ret (concat ls).

Definition run_check_on_subtasks (s : UIState) (path : PathBuf) (c : SolutionCheck) :
    Outcome (list SolutionCheckOutcome) :=
  flat_map_try (run_check s path c)
    (find_subtasks_by_pattern_name (ui_task s) (subtask_name_pattern c)).
Definition run_solution_checks (s : UIState) : Outcome (list SolutionCheckOutcome) :=
  flat_map_try (λ p : PathBuf * SolutionInfo,
    flat_map_try (run_check_on_subtasks s p.1) (info_checks p.2)) (map_iter (ui_solutions s)).
End checks.
