(* ===== verification/UiStateCorrect.v ===== *)
(** * The state of the user interface is right

    The well-formedness of [UIState] ([UiState]) and its preservation, the agreement
    between the scores of the manager ([Scoring]) and the ones shown, and what
    the evaluation of the checks returns. *)
From S2P Require Import Prelude Float64 Paths StoreKey Dag Scheduler Text Diagnostics Checks.
From S2P Require Import UiMessage Scoring ScoringCorrect UiState.

(** ** Well-formed states *)

(** Subtasks and testcases are stored under their numbers. *)
Definition task_ids (task : IOITask) : Prop :=
  (∀ k st, subtasks task !! k = Some st → subtask_id st = k) ∧
  (∀ k tc, testcases task !! k = Some tc → testcase_id tc = k).

(** The state of a solution has an entry for exactly the subtasks and the testcases
    of the task. *)
Record eval_wf (task : IOITask) (e : SolutionEvaluationState) : Prop := {
  ew_subtasks : ∀ k, is_Some (ev_subtasks e !! k) ↔ is_Some (subtasks task !! k);
  ew_testcases : ∀ k, is_Some (ev_testcases e !! k) ↔ is_Some (testcases task !! k)
}.

Record ui_wf (s : UIState) : Prop := {
  uw_ids : task_ids (ui_task s);
  uw_evaluations : ∀ p e, evaluations s !! p = Some e → eval_wf (ui_task s) e;
  uw_generations : ∀ k st, subtasks (ui_task s) !! k = Some st →
    ∃ g, generations s !! k = Some g ∧ ∀ tc, is_Some (g !! tc) ↔ tc ∈ testcases_owned st
}.

Definition single (status : UIExecutionStatus) : Prop :=
  match status with UI_Done l => length l = 1 | _ => True end.

(** The messages an evaluation of the task of the state can send. *)
Definition message_ok (s : UIState) (m : UIMessage) : Prop :=
  let task := ui_task s in
  match m with
  | Compilation _ status => single status
  | IOIGeneration k tc status =>
      (∃ st, subtasks task !! k = Some st ∧ tc ∈ testcases_owned st) ∧ single status
  | IOIValidation k _ status => is_Some (subtasks task !! k) ∧ single status
  | IOISolution k tc _ => ∃ st, subtasks task !! k = Some st ∧ tc ∈ testcases_owned st
  | IOIEvaluation _ tc _ _ _ | IOITestcaseScore _ tc _ _ _ => is_Some (testcases task !! tc)
  | IOIChecker _ tc _ status =>
      is_Some (testcases task !! tc) ∧ match status with UI_Done l => l ≠ [] | _ => True end
  | IOISubtaskScore k _ _ _ => is_Some (subtasks task !! k)
  | IOIBookletDependency booklet name step num_steps _ =>
      step < length (default (replicate num_steps UI_Pending)
        (booklet_dependencies (booklet_or_pending s booklet) !! name))
  | UI_TerryTask _ | TerryGeneration _ _ _ | TerryValidation _ _ | TerrySolution _ _
  | TerryChecker _ _ | TerrySolutionOutcome _ _ => False
  | _ => True
  end.

(** ** Collected maps *)
Lemma lookup_collect_is_Some {K A} `{Countable K} (l : list (K * A)) k :
  is_Some (collect l !! k) ↔ k ∈ l.*1.
Proof.
  unfold collect. assert (∀ m : gmap K A, is_Some (foldl (λ m p, <[p.1 := p.2]> m) m l !! k) ↔
    is_Some (m !! k) ∨ k ∈ l.*1) as Hm.
  { induction l as [|[k' a] l IH]; intros m; simpl; [set_solver|]. rewrite IH, elem_of_cons.
    destruct (decide (k = k')) as [->|].
    - rewrite lookup_insert_eq. split; eauto.
    - rewrite lookup_insert_ne by done. naive_solver. }
  rewrite Hm, lookup_empty, is_Some_alt. naive_solver.
Qed.

Lemma elem_of_collect {K A} `{Countable K} (l : list (K * A)) k a :
  collect l !! k = Some a → (k, a) ∈ l.
Proof.
  unfold collect. induction l as [|[k' a'] l IH] using rev_ind; simpl; [by rewrite lookup_empty|].
  rewrite foldl_app. simpl. destruct (decide (k = k')) as [->|].
  - rewrite lookup_insert_eq. intros [= ->]. set_solver.
  - rewrite lookup_insert_ne by done. set_solver.
Qed.

Lemma ids_of_values `{IterOrder} {A} (m : gmap N A) (id : A → N) k :
  (∀ k x, m !! k = Some x → id x = k) → k ∈ id <$> values_iter m ↔ is_Some (m !! k).
Proof.
  intros Hid. rewrite list_elem_of_fmap. unfold values_iter. split.
  - intros (x & -> & ([k' y] & -> & Hy%elem_of_map_iter)%list_elem_of_fmap). simpl.
    rewrite (Hid _ _ Hy). eauto.
  - intros [x Hx]. exists x. split; [by rewrite (Hid _ _ Hx)|].
    apply list_elem_of_fmap. exists (k, x). split; [done|]. by apply elem_of_map_iter.
Qed.

Section wf.
Context `{IterOrder}.
Implicit Types (s : UIState).

Lemma new_eval_wf task : task_ids task → eval_wf task (SolutionEvaluationState_new task).
Proof.
  intros [Hst Htc]. split; intros k; simpl; rewrite lookup_collect_is_Some, <-list_fmap_compose.
  - apply (ids_of_values _ subtask_id k Hst).
  - apply (ids_of_values _ testcase_id k Htc).
Qed.

Lemma new_ui_wf task config : task_ids task → ui_wf (UIState_new task config).
Proof.
  intros Hids. split; simpl; [done|by intros p e; rewrite lookup_empty|].
  intros k st Hst. eexists. rewrite lookup_fmap, Hst. split; [done|]. intros tc.
  rewrite lookup_collect_is_Some, <-list_fmap_compose.
  replace (fst ∘ _) with (@id N) by done. by rewrite list_fmap_id.
Qed.

Definition keeps (m : M UIState unit) s : Prop :=
  wp m (λ _ s', ui_wf s' ∧ ui_task s' = ui_task s) no_error s.

Lemma keeps_on_evaluation sol f s :
  ui_wf s → (∀ e, eval_wf (ui_task s) e → ∃ e', f e = Ret e' ∧ eval_wf (ui_task s) e') →
  keeps (on_evaluation sol f) s.
Proof.
  intros Hs Hf. unfold keeps, on_evaluation. wp_step. apply wp_get. wp_step. apply wp_modify.
  set (e := default _ (evaluations s !! sol)).
  assert (eval_wf (ui_task s) e) as He.
  { unfold e. destruct (evaluations s !! sol) as [e'|] eqn:He'; simpl.
    - by eapply uw_evaluations.
    - apply new_eval_wf, Hs. }
  destruct (Hf e He) as (e' & He' & Hwf). wp_step. eapply wp_lift_ret; [done|].
  apply wp_modify. destruct Hs. split; [|done]. split; simpl; [done| |done].
  intros p x. destruct (decide (sol = p)) as [<-|].
  - rewrite lookup_insert_eq. by intros [= <-].
  - rewrite !lookup_insert_ne by done. apply uw_evaluations0.
Qed.

Lemma keeps_on_testcase sol tc f s :
  ui_wf s → is_Some (testcases (ui_task s) !! tc) → (∀ t, ∃ t', f t = Ret t') →
  keeps (on_testcase sol tc f) s.
Proof.
  intros Hs Htc Hf. apply keeps_on_evaluation; [done|]. intros e [He1 He2].
  destruct (proj2 (He2 tc) Htc) as [t Ht]. rewrite Ht. destruct (Hf t) as [t' Ht']. simpl.
  rewrite Ht'. eexists. split; [done|]. split; simpl; [done|]. intros k. rewrite <-He2.
  destruct (decide (tc = k)) as [<-|]; [rewrite lookup_insert_eq|by rewrite lookup_insert_ne].
  split; eauto.
Qed.

Lemma keeps_on_generation k st tc f s :
  ui_wf s → subtasks (ui_task s) !! k = Some st → tc ∈ testcases_owned st →
  (∀ g, ∃ g', f g = Ret g') → keeps (on_generation k tc f) s.
Proof.
  intros Hs Hst Htc Hf. unfold keeps, on_generation. wp_step. apply wp_get.
  destruct (uw_generations _ Hs k st Hst) as (g & Hg & Hdom). wp_step.
  eapply wp_lift_ret; [by rewrite Hg|]. destruct (proj2 (Hdom tc) Htc) as [x Hx]. wp_step.
  eapply wp_lift_ret; [by rewrite Hx|]. destruct (Hf x) as [x' Hx']. wp_step.
  eapply wp_lift_ret; [done|]. apply wp_modify. destruct Hs. split; [|done]. split; simpl; [done..|].
  intros k' st' Hst'. destruct (decide (k = k')) as [<-|].
  - rewrite lookup_insert_eq. eexists. split; [done|]. intros tc'. rewrite Hst in Hst'.
    injection Hst' as <-. rewrite <-Hdom.
    destruct (decide (tc = tc')) as [<-|]; [rewrite lookup_insert_eq|by rewrite lookup_insert_ne].
    split; eauto.
  - rewrite lookup_insert_ne by done. eauto.
Qed.

(** A change of the other parts of the state. *)
Lemma keeps_modify f s :
  ui_wf s → ui_task (f s) = ui_task s → evaluations (f s) = evaluations s →
  generations (f s) = generations s → keeps (modify f) s.
Proof.
  intros [] Ht He Hg. apply wp_modify. split; [|done]. split; rewrite Ht, ?He, ?Hg; done.
Qed.

Lemma single_result status : single status →
  match status with UI_Done l => ∃ r, l = [r] | _ => True end.
Proof. destruct status as [| |[|r [|]]|]; simpl; try done; eauto. Qed.

Lemma apply_keeps m s : ui_wf s → message_ok s m → keeps (apply m) s.
Proof.
  intros Hs Hm. destruct m; simpl in Hm; try done; try (by apply keeps_modify);
    try (by apply wp_ret).
  - apply single_result in Hm. unfold keeps. cbn [apply]. wp_step. apply wp_get. wp_step. apply wp_modify.
    assert (∃ c, apply_status status = Ret c) as [c Hc].
    { destruct status as [| |l|]; [eauto..| |eauto]. destruct Hm as [r ->]. simpl.
      destruct (Dag.status r); eauto. }
    wp_step. eapply wp_lift_ret; [done|]. apply wp_modify. by destruct Hs.
  - destruct Hm as [(st & Hst & Htc) Hsi%single_result]. eapply keeps_on_generation; [done..|].
    intros g. destruct status as [| |l|]; simpl; eauto. destruct Hsi as [r ->]. eauto.
  - destruct Hm as [[st Hst] Hsi%single_result]. unfold keeps. cbn [apply]. wp_step. apply wp_get.
    destruct (uw_generations _ Hs _ st Hst) as (g & Hg & Hdom). wp_step.
    eapply wp_lift_ret; [by rewrite Hg|].
    destruct (g !! testcase) as [x|] eqn:Hx; [|by apply wp_ret].
    eapply keeps_on_generation; [done|done|apply Hdom; eauto|].
    intros g'. destruct status as [| |l|]; simpl; eauto. destruct Hsi as [r ->]. eauto.
  - destruct Hm as (st & Hst & Htc). eapply keeps_on_generation; eauto.
  - eapply keeps_on_testcase; eauto.
  - destruct Hm as [Htc Hl]. eapply keeps_on_testcase; [done..|].
    intros t. destruct status as [| |[|r l]|]; simpl; eauto. done.
  - eapply keeps_on_testcase; eauto.
  - apply keeps_on_evaluation; [done|]. intros e [He1 He2].
    destruct (proj2 (He1 subtask) Hm) as [x Hx]. rewrite Hx. simpl. eexists. split; [done|].
    split; simpl; [|done]. intros k. rewrite <-He1.
    destruct (decide (subtask = k)) as [<-|]; [rewrite lookup_insert_eq|by rewrite lookup_insert_ne].
    split; eauto.
  - apply keeps_on_evaluation; [done|]. intros e [He1 He2]. eexists. by split.
  - unfold keeps. cbn [apply]. unfold apply_dependency. wp_step. apply wp_get. wp_step. apply wp_modify.
    destruct (lookup_lt_is_Some_2 _ _ Hm) as [x Hx]. wp_step. eapply wp_lift_ret; [by rewrite Hx|].
    apply wp_modify. by destruct Hs.
Qed.
End wf.

(** C25: no message of an evaluation of the task makes the interface panic, and each
    leaves it well formed: every solution has a state for exactly the subtasks
    and the testcases of the task, every subtask one for exactly its testcases. *)
Theorem ui_apply_total `{IterOrder} s m :
  ui_wf s → message_ok s m →
  ∃ s', apply m s = (Ret tt, s') ∧ ui_wf s' ∧ ui_task s' = ui_task s.
Proof.
  intros Hs Hm. destruct (wp_run _ _ _ (apply_keeps m s Hs Hm)) as ([] & s' & ? & ? & ?). eauto.
Qed.


(** ** The scores that are shown *)

(** The state of a solution, as the first message about it finds it. *)
Definition shown `{IterOrder} (s : UIState) (sol : PathBuf) : SolutionEvaluationState :=
  default (SolutionEvaluationState_new (ui_task s)) (evaluations s !! sol).

(** A score of the solution. *)
Definition score_of (sol : PathBuf) (m : UIMessage) : Prop :=
  match m with
  | IOITestcaseScore _ _ p _ _ | IOISubtaskScore _ p _ _ | IOITaskScore p _ => p = sol
  | _ => False
  end.

(** What a score changes. *)
Definition eval_score (e : SolutionEvaluationState) (m : UIMessage) : SolutionEvaluationState :=
  match m with
  | IOITestcaseScore _ tc _ x msg =>
      mkEval (ev_score e) (ev_subtasks e) (alter (apply_testcase_score x msg) tc (ev_testcases e))
  | IOISubtaskScore k _ n v =>
      mkEval (ev_score e) (<[k := mkSubtaskEval (Some v) (Some n)]> (ev_subtasks e)) (ev_testcases e)
  | IOITaskScore _ v => mkEval (Some v) (ev_subtasks e) (ev_testcases e)
  | _ => e
  end.

Section scores.
Context `{IterOrder}.
Implicit Types (s : UIState).

Lemma on_evaluation_run sol f s e' :
  f (shown s sol) = Ret e' →
  on_evaluation sol f s = (Ret tt, with_evaluations (<[sol := e']> (evaluations s)) s).
Proof.
  intros Hf. unfold on_evaluation, mbind, M_bind, get_st, modify, lift. fold (shown s sol).
  rewrite Hf. unfold with_evaluations. simpl. by rewrite insert_insert_eq.
Qed.

Lemma shown_wf sol s : ui_wf s → eval_wf (ui_task s) (shown s sol).
Proof.
  intros Hs. unfold shown. destruct (evaluations s !! sol) as [e|] eqn:He; simpl.
  - by eapply uw_evaluations.
  - apply new_eval_wf, Hs.
Qed.

Lemma apply_score_run sol m s :
  ui_wf s → message_ok s m → score_of sol m →
  apply m s = (Ret tt, with_evaluations (<[sol := eval_score (shown s sol) m]> (evaluations s)) s).
Proof.
  intros Hs Hm Hsol. destruct (shown_wf sol s Hs) as [He1 He2].
  destruct m; simpl in Hsol; try done; subst; simpl in Hm; cbn [apply]; apply on_evaluation_run.
  - destruct (proj2 (He2 testcase) Hm) as [t Ht]. rewrite Ht. simpl.
    by rewrite alter_alt, Ht.
  - by destruct (proj2 (He1 subtask) Hm) as [x ->].
  - done.
Qed.

Lemma apply_scores_run sol ms s :
  ui_wf s → Forall (message_ok s) ms → Forall (score_of sol) ms →
  ∃ s', for_each ms apply s = (Ret tt, s') ∧
    shown s' sol = foldl eval_score (shown s sol) ms ∧
    ∀ p, p ≠ sol → evaluations s' !! p = evaluations s !! p.
Proof.
  revert s. induction ms as [|m ms IH]; intros s Hs Hok Hsol; [by exists s|].
  apply Forall_cons in Hok as [Hm Hok]. apply Forall_cons in Hsol as [Hms Hsol].
  pose proof (apply_score_run sol m s Hs Hm Hms) as Hrun.
  set (s1 := with_evaluations _ s) in Hrun.
  destruct (wp_run _ _ _ (apply_keeps m s Hs Hm)) as ([] & s1' & Hrun' & Hs1 & _).
  rewrite Hrun in Hrun'. injection Hrun' as <-.
  destruct (IH s1) as (s2 & Hrun2 & He2 & Hp2); [done| |done|].
  { eapply Forall_impl; [exact Hok|]. intros x Hx. by destruct x. }
  exists s2. split_and!.
  - cbn [for_each]. unfold mbind, M_bind. by rewrite Hrun.
  - rewrite He2. unfold shown at 1, s1. simpl. by rewrite lookup_insert_eq.
  - intros p Hp. rewrite Hp2 by done. by apply lookup_insert_ne.
Qed.
End scores.

Abbreviation subtask_of p := (p.1.1 : SubtaskId) (only parsing).
Abbreviation testcase_of p := (p.1.1.2 : TestcaseId) (only parsing).

Lemma eval_scores_subtasks ms e :
  NoDup ((λ p, subtask_of p) <$> omap sent_subtask ms) →
  (∀ k n v, (k, n, v) ∈ omap sent_subtask ms →
     ev_subtasks (foldl eval_score e ms) !! k = Some (mkSubtaskEval (Some v) (Some n))) ∧
  (∀ k, k ∉ (λ p, subtask_of p) <$> omap sent_subtask ms →
     ev_subtasks (foldl eval_score e ms) !! k = ev_subtasks e !! k).
Proof.
  revert e. induction ms as [|m ms IH]; intros e Hnd; [set_solver|].
  destruct (sent_subtask m) as [[[k n] v]|] eqn:Hm.
  - destruct m; try done. injection Hm as -> -> ->. simpl in Hnd |- *.
    apply NoDup_cons in Hnd as [Hk Hnd]. edestruct IH as [IH1 IH2]; [done|]. split.
    + intros k' n' v' [[= -> -> ->]|Hin]%elem_of_cons; [|by apply IH1].
      rewrite IH2 by done. simpl. apply lookup_insert_eq.
    + intros k' [Hne Hk']%not_elem_of_cons. rewrite IH2 by done. simpl.
      by rewrite lookup_insert_ne.
  - change (omap sent_subtask (m :: ms)) with
      (match sent_subtask m with Some y => y :: omap sent_subtask ms | None => omap sent_subtask ms end) in *.
    rewrite Hm in *. simpl. edestruct IH as [IH1 IH2]; [done|]. split; [done|].
    intros k Hk. rewrite IH2 by done. by destruct m.
Qed.

Lemma eval_scores_testcases ms e :
  NoDup ((λ p, testcase_of p) <$> omap sent_testcase ms) →
  (∀ k tc x msg, (k, tc, x, msg) ∈ omap sent_testcase ms →
     ev_testcases (foldl eval_score e ms) !! tc =
     apply_testcase_score x msg <$> ev_testcases e !! tc) ∧
  (∀ tc, tc ∉ (λ p, testcase_of p) <$> omap sent_testcase ms →
     ev_testcases (foldl eval_score e ms) !! tc = ev_testcases e !! tc).
Proof.
  revert e. induction ms as [|m ms IH]; intros e Hnd; [set_solver|].
  destruct (sent_testcase m) as [[[[k tc] x] msg]|] eqn:Hm.
  - destruct m; try done. injection Hm as -> -> -> ->. simpl in Hnd |- *.
    apply NoDup_cons in Hnd as [Hk Hnd]. edestruct IH as [IH1 IH2]; [done|]. split.
    + intros k' tc' x' msg' [[= -> -> -> ->]|Hin]%elem_of_cons.
      * rewrite IH2 by done. simpl. apply lookup_alter_eq.
      * rewrite (IH1 k' tc' x' msg') by done. simpl. rewrite lookup_alter_ne; [done|]. intros ->. apply Hk.
        apply list_elem_of_fmap. by exists (k', tc', x', msg').
    + intros tc' [Hne Hk']%not_elem_of_cons. rewrite IH2 by done. simpl.
      by rewrite lookup_alter_ne.
  - change (omap sent_testcase (m :: ms)) with
      (match sent_testcase m with Some y => y :: omap sent_testcase ms | None => omap sent_testcase ms end) in *.
    rewrite Hm in *. simpl. edestruct IH as [IH1 IH2]; [done|]. split.
    + intros k tc x msg Hin. rewrite (IH1 k tc x msg) by done. by destruct m.
    + intros k Hk. rewrite IH2 by done. by destruct m.
Qed.

Lemma eval_scores_task ms e :
  ev_score (foldl eval_score e ms) =
  match last (omap sent_task ms) with Some v => Some v | None => ev_score e end.
Proof.
  revert e. induction ms as [|m ms IH]; intros e; [done|]. simpl. rewrite IH.
  destruct m; try done. simpl. rewrite last_cons. by destruct (last _).
Qed.

(** The manager sends scores of its solution only. *)
Section sent.
Context `{IterOrder} (sol : PathBuf).

Definition sends_scores (s : ScoreManager) : Prop :=
  sm_solution s = sol ∧ Forall (score_of sol) (ui_sent (sm_channel s)).

Lemma stable_sm_send m : score_of sol m → stable sends_scores (sm_send m).
Proof.
  intros Hm s [Hs Hl]. unfold sm_send, zoom, ui_send, mbind, M_bind, get_st, modify. simpl.
  destruct (ui_open (sm_channel s)); [|done]. split; [done|]. apply Forall_app. by repeat constructor.
Qed.

Lemma stable_modify_scores f :
  (∀ s, sm_solution (f s) = sm_solution s ∧ sm_channel (f s) = sm_channel s) →
  stable sends_scores (modify f).
Proof. intros Hf s [Hs Hl]. destruct (Hf s) as [H1 H2]. split; simpl; by rewrite ?H1, ?H2. Qed.

Lemma stable_score_subtask k : stable sends_scores (score_subtask k).
Proof.
  unfold score_subtask. apply stable_read. intros s [Hs Hl]. rewrite Hs. apply stable_bind; [by auto with stable|intros tcs].
  apply stable_bind; [by auto with stable|intros [scores|]]; [|by auto with stable].
  apply stable_bind; [by auto with stable|intros n]. apply stable_bind; [by auto with stable|intros max].
  apply stable_bind; [by apply stable_modify_scores|intros _].
  apply stable_bind; [by apply stable_sm_send|intros _].
  apply stable_read. intros s' [Hs' _]. rewrite Hs'.
  case_match; [by apply stable_sm_send|by auto with stable].
Qed.

Lemma score_all_sends task calls :
  sends_scores (score_all task sol calls).2.
Proof.
  apply (stable_bind sends_scores (ScoreManager_new task)); [| |by split; [|constructor]].
  - apply stable_for_each. intros [k st]. simpl.
    destruct (subtask_testcases st); [apply stable_score_subtask|apply stable_ret].
  - intros _. apply stable_for_each. intros c. unfold score.
    apply stable_bind; [by apply stable_modify_scores|intros _].
    apply stable_read. intros s [Hs Hl]. rewrite Hs.
    apply stable_bind; [by apply stable_sm_send|intros _].
    apply stable_read. intros s' _. apply stable_for_each.
    intros [k o]. simpl. destruct o; [apply stable_ret|apply stable_score_subtask].
Qed.
End sent.

Lemma task_total_last `{IterOrder} m : last (task_total m) = head (task_total m).
Proof. unfold task_total. by repeat case_match. Qed.

Lemma score_messages_ok s sol calls ms result :
  let task := ui_task s in
  calls_ok task calls → Forall (score_of sol) ms →
  (∀ k n v, (k, n, v) ∈ omap sent_subtask ms ↔
     ∃ st, subtasks task !! k = Some st ∧ result st = Some (n, v)) →
  omap sent_testcase ms =
    (λ c, (call_subtask c, call_testcase c, call_score c, call_message c)) <$> calls →
  Forall (message_ok s) ms.
Proof.
  intros task [_ Hcalls] Hof Hsub Htc. apply Forall_forall. intros m Hm.
  rewrite Forall_forall in Hof. rewrite Forall_forall in Hcalls.
  specialize (Hof m Hm). destruct m; try done; simpl.
  - assert ((subtask, testcase, score, message) ∈ omap sent_testcase ms) as Hin
      by (apply list_elem_of_omap; eauto).
    rewrite Htc in Hin. apply list_elem_of_fmap in Hin as (c & [= -> -> -> ->] & Hc).
    by apply Hcalls.
  - assert ((subtask, normalized_score, score) ∈ omap sent_subtask ms) as Hin
      by (apply list_elem_of_omap; eauto).
    apply Hsub in Hin as (st & Hst & _). eauto.
Qed.

Lemma new_states `{IterOrder} task :
  task_ids task →
  (∀ k, is_Some (subtasks task !! k) →
     ev_subtasks (SolutionEvaluationState_new task) !! k = Some (mkSubtaskEval None None)) ∧
  (∀ k, is_Some (testcases task !! k) →
     ev_testcases (SolutionEvaluationState_new task) !! k = Some (mkTestcaseEval None TES_Pending [] None)).
Proof.
  intros Hids. destruct (new_eval_wf task Hids) as [He1 He2].
  split; intros k [x Hx]%He1 || intros k [x Hx]%He2; rewrite Hx;
    apply elem_of_collect, list_elem_of_fmap in Hx as (y & [= _ ->] & _); done.
Qed.

(** The outcome of a testcase for a score, as the interface has to show it: a testcase that was
    not over is wrong for the score 0, accepted within a thousandth of 1 and partial
    otherwise; one that was over keeps its outcome, but after a runtime error of
    a solution whose manager or controller, the first of several executions, succeeded a score of at most [1e-8] is a
    wrong answer. *)
Definition not_over (t : SolutionTestcaseEvaluationState) : Prop :=
  te_status t ∈ [TES_Pending; TES_Solving; TES_Solved; TES_Checking].
Definition close_to_one (score : f64) : Prop :=
  f64_ltb (f64_abs (f64_sub score f64_one)) (f64_dec 1 3) = true.
Definition blamed (score : f64) (t : SolutionTestcaseEvaluationState) : Prop :=
  te_status t = TES_RuntimeError ∧ f64_leb score (f64_dec 1 8) = true ∧
  ∃ r x rs, te_results t = Some r :: x :: rs ∧ Dag.status r = Success.
Inductive outcome (score : f64) (message : string) (t : SolutionTestcaseEvaluationState) :
    TestcaseEvaluationStatus → Prop :=
  | outcome_wrong : not_over t → f64_eqb score f64_zero = true →
      outcome score message t (TES_WrongAnswer message)
  | outcome_accepted : not_over t → f64_eqb score f64_zero = false → close_to_one score →
      outcome score message t (TES_Accepted message)
  | outcome_partial : not_over t → f64_eqb score f64_zero = false → ¬ close_to_one score →
      outcome score message t (TES_Partial message)
  | outcome_blamed : blamed score t →
      outcome score message t (TES_WrongAnswer (message +:+ " maybe caused by runtime error"))
  | outcome_before : ¬ not_over t → ¬ blamed score t → outcome score message t (te_status t).

(** The testcase [t] after the score [score]. *)
Definition scored (score : f64) (message : string) (t t' : SolutionTestcaseEvaluationState) : Prop :=
  te_score t' = Some score ∧ outcome score message t (te_status t') ∧
  te_results t' = te_results t ∧ te_checker t' = te_checker t.

Lemma not_over_completed t : not_over t ↔ has_completed (te_status t) = false.
Proof. unfold not_over. rewrite !elem_of_cons, elem_of_nil. destruct (te_status t); simpl; naive_solver. Qed.
Lemma manager_succeeded_spec t :
  manager_succeeded t = true ↔ ∃ r x rs, te_results t = Some r :: x :: rs ∧ Dag.status r = Success.
Proof.
  unfold manager_succeeded. destruct (te_results t) as [|[r|] [|x rs]]; try (split; [done|naive_solver]).
  split.
  - intros Hr. exists r, x, rs. split; [done|]. by destruct (Dag.status r).
  - by intros (r' & x' & rs' & [= -> -> ->] & ->).
Qed.
Lemma score_scored score message t : scored score message t (apply_testcase_score score message t).
Proof.
  split_and!; try done. simpl. unfold score_status. destruct (has_completed (te_status t)) eqn:Hc; simpl.
  - assert (¬ not_over t) as Hno by (rewrite not_over_completed; congruence).
    destruct (bool_decide _ && _ && _) eqn:Hb.
    + apply andb_true_iff in Hb as [[Hb%bool_decide_eq_true ?]%andb_true_iff ?%manager_succeeded_spec].
      by apply outcome_blamed.
    + apply outcome_before; [done|]. intros (Hr & Hl & Hm%manager_succeeded_spec).
      rewrite Hl, Hm, andb_true_r in Hb. by rewrite bool_decide_eq_true_2 in Hb.
  - apply not_over_completed in Hc. unfold from_score.
    destruct (f64_eqb score f64_zero) eqn:Hz; [by apply outcome_wrong|].
    destruct (f64_ltb _ _) eqn:Ho; [by apply outcome_accepted|]. apply outcome_partial; [done..|].
    unfold close_to_one. congruence.
Qed.

(** C16: the interface agrees with the manager, in whatever state the messages of the
    evaluation have left the solution: for a task and scores as the manager expects them
    (no NaN, each testcase of a subtask of the task scored at most once), the messages of the
    manager, whatever the order of the scores, are applied without a panic, and then the solution is
    shown with the scores of the specification: the normalized and the scaled one
    of each subtask whose testcases all have a score, the total of the task when
    it is known, the score and the outcome of each testcase ([outcome]); the subtasks and the
    testcases without a score and the other solutions are as before. *)
Theorem ui_shows_scores `{IterOrder} s task solution calls :
  ui_wf s → ui_task s = task → task_ok task → calls_ok task calls →
  ∃ m s', score_all task solution calls = (Ret tt, m) ∧
    for_each (ui_sent (sm_channel m)) apply s = (Ret tt, s') ∧
    (∀ p, p ≠ solution → evaluations s' !! p = evaluations s !! p) ∧
    let before := shown s solution in
    let e := shown s' solution in
    let result := subtask_result (testcase_score_aggregator task) (given calls) in
    (∀ k st, subtasks task !! k = Some st →
       match result st with
       | Some (normalized, scaled) => ev_subtasks e !! k = Some (mkSubtaskEval (Some scaled) (Some normalized))
       | None => ev_subtasks e !! k = ev_subtasks before !! k
       end) ∧
    ev_score e = (match head (task_total (subtask_scores m)) with
                  | Some total => Some total | None => ev_score before end) ∧
    (∀ c, c ∈ calls → ∃ t t', ev_testcases before !! call_testcase c = Some t ∧
       ev_testcases e !! call_testcase c = Some t' ∧ scored (call_score c) (call_message c) t t') ∧
    (∀ tc, tc ∉ call_testcase <$> calls → ev_testcases e !! tc = ev_testcases before !! tc).
Proof.
  intros Hs Htask Hok Hcalls.
  destruct (score_all_run task solution calls Hok Hcalls) as (m & Hrun & Hi & Hset & Htc).
  unfold log in Htc. pose proof (settled_sent _ _ _ _ Hi Hset) as Hsent. pose proof (si_nodup _ _ _ _ Hi) as Hnd.
  pose proof (score_all_sends solution task calls) as [_ Hof]. rewrite Hrun in Hof. simpl in Hof.
  destruct (apply_scores_run solution (ui_sent (sm_channel m)) s Hs) as (s' & Happ & He & Hother).
  { eapply (score_messages_ok s solution calls); rewrite ?Htask; done. }
  { done. }
  assert (eval_wf task (shown s solution)) as [Hwf1 Hwf2] by (subst; by apply shown_wf).
  exists m, s'. split_and!; [done..|]. rewrite He. clear He.
  assert (NoDup ((λ p, testcase_of p) <$> omap sent_testcase (ui_sent (sm_channel m)))) as Hndt.
  { rewrite Htc, <-list_fmap_compose. apply Hcalls. }
  destruct (eval_scores_subtasks _ (shown s solution) Hnd) as [Hes Hen].
  destruct (eval_scores_testcases _ (shown s solution) Hndt) as [Het Hent].
  split_and!.
  - intros k st Hst. destruct (subtask_result _ _ st) as [[n v]|] eqn:Hr; simpl.
    + apply Hes, Hsent. eauto.
    + apply Hen. intros ([[k1 n] v] & -> & Hin)%list_elem_of_fmap.
      apply Hsent in Hin as (st1 & Hst1 & Hr1). simpl in *. congruence.
  - by rewrite eval_scores_task, (si_total _ _ _ _ Hi), task_total_last.
  - intros c Hc. assert (is_Some (testcases task !! call_testcase c)) as [t Ht]%Hwf2.
    { destruct Hcalls as [_ Hall]. rewrite Forall_forall in Hall. by apply Hall. }
    exists t. eexists. split; [done|]. split; [|apply score_scored].
    rewrite (Het (call_subtask c) _ (call_score c) (call_message c)), Ht; [done|].
    rewrite Htc. apply list_elem_of_fmap. eauto.
  - intros tc Hno. apply Hent. by rewrite Htc, <-list_fmap_compose.
Qed.

(** ** The checks of the solutions *)
Section checks.
Context `{IterOrder} `{NamePatterns}.
Implicit Types (s : UIState).

(** All the testcases of the subtask have an outcome. *)
Definition outcomes (e : SolutionEvaluationState) (st : SubtaskInfo)
    (results : list TestcaseEvaluationResult) : Prop :=
  Forall2 (λ tc r, ∃ t, ev_testcases e !! tc = Some t ∧ result_of_status (te_status t) = Some r)
    (subtask_testcases st) results.

(** What [run_check] returns for one solution, check and subtask. *)
Definition check_outcome s (p : PathBuf) (c : SolutionCheck) (st : SubtaskInfo)
    (o : SolutionCheckOutcome) : Prop :=
  ∃ e results, evaluations s !! p = Some e ∧ outcomes e st results ∧
    o = mkCheckOutcome p c (subtask_id st) (check (check_result c) results).

(** A loop that concatenates the results of its turns. *)
Lemma try_map_concat {A B} (f : A → Outcome (list B)) (P : A → B → Prop) l :
  (∀ x, x ∈ l → ∃ ys, f x = Ret ys ∧ ∀ y, y ∈ ys ↔ P x y) →
  ∃ ys, flat_map_try f l = Ret ys ∧ ∀ y, y ∈ ys ↔ ∃ x, x ∈ l ∧ P x y.
Proof.
  unfold flat_map_try. induction l as [|x l IH]; intros Hf; [exists []; set_solver|].
  destruct (Hf x) as (ys & Hx & Hys); [by left|].
  destruct IH as (ys' & Hl & Hys'); [intros; apply Hf; by right|].
  exists (ys ++ ys'). cbn [try_map]. rewrite Hx. destruct (try_map f l); try done.
  injection Hl as <-. split; [done|]. intros y. rewrite elem_of_app, Hys, Hys'. set_solver.
Qed.

Lemma statuses_results e st :
  (∀ tc, tc ∈ subtask_testcases st → is_Some (ev_testcases e !! tc)) →
  ∃ rs, try_map (testcase_result e) (subtask_testcases st) = Ret rs ∧
    ∀ results, mapM id rs = Some results ↔ outcomes e st results.
Proof.
  unfold outcomes. induction (subtask_testcases st) as [|tc l IH]; intros Hl.
  { exists []. split; [done|]. intros results. simpl. split; [by intros [= <-]|]. by inversion 1. }
  destruct (Hl tc) as [t Ht]; [by left|]. destruct IH as (rs & Hrs & IH); [intros; apply Hl; by right|].
  exists (result_of_status (te_status t) :: rs). split.
  { assert (testcase_result e tc = Ret (result_of_status (te_status t))) as Hr
      by (unfold testcase_result, index; by rewrite Ht).
    cbn [try_map]. by rewrite Hr, Hrs. }
  intros results. simpl. unfold id at 1. rewrite bind_Some. split.
  - intros (r & Hr & (rs' & Hrs' & [= <-])%bind_Some). constructor; [eauto|by apply IH].
  - inversion 1 as [|? r ? rs' (t' & Ht' & Hr) Hf]; subst. exists r.
    assert (t' = t) as -> by congruence. split; [done|]. apply bind_Some. exists rs'.
    split; [by apply IH|done].
Qed.

Lemma elem_of_found task pattern st :
  st ∈ find_subtasks_by_pattern_name task pattern ↔
  ∃ k, subtasks task !! k = Some st ∧ name_matches (nfkc pattern) st = true.
Proof.
  unfold find_subtasks_by_pattern_name. rewrite list_elem_of_filter, elem_of_values_iter. naive_solver.
Qed.

Lemma run_check_spec s p c k st :
  ui_wf s → task_ok (ui_task s) → subtasks (ui_task s) !! k = Some st →
  ∃ os, run_check s p c st = Ret os ∧ ∀ o, o ∈ os ↔ check_outcome s p c st o.
Proof.
  intros Hs Hok Hst. unfold run_check, check_outcome.
  destruct (evaluations s !! p) as [e|] eqn:He; [|exists []; set_solver].
  destruct (Hok k st Hst) as [Hk Htcs]. unfold index at 1. rewrite Hk, Hst. cbn.
  destruct (statuses_results e st) as (rs & Hrs & Hres).
  { intros tc Htc. apply (ew_testcases _ _ (uw_evaluations _ Hs _ _ He)). by apply Htcs. }
  rewrite Hrs. cbn.
  destruct (mapM id rs) as [results|] eqn:Hm.
  - eexists. split; [done|]. intros o. rewrite list_elem_of_singleton. split.
    + intros ->. exists e, results. split_and!; [done|by apply Hres|done].
    + intros (e' & results' & [= <-] & Ho & ->). apply Hres in Ho. by simplify_eq.
  - exists []. split; [done|]. intros o. split; [by intros ?%not_elem_of_nil|].
    intros (e' & results & [= <-] & Ho & _). by apply Hres in Ho.
Qed.
End checks.

(** C24: the checks of the solutions: the evaluation never panics, and it returns one
    outcome for exactly the solutions, their checks and the subtasks whose name
    matches the pattern and whose testcases all have an outcome; it is a success
    exactly when the outcomes are the ones that the check promises. *)
Theorem solution_checks_correct `{IterOrder} `{NamePatterns} s :
  ui_wf s → task_ok (ui_task s) →
  ∃ os, run_solution_checks s = Ret os ∧ ∀ o, o ∈ os ↔
    ∃ info st e results,
      ui_solutions s !! co_solution o = Some info ∧ co_check o ∈ info_checks info ∧
      subtasks (ui_task s) !! co_subtask o = Some st ∧
      name_matches (nfkc (subtask_name_pattern (co_check o))) st = true ∧
      evaluations s !! co_solution o = Some e ∧ outcomes e st results ∧
      (co_success o = true ↔ expected (check_result (co_check o)) results).
Proof.
  intros Hs Hok.
  destruct (try_map_concat (λ p : PathBuf * SolutionInfo,
      flat_map_try (run_check_on_subtasks s p.1) (info_checks p.2))
    (λ p o, ∃ c, c ∈ info_checks p.2 ∧ ∃ st,
       st ∈ find_subtasks_by_pattern_name (ui_task s) (subtask_name_pattern c) ∧
       check_outcome s p.1 c st o) (map_iter (ui_solutions s))) as (os & Hrun & Hin).
  { intros p _. apply try_map_concat. intros c _. apply try_map_concat. intros st Hst.
    apply elem_of_found in Hst as (k & Hst & _). by eapply run_check_spec. }
  exists os. split; [exact Hrun|]. intros o. rewrite Hin. clear Hin. split.
  - intros ([p info] & Hp%elem_of_map_iter & c & Hc & st & (k & Hst & Hn)%elem_of_found &
      e & results & He & Ho & ->). exists info, st, e, results. simpl.
    destruct (Hok k st Hst) as [-> _]. split_and!; try done. apply check_expected.
  - intros (info & st & e & results & Hp & Hc & Hst & Hn & He & Ho & Hsucc).
    exists (co_solution o, info). split; [by apply elem_of_map_iter|].
    exists (co_check o). split; [done|]. exists st. split; [apply elem_of_found; eauto|].
    exists e, results. split_and!; [done..|]. destruct (Hok _ st Hst) as [-> _].
    rewrite <-check_expected in Hsucc. destruct o as [p c k []]; simpl in *; f_equal.
    + symmetry. by apply Hsucc.
    + symmetry. apply not_true_iff_false. intros Ht%Hsucc. done.
Qed.

(** ** Examples *)
Definition ex_ui : UIState := UIState_new (H := forward_order) ex_task ExecutionDAGConfig_new.

Lemma ex_ui_wf : ui_wf ex_ui.
Proof.
  apply new_ui_wf. split.
  - intros k st Hst. by apply ex_task_ok.
  - intros k tc Htc. assert (map_Forall (λ k tc, testcase_id tc = k) (testcases ex_task)) as Hf
      by (apply (bool_decide_unpack _); vm_compute; done). by apply Hf.
Qed.

Lemma ex_calls_ok : calls_ok ex_task ex_calls.
Proof.
  split; [apply (bool_decide_unpack _); vm_compute; done|].
  repeat constructor; apply (bool_decide_unpack _); vm_compute; done.
Qed.

Lemma ui_apply_total_witness :
  ∃ s', apply (H := forward_order) (IOITestcaseScore 1 0 [] f64_one "ok") ex_ui = (Ret tt, s') ∧
    ui_wf s' ∧ ui_task s' = ui_task ex_ui.
Proof.
  apply (ui_apply_total (H := forward_order) ex_ui); [apply ex_ui_wf|].
  by apply (bool_decide_unpack _).
Defined.

(** After the scores of [ex_calls] the solution is shown with 50 points. *)
Lemma ui_shows_scores_witness :
  ∃ m s', score_all (H := forward_order) ex_task [] ex_calls = (Ret tt, m) ∧
    for_each (ui_sent (sm_channel m)) (apply (H := forward_order)) ex_ui = (Ret tt, s') ∧
    ev_score (shown (H := forward_order) s' []) =
      match head (task_total (H := forward_order) (subtask_scores m)) with
      | Some total => Some total
      | None => ev_score (shown (H := forward_order) ex_ui [])
      end.
Proof.
  destruct (ui_shows_scores (H := forward_order) ex_ui ex_task [] ex_calls)
    as (m & s' & Hm & Hs' & _ & _ & Ht & _);
    [apply ex_ui_wf|done|apply ex_task_ok|apply ex_calls_ok|].
  exists m, s'. by split_and!.
Defined.

(** Patterns that are a name or the star. *)
Definition ex_patterns : NamePatterns := {|
  nfkc := id;
  wild_matches pattern name := bool_decide (pattern = text_of "*" ∨ pattern = name)
|}.

(** A subtask of one testcase, a solution that is accepted there and two checks. *)
Definition ex_named_task : IOITask :=
  mkTask [] "task" "Task" None None
    {[1%N := mkSubtask 1 (Some (text_of "st1")) f64_one [0%N] [0%N] None false [] false]}
    {[0%N := mkTestcase 0 None None]} Min 0.
Definition ex_check (r : SolutionCheckResult) : SolutionCheck :=
  mkCheck r (text_of "*") (mkSpan [] 0 0 0 0 []).
Definition ex_messages : list UIMessage :=
  [Solutions [mkSolutionInfo [] "sol" "C" [ex_check SCR_Accepted; ex_check SCR_Zero]];
   IOITestcaseScore 1 0 [] f64_one "ok"].
Definition ex_checked : UIState :=
  (for_each ex_messages (apply (H := forward_order))
     (UIState_new (H := forward_order) ex_named_task ExecutionDAGConfig_new)).2.

Lemma ex_named_ids : task_ids ex_named_task.
Proof. split; intros k x; simpl; by intros [<- <-]%lookup_singleton_Some. Qed.

Lemma ex_checked_wf : ui_wf ex_checked ∧ ui_task ex_checked = ex_named_task.
Proof.
  set (s := UIState_new (H := forward_order) ex_named_task ExecutionDAGConfig_new).
  assert (wp (for_each ex_messages (apply (H := forward_order)))
    (λ _ s', ui_wf s' ∧ ui_task s' = ex_named_task) no_error s) as Hw.
  { apply wp_bind. eapply wp_mono; [by apply apply_keeps, I; apply new_ui_wf, ex_named_ids| |done].
    intros [] s1 (Hs1 & Ht1). apply wp_bind. eapply wp_mono; [apply apply_keeps; [done|]| |done].
    - simpl. rewrite Ht1. by apply (bool_decide_unpack _).
    - intros [] s2 (Hs2 & Ht2). apply wp_ret. split; [done|by rewrite Ht2]. }
  apply wp_run in Hw as ([] & s' & Hrun & Hw). unfold ex_checked. fold s. by rewrite Hrun.
Qed.

Lemma solution_checks_correct_witness :
  ∃ os, run_solution_checks (H := forward_order) (H0 := ex_patterns) ex_checked = Ret os ∧
    mkCheckOutcome [] (ex_check SCR_Accepted) 1 true ∈ os ∧
    mkCheckOutcome [] (ex_check SCR_Zero) 1 false ∈ os.
Proof.
  destruct (solution_checks_correct (H := forward_order) (H0 := ex_patterns) ex_checked)
    as (os & Hos & _).
  - apply ex_checked_wf.
  - rewrite (proj2 ex_checked_wf). intros k st. unfold ex_named_task. simpl.
    intros [<- <-]%lookup_singleton_Some. split; [done|]. intros tc ->%list_elem_of_singleton.
    by apply (bool_decide_unpack _).
  - exists os. split; [exact Hos|]. vm_compute in Hos. injection Hos as <-. set_solver.
Defined.
