(* ===== verification/Client.v ===== *)
(** * The client ([task-maker-exec/src/client.rs])

    The client sends a DAG to the server, provides the files the server asks for,
    runs the callbacks of the DAG and writes the files the DAG wants on disk.  A
    closure is a value of the type [CB]; what it returns depends on all the calls
    made so far ([Closures]).  The thread that polls the status of the server
    sends its messages between the ones of the main thread: [Poller] tells how
    many, and none while the main thread holds the lock [file_mode].  The drops of
    the handles of the store are not recorded. *)
From S2P Require Import Prelude Disk Paths StoreKey Store Dag Cache CheckDag Scheduler Proto Executor.

(** ** The callbacks *)
Inductive CallArg : Type :=
  | Call_start (worker : WorkerUuid)
  | Call_done (result : list ExecutionResult)
  | Call_skip
  | Call_content (buffer : list byte)
  | Call_chunk (chunk : list byte)
  | Call_status (status : ExecutorStatus SystemTime).

(** The error a closure returns, if any, after the calls made before. *)
Class Closures (CB : Type) : Type := {
  call_error : list (CB * CallArg) → CB → CallArg → option string
}.

(** The number of status messages before the [n]-th message of the main thread and,
    at the end, before the poller is told to stop. *)
Class Poller : Type := { polls : nat → nat }.

Record Client {CB : Type} : Type := mkClient {
  cl_data : ExecutionDAGData;
  cl_callbacks : option (ExecutionDAGCallbacks CB);
  cl_store : FileStore;
  cl_sender : Channel ExecutorClientMessage;
  cl_receiver : list (Packet ExecutorServerMessage);
  cl_calls : list (CB * CallArg);
  cl_polling : bool;
  cl_turn : nat
}.
Arguments Client : clear implicits.
Arguments mkClient {CB} _ _ _ _ _ _ _ _.

Section client.
Context `{IterOrder} `{Blake3} `{World} `{BuildProfile} `{!Bincode FileStoreIndex}.
Context {CB : Type} `{!Closures CB} `{Poller}.
Implicit Types (s : Client CB).

Definition with_cl_callbacks x s : Client CB :=
  mkClient (cl_data s) x (cl_store s) (cl_sender s) (cl_receiver s) (cl_calls s) (cl_polling s) (cl_turn s).
Definition with_cl_store x s : Client CB :=
  mkClient (cl_data s) (cl_callbacks s) x (cl_sender s) (cl_receiver s) (cl_calls s) (cl_polling s) (cl_turn s).
Definition with_cl_sender x s : Client CB :=
  mkClient (cl_data s) (cl_callbacks s) (cl_store s) x (cl_receiver s) (cl_calls s) (cl_polling s) (cl_turn s).
Definition with_cl_receiver x s : Client CB :=
  mkClient (cl_data s) (cl_callbacks s) (cl_store s) (cl_sender s) x (cl_calls s) (cl_polling s) (cl_turn s).
Definition with_cl_calls x s : Client CB :=
  mkClient (cl_data s) (cl_callbacks s) (cl_store s) (cl_sender s) (cl_receiver s) x (cl_polling s) (cl_turn s).
Definition with_cl_polling x s : Client CB :=
  mkClient (cl_data s) (cl_callbacks s) (cl_store s) (cl_sender s) (cl_receiver s) (cl_calls s) x (cl_turn s).
Definition with_cl_turn x s : Client CB :=
  mkClient (cl_data s) (cl_callbacks s) (cl_store s) (cl_sender s) (cl_receiver s) (cl_calls s) (cl_polling s) x.

Definition on_cl_disk {A} (m : M Disk A) : M (Client CB) A :=
  zoom (λ s, disk (cl_store s)) (λ d s, with_cl_store (with_disk d (cl_store s)) s) m.
Definition on_cl_store {A} (m : M FileStore A) : M (Client CB) A := zoom cl_store with_cl_store m.
Definition on_cl_sender (m : M (Channel ExecutorClientMessage) unit) : M (Client CB) unit :=
  zoom cl_sender with_cl_sender m.

(** [self.callbacks.as_mut().unwrap()]. *)
Definition dag_callbacks : M (Client CB) (ExecutionDAGCallbacks CB) :=
  s ← get_st;
  lift (unwrap "called `Option::unwrap()` on a `None` value" (cl_callbacks s)).
Definition set_dag_callbacks (cb : ExecutionDAGCallbacks CB) : M (Client CB) unit :=
  modify (with_cl_callbacks (Some cb)).

Definition call (cb : CB) (arg : CallArg) : M (Client CB) unit :=
  s ← get_st;
  _ ← modify (with_cl_calls (cl_calls s ++ [(cb, arg)]));
  match call_error (cl_calls s) cb arg with None => mret tt | Some e => bail e end.

(** ** The status poller *)
Fixpoint send_statuses (n : nat) : M (Client CB) unit :=
  match n with
  | O => mret tt
  | S n =>
      s ← get_st;
      if cl_polling s then
        ok ← is_ok (on_cl_sender (send Cl_Status));
        if ok : bool then send_statuses n else modify (with_cl_polling false)
      else mret tt
  end.
Definition poll : M (Client CB) unit :=
  s ← get_st;
  _ ← modify (with_cl_turn (S (cl_turn s)));
  send_statuses (polls (cl_turn s)).

(** ** [process_provided_file] *)

(** [canonicalize] fails when nothing is at the path. *)
Definition canonicalize_existing (p : PathBuf) : M Disk PathBuf :=
  io_call (λ d, if decide (is_Some (files d !! p) ∨ p ∈ dirs d)
                then Some (canonical p, d) else None).

Definition same_file (source dest : PathBuf) : M Disk bool :=
  path ← ok (canonicalize_existing source);
  path2 ← ok (canonicalize_existing dest);
  mret (match path, path2 with
        | Some path, Some path2 => bool_decide (path = path2)
        | _, _ => false
        end).

(** The file to write to, created empty. *)
Definition open_dest (write_to : option WriteToCallback) (success : bool)
    (source_path_hint : option PathBuf) : M Disk (option PathBuf) :=
  match write_to with
  | Some w =>
      if negb success && negb (allow_failure w) then mret None else
      skip ← match source_path_hint with
             | Some source => same_file source (dest w)
             | None => mret false
             end;
      if skip : bool then mret None else
      parent ← match path_parent (dest w) with
               | Some parent => mret parent
               | None => bail "Invalid file destination path"
               end;
      _ ← with_context "Failed to create parent directory" (create_dir_all parent);
      _ ← with_context "Failed to create file" (create_file (dest w));
      mret (Some (dest w))
  | None => mret None
  end.

(** The part of a chunk that fits in the buffer. *)
Definition fill (limit : N) (buffer chunk : list byte) : list byte :=
  if (N.of_nat (length buffer) <? limit)%N
  then buffer ++ take (Nat.min (length chunk) (N.to_nat (limit - N.of_nat (length buffer)))) chunk
  else buffer.

Definition call_chunked (chunked : list CB) (chunk : list byte) : M (Client CB) unit :=
  for_each chunked (λ cb, with_context "Get content chunked callback failed" (call cb (Call_chunk chunk))).

Fixpoint process_chunks (dest : option PathBuf) (chunked : list CB) (limit : N)
    (chunks : list (list byte)) (buffer : list byte) : M (Client CB) (list byte) :=
  match chunks with
  | [] => mret buffer
  | chunk :: chunks =>
      _ ← match dest with
          | Some dest => on_cl_disk (with_context "Failed to write chunk" (append_file dest chunk))
          | None => mret tt
          end;
      _ ← call_chunked chunked chunk;
      process_chunks dest chunked limit chunks (fill limit buffer chunk)
  end.

Definition make_executable (write_to : option WriteToCallback) : M Disk unit :=
  match write_to with
  | Some w =>
      if wt_executable w then
        e ← path_exists (dest w);
        if e : bool then
          _ ← with_context "Failed to get file metadata" (metadata_len (dest w));
          with_context "Failed to make executable" (set_permissions (dest w) false)
        else mret tt
      else mret tt
  | None => mret tt
  end.

(** [callback.get_content.take()]. *)
Definition take_get_content (uuid : FileUuid) : M (Client CB) unit :=
  cbs ← dag_callbacks;
  set_dag_callbacks (mkDagCallbacks (execution_callbacks cbs)
    (alter (λ c, mkFileCallbacks (write_to c) None (get_content_chunked c)) uuid (file_callbacks cbs))
    (urgent_files cbs)).

(** [iterator] gives the chunks of the file. *)
Definition process_provided_file (uuid : FileUuid) (success : bool)
    (iterator : M (Client CB) (list (list byte))) (source_path_hint : option PathBuf) :
    M (Client CB) unit :=
  cbs ← dag_callbacks;
  match file_callbacks cbs !! uuid with
  | Some callback =>
      let limit := match get_content callback with Some (limit, _) => limit | None => 0%N end in
      dest ← on_cl_disk (open_dest (write_to callback) success source_path_hint);
      chunks ← iterator;
      buffer ← process_chunks dest (get_content_chunked callback) limit chunks [];
      _ ← call_chunked (get_content_chunked callback) [];
      _ ← on_cl_disk (make_executable (write_to callback));
      match get_content callback with
      | Some (_, cb) =>
          _ ← take_get_content uuid;
          with_context "get_content callback failed" (call cb (Call_content buffer))
      | None => mret tt
      end
  | None => _ ← iterator; mret tt
  end.

(** The chunks of a file on disk, and of one that the server sends. *)
Definition read_chunks (ctx : string) (path : PathBuf) : M (Client CB) (list (list byte)) :=
  c ← on_cl_disk (with_context ctx (read_file path)); mret (file_blocks c).
Definition receive_chunks : M (Client CB) (list (list byte)) :=
  s ← get_st;
  let '(r, rest) := receive_file (cl_receiver s) in
  _ ← modify (with_cl_receiver rest); lift r.

(** ** [start_evaluation] *)
Definition process_local (uuid : FileUuid) (file : ProvidedFile) : M (Client CB) unit :=
  match file with
  | LocalFile _ _ local_path =>
      chunks ← read_chunks "Failed to read local file" local_path;
      with_context "Failed to process local file"
        (process_provided_file uuid true (mret chunks) (Some local_path))
  | Content _ _ content =>
      with_context "Failed to process file content"
        (process_provided_file uuid true (mret [content]) None)
  end.

Definition start_evaluation : M (Client CB) unit :=
  s ← get_st;
  cbs ← dag_callbacks;
  let watch := mkWatch (dom (execution_callbacks cbs)) (dom (file_callbacks cbs)) (urgent_files cbs) in
  _ ← for_each (map_iter (provided_files (cl_data s))) (λ p, process_local p.1 p.2);
  on_cl_sender (send (Cl_Evaluate (cl_data s) watch)).

(** ** The messages of the server *)

(** The lock is taken before and released after. *)
Definition handle_server_ask_file (uuid : FileUuid) : M (Client CB) unit :=
  s ← get_st;
  file ← lift (index (provided_files (cl_data s)) uuid);
  match file with
  | LocalFile _ key local_path =>
      _ ← on_cl_sender (with_context "Failed to send ExecutorClientMessage::ProvideFile"
            (send (Cl_ProvideFile uuid key)));
      with_context "Failed to send local file"
        (send_path (λ s, disk (cl_store s)) (λ d s, with_cl_store (with_disk d (cl_store s)) s)
           on_cl_sender local_path)
  | Content _ key content =>
      _ ← on_cl_sender (with_context "Failed to send ExecutorClientMessage::ProvideFile"
            (send (Cl_ProvideFile uuid key)));
      on_cl_sender (with_context "Failed to send file content" (send_data content))
  end.

(** [WorkerCurrentJobStatus::into_system_time]. *)
Definition into_system_time (now : N) (j : WorkerCurrentJobStatus Duration) :
    WorkerCurrentJobStatus SystemTime :=
  mkCurrentJob (status_job j) (status_client j) (Z.of_N now - Z.of_N (status_duration j))%Z.

Definition convert_worker (w : ExecutorWorkerStatus Duration) :
    M (Client CB) (ExecutorWorkerStatus SystemTime) :=
  match status_current_job w with
  | Some j =>
      now ← on_cl_disk system_time;
      mret (mkWorkerStatus (status_uuid w) (status_name w) (Some (into_system_time now j)))
  | None => mret (mkWorkerStatus (status_uuid w) (status_name w) None)
  end.
Fixpoint convert_workers (l : list (ExecutorWorkerStatus Duration)) :
    M (Client CB) (list (ExecutorWorkerStatus SystemTime)) :=
  match l with
  | [] => mret []
  | w :: l => w ← convert_worker w; l ← convert_workers l; mret (w :: l)
  end.
Definition handle_server_status (status_callback : CB) (status : ExecutorStatus Duration) :
    M (Client CB) unit :=
  workers ← convert_workers (status_connected_workers status);
  call status_callback (Call_status
    (mkExecutorStatus workers (status_ready_execs status) (status_waiting_execs status))).

(** [drain(..)]: the callbacks are gone even when one of them fails. *)
Definition drain_callbacks (uuid : ExecutionGroupUuid) (get : ExecutionCallbacks CB → list CB)
    (clear : ExecutionCallbacks CB → ExecutionCallbacks CB) (arg : CallArg) : M (Client CB) unit :=
  cbs ← dag_callbacks;
  match execution_callbacks cbs !! uuid with
  | Some c =>
      _ ← set_dag_callbacks (mkDagCallbacks (<[uuid := clear c]> (execution_callbacks cbs))
            (file_callbacks cbs) (urgent_files cbs));
      for_each (get c) (λ cb, call cb arg)
  | None => mret tt
  end.

(** The files of [Done]: the ones in the local store are processed, the other ones
    are asked; the number of the latter. *)
Fixpoint handle_done (result : list (FileUuid * FileStoreKey * bool)) (missing : nat) :
    M (Client CB) nat :=
  match result with
  | [] => mret missing
  | (uuid, key, success) :: result =>
      handle ← on_cl_store (get key);
      match handle with
      | Some handle =>
          chunks ← read_chunks "Failed to read produced file from the local storage"
                     (handle_path handle);
          _ ← with_context "Failed to process produced file from the local storage"
                (process_provided_file uuid success (mret chunks) None);
          handle_done result missing
      | None =>
          _ ← poll;
          _ ← with_context "Failed to ask for a completed file"
                (on_cl_sender (send (Cl_AskFile uuid key success)));
          handle_done result (S missing)
      end
  end.

(** How the loop goes on: with the files that are still to be received, or not. *)
Inductive Turn : Type :=
  | Continue (missing_files : option nat)
  | Break.

Definition handle_server_message (status_callback : CB) (missing_files : option nat)
    (message : ExecutorServerMessage) : M (Client CB) Turn :=
  match message with
  | Sv_AskFile uuid =>
      _ ← poll;
      _ ← with_context "Failed to process AskFile from the server" (handle_server_ask_file uuid);
      mret (Continue missing_files)
  | Sv_ProvideFile uuid success =>
      _ ← with_context "Failed to process ProvideFile from the server"
            (process_provided_file uuid success receive_chunks None);
      mret (Continue (Nat.pred <$> missing_files))
  | Sv_NotifyStart uuid worker =>
      _ ← drain_callbacks uuid on_start (λ c, mkExecutionCallbacks [] (on_done c) (on_skip c))
            (Call_start worker);
      mret (Continue missing_files)
  | Sv_NotifyDone uuid result =>
      _ ← drain_callbacks uuid on_done (λ c, mkExecutionCallbacks (on_start c) [] (on_skip c))
            (Call_done result);
      mret (Continue missing_files)
  | Sv_NotifySkip uuid =>
      _ ← drain_callbacks uuid on_skip (λ c, mkExecutionCallbacks (on_start c) (on_done c) [])
            Call_skip;
      mret (Continue missing_files)
  | Sv_Error _ =>
      _ ← poll;
      _ ← with_context "Failed to send Stop message to the server after an error"
            (on_cl_sender (send Cl_Stop));
      mret Break
  | Sv_Status status =>
      _ ← with_context "Failed to process Status() from the server"
            (handle_server_status status_callback status);
      mret (Continue missing_files)
  | Sv_Done result =>
      missing ← handle_done result 0;
      mret (Continue (Some missing))
  end.

(** The loop reads at least one packet per turn; a closed or broken channel ends it. *)
Fixpoint evaluate_loop (fuel : nat) (status_callback : CB) (missing_files : option nat) :
    M (Client CB) unit :=
  if bool_decide (missing_files = Some 0) then mret tt else
  match fuel with
  | O => out_of_fuel
  | S fuel =>
      message ← ok (zoom cl_receiver with_cl_receiver recv);
      match message with
      | None => mret tt
      | Some message =>
          turn ← handle_server_message status_callback missing_files message;
          match turn with
          | Continue missing_files => evaluate_loop fuel status_callback missing_files
          | Break => mret tt
          end
      end
  end.

(** [defer!]: at the end, whatever the result, the poller is told to stop; that
    panics when it has stopped already. *)
Definition stop_poller {A} (m : M (Client CB) A) : M (Client CB) A := λ s,
  let '(r, s) := m s in
  match (_ ← poll; get_st) s with
  | (Ret s', _) => if cl_polling s' then (r, s')
      else (Panicked "Failed to send done signal to status poller", s')
  | (_, s') => (r, s')
  end.

Definition evaluate (status_callback : CB) : M (Client CB) unit :=
  _ ← start_evaluation;
  stop_poller (s ← get_st; evaluate_loop (S (length (cl_receiver s))) status_callback None).
End client.
