(* ===== verification/OutputChecks.v ===== *)
(** * The files that the sanity checks look at ([ioi/sanity_checks/subtasks.rs], [io.rs])

    Two sanity checks read the official files of the testcases while they arrive, chunk
    after chunk: the closures that they give to the DAG have a state of their own, and
    share what they collect with the check.  Here are these states and what a chunk
    changes. *)
From S2P Require Import Prelude StoreKey UiMessage.

(** ** All the outputs equal ([OutputHasher]) *)
Record TestcaseOutput : Type := mkOutput {
  first_chunk : option (list byte);
  output_hash : Hash
}.
(** [hashed] is what the [Hasher] was fed. *)
Record OutputHasher : Type := mkHasher {
  hasher_subtask : SubtaskId;
  hasher_first_chunk : option (list byte);
  hashed : list byte
}.
Definition OutputHasher_new (subtask : SubtaskId) : OutputHasher := mkHasher subtask None [].
Abbreviation SubtaskOutputs := (gmap SubtaskId (list TestcaseOutput)).

Definition hasher_add_chunk `{Blake3} (h : OutputHasher) (chunk : list byte) (outputs : SubtaskOutputs) :
    OutputHasher * SubtaskOutputs :=
  match chunk with
  | [] =>
      let output := mkOutput (hasher_first_chunk h) (blake3_hash (hashed h)) in
      (h, alter (λ out, out ++ [output]) (hasher_subtask h) outputs)
  | _ =>
      let first := match hasher_first_chunk h with None => Some chunk | Some c => Some c end in
      (mkHasher (hasher_subtask h) first (hashed h ++ chunk), outputs)
  end.

(** ** The end of a file ([CheckEndWithNewLine])

    The lists of the files that triggered the warning are shared: one for the inputs,
    one for the outputs. *)
Inductive FileKind : Type := InputFiles | OutputFiles.
Record CheckEndWithNewLine : Type := mkEndCheck {
  last_chunk_ends_with_new_line : bool;
  is_binary : bool;
  end_path : string
}.
Definition CheckEndWithNewLine_new (path : string) : CheckEndWithNewLine := mkEndCheck true false path.

Definition end_add_chunk (c : CheckEndWithNewLine) (chunk : list byte) (files : list string) :
    CheckEndWithNewLine * list string :=
  let binary := is_binary c || bool_decide (Byte.x00 ∈ chunk) in
  match chunk with
  | [] =>
      (mkEndCheck (last_chunk_ends_with_new_line c) binary (end_path c),
       if negb (last_chunk_ends_with_new_line c) && negb binary then files ++ [end_path c] else files)
  | _ => (mkEndCheck (bool_decide (last chunk = Some Byte.x0a)) binary (end_path c), files)
  end.

(** ** What the closures share

    Each closure that is bound has a cell with its state. *)
Record SanityState : Type := mkSanity {
  sanity_outputs : SubtaskOutputs;
  newline_files : FileKind → list string;
  hashers : gmap N OutputHasher;
  end_checks : gmap N (FileKind * CheckEndWithNewLine)
}.
Definition SanityState_new : SanityState := mkSanity ∅ (λ _, []) ∅ ∅.
#[export] Instance FileKind_eq_dec : EqDecision FileKind.
Proof. solve_decision. Defined.

Definition with_outputs o (s : SanityState) : SanityState :=
  mkSanity o (newline_files s) (hashers s) (end_checks s).
Definition with_hasher cell h (s : SanityState) : SanityState :=
  mkSanity (sanity_outputs s) (newline_files s) (<[cell := h]> (hashers s)) (end_checks s).
Definition with_end_check cell k c (s : SanityState) : SanityState :=
  mkSanity (sanity_outputs s) (newline_files s) (hashers s) (<[cell := (k, c)]> (end_checks s)).
Definition with_newline_files k l (s : SanityState) : SanityState :=
  mkSanity (sanity_outputs s) (λ k', if decide (k' = k) then l else newline_files s k')
    (hashers s) (end_checks s).

(** The closures of [OutputHasher::bind] and of [CheckEndWithNewLine::bind]. *)
Definition hash_chunk `{Blake3} (cell : N) (chunk : list byte) : M SanityState unit :=
  s ← get_st;
  h ← lift (unwrap "no such closure" (hashers s !! cell));
  let '(h, outputs) := hasher_add_chunk h chunk (sanity_outputs s) in
  modify (λ s, with_hasher cell h (with_outputs outputs s)).
Definition end_chunk (cell : N) (chunk : list byte) : M SanityState unit :=
  s ← get_st;
  '(k, c) ← lift (unwrap "no such closure" (end_checks s !! cell));
  let '(c, files) := end_add_chunk c chunk (newline_files s k) in
  modify (λ s, with_end_check cell k c (with_newline_files k files s)).
