(* ===== verification/Judge.v ===== *)
(** * The callbacks of an evaluation ([task-maker-format/src/ioi/dag])

    The closures that the builders of an IOI task register on the executions, as
    data: what each one captures is the arguments of its constructor.  Running one
    sends messages to the user interface and gives scores to the score manager of a
    solution.  The second part of the file is about what the checkers say. *)
From S2P Require Import Prelude Float64 RustOrd Paths StoreKey Dag Text Diagnostics Checks UiMessage Machine.
From S2P Require Import FloatText Scoring Client OutputChecks.

(** The [Debug] form of a status (strings without characters to escape). *)
Definition debug_string (s : string) : string := quote +:+ s +:+ quote.
Definition debug_status (s : ExecutionStatus) : string :=
  match s with
  | Success => "Success"
  | Failure m => "Failure(" +:+ debug_string m +:+ ")"
  | ReturnCode c => "ReturnCode(" +:+ pretty c +:+ ")"
  | Signal n m => "Signal(" +:+ pretty n +:+ ", " +:+ debug_string m +:+ ")"
  | TimeLimitExceeded => "TimeLimitExceeded"
  | SysTimeLimitExceeded => "SysTimeLimitExceeded"
  | WallTimeLimitExceeded => "WallTimeLimitExceeded"
  | MemoryLimitExceeded => "MemoryLimitExceeded"
  | InternalError m => "InternalError(" +:+ debug_string m +:+ ")"
  end.

(** ** What a checker says *)
Definition translate_checker_message (message : text) : text :=
  if decide (message = text_of "translate:success") then text_of "Output is correct"
  else if decide (message = text_of "translate:partial") then text_of "Output is partially correct"
  else if decide (message = text_of "translate:wrong") then text_of "Output is incorrect"
  else message.

(** [char::is_control]: the category [Cc]. *)
Definition is_control (c : char) : bool := ((c <=? 31) || (127 <=? c) && (c <=? 159))%N.
Definition is_unicode_printable (s : text) : bool :=
  forallb (λ c, negb (is_control c) || is_whitespace c) s.

(** ** The closures *)

(** What the callbacks of [bind_exec_callbacks!] tell the status of. *)
Inductive StatusKind : Type :=
  | SK_Compilation (file : PathBuf)
  | SK_Generation (subtask : SubtaskId) (testcase : TestcaseId)
  | SK_Validation (subtask : SubtaskId) (testcase : TestcaseId)
  | SK_Solution (subtask : SubtaskId) (testcase : TestcaseId)
  | SK_Evaluation (subtask : SubtaskId) (testcase : TestcaseId) (solution : PathBuf)
      (manager_index : option nat)
  | SK_Checker (subtask : SubtaskId) (testcase : TestcaseId) (solution : PathBuf)
  | SK_TerryGeneration (solution : PathBuf) (seed : Seed)
  | SK_TerryValidation (solution : PathBuf)
  | SK_TerrySolution (solution : PathBuf)
  | SK_TerryChecker (solution : PathBuf)
  | SK_Booklet (name : string)
  | SK_BookletDependency (booklet name : string) (step num_steps : nat).
Definition status_message (k : StatusKind) (status : UIExecutionStatus) : UIMessage :=
  match k with
  | SK_Compilation file => Compilation file status
  | SK_Generation st tc => IOIGeneration st tc status
  | SK_Validation st tc => IOIValidation st tc status
  | SK_Solution st tc => IOISolution st tc status
  | SK_Evaluation st tc sol i => IOIEvaluation st tc sol status i
  | SK_Checker st tc sol => IOIChecker st tc sol status
  | SK_TerryGeneration sol seed => TerryGeneration sol seed status
  | SK_TerryValidation sol => TerryValidation sol status
  | SK_TerrySolution sol => TerrySolution sol status
  | SK_TerryChecker sol => TerryChecker sol status
  | SK_Booklet name => IOIBooklet name status
  | SK_BookletDependency booklet name step num_steps =>
      IOIBookletDependency booklet name step num_steps status
  end.

(** The closures that score a testcase: the score manager they share, by its
    position, the subtask and the testcase. *)
Record ScoreTarget : Type := mkTarget {
  target_manager : nat;
  target_subtask : SubtaskId;
  target_testcase : TestcaseId
}.

(** What is called with the score of a checker: the score of a testcase, or the closures
    of the sanity checks, about a junk output and about an output file of [att/]. *)
Inductive ScoreCallback : Type :=
  | SC_Score (target : ScoreTarget)
  | SC_Junk (description : string)
  | SC_Sample (output : PathBuf).
(** The same for the outcome of a Terry checker: the outcome of a solution, or a sanity
    check about a bad output. *)
Inductive OutcomeCallback : Type :=
  | OC_Solution (solution : PathBuf)
  | OC_BadOutput (name : string).

Inductive TaskCallback : Type :=
  | CB_Status (kind : StatusKind)
  | CB_Compiled (path : PathBuf) (description : string)
  | CB_Generated (testcase : TestcaseId) (args : string)
  | CB_Validated (subtask : SubtaskId) (testcase : TestcaseId)
  | CB_OutputGenerated (testcase : TestcaseId)
  | CB_BatchDone (target : ScoreTarget)
  | CB_WhiteDiffDone (callback : ScoreCallback)
  | CB_CheckerDone (testcase : option TestcaseId) (description : string) (callback : ScoreCallback)
  | CB_CommunicationDone (num_processes : nat) (target : ScoreTarget)
  | CB_InteractiveDone (target : ScoreTarget)
  | CB_TerryChecked (callback : OutcomeCallback)
  | CB_TerryStatement
  | CB_AsyCompiled (name : string)
  | CB_AsyCropped (name : string)
  | CB_LatexDone (dest : string)
  | CB_TypstDone (dest : string)
  | CB_SampleValidated (input : PathBuf)
  | CB_SampleSolved (input : PathBuf)
  | CB_FuzzGenerated (seed : Seed)
  | CB_BadOutputChecked (name : string)
  | CB_HashChunk (cell : N)
  | CB_EndChunk (cell : N).

(** [serde_json::from_slice] on the outcome of a Terry checker, or its error. *)
Class OutcomeJson : Type := { outcome_from : list byte → SolutionOutcome + string }.

(** Other crates: [approx::abs_diff_ne!], and the two groups of the matches of the
    expression [FIND_ERRORS] of [emit_warnings] (the error, the line). *)
Class Crates : Type := {
  abs_diff_ne : f64 → f64 → bool;
  latex_errors : text → list (text * text)
}.

(** The score managers of the solutions, the channel that all share, and the state of the
    sanity checks. *)
Record Judge : Type := mkJudge {
  managers : list ScoreManager;
  judge_channel : UIChannel;
  judge_sanity : SanityState
}.
Definition with_judge_channel x (j : Judge) : Judge := mkJudge (managers j) x (judge_sanity j).
Definition with_judge_sanity x (j : Judge) : Judge := mkJudge (managers j) (judge_channel j) x.

Section run.
Context `{IterOrder} `{OutcomeJson} `{Crates} `{Blake3}.
Abbreviation Run := (M Judge).

Definition judge_send (m : UIMessage) : Run unit := zoom judge_channel with_judge_channel (ui_send m).
Definition judge_diagnostic (d : Diagnostic) : Run unit := judge_send (UI_Diagnostic d).

(** [score_manager.lock().unwrap().score(..)]. *)
Definition give_score (t : ScoreTarget) (x : f64) (m : text) : Run unit := λ j,
  match managers j !! target_manager t with
  | None => (Panicked "no such score manager", j)
  | Some sm =>
      let '(r, sm) := score (target_subtask t) (target_testcase t) x (string_of_text m)
                        (with_sm_channel (judge_channel j) sm) in
      (r, mkJudge (<[target_manager t := sm]> (managers j)) (sm_channel sm) (judge_sanity j))
  end.

(** The closures that take the score of a checker. *)
Definition score_callback (c : ScoreCallback) (x : f64) (m : text) : Run unit :=
  match c with
  | SC_Score t => give_score t x m
  | SC_Junk description =>
      if f64_eqb x f64_zero then mret tt
      else judge_diagnostic (with_note
        "This almost certainly indicates a bug in the checker, unless it's intended that such a file scores points."
        (Diagnostic_warning ("Junk file '" +:+ description +:+ "' scored " +:+ string_of_text (f64_display x)
           +:+ " (with message '" +:+ string_of_text m +:+ "')")))
  | SC_Sample output =>
      if abs_diff_ne x f64_one
      then judge_diagnostic (Diagnostic_warning ("Sample output file " +:+ path_to_string output
             +:+ " scores " +:+ string_of_text (f64_display x) +:+ ": " +:+ string_of_text m))
      else mret tt
  end.

(** [results[0]]. *)
Definition first_result (results : list ExecutionResult) : Run ExecutionResult :=
  lift (unwrap "index out of bounds" (head results)).

(** A diagnostic for an execution that failed, with its standard error. *)
Definition report_failure (d : Diagnostic) (result : ExecutionResult) : Run unit :=
  if is_success (Dag.status result) then mret tt
  else judge_diagnostic (match result_stderr result with
                         | Some stderr => with_help_attachment stderr d
                         | None => d
                         end).

Definition run_status (k : StatusKind) (arg : CallArg) : Run unit :=
  match arg with
  | Call_start worker => judge_send (status_message k (UI_Started worker))
  | Call_done results => judge_send (status_message k (UI_Done results))
  | Call_skip => judge_send (status_message k UI_Skipped)
  | _ => mret tt
  end.

(** [checker.rs]: the white diff. *)
Definition white_diff_done (c : ScoreCallback) (result : ExecutionResult) : Run unit :=
  match Dag.status result with
  | Success =>
      with_context "Checker callback failed" (score_callback c f64_one (text_of "Output is correct"))
  | ReturnCode 1 =>
      with_context "Checker callback failed" (score_callback c f64_zero (text_of "Output is incorrect"))
  | _ => panic "internal error: entered unreachable code: diff died badly?"
  end.

(** [checker.rs]: a custom checker. *)
Definition checker_done (testcase : option TestcaseId) (description : string) (c : ScoreCallback)
    (res : ExecutionResult) : Run unit :=
  stdout ← lift (match result_stdout res with Some o => Ret o | None => Fail ["Checker stdout not captured"] end);
  stderr ← lift (match result_stderr res with Some o => Ret o | None => Fail ["Checker stderr not captured"] end);
  if negb (is_success (Dag.status res)) then
    let message := match testcase with
      | Some tc => "Checker failed while computing a score for testcase " +:+ pretty tc
      | None => "Checker failed while computing a score for a testcase"
      end in
    judge_diagnostic (with_help_attachment stderr
      (with_help ("The checker crashed with: " +:+ debug_status (Dag.status res))
         (with_note description (Diagnostic_error message))))
  else
    let invalid (message : string) :=
      judge_diagnostic (with_help_attachment stdout (with_note description (Diagnostic_error message))) in
    match from_utf8 stdout, from_utf8 stderr with
    | None, _ => invalid "The checked return a non UTF-8 score"
    | Some _, None => invalid "The checked return a non UTF-8 message"
    | Some out, Some err =>
        let message := translate_checker_message (trim err) in
        match parse_f64 (trim out) with
        | None =>
            let e := parse_error (trim out) in
            let m := match testcase with
              | Some tc => "Checker returned an invalid score (Err(" +:+ e +:+ ")) for testcase " +:+ pretty tc
              | None => "Checker returned an invalid score (Err(" +:+ e +:+ "))"
              end in
            judge_diagnostic (with_help_attachment stdout
              (with_help ("The parse error is: " +:+ e) (with_note description (Diagnostic_error m))))
        | Some x =>
            if is_unicode_printable message then score_callback c x message
            else invalid ("The checked return a non printable message (" +:+ string_of_text message +:+ ")")
        end
    end.

(** [task_type/batch.rs]. *)
Definition batch_done (t : ScoreTarget) (results : list ExecutionResult) : Run unit :=
  match results with
  | [result] =>
      match Dag.status result with
      | Success => mret tt
      | s => give_score t f64_zero (text_of (debug_status s))
      end
  | _ => panic "assertion `left == right` failed"
  end.

(** [task_type/communication.rs]: the first execution that failed decides. *)
Definition send_score (t : ScoreTarget) (x : f64) (m : text) : Run unit :=
  with_context "Failed to store testcase score" (give_score t x m).
Fixpoint first_failure (i : nat) (results : list ExecutionResult) : option (nat * ExecutionStatus) :=
  match results with
  | [] => None
  | r :: results =>
      if is_success (Dag.status r) then first_failure (S i) results else Some (i, Dag.status r)
  end.
Definition communication_done (num_processes : nat) (t : ScoreTarget) (results : list ExecutionResult) :
    Run unit :=
  match first_failure 0 results with
  | Some (i, s) =>
      send_score t f64_zero
        (if decide (i = num_processes) then text_of "Manager failed" else text_of (debug_status s))
  | None =>
      manager ← lift (unwrap "index out of bounds" (results !! num_processes));
      stdout ← lift (match result_stdout manager with
                     | Some o => Ret o | None => Fail ["Checker stdout not captured"] end);
      stderr ← lift (match result_stderr manager with
                     | Some o => Ret o | None => Fail ["Checker stderr not captured"] end);
      x ← lift (match parse_f64 (trim (from_utf8_lossy stdout)) with
                | Some x => Ret x | None => Fail ["Invalid score from checker"] end);
      send_score t x (translate_checker_message (trim (from_utf8_lossy stderr)))
  end.

(** [task_type/interactive.rs]: the lines of the controller. *)
Record Verdict : Type := mkVerdict {
  verdict_score : option f64;
  user_message : text;
  admin_message : text
}.
Definition read_line (v : Verdict) (line : text) : Verdict :=
  match strip_prefix (text_of "SCORE: ") line with
  | Some s => mkVerdict (parse_f64 (trim s)) (user_message v) (admin_message v)
  | None =>
      match strip_prefix (text_of "USER_MESSAGE: ") line with
      | Some s => mkVerdict (verdict_score v) (trim s) (admin_message v)
      | None =>
          match strip_prefix (text_of "ADMIN_MESSAGE: ") line with
          | Some s => mkVerdict (verdict_score v) (user_message v) (trim s)
          | None => v
          end
      end
  end.
Definition read_verdict (stderr : text) : Verdict :=
  foldl read_line (mkVerdict None [] []) (text_lines stderr).
Definition interactive_done (t : ScoreTarget) (results : list ExecutionResult) : Run unit :=
  controller ← first_result results;
  if negb (is_success (Dag.status controller)) then
    send_score t f64_zero (text_of ("Controller died (" +:+ debug_status (Dag.status controller) +:+ ")"))
  else
    stderr ← lift (match result_stderr controller with
                   | Some o => Ret o | None => Fail ["Controller stderr not captured"] end);
    let v := read_verdict (from_utf8_lossy stderr) in
    let message := translate_checker_message (user_message v) in
    let message := match admin_message v with
      | [] => message
      | admin => message ++ text_of " (Admin-only message: " ++ admin ++ text_of ")"
      end in
    send_score t (default f64_zero (verdict_score v)) message.

(** [terry/dag/mod.rs] and [terry/mod.rs]: the checker of a solution. *)
Definition terry_checked (c : OutcomeCallback) (res : ExecutionResult) : Run unit :=
  stdout ← lift (match result_stdout res with Some o => Ret o | None => Fail ["Checker stdout not captured"] end);
  match c, outcome_from stdout with
  | OC_Solution solution, inl o => judge_send (TerrySolutionOutcome solution (inl o))
  | OC_Solution solution, inr e =>
      judge_send (TerrySolutionOutcome solution (inr ("Invalid checker outcome: " +:+ e)))
  | OC_BadOutput name, inr e =>
      judge_diagnostic (Diagnostic_error ("Checker failed on bad output " +:+ name +:+ ": " +:+ e))
  | OC_BadOutput _, inl _ => mret tt
  end.
(** [terry/statement/mod.rs]. *)
Definition terry_statement (res : ExecutionResult) : Run unit :=
  if is_success (Dag.status res) then mret tt
  else
    stderr ← lift (unwrap "Failed to capture stderr" (result_stderr res));
    judge_diagnostic (Diagnostic_error ("Failed to generate statement.md. Generation stderr: "
      +:+ string_of_text (from_utf8_lossy stderr))).

(** [ioi/statement]: the closures of the booklets. *)
Definition report_asset (message help : string) (r : ExecutionResult) : Run unit :=
  let d := Diagnostic_error message in
  report_failure (if is_internal_error (Dag.status r) then with_help help d else d) r.
(** The line of an error, an [i32]. *)
Definition latex_line (s : text) : option Z :=
  ds ← strip_prefix (text_of "l.") s;
  if bool_decide (ds ≠ []) && forallb is_digit ds && (digits_value ds <? 2 ^ 31)%Z
  then Some (digits_value ds) else None.
Definition latex_error_ord : Ord (option Z * string) :=
  ord_by (λ p : option Z * string, (option_list p.1, p.2)).
Definition emit_warnings (booklet : string) (content : list byte) : Run unit :=
  let errors := (λ p : text * text, (latex_line p.2, string_of_text p.1))
    <$> latex_errors (from_utf8_lossy content) in
  match @sorted _ latex_error_ord (elements (list_to_set errors : gset (option Z * string))) with
  | [] => mret tt
  | errors =>
      let line_of (e : option Z * string) := match e.1 with
        | Some l => "Line " +:+ pretty l +:+ ": " +:+ e.2
        | None => e.2
        end in
      judge_diagnostic (with_note (join_string (String.String (Ascii.ascii_of_N 10) EmptyString) (line_of <$> errors))
        (Diagnostic_warning ("Found Latex errors while compiling the booklet " +:+ booklet)))
  end.
Definition latex_done (dest : string) (r : ExecutionResult) : Run unit :=
  match result_stdout r with Some content => emit_warnings dest content | None => mret tt end.
Definition typst_done (dest : string) (r : ExecutionResult) : Run unit :=
  match Dag.status r with
  | Failure error =>
      judge_diagnostic (with_help "Consider compiling the file manually to troubleshoot the issue"
        (Diagnostic_error ("The compilation of the booklet at " +:+ dest +:+
           " failed with the following errors:" +:+ String.String (Ascii.ascii_of_N 10) error)))
  | _ => mret tt
  end.

(** The closures of the sanity checks on an execution that should succeed. *)
Definition report_crash (message who whose : string) (res : ExecutionResult) : Run unit :=
  if is_success (Dag.status res) then mret tt
  else
    let d := with_note ("The " +:+ who +:+ " failed with: " +:+ debug_status (Dag.status res))
               (Diagnostic_error message) in
    judge_diagnostic (match result_stderr res with
                      | Some stderr =>
                          with_help_attachment stderr (with_help ("The " +:+ whose +:+ " stderr is:") d)
                      | None => d
                      end).

(** A callback that is called.  The ones that are registered for the end of an
    execution are not called otherwise. *)
Definition run_done (c : TaskCallback) (results : list ExecutionResult) : Run unit :=
  match c with
  | CB_Status k => run_status k (Call_done results)
  | CB_Compiled path description =>
      r ← first_result results;
      report_failure (with_note description
        (Diagnostic_error ("Failed to compile " +:+ path_to_string path))) r
  | CB_Generated tc args =>
      r ← first_result results;
      report_failure (with_note ("Generator arguments are: " +:+ args)
        (Diagnostic_error ("Failed to generate input " +:+ pretty tc))) r
  | CB_Validated st tc =>
      r ← first_result results;
      report_failure (Diagnostic_error
        ("Failed to validate input " +:+ pretty tc +:+ " for subtask " +:+ pretty st)) r
  | CB_OutputGenerated tc =>
      r ← first_result results;
      report_failure (Diagnostic_error ("Failed to generate output " +:+ pretty tc)) r
  | CB_BatchDone t => batch_done t results
  | CB_WhiteDiffDone c => r ← first_result results; white_diff_done c r
  | CB_CheckerDone tc description c => r ← first_result results; checker_done tc description c r
  | CB_CommunicationDone n t => communication_done n t results
  | CB_InteractiveDone t => interactive_done t results
  | CB_TerryChecked c => r ← first_result results; terry_checked c r
  | CB_TerryStatement => r ← first_result results; terry_statement r
  | CB_AsyCompiled name =>
      r ← first_result results;
      report_asset ("Failed to compile " +:+ name) "Is 'asymptote' installed?" r
  | CB_AsyCropped name =>
      r ← first_result results;
      report_asset ("Failed to crop pdf of " +:+ name) "Is 'pdfcrop' installed?" r
  | CB_LatexDone dest => r ← first_result results; latex_done dest r
  | CB_TypstDone dest => r ← first_result results; typst_done dest r
  | CB_SampleValidated name =>
      r ← first_result results;
      report_crash ("Sample input file " +:+ path_to_string name +:+ " is not valid") "validator" "validator" r
  | CB_SampleSolved name =>
      r ← first_result results;
      report_crash ("Solution failed on sample input file " +:+ path_to_string name) "solution" "solution" r
  | CB_FuzzGenerated seed =>
      r ← first_result results;
      report_crash ("Failed to generate input for FuzzChecker with seed " +:+ pretty seed)
        "generator" "generator" r
  | CB_BadOutputChecked name =>
      r ← first_result results;
      report_crash ("Checker failed on bad output " +:+ name +:+ ": " +:+ debug_status (Dag.status r))
        "checker" "checker's" r
  | CB_HashChunk _ | CB_EndChunk _ => mret tt
  end.
Definition run_callback (c : TaskCallback) (arg : CallArg) : Run unit :=
  match c, arg with
  | CB_Status k, _ => run_status k arg
  | CB_HashChunk cell, Call_chunk chunk => zoom judge_sanity with_judge_sanity (hash_chunk cell chunk)
  | CB_EndChunk cell, Call_chunk chunk => zoom judge_sanity with_judge_sanity (end_chunk cell chunk)
  | _, Call_done results => run_done c results
  | _, _ => mret tt
  end.
End run.
