(* ===== verification/IoiDag.v ===== *)
(** * The DAG of an IOI task ([task-maker-format/src/ioi/dag], [ioi/mod.rs])

    The generators, the validators, the checkers, the types of task, and
    [IOITask::build_dag], which puts together the executions that evaluate the
    solutions of a task.  The booklets and the hooks of the sanity checks, which
    [build_dag] runs at its end, are in [Booklets] and in [StatementChecks], which
    completes it. *)
From S2P Require Import Prelude Float64 Paths StoreKey Dag Text Diagnostics Checks UiMessage Machine.
From S2P Require Import Build Languages SourceFile Scoring Judge.

Definition GENERATION_PRIORITY : Priority := 1000000%Z.
Definition EVALUATION_PRIORITY : Priority := 1000%Z.
Definition STDERR_CONTENT_LENGTH : N := (10 * 1024)%N.
Definition TM_VALIDATION_FILE_NAME : string := "tm_validation_file".

(** [Tag] ([tag.rs]). *)
Inductive Tag : Type := Tag_Generation | Tag_Evaluation | Tag_Checking | Tag_Booklet.
Definition tag_of (t : Tag) : ExecutionTag :=
  match t with
  | Tag_Generation => mkTag "generation"
  | Tag_Evaluation => mkTag "evaluation"
  | Tag_Checking => mkTag "checking"
  | Tag_Booklet => mkTag "booklet"
  end.

(** [SourceFile] of [task-maker-format]: the source file and its description. *)
Record UiSourceFile : Type := mkUiSourceFile {
  source_base : SourceFile;
  source_description : string
}.

(** ** The parts of a task *)
Inductive InputGenerator : Type :=
  | IG_StaticFile (path : PathBuf)
  | IG_Custom (source : UiSourceFile) (args : list string).
Inductive InputValidator : Type :=
  | IV_AssumeValid
  | IV_Custom (source : UiSourceFile) (args : list string).
Inductive OutputGenerator : Type :=
  | OG_NotAvailable
  | OG_StaticFile (path : PathBuf)
  | OG_Custom (source : UiSourceFile) (args : list string).
Inductive Checker : Type :=
  | Checker_WhiteDiff
  | Checker_Custom (source : UiSourceFile).
Inductive UserIo : Type := StdIo | FifoIo.

Record CommunicationTypeData : Type := mkCommunication {
  manager : UiSourceFile;
  num_processes : N;
  user_io : UserIo
}.
Record InteractiveTypeData : Type := mkInteractive {
  controller : UiSourceFile;
  controller_time_limit : option f64;
  controller_wall_time_limit : option f64;
  controller_memory_limit : option N;
  controller_process_limit : option N;
  controller_concurrent : option bool
}.
(** The output generator of a batch task is used by the parsers only. *)
Inductive TaskType : Type :=
  | TT_Batch (checker : Checker)
  | TT_Communication (data : CommunicationTypeData)
  | TT_Interactive (data : InteractiveTypeData)
  | TT_None.

(** [SubtaskInfo], [TestcaseInfo] and [IOITask] with what the user interface does not
    read. *)
Record BuildSubtask : Type := mkBuildSubtask {
  subtask_info : SubtaskInfo;
  subtask_description : option text;
  input_validator : InputValidator
}.
Record BuildTestcase : Type := mkBuildTestcase {
  testcase_info : TestcaseInfo;
  input_generator : InputGenerator;
  output_generator : OutputGenerator
}.
Record BuildTask : Type := mkBuildTask {
  bt_path : PathBuf;
  task_type : TaskType;
  bt_name : string;
  bt_title : string;
  bt_time_limit : option f64;
  bt_memory_limit : option N;
  infile : option PathBuf;
  outfile : option PathBuf;
  bt_subtasks : gmap SubtaskId BuildSubtask;
  bt_testcases : gmap TestcaseId BuildTestcase;
  bt_aggregator : TestcaseScoreAggregator;
  bt_score_precision : nat;
  bt_grader_map : GraderMap
}.
Definition ui_task (t : BuildTask) : IOITask :=
  mkTask (bt_path t) (bt_name t) (bt_title t) (bt_time_limit t) (bt_memory_limit t)
    (subtask_info <$> bt_subtasks t) (testcase_info <$> bt_testcases t) (bt_aggregator t)
    (bt_score_precision t).

Definition u64_mul `{BuildProfile} (a b : N) : Outcome N :=
  if (a * b <? u64_modulus)%N then Ret (a * b)%N
  else if overflow_checks then Panicked "attempt to multiply with overflow"
  else Ret ((a * b) mod u64_modulus)%N.

Section builders.
Context `{UuidV4} `{LocalFiles} `{Blake3} `{LanguageManager} `{BuildProfile} `{UuidDisplay}.
Abbreviation Eval := (M (EvaluationData TaskCallback)).

(** The pieces that several builders share. *)
Definition for_testcase (what : string) (testcase : TestcaseId) (subtask : SubtaskId) : string :=
  what +:+ " of testcase " +:+ pretty testcase +:+ ", subtask " +:+ pretty subtask.
Definition set_tag_priority (t : Tag) (p : Priority) (g : ExecutionGroup) : ExecutionGroup :=
  let '(mkGroup u d es fs c _ _ cs) := g in mkGroup u d es fs c (Some (tag_of t)) p cs.
Definition set_controller (c : ControllerSettings) (g : ExecutionGroup) : ExecutionGroup :=
  let '(mkGroup u d es fs cf t p _) := g in mkGroup u d es fs cf t p (Some c).
Definition add_group (g : ExecutionGroup) : Eval unit := on_dag (λ d, Ret (add_execution_group g d).2).
Definition done_with (u : ExecutionGroupUuid) (c : TaskCallback) : Eval unit :=
  on_dag (on_execution_done u c).

(** [bind_exec_callbacks!]: the status is sent now, and when it changes. *)
Definition bind_exec_callbacks (u : ExecutionGroupUuid) (k : StatusKind) : Eval unit :=
  _ ← send (status_message k UI_Pending);
  _ ← on_dag (on_execution_start u (CB_Status k));
  _ ← done_with u (CB_Status k);
  on_dag (on_execution_skip u (CB_Status k)).

(** [bind_exec_io!]: the file that will be the output, and the execution. *)
Definition bind_exec_io (e : Execution) (t : BuildTask) (input_file : FileUuid)
    (validation_handle : option FileUuid) : Eval (File * Execution) :=
  let e := match infile t with
           | None => set_stdin (Input_File input_file) e
           | Some path => input input_file path false e
           end in
  let e := match validation_handle with
           | None => e
           | Some f => input f (path_of_string "wait_for_validation") false e
           end in
  match outfile t with
  | None => exec_capture_stdout None e
  | Some path => exec_output path e
  end.

(** ** Source files ([source_file.rs]) *)
Definition bind_compilation_exe (sf : UiSourceFile) (comp : option ExecutionGroupUuid) : Eval unit :=
  match comp with
  | None => mret tt
  | Some comp_uuid =>
      _ ← with_context "Failed to bind exec callbacks"
            (bind_exec_callbacks comp_uuid (SK_Compilation (sf_path (source_base sf))));
      done_with comp_uuid (CB_Compiled (relative_path (source_base sf)) (source_description sf))
  end.
Definition ui_execute (sf : UiSourceFile) (description : string) (args : list string) : Eval Execution :=
  '(comp, exec) ← execute (source_base sf) description args;
  _ ← bind_compilation_exe sf comp;
  mret exec.
Definition ui_prepare (sf : UiSourceFile) : Eval (option ExecutionGroupUuid) :=
  comp ← prepare (source_base sf);
  _ ← bind_compilation_exe sf comp;
  mret comp.
Definition ui_executable (sf : UiSourceFile) : Eval FileUuid :=
  '(exe, comp) ← executable (source_base sf);
  _ ← bind_compilation_exe sf comp;
  mret exe.

(** The loop that adds the files of the constraints to a sandbox. *)
Fixpoint add_constraints (task_path : PathBuf) (filenames : list string) (e : Execution) :
    Eval Execution :=
  match filenames with
  | [] => mret e
  | filename :: filenames =>
      let path := path_join (path_join task_path (path_of_string "gen")) (path_of_string filename) in
      if path_is_file path then
        file ← new_file ("Constraints file at " +:+ path_to_string path);
        let e := input (file_uuid file) (path_of_string filename) false e in
        _ ← on_dag (provide_file file path (from_file path));
        add_constraints task_path filenames e
      else add_constraints task_path filenames e
  end.

(** A group with one execution, of the generation of the testcases. *)
Definition generation_group (exec : Execution) (testcase : TestcaseId) : Eval ExecutionGroup :=
  '(_, exec) ← exec_capture_stderr (Some STDERR_CONTENT_LENGTH) exec;
  group ← exec_into_group exec;
  mret (set_tag_priority Tag_Generation (GENERATION_PRIORITY - Z.of_N testcase)%Z group).

(** ** Input generators ([input_generator.rs]) *)
Definition input_generate (g : InputGenerator) (task_path : PathBuf) (description : string)
    (subtask : SubtaskId) (testcase : TestcaseId) : Eval (FileUuid * option Execution) :=
  match g with
  | IG_StaticFile path =>
      let path := path_join task_path path in
      if negb (path_exists path) then bail ("COPY from not existing file: " +:+ debug_path path)
      else
        file ← new_file ("Static input file of testcase " +:+ pretty subtask +:+ ", subtask "
                           +:+ pretty testcase +:+ " from " +:+ debug_path path);
        _ ← with_context ("Failed to provide static input file from " +:+ path_to_string path)
              (on_dag (provide_file file path (from_file path)));
        mret (file_uuid file, None)
  | IG_Custom source args =>
      exec ← with_context "Failed to execute generator source file"
               (ui_execute source description args);
      let exec := limits_mut limits_allow_multiprocess exec in
      exec ← add_constraints task_path ["limiti.yaml"; "constraints.yaml"] exec;
      '(stdout, exec) ← exec_capture_stdout None exec;
      mret (file_uuid stdout, Some exec)
  end.

Definition numbered_file (dir name : string) (testcase : TestcaseId) : PathBuf :=
  path_join (path_of_string dir) (path_of_string (name +:+ pretty testcase +:+ ".txt")).

Definition generate_input (g : InputGenerator) (task_path : PathBuf) (subtask : SubtaskId)
    (testcase : TestcaseId) : Eval FileUuid :=
  '(input_file, gen) ← input_generate g task_path
    (for_testcase "Generation of input file" testcase subtask) subtask testcase;
  s ← get_st;
  _ ← on_dag (write_file_to input_file
        (path_join (task_root s) (numbered_file "input" "input" testcase)) false);
  _ ← match gen with
      | None => mret tt
      | Some gen =>
          group ← generation_group gen testcase;
          _ ← bind_exec_callbacks (group_uuid group) (SK_Generation subtask testcase);
          _ ← done_with (group_uuid group) (CB_Generated testcase (join_string " " (exec_args gen)));
          add_group group
      end;
  mret input_file.

(** ** Input validators ([input_validator.rs]) *)
Definition validate (v : InputValidator) (task_path : PathBuf) (description : string)
    (subtask : SubtaskId) (subtask_name : option text) (testcase : TestcaseId)
    (input_file : FileUuid) : Eval (option FileUuid * option Execution) :=
  match v with
  | IV_AssumeValid => mret (None, None)
  | IV_Custom source args =>
      exec ← with_context "Failed to execute validator source file"
               (ui_execute source description args);
      let exec := set_env "TM_TESTCASE" (pretty testcase) (set_env "TM_SUBTASK" (pretty subtask)
        (input input_file (path_of_string TM_VALIDATION_FILE_NAME) false exec)) in
      let exec := match subtask_name with
                  | Some name => set_env "TM_SUBTASK_NAME" (string_of_text name) exec
                  | None => exec
                  end in
      let exec := limits_mut limits_allow_multiprocess exec in
      exec ← add_constraints task_path ["limiti.yaml"; "constraints.yaml"; "gen.toml"] exec;
      '(stdout, exec) ← exec_capture_stdout None exec;
      mret (Some (file_uuid stdout), Some exec)
  end.
Definition validate_and_bind (v : InputValidator) (task_path : PathBuf) (subtask : SubtaskId)
    (subtask_name : option text) (testcase : TestcaseId) (input_file : FileUuid) :
    Eval (option FileUuid) :=
  '(handle, val) ← validate v task_path (for_testcase "Validation of input file" testcase subtask)
    subtask subtask_name testcase input_file;
  _ ← match val with
      | None => mret tt
      | Some val =>
          group ← generation_group val testcase;
          _ ← bind_exec_callbacks (group_uuid group) (SK_Validation subtask testcase);
          _ ← done_with (group_uuid group) (CB_Validated subtask testcase);
          add_group group
      end;
  mret handle.

(** ** Output generators ([output_generator.rs]) *)
Definition output_generate (g : OutputGenerator) (t : BuildTask) (description : string)
    (subtask : SubtaskId) (testcase : TestcaseId) (input_file : FileUuid)
    (validation_handle : option FileUuid) : Eval (option FileUuid * option Execution) :=
  match g with
  | OG_NotAvailable =>
      file ← new_file "Empty file";
      _ ← on_dag (λ d, Ret (provide_content file [] d));
      mret (Some (file_uuid file), None)
  | OG_StaticFile path =>
      if negb (path_exists path) then bail ("Static output file not found: " +:+ debug_path path)
      else
        file ← new_file ("Static output file of testcase " +:+ pretty subtask +:+ ", subtask "
                           +:+ pretty testcase +:+ " from " +:+ debug_path path);
        _ ← with_context ("Failed to provide static output file from " +:+ path_to_string path)
              (on_dag (provide_file file path (from_file path)));
        mret (Some (file_uuid file), None)
  | OG_Custom source args =>
      exec ← with_context "Failed to execute output generator source file"
               (ui_execute source description args);
      '(output_file, exec) ← bind_exec_io exec t input_file validation_handle;
      mret (Some (file_uuid output_file), Some exec)
  end.
Definition generate_output (g : OutputGenerator) (t : BuildTask) (subtask : SubtaskId)
    (testcase : TestcaseId) (input_file : FileUuid) (validation_handle : option FileUuid) :
    Eval (option FileUuid) :=
  '(output_file, sol) ← output_generate g t
    (for_testcase "Generation of output file" testcase subtask) subtask testcase input_file
    validation_handle;
  _ ← match sol with
      | None => mret tt
      | Some sol =>
          group ← generation_group sol testcase;
          _ ← bind_exec_callbacks (group_uuid group) (SK_Solution subtask testcase);
          _ ← done_with (group_uuid group) (CB_OutputGenerated testcase);
          add_group group
      end;
  _ ← match output_file with
      | None => mret tt
      | Some f => on_dag (write_file_to f
          (path_join (bt_path t) (numbered_file "output" "output" testcase)) false)
      end;
  mret output_file.

(** ** Checkers ([checker.rs]) *)
Definition evaluation_priority (testcase : TestcaseId) : Priority :=
  (EVALUATION_PRIORITY - Z.of_N testcase)%Z.
Definition DIFF_ARGS : list string :=
  ["--brief"; "--speed-large-files"; "--ignore-blank-lines"; "--ignore-space-change"; "correct"; "test"].

Definition check (c : Checker) (testcase : option TestcaseId) (description : string)
    (input_file correct_output test_output : FileUuid) (callback : ScoreCallback) : Eval ExecutionGroup :=
  let priority := evaluation_priority (default 0%N testcase) in
  match c with
  | Checker_WhiteDiff =>
      let exec := Execution_new description (system "diff") in
      let exec := input test_output (path_of_string "test") false
        (input correct_output (path_of_string "correct") false (set_args DIFF_ARGS exec)) in
      group ← exec_into_group exec;
      let group := set_tag_priority Tag_Checking priority group in
      _ ← done_with (group_uuid group) (CB_WhiteDiffDone callback);
      mret group
  | Checker_Custom source =>
      exec ← with_context "Failed to execute checker source file"
               (ui_execute source description ["input"; "correct_output"; "test_output"]);
      let exec := input test_output (path_of_string "test_output") false
        (input correct_output (path_of_string "correct_output") false
          (input input_file (path_of_string "input") false exec)) in
      '(_, exec) ← exec_capture_stdout (Some 128%N) exec;
      '(_, exec) ← exec_capture_stderr (Some STDERR_CONTENT_LENGTH) exec;
      let exec := limits_mut limits_allow_multiprocess exec in
      group ← exec_into_group exec;
      let group := set_tag_priority Tag_Checking priority group in
      _ ← done_with (group_uuid group) (CB_CheckerDone testcase description callback);
      mret group
  end.
Definition check_and_bind (c : Checker) (subtask : SubtaskId) (testcase : TestcaseId)
    (solution : PathBuf) (input_file correct_output test_output : FileUuid) (target : ScoreTarget) :
    Eval unit :=
  name ← lift (unwrap "called `Option::unwrap()` on a `None` value" (path_file_name solution));
  group ← check c (Some testcase)
    (for_testcase ("Checking output of " +:+ quote +:+ name +:+ quote) testcase subtask)
    input_file correct_output test_output (SC_Score target);
  _ ← bind_exec_callbacks (group_uuid group) (SK_Checker subtask testcase solution);
  add_group group.

(** ** Types of task *)
Definition evaluation_of (what name : string) (testcase : TestcaseId) (subtask : SubtaskId) : string :=
  what +:+ name +:+ " on testcase " +:+ pretty testcase +:+ ", subtask " +:+ pretty subtask.

(** [time_limit * 1.5 + 1.0]. *)
Definition with_margin (x : f64) : f64 := f64_add (f64_mul x (f64_dec 15 1)) f64_one.
Definition set_memory_limit (memory_limit : option N) (e : Execution) : Outcome Execution :=
  match memory_limit with
  | Some m => kib ← u64_mul m 1024; Ret (limits_mut (set_memory kib) e)
  | None => Ret e
  end.
(** The limits of a solution. *)
Definition solution_limits (t : BuildTask) (e : Execution) : Outcome Execution :=
  let e := match bt_time_limit t with
           | Some l => limits_mut (λ lim, set_wall_time (with_margin l) (set_cpu_time l lim)) e
           | None => e
           end in
  set_memory_limit (bt_memory_limit t) e.

(** [batch.rs]. *)
Definition batch_evaluate (t : BuildTask) (checker : Checker) (subtask : SubtaskId)
    (testcase : TestcaseId) (sf : UiSourceFile) (input_file : FileUuid)
    (validation_handle correct_output : option FileUuid) (target : ScoreTarget) : Eval unit :=
  correct_output ← lift (match correct_output with
                         | Some f => Ret f | None => Fail ["Missing official solution"] end);
  name ← lift (sf_name (source_base sf));
  exec ← with_context "Failed to execute solution source file"
           (ui_execute sf (evaluation_of "Evaluation of " name testcase subtask) []);
  '(output_file, exec) ← bind_exec_io exec t input_file validation_handle;
  let path := sf_path (source_base sf) in
  exec ← lift (solution_limits t exec);
  group ← exec_into_group exec;
  let group := set_tag_priority Tag_Evaluation (evaluation_priority testcase) group in
  _ ← bind_exec_callbacks (group_uuid group) (SK_Evaluation subtask testcase path None);
  _ ← done_with (group_uuid group) (CB_BatchDone target);
  _ ← add_group group;
  check_and_bind checker subtask testcase path input_file correct_output (file_uuid output_file) target.

(** [communication.rs]: the pipes, from the manager to the solution and back. *)
Fixpoint new_fifos (n : nat) (g : ExecutionGroup) : Eval (list (PathBuf * PathBuf) * ExecutionGroup) :=
  match n with
  | O => mret ([], g)
  | S n =>
      '(fifo1, g) ← group_new_fifo g;
      '(fifo2, g) ← group_new_fifo g;
      '(fifos, g) ← new_fifos n g;
      mret ((sandbox_path fifo1, sandbox_path fifo2) :: fifos, g)
  end.
(** The body of the loop over the processes; [fifos] are the pipes of the process. *)
Definition communication_process (t : BuildTask) (data : CommunicationTypeData) (subtask : SubtaskId)
    (testcase : TestcaseId) (sf : UiSourceFile) (index num : nat) (fifos : PathBuf * PathBuf)
    (g : ExecutionGroup) : Eval ExecutionGroup :=
  let '(man2sol, sol2man) := fifos in
  let args := match user_io data with
              | FifoIo => [path_to_string man2sol; path_to_string sol2man]
              | StdIo => []
              end in
  let args := if 1 <? num then args ++ [pretty index] else args in
  name ← lift (sf_name (source_base sf));
  exec ← with_context "Failed to execute solution source file"
    (ui_execute sf (evaluation_of "Evaluation of " (name +:+ " (process " +:+ pretty (S index)
       +:+ "/" +:+ pretty num +:+ ")") testcase subtask) args);
  let g := set_tag_priority Tag_Evaluation (evaluation_priority testcase) g in
  let exec := match user_io data with
              | StdIo => stdout_redirect_path sol2man (set_stdin (Input_Path man2sol) exec)
              | FifoIo => exec
              end in
  exec ← lift (solution_limits t exec);
  mret (group_add_execution exec g).
Fixpoint communication_processes (t : BuildTask) (data : CommunicationTypeData) (subtask : SubtaskId)
    (testcase : TestcaseId) (sf : UiSourceFile) (index num : nat) (fifos : list (PathBuf * PathBuf))
    (g : ExecutionGroup) : Eval ExecutionGroup :=
  match fifos with
  | [] => mret g
  | f :: fifos =>
      g ← communication_process t data subtask testcase sf index num f g;
      communication_processes t data subtask testcase sf (S index) num fifos g
  end.
(** The limits of the manager: the time of all the processes. *)
Definition manager_limits (t : BuildTask) (num : nat) (e : Execution) : Outcome Execution :=
  let e := match bt_time_limit t with
           | Some l =>
               let cpu := f64_mul (f64_add l f64_one) (f64_of_Z (Z.of_nat num)) in
               limits_mut (λ lim, set_wall_time (with_margin cpu) (set_cpu_time cpu lim)) e
           | None => e
           end in
  set_memory_limit (bt_memory_limit t) e.
Definition communication_evaluate (t : BuildTask) (data : CommunicationTypeData) (subtask : SubtaskId)
    (testcase : TestcaseId) (sf : UiSourceFile) (input_file : FileUuid)
    (validation_handle : option FileUuid) (target : ScoreTarget) : Eval unit :=
  name ← lift (sf_name (source_base sf));
  group ← new_group (evaluation_of "Evaluation of " name testcase subtask);
  let num := N.to_nat (num_processes data) in
  '(fifos, group) ← new_fifos num group;
  let path := sf_path (source_base sf) in
  group ← communication_processes t data subtask testcase sf 0 num fifos group;
  let args := fifos ≫= λ f, [path_to_string f.2; path_to_string f.1] in
  exec ← with_context "Failed to execute manager source file"
           (ui_execute (manager data) (evaluation_of "Manager of " name testcase subtask) args);
  '(_, exec) ← exec_capture_stdout (Some 128%N) exec;
  '(_, exec) ← exec_capture_stderr (Some 1024%N) exec;
  '(_, exec) ← bind_exec_io exec t input_file validation_handle;
  exec ← lift (manager_limits t num exec);
  _ ← bind_exec_callbacks (group_uuid group) (SK_Evaluation subtask testcase path (Some num));
  _ ← done_with (group_uuid group) (CB_CommunicationDone num target);
  add_group (group_add_execution exec group).

(** [interactive.rs]. *)
Definition controller_limits (data : InteractiveTypeData) (e : Execution) : Outcome Execution :=
  let e := match controller_time_limit data with
           | Some l => limits_mut (set_cpu_time l) e | None => e end in
  let e := match controller_wall_time_limit data with
           | Some l => limits_mut (set_wall_time l) e | None => e end in
  set_memory_limit (controller_memory_limit data) e.
Definition prefix_limits (t : BuildTask) (data : InteractiveTypeData) (e : Execution) :
    Outcome Execution :=
  let e := match bt_time_limit t with
           | Some l =>
               limits_mut (λ lim, set_wall_time (default (with_margin l) (controller_wall_time_limit data))
                                    (set_cpu_time l lim)) e
           | None => e
           end in
  set_memory_limit (bt_memory_limit t) e.
Definition interactive_evaluate (t : BuildTask) (data : InteractiveTypeData) (subtask : SubtaskId)
    (testcase : TestcaseId) (sf : UiSourceFile) (input_file : FileUuid)
    (validation_handle : option FileUuid) (target : ScoreTarget) : Eval unit :=
  name ← lift (sf_name (source_base sf));
  group ← new_group (evaluation_of "Evaluation of " name testcase subtask);
  let group := set_controller
    {| process_limit := default 200%N (controller_process_limit data);
       concurrent := default true (controller_concurrent data) |}
    (set_tag_priority Tag_Evaluation (evaluation_priority testcase) group) in
  exec ← with_context "Failed to execute controller source file"
           (ui_execute (controller data) (evaluation_of "Controller of " name testcase subtask) []);
  let infile_name := default (path_of_string "input.txt") (infile t) in
  let exec := input input_file infile_name false exec in
  let exec := match validation_handle with
              | Some f => input f (path_of_string "wait_for_validation") false exec
              | None => exec
              end in
  let exec := set_stdout Output_Ignored (set_stdin Input_Ignored exec) in
  '(_, exec) ← exec_capture_stderr (Some (1024 * 1024)%N) exec;
  exec ← lift (controller_limits data exec);
  let group := group_add_execution exec group in
  sol ← with_context "Failed to execute solution source file"
          (ui_execute sf (evaluation_of "Solution prefix of " name testcase subtask) []);
  let sol := set_stderr Output_Ignored (set_stdout Output_Inherit (set_stdin Input_Inherit sol)) in
  sol ← lift (prefix_limits t data sol);
  let group := group_add_execution sol group in
  let path := sf_path (source_base sf) in
  _ ← bind_exec_callbacks (group_uuid group) (SK_Evaluation subtask testcase path (Some 0));
  _ ← done_with (group_uuid group) (CB_InteractiveDone target);
  add_group group.

(** [task_type/mod.rs]. *)
Definition evaluate (t : BuildTask) (subtask : SubtaskId) (testcase : TestcaseId) (sf : UiSourceFile)
    (input_file : FileUuid) (validation_handle correct_output : option FileUuid)
    (target : ScoreTarget) : Eval unit :=
  match task_type t with
  | TT_Batch checker =>
      batch_evaluate t checker subtask testcase sf input_file validation_handle correct_output target
  | TT_Communication data =>
      communication_evaluate t data subtask testcase sf input_file validation_handle target
  | TT_Interactive data =>
      interactive_evaluate t data subtask testcase sf input_file validation_handle target
  | TT_None => mret tt
  end.
Definition prepare_dag (tt : TaskType) : Eval unit :=
  match tt with
  | TT_Batch (Checker_Custom checker) => _ ← ui_prepare checker; mret ()
  | TT_Communication data => _ ← ui_prepare (manager data); mret ()
  | TT_Interactive data => _ ← ui_prepare (controller data); mret ()
  | TT_Batch Checker_WhiteDiff | TT_None => mret ()
  end.
End builders.

(** ** Solutions ([lib.rs], [solution.rs]) *)
Record Solution : Type := mkSolution {
  solution_source : UiSourceFile;
  solution_checks : list SolutionCheck
}.

(** What [find_solutions] reads of the configuration. *)
Record EvaluationConfig : Type := mkEvalConfig {
  solution_filter : list string;
  solution_paths : list PathBuf
}.

(** The [glob] crate: the paths that match a pattern, the ones with an error left
    out; nothing for an invalid pattern. *)
Class Glob : Type := { glob : string → option (list PathBuf) }.

Fixpoint list_files `{Glob} (cwd : PathBuf) (patterns : list string) : Outcome (list PathBuf) :=
  match patterns with
  | [] => Ret []
  | p :: patterns =>
      l ← unwrap "Invalid pattern for list_files"
            (glob (path_to_string (path_join cwd (path_of_string p))));
      rest ← list_files cwd patterns;
      Ret (l ++ rest)
  end.

Section task.
Context `{UuidV4} `{LocalFiles} `{Blake3} `{LanguageManager} `{BuildProfile} `{UuidDisplay}.
Context `{IterOrder} `{Glob}.
Abbreviation Eval := (M (EvaluationData TaskCallback)).

Definition UiSourceFile_new (path base : PathBuf) (description : string)
    (grader_map : option GraderMap) (write_bin_to : option PathBuf) : Eval (option UiSourceFile) :=
  base ← SourceFile_new path base grader_map write_bin_to;
  mret (match base with Some b => Some (mkUiSourceFile b description) | None => None end).

(** [eval.add_diagnostic], the result of which is not used. *)
Fixpoint send_diagnostics (ds : list Diagnostic) : Eval unit :=
  match ds with
  | [] => mret tt
  | d :: ds => _ ← or_warn (send (UI_Diagnostic d)); send_diagnostics ds
  end.
(** [SolutionCheck::extract_check_list(path, eval).ok()]. *)
Definition read_checks (path : PathBuf) : Eval (option (list SolutionCheck)) :=
  s ← get_st;
  let content := match read_to_string path with Some c => Ret c | None => Fail [] end in
  let '(r, ds) := extract_check_list (task_root s) path content [] in
  _ ← send_diagnostics ds;
  ok (lift r).

Definition Solution_new (path base_dir : PathBuf) (grader_map : option GraderMap) :
    Eval (option Solution) :=
  name ← lift (unwrap "called `Option::unwrap()` on a `None` value" (path_file_name path));
  let write_to := path_join (path_join base_dir (path_of_string "bin/sol")) [Normal name] in
  source ← UiSourceFile_new path base_dir ("Solution at " +:+ path_to_string path) grader_map
             (Some write_to);
  match source with
  | None => mret None
  | Some source =>
      checks ← read_checks path;
      mret (mkSolution source <$> checks)
  end.

(** The names that the filters ask for. *)
Definition solution_filters (config : EvaluationConfig) : Outcome (list string) :=
  try_map (λ f, unwrap "Invalid filter provided" (path_file_name (path_of_string f)))
    (solution_filter config).
(** The filters of the chain, in their order; only the last one looks at the name. *)
Definition is_candidate (config : EvaluationConfig) (filters : list string) (graders : list PathBuf)
    (p : PathBuf) : Outcome bool :=
  if bool_decide (p ∈ graders) then Ret false
  else if negb (path_exists p) then Ret false
  else if bool_decide (solution_filter config = []) then Ret true
  else
    name ← unwrap "called `Option::unwrap()` on a `None` value" (path_file_name p);
    Ret (existsb (λ f, String.prefix f name) filters).
Fixpoint collect_solutions (config : EvaluationConfig) (filters : list string) (graders : list PathBuf)
    (base_dir : PathBuf) (grader_map : option GraderMap) (paths : list PathBuf) : Eval (list Solution) :=
  match paths with
  | [] => mret []
  | p :: paths =>
      candidate ← lift (is_candidate config filters graders p);
      solution ← (if candidate : bool then Solution_new p base_dir grader_map else mret None);
      rest ← collect_solutions config filters graders base_dir grader_map paths;
      mret (option_list solution ++ rest)
  end.
Definition find_solutions (config : EvaluationConfig) (base_dir : PathBuf) (patterns : list string)
    (grader_map : option GraderMap) : Eval (list Solution) :=
  paths ← lift (match solution_paths config with
                | [] => list_files base_dir patterns
                | paths => Ret paths
                end);
  filters ← lift (solution_filters config);
  let graders := match grader_map with Some m => all_paths m | None => [] end in
  collect_solutions config filters graders base_dir grader_map paths.

Definition solution_info (s : Solution) : Outcome SolutionInfo :=
  name ← sf_name (source_base (solution_source s));
  Ret (mkSolutionInfo (sf_path (source_base (solution_source s))) name
         (lang_name (sf_language (source_base (solution_source s)))) (solution_checks s)).

(** ** [IOITask::build_dag] *)

(** [ScoreManager::new], which sends on the channel of the evaluation. *)
Definition new_score_manager (t : BuildTask) (solution : PathBuf) : Eval ScoreManager := λ s,
  let '(r, sm) := ScoreManager_new (ui_task t)
                    (ScoreManager_init (ui_task t) solution (eval_sender s)) in
  (_ ← r; Ret sm, with_eval_sender (sm_channel sm) s).
Fixpoint new_score_managers (t : BuildTask) (solutions : list Solution) : Eval (list ScoreManager) :=
  match solutions with
  | [] => mret []
  | x :: solutions =>
      sm ← new_score_manager t (sf_path (source_base (solution_source x)));
      sms ← new_score_managers t solutions;
      mret (sm :: sms)
  end.

(** The loop over the solutions, for one testcase. *)
Fixpoint evaluate_solutions (t : BuildTask) (subtask : SubtaskId) (testcase : TestcaseId)
    (input_file : FileUuid) (val_handle output_file : option FileUuid) (index : nat)
    (solutions : list Solution) : Eval unit :=
  match solutions with
  | [] => mret tt
  | x :: solutions =>
      _ ← with_context "Failed to bind evaluation"
            (evaluate t subtask testcase (solution_source x) input_file val_handle output_file
               (mkTarget index subtask testcase));
      evaluate_solutions t subtask testcase input_file val_handle output_file (S index) solutions
  end.

(** The generated input and output files of the testcases. *)
Abbreviation GeneratedIo := (gmap TestcaseId (FileUuid * option FileUuid)).

(** The body of the loop over the testcases of a subtask. *)
Definition build_testcase (t : BuildTask) (solutions : list Solution) (st : BuildSubtask)
    (testcase : TestcaseId) (io : GeneratedIo) : Eval GeneratedIo :=
  let st_id := subtask_id (subtask_info st) in
  tc ← lift (unwrap "Testcase not found in the task" (bt_testcases t !! testcase));
  let tc_id := testcase_id (testcase_info tc) in
  input_file ← with_context "Failed to bind input generator"
                 (generate_input (input_generator tc) (bt_path t) st_id tc_id);
  val_handle ← with_context "Failed to bind validator"
                 (validate_and_bind (input_validator st) (bt_path t) st_id
                    (subtask_name (subtask_info st)) tc_id input_file);
  output_file ← with_context "Failed to bind output generator"
                  (generate_output (output_generator tc) t st_id tc_id input_file val_handle);
  _ ← evaluate_solutions t st_id tc_id input_file val_handle output_file 0 solutions;
  mret (<[tc_id := (input_file, output_file)]> io).
Fixpoint build_testcases (t : BuildTask) (solutions : list Solution) (st : BuildSubtask)
    (l : list TestcaseId) (io : GeneratedIo) : Eval GeneratedIo :=
  match l with
  | [] => mret io
  | tc :: l => io ← build_testcase t solutions st tc io; build_testcases t solutions st l io
  end.
Fixpoint build_subtasks (t : BuildTask) (solutions : list Solution) (l : list BuildSubtask)
    (io : GeneratedIo) : Eval GeneratedIo :=
  match l with
  | [] => mret io
  | st :: l =>
      io ← build_testcases t solutions st (testcases_owned (subtask_info st)) io;
      build_subtasks t solutions l io
  end.

(** The files are stored in the testcases of the task. *)
Definition set_files (io : FileUuid * option FileUuid) (tc : BuildTestcase) : BuildTestcase :=
  mkBuildTestcase (mkTestcase (testcase_id (testcase_info tc)) (Some io.1) io.2)
    (input_generator tc) (output_generator tc).
Definition with_testcases x (t : BuildTask) : BuildTask :=
  mkBuildTask (bt_path t) (task_type t) (bt_name t) (bt_title t) (bt_time_limit t) (bt_memory_limit t)
    (infile t) (outfile t) (bt_subtasks t) x (bt_aggregator t) (bt_score_precision t) (bt_grader_map t).
Fixpoint store_io (tcs : gmap TestcaseId BuildTestcase)
    (l : list (TestcaseId * (FileUuid * option FileUuid))) : Outcome (gmap TestcaseId BuildTestcase) :=
  match l with
  | [] => Ret tcs
  | (tc, io) :: l =>
      x ← unwrap "called `Option::unwrap()` on a `None` value" (tcs !! tc);
      store_io (<[tc := set_files io x]> tcs) l
  end.

(** The testcases that a subtask takes from the others are validated for it too. *)
Definition validate_shared (t : BuildTask) (st : BuildSubtask) (testcase : TestcaseId) : Eval unit :=
  if bool_decide (testcase ∈ testcases_owned (subtask_info st)) then mret tt
  else
    tc ← lift (unwrap "Testcase not found in the task" (bt_testcases t !! testcase));
    input_file ← lift (unwrap "called `Option::unwrap()` on a `None` value"
                         (input_file (testcase_info tc)));
    _ ← with_context "Failed to bind validator"
          (validate_and_bind (input_validator st) (bt_path t) (subtask_id (subtask_info st))
             (subtask_name (subtask_info st)) (testcase_id (testcase_info tc)) input_file);
    mret tt.

(** What follows the search of the solutions; the results are the task with the
    files of its testcases, and the score managers. *)
Definition build_executions (t : BuildTask) (solutions : list Solution) :
    Eval (BuildTask * list ScoreManager) :=
  managers ← new_score_managers t solutions;
  infos ← lift (try_map solution_info solutions);
  _ ← send (Solutions infos);
  _ ← with_context "Failed to prepare DAG" (prepare_dag (task_type t));
  io ← build_subtasks t solutions (values_iter (bt_subtasks t)) ∅;
  tcs ← lift (store_io (bt_testcases t) (map_iter io));
  let t := with_testcases tcs t in
  _ ← for_each (values_iter (bt_subtasks t)) (λ st,
        for_each (subtask_testcases (subtask_info st)) (validate_shared t st));
  mret (t, managers).

Definition build_dag (t : BuildTask) (config : EvaluationConfig) :
    Eval (BuildTask * list Solution * list ScoreManager) :=
  _ ← send (UI_IOITask (ui_task t));
  solutions ← find_solutions config (bt_path t) ["sol/*"] (Some (bt_grader_map t));
  '(t, managers) ← build_executions t solutions;
  mret (t, solutions, managers).
End task.
