(* ===== verification/IoiDagCorrect.v ===== *)
(** * The DAG of an IOI task is valid

    The builders of [IoiDag] keep the invariant of [Build]; so the DAG of a task is
    one that the server accepts, and every solution is evaluated on every testcase. *)
From S2P Require Import Prelude Float64 Paths StoreKey Dag CheckDag Text Diagnostics Checks UiMessage.
From S2P Require Import Machine Build Languages SourceFile SourceFileCorrect Scoring Judge IoiDag.

#[export] Hint Resolve from_file_no_panic : core.

Section correct.
Context `{UuidV4} `{LocalFiles} `{Blake3} `{LanguageManager} `{BuildProfile} `{UuidDisplay}.
Implicit Types (s : EvaluationData TaskCallback) (G : gset Uuid) (Q R : list Uuid).
Abbreviation Eval := (M (EvaluationData TaskCallback)).

(** ** The shared pieces *)

(** The group waits or is in the DAG. *)
Definition known_group Q s (u : Uuid) : Prop := u ∈ Q ∨ is_Some (group_of s u).
Lemma known_group_extends Q s s' u : extends s s' → known_group Q s u → known_group Q s' u.
Proof.
  intros He [|[g Hg]]; [by left|right]. exists g. by eapply extends_group.
Qed.

Lemma wp_done_with G Q R u c s (P : unit → EvaluationData TaskCallback → Prop) E :
  builds G Q R s → known_group Q s u →
  (∀ s', builds G Q R s' → extends s s' → does s' u c → P tt s') →
  wp (done_with u c) P E s.
Proof. intros Hb Hu HP. by eapply wp_on_done. Qed.

(** The status callbacks of a group; the one of its end among them. *)
Lemma wp_bind_status G Q R u k s (P : unit → EvaluationData TaskCallback → Prop) :
  builds G Q R s → known_group Q s u →
  (∀ s', builds G Q R s' → extends s s' → does s' u (CB_Status k) → P tt s') →
  wp (bind_exec_callbacks u k) P may_fail s.
Proof.
  intros Hb Hu HP. unfold bind_exec_callbacks. wp_steps.
  eapply wp_send; [done|]. intros s1 Hb1 He1 _. wp_steps.
  eapply wp_on_start; [done|by eapply known_group_extends|]. intros s2 Hb2 He2. wp_steps.
  assert (extends s s2) as He02 by (by etrans).
  eapply wp_done_with; [done|by eapply known_group_extends|]. intros s3 Hb3 He3 Hd. wp_steps.
  assert (extends s s3) as He03 by (by etrans).
  eapply wp_on_skip; [done|by eapply (known_group_extends Q s)|]. intros s4 Hb4 He4.
  apply HP; [done|by etrans|by apply (ext_does _ _ He4)].
Qed.
Lemma wp_bind_callbacks G Q R u k s (P : unit → EvaluationData TaskCallback → Prop) :
  builds G Q R s → known_group Q s u →
  (∀ s', builds G Q R s' → extends s s' → P tt s') →
  wp (bind_exec_callbacks u k) P may_fail s.
Proof. intros Hb Hu HP. by eapply wp_bind_status; [..|intros; apply HP]. Qed.

Definition ui_ok G (sf : UiSourceFile) : Prop := sf_ok G (source_base sf).

Lemma wp_bind_compilation G Q R sf comp s (P : unit → EvaluationData TaskCallback → Prop) :
  builds G Q R s → (∀ u, comp = Some u → is_Some (group_of s u)) →
  (∀ s', builds G Q R s' → extends s s' → P tt s') →
  wp (bind_compilation_exe sf comp) P may_fail s.
Proof.
  intros Hb Hc HP. unfold bind_compilation_exe. destruct comp as [u|]; [|wp_steps; by apply HP].
  wp_steps. eapply wp_bind_callbacks; [done|right; by apply Hc|]. intros s1 Hb1 He1.
  eapply wp_done_with; [done|right; destruct (Hc u eq_refl) as [g Hg]; exists g; by eapply extends_group|].
  intros s2 Hb2 He2 _. apply HP; [done|by etrans].
Qed.

Lemma wp_ui_execute G Q R sf descr args s (P : Execution → EvaluationData TaskCallback → Prop) :
  ui_ok G sf → builds G Q R s →
  (∀ e s', builds G Q R s' → extends s s' → supplied s' e → plain e → P e s') →
  wp (ui_execute sf descr args) P may_fail s.
Proof.
  intros Hsf Hb HP. unfold ui_execute. wp_steps. eapply wp_execute; [done..|].
  intros o e s1 Hb1 He1 Hs1 Hp1 Hu. cbn beta iota. wp_steps.
  eapply wp_bind_compilation; [done..|]. intros s2 Hb2 He2. wp_steps.
  apply HP; [done|by etrans|by eapply supplied_extends|done].
Qed.

Lemma wp_ui_prepare G Q R sf s (P : option ExecutionGroupUuid → EvaluationData TaskCallback → Prop) :
  ui_ok G sf → builds G Q R s →
  (∀ o s', builds G Q R s' → extends s s' → P o s') →
  wp (ui_prepare sf) P may_fail s.
Proof.
  intros Hsf Hb HP. unfold ui_prepare. wp_steps. eapply wp_prepare; [done..|].
  intros o s1 Hb1 He1 Hprep. wp_steps.
  eapply wp_bind_compilation; [done|by intros u; eapply prepared_group|]. intros s2 Hb2 He2. wp_steps.
  apply HP; [done|by etrans].
Qed.

Lemma wp_add_constraints G Q R path names e s (P : Execution → EvaluationData TaskCallback → Prop) :
  builds G Q R s → supplied s e →
  (∀ e' s', builds G Q R s' → extends s s' → supplied s' e' → same_io e e' → P e' s') →
  wp (add_constraints path names e) P may_fail s.
Proof.
  revert e s P. induction names as [|n names IH]; intros e s P Hb Hs HP; simpl.
  { wp_steps. by apply HP. }
  destruct (path_is_file _); [|by apply IH]. unfold new_file. wp_steps.
  eapply wp_draw; [done|]. intros u s1 _ _ He1 _ Hb1 _. wp_steps.
  eapply (wp_provide_file G Q R); [done|by left|done|]. intros s2 Hb2 He2 Hr2.
  apply IH; [done| |].
  - apply supplied_input; [|done]. eapply supplied_extends; [|done]. by etrans.
  - intros e' s' Hb' He' Hs' Hio. apply HP; [done|by do 2 (etrans; [done|])|done|].
    etrans; [apply same_io_input|done].
Qed.

Lemma wp_bind_exec_io G Q R e t f v s (P : File * Execution → EvaluationData TaskCallback → Prop) E :
  builds G Q (exec_outs e ++ R) s → supplied s e → ready s f → (∀ h, v = Some h → ready s h) →
  (∀ out e' s', builds G Q (exec_outs e' ++ R) s' → extends s s' → supplied s' e' →
     file_uuid out ∈ exec_outs e' → P (out, e') s') →
  wp (bind_exec_io e t f v) P E s.
Proof.
  intros Hb Hs Hf Hv HP. unfold bind_exec_io.
  set (e1 := match infile t with None => set_stdin (Input_File f) e | Some p => input f p false e end).
  assert (supplied s e1 ∧ exec_outs e1 = exec_outs e) as [Hs1 Ho1].
  { subst e1. destruct (infile t).
    - split; [by apply supplied_input|apply exec_outs_input].
    - split; [by apply supplied_stdin|apply exec_outs_stdin]. }
  clearbody e1.
  set (e2 := match v with None => e1 | Some h => _ end).
  assert (supplied s e2 ∧ exec_outs e2 = exec_outs e) as [Hs2 Ho2].
  { subst e2. destruct v as [h|]; [|done].
    split; [apply supplied_input; auto|]. by rewrite exec_outs_input. }
  clearbody e2. rewrite <-Ho2 in Hb. destruct (outfile t).
  - eapply wp_output; [done..|]. intros out e' s' Hb' He' Hs' Hout _ _ _ _. by apply HP.
  - eapply wp_capture_stdout; [done..|]. intros out s' e' Hb' He' Hs' Hout _. by apply HP.
Qed.

(** A group with a single execution. *)
Definition single (g : ExecutionGroup) (e : Execution) : Prop := executions g = [e] ∧ fifo g = [].
Lemma single_outs g e : single g e → group_outs g = exec_outs e.
Proof. intros [He _]. unfold group_outs, outputs. rewrite He. simpl. by rewrite app_nil_r. Qed.

Lemma wp_add_single G Q R g e s (P : unit → EvaluationData TaskCallback → Prop) E :
  builds G (group_uuid g :: Q) (exec_outs e ++ R) s → single g e → supplied s e →
  (∀ s', builds G Q R s' → extends s s' →
     group_of s' (group_uuid g) = Some (group_set_config (config (data (eval_dag s))) g) →
     (∀ f, f ∈ exec_outs e → ready s' f) → P tt s') →
  wp (add_group g) P E s.
Proof.
  intros Hb Hg Hs HP. unfold add_group. pose proof (single_outs _ _ Hg) as Ho. destruct Hg as [He Hf].
  eapply (wp_add_group G Q); [exact Hb|done|by rewrite Ho|by rewrite He|rewrite Hf; constructor| |].
  - intros f (e0 & He0 & Hn). rewrite He in He0. apply list_elem_of_singleton in He0 as ->. by apply Hs.
  - by rewrite Ho.
Qed.

Lemma wp_generation_group G Q R e tc s (P : ExecutionGroup → EvaluationData TaskCallback → Prop) E :
  builds G Q (exec_outs e ++ R) s → supplied s e →
  (∀ g e' s', builds G (group_uuid g :: Q) (exec_outs e' ++ R) s' → extends s s' → single g e' →
     supplied s' e' → exec_outs e ⊆ exec_outs e' → P g s') →
  wp (generation_group e tc) P E s.
Proof.
  intros Hb Hs HP. unfold generation_group. wp_steps.
  eapply wp_capture_stderr; [done..|]. intros f s1 e1 Hb1 He1 Hs1 _ Hsub. cbn beta iota. wp_steps.
  unfold exec_into_group. wp_steps. eapply wp_draw; [done|]. intros u s2 _ _ He2 _ _ Hb2. wp_steps.
  eapply (HP _ e1); [exact Hb2|by etrans|done|by eapply supplied_extends|done].
Qed.

(** The end of the builders of the generation: the execution, if any, is bound and
    added. *)
Lemma wp_bind_generated G Q R e tc k c s (P : unit → EvaluationData TaskCallback → Prop) :
  builds G Q (exec_outs e ++ R) s → supplied s e →
  (∀ s', builds G Q R s' → extends s s' → (∀ f, f ∈ exec_outs e → ready s' f) → P tt s') →
  wp (group ← generation_group e tc;
      _ ← bind_exec_callbacks (group_uuid group) k;
      _ ← done_with (group_uuid group) c;
      add_group group) P may_fail s.
Proof.
  intros Hb Hs HP. wp_steps. eapply wp_generation_group; [done..|].
  intros g e' s1 Hb1 He1 Hg Hs1 Hsub. wp_steps.
  assert (group_uuid g ∈ group_uuid g :: Q) as Hin by apply list_elem_of_here.
  eapply wp_bind_callbacks; [done|by left|]. intros s2 Hb2 He2. wp_steps.
  eapply wp_done_with; [done|by left|]. intros s3 Hb3 He3 _.
  assert (extends s1 s3) as He13 by (by etrans).
  eapply wp_add_single; [done..|by eapply supplied_extends|]. intros s4 Hb4 He4 _ Hr4.
  apply HP; [done|do 2 (etrans; [done|]); done|auto].
Qed.

(** ** Generators and validators *)
Definition input_generator_ok G (g : InputGenerator) : Prop :=
  match g with IG_StaticFile _ => True | IG_Custom sf _ => ui_ok G sf end.
Definition input_validator_ok G (v : InputValidator) : Prop :=
  match v with IV_AssumeValid => True | IV_Custom sf _ => ui_ok G sf end.
Definition output_generator_ok G (g : OutputGenerator) : Prop :=
  match g with OG_Custom sf _ => ui_ok G sf | _ => True end.
Definition checker_ok G (c : Checker) : Prop :=
  match c with Checker_WhiteDiff => True | Checker_Custom sf => ui_ok G sf end.

(** A file that is provided before the builder goes on. *)
Lemma wp_static_file G Q R descr ctx path s (P : FileUuid * option Execution → EvaluationData TaskCallback → Prop) :
  builds G Q R s →
  (∀ f s', builds G Q R s' → extends s s' → ready s' f → P (f, None) s') →
  wp (file ← new_file descr;
      _ ← with_context ctx (on_dag (provide_file file path (from_file path)));
      mret (file_uuid file, None)) P may_fail s.
Proof.
  intros Hb HP. unfold new_file. wp_steps. eapply wp_draw; [done|].
  intros u s1 _ _ He1 _ Hb1 _. wp_steps.
  eapply (wp_provide_file G Q R); [done|by left|done|]. intros s2 Hb2 He2 Hr2. wp_steps.
  apply HP; [done|by etrans|done].
Qed.

Lemma wp_input_generate G Q R g path descr st tc s
    (P : FileUuid * option Execution → EvaluationData TaskCallback → Prop) :
  input_generator_ok G g → builds G Q R s →
  (∀ f s', builds G Q R s' → extends s s' → ready s' f → P (f, None) s') →
  (∀ f e s', builds G Q (exec_outs e ++ R) s' → extends s s' → supplied s' e → f ∈ exec_outs e →
     P (f, Some e) s') →
  wp (input_generate g path descr st tc) P may_fail s.
Proof.
  intros Hg Hb HN HS. unfold input_generate. destruct g as [p|sf args].
  { destruct (negb _); [done|]. by apply (wp_static_file G Q R). }
  wp_steps. eapply wp_ui_execute; [done..|]. intros e1 s1 Hb1 He1 Hs1 Hp1. wp_steps.
  eapply (wp_add_constraints G Q R); [done|by apply neutral_supplied; [apply neutral_limits|]|].
  intros e2 s2 Hb2 He2 Hs2 Hio2. wp_steps.
  assert (exec_outs e2 = []) as Ho2.
  { apply plain_outs. eapply plain_same_io; [|exact Hio2].
    eapply plain_same_io; [exact Hp1|apply same_io_neutral, neutral_limits]. }
  eapply (wp_capture_stdout G Q R); [by rewrite Ho2|done|].
  intros f s3 e3 Hb3 He3 Hs3 Hf _. cbn beta iota. wp_steps.
  apply HS; [done|do 2 (etrans; [done|]); done|done|done].
Qed.

Lemma wp_generate_input G Q R g path st tc s (P : FileUuid → EvaluationData TaskCallback → Prop) :
  input_generator_ok G g → builds G Q R s →
  (∀ f s', builds G Q R s' → extends s s' → ready s' f → P f s') →
  wp (generate_input g path st tc) P may_fail s.
Proof.
  intros Hg Hb HP. unfold generate_input. wp_steps.
  eapply (wp_input_generate G Q R); [done..| |].
  - intros f s1 Hb1 He1 Hr1. cbn beta iota. wp_steps.
    eapply (wp_write_file_to G Q R); [done|by right|]. intros s2 Hb2 He2. wp_steps.
    apply HP; [done|by etrans|by eapply extends_ready].
  - intros f e s1 Hb1 He1 Hs1 Hf. cbn beta iota. wp_steps.
    eapply (wp_write_file_to G Q (exec_outs e ++ R)); [done|left; set_solver|].
    intros s2 Hb2 He2. apply wp_bind.
    eapply (wp_bind_generated G Q R); [done|by eapply supplied_extends|]. intros s3 Hb3 He3 Hr3. wp_steps.
    apply HP; [done|do 2 (etrans; [done|]); done|by apply Hr3].
Qed.

Lemma wp_validate G Q R v path descr st name tc f s
    (P : option FileUuid * option Execution → EvaluationData TaskCallback → Prop) :
  input_validator_ok G v → builds G Q R s → ready s f →
  P (None, None) s →
  (∀ o e s', builds G Q (exec_outs e ++ R) s' → extends s s' → supplied s' e → o ∈ exec_outs e →
     P (Some o, Some e) s') →
  wp (validate v path descr st name tc f) P may_fail s.
Proof.
  intros Hv Hb Hf HN HP. unfold validate. destruct v as [|sf args]; [by wp_steps|].
  wp_steps. eapply wp_ui_execute; [done..|]. intros e1 s1 Hb1 He1 Hs1 Hp1. apply wp_bind.
  set (e2 := limits_mut limits_allow_multiprocess _).
  assert (supplied s1 e2 ∧ plain e2) as [Hs2 Hp2].
  { subst e2. split.
    - apply neutral_supplied; [apply neutral_limits|].
      assert (supplied s1 (set_env "TM_TESTCASE" (pretty tc) (set_env "TM_SUBTASK" (pretty st)
        (input f (path_of_string TM_VALIDATION_FILE_NAME) false e1)))) as Hse.
      { do 2 (apply neutral_supplied; [apply neutral_env|]). apply supplied_input; [done|].
        by eapply extends_ready. }
      destruct name; [by apply neutral_supplied; [apply neutral_env|]|done].
    - eapply plain_same_io; [|apply same_io_neutral, neutral_limits].
      assert (plain (set_env "TM_TESTCASE" (pretty tc) (set_env "TM_SUBTASK" (pretty st)
        (input f (path_of_string TM_VALIDATION_FILE_NAME) false e1)))) as Hpe.
      { do 2 (eapply plain_same_io; [|apply same_io_neutral, neutral_env]).
        eapply plain_same_io; [done|apply same_io_input]. }
      destruct name; [by eapply plain_same_io; [|apply same_io_neutral, neutral_env]|done]. }
  clearbody e2. eapply (wp_add_constraints G Q R); [done..|].
  intros e3 s3 Hb3 He3 Hs3 Hio3. wp_steps.
  assert (exec_outs e3 = []) as Ho3 by (by apply plain_outs; eapply plain_same_io).
  eapply (wp_capture_stdout G Q R); [by rewrite Ho3|done|].
  intros out s4 e4 Hb4 He4 Hs4 Hout _. cbn beta iota. apply wp_ret.
  apply HP; [done|do 2 (etrans; [done|]); done|done|done].
Qed.
Lemma wp_validate_and_bind G Q R v path st name tc f s
    (P : option FileUuid → EvaluationData TaskCallback → Prop) :
  input_validator_ok G v → builds G Q R s → ready s f →
  (∀ o s', builds G Q R s' → extends s s' → (∀ h, o = Some h → ready s' h) → P o s') →
  wp (validate_and_bind v path st name tc f) P may_fail s.
Proof.
  intros Hv Hb Hf HP. unfold validate_and_bind. wp_steps. eapply (wp_validate G Q R); [done..| |].
  - cbn beta iota. wp_steps. by apply HP.
  - intros o e s1 Hb1 He1 Hs1 Ho1. cbn beta iota. apply wp_bind.
    eapply (wp_bind_generated G Q R); [done..|]. intros s2 Hb2 He2 Hr2. wp_steps.
    apply HP; [done|by etrans|]. intros h [= <-]. by apply Hr2.
Qed.

Lemma wp_output_generate G Q R g t descr st tc f v s
    (P : option FileUuid * option Execution → EvaluationData TaskCallback → Prop) :
  output_generator_ok G g → builds G Q R s → ready s f → (∀ h, v = Some h → ready s h) →
  (∀ o s', builds G Q R s' → extends s s' → ready s' o → P (Some o, None) s') →
  (∀ o e s', builds G Q (exec_outs e ++ R) s' → extends s s' → supplied s' e → o ∈ exec_outs e →
     P (Some o, Some e) s') →
  wp (output_generate g t descr st tc f v) P may_fail s.
Proof.
  intros Hg Hb Hf Hv HN HS. unfold output_generate. destruct g as [|p|sf args].
  - unfold new_file. wp_steps. eapply wp_draw; [done|]. intros u s1 _ _ He1 _ Hb1 _. wp_steps.
    eapply (wp_provide_content G Q R); [done|]. intros s2 Hb2 He2 Hr2. wp_steps.
    apply HN; [done|by etrans|done].
  - destruct (negb _); [done|]. unfold new_file. wp_steps. eapply wp_draw; [done|].
    intros u s1 _ _ He1 _ Hb1 _. wp_steps.
    eapply (wp_provide_file G Q R); [done|by left|done|]. intros s2 Hb2 He2 Hr2. wp_steps.
    apply HN; [done|by etrans|done].
  - wp_steps. eapply wp_ui_execute; [done..|]. intros e1 s1 Hb1 He1 Hs1 Hp1. wp_steps.
    eapply (wp_bind_exec_io G Q R); [by rewrite plain_outs|done|by eapply extends_ready| |].
    { intros h Hh. eapply extends_ready; [done|]. by apply Hv. }
    intros out e2 s2 Hb2 He2 Hs2 Hout. cbn beta iota. wp_steps.
    apply HS; [done|by etrans|done|done].
Qed.

Lemma wp_generate_output G Q R g t st tc f v s
    (P : option FileUuid → EvaluationData TaskCallback → Prop) :
  output_generator_ok G g → builds G Q R s → ready s f → (∀ h, v = Some h → ready s h) →
  (∀ o s', builds G Q R s' → extends s s' → ready s' o → P (Some o) s') →
  wp (generate_output g t st tc f v) P may_fail s.
Proof.
  intros Hg Hb Hf Hv HP. unfold generate_output. wp_steps.
  eapply (wp_output_generate G Q R); [done..| |].
  - intros o s1 Hb1 He1 Hr1. cbn beta iota. wp_steps.
    eapply (wp_write_file_to G Q R); [done|by right|]. intros s2 Hb2 He2. wp_steps.
    apply HP; [done|by etrans|by eapply extends_ready].
  - intros o e s1 Hb1 He1 Hs1 Ho. cbn beta iota. apply wp_bind.
    eapply (wp_bind_generated G Q R); [done..|]. intros s2 Hb2 He2 Hr2. wp_steps.
    eapply (wp_write_file_to G Q R); [done|right; by apply Hr2|]. intros s3 Hb3 He3. wp_steps.
    apply HP; [done|do 2 (etrans; [done|]); done|]. eapply extends_ready; [done|]. by apply Hr2.
Qed.
(** ** Checkers *)

(** A group of the DAG with a tag calls back the scoring when it ends. *)
Definition registered s (t : option Tag) (c : TaskCallback) : Prop :=
  ∃ u g, group_of s u = Some g ∧ tag g = tag_of <$> t ∧ does s u c.
Lemma registered_extends s s' t c : extends s s' → registered s t c → registered s' t c.
Proof.
  intros He (u & g & Hg & Ht & Hc). exists u, g. split_and!; [by eapply extends_group|done|].
  by eapply (ext_does _ _ He).
Qed.

(** The callbacks that give the score of a checker. *)
Definition scores (c : TaskCallback) (callback : ScoreCallback) : Prop :=
  c = CB_WhiteDiffDone callback ∨ ∃ tc d, c = CB_CheckerDone tc d callback.

Lemma tag_set_config c g : tag (group_set_config c g) = tag g.
Proof. by destruct g. Qed.
Lemma set_tag_uuid t p g : group_uuid (set_tag_priority t p g) = group_uuid g.
Proof. by destruct g. Qed.

Lemma wp_check G Q R c tc descr i co t target s
    (P : ExecutionGroup → EvaluationData TaskCallback → Prop) :
  checker_ok G c → builds G Q R s → ready s i → ready s co → ready s t →
  (∀ g e cb s', builds G (group_uuid g :: Q) (exec_outs e ++ R) s' → extends s s' → single g e →
     supplied s' e → tag g = Some (tag_of Tag_Checking) → does s' (group_uuid g) cb →
     scores cb target → P g s') →
  wp (check c tc descr i co t target) P may_fail s.
Proof.
  intros Hc Hb Hi Hco Ht HP. unfold check, exec_into_group. destruct c as [|sf]; cbn zeta.
  - set (e := input t _ false _).
    wp_steps. eapply wp_draw; [done|]. intros u s1 _ _ He1 _ _ Hb1. wp_steps.
    eapply wp_done_with; [done|left; apply list_elem_of_here|]. intros s2 Hb2 He2 Hd2. wp_steps.
    eapply (HP _ e); [exact Hb2|by etrans|done| |done|exact Hd2|by left].
    do 2 (apply supplied_input; [|eapply extends_ready; [|done]; by etrans]).
    apply neutral_supplied; [apply neutral_args|apply supplied_new].
  - wp_steps. eapply wp_ui_execute; [done..|]. intros e1 s1 Hb1 He1 Hs1 Hp1. apply wp_bind.
    set (e2 := input t _ false _).
    assert (supplied s1 e2 ∧ exec_outs e2 = []) as [Hs2 Ho2].
    { split; [|unfold e2; rewrite !exec_outs_input; by apply plain_outs].
      do 3 (apply supplied_input; [|by eapply extends_ready]). done. }
    clearbody e2. eapply (wp_capture_stdout G Q R); [by rewrite Ho2|done|].
    intros f3 s3 e3 Hb3 He3 Hs3 _ _. cbn beta iota. apply wp_bind.
    eapply (wp_capture_stderr G Q R); [done..|]. intros f4 s4 e4 Hb4 He4 Hs4 _ _. cbn beta iota zeta.
    wp_steps. eapply wp_draw; [done|]. intros u s5 _ _ He5 _ _ Hb5. wp_steps.
    eapply wp_done_with; [done|left; apply list_elem_of_here|]. intros s6 Hb6 He6 Hd6. wp_steps.
    assert (extends s4 s6) as He46 by (by etrans).
    eapply (HP _ (limits_mut limits_allow_multiprocess e4)); [|do 3 (etrans; [done|]); done|done| |done
      |exact Hd6|right; eauto].
    + rewrite neutral_outs by apply neutral_limits. exact Hb6.
    + apply neutral_supplied; [apply neutral_limits|]. by eapply supplied_extends.
Qed.

Lemma wp_check_and_bind G Q R c st tc path n i co t target s
    (P : unit → EvaluationData TaskCallback → Prop) :
  checker_ok G c → path_file_name path = Some n → builds G Q R s →
  ready s i → ready s co → ready s t →
  (∀ cb s', builds G Q R s' → extends s s' → scores cb (SC_Score target) → registered s' (Some Tag_Checking) cb →
     P tt s') →
  wp (check_and_bind c st tc path i co t target) P may_fail s.
Proof.
  intros Hc Hn Hb Hi Hco Ht HP. unfold check_and_bind. rewrite Hn. wp_steps.
  eapply wp_lift_ret; [done|]. wp_steps. eapply (wp_check G Q R); [done..|].
  intros g e cb s1 Hb1 He1 Hg Hs1 Htag Hd Hcb. wp_steps.
  eapply wp_bind_callbacks; [done|left; apply list_elem_of_here|]. intros s2 Hb2 He2. wp_steps.
  eapply wp_add_single; [done..|by eapply supplied_extends|]. intros s3 Hb3 He3 Hg3 _.
  assert (extends s1 s3) as He13 by (by etrans).
  apply (HP cb); [done|by etrans|done|]. eexists (group_uuid g), _.
  split_and!; [exact Hg3|by rewrite tag_set_config|by apply (ext_does _ _ He13)].
Qed.

(** ** Types of task *)

(** [memory_limit * 1024] does not overflow, or is not checked. *)
Definition memory_ok (m : option N) : Prop :=
  ∀ x, m = Some x → (x * 1024 < u64_modulus)%N ∨ overflow_checks = false.

Definition limited (o : Execution → Outcome Execution) : Prop :=
  ∀ e, ∃ h, neutral h ∧ o e = Ret (h e).
Lemma limited_memory m : memory_ok m → limited (set_memory_limit m).
Proof.
  intros Hm e. destruct m as [x|]; [|exists (λ e, e); by split; [apply neutral_id|]].
  assert (∃ kib, u64_mul x 1024 = Ret kib) as [kib Hk].
  { unfold u64_mul. destruct (N.ltb_spec (x * 1024) u64_modulus) as [|Hge]; [by eexists|].
    destruct (Hm x eq_refl) as [|Ho]; [lia|]. rewrite Ho. by eexists. }
  exists (limits_mut (set_memory kib)). split; [apply neutral_limits|].
  unfold set_memory_limit. by rewrite Hk.
Qed.
Lemma limited_compose h o : neutral h → limited o → limited (λ e, o (h e)).
Proof.
  intros Hh Ho e. destruct (Ho (h e)) as (k & Hk & ->). exists (λ e, k (h e)).
  split; [by apply neutral_compose|done].
Qed.

Lemma wp_limits o e s (P : Execution → EvaluationData TaskCallback → Prop) E :
  limited o → (∀ e', (∀ s', supplied s' e → supplied s' e') → exec_outs e' = exec_outs e →
     same_io e e' → P e' s) →
  wp (lift (o e)) P E s.
Proof.
  intros Ho HP. destruct (Ho e) as (h & Hh & He). eapply wp_lift_ret; [exact He|].
  apply HP; [intros s'; by apply neutral_supplied|by apply neutral_outs|by apply same_io_neutral].
Qed.

Lemma limited_solution t : memory_ok (bt_memory_limit t) → limited (solution_limits t).
Proof.
  intros Hm. unfold solution_limits. apply limited_compose with
    (h := λ e, match bt_time_limit t with Some l => limits_mut _ e | None => e end);
    [|by apply limited_memory]. destruct (bt_time_limit t); [apply neutral_limits|apply neutral_id].
Qed.

(** What the evaluation of a solution on a testcase leaves in the DAG. *)
Definition evaluated (tt : TaskType) (target : ScoreTarget) s : Prop :=
  match tt with
  | TT_Batch _ =>
      registered s (Some Tag_Evaluation) (CB_BatchDone target) ∧
      ∃ cb, scores cb (SC_Score target) ∧ registered s (Some Tag_Checking) cb
  | TT_Communication data =>
      registered s (if bool_decide (num_processes data = 0%N) then None else Some Tag_Evaluation)
        (CB_CommunicationDone (N.to_nat (num_processes data)) target)
  | TT_Interactive _ => registered s (Some Tag_Evaluation) (CB_InteractiveDone target)
  | TT_None => True
  end.
Lemma evaluated_extends tt target s s' : extends s s' → evaluated tt target s → evaluated tt target s'.
Proof.
  intros He. pose proof (λ t c, registered_extends s s' t c He) as Hr.
  destruct tt; simpl; [|by auto..]. intros (? & cb & ? & ?).
  split; [by apply Hr|]. exists cb. split; [done|by apply Hr].
Qed.

Definition task_type_ok G (tt : TaskType) : Prop :=
  match tt with
  | TT_Batch c => checker_ok G c
  | TT_Communication data => ui_ok G (manager data)
  | TT_Interactive data => ui_ok G (controller data) ∧ memory_ok (controller_memory_limit data)
  | TT_None => True
  end.

Lemma wp_batch G Q R t c st tc sf i v co target s (P : unit → EvaluationData TaskCallback → Prop) :
  memory_ok (bt_memory_limit t) → checker_ok G c → ui_ok G sf → builds G Q R s →
  ready s i → (∀ h, v = Some h → ready s h) → (∀ h, co = Some h → ready s h) →
  (∀ s', builds G Q R s' → extends s s' → evaluated (TT_Batch c) target s' → P tt s') →
  wp (batch_evaluate t c st tc sf i v co target) P may_fail s.
Proof.
  intros Hm Hc Hsf Hb Hi Hv Hco HP. unfold batch_evaluate, sf_name, exec_into_group.
  destruct co as [co|]; [|done]. apply wp_bind. eapply wp_lift_ret; [done|].
  destruct (sf_ok_path _ _ Hsf) as [n Hn]. apply wp_bind. rewrite Hn. eapply wp_lift_ret; [done|].
  wp_steps. eapply wp_ui_execute; [done..|]. intros e1 s1 Hb1 He1 Hs1 Hp1. wp_steps.
  eapply (wp_bind_exec_io G Q R); [by rewrite plain_outs|done|by eapply extends_ready| |].
  { intros h Hh. eapply extends_ready; [done|]. by apply Hv. }
  intros out e2 s2 Hb2 He2 Hs2 Hout. cbn beta iota zeta. wp_steps.
  apply wp_limits; [by apply limited_solution|]. intros e3 Hs3 Ho3 _. rewrite <-Ho3 in Hb2, Hout.
  wp_steps. eapply wp_draw; [done|]. intros u s4 _ _ He4 _ _ Hb4. wp_steps.
  set (g := set_tag_priority _ _ _). change u with (group_uuid g) in Hb4.
  eapply wp_bind_callbacks; [done|left; apply list_elem_of_here|]. intros s5 Hb5 He5. wp_steps.
  eapply wp_done_with; [done|left; apply list_elem_of_here|]. intros s6 Hb6 He6 Hd6. wp_steps.
  assert (extends s2 s6) as He26 by (by do 2 (etrans; [done|])).
  eapply (wp_add_single _ _ _ g e3); [done..|eapply supplied_extends; [done|by apply Hs3]|].
  intros s7 Hb7 He7 Hg7 Hr7.
  assert (extends s s7) as He07 by (by do 3 (etrans; [done|])).
  eapply (wp_check_and_bind G Q R); [done..|by eapply extends_ready|eapply extends_ready; [done|by apply Hco]
    |by apply Hr7|]. intros cb s8 Hb8 He8 Hcb Hreg. apply HP; [done|by etrans|]. simpl.
  split; [|by exists cb]. exists (group_uuid g). eexists _. split_and!; [by eapply extends_group| |].
  - by rewrite tag_set_config.
  - apply (ext_does _ _ He8), (ext_does _ _ He7), Hd6.
Qed.

(** *** Groups with several executions *)
Record growing G Q R (g : ExecutionGroup) s : Prop := {
  grow_builds : builds G (group_uuid g :: Q) (group_outs g ++ R) s;
  grow_supplied : ∀ f, dep_of g f → ready s f;
  grow_fifos : NoDup (fifo_uuid <$> fifo g);
  grow_drawn : ∀ f, f ∈ fifo g → drawn s (fifo_uuid f)
}.

Lemma growing_extends G Q R g s s' :
  growing G Q R g s → builds G (group_uuid g :: Q) (group_outs g ++ R) s' → extends s s' →
  growing G Q R g s'.
Proof.
  intros [] Hb He. split; [done| |done|].
  - intros f Hf. eapply extends_ready; eauto.
  - intros f Hf. eapply extends_starts_drawn; eauto.
Qed.

Lemma growing_tag G Q R t p g s : growing G Q R g s → growing G Q R (set_tag_priority t p g) s.
Proof. intros []. destruct g. by split. Qed.
Lemma growing_controller G Q R c g s : growing G Q R g s → growing G Q R (set_controller c g) s.
Proof. intros []. destruct g. by split. Qed.

Lemma group_outs_add e g : group_outs (group_add_execution e g) = group_outs g ++ exec_outs e.
Proof.
  destruct g. unfold group_outs, outputs. simpl. rewrite bind_app. simpl. by rewrite app_nil_r.
Qed.
Lemma group_add_uuid e g : group_uuid (group_add_execution e g) = group_uuid g.
Proof. by destruct g. Qed.
Lemma group_add_tag e g : tag (group_add_execution e g) = tag g.
Proof. by destruct g. Qed.
Lemma group_add_executions e g : executions (group_add_execution e g) = executions g ++ [e].
Proof. by destruct g. Qed.

Lemma growing_add G Q R g e s s' :
  growing G Q R g s → builds G (group_uuid g :: Q) (exec_outs e ++ group_outs g ++ R) s' →
  extends s s' → supplied s' e → growing G Q R (group_add_execution e g) s'.
Proof.
  intros [] Hb He Hs. split.
  - rewrite group_outs_add, group_add_uuid, <-(assoc_L (++)).
    eapply builds_proper; [done| |done|exact Hb]. solve_Permutation.
  - intros f (e' & He' & Hf). rewrite group_add_executions in He'.
    apply elem_of_app in He' as [He'| ->%list_elem_of_singleton]; [|by apply Hs].
    eapply extends_ready; [done|]. apply grow_supplied0. by exists e'.
  - by destruct g.
  - intros f Hf. eapply extends_starts_drawn; [done|]. apply grow_drawn0. by destruct g.
Qed.

Lemma wp_add_growing G Q R g s (P : unit → EvaluationData TaskCallback → Prop) E :
  growing G Q R g s → executions g ≠ [] →
  (∀ s', builds G Q R s' → extends s s' →
     group_of s' (group_uuid g) = Some (group_set_config (config (data (eval_dag s))) g) → P tt s') →
  wp (add_group g) P E s.
Proof.
  intros [] Hne HP. unfold add_group.
  eapply (wp_add_group G Q); [done..|]. intros s' Hb He Hg _. by apply HP.
Qed.

Lemma wp_new_growing G Q R descr s (P : ExecutionGroup → EvaluationData TaskCallback → Prop) E :
  builds G Q R s →
  (∀ g s', growing G Q R g s' → extends s s' → tag g = None → executions g = [] → P g s') →
  wp (new_group descr) P E s.
Proof.
  intros Hb HP. unfold new_group. wp_steps. eapply wp_draw; [done|].
  intros u s1 _ _ He1 _ _ Hb1. wp_steps. apply HP; try done.
  split; [exact Hb1| |constructor|by intros f []%elem_of_nil].
  by intros f (e & []%elem_of_nil & _).
Qed.

Lemma wp_new_fifo G Q R g s (P : Fifo * ExecutionGroup → EvaluationData TaskCallback → Prop) E :
  growing G Q R g s →
  (∀ f g' s', growing G Q R g' s' → extends s s' → tag g' = tag g → executions g' = executions g →
     P (f, g') s') →
  wp (group_new_fifo g) P E s.
Proof.
  intros Hg HP. unfold group_new_fifo. wp_steps.
  pose proof Hg as [Hb _ Hnd Hdr]. eapply wp_draw; [exact Hb|].
  intros u s1 -> -> He1 Hb1 _ _. wp_steps.
  apply (growing_extends _ _ _ _ _ _ Hg Hb1) in He1 as Hg1.
  destruct Hg1 as [_ Hs1 _ Hdr1]. destruct g as [gu d es fs c t p cs]. apply HP; try done.
  destruct (draw_new s) as [Hold Hnew]. simpl in *. split; simpl; [exact Hb1|exact Hs1| |].
  - rewrite fmap_app. apply NoDup_app. split_and!; [done| |apply NoDup_singleton].
    intros x (f & -> & Hf)%list_elem_of_fmap Heq%list_elem_of_singleton.
    apply Hold. simpl in Heq. rewrite <-Heq. by apply Hdr.
  - intros f [Hf| ->%list_elem_of_singleton]%elem_of_app; [by apply Hdr1|done].
Qed.

Lemma wp_new_fifos G Q R n g s
    (P : list (PathBuf * PathBuf) * ExecutionGroup → EvaluationData TaskCallback → Prop) E :
  growing G Q R g s →
  (∀ l g' s', growing G Q R g' s' → extends s s' → tag g' = tag g → executions g' = executions g →
     length l = n → P (l, g') s') →
  wp (new_fifos n g) P E s.
Proof.
  revert g s P. induction n as [|n IH]; intros g s P Hg HP; simpl.
  { wp_steps. by apply HP. }
  wp_steps. eapply wp_new_fifo; [done|]. intros f1 g1 s1 Hg1 He1 Ht1 Hx1. cbn beta iota. wp_steps.
  eapply wp_new_fifo; [done|]. intros f2 g2 s2 Hg2 He2 Ht2 Hx2. cbn beta iota. wp_steps.
  apply IH; [done|]. intros l g3 s3 Hg3 He3 Ht3 Hx3 Hl. cbn beta iota. wp_steps.
  apply HP; [done|by do 2 (etrans; [done|])|congruence..|by simpl; rewrite Hl].
Qed.

(** Executing a source file while a group grows. *)
Lemma wp_execute_growing G Q R g sf descr args s (P : Execution → EvaluationData TaskCallback → Prop) :
  ui_ok G sf → growing G Q R g s →
  (∀ e s', growing G Q R g s' → extends s s' → supplied s' e → plain e → P e s') →
  wp (ui_execute sf descr args) P may_fail s.
Proof.
  intros Hsf Hg HP. eapply wp_ui_execute; [done|by destruct Hg|].
  intros e s1 Hb1 He1 Hs1 Hp1. apply HP; [by eapply growing_extends|done..].
Qed.

Lemma growing_add_silent G Q R g e s :
  growing G Q R g s → supplied s e → exec_outs e = [] → growing G Q R (group_add_execution e g) s.
Proof.
  intros Hg Hs Ho. eapply growing_add; [done| |done|done]. rewrite Ho. by destruct Hg.
Qed.

(** Redirections that are no capture. *)
Lemma supplied_set_stdin_path s p e : supplied s e → supplied s (set_stdin (Input_Path p) e).
Proof. intros Hs f [Hf|Hf]; [by destruct e|]. apply Hs. right. by destruct e. Qed.
Lemma supplied_stdin_ignored s e : supplied s e → supplied s (set_stdin Input_Ignored e).
Proof. intros Hs f [Hf|Hf]; [by destruct e|]. apply Hs. right. by destruct e. Qed.
Lemma supplied_stdin_inherit s e : supplied s e → supplied s (set_stdin Input_Inherit e).
Proof. intros Hs f [Hf|Hf]; [by destruct e|]. apply Hs. right. by destruct e. Qed.

Lemma wp_communication_process G Q R t data st tc sf index num fifos g s
    (P : ExecutionGroup → EvaluationData TaskCallback → Prop) :
  memory_ok (bt_memory_limit t) → ui_ok G sf → growing G Q R g s →
  (∀ g' s', growing G Q R g' s' → extends s s' → tag g' = Some (tag_of Tag_Evaluation) → P g' s') →
  wp (communication_process t data st tc sf index num fifos g) P may_fail s.
Proof.
  intros Hm Hsf Hg HP. unfold communication_process, sf_name. destruct fifos as [m2s s2m].
  destruct (sf_ok_path _ _ Hsf) as [n Hn]. rewrite Hn. cbn zeta.
  apply wp_bind. eapply wp_lift_ret; [done|]. wp_steps.
  eapply (wp_execute_growing G Q R g); [done..|]. intros e1 s1 Hg1 He1 Hs1 Hp1. apply wp_bind.
  set (e2 := match user_io data with StdIo => _ | FifoIo => e1 end).
  assert (supplied s1 e2 ∧ exec_outs e2 = []) as [Hs2 Ho2].
  { subst e2. destruct (user_io data); [|split; [done|by apply plain_outs]]. split.
    - by apply supplied_set_stdout, supplied_set_stdin_path.
    - destruct Hp1 as [_ _ Hr Hf]. destruct e1. simpl in *. unfold exec_outs, execution_outputs. simpl.
      by rewrite Hr, Hf. }
  clearbody e2. apply wp_limits; [by apply limited_solution|]. intros e3 Hs3 Ho3 _. wp_steps.
  apply HP; [|done|by rewrite group_add_tag; destruct g].
  apply growing_add_silent; [by apply growing_tag|by apply Hs3|congruence].
Qed.

Lemma wp_communication_processes G Q R t data st tc sf index num fifos g s
    (P : ExecutionGroup → EvaluationData TaskCallback → Prop) :
  memory_ok (bt_memory_limit t) → ui_ok G sf → growing G Q R g s →
  (∀ g' s', growing G Q R g' s' → extends s s' →
     (tag g' = match fifos with [] => tag g | _ => Some (tag_of Tag_Evaluation) end) → P g' s') →
  wp (communication_processes t data st tc sf index num fifos g) P may_fail s.
Proof.
  intros Hm Hsf. revert index g s P. induction fifos as [|f fifos IH]; intros index g s P Hg HP; simpl.
  { wp_steps. by apply HP. }
  wp_steps. eapply (wp_communication_process G Q R); [done..|]. intros g1 s1 Hg1 He1 Ht1.
  apply IH; [done|]. intros g2 s2 Hg2 He2 Ht2. apply HP; [done|by etrans|].
  rewrite Ht2. by destruct fifos.
Qed.

Lemma limited_manager t n : memory_ok (bt_memory_limit t) → limited (manager_limits t n).
Proof.
  intros Hm. unfold manager_limits. apply limited_compose with
    (h := λ e, match bt_time_limit t with Some l => _ | None => e end);
    [|by apply limited_memory]. destruct (bt_time_limit t); [apply neutral_limits|apply neutral_id].
Qed.

(** The end of an evaluation by a single group. *)
Lemma wp_bind_evaluation G Q R g g0 k c s (P : unit → EvaluationData TaskCallback → Prop) :
  growing G Q R g s → executions g ≠ [] → group_uuid g0 = group_uuid g →
  (∀ s', builds G Q R s' → extends s s' → (∀ t, tag g = tag_of <$> t → registered s' t c) → P tt s') →
  wp (_ ← bind_exec_callbacks (group_uuid g0) k; _ ← done_with (group_uuid g0) c; add_group g)
    P may_fail s.
Proof.
  intros Hg Hne Hu HP. rewrite Hu. pose proof (grow_builds _ _ _ _ _ Hg) as Hb. wp_steps.
  eapply wp_bind_callbacks; [done|left; apply list_elem_of_here|]. intros s1 Hb1 He1. wp_steps.
  eapply wp_done_with; [done|left; apply list_elem_of_here|]. intros s2 Hb2 He2 Hd2.
  assert (extends s s2) as He02 by (by etrans).
  eapply (wp_add_growing G Q R); [by eapply growing_extends|done|]. intros s3 Hb3 He3 Hg3.
  apply HP; [done|by etrans|]. intros tg Htg. exists (group_uuid g). eexists _. split_and!; [exact Hg3|by rewrite tag_set_config|].
  by apply (ext_does _ _ He3).
Qed.

Lemma wp_communication G Q R t data st tc sf i v target s
    (P : unit → EvaluationData TaskCallback → Prop) :
  memory_ok (bt_memory_limit t) → ui_ok G (manager data) → ui_ok G sf → builds G Q R s →
  ready s i → (∀ h, v = Some h → ready s h) →
  (∀ s', builds G Q R s' → extends s s' → evaluated (TT_Communication data) target s' → P tt s') →
  wp (communication_evaluate t data st tc sf i v target) P may_fail s.
Proof.
  intros Hm Hman Hsf Hb Hi Hv HP. unfold communication_evaluate, sf_name. cbn zeta.
  destruct (sf_ok_path _ _ Hsf) as [n Hn]. rewrite Hn. apply wp_bind. eapply wp_lift_ret; [done|].
  wp_steps. eapply (wp_new_growing G Q R); [done|]. intros g1 s1 Hg1 He1 Ht1 _. wp_steps.
  eapply wp_new_fifos; [done|]. intros fifos g2 s2 Hg2 He2 Ht2 _ Hlen. cbn beta iota. wp_steps.
  eapply (wp_communication_processes G Q R); [done..|]. intros g3 s3 Hg3 He3 Ht3. wp_steps.
  eapply (wp_execute_growing G Q R g3); [done..|]. intros e4 s4 Hg4 He4 Hs4 Hp4. wp_steps.
  eapply (wp_capture_stdout G _ (group_outs g3 ++ R)); [rewrite plain_outs by done; by destruct Hg4|done|].
  intros f5 s5 e5 Hb5 He5 Hs5 _ _. cbn beta iota. wp_steps.
  eapply wp_capture_stderr; [done..|].
  intros f6 s6 e6 Hb6 He6 Hs6 _ _. cbn beta iota. wp_steps.
  assert (extends s s6) as He06 by (by do 5 (etrans; [done|])).
  eapply wp_bind_exec_io; [done..|by eapply extends_ready|intros h Hh; by eapply extends_ready, Hv|].
  intros f7 e7 s7 Hb7 He7 Hs7 _. cbn beta iota. wp_steps.
  apply wp_limits; [by apply limited_manager|]. intros e8 Hs8 Ho8 _. rewrite <-Ho8 in Hb7.
  assert (extends s4 s7) as He47 by (by do 2 (etrans; [done|])).
  eapply (wp_bind_evaluation G Q R (group_add_execution e8 g3) g3).
  - by eapply growing_add; [exact Hg4|exact Hb7| |apply Hs8].
  - rewrite group_add_executions. by destruct (executions g3).
  - by rewrite group_add_uuid.
  - intros s9 Hb9 He9 Hreg. apply HP; [done|by do 2 (etrans; [done|])|]. simpl.
    apply Hreg. rewrite group_add_tag, Ht3. case_bool_decide as Hz.
    + destruct fifos; [by rewrite Ht2|]. by rewrite Hz in Hlen.
    + destruct fifos; [|done]. simpl in Hlen. lia.
Qed.

Lemma limited_controller data : memory_ok (controller_memory_limit data) → limited (controller_limits data).
Proof.
  intros Hm. unfold controller_limits.
  apply limited_compose with (h := λ e,
    let e := match controller_time_limit data with Some l => limits_mut (set_cpu_time l) e | None => e end in
    match controller_wall_time_limit data with Some l => limits_mut (set_wall_time l) e | None => e end);
    [|by apply limited_memory].
  destruct (controller_time_limit data), (controller_wall_time_limit data);
    intros []; by split_and!.
Qed.
Lemma limited_prefix t data : memory_ok (bt_memory_limit t) → limited (prefix_limits t data).
Proof.
  intros Hm. unfold prefix_limits. apply limited_compose with
    (h := λ e, match bt_time_limit t with Some l => _ | None => e end);
    [|by apply limited_memory]. destruct (bt_time_limit t); [apply neutral_limits|apply neutral_id].
Qed.

Lemma wp_interactive G Q R t data st tc sf i v target s
    (P : unit → EvaluationData TaskCallback → Prop) :
  memory_ok (bt_memory_limit t) → task_type_ok G (TT_Interactive data) → ui_ok G sf → builds G Q R s →
  ready s i → (∀ h, v = Some h → ready s h) →
  (∀ s', builds G Q R s' → extends s s' → evaluated (TT_Interactive data) target s' → P tt s') →
  wp (interactive_evaluate t data st tc sf i v target) P may_fail s.
Proof.
  intros Hm [Hcon Hcm] Hsf Hb Hi Hv HP. unfold interactive_evaluate, sf_name. cbn zeta.
  destruct (sf_ok_path _ _ Hsf) as [n Hn]. rewrite Hn. apply wp_bind. eapply wp_lift_ret; [done|].
  wp_steps. eapply (wp_new_growing G Q R); [done|]. intros g1 s1 Hg1 He1 Ht1 _.
  set (g2 := set_controller _ _).
  assert (growing G Q R g2 s1 ∧ tag g2 = Some (tag_of Tag_Evaluation)) as [Hg2 Ht2].
  { split; [by apply growing_controller, growing_tag|by destruct g1]. }
  clearbody g2. wp_steps.
  eapply (wp_execute_growing G Q R g2); [done..|]. intros e3 s3 Hg3 He3 Hs3 Hp3. apply wp_bind.
  assert (extends s s3) as He03 by (by etrans).
  set (e4 := input i _ false e3).
  set (e5 := match v with Some f => _ | None => e4 end).
  set (e6 := set_stdout Output_Ignored _).
  assert (supplied s3 e6 ∧ exec_outs e6 = []) as [Hs6 Ho6].
  { assert (supplied s3 e5 ∧ plain e5) as [Hs5 Hp5].
    { subst e5. assert (supplied s3 e4 ∧ plain e4) as [Hs4 Hp4].
      { split; [apply supplied_input; [done|by eapply extends_ready]|].
        eapply plain_same_io; [done|apply same_io_input]. }
      destruct v as [h|]; [|done]. split.
      - apply supplied_input; [done|]. eapply extends_ready; [done|]. by apply Hv.
      - eapply plain_same_io; [done|apply same_io_input]. }
    split; [by apply supplied_set_stdout, supplied_stdin_ignored|].
    unfold e6. clearbody e5. destruct Hp5 as [_ _ Hr Hf]. destruct e5. simpl in *.
    unfold exec_outs, execution_outputs. simpl. by rewrite Hr, Hf. }
  clearbody e6. eapply (wp_capture_stderr G _ (group_outs g2 ++ R)); [rewrite Ho6; by destruct Hg3|done|].
  intros f7 s7 e7 Hb7 He7 Hs7 _ _. cbn beta iota. wp_steps.
  apply wp_limits; [by apply limited_controller|]. intros e8 Hs8 Ho8 _. rewrite <-Ho8 in Hb7.
  assert (growing G Q R (group_add_execution e8 g2) s7) as Hg8
    by (eapply growing_add; [exact Hg3|exact Hb7|done|by apply Hs8]).
  wp_steps. eapply wp_execute_growing; [done..|]. intros e9 s9 Hg9 He9 Hs9 Hp9. apply wp_bind.
  set (e10 := set_stderr _ _).
  assert (supplied s9 e10 ∧ exec_outs e10 = []) as [Hs10 Ho10].
  { split; [by apply supplied_set_stderr, supplied_set_stdout, supplied_stdin_inherit|].
    unfold e10. destruct Hp9 as [_ _ Hr Hf]. destruct e9. simpl in *.
    unfold exec_outs, execution_outputs. simpl. by rewrite Hf. }
  clearbody e10. apply wp_limits; [by apply limited_prefix|]. intros e11 Hs11 Ho11 _.
  assert (growing G Q R (group_add_execution e11 (group_add_execution e8 g2)) s9) as Hg11
    by (apply growing_add_silent; [done|by apply Hs11|congruence]).
  eapply (wp_bind_evaluation G Q R); [exact Hg11| |done|].
  { rewrite group_add_executions. by destruct (executions (group_add_execution e8 g2)). }
  intros s12 Hb12 He12 Hreg. apply HP; [done|by do 3 (etrans; [done|])|]. simpl.
  apply Hreg. by rewrite !group_add_tag, Ht2.
Qed.

Lemma wp_evaluate G Q R t st tc sf i v co target s (P : unit → EvaluationData TaskCallback → Prop) :
  memory_ok (bt_memory_limit t) → task_type_ok G (task_type t) → ui_ok G sf → builds G Q R s →
  ready s i → (∀ h, v = Some h → ready s h) → (∀ h, co = Some h → ready s h) →
  (∀ s', builds G Q R s' → extends s s' → evaluated (task_type t) target s' → P tt s') →
  wp (evaluate t st tc sf i v co target) P may_fail s.
Proof.
  intros Hm Ht Hsf Hb Hi Hv Hco HP. unfold evaluate. destruct (task_type t) as [c|data|data|].
  - by eapply wp_batch.
  - by eapply wp_communication.
  - by eapply wp_interactive.
  - wp_steps. by apply HP.
Qed.

Lemma wp_prepare_dag G Q R tt s (P : unit → EvaluationData TaskCallback → Prop) :
  task_type_ok G tt → builds G Q R s →
  (∀ s', builds G Q R s' → extends s s' → P () s') → wp (prepare_dag tt) P may_fail s.
Proof.
  intros Ht Hb HP. assert (∀ sf, ui_ok G sf → wp (_ ← ui_prepare sf; mret ()) P may_fail s) as Hp.
  { intros sf Hsf. wp_steps. eapply wp_ui_prepare; [done..|]. intros o s' Hb' He'. wp_steps. by apply HP. }
  destruct tt as [[]|data|data|]; simpl in *; try (by apply Hp); try (apply wp_ret; by apply HP).
  apply Hp, Ht.
Qed.
End correct.
