(* ===== verification/IoiTaskCorrect.v ===== *)
(** * The DAG of a whole IOI task

    [build_executions] of [IoiDag], the part of [IOITask::build_dag] that follows the
    search of the solutions: the DAG it leaves is one that the server accepts, and
    it evaluates every solution on every testcase. *)
From S2P Require Import Prelude Float64 RustOrd Paths StoreKey Dag CheckDag Text Diagnostics Checks UiMessage.
From S2P Require Import Machine Build Languages SourceFile SourceFileCorrect Scoring ScoringCorrect Judge.
From S2P Require Import IoiDag IoiDagCorrect.

Section correct.
Context `{UuidV4} `{LocalFiles} `{Blake3} `{LanguageManager} `{BuildProfile} `{UuidDisplay} `{IterOrder}.
Implicit Types (s : EvaluationData TaskCallback) (G : gset Uuid) (Q R : list Uuid).

(** A task as the parsers give it: the testcases are under their identifiers, each
    listed by a subtask is owned by one; the source files have a name, the memory
    limits can be converted. *)
Record buildable G (t : BuildTask) : Prop := {
  bd_ids : Scoring.task_ok (ui_task t);
  bd_testcases : ∀ k x, bt_testcases t !! k = Some x →
    testcase_id (testcase_info x) = k ∧
    input_generator_ok G (input_generator x) ∧ output_generator_ok G (output_generator x);
  bd_owned : ∀ k st tc, bt_subtasks t !! k = Some st → tc ∈ testcases_owned (subtask_info st) →
    is_Some (bt_testcases t !! tc);
  bd_listed : ∀ k st tc, bt_subtasks t !! k = Some st → tc ∈ subtask_testcases (subtask_info st) →
    ∃ k' st', bt_subtasks t !! k' = Some st' ∧ tc ∈ testcases_owned (subtask_info st');
  bd_validators : ∀ k st, bt_subtasks t !! k = Some st → input_validator_ok G (input_validator st);
  bd_type : task_type_ok G (task_type t);
  bd_memory : memory_ok (bt_memory_limit t)
}.

(** ** The score managers *)
Definition sent_more (c c' : UIChannel) : Prop := ∃ l, ui_sent c' = ui_sent c ++ l.
#[local] Instance sent_more_preorder : PreOrder sent_more.
Proof.
  split; [intros c; exists []; by rewrite app_nil_r|].
  intros c1 c2 c3 [l1 Hl1] [l2 Hl2]. exists (l1 ++ l2). by rewrite Hl2, Hl1, app_assoc.
Qed.

Lemma wp_sm_send_any m sm (P : unit → ScoreManager → Prop) :
  (∀ c, sent_more (sm_channel sm) c → P tt (with_sm_channel c sm)) → wp (sm_send m) P may_fail sm.
Proof.
  intros HP. unfold sm_send, ui_send. wp_steps; [|done]. apply HP. by exists [m].
Qed.

(** The score managers start by scoring the subtasks without testcases. *)
Record started (t : BuildTask) (c : UIChannel) (sm : ScoreManager) : Prop := {
  st_testcases : sm_subtask_testcases sm = subtask_testcases <$> subtasks (ui_task t);
  st_max : ∀ k st, subtasks (ui_task t) !! k = Some st → is_Some (max_subtask_scores sm !! k);
  st_sent : sent_more c (sm_channel sm)
}.
Lemma started_channel t c c' sm :
  started t c sm → sent_more (sm_channel sm) c' → started t c (with_sm_channel c' sm).
Proof. intros [] Hc. split; [done..|by etrans]. Qed.

Lemma wp_score_manager_start t path c :
  Scoring.task_ok (ui_task t) →
  wp (ScoreManager_new (ui_task t)) (λ _, started t c) may_fail (ScoreManager_init (ui_task t) path c).
Proof.
  intros Ht. apply wp_for_each_inv.
  { split; [done| |done]. intros k st Hst. eexists. by apply (map_values_lookup (ui_task t) Ht). }
  intros [k st] sm Hin%elem_of_map_iter Hsm. simpl.
  destruct (subtask_testcases st) eqn:Hnil; [|by wp_steps]. unfold score_subtask. wp_steps.
  eapply wp_lift_ret; [unfold index; rewrite (st_testcases _ _ _ Hsm), lookup_fmap, Hin; simpl; by rewrite Hnil|].
  wp_steps. eapply wp_lift_ret; [done|].
  destruct (aggregate_ret (aggregator sm) []) as [n Hn]; [constructor|]. wp_steps.
  eapply wp_lift_ret; [done|]. wp_steps.
  destruct (st_max _ _ _ Hsm k st Hin) as [m Hm]. eapply wp_lift_ret; [unfold index; by rewrite Hm|].
  wp_steps. assert (∀ x, started t c (with_subtask_scores x sm)) as Hx by (intros x; by destruct Hsm).
  apply wp_sm_send_any. intros c1 Hc1. cbn beta. wp_steps.
  - apply wp_sm_send_any. intros c2 Hc2. do 2 (apply started_channel; [|done]). done.
  - by apply started_channel.
Qed.

Lemma builds_sender G Q R c s :
  builds G Q R s → sent_more (eval_sender s) c →
  builds G Q R (with_eval_sender c s) ∧ extends s (with_eval_sender c s).
Proof. intros [] Hc. split; split; auto; done. Qed.

Lemma wp_new_score_manager G Q R t path s (P : ScoreManager → EvaluationData TaskCallback → Prop) :
  Scoring.task_ok (ui_task t) → builds G Q R s →
  (∀ sm s', builds G Q R s' → extends s s' → P sm s') →
  wp (new_score_manager t path) P may_fail s.
Proof.
  intros Ht Hb HP. pose proof (wp_score_manager_start t path (eval_sender s) Ht) as Hw.
  unfold wp, new_score_manager in *. destruct (ScoreManager_new _ _) as [[]sm]; try done.
  destruct (builds_sender G Q R (sm_channel sm) s Hb) as [??]; [by destruct Hw|]. by apply HP.
Qed.

Lemma wp_new_score_managers G Q R t l s (P : list ScoreManager → EvaluationData TaskCallback → Prop) :
  Scoring.task_ok (ui_task t) → builds G Q R s →
  (∀ sms s', builds G Q R s' → extends s s' → length sms = length l → P sms s') →
  wp (new_score_managers t l) P may_fail s.
Proof.
  intros Ht. revert s P. induction l as [|x l IH]; intros s P Hb HP; simpl.
  { wp_steps. by apply HP. }
  wp_steps. eapply wp_new_score_manager; [done..|]. intros sm s1 Hb1 He1. wp_steps.
  apply IH; [done|]. intros sms s2 Hb2 He2 Hl. wp_steps. apply HP; [done|by etrans|simpl; congruence].
Qed.

(** ** The loops *)
Definition solution_ok G (x : Solution) : Prop := ui_ok G (solution_source x).

(** Every solution of the list is evaluated on a testcase, from a position on. *)
Definition all_evaluated (tt : TaskType) (solutions : list Solution) (index : nat) (st : SubtaskId)
    (tc : TestcaseId) s : Prop :=
  ∀ i x, solutions !! i = Some x → evaluated tt (mkTarget (index + i) st tc) s.
Lemma all_evaluated_extends tt l index st tc s s' :
  extends s s' → all_evaluated tt l index st tc s → all_evaluated tt l index st tc s'.
Proof. intros He Hl i x Hx. eapply evaluated_extends; eauto. Qed.

Lemma wp_evaluate_solutions G Q R t st tc i v co index l s
    (P : unit → EvaluationData TaskCallback → Prop) :
  buildable G t → Forall (solution_ok G) l → builds G Q R s →
  ready s i → (∀ h, v = Some h → ready s h) → (∀ h, co = Some h → ready s h) →
  (∀ s', builds G Q R s' → extends s s' → all_evaluated (task_type t) l index st tc s' → P tt s') →
  wp (evaluate_solutions t st tc i v co index l) P may_fail s.
Proof.
  intros Ht. revert index s P. induction l as [|x l IH]; intros index s P Hl Hb Hi Hv Hco HP; simpl.
  { wp_steps. by apply HP. }
  apply Forall_cons in Hl as [Hx Hl]. wp_steps.
  eapply (wp_evaluate G Q R); [apply (bd_memory _ _ Ht)|apply (bd_type _ _ Ht)|done..|].
  intros s1 Hb1 He1 Hev. apply IH; [done|done|by eapply extends_ready|..].
  { intros h Hh. eapply extends_ready; [done|]. by apply Hv. }
  { intros h Hh. eapply extends_ready; [done|]. by apply Hco. }
  intros s2 Hb2 He2 Hall. apply HP; [done|by etrans|]. intros [|j] y Hy.
  - injection Hy as <-. rewrite Nat.add_0_r. by eapply evaluated_extends.
  - rewrite Nat.add_succ_r. by apply (Hall j y).
Qed.

(** The files of the testcases that are done. *)
Definition io_ready (io : gmap TestcaseId (FileUuid * option FileUuid)) s : Prop :=
  ∀ tc p, io !! tc = Some p → ready s p.1 ∧ ∀ f, p.2 = Some f → ready s f.
Lemma io_ready_extends io s s' : extends s s' → io_ready io s → io_ready io s'.
Proof.
  intros He Hio tc p Hp. destruct (Hio tc p Hp) as [Hi Ho].
  split; [by eapply extends_ready|]. intros f Hf. eapply extends_ready; eauto.
Qed.

(** What a loop over testcases of a subtask leaves. *)
Record testcases_built (t : BuildTask) (l : list Solution) (st : SubtaskId) (tcs : list TestcaseId)
    (io io' : gmap TestcaseId (FileUuid * option FileUuid)) s : Prop := {
  tb_ready : io_ready io' s;
  tb_dom : dom io' = dom io ∪ list_to_set tcs;
  tb_evaluated : ∀ tc, tc ∈ tcs → all_evaluated (task_type t) l 0 st tc s
}.

Lemma wp_build_testcase G Q R t l k st tc io s
    (P : gmap TestcaseId (FileUuid * option FileUuid) → EvaluationData TaskCallback → Prop) :
  buildable G t → Forall (solution_ok G) l → bt_subtasks t !! k = Some st →
  is_Some (bt_testcases t !! tc) → io_ready io s → builds G Q R s →
  (∀ io' s', builds G Q R s' → extends s s' →
     testcases_built t l (subtask_id (subtask_info st)) [tc] io io' s' → P io' s') →
  wp (build_testcase t l st tc io) P may_fail s.
Proof.
  intros Ht Hl Hst [x Hx] Hio Hb HP. unfold build_testcase. cbn zeta. rewrite Hx.
  apply wp_bind. eapply wp_lift_ret; [done|].
  destruct (bd_testcases _ _ Ht _ _ Hx) as (Hid & Hgen & Hout). rewrite Hid. wp_steps.
  eapply wp_generate_input; [done..|]. intros i s1 Hb1 He1 Hi. wp_steps.
  eapply wp_validate_and_bind; [by eapply bd_validators|done..|]. intros v s2 Hb2 He2 Hv. wp_steps.
  assert (ready s2 i) as Hi2 by by eapply extends_ready.
  eapply wp_generate_output; [done..|]. intros o s3 Hb3 He3 Ho. wp_steps.
  assert (∀ f, ready s2 f → ready s3 f) as Hr by (intros f; by apply extends_ready).
  eapply wp_evaluate_solutions; [done|done|done|by apply Hr|by eauto|by intros h [= <-]|].
  intros s4 Hb4 He4 Hall. wp_steps.
  assert (extends s s4) as He by (by do 3 (etrans; [done|])).
  apply HP; [done|done|]. split.
  - intros tc' p [[<- <-]|[_ Hp]]%lookup_insert_Some.
    + split; [eapply extends_ready; [exact He4|]; by apply Hr|].
      intros f [= <-]. by apply (extends_ready _ _ _ He4).
    + eapply io_ready_extends; eauto.
  - by rewrite dom_insert_L, list_to_set_singleton_L, (comm_L (∪)).
  - by intros tc' ->%list_elem_of_singleton.
Qed.

Lemma wp_build_testcases G Q R t l k st tcs io s
    (P : gmap TestcaseId (FileUuid * option FileUuid) → EvaluationData TaskCallback → Prop) :
  buildable G t → Forall (solution_ok G) l → bt_subtasks t !! k = Some st →
  (∀ tc, tc ∈ tcs → is_Some (bt_testcases t !! tc)) → io_ready io s → builds G Q R s →
  (∀ io' s', builds G Q R s' → extends s s' →
     testcases_built t l (subtask_id (subtask_info st)) tcs io io' s' → P io' s') →
  wp (build_testcases t l st tcs io) P may_fail s.
Proof.
  intros Ht Hl Hst. revert io s P. induction tcs as [|tc tcs IH]; intros io s P Htc Hio Hb HP; simpl.
  { wp_steps. apply HP; [done|done|]. split; [done|symmetry; apply union_empty_r_L|]. by intros tc []%elem_of_nil. }
  wp_steps. eapply wp_build_testcase; [done..|apply Htc; left|done|done|].
  intros io1 s1 Hb1 He1 [Hr1 Hd1 Hev1]. apply IH; [by intros; apply Htc; right|done|done|].
  intros io2 s2 Hb2 He2 [Hr2 Hd2 Hev2]. apply HP; [done|by etrans|]. split; [done| |].
  { by rewrite Hd2, Hd1, list_to_set_singleton_L, list_to_set_cons, (assoc_L (∪)). }
  intros tc' [->|Hin]%elem_of_cons; [|by apply Hev2].
  eapply all_evaluated_extends; [done|]. apply Hev1. by left.
Qed.

(** The loop over the subtasks. *)
Record subtasks_built (t : BuildTask) (l : list Solution) (sts : list BuildSubtask)
    (io io' : gmap TestcaseId (FileUuid * option FileUuid)) s : Prop := {
  sb_ready : io_ready io' s;
  sb_dom : ∀ tc, tc ∈ dom io' ↔ tc ∈ dom io ∨ ∃ st, st ∈ sts ∧ tc ∈ testcases_owned (subtask_info st);
  sb_evaluated : ∀ st tc, st ∈ sts → tc ∈ testcases_owned (subtask_info st) →
    all_evaluated (task_type t) l 0 (subtask_id (subtask_info st)) tc s
}.

Lemma wp_build_subtasks G Q R t l sts io s
    (P : gmap TestcaseId (FileUuid * option FileUuid) → EvaluationData TaskCallback → Prop) :
  buildable G t → Forall (solution_ok G) l → (∀ st, st ∈ sts → ∃ k, bt_subtasks t !! k = Some st) →
  io_ready io s → builds G Q R s →
  (∀ io' s', builds G Q R s' → extends s s' → subtasks_built t l sts io io' s' → P io' s') →
  wp (build_subtasks t l sts io) P may_fail s.
Proof.
  intros Ht Hl. revert io s P. induction sts as [|st sts IH]; intros io s P Hst Hio Hb HP; simpl.
  { wp_steps. apply HP; [done|done|]. split; [done| |by intros st tc []%elem_of_nil].
    intros tc. split; [by left|]. by intros [|(x & []%elem_of_nil & _)]. }
  destruct (Hst st) as [k Hk]; [by left|]. wp_steps.
  eapply wp_build_testcases; [done..|intros tc; by apply (bd_owned _ _ Ht k st)|done|done|].
  intros io1 s1 Hb1 He1 [Hr1 Hd1 Hev1]. apply IH; [by intros; apply Hst; right|done|done|].
  intros io2 s2 Hb2 He2 [Hr2 Hd2 Hev2]. apply HP; [done|by etrans|]. split; [done| |].
  - intros tc. rewrite Hd2, Hd1, elem_of_union, elem_of_list_to_set. setoid_rewrite elem_of_cons.
    split; [intros [[|]|(x & ? & ?)]; eauto|]. intros [|(x & [->|] & ?)]; eauto.
  - intros x tc [->|Hin]%elem_of_cons Htc; [|by apply Hev2].
    eapply all_evaluated_extends; [done|]. by apply Hev1.
Qed.

(** The files are put back in the testcases. *)
Lemma store_io_spec tcs l :
  NoDup l.*1 → (∀ p, p ∈ l → is_Some (tcs !! p.1)) →
  ∃ tcs', store_io tcs l = Ret tcs' ∧ ∀ tc, tcs' !! tc =
    match (list_to_map l : gmap TestcaseId (FileUuid * option FileUuid)) !! tc with
    | Some io => set_files io <$> tcs !! tc
    | None => tcs !! tc
    end.
Proof.
  revert tcs. induction l as [|[tc io] l IH]; intros tcs Hnd Hin; simpl.
  { exists tcs. split; [done|]. intros tc. by rewrite lookup_empty. }
  apply NoDup_cons in Hnd as [Htc Hnd]. destruct (Hin (tc, io)) as [x Hx]; [by left|]. simpl in Hx.
  rewrite Hx. simpl. destruct (IH (<[tc := set_files io x]> tcs)) as (tcs' & Hrun & Hl); [done| |].
  { intros p Hp. destruct (decide (p.1 = tc)) as [->|]; [rewrite lookup_insert_eq; by eexists|].
    rewrite lookup_insert_ne by done. apply Hin. by right. }
  exists tcs'. split; [done|]. intros k. rewrite Hl. destruct (decide (k = tc)) as [->|].
  - rewrite not_elem_of_list_to_map_1 by done. by rewrite !lookup_insert_eq, Hx.
  - by rewrite !(lookup_insert_ne _ tc) by done.
Qed.
Lemma list_to_map_iter {V} (m : gmap TestcaseId V) : list_to_map (map_iter m) = m.
Proof.
  rewrite <-(list_to_map_to_list m) at 2. apply list_to_map_proper; [apply NoDup_map_iter|].
  apply iter_order_perm.
Qed.

(** The testcases after the files are stored. *)
Definition stored (t : BuildTask) (io : gmap TestcaseId (FileUuid * option FileUuid))
    (tcs : gmap TestcaseId BuildTestcase) : Prop :=
  ∀ tc p, io !! tc = Some p → ∃ x, bt_testcases t !! tc = Some x ∧ tcs !! tc = Some (set_files p x).

Lemma store_io_stored t io :
  (∀ tc, tc ∈ dom io → is_Some (bt_testcases t !! tc)) →
  ∃ tcs, store_io (bt_testcases t) (map_iter io) = Ret tcs ∧ stored t io tcs ∧
    ∀ tc, tcs !! tc = match io !! tc with
                      | Some p => set_files p <$> bt_testcases t !! tc
                      | None => bt_testcases t !! tc
                      end.
Proof.
  intros Hd. destruct (store_io_spec (bt_testcases t) (map_iter io)) as (tcs & Hrun & Hl).
  - apply NoDup_map_iter.
  - intros [tc p] Hp%elem_of_map_iter. apply Hd. simpl. apply elem_of_dom. eauto.
  - rewrite list_to_map_iter in Hl. exists tcs. split_and!; [done| |done].
    intros tc p Hp. destruct (Hd tc) as [x Hx]; [apply elem_of_dom; eauto|].
    exists x. split; [done|]. by rewrite Hl, Hp, Hx.
Qed.

Lemma wp_validate_shared G Q R t tcs io st tc s (P : unit → EvaluationData TaskCallback → Prop) :
  buildable G t → input_validator_ok G (input_validator st) → stored t io tcs →
  (tc ∈ testcases_owned (subtask_info st) ∨ tc ∈ dom io) → io_ready io s → builds G Q R s →
  (∀ s', builds G Q R s' → extends s s' → P tt s') →
  wp (validate_shared (with_testcases tcs t) st tc) P may_fail s.
Proof.
  intros Ht Hv Hst Htc Hio Hb HP. unfold validate_shared. case_bool_decide as Hown.
  { wp_steps. by apply HP. }
  destruct Htc as [|Hd]; [done|]. apply elem_of_dom in Hd as [p Hp].
  destruct (Hst _ _ Hp) as (x & _ & Hx). simpl. rewrite Hx. wp_steps. eapply wp_lift_ret; [done|].
  wp_steps. eapply wp_lift_ret; [done|]. wp_steps.
  destruct (Hio _ _ Hp) as [Hi _].
  eapply wp_validate_and_bind; [done..|]. intros o s' Hb' He' _. wp_steps. by apply HP.
Qed.

(** The files that a testcase has after building, if it had none before. *)
Definition testcase_file (x : BuildTestcase) (f : FileUuid) : Prop :=
  input_file (testcase_info x) = Some f ∨ official_output_file (testcase_info x) = Some f.
Definition fresh_files (t : BuildTask) : Prop :=
  ∀ k x f, bt_testcases t !! k = Some x → ¬ testcase_file x f.
(** The task that building gives back has the files of its testcases. *)
Record stores (t t' : BuildTask) s : Prop := {
  stores_task : t' = with_testcases (bt_testcases t') t;
  stores_dom : ∀ k, is_Some (bt_testcases t' !! k) ↔ is_Some (bt_testcases t !! k);
  stores_ready : fresh_files t → ∀ k x f, bt_testcases t' !! k = Some x → testcase_file x f → ready s f
}.
Lemma stores_extends t t' s s' : extends s s' → stores t t' s → stores t t' s'.
Proof. intros He []. split; [done..|]. intros. eapply extends_ready; eauto. Qed.

Lemma stored_stores t io tcs s :
  io_ready io s →
  (∀ tc, tcs !! tc = match io !! tc with
                     | Some p => set_files p <$> bt_testcases t !! tc
                     | None => bt_testcases t !! tc
                     end) →
  stores t (with_testcases tcs t) s.
Proof.
  intros Hio Hl. split; [done|..].
  - intros k. simpl. rewrite Hl. destruct (io !! k); [|done]. by rewrite fmap_is_Some.
  - intros Hf k x f. simpl. rewrite Hl. destruct (io !! k) as [p|] eqn:Hp.
    + destruct (Hio _ _ Hp) as [Hi Ho]. intros (y & _ & ->)%fmap_Some [[= <-]|Hp2]; eauto.
    + intros Hx Hxf. by destruct (Hf _ _ _ Hx Hxf).
Qed.

(** What building leaves. *)
Record built (t : BuildTask) (l : list Solution) (t' : BuildTask) s : Prop := {
  built_evaluated : ∀ k st tc, bt_subtasks t !! k = Some st → tc ∈ testcases_owned (subtask_info st) →
    all_evaluated (task_type t) l 0 k tc s;
  built_inputs : ∀ k st tc, bt_subtasks t !! k = Some st → tc ∈ testcases_owned (subtask_info st) →
    ∃ x f, bt_testcases t' !! tc = Some x ∧ input_file (testcase_info x) = Some f ∧ ready s f;
  built_stores : stores t t' s
}.

Lemma built_extends t l t' s s' : extends s s' → built t l t' s → built t l t' s'.
Proof.
  intros He [Hev Hin Hst]. split; [..|by eapply stores_extends].
  - intros k st tc Hk Htc. eapply all_evaluated_extends; eauto.
  - intros k st tc Hk Htc. destruct (Hin k st tc Hk Htc) as (x & f & ? & ? & ?).
    exists x, f. split_and!; [done..|]. by eapply extends_ready.
Qed.

Lemma elem_of_values_subtask t st :
  st ∈ values_iter (bt_subtasks t) → ∃ k, bt_subtasks t !! k = Some st.
Proof. by rewrite elem_of_values_iter. Qed.
Lemma subtask_id_key G t k st :
  buildable G t → bt_subtasks t !! k = Some st → subtask_id (subtask_info st) = k.
Proof.
  intros Ht Hk. apply (bd_ids _ _ Ht k (subtask_info st)). simpl. by rewrite lookup_fmap, Hk.
Qed.

Lemma wp_validate_all G Q R t tcs io s (P : unit → EvaluationData TaskCallback → Prop) :
  buildable G t → stored t io tcs → io_ready io s →
  (∀ k st tc, bt_subtasks t !! k = Some st → tc ∈ testcases_owned (subtask_info st) → tc ∈ dom io) →
  builds G Q R s →
  (∀ s', builds G Q R s' → extends s s' → P tt s') →
  wp (for_each (values_iter (bt_subtasks t)) (λ st,
        for_each (subtask_testcases (subtask_info st)) (validate_shared (with_testcases tcs t) st)))
    P may_fail s.
Proof.
  intros Ht Hst Hio Hd Hb HP.
  eapply (wp_mono _ (λ _ s', builds G Q R s' ∧ extends s s') _ may_fail); [|intros [] ? []; by apply HP|done].
  apply wp_for_each_inv; [done|].
  intros st s1 [k Hk]%elem_of_values_subtask [Hb1 He1]. apply wp_for_each_inv; [done|].
  intros tc s2 Htc [Hb2 He2]. eapply wp_validate_shared; [done|by eapply bd_validators|done| |
    by eapply io_ready_extends|done|].
  - destruct (bd_listed _ _ Ht k st tc Hk Htc) as (k' & st' & Hk' & Hown). right. by eapply Hd.
  - intros s3 Hb3 He3. split; [done|by etrans].
Qed.

Lemma solution_infos_ret G l : Forall (solution_ok G) l → ∃ infos, try_map solution_info l = Ret infos.
Proof.
  intros Hl. induction Hl as [|x l Hx Hl [infos IH]]; [by exists []|].
  assert (∃ i, solution_info x = Ret i) as [i Hi].
  { destruct (sf_ok_path _ _ Hx) as [n Hn]. unfold solution_info, sf_name. rewrite Hn. by eexists. }
  exists (i :: infos). simpl. by rewrite Hi, IH.
Qed.

Lemma wp_build_executions G t l s
    (P : BuildTask * list ScoreManager → EvaluationData TaskCallback → Prop) :
  buildable G t → Forall (solution_ok G) l → builds G [] [] s →
  (∀ t' sms s', builds G [] [] s' → extends s s' → built t l t' s' → length sms = length l →
     P (t', sms) s') →
  wp (build_executions t l) P may_fail s.
Proof.
  intros Ht Hl Hb HP. unfold build_executions. wp_steps.
  eapply wp_new_score_managers; [apply (bd_ids _ _ Ht)|done|]. intros sms s1 Hb1 He1 Hlen. wp_steps.
  destruct (solution_infos_ret _ _ Hl) as [infos Hinfos]. eapply wp_lift_ret; [done|]. wp_steps.
  eapply wp_send; [done|]. intros s2 Hb2 He2 _. wp_steps.
  eapply wp_prepare_dag; [apply (bd_type _ _ Ht)|done|]. intros s3 Hb3 He3. wp_steps.
  eapply wp_build_subtasks; [done|done|apply elem_of_values_subtask|by intros ? ? ?%lookup_empty_Some|done|].
  intros io s4 Hb4 He4 [Hr Hd Hev]. wp_steps.
  assert (∀ k st tc, bt_subtasks t !! k = Some st → tc ∈ testcases_owned (subtask_info st) → tc ∈ dom io)
    as Hdom.
  { intros k st tc Hk Htc. apply Hd. right. exists st. split; [|done]. apply elem_of_values_iter. eauto. }
  destruct (store_io_stored t io) as (tcs & Hrun & Hst & Hl').
  { intros tc [Hin|(st & [k Hk]%elem_of_values_subtask & Htc)]%Hd; [by rewrite dom_empty in Hin|].
    by eapply bd_owned. }
  eapply wp_lift_ret; [done|]. wp_steps.
  change (bt_subtasks (with_testcases tcs t)) with (bt_subtasks t).
  eapply (wp_validate_all G [] [] t tcs io); [done..|]. intros s5 Hb5 He5. wp_steps.
  apply HP; [done|by do 4 (etrans; [done|])| |done]. eapply built_extends; [done|].
  split; [..|by eapply stored_stores].
  - intros k st tc Hk Htc. rewrite <-(subtask_id_key _ _ _ _ Ht Hk). apply Hev; [|done].
    apply elem_of_values_iter. eauto.
  - intros k st tc Hk Htc. specialize (Hdom _ _ _ Hk Htc). apply elem_of_dom in Hdom as [p Hp].
    destruct (Hst _ _ Hp) as (x & _ & Hx). exists (set_files p x), p.1.
    split_and!; [done|done|]. exact (proj1 (Hr _ _ Hp)).
Qed.

(** ** The search of the solutions *)

(** Reading the checks of a source does not panic: no offset leaves [usize]. *)
Lemma from_str_no_panic name content offset len :
  (offset + len < u64_modulus)%N → no_panic (from_str name content offset len).
Proof.
  intros Hw. unfold from_str. generalize (split_text newline content) as ls.
  generalize 0%N at 1. generalize 0%N. intros skip prev ls. revert prev skip.
  induction ls as [|l ls IH]; intros prev skip; simpl; [done|].
  repeat case_match; try done. rewrite u64_add_small by lia. simpl. by case_match.
Qed.

Lemma find_last_len p txt before found :
  find_last p txt = Some (before, found) → (text_len before + text_len found = text_len txt)%N.
Proof.
  revert before. induction txt as [|c txt IH]; intros before; simpl.
  - destruct (strip_prefix p []); [|done]. by intros [= <- <-].
  - destruct (find_last p txt) as [[b f]|] eqn:Hf.
    + intros [= <- <-]. specialize (IH b eq_refl). simpl. lia.
    + destruct (strip_prefix p (c :: txt)); [|done]. by intros [= <- <-].
Qed.
Lemma extract_checks_len txt r t len : extract_checks txt = Some (r, t, len) → (len ≤ text_len txt)%N.
Proof.
  induction txt as [|c txt IH]; cbn [extract_checks].
  - destruct (match_result []) as [[]|]; [|done]. by intros [= <- <- <-].
  - destruct (match_result (c :: txt)) as [[]|]; [by intros [= <- <- <-]|].
    intros Hs%IH. simpl. lia.
Qed.

Lemma wp_lift_quiet {S A} (o : Outcome A) (s : S) : no_panic o → wp (lift o) (λ _ _, True) may_fail s.
Proof. by destruct o. Qed.

Lemma extract_line_no_panic name content line start ds :
  (start + 2 * text_len line < u64_modulus)%N →
  wp (extract_line name content line start) (λ _ _, True) may_fail ds.
Proof.
  intros Hw. unfold extract_line. destruct (find_last CHECK_PREFIX line) as [[before found]|] eqn:Hf; [|done].
  apply find_last_len in Hf. destruct (extract_checks line) as [[[r t] len]|] eqn:Hx.
  - apply extract_checks_len in Hx. apply wp_bind. eapply wp_mono; [apply wp_lift_quiet| |done].
    { pose proof (from_str_no_panic name content (start + text_len before) len) as Hn.
      destruct (from_str _ _ _ _); try done; apply Hn; lia. }
    intros span ds' _. apply wp_bind. eapply wp_mono; [apply wp_lift_quiet| |done]; [|done].
    unfold check_from_str. by repeat case_decide.
  - apply wp_bind. eapply wp_mono; [apply wp_lift_quiet| |done]; [|intros d ds' _; by wp_steps].
    unfold invalid_check.
    pose proof (from_str_no_panic name content (start + text_len before) (text_len found)) as Hn.
    destruct (from_str _ _ _ _); try done; apply Hn; lia.
Qed.

(** The lines with their ends. *)
Definition lines_len (lines : list text) : N := foldr (λ l n, text_len l + 1 + n)%N 0%N lines.
Lemma split_lines_len content : lines_len (split_text newline content) = (text_len content + 1)%N.
Proof.
  induction content as [|c content IH]; [done|]. cbn [split_text]. case_decide as Hc.
  - subst c. simpl in *. rewrite IH. change (char_len newline) with 1%N. lia.
  - destruct (split_text newline content) as [|l ls]; simpl in *; lia.
Qed.

Lemma extract_lines_no_panic name content lines start ds :
  (start + 2 * lines_len lines < u64_modulus)%N →
  wp (extract_lines name content lines start) (λ _ _, True) may_fail ds.
Proof.
  revert start ds. induction lines as [|line lines IH]; intros start ds Hw; simpl; [done|].
  simpl in Hw. apply wp_bind. eapply wp_mono; [apply extract_line_no_panic; lia| |done].
  intros cs ds' _. apply wp_bind. eapply wp_mono; [apply IH; lia|by intros; wp_steps|done].
Qed.

Lemma extract_check_list_no_panic root path content ds :
  (∀ c, content = Ret c → 2 * (text_len c + 1) < u64_modulus)%N → no_panic content →
  no_panic (extract_check_list root path content ds).1.
Proof.
  intros Hlen Hc. unfold extract_check_list, mbind, M_bind, lift. destruct content as [c| | |]; try done.
  pose proof (extract_lines_no_panic
    (match path_strip_prefix root path with Some p => p | None => path end) c
    (split_text newline c) 0 ds) as Hw.
  rewrite split_lines_len in Hw. specialize (Hlen c eq_refl).
  unfold wp in Hw. simpl. by destruct (extract_lines _ _ _ _ _) as [[] ?]; try (apply Hw; lia).
Qed.

(** The files of the machine are not larger than half of the address space. *)
Definition files_fit : Prop :=
  ∀ p c, read_to_string p = Some c → (2 * (text_len c + 1) < u64_modulus)%N.

Lemma wp_send_diagnostics G Q R ds s (P : unit → EvaluationData TaskCallback → Prop) E :
  builds G Q R s → (∀ s', builds G Q R s' → extends s s' → P tt s') → wp (send_diagnostics ds) P E s.
Proof.
  revert s P. induction ds as [|d ds IH]; intros s P Hb HP; simpl.
  { wp_steps. by apply HP. }
  wp_steps. eapply (wp_mono _ (λ _ s', builds G Q R s' ∧ extends s s') _ (λ s', s' = s)).
  - unfold send, ui_send. wp_steps; [|by destruct s]. apply builds_sender; [done|by eexists].
  - intros _ s' [Hb' He']. apply IH; [done|]. intros s2 Hb2 He2. apply HP; [done|by etrans].
  - intros s' ->. by apply IH.
Qed.

Lemma wp_read_checks G Q R path s
    (P : option (list SolutionCheck) → EvaluationData TaskCallback → Prop) E :
  files_fit → builds G Q R s → (∀ o s', builds G Q R s' → extends s s' → P o s') →
  wp (read_checks path) P E s.
Proof.
  intros Hfit Hb HP. unfold read_checks. apply wp_bind, wp_get. cbn zeta.
  pose proof (extract_check_list_no_panic (task_root s) path
    (match read_to_string path with Some c => Ret c | None => Fail [] end) []) as Hn.
  destruct (extract_check_list _ _ _ _) as [r ds]. apply wp_bind.
  eapply wp_send_diagnostics; [done|]. intros s1 Hb1 He1. apply wp_ok.
  assert (no_panic r) as Hr.
  { apply Hn; destruct (read_to_string path) as [c|] eqn:Hc; try done. intros c' [= <-]. by eapply Hfit. }
  destruct r; try done; by apply HP.
Qed.

Lemma builds_next_cell G Q R c s :
  builds G Q R s →
  let s' := mkEval (task_root s) (eval_dag s) (eval_sender s) (uuids_drawn s) (executables s) c in
  builds G Q R s' ∧ extends s s'.
Proof. intros []. split; split; auto; try done. exists []. by rewrite app_nil_r. Qed.

Context `{Glob}.

(** What the search needs: the paths have names, the patterns are valid. *)
Record searchable_in (dir : PathBuf) (pattern : string) (config : EvaluationConfig) : Prop := {
  sr_filters : ∀ f, f ∈ solution_filter config → is_Some (path_file_name (path_of_string f));
  sr_glob : solution_paths config = [] →
    is_Some (glob (path_to_string (path_join dir (path_of_string pattern))));
  sr_names : ∀ p, path_exists p = true →
    p ∈ solution_paths config ∨
      p ∈ default [] (glob (path_to_string (path_join dir (path_of_string pattern)))) →
    is_Some (path_file_name p);
  sr_files : files_fit
}.
Definition searchable (t : BuildTask) (config : EvaluationConfig) : Prop :=
  searchable_in (bt_path t) "sol/*" config.

Definition graders_ok G (m : GraderMap) : Prop :=
  ∀ l d, graders m !! l = Some d → file_uuid (dep_file d) ∈ G.
Definition graders_given G (o : option GraderMap) : Prop := ∀ m, o = Some m → graders_ok G m.

Lemma wp_solution_new G Q R path base m s (P : option Solution → EvaluationData TaskCallback → Prop) :
  files_fit → is_Some (path_file_name path) → graders_given G m → builds G Q R s →
  (∀ o s', builds G Q R s' → extends s s' → (∀ x, o = Some x → solution_ok G x) → P o s') →
  wp (Solution_new path base m) P may_fail s.
Proof.
  intros Hfit [n Hn] Hm Hb HP. unfold Solution_new, UiSourceFile_new, SourceFile_new.
  rewrite Hn. wp_steps. eapply wp_lift_ret; [done|]. wp_steps.
  destruct (detect_language path) as [lang|]; [|wp_steps; by apply HP].
  unfold new_cell. wp_steps.
  destruct (builds_next_cell G Q R (next_cell s + 1) s Hb) as [Hb1 He1].
  eapply wp_read_checks; [done|exact Hb1|]. intros o s2 Hb2 He2. wp_steps.
  apply HP; [done|by etrans|]. intros x Hx. destruct o as [checks|]; [|done]. injection Hx as <-.
  split; simpl.
  - by exists n.
  - intros w [= <-]. exists n. unfold path_join, path_file_name. by rewrite last_snoc.
  - intros m' l d Hm'. by apply Hm.
Qed.

Lemma wp_collect_solutions G Q R config filters gs base m paths s
    (P : list Solution → EvaluationData TaskCallback → Prop) :
  files_fit → graders_given G m → (∀ p, p ∈ paths → path_exists p = true → is_Some (path_file_name p)) →
  builds G Q R s →
  (∀ l s', builds G Q R s' → extends s s' → Forall (solution_ok G) l → P l s') →
  wp (collect_solutions config filters gs base m paths) P may_fail s.
Proof.
  intros Hfit Hm. revert s P. induction paths as [|p paths IH]; intros s P Hp Hb HP; simpl.
  { wp_steps. by apply HP. }
  assert (∃ b, is_candidate config filters gs p = Ret b ∧ (b = true → path_exists p = true))
    as (b & Hrun & Hex).
  { unfold is_candidate. case_bool_decide; [by exists false|].
    destruct (path_exists p) eqn:Hx; simpl; [|by exists false]. case_bool_decide; [by exists true|].
    destruct (Hp p) as [n Hn]; [by left|done|]. rewrite Hn. simpl. by eexists. }
  wp_steps. eapply wp_lift_ret; [done|]. wp_steps.
  - eapply wp_solution_new; [done|apply Hp; [by left|auto]|done|done|]. intros o s1 Hb1 He1 Ho. wp_steps.
    apply IH; [by intros; apply Hp; [right|]|done|]. intros l s2 Hb2 He2 Hl. wp_steps.
    apply HP; [done|by etrans|]. apply Forall_app. split; [|done].
    destruct o as [x|]; simpl; [|done]. constructor; [by apply Ho|done].
  - apply IH; [by intros; apply Hp; [right|]|done|]. intros l s2 Hb2 He2 Hl. wp_steps. by apply HP.
Qed.

Lemma solution_filters_ret dir pattern config :
  searchable_in dir pattern config → ∃ l, solution_filters config = Ret l.
Proof.
  intros Hs. pose proof (sr_filters _ _ _ Hs) as Hf. unfold solution_filters.
  induction (solution_filter config) as [|f l IH]; [by exists []|].
  destruct (Hf f) as [n Hn]; [by left|]. destruct IH as [l' Hl']; [by intros; apply Hf; right|].
  exists (n :: l'). simpl. by rewrite Hn, Hl'.
Qed.

Lemma wp_find_solutions G Q R dir pattern config m s (P : list Solution → EvaluationData TaskCallback → Prop) :
  searchable_in dir pattern config → graders_given G m → builds G Q R s →
  (∀ l s', builds G Q R s' → extends s s' → Forall (solution_ok G) l → P l s') →
  wp (find_solutions config dir [pattern] m) P may_fail s.
Proof.
  intros Hs Hm Hb HP. unfold find_solutions. destruct (solution_filters_ret _ _ _ Hs) as [fs Hfs].
  set (found := glob (path_to_string (path_join dir (path_of_string pattern)))).
  assert (∃ paths, match solution_paths config with [] => list_files dir [pattern]
      | paths => Ret paths end = Ret paths ∧
    ∀ p, p ∈ paths → p ∈ solution_paths config ∨ p ∈ default [] found) as (paths & Hrun & Hp).
  { destruct (solution_paths config) as [|p l] eqn:Hnil.
    - destruct (sr_glob _ _ _ Hs Hnil) as [l Hl]. fold found in Hl. exists (l ++ []).
      cbn [list_files]. fold found. rewrite Hl. split; [done|]. simpl.
      intros p Hp. rewrite app_nil_r in Hp. by right.
    - exists (p :: l). split; [done|]. by left. }
  apply wp_bind. eapply wp_lift_ret; [done|]. apply wp_bind. eapply wp_lift_ret; [done|].
  eapply wp_collect_solutions; [apply (sr_files _ _ _ Hs)|done| |done|done].
  intros p Hin Hx. apply (sr_names _ _ _ Hs p Hx). auto.
Qed.

Lemma wp_build_dag G t config s
    (P : BuildTask * list Solution * list ScoreManager → EvaluationData TaskCallback → Prop) :
  buildable G t → graders_ok G (bt_grader_map t) → searchable t config → builds G [] [] s →
  (∀ t' l sms s', builds G [] [] s' → extends s s' → built t l t' s' → Forall (solution_ok G) l →
     length sms = length l → P (t', l, sms) s') →
  wp (build_dag t config) P may_fail s.
Proof.
  intros Ht Hm Hs Hb HP. unfold build_dag. apply wp_bind.
  eapply wp_send; [done|]. intros s1 Hb1 He1 _. apply wp_bind.
  eapply wp_find_solutions; [done|by intros m [= <-]|done|]. intros l s2 Hb2 He2 Hl. apply wp_bind.
  eapply wp_build_executions; [done..|]. intros t' sms s3 Hb3 He3 Hbuilt Hlen. cbn beta iota.
  apply wp_ret. apply HP; [done|by do 2 (etrans; [done|])|done..].
Qed.
End correct.

(** ** Examples *)
Definition ex_glob : Glob :=
  {| glob := λ p, if decide (p = "/task/sol/*")
                  then Some ((λ n, path_join ex_dir [Normal n]) <$> ["a.cpp"; "b.h"; "s.py"]) else None |}.
Definition ex_ui (name : string) (l : Language) (cell : N) : UiSourceFile :=
  mkUiSourceFile (ex_source name l cell) name.
Definition ex_st (id : SubtaskId) (tcs owned : list TestcaseId) : BuildSubtask :=
  mkBuildSubtask
    (mkSubtask id (Some (text_of "name")) (f64_of_Z 50) tcs owned None false [] false) None
    (IV_Custom (ex_ui "s.py" LanguagePython 101) ["val"]).
Definition ex_tc (id : TestcaseId) (g : InputGenerator) : BuildTestcase :=
  mkBuildTestcase (mkTestcase id None None) g
    (OG_Custom (ex_ui "a.cpp" (LanguageCpp (ex_config "g++" "c++17")) 102) []).
(** Two subtasks, the second also has the testcase of the first. *)
Definition ex_build (tt : TaskType) : BuildTask :=
  mkBuildTask (path_of_string "/task") tt "task" "A task" (Some f64_one) (Some 256%N)
    None None
    (list_to_map [(0%N, ex_st 0 [0%N] [0%N]); (1%N, ex_st 1 [0%N; 1%N] [1%N])])
    (list_to_map [(0%N, ex_tc 0 (IG_StaticFile (path_of_string "sol/c.h")));
                  (1%N, ex_tc 1 (IG_Custom (ex_ui "s.py" LanguagePython 103) ["10"]))])
    Min 2 (mkGraderMap ∅).
Definition ex_batch : BuildTask :=
  ex_build (TT_Batch (Checker_Custom (ex_ui "s.py" LanguagePython 104))).
Definition ex_eval_config : EvaluationConfig := mkEvalConfig ["a"; "sol/s.py"] [].
Definition ex_build_dag (t : BuildTask) :=
  @build_dag counting_uuids ex_files toy_blake3 ex_platform ex_languages dev_profile decimal_uuid
    forward_order ex_glob t ex_eval_config (EvaluationData_new (path_of_string "/task")).

Example ex_build_solutions :
  match (ex_build_dag ex_batch).1 with
  | Ret (_, l, _) => (λ x, path_to_string (sf_path (source_base (solution_source x)))) <$> l
  | _ => []
  end = ["/task/sol/a.cpp"; "/task/sol/s.py"].
Proof. vm_compute. reflexivity. Qed.
(** The compilations, the generation, the validations (one for the testcase that the
    second subtask takes from the first), the outputs, the evaluations and the checks. *)
Example ex_build_groups :
  (λ t, length (filter (λ p, tag p.2 = Some (mkTag t))
     (map_to_list (execution_groups (data (eval_dag (ex_build_dag ex_batch).2)))))) <$>
  ["compilation"; "generation"; "evaluation"; "checking"] = [2; 6; 4; 4].
Proof. vm_compute. reflexivity. Qed.

Lemma ex_ui_ok G name l cell : ui_ok G (ex_ui name l cell).
Proof. apply ex_source_ok. Qed.

Lemma ex_subtasks tt k st :
  bt_subtasks (ex_build tt) !! k = Some st →
  k = 0%N ∧ st = ex_st 0 [0%N] [0%N] ∨ k = 1%N ∧ st = ex_st 1 [0%N; 1%N] [1%N].
Proof.
  intros Hst%elem_of_list_to_map_2. rewrite elem_of_cons, list_elem_of_singleton in Hst.
  destruct Hst as [[= -> ->]|[= -> ->]]; auto.
Qed.

Lemma ex_buildable G tt : @task_type_ok dev_profile G tt → @buildable dev_profile G (ex_build tt).
Proof.
  intros Htt. split; try done.
  - intros k st Hst. simpl in Hst. apply lookup_fmap_Some in Hst as (x & <- & Hx).
    destruct (ex_subtasks tt _ _ Hx) as [[-> ->]|[-> ->]]; (split; [done|]); simpl;
      intros tc Htc; rewrite ?elem_of_cons, elem_of_nil in Htc;
      (assert (tc = 0%N ∨ tc = 1%N) as [-> | ->] by tauto); eexists; reflexivity.
  - intros k x Hx%elem_of_list_to_map_2. rewrite elem_of_cons, list_elem_of_singleton in Hx.
    destruct Hx as [[= -> ->]|[= -> ->]]; split_and!; simpl; try done; apply ex_ui_ok.
  - intros k st tc Hst Htc. destruct (ex_subtasks tt _ _ Hst) as [[-> ->]|[-> ->]];
      apply list_elem_of_singleton in Htc as ->; by eexists.
  - intros k st tc Hst Htc. assert (tc = 0%N ∨ tc = 1%N) as [-> | ->].
    { destruct (ex_subtasks tt _ _ Hst) as [[-> ->]|[-> ->]]; simpl in Htc;
        rewrite ?elem_of_cons, elem_of_nil in Htc; tauto. }
    + exists 0%N, (ex_st 0 [0%N] [0%N]). split; [done|by left].
    + exists 1%N, (ex_st 1 [0%N; 1%N] [1%N]). split; [done|by left].
  - intros k st Hst. destruct (ex_subtasks tt _ _ Hst) as [[-> ->]|[-> ->]]; apply ex_ui_ok.
  - intros x [= <-]. by left.
Qed.

Definition node_fits (x : PathBuf * Node) : bool :=
  match x.2 with
  | RegularFile b =>
      match from_utf8 b with Some c => (2 * (text_len c + 1) <? u64_modulus)%N | None => true end
  | _ => true
  end.
Lemma fits_files (f : LocalFiles) :
  forallb node_fits (map_to_list (@nodes f)) = true → @files_fit f.
Proof.
  intros Hall p c (q & b & Hq & Hc)%(@read_to_string_node f).
  rewrite forallb_forall in Hall. apply N.ltb_lt. apply elem_of_map_to_list, list_elem_of_In in Hq.
  specialize (Hall _ Hq). unfold node_fits in Hall. simpl in Hall. by rewrite Hc in Hall.
Qed.
Lemma ex_files_fit : @files_fit ex_files.
Proof. apply fits_files. vm_compute. reflexivity. Qed.

Lemma ex_searchable tt : @searchable ex_files ex_glob (ex_build tt) ex_eval_config.
Proof.
  split.
  - intros f [->|[->|[]%elem_of_nil]%elem_of_cons]%elem_of_cons; by eexists.
  - intros _. by eexists.
  - intros p _ [[]%elem_of_nil|Hp].
    apply (list_elem_of_fmap (λ n, path_join ex_dir [Normal n])) in Hp as (n & -> & _). by exists n.
  - apply ex_files_fit.
Qed.

Lemma ex_unbuilt : @unbuilt TaskCallback counting_uuids ∅ (EvaluationData_new (path_of_string "/task")).
Proof. by split. Qed.

Lemma ex_graders tt : graders_ok ∅ (bt_grader_map (ex_build tt)).
Proof. intros l d. simpl. by rewrite lookup_empty. Qed.

(** ** Properties *)

(** Building the DAG of a task of any type (batch, communication, interactive),
    with generators, validators, official solution, checker, manager or controller
    of any language, and with the solutions that are found, neither panics nor fails
    to end, and the DAG built is accepted by the server: every input of an execution
    is provided or produced, nothing is cyclic, the identifiers are distinct and the
    callbacks are on executions and files of the DAG. *)
Theorem task_dag_valid `{UuidV4} `{LocalFiles} `{Blake3} `{LanguageManager} `{BuildProfile}
    `{UuidDisplay} `{IterOrder} `{Glob} (G : gset Uuid) (t : BuildTask) (config : EvaluationConfig)
    (s : EvaluationData TaskCallback) :
  buildable G t → graders_ok G (bt_grader_map t) → searchable t config → unbuilt G s →
  match build_dag t config s with
  | (Ret _, s') => check_dag (data (eval_dag s')) (watch_of (eval_dag s')) = Ret (inr tt)
  | (Fail _, _) => True
  | (Panicked _, _) | (OutOfFuel, _) => False
  end.
Proof.
  intros Ht Hm Hs Hb%builds_start.
  assert (wp (build_dag t config) (λ _, builds G [] []) may_fail s) as Hw
    by (eapply wp_build_dag; [done..|]; by intros).
  unfold wp in Hw. destruct (build_dag t config s) as [[] s']; try done.
  destruct (check_dag_spec (data (eval_dag s')) (watch_of (eval_dag s'))) as ([e|[]] & -> & Hr); [|done].
  exfalso. eapply error_reason_invalid; [exact Hr|]. by eapply builds_valid.
Qed.

Lemma task_dag_valid_witness :
  match ex_build_dag ex_batch with
  | (Ret _, s') => @check_dag forward_order (data (eval_dag s')) (watch_of (eval_dag s')) = Ret (inr tt)
  | (Fail _, _) => True
  | (Panicked _, _) | (OutOfFuel, _) => False
  end.
Proof.
  apply (@task_dag_valid counting_uuids ex_files toy_blake3 ex_platform ex_languages dev_profile
    decimal_uuid forward_order ex_glob ∅ ex_batch ex_eval_config).
  - apply ex_buildable, ex_ui_ok.
  - apply ex_graders.
  - apply ex_searchable.
  - apply ex_unbuilt.
Defined.

(** C18: Once the DAG of a task is built, every solution found is evaluated on every
    testcase of every subtask: the DAG has an execution group with the tag of the
    evaluations whose end gives the score of that solution on that testcase, for a
    batch task one of the checker too; there is a score manager for each solution,
    and the input of each testcase is recorded in the task and is a file of the DAG. *)
Theorem every_solution_evaluated `{UuidV4} `{LocalFiles} `{Blake3} `{LanguageManager} `{BuildProfile}
    `{UuidDisplay} `{IterOrder} `{Glob} (G : gset Uuid) (t t' : BuildTask) (config : EvaluationConfig)
    (solutions : list Solution) (sms : list ScoreManager) (s s' : EvaluationData TaskCallback) :
  buildable G t → graders_ok G (bt_grader_map t) → searchable t config → unbuilt G s →
  build_dag t config s = (Ret (t', solutions, sms), s') →
  length sms = length solutions ∧
  ∀ k st tc, bt_subtasks t !! k = Some st → tc ∈ testcases_owned (subtask_info st) →
    (∀ i x, solutions !! i = Some x → evaluated (task_type t) (mkTarget i k tc) s') ∧
    ∃ x f, bt_testcases t' !! tc = Some x ∧ input_file (testcase_info x) = Some f ∧ ready s' f.
Proof.
  intros Ht Hm Hs Hb%builds_start Hrun.
  assert (wp (build_dag t config) (λ r s', built t r.1.2 r.1.1 s' ∧ length r.2 = length r.1.2)
    may_fail s) as Hw by (eapply wp_build_dag; [done..|]; by intros).
  unfold wp in Hw. rewrite Hrun in Hw. destruct Hw as [[Hev Hin _] Hlen]. split; [done|].
  intros k st tc Hk Htc. split; [|by eapply Hin]. intros i x Hx. by apply (Hev k st tc Hk Htc i x).
Qed.


Lemma every_solution_evaluated_witness :
  let s' := (ex_build_dag ex_batch).2 in
  ∃ t' solutions sms, (ex_build_dag ex_batch).1 = Ret (t', solutions, sms) ∧
  length sms = length solutions ∧
  ∀ k st tc, bt_subtasks ex_batch !! k = Some st → tc ∈ testcases_owned (subtask_info st) →
    (∀ i x, solutions !! i = Some x → evaluated (task_type ex_batch) (mkTarget i k tc) s') ∧
    ∃ x f, bt_testcases t' !! tc = Some x ∧ input_file (testcase_info x) = Some f ∧ ready s' f.
Proof.
  assert (is_ret (ex_build_dag ex_batch).1 = true) as Hr by (vm_compute; reflexivity).
  destruct (ex_build_dag ex_batch) as [[[[t' l] sms]| | |] s'] eqn:Hrun; try discriminate Hr.
  exists t', l, sms. split; [reflexivity|].
  apply (@every_solution_evaluated counting_uuids ex_files toy_blake3 ex_platform ex_languages dev_profile
    decimal_uuid forward_order ex_glob ∅ ex_batch t' ex_eval_config l sms
    (EvaluationData_new (path_of_string "/task")) s').
  - apply ex_buildable, ex_ui_ok.
  - apply ex_graders.
  - apply ex_searchable.
  - apply ex_unbuilt.
  - exact Hrun.
Defined.
