(* ===== verification/Peg.v ===== *)
(** * Parsing expression grammars

    The grammars of the files that list the testcases of a task are written for
    [pest]: an expression is run on what is left of the text and either fails or
    consumes a prefix of it; a choice takes the first alternative that succeeds, a
    repetition goes on while its body succeeds, and a rule leaves in the tree a [Pair]
    with the text it consumed and the pairs inside it.  The grammars are in
    [GenGrammar]. *)
From S2P Require Import Prelude Text.

Section peg.
Context {R : Type}.

Inductive Peg : Type :=
  | E_soi
  | E_eoi (r : R)
  | E_any
  | E_range (lo hi : char)
  | E_str (s : text)
  | E_seq (a b : Peg)
  | E_alt (a b : Peg)
  | E_star (a : Peg)
  | E_opt (a : Peg)
  | E_not (a : Peg)
  | E_rule (r : R) (a : Peg).
Definition E_plus (a : Peg) : Peg := E_seq a (E_star a).

#[local] Set Warnings "-register-all".
Inductive Pair : Type :=
  | mkPair (r : R) (start : N) (str : text) (inner : list Pair).
Definition as_rule (p : Pair) : R := let '(mkPair r _ _ _) := p in r.
Definition pair_start (p : Pair) : N := let '(mkPair _ n _ _) := p in n.
Definition pair_str (p : Pair) : text := let '(mkPair _ _ s _) := p in s.
Definition into_inner (p : Pair) : list Pair := let '(mkPair _ _ _ l) := p in l.
(** [as_span().end()]. *)
Definition pair_end (p : Pair) : N := (pair_start p + text_len (pair_str p))%N.

(** A success: the pairs, the text consumed and the rest. *)
Abbreviation Match := (list Pair * text * text)%type.

Fixpoint star_loop (f : N → text → Outcome (option Match)) (fuel : nat) (off : N) (s : text) :
    Outcome (option Match) :=
  match fuel with
  | O => OutOfFuel
  | S fuel =>
      m ← f off s;
      match m with
      | None => Ret (Some ([], [], s))
      | Some (ps, c, r) =>
          m' ← star_loop f fuel (off + text_len c) r;
          Ret (match m' with Some (ps', c', r') => Some (ps ++ ps', c ++ c', r') | None => None end)
      end
  end.

(** The body of a repetition that succeeds consumes something, for the grammars that
    [pest] accepts: one more round than the characters left is enough. *)
Fixpoint eval (e : Peg) (off : N) (s : text) : Outcome (option Match) :=
  match e with
  | E_soi => Ret (if (off =? 0)%N then Some ([], [], s) else None)
  | E_eoi r => Ret (match s with [] => Some ([mkPair r off [] []], [], []) | _ => None end)
  | E_any => Ret (match s with c :: s => Some ([], [c], s) | [] => None end)
  | E_range lo hi =>
      Ret (match s with
           | c :: s => if ((lo <=? c) && (c <=? hi))%N then Some ([], [c], s) else None
           | [] => None
           end)
  | E_str t => Ret (match strip_prefix t s with Some r => Some ([], t, r) | None => None end)
  | E_seq a b =>
      m ← eval a off s;
      match m with
      | None => Ret None
      | Some (ps, c, r) =>
          m' ← eval b (off + text_len c) r;
          Ret (match m' with Some (ps', c', r') => Some (ps ++ ps', c ++ c', r') | None => None end)
      end
  | E_alt a b => m ← eval a off s; match m with Some x => Ret (Some x) | None => eval b off s end
  | E_star a => star_loop (eval a) (S (length s)) off s
  | E_opt a => m ← eval a off s; Ret (Some (default ([], [], s) m))
  | E_not a => m ← eval a off s; Ret (match m with Some _ => None | None => Some ([], [], s) end)
  | E_rule r a =>
      m ← eval a off s;
      Ret (match m with Some (ps, c, t) => Some ([mkPair r off c ps], c, t) | None => None end)
  end.

(** ** Parsing ends *)

(** The expressions that may succeed without consuming anything, and those without a
    repetition of one of them: what [pest] checks of a grammar. *)
Fixpoint nullable (e : Peg) : bool :=
  match e with
  | E_any | E_range _ _ => false
  | E_str t => bool_decide (t = [])
  | E_seq a b => nullable a && nullable b
  | E_alt a b => nullable a || nullable b
  | E_rule _ a => nullable a
  | _ => true
  end.
Fixpoint productive (e : Peg) : bool :=
  match e with
  | E_seq a b | E_alt a b => productive a && productive b
  | E_star a => negb (nullable a) && productive a
  | E_opt a | E_not a | E_rule _ a => productive a
  | _ => true
  end.

Definition consumes (e : Peg) (f : N → text → Outcome (option Match)) : Prop :=
  ∀ off s ps c r, f off s = Ret (Some (ps, c, r)) → s = c ++ r ∧ (nullable e = false → c ≠ []).

Lemma literal_prefix t s r : strip_prefix t s = Some r ↔ s = t ++ r.
Proof.
  revert s. induction t as [|a t IH]; intros s; simpl.
  { split; [by intros [= ->]|by intros ->]. }
  destruct s as [|b s]; [done|]. destruct (decide (a = b)) as [->|]; [rewrite IH|]; naive_solver.
Qed.

Lemma star_consumes e f fuel :
  consumes e f → ∀ off s ps c r, star_loop f fuel off s = Ret (Some (ps, c, r)) → s = c ++ r.
Proof.
  intros Hf. induction fuel as [|fuel IH]; intros off s ps c r; [done|]. cbn.
  destruct (f off s) as [[[[ps1 c1] r1]|]| | |] eqn:H1; cbn; [|by intros [= <- <- <-]|done..].
  apply Hf in H1 as [-> _].
  destruct (star_loop f fuel _ r1) as [[[[ps2 c2] r2]|]| | |] eqn:H2; cbn; [|done..].
  intros [= <- <- <-]. apply IH in H2 as ->. by rewrite app_assoc.
Qed.

Lemma eval_consumes e : consumes e (eval e).
Proof.
  induction e as [|r| | |t|a IHa b IHb|a IHa b IHb|a IHa|a IHa|a IHa|q a IHa];
    intros off s ps c r' Hrun; cbn -[star_loop] in Hrun.
  - destruct (off =? 0)%N; naive_solver.
  - destruct s; naive_solver.
  - destruct s; naive_solver.
  - destruct s as [|x s]; [done|]. destruct (_ && _); naive_solver.
  - destruct (strip_prefix t s) as [r1|] eqn:Hs; [|done].
    simplify_eq. apply literal_prefix in Hs as ->. split; [done|]. cbn.
    intros ?%bool_decide_eq_false. naive_solver.
  - destruct (eval a off s) as [[[[ps1 c1] r1]|]| | |] eqn:H1; cbn in Hrun; try done.
    destruct (eval b _ r1) as [[[[ps2 c2] r2]|]| | |] eqn:H2; cbn in Hrun; try done.
    simplify_eq. apply IHa in H1 as [-> Ha]. apply IHb in H2 as [-> Hb].
    split; [by rewrite app_assoc|]. cbn. intros [Hn|Hn]%andb_false_iff.
    + apply Ha in Hn. by destruct c1.
    + apply Hb in Hn. by destruct c1, c2.
  - destruct (eval a off s) as [[[[ps1 c1] r1]|]| | |] eqn:H1; cbn in Hrun; try done.
    + simplify_eq. apply IHa in H1 as [-> Ha]. split; [done|]. cbn. intros [? _]%orb_false_iff; auto.
    + apply IHb in Hrun as [-> Hb]. split; [done|]. cbn. intros [_ ?]%orb_false_iff; auto.
  - split; [by eapply (star_consumes a)|done].
  - destruct (eval a off s) as [[[[ps1 c1] r1]|]| | |] eqn:H1; cbn in Hrun; simplify_eq; [|done].
    apply IHa in H1 as [-> _]. done.
  - destruct (eval a off s) as [[[[ps1 c1] r1]|]| | |] eqn:H1; cbn in Hrun; simplify_eq. done.
  - destruct (eval a off s) as [[[[ps1 c1] r1]|]| | |] eqn:H1; cbn in Hrun; simplify_eq.
    by apply IHa in H1.
Qed.

Lemma star_total e f fuel :
  nullable e = false → consumes e f → (∀ off s, ∃ m, f off s = Ret m) →
  ∀ off s, length s < fuel → ∃ m, star_loop f fuel off s = Ret (Some m).
Proof.
  intros Hn Hf Htot. induction fuel as [|fuel IH]; intros off s Hlt; [lia|]. cbn.
  destruct (Htot off s) as [[[[ps c] r]|] H1]; rewrite H1; cbn; [|eauto].
  apply Hf in H1 as [-> Hc]. specialize (Hc Hn). rewrite length_app in Hlt.
  destruct (IH (off + text_len c)%N r) as [[[ps2 c2] r2] H2].
  { destruct c; [done|]. simpl in Hlt. lia. }
  rewrite H2. cbn. eauto.
Qed.

Lemma eval_total e off s : productive e = true → ∃ m, eval e off s = Ret m.
Proof.
  revert off s. induction e as [|r| | |t|a IHa b IHb|a IHa b IHb|a IHa|a IHa|a IHa|q a IHa];
    intros off s Hp; cbn -[star_loop] in Hp |- *; try (eexists; reflexivity).
  - apply andb_true_iff in Hp as [Ha Hb]. destruct (IHa off s Ha) as [[[[ps c] r]|] ->]; cbn; [|eauto].
    destruct (IHb (off + text_len c)%N r Hb) as [m ->]. cbn. eauto.
  - apply andb_true_iff in Hp as [Ha Hb]. destruct (IHa off s Ha) as [[m|] ->]; cbn; eauto.
  - apply andb_true_iff in Hp as [Hn Ha]. apply negb_true_iff in Hn.
    destruct (star_total a (eval a) (S (length s)) Hn (eval_consumes a)) with off s as [m Hm];
      [eauto|lia|]. eauto.
  - destruct (IHa off s Hp) as [m ->]. cbn. eauto.
  - destruct (IHa off s Hp) as [m ->]. cbn. eauto.
  - destruct (IHa off s Hp) as [m ->]. cbn. eauto.
Qed.

(** ** What a match is

    [Derives e off s ps c r]: the relation behind [eval], for inversion.  The order
    of a choice and the length of a repetition are forgotten. *)
Inductive Derives : Peg → N → text → list Pair → text → text → Prop :=
  | D_soi off s : Derives E_soi off s [] [] s
  | D_eoi r off : Derives (E_eoi r) off [] [mkPair r off [] []] [] []
  | D_any off c s : Derives E_any off (c :: s) [] [c] s
  | D_range lo hi off c s : (lo ≤ c ≤ hi)%N → Derives (E_range lo hi) off (c :: s) [] [c] s
  | D_str t off s : Derives (E_str t) off (t ++ s) [] t s
  | D_seq a b off s ps1 c1 r1 ps2 c2 r2 :
      Derives a off s ps1 c1 r1 → Derives b (off + text_len c1) r1 ps2 c2 r2 →
      Derives (E_seq a b) off s (ps1 ++ ps2) (c1 ++ c2) r2
  | D_left a b off s ps c r : Derives a off s ps c r → Derives (E_alt a b) off s ps c r
  | D_right a b off s ps c r : Derives b off s ps c r → Derives (E_alt a b) off s ps c r
  | D_star_nil a off s : Derives (E_star a) off s [] [] s
  | D_star_cons a off s ps1 c1 r1 ps2 c2 r2 :
      Derives a off s ps1 c1 r1 → Derives (E_star a) (off + text_len c1) r1 ps2 c2 r2 →
      Derives (E_star a) off s (ps1 ++ ps2) (c1 ++ c2) r2
  | D_some a off s ps c r : Derives a off s ps c r → Derives (E_opt a) off s ps c r
  | D_none a off s : Derives (E_opt a) off s [] [] s
  | D_not a off s : eval a off s = Ret None → Derives (E_not a) off s [] [] s
  | D_rule q a off s ps c r : Derives a off s ps c r → Derives (E_rule q a) off s [mkPair q off c ps] c r.

Lemma star_derives a f fuel :
  (∀ off s ps c r, f off s = Ret (Some (ps, c, r)) → Derives a off s ps c r) →
  ∀ off s ps c r, star_loop f fuel off s = Ret (Some (ps, c, r)) → Derives (E_star a) off s ps c r.
Proof.
  intros Hf. induction fuel as [|fuel IH]; intros off s ps c r; [done|]. cbn.
  destruct (f off s) as [[[[ps1 c1] r1]|]| | |] eqn:H1; cbn; [|intros [= <- <- <-]; constructor|done..].
  destruct (star_loop f fuel _ r1) as [[[[ps2 c2] r2]|]| | |] eqn:H2; cbn; [|done..].
  intros [= <- <- <-]. econstructor; eauto.
Qed.

Lemma eval_derives e off s ps c r : eval e off s = Ret (Some (ps, c, r)) → Derives e off s ps c r.
Proof.
  revert off s ps c r. induction e as [|r| | |t|a IHa b IHb|a IHa b IHb|a IHa|a IHa|a IHa|q a IHa];
    intros off s ps c r' Hrun; cbn -[star_loop] in Hrun.
  - destruct (off =? 0)%N; simplify_eq. constructor.
  - destruct s; simplify_eq. constructor.
  - destruct s; simplify_eq. constructor.
  - destruct s as [|x s]; [done|]. destruct (_ && _) eqn:Hb; simplify_eq.
    apply andb_true_iff in Hb as [?%N.leb_le ?%N.leb_le]. by constructor.
  - destruct (strip_prefix t s) as [r1|] eqn:Hs; simplify_eq. apply literal_prefix in Hs as ->.
    constructor.
  - destruct (eval a off s) as [[[[ps1 c1] r1]|]| | |] eqn:H1; cbn in Hrun; try done.
    destruct (eval b _ r1) as [[[[ps2 c2] r2]|]| | |] eqn:H2; cbn in Hrun; simplify_eq.
    econstructor; eauto.
  - destruct (eval a off s) as [[[[ps1 c1] r1]|]| | |] eqn:H1; cbn in Hrun; simplify_eq.
    + apply D_left; auto.
    + apply D_right; auto.
  - by eapply (star_derives a).
  - destruct (eval a off s) as [[[[ps1 c1] r1]|]| | |] eqn:H1; cbn in Hrun; simplify_eq;
      [apply D_some; auto|apply D_none].
  - destruct (eval a off s) as [[[[ps1 c1] r1]|]| | |] eqn:H1; cbn in Hrun; simplify_eq. by constructor.
  - destruct (eval a off s) as [[[[ps1 c1] r1]|]| | |] eqn:H1; cbn in Hrun; simplify_eq.
    constructor; auto.
Qed.

Lemma derives_app e off s ps c r : Derives e off s ps c r → s = c ++ r.
Proof. induction 1; simplify_eq/=; rewrite <-?app_assoc; done. Qed.
End peg.
Arguments Peg : clear implicits.
Arguments Pair : clear implicits.

(** Inversion of a derivation, down to the rules. *)
Ltac derive_inv :=
  repeat match goal with
  | H : Derives E_soi _ _ _ _ _ |- _ => inversion H; subst; clear H
  | H : Derives (E_eoi _) _ _ _ _ _ |- _ => inversion H; subst; clear H
  | H : Derives E_any _ _ _ _ _ |- _ => inversion H; subst; clear H
  | H : Derives (E_range _ _) _ _ _ _ _ |- _ => inversion H; subst; clear H
  | H : Derives (E_str _) _ _ _ _ _ |- _ => inversion H; subst; clear H
  | H : Derives (E_seq _ _) _ _ _ _ _ |- _ => inversion H; subst; clear H
  | H : Derives (E_plus _) _ _ _ _ _ |- _ => unfold E_plus in H
  | H : Derives (E_alt _ _) _ _ _ _ _ |- _ => inversion H; subst; clear H
  | H : Derives (E_opt _) _ _ _ _ _ |- _ => inversion H; subst; clear H
  | H : Derives (E_not _) _ _ _ _ _ |- _ => inversion H; subst; clear H
  | H : Derives (E_rule _ _) _ _ _ _ _ |- _ => inversion H; subst; clear H
  end.
