(* ===== verification/GenGrammar.v ===== *)
(** * The grammars of [gen/GEN] and [gen/cases.gen]

    [GEN.pest] and [cases.gen.pest] of [task-maker-format/src/ioi/format/italian_yaml],
    rule by rule: a silent rule is the expression alone, the others leave a pair. *)
From S2P Require Import Prelude Text Peg.

Declare Scope peg_scope.
Delimit Scope peg_scope with peg.
Notation "a ⨾ b" := (E_seq a b) (at level 60, right associativity) : peg_scope.
Notation "a ⫽ b" := (E_alt a b) (at level 62, right associativity) : peg_scope.
Abbreviation many := E_star.
Abbreviation many1 := E_plus.
Abbreviation maybe := E_opt.
Abbreviation not_ahead := E_not.
Open Scope peg_scope.

(** ** Built-in and shared rules *)
Section shared.
Context {R : Type}.
Definition lit (s : string) : Peg R := E_str (text_of s).
Definition NEWLINE : Peg R := E_str [10%N] ⫽ E_str [13%N; 10%N] ⫽ E_str [13%N].
Definition ASCII_DIGIT : Peg R := E_range 48 57.
Definition whitespace : Peg R := lit " " ⫽ E_str [9%N].
Definition non_newline : Peg R := not_ahead NEWLINE ⨾ E_any.
Definition spaces : Peg R := many1 whitespace.
Definition word_chars : Peg R := many1 (not_ahead (whitespace ⫽ lit "#") ⨾ non_newline).
End shared.

(** ** [GEN.pest] *)
Inductive GenRule : Type :=
  | G_number | G_word | G_comment | G_risky_comment | G_subtask | G_subtask_name | G_subtask_dep
  | G_copy | G_command | G_empty | G_line | G_file | G_EOI.

Definition gen_number : Peg GenRule := E_rule G_number (many1 ASCII_DIGIT).
Definition gen_word : Peg GenRule := E_rule G_word word_chars.
Definition gen_comment : Peg GenRule :=
  E_rule G_comment ((lit "#" ⨾ spaces ⨾ many non_newline) ⫽ lit "#").
Definition gen_risky_comment : Peg GenRule :=
  E_rule G_risky_comment ((lit "#" ⨾ many non_newline) ⫽ lit "#").
Definition gen_subtask : Peg GenRule :=
  E_rule G_subtask (lit "#ST:" ⨾ many whitespace ⨾ gen_number ⨾ many whitespace).
Definition gen_subtask_name : Peg GenRule :=
  E_rule G_subtask_name (lit "#STNAME:" ⨾ many whitespace ⨾ gen_word ⨾ many whitespace).
Definition gen_subtask_dep : Peg GenRule :=
  E_rule G_subtask_dep (lit "#STDEP:" ⨾ many (many whitespace ⨾ gen_word) ⨾ many whitespace).
Definition gen_copy : Peg GenRule :=
  E_rule G_copy (lit "#COPY:" ⨾ many whitespace ⨾ gen_word ⨾ many whitespace).
Definition gen_command : Peg GenRule :=
  E_rule G_command 
    (not_ahead (lit "#") ⨾ many whitespace ⨾ gen_word ⨾ many (spaces ⨾ gen_word) ⨾ many whitespace).
Definition gen_empty : Peg GenRule := E_rule G_empty (many whitespace).
Definition gen_line : Peg GenRule :=
  E_rule G_line
    ((gen_subtask ⫽ gen_subtask_name ⫽ gen_subtask_dep ⫽ gen_copy ⫽ gen_comment ⫽ gen_command ⫽ gen_empty)
     ⨾ maybe gen_risky_comment).
Definition gen_file : Peg GenRule :=
  E_rule G_file (E_soi ⨾ many (gen_line ⨾ NEWLINE) ⨾ gen_line ⨾ maybe NEWLINE ⨾ E_eoi G_EOI).

(** ** [cases.gen.pest] *)
Inductive CasesRule : Type :=
  | K_number | K_float | K_word | K_rest | K_variable | K_variables_list | K_comp_operator | K_comment
  | K_GEN | K_VAL | K_CONSTRAINT | K_SUBTASK | K_STDEP | K_COPY | K_RUN
  | K_command | K_testcase | K_empty | K_line | K_file | K_EOI.

Definition cases_number : Peg CasesRule := E_rule K_number (maybe (lit "-" ⫽ lit "+") ⨾ many1 ASCII_DIGIT).
Definition cases_float : Peg CasesRule :=
  E_rule K_float (many1 ASCII_DIGIT ⨾ maybe (lit "." ⨾ many1 ASCII_DIGIT)).
Definition cases_word : Peg CasesRule := E_rule K_word word_chars.
Definition cases_rest : Peg CasesRule := E_rule K_rest (many1 (not_ahead (lit "#") ⨾ non_newline)).
Definition cases_variable : Peg CasesRule := E_rule K_variable (lit "$" ⨾ cases_word).
Definition cases_variables_list : Peg CasesRule :=
  E_rule K_variables_list (many (many1 whitespace ⨾ cases_word)).
Definition cases_comp_operator : Peg CasesRule :=
  E_rule K_comp_operator (lit "<=" ⫽ lit "<" ⫽ lit ">=" ⫽ lit ">" ⫽ lit "=").
Definition cases_comment : Peg CasesRule := E_rule K_comment (lit "#" ⨾ many whitespace ⨾ many non_newline).

Definition manager_command (keyword : string) : Peg CasesRule :=
  lit keyword ⨾ many1 whitespace ⨾ cases_word ⨾ maybe (many1 whitespace ⨾ cases_word ⨾ cases_variables_list)
  ⨾ many whitespace.
Definition cases_GEN : Peg CasesRule := E_rule K_GEN (manager_command "GEN").
Definition cases_VAL : Peg CasesRule := E_rule K_VAL (manager_command "VAL").
Definition cases_operand : Peg CasesRule := cases_number ⫽ cases_variable.
Definition cases_CONSTRAINT : Peg CasesRule :=
  E_rule K_CONSTRAINT
    (lit "CONSTRAINT" ⨾ many1 whitespace ⨾ cases_operand
     ⨾ many1 (many whitespace ⨾ cases_comp_operator ⨾ many whitespace ⨾ cases_operand) ⨾ many whitespace).
Definition cases_SUBTASK : Peg CasesRule :=
  E_rule K_SUBTASK
    (lit "SUBTASK" ⨾ many1 whitespace ⨾ cases_float ⨾ maybe (many1 whitespace ⨾ cases_rest) ⨾ many whitespace).
Definition cases_STDEP : Peg CasesRule :=
  E_rule K_STDEP (lit "STDEP" ⨾ many (many1 whitespace ⨾ cases_word) ⨾ many whitespace).
Definition cases_COPY : Peg CasesRule :=
  E_rule K_COPY (lit "COPY" ⨾ many1 whitespace ⨾ cases_rest ⨾ many whitespace).
Definition cases_RUN : Peg CasesRule :=
  E_rule K_RUN (lit "RUN" ⨾ many1 whitespace ⨾ cases_word ⨾ many1 whitespace ⨾ cases_rest).

Definition cases_command : Peg CasesRule :=
  E_rule K_command
    (lit ":" ⨾ many whitespace
     ⨾ (cases_GEN ⫽ cases_VAL ⫽ cases_CONSTRAINT ⫽ cases_SUBTASK ⫽ cases_STDEP ⫽ cases_COPY ⫽ cases_RUN)).
Definition cases_testcase : Peg CasesRule := E_rule K_testcase (not_ahead (lit "#" ⫽ lit ":") ⨾ cases_rest).
Definition cases_empty : Peg CasesRule := E_rule K_empty (many whitespace).
Definition cases_line : Peg CasesRule :=
  E_rule K_line ((cases_comment ⫽ cases_command ⫽ cases_testcase ⫽ cases_empty) ⨾ maybe cases_comment).
Definition cases_file : Peg CasesRule :=
  E_rule K_file (E_soi ⨾ many (cases_line ⨾ NEWLINE) ⨾ cases_line ⨾ maybe NEWLINE ⨾ E_eoi K_EOI).

(** ** Parsing a file

    The parser generated from a grammar, with what the callers do first: the pair of
    the whole file is taken out of the result. *)
Definition parse_file {R} (file : Peg R) (error : string) (content : text) : Outcome (Pair R) :=
  m ← eval file 0 content;
  match m with
  | None => Fail [error]
  | Some (p :: _, _, _) => Ret p
  | Some ([], _, _) => Fail ["Corrupted parser"]
  end.
Definition parse_GEN : text → Outcome (Pair GenRule) := parse_file gen_file "Cannot parse gen/GEN".
Definition parse_cases : text → Outcome (Pair CasesRule) :=
  parse_file cases_file "Cannot parse cases.gen".

(** The lines of a file: the rule of what they have and its text. *)
Definition line_kinds {R} (p : Pair R) : list (R * text) :=
  omap (λ l, head (into_inner l) ≫= λ i, Some (as_rule i, pair_str i)) (into_inner p).

Definition lines (l : list string) : text := join_text newline (text_of <$> l).

Example parse_GEN_ex :
  line_kinds <$> parse_GEN (lines ["#ST: 10 # ten"; "#COPY: a.txt"; "# 1 2"; "1 2#3"; ""; "#STNAME: x"]) =
  Ret [(G_subtask, text_of "#ST: 10 "); (G_copy, text_of "#COPY: a.txt"); (G_comment, text_of "# 1 2");
       (G_command, text_of "1 2"); (G_empty, []); (G_subtask_name, text_of "#STNAME: x")].
Proof. vm_compute. reflexivity. Qed.
Example parse_cases_ex :
  line_kinds <$> parse_cases (lines [": GEN a b $c # d"; ":SUBTASK 4.5 x y"; "  1 2"; " "; ""; ":RUN a 1 2"]) =
  Ret [(K_command, text_of ": GEN a b $c "); (K_command, text_of ":SUBTASK 4.5 x y");
       (K_testcase, text_of "  1 2"); (K_testcase, text_of " "); (K_empty, []); (K_command, text_of ":RUN a 1 2")].
Proof. vm_compute. reflexivity. Qed.
