(* ===== verification/TaskInput.v ===== *)
(** * The files of a task ([task-maker-format/src/lib.rs], [italian_yaml/mod.rs])

    The search of the source files of a task (validator, official solution, checker,
    manager, controller), and the list of subtasks and testcases that the three
    descriptions of the inputs ([cases.gen], [GEN], the files of [input/]) give. *)
From S2P Require Import Prelude Float64 RustOrd Paths StoreKey Dag Text Diagnostics Checks UiMessage Machine.
From S2P Require Import Build Languages SourceFile Judge IoiDag.

(** [u32] addition. *)
Definition u32_modulus : N := (2 ^ 32)%N.
Definition u32_add `{BuildProfile} (a b : N) : Outcome N :=
  if (a + b <? u32_modulus)%N then Ret (a + b)%N
  else if overflow_checks then Panicked "attempt to add with overflow"
  else Ret ((a + b) mod u32_modulus)%N.

Lemma u32_add_Ret `{BuildProfile} a b : (a + b < u32_modulus)%N → u32_add a b = Ret (a + b)%N.
Proof. intros Hlt. unfold u32_add. by apply N.ltb_lt in Hlt as ->. Qed.
(** [Path::with_extension("")]: what is left of the name is read as a component. *)
Definition without_extension (p : PathBuf) : PathBuf :=
  match reverse p with
  | Normal name :: r => reverse r ++ option_list (component_of_piece (bool_decide (r = [])) (file_stem name))
  | _ => p
  end.

(** The [Debug] form of a list of strings (without characters to escape). *)
Definition debug_names (l : list string) : string :=
  "[" +:+ join_string ", " ((λ s, quote +:+ s +:+ quote) <$> l) +:+ "]".

Inductive WriteBinTo : Type :=
  | WB_None
  | WB_WithoutExtension
  | WB_Path (path : PathBuf).

(** ** The task file

    [task.yaml] and [task.yaml.orig], as [serde_yaml] reads them. *)
Inductive ScoreTypeGroupParameters : Type :=
  | GP_List (max_score : f64) (testcases : string)
  | GP_Dict (max_score : f64) (testcases : list string) (always_show_testcases : bool).

Record TaskYAML : Type := mkYAML {
  yaml_name : string;
  yaml_title : string;
  score_type : option TestcaseScoreAggregator;
  score_type_parameters : option (list ScoreTypeGroupParameters);
  n_input : option nat;
  yaml_score_precision : nat;
  primary_language : option string;
  yaml_time_limit : option f64;
  yaml_memory_limit : option N;
  output_only : bool;
  yaml_infile : string;
  yaml_outfile : string;
  difficulty : option N;
  syllabuslevel : option N;
  yaml_num_processes : option N;
  yaml_user_io : UserIo;
  yaml_controller_time_limit : option f64;
  yaml_controller_wall_time_limit : option f64;
  yaml_controller_memory_limit : option N;
  yaml_controller_process_limit : option N;
  yaml_interactive_concurrent : option bool;
  score_mode : option string;
  token_mode : option string;
  public_testcases : option string;
  feedback_level : option string
}.
(** The limits are not optional here; the name is not used. *)
Record TaskYAMLOrig : Type := mkYAMLOrig {
  orig_name : string;
  orig_title : string;
  orig_score_type : option TestcaseScoreAggregator;
  orig_score_precision : nat;
  orig_primary_language : option string;
  orig_time_limit : f64;
  orig_memory_limit : N;
  orig_output_only : bool;
  orig_infile : string;
  orig_outfile : string;
  orig_difficulty : option N;
  orig_syllabuslevel : option N;
  orig_num_processes : option N;
  orig_user_io : UserIo;
  orig_controller_time_limit : option f64;
  orig_controller_wall_time_limit : option f64;
  orig_controller_memory_limit : option N;
  orig_controller_process_limit : option N;
  orig_interactive_concurrent : option bool;
  orig_feedback_level : option string
}.

(** [into_task_yaml]: the name is that of the directory; the limits of the controller
    come from those of the solution. *)
Definition into_task_yaml (o : TaskYAMLOrig) (task_dir : PathBuf) : Outcome TaskYAML :=
  name ← unwrap "called `Option::unwrap()` on a `None` value" (path_file_name task_dir);
  Ret {| yaml_name := name;
         yaml_title := orig_title o;
         score_type := orig_score_type o;
         score_type_parameters := None;
         n_input := None;
         yaml_score_precision := orig_score_precision o;
         primary_language := Some (default "en" (orig_primary_language o));
         yaml_time_limit := Some (orig_time_limit o);
         yaml_memory_limit := Some (orig_memory_limit o);
         output_only := orig_output_only o;
         yaml_infile := orig_infile o;
         yaml_outfile := orig_outfile o;
         difficulty := orig_difficulty o;
         syllabuslevel := orig_syllabuslevel o;
         yaml_num_processes := orig_num_processes o;
         yaml_user_io := orig_user_io o;
         yaml_controller_time_limit :=
           Some (default (f64_add (orig_time_limit o) f64_one) (orig_controller_time_limit o));
         yaml_controller_wall_time_limit :=
           Some (default (f64_add (f64_mul (default (orig_time_limit o) (orig_controller_time_limit o))
                                     (f64_of_Z 3)) f64_one)
                   (orig_controller_wall_time_limit o));
         yaml_controller_memory_limit :=
           Some (default (orig_memory_limit o) (orig_controller_memory_limit o));
         yaml_controller_process_limit := Some (default 200%N (orig_controller_process_limit o));
         yaml_interactive_concurrent := Some (default true (orig_interactive_concurrent o));
         score_mode := Some "max_subtask";
         token_mode := Some "disabled";
         public_testcases := Some "all";
         feedback_level := Some (default "full" (orig_feedback_level o)) |}.

(** ** The entries of a description *)
Inductive TaskInputEntry : Type :=
  | TI_Subtask (st : BuildSubtask)
  | TI_Testcase (tc : BuildTestcase).

(** [SubtaskInfo { id, max_score, .. }], [TestcaseInfo::new]. *)
Definition new_subtask (id : SubtaskId) (name description : option text) (score : f64)
    (span : option CodeSpan) (default : bool) (validator : InputValidator) : BuildSubtask :=
  mkBuildSubtask (mkSubtask id name score [] [] span default [] false) description validator.
Definition TestcaseInfo_new (id : TestcaseId) (input : InputGenerator) (output : OutputGenerator) :
    BuildTestcase :=
  mkBuildTestcase (mkTestcase id None None) input output.
Definition set_dependencies (l : list SubtaskId) (st : BuildSubtask) : BuildSubtask :=
  let '(mkBuildSubtask (mkSubtask i n s tcs own sp d _ sh) de v) := st in
  mkBuildSubtask (mkSubtask i n s tcs own sp d l sh) de v.
Definition set_name (name : text) (st : BuildSubtask) : BuildSubtask :=
  let '(mkBuildSubtask (mkSubtask i _ s tcs own sp d l sh) de v) := st in
  mkBuildSubtask (mkSubtask i (Some name) s tcs own sp d l sh) de v.
Definition set_validator (v : InputValidator) (st : BuildSubtask) : BuildSubtask :=
  mkBuildSubtask (subtask_info st) (subtask_description st) v.

(** [(0..n).collect()]. *)
Definition id_range (n : N) : list N := N.of_nat <$> seq 0 (N.to_nat n).

(** The names of the dependencies of a subtask, as identifiers.  The same loop ends the
    parsing of [GEN] and that of [cases.gen]. *)
Fixpoint resolve_names (ids : gmap text SubtaskId) (subtasks : SubtaskId) (acc : list SubtaskId)
    (deps : list text) : Outcome (list SubtaskId) :=
  match deps with
  | [] => Ret acc
  | dep :: deps =>
      if decide (dep = text_of "*") then resolve_names ids subtasks (id_range subtasks) deps
      else match ids !! dep with
           | None => Fail ["Unknown subtask name: " +:+ string_of_text dep]
           | Some id => resolve_names ids subtasks (acc ++ [id]) deps
           end
  end.
(** [Vec::dedup] on what [sort_unstable] leaves. *)
Fixpoint dedup (l : list N) : list N :=
  match l with
  | [] => []
  | x :: l => match dedup l with
              | y :: l' => if decide (x = y) then y :: l' else x :: y :: l'
              | [] => [x]
              end
  end.
Definition resolve_entry (ids : gmap text SubtaskId) (deps : gmap SubtaskId (list text))
    (subtasks : SubtaskId) (e : TaskInputEntry) : Outcome TaskInputEntry :=
  match e with
  | TI_Testcase _ => Ret e
  | TI_Subtask st =>
      match deps !! subtask_id (subtask_info st) with
      | None => Ret e
      | Some names =>
          l ← resolve_names ids subtasks (subtask_dependencies (subtask_info st)) names;
          Ret (TI_Subtask (set_dependencies (dedup (sorted l)) st))
      end
  end.
Definition resolve_dependencies (ids : gmap text SubtaskId) (deps : gmap SubtaskId (list text))
    (subtasks : SubtaskId) : list TaskInputEntry → Outcome (list TaskInputEntry) :=
  try_map (resolve_entry ids deps subtasks).

Section search.
Context `{UuidV4} `{LocalFiles} `{Blake3} `{LanguageManager} `{BuildProfile} `{Glob}.
Abbreviation Eval := (M (EvaluationData TaskCallback)).

(** ** [find_source_file] *)
Definition source_at (base : PathBuf) (description_prefix : string) (grader_map : option GraderMap)
    (write : WriteBinTo) (path : PathBuf) : Eval (list UiSourceFile) :=
  if path_exists path && bool_decide (is_Some (detect_language path)) then
    let write_bin_to := match write with
      | WB_None => None
      | WB_WithoutExtension => Some (without_extension path)
      | WB_Path p => Some (path_join base p)
      end in
    let name := default path (path_strip_prefix base path) in
    source ← UiSourceFile_new path base (description_prefix +:+ " " +:+ path_to_string name)
               grader_map write_bin_to;
    source ← lift (unwrap "called `Option::unwrap()` on a `None` value" source);
    mret [source]
  else mret [].
Fixpoint sources_at (base : PathBuf) (description_prefix : string) (grader_map : option GraderMap)
    (write : WriteBinTo) (paths : list PathBuf) : Eval (list UiSourceFile) :=
  match paths with
  | [] => mret []
  | p :: paths =>
      x ← source_at base description_prefix grader_map write p;
      rest ← sources_at base description_prefix grader_map write paths;
      mret (x ++ rest)
  end.
Definition find_source_file (cwd : PathBuf) (patterns : list string) (base : PathBuf)
    (description_prefix : string) (grader_map : option GraderMap) (write : WriteBinTo) :
    Eval (list UiSourceFile) :=
  paths ← lift (list_files cwd patterns);
  sources_at base description_prefix grader_map write paths.

(** At most one source file. *)
Definition at_most_one (what : string) (l : list UiSourceFile) : Eval (option UiSourceFile) :=
  match l with
  | [] => mret None
  | [x] => mret (Some x)
  | _ =>
      names ← lift (try_map (λ x, sf_name (source_base x)) l);
      bail ("Multiple " +:+ what +:+ " found: " +:+ debug_names names)
  end.

(** ** The parts of a task that are source files *)

(** [detect_validator]: the validator found, and the function returned. *)
Definition detect_validator (task_dir : PathBuf) : Eval (option UiSourceFile) :=
  validators ← find_source_file task_dir
    ["gen/validator.*"; "gen/valida.*"; "gen/validator"; "gen/valida"] task_dir
    "Input file validator at" None (WB_Path (path_of_string "bin/validator"));
  at_most_one "validators" validators.
Definition validator_of (validator : option UiSourceFile) (st : option SubtaskId) :
    Outcome InputValidator :=
  match validator with
  | Some validator =>
      n ← match st with Some x => u32_add x 1 | None => Ret 0%N end;
      Ret (IV_Custom validator [TM_VALIDATION_FILE_NAME; pretty n])
  | None => Ret IV_AssumeValid
  end.

(** [detect_output_generator], in the same way. *)
Definition detect_output_generator (task_dir : PathBuf) (grader_map : GraderMap) :
    Eval (option UiSourceFile) :=
  official_solutions ← find_source_file task_dir
    ["sol/solution.*"; "sol/soluzione.*"; "sol/solution"; "sol/soluzione"] task_dir
    "Official solution at" (Some grader_map) (WB_Path (path_of_string "bin/official_solution"));
  at_most_one "official solutions" official_solutions.
Definition output_generator_of (solution : option UiSourceFile) (task_dir : PathBuf) (tc : TestcaseId) :
    OutputGenerator :=
  match solution with
  | Some solution => OG_Custom solution []
  | None => OG_StaticFile (path_join (path_join task_dir [Normal "output"])
                             [Normal ("output" +:+ pretty tc +:+ ".txt")])
  end.

(** [copy_exe], [link_static] on the source file of [task-maker-format]. *)
Definition standalone (sf : UiSourceFile) : UiSourceFile :=
  mkUiSourceFile (set_link_static (set_copy_exe (source_base sf))) (source_description sf).

Definition parse_batch_task_data (task_dir : PathBuf) (grader_map : GraderMap) : Eval TaskType :=
  checkers ← find_source_file task_dir ["check/checker.*"; "cor/correttore.*"] task_dir
    "Checker at" None WB_WithoutExtension;
  checker ← at_most_one "checkers" checkers;
  _ ← with_context "Failed to detect output generator" (detect_output_generator task_dir grader_map);
  mret (TT_Batch match checker with
                 | Some c => Checker_Custom (standalone c)
                 | None => Checker_WhiteDiff
                 end).

Definition parse_interactive_task_data (task_dir : PathBuf) (yaml : TaskYAML) : Eval (option TaskType) :=
  controllers ← find_source_file task_dir ["check/controller.*"; "cor/controller.*"] task_dir
    "Interactive controller at" None WB_WithoutExtension;
  controller ← at_most_one "controllers" controllers;
  mret (match controller with
        | None => None
        | Some c => Some (TT_Interactive (mkInteractive (standalone c)
            (yaml_controller_time_limit yaml) (yaml_controller_wall_time_limit yaml)
            (yaml_controller_memory_limit yaml) (yaml_controller_process_limit yaml)
            (yaml_interactive_concurrent yaml)))
        end).
Definition parse_communication_task_data (task_dir : PathBuf) (yaml : TaskYAML) : Eval (option TaskType) :=
  managers ← find_source_file task_dir ["check/manager.*"; "cor/manager.*"] task_dir
    "Communication manager at" None WB_WithoutExtension;
  manager ← at_most_one "managers" managers;
  mret (match manager with
        | None => None
        | Some m => Some (TT_Communication (mkCommunication (standalone m)
            (default 1%N (yaml_num_processes yaml)) (yaml_user_io yaml)))
        end).

(** ** The files of [input/] ([static_inputs.rs])

    [StaticInputIter], collected: [next] after the first call. *)
Fixpoint static_testcases (fuel : nat) (path : PathBuf) (get_output_gen : TestcaseId → OutputGenerator)
    (index : N) : Outcome (list TaskInputEntry) :=
  match fuel with
  | O => OutOfFuel
  | S fuel =>
      let id := (index - 1)%N in
      let p := path_join path [Normal ("input" +:+ pretty id +:+ ".txt")] in
      if path_exists p then
        index ← u32_add index 1;
        rest ← static_testcases fuel path get_output_gen index;
        Ret (TI_Testcase (TestcaseInfo_new id (IG_StaticFile p) (get_output_gen id)) :: rest)
      else Ret []
  end.
Definition static_inputs (fuel : nat) (task_dir : PathBuf)
    (get_validator : option SubtaskId → Outcome InputValidator)
    (get_output_gen : TestcaseId → OutputGenerator) : Outcome (list TaskInputEntry) :=
  v ← get_validator (Some 0%N);
  rest ← static_testcases fuel (path_join task_dir [Normal "input"]) get_output_gen 1;
  Ret (TI_Subtask (new_subtask 0 (Some (text_of "static-testcases")) None (f64_of_Z 100) None true v) :: rest).
End search.

(** A language is detected from the name of the file. *)
Lemma detect_language_name `{LanguageManager} p l : detect_language p = Some l → is_Some (path_file_name p).
Proof.
  unfold detect_language, path_extension. destruct (path_file_name p); [intros _; by eexists|]. simpl.
  intros Hl. apply head_Some_elem_of, list_elem_of_filter in Hl as [Hin _].
  destruct l; unfold extensions in Hin; simpl in Hin; set_solver.
Qed.
