(* ===== verification/CasesGen.v ===== *)
(** * [gen/cases.gen] ([italian_yaml/cases_gen.rs])

    The parser of the file that lists the generators, the validators, the constraints,
    the subtasks and the testcases of a task, and the [gen/GEN] that is written from it
    for the other programs.  The texts come from the pairs of the grammar
    ([GenGrammar]). *)
From S2P Require Import Prelude Float64 RustOrd Paths StoreKey Dag Text Diagnostics Checks UiMessage Machine.
From S2P Require Import FloatText Build Languages SourceFile Judge IoiDag.
From S2P Require Import Peg GenGrammar TaskInput.

(** [String] to the characters of its text, [i64::from_str]. *)
Definition str_text (s : string) : text := from_utf8_lossy (String.list_byte_of_string s).
Definition parse_i64 (s : text) : option Z :=
  let '(neg, ds) := split_sign s in
  if bool_decide (ds ≠ []) && forallb is_digit ds then
    let v := (if neg then - digits_value ds else digits_value ds)%Z in
    if ((- 2 ^ 63 <=? v) && (v <? 2 ^ 63))%Z then Some v else None
  else None.
(** [str::contains]. *)
Fixpoint text_contains (p s : text) : bool :=
  bool_decide (is_Some (strip_prefix p s)) ||
  match s with [] => false | _ :: s => text_contains p s end.

(** ** Managers and constraints *)
Record Manager : Type := mkManager {
  manager_source : UiSourceFile;
  manager_args : list string
}.

Inductive ConstraintOperand : Type :=
  | CO_Constant (k : Z)
  | CO_Variable (name : string).
Inductive ConstraintOperator : Type := Op_Less | Op_LessEqual | Op_Greater | Op_GreaterEqual | Op_Equal.
Record Constraint : Type := mkConstraint {
  operands : list ConstraintOperand;
  operators : list ConstraintOperator
}.

Abbreviation Variables := (gmap string string) (only parsing).

Definition operator_is_valid (op : ConstraintOperator) (lhs rhs : Z) : bool :=
  match op with
  | Op_Less => lhs <? rhs
  | Op_LessEqual => lhs <=? rhs
  | Op_Equal => lhs =? rhs
  | Op_Greater => rhs <? lhs
  | Op_GreaterEqual => rhs <=? lhs
  end%Z.
Definition operator_from_str (s : text) : Outcome ConstraintOperator :=
  if decide (s = text_of "<") then Ret Op_Less
  else if decide (s = text_of "<=") then Ret Op_LessEqual
  else if decide (s = text_of ">") then Ret Op_Greater
  else if decide (s = text_of ">=") then Ret Op_GreaterEqual
  else if decide (s = text_of "=") then Ret Op_Equal
  else Fail ["Invalid operator: " +:+ string_of_text s].
Definition operator_to_string (op : ConstraintOperator) : string :=
  match op with
  | Op_Less => "<" | Op_LessEqual => "<=" | Op_Greater => ">" | Op_GreaterEqual => ">=" | Op_Equal => "="
  end.

(** The digits and the sign of a number are ASCII: its bytes are its characters. *)
Definition get_val (vars : Variables) (o : ConstraintOperand) : option Z :=
  match o with
  | CO_Constant k => Some k
  | CO_Variable name => v ← vars !! name; parse_i64 (text_of v)
  end.
Definition operand_to_string (o : ConstraintOperand) : string :=
  match o with CO_Constant k => pretty k | CO_Variable v => "$" +:+ v end.

(** [Constraint::is_valid]: the loop over the operators and the operands after the
    first one. *)
Fixpoint chain_is_valid (vars : Variables) (last : Z) (l : list (ConstraintOperator * ConstraintOperand)) :
    option bool :=
  match l with
  | [] => Some true
  | (op, o) :: l =>
      this ← get_val vars o;
      if operator_is_valid op last this then chain_is_valid vars this l else Some false
  end.
Definition constraint_is_valid (c : Constraint) (vars : Variables) : Outcome (option bool) :=
  match operands c with
  | [] => Panicked "index out of bounds"
  | first :: rest =>
      Ret (last ← get_val vars first; chain_is_valid vars last (zip (operators c) rest))
  end.
(** The [Debug] form. *)
Definition constraint_to_string (c : Constraint) : Outcome string :=
  match operands c with
  | [] => Panicked "index out of bounds"
  | first :: rest =>
      Ret (foldl (λ s x, s +:+ " " +:+ operator_to_string x.1 +:+ " " +:+ operand_to_string x.2)
             (operand_to_string first) (zip (operators c) rest))
  end.

(** ** The state of the parser

    [machine] is the state of the program outside of the parser, where the cells of
    the source files are allocated. *)
Record CasesGen : Type := mkCasesGen {
  cg_task_dir : PathBuf;
  cg_get_output_gen : TestcaseId → OutputGenerator;
  cg_file_path : PathBuf;
  cg_file_content : text;
  cg_result : list TaskInputEntry;
  cg_constraints : list Constraint;
  cg_subtask_constraints : list (list Constraint);
  cg_generators : gmap text Manager;
  cg_validators : gmap text Manager;
  cg_default_generator : option text;
  cg_default_validator : option text;
  cg_current_generator : option text;
  cg_subtask_id : SubtaskId;
  cg_subtask_name : option text;
  cg_st_name_to_id : gmap text SubtaskId;
  cg_st_deps : gmap SubtaskId (list text);
  cg_testcase_id : TestcaseId;
  cg_machine : EvaluationData TaskCallback
}.
Definition set_cg_result x (c : CasesGen) : CasesGen :=
  mkCasesGen (cg_task_dir c) (cg_get_output_gen c) (cg_file_path c) (cg_file_content c) x
    (cg_constraints c) (cg_subtask_constraints c) (cg_generators c) (cg_validators c)
    (cg_default_generator c) (cg_default_validator c) (cg_current_generator c) (cg_subtask_id c)
    (cg_subtask_name c) (cg_st_name_to_id c) (cg_st_deps c) (cg_testcase_id c) (cg_machine c).
Definition set_cg_constraints x (c : CasesGen) : CasesGen :=
  mkCasesGen (cg_task_dir c) (cg_get_output_gen c) (cg_file_path c) (cg_file_content c) (cg_result c) x
    (cg_subtask_constraints c) (cg_generators c) (cg_validators c) (cg_default_generator c)
    (cg_default_validator c) (cg_current_generator c) (cg_subtask_id c) (cg_subtask_name c)
    (cg_st_name_to_id c) (cg_st_deps c) (cg_testcase_id c) (cg_machine c).
Definition set_cg_subtask_constraints x (c : CasesGen) : CasesGen :=
  mkCasesGen (cg_task_dir c) (cg_get_output_gen c) (cg_file_path c) (cg_file_content c) (cg_result c)
    (cg_constraints c) x (cg_generators c) (cg_validators c) (cg_default_generator c)
    (cg_default_validator c) (cg_current_generator c) (cg_subtask_id c) (cg_subtask_name c)
    (cg_st_name_to_id c) (cg_st_deps c) (cg_testcase_id c) (cg_machine c).
Definition set_cg_generators x (c : CasesGen) : CasesGen :=
  mkCasesGen (cg_task_dir c) (cg_get_output_gen c) (cg_file_path c) (cg_file_content c) (cg_result c)
    (cg_constraints c) (cg_subtask_constraints c) x (cg_validators c) (cg_default_generator c)
    (cg_default_validator c) (cg_current_generator c) (cg_subtask_id c) (cg_subtask_name c)
    (cg_st_name_to_id c) (cg_st_deps c) (cg_testcase_id c) (cg_machine c).
Definition set_cg_validators x (c : CasesGen) : CasesGen :=
  mkCasesGen (cg_task_dir c) (cg_get_output_gen c) (cg_file_path c) (cg_file_content c) (cg_result c)
    (cg_constraints c) (cg_subtask_constraints c) (cg_generators c) x (cg_default_generator c)
    (cg_default_validator c) (cg_current_generator c) (cg_subtask_id c) (cg_subtask_name c)
    (cg_st_name_to_id c) (cg_st_deps c) (cg_testcase_id c) (cg_machine c).
Definition set_cg_default_generator x (c : CasesGen) : CasesGen :=
  mkCasesGen (cg_task_dir c) (cg_get_output_gen c) (cg_file_path c) (cg_file_content c) (cg_result c)
    (cg_constraints c) (cg_subtask_constraints c) (cg_generators c) (cg_validators c) x
    (cg_default_validator c) (cg_current_generator c) (cg_subtask_id c) (cg_subtask_name c)
    (cg_st_name_to_id c) (cg_st_deps c) (cg_testcase_id c) (cg_machine c).
Definition set_cg_default_validator x (c : CasesGen) : CasesGen :=
  mkCasesGen (cg_task_dir c) (cg_get_output_gen c) (cg_file_path c) (cg_file_content c) (cg_result c)
    (cg_constraints c) (cg_subtask_constraints c) (cg_generators c) (cg_validators c)
    (cg_default_generator c) x (cg_current_generator c) (cg_subtask_id c) (cg_subtask_name c)
    (cg_st_name_to_id c) (cg_st_deps c) (cg_testcase_id c) (cg_machine c).
Definition set_cg_current_generator x (c : CasesGen) : CasesGen :=
  mkCasesGen (cg_task_dir c) (cg_get_output_gen c) (cg_file_path c) (cg_file_content c) (cg_result c)
    (cg_constraints c) (cg_subtask_constraints c) (cg_generators c) (cg_validators c)
    (cg_default_generator c) (cg_default_validator c) x (cg_subtask_id c) (cg_subtask_name c)
    (cg_st_name_to_id c) (cg_st_deps c) (cg_testcase_id c) (cg_machine c).
Definition set_cg_subtask_id x (c : CasesGen) : CasesGen :=
  mkCasesGen (cg_task_dir c) (cg_get_output_gen c) (cg_file_path c) (cg_file_content c) (cg_result c)
    (cg_constraints c) (cg_subtask_constraints c) (cg_generators c) (cg_validators c)
    (cg_default_generator c) (cg_default_validator c) (cg_current_generator c) x
    (cg_subtask_name c) (cg_st_name_to_id c) (cg_st_deps c) (cg_testcase_id c) (cg_machine c).
Definition set_cg_subtask_name x (c : CasesGen) : CasesGen :=
  mkCasesGen (cg_task_dir c) (cg_get_output_gen c) (cg_file_path c) (cg_file_content c) (cg_result c)
    (cg_constraints c) (cg_subtask_constraints c) (cg_generators c) (cg_validators c)
    (cg_default_generator c) (cg_default_validator c) (cg_current_generator c) (cg_subtask_id c) x
    (cg_st_name_to_id c) (cg_st_deps c) (cg_testcase_id c) (cg_machine c).
Definition set_cg_st_name_to_id x (c : CasesGen) : CasesGen :=
  mkCasesGen (cg_task_dir c) (cg_get_output_gen c) (cg_file_path c) (cg_file_content c) (cg_result c)
    (cg_constraints c) (cg_subtask_constraints c) (cg_generators c) (cg_validators c)
    (cg_default_generator c) (cg_default_validator c) (cg_current_generator c) (cg_subtask_id c)
    (cg_subtask_name c) x (cg_st_deps c) (cg_testcase_id c) (cg_machine c).
Definition set_cg_st_deps x (c : CasesGen) : CasesGen :=
  mkCasesGen (cg_task_dir c) (cg_get_output_gen c) (cg_file_path c) (cg_file_content c) (cg_result c)
    (cg_constraints c) (cg_subtask_constraints c) (cg_generators c) (cg_validators c)
    (cg_default_generator c) (cg_default_validator c) (cg_current_generator c) (cg_subtask_id c)
    (cg_subtask_name c) (cg_st_name_to_id c) x (cg_testcase_id c) (cg_machine c).
Definition set_cg_testcase_id x (c : CasesGen) : CasesGen :=
  mkCasesGen (cg_task_dir c) (cg_get_output_gen c) (cg_file_path c) (cg_file_content c) (cg_result c)
    (cg_constraints c) (cg_subtask_constraints c) (cg_generators c) (cg_validators c)
    (cg_default_generator c) (cg_default_validator c) (cg_current_generator c) (cg_subtask_id c)
    (cg_subtask_name c) (cg_st_name_to_id c) (cg_st_deps c) x (cg_machine c).
Definition set_cg_machine x (c : CasesGen) : CasesGen :=
  mkCasesGen (cg_task_dir c) (cg_get_output_gen c) (cg_file_path c) (cg_file_content c) (cg_result c)
    (cg_constraints c) (cg_subtask_constraints c) (cg_generators c) (cg_validators c)
    (cg_default_generator c) (cg_default_validator c) (cg_current_generator c) (cg_subtask_id c)
    (cg_subtask_name c) (cg_st_name_to_id c) (cg_st_deps c) (cg_testcase_id c) x.

Section cases.
Context `{UuidV4} `{LocalFiles} `{Blake3} `{LanguageManager} `{BuildProfile} `{IterOrder}.
Abbreviation Cases := (M CasesGen).

(** [shell_words::split(..).with_context(..)]. *)
Definition split_words (context : string) (line : text) : Outcome (list string) :=
  match shell_words (string_of_text line) with Some l => Ret l | None => Fail [context] end.
(** [line[i].as_str()]. *)
Definition nth_str (line : list (Pair CasesRule)) (i : nat) : Outcome text :=
  p ← unwrap "index out of bounds" (line !! i); Ret (pair_str p).

(** ** Variables *)
Definition u32_sub (a b : N) : Outcome N :=
  if (b <=? a)%N then Ret (a - b)%N
  else if overflow_checks then Panicked "attempt to subtract with overflow"
  else Ret (a + u32_modulus - b)%N.
Definition get_auto_variables (c : CasesGen) : Outcome Variables :=
  n ← u32_sub (cg_subtask_id c) 1;
  let vars := <["ST_NUM" := pretty n]> (<["INPUT" := TM_VALIDATION_FILE_NAME]> ∅) in
  Ret (match cg_subtask_name c with Some name => <["ST_NAME" := string_of_text name]> vars | None => vars end).
Definition get_variables (c : CasesGen) (definition args : list string) : Outcome Variables :=
  vars ← get_auto_variables c;
  Ret (foldl (λ vars x, <[x.1 := x.2]> vars) vars (zip definition args)).

(** ** [get_validator] *)
Definition strip_dollar (s : string) : string :=
  match s with String.String a r => if decide (a = Ascii.ascii_of_N 36) then r else s | _ => s end.
Definition validator_arg (variables : Variables) (arg : string) : Outcome string :=
  match variables !! strip_dollar arg with
  | Some v => Ret v
  | None => Fail ["Unknown variable in validator arguments: $" +:+ strip_dollar arg]
  end.
Definition get_validator (c : CasesGen) (validator : option text) (variables : Variables) :
    Outcome InputValidator :=
  match validator with
  | None => Ret IV_AssumeValid
  | Some name =>
      match cg_validators c !! name with
      | None => Fail ["unknown validator '" +:+ string_of_text name +:+ "'"]
      | Some v =>
          args ← match manager_args v with
                 | [] => input ← index variables "INPUT"; st_num ← index variables "ST_NUM"; Ret [input; st_num]
                 | args => try_map (validator_arg variables) args
                 end;
          Ret (IV_Custom (manager_source v) args)
      end
  end.

(** ** Testcases *)
Definition newline_string : string := String.String (Ascii.ascii_of_N 10) EmptyString.
Definition violation (line : text) (constr : string) (vars : Variables) : string :=
  foldl (λ s x, s +:+ newline_string +:+ "  $" +:+ x.1 +:+ " = " +:+ x.2)
    ("Testcase '" +:+ string_of_text line +:+ "' violates constraint " +:+ constr +:+ newline_string +:+ "With:")
    (map_iter vars).
Fixpoint check_constraints (line : text) (vars : Variables) (l : list Constraint) : Outcome unit :=
  match l with
  | [] => Ret tt
  | constr :: l =>
      valid ← constraint_is_valid constr vars;
      match valid with
      | Some false => s ← constraint_to_string constr; Fail [violation line s vars]
      | _ => check_constraints line vars l
      end
  end.

(** The testcase that [parse_testcase] and [parse_copy] add. *)
Definition push_testcase (generator : InputGenerator) : Cases unit :=
  c ← get_st;
  _ ← modify (set_cg_result (cg_result c ++
        [TI_Testcase (TestcaseInfo_new (cg_testcase_id c) generator (cg_get_output_gen c (cg_testcase_id c)))]));
  n ← lift (u32_add (cg_testcase_id c) 1);
  modify (set_cg_testcase_id n).

Definition parse_testcase (line : text) (current_generator : option text) : Cases unit :=
  c ← get_st;
  if (cg_subtask_id c =? 0)%N then bail "Cannot add a testcase outside a subtask"
  else
    name ← match current_generator with
           | Some g => mret g
           | None => bail "Cannot generate testcase: no default generator set"
           end;
    args ← lift (split_words ("Invalid command arguments for testcase '" +:+ string_of_text line +:+ "'") line);
    generator ← lift (match cg_generators c !! name with
                      | Some g => Ret g | None => Fail ["invalid current generator"] end);
    variables ← lift (get_variables c (manager_args generator) args);
    local ← lift (unwrap "called `Option::unwrap()` on a `None` value" (last (cg_subtask_constraints c)));
    _ ← lift (check_constraints line variables (cg_constraints c ++ local));
    push_testcase (IG_Custom (manager_source generator) args).

(** ** Commands *)
Definition define_gen_val (line : list (Pair CasesRule)) (task_dir : PathBuf) (default : option text)
    (managers : gmap text Manager) (kind : string) :
    M (EvaluationData TaskCallback) (option text * gmap text Manager) :=
  name ← lift (nth_str line 0);
  path ← lift (nth_str line 1);
  let path := path_join task_dir (path_of_text path) in
  if negb (path_exists path) then
    bail ("Cannot add " +:+ kind +:+ " '" +:+ string_of_text name +:+ "': '" +:+ path_to_string path
            +:+ "' does not exists")
  else
    file_name ← lift (match path_file_name path with Some n => Ret n | None => Fail ["invalid file name"] end);
    source ← UiSourceFile_new path task_dir ("The " +:+ kind +:+ " named " +:+ string_of_text name) None
               (Some (path_join (path_join task_dir [Normal "bin"]) [Normal file_name]));
    source ← lift (match source with
                   | Some s => Ret s
                   | None => Fail ["Cannot use " +:+ kind +:+ " '" +:+ path_to_string path
                                     +:+ "': unknown language"]
                   end);
    vars ← lift (nth_str line 2);
    args ← lift (split_words ("Invalid arguments of '" +:+ string_of_text name +:+ "'") vars);
    if bool_decide (is_Some (managers !! name))
    then bail ("Duplicate " +:+ kind +:+ " with name " +:+ string_of_text name)
    else mret (if bool_decide (default = None) || bool_decide (name = text_of "default")
               then Some name else default,
               <[name := mkManager source args]> managers).

Definition parse_gen (line : Pair CasesRule) : Cases unit :=
  c ← get_st;
  let line := into_inner line in
  if decide (length line = 1) then
    name ← lift (nth_str line 0);
    if (cg_subtask_id c =? 0)%N then
      bail ("Cannot set the current generator to '" +:+ string_of_text name +:+ "': outside a subtask")
    else if negb (bool_decide (is_Some (cg_generators c !! name))) then
      bail ("Cannot set the current generator to '" +:+ string_of_text name +:+ "': unknown generator")
    else modify (set_cg_current_generator (Some name))
  else
    r ← zoom cg_machine set_cg_machine
          (define_gen_val line (cg_task_dir c) (cg_default_generator c) (cg_generators c) "generator");
    modify (λ c, set_cg_default_generator r.1 (set_cg_generators r.2 c)).

(** [self.result.last_mut()], when it is a subtask. *)
Definition last_subtask (l : list TaskInputEntry) : option (list TaskInputEntry * BuildSubtask) :=
  match last l with Some (TI_Subtask st) => Some (removelast l, st) | _ => None end.

Definition parse_val (line : Pair CasesRule) : Cases unit :=
  c ← get_st;
  let line := into_inner line in
  if decide (length line = 1) then
    if (cg_subtask_id c =? 0)%N then bail "Cannot set the default validator outside a subtask"
    else
      name ← lift (nth_str line 0);
      variables ← lift (get_auto_variables c);
      val ← with_context "Failed to get validator" (lift (get_validator c (Some name) variables));
      match last_subtask (cg_result c) with
      | None => bail "The validator must be set directly after a subtask"
      | Some (before, st) => modify (set_cg_result (before ++ [TI_Subtask (set_validator val st)]))
      end
  else
    r ← zoom cg_machine set_cg_machine
          (define_gen_val line (cg_task_dir c) (cg_default_validator c) (cg_validators c) "validator");
    modify (λ c, set_cg_default_validator r.1 (set_cg_validators r.2 c)).

(** The loop of [parse_constraint]: the constraint so far and its direction ([Some true]
    for less than). *)
Definition operator_direction (op : ConstraintOperator) : option bool :=
  match op with
  | Op_Less | Op_LessEqual => Some true
  | Op_Greater | Op_GreaterEqual => Some false
  | Op_Equal => None
  end.
Definition constraint_item (whole : text) (acc : Constraint * option bool) (item : Pair CasesRule) :
    Outcome (Constraint * option bool) :=
  let '(constr, direction) := acc in
  match as_rule item with
  | K_number =>
      match parse_i64 (pair_str item) with
      | None => Fail ["Invalid integer constant '" +:+ string_of_text (pair_str item) +:+ "' in constraint '"
                        +:+ string_of_text whole +:+ "'"]
      | Some k => Ret (mkConstraint (operands constr ++ [CO_Constant k]) (operators constr), direction)
      end
  | K_variable =>
      v ← unwrap "Invalid parser" (strip_prefix (text_of "$") (pair_str item));
      Ret (mkConstraint (operands constr ++ [CO_Variable (string_of_text v)]) (operators constr), direction)
  | K_comp_operator =>
      op ← outcome_context "Failed to parse contraint operator" (operator_from_str (pair_str item));
      let dir := operator_direction op in
      let direction := match direction with None => dir | Some _ => direction end in
      if bool_decide (dir ≠ None) && bool_decide (direction ≠ dir)
      then Fail ["Malformed constraint: inequality direction must be the same"]
      else Ret (mkConstraint (operands constr) (operators constr ++ [op]), direction)
  | _ => Panicked "internal error: entered unreachable code"
  end.
Fixpoint constraint_items (whole : text) (acc : Constraint * option bool) (l : list (Pair CasesRule)) :
    Outcome (Constraint * option bool) :=
  match l with
  | [] => Ret acc
  | item :: l => acc ← constraint_item whole acc item; constraint_items whole acc l
  end.
Definition build_constraint (line : Pair CasesRule) : Outcome Constraint :=
  r ← constraint_items (pair_str line) (mkConstraint [] [], None) (into_inner line);
  let constr := r.1 in
  if decide (length (operators constr) + 1 ≠ length (operands constr))
  then Fail ["Malformed constraint: invalid number of operators"]
  else if decide (length (operands constr) < 2)
  then Fail ["Malformed constraint: too few operands"]
  else Ret constr.
Definition parse_constraint (line : Pair CasesRule) : Cases unit :=
  constr ← lift (build_constraint line);
  c ← get_st;
  if (cg_subtask_id c =? 0)%N then modify (set_cg_constraints (cg_constraints c ++ [constr]))
  else
    local ← lift (unwrap "called `Option::unwrap()` on a `None` value" (last (cg_subtask_constraints c)));
    modify (set_cg_subtask_constraints
              (removelast (cg_subtask_constraints c) ++ [local ++ [constr]])).

(** [Result::ok]. *)
Definition outcome_ok {A} (m : Outcome A) : Outcome (option A) :=
  match m with
  | Ret a => Ret (Some a)
  | Fail _ => Ret None
  | Panicked s => Panicked s
  | OutOfFuel => OutOfFuel
  end.

(** The name of a subtask is its description without spaces and tabs. *)
Definition subtask_name_of (description : text) : text :=
  filter (λ c, c ≠ 32%N ∧ c ≠ 9%N) description.
Definition register_name (name : option text) : Cases unit :=
  c ← get_st;
  match name with
  | None => mret tt
  | Some name =>
      _ ← modify (set_cg_st_name_to_id (<[name := cg_subtask_id c]> (cg_st_name_to_id c)));
      if bool_decide (is_Some (cg_st_name_to_id c !! name))
      then bail ("Duplicate subtask name '" +:+ string_of_text name +:+ "'") else mret tt
  end.
Definition parse_subtask (line : Pair CasesRule) : Cases unit :=
  let inner := into_inner line in
  _ ← modify (λ c, set_cg_current_generator (cg_default_generator c) c);
  _ ← modify (λ c, set_cg_subtask_constraints (cg_subtask_constraints c ++ [[]]) c);
  c ← get_st;
  score ← lift (nth_str inner 0);
  score ← lift (match parse_f64 score with
                | Some x => Ret x
                | None => Fail ["Invalid subtask score for subtask " +:+ pretty (cg_subtask_id c) +:+ ": "
                                  +:+ string_of_text score]
                end);
  let description := pair_str <$> inner !! 1 in
  let name := subtask_name_of <$> description in
  _ ← modify (set_cg_subtask_name name);
  _ ← register_name name;
  n ← lift (u32_add (cg_subtask_id c) 1);
  _ ← modify (set_cg_subtask_id n);
  c ← get_st;
  id ← lift (u32_sub (cg_subtask_id c) 1);
  span ← lift (outcome_ok (from_str (cg_file_path c) (cg_file_content c) (pair_start line)
                             (pair_end line - pair_start line)));
  variables ← lift (get_auto_variables c);
  validator ← lift (get_validator c (cg_default_validator c) variables);
  modify (set_cg_result (cg_result c ++
            [TI_Subtask (new_subtask id name description score span false validator)])).

(** The body of the loop of [parse_st_dep]. *)
Definition add_st_dep (dep : Pair CasesRule) : Cases unit :=
  c ← get_st;
  match last_subtask (cg_result c) with
  | None => bail ":STDEP must immediately follow a #ST: in gen/GEN"
  | Some (_, st) =>
      let id := subtask_id (subtask_info st) in
      modify (set_cg_st_deps (<[id := default [] (cg_st_deps c !! id) ++ [pair_str dep]]> (cg_st_deps c)))
  end.
Definition parse_st_dep (line : Pair CasesRule) : Cases unit := for_each (into_inner line) add_st_dep.

Definition parse_copy (line : Pair CasesRule) : Cases unit :=
  c ← get_st;
  if (cg_subtask_id c =? 0)%N then bail "Cannot add a COPY testcase outside a subtask"
  else
    p ← lift (match into_inner line with p :: _ => Ret p | [] => Fail ["corrupted parser"] end);
    let path := path_join (cg_task_dir c) (path_of_text (pair_str p)) in
    if negb (path_exists path)
    then bail ("Cannot copy testcase from '" +:+ path_to_string path +:+ "': file not found")
    else push_testcase (IG_StaticFile path).

Definition parse_run (line : Pair CasesRule) : Cases unit :=
  c ← get_st;
  if (cg_subtask_id c =? 0)%N then bail "Cannot add a testcase outside a subtask"
  else
    name ← lift (nth_str (into_inner line) 0);
    args ← lift (nth_str (into_inner line) 1);
    if negb (bool_decide (is_Some (cg_generators c !! name)))
    then bail ("Generator '" +:+ string_of_text name +:+ "' not declared")
    else parse_testcase args (Some name).

Definition parse_command (line : Pair CasesRule) : Cases unit :=
  match as_rule line with
  | K_GEN => with_context "Failed to parse GEN command" (parse_gen line)
  | K_VAL => with_context "Failed to parse VAL command" (parse_val line)
  | K_CONSTRAINT => with_context "Failed to parse CONSTRAINT command" (parse_constraint line)
  | K_SUBTASK => with_context "Failed to parse SUBTASK command" (parse_subtask line)
  | K_STDEP => with_context "Failed to parse STDEP command" (parse_st_dep line)
  | K_COPY => with_context "Failed to parse COPY command" (parse_copy line)
  | K_RUN => with_context "Failed to parse RUN command" (parse_run line)
  | _ => panic "internal error: entered unreachable code"
  end.

(** ** [CasesGen::new] *)
Definition first_inner {R} (p : Pair R) : Outcome (Pair R) :=
  match into_inner p with i :: _ => Ret i | [] => Fail ["Corrupted parser"] end.
Definition parse_line (line : Pair CasesRule) : Cases unit :=
  match as_rule line with
  | K_line =>
      item ← lift (first_inner line);
      match as_rule item with
      | K_command => command ← lift (first_inner item); parse_command command
      | K_testcase => c ← get_st; parse_testcase (pair_str item) (cg_current_generator c)
      | K_comment | K_empty => mret tt
      | _ => panic "internal error: entered unreachable code"
      end
  | K_EOI => mret tt
  | _ => panic "internal error: entered unreachable code"
  end.
Definition finish_cases : Cases unit :=
  c ← get_st;
  entries ← lift (resolve_dependencies (cg_st_name_to_id c) (cg_st_deps c) (cg_subtask_id c) (cg_result c));
  modify (set_cg_result entries).

(** The directory of the task: two levels above the file. *)
Definition task_dir_of (what : string) (path : PathBuf) : Outcome PathBuf :=
  match path_parent path ≫= path_parent with
  | Some p => Ret p
  | None => Fail ["Invalid " +:+ what +:+ " path"]
  end.
Definition CasesGen_new (path : PathBuf) (output_gen : TestcaseId → OutputGenerator) :
    M (EvaluationData TaskCallback) CasesGen := λ machine,
  match (task_dir ← task_dir_of "gen/cases.gen" path;
         content ← match read_to_string path with
                   | Some c => Ret c
                   | None => Fail ["Failed to read " +:+ path_to_string path]
                   end;
         file ← parse_cases content;
         Ret (task_dir, content, file)) with
  | Ret (task_dir, content, file) =>
      let cases := mkCasesGen task_dir output_gen path content [] [] [] ∅ ∅ None None None 0 None ∅ ∅ 0 machine in
      let '(r, cases) := (_ ← for_each (into_inner file) parse_line; finish_cases) cases in
      (_ ← r; Ret cases, cg_machine cases)
  | Fail e => (Fail e, machine)
  | Panicked s => (Panicked s, machine)
  | OutOfFuel => (OutOfFuel, machine)
  end.
Definition get_task_entries (c : CasesGen) : list TaskInputEntry := cg_result c.
End cases.
