(* ===== verification/GenGen.v ===== *)
(** * [gen/GEN] ([italian_yaml/gen_gen.rs], and its writer in [cases_gen.rs])

    The file that lists the subtasks and the testcases for one generator: its parser,
    and [write_gen_gen], that writes one from what [cases.gen] says. *)
From S2P Require Import Prelude Float64 RustOrd Paths StoreKey Dag Text Diagnostics Checks UiMessage Machine.
From S2P Require Import FloatText Build Languages SourceFile Judge IoiDag.
From S2P Require Import Peg GenGrammar TaskInput CasesGen.

(** ** Files that are written

    The files that the loading of a task writes are not among those it reads later. *)
Class WritableFiles : Type := { can_write : PathBuf → bool }.
Abbreviation Written := (list (PathBuf * text)).
Definition write_text `{WritableFiles} (context : string) (path : PathBuf) (content : text) :
    M Written unit :=
  if can_write path then modify (λ l, l ++ [(path, content)]) else bail context.

Definition TM_ALLOW_DELETE_COOKIE : text := text_of "tm-allow-delete".
Definition is_tm_deletable `{LocalFiles} (path : PathBuf) : Outcome bool :=
  match stat path with
  | Some (RegularFile c) => Ret (text_contains TM_ALLOW_DELETE_COOKIE (from_utf8_lossy c))
  | _ => Fail ["Cannot read file " +:+ path_to_string path]
  end.

(** ** [write_gen_gen] *)
Definition line_of_text (s : text) : text := s ++ [newline].
Definition line_of_string (s : string) : text := line_of_text (text_of s).
Definition gen_header : text :=
  line_of_string "# Generated by task-maker. Do not edit!"
  ++ line_of_text (text_of "# " ++ TM_ALLOW_DELETE_COOKIE)
  ++ line_of_string "# Removing or changing the line above will prevent task-maker from touching this file again."
  ++ [newline].
Fixpoint constraint_lines (l : list Constraint) : Outcome text :=
  match l with
  | [] => Ret []
  | c :: l =>
      s ← constraint_to_string c; rest ← constraint_lines l;
      Ret (line_of_text (text_of "# " ++ str_text s) ++ rest)
  end.
Definition entry_lines (c : CasesGen) (e : TaskInputEntry) : Outcome text :=
  match e with
  | TI_Subtask st =>
      let i := subtask_info st in
      constrs ← match cg_subtask_constraints c !! N.to_nat (subtask_id i) with
                | Some l => constraint_lines l
                | None => Ret []
                end;
      Ret ([newline] ++ line_of_text (text_of "# Subtask " ++ text_of (pretty (subtask_id i)))
           ++ line_of_text (text_of "#ST: " ++ f64_display (max_score i))
           ++ match subtask_name i with
              | Some name => line_of_text (text_of "#STNAME: " ++ name)
              | None => []
              end
           ++ constrs)
  | TI_Testcase tc =>
      l ← match input_generator tc with
          | IG_StaticFile path =>
              let p := default path (path_strip_prefix (cg_task_dir c) path) in
              Ret (text_of "#COPY: " ++ str_text (path_to_string p))
          | IG_Custom source args =>
              name ← sf_name (source_base source);
              Ret (str_text name ++ text_of " " ++ str_text (join_string " " args))
          end;
      Ret (line_of_text (text_of "# Testcase " ++ text_of (pretty (testcase_id (testcase_info tc))))
           ++ line_of_text l)
  end.
Fixpoint entries_lines (c : CasesGen) (l : list TaskInputEntry) : Outcome text :=
  match l with
  | [] => Ret []
  | e :: l => s ← entry_lines c e; rest ← entries_lines c l; Ret (s ++ rest)
  end.
Definition gen_text (c : CasesGen) : Outcome text :=
  constrs ← match cg_constraints c with
            | [] => Ret []
            | l => s ← constraint_lines l; Ret (line_of_string "# Constraints:" ++ s)
            end;
  entries ← entries_lines c (cg_result c);
  Ret (gen_header ++ constrs ++ entries).
Definition gen_path (task_dir : PathBuf) : PathBuf := path_join task_dir (path_of_string "gen/GEN").
Definition write_gen_gen `{LocalFiles} `{WritableFiles} (c : CasesGen) : M Written unit :=
  let dest := gen_path (cg_task_dir c) in
  keep ← lift (if path_exists dest then deletable ← is_tm_deletable dest; Ret (negb deletable) else Ret false);
  if keep : bool then mret tt
  else
    gen ← lift (gen_text c);
    write_text "Failed to write gen/GEN" dest gen.

(** ** [cleanup_subtask_name] *)
Inductive GeneralCategory : Type :=
  | ClosePunctuation | ConnectorPunctuation | Control | CurrencySymbol | DashPunctuation
  | DecimalNumber | EnclosingMark | FinalPunctuation | Format | InitialPunctuation | LetterNumber
  | LineSeparator | LowercaseLetter | MathSymbol | ModifierLetter | ModifierSymbol | NonspacingMark
  | OpenPunctuation | OtherLetter | OtherNumber | OtherPunctuation | OtherSymbol | ParagraphSeparator
  | PrivateUse | SpaceSeparator | SpacingMark | Surrogate | TitlecaseLetter | Unassigned
  | UppercaseLetter.
#[export] Instance GeneralCategory_eq_dec : EqDecision GeneralCategory.
Proof. solve_decision. Defined.

(** The crate [unic]: the normal form of a text and the category of a character. *)
Class Unicode : Type := {
  nfkc : text → text;
  general_category : char → GeneralCategory
}.
Definition VALID_SUBTASK_NAME_CHARACTER_CATEGORIES : list GeneralCategory :=
  [LowercaseLetter; ModifierLetter; OtherLetter; TitlecaseLetter; UppercaseLetter; DecimalNumber;
   LetterNumber; SpacingMark; NonspacingMark; ConnectorPunctuation; OtherNumber; DashPunctuation;
   ClosePunctuation; FinalPunctuation; InitialPunctuation; OtherPunctuation; OpenPunctuation;
   CurrencySymbol; ModifierSymbol; MathSymbol; OtherSymbol].

Fixpoint check_name_chars `{Unicode} (fail : string → list string) (l : text) : Outcome unit :=
  match l with
  | [] => Ret tt
  | ch :: l =>
      if (ch =? 42)%N then Fail (fail "must not contain asterisks (*)")
      else if (ch =? 63)%N then Fail (fail "must not contain question marks (?)")
      else if bool_decide (general_category ch ∈ VALID_SUBTASK_NAME_CHARACTER_CATEGORIES)
      then check_name_chars fail l
      else Fail (fail ("contains an invalid character '" +:+ string_of_text [ch] +:+ "'"))
  end.
Definition cleanup_subtask_name `{Unicode} (id : text) : Outcome text :=
  let id := trim id in
  let fail err := ["'" +:+ string_of_text id +:+ "' is not a valid identifier: " +:+ err] in
  let normalized := nfkc id in
  match normalized with
  | [] => Fail (fail "must be non-empty")
  | ch :: _ =>
      if (ch =? 45)%N then Fail (fail "must not start with a dash (-)")
      else _ ← check_name_chars fail normalized; Ret normalized
  end.

(** ** [parse_gen_gen]

    The local variables of the function, which the loop over the lines updates. *)
Record GenGen : Type := mkGenGen {
  testcase_count : TestcaseId;
  gg_subtask_id : SubtaskId;
  gg_entries : list TaskInputEntry;
  gg_st_name_to_id : gmap text SubtaskId;
  gg_st_deps : gmap SubtaskId (list text);
  default_subtask : option BuildSubtask
}.

Section gen_gen.
Context `{UuidV4} `{LocalFiles} `{Blake3} `{LanguageManager} `{BuildProfile} `{Glob} `{Unicode}.
Context (task_dir path : PathBuf) (content : text) (generator : UiSourceFile).
Context (get_validator : option SubtaskId → Outcome InputValidator) (get_output_gen : TestcaseId → OutputGenerator).
Abbreviation Gen := (M GenGen).

Definition set_entries (l : list TaskInputEntry) (g : GenGen) : GenGen :=
  let '(mkGenGen t s _ n d f) := g in mkGenGen t s l n d f.
Definition push_entry (e : TaskInputEntry) (g : GenGen) : GenGen :=
  set_entries (gg_entries g ++ [e]) g.
Definition take_default (g : GenGen) : GenGen :=
  let '(mkGenGen t s l n d _) := g in mkGenGen t s l n d None.

(** [subtask_id += 1], [testcase_count += 1]. *)
Definition next_subtask : Gen unit := λ g,
  match u32_add (gg_subtask_id g) 1 with
  | Ret x => (Ret tt, let '(mkGenGen t _ l n d f) := g in mkGenGen t x l n d f)
  | Fail e => (Fail e, g)
  | Panicked m => (Panicked m, g)
  | OutOfFuel => (OutOfFuel, g)
  end.
Definition next_testcase : Gen unit := λ g,
  match u32_add (testcase_count g) 1 with
  | Ret x => (Ret tt, let '(mkGenGen _ s l n d f) := g in mkGenGen x s l n d f)
  | Fail e => (Fail e, g)
  | Panicked m => (Panicked m, g)
  | OutOfFuel => (OutOfFuel, g)
  end.

Definition gen_first (p : Pair GenRule) : Gen (Pair GenRule) :=
  lift (match into_inner p with i :: _ => Ret i | [] => Fail ["Corrupted parser"] end).

Definition gen_subtask_line (start end_ : N) (line : Pair GenRule) : Gen unit :=
  _ ← modify take_default;
  number ← gen_first line;
  let path := default path (path_strip_prefix task_dir path) in
  g ← get_st;
  score ← lift (match parse_f64 (pair_str number) with
                | Some x => Ret x | None => Fail ["Invalid subtask score"] end);
  span ← lift (outcome_ok (from_str path content start (end_ - start)));
  v ← lift (get_validator (Some (gg_subtask_id g)));
  _ ← modify (push_entry (TI_Subtask (new_subtask (gg_subtask_id g) None None score span false v)));
  next_subtask.

Definition gen_name_line (line : Pair GenRule) : Gen unit :=
  g ← get_st;
  match last (gg_entries g) with
  | None => bail "A #STNAME: rule must immediately follow a #ST: in gen/GEN"
  | Some (TI_Testcase _) => bail "#STNAME: must immediately follow a #ST: in gen/GEN"
  | Some (TI_Subtask st) =>
      word ← gen_first line;
      let name := pair_str word in
      if bool_decide (is_Some (subtask_name (subtask_info st)))
      then bail "Cannot assign the name of a subtask twice"
      else
        clean ← with_context ("Invalid subtask name: " +:+ string_of_text name)
                  (lift (cleanup_subtask_name name));
        let old_id := gg_st_name_to_id g !! clean in
        _ ← modify (λ g, let '(mkGenGen t s l n d f) := g in
              mkGenGen t s (removelast l ++ [TI_Subtask (set_name clean st)])
                (<[clean := subtask_id (subtask_info st)]> n) d f);
        if bool_decide (is_Some old_id) then bail ("Duplicate subtask name: " +:+ string_of_text name)
        else mret tt
  end.

Definition gen_dep_line (line : Pair GenRule) : Gen unit :=
  g ← get_st;
  match last (gg_entries g) with
  | None => bail "A #STDEP: rule must immediately follow a #ST: in gen/GEN"
  | Some (TI_Testcase _) => bail "#STDEP: must immediately follow a #ST: in gen/GEN"
  | Some (TI_Subtask st) =>
      for_each (into_inner line) (λ dep, modify (λ g, let '(mkGenGen t s l n d f) := g in
        let id := subtask_id (subtask_info st) in
        mkGenGen t s l n (<[id := default [] (d !! id) ++ [pair_str dep]]> d) f))
  end.

(** The first testcase without a subtask is in the default one. *)
Definition use_default : Gen unit :=
  g ← get_st;
  match default_subtask g with
  | None => mret tt
  | Some st =>
      _ ← modify take_default;
      _ ← modify (push_entry (TI_Subtask st));
      next_subtask
  end.
Definition gen_copy_line (line : Pair GenRule) : Gen unit :=
  _ ← use_default;
  what ← gen_first line;
  g ← get_st;
  let n := testcase_count g in
  _ ← modify (push_entry (TI_Testcase (TestcaseInfo_new n
        (IG_StaticFile (path_join task_dir (path_of_text (pair_str what)))) (get_output_gen n))));
  next_testcase.
Definition gen_command_line (line : Pair GenRule) : Gen unit :=
  _ ← use_default;
  let cmd := (λ x, string_of_text (pair_str x)) <$> into_inner line in
  g ← get_st;
  let n := testcase_count g in
  match get_output_gen n with
  | OG_StaticFile _ => bail "Generator detected but no solution found. Cannot generate output files."
  | output_generator =>
      _ ← modify (push_entry (TI_Testcase (TestcaseInfo_new n (IG_Custom generator cmd) output_generator)));
      next_testcase
  end.

Definition gen_parse_line (line : Pair GenRule) : Gen unit :=
  match as_rule line with
  | G_line =>
      let span := line in
      line ← gen_first line;
      match as_rule line with
      | G_subtask => gen_subtask_line (pair_start span) (pair_end span) line
      | G_subtask_name => gen_name_line line
      | G_subtask_dep => gen_dep_line line
      | G_copy => gen_copy_line line
      | G_command => gen_command_line line
      | G_comment | G_empty => mret tt
      | _ => panic "internal error: entered unreachable code"
      end
  | G_EOI => mret tt
  | _ => panic "internal error: entered unreachable code"
  end.
Definition gen_lines (file : Pair GenRule) : Gen (list TaskInputEntry) :=
  _ ← for_each (into_inner file) gen_parse_line;
  g ← get_st;
  lift (resolve_dependencies (gg_st_name_to_id g) (gg_st_deps g) (gg_subtask_id g) (gg_entries g)).
End gen_gen.

Section parse_gen_gen.
Context `{UuidV4} `{LocalFiles} `{Blake3} `{LanguageManager} `{BuildProfile} `{Glob} `{Unicode}.

Definition find_generator (task_dir : PathBuf) : M (EvaluationData TaskCallback) UiSourceFile :=
  generators ← find_source_file task_dir
    ["gen/generator.*"; "gen/generatore.*"; "gen/generator"; "gen/generatore"] task_dir
    "Input file generator at" None (WB_Path (path_of_string "bin/generator"));
  generator ← at_most_one "generators" generators;
  match generator with Some g => mret g | None => bail "No generator found" end.

Definition parse_gen_gen (path : PathBuf) (get_validator : option SubtaskId → Outcome InputValidator)
    (get_output_gen : TestcaseId → OutputGenerator) :
    M (EvaluationData TaskCallback) (list TaskInputEntry) :=
  task_dir ← lift (task_dir_of "gen/GEN" path);
  content ← lift (match read_to_string path with
                  | Some c => Ret c
                  | None => Fail ["Cannot read gen/GEN from " +:+ path_to_string path]
                  end);
  file ← lift (parse_GEN content);
  v ← lift (get_validator (Some 0%N));
  let default := new_subtask 0 None None (f64_of_Z 100) None true v in
  generator ← find_generator task_dir;
  lift (gen_lines task_dir path content generator get_validator get_output_gen file
          (mkGenGen 0 0 [] ∅ ∅ (Some default))).1.
End parse_gen_gen.
