(* ===== verification/Booklets.v ===== *)
(** * The booklets ([ioi/statement])

    The statements of a task, in LaTeX or in Typst, the booklet that is compiled from
    them, the figures in Asymptote, and the configuration of the contest.  The templates
    of the booklets are rendered as [askama] does. *)
From S2P Require Import Prelude Float64 RustOrd Paths StoreKey Dag Text Diagnostics Checks UiMessage Machine.
From S2P Require Import FloatText Build Languages SourceFile Scoring Judge IoiDag CasesGen.

Definition BOOKLET_PRIORITY : Priority := 10000%Z.

(** ** Data *)
Record StatementConfig : Type := mkStatementConfig {
  config_name : string;
  config_title : string;
  config_infile : string;
  config_outfile : string;
  config_time_limit : option f64;
  config_memory_limit : option N;
  config_difficulty : option N;
  config_syllabus_level : option N
}.
Record BookletStatement : Type := mkStatement {
  st_config : StatementConfig;
  st_path : PathBuf;
  st_content : text
}.
Record BookletConfig : Type := mkBookletConfig {
  booklet_language : string;
  show_solutions : bool;
  show_summary : bool;
  font_enc : string;
  input_enc : string;
  description : option string;
  location : option string;
  date : option string;
  logo : option string;
  intro_page : option PathBuf
}.
Record Booklet : Type := mkBooklet {
  booklet_config : BookletConfig;
  statements : list BookletStatement;
  booklet_dest : PathBuf;
  booklet_lang : option string
}.
(** The fields of [contest.yaml] that the booklets read. *)
Record ContestYAML : Type := mkContest {
  contest_description : option string;
  contest_location : option string;
  contest_date : option string;
  contest_logo : option string;
  contest_show_summary : bool;
  booklet_intro_path : option PathBuf;
  contest_tasks : list string
}.

Inductive StatementLanguage : Type := Tex | Typst.
Definition get_language_from_extension (extension : string) : Outcome StatementLanguage :=
  if decide (extension = "tex") then Ret Tex
  else if decide (extension = "typ") then Ret Typst
  else Fail ["Not a valid extension for statements: " +:+ extension].

(** The crates [glob], with the errors of the iteration this time, [serde_yaml] and
    [locale_codes], and the directory [DATA_DIR]. *)
Class BookletCrates `{Glob} : Type := {
  glob_results : string → option (list (option PathBuf));
  glob_results_ok (p : string) :
    glob p = match glob_results p with Some l => Some (omap (λ x, x) l) | None => None end;
  contest_yaml_from : list byte → option ContestYAML;
  config_yaml : BookletConfig → option string;
  statement_yaml : StatementConfig → option string;
  language_lookup : string → bool;
  country_lookup : string → bool;
  DATA_DIR : PathBuf
}.

(** ** Text of the sources *)
Definition newline_string : string := String.String (Ascii.ascii_of_N 10) EmptyString.
Definition tab_string : string := String.String (Ascii.ascii_of_N 9) EmptyString.

(** A match of [USE_PACKAGE_REGEX] on a line, with what is before; it takes the rest of
    the line, which is not empty. *)
Fixpoint find_usepackage (line : text) : option (text * text) :=
  match strip_prefix (text_of "\usepackage") line with
  | Some (_ :: _) => Some ([], line)
  | _ =>
      match line with
      | [] => None
      | c :: line =>
          match find_usepackage line with
          | Some (before, found) => Some (c :: before, found)
          | None => None
          end
      end
  end.
Definition find_packages (content : text) : list text :=
  omap (λ line, snd <$> find_usepackage line) (split_text newline content).
Definition comment_package (line : text) : text :=
  match find_usepackage line with
  | Some (before, found) => before ++ text_of "% " ++ found
  | None => line
  end.
(** [replace_all(.., "% $0")]. *)
Definition comment_packages (content : text) : text :=
  join_text newline (comment_package <$> split_text newline content).

Definition bool_to_tpl_string (b : bool) (if_true : string) : string := if b then if_true else EmptyString.
Definition braced (s : string) : string := "{" +:+ s +:+ "}".
(** [templates/task.tex]. *)
Definition TaskTemplate_render (name title infile outfile time_limit memory_limit difficulty
    syllabus_level content : string) : string :=
  "\begin{problem}" +:+ braced title +:+ braced name +:+ braced infile +:+ braced outfile
    +:+ braced time_limit +:+ braced memory_limit +:+ braced difficulty +:+ braced syllabus_level
    +:+ newline_string +:+ content +:+ newline_string +:+ "\end{problem}".
(** [templates/booklet.tex]. *)
Definition BookletTemplate_render (language show_solutions show_summary font_enc input_enc description
    location date logo packages tasks intro_page : string) : string :=
  join_string newline_string
    ["\documentclass[%";
     tab_string +:+ language +:+ ",%";
     tab_string +:+ show_solutions +:+ ",%";
     tab_string +:+ show_summary +:+ ",%";
     "]{cms-contest}";
     EmptyString;
     "\usepackage[" +:+ font_enc +:+ "]{fontenc}";
     "\usepackage[" +:+ input_enc +:+ "]{inputenc}";
     "\usepackage[" +:+ language +:+ "]{babel}";
     "\usepackage{bookmark}";
     "\usepackage{import}";
     EmptyString;
     packages;
     EmptyString;
     "\begin{document}";
     tab_string +:+ intro_page;
     tab_string +:+ "\begin{contest}" +:+ braced description +:+ braced location +:+ braced date;
     tab_string +:+ tab_string +:+ "\setContestLogo" +:+ braced logo;
     tab_string +:+ tab_string +:+ tasks;
     tab_string +:+ "\end{contest}";
     "\end{document}"].

Definition build_statement_source (l : StatementLanguage) (st : BookletStatement) : string :=
  match l with
  | Tex =>
      let c := st_config st in
      TaskTemplate_render (config_name c) (config_title c) (config_infile c) (config_outfile c)
        (default EmptyString ((string_of_text ∘ f64_display) <$> config_time_limit c))
        (default EmptyString (pretty <$> config_memory_limit c))
        (default EmptyString (pretty <$> config_difficulty c))
        (default EmptyString (pretty <$> config_syllabus_level c))
        (string_of_text (comment_packages (st_content st)))
  | Typst => string_of_text (st_content st)
  end.
Definition build_booklet_source `{LocalFiles} (l : StatementLanguage) (b : Booklet) : string :=
  let c := booklet_config b in
  match l with
  | Tex =>
      let packages : gset string := list_to_set
        (string_of_text <$> (statements b ≫= λ st, find_packages (st_content st))) in
      let tasks := (λ st, "\subimport{./" +:+ config_name (st_config st) +:+ "/}{statement.tex}")
        <$> statements b in
      BookletTemplate_render (booklet_language c)
        (bool_to_tpl_string (show_solutions c) "showsolutions")
        (bool_to_tpl_string (show_summary c) "showsummary")
        (font_enc c) (input_enc c) (default EmptyString (description c))
        (default EmptyString (location c)) (default EmptyString (date c)) (default EmptyString (logo c))
        (join_string newline_string (sorted (elements packages)))
        (join_string newline_string tasks)
        (match intro_page c with
         | Some p => default EmptyString (string_of_text <$> read_to_string p)
         | None => EmptyString
         end)
  | Typst =>
      let sources := join_string newline_string
        ((λ st, "#include " +:+ quote +:+ config_name (st_config st) +:+ "/statement/statement.typ" +:+ quote)
           <$> statements b) in
      if intro_page c is Some _ then "#include " +:+ quote +:+ "intro_page.typ" +:+ quote +:+ newline_string +:+ sources
      else sources
  end.

(** [Option::ok_or_else], [Option::context]. *)
Definition ok_or {A} (e : string) (o : option A) : Outcome A :=
  match o with Some a => Ret a | None => Fail [e] end.

(** ** The figures ([asy.rs]) *)
Record AsyDependency : Type := mkAsyDependency { asy_sandbox_path : PathBuf; asy_local_path : PathBuf }.
Definition path_is_dir `{LocalFiles} (p : PathBuf) : bool :=
  match stat p with Some Directory => true | _ => false end.

Section booklets.
Context `{UuidV4} `{LocalFiles} `{Blake3} `{BookletCrates}.
Abbreviation Eval := (M (EvaluationData TaskCallback)).

Definition asy_deps_in (source_dir source_path : PathBuf) (l : list PathBuf) : list AsyDependency :=
  (λ p, mkAsyDependency (default p (path_strip_prefix source_dir p)) p) <$>
    filter (λ p, p ≠ source_path ∧ path_is_dir p = false) l.
Definition find_asy_deps (source_path : PathBuf) : Outcome (list AsyDependency) :=
  source_dir ← ok_or ("File " +:+ debug_path source_path +:+ " does not have a parent")
                 (path_parent source_path);
  l ← ok_or ("failed to glob " +:+ path_to_string source_dir +:+ "/**/*")
        (glob (path_to_string source_dir +:+ "/**/*"));
  Ret (asy_deps_in source_dir source_path l).

(** A new file with the content of a path, provided and put in the sandbox. *)
Definition provide_input (description ctx : string) (path sandbox : PathBuf) (e : Execution) :
    Eval Execution :=
  file ← new_file description;
  let e := input (file_uuid file) sandbox false e in
  _ ← with_context ctx (on_dag (provide_file file path (from_file path)));
  mret e.
Definition content_input (description : string) (content : string) (sandbox : PathBuf) (e : Execution) :
    Eval Execution :=
  file ← new_file description;
  let e := input (file_uuid file) sandbox false e in
  _ ← on_dag (λ d, Ret (provide_content file (String.list_byte_of_string content) d));
  mret e.

Fixpoint add_asy_deps (name : string) (deps : list AsyDependency) (e : Execution) : Eval Execution :=
  match deps with
  | [] => mret e
  | dep :: deps =>
      e ← provide_input ("Dependency " +:+ path_to_string (asy_sandbox_path dep) +:+ " of " +:+ name)
            "Failed to provide asy dependency" (asy_local_path dep) (asy_sandbox_path dep) e;
      add_asy_deps name deps e
  end.
(** [copy_logs]: the two streams are captured and written in [bin/logs]. *)
Definition write_logs (dir name : string) (e : Execution) : Eval Execution :=
  s ← get_st;
  if copy_logs (config (data (eval_dag s))) then
    let log (stream : string) :=
      path_join (path_join (task_root s) (path_of_string dir))
        (path_of_string (name +:+ "." +:+ stream +:+ ".log")) in
    '(stderr, e) ← exec_capture_stderr None e;
    _ ← on_dag (write_file_to_allow_fail (file_uuid stderr) (log "stderr") false);
    '(stdout, e) ← exec_capture_stdout None e;
    _ ← on_dag (write_file_to_allow_fail (file_uuid stdout) (log "stdout") false);
    mret e
  else mret e.
Definition asset_limits (mount_proc : bool) (l : ExecutionLimits) : ExecutionLimits :=
  let l := set_mount_tmpfs true (add_extra_readable_dir (path_of_string "/etc")
    (limits_allow_multiprocess (set_wall_time (f64_of_Z 10) (set_read_only false l)))) in
  if mount_proc then set_mount_proc true l else l.

(** The end of the two executions of a figure. *)
Definition add_asset_group (e : Execution) (booklet name : string) (step : nat) (c : TaskCallback) :
    Eval unit :=
  group ← exec_into_group e;
  let group := set_tag_priority Tag_Booklet 0%Z group in
  _ ← bind_exec_callbacks (group_uuid group) (SK_BookletDependency booklet name step 2);
  _ ← done_with (group_uuid group) c;
  add_group group.
Definition asy_compile (source_path : PathBuf) (booklet : string) : Eval (File * File) :=
  name ← lift (ok_or ("Invalid path of asy file: " +:+ debug_path source_path) (path_file_name source_path));
  let comp := Execution_new ("Compilation of " +:+ name) (system "sh") in
  let comp := limits_mut (asset_limits true) (set_args
    ["-c"; "asy -f pdf -localhistory tm-compilation.asy && asy -f svg -localhistory tm-compilation.asy"] comp) in
  comp ← provide_input ("Source of " +:+ name) "Failed to provide any source file" source_path
           (path_of_string "tm-compilation.asy") comp;
  deps ← lift (outcome_context ("Failed to find asy dependencies of " +:+ path_to_string source_path)
           (find_asy_deps source_path));
  comp ← add_asy_deps name deps comp;
  '(compiled, comp) ← exec_output (path_of_string "tm-compilation.pdf") comp;
  '(vector, comp) ← exec_output (path_of_string "tm-compilation.svg") comp;
  comp ← write_logs "bin/logs/asy" name comp;
  '(_, comp) ← exec_capture_stderr (Some 1024%N) comp;
  _ ← add_asset_group comp booklet name 0 (CB_AsyCompiled name);
  let crop := Execution_new ("Crop of " +:+ name) (system "pdfcrop") in
  let crop := set_args ["source.pdf"] (limits_mut (asset_limits false) crop) in
  let crop := input (file_uuid compiled) (path_of_string "source.pdf") false crop in
  '(cropped, crop) ← exec_output (path_of_string "source-crop.pdf") crop;
  '(_, crop) ← exec_capture_stderr (Some 1024%N) crop;
  _ ← add_asset_group crop booklet name 1 (CB_AsyCropped name);
  mret (cropped, vector).

(** ** The files of a statement ([statement/mod.rs]) *)
Definition Statement_new (path : PathBuf) (config : StatementConfig) : Outcome BookletStatement :=
  match read_to_string path with
  | Some content => Ret (mkStatement config path content)
  | None => Fail ["Failed to read statement file from " +:+ path_to_string path]
  end.

Definition is_valid_pdf_dependency (path : PathBuf) : Outcome bool :=
  match canonical path with
  | None => Fail ["Failed to get real path of " +:+ path_to_string path]
  | Some path =>
      Ret (negb (path_exists (with_extension "asy" path)) && negb (path_exists (with_extension "tex" path))
             && negb (path_exists (with_extension "typ" path)))
  end.

Abbreviation Deps := (list (PathBuf * File)).
(** The content of the statement names the file. *)
Definition mentions (st : BookletStatement) (p : PathBuf) : bool :=
  text_contains (str_text (path_to_string p)) (st_content st).
Definition statement_dependency (st : BookletStatement) (shown path : PathBuf) : Eval File :=
  file ← new_file ("Dependency of " +:+ config_name (st_config st) +:+ " at " +:+ debug_path shown);
  _ ← with_context "Failed to provide statement dependency" (on_dag (provide_file file path (from_file path)));
  mret file.
Definition process_possible_dependency (st : BookletStatement) (base_dir path : PathBuf) (deps : Deps)
    (booklet_name : string) (logo : option string) : Eval Deps :=
  suffix ← lift (unwrap "called `Result::unwrap()` on an `Err` value" (path_strip_prefix base_dir path));
  let ext := default EmptyString (path_extension path) in
  if decide (ext = "asy") then
    if mentions st (with_extension "pdf" suffix) || mentions st (with_extension "svg" suffix) then
      '(pdf, svg) ← with_context "Failed to compile asy file" (asy_compile path booklet_name);
      mret (deps ++ [(with_extension "pdf" suffix, pdf); (with_extension "svg" suffix, svg)])
    else mret deps
  else
    let is_logo := match path_file_name path, logo with
                   | Some name, Some logo => bool_decide (name = logo)
                   | _, _ => false
                   end in
    valid ← lift (if decide (ext = "pdf") then
                    if is_logo then Ret true else is_valid_pdf_dependency path
                  else Ret true);
    if valid : bool then
      file ← statement_dependency st suffix path;
      mret (deps ++ [(suffix, file)])
    else mret deps.

(** The loop over the files of the directory; an entry may be an error. *)
Fixpoint process_dependencies (st : BookletStatement) (base_dir : PathBuf) (l : list (option PathBuf))
    (deps : Deps) (booklet_name : string) (logo : option string) : Eval Deps :=
  match l with
  | [] => mret deps
  | None :: _ => bail "Failed to iterate statement files"
  | Some path :: l =>
      if path_is_file path then
        deps ← with_context ("Failed to process possible dependency at " +:+ path_to_string path)
                 (process_possible_dependency st base_dir path deps booklet_name logo);
        process_dependencies st base_dir l deps booklet_name logo
      else process_dependencies st base_dir l deps booklet_name logo
  end.
Definition GEN_DEPENDENCIES : list string :=
  ["../gen/limiti.py"; "../gen/constraints.py"; "../gen/limiti.yaml"; "../gen/constraints.yaml";
   "../gen/GEN"; "../gen/gen.toml"].
Fixpoint gen_dependencies (st : BookletStatement) (base_dir : PathBuf) (l : list string) (deps : Deps) :
    Eval Deps :=
  match l with
  | [] => mret deps
  | p :: l =>
      let path := path_of_string p in
      let full_path := path_join base_dir path in
      if path_is_file full_path then
        file ← statement_dependency st path full_path;
        name ← lift (unwrap "called `Option::unwrap()` on a `None` value" (path_file_name path));
        gen_dependencies st base_dir l (deps ++ [([Normal name], file)])
      else gen_dependencies st base_dir l deps
  end.
Definition build_deps (st : BookletStatement) (booklet_name : string) (config : BookletConfig) : Eval Deps :=
  base_dir ← lift (ok_or "Invalid statement path" (path_parent (st_path st)));
  let logo := l ← logo config; path_file_name (path_of_string l) in
  l ← lift (ok_or "Invalid glob pattern" (glob_results (path_to_string base_dir +:+ "/**/*")));
  deps ← process_dependencies st base_dir l [] booklet_name logo;
  gen_dependencies st base_dir GEN_DEPENDENCIES deps.

(** ** The compilation of a booklet ([statement/tex.rs], [statement/typst.rs]) *)
Fixpoint input_deps (base_dir : PathBuf) (deps : Deps) (e : Execution) : Execution :=
  match deps with
  | [] => e
  | (path, file) :: deps =>
      input_deps base_dir deps (input (file_uuid file) (path_join base_dir path) false e)
  end.
(** The program that reads the constraints, when the task has only their [.yaml]. *)
Definition default_script (name : string) (base_dir : PathBuf) (deps : Deps) (e : Execution) : Eval Execution :=
  let has (extension : string) := bool_decide (path_of_string (name +:+ extension) ∈ deps.*1) in
  if negb (has ".py") && has ".yaml" then
    let path := path_join DATA_DIR (path_of_string ("statements/" +:+ name +:+ ".py")) in
    file ← new_file ("Default " +:+ name +:+ ".py");
    let e := input (file_uuid file) (path_join base_dir (path_of_string (name +:+ ".py"))) false e in
    _ ← on_dag (provide_file file path (from_file path));
    mret e
  else mret e.
Definition tex_statement (booklet : Booklet) (booklet_name : string) (st : BookletStatement) (e : Execution) :
    Eval Execution :=
  let name := config_name (st_config st) in
  let base_dir := path_of_string name in
  e ← content_input ("Source of statement of " +:+ name) (build_statement_source Tex st)
        (path_join base_dir (path_of_string "statement.tex")) e;
  deps ← with_context "Failed to build booklet dependencies"
           (build_deps st booklet_name (booklet_config booklet));
  let e := input_deps base_dir deps e in
  e ← default_script "limiti" base_dir deps e;
  default_script "constraints" base_dir deps e.
Fixpoint tex_statements (booklet : Booklet) (booklet_name : string) (l : list BookletStatement)
    (e : Execution) : Eval Execution :=
  match l with
  | [] => mret e
  | st :: l => e ← tex_statement booklet booklet_name st e; tex_statements booklet booklet_name l e
  end.
(** The files of the directory [data/statements]. *)
Fixpoint template_files (data_dir : PathBuf) (l : list (option PathBuf)) (e : Execution) : Eval Execution :=
  match l with
  | [] => mret e
  | None :: _ => bail "Failed to iterate with glob"
  | Some path :: l =>
      if path_is_file path then
        name ← lift (ok_or "Invalid template file" (path_file_name path));
        file ← new_file ("Booklet template file " +:+ quote +:+ name +:+ quote);
        _ ← with_context "Failed to provide statement file"
              (on_dag (provide_file file path (from_file path)));
        sandbox ← lift (ok_or "prefix not found" (path_strip_prefix data_dir path));
        template_files data_dir l (input (file_uuid file) sandbox false e)
      else template_files data_dir l e
  end.

(** The end of both: the group, its callbacks. *)
Definition add_booklet_group (booklet : Booklet) (booklet_name : string) (c : string → TaskCallback)
    (e : Execution) : Eval unit :=
  group ← exec_into_group e;
  let group := set_tag_priority Tag_Booklet BOOKLET_PRIORITY group in
  _ ← bind_exec_callbacks (group_uuid group) (SK_Booklet booklet_name);
  dest ← lift (unwrap "called `Option::unwrap()` on a `None` value" (path_file_name (booklet_dest booklet)));
  _ ← done_with (group_uuid group) (c dest);
  add_group group.
Definition tex_execution (booklet : Booklet) (booklet_name : string) : Eval unit :=
  let exec := Execution_new "Compilation of the booklet" (system "latexmk") in
  let exec := set_args ["-shell-escape"; "-f"; "-interaction=nonstopmode"; "-pdf"; "booklet.tex"] exec in
  let exec := limits_mut (λ l, set_mount_tmpfs true (add_extra_readable_dir (path_of_string "/etc")
    (limits_allow_multiprocess (set_read_only false l)))) exec in
  '(output_file, exec) ← exec_output (path_of_string "booklet.pdf") exec;
  exec ← content_input "Source of the booklet" (build_booklet_source Tex booklet)
           (path_of_string "booklet.tex") exec;
  exec ← tex_statements booklet booklet_name (statements booklet) exec;
  let data_dir := path_join DATA_DIR (path_of_string "statements") in
  l ← lift (ok_or "Invalid glob pattern" (glob_results (path_to_string data_dir +:+ "/**/*")));
  exec ← template_files data_dir l exec;
  exec ← write_logs "bin/logs/booklets" booklet_name exec;
  '(_, exec) ← exec_capture_stdout (Some (1024 * 1024 * 1024)%N) exec;
  _ ← add_booklet_group booklet booklet_name CB_LatexDone exec;
  on_dag (write_file_to_allow_fail (file_uuid output_file) (booklet_dest booklet) false).

(** The constraints have one name for Typst. *)
Definition typst_dependency (d : PathBuf * File) : PathBuf * File :=
  (if decide (d.1 = path_of_string "limiti.yaml") then path_of_string "constraints.yaml" else d.1, d.2).
Definition typst_statement (booklet : Booklet) (booklet_name : string) (st : BookletStatement)
    (e : Execution) : Eval Execution :=
  let name := config_name (st_config st) in
  e ← content_input ("Source of statement of " +:+ name) (build_statement_source Typst st)
        (path_join (path_of_string name) (path_of_string "statement/statement.typ")) e;
  task_yaml ← new_file ("task.yaml for " +:+ name);
  let e := input (file_uuid task_yaml) (path_join (path_of_string name) (path_of_string "task.yaml")) false e in
  yaml ← lift (ok_or "serde_yaml" (statement_yaml (st_config st)));
  _ ← on_dag (λ d, Ret (provide_content task_yaml (String.list_byte_of_string yaml) d));
  let base_dir := path_join (path_of_string name) (path_of_string "statement") in
  deps ← with_context "Failed to build booklet dependencies"
           (build_deps st booklet_name (booklet_config booklet));
  mret (input_deps base_dir (typst_dependency <$> deps) e).
Fixpoint typst_statements (booklet : Booklet) (booklet_name : string) (l : list BookletStatement)
    (e : Execution) : Eval Execution :=
  match l with
  | [] => mret e
  | st :: l => e ← typst_statement booklet booklet_name st e; typst_statements booklet booklet_name l e
  end.
Definition typst_inputs (task_root : PathBuf) : list (string * string) :=
  ("contest_yaml", "../../contest.yaml") ::
  if path_exists (path_join task_root (path_of_string "task.toml")) then [("gen_toml", "gen.toml")]
  else [("gen_gen", "GEN"); ("constraints_yaml", "constraints.yaml")].
Definition typst_execution (booklet : Booklet) (booklet_name : string) : Eval unit :=
  s ← get_st;
  let exec := Execution_new "Compilation of the booklet" (TypstCompilation (typst_inputs (task_root s))) in
  '(output_file, exec) ← exec_output (path_of_string "booklet.pdf") exec;
  exec ← content_input "Source of the booklet" (build_booklet_source Typst booklet)
           (path_of_string "booklet.typ") exec;
  contest_yaml ← new_file "Contest yaml";
  let exec := input (file_uuid contest_yaml) (path_of_string "contest.yaml") false exec in
  yaml ← lift (ok_or "serde_yaml" (config_yaml (booklet_config booklet)));
  _ ← on_dag (λ d, Ret (provide_content contest_yaml (String.list_byte_of_string yaml) d));
  exec ← typst_statements booklet booklet_name (statements booklet) exec;
  exec ← match intro_page (booklet_config booklet) with
         | None => mret exec
         | Some page =>
             intro ← new_file "Intro page for booklet";
             let exec := input (file_uuid intro) (path_of_string "intro_page.typ") false exec in
             _ ← on_dag (provide_file intro page (from_file page));
             mret exec
         end;
  exec ← write_logs "bin/logs/booklets" booklet_name exec;
  '(_, exec) ← exec_capture_stderr (Some (1024 * 1024 * 1024)%N) exec;
  _ ← add_booklet_group booklet booklet_name CB_TypstDone exec;
  on_dag (write_file_to (file_uuid output_file) (booklet_dest booklet) false).

(** ** [Booklet] ([booklet.rs]) *)
Definition Booklet_new (config : BookletConfig) (dest : PathBuf) : Booklet := mkBooklet config [] dest None.
Definition add_statement (st : BookletStatement) (b : Booklet) : Outcome Booklet :=
  match path_extension (st_path st) with
  | None => Fail ["Statement at " +:+ path_to_string (st_path st) +:+ " has no extension"]
  | Some lang =>
      match booklet_lang b with
      | Some l =>
          if decide (l = lang)
          then Ret (mkBooklet (booklet_config b) (statements b ++ [st]) (booklet_dest b) (Some lang))
          else Fail ["Booklet contains statements with two or more different extensions"]
      | None => Ret (mkBooklet (booklet_config b) (statements b ++ [st]) (booklet_dest b) (Some lang))
      end
  end.
Definition booklet_build (b : Booklet) : Eval unit :=
  name ← lift (ok_or ("Invalid destination file " +:+ path_to_string (booklet_dest b))
           (path_file_name (booklet_dest b)));
  match booklet_lang b with
  | None => mret tt
  | Some lang =>
      l ← lift (get_language_from_extension lang);
      match l with Tex => tex_execution b name | Typst => typst_execution b name end
  end.

Definition contest_yaml (contest_dir : PathBuf) : option (Outcome ContestYAML) :=
  let path := path_join contest_dir [Normal "contest.yaml"] in
  if path_exists path then
    Some match stat path with
         | Some (RegularFile c) => ok_or "Failed to deserialize contest.yaml" (contest_yaml_from c)
         | Some Directory => Fail ["Failed to deserialize contest.yaml"]
         | _ => Fail ["Failed to open contest.yaml at " +:+ path_to_string path]
         end
  else None.
Definition from_contest (language : string) (contest_dir : PathBuf) (booklet_solutions : bool) :
    Outcome BookletConfig :=
  match contest_yaml contest_dir with
  | Some y =>
      y ← y;
      Ret (mkBookletConfig language booklet_solutions (contest_show_summary y) "T1" "utf8"
             (contest_description y) (contest_location y) (contest_date y) (contest_logo y)
             (booklet_intro_path y))
  | None => Ret (mkBookletConfig language booklet_solutions false "T1" "utf8" None None None None None)
  end.

(** ** The booklets of a task and of a contest ([statement/mod.rs]) *)
Definition LANGUAGES : list string :=
  ["afrikaans"; "arabic"; "armenian"; "azerbaijani"; "belarusian"; "bengali"; "bosnian"; "bulgarian";
   "catalan"; "chinese"; "croatian"; "czech"; "danish"; "dutch"; "english"; "estonian"; "filipino";
   "finnish"; "french"; "georgian"; "german"; "greek"; "hebrew"; "hindi"; "hungarian"; "icelandic";
   "indonesian"; "irish"; "italian"; "japanese"; "kazakh"; "korean"; "kyrgyz"; "latvian"; "lithuanian";
   "luxembourgish"; "macedonian"; "malay"; "mongolian"; "norwegian"; "persian"; "polish"; "portuguese";
   "romanian"; "russian"; "serbian"; "sinhala"; "slovak"; "slovene"; "spanish"; "swedish"; "tajik";
   "tamil"; "thai"; "turkish"; "turkmen"; "ukrainian"; "urdu"; "uzbek"; "vietnamese"; "other"].
Definition underscore : Ascii.ascii := Ascii.ascii_of_N 95.
Definition is_valid_statement_name (name : string) : bool :=
  if decide (name ∈ LANGUAGES) then true
  else match split_char underscore name ≫= split_char dot with
       | [lang; country] =>
           let short (s : string) := bool_decide (2 ≤ String.length s ∧ String.length s ≤ 3) in
           (short lang && language_lookup lang)
             && (short country && country_lookup country || bool_decide (country = "ISC"))
       | _ => false
       end.
Definition statement_language (path : PathBuf) : option (string * PathBuf) :=
  lang ← path_file_stem path;
  if is_valid_statement_name lang then Some (lang, path) else None.
Definition statements_of (l : list PathBuf) : list (string * PathBuf) := omap statement_language l.
Definition find_statement_files (task_dir : PathBuf) : Outcome (list (string * PathBuf)) :=
  l ← list_files task_dir ["statement/*.tex"; "statement/*.typ"; "testo/*.tex"; "testo/*.typ"];
  Ret (statements_of l).

(** The last two fields are read from the task file, for the statements only. *)
Definition StatementConfig_from_task (t : BuildTask) (difficulty syllabus_level : option N) : StatementConfig :=
  mkStatementConfig (bt_name t) (bt_title t) (default EmptyString (path_to_string <$> infile t))
    (default EmptyString (path_to_string <$> outfile t)) (bt_time_limit t) (bt_memory_limit t)
    difficulty syllabus_level.

Definition task_booklet (config : StatementConfig) (task_path : PathBuf) (solutions : bool)
    (file : string * PathBuf) : Outcome Booklet :=
  let '(language, path) := file in
  statement ← outcome_context ("Failed to build statement for language " +:+ language)
                (Statement_new path config);
  contest_dir ← ok_or "Task is at the root" (path_parent task_path);
  booklet_config ← outcome_context "Failed to build booklet" (from_contest language contest_dir solutions);
  add_statement statement (Booklet_new booklet_config (with_extension "pdf" path)).
Definition make_task_booklets (t : BuildTask) (difficulty syllabus_level : option N) (solutions : bool) :
    Outcome (list Booklet) :=
  files ← find_statement_files (bt_path t);
  if decide (NoDup files.*1) then
    try_map (task_booklet (StatementConfig_from_task t difficulty syllabus_level) (bt_path t) solutions) files
  else Fail ["Booklet contains statements with two or more different extensions"].

(** A task of a contest, with its difficulty and its level. *)
Abbreviation ContestTask := (BuildTask * option N * option N)%type.
Definition contest_task_dir (t : ContestTask) : Outcome PathBuf :=
  ok_or "Task is at the root" (path_parent (bt_path t.1.1)).
Fixpoint same_contest (contest_dir : PathBuf) (l : list ContestTask) : Outcome unit :=
  match l with
  | [] => Ret tt
  | t :: l =>
      dir ← contest_task_dir t;
      if decide (contest_dir = dir) then same_contest contest_dir l
      else Fail ["The tasks are not all in the same directory (i.e. different contests)"]
  end.
Abbreviation ByLanguage := (gmap string (list (ContestTask * PathBuf))).
Definition group_by_language (l : list (ContestTask * list (string * PathBuf))) : ByLanguage :=
  foldl (λ m (x : ContestTask * (string * PathBuf)),
      partial_alter (λ old, Some (default [] old ++ [(x.1, x.2.2)])) x.2.1 m) ∅
    (l ≫= λ x, (λ f, (x.1, f)) <$> x.2).
Fixpoint add_contest_statements (language : string) (l : list (ContestTask * PathBuf)) (b : Booklet) :
    Outcome Booklet :=
  match l with
  | [] => Ret b
  | (t, path) :: l =>
      statement ← outcome_context ("Failed to build statement for language " +:+ language)
        (Statement_new path (StatementConfig_from_task t.1.1 t.1.2 t.2));
      b ← add_statement statement b;
      add_contest_statements language l b
  end.
Definition contest_booklet (contest_dir : PathBuf) (solutions : bool)
    (x : string * list (ContestTask * PathBuf)) : Outcome Booklet :=
  config ← outcome_context "Failed to build booklet contest configuration"
             (from_contest x.1 contest_dir solutions);
  add_contest_statements x.1 x.2
    (Booklet_new config (path_join contest_dir (path_of_string (x.1 +:+ ".pdf")))).
Definition make_contest_booklets `{IterOrder} (tasks : list ContestTask) (solutions : bool) :
    Outcome (list Booklet) :=
  match tasks with
  | [] => Ret []
  | first :: _ =>
      contest_dir ← contest_task_dir first;
      _ ← same_contest contest_dir tasks;
      files ← try_map (λ t : ContestTask, l ← find_statement_files (bt_path t.1.1); Ret (t, l)) tasks;
      try_map (contest_booklet contest_dir solutions) (map_iter (group_by_language files))
  end.
End booklets.
