(* ===== verification/BookletsCorrect.v ===== *)
(** * The DAG of a booklet is valid

    The builders of [Booklets] keep the invariant of [Build]: what an execution of a
    booklet reads is provided or produced by the figures compiled before. *)
From S2P Require Import Prelude Float64 Paths StoreKey Dag CheckDag Text Diagnostics Checks UiMessage.
From S2P Require Import Machine Build Languages SourceFile SourceFileCorrect Scoring Judge IoiDag IoiDagCorrect Booklets.

Section correct.
Context `{UuidV4} `{LocalFiles} `{Blake3} `{BookletCrates}.
Implicit Types (s : EvaluationData TaskCallback) (G : gset Uuid) (Q R : list Uuid) (e : Execution).

(** ** An execution that grows

    Its inputs are there, its outputs wait for its group. *)
Record under G Q R e s : Prop := {
  under_builds : builds G Q (exec_outs e ++ R) s;
  under_supplied : supplied s e
}.
Record goes e s e' s' : Prop := {
  goes_extends : extends s s';
  goes_outs : exec_outs e ⊆ exec_outs e'
}.
Lemma goes_refl e s : goes e s e s.
Proof. by split. Qed.
Lemma goes_trans e1 s1 e2 s2 e3 s3 : goes e1 s1 e2 s2 → goes e2 s2 e3 s3 → goes e1 s1 e3 s3.
Proof. intros [] []. split; [by etrans|set_solver]. Qed.
Lemma goes_out e s e' s' f : goes e s e' s' → f ∈ exec_outs e → f ∈ exec_outs e'.
Proof. intros [_ Ho]. apply Ho. Qed.
Lemma goes_ready e s e' s' f : goes e s e' s' → ready s f → ready s' f.
Proof. intros []. by apply extends_ready. Qed.

Lemma under_neutral G Q R h e s : neutral h → under G Q R e s → under G Q R (h e) s.
Proof.
  intros Hh []. split; [by rewrite neutral_outs|by apply neutral_supplied].
Qed.
Lemma under_new G Q R d c s : builds G Q R s → under G Q R (Execution_new d c) s.
Proof. intros Hb. split; [done|apply supplied_new]. Qed.
Lemma under_input G Q R e s f p x : under G Q R e s → ready s f → under G Q R (input f p x e) s.
Proof. intros [] Hf. split; [by rewrite exec_outs_input|by apply supplied_input]. Qed.
Lemma under_extends G Q R e s s' :
  under G Q R e s → extends s s' → builds G Q (exec_outs e ++ R) s' → under G Q R e s'.
Proof. intros [] He Hb. split; [done|by eapply supplied_extends]. Qed.

Lemma wp_under_output G Q R p e s (P : File * Execution → EvaluationData TaskCallback → Prop) E :
  under G Q R e s →
  (∀ f e' s', under G Q R e' s' → goes e s e' s' → file_uuid f ∈ exec_outs e' → P (f, e') s') →
  wp (exec_output p e) P E s.
Proof.
  intros [] HP. eapply wp_output; [done..|].
  intros f e' s' Hb He Hs Hf Ho _ _ _. by apply HP.
Qed.
Lemma wp_under_stdout G Q R l e s (P : File * Execution → EvaluationData TaskCallback → Prop) E :
  under G Q R e s →
  (∀ f e' s', under G Q R e' s' → goes e s e' s' → file_uuid f ∈ exec_outs e' → P (f, e') s') →
  wp (exec_capture_stdout l e) P E s.
Proof.
  intros [] HP. eapply wp_capture_stdout; [done..|]. intros f s' e' Hb He Hs Hf Ho. by apply HP.
Qed.
Lemma wp_under_stderr G Q R l e s (P : File * Execution → EvaluationData TaskCallback → Prop) E :
  under G Q R e s →
  (∀ f e' s', under G Q R e' s' → goes e s e' s' → file_uuid f ∈ exec_outs e' → P (f, e') s') →
  wp (exec_capture_stderr l e) P E s.
Proof.
  intros [] HP. eapply wp_capture_stderr; [done..|]. intros f s' e' Hb He Hs Hf Ho. by apply HP.
Qed.

(** A file is provided while the execution grows. *)
Lemma wp_new_provided G Q R d ctx path s (P : File → EvaluationData TaskCallback → Prop) :
  builds G Q R s →
  (∀ f s', builds G Q R s' → extends s s' → ready s' (file_uuid f) → P f s') →
  wp (file ← new_file d; _ ← with_context ctx (on_dag (provide_file file path (from_file path))); mret file)
    P may_fail s.
Proof.
  intros Hb HP. unfold new_file. wp_steps. eapply wp_draw; [done|]. intros u s1 _ _ He1 _ Hb1 _. wp_steps.
  eapply (wp_provide_file G Q R); [done|by left|done|]. intros s2 Hb2 He2 Hr2. wp_steps.
  apply HP; [done|by etrans|done].
Qed.
Lemma wp_provide_input G Q R d ctx path sandbox e s (P : Execution → EvaluationData TaskCallback → Prop) :
  under G Q R e s →
  (∀ e' s', under G Q R e' s' → goes e s e' s' → P e' s') →
  wp (provide_input d ctx path sandbox e) P may_fail s.
Proof.
  intros Hu HP. unfold provide_input, new_file. pose proof (under_builds _ _ _ _ _ Hu) as Hb.
  wp_steps. eapply wp_draw; [done|]. intros u s1 _ _ He1 _ Hb1 _. wp_steps.
  eapply (wp_provide_file G Q (exec_outs e ++ R)); [done|by left|done|]. intros s2 Hb2 He2 Hr2. wp_steps.
  assert (extends s s2) as He by (by etrans).
  apply HP; [apply under_input; [by eapply under_extends|done]|split; [done|by rewrite exec_outs_input]].
Qed.
Lemma wp_content_input G Q R d content sandbox e s (P : Execution → EvaluationData TaskCallback → Prop) E :
  under G Q R e s →
  (∀ e' s', under G Q R e' s' → goes e s e' s' → P e' s') →
  wp (content_input d content sandbox e) P E s.
Proof.
  intros Hu HP. unfold content_input, new_file. pose proof (under_builds _ _ _ _ _ Hu) as Hb.
  wp_steps. eapply wp_draw; [done|]. intros u s1 _ _ He1 _ Hb1 _. wp_steps.
  eapply (wp_provide_content G Q (exec_outs e ++ R)); [done|]. intros s2 Hb2 He2 Hr2. wp_steps.
  assert (extends s s2) as He by (by etrans).
  apply HP; [apply under_input; [by eapply under_extends|done]|split; [done|by rewrite exec_outs_input]].
Qed.

Lemma wp_write_allow_fail G Q R file path x s (P : unit → EvaluationData TaskCallback → Prop) E :
  builds G Q R s → file ∈ R ∨ ready s file →
  (∀ s', builds G Q R s' → extends s s' → P tt s') →
  wp (on_dag (write_file_to_allow_fail file path x)) P E s.
Proof.
  intros Hb Hf HP.
  assert (wp (on_dag (file_callback file
      (set_write_to {| dest := path; wt_executable := x; allow_failure := true |}))) P E s) as Hw
    by (by eapply wp_file_callback).
  apply wp_on_dag in Hw. apply wp_on_dag. unfold write_file_to_allow_fail.
  destruct (dry_run _); [|done].
  replace (with_dag (eval_dag s) s) with s by (by destruct s). by apply HP.
Qed.

Lemma wp_write_logs G Q R dir name e s (P : Execution → EvaluationData TaskCallback → Prop) E :
  under G Q R e s →
  (∀ e' s', under G Q R e' s' → goes e s e' s' → P e' s') →
  wp (write_logs dir name e) P E s.
Proof.
  intros Hu HP. unfold write_logs. wp_steps; [|by apply HP; [|split]].
  eapply (wp_under_stderr G Q R); [done|]. intros f1 e1 s1 Hu1 Hg1 Hf1. cbn beta iota. wp_steps.
  eapply wp_write_allow_fail; [by destruct Hu1|left; set_solver|]. intros s2 Hb2 He2. wp_steps.
  eapply (wp_under_stdout G Q R); [by eapply under_extends|]. intros f3 e3 s3 Hu3 Hg3 Hf3. cbn beta iota. wp_steps.
  eapply wp_write_allow_fail; [by destruct Hu3|left; set_solver|]. intros s4 Hb4 He4. wp_steps.
  apply HP; [by eapply under_extends|]. destruct Hg1, Hg3.
  split; [do 3 (etrans; [done|]); done|by etrans].
Qed.

(** The end of an execution: its group, with its callbacks. *)
Lemma wp_finish G Q R t p k c e s (P : unit → EvaluationData TaskCallback → Prop) :
  under G Q R e s →
  (∀ s', builds G Q R s' → extends s s' → (∀ f, f ∈ exec_outs e → ready s' f) → P tt s') →
  wp (group ← exec_into_group e;
      let group := set_tag_priority t p group in
      _ ← bind_exec_callbacks (group_uuid group) k;
      _ ← done_with (group_uuid group) c;
      add_group group) P may_fail s.
Proof.
  intros [Hb Hs] HP. unfold exec_into_group. wp_steps. eapply wp_draw; [done|].
  intros u1 s1 _ _ He1 _ _ Hb1. wp_steps. set (g := set_tag_priority t p _).
  eapply wp_bind_callbacks; [exact Hb1|left; apply list_elem_of_here|]. intros s2 Hb2 He2. wp_steps.
  eapply wp_done_with; [exact Hb2|left; apply list_elem_of_here|]. intros s3 Hb3 He3 _.
  assert (extends s s3) as He03 by (by do 2 (etrans; [done|])).
  eapply (wp_add_single G Q R g e); [exact Hb3|done|by eapply supplied_extends|].
  intros s4 Hb4 He4 _ Hr4. apply HP; [done|by etrans|done].
Qed.

(** ** The figures *)
Lemma wp_add_asy_deps G Q R name deps e s (P : Execution → EvaluationData TaskCallback → Prop) :
  under G Q R e s →
  (∀ e' s', under G Q R e' s' → goes e s e' s' → P e' s') →
  wp (add_asy_deps name deps e) P may_fail s.
Proof.
  revert e s P. induction deps as [|d deps IH]; intros e s P Hu HP; simpl.
  { wp_steps. by apply HP; [|apply goes_refl]. }
  wp_steps. eapply wp_provide_input; [done|]. intros e1 s1 Hu1 Hg1. apply IH; [done|].
  intros e2 s2 Hu2 Hg2. apply HP; [done|by eapply goes_trans].
Qed.

Lemma find_asy_deps_no_panic p : no_panic (find_asy_deps p).
Proof.
  unfold find_asy_deps. destruct (path_parent p); [|done]. simpl. by destruct (glob _).
Qed.
Lemma neutral_set_limits h a : neutral (λ e, limits_mut h (set_args a e)).
Proof. by intros []. Qed.

Lemma wp_add_asset_group G Q R e booklet name step c s (P : unit → EvaluationData TaskCallback → Prop) :
  under G Q R e s →
  (∀ s', builds G Q R s' → extends s s' → (∀ f, f ∈ exec_outs e → ready s' f) → P tt s') →
  wp (add_asset_group e booklet name step c) P may_fail s.
Proof. intros Hu HP. by eapply wp_finish. Qed.

Lemma wp_asy_compile G Q R p booklet s (P : File * File → EvaluationData TaskCallback → Prop) :
  builds G Q R s →
  (∀ f1 f2 s', builds G Q R s' → extends s s' → ready s' (file_uuid f1) → ready s' (file_uuid f2) →
     P (f1, f2) s') →
  wp (asy_compile p booklet) P may_fail s.
Proof.
  intros Hb HP. unfold asy_compile. apply wp_bind.
  destruct (path_file_name p) as [name|]; [|done]. eapply wp_lift_ret; [done|]. cbn zeta. wp_steps.
  eapply (wp_provide_input G Q R).
  { apply under_neutral with (h := λ e, limits_mut _ (set_args _ e)); [apply neutral_set_limits|].
    by apply under_new. }
  intros e1 s1 Hu1 Hg1. wp_steps. pose proof (find_asy_deps_no_panic p) as Hnp.
  destruct (find_asy_deps p) as [deps|er|m|]; try done. eapply wp_lift_ret; [done|]. wp_steps.
  eapply wp_add_asy_deps; [done|]. intros e2 s2 Hu2 Hg2. wp_steps.
  eapply wp_under_output; [done|]. intros compiled e3 s3 Hu3 Hg3 Hf3. cbn beta iota. wp_steps.
  eapply wp_under_output; [done|]. intros vector e4 s4 Hu4 Hg4 Hf4. cbn beta iota. wp_steps.
  eapply wp_write_logs; [done|]. intros e5 s5 Hu5 Hg5. wp_steps.
  eapply wp_under_stderr; [done|]. intros f6 e6 s6 Hu6 Hg6 _. cbn beta iota. wp_steps.
  eapply wp_add_asset_group; [done|]. intros s7 Hb7 He7 Hr7. wp_steps.
  assert (file_uuid compiled ∈ exec_outs e6) as Hc6 by (do 3 (eapply goes_out; [done|]); done).
  assert (file_uuid vector ∈ exec_outs e6) as Hv6 by (do 2 (eapply goes_out; [done|]); done).
  eapply (wp_under_output G Q R).
  { apply under_input; [|by apply Hr7].
    apply under_neutral with (h := λ e, set_args _ (limits_mut _ e)); [by intros []|]. by apply under_new. }
  intros cropped e8 s8 Hu8 Hg8 Hf8. cbn beta iota. wp_steps.
  eapply wp_under_stderr; [done|]. intros f9 e9 s9 Hu9 Hg9 _. cbn beta iota. wp_steps.
  eapply wp_add_asset_group; [done|]. intros s10 Hb10 He10 Hr10. wp_steps.
  assert (extends s s7) as He07.
  { destruct Hg1, Hg2, Hg3, Hg4, Hg5, Hg6. do 6 (etrans; [done|]). done. }
  assert (extends s7 s10) as He710 by (destruct Hg8, Hg9; do 2 (etrans; [done|]); done).
  apply HP; [done|by etrans|apply Hr10; by eapply goes_out|].
  eapply extends_ready; [exact He710|]. by apply Hr7.
Qed.

(** ** The files of a statement *)

(** The paths that the patterns of a directory find are in it. *)
Definition statement_ok (st : BookletStatement) : Prop :=
  ∀ base l p, path_parent (st_path st) = Some base →
    glob_results (path_to_string base +:+ "/**/*") = Some l → Some p ∈ l →
    is_Some (path_strip_prefix base p).
Definition deps_ready s (deps : list (PathBuf * File)) : Prop := ∀ d, d ∈ deps → ready s (file_uuid d.2).
Lemma deps_ready_extends s s' deps : extends s s' → deps_ready s deps → deps_ready s' deps.
Proof. intros He Hd d Hin. eapply extends_ready; [done|]. by apply Hd. Qed.
Lemma deps_ready_app s deps deps' : deps_ready s deps → deps_ready s deps' → deps_ready s (deps ++ deps').
Proof. intros Hl Hr d [Hd|Hd]%elem_of_app; auto. Qed.

Lemma is_valid_no_panic p : no_panic (is_valid_pdf_dependency p).
Proof. unfold is_valid_pdf_dependency. by destruct (canonical p). Qed.

Lemma wp_statement_dependency G Q R st shown path s (P : File → EvaluationData TaskCallback → Prop) :
  builds G Q R s →
  (∀ f s', builds G Q R s' → extends s s' → ready s' (file_uuid f) → P f s') →
  wp (statement_dependency st shown path) P may_fail s.
Proof. intros Hb HP. by eapply wp_new_provided. Qed.

Lemma wp_process_possible G Q R st base p deps name logo s
    (P : list (PathBuf * File) → EvaluationData TaskCallback → Prop) :
  is_Some (path_strip_prefix base p) → builds G Q R s → deps_ready s deps →
  (∀ deps' s', builds G Q R s' → extends s s' → deps_ready s' deps' → P deps' s') →
  wp (process_possible_dependency st base p deps name logo) P may_fail s.
Proof.
  intros [suffix Hp] Hb Hd HP. unfold process_possible_dependency. rewrite Hp. apply wp_bind.
  eapply wp_lift_ret; [done|]. cbn zeta. case_decide.
  - wp_steps; [|by apply HP]. eapply (wp_asy_compile G Q R); [done|].
    intros f1 f2 s1 Hb1 He1 Hr1 Hr2. cbn beta iota. wp_steps. apply HP; [done..|].
    apply deps_ready_app; [by eapply deps_ready_extends|].
    intros d [->|[->|[]%elem_of_nil]%elem_of_cons]%elem_of_cons; done.
  - apply wp_bind. set (o := if decide _ then _ else _).
    assert (no_panic o) as Ho.
    { unfold o. case_decide; [|done]. case_match; [done|apply is_valid_no_panic]. }
    destruct o as [[]|er|m|]; try done; (eapply wp_lift_ret; [done|]); cbn beta iota; wp_steps; [|by apply HP].
    eapply (wp_statement_dependency G Q R); [done|]. intros f s1 Hb1 He1 Hr1. wp_steps. apply HP; [done..|].
    apply deps_ready_app; [by eapply deps_ready_extends|]. by intros d ->%list_elem_of_singleton.
Qed.

Lemma wp_process_dependencies G Q R st base l deps name logo s
    (P : list (PathBuf * File) → EvaluationData TaskCallback → Prop) :
  (∀ p, Some p ∈ l → is_Some (path_strip_prefix base p)) → builds G Q R s → deps_ready s deps →
  (∀ deps' s', builds G Q R s' → extends s s' → deps_ready s' deps' → P deps' s') →
  wp (process_dependencies st base l deps name logo) P may_fail s.
Proof.
  revert deps s P. induction l as [|[p|] l IH]; intros deps s P Hl Hb Hd HP; simpl; [|..|done].
  { wp_steps. by apply HP. }
  assert (∀ p, Some p ∈ l → is_Some (path_strip_prefix base p)) as Hl' by (intros q Hq; apply Hl; by right).
  wp_steps; [|by apply IH].
  eapply (wp_process_possible G Q R); [apply Hl; by left|done..|]. intros deps1 s1 Hb1 He1 Hd1.
  apply IH; [done..|]. intros deps2 s2 Hb2 He2 Hd2. apply HP; [done|by etrans|done].
Qed.

Lemma wp_gen_dependencies G Q R st base l deps s
    (P : list (PathBuf * File) → EvaluationData TaskCallback → Prop) :
  (∀ p, p ∈ l → is_Some (path_file_name (path_of_string p))) → builds G Q R s → deps_ready s deps →
  (∀ deps' s', builds G Q R s' → extends s s' → deps_ready s' deps' → P deps' s') →
  wp (gen_dependencies st base l deps) P may_fail s.
Proof.
  revert deps s P. induction l as [|p l IH]; intros deps s P Hl Hb Hd HP; simpl.
  { wp_steps. by apply HP. }
  assert (∀ q, q ∈ l → is_Some (path_file_name (path_of_string q))) as Hl' by (intros q Hq; apply Hl; by right).
  wp_steps; [|by apply IH].
  eapply (wp_statement_dependency G Q R); [done|]. intros f s1 Hb1 He1 Hr1. wp_steps.
  destruct (Hl p) as [n Hn]; [by left|]. rewrite Hn. eapply wp_lift_ret; [done|].
  apply IH; [done|done| |].
  - apply deps_ready_app; [by eapply deps_ready_extends|]. by intros d ->%list_elem_of_singleton.
  - intros deps2 s2 Hb2 He2 Hd2. apply HP; [done|by etrans|done].
Qed.

Lemma gen_dependencies_named p : p ∈ GEN_DEPENDENCIES → is_Some (path_file_name (path_of_string p)).
Proof.
  assert (Forall (λ p, is_Some (path_file_name (path_of_string p))) GEN_DEPENDENCIES) as Hf
    by (apply (bool_decide_unpack _); vm_compute; done).
  intros Hp. by eapply Forall_forall in Hf.
Qed.

Lemma wp_build_deps G Q R st name config s
    (P : list (PathBuf * File) → EvaluationData TaskCallback → Prop) :
  statement_ok st → builds G Q R s →
  (∀ deps s', builds G Q R s' → extends s s' → deps_ready s' deps → P deps s') →
  wp (build_deps st name config) P may_fail s.
Proof.
  intros Hst Hb HP. unfold build_deps. apply wp_bind.
  destruct (path_parent (st_path st)) as [base|] eqn:Hbase; [|done]. eapply wp_lift_ret; [done|].
  cbn zeta. apply wp_bind. destruct (glob_results _) as [l|] eqn:Hl; [|done]. eapply wp_lift_ret; [done|].
  apply wp_bind. eapply (wp_process_dependencies G Q R); [by intros p; eapply Hst|done|by intros d []%elem_of_nil|].
  intros deps s1 Hb1 He1 Hd1. eapply (wp_gen_dependencies G Q R); [apply gen_dependencies_named|done..|].
  intros deps2 s2 Hb2 He2 Hd2. apply HP; [done|by etrans|done].
Qed.
(** ** The compilation *)
Lemma under_input_deps G Q R base deps e s :
  under G Q R e s → deps_ready s deps →
  under G Q R (input_deps base deps e) s ∧ exec_outs (input_deps base deps e) = exec_outs e.
Proof.
  revert e. induction deps as [|[p f] deps IH]; intros e Hu Hd; simpl; [done|].
  destruct (IH (input (file_uuid f) (path_join base p) false e)) as [Hu' Ho].
  - apply under_input; [done|]. apply (Hd (p, f)). by left.
  - intros d Hin. apply Hd. by right.
  - split; [done|]. by rewrite Ho, exec_outs_input.
Qed.

Lemma wp_default_script G Q R name base deps e s (P : Execution → EvaluationData TaskCallback → Prop) :
  under G Q R e s →
  (∀ e' s', under G Q R e' s' → goes e s e' s' → P e' s') →
  wp (default_script name base deps e) P may_fail s.
Proof.
  intros Hu HP. unfold default_script. wp_steps; [|by apply HP; [|apply goes_refl]].
  unfold new_file. pose proof (under_builds _ _ _ _ _ Hu) as Hb.
  wp_steps. eapply wp_draw; [done|]. intros u s1 _ _ He1 _ Hb1 _. wp_steps.
  eapply (wp_provide_file G Q (exec_outs e ++ R)); [done|by left|done|]. intros s2 Hb2 He2 Hr2. wp_steps.
  assert (extends s s2) as He by (by etrans).
  apply HP; [apply under_input; [by eapply under_extends|done]|split; [done|by rewrite exec_outs_input]].
Qed.

(** The files of a statement, put in the sandbox. *)
Lemma wp_deps_input G Q R st name config (f : list (PathBuf * File) → list (PathBuf * File)) base e s
    (P : list (PathBuf * File) → EvaluationData TaskCallback → Prop) :
  statement_ok st → under G Q R e s → (∀ s deps, deps_ready s deps → deps_ready s (f deps)) →
  (∀ deps s', let e' := input_deps base (f deps) e in
     under G Q R e' s' → goes e s e' s' → P deps s') →
  wp (build_deps st name config) P may_fail s.
Proof.
  intros Hst Hu Hf HP. eapply (wp_build_deps G Q (exec_outs e ++ R)); [done|by destruct Hu|].
  intros deps s1 Hb1 He1 Hd1.
  destruct (under_input_deps G Q R base (f deps) e s1) as [Hu1 Ho1]; [by eapply under_extends|by apply Hf|].
  apply HP; [done|]. split; [done|by rewrite Ho1].
Qed.

Lemma wp_tex_statement G Q R b name st e s (P : Execution → EvaluationData TaskCallback → Prop) :
  statement_ok st → under G Q R e s →
  (∀ e' s', under G Q R e' s' → goes e s e' s' → P e' s') →
  wp (tex_statement b name st e) P may_fail s.
Proof.
  intros Hst Hu HP. unfold tex_statement. cbn zeta. wp_steps.
  eapply wp_content_input; [done|]. intros e1 s1 Hu1 Hg1. wp_steps.
  eapply (wp_deps_input G Q R _ _ _ (λ d, d) (path_of_string (config_name (st_config st)))); [done..|auto|]. intros deps s2 e2 Hu2 Hg2. wp_steps.
  eapply wp_default_script; [done|]. intros e3 s3 Hu3 Hg3.
  eapply wp_default_script; [done|]. intros e4 s4 Hu4 Hg4.
  apply HP; [done|]. do 3 (eapply goes_trans; [done|]). done.
Qed.
Lemma wp_tex_statements G Q R b name l e s (P : Execution → EvaluationData TaskCallback → Prop) :
  (∀ st, st ∈ l → statement_ok st) → under G Q R e s →
  (∀ e' s', under G Q R e' s' → goes e s e' s' → P e' s') →
  wp (tex_statements b name l e) P may_fail s.
Proof.
  revert e s P. induction l as [|st l IH]; intros e s P Hl Hu HP; simpl.
  { wp_steps. by apply HP; [|apply goes_refl]. }
  wp_steps. eapply wp_tex_statement; [apply Hl; by left|done|]. intros e1 s1 Hu1 Hg1.
  apply IH; [intros x Hx; apply Hl; by right|done|].
  intros e2 s2 Hu2 Hg2. apply HP; [done|by eapply goes_trans].
Qed.

Lemma wp_template_files G Q R dir l e s (P : Execution → EvaluationData TaskCallback → Prop) :
  under G Q R e s →
  (∀ e' s', under G Q R e' s' → goes e s e' s' → P e' s') →
  wp (template_files dir l e) P may_fail s.
Proof.
  revert e s P. induction l as [|[p|] l IH]; intros e s P Hu HP; simpl; [|..|done].
  { wp_steps. by apply HP; [|apply goes_refl]. }
  wp_steps; [|by apply IH].
  destruct (path_file_name p) as [n|]; [|done]. eapply wp_lift_ret; [done|]. wp_steps.
  unfold new_file. pose proof (under_builds _ _ _ _ _ Hu) as Hb.
  wp_steps. eapply wp_draw; [done|]. intros u s1 _ _ He1 _ Hb1 _. wp_steps.
  eapply (wp_provide_file G Q (exec_outs e ++ R)); [done|by left|done|]. intros s2 Hb2 He2 Hr2. wp_steps.
  assert (extends s s2) as He by (by etrans).
  destruct (path_strip_prefix dir p) as [q|]; [|done]. eapply wp_lift_ret; [done|].
  apply IH; [apply under_input; [by eapply under_extends|done]|]. intros e3 s3 Hu3 Hg3.
  apply HP; [done|]. eapply goes_trans; [|done]. split; [done|by rewrite exec_outs_input].
Qed.

Lemma wp_add_booklet_group G Q R b name c e s (P : unit → EvaluationData TaskCallback → Prop) :
  is_Some (path_file_name (booklet_dest b)) → under G Q R e s →
  (∀ s', builds G Q R s' → extends s s' → (∀ f, f ∈ exec_outs e → ready s' f) → P tt s') →
  wp (add_booklet_group b name c e) P may_fail s.
Proof.
  intros [n Hn] [Hb Hs] HP. unfold add_booklet_group, exec_into_group. wp_steps. eapply wp_draw; [done|].
  intros u1 s1 _ _ He1 _ _ Hb1. wp_steps. set (g := set_tag_priority _ _ _).
  eapply wp_bind_callbacks; [exact Hb1|left; apply list_elem_of_here|]. intros s2 Hb2 He2. wp_steps.
  rewrite Hn. eapply wp_lift_ret; [done|]. wp_steps.
  eapply wp_done_with; [exact Hb2|left; apply list_elem_of_here|]. intros s3 Hb3 He3 _.
  assert (extends s s3) as He03 by (by do 2 (etrans; [done|])).
  eapply (wp_add_single G Q R g e); [exact Hb3|done|by eapply supplied_extends|].
  intros s4 Hb4 He4 _ Hr4. apply HP; [done|by etrans|done].
Qed.

Definition booklet_ok (b : Booklet) : Prop := ∀ st, st ∈ statements b → statement_ok st.

Lemma wp_tex_execution G Q R b name s (P : unit → EvaluationData TaskCallback → Prop) :
  booklet_ok b → is_Some (path_file_name (booklet_dest b)) → builds G Q R s →
  (∀ s', builds G Q R s' → extends s s' → P tt s') →
  wp (tex_execution b name) P may_fail s.
Proof.
  intros Hok Hn Hb HP. unfold tex_execution. cbn zeta. wp_steps.
  eapply (wp_under_output G Q R).
  { apply under_neutral with (h := λ e, limits_mut _ (set_args _ e)); [apply neutral_set_limits|].
    by apply under_new. }
  intros out e1 s1 Hu1 Hg1 Hf1. cbn beta iota. wp_steps.
  eapply wp_content_input; [done|]. intros e2 s2 Hu2 Hg2. wp_steps.
  eapply wp_tex_statements; [done..|]. intros e3 s3 Hu3 Hg3. wp_steps.
  destruct (glob_results _) as [l|]; [|done]. eapply wp_lift_ret; [done|]. wp_steps.
  eapply wp_template_files; [done|]. intros e4 s4 Hu4 Hg4. wp_steps.
  eapply wp_write_logs; [done|]. intros e5 s5 Hu5 Hg5. wp_steps.
  eapply wp_under_stdout; [done|]. intros f6 e6 s6 Hu6 Hg6 _. cbn beta iota. wp_steps.
  eapply wp_add_booklet_group; [done..|]. intros s7 Hb7 He7 Hr7.
  eapply (wp_write_allow_fail G Q R); [done|right; apply Hr7; by do 5 (eapply goes_out; [done|])|].
  intros s8 Hb8 He8. apply HP; [done|].
  destruct Hg1, Hg2, Hg3, Hg4, Hg5, Hg6. do 7 (etrans; [done|]). done.
Qed.

Lemma wp_typst_statement G Q R b name st e s (P : Execution → EvaluationData TaskCallback → Prop) :
  statement_ok st → under G Q R e s →
  (∀ e' s', under G Q R e' s' → goes e s e' s' → P e' s') →
  wp (typst_statement b name st e) P may_fail s.
Proof.
  intros Hst Hu HP. unfold typst_statement. cbn zeta. wp_steps.
  eapply wp_content_input; [done|]. intros e1 s1 Hu1 Hg1. unfold new_file. wp_steps.
  eapply wp_draw; [by destruct Hu1|]. intros u s2 _ _ He2 _ Hb2 _. wp_steps.
  destruct (statement_yaml _) as [y|]; [|done]. eapply wp_lift_ret; [done|]. wp_steps.
  eapply (wp_provide_content G Q (exec_outs e1 ++ R)); [done|]. intros s3 Hb3 He3 Hr3. wp_steps.
  assert (extends s1 s3) as He13 by (by etrans). set (e3 := input _ _ _ e1).
  assert (under G Q R e3 s3) as Hu3 by (apply under_input; [by eapply under_extends|done]).
  assert (goes e1 s1 e3 s3) as Hg3 by (split; [done|by unfold e3; rewrite exec_outs_input]).
  eapply (wp_deps_input G Q R _ _ _ (λ deps, typst_dependency <$> deps)
    (path_join (path_of_string (config_name (st_config st))) (path_of_string "statement")));
    [done|exact Hu3|..].
  { intros s' deps Hd d (x & -> & Hx)%list_elem_of_fmap. exact (Hd x Hx). }
  intros deps s4 e4 Hu4 Hg4. wp_steps. apply HP; [done|].
  do 2 (eapply goes_trans; [done|]). done.
Qed.
Lemma wp_typst_statements G Q R b name l e s (P : Execution → EvaluationData TaskCallback → Prop) :
  (∀ st, st ∈ l → statement_ok st) → under G Q R e s →
  (∀ e' s', under G Q R e' s' → goes e s e' s' → P e' s') →
  wp (typst_statements b name l e) P may_fail s.
Proof.
  revert e s P. induction l as [|st l IH]; intros e s P Hl Hu HP; simpl.
  { wp_steps. by apply HP; [|apply goes_refl]. }
  wp_steps. eapply wp_typst_statement; [apply Hl; by left|done|]. intros e1 s1 Hu1 Hg1.
  apply IH; [intros x Hx; apply Hl; by right|done|].
  intros e2 s2 Hu2 Hg2. apply HP; [done|by eapply goes_trans].
Qed.

Lemma wp_intro_page G Q R page e s (P : Execution → EvaluationData TaskCallback → Prop) :
  under G Q R e s →
  (∀ e' s', under G Q R e' s' → goes e s e' s' → P e' s') →
  wp (match page with
      | None => mret e
      | Some page =>
          intro ← new_file "Intro page for booklet";
          let exec := input (file_uuid intro) (path_of_string "intro_page.typ") false e in
          _ ← on_dag (provide_file intro page (from_file page));
          mret exec
      end) P may_fail s.
Proof.
  intros Hu HP. destruct page as [page|]; [|wp_steps; by apply HP; [|apply goes_refl]].
  unfold new_file. pose proof (under_builds _ _ _ _ _ Hu) as Hb.
  wp_steps. eapply wp_draw; [done|]. intros u s1 _ _ He1 _ Hb1 _. wp_steps.
  eapply (wp_provide_file G Q (exec_outs e ++ R)); [done|by left|done|]. intros s2 Hb2 He2 Hr2. wp_steps.
  assert (extends s s2) as He by (by etrans).
  apply HP; [apply under_input; [by eapply under_extends|done]|split; [done|by rewrite exec_outs_input]].
Qed.

Lemma wp_typst_execution G Q R b name s (P : unit → EvaluationData TaskCallback → Prop) :
  booklet_ok b → is_Some (path_file_name (booklet_dest b)) → builds G Q R s →
  (∀ s', builds G Q R s' → extends s s' → P tt s') →
  wp (typst_execution b name) P may_fail s.
Proof.
  intros Hok Hn Hb HP. unfold typst_execution. cbn zeta. wp_steps.
  eapply (wp_under_output G Q R); [by apply under_new|].
  intros out e1 s1 Hu1 Hg1 Hf1. cbn beta iota. wp_steps.
  eapply wp_content_input; [done|]. intros e2 s2 Hu2 Hg2. unfold new_file. wp_steps.
  eapply wp_draw; [by destruct Hu2|]. intros u s3 _ _ He3 _ Hb3 _. wp_steps.
  destruct (config_yaml _) as [y|]; [|done]. eapply wp_lift_ret; [done|]. wp_steps.
  eapply (wp_provide_content G Q (exec_outs e2 ++ R)); [done|]. intros s4 Hb4 He4 Hr4. wp_steps.
  assert (extends s2 s4) as He24 by (by etrans).
  set (e4 := input _ _ _ e2).
  assert (under G Q R e4 s4) as Hu4 by (apply under_input; [by eapply under_extends|done]).
  assert (goes e2 s2 e4 s4) as Hg4 by (split; [done|by unfold e4; rewrite exec_outs_input]).
  eapply (wp_typst_statements G Q R); [done..|]. intros e5 s5 Hu5 Hg5. apply wp_bind.
  assert (goes e2 s2 e5 s5) as Hg25 by (by eapply goes_trans).
  eapply wp_intro_page; [done|]. intros e6 s6 Hu6 Hg6. wp_steps.
  eapply wp_write_logs; [done|]. intros e7 s7 Hu7 Hg7. wp_steps.
  eapply wp_under_stderr; [done|]. intros f8 e8 s8 Hu8 Hg8 _. cbn beta iota. wp_steps.
  eapply wp_add_booklet_group; [done..|]. intros s9 Hb9 He9 Hr9.
  eapply (wp_write_file_to G Q R); [done|right; apply Hr9; by do 5 (eapply goes_out; [done|])|].
  intros s10 Hb10 He10. apply HP; [done|].
  destruct Hg1, Hg2, Hg25, Hg6, Hg7, Hg8. do 7 (etrans; [done|]). done.
Qed.

Lemma wp_booklet_build G Q R b s (P : unit → EvaluationData TaskCallback → Prop) :
  booklet_ok b → builds G Q R s →
  (∀ s', builds G Q R s' → extends s s' → P tt s') →
  wp (booklet_build b) P may_fail s.
Proof.
  intros Hok Hb HP. unfold booklet_build. wp_steps.
  destruct (path_file_name (booklet_dest b)) as [n|] eqn:Hn; [|done]. eapply wp_lift_ret; [done|].
  destruct (booklet_lang b) as [lang|]; [|wp_steps; by apply HP]. wp_steps.
  unfold get_language_from_extension.
  assert (is_Some (path_file_name (booklet_dest b))) as Hsome by eauto.
  case_decide; [|case_decide]; [..|done]; (eapply wp_lift_ret; [done|]).
  - by eapply wp_tex_execution.
  - by eapply wp_typst_execution.
Qed.
End correct.
