(* ===== verification/IoiClean.v ===== *)
(** * The cleaning of an IOI task ([IOITask::clean], [ioi/mod.rs])

    What [task-maker --clean] removes from the directory of a task, on a disk that
    changes while it works and with a system that may refuse to remove anything.  The
    disk has no symbolic links: a path is what it names. *)
From S2P Require Import Prelude RustOrd Paths StoreKey Text UiMessage Machine.
From S2P Require Import Build Languages SourceFile SourceFileCorrect Scoring IoiDag IoiTaskCorrect CasesGen GenGen Booklets.

Abbreviation Tree := (gmap PathBuf Node).
Abbreviation Clean := (M Tree).

(** What the system refuses to remove, what is left of a directory that could not be
    removed entirely, and the crate [glob] on the present disk. *)
Class Removal : Type := {
  cannot_remove : PathBuf → bool;
  left_of_tree : PathBuf → PathBuf → bool;
  glob_in : Tree → string → option (list (option PathBuf))
}.

(** The disk as the functions that read the files see it. *)
Definition files_of (d : Tree) : LocalFiles := Build_LocalFiles (λ p, (λ _, p) <$> d !! p) d.

(** ** The operating system *)
Section system.
Context `{Removal}.

Definition exists_now (p : PathBuf) : Clean bool := gets (λ d, @path_exists (files_of d) p).
Definition tree_remove_file (ctx : string) (p : PathBuf) : Clean unit := λ d,
  match d !! p with
  | Some (RegularFile _ | UnreadableFile) =>
      if cannot_remove p then (Fail [ctx], d) else (Ret tt, delete p d)
  | _ => (Fail [ctx], d)
  end.
Definition inside (dir p : PathBuf) : Prop := dir `prefix_of` p ∧ p ≠ dir.
#[export] Instance inside_dec dir p : Decision (inside dir p) := _.
Definition dir_empty (dir : PathBuf) (d : Tree) : bool :=
  forallb (λ p, bool_decide (¬ inside dir p)) (map_to_list d).*1.
(** A directory that is not empty stays, with a warning. *)
Definition remove_dir (ctx : string) (dir : PathBuf) : Clean unit := λ d,
  match d !! dir with
  | Some Directory =>
      if cannot_remove dir then (Fail [ctx], d)
      else if dir_empty dir d then (Ret tt, delete dir d) else (Ret tt, d)
  | _ => (Fail [ctx], d)
  end.
Definition remove_dir_all (ctx : string) (dir : PathBuf) : Clean unit := λ d,
  if cannot_remove dir
  then (Fail [ctx], filter (λ x, ¬ (dir `prefix_of` x.1) ∨ left_of_tree dir x.1 = true) d)
  else (Ret tt, filter (λ x, ¬ (dir `prefix_of` x.1)) d).
End system.

Section clean.
Context `{Removal} (t : BuildTask).

Definition place (s : string) : PathBuf := path_join (bt_path t) (path_of_string s).

(** ** The steps of [clean] *)

(** The file is the one of a static generator: the second generator counts only when
    the first one is not static. *)
Definition is_static (file : PathBuf) (tc : BuildTestcase) : bool :=
  match input_generator tc, output_generator tc with
  | IG_StaticFile path, _ => bool_decide (path = file)
  | _, OG_StaticFile path => bool_decide (path = file)
  | _, _ => false
  end.
Definition used_static (file : PathBuf) : bool :=
  existsb (is_static file) (map_to_list (bt_testcases t)).*2.
Definition clean_text (file : option PathBuf) : Clean unit :=
  match file with
  | None => mret tt
  | Some file =>
      if used_static file then mret tt
      else tree_remove_file ("Failed to clean file " +:+ path_to_string file) file
  end.
Definition texts_pattern (dir : PathBuf) : string := path_to_string (path_join dir (path_of_string "*.txt")).
Definition clean_dir (name : string) : Clean unit :=
  let dir := place name in
  there ← exists_now dir;
  if there : bool then
    d ← get_st;
    l ← lift (ok_or "Invalid glob pattern" (glob_in d (texts_pattern dir)));
    _ ← for_each l clean_text;
    remove_dir ("Cannot remove " +:+ path_to_string dir) dir
  else mret tt.
Definition clean_bin : Clean unit :=
  let bin := place "bin" in
  there ← exists_now bin;
  if there : bool then remove_dir_all ("Failed to remove bin/ directory at " +:+ path_to_string bin) bin
  else mret tt.
Definition COMPILED_CHECKERS : list string := ["check/checker"; "cor/correttore"].
Definition clean_checker (name : string) : Clean unit :=
  let path := place name in
  there ← exists_now path;
  if there : bool then tree_remove_file ("Failed to remove compiled checker at " +:+ path_to_string path) path
  else mret tt.
Definition clean_checkers : Clean unit :=
  match task_type t with
  | TT_Batch (Checker_Custom _) => for_each COMPILED_CHECKERS clean_checker
  | _ => mret tt
  end.
(** A file that the task-maker writes, when what it is written from is there; it has to
    have the cookie. *)
Definition clean_generated (ctx : string) (sources : list string) (name : string) : Clean unit :=
  let path := place name in
  d ← get_st;
  if existsb (λ s, @path_exists (files_of d) (place s)) sources && @path_exists (files_of d) path then
    deletable ← lift (@is_tm_deletable (files_of d) path);
    if deletable : bool then tree_remove_file (ctx +:+ path_to_string path) path else mret tt
  else mret tt.
Definition clean : Clean unit :=
  _ ← for_each ["input"; "output"] clean_dir;
  _ ← clean_bin;
  _ ← clean_checkers;
  _ ← clean_generated "Failed to remove gen/GEN at " ["gen/cases.gen"] "gen/GEN";
  clean_generated "Failed to remove task.yaml at " ["task.yaml.orig"; "task.toml"] "task.yaml".

(** ** What is removed, from the disk as it is *)
Definition is_text (dir p : PathBuf) : Prop :=
  ∃ name, p = dir ++ [Normal name] ∧ ∃ stem, name = stem +:+ ".txt".
Definition generated_text (name : string) (p : PathBuf) : Prop :=
  is_text (place name) p ∧ used_static p = false.
Definition emptied (d : Tree) (name : string) : Prop :=
  ∀ q, is_Some (d !! q) → inside (place name) q → generated_text name q.
Definition compiled_checker (p : PathBuf) : Prop :=
  (∃ sf, task_type t = TT_Batch (Checker_Custom sf)) ∧ p ∈ place <$> COMPILED_CHECKERS.
Definition written (d : Tree) (sources : list string) (name : string) : Prop :=
  (∃ s, s ∈ sources ∧ is_Some (d !! place s)) ∧
  ∃ c, d !! place name = Some (RegularFile c) ∧
       text_contains TM_ALLOW_DELETE_COOKIE (from_utf8_lossy c) = true.
(** [dirs] tells which of the two directories go. *)
Definition texts_removed (dirs : string → Prop) (name : string) (p : PathBuf) : Prop :=
  generated_text name p ∨ p = place name ∧ dirs name.
Definition removed (dirs : string → Prop) (d : Tree) (p : PathBuf) : Prop :=
  texts_removed dirs "input" p ∨ texts_removed dirs "output" p ∨
  place "bin" `prefix_of` p ∨ compiled_checker p ∨
  (p = place "gen/GEN" ∧ written d ["gen/cases.gen"] "gen/GEN") ∨
  (p = place "task.yaml" ∧ written d ["task.yaml.orig"; "task.toml"] "task.yaml").

(** The path of a directory as part of a pattern: what is not a metacharacter of [glob]
    stands for itself.  The matches of [dir/*.txt] are then text files of the directory, and
    for the exact result all of those present. *)
Definition metacharacter (c : Ascii.ascii) : bool :=
  bool_decide (c ∈ String.list_ascii_of_string "?*[]").
Definition plain_path (dir : PathBuf) : Prop :=
  Forall (λ c, match c with Normal s => forallb (negb ∘ metacharacter) (String.list_ascii_of_string s) = true
               | _ => True end) dir.
Definition glob_sound : Prop := plain_path (bt_path t) → ∀ d name l,
  name ∈ ["input"; "output"] → glob_in d (texts_pattern (place name)) = Some l →
  ∀ p, Some p ∈ l → is_text (place name) p ∧ is_Some (d !! p).
Definition glob_complete (d : Tree) (name : string) : Prop := ∃ l,
  glob_in d (texts_pattern (place name)) = Some l ∧ NoDup (omap id l) ∧
  ∀ p, is_text (place name) p → is_Some (d !! p) → Some p ∈ l.

(** A directory as it should be, and a system that refuses nothing. *)
Record ordinary (d : Tree) : Prop := mkOrdinary {
  or_removes p : cannot_remove p = false;
  or_sound : glob_sound;
  or_plain : plain_path (bt_path t);
  or_complete d' name : d' ⊆ d → name ∈ ["input"; "output"] → glob_complete d' name;
  or_tree name p : name ∈ ["input"; "output"; "bin"] → place name `prefix_of` p → is_Some (d !! p) →
    is_Some (d !! place name);
  or_dirs name n : name ∈ ["input"; "output"] → d !! place name = Some n → n = Directory;
  or_texts name p : name ∈ ["input"; "output"] → generated_text name p → d !! p ≠ Some Directory;
  or_checkers p : compiled_checker p → d !! p ≠ Some Directory;
  or_written name n : name ∈ ["gen/GEN"; "task.yaml"] → d !! place name = Some n → ∃ c, n = RegularFile c
}.

(** ** Lemmas *)
Implicit Types (R S : PathBuf → Prop) (d : Tree) (p dir : PathBuf) (name ctx : string).

Lemma exists_in d p : @path_exists (files_of d) p = true ↔ is_Some (d !! p).
Proof.
  rewrite path_exists_stat. unfold stat, files_of. simpl. destruct (d !! p) eqn:Hp; simpl; [|done].
  by rewrite Hp.
Qed.
Lemma not_exists_in d p : @path_exists (files_of d) p = false ↔ d !! p = None.
Proof. rewrite <- not_true_iff_false, exists_in, <- eq_None_not_Some. done. Qed.
Lemma read_in d p : @stat (files_of d) p = d !! p.
Proof. unfold stat, files_of. simpl. destruct (d !! p) eqn:Hp; [done|]. done. Qed.

(** The disk [d'] is [d] without the places of [R]. *)
Definition removes (R : PathBuf → Prop) (d d' : Tree) : Prop :=
  ∀ p n, d' !! p = Some n ↔ d !! p = Some n ∧ ¬ R p.
Lemma removes_none R d : (∀ p, is_Some (d !! p) → ¬ R p) → removes R d d.
Proof. intros HR p n. split; [intros Hp; split; [done|apply HR; eauto]|by intros []]. Qed.
Lemma removes_compose R1 R2 R d d1 d2 :
  removes R1 d d1 → removes R2 d1 d2 → (∀ p, is_Some (d !! p) → R p ↔ R1 p ∨ R2 p) → removes R d d2.
Proof.
  intros H1 H2 HR p n. rewrite (H2 p n), (H1 p n). split.
  - intros [[Hp Hr1] Hr2]. split; [done|]. rewrite HR by eauto. naive_solver.
  - intros [Hp Hr]. rewrite HR in Hr by eauto. naive_solver.
Qed.
Lemma removes_subset R d d' : removes R d d' → d' ⊆ d.
Proof. intros HR. apply map_subseteq_spec. intros p n Hp. by apply HR in Hp as []. Qed.
Lemma removes_kept R d d' p : removes R d d' → ¬ R p → d' !! p = d !! p.
Proof.
  intros HR Hp. apply option_eq. intros n. rewrite (HR p n). naive_solver.
Qed.
Lemma removes_delete d p : removes (λ q, q = p) d (delete p d).
Proof. intros q n. rewrite lookup_delete_Some. naive_solver. Qed.

Lemma wp_tree_remove_file ctx p d (Q : unit → Tree → Prop) :
  cannot_remove p = false → (∃ n, d !! p = Some n ∧ n ≠ Directory) → Q tt (delete p d) →
  wp (tree_remove_file ctx p) Q no_error d.
Proof.
  intros Hc (n & Hn & Hd) HQ. unfold wp, tree_remove_file. rewrite Hn. by destruct n; [rewrite Hc..|].
Qed.
Lemma dir_empty_spec dir d : dir_empty dir d = true ↔ ∀ q, is_Some (d !! q) → ¬ inside dir q.
Proof.
  unfold dir_empty. rewrite forallb_forall. setoid_rewrite <- list_elem_of_In. split.
  - intros Hf q [n Hn]. eapply bool_decide_eq_true, Hf. apply list_elem_of_fmap.
    exists (q, n). by rewrite elem_of_map_to_list.
  - intros Hf q ([q' n] & -> & Hq%elem_of_map_to_list)%list_elem_of_fmap.
    apply bool_decide_eq_true. apply Hf. eauto.
Qed.
Lemma wp_remove_dir ctx dir d :
  cannot_remove dir = false → d !! dir = Some Directory →
  wp (remove_dir ctx dir) (λ _, removes (λ p, p = dir ∧ ∀ q, is_Some (d !! q) → ¬ inside dir q) d) no_error d.
Proof.
  intros Hc Hd. unfold wp, remove_dir. rewrite Hd, Hc. destruct (dir_empty dir d) eqn:He.
  - intros p n. rewrite (removes_delete d dir p n). pose proof (proj1 (dir_empty_spec _ _) He). naive_solver.
  - apply removes_none. intros p _ [-> Hn]. pose proof (proj2 (dir_empty_spec _ _) Hn). congruence.
Qed.

(** ** The steps *)
Lemma wp_clean_texts name d : 
  ordinary d → name ∈ ["input"; "output"] → ∀ d0, d0 ⊆ d → ∀ l,
  glob_in d0 (texts_pattern (place name)) = Some l → NoDup (omap id l) →
  (∀ p, is_text (place name) p → is_Some (d0 !! p) → Some p ∈ l) →
  wp (for_each l clean_text) (λ _, removes (generated_text name) d0) no_error d0.
Proof.
  intros Ho Hn d0 Hd l Hl Hnd Hall.
  pose (I := λ (l : list (option PathBuf)) d', NoDup (omap id l) ∧ (∀ p, Some p ∈ l → is_text (place name) p) ∧
    d' ⊆ d0 ∧ (∀ p, Some p ∈ l → is_Some (d' !! p)) ∧
    ∀ p n, d0 !! p = Some n → is_Some (d' !! p) ↔ ¬ generated_text name p ∨ Some p ∈ l).
  eapply wp_mono; [apply (wp_for_each I)| |done].
  - split_and!; [done|intros p Hp; by eapply (or_sound _ Ho (or_plain _ Ho))|done|intros p Hp; by eapply (or_sound _ Ho (or_plain _ Ho))|].
    intros p n Hp. split; [|by eauto]. intros _. destruct (decide (Some p ∈ l)) as [?|Hnot]; [by right|left].
    intros [Ht _]. apply Hnot. eauto.
  - clear Hall Hl Hnd. intros [f|] l' d1 (Hnd & Htext & Hsub & Hin & Hk); simpl in *.
    2: { apply wp_ret. split_and!; [done|..]; [intros p Hp; apply Htext; by right|done|intros p Hp; apply Hin; by right|].
         intros p n Hp. rewrite (Hk p n Hp), elem_of_cons. naive_solver. }
    apply NoDup_cons in Hnd as [Hf Hnd].
    assert (Some f ∉ l') as Hf' by (intros Hin'; apply Hf; apply list_elem_of_omap; by exists (Some f)).
    assert (∀ p, Some p ∈ l' → p ≠ f) as Hne by (by intros p Hp ->).
    destruct (used_static f) eqn:Hu.
    + apply wp_ret. split_and!; [done|intros p Hp; apply Htext; by right|done|intros p Hp; apply Hin; by right|].
      intros p n Hp. rewrite (Hk p n Hp), elem_of_cons. split; [|naive_solver].
      intros [?|[[= ->]|?]]; [by left| |by right]. left. intros [_ ?]. congruence.
    + assert (generated_text name f) as Hg by (split; [apply Htext; by left|done]).
      destruct (Hin f) as [n Hfn]; [by left|].
      apply wp_tree_remove_file; [apply (or_removes _ Ho)| |].
      { exists n. split; [done|]. intros ->. eapply (or_texts _ Ho); [done|exact Hg|].
        eapply lookup_weaken; [|exact Hd]. by eapply lookup_weaken. }
      split_and!; [done|intros p Hp; apply Htext; by right|by etrans; [apply delete_subseteq|]
        |intros p Hp; rewrite lookup_delete_ne by (symmetry; auto); apply Hin; by right|].
      intros p m Hp. destruct (decide (p = f)) as [->|Hpf].
      * rewrite lookup_delete_eq. split; [by intros []|]. by intros [?|?].
      * rewrite lookup_delete_ne by done. rewrite (Hk p m Hp), elem_of_cons. naive_solver.
  - intros [] d1 (_ & _ & Hsub & _ & Hk) p n. split.
    + intros Hp. assert (d0 !! p = Some n) as Hp0 by (by eapply lookup_weaken). split; [done|].
      destruct (proj1 (Hk p n Hp0)) as [?|[]%elem_of_nil]; eauto.
    + intros [Hp Hg]. destruct (proj2 (Hk p n Hp)) as [m Hm]; [by left|].
      rewrite Hm. by rewrite <- (lookup_weaken _ _ _ _ Hm Hsub).
Qed.
Lemma text_inside name p : is_text (place name) p → inside (place name) p.
Proof.
  intros (x & -> & _). split; [by apply prefix_app_r|]. intros Heq. apply (f_equal length) in Heq.
  rewrite length_app in Heq. simpl in Heq. lia.
Qed.
Lemma wp_clean_dir name d d0 :
  ordinary d → name ∈ ["input"; "output"] → d0 ⊆ d → d0 !! place name = d !! place name →
  wp (clean_dir name) (λ _, removes (texts_removed (emptied d0) name) d0) no_error d0.
Proof.
  intros Ho Hn Hd Hsame. unfold clean_dir, exists_now. cbv zeta. apply wp_bind, wp_gets.
  destruct (path_exists _) eqn:Hex.
  2: { apply not_exists_in in Hex. apply wp_ret, removes_none. intros p [m Hm] [[Ht _]|[-> _]]; [|congruence].
    destruct (or_tree _ Ho name p) as [x Hx]; [set_solver|by apply text_inside| |congruence].
    exists m. by eapply lookup_weaken. }
  apply exists_in in Hex as [n Hdir]. wp_steps. destruct (or_complete _ Ho d0 name Hd Hn) as (l & Hl & Hnd & Hall).
  assert (∀ p, Some p ∈ l → is_text (place name) p) as Htext by (intros p Hp; by eapply (or_sound _ Ho (or_plain _ Ho))).
  eapply wp_lift_ret; [by rewrite Hl|]. wp_steps.
  eapply wp_mono; [by eapply wp_clean_texts|intros [] d1 H1|done].
  assert (place name ≠ place name → False) as _ by done.
  assert (¬ generated_text name (place name)) as Hnot by (by intros [[_ ?]%text_inside _]).
  eapply wp_mono; [apply wp_remove_dir; [apply (or_removes _ Ho)|]|intros [] d2 H2|done].
  { rewrite (removes_kept _ _ _ _ H1 Hnot), Hdir. f_equal. apply (or_dirs _ Ho name n Hn). by rewrite <- Hsame. }
  eapply removes_compose; [exact H1|exact H2|]. intros p _. apply or_iff_compat_l, and_iff_compat_l.
  assert (∀ q, is_Some (d1 !! q) ↔ is_Some (d0 !! q) ∧ ¬ generated_text name q) as Hk
    by (intros q; unfold is_Some; setoid_rewrite (H1 q); naive_solver).
  unfold emptied. setoid_rewrite Hk. split; [naive_solver|]. intros He q Hq Hin.
  destruct (decide (Some q ∈ l)) as [Hql|Hql].
  - split; [by apply Htext|]. destruct (used_static q) eqn:Hu; [|done]. exfalso. eapply He; [|exact Hin].
    split; [done|]. intros [_ ?]. congruence.
  - exfalso. eapply He; [|exact Hin]. split; [done|]. intros [Ht _]. auto.
Qed.

(** The entries of the directory of the task: what a step removes is under some of
    them. *)
Definition top (s : string) (p : PathBuf) : Prop := (bt_path t ++ [Normal s]) `prefix_of` p.
Definition areas (l : list string) R : Prop := ∀ p, R p → ∃ s, s ∈ l ∧ top s p.
Lemma top_unique s s' p : top s p → top s' p → s = s'.
Proof.
  intros [k ->] [k' Heq]. rewrite <- !app_assoc in Heq. apply app_inv_head in Heq. by injection Heq.
Qed.
Lemma top_place s c l : path_of_string s = Normal c :: l → top c (place s).
Proof. intros Hs. exists l. unfold place. rewrite Hs. simpl. by rewrite <- app_assoc. Qed.
Lemma areas_kept l R s p : areas l R → top s p → s ∉ l → ¬ R p.
Proof. intros Hl Hp Hs (s' & Hs' & Hp')%Hl. by rewrite <- (top_unique _ _ _ Hp Hp') in Hs'. Qed.
Lemma areas_or l1 l2 R R2 : areas l1 R → areas l2 R2 → areas (l1 ++ l2) (λ p, R p ∨ R2 p).
Proof. intros H1 H2 p [(s & Hs & ?)%H1|(s & Hs & ?)%H2]; exists s; set_solver. Qed.
Lemma areas_place s c l (P : Prop) : path_of_string s = Normal c :: l → areas [c] (λ p, p = place s ∧ P).
Proof. intros Hs p [-> _]. exists c. split; [set_solver|by eapply top_place]. Qed.
Lemma areas_texts dirs name : path_of_string name = [Normal name] → areas [name] (texts_removed dirs name).
Proof.
  intros Hn p Hp. exists name. split; [set_solver|].
  destruct Hp as [[[[k ->] _]%text_inside _]|[-> _]]; [|by eapply top_place].
  exists k. unfold place. by rewrite Hn.
Qed.
Lemma areas_bin : areas ["bin"] (top "bin").
Proof. intros p Hp. exists "bin". set_solver. Qed.
Lemma areas_checkers : areas ["check"; "cor"] compiled_checker.
Proof.
  intros p [_ [->|[->|[]%elem_of_nil]%elem_of_cons]%elem_of_cons]; eexists; (split; [|by eapply top_place]); set_solver.
Qed.

(** A step that runs when the ones before it have removed [R], elsewhere. *)
Lemma wp_after R S (S0 : PathBuf → Prop) d d0 (m : Clean unit) :
  removes R d d0 → wp m (λ _, removes S0 d0) no_error d0 → (∀ p, is_Some (d !! p) → S0 p ↔ S p) →
  wp m (λ _, removes (λ p, R p ∨ S p) d) no_error d0.
Proof.
  intros HR Hm HS. eapply wp_mono; [exact Hm|intros [] d1 H1|done].
  eapply removes_compose; [exact HR|exact H1|]. intros p Hp. by rewrite <- (HS p Hp).
Qed.
Lemma wp_clean_bin R d d0 :
  ordinary d → removes R d d0 → ¬ R (place "bin") →
  wp clean_bin (λ _, removes (λ p, R p ∨ top "bin" p) d) no_error d0.
Proof.
  intros Ho HR Hbin. eapply (wp_after R (top "bin") (top "bin")); [exact HR| |done]. unfold clean_bin, exists_now. cbv zeta.
  apply wp_bind, wp_gets. destruct (path_exists _) eqn:Hex.
  - unfold wp, remove_dir_all. rewrite (or_removes _ Ho). intros p n. rewrite map_lookup_filter_Some. done.
  - apply not_exists_in in Hex. rewrite (removes_kept _ _ _ _ HR Hbin) in Hex.
    apply wp_ret, removes_none. intros p [n Hp] Htop.
    destruct (or_tree _ Ho "bin" p) as [x Hx]; [set_solver|done| |congruence].
    apply HR in Hp as [Hp _]. eauto.
Qed.
Lemma wp_clean_checker R d d0 name :
  ordinary d → removes R d d0 → compiled_checker (place name) →
  wp (clean_checker name) (λ _, removes (λ p, R p ∨ p = place name) d) no_error d0.
Proof.
  intros Ho HR Hc. eapply (wp_after R _ (λ p, p = place name)); [exact HR| |done].
  unfold clean_checker, exists_now. cbv zeta. apply wp_bind, wp_gets. destruct (path_exists _) eqn:Hex.
  - apply exists_in in Hex as [n Hn]. apply wp_tree_remove_file; [apply (or_removes _ Ho)| |apply removes_delete].
    exists n. split; [done|]. intros ->. apply HR in Hn as [Hn _]. by apply (or_checkers _ Ho _ Hc).
  - apply not_exists_in in Hex. apply wp_ret, removes_none. intros p [n Hp] ->. congruence.
Qed.
Lemma wp_clean_checkers R d d0 :
  ordinary d → removes R d d0 →
  wp clean_checkers (λ _, removes (λ p, R p ∨ compiled_checker p) d) no_error d0.
Proof.
  intros Ho HR. unfold clean_checkers.
  assert ((∀ sf, task_type t ≠ TT_Batch (Checker_Custom sf)) →
    wp (mret tt) (λ _, removes (λ p, R p ∨ compiled_checker p) d) no_error d0) as Hno.
  { intros Hne. apply wp_ret. eapply removes_compose; [exact HR|by apply (removes_none (λ _, False)); intros ? _ []|].
    intros p _. assert (¬ compiled_checker p) by (by intros [[sf Hsf] _]; apply (Hne sf)). tauto. }
  destruct (task_type t) as [[|sf]| | |] eqn:Ht; try (apply Hno; congruence). clear Hno.
  assert (∀ p, p ∈ place <$> COMPILED_CHECKERS → compiled_checker p) as Hc by (split; [by exists sf|done]).
  cbn [for_each COMPILED_CHECKERS]. apply wp_bind.
  eapply wp_mono; [eapply wp_clean_checker; [done|exact HR|apply Hc; set_solver]|intros [] d1 H1|done].
  apply wp_bind. eapply wp_mono; [eapply wp_clean_checker; [done|exact H1|apply Hc; set_solver]|intros [] d2 H2|done].
  apply wp_ret. intros p n. rewrite (H2 p n).
  assert (compiled_checker p ↔ p = place "check/checker" ∨ p = place "cor/correttore"); [|tauto].
  split; [|intros Hp; apply Hc; set_solver].
  by intros [_ [->|[->|[]%elem_of_nil]%elem_of_cons]%elem_of_cons]; [left|right].
Qed.
Lemma wp_clean_generated R d d0 ctx sources name :
  ordinary d → removes R d d0 → name ∈ ["gen/GEN"; "task.yaml"] → ¬ R (place name) →
  (∀ s, s ∈ sources → ¬ R (place s)) →
  wp (clean_generated ctx sources name) (λ _, removes (λ p, R p ∨ p = place name ∧ written d sources name) d)
    no_error d0.
Proof.
  intros Ho HR Hin Hn Hs. pose proof (removes_kept _ _ _ _ HR Hn) as Hkeep.
  eapply (wp_after R _ (λ p, p = place name ∧ written d sources name)); [exact HR| |done].
  unfold clean_generated. cbv zeta. apply wp_bind, wp_get.
  assert (existsb (λ s, @path_exists (files_of d0) (place s)) sources = true ↔
    ∃ s, s ∈ sources ∧ is_Some (d !! place s)) as Hsrc.
  { rewrite existsb_exists. setoid_rewrite <- list_elem_of_In. setoid_rewrite exists_in.
    assert (∀ s, s ∈ sources → d0 !! place s = d !! place s) as Hk by eauto using removes_kept.
    split; intros (s & Hin' & Hp); exists s; (split; [done|]); [rewrite <- (Hk s Hin')|rewrite (Hk s Hin')]; done. }
  destruct (_ && _) eqn:Hboth.
  - apply andb_true_iff in Hboth as [Hsrc' [n Hex]%exists_in]. apply Hsrc in Hsrc'.
    destruct (or_written _ Ho name n Hin) as [c ->]; [by rewrite <- Hkeep|].
    apply wp_bind. eapply wp_lift_ret; [unfold is_tm_deletable; by rewrite read_in, Hex|].
    destruct (text_contains _ _) eqn:Hcookie.
    + apply wp_tree_remove_file; [apply (or_removes _ Ho)|by eexists|].
      intros p m. rewrite (removes_delete d0 (place name) p m).
      assert (written d sources name) by (split; [done|]; exists c; by rewrite <- Hkeep). tauto.
    + apply wp_ret, removes_none. intros p _ (-> & _ & c' & Hc' & Htrue).
      rewrite <- Hkeep, Hex in Hc'. injection Hc' as ->. congruence.
  - apply wp_ret, removes_none. intros p [n Hp] (-> & Hsrc'%Hsrc & _). rewrite Hsrc' in Hboth. simpl in Hboth.
    apply not_exists_in in Hboth. congruence.
Qed.

(** ** What [clean] removes *)
Lemma emptied_after R d d1 name :
  removes R d d1 → (∀ p, inside (place name) p → ¬ R p) → emptied d1 name ↔ emptied d name.
Proof.
  intros HR Hin. unfold emptied. split; intros He q Hq Hi; (apply He; [|done]);
    by rewrite (removes_kept _ _ _ _ HR (Hin q Hi)) in *.
Qed.
Lemma wp_after_texts R d d0 l name :
  ordinary d → name ∈ ["input"; "output"] → path_of_string name = [Normal name] →
  removes R d d0 → areas l R → name ∉ l →
  wp (clean_dir name) (λ _, removes (λ p, R p ∨ texts_removed (emptied d) name p) d) no_error d0.
Proof.
  intros Ho Hin Hn HR Hl Hnl. eapply (wp_after R _ (texts_removed (emptied d0) name)); [exact HR| |].
  - apply (wp_clean_dir name d d0); [done|done|by eapply removes_subset|].
    eapply removes_kept; [exact HR|]. eapply areas_kept; [exact Hl|by eapply top_place|done].
  - intros p _. unfold texts_removed. rewrite (emptied_after _ d d0 name HR); [done|].
    intros q [[k ->] _]. eapply areas_kept; [exact Hl| |exact Hnl]. exists k. unfold place. by rewrite Hn.
Qed.
Ltac kept A := eapply (areas_kept _ _ _ _ A); [by eapply top_place|set_solver].
Lemma wp_clean d : ordinary d → wp clean (λ _, removes (removed (emptied d) d) d) no_error d.
Proof.
  intros Ho. unfold clean. cbn [for_each]. apply wp_bind, wp_bind.
  assert (removes (λ _, False) d d) as H0 by (by apply removes_none; intros ? _ []).
  assert (areas [] (λ _, False)) as A0 by (by intros p []).
  eapply wp_mono; [by eapply (wp_after_texts _ d d [] "input"); [|set_solver|..|set_solver]|intros [] d1 H1|done].
  pose proof (areas_or _ _ _ _ A0 (areas_texts (emptied d) "input" eq_refl)) as A1.
  apply wp_bind.
  eapply wp_mono; [eapply (wp_after_texts _ d d1 _ "output"); [done|set_solver|done|exact H1|exact A1|set_solver]
    |intros [] d2 H2; apply wp_ret|done].
  pose proof (areas_or _ _ _ _ A1 (areas_texts (emptied d) "output" eq_refl)) as A2.
  apply wp_bind. eapply wp_mono; [eapply wp_clean_bin; [done|exact H2|kept A2]|intros [] d3 H3|done].
  pose proof (areas_or _ _ _ _ A2 areas_bin) as A3.
  apply wp_bind. eapply wp_mono; [eapply wp_clean_checkers; [done|exact H3]|intros [] d4 H4|done].
  pose proof (areas_or _ _ _ _ A3 areas_checkers) as A4.
  apply wp_bind.
  eapply wp_mono; [eapply wp_clean_generated; [done|exact H4|set_solver|kept A4|]|intros [] d5 H5|done].
  { intros s ->%list_elem_of_singleton. kept A4. }
  pose proof (areas_or _ _ _ _ A4 (areas_place "gen/GEN" "gen" _ (written d ["gen/cases.gen"] "gen/GEN") eq_refl)) as A5.
  eapply wp_mono; [eapply wp_clean_generated; [done|exact H5|set_solver|kept A5|]|intros [] d6 H6|done].
  { intros s [->|[->|[]%elem_of_nil]%elem_of_cons]%elem_of_cons; kept A5. }
  intros p n. rewrite (H6 p n). unfold removed. change (place "bin" `prefix_of` p) with (top "bin" p). tauto.
Qed.

(** ** Whatever the system refuses *)

(** Nothing is added, and what is missing is of the things to clean. *)
Definition cleaning d d' : Prop :=
  d' ⊆ d ∧ ∀ p, is_Some (d !! p) → d' !! p = None → removed (λ _, True) d p.
Lemma cleaning_filter d d' (P : PathBuf * Node → Prop) `{∀ x, Decision (P x)} :
  cleaning d d' → (∀ p n, ¬ P (p, n) → removed (λ _, True) d p) → cleaning d (filter P d').
Proof.
  intros [Hsub Hc] HP. split; [by etrans; [apply map_filter_subseteq|]|]. intros p Hp Hn.
  destruct (d' !! p) as [n|] eqn:Hd; [|by apply Hc]. apply (HP p n). intros Hin.
  by rewrite (map_lookup_filter_Some_2 _ _ _ _ Hd Hin) in Hn.
Qed.
Lemma cleaning_delete d d' p : cleaning d d' → removed (λ _, True) d p → cleaning d (delete p d').
Proof.
  intros [Hsub Hc] Hp. split; [by etrans; [apply delete_subseteq|]|]. intros q Hq Hn.
  destruct (decide (q = p)) as [->|Hne]; [done|]. rewrite lookup_delete_ne in Hn by done. by apply Hc.
Qed.
Abbreviation steps d m := (∀ d', cleaning d d' → wp m (λ _, cleaning d) (cleaning d) d').
Lemma tree_remove_file_cleans d ctx p : removed (λ _, True) d p → steps d (tree_remove_file ctx p).
Proof.
  intros Hp d' Hd. unfold wp, tree_remove_file. destruct (d' !! p) as [[]|]; try done;
    (destruct (cannot_remove p); [done|by apply cleaning_delete]).
Qed.
Lemma clean_dir_cleans d name :
  glob_sound → plain_path (bt_path t) → name ∈ ["input"; "output"] → steps d (clean_dir name).
Proof.
  intros Hg Hplain Hn d' Hd.
  assert (∀ p, texts_removed (λ _, True) name p → removed (λ _, True) d p) as Hr
    by (apply elem_of_cons in Hn as [->|[->|[]%elem_of_nil]%elem_of_cons]; unfold removed; auto).
  unfold clean_dir, exists_now. cbv zeta. wp_steps; [|done].
  unfold lift. destruct (glob_in d' _) as [l|] eqn:Hl; [|done]. eapply wp_lift_ret; [done|]. wp_steps.
  eapply wp_mono; [apply (wp_for_each_inv (cleaning d)); [done|]|intros [] d1 Hd1|done].
  - intros [f|] d1 Hf Hd1; [|by wp_steps]. simpl. destruct (used_static f) eqn:Hu; [by wp_steps|].
    apply tree_remove_file_cleans; [|done]. apply Hr. left. split; [|done].
    by eapply (Hg Hplain).
  - unfold wp, remove_dir. destruct (d1 !! _) as [[]|]; try done.
    destruct (cannot_remove _); [done|]. destruct (dir_empty _ _); [|done].
    apply cleaning_delete; [done|]. apply Hr. by right.
Qed.
Lemma clean_bin_cleans d : steps d clean_bin.
Proof.
  intros d' Hd. unfold clean_bin, exists_now. cbv zeta. wp_steps; [|done].
  assert (∀ p, ¬ ¬ place "bin" `prefix_of` p → removed (λ _, True) d p) as Hbin
    by (intros p Hp%dec_stable; unfold removed; auto).
  unfold wp, remove_dir_all. destruct (cannot_remove _); apply cleaning_filter; [done| |done|]; intros p n Hp;
    apply Hbin; [tauto|done].
Qed.
Lemma clean_checkers_cleans d : steps d clean_checkers.
Proof.
  intros d' Hd. unfold clean_checkers. destruct (task_type t) as [[|sf]| | |] eqn:Ht; try by wp_steps.
  eapply wp_for_each_inv; [done|]. intros name d1 Hname Hd1. unfold clean_checker, exists_now. cbv zeta.
  wp_steps; [|done]. apply tree_remove_file_cleans; [|done]. unfold removed. do 3 right. left.
  split; [by exists sf|by apply list_elem_of_fmap_2].
Qed.
Lemma clean_generated_cleans d ctx sources name :
  (∀ p, p = place name ∧ written d sources name → removed (λ _, True) d p) →
  steps d (clean_generated ctx sources name).
Proof.
  intros Hr d' Hd. unfold clean_generated. cbv zeta. wp_steps; [|done].
  apply andb_true_iff in Heqb as [(s & Hs & Hex%exists_in)%existsb_exists [n Hn]%exists_in].
  apply list_elem_of_In in Hs. destruct Hd as [Hsub Hc] eqn:Heq. clear Heq.
  assert (is_Some (d !! place s)) as Hsource by (destruct Hex as [x Hx]; exists x; by eapply lookup_weaken).
  unfold is_tm_deletable. rewrite read_in, Hn. destruct n as [c| |]; [|by split..].
  eapply wp_lift_ret; [done|]. destruct (text_contains _ _) eqn:Hcookie; [|by wp_steps].
  apply tree_remove_file_cleans; [|done]. apply Hr. split; [done|]. split; [eauto|]. exists c.
  split; [by eapply lookup_weaken|done].
Qed.

(** C15: [IOITask::clean] removes only what task-maker makes, when the path of the task has no
    metacharacter of [glob] (which would make a pattern of it, see
    [clean_removes_elsewhere]).  However the system refuses
    to remove files and whatever the disk is, it does not panic and, complete or stopped
    by an error, has removed nothing but text files of [input/] and [output/] that are
    not used by a static generator (the second generator of a testcase counts only when the
    first one is not static), these two directories, the directory [bin/], the
    compiled checkers of a custom checker, and [gen/GEN] and [task.yaml] when they have
    the cookie and what they are made from is there; on an ordinary directory, when nothing
    is refused, it removes exactly these, the two directories when they end up empty.  Of
    [glob] it is assumed that for a directory without metacharacters the matches of
    [dir/*.txt] are text files of the directory that exist. *)
Theorem clean_correct d :
  glob_sound → plain_path (bt_path t) →
  match clean d with
  | (Ret _, d') | (Fail _, d') => d' ⊆ d ∧ ∀ p, is_Some (d !! p) → d' !! p = None → removed (λ _, True) d p
  | (Panicked _, _) | (OutOfFuel, _) => False
  end ∧
  (ordinary d → ∃ d', clean d = (Ret tt, d') ∧
     ∀ p n, d' !! p = Some n ↔ d !! p = Some n ∧ ¬ removed (emptied d) d p).
Proof.
  intros Hg Hplain. split.
  - assert (wp clean (λ _, cleaning d) (cleaning d) d) as Hw.
    { unfold clean. apply wp_bind. eapply wp_mono; [|intros [] d1 H1|done].
      { apply (wp_for_each_inv (cleaning d)); [split; [done|intros p [n Hp] Hn; congruence]|]. intros name d1 Hn Hd1.
        by apply clean_dir_cleans. }
      apply wp_bind. eapply wp_mono; [by apply (clean_bin_cleans d)|intros [] d2 H2|done].
      apply wp_bind. eapply wp_mono; [by apply (clean_checkers_cleans d)|intros [] d3 H3|done].
      apply wp_bind. eapply wp_mono; [apply (clean_generated_cleans d); [|done]|intros [] d4 H4|done].
      { intros p Hp. unfold removed. auto 6. }
      apply (clean_generated_cleans d); [|done]. intros p Hp. unfold removed. auto 6. }
    unfold wp in Hw. by destruct (clean d) as [[| | |] ?].
  - intros Ho. destruct (wp_run _ _ _ (wp_clean d Ho)) as ([] & d' & Hrun & Hr). by exists d'.
Qed.

(** The official output of a testcase whose input is static too is removed: of the two
    patterns of [clean] only the first one is looked at. *)
Lemma static_output_removed d o :
  ordinary d → is_text (place "output") o →
  (∀ id tc, bt_testcases t !! id = Some tc → ∃ i, input_generator tc = IG_StaticFile i ∧ i ≠ o) →
  ∃ d', clean d = (Ret tt, d') ∧ d' !! o = None.
Proof.
  intros Ho Htext Hin. destruct (wp_run _ _ _ (wp_clean d Ho)) as ([] & d' & Hrun & Hr). exists d'. split; [done|].
  apply eq_None_not_Some. intros [n Hn]. apply Hr in Hn as [_ Hn]. apply Hn. right. left. left. split; [done|].
  apply not_true_iff_false. intros (tc & Htc%list_elem_of_In & Hs)%existsb_exists.
  apply list_elem_of_fmap in Htc as ([id tc'] & -> & Htc%elem_of_map_to_list).
  destruct (Hin _ _ Htc) as (i & Hi & Hne). unfold is_static in Hs. simpl in Hs. rewrite Hi in Hs.
  by apply bool_decide_eq_true in Hs.
Qed.
End clean.

(** ** Example

    A task whose input and official output are both static, with what an evaluation left
    in its directory. *)
Definition clean_texts (pattern : string) : list PathBuf := path_of_string <$>
  if decide (pattern = "/task/input/*.txt") then ["/task/input/input0.txt"; "/task/input/old.txt"]
  else if decide (pattern = "/task/output/*.txt") then ["/task/output/output0.txt"] else [].
Definition clean_glob (d : Tree) (pattern : string) : option (list (option PathBuf)) :=
  Some (Some <$> filter (λ p, is_Some (d !! p)) (clean_texts pattern)).
Definition obeying : Removal := Build_Removal (λ _, false) (λ _ _, false) clean_glob.
Definition clean_task : BuildTask :=
  mkBuildTask (path_of_string "/task") (TT_Batch (Checker_Custom (ex_ui "s.py" LanguagePython 104))) "task" "A task"
    None None None None ∅
    {[0%N := mkBuildTestcase (mkTestcase 0 None None) (IG_StaticFile (path_of_string "/task/input/input0.txt"))
               (OG_StaticFile (path_of_string "/task/output/output0.txt"))]} Min 2 (mkGraderMap ∅).
Definition regular (s : string) : Node := RegularFile (String.list_byte_of_string s).
Definition clean_disk : Tree := list_to_map ((λ x, (path_of_string x.1, x.2)) <$>
  [("/task", Directory); ("/task/input", Directory); ("/task/output", Directory); ("/task/gen", Directory);
   ("/task/bin", Directory); ("/task/bin/sol", UnreadableFile); ("/task/check", Directory);
   ("/task/input/input0.txt", regular "1"); ("/task/input/old.txt", regular "2");
   ("/task/output/output0.txt", regular "3"); ("/task/check/checker", UnreadableFile);
   ("/task/gen/GEN", regular "# tm-allow-delete"); ("/task/gen/cases.gen", regular ": SUBTASK 100");
   ("/task/task.yaml", regular "name: task"); ("/task/task.toml", regular "")]).
(** The official output is gone, and with it its directory; the description written by
    hand stays. *)
Example clean_disk_after :
  let '(r, d') := @clean obeying clean_task clean_disk in
  r = Ret tt ∧ path_to_string <$> filter (λ p, d' !! p = None) ((map_to_list clean_disk).*1) =
    ["/task/input/old.txt"; "/task/output/output0.txt"; "/task/output"; "/task/check/checker"; "/task/bin";
     "/task/bin/sol"; "/task/gen/GEN"].
Proof. vm_compute. by split. Qed.

Lemma clean_glob_sound : @glob_sound obeying clean_task.
Proof.
  assert (∀ dir name, is_text (place clean_task dir) (place clean_task dir ++ [Normal (name +:+ ".txt")])) as Ht
    by (intros dir name; eexists; split; [done|by exists name]).
  intros _ d name l Hn [= <-] p Hp. apply list_elem_of_fmap in Hp as (q & [= ->] & [Hq Hin]%list_elem_of_filter).
  split; [|done]. apply elem_of_cons in Hn as [->|[->|[]%elem_of_nil]%elem_of_cons]; vm_compute in Hin.
  - apply elem_of_cons in Hin as [->|[->|[]%elem_of_nil]%elem_of_cons];
      [apply (Ht "input" "input0")|apply (Ht "input" "old")].
  - apply list_elem_of_singleton in Hin as ->. apply (Ht "output" "output0").
Qed.
Lemma omap_some {A} (l : list A) : omap id (Some <$> l) = l.
Proof. induction l as [|x l IH]; [done|]. change (x :: omap id (Some <$> l) = x :: l). by rewrite IH. Qed.
Lemma clean_texts_found name p n :
  name ∈ ["input"; "output"] → is_text (place clean_task name) p → clean_disk !! p = Some n →
  p ∈ clean_texts (texts_pattern (place clean_task name)).
Proof.
  intros Hn (x & -> & stem & ->) Hp. apply elem_of_list_to_map_2 in Hp.
  apply list_elem_of_fmap in Hp as ([s n'] & Heq & Hs). apply (f_equal fst) in Heq. simpl in Heq.
  rewrite Heq. revert Heq.
  apply elem_of_cons in Hn as [->|[->|[]%elem_of_nil]%elem_of_cons];
    rewrite !elem_of_cons, elem_of_nil in Hs; destruct_or! Hs; injection Hs as -> ->; intros Heq;
    vm_compute in Heq; first [discriminate Heq|apply (bool_decide_unpack _); vm_compute; exact I].
Qed.
Lemma clean_glob_complete d name :
  d ⊆ clean_disk → name ∈ ["input"; "output"] → @glob_complete obeying clean_task d name.
Proof.
  intros Hd Hn. eexists. split; [done|]. split.
  { rewrite omap_some. apply NoDup_filter. apply (bool_decide_unpack _).
    by apply elem_of_cons in Hn as [->|[->|[]%elem_of_nil]%elem_of_cons]. }
  intros p Htext [n Hp]. apply list_elem_of_fmap_2, list_elem_of_filter. split; [by exists n|].
  eapply clean_texts_found; [done..|]. by eapply lookup_weaken.
Qed.
Lemma clean_ordinary : @ordinary obeying clean_task clean_disk.
Proof.
  split.
  - done.
  - apply clean_glob_sound.
  - by vm_compute; repeat constructor.
  - apply clean_glob_complete.
  - intros name p Hn _ _. apply elem_of_cons in Hn as [->|[->|[->|[]%elem_of_nil]%elem_of_cons]%elem_of_cons];
      by exists Directory.
  - intros name n Hn. apply elem_of_cons in Hn as [->|[->|[]%elem_of_nil]%elem_of_cons];
      vm_compute; congruence.
  - intros name p Hn [Htext _] Hp. pose proof (clean_texts_found name p _ Hn Htext Hp) as Hin. revert Hp.
    apply elem_of_cons in Hn as [->|[->|[]%elem_of_nil]%elem_of_cons]; vm_compute in Hin.
    + apply elem_of_cons in Hin as [->|[->|[]%elem_of_nil]%elem_of_cons]; vm_compute; congruence.
    + apply list_elem_of_singleton in Hin as ->. vm_compute. congruence.
  - intros p [_ [->|[->|[]%elem_of_nil]%elem_of_cons]%elem_of_cons]; by vm_compute.
  - intros name n Hn. apply elem_of_cons in Hn as [->|[->|[]%elem_of_nil]%elem_of_cons];
      vm_compute; intros [= <-]; by eexists.
Qed.
Lemma clean_correct_witness :
  match @clean obeying clean_task clean_disk with
  | (Ret _, d') | (Fail _, d') =>
      d' ⊆ clean_disk ∧ ∀ p, is_Some (clean_disk !! p) → d' !! p = None → removed clean_task (λ _, True) clean_disk p
  | (Panicked _, _) | (OutOfFuel, _) => False
  end ∧
  (@ordinary obeying clean_task clean_disk → ∃ d', @clean obeying clean_task clean_disk = (Ret tt, d') ∧
     ∀ p n, d' !! p = Some n ↔
       clean_disk !! p = Some n ∧ ¬ removed clean_task (emptied clean_task clean_disk) clean_disk p) ∧
  @ordinary obeying clean_task clean_disk.
Proof.
  destruct (@clean_correct obeying clean_task clean_disk clean_glob_sound (or_plain _ _ clean_ordinary)) as [Hsafe Hexact].
  split; [exact Hsafe|split; [exact Hexact|apply clean_ordinary]].
Defined.

(** Where the code does not do what it means to: the path of the task is part of the pattern
    as it is.  For a task in [/task?] the pattern [/task?/input/*.txt] matches the files of
    [/task1/input] too: they are removed. *)
Definition question_glob (d : Tree) (pattern : string) : option (list (option PathBuf)) :=
  Some (Some <$> filter (λ p, is_Some (d !! p))
    (if decide (pattern = "/task?/input/*.txt")
     then path_of_string <$> ["/task1/input/kept.txt"; "/task?/input/old.txt"] else [])).
Definition questioning : Removal := Build_Removal (λ _, false) (λ _ _, false) question_glob.
Definition question_task : BuildTask :=
  mkBuildTask (path_of_string "/task?") (task_type clean_task) "task" "A task" None None None None ∅ ∅ Min 2
    (mkGraderMap ∅).
Definition question_disk : Tree := list_to_map ((λ x, (path_of_string x.1, x.2)) <$>
  [("/task?", Directory); ("/task?/input", Directory); ("/task?/input/old.txt", regular "1");
   ("/task1", Directory); ("/task1/input", Directory); ("/task1/input/kept.txt", regular "2")]).
Lemma clean_removes_elsewhere :
  let '(r, d') := @clean questioning question_task question_disk in
  r = Ret tt ∧ path_to_string <$> filter (λ p, d' !! p = None) ((map_to_list question_disk).*1) =
    ["/task1/input/kept.txt"; "/task?/input/old.txt"; "/task?/input"].
Proof. vm_compute. by split. Qed.
