(* ===== verification/SanityChecks.v ===== *)
(** * The sanity checks of an IOI task ([sanity_checks.rs], [ioi/sanity_checks])

    A check has a hook before the evaluation, which looks at the task and may add
    executions and callbacks to the DAG, and one after it, which looks at what the
    callbacks collected ([OutputChecks]) and at the files.  An error of a hook becomes a
    warning. *)
From S2P Require Import Prelude Float64 RustOrd Paths StoreKey Dag Text Diagnostics Checks UiMessage Machine.
From S2P Require Import FloatText Build Languages SourceFile Scoring UiState OutputChecks Judge IoiDag.
From S2P Require Import CasesGen Booklets.

(** ** What the checks read *)

(** Symbolic links and directories; an entry of a directory may be an error.  The
    output of [git ls-files -z] in a directory, when it succeeds. *)
Class Links : Type := {
  read_link : PathBuf → option PathBuf;
  read_dir : PathBuf → option (list (option PathBuf));
  git_ls_files : PathBuf → option (list byte)
}.
Definition is_symlink `{Links} (p : PathBuf) : bool := bool_decide (is_Some (read_link p)).

(** The task, after its DAG is built, with what only the checks read of it, and the
    solutions of the evaluation. *)
Record CheckedTask : Type := mkChecked {
  ct_task : BuildTask;
  input_validator_generator : option SubtaskId → InputValidator;
  batch_output_generator : option OutputGenerator;
  ct_booklets : list Booklet;
  ct_solutions : list Solution
}.
Definition path_of (t : CheckedTask) (p : PathBuf) : PathBuf :=
  default p (path_strip_prefix (bt_path (ct_task t)) p).
Definition in_task (t : CheckedTask) (p : string) : PathBuf :=
  path_join (bt_path (ct_task t)) (path_of_string p).
Definition ct_subtasks (t : CheckedTask) : gmap SubtaskId SubtaskInfo := subtask_info <$> bt_subtasks (ct_task t).

(** The state of a hook: the evaluation, and what the checks share with their closures. *)
Record Hooks : Type := mkHooks {
  hook_eval : EvaluationData TaskCallback;
  hook_sanity : SanityState
}.
Definition with_hook_eval e (h : Hooks) : Hooks := mkHooks e (hook_sanity h).
Definition with_hook_sanity s (h : Hooks) : Hooks := mkHooks (hook_eval h) s.

(** ** The interface of a check *)
Inductive SanityCheckCategory : Type :=
  | Cat_Attachments | Cat_Checker | Cat_Io | Cat_Solutions | Cat_Statement | Cat_Task.
Definition category_as_str (c : SanityCheckCategory) : string :=
  match c with
  | Cat_Attachments => "Attachments"
  | Cat_Checker => "Checker"
  | Cat_Io => "Io"
  | Cat_Solutions => "Solutions"
  | Cat_Statement => "Statement"
  | Cat_Task => "Task"
  end.
Record SanityCheck {Task State : Type} : Type := mkSanityCheck {
  check_name : string;
  check_category : SanityCheckCategory;
  check_pre_hook : Task → M State unit;
  check_post_hook : Task → M State unit
}.
Arguments SanityCheck : clear implicits.
Arguments mkSanityCheck {Task State} _ _ _ _.
Definition no_hook {Task State} (_ : Task) : M State unit := mret tt.

(** [SanityChecks::pre_hook] and [post_hook]: the body of the loop; [warn] sends a
    diagnostic. *)
Definition run_hook {State} (warn : Diagnostic → M State unit) (name : string) (hook : M State unit) :
    M State unit := λ s,
  match hook s with
  | (Fail e, s') =>
      warn (Diagnostic_warning ("Sanity check " +:+ name +:+ " failed: " +:+ default EmptyString (head e))) s'
  | r => r
  end.
Section hooks.
Context {Task State : Type} (warn : Diagnostic → M State unit).
Definition pre_hook (checks : list (SanityCheck Task State)) (t : Task) : M State unit :=
  for_each checks (λ c, run_hook warn (check_name c) (check_pre_hook c t)).
Definition post_hook (checks : list (SanityCheck Task State)) (t : Task) : M State unit :=
  for_each checks (λ c, run_hook warn (check_name c) (check_post_hook c t)).
(** [get_sanity_check_list]. *)
Definition enabled_checks (skip : list string) (checks : list (SanityCheck Task State)) :
    list (SanityCheck Task State) :=
  filter (λ c, (check_name c ∉ skip) ∧ (category_as_str (check_category c) ∉ skip)) checks.
End hooks.

Section checks.
Context `{UuidV4} `{LocalFiles} `{Blake3} `{LanguageManager} `{BuildProfile} `{UuidDisplay} `{IterOrder} `{Glob}.
Context `{NamePatterns} `{Crates} `{Links}.
Abbreviation Hook := (M Hooks).

Definition on_eval {A} (m : M (EvaluationData TaskCallback) A) : Hook A := zoom hook_eval with_hook_eval m.
Definition on_sanity {A} (m : M SanityState A) : Hook A := zoom hook_sanity with_hook_sanity m.
(** [eval.add_diagnostic(..)?]. *)
Definition diagnose (d : Diagnostic) : Hook unit := on_eval (send (UI_Diagnostic d)).
Definition show_f64 (x : f64) : string := string_of_text (f64_display x).
Definition found_files (t : CheckedTask) (patterns : list string) : Hook (list PathBuf) :=
  lift (list_files (bt_path (ct_task t)) patterns).
(** [path.extension().ok_or_else(..)]. *)
Definition require_extension (e : string) (p : PathBuf) : Hook string := lift (ok_or e (path_extension p)).

(** ** Subtasks ([subtasks.rs]) *)
Definition subtask_ids (t : CheckedTask) : list SubtaskId := sorted (keys_iter (ct_subtasks t)).
Definition subtasks_in_order (t : CheckedTask) : list SubtaskInfo := omap (ct_subtasks t !!.) (subtask_ids t).

Definition missing_subtask_names (t : CheckedTask) : Hook unit :=
  if forallb is_default (values_iter (ct_subtasks t)) then mret tt
  else
    let missing : list SubtaskInfo := filter (λ st, subtask_name st = None) (subtasks_in_order t) in
    match missing with
    | [] => mret tt
    | _ =>
        let name (st : SubtaskInfo) :=
          "Subtask " +:+ pretty (subtask_id st) +:+ " (" +:+ show_f64 (max_score st) +:+ " points)" in
        let d := Diagnostic_warning ("These subtasks are missing a name: " +:+ join_string ", " (name <$> missing)) in
        let d := if existsb (λ st, bool_decide (is_Some (subtask_span st))) missing
                 then with_help "Add '#STNAME: name' in gen/GEN after each subtask definition:" d else d in
        diagnose (foldl (λ d span, with_code_span span d) d (omap subtask_span missing))
    end.

Definition invalid_subtask_name (t : CheckedTask) : Hook unit :=
  let names := join_string ", " (string_of_text <$> omap subtask_name (subtasks_in_order t)) in
  for_each (ct_solutions t) (λ solution,
    for_each (solution_checks solution) (λ check,
      match find_subtasks_by_pattern_name (ui_task (ct_task t)) (subtask_name_pattern check) with
      | [] => diagnose (with_note ("The valid names are: " +:+ names)
                (Diagnostic_error ("Invalid subtask name '" +:+ string_of_text (subtask_name_pattern check)
                   +:+ "' in solution '" +:+ path_to_string (relative_path (source_base (solution_source solution)))
                   +:+ "'")))
      | _ => mret tt
      end)).

(** [OutputHasher::bind]. *)
Definition bind_hasher (file : FileUuid) (subtask : SubtaskId) : Hook unit :=
  cell ← on_eval new_cell;
  _ ← on_sanity (modify (with_hasher cell (OutputHasher_new subtask)));
  on_eval (on_dag (get_file_content_chunked file (CB_HashChunk cell))).
Definition hash_testcase (t : CheckedTask) (subtask : SubtaskId) (tc : TestcaseId) : Hook unit :=
  tc ← lift (unwrap "called `Option::unwrap()` on a `None` value" (bt_testcases (ct_task t) !! tc));
  match official_output_file (testcase_info tc) with
  | Some f => bind_hasher f subtask
  | None => mret tt
  end.
Definition hash_subtask (t : CheckedTask) (st : SubtaskInfo) : Hook unit :=
  if 2 <=? length (subtask_testcases st) then
    _ ← on_sanity (modify (λ s, with_outputs (<[subtask_id st := []]> (sanity_outputs s)) s));
    for_each (subtask_testcases st) (hash_testcase t (subtask_id st))
  else mret tt.
Definition all_outputs_equal_pre (t : CheckedTask) : Hook unit :=
  for_each (values_iter (ct_subtasks t)) (hash_subtask t).
(** The body of the loop of [post_hook]. *)
Definition compare_outputs (t : CheckedTask) (x : SubtaskId * list TestcaseOutput) : Hook unit :=
  let '(id, out) := x in
  match ct_subtasks t !! id with
  | None => mret tt
  | Some st =>
      if negb (length out =? length (subtask_testcases st)) then mret tt
      else
        first ← lift (unwrap "index out of bounds" (head out));
        if forallb (λ o, bool_decide (output_hash o = output_hash first)) out then
          let name := match subtask_name st with
                      | Some name => " (" +:+ string_of_text name +:+ ")" | None => EmptyString end in
          let d := Diagnostic_warning ("All outputs for subtask " +:+ pretty id +:+ name +:+ " are identical") in
          chunk ← lift (unwrap "called `Option::unwrap()` on a `None` value" (first_chunk first));
          diagnose (match from_utf8 chunk with
                    | Some contents =>
                        with_note ("They all start with: " +:+ string_of_text (take 20 contents)) d
                    | None => d
                    end)
        else mret tt
  end.
Definition all_outputs_equal_post (t : CheckedTask) : Hook unit :=
  h ← get_st;
  for_each (map_iter (sanity_outputs (hook_sanity h))) (compare_outputs t).

Definition deprecated_description (t : CheckedTask) : Hook unit :=
  for_each (values_iter (bt_subtasks (ct_task t))) (λ st,
    match subtask_name (subtask_info st), subtask_description st with
    | Some a, Some b =>
        if decide (a = b) then mret tt
        else
          let d := Diagnostic_warning ("Subtask " +:+ pretty (subtask_id (subtask_info st))
            +:+ " uses spaces and/or tabs in its name, which are now deprecated") in
          diagnose (match subtask_span (subtask_info st) with Some span => with_code_span span d | None => d end)
    | _, _ => mret tt
    end).

(** ** Inputs and outputs ([io.rs]) *)
Definition bind_end_check (file : FileUuid) (path : string) (k : FileKind) : Hook unit :=
  cell ← on_eval new_cell;
  _ ← on_sanity (modify (with_end_check cell k (CheckEndWithNewLine_new path)));
  on_eval (on_dag (get_file_content_chunked file (CB_EndChunk cell))).
Definition end_check_testcase (x : TestcaseId * BuildTestcase) : Hook unit :=
  let '(id, tc) := x in
  _ ← match input_file (testcase_info tc) with
      | Some f => bind_end_check f ("input/input" +:+ pretty id +:+ ".txt") InputFiles
      | None => mret tt
      end;
  match official_output_file (testcase_info tc) with
  | Some f => bind_end_check f ("output/output" +:+ pretty id +:+ ".txt") OutputFiles
  | None => mret tt
  end.
Definition end_with_new_line_pre (t : CheckedTask) : Hook unit :=
  for_each (map_iter (bt_testcases (ct_task t))) end_check_testcase.
Definition emit_warning (files : list string) (kind : string) : Hook unit :=
  match files with
  | [] => mret tt
  | _ =>
      diagnose (with_note "It's bad practice to have files that do not end with new-line"
        (Diagnostic_warning ("These " +:+ kind +:+ " files don't end with a new line: "
           +:+ join_string ", " (sorted (elements (list_to_set files : gset string))))))
  end.
Definition end_with_new_line_post (t : CheckedTask) : Hook unit :=
  h ← get_st;
  _ ← emit_warning (newline_files (hook_sanity h) InputFiles) "input";
  emit_warning (newline_files (hook_sanity h) OutputFiles) "official output".

(** ** Graders ([mod.rs]) *)
Definition has_grader (t : CheckedTask) : bool := negb (length (all_paths (bt_grader_map (ct_task t))) =? 0).
(** The grader that a file of the folder needs, if it is named after the task: its
    extension, its path, its name, and the file. *)
Abbreviation NeededGrader := (string * (PathBuf * PathBuf * PathBuf))%type (only parsing).
Definition needed_grader (t : CheckedTask) (file : PathBuf) : Outcome (option NeededGrader) :=
  let file := path_of t file in
  if decide (path_file_stem file = Some (bt_name (ct_task t))) then
    match detect_language file with
    | Some lang =>
        ext ← unwrap "index out of bounds" (head (extensions lang));
        let grader_name := with_file_name file (path_of_string ("grader." +:+ ext)) in
        Ret (Some (ext, (path_join (bt_path (ct_task t)) grader_name, grader_name, file)))
    | None => Ret None
    end
  else Ret None.
Definition check_missing_graders (folder : string) (t : CheckedTask) : Hook unit :=
  if negb (has_grader t) then mret tt
  else
    files ← lift (list_files (in_task t folder) ["*.*"]);
    needed ← lift (try_map (needed_grader t) files);
    let by_ext : gmap string (PathBuf * PathBuf * PathBuf) :=
      foldl (λ m (x : NeededGrader), <[x.1 := x.2]> m) ∅ (omap (λ x, x) needed) in
    for_each (values_iter by_ext) (λ x : PathBuf * PathBuf * PathBuf,
      if path_exists x.1.1 then mret tt
      else diagnose (with_note ("Because of " +:+ path_to_string x.2)
             (Diagnostic_error ("Missing grader at " +:+ path_to_string x.1.2)))).

(** ** Solutions ([sol.rs]) *)
Definition sol_template_symlink (t : CheckedTask) : Hook unit :=
  templates ← found_files t ["sol/template.*"];
  for_each templates (λ template,
    ext ← require_extension "Template has no extension" template;
    if is_symlink template then mret tt
    else diagnose (Diagnostic_warning ("Template " +:+ path_to_string (path_of t template)
           +:+ " is not a symlink. It should point to att/" +:+ bt_name (ct_task t) +:+ "." +:+ ext))).
Definition solution_name (x : Solution) : string :=
  path_to_string (relative_path (source_base (solution_source x))).
Definition solutions_with_no_checks (t : CheckedTask) : Hook unit :=
  if existsb (λ st, bool_decide (subtask_name st = None)) (values_iter (ct_subtasks t)) then mret tt
  else
    let solutions : list Solution := filter (λ x, solution_checks x = [] ∧
        is_symlink (sf_path (source_base (solution_source x))) = false) (ct_solutions t) in
    match solutions with
    | [] => mret tt
    | _ => diagnose (Diagnostic_warning ("The following solutions are missing the subtask checks: "
             +:+ join_string ", " (solution_name <$> solutions)))
    end.
Definition solutions_with_samples_check (t : CheckedTask) : Hook unit :=
  match ct_subtasks t !! 0%N ≫= subtask_name with
  | None => mret tt
  | Some samples =>
      let solutions : list Solution := filter (λ x, Exists (λ c, subtask_name_pattern c = samples) (solution_checks x))
        (ct_solutions t) in
      match solutions with
      | [] => mret tt
      | _ => diagnose (with_note "Subtask checks on samples are rarely useful."
               (Diagnostic_warning ("The following solutions have solution checks for the samples: "
                  +:+ join_string ", " (solution_name <$> solutions))))
      end
  end.

(** ** The task ([task.rs]) *)
Definition DEFAULT_TASK_MAX_SCORE : f64 := f64_of_Z 100.
Definition task_max_score (t : CheckedTask) : Hook unit :=
  let score := f64_sum (max_score <$> values_iter (ct_subtasks t)) in
  if abs_diff_ne score DEFAULT_TASK_MAX_SCORE
  then diagnose (Diagnostic_error ("The score of the task is " +:+ show_f64 score +:+ " (not "
         +:+ show_f64 DEFAULT_TASK_MAX_SCORE +:+ ")"))
  else mret tt.
Definition broken_symlinks (t : CheckedTask) : Hook unit :=
  files ← found_files t ["**/*"];
  for_each files (λ file,
    if path_exists file then mret tt
    else
      let path := path_of t file in
      if path_strip_prefix (path_of_string "fuzz") path is Some _ then mret tt
      else match read_link file with
           | Some content =>
               diagnose (with_note ("It points to " +:+ path_to_string content)
                 (Diagnostic_warning (path_to_string path +:+ " is a broken symlink")))
           | None => mret tt
           end).

(** [RE.find]: the offset and the length of the first match, which is at the start of a
    line and goes to the end of the line of the closing character. *)
Definition match_bits (s : text) : option N :=
  s1 ← strip_prefix (text_of "#") s;
  s2 ← strip_prefix (text_of "include") (skip_spaces s1);
  match skip_spaces s2 with
  | c :: s3 =>
      if ((c =? 34) || (c =? 60))%N then
        s4 ← strip_prefix (text_of "bits/stdc++.h") s3;
        match s4 with
        | c :: s5 =>
            if is_quote c then Some (text_len s - text_len s5 + text_len (line_of s5))%N else None
        | [] => None
        end
      else None
  | [] => None
  end.
Fixpoint find_bits (at_start : bool) (offset : N) (s : text) : option (N * N) :=
  match (if at_start then match_bits s else None), s with
  | Some len, _ => Some (offset, len)
  | None, [] => None
  | None, c :: s => find_bits (c =? newline)%N (offset + char_len c)%N s
  end.
(** The file is read at its path in the task, relative to the current directory. *)
Definition bits_span (t : CheckedTask) (att : PathBuf) : Outcome (option CodeSpan) :=
  let path := path_of t att in
  match read_to_string path with
  | None => Ret None
  | Some content =>
      match find_bits true 0 content with
      | None => Ret None
      | Some (start, len) => span ← from_str path content start len; Ret (Some span)
      end
  end.
Definition no_bits_std_cpp (t : CheckedTask) : Hook unit :=
  files ← found_files t ["**/*.cpp"; "**/*.cc"];
  spans ← lift (try_map (bits_span t) files);
  match omap (λ x, x) spans with
  | [] => mret tt
  | spans =>
      diagnose (foldl (λ d span, with_code_span span d)
        (with_note "This won't compile under Clang" (Diagnostic_warning
           ("Usage of " +:+ quote +:+ "bits/stdc++.h" +:+ quote +:+ " is discouraged"))) spans)
  end.
Definition empty_title (t : CheckedTask) : Hook unit :=
  if decide (bt_title (ct_task t) = EmptyString) then diagnose (Diagnostic_error "Missing task title")
  else mret tt.
End checks.
