(* ===== verification/AttChecks.v ===== *)
(** * The sanity checks on the attachments and on the checker
    ([ioi/sanity_checks/att.rs], [checker.rs])

    Those that add executions to the DAG: the samples of [att/] are validated and
    solved, the templates are compiled with the graders that they come with, and a custom
    checker is run on junk outputs. *)
From S2P Require Import Prelude Float64 RustOrd Paths StoreKey Dag Text Diagnostics Checks UiMessage Machine.
From S2P Require Import FloatText Build Languages SourceFile Scoring UiState OutputChecks Judge IoiDag.
From S2P Require Import CasesGen Booklets SanityChecks.

(** ** The numbers of the samples

    [(in|out)put(\d+)\.txt$]: what is before the extension ends with the digits, and what
    is before them with one of the two words; the number is a [u32]. *)
Definition ends_in_put (reversed : text) : bool :=
  bool_decide (is_Some (strip_prefix (reverse (text_of "input")) reversed)) ||
  bool_decide (is_Some (strip_prefix (reverse (text_of "output")) reversed)).
Definition sample_number (path : text) : option TestcaseId :=
  s ← strip_prefix (reverse (text_of ".txt")) (reverse path);
  let ds := reverse (take_while is_digit s) in
  if bool_decide (ds ≠ []) && ends_in_put (skip_while is_digit s) && (digits_value ds <? 2 ^ 32)%Z
  then Some (Z.to_N (digits_value ds)) else None.
Definition extract_num (path : PathBuf) : option TestcaseId := sample_number (str_text (path_to_string path)).

(** The files with each number. *)
Abbreviation Numbered := (gmap TestcaseId (list PathBuf)).
Definition add_numbered (m : Numbered) (path : PathBuf) : Numbered :=
  match extract_num path with
  | Some num => partial_alter (λ old, Some (default [] old ++ [path])) num m
  | None => m
  end.
Definition by_number (files : list PathBuf) : Numbered := foldl add_numbered ∅ files.

(** [std::ascii::escape_default]. *)
Definition hex_digit (n : N) : Ascii.ascii := Ascii.ascii_of_N (if (n <? 10)%N then 48 + n else 87 + n).
Definition backslash (s : string) : string := String.String (Ascii.ascii_of_N 92) s.
Definition one_char (n : N) : string := String.String (Ascii.ascii_of_N n) EmptyString.
Definition escape_default (b : byte) : string :=
  let c := Byte.to_N b in
  match c with
  | 9 => backslash "t"
  | 10 => backslash "n"
  | 13 => backslash "r"
  | 34 | 39 | 92 => backslash (one_char c)
  | _ =>
      if ((32 <=? c) && (c <? 127))%N then one_char c
      else backslash (String.String (Ascii.ascii_of_N 120)
             (String.String (hex_digit (c / 16)) (String.String (hex_digit (c mod 16)) EmptyString)))
  end%N.
Definition escape_bytes (l : list byte) : string := foldr (λ b s, escape_default b +:+ s) EmptyString l.

(** [JUNK_OUTPUTS]; the range [32..=127] has the byte 127. *)
Definition byte_range (lo n : nat) : list byte := omap Byte.of_N (N.of_nat <$> seq lo n).
Definition JUNK_OUTPUTS : list (string * list byte) :=
  [("empty file", []);
   ("bytes from 0 to 255", byte_range 0 256);
   ("ASCII from 32 to 127", byte_range 32 96);
   ("wibble monster", String.list_byte_of_string "wibble monster")].

Example sample_number_ex :
  sample_number ∘ text_of <$> ["att/input0.txt"; "a/task.output12.txt"; "input.txt"; "put3.txt";
    "input4.txt.in"; "output4294967296.txt"] = [Some 0%N; Some 12%N; None; None; None; None].
Proof. reflexivity. Qed.
Example escape_bytes_ex : escape_bytes [Byte.x00; Byte.x0a; Byte.x41; Byte.x5c; Byte.xff] = "\x00\nA\\\xff".
Proof. reflexivity. Qed.

Section checks.
Context `{UuidV4} `{LocalFiles} `{Blake3} `{LanguageManager} `{BuildProfile} `{UuidDisplay} `{IterOrder} `{Glob}.
Context `{NamePatterns} `{Crates} `{Links}.
Abbreviation Hook := (M Hooks).

(** ** The checker ([checker.rs]) *)
Definition fuzz_testcase (t : CheckedTask) : option (FileUuid * FileUuid) :=
  let files (tc : BuildTestcase) :=
    input ← input_file (testcase_info tc);
    output ← official_output_file (testcase_info tc);
    Some (input, output) in
  head (omap files (values_iter (bt_testcases (ct_task t)))).
Definition fuzz_with (checker : Checker) (input official_output : FileUuid) (junk : string * list byte) :
    Hook unit :=
  let '(description, content) := junk in
  test_output ← on_eval (new_file ("Junk input for fuzzing checker with '" +:+ description +:+ "'"));
  _ ← on_eval (on_dag (λ d, Ret (provide_content test_output content d)));
  exec ← with_context ("Failed to build DAG for fuzzing the checker with '" +:+ description +:+ "'")
    (on_eval (check checker None
       ("Fuzzing checker with junk input '" +:+ description +:+ "' (" +:+ quote +:+ escape_bytes content
          +:+ quote +:+ ")")
       input official_output (file_uuid test_output) (SC_Junk description)));
  on_eval (add_group exec).
Definition fuzz_checker (t : CheckedTask) : Hook unit :=
  match task_type (ct_task t) with
  | TT_Batch (Checker_Custom _ as checker) =>
      match fuzz_testcase t with
      | None => mret tt
      | Some (input, official_output) => for_each JUNK_OUTPUTS (fuzz_with checker input official_output)
      end
  | _ => mret tt
  end.

(** ** Templates ([att.rs]) *)
Definition graders_of (t : CheckedTask) : list PathBuf := all_paths (bt_grader_map (ct_task t)).
Definition att_template (t : CheckedTask) (grader : PathBuf) : Hook unit :=
  ext ← require_extension "Grader has no extension" grader;
  let att_name := "att/" +:+ bt_name (ct_task t) +:+ "." +:+ ext in
  if path_exists (in_task t att_name) then mret tt
  else diagnose (with_note ("Because of " +:+ path_to_string (path_of t grader))
         (Diagnostic_warning ("Missing template at " +:+ att_name))).
Definition att_templates (t : CheckedTask) : Hook unit := for_each (graders_of t) (att_template t).

Definition att_template_compiles (t : CheckedTask) (grader : PathBuf) : Hook unit :=
  ext ← require_extension "Grader has no extension" grader;
  let att_name := "att/" +:+ bt_name (ct_task t) +:+ "." +:+ ext in
  let att_grader_name := "att/grader." +:+ ext in
  let att_grader := in_task t att_grader_name in
  if is_symlink att_grader then mret tt
  else
    grader_map ← on_eval (GraderMap_new [att_grader]);
    source_file ← on_eval (UiSourceFile_new (in_task t att_name) (bt_path (ct_task t))
      ("Template " +:+ att_name +:+ " compiled with attached grader " +:+ att_grader_name)
      (Some grader_map) None);
    match source_file with
    | Some source_file => _ ← on_eval (ui_prepare source_file); mret tt
    | None => mret tt
    end.
Definition att_templates_should_compile (t : CheckedTask) : Hook unit :=
  for_each (graders_of t) (att_template_compiles t).

(** ** Samples *)
Fixpoint sample_static_inputs (t : CheckedTask) (l : list TestcaseId) (found : list PathBuf) : Outcome (list PathBuf) :=
  match l with
  | [] => Ret found
  | id :: l =>
      tc ← unwrap "called `Option::unwrap()` on a `None` value" (bt_testcases (ct_task t) !! id);
      match input_generator tc with
      | IG_StaticFile path => sample_static_inputs t l (found ++ [default path (canonical path)])
      | IG_Custom _ _ => Ret []
      end
  end.
Definition extract_sample_files_from_task (t : CheckedTask) : Outcome (list PathBuf) :=
  match ct_subtasks t !! 0%N with
  | Some st => sample_static_inputs t (subtask_testcases st) []
  | None => Ret []
  end.

Definition att_sample (t : CheckedTask) (sample : PathBuf) : Hook unit :=
  match read_link sample with
  | Some content =>
      if bool_decide (canonical sample = None)
      then diagnose (with_note ("It points to " +:+ path_to_string content)
             (Diagnostic_error ("Sample case " +:+ path_to_string (path_of t sample) +:+ " is a broken link")))
      else mret tt
  | None =>
      diagnose (with_help "Move this file in the statement folder and symlink it here. This way the sample file can be included in the compiled statement."
        (Diagnostic_warning ("Sample case " +:+ path_to_string (path_of t sample) +:+ " is not a symlink")))
  end.
(** The place of a sample, if it is an input. *)
Definition sample_input (sample : PathBuf) : option PathBuf :=
  path ← canonical sample;
  if text_contains (text_of "input") (str_text (default EmptyString (path_file_name path)))
  then Some path else None.
Definition report_missing (t : CheckedTask) (message note : string) (missing : list PathBuf) : Hook unit :=
  match missing with
  | [] => mret tt
  | _ => diagnose (with_note (note +:+ join_string ", " (path_to_string ∘ path_of t <$> missing))
           (Diagnostic_error message))
  end.
Definition path_set (l : list PathBuf) : gset PathBuf := list_to_set l.
Definition att_sample_files (t : CheckedTask) : Hook unit :=
  from_task ← lift (extract_sample_files_from_task t);
  samples ← found_files t ["att/*input*.txt"; "att/*output*.txt"];
  _ ← for_each samples (att_sample t);
  let from_task := path_set from_task in
  let from_att := path_set (omap sample_input samples) in
  _ ← (if bool_decide (from_task ≠ ∅ ∧ from_task ≠ from_att) then
         _ ← report_missing t "Missing samples in att/" "Samples in the task, but not in att/: "
               (sorted (elements (from_task ∖ from_att)));
         report_missing t "Missing samples in the task" "Samples in att/, but not in the task: "
           (sorted (elements (from_att ∖ from_task)))
       else mret tt);
  match samples with
  | [] => diagnose (Diagnostic_warning "No sample file in att/")
  | _ => mret tt
  end.

(** [get_sample_files]. *)
Definition numbers (m : Numbered) : list TestcaseId := sorted (map_to_list m).*1.
Definition report_repeated (t : CheckedTask) (what : string) (m : Numbered) : Hook unit :=
  for_each (numbers m) (λ num,
    let files := default [] (m !! num) in
    if length files =? 1 then mret tt
    else diagnose (with_note ("Found at: " +:+ join_string ", " (path_to_string ∘ path_of t <$> files))
           (Diagnostic_error ("Sample " +:+ what +:+ " " +:+ pretty num +:+ " is present more than once")))).
Definition first_of (files : list PathBuf) : Hook PathBuf := lift (unwrap "index out of bounds" (head files)).
Fixpoint pair_samples (t : CheckedTask) (inputs : list (TestcaseId * list PathBuf)) (outputs : Numbered) :
    Hook (list (PathBuf * PathBuf) * Numbered) :=
  match inputs with
  | [] => mret ([], outputs)
  | (num, files) :: inputs =>
      match outputs !! num with
      | Some found =>
          output ← first_of found;
          input ← first_of files;
          '(samples, outputs) ← pair_samples t inputs (delete num outputs);
          mret ((input, output) :: samples, outputs)
      | None =>
          input ← first_of files;
          _ ← diagnose (Diagnostic_error ("Sample input file " +:+ path_to_string (path_of t input)
                +:+ " does not have its output file"));
          pair_samples t inputs outputs
      end
  end.
Definition get_sample_files (t : CheckedTask) : Hook (list (PathBuf * PathBuf)) :=
  inputs ← found_files t ["att/*input*.txt"];
  let inputs := by_number inputs in
  _ ← report_repeated t "input" inputs;
  outputs ← found_files t ["att/*output*.txt"];
  let outputs := by_number outputs in
  _ ← report_repeated t "output" outputs;
  '(samples, outputs) ← pair_samples t (map_iter inputs) outputs;
  _ ← for_each (map_iter outputs) (λ x : TestcaseId * list PathBuf,
        output ← first_of x.2;
        diagnose (Diagnostic_error ("Sample output file " +:+ path_to_string (path_of t output)
          +:+ " does not have its input file")));
  mret samples.

(** A group with an execution of a sample, with its closure. *)
Definition add_sample_group (exec : option Execution) (c : TaskCallback) : Hook unit :=
  match exec with
  | None => mret tt
  | Some exec =>
      '(_, exec) ← on_eval (exec_capture_stderr (Some 1024%N) exec);
      group ← on_eval (exec_into_group exec);
      _ ← on_eval (done_with (group_uuid group) c);
      on_eval (add_group group)
  end.
Definition provide_sample (description ctx : string) (path : PathBuf) : Hook FileUuid :=
  handle ← on_eval (new_file description);
  _ ← with_context ctx (on_eval (on_dag (provide_file handle path (from_file path))));
  mret (file_uuid handle).
Definition solve_sample (t : CheckedTask) (checker : Checker) (solution : OutputGenerator)
    (input_name output : PathBuf) (input_uuid : FileUuid) (val_handle : option FileUuid) : Hook unit :=
  let output_name := path_to_string (path_of t output) in
  output_uuid ← provide_sample ("Sample output file at " +:+ output_name)
                  "Failed to provide sample output file" output;
  '(correct_output, sol) ← with_context "Failed to generate correct sample output file"
    (on_eval (output_generate solution (ct_task t)
       ("Generation of output file relative to " +:+ path_to_string input_name) 0 0 input_uuid val_handle));
  correct_output ← lift (ok_or "Missing official solution" correct_output);
  _ ← add_sample_group sol (CB_SampleSolved input_name);
  chk ← with_context "Failed to check sample files"
    (on_eval (check checker None ("Checking sample output " +:+ output_name)
       input_uuid correct_output output_uuid (SC_Sample (path_of t output))));
  on_eval (add_group chk).
Definition att_sample_valid (t : CheckedTask) (checker : Checker) (sample : PathBuf * PathBuf) : Hook unit :=
  let '(input, output) := sample in
  let input_name := path_of t input in
  input_uuid ← provide_sample ("Sample input file at " +:+ path_to_string input_name)
                 "Failed to provide sample input file" input;
  '(val_handle, val) ← with_context "Failed to validate sample input file"
    (on_eval (validate (input_validator_generator t None) (bt_path (ct_task t))
       ("Validation of sample case " +:+ path_to_string input_name) 0 (Some (text_of "att")) 0 input_uuid));
  _ ← add_sample_group val (CB_SampleValidated input_name);
  match batch_output_generator t with
  | Some solution => solve_sample t checker solution input_name output input_uuid val_handle
  | None => mret tt
  end.
Definition att_sample_files_valid (t : CheckedTask) : Hook unit :=
  match task_type (ct_task t) with
  | TT_Batch checker =>
      samples ← with_context "Failed to get sample files" (get_sample_files t);
      for_each samples (att_sample_valid t checker)
  | _ => mret tt
  end.

(** ** The other files *)
Definition att_with_no_check (t : CheckedTask) : Hook unit :=
  files ← found_files t ["att/*"];
  for_each files (λ att,
    checks ← on_eval (read_checks att);
    match checks with
    | Some (check :: _) =>
        diagnose (with_code_span (code_span check) (Diagnostic_error
          ("@check rule found in an attachment: " +:+ path_to_string (path_of t att))))
    | _ => mret tt
    end).

(** The last byte of a file; nothing for an empty file.  A directory can be opened, and
    its size is not zero, but it cannot be read. *)
Definition last_byte (path : string) (att : PathBuf) : Outcome (list byte) :=
  match stat att with
  | Some (RegularFile c) => Ret (option_list (last c))
  | Some Directory => Fail ["Failed to read last byte of " +:+ path]
  | _ => Fail ["Failed to open attachment " +:+ path]
  end.
Definition att_ends (t : CheckedTask) (files : list string) (att : PathBuf) : Outcome (list string) :=
  let path := path_to_string (path_of t att) in
  chunk ← last_byte path att;
  let '(checker, files) := end_add_chunk (CheckEndWithNewLine_new path) chunk files in
  Ret (end_add_chunk checker [] files).2.
Fixpoint all_att_ends (t : CheckedTask) (files : list string) (l : list PathBuf) : Outcome (list string) :=
  match l with
  | [] => Ret files
  | att :: l => files ← att_ends t files att; all_att_ends t files l
  end.
Definition att_end_with_new_line (t : CheckedTask) : Hook unit :=
  l ← found_files t ["att/*"];
  files ← lift (all_att_ends t [] l);
  emit_warning files "attached".

Definition att_no_directory (t : CheckedTask) : Hook unit :=
  dir ← lift (ok_or "Failed to open att/ directory" (read_dir (in_task t "att")));
  for_each dir (λ entry,
    path ← lift (ok_or "Error while reading att/ content" entry);
    canonical_path ← lift (ok_or ("Failed to find canonical path of " +:+ path_to_string path) (canonical path));
    if path_is_dir canonical_path
    then diagnose (Diagnostic_error ("Only file attachments are supported: "
           +:+ path_to_string (path_of t path) +:+ " is a directory"))
    else mret tt).
End checks.
