(* ===== verification/StatementChecks.v ===== *)
(** * The sanity checks on the statements, and all of them together
    ([ioi/sanity_checks/statement.rs], [ioi/sanity_checks/mod.rs], [ioi/mod.rs])

    The subtasks that the statements list, the files of the statements and the fonts;
    then the list of all the checks of an IOI task, and [IOITask::build_dag] to its end:
    the executions, the booklets, the hooks. *)
From S2P Require Import Prelude Float64 RustOrd Paths StoreKey Dag Text Diagnostics Checks UiMessage Machine.
From S2P Require Import FloatText Build Languages SourceFile Scoring UiState OutputChecks Judge IoiDag.
From S2P Require Import TaskInput CasesGen Booklets SanityChecks AttChecks.

(** What the regular expressions of [statement.rs] find in a text, match after match: the
    groups 1 to 4 of [check_subtasks_oii], and the group 1 of the other ones, with their
    offsets; and the names of the families of fonts that [fontdb] finds. *)
Abbreviation Found := (N * text)%type.
Class StatementCrates : Type := {
  oii_captures : text → list (Found * Found * Found * Found);
  oii_new_captures : text → list Found;
  ois_captures : text → list Found;
  typst_captures : text → list Found;
  font_families : list text
}.

Record ExtractedSubtask : Type := mkExtracted {
  extracted_id : SubtaskId;
  extracted_score : option f64;
  subtask_id_span : option CodeSpan;
  subtask_score_span : option CodeSpan
}.

Abbreviation IoiCheck := (SanityCheck CheckedTask Hooks).

Section checks.
Context `{UuidV4} `{LocalFiles} `{Blake3} `{LanguageManager} `{BuildProfile} `{UuidDisplay} `{IterOrder} `{Glob}.
Context `{NamePatterns} `{Crates} `{Links} `{StatementCrates}.
Abbreviation Hook := (M Hooks).

(** ** The subtasks of a statement *)

(** [CodeSpan::from_str(..).ok()]. *)
Definition found_span (path : PathBuf) (source : text) (f : Found) : Outcome (option CodeSpan) :=
  match from_str path source f.1 (text_len f.2) with
  | Ret span => Ret (Some span)
  | Fail _ => Ret None
  | Panicked m => Panicked m
  | OutOfFuel => OutOfFuel
  end.
(** The digits of a group, read as a [u32]. *)
Definition digits_u32 (s : text) : option N :=
  if forallb is_digit s && bool_decide (s ≠ []) && (digits_value s <? 2 ^ 32)%Z
  then Some (Z.to_N (digits_value s)) else None.

(** The loops of [check_subtasks_*]: [None] when a number cannot be read. *)
Definition oii_subtask (path : PathBuf) (source : text) (c : Found * Found * Found * Found) :
    Outcome (option ExtractedSubtask) :=
  let '(g1, g2, g3, g4) := c in
  id_span ← found_span path source g1;
  score_span ← found_span path source g3;
  Ret (match digits_u32 g2.2, parse_f64 g4.2 with
       | Some num, Some score => Some (mkExtracted num (Some score) id_span score_span)
       | _, _ => None
       end).
Definition indexed_u32 (i : nat) : SubtaskId := (N.of_nat i mod u32_modulus)%N.
Definition oii_new_subtask (path : PathBuf) (source : text) (i : nat) (f : Found) :
    Outcome (option ExtractedSubtask) :=
  span ← found_span path source f;
  Ret (Some (mkExtracted (indexed_u32 i) None span None)).
Definition ois_subtask (path : PathBuf) (source : text) (i : nat) (f : Found) :
    Outcome (option ExtractedSubtask) :=
  span ← found_span path source f;
  Ret (match parse_f64 f.2 with
       | Some score => Some (mkExtracted (indexed_u32 i) (Some score) None span)
       | None => None
       end).
Definition typst_subtask (path : PathBuf) (source : text) (i : nat) (f : Found) :
    Outcome (option ExtractedSubtask) :=
  span ← found_span path source f;
  Ret (Some (mkExtracted (indexed_u32 i) None None span)).
Fixpoint collect_subtasks {A} (read : nat → A → Outcome (option ExtractedSubtask)) (i : nat) (l : list A) :
    Outcome (option (list ExtractedSubtask)) :=
  match l with
  | [] => Ret (Some [])
  | x :: l =>
      st ← read i x;
      match st with
      | None => Ret None
      | Some st => rest ← collect_subtasks read (S i) l; Ret (match rest with Some rest => Some (st :: rest) | None => None end)
      end
  end.
(** An empty list counts as nothing found. *)
Definition non_empty {A} (o : option (list A)) : option (list A) :=
  match o with Some [] => None | o => o end.
Definition check_subtasks {A} (read : nat → A → Outcome (option ExtractedSubtask)) (l : list A) :
    Outcome (option (list ExtractedSubtask)) :=
  o ← collect_subtasks read 0 l; Ret (non_empty o).
Definition or_else {A} (o : Outcome (option A)) (other : Outcome (option A)) : Outcome (option A) :=
  x ← o; match x with Some a => Ret (Some a) | None => other end.
Definition extract_subtasks (path : PathBuf) (source : text) : Outcome (option (list ExtractedSubtask)) :=
  or_else (or_else (or_else
    (check_subtasks (λ _, oii_subtask path source) (oii_captures source))
    (check_subtasks (oii_new_subtask path source) (oii_new_captures source)))
    (check_subtasks (ois_subtask path source) (ois_captures source)))
    (check_subtasks (typst_subtask path source) (typst_captures source)).

(** The subtasks of the task, by their keys. *)
Definition expected_subtasks (t : CheckedTask) : list (SubtaskId * SubtaskInfo) :=
  omap (λ id, (λ st, (id, st)) <$> (ct_subtasks t !! id)) (subtask_ids t).
Definition with_span (span : option CodeSpan) (d : Diagnostic) : Diagnostic :=
  match span with Some span => with_code_span span d | None => d end.
(** The loop over the pairs, up to the first difference. *)
Fixpoint compare_subtasks (path : string) (one_based : N)
    (l : list ((SubtaskId * SubtaskInfo) * ExtractedSubtask)) : Hook unit :=
  match l with
  | [] => mret tt
  | ((id, st), actual) :: l =>
      expected_id ← lift (u32_add id one_based);
      if negb (expected_id =? extracted_id actual)%N then
        diagnose (with_span (subtask_id_span actual) (with_note
          ("Expecting subtask " +:+ pretty expected_id +:+ ", found subtask " +:+ pretty (extracted_id actual))
          (Diagnostic_error ("The subtasks in " +:+ path +:+ " are not sequentially numbered"))))
      else
        match extracted_score actual with
        | Some score =>
            if abs_diff_ne (max_score st) score then
              diagnose (with_span (subtask_score_span actual) (with_note
                ("Expecting " +:+ show_f64 (max_score st) +:+ ", found " +:+ show_f64 score)
                (Diagnostic_error ("The score of subtask " +:+ pretty (extracted_id actual) +:+ " in "
                   +:+ path +:+ " doesn't match the task's one"))))
            else compare_subtasks path one_based l
        | None => compare_subtasks path one_based l
        end
  end.
Definition statement_subtasks_of (t : CheckedTask) (booklet : Booklet) : Hook unit :=
  match statements booklet, booklet_lang booklet with
  | [statement], Some lang =>
      builder ← lift (get_language_from_extension lang);
      let statement_path := path_of t (st_path statement) in
      let path := path_to_string statement_path in
      subtasks ← lift (extract_subtasks statement_path (str_text (build_statement_source builder statement)));
      match subtasks with
      | None => mret tt
      | Some subtasks =>
          first ← lift (unwrap "index out of bounds" (head subtasks));
          let one_based := if (extracted_id first =? 1)%N then 1%N else 0%N in
          let expected := expected_subtasks t in
          _ ← compare_subtasks path one_based (zip expected subtasks);
          if length expected =? length subtasks then mret tt
          else diagnose (with_note ("Expecting " +:+ pretty (length expected) +:+ " subtasks, found "
                 +:+ pretty (length subtasks)) (Diagnostic_error ("Wrong number of subtasks in " +:+ path)))
      end
  | _, _ => mret tt
  end.
Definition statement_subtasks (t : CheckedTask) : Hook unit :=
  for_each (ct_booklets t) (statement_subtasks_of t).

(** ** The files of the statements *)

(** The first path that exists or that is a link, even a broken one. *)
Definition find_present (t : CheckedTask) (paths : list string) : option PathBuf :=
  head (filter (λ p, path_exists p || is_symlink p) (in_task t <$> paths)).
Definition find_statement_pdf (t : CheckedTask) : option PathBuf :=
  find_present t ["statement/statement.pdf"; "testo/testo.pdf"].
Definition find_language_statement_pdf (t : CheckedTask) (language : string) : option PathBuf :=
  find_present t ["statement/" +:+ language +:+ ".pdf"; "testo/" +:+ language +:+ ".pdf"].

Definition check_valid_pdf (path : PathBuf) : Outcome bool :=
  match stat path with
  | Some (RegularFile c) => Ret (bool_decide (take 4 c = String.list_byte_of_string "%PDF"))
  | Some Directory => Ret false
  | _ => Fail ["Failed to open statement file at " +:+ path_to_string path]
  end.
Definition statement_valid_file (t : CheckedTask) (path : PathBuf) : Hook bool :=
  let name := path_to_string (path_of t path) in
  if path_exists path then
    valid ← lift (check_valid_pdf path);
    if valid : bool then mret true
    else _ ← diagnose (Diagnostic_error ("Invalid PDF file at " +:+ name)); mret false
  else
    _ ← (if is_symlink path
         then diagnose (Diagnostic_error ("Statement " +:+ name +:+ " is a broken link")) else mret tt);
    mret false.
Fixpoint any_valid (t : CheckedTask) (found : bool) (l : list PathBuf) : Hook bool :=
  match l with
  | [] => mret found
  | p :: l => valid ← statement_valid_file t p; any_valid t (found || valid) l
  end.
Definition statement_valid (t : CheckedTask) : Hook unit :=
  found ← match find_statement_pdf t with
          | Some path =>
              _ ← diagnose (with_note "This is deprecated, use a language specific statement instead"
                    (Diagnostic_warning ("Found statement at " +:+ path_to_string (path_of t path))));
              statement_valid_file t path
          | None => mret false
          end;
  found ← any_valid t found (omap (find_language_statement_pdf t) LANGUAGES);
  if found : bool then mret tt
  else diagnose (with_note ("Consider adding a statement in any of the languages supported by CMS ("
         +:+ join_string ", " LANGUAGES +:+ ")") (Diagnostic_error "There is no functioning statement file")).

(** The links of a chain, each one read at its text: relative to the current directory. *)
Fixpoint resolve_links (depth : nat) (path : PathBuf) : Outcome PathBuf :=
  match read_link path with
  | None => Ret path
  | Some target =>
      match depth with
      | O => Fail ["Too many level of symbolic links"]
      | S depth => resolve_links depth target
      end
  end.
Definition resolve_symlink (path : PathBuf) : Outcome PathBuf := resolve_links 40 path.

Definition check_known_to_git (t : CheckedTask) (path : PathBuf) : bool :=
  let raw_path := Byte.to_N <$> String.list_byte_of_string (path_to_string (path_of t path)) in
  match git_ls_files (bt_path (ct_task t)) with
  | None => true
  | Some stdout =>
      bool_decide (stdout = []) || bool_decide (raw_path ∈ split_text 0%N (Byte.to_N <$> stdout))
  end.
Definition unavailable_note : string := "This means that it won't be available outside of your local directory".
Definition statement_known (t : CheckedTask) (booklet_dest : list PathBuf) (path : PathBuf) : Hook unit :=
  let name := path_to_string (path_of t path) in
  _ ← (if is_symlink path && negb (check_known_to_git t path) then
         diagnose (with_help ("Try git add -f " +:+ name) (with_note unavailable_note
           (Diagnostic_error ("The official statement at " +:+ name
              +:+ " is a symbolic link and not known to git"))))
       else mret tt);
  match canonical path with
  | None => mret tt
  | Some target =>
      relative_target ← lift (resolve_symlink path);
      if decide (target ∈ booklet_dest) then mret tt
      else
        _ ← diagnose (with_help ("Maybe it should be a symlink to one of the compiled PDF ("
              +:+ join_string ", " (path_to_string ∘ path_of t <$> booklet_dest) +:+ ")")
              (Diagnostic_warning ("The official statement at " +:+ path_to_string (path_of t target)
                 +:+ " is not the one compiled by task-maker")));
        let relative_name := path_to_string (path_of t relative_target) in
        if check_known_to_git t (path_of t relative_target) then mret tt
        else diagnose (with_help ("Try git add -f " +:+ relative_name) (with_note unavailable_note
               (Diagnostic_error ("The official statement at " +:+ relative_name
                  +:+ " is not compiled by task-maker and not known to git"))))
  end.
Definition statement_compiled_or_git (t : CheckedTask) : Hook unit :=
  let booklet_dest := omap (λ b, canonical (booklet_dest b)) (ct_booklets t) in
  _ ← match find_statement_pdf t with
      | Some path => statement_known t booklet_dest path
      | None => mret tt
      end;
  for_each (omap (find_language_statement_pdf t) LANGUAGES) (statement_known t booklet_dest).

(** ** The fonts *)
Definition is_cjk_lang (lang : string) : bool :=
  bool_decide (lang ∈ ["chinese"; "japanese"; "korean"]) ||
  existsb (λ p, String.prefix p lang) ["zh"; "ja"; "ko"].
Definition is_cjk_typst (b : Booklet) : bool :=
  existsb (λ st, bool_decide (path_extension (st_path st) = Some "typ")) (statements b)
    && is_cjk_lang (booklet_language (booklet_config b)).
Definition missing_fonts : list string :=
  filter (λ v, existsb (text_contains (text_of ("Noto Serif CJK " +:+ v))) font_families = false)
    ["SC"; "TC"; "JP"; "KR"].
Definition statement_fonts (t : CheckedTask) : Hook unit :=
  if existsb is_cjk_typst (ct_booklets t) then
    match missing_fonts with
    | [] => mret tt
    | missing =>
        diagnose (with_help "Please install the Noto Serif CJK fonts for your system" (Diagnostic_warning
          ("The following Noto Serif CJK variants are missing from the system: " +:+ join_string ", " missing
             +:+ ". Chinese, Japanese, and Korean characters might not be rendered correctly.")))
    end
  else mret tt.

(** ** All the checks

    The crate [inventory] collects them in an order that is not specified. *)
Definition before (name : string) (c : SanityCheckCategory) (hook : CheckedTask → Hook unit) : IoiCheck :=
  mkSanityCheck name c hook no_hook.
Definition after (name : string) (c : SanityCheckCategory) (hook : CheckedTask → Hook unit) : IoiCheck :=
  mkSanityCheck name c no_hook hook.
Definition ioi_checks : list IoiCheck :=
  [before "AttGraders" Cat_Attachments (check_missing_graders "att");
   before "AttTemplates" Cat_Attachments att_templates;
   after "AttSampleFiles" Cat_Attachments att_sample_files;
   before "AttSampleFilesValid" Cat_Attachments att_sample_files_valid;
   before "AttWithNoCheck" Cat_Attachments att_with_no_check;
   before "AttEndWithNewLine" Cat_Attachments att_end_with_new_line;
   before "AttNoDirectory" Cat_Attachments att_no_directory;
   before "AttTemplatesShouldCompile" Cat_Attachments att_templates_should_compile;
   before "FuzzCheckerWithJunkOutput" Cat_Checker fuzz_checker;
   mkSanityCheck "IOEndWithNewLine" Cat_Io end_with_new_line_pre end_with_new_line_post;
   before "SolGraders" Cat_Solutions (check_missing_graders "sol");
   before "SolTemplateSymlink" Cat_Solutions sol_template_symlink;
   before "SolutionsWithNoChecks" Cat_Solutions solutions_with_no_checks;
   before "SolutionsWithSamplesChecks" Cat_Solutions solutions_with_samples_check;
   before "StatementSubtasks" Cat_Statement statement_subtasks;
   after "StatementValid" Cat_Statement statement_valid;
   after "StatementCompiledOrGit" Cat_Statement statement_compiled_or_git;
   before "StatementFonts" Cat_Statement statement_fonts;
   before "MissingSubtaskNames" Cat_Io missing_subtask_names;
   before "InvalidSubtaskName" Cat_Io invalid_subtask_name;
   mkSanityCheck "AllOutputsEqual" Cat_Io all_outputs_equal_pre all_outputs_equal_post;
   before "DeprecatedDescriptionInSubtask" Cat_Task deprecated_description;
   before "TaskMaxScore" Cat_Task task_max_score;
   after "BrokenSymlinks" Cat_Task broken_symlinks;
   before "NoBitsStdCpp" Cat_Task no_bits_std_cpp;
   before "EmptyTitle" Cat_Task empty_title].

(** ** [IOITask::build_dag], to its end, and [sanity_check_post_hook] *)
Definition with_built (task : BuildTask) (solutions : list Solution) (t : CheckedTask) : CheckedTask :=
  mkChecked task (input_validator_generator t) (batch_output_generator t) (ct_booklets t) solutions.
Definition build_booklets `{!BookletCrates} (booklets : list Booklet) : M (EvaluationData TaskCallback) unit :=
  for_each booklets (λ b, with_context "Failed to bind booklet compilation" (booklet_build b)).
Definition IOITask_build_dag `{!BookletCrates} (t : CheckedTask) (checks : list IoiCheck)
    (config : EvaluationConfig) : Hook (CheckedTask * list ScoreManager) :=
  '(task, solutions, managers) ← on_eval (build_dag (ct_task t) config);
  let t := with_built task solutions t in
  _ ← on_eval (build_booklets (ct_booklets t));
  _ ← with_context "Sanity check pre-hooks failed" (pre_hook diagnose checks t);
  mret (t, managers).
Definition sanity_check_post_hook (t : CheckedTask) (checks : list IoiCheck) : Hook unit :=
  post_hook diagnose checks t.
End checks.
