(* ===== verification/SanityChecksCorrect.v ===== *)
(** * The sanity checks leave a valid DAG

    The hooks that run before the evaluation add files, callbacks and executions to the
    DAG of a task: they keep the invariant of [Build]. *)
From S2P Require Import Prelude Float64 RustOrd Paths StoreKey Dag CheckDag Text Diagnostics Checks CheckComments UiMessage Machine.
From S2P Require Import FloatText Build Languages SourceFile SourceFileCorrect Scoring UiState OutputChecks Judge.
From S2P Require Import IoiDag IoiDagCorrect IoiTaskCorrect TaskInput CasesGen Booklets BookletsCorrect.
From S2P Require Import SanityChecks AttChecks StatementChecks.

(** ** No panic *)
Lemma no_panic_ret {A} (a : A) : no_panic (Ret a).
Proof. done. Qed.
Lemma no_panic_bind {A B} (o : Outcome A) (f : A → Outcome B) :
  no_panic o → (∀ a, o = Ret a → no_panic (f a)) → no_panic (o ≫= f).
Proof. intros Ho Hf. destruct o; simpl; try done. by apply Hf. Qed.
Lemma no_panic_ok_or {A} e (o : option A) : no_panic (ok_or e o).
Proof. by destruct o. Qed.
Lemma no_panic_try_map {A B} (f : A → Outcome B) l : (∀ x, x ∈ l → no_panic (f x)) → no_panic (try_map f l).
Proof.
  induction l as [|x l IH]; intros Hf; [done|]. simpl.
  apply no_panic_bind; [apply Hf; by left|]. intros y _.
  apply no_panic_bind; [apply IH; intros; apply Hf; by right|done].
Qed.
#[local] Hint Resolve no_panic_ret no_panic_ok_or : core.

Lemma ui_ok_mono `{LanguageManager} (G G' : gset Uuid) x : G ⊆ G' → ui_ok G x → ui_ok G' x.
Proof. intros HG []. split; [done..|]. intros. apply HG. eauto. Qed.
Lemma checker_ok_mono `{LanguageManager} (G G' : gset Uuid) c : G ⊆ G' → checker_ok G c → checker_ok G' c.
Proof. destruct c; [done|apply ui_ok_mono]. Qed.
Lemma input_validator_ok_mono `{LanguageManager} (G G' : gset Uuid) v :
  G ⊆ G' → input_validator_ok G v → input_validator_ok G' v.
Proof. destruct v; [done|apply ui_ok_mono]. Qed.
Lemma output_generator_ok_mono `{LanguageManager} (G G' : gset Uuid) g :
  G ⊆ G' → output_generator_ok G g → output_generator_ok G' g.
Proof. destruct g; [done..|apply ui_ok_mono]. Qed.

(** Hooks that all succeed run as without the warnings. *)
Lemma pre_hook_run {Task State} warn (checks : list (SanityCheck Task State)) t s s' :
  for_each checks (λ c, check_pre_hook c t) s = (Ret tt, s') → pre_hook warn checks t s = (Ret tt, s').
Proof.
  revert s. induction checks as [|c checks IH]; intros s; [done|].
  unfold pre_hook in *. cbn [for_each]. unfold mbind, M_bind, run_hook in *.
  destruct (check_pre_hook c t s) as [[[]| | |] s1]; try done. apply IH.
Qed.

(** ** [find_bits] finds a part of the text *)
Lemma text_len_strip p s t : strip_prefix p s = Some t → (text_len t ≤ text_len s)%N.
Proof. intros ->%strip_prefix_Some. rewrite text_len_app. lia. Qed.
Lemma text_len_skip_spaces s : (text_len (skip_spaces s) ≤ text_len s)%N.
Proof. destruct (skip_spaces_app s) as (sp & Hs & _). rewrite Hs at 2. rewrite text_len_app. lia. Qed.
Lemma text_len_line_of s : (text_len (line_of s) ≤ text_len s)%N.
Proof.
  unfold line_of. rewrite <-(take_skip_while (λ c, negb (c =? newline)%N) s) at 2.
  rewrite text_len_app. lia.
Qed.
Lemma match_bits_len s n : match_bits s = Some n → (n ≤ text_len s)%N.
Proof.
  unfold match_bits. intros (s1 & Hp1 & Hm)%bind_Some. apply bind_Some in Hm as (s2 & Hp2 & Hm).
  pose proof (text_len_strip _ _ _ Hp1). pose proof (text_len_strip _ _ _ Hp2).
  pose proof (text_len_skip_spaces s1). pose proof (text_len_skip_spaces s2).
  destruct (skip_spaces s2) as [|c s3]; [done|]. destruct (_ || _); [|done].
  apply bind_Some in Hm as (s4 & Hp4 & Hm). pose proof (text_len_strip _ _ _ Hp4).
  destruct s4 as [|c' s5]; [done|]. destruct (is_quote c'); [|done]. injection Hm as <-.
  pose proof (text_len_line_of s5). simpl in *. lia.
Qed.
Lemma find_bits_inside b offset s start len :
  find_bits b offset s = Some (start, len) → (start + len ≤ offset + text_len s)%N.
Proof.
  revert b offset. induction s as [|c s IH]; intros b offset; cbn [find_bits].
  - destruct b; [|done]. destruct (match_bits []) as [n|] eqn:Hm; [|done]. intros [= <- <-].
    apply match_bits_len in Hm. lia.
  - destruct (if b then match_bits (c :: s) else None) as [n|] eqn:Hm.
    + intros [= <- <-]. destruct b; [|done]. apply match_bits_len in Hm. lia.
    + intros Hf%IH. simpl. lia.
Qed.

(** ** What the hooks keep *)
Section keeps.
Context `{UuidV4} `{LocalFiles} `{Blake3} `{LanguageManager} `{BuildProfile} `{UuidDisplay} `{IterOrder} `{Glob}.
Context `{NamePatterns} `{Crates} `{Links} `{StatementCrates}.
Abbreviation Hook := (M Hooks).
Context (G : gset Uuid) (s0 : EvaluationData TaskCallback).
Implicit Types (s : EvaluationData TaskCallback) (h : Hooks).

(** A check may add graders of its own. *)
Record going_with (G' : gset Uuid) h : Prop := {
  gw_graders : G ⊆ G';
  gw_builds : builds G' [] [] (hook_eval h);
  gw_extends : extends s0 (hook_eval h)
}.
Definition going h : Prop := ∃ G', going_with G' h.
Lemma going_with_eval G' h s :
  going_with G' h → builds G' [] [] s → extends (hook_eval h) s → going_with G' (with_hook_eval s h).
Proof. intros [] Hb He. split; [done..|by etrans]. Qed.
Lemma going_eval G' h s :
  going_with G' h → builds G' [] [] s → extends (hook_eval h) s → going (with_hook_eval s h).
Proof. exists G'. by apply going_with_eval. Qed.
Lemma going_sanity h x : going h → going (with_hook_sanity x h).
Proof. intros [G' []]. by exists G'. Qed.

Definition keeps {A} (m : Hook A) : Prop := ∀ h, going h → wp m (λ _, going) may_fail h.

Lemma keeps_ret {A} (a : A) : keeps (mret a).
Proof. by intros h Hh. Qed.
Lemma keeps_bind {A B} (m : Hook A) (f : A → Hook B) : keeps m → (∀ a, keeps (f a)) → keeps (m ≫= f).
Proof.
  intros Hm Hf h Hh. apply wp_bind. eapply wp_mono; [by apply Hm| |done]. intros a h' Hh'. by apply Hf.
Qed.
Lemma keeps_assoc {A B C} (m : Hook A) (f : A → Hook B) (g : B → Hook C) :
  keeps (m ≫= λ a, f a ≫= g) → keeps ((m ≫= f) ≫= g).
Proof.
  intros Hk h Hh. specialize (Hk h Hh). unfold wp, mbind, M_bind in *. by destruct (m h) as [[] ?].
Qed.
Lemma keeps_lift {A} (o : Outcome A) : no_panic o → keeps (lift o).
Proof. intros Ho h Hh. by destruct o. Qed.
Lemma keeps_lift_bind {A B} (o : Outcome A) (f : A → Hook B) :
  no_panic o → (∀ a, o = Ret a → keeps (f a)) → keeps (lift o ≫= f).
Proof.
  intros Ho Hf h Hh. apply wp_bind. destruct o; try done. by apply Hf.
Qed.
Lemma keeps_context {A} ctx (m : Hook A) : keeps m → keeps (with_context ctx m).
Proof. intros Hm h Hh. apply wp_context. by apply Hm. Qed.
Lemma keeps_for_each {A} (l : list A) (f : A → Hook unit) :
  (∀ x, x ∈ l → keeps (f x)) → keeps (for_each l f).
Proof. intros Hf h Hh. apply wp_for_each_inv; [done|]. intros x h' Hx. by apply Hf. Qed.
Lemma keeps_modify_sanity f : keeps (on_sanity (modify f)).
Proof. intros h Hh. unfold on_sanity. wp_steps. by apply going_sanity. Qed.
(** A builder that keeps the invariant for the graders of the moment. *)
Lemma keeps_eval {A} (m : M (EvaluationData TaskCallback) A) :
  (∀ G' s, G ⊆ G' → builds G' [] [] s → extends s0 s →
     wp m (λ _ s', builds G' [] [] s' ∧ extends s s') may_fail s) →
  keeps (on_eval m).
Proof.
  intros Hm h [G' Hw]. pose proof Hw as [HG Hb He]. unfold on_eval. wp_steps.
  eapply wp_mono; [by apply Hm| |done]. intros a s' [Hb' He']. by eapply going_eval.
Qed.
Lemma keeps_diagnose d : keeps (diagnose d).
Proof.
  apply keeps_eval. intros G' s HG Hb He. eapply wp_send; [done|]. by intros s' Hb' He' _.
Qed.

Lemma wp_file_chunks G' Q R file cb s (P : unit → EvaluationData TaskCallback → Prop) E :
  builds G' Q R s → file ∈ R ∨ ready s file →
  (∀ s', builds G' Q R s' → extends s s' → P tt s') →
  wp (on_dag (get_file_content_chunked file cb)) P E s.
Proof.
  intros Hb Hf HP. by eapply wp_file_callback.
Qed.

(** ** What the checks need of the task

    The patterns are valid, the files and the sources fit, the programs of the task can
    be built, the files of the testcases are in the DAG. *)
Definition CHECK_PATTERNS : list string :=
  ["sol/template.*"; "**/*"; "**/*.cpp"; "**/*.cc"; "att/*input*.txt"; "att/*output*.txt"; "att/*"].
Definition valid_pattern (dir : PathBuf) (p : string) : Prop :=
  is_Some (glob (path_to_string (path_join dir (path_of_string p)))).
(** The matches of the expressions are in the text. *)
Definition inside (source : text) (f : Found) : Prop := (f.1 + text_len f.2 ≤ text_len source)%N.
Record captures_inside : Prop := {
  ci_oii : ∀ source g1 g2 g3 g4, (g1, g2, g3, g4) ∈ oii_captures source → inside source g1 ∧ inside source g3;
  ci_oii_new : ∀ source f, f ∈ oii_new_captures source → inside source f;
  ci_ois : ∀ source f, f ∈ ois_captures source → inside source f;
  ci_typst : ∀ source f, f ∈ typst_captures source → inside source f
}.
Record checkable (t : CheckedTask) : Prop := {
  ck_glob : ∀ p, p ∈ CHECK_PATTERNS → valid_pattern (bt_path (ct_task t)) p;
  ck_folders : ∀ dir, dir ∈ ["att"; "sol"] → valid_pattern (in_task t dir) "*.*";
  ck_files : files_fit;
  ck_type : task_type_ok G (task_type (ct_task t));
  ck_validator : input_validator_ok G (input_validator_generator t None);
  ck_output : ∀ g, batch_output_generator t = Some g → output_generator_ok G g;
  ck_ready : ∀ k x f, bt_testcases (ct_task t) !! k = Some x → testcase_file x f → ready s0 f;
  ck_listed : ∀ k st tc, bt_subtasks (ct_task t) !! k = Some st →
    tc ∈ subtask_testcases (subtask_info st) → is_Some (bt_testcases (ct_task t) !! tc);
  ck_sources : ∀ b st l, b ∈ ct_booklets t → st ∈ statements b →
    (text_len (str_text (build_statement_source l st)) < u64_modulus)%N;
  ck_captures : captures_inside;
  ck_ids : ∀ id, is_Some (bt_subtasks (ct_task t) !! id) → (id + 1 < u32_modulus)%N
}.

Context (t : CheckedTask) (Ht : checkable t).

Lemma list_files_no_panic dir l : (∀ p, p ∈ l → valid_pattern dir p) → no_panic (list_files dir l).
Proof.
  induction l as [|p l IH]; intros Hl; [done|]. cbn [list_files].
  destruct (Hl p) as [fs Hfs]; [by left|]. rewrite Hfs. simpl.
  apply no_panic_bind; [|done]. apply IH. intros q Hq. apply Hl. by right.
Qed.
Lemma keeps_found {B} l (f : list PathBuf → Hook B) :
  (∀ p, p ∈ l → p ∈ CHECK_PATTERNS) → (∀ fs, keeps (f fs)) → keeps (found_files t l ≫= f).
Proof.
  intros Hl Hf. apply keeps_bind; [|done]. apply keeps_lift, list_files_no_panic.
  intros p Hp. by apply (ck_glob t Ht), Hl.
Qed.
End keeps.

(** The cases of a hook that only looks at the task. *)
Ltac keeps :=
  repeat first
    [ apply keeps_ret | apply keeps_diagnose | apply keeps_modify_sanity | apply keeps_context
    | apply keeps_for_each; intros ? ?
    | apply keeps_lift_bind; [solve [eauto]|intros ? ?]
    | apply keeps_lift; solve [eauto]
    | apply keeps_bind; [|intros ?]
    | case_match ].

(** ** The hooks of [SanityChecks] *)
Section sanity.
Context `{UuidV4} `{LocalFiles} `{Blake3} `{LanguageManager} `{BuildProfile} `{UuidDisplay} `{IterOrder} `{Glob}.
Context `{NamePatterns} `{Crates} `{Links} `{StatementCrates}.
Context (G : gset Uuid) (s0 : EvaluationData TaskCallback) (t : CheckedTask) (Ht : checkable G s0 t).
Abbreviation keeps := (keeps G s0).

Lemma keeps_missing_subtask_names : keeps (missing_subtask_names t).
Proof. unfold missing_subtask_names. keeps. Qed.
Lemma keeps_invalid_subtask_name : keeps (invalid_subtask_name t).
Proof. unfold invalid_subtask_name. keeps. Qed.
Lemma keeps_deprecated_description : keeps (deprecated_description t).
Proof. unfold deprecated_description. keeps. Qed.
Lemma keeps_solutions_with_no_checks : keeps (solutions_with_no_checks t).
Proof. unfold solutions_with_no_checks. keeps. Qed.
Lemma keeps_solutions_with_samples_check : keeps (solutions_with_samples_check t).
Proof. unfold solutions_with_samples_check. keeps. Qed.
Lemma keeps_task_max_score : keeps (task_max_score t).
Proof. unfold task_max_score. keeps. Qed.
Lemma keeps_empty_title : keeps (empty_title t).
Proof. unfold empty_title. keeps. Qed.
Lemma keeps_sol_template_symlink : keeps (sol_template_symlink t).
Proof.
  apply keeps_found; [done|set_solver|]. intros fs. unfold require_extension. keeps.
Qed.

(** A file whose content is looked at. *)
Lemma keeps_bind_file k x file {B} (m : N → M Hooks B) cb :
  bt_testcases (ct_task t) !! k = Some x → testcase_file x file →
  (∀ cell, keeps (m cell)) →
  keeps (cell ← on_eval new_cell; _ ← m cell; on_eval (on_dag (get_file_content_chunked file (cb cell)))).
Proof.
  intros Hx Hf Hm. apply keeps_bind; [|intros cell; apply keeps_bind; [done|intros _]].
  - apply keeps_eval. intros G' s HG Hb He. unfold new_cell. wp_steps. by apply builds_next_cell.
  - apply keeps_eval. intros G' s HG Hb He. eapply wp_file_chunks; [done| |by intros].
    right. eapply extends_ready; [done|]. by eapply ck_ready.
Qed.
Lemma keeps_hash_testcase k st tc :
  bt_subtasks (ct_task t) !! k = Some st → tc ∈ subtask_testcases (subtask_info st) →
  keeps (hash_testcase t (subtask_id (subtask_info st)) tc).
Proof.
  intros Hk Htc. destruct (ck_listed _ _ _ Ht _ _ _ Hk Htc) as [x Hx]. unfold hash_testcase. rewrite Hx.
  apply keeps_lift_bind; [done|]. intros y [= <-].
  destruct (official_output_file (testcase_info x)) as [f|] eqn:Hf; [|apply keeps_ret].
  eapply (keeps_bind_file tc x f (λ cell, on_sanity _)); [done|by right|]. intros. apply keeps_modify_sanity.
Qed.
Lemma elem_of_subtask_infos st :
  st ∈ values_iter (ct_subtasks t) → ∃ k x, bt_subtasks (ct_task t) !! k = Some x ∧ st = subtask_info x.
Proof.
  rewrite elem_of_values_iter. intros [k Hk]. unfold ct_subtasks in Hk.
  apply lookup_fmap_Some in Hk as (x & <- & Hx). eauto.
Qed.
Lemma keeps_all_outputs_equal : keeps (all_outputs_equal_pre t).
Proof.
  apply keeps_for_each. intros st (k & x & Hk & ->)%elem_of_subtask_infos. unfold hash_subtask.
  case_match; [|apply keeps_ret]. apply keeps_bind; [apply keeps_modify_sanity|intros _].
  apply keeps_for_each. intros tc Htc. by eapply keeps_hash_testcase.
Qed.
Lemma keeps_end_with_new_line : keeps (end_with_new_line_pre t).
Proof.
  apply keeps_for_each. intros [k x] Hx%elem_of_map_iter. unfold end_check_testcase, bind_end_check.
  apply keeps_bind; [|intros _].
  - destruct (input_file (testcase_info x)) as [f|] eqn:Hf; [|apply keeps_ret].
    eapply (keeps_bind_file k x f (λ cell, on_sanity _)); [done|by left|]. intros. apply keeps_modify_sanity.
  - destruct (official_output_file (testcase_info x)) as [f|] eqn:Hf; [|apply keeps_ret].
    eapply (keeps_bind_file k x f (λ cell, on_sanity _)); [done|by right|]. intros. apply keeps_modify_sanity.
Qed.

Lemma needed_grader_no_panic file : no_panic (needed_grader t file).
Proof.
  unfold needed_grader. cbv zeta. case_decide; [|done]. destruct (detect_language _) as [l|]; [|done].
  apply no_panic_bind; [by destruct l|]. intros; done.
Qed.
Lemma keeps_check_missing_graders folder :
  folder ∈ ["att"; "sol"] → keeps (check_missing_graders folder t).
Proof.
  intros Hf. unfold check_missing_graders. case_match; [apply keeps_ret|].
  apply keeps_lift_bind; [apply list_files_no_panic; intros p ->%list_elem_of_singleton; by apply (ck_folders _ _ _ Ht)|].
  intros files _. apply keeps_lift_bind; [apply no_panic_try_map; intros; apply needed_grader_no_panic|].
  intros needed _. cbv zeta. keeps.
Qed.
Lemma bits_span_no_panic att : no_panic (bits_span t att).
Proof.
  unfold bits_span. cbv zeta. destruct (read_to_string _) as [c|] eqn:Hc; [|done].
  destruct (find_bits _ _ _) as [[start len]|] eqn:Hb; [|done]. apply no_panic_bind; [|done].
  apply from_str_no_panic. apply find_bits_inside in Hb. pose proof (ck_files _ _ _ Ht _ _ Hc). lia.
Qed.
Lemma keeps_no_bits_std_cpp : keeps (no_bits_std_cpp t).
Proof.
  apply keeps_found; [done|set_solver|]. intros files.
  apply keeps_lift_bind; [apply no_panic_try_map; intros; apply bits_span_no_panic|]. intros spans _. keeps.
Qed.
End sanity.

(** ** The hooks of [AttChecks] *)
Section att.
Context `{UuidV4} `{LocalFiles} `{Blake3} `{LanguageManager} `{BuildProfile} `{UuidDisplay} `{IterOrder} `{Glob}.
Context `{NamePatterns} `{Crates} `{Links} `{StatementCrates}.
Context (G : gset Uuid) (s0 : EvaluationData TaskCallback) (t : CheckedTask) (Ht : checkable G s0 t).
Abbreviation keeps := (keeps G s0).
Implicit Types (s : EvaluationData TaskCallback) (h : Hooks).

Lemma keeps_att_templates : keeps (att_templates t).
Proof. unfold att_templates, att_template, require_extension. keeps. Qed.

(** A new file with an identifier, a check that goes on with its group. *)
Lemma wp_check_added G' c descr i co out cb s :
  checker_ok G' c → builds G' [] [] s → ready s i → ready s co → ready s out →
  wp (g ← check c None descr i co out cb; add_group g)
    (λ _ s', builds G' [] [] s' ∧ extends s s') may_fail s.
Proof.
  intros Hc Hb Hi Hco Hout. apply wp_bind. eapply (wp_check G' [] []); [done..|].
  intros g e k s1 Hb1 He1 Hg Hs1 _ _ _. eapply wp_add_single; [done..|].
  intros s2 Hb2 He2 _ _. split; [done|by etrans].
Qed.
Lemma wp_on_eval {A} (m : M (EvaluationData TaskCallback) A) (P : A → Hooks → Prop) h :
  wp m (λ a s, P a (with_hook_eval s h)) may_fail (hook_eval h) → wp (on_eval m) P may_fail h.
Proof. intros Hw. unfold on_eval. wp_steps. by eapply wp_mono; [exact Hw| |]. Qed.

Lemma wp_provide_sample G' R d ctx path h (P : FileUuid → Hooks → Prop) :
  builds G' [] R (hook_eval h) →
  (∀ f s', builds G' [] R s' → extends (hook_eval h) s' → ready s' f → P f (with_hook_eval s' h)) →
  wp (provide_sample d ctx path) P may_fail h.
Proof.
  intros Hb HP. unfold provide_sample, new_file. apply wp_bind, wp_on_eval. wp_steps.
  eapply wp_draw; [done|]. intros u s1 _ _ He1 _ Hb1 _. wp_steps. apply wp_on_eval.
  eapply (wp_provide_file G' [] R); [done|by left|done|]. intros s2 Hb2 He2 Hr2. wp_steps.
  apply HP; [done|by etrans|done].
Qed.
(** What a sample may leave to run. *)
Definition pending G' s (o : option Execution) : Prop :=
  match o with
  | None => builds G' [] [] s
  | Some e => builds G' [] (exec_outs e ++ []) s ∧ supplied s e
  end.
Lemma wp_add_sample_group G' o c h (P : unit → Hooks → Prop) :
  pending G' (hook_eval h) o →
  (∀ s', builds G' [] [] s' → extends (hook_eval h) s' →
     (∀ e f, o = Some e → f ∈ exec_outs e → ready s' f) → P tt (with_hook_eval s' h)) →
  wp (add_sample_group o c) P may_fail h.
Proof.
  intros Ho HP. destruct o as [e|]; simpl in *.
  2: { wp_steps. replace h with (with_hook_eval (hook_eval h) h) by (by destruct h). by apply HP. }
  destruct Ho as [Hb Hs]. apply wp_bind, wp_on_eval. eapply wp_capture_stderr; [done..|].
  intros f1 s1 e1 Hb1 He1 Hs1 _ Hsub. cbn beta iota. apply wp_bind, wp_on_eval. unfold exec_into_group.
  wp_steps. eapply wp_draw; [exact Hb1|]. intros u s2 _ _ He2 _ _ Hb2. wp_steps. apply wp_on_eval.
  eapply wp_done_with; [exact Hb2|left; apply list_elem_of_here|]. intros s3 Hb3 He3 _. apply wp_on_eval.
  assert (extends s1 s3) as He13 by (by etrans).
  eapply (wp_add_single G' [] [] _ e1); [exact Hb3|done|by eapply supplied_extends|].
  intros s4 Hb4 He4 _ Hr4. apply HP; [done|do 2 (etrans; [done|]); done|].
  intros e' f [= <-] Hf. apply Hr4, Hsub, Hf.
Qed.

Lemma wp_check_sample G' c d i co out cb (P : unit → Hooks → Prop) h ctx :
  checker_ok G' c → builds G' [] [] (hook_eval h) →
  ready (hook_eval h) i → ready (hook_eval h) co → ready (hook_eval h) out →
  (∀ s', builds G' [] [] s' → extends (hook_eval h) s' → P tt (with_hook_eval s' h)) →
  wp (g ← with_context ctx (on_eval (check c None d i co out cb)); on_eval (add_group g)) P may_fail h.
Proof.
  intros Hc Hb Hi Hco Hout HP. wp_steps. apply wp_on_eval. eapply (wp_check G' [] []); [done..|].
  intros g e k s1 Hb1 He1 Hg Hs1 _ _ _. apply wp_on_eval. eapply wp_add_single; [done..|].
  intros s2 Hb2 He2 _ _. apply HP; [done|by etrans].
Qed.

Lemma keeps_fuzz_with c i co junk :
  (∃ k x, bt_testcases (ct_task t) !! k = Some x ∧ testcase_file x i ∧ testcase_file x co) →
  checker_ok G c → keeps (fuzz_with c i co junk).
Proof.
  intros (k & x & Hx & Hi & Hco) Hc h [G' [HG Hb He]]. destruct junk as [d content]. unfold fuzz_with, new_file.
  pose proof (ck_ready _ _ _ Ht _ _ _ Hx Hi) as Hri. pose proof (ck_ready _ _ _ Ht _ _ _ Hx Hco) as Hrc.
  apply wp_bind, wp_on_eval. wp_steps. eapply wp_draw; [done|]. intros u s1 _ _ He1 _ Hb1 _. wp_steps.
  apply wp_on_eval. eapply (wp_provide_content G' [] []); [done|]. intros s2 Hb2 He2 Hr2.
  assert (extends s0 s2) as He02 by (do 2 (etrans; [done|]); done).
  eapply (wp_check_sample G'); [by eapply checker_ok_mono|done|by eapply extends_ready|
    by eapply extends_ready|done|].
  intros s3 Hb3 He3. eapply going_eval; [|exact Hb3|done]. split; [done..|]. exact He02.
Qed.
Lemma keeps_fuzz_checker : keeps (fuzz_checker t).
Proof.
  unfold fuzz_checker. pose proof (ck_type _ _ _ Ht) as Htype.
  destruct (task_type _) as [[|checker]|data|data|]; try apply keeps_ret.
  destruct (fuzz_testcase t) as [[i co]|] eqn:Hf; [|apply keeps_ret].
  apply keeps_for_each. intros junk _. apply keeps_fuzz_with; [|done].
  unfold fuzz_testcase in Hf. apply head_Some_elem_of in Hf. apply list_elem_of_omap in Hf as (x & Hx & Hf).
  apply elem_of_values_iter in Hx as [k Hk]. exists k, x.
  apply bind_Some in Hf as (i' & Hi & Hf). apply bind_Some in Hf as (co' & Hco & [= <- <-]).
  split; [done|]. by split; [left|right].
Qed.

(** *** The samples *)
Lemma keeps_report_repeated what m : keeps (report_repeated t what m).
Proof. unfold report_repeated. keeps. Qed.
(** The lists of files with a number are not empty. *)
Definition numbered_fine (m : Numbered) : Prop := ∀ n l, m !! n = Some l → l ≠ [].
Lemma numbered_is_fine files : numbered_fine (by_number files).
Proof.
  unfold by_number. assert (numbered_fine ∅) as Hm by (by intros n l ?%lookup_empty_Some).
  revert Hm. generalize (∅ : Numbered) as m. induction files as [|p files IH]; intros m Hm; [done|].
  cbn [foldl]. apply IH. unfold add_numbered. destruct (extract_num p) as [k|]; [|done].
  intros n l. destruct (decide (n = k)) as [->|Hne].
  - rewrite lookup_partial_alter_eq. intros [= <-]. by destruct (default [] (m !! k)).
  - rewrite lookup_partial_alter_ne by done. apply Hm.
Qed.
Lemma first_of_no_panic (l : list PathBuf) :
  l ≠ [] → no_panic (unwrap "index out of bounds" (head l)).
Proof. by destruct l. Qed.
Lemma keeps_pair_samples {B} inputs outputs (f : list (PathBuf * PathBuf) * Numbered → M Hooks B) :
  (∀ n l, (n, l) ∈ inputs → l ≠ []) → numbered_fine outputs →
  (∀ samples outputs', numbered_fine outputs' → keeps (f (samples, outputs'))) →
  keeps (pair_samples t inputs outputs ≫= f).
Proof.
  revert outputs f. induction inputs as [|[num files] inputs IH]; intros outputs f Hi Ho Hf; cbn [pair_samples].
  { intros h Hh. apply wp_bind, wp_ret. by apply Hf. }
  assert (files ≠ []) as Hfiles by (eapply Hi; by left).
  assert (∀ n l, (n, l) ∈ inputs → l ≠ []) as Hi' by (intros n l Hin; eapply Hi; by right).
  destruct (outputs !! num) as [found|] eqn:Hnum.
  - apply keeps_assoc. apply keeps_lift_bind; [apply first_of_no_panic; by eapply Ho|]. intros output _.
    apply keeps_assoc. apply keeps_lift_bind; [by apply first_of_no_panic|]. intros input _.
    apply keeps_assoc. apply IH; [done|by intros n l [_ ?]%lookup_delete_Some; eapply Ho|].
    intros samples outputs' Ho'. intros h Hh. cbn beta iota. apply wp_bind, wp_ret. by apply Hf.
  - apply keeps_assoc. apply keeps_lift_bind; [by apply first_of_no_panic|]. intros input _.
    apply keeps_assoc. apply keeps_bind; [apply keeps_diagnose|]. intros _. by apply IH.
Qed.
Lemma keeps_get_sample_files : keeps (get_sample_files t).
Proof.
  unfold get_sample_files.
  apply keeps_found; [done|set_solver|]. intros inputs. cbv zeta.
  apply keeps_bind; [apply keeps_report_repeated|]. intros _.
  apply keeps_found; [done|set_solver|]. intros outputs.
  apply keeps_bind; [apply keeps_report_repeated|]. intros _.
  apply keeps_pair_samples; [|apply numbered_is_fine|].
  { intros n l Hin%elem_of_map_iter. by eapply numbered_is_fine. }
  intros samples outputs' Ho. cbn beta iota. apply keeps_bind; [|intros _; apply keeps_ret].
  apply keeps_for_each. intros [n l] Hin%elem_of_map_iter.
  apply keeps_lift_bind; [apply first_of_no_panic; by eapply Ho|]. intros output _. apply keeps_diagnose.
Qed.

Lemma wp_solve_sample G' checker g name o iu vh h (P : unit → Hooks → Prop) :
  checker_ok G' checker → output_generator_ok G' g → builds G' [] [] (hook_eval h) →
  ready (hook_eval h) iu → (∀ f, vh = Some f → ready (hook_eval h) f) →
  (∀ s', builds G' [] [] s' → extends (hook_eval h) s' → P tt (with_hook_eval s' h)) →
  wp (solve_sample t checker g name o iu vh) P may_fail h.
Proof.
  intros Hc Hg Hb Hi Hvh HP. unfold solve_sample. cbv zeta. apply wp_bind.
  eapply (wp_provide_sample G' []); [exact Hb|].
  intros ou s1 Hb1 He1 Hr1. apply wp_bind, wp_context, wp_on_eval.
  assert (∀ co sol s2, pending G' s2 sol → extends s1 s2 → (ready s2 co ∨ ∃ e, sol = Some e ∧ co ∈ exec_outs e) →
    wp (_ ← add_sample_group sol (CB_SampleSolved name);
        chk ← with_context "Failed to check sample files"
          (on_eval (check checker None ("Checking sample output " +:+ path_to_string (path_of t o))
             iu co ou (SC_Sample (path_of t o))));
        on_eval (add_group chk)) P may_fail (with_hook_eval s2 h)) as Hchk.
  { intros co sol s2 Hp2 He2 Hco. apply wp_bind. eapply wp_add_sample_group; [exact Hp2|].
    intros s3 Hb3 He3 Hr3. simpl in He3. assert (extends s1 s3) as He13 by (by etrans).
    assert (extends (hook_eval h) s3) as He03 by (by etrans).
    eapply (wp_check_sample G'); [done|exact Hb3|exact (extends_ready _ _ _ He03 Hi)| |
      exact (extends_ready _ _ _ He13 Hr1)|].
    { destruct Hco as [Hco|(e & -> & Hco)]; [exact (extends_ready _ _ _ He3 Hco)|by eapply Hr3]. }
    intros s4 Hb4 He4. apply HP; [done|by etrans]. }
  eapply (wp_output_generate G' [] []); [done|exact Hb1|by eapply extends_ready|..].
  - intros f Hf. eapply extends_ready; [exact He1|]. by apply Hvh.
  - intros co s2 Hb2 He2 Hr2. cbn beta iota. apply wp_bind. eapply wp_lift_ret; [done|].
    apply Hchk; [done|done|by left].
  - intros co e s2 Hb2 He2 Hs2 Hco. cbn beta iota. apply wp_bind. eapply wp_lift_ret; [done|].
    apply Hchk; [done|done|right; eauto].
Qed.
Lemma keeps_att_sample_valid checker sample :
  checker_ok G checker → keeps (att_sample_valid t checker sample).
Proof.
  intros Hc h [G' Hw]. pose proof Hw as [HG Hb He]. destruct sample as [i o]. unfold att_sample_valid. cbv zeta.
  apply wp_bind. eapply (wp_provide_sample G' []); [done|]. intros iu s1 Hb1 He1 Hr1.
  apply wp_bind, wp_context, wp_on_eval.
  assert (∀ vh val s2, pending G' s2 val → extends s1 s2 → (∀ f, vh = Some f → ∃ e, val = Some e ∧ f ∈ exec_outs e) →
    wp (_ ← add_sample_group val (CB_SampleValidated (path_of t i));
        match batch_output_generator t with
        | Some solution => solve_sample t checker solution (path_of t i) o iu vh
        | None => mret tt
        end) (λ _, going G s0) may_fail (with_hook_eval s2 h)) as Hrest.
  { intros vh val s2 Hp2 He2 Hvh. apply wp_bind. eapply wp_add_sample_group; [exact Hp2|].
    intros s3 Hb3 He3 Hr3. simpl in He3. assert (extends s1 s3) as He13 by (by etrans).
    assert (extends (hook_eval h) s3) as He03 by (by etrans).
    destruct (batch_output_generator t) as [g|] eqn:Hg; [|by apply wp_ret, (going_eval _ _ G' h)].
    eapply (wp_solve_sample G'); [by eapply checker_ok_mono|eapply output_generator_ok_mono; [done|
      by eapply ck_output]|exact Hb3|exact (extends_ready _ _ _ He13 Hr1)|..].
    - intros f Hf. destruct (Hvh f Hf) as (e & -> & Hfe). by eapply Hr3.
    - intros s4 Hb4 He4. apply (going_eval _ _ G' h); [done|done|by etrans]. }
  eapply (wp_validate G' [] []);
    [eapply input_validator_ok_mono; [done|by eapply ck_validator]|exact Hb1|exact Hr1|..].
  - cbn beta iota. by apply Hrest.
  - intros f e s2 Hb2 He2 Hs2 Hf. cbn beta iota. apply Hrest; [done|done|]. intros f' [= <-]. eauto.
Qed.
Lemma keeps_att_sample_files_valid : keeps (att_sample_files_valid t).
Proof.
  unfold att_sample_files_valid. pose proof (ck_type _ _ _ Ht) as Htype.
  destruct (task_type _) as [checker|data|data|]; try apply keeps_ret.
  apply keeps_bind; [apply keeps_context, keeps_get_sample_files|]. intros samples.
  apply keeps_for_each. intros sample _. by apply keeps_att_sample_valid.
Qed.

(** *** The other files of [att/] *)
Lemma keeps_att_with_no_check : keeps (att_with_no_check t).
Proof.
  apply keeps_found; [done|set_solver|]. intros fs. apply keeps_for_each. intros att _.
  apply keeps_bind; [|intros; keeps]. apply keeps_eval. intros G' s HG Hb He.
  eapply wp_read_checks; [by eapply ck_files|done|by intros].
Qed.
Lemma att_ends_no_panic files att : no_panic (att_ends t files att).
Proof.
  unfold att_ends, last_byte. cbv zeta. apply no_panic_bind; [by repeat case_match|]. intros chunk _.
  by repeat case_match.
Qed.
Lemma keeps_att_end_with_new_line : keeps (att_end_with_new_line t).
Proof.
  apply keeps_found; [done|set_solver|]. intros l. apply keeps_lift_bind; [|intros; unfold emit_warning; keeps].
  generalize (@nil string) as files. induction l as [|att l IH]; intros files; [done|]. cbn [all_att_ends].
  apply no_panic_bind; [apply att_ends_no_panic|]. intros files' _. apply IH.
Qed.
Lemma keeps_att_no_directory : keeps (att_no_directory t).
Proof. unfold att_no_directory. keeps. Qed.

(** A new grader. *)
Lemma builds_grader G' s :
  builds G' [] [] s → ∃ u, nth_uuid (uuids_drawn s) = u ∧ builds ({[u]} ∪ G') [] [] (after_draw s).
Proof.
  intros Hb. eexists. split; [done|]. destruct (draw_new s) as [Hnew Hdr].
  pose proof (builds_draw _ _ _ _ Hb) as []. split; try done.
  - intros u Hu. simpl in Hu. by apply elem_of_nil in Hu.
  - intros f [->%elem_of_singleton|Hf]%elem_of_union; [|by apply b_graders].
    split; [done|]. intros Hp. apply Hnew. destruct Hb as [? ? Hfd]. apply Hfd. by right.
Qed.
Lemma wp_one_grader G' path h (P : GraderMap → Hooks → Prop) :
  builds G' [] [] (hook_eval h) →
  (∀ G'' m s', G' ⊆ G'' → graders_ok G'' m → builds G'' [] [] s' → extends (hook_eval h) s' →
     P m (with_hook_eval s' h)) →
  wp (on_eval (GraderMap_new [path])) P may_fail h.
Proof.
  intros Hb HP. apply wp_on_eval. unfold GraderMap_new, add_graders, add_grader. apply wp_bind.
  destruct (detect_language path) as [lang|] eqn:Hl.
  2: { wp_steps. apply (HP G'); [done| |done|done]. intros l d Hd. simpl in Hd. by apply lookup_empty_Some in Hd. }
  destruct (detect_language_name _ _ Hl) as [n Hn]. unfold new_file. rewrite Hn. wp_steps.
  eapply wp_draw; [done|]. intros u s1 Hu -> He1 _ _ _. wp_steps. eapply wp_lift_ret; [done|]. wp_steps.
  destruct (builds_grader _ _ Hb) as (u' & Hu' & Hb').
  apply (HP ({[u']} ∪ G')); [set_solver| |done|done].
  intros l d. simpl. intros [[_ <-]|[_ Hd]]%lookup_insert_Some; [simpl; set_solver|].
  by apply lookup_empty_Some in Hd.
Qed.
Lemma keeps_att_templates_should_compile : keeps (att_templates_should_compile t).
Proof.
  apply keeps_for_each. intros grader _. unfold att_template_compiles, require_extension.
  apply keeps_lift_bind; [by auto|]. intros ext _. cbv zeta. case_match; [apply keeps_ret|].
  intros h [G' Hw]. pose proof Hw as [HG Hb He]. apply wp_bind. eapply (wp_one_grader G'); [done|].
  intros G2 m s1 HG2 Hm Hb1 He1. apply wp_bind, wp_on_eval. unfold UiSourceFile_new, SourceFile_new.
  assert (∀ s', builds G2 [] [] s' → extends s1 s' → going G s0 (with_hook_eval s' h)) as Hgo.
  { intros s' Hb' He'. exists G2. split; [by etrans|done|]. do 2 (etrans; [done|]). done. }
  destruct (detect_language _) as [lang|] eqn:Hl; [|wp_steps; by apply Hgo].
  destruct (detect_language_name _ _ Hl) as [n Hn]. unfold new_cell. wp_steps.
  destruct (builds_next_cell G2 [] [] (next_cell s1 + 1) s1 Hb1) as [Hb2 He2].
  apply wp_on_eval. eapply (wp_ui_prepare G2 [] []); [|exact Hb2|].
  - split; simpl; [by eexists|by intros|]. intros m' l d [= <-]. apply Hm.
  - intros o s3 Hb3 He3. wp_steps. apply Hgo; [done|by etrans].
Qed.
End att.

(** ** The hooks of [StatementChecks] *)
Section statement.
Context `{UuidV4} `{LocalFiles} `{Blake3} `{LanguageManager} `{BuildProfile} `{UuidDisplay} `{IterOrder} `{Glob}.
Context `{NamePatterns} `{Crates} `{Links} `{StatementCrates}.
Context (G : gset Uuid) (s0 : EvaluationData TaskCallback) (t : CheckedTask) (Ht : checkable G s0 t).
Abbreviation keeps := (keeps G s0).

Lemma found_span_no_panic path source f :
  inside source f → (text_len source < u64_modulus)%N → no_panic (found_span path source f).
Proof.
  unfold inside. intros Hi Hs. unfold found_span.
  pose proof (from_str_no_panic path source f.1 (text_len f.2)) as Hn.
  destruct (from_str _ _ _ _); try done; apply Hn; lia.
Qed.
Lemma collect_subtasks_no_panic {A} (read : nat → A → Outcome (option ExtractedSubtask)) i l :
  (∀ i x, x ∈ l → no_panic (read i x)) → no_panic (collect_subtasks read i l).
Proof.
  revert i. induction l as [|x l IH]; intros i Hr; [done|]. cbn [collect_subtasks].
  apply no_panic_bind; [apply Hr; by left|]. intros [st|] _; [|done].
  apply no_panic_bind; [apply IH; intros j y Hy; apply Hr; by right|done].
Qed.
(** The list that is found is not empty. *)
Definition finds (o : Outcome (option (list ExtractedSubtask))) : Prop :=
  no_panic o ∧ ∀ l, o = Ret (Some l) → l ≠ [].
Lemma finds_check {A} (read : nat → A → Outcome (option ExtractedSubtask)) l :
  (∀ i x, x ∈ l → no_panic (read i x)) → finds (check_subtasks read l).
Proof.
  intros Hr. pose proof (collect_subtasks_no_panic read 0 l Hr) as Hn. unfold check_subtasks.
  destruct (collect_subtasks read 0 l) as [o| | |]; split; try done. simpl.
  destruct o as [[|]|]; simpl; intros l' [=]; by subst l'.
Qed.
Lemma finds_or_else o1 o2 : finds o1 → finds o2 → finds (or_else o1 o2).
Proof. intros [Hn1 Hl1] [Hn2 Hl2]. unfold or_else. destruct o1 as [[x|]| | |]; by split. Qed.
Lemma extract_subtasks_finds path source :
  (text_len source < u64_modulus)%N → finds (extract_subtasks path source).
Proof.
  intros Hs. destruct (ck_captures _ _ _ Ht) as [Hoii Hnew Hois Htypst].
  assert (∀ f, inside source f → no_panic (found_span path source f)) as Hspan
    by (intros f Hf; by apply found_span_no_panic).
  unfold extract_subtasks. repeat apply finds_or_else; apply finds_check.
  - intros _ [[[g1 g2] g3] g4] Hin. destruct (Hoii _ _ _ _ _ Hin) as [H1i H3i]. unfold oii_subtask.
    apply no_panic_bind; [by apply Hspan|]. intros. apply no_panic_bind; [by apply Hspan|done].
  - intros i f Hf. unfold oii_new_subtask. apply no_panic_bind; [by apply Hspan, Hnew|done].
  - intros i f Hf. unfold ois_subtask. apply no_panic_bind; [by apply Hspan, Hois|done].
  - intros i f Hf. unfold typst_subtask. apply no_panic_bind; [by apply Hspan, Htypst|done].
Qed.

Lemma keeps_compare_subtasks path one l :
  (one ≤ 1)%N → (∀ id st x, ((id, st), x) ∈ l → is_Some (bt_subtasks (ct_task t) !! id)) →
  keeps (compare_subtasks path one l).
Proof.
  intros Hone. induction l as [|[[id st] x] l IH]; intros Hl; cbn [compare_subtasks]; [apply keeps_ret|].
  assert (is_Some (bt_subtasks (ct_task t) !! id)) as Hid by (eapply Hl; by left).
  pose proof (ck_ids _ _ _ Ht _ Hid). rewrite u32_add_Ret by lia. apply keeps_lift_bind; [done|]. intros e _.
  assert (keeps (compare_subtasks path one l)) as IH' by (apply IH; intros i y z Hin; eapply Hl; by right).
  repeat case_match; try done; apply keeps_diagnose.
Qed.
Lemma keeps_statement_subtasks : keeps (statement_subtasks t).
Proof.
  apply keeps_for_each. intros b Hb. unfold statement_subtasks_of.
  destruct (statements b) as [|st [|]] eqn:Hst; try apply keeps_ret.
  destruct (booklet_lang b) as [lang|]; [|apply keeps_ret].
  apply keeps_lift_bind; [unfold get_language_from_extension; by repeat case_match|]. intros builder _. cbv zeta.
  destruct (extract_subtasks_finds (path_of t (st_path st)) (str_text (build_statement_source builder st)))
    as [Hn Hl].
  { eapply ck_sources; [done|done|]. rewrite Hst. by left. }
  apply keeps_lift_bind; [done|]. intros [subtasks|] Hsub; [|apply keeps_ret].
  apply keeps_lift_bind; [destruct subtasks; [by destruct (Hl _ Hsub)|done]|]. intros first _.
  apply keeps_bind; [|intros; keeps]. apply keeps_compare_subtasks; [by case_match|].
  intros id x y Hin%elem_of_zip_l. unfold expected_subtasks in Hin.
  apply list_elem_of_omap in Hin as (k & _ & Hk). unfold ct_subtasks in Hk. rewrite lookup_fmap in Hk.
  destruct (bt_subtasks (ct_task t) !! k) eqn:Hkt; [|done]. injection Hk as <- _. by eexists.
Qed.
Lemma keeps_statement_fonts : keeps (statement_fonts t).
Proof. unfold statement_fonts. keeps. Qed.

(** ** All the checks *)
Lemma ioi_checks_keep c : c ∈ ioi_checks → keeps (check_pre_hook c t).
Proof.
  unfold ioi_checks, before, after. intros Hc.
  repeat (apply elem_of_cons in Hc as [->|Hc]; [simpl check_pre_hook|]); [..|by apply elem_of_nil in Hc];
    first [ apply keeps_ret | apply keeps_check_missing_graders; [done|set_solver] | idtac ].
  - apply keeps_att_templates.
  - by apply keeps_att_sample_files_valid.
  - by apply keeps_att_with_no_check.
  - by apply keeps_att_end_with_new_line.
  - by apply keeps_att_no_directory.
  - by apply keeps_att_templates_should_compile.
  - by apply keeps_fuzz_checker.
  - by apply keeps_end_with_new_line.
  - by apply keeps_sol_template_symlink.
  - apply keeps_solutions_with_no_checks.
  - apply keeps_solutions_with_samples_check.
  - by apply keeps_statement_subtasks.
  - apply keeps_statement_fonts.
  - apply keeps_missing_subtask_names.
  - apply keeps_invalid_subtask_name.
  - by apply keeps_all_outputs_equal.
  - apply keeps_deprecated_description.
  - apply keeps_task_max_score.
  - by apply keeps_no_bits_std_cpp.
  - apply keeps_empty_title.
Qed.
End statement.
