(* ===== verification/TaskLoad.v ===== *)
(** * Loading a task ([italian_yaml/mod.rs])

    [parse_task]: from the directory of a task to the [IOITask] whose DAG is built.
    [serde_yaml] is a parameter; the booklets and the sanity checks are left out, as in
    [IoiDag]. *)
From S2P Require Import Prelude Float64 RustOrd Paths StoreKey Dag Text Diagnostics Checks UiMessage Machine.
From S2P Require Import Build Languages SourceFile Judge IoiDag.
From S2P Require Import Peg GenGrammar TaskInput CasesGen GenGen.

(** ** Subtasks and testcases *)

(** The loop over the entries: the last subtask is not in the map yet. *)
Record Grouped : Type := mkGrouped {
  gr_subtasks : gmap SubtaskId BuildSubtask;
  gr_testcases : gmap TestcaseId BuildTestcase;
  gr_last : option BuildSubtask
}.
Definition own_testcase (tc : TestcaseId) (st : BuildSubtask) : BuildSubtask :=
  let '(mkBuildSubtask (mkSubtask i n s tcs own sp d l sh) de v) := st in
  mkBuildSubtask (mkSubtask i n s (tcs ++ [tc]) (own ++ [tc]) sp d l sh) de v.
Definition flush_subtask (g : Grouped) : gmap SubtaskId BuildSubtask :=
  match gr_last g with
  | Some st => <[subtask_id (subtask_info st) := st]> (gr_subtasks g)
  | None => gr_subtasks g
  end.
Definition group_entry (g : Grouped) (e : TaskInputEntry) : Outcome Grouped :=
  match e with
  | TI_Subtask st => Ret (mkGrouped (flush_subtask g) (gr_testcases g) (Some st))
  | TI_Testcase tc =>
      match gr_last g with
      | None => Fail ["Testcase before Subtask"]
      | Some st =>
          let id := testcase_id (testcase_info tc) in
          Ret (mkGrouped (gr_subtasks g) (<[id := tc]> (gr_testcases g)) (Some (own_testcase id st)))
      end
  end.
Fixpoint group_entries (g : Grouped) (l : list TaskInputEntry) : Outcome Grouped :=
  match l with
  | [] => Ret g
  | e :: l => g ← group_entry g e; group_entries g l
  end.

(** ** The testcases of the dependencies *)
Section closure.
Context `{IterOrder}.
Abbreviation Subtasks := (gmap SubtaskId BuildSubtask).

Definition set_testcases (l : list TestcaseId) (st : BuildSubtask) : BuildSubtask :=
  let '(mkBuildSubtask (mkSubtask i n s _ own sp d ds sh) de v) := st in
  mkBuildSubtask (mkSubtask i n s l own sp d ds sh) de v.
Definition the_subtask (m : Subtasks) (k : SubtaskId) : Outcome BuildSubtask :=
  unwrap "called `Option::unwrap()` on a `None` value" (m !! k).

(** The body of the loop over the dependencies of [st1]: the map and [updated]. *)
Definition extend_testcases (st1 st2 : SubtaskId) (a : Subtasks * bool) : Outcome (Subtasks * bool) :=
  ext ← the_subtask a.1 st2;
  into ← the_subtask a.1 st1;
  let before := subtask_testcases (subtask_info into) in
  let after := dedup (sorted (before ++ subtask_testcases (subtask_info ext))) in
  Ret (<[st1 := set_testcases after into]> a.1,
       a.2 || negb (bool_decide (length before = length after))).
Fixpoint extend_all (st1 : SubtaskId) (deps : list SubtaskId) (a : Subtasks * bool) :
    Outcome (Subtasks * bool) :=
  match deps with
  | [] => Ret a
  | st2 :: deps => a ← extend_testcases st1 st2 a; extend_all st1 deps a
  end.
Fixpoint closure_round (keys : list SubtaskId) (a : Subtasks * bool) : Outcome (Subtasks * bool) :=
  match keys with
  | [] => Ret a
  | k :: keys =>
      st ← the_subtask a.1 k;
      a ← extend_all k (subtask_dependencies (subtask_info st)) a;
      closure_round keys a
  end.
(** Each round but the last one adds a testcase to a subtask. *)
Fixpoint close_testcases (fuel : nat) (m : Subtasks) : Outcome Subtasks :=
  match fuel with
  | O => OutOfFuel
  | S fuel =>
      r ← closure_round (keys_iter m) (m, false);
      if r.2 : bool then close_testcases fuel r.1 else Ret r.1
  end.
Definition closure_fuel (m : Subtasks) (testcases : nat) : nat := S (size m * testcases).
End closure.

(** ** [parse_task] *)

(** [serde_yaml]. *)
Class Yaml : Type := {
  yaml_from : list byte → option TaskYAML;
  yaml_orig_from : list byte → option TaskYAMLOrig;
  yaml_to : TaskYAML → text
}.

(** What [parse_task] changes outside: the state of the program and the disk. *)
Record Loader : Type := mkLoader {
  ld_eval : EvaluationData TaskCallback;
  ld_written : Written
}.
Definition set_ld_eval x (l : Loader) : Loader := mkLoader x (ld_written l).
Definition set_ld_written x (l : Loader) : Loader := mkLoader (ld_eval l) x.

Definition set_score_type (x : option TestcaseScoreAggregator) (y : TaskYAML) : TaskYAML :=
  let '(mkYAML a b _ c d e f g h i j k l m n o p q r s t u v w z) := y in
  mkYAML a b x c d e f g h i j k l m n o p q r s t u v w z.
Definition set_score_parameters (x : option (list ScoreTypeGroupParameters)) (inputs : option nat)
    (y : TaskYAML) : TaskYAML :=
  let '(mkYAML a b c _ _ e f g h i j k l m n o p q r s t u v w z) := y in
  mkYAML a b c x inputs e f g h i j k l m n o p q r s t u v w z.

Section parse_task.
Context `{UuidV4} `{LocalFiles} `{WritableFiles} `{Blake3} `{LanguageManager} `{BuildProfile} `{IterOrder}.
Context `{Glob} `{Unicode} `{Yaml}.
Abbreviation Load := (M Loader).
Abbreviation Eval := (M (EvaluationData TaskCallback)).

Definition in_program {A} (m : Eval A) : Load A := zoom ld_eval set_ld_eval m.

(** [File::open] and reading. *)
Definition read_yaml {A} (parse : list byte → option A) (what open_error : string) (path : PathBuf) :
    Outcome A :=
  match stat path with
  | Some (RegularFile c) =>
      match parse c with Some y => Ret y | None => Fail ["Failed to deserialize " +:+ what] end
  | Some Directory => Fail ["Failed to deserialize " +:+ what]
  | _ => Fail [open_error +:+ path_to_string path]
  end.
(** The task file, and whether it is written again. *)
Definition load_yaml (task_dir : PathBuf) : Outcome (TaskYAML * bool) :=
  let task_yaml := path_join task_dir [Normal "task.yaml"] in
  let task_yaml_orig := path_join task_dir [Normal "task.yaml.orig"] in
  if path_exists task_yaml_orig then
    orig ← read_yaml yaml_orig_from "task.yaml.orig" "Cannot open task.yaml.orig from " task_yaml_orig;
    yaml ← into_task_yaml orig task_dir;
    Ret (yaml, true)
  else if path_exists task_yaml then
    yaml ← read_yaml yaml_from "task.yaml" "Cannot open task.yaml from " task_yaml;
    Ret (yaml, false)
  else Fail ["No task.yaml found in " +:+ path_to_string task_dir].
Definition map_file (file : string) : option PathBuf :=
  if decide (file = EmptyString) then None else Some (path_of_string file).

Definition detect_type (task_dir : PathBuf) (yaml : TaskYAML) (map : GraderMap) : Eval TaskType :=
  interactive ← parse_interactive_task_data task_dir yaml;
  communication ← parse_communication_task_data task_dir yaml;
  match interactive, communication with
  | Some _, Some _ =>
      bail "A task cannot be both interactive (has a controller) and communication (has a manager)."
  | Some inter, None => mret inter
  | None, Some comm => mret comm
  | None, None => parse_batch_task_data task_dir map
  end.
(** The function from testcases to output generators. *)
Definition type_output_generator (task_dir : PathBuf) (tt : TaskType) (map : GraderMap) :
    Eval (TestcaseId → OutputGenerator) :=
  match tt with
  | TT_Batch _ =>
      solution ← with_context "Failed to detect output generator" (detect_output_generator task_dir map);
      mret (output_generator_of solution task_dir)
  | _ => mret (λ _, OG_NotAvailable)
  end.
Definition load_validator (task_dir : PathBuf) : Eval (option SubtaskId → Outcome InputValidator) :=
  v ← with_context "Failed to detect validator" (detect_validator task_dir);
  mret (validator_of v).

(** The subtasks and the testcases, from the first description there is.  [fuel] is for
    the files of [input/]. *)
Definition load_inputs (fuel : nat) (dry_run : bool) (task_dir : PathBuf)
    (get_output_gen : TestcaseId → OutputGenerator) : Load (list TaskInputEntry) :=
  let gen_gen := path_join task_dir [Normal "gen"; Normal "GEN"] in
  let cases_gen := path_join task_dir [Normal "gen"; Normal "cases.gen"] in
  if path_exists cases_gen then
    gen ← in_program (CasesGen_new cases_gen get_output_gen);
    _ ← (if dry_run then mret tt
         else with_context "Failed to write gen/GEN" (zoom ld_written set_ld_written (write_gen_gen gen)));
    mret (get_task_entries gen)
  else if path_exists gen_gen then
    get_validator ← in_program (load_validator task_dir);
    in_program (parse_gen_gen gen_gen get_validator get_output_gen)
  else
    get_validator ← in_program (load_validator task_dir);
    lift (static_inputs fuel task_dir get_validator get_output_gen).

(** The parameters of the scores that are written to [task.yaml]. *)
Definition pad_left (width : nat) (s : string) : string :=
  String.string_of_list_ascii (replicate (width - String.length s) (Ascii.ascii_of_N 48)) +:+ s.
Definition group_parameters (x : SubtaskId * BuildSubtask) : ScoreTypeGroupParameters :=
  let st := subtask_info x.2 in
  GP_List (max_score st) (join_string "|" ((λ tc, pad_left 3 (pretty tc)) <$> subtask_testcases st)).
Definition id_le (x y : SubtaskId * BuildSubtask) : Prop := (x.1 ≤ y.1)%N.
#[local] Instance id_le_dec : RelDecision id_le.
Proof. intros x y. unfold id_le. apply _. Defined.
Definition sorted_subtasks (m : gmap SubtaskId BuildSubtask) : list (SubtaskId * BuildSubtask) :=
  merge_sort id_le (map_iter m).
Definition score_parameters (m : gmap SubtaskId BuildSubtask) : list ScoreTypeGroupParameters :=
  group_parameters <$> sorted_subtasks m.
Definition count_inputs (m : gmap SubtaskId BuildSubtask) : nat :=
  length (remove_dups (mjoin ((λ st, subtask_testcases (subtask_info st)) <$> values_iter m))).

Definition yaml_header : text :=
  line_of_string "# Generated by task-maker. Do not edit!"
  ++ line_of_text (text_of "# " ++ TM_ALLOW_DELETE_COOKIE)
  ++ line_of_string "# Removing or changing the line above will prevent task-maker from touching this file again.".
Definition write_yaml (dry_run : bool) (task_dir : PathBuf) (overwrite : bool) (yaml : TaskYAML)
    (subtasks : gmap SubtaskId BuildSubtask) : Load unit :=
  let path := path_join task_dir [Normal "task.yaml"] in
  if overwrite then
    writable ← lift (if path_exists path then is_tm_deletable path else Ret true);
    if writable : bool then
      if dry_run then mret tt
      else
        let yaml := set_score_parameters (Some (score_parameters subtasks)) (Some (count_inputs subtasks)) yaml in
        zoom ld_written set_ld_written
          (write_text ("Cannot open task.yaml from " +:+ path_to_string path) path (yaml_header ++ yaml_to yaml))
    else mret tt
  else if existsb (λ st, negb (bool_decide (subtask_dependencies (subtask_info st) = []))) (values_iter subtasks)
  then bail "Use task.yaml.orig to use subtask dependencies"
  else mret tt.

Definition parse_task (fuel : nat) (dry_run : bool) (task_dir : PathBuf) : Load BuildTask :=
  '(yaml, overwrite) ← lift (load_yaml task_dir);
  graders ← lift (list_files task_dir ["sol/grader.*"; "sol/stub.*"]);
  map ← in_program (GraderMap_new graders);
  tt ← in_program (detect_type task_dir yaml map);
  get_output_gen ← in_program (type_output_generator task_dir tt map);
  inputs ← load_inputs fuel dry_run task_dir get_output_gen;
  groups ← lift (group_entries (mkGrouped ∅ ∅ None) inputs);
  let subtasks := flush_subtask groups in
  let testcases := gr_testcases groups in
  subtasks ← lift (close_testcases (closure_fuel subtasks (size testcases)) subtasks);
  let aggregator := default (if decide (size subtasks = 1) then Sum else Min) (score_type yaml) in
  let yaml := set_score_type (Some aggregator) yaml in
  _ ← write_yaml dry_run task_dir overwrite yaml subtasks;
  _ ← in_program (with_context "Failed to detect validator" (detect_validator task_dir));
  mret (mkBuildTask task_dir tt (yaml_name yaml) (yaml_title yaml) (yaml_time_limit yaml)
          (yaml_memory_limit yaml) (map_file (yaml_infile yaml)) (map_file (yaml_outfile yaml))
          subtasks testcases aggregator (yaml_score_precision yaml) map).
End parse_task.
