(* ===== verification/GrammarShape.v ===== *)
(** * What the parsers of the generator files return

    The pairs of a file that [pest] accepts: the indexes, the [unreachable!] and the
    [expect] of the code that walks them are justified by these shapes. *)
From S2P Require Import Prelude Text Peg GenGrammar.

Section derives.
Context {R : Type}.
Implicit Types (e a : Peg R) (ps : list (Pair R)).

(** An expression without rules leaves no pairs. *)
Fixpoint silent e : bool :=
  match e with
  | E_seq a b | E_alt a b => silent a && silent b
  | E_star a | E_opt a => silent a
  | E_rule _ _ | E_eoi _ => false
  | _ => true
  end.
Lemma derives_silent e off s ps c r : Derives e off s ps c r → silent e = true → ps = [].
Proof.
  induction 1; simpl; rewrite ?andb_true_iff; intros Hs; try done; try (by destruct_and?; auto).
  - destruct Hs as [Ha Hb]. by rewrite IHDerives1, IHDerives2.
  - by rewrite IHDerives1, IHDerives2.
Qed.

(** The pairs are inside the text consumed. *)
Definition within (off : N) (c : text) (p : Pair R) : Prop :=
  (off ≤ pair_start p ∧ pair_end p ≤ off + text_len c)%N.
Lemma within_grow off off' c c' p :
  within off c p → (off' ≤ off)%N → (off + text_len c ≤ off' + text_len c')%N → within off' c' p.
Proof. unfold within. lia. Qed.
Lemma derives_within e off s ps c r : Derives e off s ps c r → Forall (within off c) ps.
Proof.
  induction 1; try done; try (by repeat constructor; unfold pair_end; simpl; lia).
  - apply Forall_app. split; (eapply Forall_impl; [eassumption|]); intros p Hp;
      (eapply within_grow; [exact Hp|lia|rewrite text_len_app; lia]).
  - apply Forall_app. split; (eapply Forall_impl; [eassumption|]); intros p Hp;
      (eapply within_grow; [exact Hp|lia|rewrite text_len_app; lia]).
Qed.

(** A repetition: what holds of the pairs of its body holds of all; each round consumes
    a character, so there are no more pairs than characters when a round leaves one. *)
Lemma star_Forall (P : Pair R → Prop) a off s ps c r :
  Derives (E_star a) off s ps c r →
  (∀ off s ps c r, Derives a off s ps c r → Forall P ps) → Forall P ps.
Proof.
  remember (E_star a) as e eqn:He. intros Hd Ha. revert He.
  induction Hd; intros [=]; subst; [done|]. apply Forall_app. split; eauto.
Qed.
Lemma star_length a off s ps c r :
  Derives (E_star a) off s ps c r →
  (∀ off s ps c r, Derives a off s ps c r → length ps ≤ length c) → length ps ≤ length c.
Proof.
  remember (E_star a) as e eqn:He. intros Hd Ha. revert He.
  induction Hd; intros [=]; subst; [done|]. rewrite !length_app.
  specialize (IHHd2 eq_refl). apply Ha in Hd1. lia.
Qed.
Lemma plus_Forall (P : Pair R → Prop) a off s ps c r :
  Derives (E_plus a) off s ps c r →
  (∀ off s ps c r, Derives a off s ps c r → Forall P ps) → Forall P ps.
Proof.
  unfold E_plus. intros Hd Ha. inversion Hd; subst. apply Forall_app.
  split; [by eapply Ha|]. by eapply star_Forall.
Qed.
Lemma rule_inv q a off s ps c r :
  Derives (E_rule q a) off s ps c r → ∃ inner, ps = [mkPair q off c inner] ∧ Derives a off s inner c r.
Proof. inversion 1; subst. eauto. Qed.
Lemma alt_inv a b off s ps c r :
  Derives (E_alt a b) off s ps c r → Derives a off s ps c r ∨ Derives b off s ps c r.
Proof. inversion 1; subst; auto. Qed.
Lemma seq_inv a b off s ps c r :
  Derives (E_seq a b) off s ps c r →
  ∃ ps1 c1 r1 ps2 c2, Derives a off s ps1 c1 r1 ∧ Derives b (off + text_len c1) r1 ps2 c2 r ∧
    ps = ps1 ++ ps2 ∧ c = c1 ++ c2.
Proof. inversion 1; subst. do 5 eexists. eauto. Qed.
Lemma opt_inv a off s ps c r :
  Derives (E_opt a) off s ps c r → Derives a off s ps c r ∨ ps = [] ∧ c = [].
Proof. inversion 1; subst; auto. Qed.
End derives.

(** Decompose a derivation: sequences are split, what is silent leaves nothing. *)
Ltac split_derives :=
  repeat match goal with
  | H : Derives ?e _ _ _ _ _ |- _ =>
      lazymatch e with
      | E_rule _ _ => fail
      | _ => let Hs := fresh in
             assert (silent e = true) as Hs by reflexivity;
             apply (fun d => derives_silent e _ _ _ _ _ d Hs) in H; subst; clear Hs
      end
  | H : Derives (E_seq _ _) _ _ _ _ _ |- _ =>
      apply seq_inv in H as (? & ? & ? & ? & ? & ? & ? & -> & ->)
  | H : Derives (E_rule _ _) _ _ _ _ _ |- _ => apply rule_inv in H as (? & -> & ?)
  | H : Derives (E_opt _) _ _ _ _ _ |- _ => apply opt_inv in H as [?|[-> ->]]
  end.

(** ** [cases.gen] *)
Definition constraint_item_shape (p : Pair CasesRule) : Prop :=
  match as_rule p with
  | K_number | K_comp_operator => True
  | K_variable => is_Some (strip_prefix (text_of "$") (pair_str p))
  | _ => False
  end.
Definition command_shape (p : Pair CasesRule) : Prop :=
  match as_rule p with
  | K_GEN | K_VAL => length (into_inner p) = 1 ∨ length (into_inner p) = 3
  | K_CONSTRAINT => Forall constraint_item_shape (into_inner p)
  | K_SUBTASK => into_inner p ≠ []
  | K_RUN => length (into_inner p) = 2
  | K_STDEP | K_COPY => True
  | _ => False
  end.
Definition item_shape (p : Pair CasesRule) : Prop :=
  match as_rule p with
  | K_command => ∃ command rest, into_inner p = command :: rest ∧ command_shape command ∧
                   within (pair_start p) (pair_str p) command
  | K_testcase | K_comment | K_empty => True
  | _ => False
  end.
Definition cases_line_shape (p : Pair CasesRule) : Prop :=
  match as_rule p with
  | K_line => ∃ item rest, into_inner p = item :: rest ∧ item_shape item ∧
                within (pair_start p) (pair_str p) item
  | K_EOI => True
  | _ => False
  end.

Lemma manager_shape keyword off s ps c r :
  Derives (manager_command keyword) off s ps c r → length ps = 1 ∨ length ps = 3.
Proof.
  unfold manager_command, cases_word, cases_variables_list. intros H. split_derives; simpl; auto.
Qed.
Lemma operand_shape off s ps c r :
  Derives cases_operand off s ps c r → Forall constraint_item_shape ps.
Proof.
  unfold cases_operand. intros [H|H]%alt_inv; apply rule_inv in H as (inner & -> & H); repeat constructor.
  unfold constraint_item_shape. simpl. apply seq_inv in H as (? & c1 & ? & ? & c2 & H & _ & _ & ->).
  inversion H; subst. by exists c2.
Qed.
Lemma constraint_shape off s ps c r :
  Derives (lit "CONSTRAINT" ⨾ many1 whitespace ⨾ cases_operand
     ⨾ many1 (many whitespace ⨾ cases_comp_operator ⨾ many whitespace ⨾ cases_operand)
     ⨾ many whitespace) off s ps c r → Forall constraint_item_shape ps.
Proof.
  intros H. split_derives. rewrite !app_nil_r. simpl. apply Forall_app. split; [by eapply operand_shape|].
  eapply plus_Forall; [eassumption|]. clear. intros off s ps c r H. split_derives.
  unfold cases_comp_operator in *. split_derives. simpl. constructor; [done|]. by eapply operand_shape.
Qed.

Ltac rule_cases H :=
  repeat (apply alt_inv in H; destruct H as [H|H]); apply rule_inv in H as (? & -> & H).

Lemma command_item off s ps c r :
  Derives cases_command off s ps c r → ∃ p, ps = [p] ∧ item_shape p ∧ within off c p.
Proof.
  intros H. pose proof (derives_within _ _ _ _ _ _ H) as Hw. apply rule_inv in H as (inner & -> & H).
  eexists. split; [done|]. split; [|by apply Forall_cons in Hw as [? _]].
  pose proof (derives_within _ _ _ _ _ _ H) as Hi. clear Hw.
  apply seq_inv in H as (ps1 & c1 & r1 & ps2 & c2 & H1 & H & -> & ->).
  apply seq_inv in H as (ps3 & c3 & r3 & ps4 & c4 & H2 & H & -> & ->).
  apply derives_silent in H1 as ->; [|done]. apply derives_silent in H2 as ->; [|done]. simpl in *.
  assert (∃ p, ps4 = [p] ∧ command_shape p) as (p & -> & Hp).
  { clear Hi. rule_cases H; eexists; (split; [done|]); unfold command_shape; simpl; try done;
      try (by eapply manager_shape).
    - by eapply constraint_shape.
    - unfold cases_float in H. split_derives; done.
    - unfold cases_word, cases_rest in H. split_derives; done. }
  exists p, []. split_and!; [done..|]. by apply Forall_cons in Hi as [? _].
Qed.

Lemma cases_line_inv off s ps c r :
  Derives cases_line off s ps c r →
  ∃ p, ps = [p] ∧ cases_line_shape p ∧ within off c p.
Proof.
  intros H. pose proof (derives_within _ _ _ _ _ _ H) as Hw. apply rule_inv in H as (inner & -> & H).
  eexists. split; [done|]. split; [|by apply Forall_cons in Hw as [? _]].
  apply seq_inv in H as (ps1 & c1 & r1 & ps2 & c2 & H & _ & -> & ->).
  pose proof (derives_within _ _ _ _ _ _ H) as Hi.
  assert (∃ p, ps1 = [p] ∧ item_shape p) as (p & -> & Hp).
  { clear Hi Hw. apply alt_inv in H as [H|H]; [by apply rule_inv in H as (? & -> & _); eexists|].
    apply alt_inv in H as [H|H]; [by apply command_item in H as (p & -> & ? & _); eexists|].
    rule_cases H; by eexists. }
  exists p, ps2. split_and!; [done..|]. apply Forall_cons in Hi as [Hi _].
  eapply within_grow; [exact Hi|simpl; lia|]. simpl. rewrite text_len_app. lia.
Qed.

(** The lines of a file: their shape, their place, and how many they are. *)
Definition file_of {R} (shape : Pair R → Prop) (content : text) (file : Pair R) : Prop :=
  Forall (λ l, shape l ∧ within 0 content l) (into_inner file) ∧
  length (into_inner file) ≤ S (S (length content)).

Lemma file_inv {R} (eoi q : R) (line : Peg R) (shape : Pair R → Prop) content ps c r :
  (∀ off s ps c r, Derives line off s ps c r → ∃ p, ps = [p] ∧ shape p ∧ within off c p) →
  (∀ n, shape (mkPair eoi n [] [])) →
  Derives (E_rule q (E_soi ⨾ many (line ⨾ NEWLINE) ⨾ line ⨾ maybe NEWLINE ⨾ E_eoi eoi)) 0 content ps c r →
  ∃ p, ps = [p] ∧ file_of shape content p.
Proof.
  intros Hline Heoi H. apply rule_inv in H as (inner & -> & H). eexists. split; [done|].
  pose proof (derives_within _ _ _ _ _ _ H) as Hw. pose proof (derives_app _ _ _ _ _ _ H) as Hc.
  apply seq_inv in H as (? & ? & ? & ps0 & c0 & H & H1 & -> & ->). inversion H; subst. clear H.
  apply seq_inv in H1 as (ps1 & c1 & r1 & ps2 & c2 & Hl & H2 & -> & ->).
  apply seq_inv in H2 as (ps3 & c3 & r3 & ps4 & c4 & H3 & H4 & -> & ->).
  apply seq_inv in H4 as (ps5 & c5 & r5 & ps6 & c6 & H5 & H6 & -> & ->).
  apply derives_silent in H5 as ->; [|done]. inversion H6; subst. clear H6.
  assert (∀ off s ps c r, Derives (line ⨾ NEWLINE) off s ps c r →
    Forall shape ps ∧ length ps ≤ length c) as Hbody.
  { clear -Hline. intros off s ps c r H. apply seq_inv in H as (ps1 & c1 & ? & ps2 & c2 & H1 & H2 & -> & ->).
    apply Hline in H1 as (p & -> & Hp & _). assert (c2 ≠ []) as Hc.
    { clear -H2. unfold NEWLINE in H2. repeat (apply alt_inv in H2 as [H2|H2]); inversion H2; done. }
    apply derives_silent in H2 as ->; [|done]. split; [by repeat constructor|].
    rewrite !length_app. destruct c2; [done|]. simpl. lia. }
  apply Hline in H3 as (p & -> & Hp & _). simpl in *. split.
  - apply Forall_and. split.
    + apply Forall_app. split; [|repeat constructor; auto]. eapply star_Forall; [exact Hl|]. naive_solver.
    + eapply Forall_impl; [exact Hw|]. intros l Hin. eapply within_grow; [exact Hin|lia|].
      rewrite !text_len_app. simpl. lia.
  - assert (length ps1 ≤ length c1) by (eapply star_length; [exact Hl|]; naive_solver).
    simpl. rewrite !length_app. simpl. lia.
Qed.

Lemma parse_cases_inv content file :
  parse_cases content = Ret file → file_of cases_line_shape content file.
Proof.
  unfold parse_cases, parse_file. destruct (eval cases_file 0 content) as [[[[ps c] r]|]| | |] eqn:He;
    cbn [mbind outcome_bind]; try done.
  apply eval_derives in He. apply (file_inv K_EOI K_file cases_line cases_line_shape) in He as (p & -> & Hp);
    [by intros [= <-]|apply cases_line_inv|done].
Qed.

(** ** [gen/GEN] *)
Definition gen_item_shape (p : Pair GenRule) : Prop :=
  match as_rule p with
  | G_subtask | G_subtask_name | G_subtask_dep | G_copy | G_command | G_comment | G_empty => True
  | _ => False
  end.
Definition gen_line_shape (p : Pair GenRule) : Prop :=
  match as_rule p with
  | G_line => ∃ item rest, into_inner p = item :: rest ∧ gen_item_shape item
  | G_EOI => True
  | _ => False
  end.

Lemma gen_line_inv off s ps c r :
  Derives gen_line off s ps c r → ∃ p, ps = [p] ∧ gen_line_shape p ∧ within off c p.
Proof.
  intros H. pose proof (derives_within _ _ _ _ _ _ H) as Hw. apply rule_inv in H as (inner & -> & H).
  eexists. split; [done|]. split; [|by apply Forall_cons in Hw as [? _]].
  apply seq_inv in H as (ps1 & c1 & r1 & ps2 & c2 & H & _ & -> & ->). clear Hw.
  rule_cases H; by eexists _, ps2.
Qed.

Lemma parse_GEN_inv content file :
  parse_GEN content = Ret file → file_of gen_line_shape content file.
Proof.
  unfold parse_GEN, parse_file. destruct (eval gen_file 0 content) as [[[[ps c] r]|]| | |] eqn:He;
    cbn [mbind outcome_bind]; try done.
  apply eval_derives in He. apply (file_inv G_EOI G_file gen_line gen_line_shape) in He as (p & -> & Hp);
    [by intros [= <-]|apply gen_line_inv|done].
Qed.

(** ** Both parsers end *)
Lemma parse_cases_total content : (∃ f, parse_cases content = Ret f) ∨ (∃ e, parse_cases content = Fail e).
Proof.
  unfold parse_cases, parse_file. destruct (eval_total cases_file 0 content eq_refl) as [[[[[|] ?] ?]|] ->];
    cbn; eauto.
Qed.
Lemma parse_GEN_total content : (∃ f, parse_GEN content = Ret f) ∨ (∃ e, parse_GEN content = Fail e).
Proof.
  unfold parse_GEN, parse_file. destruct (eval_total gen_file 0 content eq_refl) as [[[[[|] ?] ?]|] ->];
    cbn; eauto.
Qed.
