(* ===== verification/TaskClosure.v ===== *)
(** * The testcases of the dependencies of a subtask

    The loop of [parse_task] that gives a subtask the testcases of the subtasks it
    depends on ends, and what it leaves does not depend on the order in which the
    subtasks come out of the map: the testcases of the subtasks that can be reached
    through the dependencies. *)
From S2P Require Import Prelude Float64 RustOrd Paths StoreKey Dag Text Diagnostics Checks UiMessage Machine.
From S2P Require Import Build Languages SourceFile Judge IoiDag.
From S2P Require Import Peg GenGrammar TaskInput CasesGen GenGen TaskLoad.

(** ** Ascending lists *)
Abbreviation ascending := (StronglySorted N.lt).

Lemma ascending_NoDup l : ascending l → NoDup l.
Proof.
  induction 1 as [|x l Hl IH Hx]; constructor; [|done].
  intros Hin. rewrite Forall_forall in Hx. specialize (Hx x Hin). lia.
Qed.

Lemma ascending_ext l k : ascending l → ascending k → (∀ x, x ∈ l ↔ x ∈ k) → l = k.
Proof.
  intros Hl Hk Heq. eapply (StronglySorted_unique_strong N.lt); [|done..|].
  - intros; lia.
  - apply NoDup_Permutation; auto using ascending_NoDup.
Qed.

Lemma ascending_snoc l k : ascending l → (∀ x, x ∈ l → (x < k)%N) → ascending (l ++ [k]).
Proof.
  intros Hl. induction Hl as [|x l _ IH Hx]; intros Hk; [repeat constructor|]. simpl.
  constructor; [apply IH; set_solver|]. apply Forall_app. split; [done|]. repeat constructor. apply Hk. by left.
Qed.

Lemma dedup_spec l : StronglySorted N.le l → ascending (dedup l) ∧ ∀ x, x ∈ dedup l ↔ x ∈ l.
Proof.
  induction 1 as [|x l Hl [IH Hin] Hx]; [by split; [constructor|]|].
  simpl. destruct (dedup l) as [|y k] eqn:Hd.
  - split; [repeat constructor|]. intros z. destruct l as [|w l]; [done|].
    exfalso. apply (not_elem_of_nil w), Hin. by left.
  - rewrite Forall_forall in Hx. pose proof (Hx y (proj1 (Hin y) ltac:(by left))) as Hxy.
    destruct (decide (x = y)) as [<-|Hne].
    + split; [done|]. intros z. rewrite Hin. set_solver.
    + split; [|intros z; rewrite elem_of_cons, Hin; set_solver].
      constructor; [done|]. apply Forall_cons. split; [lia|].
      apply StronglySorted_inv in IH as [_ Hk]. eapply Forall_impl; [exact Hk|]. simpl. intros; lia.
Qed.

Lemma ord_le_N x y : ord_le x y → (x ≤ y)%N.
Proof.
  unfold ord_le, ord_leb. destruct (cmp x y) eqn:Hc; try done; intros _.
  - apply cmp_eq in Hc. lia.
  - change ((x ?= y)%N = Lt) in Hc. pose proof (proj1 (N.compare_lt_iff x y) Hc). lia.
Qed.
Lemma sorted_le (l : list N) : StronglySorted N.le (sorted l).
Proof.
  induction (sorted_StronglySorted l) as [|x k _ IH Hx]; constructor; [done|].
  eapply Forall_impl; [exact Hx|]. apply ord_le_N.
Qed.

Lemma dedup_sorted (l : list N) :
  ascending (dedup (sorted l)) ∧ ∀ x, x ∈ dedup (sorted l) ↔ x ∈ l.
Proof.
  destruct (dedup_spec (sorted l)) as [Ha Hin]; [apply sorted_le|].
  split; [done|]. intros x. by rewrite Hin, sorted_perm.
Qed.

(** Merging a list into an ascending one: it grows, unless it had everything. *)
Lemma merge_grows l k :
  ascending l → let r := dedup (sorted (l ++ k)) in
  ascending r ∧ (∀ x, x ∈ r ↔ x ∈ l ∨ x ∈ k) ∧
  (length l = length r → r = l ∧ ∀ x, x ∈ k → x ∈ l) ∧
  (length l ≠ length r → ∃ x, x ∈ r ∧ x ∉ l).
Proof.
  intros Hl r. destruct (dedup_sorted (l ++ k)) as [Hr Hin]. fold r in Hr, Hin.
  assert (∀ x, x ∈ r ↔ x ∈ l ∨ x ∈ k) as Hmem by (intros x; by rewrite Hin, elem_of_app).
  assert (l ⊆ r) as Hsub by (intros x; rewrite Hmem; by left).
  split_and!; [done..| |].
  - intros Hlen.
    assert (l ≡ₚ r) as Hp.
    { apply submseteq_length_Permutation; [|lia]. apply NoDup_submseteq; [by apply ascending_NoDup|].
      intros x Hx. by apply Hsub. }
    assert (r = l) as ->.
    { symmetry. apply ascending_ext; [done..|]. intros x. by rewrite Hp. }
    split; [done|]. intros x Hx. apply Hmem. by right.
  - intros Hne. destruct (decide (r ⊆ l)) as [Hrl|Hrl].
    + exfalso. apply Hne. apply Permutation_length, NoDup_Permutation; auto using ascending_NoDup.
      intros x. split; [apply Hsub|apply Hrl].
    + assert (Exists (λ x, x ∉ l) r) as (x & Hx & Hn)%Exists_exists; [|by exists x].
      apply not_Forall_Exists; [apply _|]. intros Hall. apply Hrl. intros x Hx.
      rewrite Forall_forall in Hall. destruct (decide (x ∈ l)); [done|]. by destruct (Hall x Hx).
Qed.

(** ** What the loop computes *)
Section closure.
Context `{IterOrder}.
Abbreviation Subtasks := (gmap SubtaskId BuildSubtask).
Implicit Types (m : Subtasks) (st : BuildSubtask).

Definition listed st : list TestcaseId := subtask_testcases (subtask_info st).
Definition depends_on st : list SubtaskId := subtask_dependencies (subtask_info st).
(** A testcase is listed by a subtask; a subtask depends on another. *)
Definition has m (k : SubtaskId) (tc : TestcaseId) : Prop := ∃ st, m !! k = Some st ∧ tc ∈ listed st.
Definition edge m (k j : SubtaskId) : Prop := ∃ st, m !! k = Some st ∧ j ∈ depends_on st.
Definition reached m (k : SubtaskId) (tc : TestcaseId) : Prop := ∃ j, rtc (edge m) k j ∧ has m j tc.

(** The subtasks as a description of the inputs gives them. *)
Record closable (testcases : nat) m : Prop := {
  clo_edges : ∀ k j, edge m k j → is_Some (m !! j);
  clo_sorted : ∀ k st, m !! k = Some st → ascending (listed st);
  clo_universe : ∃ u : list TestcaseId, length u = testcases ∧ ∀ k tc, has m k tc → tc ∈ u
}.

(** The reference: only the lists of testcases change, and each has what is reached. *)
Definition closure_of m m' : Prop :=
  ∀ k, match m !! k, m' !! k with
       | Some st, Some st' =>
           st' = set_testcases (listed st') st ∧ ascending (listed st') ∧
           ∀ tc, tc ∈ listed st' ↔ reached m k tc
       | None, None => True
       | _, _ => False
       end.

Lemma set_testcases_id st : set_testcases (listed st) st = st.
Proof. by destruct st as [[]]. Qed.
Lemma set_testcases_twice l l' st : set_testcases l (set_testcases l' st) = set_testcases l st.
Proof. by destruct st as [[]]. Qed.
Lemma listed_set l st : listed (set_testcases l st) = l.
Proof. by destruct st as [[]]. Qed.
Lemma depends_set l st : depends_on (set_testcases l st) = depends_on st.
Proof. by destruct st as [[]]. Qed.

Lemma closure_unique m m1 m2 : closure_of m m1 → closure_of m m2 → m1 = m2.
Proof.
  intros H1 H2. apply map_eq. intros k. specialize (H1 k). specialize (H2 k).
  destruct (m !! k) as [st|], (m1 !! k) as [st1|], (m2 !! k) as [st2|]; try done.
  destruct H1 as (-> & Ha1 & Hin1), H2 as (-> & Ha2 & Hin2). rewrite !listed_set in *. do 2 f_equal.
  apply ascending_ext; [done..|]. intros x. by rewrite Hin1, Hin2.
Qed.


(** ** The invariant of the rounds *)
Context (testcases : nat) (m0 : Subtasks) (Hm0 : closable testcases m0).

Record closing m : Prop := {
  cl_same : ∀ k, match m0 !! k, m !! k with
                 | Some st, Some st' => st' = set_testcases (listed st') st
                 | None, None => True
                 | _, _ => False
                 end;
  cl_sorted : ∀ k st, m !! k = Some st → ascending (listed st);
  cl_incl : ∀ k tc, has m0 k tc → has m k tc;
  cl_reached : ∀ k tc, has m k tc → reached m0 k tc
}.

Lemma closing_start : closing m0.
Proof.
  split.
  - intros k. destruct (m0 !! k); [by rewrite set_testcases_id|done].
  - apply (clo_sorted _ _ Hm0).
  - done.
  - intros k tc Hk. by exists k.
Qed.

Lemma closing_lookup m k : closing m → is_Some (m !! k) ↔ is_Some (m0 !! k).
Proof.
  intros Hm. pose proof (cl_same _ Hm k) as Hs.
  destruct (m0 !! k), (m !! k); try done; split; intros [? ?]; eauto.
Qed.
Lemma closing_edge m k j : closing m → edge m k j ↔ edge m0 k j.
Proof.
  intros Hm. pose proof (cl_same _ Hm k) as Hs. unfold edge.
  destruct (m0 !! k) as [st|], (m !! k) as [st'|] eqn:?; try done.
  rewrite Hs. split; intros (x & [= <-] & Hx); eexists; split; eauto; by rewrite depends_set in *.
Qed.

(** The pairs listed, of which there are finitely many. *)
Definition grows m m' : Prop := ∀ k tc, has m k tc → has m' k tc.
Definition grew m m' : Prop := grows m m' ∧ ∃ k tc, has m' k tc ∧ ¬ has m k tc.

Lemma grew_l m1 m2 m3 : grew m1 m2 → grows m2 m3 → grew m1 m3.
Proof. intros [Ha (k & tc & ? & ?)] Hb. split; [intros k' tc' ?; eauto|]. exists k, tc. eauto. Qed.
Lemma grew_r m1 m2 m3 : grows m1 m2 → grew m2 m3 → grew m1 m3.
Proof. intros Ha [Hb (k & tc & ? & Hn)]. split; [intros k' tc' ?; eauto|]. exists k, tc. eauto. Qed.

(** From [m] to [m'], with the new value of [updated] alone: the map changes exactly
    when something is added, and [Q] holds of it when nothing is. *)
Definition stepped (Q : Subtasks → Prop) m m' (u : bool) : Prop :=
  closing m' ∧ grows m m' ∧ (u = false → m' = m ∧ Q m) ∧ (u = true → grew m m').

Lemma stepped_trans Q1 Q2 m1 m2 m3 u1 u2 :
  stepped Q1 m1 m2 u1 → stepped Q2 m2 m3 u2 → stepped (λ m, Q1 m ∧ Q2 m) m1 m3 (u1 || u2).
Proof.
  intros (_ & Hg1 & Hf1 & Ht1) (Hc2 & Hg2 & Hf2 & Ht2). split_and!; [done|intros k tc ?; eauto|..].
  - intros [Hu1 Hu2]%orb_false_iff. destruct (Hf1 Hu1) as [-> ?], (Hf2 Hu2) as [-> ?]. done.
  - intros [Hu|Hu]%orb_true_iff; [eapply grew_l|eapply grew_r]; eauto.
Qed.
Lemma stepped_mono (Q Q' : Subtasks → Prop) m m' u :
  (Q m → Q' m) → stepped Q m m' u → stepped Q' m m' u.
Proof. intros HQ (Hc & Hg & Hf & Ht). split_and!; [done..| |done]. intros Hu. destruct (Hf Hu); auto. Qed.
Lemma stepped_refl (Q : Subtasks → Prop) m : closing m → Q m → stepped Q m m false.
Proof. intros Hm HQ. split_and!; [done|by intros ? ?|done|done]. Qed.

Definition passes (k j : SubtaskId) m : Prop := ∀ tc, has m j tc → has m k tc.

(** One step: [k] takes the testcases of [j]. *)
Lemma extend_step m k j u :
  closing m → edge m0 k j →
  ∃ m' u', extend_testcases k j (m, u) = Ret (m', u || u') ∧ stepped (passes k j) m m' u'.
Proof.
  intros Hm Hkj.
  assert (is_Some (m !! j)) as [stj Hj] by (apply (closing_lookup m j Hm); by eapply clo_edges).
  assert (is_Some (m !! k)) as [stk Hk].
  { apply (closing_lookup m k Hm). destruct Hkj as (? & -> & _). by eexists. }
  unfold extend_testcases, the_subtask. simpl. rewrite Hj. cbn [unwrap mbind outcome_bind].
  rewrite Hk. cbn [unwrap mbind outcome_bind].
  change (subtask_testcases (subtask_info stk)) with (listed stk).
  change (subtask_testcases (subtask_info stj)) with (listed stj).
  destruct (merge_grows (listed stk) (listed stj)) as (Hr & Hin & Heq & Hne).
  { by eapply cl_sorted. }
  set (r := dedup (sorted (listed stk ++ listed stj))) in *.
  set (m' := <[k := set_testcases r stk]> m).
  assert (∀ i tc, has m' i tc ↔ has m i tc ∨ i = k ∧ has m j tc) as Hhas.
  { intros i tc. unfold has, m'. destruct (decide (i = k)) as [->|Hik].
    - rewrite lookup_insert_eq. rewrite Hk, Hj. split.
      + intros (x & [= <-] & Hx). rewrite listed_set in Hx. apply Hin in Hx as []; eauto.
      + intros [(x & [= <-] & Hx)|[_ (x & [= <-] & Hx)]]; eexists; (split; [done|]);
          rewrite listed_set; apply Hin; auto.
    - rewrite lookup_insert_ne by done. naive_solver. }
  assert (grows m m') as Hgrows by (intros i tc Hi; apply Hhas; by left).
  exists m', (negb (bool_decide (length (listed stk) = length r))). split; [done|]. split_and!; [|done|..].
  - split.
    + intros i. pose proof (cl_same _ Hm i) as Hs. unfold m'. destruct (decide (i = k)) as [->|Hik].
      * rewrite lookup_insert_eq. rewrite Hk in Hs. destruct (m0 !! k); [|done].
        by rewrite Hs, set_testcases_twice, listed_set.
      * by rewrite lookup_insert_ne.
    + intros i st. unfold m'. intros [[<- <-]|[_ Hi]]%lookup_insert_Some; [by rewrite listed_set|].
      by eapply cl_sorted.
    + intros i tc Hi. apply Hgrows. by eapply cl_incl.
    + intros i tc [Hi|[-> (j' & Hj' & Hx)%(cl_reached _ Hm)]]%Hhas; [by apply (cl_reached _ Hm)|].
      exists j'. split; [by eapply rtc_l|done].
  - intros [Hr' Hsub]%negb_false_iff%bool_decide_eq_true%Heq. split.
    + unfold m'. rewrite Hr', set_testcases_id. by apply insert_id.
    + intros tc (x & Hx & Htc). rewrite Hj in Hx. simplify_eq. exists stk. eauto.
  - intros (x & Hx & Hn)%negb_true_iff%bool_decide_eq_false%Hne. split; [done|].
    exists k, x. split; [exists (set_testcases r stk); split; [apply lookup_insert_eq|by rewrite listed_set]|].
    intros (y & Hy & ?). rewrite Hk in Hy. by simplify_eq.
Qed.

Lemma extend_all_step k deps m u :
  closing m → (∀ j, j ∈ deps → edge m0 k j) →
  ∃ m' u', extend_all k deps (m, u) = Ret (m', u || u') ∧
    stepped (λ m, ∀ j, j ∈ deps → passes k j m) m m' u'.
Proof.
  revert m u. induction deps as [|j deps IH]; intros m u Hm Hdeps; cbn [extend_all].
  { exists m, false. rewrite orb_false_r. split; [done|]. apply stepped_refl; [done|]. by intros ? ?%elem_of_nil. }
  destruct (extend_step m k j u Hm) as (m1 & u1 & -> & Hs1); [apply Hdeps; by left|].
  cbn [mbind outcome_bind]. destruct (IH m1 (u || u1)) as (m2 & u2 & -> & Hs2); [apply Hs1|set_solver|].
  exists m2, (u1 || u2). split; [by rewrite orb_assoc|].
  eapply stepped_mono; [|by eapply stepped_trans]. intros [H1 H2] i [->|Hi]%elem_of_cons; auto.
Qed.

Lemma round_step keys m u :
  closing m → (∀ k, k ∈ keys → is_Some (m0 !! k)) →
  ∃ m' u', closure_round keys (m, u) = Ret (m', u || u') ∧
    stepped (λ m, ∀ k j, k ∈ keys → edge m0 k j → passes k j m) m m' u'.
Proof.
  revert m u. induction keys as [|k keys IH]; intros m u Hm Hkeys; cbn [closure_round].
  { exists m, false. rewrite orb_false_r. split; [done|]. apply stepped_refl; [done|]. by intros ? ? ?%elem_of_nil. }
  destruct (proj2 (closing_lookup m k Hm)) as [st Hk]; [apply Hkeys; by left|].
  unfold the_subtask at 1. cbn [fst]. rewrite Hk. cbn [unwrap mbind outcome_bind].
  change (subtask_dependencies (subtask_info st)) with (depends_on st).
  assert (∀ j, edge m0 k j ↔ j ∈ depends_on st) as Hedge.
  { intros j. rewrite <-closing_edge by done. unfold edge. rewrite Hk. naive_solver. }
  destruct (extend_all_step k (depends_on st) m u Hm) as (m1 & u1 & -> & Hs1); [intros j; apply Hedge|].
  cbn [mbind outcome_bind]. destruct (IH m1 (u || u1)) as (m2 & u2 & -> & Hs2); [apply Hs1|set_solver|].
  exists m2, (u1 || u2). split; [by rewrite orb_assoc|].
  eapply stepped_mono; [|by eapply stepped_trans].
  intros [H1 H2] i j [->|Hi]%elem_of_cons Hij; [by apply H1, Hedge|by apply H2].
Qed.

(** ** The rounds end *)
Definition pairs m : gset (SubtaskId * TestcaseId) :=
  list_to_set (map_to_list m ≫= λ x, pair x.1 <$> listed x.2).
Lemma elem_of_pairs m k tc : (k, tc) ∈ pairs m ↔ has m k tc.
Proof.
  unfold pairs, has. rewrite elem_of_list_to_set, list_elem_of_bind. split.
  - intros ([k' st] & Hin & Hx). apply elem_of_map_to_list in Hx.
    apply list_elem_of_fmap in Hin as (? & ? & ?). naive_solver.
  - intros (st & Hk & Hin). exists (k, st). split; [|by apply elem_of_map_to_list].
    by apply list_elem_of_fmap_2.
Qed.
Lemma pairs_bound m : closing m → size (pairs m) ≤ size m0 * testcases.
Proof.
  intros Hm. destruct (clo_universe _ _ Hm0) as (u & <- & Hu).
  transitivity (length (list_prod (map_to_list m0).*1 u)).
  - rewrite <-(list_to_set_elements_L (pairs m)), size_list_to_set by apply NoDup_elements.
    apply submseteq_length, NoDup_submseteq; [apply NoDup_elements|].
    intros [k tc] Hin%elem_of_elements%elem_of_pairs. apply (cl_reached _ Hm) in Hin as (j & Hj & Htc).
    apply list_elem_of_In, in_prod; apply list_elem_of_In; [|by eapply Hu].
    destruct (m0 !! k) as [st|] eqn:Hk.
    + apply list_elem_of_fmap. exists (k, st). split; [done|by apply elem_of_map_to_list].
    + exfalso. apply rtc_inv in Hj as [->|(? & (? & ? & _) & _)]; [|congruence].
      destruct Htc as (? & ? & _). congruence.
  - by rewrite length_prod, length_fmap, length_map_to_list.
Qed.

Definition closed m : Prop := ∀ k j, edge m0 k j → passes k j m.

Lemma close_run fuel m :
  closing m → size m0 * testcases < fuel + size (pairs m) →
  ∃ m', close_testcases fuel m = Ret m' ∧ closing m' ∧ closed m'.
Proof.
  revert m. induction fuel as [|fuel IH]; intros m Hm Hf.
  { pose proof (pairs_bound m Hm). lia. }
  cbn [close_testcases].
  destruct (round_step (keys_iter m) m false Hm) as (m1 & u & -> & Hc & Hg & Hfalse & Htrue).
  { intros k Hk%elem_of_keys_iter. by apply (closing_lookup m k Hm). }
  cbn. destruct u.
  - apply IH; [done|]. destruct (Htrue eq_refl) as [_ (k & tc & Hin & Hn)].
    assert (size (pairs m) < size (pairs m1)); [|lia]. apply subset_size. split.
    + intros [i x]. rewrite !elem_of_pairs. apply Hg.
    + intros Hsub. apply Hn. rewrite <-!elem_of_pairs in *. by apply Hsub.
  - destruct (Hfalse eq_refl) as [-> Hp]. exists m. split_and!; [done..|].
    intros k j Hkj. apply Hp; [|done]. apply elem_of_keys_iter. apply (closing_lookup m k Hm).
    destruct Hkj as (? & -> & _). by eexists.
Qed.

Lemma closed_closure m : closing m → closed m → closure_of m0 m.
Proof.
  intros Hm Hclosed k. pose proof (cl_same _ Hm k) as Hs.
  destruct (m0 !! k) as [st|], (m !! k) as [st'|] eqn:Hk; try done.
  split_and!; [done|by eapply cl_sorted|]. intros tc. split.
  - intros Hin. apply (cl_reached _ Hm). by exists st'.
  - intros (j & Hj & Htc). assert (has m k tc) as (x & Hx & ?); [|by simplify_eq].
    clear Hs Hk. revert Htc. induction Hj as [i|i i' j Hi _ IH]; intros Htc.
    + by apply (cl_incl _ Hm).
    + by apply (Hclosed i i'), IH.
Qed.
End closure.

(** The loop ends, and its result is the reference. *)
Lemma close_testcases_spec `{IterOrder} testcases m :
  closable testcases m →
  ∃ m', close_testcases (closure_fuel m testcases) m = Ret m' ∧ closure_of m m'.
Proof.
  intros Hm. destruct (close_run testcases m Hm (closure_fuel m testcases) m) as (m' & -> & Hc & Hcl).
  - by eapply closing_start.
  - unfold closure_fuel. lia.
  - exists m'. split; [done|]. by eapply closed_closure.
Qed.

(** ** Property *)
Definition ex_subtask (id : SubtaskId) (deps : list SubtaskId) (tcs : list TestcaseId) : BuildSubtask :=
  mkBuildSubtask (mkSubtask id None (f64_of_Z 10) tcs tcs None false deps false) None IV_AssumeValid.
(** The first two depend on each other, the third on the second; the last one on all. *)
Definition ex_cyclic : gmap SubtaskId BuildSubtask :=
  list_to_map [(0%N, ex_subtask 0 [1%N] [0%N]); (1%N, ex_subtask 1 [0%N] [1%N; 2%N]);
               (2%N, ex_subtask 2 [1%N] []); (3%N, ex_subtask 3 [0%N; 1%N; 2%N; 3%N] [3%N])].

Example ex_closure :
  (λ m : gmap SubtaskId BuildSubtask, (λ k, option_map listed (m !! k)) <$> [0; 1; 2; 3]%N) <$>
    @close_testcases backward_order 17 ex_cyclic
  = Ret [Some [0%N; 1%N; 2%N]; Some [0%N; 1%N; 2%N]; Some [0%N; 1%N; 2%N]; Some [0%N; 1%N; 2%N; 3%N]].
Proof. vm_compute. reflexivity. Qed.

(** The loop that adds to each subtask the testcases of its dependencies ends, for
    dependencies of any shape (cyclic ones and of a subtask on itself included) and for
    any iteration order of the map, always with the same result: only the lists of
    testcases change, and each becomes the ascending list of the testcases listed by
    the subtasks that the dependencies reach. *)
Theorem dependencies_closed (testcases : nat) (m : gmap SubtaskId BuildSubtask) :
  closable testcases m →
  ∃ m', closure_of m m' ∧
    ∀ order : IterOrder, @close_testcases order (closure_fuel m testcases) m = Ret m'.
Proof.
  intros Hm. destruct (@close_testcases_spec forward_order testcases m Hm) as (m' & _ & Hm').
  exists m'. split; [done|]. intros order.
  destruct (@close_testcases_spec order testcases m Hm) as (m2 & Hrun & Hm2).
  rewrite Hrun. f_equal. by eapply closure_unique.
Qed.

Lemma ex_cyclic_closable : closable 4 ex_cyclic.
Proof.
  assert (∀ k st, ex_cyclic !! k = Some st → In (k, st) (map_to_list ex_cyclic)) as Hin.
  { intros k st Hk. by apply list_elem_of_In, elem_of_map_to_list. }
  split.
  - intros k j (st & Hst%Hin & Hj). vm_compute in Hst. destruct_or?; simplify_eq/=;
      unfold depends_on in Hj; simpl in Hj; set_unfold in Hj; destruct_or?; subst; vm_compute; by eexists.
  - intros k st Hst%Hin. vm_compute in Hst. destruct_or?; simplify_eq/=; repeat constructor; done.
  - exists [0%N; 1%N; 2%N; 3%N]. split; [done|]. intros k tc (st & Hst%Hin & Htc). vm_compute in Hst.
    destruct_or?; simplify_eq/=; unfold listed in Htc; simpl in Htc; set_solver.
Qed.
Lemma dependencies_closed_witness :
  ∃ m', closure_of ex_cyclic m' ∧
    ∀ order : IterOrder, @close_testcases order (closure_fuel ex_cyclic 4) ex_cyclic = Ret m'.
Proof. apply (dependencies_closed 4 ex_cyclic), ex_cyclic_closable. Defined.
