(* ===== verification/TaskEntries.v ===== *)
(** * Descriptions of the inputs of a task

    What the three descriptions of the inputs promise to [parse_task]: subtasks and
    testcases are numbered in order from 0, no testcase comes before the first subtask,
    a dependency is a subtask that exists.  From such a description the grouping of the
    testcases succeeds and gives subtasks that the closure of the dependencies and the
    builder of the DAG accept. *)
From S2P Require Import Prelude Float64 RustOrd Paths StoreKey Dag Text Diagnostics Checks UiMessage Machine.
From S2P Require Import Build Languages SourceFile SourceFileCorrect Scoring Judge IoiDag IoiDagCorrect.
From S2P Require Import Peg GenGrammar TaskInput CasesGen GenGen TaskLoad TaskClosure.

Section entries.
Context (G : gset Uuid).
Implicit Types (l : list TaskInputEntry) (i j n m : N).

(** ** Numbering *)
Fixpoint numbered (n m i j : N) l : Prop :=
  match l with
  | [] => i = n ∧ j = m
  | TI_Subtask st :: l => subtask_id (subtask_info st) = i ∧ numbered n m (i + 1) j l
  | TI_Testcase tc :: l =>
      testcase_id (testcase_info tc) = j ∧ (0 < i)%N ∧ numbered n m i (j + 1) l
  end.

Lemma numbered_app n m n' m' i j l l' :
  numbered n m i j l → numbered n' m' n m l' → numbered n' m' i j (l ++ l').
Proof.
  revert i j. induction l as [|[st|tc] l IH]; intros i j; simpl; [by intros [-> ->]|..]; naive_solver.
Qed.
Lemma numbered_le n m i j l : numbered n m i j l → (i ≤ n ∧ j ≤ m)%N.
Proof.
  revert i j. induction l as [|[st|tc] l IH]; intros i j; simpl; [lia|..].
  - intros [_ Hl%IH]. lia.
  - intros (_ & _ & Hl%IH). lia.
Qed.

(** ** Entries *)
Definition subtask_fresh (st : BuildSubtask) : Prop :=
  listed st = [] ∧ testcases_owned (subtask_info st) = [] ∧ input_validator_ok G (input_validator st).
Definition testcase_fresh (tc : BuildTestcase) : Prop :=
  input_generator_ok G (input_generator tc) ∧ output_generator_ok G (output_generator tc).
(** The dependencies are below a bound: none while the lines are parsed. *)
Definition entry_ok (bound : N) (e : TaskInputEntry) : Prop :=
  match e with
  | TI_Subtask st => subtask_fresh st ∧ ∀ k, k ∈ depends_on st → (k < bound)%N
  | TI_Testcase tc => testcase_fresh tc
  end.
Definition entries_ok (bound n m : N) l : Prop := numbered n m 0 0 l ∧ Forall (entry_ok bound) l.
Definition description l : Prop := ∃ n m, entries_ok n n m l.

Lemma entries_ok_nil b : entries_ok b 0 0 [].
Proof. by split. Qed.
Lemma push_subtask b n m l st :
  entries_ok b n m l → subtask_id (subtask_info st) = n → entry_ok b (TI_Subtask st) →
  entries_ok b (n + 1) m (l ++ [TI_Subtask st]).
Proof.
  intros [Hn Hl] Hid Hok. split; [|apply Forall_app; auto].
  eapply numbered_app; [done|]. simpl. auto.
Qed.
Lemma push_testcase_ok b n m l tc :
  entries_ok b n m l → (0 < n)%N → testcase_id (testcase_info tc) = m → testcase_fresh tc →
  entries_ok b n (m + 1) (l ++ [TI_Testcase tc]).
Proof.
  intros [Hn Hl] Hpos Hid Hok. split; [|apply Forall_app; auto].
  eapply numbered_app; [done|]. simpl. auto.
Qed.

(** Changing entries that keep their kind and their number. *)
Definition same_number (e e' : TaskInputEntry) : Prop :=
  match e, e' with
  | TI_Subtask st, TI_Subtask st' => subtask_id (subtask_info st) = subtask_id (subtask_info st')
  | TI_Testcase tc, TI_Testcase tc' => testcase_id (testcase_info tc) = testcase_id (testcase_info tc')
  | _, _ => False
  end.
#[local] Instance same_number_refl : Reflexive same_number.
Proof. by intros []. Qed.
Lemma numbered_same n m i j l l' :
  Forall2 same_number l l' → numbered n m i j l → numbered n m i j l'.
Proof.
  intros Hs. revert i j. induction Hs as [|[] [] l l' He _ IH]; intros i j; simpl in *; try done.
  - intros [<- Hl]. auto.
  - intros (<- & ? & Hl). auto.
Qed.

Lemma last_subtask_Some l before st :
  last_subtask l = Some (before, st) → l = before ++ [TI_Subtask st].
Proof.
  unfold last_subtask. destruct (last l) as [[st'|]|] eqn:Hl; intros [= <- <-].
  apply last_Some in Hl as [l' ->]. by rewrite removelast_last.
Qed.
Lemma update_last b n m before st st' :
  entries_ok b n m (before ++ [TI_Subtask st]) →
  subtask_id (subtask_info st') = subtask_id (subtask_info st) →
  (entry_ok b (TI_Subtask st) → entry_ok b (TI_Subtask st')) →
  entries_ok b n m (before ++ [TI_Subtask st']).
Proof.
  intros [Hn [Hl Hst]%Forall_app] Hid Hok. split.
  - eapply numbered_same; [|done]. apply Forall2_app; [by apply Forall_Forall2_diag, Forall_true|].
    repeat constructor. simpl. by rewrite Hid.
  - apply Forall_app. split; [done|]. apply Forall_cons in Hst as [? _]. auto.
Qed.

(** ** The names of the dependencies *)
Lemma elem_of_id_range n k : k ∈ id_range n ↔ (k < n)%N.
Proof.
  unfold id_range. rewrite list_elem_of_fmap. setoid_rewrite elem_of_seq. split.
  - intros (x & -> & ?). lia.
  - intros Hk. exists (N.to_nat k). lia.
Qed.
Lemma resolve_names_below ids n acc deps :
  (∀ name id, ids !! name = Some id → (id < n)%N) → (∀ k, k ∈ acc → (k < n)%N) →
  (∃ r, resolve_names ids n acc deps = Ret r ∧ ∀ k, k ∈ r → (k < n)%N) ∨
  ∃ e, resolve_names ids n acc deps = Fail e.
Proof.
  intros Hids. revert acc. induction deps as [|d deps IH]; intros acc Hacc; simpl; [eauto|].
  destruct (decide _).
  - apply IH. intros k. apply elem_of_id_range.
  - destruct (ids !! d) as [id|] eqn:Hd; [|eauto]. apply IH.
    intros k [Hk|Hk]%elem_of_app; [auto|]. apply list_elem_of_singleton in Hk as ->. by eapply Hids.
Qed.

Lemma set_dependencies_fresh k st :
  subtask_fresh st → subtask_fresh (set_dependencies k st) ∧ depends_on (set_dependencies k st) = k ∧
  subtask_id (subtask_info (set_dependencies k st)) = subtask_id (subtask_info st).
Proof. by destruct st as [[]]. Qed.

Lemma resolve_entry_ok ids deps n e :
  (∀ name id, ids !! name = Some id → (id < n)%N) → entry_ok n e →
  (∃ e', resolve_entry ids deps n e = Ret e' ∧ same_number e e' ∧ entry_ok n e') ∨
  ∃ err, resolve_entry ids deps n e = Fail err.
Proof.
  intros Hids He. destruct e as [st|tc]; simpl; [|left; by eexists].
  destruct (deps !! _) as [names|]; [|left; by eexists].
  destruct He as [Hf Hd].
  destruct (resolve_names_below ids n (subtask_dependencies (subtask_info st)) names Hids Hd)
    as [(r & -> & Hr)|[err ->]]; cbn [mbind outcome_bind]; [|eauto].
  left. destruct (set_dependencies_fresh (dedup (sorted r)) st Hf) as (Hf' & Hd' & Hid).
  eexists. split; [done|]. split; [by symmetry|]. split; [done|].
  rewrite Hd'. intros k Hk. apply (proj1 (proj2 (dedup_sorted r) k)) in Hk. auto.
Qed.
Lemma resolve_ok ids deps n m l :
  (∀ name id, ids !! name = Some id → (id < n)%N) → entries_ok n n m l →
  (∃ l', resolve_dependencies ids deps n l = Ret l' ∧ entries_ok n n m l') ∨
  ∃ err, resolve_dependencies ids deps n l = Fail err.
Proof.
  intros Hids [Hn Hl].
  assert ((∃ l', resolve_dependencies ids deps n l = Ret l' ∧ Forall2 same_number l l' ∧ Forall (entry_ok n) l')
          ∨ ∃ err, resolve_dependencies ids deps n l = Fail err) as [(l' & Hr & Hs & Hok)|Hr]; [|left|by right].
  { clear Hn. induction Hl as [|e l He _ IH]; [left; by exists []|]. unfold resolve_dependencies. simpl.
    destruct (resolve_entry_ok ids deps n e Hids He) as [(e' & -> & ? & ?)|[err ->]]; cbn [mbind outcome_bind];
      [|eauto]. fold (resolve_dependencies ids deps n).
    destruct IH as [(l' & -> & ? & ?)|[err ->]]; cbn [mbind outcome_bind]; [|eauto].
    left. eexists. split; [done|]. by split; constructor. }
  exists l'. split; [done|]. split; [by eapply numbered_same|done].
Qed.
Lemma entries_ok_bound b b' n m l : (b ≤ b')%N → entries_ok b n m l → entries_ok b' n m l.
Proof.
  intros Hb [Hn Hl]. split; [done|]. eapply Forall_impl; [exact Hl|]. intros [st|tc]; simpl; [|done].
  intros [? Hd]. split; [done|]. intros k ?%Hd. lia.
Qed.

(** ** Grouping *)
Record grouped (bound i j : N) (g : Grouped) : Prop := {
  gr_keys : ∀ k, is_Some (flush_subtask g !! k) ↔ (k < i)%N;
  gr_sub : ∀ k st, flush_subtask g !! k = Some st →
    subtask_id (subtask_info st) = k ∧ listed st = testcases_owned (subtask_info st) ∧
    ascending (listed st) ∧ (∀ tc, tc ∈ listed st → (tc < j)%N) ∧
    input_validator_ok G (input_validator st) ∧ ∀ d, d ∈ depends_on st → (d < bound)%N;
  gr_tcs : ∀ k, is_Some (gr_testcases g !! k) ↔ (k < j)%N;
  gr_tc : ∀ k tc, gr_testcases g !! k = Some tc → testcase_id (testcase_info tc) = k ∧ testcase_fresh tc;
  gr_owner : ∀ tc, (tc < j)%N → ∃ k st, flush_subtask g !! k = Some st ∧ tc ∈ listed st;
  gr_unique : ∀ k1 k2 st1 st2 tc, flush_subtask g !! k1 = Some st1 → flush_subtask g !! k2 = Some st2 →
    tc ∈ listed st1 → tc ∈ listed st2 → k1 = k2;
  gr_first : (0 < i)%N → is_Some (gr_last g);
  gr_later : ∀ st, gr_last g = Some st → gr_subtasks g !! subtask_id (subtask_info st) = None
}.
Lemma own_testcase_facts tc st :
  let st' := own_testcase tc st in
  subtask_id (subtask_info st') = subtask_id (subtask_info st) ∧ listed st' = listed st ++ [tc] ∧
  testcases_owned (subtask_info st') = testcases_owned (subtask_info st) ++ [tc] ∧
  input_validator st' = input_validator st ∧ depends_on st' = depends_on st.
Proof. by destruct st as [[]]. Qed.
Lemma group_subtask b i j g st :
  grouped b i j g → subtask_id (subtask_info st) = i → entry_ok b (TI_Subtask st) →
  grouped b (i + 1) j (mkGrouped (flush_subtask g) (gr_testcases g) (Some st)).
Proof.
  intros Hg Hid [(Hl & Ho & Hv) Hd]. split.
  - intros k. unfold flush_subtask at 1. simpl. rewrite Hid. destruct (decide (k = i)) as [->|].
    + rewrite lookup_insert_eq. split; [lia|by eexists].
    + rewrite lookup_insert_ne, (gr_keys _ _ _ _ Hg) by done. lia.
  - intros k x. unfold flush_subtask at 1. simpl. rewrite Hid. intros [[<- <-]|[_ Hx]]%lookup_insert_Some.
    + rewrite Hl, Ho. split_and!; try done; [constructor|]. by intros ? ?%elem_of_nil.
    + by apply (gr_sub _ _ _ _ Hg).
  - apply (gr_tcs _ _ _ _ Hg).
  - apply (gr_tc _ _ _ _ Hg).
  - intros tc (k & x & Hk & Hx)%(gr_owner _ _ _ _ Hg). exists k, x. split; [|done].
    unfold flush_subtask at 1. simpl. rewrite Hid, lookup_insert_ne; [done|].
    intros <-. assert (i < i)%N; [|lia]. apply (gr_keys _ _ _ _ Hg). by eexists.
  - intros k1 k2 x1 x2 tc. unfold flush_subtask at 1 3. simpl. rewrite Hid.
    intros [[<- <-]|[_ Hx1]]%lookup_insert_Some [[<- <-]|[_ Hx2]]%lookup_insert_Some; [done|..].
    + rewrite Hl. by intros ?%elem_of_nil.
    + rewrite Hl. by intros _ ?%elem_of_nil.
    + by apply (gr_unique _ _ _ _ Hg).
  - by eexists.
  - intros x [= <-]. simpl. rewrite Hid. apply eq_None_not_Some. rewrite (gr_keys _ _ _ _ Hg). lia.
Qed.
Lemma group_testcase b i j g tc st :
  grouped b i j g → gr_last g = Some st → testcase_id (testcase_info tc) = j → testcase_fresh tc →
  grouped b i (j + 1) (mkGrouped (gr_subtasks g) (<[j := tc]> (gr_testcases g)) (Some (own_testcase j st))).
Proof.
  intros Hg Hlast Hid Hf.
  destruct (own_testcase_facts j st) as (Ei & El & Eo & Ev & Ed).
  assert (flush_subtask g = <[subtask_id (subtask_info st) := st]> (gr_subtasks g)) as HF
    by (unfold flush_subtask; by rewrite Hlast).
  assert (flush_subtask (mkGrouped (gr_subtasks g) (<[j := tc]> (gr_testcases g)) (Some (own_testcase j st))) =
    <[subtask_id (subtask_info st) := own_testcase j st]> (flush_subtask g)) as HF'.
  { unfold flush_subtask at 1. simpl. by rewrite HF, insert_insert_eq, Ei. }
  assert (flush_subtask g !! subtask_id (subtask_info st) = Some st) as Hst
    by (by rewrite HF, lookup_insert_eq).
  split.
  - intros k. rewrite HF'. rewrite <-(gr_keys _ _ _ _ Hg k).
    destruct (decide (subtask_id (subtask_info st) = k)) as [<-|];
      [rewrite lookup_insert_eq, Hst; split; by eexists|by rewrite lookup_insert_ne].
  - intros k x. rewrite HF'. intros [[<- <-]|[_ Hx]]%lookup_insert_Some.
    + destruct (gr_sub _ _ _ _ Hg _ _ Hst) as (_ & H2 & H3 & H4 & H5 & H6).
      rewrite El, Eo, Ev, Ed, H2. split_and!; try done.
      * rewrite <-H2. by apply ascending_snoc.
      * intros x [Hx|Hx]%elem_of_app; [rewrite <-H2 in Hx; apply H4 in Hx; lia|].
        apply list_elem_of_singleton in Hx as ->. lia.
    + destruct (gr_sub _ _ _ _ Hg _ _ Hx) as (H1 & H2 & H3 & H4 & H5 & H6). split_and!; try done.
      intros y ?%H4. lia.
  - intros k. simpl. destruct (decide (j = k)) as [<-|].
    + rewrite lookup_insert_eq. split; [lia|by eexists].
    + rewrite lookup_insert_ne, (gr_tcs _ _ _ _ Hg) by done. lia.
  - intros k x. simpl. intros [[<- <-]|[_ Hx]]%lookup_insert_Some; [done|]. by apply (gr_tc _ _ _ _ Hg).
  - intros x Hx. setoid_rewrite HF'. destruct (decide (x = j)) as [->|Hne].
    { eexists _, _. split; [apply lookup_insert_eq|]. rewrite El. set_solver. }
    destruct (gr_owner _ _ _ _ Hg x) as (k & y & Hk & Hy); [lia|].
    destruct (decide (subtask_id (subtask_info st) = k)) as [<-|Hk'].
    + eexists _, _. split; [apply lookup_insert_eq|]. rewrite El. set_solver.
    + exists k, y. by rewrite lookup_insert_ne.
  - assert (∀ k x, flush_subtask g !! k = Some x → j ∉ listed x) as Hnew.
    { intros k x Hx Hin. apply (gr_sub _ _ _ _ Hg _ _ Hx) in Hin. lia. }
    intros k1 k2 x1 x2 y. rewrite HF'.
    intros [[<- <-]|[? Hx1]]%lookup_insert_Some [[<- <-]|[? Hx2]]%lookup_insert_Some; [done|..|by apply (gr_unique _ _ _ _ Hg)];
      rewrite El.
    + intros [Hy|Hy]%elem_of_app Hy2; [by eapply (gr_unique _ _ _ _ Hg)|].
      apply list_elem_of_singleton in Hy as ->. by apply Hnew in Hx2.
    + intros Hy1 [Hy|Hy]%elem_of_app; [by eapply (gr_unique _ _ _ _ Hg)|].
      apply list_elem_of_singleton in Hy as ->. by apply Hnew in Hx1.
  - by eexists.
  - intros x [= <-]. simpl. rewrite Ei. by apply (gr_later _ _ _ _ Hg).
Qed.

Lemma group_entries_ok b n m i j l g :
  numbered n m i j l → Forall (entry_ok b) l → grouped b i j g →
  ∃ g', group_entries g l = Ret g' ∧ grouped b n m g'.
Proof.
  intros Hn Hl. revert i j g Hn. induction Hl as [|[st|tc] l He _ IH]; intros i j g; simpl.
  - intros [-> ->]. eauto.
  - intros [Hid Hn] Hg. eapply IH; [exact Hn|]. by apply group_subtask.
  - intros (Hid & Hpos & Hn) Hg. destruct (gr_first _ _ _ _ Hg Hpos) as [st Hst]. rewrite Hst.
    cbn [mbind outcome_bind]. eapply IH; [exact Hn|]. rewrite Hid. by apply group_testcase.
Qed.
Lemma grouped_start b : grouped b 0 0 (mkGrouped ∅ ∅ None).
Proof.
  split; unfold flush_subtask; simpl; try done; try lia.
  - intros k. rewrite lookup_empty. split; [by intros []|lia].
  - intros k. rewrite lookup_empty. split; [by intros []|lia].
Qed.

Lemma grouped_closable n m g :
  grouped n n m g → closable (size (gr_testcases g)) (flush_subtask g).
Proof.
  intros Hg. split.
  - intros k j (st & Hst & Hj). apply (gr_keys _ _ _ _ Hg). by eapply (gr_sub _ _ _ _ Hg).
  - intros k st Hst. by eapply (gr_sub _ _ _ _ Hg).
  - exists (map_to_list (gr_testcases g)).*1. split; [by rewrite length_fmap, length_map_to_list|].
    intros k tc (st & Hst & Htc). assert (tc < m)%N as Hlt by (by eapply (gr_sub _ _ _ _ Hg)).
    apply (gr_tcs _ _ _ _ Hg) in Hlt as [x Hx]. apply list_elem_of_fmap. exists (tc, x).
    split; [done|by apply elem_of_map_to_list].
Qed.
End entries.
