(* ===== verification/TaskFiles.v ===== *)
(** * The source files of a task are found

    The specifications of the search of the source files and of the parts of a task
    made of them ([TaskInput]), and of the description given by the files of [input/]. *)
From S2P Require Import Prelude Float64 RustOrd Paths StoreKey Dag Text Diagnostics Checks UiMessage Machine.
From S2P Require Import Build Languages SourceFile SourceFileCorrect Scoring Judge IoiDag IoiDagCorrect.
From S2P Require Import Peg GenGrammar TaskInput CasesGen GenGen TaskLoad TaskClosure TaskEntries.

(** Two calls in a row as one, when they have a specification together. *)
Lemma wp_bind_assoc {S A B C} (m : M S A) (f : A → M S B) (g : B → M S C) Q E s :
  wp ((m ≫= f) ≫= g) Q E s → wp (m ≫= λ x, f x ≫= g) Q E s.
Proof. unfold wp, mbind, M_bind. by destruct (m s) as [[] ?]. Qed.

Lemma u32_sub_Ret `{BuildProfile} a b : (b ≤ a)%N → u32_sub a b = Ret (a - b)%N.
Proof. intros Hle. unfold u32_sub. by apply N.leb_le in Hle as ->. Qed.

Lemma path_file_name_app p q n : path_file_name q = Some n → path_file_name (p ++ q) = Some n.
Proof. unfold path_file_name. rewrite last_app. by destruct (last q). Qed.

Section files.
Context `{UuidV4} `{LocalFiles} `{Blake3} `{LanguageManager} `{BuildProfile} `{Glob}.
Implicit Types (s : EvaluationData TaskCallback) (G : gset Uuid).

(** ** The patterns

    Every pattern is a valid one; a checker, manager or controller found has a name
    when its extension is dropped. *)
Definition program_patterns : list string :=
  ["check/checker.*"; "cor/correttore.*"; "check/controller.*"; "cor/controller.*"; "check/manager.*";
   "cor/manager.*"].
Definition task_patterns : list string :=
  program_patterns ++ ["gen/validator.*"; "gen/valida.*"; "gen/validator"; "gen/valida";
    "sol/solution.*"; "sol/soluzione.*"; "sol/solution"; "sol/soluzione";
    "gen/generator.*"; "gen/generatore.*"; "gen/generator"; "gen/generatore"; "sol/grader.*"; "sol/stub.*"].
Definition found (task_dir : PathBuf) (pattern : string) : option (list PathBuf) :=
  glob (path_to_string (path_join task_dir (path_of_string pattern))).
Record globbed (task_dir : PathBuf) : Prop := {
  gl_valid : ∀ p, p ∈ task_patterns → is_Some (found task_dir p);
  gl_names : ∀ p l x, p ∈ program_patterns → found task_dir p = Some l → x ∈ l →
    is_Some (path_file_name (without_extension x))
}.

Lemma list_files_found task_dir patterns :
  (∀ p, p ∈ patterns → is_Some (found task_dir p)) →
  ∃ l, list_files task_dir patterns = Ret l ∧
    ∀ x, x ∈ l → ∃ p k, p ∈ patterns ∧ found task_dir p = Some k ∧ x ∈ k.
Proof.
  induction patterns as [|p patterns IH]; intros Hp; simpl; [by exists []; split; [done|intros ? ?%elem_of_nil]|].
  destruct (Hp p) as [k Hk]; [by left|]. unfold found in Hk. rewrite Hk. cbn [unwrap mbind outcome_bind].
  destruct IH as (l & -> & Hl); [set_solver|]. cbn [mbind outcome_bind]. eexists. split; [done|].
  intros x [Hx|Hx]%elem_of_app; [exists p, k; set_solver|].
  apply Hl in Hx as (q & k' & ? & ? & ?). exists q, k'. set_solver.
Qed.

(** ** Making source files *)
Lemma unbuilt_cell G s n :
  unbuilt G s → unbuilt G (mkEval (task_root s) (eval_dag s) (eval_sender s) (uuids_drawn s)
                             (executables s) n).
Proof. intros []. by split. Qed.

Lemma wp_source_new G path base d m w s (P : option UiSourceFile → EvaluationData TaskCallback → Prop) :
  unbuilt G s →
  (∀ o s', unbuilt G s' → (is_Some (detect_language path) → is_Some o) →
     (∀ x, o = Some x → sf_path (source_base x) = path ∧ write_bin_to (source_base x) = w ∧
        grader_map (source_base x) = m ∧ is_Some (detect_language path)) → P o s') →
  wp (UiSourceFile_new path base d m w) P may_fail s.
Proof.
  intros Hu HP. unfold UiSourceFile_new, SourceFile_new. apply wp_bind.
  destruct (detect_language path) as [lang|]; [|apply wp_ret, wp_ret; apply HP; [done|by intros []|done]].
  unfold new_cell. wp_steps. apply HP; [by apply unbuilt_cell|by eexists|].
  intros x [= <-]. by repeat split.
Qed.

Definition graders_in G (m : option GraderMap) : Prop :=
  ∀ g l d, m = Some g → graders g !! l = Some d → file_uuid (dep_file d) ∈ G.
Definition writes_to (base : PathBuf) (write : WriteBinTo) (paths : list PathBuf) : Prop :=
  match write with
  | WB_None => True
  | WB_WithoutExtension => ∀ x, x ∈ paths → is_Some (path_file_name (without_extension x))
  | WB_Path p => is_Some (path_file_name (path_join base p))
  end.

Lemma wp_sources_at G base d m write paths s (P : list UiSourceFile → EvaluationData TaskCallback → Prop) :
  unbuilt G s → graders_in G m → writes_to base write paths →
  (∀ l s', unbuilt G s' → Forall (ui_ok G) l → P l s') →
  wp (sources_at base d m write paths) P may_fail s.
Proof.
  intros Hu Hm Hw. revert s P Hu.
  induction paths as [|p paths IH]; intros s P Hu HP; cbn [sources_at]; [apply wp_ret; by apply HP|].
  assert (writes_to base write paths) as Hw' by (destruct write; simpl in *; set_solver).
  apply wp_bind. unfold source_at.
  destruct (path_exists p && bool_decide (is_Some (detect_language p))) eqn:Hp.
  - apply andb_true_iff in Hp as [_ Hl%bool_decide_eq_true]. apply wp_bind.
    eapply wp_source_new; [done|]. intros o s1 Hu1 Ho Hx. destruct (Ho Hl) as [x ->].
    apply wp_bind. eapply wp_lift_ret; [done|]. wp_steps. apply IH; [done..|].
    intros l s2 Hu2 Hall. wp_steps. apply HP; [done|]. constructor; [|done].
    destruct (Hx x eq_refl) as (E1 & E2 & E3 & [lang Hlang]). split.
    + rewrite E1. by eapply detect_language_name.
    + rewrite E2. intros w Hwr. destruct write; simplify_eq/=; [|done]. apply Hw. by left.
    + rewrite E3. intros g l' d'. by apply Hm.
  - wp_steps. apply IH; [done..|]. intros l s2 Hu2 Hall. wp_steps. by apply HP.
Qed.

Lemma wp_at_most_one G what l s (P : option UiSourceFile → EvaluationData TaskCallback → Prop) :
  Forall (ui_ok G) l → (∀ o, (∀ x, o = Some x → ui_ok G x) → P o s) →
  wp (at_most_one what l) P may_fail s.
Proof.
  intros Hl HP. unfold at_most_one. destruct l as [|x [|y l]].
  - apply wp_ret, HP. done.
  - apply wp_ret, HP. intros ? [= <-]. by apply Forall_cons in Hl as [? _].
  - assert (∃ names, try_map (λ x, sf_name (source_base x)) (x :: y :: l) = Ret names) as [names Hn].
    { apply try_map_total. intros z Hz. rewrite Forall_forall in Hl. destruct (Hl z Hz) as [[n Hn] _ _].
      exists n. unfold sf_name. by rewrite Hn. }
    apply wp_bind. eapply wp_lift_ret; [exact Hn|]. done.
Qed.

(** A search that keeps one file. *)
Lemma wp_find_one G task_dir patterns d m write what s
    (P : option UiSourceFile → EvaluationData TaskCallback → Prop) :
  globbed task_dir → patterns ⊆ task_patterns → unbuilt G s → graders_in G m →
  match write with
  | WB_None => True
  | WB_WithoutExtension => patterns ⊆ program_patterns
  | WB_Path p => is_Some (path_file_name (path_join task_dir p))
  end →
  (∀ o s', unbuilt G s' → (∀ x, o = Some x → ui_ok G x) → P o s') →
  wp (l ← find_source_file task_dir patterns task_dir d m write; at_most_one what l) P may_fail s.
Proof.
  intros Hg Hsub Hu Hm Hw HP. unfold find_source_file.
  destruct (list_files_found task_dir patterns) as (l & Hl & Hin); [intros p Hp; by apply (gl_valid _ Hg), Hsub|].
  do 2 apply wp_bind. eapply wp_lift_ret; [exact Hl|].
  apply (wp_sources_at G); [done|done| |].
  - destruct write; simpl; [done| |done]. intros x (p & k & Hp & Hk & Hx)%Hin.
    eapply (gl_names _ Hg); [by apply Hw|done|done].
  - intros l' s' Hu' Hall. apply (wp_at_most_one G); [done|]. intros o Ho. by apply HP.
Qed.

Lemma wp_detect_validator G task_dir s (P : option UiSourceFile → EvaluationData TaskCallback → Prop) :
  globbed task_dir → unbuilt G s →
  (∀ o s', unbuilt G s' → (∀ x, o = Some x → ui_ok G x) → P o s') →
  wp (detect_validator task_dir) P may_fail s.
Proof.
  intros Hg Hu HP. apply (wp_find_one G); [done| |done|done| |done].
  - unfold task_patterns, program_patterns. set_solver.
  - eexists. by apply (path_file_name_app task_dir [Normal "bin"; Normal "validator"]).
Qed.

Lemma wp_detect_output_generator G task_dir m s
    (P : option UiSourceFile → EvaluationData TaskCallback → Prop) :
  globbed task_dir → unbuilt G s → graders_in G (Some m) →
  (∀ o s', unbuilt G s' → (∀ x, o = Some x → ui_ok G x) → P o s') →
  wp (detect_output_generator task_dir m) P may_fail s.
Proof.
  intros Hg Hu Hm HP. apply (wp_find_one G); [done| |done|done| |done].
  - unfold task_patterns, program_patterns. set_solver.
  - eexists. by apply (path_file_name_app task_dir [Normal "bin"; Normal "official_solution"]).
Qed.

Lemma standalone_ok G x : ui_ok G x → ui_ok G (standalone x).
Proof. by destruct x as [[]]; intros []; split. Qed.

(** A checker, a manager or a controller. *)
Lemma wp_find_program G task_dir patterns d what s
    (P : option UiSourceFile → EvaluationData TaskCallback → Prop) :
  globbed task_dir → patterns ⊆ program_patterns → unbuilt G s →
  (∀ o s', unbuilt G s' → (∀ x, o = Some x → ui_ok G x) → P o s') →
  wp (l ← find_source_file task_dir patterns task_dir d None WB_WithoutExtension; at_most_one what l)
    P may_fail s.
Proof.
  intros Hg Hsub Hu HP. apply (wp_find_one G); try done.
  intros p Hp. apply elem_of_app. left. by apply Hsub.
Qed.

Lemma wp_batch_data G task_dir m s (P : TaskType → EvaluationData TaskCallback → Prop) :
  globbed task_dir → unbuilt G s → graders_in G (Some m) →
  (∀ c s', unbuilt G s' → checker_ok G c → P (TT_Batch c) s') →
  wp (parse_batch_task_data task_dir m) P may_fail s.
Proof.
  intros Hg Hu Hm HP. unfold parse_batch_task_data. apply wp_bind_assoc.
  apply wp_bind, (wp_find_program G); [done|set_solver|done|]. intros o s1 Hu1 Ho. wp_steps.
  apply (wp_detect_output_generator G); [done..|]. intros o' s2 Hu2 _. wp_steps. apply HP; [done|].
  destruct o as [x|]; [|done]. by apply standalone_ok, Ho.
Qed.
Lemma wp_interactive_data G task_dir yaml s (P : option TaskType → EvaluationData TaskCallback → Prop) :
  globbed task_dir → unbuilt G s → memory_ok (yaml_controller_memory_limit yaml) →
  (∀ o s', unbuilt G s' → (∀ t, o = Some t → task_type_ok G t) → P o s') →
  wp (parse_interactive_task_data task_dir yaml) P may_fail s.
Proof.
  intros Hg Hu Hm HP. unfold parse_interactive_task_data. apply wp_bind_assoc.
  apply wp_bind, (wp_find_program G); [done|set_solver|done|]. intros o s1 Hu1 Ho. wp_steps. apply HP; [done|].
  intros t Ht. destruct o as [x|]; simplify_eq. split; [by apply standalone_ok, Ho|done].
Qed.
Lemma wp_communication_data G task_dir yaml s (P : option TaskType → EvaluationData TaskCallback → Prop) :
  globbed task_dir → unbuilt G s →
  (∀ o s', unbuilt G s' → (∀ t, o = Some t → task_type_ok G t) → P o s') →
  wp (parse_communication_task_data task_dir yaml) P may_fail s.
Proof.
  intros Hg Hu HP. unfold parse_communication_task_data. apply wp_bind_assoc.
  apply wp_bind, (wp_find_program G); [done|set_solver|done|]. intros o s1 Hu1 Ho. wp_steps. apply HP; [done|].
  intros t Ht. destruct o as [x|]; simplify_eq. by apply standalone_ok, Ho.
Qed.

(** ** The graders *)
Lemma unbuilt_draw G s :
  unbuilt G s → unbuilt ({[nth_uuid (uuids_drawn s)]} ∪ G)
    (mkEval (task_root s) (eval_dag s) (eval_sender s) (uuids_drawn s + 1) (executables s) (next_cell s)).
Proof.
  intros [? ? ? ? HG]. split; [done..|]. intros f [->%elem_of_singleton|Hf]%elem_of_union.
  - exists (uuids_drawn s). simpl. split; [lia|done].
  - destruct (HG f Hf) as (n & Hn & ->). exists n. simpl. split; [lia|done].
Qed.
Lemma wp_graders G m l s (P : GraderMap → EvaluationData TaskCallback → Prop) :
  unbuilt G s → graders_in G (Some m) →
  (∀ G' m' s', unbuilt G' s' → graders_in G' (Some m') → P m' s') →
  wp (add_graders m l) P may_fail s.
Proof.
  intros Hu Hm HP. revert G m s Hu Hm. induction l as [|g l IH]; intros G m s Hu Hm; cbn [add_graders].
  { apply wp_ret. by eapply HP. }
  apply wp_bind. unfold add_grader. destruct (detect_language g) as [lang|] eqn:Hl; [|wp_steps; by eapply IH].
  unfold new_file, draw. wp_steps. destruct (detect_language_name _ _ Hl) as [n Hn].
  eapply wp_lift_ret; [by rewrite Hn|]. wp_steps. eapply IH; [by apply unbuilt_draw|].
  intros g' l' d [= <-]. simpl. intros [[_ <-]|[_ Hd]]%lookup_insert_Some; [set_solver|].
  apply elem_of_union_r. by eapply Hm.
Qed.

(** ** What is given to the parsers of the inputs *)
Definition validator_gives G (get_validator : option SubtaskId → Outcome InputValidator) : Prop :=
  ∀ k, (k + 1 < u32_modulus)%N → ∃ v, get_validator (Some k) = Ret v ∧ input_validator_ok G v.
Definition outputs_ok G (get_output_gen : TestcaseId → OutputGenerator) : Prop :=
  ∀ n, output_generator_ok G (get_output_gen n).

Lemma validator_of_gives G o : (∀ x, o = Some x → ui_ok G x) → validator_gives G (validator_of o).
Proof.
  intros Ho k Hk. destruct o as [x|]; simpl; [|by eexists]. rewrite u32_add_Ret by done.
  cbn [mbind outcome_bind]. eexists. split; [done|]. by apply Ho.
Qed.
Lemma output_generator_of_ok G o dir : (∀ x, o = Some x → ui_ok G x) → outputs_ok G (output_generator_of o dir).
Proof. intros Ho n. destruct o as [x|]; simpl; [by apply Ho|done]. Qed.

(** ** The files of [input/]

    [n] is the number of the first file that is not there. *)
Definition input_path (task_dir : PathBuf) (k : N) : PathBuf :=
  path_join (path_join task_dir [Normal "input"]) [Normal ("input" +:+ pretty k +:+ ".txt")].
Record inputs_end (task_dir : PathBuf) (n : N) : Prop := {
  ie_last : path_exists (input_path task_dir n) = false;
  ie_there : ∀ k, (k < n)%N → path_exists (input_path task_dir k) = true;
  ie_bound : (n + 2 < u32_modulus)%N
}.

Lemma static_testcases_run G task_dir n gen i fuel :
  inputs_end task_dir n → outputs_ok G gen → (1 ≤ i ≤ n + 1)%N → N.to_nat (n + 1 - i) < fuel →
  ∃ l, static_testcases fuel (path_join task_dir [Normal "input"]) gen i = Ret l ∧
    numbered 1 n 1 (i - 1) l ∧ Forall (entry_ok G 0) l.
Proof.
  intros Hie Hg. revert i. induction fuel as [|fuel IH]; intros i Hi Hf; [lia|]. cbn [static_testcases].
  fold (input_path task_dir (i - 1)). destruct (decide (i = n + 1)%N) as [->|Hne].
  - replace (n + 1 - 1)%N with n by lia. rewrite (ie_last _ _ Hie). exists []. split; [done|]. by split.
  - rewrite (ie_there _ _ Hie) by lia. rewrite u32_add_Ret by (pose proof (ie_bound _ _ Hie); lia).
    cbn [mbind outcome_bind]. destruct (IH (i + 1)%N) as (l & -> & Hn & Hl); [lia..|]. cbn [mbind outcome_bind].
    eexists. split; [done|]. split; [|constructor; [by split; [|apply Hg]|done]].
    simpl. split_and!; [done|lia|]. by replace (i - 1 + 1)%N with (i + 1 - 1)%N by lia.
Qed.
Lemma static_inputs_run G task_dir n get_validator gen fuel :
  inputs_end task_dir n → validator_gives G get_validator → outputs_ok G gen → N.to_nat n < fuel →
  ∃ l, static_inputs fuel task_dir get_validator gen = Ret l ∧ description G l.
Proof.
  intros Hie Hv Hg Hf. unfold static_inputs. destruct (Hv 0%N) as (v & -> & Hvok); [done|].
  cbn [mbind outcome_bind].
  destruct (static_testcases_run G task_dir n gen 1 fuel Hie Hg) as (l & -> & Hn & Hl); [lia..|].
  cbn [mbind outcome_bind]. eexists. split; [done|]. exists 1%N, n. split; [by split|].
  constructor; [|by eapply Forall_impl; [exact Hl|]; intros [st|tc]; simpl; [intros [? Hd]; split; [done|];
    intros k ?%Hd; lia|]].
  split; [by split|]. by intros k ?%elem_of_nil.
Qed.
End files.
