(* ===== verification/CasesGenCorrect.v ===== *)
(** * [cases.gen] is parsed to a description

    The invariant of the parser of [cases.gen], kept by every line of a file that the
    grammar accepts: the entries are numbered, the names refer to subtasks that exist,
    there is a list of constraints for each subtask.  No line makes the parser panic. *)
From S2P Require Import Prelude Float64 RustOrd Paths StoreKey Dag Text Diagnostics Checks UiMessage Machine.
From S2P Require Import FloatText Build Languages SourceFile SourceFileCorrect Scoring Judge IoiDag IoiDagCorrect.
From S2P Require Import Peg GenGrammar GrammarShape TaskInput CasesGen GenGen TaskLoad TaskClosure TaskEntries.
From S2P Require Import TaskFiles.

Section cases.
Context `{UuidV4} `{LocalFiles} `{Blake3} `{LanguageManager} `{BuildProfile} `{IterOrder}.
Implicit Types (c : CasesGen) (G : gset Uuid).

Definition managers_ok G (m : gmap text Manager) : Prop :=
  ∀ name x, m !! name = Some x → ui_ok G (manager_source x).
Definition constraint_ok (constr : Constraint) : Prop :=
  length (operands constr) = S (length (operators constr)).

(** [lines] counts the lines parsed: the identifiers stay in their type. *)
Record cases_ok G (lines : N) c : Prop := {
  co_entries : entries_ok G 0 (cg_subtask_id c) (cg_testcase_id c) (cg_result c);
  co_count : (cg_subtask_id c ≤ lines ∧ cg_testcase_id c ≤ lines)%N;
  co_names : ∀ name id, cg_st_name_to_id c !! name = Some id → (id < cg_subtask_id c)%N;
  co_locals : length (cg_subtask_constraints c) = N.to_nat (cg_subtask_id c);
  co_generators : managers_ok G (cg_generators c);
  co_validators : managers_ok G (cg_validators c);
  co_constraints : Forall constraint_ok (cg_constraints c);
  co_local_constraints : Forall (Forall constraint_ok) (cg_subtask_constraints c);
  co_outputs : outputs_ok G (cg_get_output_gen c);
  co_machine : unbuilt G (cg_machine c)
}.

Lemma cases_ok_more G n n' c : (n ≤ n')%N → cases_ok G n c → cases_ok G n' c.
Proof. intros Hle []. split; [done|lia|done..]. Qed.

(** ** Pieces *)
Lemma nth_str_Some line i p : line !! i = Some p → nth_str line i = Ret (pair_str p).
Proof. intros Hi. unfold nth_str. by rewrite Hi. Qed.

Lemma auto_variables c :
  (0 < cg_subtask_id c)%N →
  ∃ vars, get_auto_variables c = Ret vars ∧ is_Some (vars !! "INPUT") ∧ is_Some (vars !! "ST_NUM").
Proof.
  intros Hpos. unfold get_auto_variables. rewrite u32_sub_Ret by lia. cbn [mbind outcome_bind].
  eexists. split; [done|]. destruct (cg_subtask_name c); vm_compute; split; by eexists.
Qed.
Lemma variables_run c def args : (0 < cg_subtask_id c)%N → ∃ vars, get_variables c def args = Ret vars.
Proof.
  intros Hpos. destruct (auto_variables c Hpos) as (v & Hv & _). unfold get_variables. rewrite Hv.
  cbn [mbind outcome_bind]. by eexists.
Qed.

(** What is not a panic. *)
Definition orderly {A} (m : Outcome A) : Prop := is_ret m = true ∨ ∃ e, m = Fail e.
Lemma wp_orderly {S A} (o : Outcome A) (Q : A → S → Prop) s :
  orderly o → (∀ a, o = Ret a → Q a s) → wp (lift o) Q may_fail s.
Proof. intros Ho HQ. unfold wp, lift. destruct o; try done; [auto|..]; by destruct Ho as [|[]]. Qed.
Lemma orderly_bind {A B} (m : Outcome A) (f : A → Outcome B) :
  orderly m → (∀ a, m = Ret a → orderly (f a)) → orderly (m ≫= f).
Proof. intros Hm Hf. destruct m; [by apply Hf|right; by eexists| |]; by destruct Hm as [|[]]. Qed.
Lemma orderly_ret {A} (a : A) : orderly (Ret a).
Proof. by left. Qed.
Lemma orderly_fail {A} e : orderly (A := A) (Fail e).
Proof. right. by eexists. Qed.
Hint Resolve orderly_ret orderly_fail : core.

Lemma split_words_orderly ctx line : orderly (split_words ctx line).
Proof. unfold split_words. destruct (shell_words _); auto. Qed.
Lemma try_map_orderly {A B} (f : A → Outcome B) l : (∀ x, orderly (f x)) → orderly (try_map f l).
Proof.
  intros Hf. induction l as [|x l IH]; simpl; [done|]. apply orderly_bind; [done|]. intros y _.
  apply orderly_bind; auto.
Qed.

Lemma get_validator_ok G c name vars :
  managers_ok G (cg_validators c) → is_Some (vars !! "INPUT") → is_Some (vars !! "ST_NUM") →
  orderly (get_validator c name vars) ∧ ∀ v, get_validator c name vars = Ret v → input_validator_ok G v.
Proof.
  intros Hm [a Ha] [b Hb]. unfold get_validator. destruct name as [name|]; [|by split; [|intros ? [= <-]]].
  destruct (cg_validators c !! name) as [x|] eqn:Hx; [|by split].
  assert (orderly (match manager_args x with
                   | [] => input ← index vars "INPUT"; st_num ← index vars "ST_NUM"; Ret [input; st_num]
                   | args => try_map (validator_arg vars) args
                   end)) as Ho.
  { destruct (manager_args x) as [|y l]; [unfold index; rewrite Ha, Hb; by left|]. apply try_map_orderly.
    intros z. unfold validator_arg. destruct (vars !! strip_dollar z); auto. }
  split; [apply orderly_bind; auto|]. intros v Hv.
  match type of Hv with (?m ≫= _) = _ => destruct m; simplify_eq/= end. by eapply Hm.
Qed.

Lemma constraint_runs constr vars : constraint_ok constr →
  (∃ r, constraint_is_valid constr vars = Ret r) ∧ ∃ s, constraint_to_string constr = Ret s.
Proof.
  unfold constraint_ok, constraint_is_valid, constraint_to_string.
  destruct (operands constr); [done|]. split; by eexists.
Qed.
Lemma check_constraints_orderly line vars l :
  Forall constraint_ok l → orderly (check_constraints line vars l).
Proof.
  induction 1 as [|constr l Hc _ IH]; simpl; [done|].
  destruct (constraint_runs constr vars Hc) as [[r ->] [s Hs]]. cbn [mbind outcome_bind].
  destruct r as [[]|]; [done| |done]. rewrite Hs. cbn [mbind outcome_bind]. done.
Qed.

(** ** Testcases *)
Lemma wp_push_testcase G n g c :
  cases_ok G n c → (n + 1 < u32_modulus)%N → (0 < cg_subtask_id c)%N → input_generator_ok G g →
  wp (push_testcase g) (λ _, cases_ok G (n + 1)) may_fail c.
Proof.
  intros Hc Hn Hpos Hg. unfold push_testcase. wp_steps. destruct Hc as [He [Hs Ht]].
  eapply wp_lift_ret; [simpl; apply u32_add_Ret; lia|]. wp_steps. split; simpl; try done; [|lia].
  apply push_testcase_ok; [done..|]. by split; [|apply co_outputs0].
Qed.

Lemma last_local G n c :
  cases_ok G n c → (0 < cg_subtask_id c)%N →
  ∃ l, last (cg_subtask_constraints c) = Some l ∧ Forall constraint_ok l.
Proof.
  intros Hc Hpos. destruct (last (cg_subtask_constraints c)) as [l|] eqn:Hl.
  - exists l. split; [done|]. pose proof (co_local_constraints _ _ _ Hc) as Hall. rewrite Forall_forall in Hall.
    apply Hall. by apply last_Some_elem_of.
  - apply last_None in Hl. pose proof (co_locals _ _ _ Hc) as Hlen. rewrite Hl in Hlen. simpl in Hlen. lia.
Qed.

Lemma wp_parse_testcase G n line gen c :
  cases_ok G n c → (n + 1 < u32_modulus)%N →
  wp (parse_testcase line gen) (λ _, cases_ok G (n + 1)) may_fail c.
Proof.
  intros Hc Hn. unfold parse_testcase. wp_steps; [done|]. apply N.eqb_neq in Heqb.
  destruct gen as [name|]; [|done]. wp_steps.
  apply wp_orderly; [apply split_words_orderly|]. intros args _. wp_steps.
  destruct (cg_generators c !! name) as [g|] eqn:Hg; [|done]. eapply wp_lift_ret; [done|]. wp_steps.
  destruct (variables_run c (manager_args g) args) as [vars Hv]; [lia|]. eapply wp_lift_ret; [done|]. wp_steps.
  destruct (last_local G n c Hc) as (l & Hl & Hlok); [lia|]. eapply wp_lift_ret; [by rewrite Hl|]. wp_steps.
  apply wp_orderly.
  { apply check_constraints_orderly, Forall_app. split; [apply (co_constraints _ _ _ Hc)|done]. }
  intros _ _. apply wp_push_testcase; [done..|lia|]. by eapply (co_generators _ _ _ Hc).
Qed.

(** ** Generators and validators *)
Lemma wp_define_gen_val G (line : list (Pair CasesRule)) (dir : PathBuf) (def : option text)
    (ms : gmap text Manager) (kind : string) (s : EvaluationData TaskCallback)
    (P : option text * gmap text Manager → EvaluationData TaskCallback → Prop) :
  length line = 3 → unbuilt G s → managers_ok G ms →
  (∀ r s', unbuilt G s' → managers_ok G r.2 → P r s') →
  wp (define_gen_val line dir def ms kind) P may_fail s.
Proof.
  intros Hlen Hu Hms HP. destruct line as [|p1 [|p2 [|p3 []]]]; try done. unfold define_gen_val.
  wp_steps. eapply wp_lift_ret; [by apply nth_str_Some|]. wp_steps.
  eapply wp_lift_ret; [by apply nth_str_Some|]. wp_steps; [done|].
  set (path := path_join dir (path_of_text (pair_str p2))).
  destruct (path_file_name path) as [n|] eqn:Hn; [|done]. eapply wp_lift_ret; [done|]. wp_steps.
  eapply wp_source_new; [done|]. intros o s1 Hu1 _ Ho. wp_steps.
  destruct o as [x|]; [|done]. eapply wp_lift_ret; [done|]. wp_steps.
  eapply wp_lift_ret; [by apply nth_str_Some|]. wp_steps.
  apply wp_orderly; [apply split_words_orderly|]. intros args _. wp_steps; [done|].
  apply HP; [done|]. intros name y. simpl. intros [[_ <-]|[_ Hy]]%lookup_insert_Some; [|by eapply Hms]. simpl.
  destruct (Ho x eq_refl) as (E1 & E2 & E3 & _). split.
  - rewrite E1. by eexists.
  - rewrite E2. intros w [= <-]. eexists. by apply (path_file_name_app _ [Normal n]).
  - rewrite E3. done.
Qed.

Definition manager_pairs (line : Pair CasesRule) : Prop :=
  length (into_inner line) = 1 ∨ length (into_inner line) = 3.

Lemma wp_parse_gen G n line c :
  cases_ok G n c → manager_pairs line → wp (parse_gen line) (λ _, cases_ok G n) may_fail c.
Proof.
  intros Hc Hline. unfold parse_gen. wp_steps.
  - destruct (into_inner line) as [|p l]; [done|]. eapply wp_lift_ret; [by apply nth_str_Some|].
    wp_steps; [done..|]. by destruct Hc.
  - apply (wp_define_gen_val G); [by destruct Hline|apply Hc|apply Hc|]. intros r s' Hu Hr.
    wp_steps. by destruct Hc.
Qed.

Lemma set_validator_entry G b v st :
  input_validator_ok G v → entry_ok G b (TI_Subtask st) → entry_ok G b (TI_Subtask (set_validator v st)).
Proof. intros Hv [(Hl & Ho & _) Hd]. by split. Qed.

Lemma wp_parse_val G n line c :
  cases_ok G n c → manager_pairs line → wp (parse_val line) (λ _, cases_ok G n) may_fail c.
Proof.
  intros Hc Hline. unfold parse_val. wp_steps; [done|..].
  - apply N.eqb_neq in Heqb. destruct (into_inner line) as [|p l]; [done|].
    eapply wp_lift_ret; [by apply nth_str_Some|]. wp_steps.
    destruct (auto_variables c) as (vars & Hvars & Hin & Hst); [lia|]. eapply wp_lift_ret; [done|]. wp_steps.
    destruct (get_validator_ok G c (Some (pair_str p)) vars) as [Hor Hv]; [apply Hc|done..|].
    apply wp_orderly; [done|]. intros v Hvok%Hv.
    destruct (last_subtask (cg_result c)) as [[before st]|] eqn:Hlast; [|done]. wp_steps.
    apply last_subtask_Some in Hlast. destruct Hc. split; simpl; try done.
    eapply update_last; [by rewrite <-Hlast|done|]. by apply set_validator_entry.
  - apply (wp_define_gen_val G); [by destruct Hline|apply Hc|apply Hc|]. intros r s' Hu Hr.
    wp_steps. by destruct Hc.
Qed.

(** ** Constraints *)
Lemma constraint_items_orderly whole l acc :
  Forall constraint_item_shape l → orderly (constraint_items whole acc l).
Proof.
  intros Hl. revert acc. induction Hl as [|p l Hp _ IH]; intros [constr d]; cbn [constraint_items]; [done|].
  apply orderly_bind; [|auto]. unfold constraint_item, constraint_item_shape in *.
  destruct (as_rule p); try done.
  - destruct (parse_i64 _); auto.
  - destruct Hp as [x ->]. by left.
  - unfold operator_from_str. repeat case_match; simplify_eq/=; auto; repeat case_match; auto.
Qed.
Lemma build_constraint_orderly line :
  Forall constraint_item_shape (into_inner line) →
  orderly (build_constraint line) ∧ ∀ constr, build_constraint line = Ret constr → constraint_ok constr.
Proof.
  intros Hl. unfold build_constraint.
  pose proof (constraint_items_orderly (pair_str line) (into_inner line) (mkConstraint [] [], None) Hl) as Hor.
  split.
  - apply orderly_bind; [done|]. intros a _. repeat case_decide; auto.
  - intros constr. destruct (constraint_items _ _ _) as [a| | |]; cbn [mbind outcome_bind]; try done.
    repeat case_decide; intros [= <-]. unfold constraint_ok. lia.
Qed.

Lemma Forall_replace_last {A} (P : A → Prop) (l : list A) x y :
  last l = Some x → Forall P l → P y → Forall P (removelast l ++ [y]) ∧
  length (removelast l ++ [y]) = length l.
Proof.
  intros [l' ->]%last_Some. rewrite removelast_last, !length_app, !Forall_app. simpl. naive_solver.
Qed.

Lemma wp_parse_constraint G n line c :
  cases_ok G n c → Forall constraint_item_shape (into_inner line) →
  wp (parse_constraint line) (λ _, cases_ok G n) may_fail c.
Proof.
  intros Hc Hl. unfold parse_constraint. wp_steps.
  destruct (build_constraint_orderly line Hl) as [Hor Hok]. apply wp_orderly; [done|]. intros constr Hk%Hok.
  wp_steps.
  - destruct Hc. split; simpl; try done. apply Forall_app. auto.
  - apply N.eqb_neq in Heqb. destruct (last_local G n c Hc) as (l & Hlast & Hlok); [lia|].
    eapply wp_lift_ret; [by rewrite Hlast|]. wp_steps.
    destruct (Forall_replace_last (Forall constraint_ok) _ l (l ++ [constr]) Hlast) as [Ha Hb];
      [apply Hc|apply Forall_app; auto|].
    destruct Hc. split; simpl; try done. congruence.
Qed.

(** ** Subtasks *)
Lemma from_str_orderly name content start len :
  (start + len < u64_modulus)%N → orderly (outcome_ok (from_str name content start len)).
Proof.
  intros Hlt. destruct (from_str_spec name content start len Hlt) as (_ & Hp & _).
  destruct (from_str _ _ _ _); simpl; [by left..| |]; destruct Hp as [|[]]; done.
Qed.

Lemma wp_parse_subtask G n line c :
  cases_ok G n c → (n + 1 < u32_modulus)%N → into_inner line ≠ [] → (pair_end line < u64_modulus)%N →
  wp (parse_subtask line) (λ _, cases_ok G (n + 1)) may_fail c.
Proof.
  intros Hc Hn Hline Hend. unfold parse_subtask. wp_steps.
  destruct (into_inner line) as [|p l]; [done|]. eapply wp_lift_ret; [by apply nth_str_Some|]. wp_steps.
  apply wp_orderly; [destruct (parse_f64 _); auto|]. intros score _. wp_steps.
  set (name := subtask_name_of <$> _). set (descr := pair_str <$> _). clearbody name descr.
  set (c1 := set_cg_subtask_name name _).
  assert (∀ m, (∀ x id, m !! x = Some id → (id < cg_subtask_id c + 1)%N) →
    wp (n0 ← lift (u32_add (cg_subtask_id c) 1);
        _ ← modify (set_cg_subtask_id n0);
        c ← get_st;
        id ← lift (u32_sub (cg_subtask_id c) 1);
        span ← lift (outcome_ok (from_str (cg_file_path c) (cg_file_content c) (pair_start line)
                                   (pair_end line - pair_start line)));
        variables ← lift (get_auto_variables c);
        validator ← lift (get_validator c (cg_default_validator c) variables);
        modify (set_cg_result (cg_result c ++
          [TI_Subtask (new_subtask id name descr score span false validator)])))
      (λ _, cases_ok G (n + 1)) may_fail (set_cg_st_name_to_id m c1)) as Hrest.
  { intros m Hm. destruct (co_count _ _ _ Hc) as [Hs Ht]. wp_steps.
    eapply wp_lift_ret; [apply u32_add_Ret; lia|]. wp_steps.
    eapply wp_lift_ret; [apply u32_sub_Ret; simpl; lia|]. wp_steps. apply wp_orderly.
    { apply from_str_orderly. unfold pair_end in *. lia. }
    intros span _. wp_steps. match goal with |- wp _ _ _ ?s => set (c2 := s) end.
    destruct (auto_variables c2) as (vars & Hvars & Hin & Hst); [simpl; lia|]. eapply wp_lift_ret; [done|]. wp_steps.
    destruct (get_validator_ok G c2 (cg_default_validator c2) vars) as [Hor Hv]; [apply Hc|done..|].
    apply wp_orderly; [done|]. intros v Hvok%Hv. wp_steps. destruct Hc. split; simpl; try done.
    - apply push_subtask; [done|simpl; lia|]. split; [by split|]. by intros k ?%elem_of_nil.
    - lia.
    - rewrite length_app. simpl. lia.
    - apply Forall_app. auto. }
  unfold register_name. wp_steps. destruct name as [x|].
  - wp_steps; [done|]. apply wp_bind_inv, (Hrest (<[x := cg_subtask_id c]> (cg_st_name_to_id c))).
    intros y id [[_ <-]|[_ Hy]]%lookup_insert_Some; [lia|]. apply (co_names _ _ _ Hc) in Hy. lia.
  - wp_steps. apply wp_bind_inv, (Hrest (cg_st_name_to_id c)). intros y id Hy%(co_names _ _ _ Hc). lia.
Qed.

Lemma wp_parse_st_dep G n line c :
  cases_ok G n c → wp (parse_st_dep line) (λ _, cases_ok G n) may_fail c.
Proof.
  intros Hc. apply wp_for_each_inv; [done|]. intros dep c' _ Hc'. unfold add_st_dep. wp_steps.
  destruct (last_subtask _) as [[before st]|]; [|done]. wp_steps. by destruct Hc'.
Qed.
Lemma wp_parse_copy G n line c :
  cases_ok G n c → (n + 1 < u32_modulus)%N →
  wp (parse_copy line) (λ _, cases_ok G (n + 1)) may_fail c.
Proof.
  intros Hc Hn. unfold parse_copy. wp_steps; [done|]. apply N.eqb_neq in Heqb.
  destruct (into_inner line) as [|p l]; [done|]. eapply wp_lift_ret; [done|]. wp_steps; [done|].
  apply wp_push_testcase; [done..|lia|done].
Qed.
Lemma wp_parse_run G n line c :
  cases_ok G n c → (n + 1 < u32_modulus)%N → length (into_inner line) = 2 →
  wp (parse_run line) (λ _, cases_ok G (n + 1)) may_fail c.
Proof.
  intros Hc Hn Hline. unfold parse_run. wp_steps; [done|].
  destruct (into_inner line) as [|p1 [|p2 l]]; try done.
  eapply wp_lift_ret; [by apply nth_str_Some|]. wp_steps.
  eapply wp_lift_ret; [by apply nth_str_Some|]. wp_steps; [done|]. by apply wp_parse_testcase.
Qed.

(** ** Lines *)
Lemma wp_parse_command G n line c :
  cases_ok G n c → (n + 1 < u32_modulus)%N → command_shape line → (pair_end line < u64_modulus)%N →
  wp (parse_command line) (λ _, cases_ok G (n + 1)) may_fail c.
Proof.
  intros Hc Hn Hline Hend. unfold parse_command, command_shape in *.
  assert (∀ (m : M CasesGen unit), wp m (λ _, cases_ok G n) may_fail c →
    wp m (λ _, cases_ok G (n + 1)) may_fail c) as Hmore.
  { intros m Hm. eapply wp_mono; [exact Hm| |done]. intros a c'. simpl. apply cases_ok_more. lia. }
  destruct (as_rule line); try done; apply wp_context.
  - by apply Hmore, wp_parse_gen.
  - by apply Hmore, wp_parse_val.
  - by apply Hmore, wp_parse_constraint.
  - by apply wp_parse_subtask.
  - by apply Hmore, wp_parse_st_dep.
  - by apply wp_parse_copy.
  - by apply wp_parse_run.
Qed.

Lemma wp_parse_line G n content line c :
  cases_ok G n c → (n + 1 < u32_modulus)%N → (text_len content < u64_modulus)%N →
  cases_line_shape line → within 0 content line →
  wp (parse_line line) (λ _, cases_ok G (n + 1)) may_fail c.
Proof.
  intros Hc Hn Hlen Hline [_ Hend]. unfold parse_line, cases_line_shape in *.
  assert (cases_ok G (n + 1) c) as Hc' by (eapply cases_ok_more; [|done]; lia).
  destruct (as_rule line); try done.
  destruct Hline as (item & rest & Hinner & Hitem & Hw). unfold first_inner. rewrite Hinner. wp_steps.
  eapply wp_lift_ret; [done|]. unfold item_shape in Hitem. destruct (as_rule item); try done.
  - destruct Hitem as (command & rest' & -> & Hcommand & Hw'). wp_steps. eapply wp_lift_ret; [done|].
    apply wp_parse_command; try done. unfold within, pair_end in *. lia.
  - wp_steps. by apply wp_parse_testcase.
Qed.

Lemma wp_parse_lines G n content l c :
  cases_ok G n c → (n + N.of_nat (length l) < u32_modulus)%N → (text_len content < u64_modulus)%N →
  Forall (λ x, cases_line_shape x ∧ within 0 content x) l →
  wp (for_each l parse_line) (λ _, cases_ok G (n + N.of_nat (length l))) may_fail c.
Proof.
  intros Hc Hn Hlen Hl. revert n c Hc Hn. induction Hl as [|x l [Hx Hw] _ IH]; intros n c Hc Hn.
  - apply wp_ret. eapply cases_ok_more; [|done]. lia.
  - cbn [for_each length] in *. apply wp_bind. eapply wp_mono; [apply (wp_parse_line G n content); try done; lia| |done].
    intros a c' Hc'. cbn beta in *. replace (n + N.of_nat (S (length l)))%N with (n + 1 + N.of_nat (length l))%N by lia.
    apply IH; [done|lia].
Qed.

(** ** The whole file *)
Record cases_done G c : Prop := {
  cd_description : description G (cg_result c);
  cd_machine : unbuilt G (cg_machine c);
  cd_constraints : Forall constraint_ok (cg_constraints c);
  cd_local_constraints : Forall (Forall constraint_ok) (cg_subtask_constraints c);
  cd_sources : ∀ tc, TI_Testcase tc ∈ cg_result c → testcase_fresh G tc
}.
Lemma wp_finish_cases G n c :
  cases_ok G n c → wp finish_cases (λ _, cases_done G) may_fail c.
Proof.
  intros Hc. unfold finish_cases. wp_steps.
  destruct (resolve_ok G (cg_st_name_to_id c) (cg_st_deps c) (cg_subtask_id c) (cg_testcase_id c) (cg_result c))
    as [(l & Hl & Hok)|[e He]].
  - apply (co_names _ _ _ Hc).
  - eapply entries_ok_bound; [|apply Hc]. lia.
  - eapply wp_lift_ret; [done|]. wp_steps. destruct Hc. split; simpl; try done; [by eexists _, _|].
    intros tc Htc. destruct Hok as [_ Hall]. rewrite Forall_forall in Hall. by apply Hall in Htc.
  - unfold wp, lift. by rewrite He.
Qed.

Lemma text_len_length (t : text) : (N.of_nat (length t) ≤ text_len t)%N.
Proof. induction t as [|x t IH]; simpl; [lia|]. pose proof (char_len_pos x). lia. Qed.

Lemma wp_CasesGen_new G path gen (s : EvaluationData TaskCallback)
    (P : CasesGen → EvaluationData TaskCallback → Prop) :
  unbuilt G s → outputs_ok G gen →
  (∀ t, read_to_string path = Some t → (text_len t + 2 < u32_modulus)%N) →
  (∀ c, cases_done G c → P c (cg_machine c)) →
  wp (CasesGen_new path gen) P may_fail s.
Proof.
  intros Hu Hgen Hlen HP. unfold wp, CasesGen_new.
  unfold task_dir_of. destruct (path_parent path ≫= path_parent) as [dir|]; cbn [mbind outcome_bind]; [|done].
  destruct (read_to_string path) as [content|]; cbn [mbind outcome_bind]; [|done].
  destruct (parse_cases_total content) as [[file Hf]|[e ->]]; cbn [mbind outcome_bind]; [|done].
  rewrite Hf. cbn [mbind outcome_bind]. destruct (parse_cases_inv _ _ Hf) as [Hlines Hcount].
  specialize (Hlen _ eq_refl). pose proof (text_len_length content) as Hlt.
  set (c0 := mkCasesGen _ _ _ _ _ _ _ _ _ _ _ _ _ _ _ _ _ _).
  assert (cases_ok G 0 c0) as Hc0.
  { by split. }
  assert (wp (_ ← for_each (into_inner file) parse_line; finish_cases) (λ _, cases_done G) may_fail c0) as Hw.
  { apply wp_bind. eapply wp_mono; [apply (wp_parse_lines G 0 content); [done| | |done]| |done].
    - unfold u32_modulus in *. lia.
    - unfold u32_modulus, u64_modulus in *. lia.
    - intros a c. apply wp_finish_cases. }
  unfold wp in Hw. destruct ((_ ← _; finish_cases) c0) as [[[]|e|m|] c]; cbn [mbind outcome_bind]; try done.
  by apply HP.
Qed.
End cases.
