(* ===== verification/GenGenCorrect.v ===== *)
(** * [gen/GEN] is parsed to a description

    The invariant of the loop of [parse_gen_gen] over the lines, as in [CasesGenCorrect]:
    the default subtask is there as long as there is no other. *)
From S2P Require Import Prelude Float64 RustOrd Paths StoreKey Dag Text Diagnostics Checks UiMessage Machine.
From S2P Require Import FloatText Build Languages SourceFile SourceFileCorrect Scoring Judge IoiDag IoiDagCorrect.
From S2P Require Import Peg GenGrammar GrammarShape TaskInput CasesGen GenGen TaskLoad TaskClosure TaskEntries.
From S2P Require Import TaskFiles CasesGenCorrect.

Section gen.
Context `{UuidV4} `{LocalFiles} `{Blake3} `{LanguageManager} `{BuildProfile} `{Glob} `{Unicode}.
Context (task_dir path : PathBuf) (content : text) (generator : UiSourceFile).
Context (get_validator : option SubtaskId → Outcome InputValidator) (get_output_gen : TestcaseId → OutputGenerator).
Context (G : gset Uuid) (Hgenerator : ui_ok G generator) (Hvalidator : validator_gives G get_validator).
Context (Houtput : outputs_ok G get_output_gen).
Implicit Types (g : GenGen).

Record gg_ok (n : N) g : Prop := {
  go_entries : entries_ok G 0 (gg_subtask_id g) (testcase_count g) (gg_entries g);
  go_count : (gg_subtask_id g ≤ n ∧ testcase_count g ≤ n)%N;
  go_names : ∀ name id, gg_st_name_to_id g !! name = Some id → (id < gg_subtask_id g)%N;
  go_default : match default_subtask g with
               | Some st => gg_subtask_id g = 0%N ∧ subtask_id (subtask_info st) = 0%N ∧
                            entry_ok G 0 (TI_Subtask st)
               | None => (0 < gg_subtask_id g)%N
               end
}.
Lemma gg_ok_more n n' g : (n ≤ n')%N → gg_ok n g → gg_ok n' g.
Proof. intros Hle []. split; [done|lia|done..]. Qed.

Lemma wp_gen_first p (P : Pair GenRule → GenGen → Prop) g :
  (∀ i, i ∈ into_inner p → P i g) → wp (gen_first p) P may_fail g.
Proof.
  intros HP. unfold gen_first. destruct (into_inner p) as [|i l]; [done|]. eapply wp_lift_ret; [done|].
  apply HP. by left.
Qed.

Lemma wp_next_subtask n g (P : unit → GenGen → Prop) :
  (gg_subtask_id g ≤ n)%N → (n + 1 < u32_modulus)%N →
  P tt (let '(mkGenGen t s l m d f) := g in mkGenGen t (s + 1) l m d f) → wp next_subtask P may_fail g.
Proof.
  intros Hle Hn HP. unfold wp, next_subtask. destruct g as [t s l m d f]. simpl in *.
  by rewrite u32_add_Ret by lia.
Qed.
Lemma wp_next_testcase n g (P : unit → GenGen → Prop) :
  (testcase_count g ≤ n)%N → (n + 1 < u32_modulus)%N →
  P tt (let '(mkGenGen t s l m d f) := g in mkGenGen (t + 1) s l m d f) → wp next_testcase P may_fail g.
Proof.
  intros Hle Hn HP. unfold wp, next_testcase. destruct g as [t s l m d f]. simpl in *.
  by rewrite u32_add_Ret by lia.
Qed.

(** ** Subtasks *)
Lemma wp_gen_subtask n start end_ line g :
  gg_ok n g → (n + 1 < u32_modulus)%N → (start ≤ end_ < u64_modulus)%N →
  wp (gen_subtask_line task_dir path content get_validator start end_ line) (λ _, gg_ok (n + 1)) may_fail g.
Proof.
  intros [He [Hs Ht] Hm Hd] Hn Hend. unfold gen_subtask_line. destruct g as [t s l m d f]. simpl in *.
  wp_steps. apply wp_gen_first. intros number _. wp_steps.
  apply wp_orderly; [destruct (parse_f64 _); [by left|by right; eexists]|]. intros score _. wp_steps.
  apply wp_orderly; [apply from_str_orderly; lia|]. intros span _. wp_steps.
  destruct (Hvalidator s) as (v & Hv & Hvok); [lia|]. eapply wp_lift_ret; [simpl; exact Hv|]. wp_steps.
  apply (wp_next_subtask n); [done..|]. simpl. split; simpl; [|lia| |lia].
  - apply push_subtask; [done|done|]. split; [by split|]. by intros k ?%elem_of_nil.
  - intros name id Hid%Hm. lia.
Qed.

Lemma last_entry_subtask l st :
  last l = Some (TI_Subtask st) → l = removelast l ++ [TI_Subtask st].
Proof. intros [l' ->]%last_Some. by rewrite removelast_last. Qed.
Lemma set_name_facts name st :
  subtask_id (subtask_info (set_name name st)) = subtask_id (subtask_info st) ∧
  (entry_ok G 0 (TI_Subtask st) → entry_ok G 0 (TI_Subtask (set_name name st))).
Proof. by destruct st as [[]]. Qed.
Lemma last_subtask_id n m l st :
  entries_ok G 0 n m (l ++ [TI_Subtask st]) → (subtask_id (subtask_info st) < n)%N.
Proof.
  intros [Hn _]. revert Hn. generalize 0%N at 1. generalize 0%N.
  induction l as [|[x|x] l IH]; intros j i; simpl; [lia|..]; naive_solver.
Qed.
Lemma cleanup_orderly name : orderly (cleanup_subtask_name name).
Proof.
  unfold cleanup_subtask_name. destruct (nfkc (trim name)) as [|ch l]; [by right; eexists|].
  destruct (_ =? _)%N; [by right; eexists|]. apply orderly_bind; [|by left].
  induction (ch :: l) as [|x k IH]; simpl; [by left|].
  repeat (case_match; try (by right; eexists)). done.
Qed.
Lemma wp_gen_name n line g :
  gg_ok n g → wp (gen_name_line line) (λ _, gg_ok n) may_fail g.
Proof.
  intros [He Hc Hm Hd]. unfold gen_name_line. wp_steps.
  destruct (last (gg_entries g)) as [[st|]|] eqn:Hlast; [|done..]. wp_steps.
  apply wp_gen_first. intros word _. wp_steps; [done|]. apply wp_orderly; [apply cleanup_orderly|].
  intros clean _. wp_steps; [done|]. destruct g as [t s l m d f]. simpl in *.
  apply last_entry_subtask in Hlast. rewrite Hlast in He.
  destruct (set_name_facts clean st) as [Hid Hok]. split; simpl; try done.
  - by eapply update_last.
  - intros x id [[_ <-]|[_ Hx]]%lookup_insert_Some; [by eapply last_subtask_id|by eapply Hm].
Qed.
Lemma wp_gen_dep n line g :
  gg_ok n g → wp (gen_dep_line line) (λ _, gg_ok n) may_fail g.
Proof.
  intros Hg. unfold gen_dep_line. wp_steps.
  destruct (last (gg_entries g)) as [[st|]|]; [|done..]. apply wp_for_each_inv; [done|].
  intros dep g' _ Hg'. apply wp_modify. destruct g', Hg'. by split.
Qed.

(** ** Testcases *)
Lemma wp_use_default n g (P : unit → GenGen → Prop) :
  gg_ok n g → (n + 1 < u32_modulus)%N →
  (∀ g', entries_ok G 0 (gg_subtask_id g') (testcase_count g') (gg_entries g') →
     (gg_subtask_id g' ≤ n + 1)%N → (testcase_count g' ≤ n)%N → (0 < gg_subtask_id g')%N →
     (∀ name id, gg_st_name_to_id g' !! name = Some id → (id < gg_subtask_id g')%N) →
     default_subtask g' = None → P tt g') →
  wp use_default P may_fail g.
Proof.
  intros [He [Hs Ht] Hm Hd] Hn HP. unfold use_default. wp_steps.
  destruct g as [t s l m d f]. simpl in *. destruct f as [st|]; wp_steps.
  - destruct Hd as (-> & Hid & Hok). apply (wp_next_subtask n); [done..|]. simpl. apply HP; simpl; try lia; try done.
    + by apply (push_subtask G 0 0).
    + intros name id Hx%Hm. lia.
  - apply HP; simpl; try done; lia.
Qed.

Lemma wp_gen_copy n line g :
  gg_ok n g → (n + 1 < u32_modulus)%N →
  wp (gen_copy_line task_dir get_output_gen line) (λ _, gg_ok (n + 1)) may_fail g.
Proof.
  intros Hg Hn. unfold gen_copy_line. apply wp_bind, (wp_use_default n); [done..|].
  intros [t s l m d f] He Hs Ht Hpos Hm Hd. simpl in *. wp_steps. apply wp_gen_first. intros what _. wp_steps.
  apply (wp_next_testcase n); [done..|]. simpl. split; simpl; [|lia|done|by rewrite Hd].
  apply push_testcase_ok; [done..|]. split; [done|apply Houtput].
Qed.
Lemma wp_gen_command n line g :
  gg_ok n g → (n + 1 < u32_modulus)%N →
  wp (gen_command_line generator get_output_gen line) (λ _, gg_ok (n + 1)) may_fail g.
Proof.
  intros Hg Hn. unfold gen_command_line. apply wp_bind, (wp_use_default n); [done..|].
  intros [t s l m d f] He Hs Ht Hpos Hm Hd. simpl in *. wp_steps. simpl.
  pose proof (Houtput t) as Ho. destruct (get_output_gen t) eqn:Hout; [|done|]; wp_steps;
    (apply (wp_next_testcase n); [done..|]); simpl; (split; simpl; [|lia|done|by rewrite Hd]);
    (apply push_testcase_ok; [done..|]); by split.
Qed.

(** ** Lines *)
Lemma wp_gen_line n line g :
  gg_ok n g → (n + 1 < u32_modulus)%N → (text_len content < u64_modulus)%N →
  gen_line_shape line → within 0 content line →
  wp (gen_parse_line task_dir path content generator get_validator get_output_gen line)
    (λ _, gg_ok (n + 1)) may_fail g.
Proof.
  intros Hg Hn Hlen Hline [_ Hend]. unfold gen_parse_line, gen_line_shape in *.
  assert (∀ (m : M GenGen unit), wp m (λ _, gg_ok n) may_fail g → wp m (λ _, gg_ok (n + 1)) may_fail g) as Hmore.
  { intros m Hm. eapply wp_mono; [exact Hm| |done]. intros a g'. simpl. apply gg_ok_more. lia. }
  destruct (as_rule line); try done; [|by apply Hmore].
  destruct Hline as (item & rest & Hinner & Hitem). wp_steps. unfold gen_first. rewrite Hinner.
  eapply wp_lift_ret; [done|]. unfold gen_item_shape in Hitem. destruct (as_rule item); try done.
  - by apply Hmore.
  - apply wp_gen_subtask; [done..|]. unfold pair_end in *. lia.
  - by apply Hmore, wp_gen_name.
  - by apply Hmore, wp_gen_dep.
  - by apply wp_gen_copy.
  - by apply wp_gen_command.
  - by apply Hmore.
Qed.

Lemma wp_gen_lines file n g :
  gg_ok n g → (n + N.of_nat (length (into_inner file)) < u32_modulus)%N → (text_len content < u64_modulus)%N →
  Forall (λ x, gen_line_shape x ∧ within 0 content x) (into_inner file) →
  wp (gen_lines task_dir path content generator get_validator get_output_gen file)
    (λ l _, description G l) may_fail g.
Proof.
  intros Hg Hn Hlen Hl. unfold gen_lines. revert n g Hg Hn.
  induction Hl as [|x l [Hx Hw] _ IH]; intros n g Hg Hn; cbn [for_each length] in *.
  - wp_steps.
    destruct (resolve_ok G (gg_st_name_to_id g) (gg_st_deps g) (gg_subtask_id g) (testcase_count g) (gg_entries g))
      as [(l & Hl & Hok)|[e He]].
    + apply (go_names _ _ Hg).
    + eapply entries_ok_bound; [|apply Hg]. lia.
    + eapply wp_lift_ret; [done|]. by eexists _, _.
    + unfold wp, lift. by rewrite He.
  - apply wp_bind, wp_bind. eapply wp_mono; [apply (wp_gen_line n); try done; lia| |done].
    intros a g' Hg'. apply wp_bind_inv. apply (IH (n + 1)%N); [done|lia].
Qed.
End gen.

Section parse.
Context `{UuidV4} `{LocalFiles} `{Blake3} `{LanguageManager} `{BuildProfile} `{Glob} `{Unicode}.

Lemma wp_find_generator G task_dir (s : EvaluationData TaskCallback)
    (P : UiSourceFile → EvaluationData TaskCallback → Prop) :
  globbed task_dir → unbuilt G s →
  (∀ x s', unbuilt G s' → ui_ok G x → P x s') → wp (find_generator task_dir) P may_fail s.
Proof.
  intros Hg Hu HP. unfold find_generator. apply wp_bind_assoc, wp_bind.
  apply (wp_find_one G); [done| |done|done| |].
  - unfold task_patterns, program_patterns. set_solver.
  - eexists. by apply (path_file_name_app task_dir [Normal "bin"; Normal "generator"]).
  - intros [x|] s' Hu' Hx; [|done]. apply wp_ret, HP; [done|]. by apply Hx.
Qed.

Lemma wp_parse_gen_gen G path task_dir get_validator get_output_gen (s : EvaluationData TaskCallback)
    (P : list TaskInputEntry → EvaluationData TaskCallback → Prop) :
  unbuilt G s → (path_parent path ≫= path_parent = Some task_dir → globbed task_dir) →
  validator_gives G get_validator → outputs_ok G get_output_gen →
  (∀ t, read_to_string path = Some t → (text_len t + 2 < u32_modulus)%N) →
  (∀ l s', unbuilt G s' → description G l → P l s') →
  path_parent path ≫= path_parent = Some task_dir →
  wp (parse_gen_gen path get_validator get_output_gen) P may_fail s.
Proof.
  intros Hu Hglob Hv Ho Hlen HP Hdir. unfold parse_gen_gen, task_dir_of. rewrite Hdir. wp_steps.
  eapply wp_lift_ret; [done|]. wp_steps.
  destruct (read_to_string path) as [content|]; [|done]. eapply wp_lift_ret; [done|]. wp_steps.
  destruct (parse_GEN_total content) as [[file Hf]|[e He]]; [|by unfold wp, lift; rewrite He].
  eapply wp_lift_ret; [exact Hf|]. wp_steps. destruct (parse_GEN_inv _ _ Hf) as [Hlines Hcount].
  specialize (Hlen _ eq_refl). pose proof (text_len_length content) as Hlt.
  destruct (Hv 0%N) as (v & Hv0 & Hvok); [done|]. eapply wp_lift_ret; [exact Hv0|]. wp_steps.
  apply (wp_find_generator G); [by apply Hglob|done|]. intros x s' Hu' Hx.
  set (g0 := mkGenGen _ _ _ _ _ _).
  assert (wp (gen_lines task_dir path content x get_validator get_output_gen file)
    (λ l _, description G l) may_fail g0) as Hw.
  { apply (wp_gen_lines _ _ _ _ _ _ G Hx Hv Ho file 0).
    - split; simpl; [by apply entries_ok_nil|lia|by intros|]. split_and!; try done.
      intros k Hk. by apply not_elem_of_nil in Hk.
    - unfold u32_modulus in *. lia.
    - unfold u32_modulus, u64_modulus in *. lia.
    - done. }
  unfold wp in Hw. unfold wp, lift. destruct (gen_lines _ _ _ _ _ _ _ g0) as [[l|e|m|] g]; simpl; try done.
  by apply HP.
Qed.
End parse.
