(* ===== verification/TaskLoadCorrect.v ===== *)
(** * A task that is loaded can be built

    [parse_task] neither panics nor runs forever, and the task it returns satisfies what
    the builder of the DAG asks ([buildable]): loading and building compose. *)
From S2P Require Import Prelude Float64 RustOrd Paths StoreKey Dag CheckDag Text Diagnostics Checks UiMessage.
From S2P Require Import Machine FloatText Build Languages SourceFile SourceFileCorrect Scoring Judge IoiDag IoiDagCorrect.
From S2P Require Import IoiTaskCorrect Peg GenGrammar GrammarShape TaskInput CasesGen GenGen TaskLoad.
From S2P Require Import TaskClosure TaskEntries TaskFiles CasesGenCorrect GenGenCorrect.

Section load.
Context `{UuidV4} `{LocalFiles} `{WritableFiles} `{Blake3} `{LanguageManager} `{BuildProfile} `{IterOrder}.
Context `{Glob} `{Unicode} `{Yaml}.
Implicit Types (s : EvaluationData TaskCallback) (G : gset Uuid) (l : Loader).

(** The directory of a task: the patterns are valid, the generator files are not larger
    than what [u32] counts, the files of [input/] end, the memory limits of the task
    file can be converted. *)
Record loadable (fuel : nat) (task_dir : PathBuf) : Prop := {
  ld_globbed : globbed task_dir;
  ld_name : is_Some (path_file_name task_dir);
  ld_small : ∀ name t, name ∈ ["GEN"; "cases.gen"] →
    read_to_string (path_join task_dir [Normal "gen"; Normal name]) = Some t → (text_len t + 2 < u32_modulus)%N;
  ld_inputs : path_exists (path_join task_dir [Normal "gen"; Normal "cases.gen"]) = false →
    path_exists (path_join task_dir [Normal "gen"; Normal "GEN"]) = false →
    ∃ n, inputs_end task_dir n ∧ N.to_nat n < fuel;
  ld_memory : ∀ yaml b, load_yaml task_dir = Ret (yaml, b) →
    memory_ok (yaml_memory_limit yaml) ∧ memory_ok (yaml_controller_memory_limit yaml)
}.

Lemma load_yaml_orderly task_dir : is_Some (path_file_name task_dir) → orderly (load_yaml task_dir).
Proof.
  intros [n Hn]. unfold load_yaml, read_yaml.
  destruct (path_exists _); [|destruct (path_exists _); [|by right; eexists]].
  - apply orderly_bind; [repeat case_match; (by left) || (by right; eexists)|]. intros o _.
    unfold into_task_yaml. rewrite Hn. by left.
  - apply orderly_bind; [repeat case_match; (by left) || (by right; eexists)|]. intros o _. by left.
Qed.

Lemma wp_in_program {A} (m : M (EvaluationData TaskCallback) A) (P : A → Loader → Prop) l :
  wp m (λ a s', P a (set_ld_eval s' l)) may_fail (ld_eval l) → wp (in_program m) P may_fail l.
Proof. intros Hm. apply wp_zoom. eapply wp_mono; [exact Hm|done|done]. Qed.

(** ** The type of the task *)
Lemma wp_detect_type G task_dir yaml m s (P : TaskType → EvaluationData TaskCallback → Prop) :
  globbed task_dir → unbuilt G s → graders_in G (Some m) → memory_ok (yaml_controller_memory_limit yaml) →
  (∀ tt s', unbuilt G s' → task_type_ok G tt → P tt s') →
  wp (detect_type task_dir yaml m) P may_fail s.
Proof.
  intros Hg Hu Hm Hmem HP. unfold detect_type. apply wp_bind, (wp_interactive_data G); [done..|].
  intros inter s1 Hu1 Hi. apply wp_bind, (wp_communication_data G); [done..|]. intros comm s2 Hu2 Hc.
  destruct inter as [x|], comm as [y|]; [done|apply wp_ret; auto..|].
  apply (wp_batch_data G); [done..|]. intros c s3 Hu3 Hck. by apply HP.
Qed.
Lemma wp_type_output G task_dir tt m s (P : (TestcaseId → OutputGenerator) → EvaluationData TaskCallback → Prop) :
  globbed task_dir → unbuilt G s → graders_in G (Some m) →
  (∀ f s', unbuilt G s' → outputs_ok G f → P f s') →
  wp (type_output_generator task_dir tt m) P may_fail s.
Proof.
  intros Hg Hu Hm HP. unfold type_output_generator. destruct tt; try (apply wp_ret; by apply HP).
  wp_steps. apply (wp_detect_output_generator G); [done..|]. intros o s' Hu' Ho. wp_steps.
  apply HP; [done|]. by apply output_generator_of_ok.
Qed.
Lemma wp_load_validator G task_dir s
    (P : (option SubtaskId → Outcome InputValidator) → EvaluationData TaskCallback → Prop) :
  globbed task_dir → unbuilt G s → (∀ f s', unbuilt G s' → validator_gives G f → P f s') →
  wp (load_validator task_dir) P may_fail s.
Proof.
  intros Hg Hu HP. unfold load_validator. wp_steps. apply (wp_detect_validator G); [done..|].
  intros o s' Hu' Ho. wp_steps. apply HP; [done|]. by apply validator_of_gives.
Qed.

(** ** Writing [gen/GEN] *)
Lemma constraint_lines_run cs : Forall constraint_ok cs → ∃ t, constraint_lines cs = Ret t.
Proof.
  induction 1 as [|c cs Hc _ [t IH]]; simpl; [by eexists|].
  destruct (constraint_runs c ∅ Hc) as [_ [x ->]]. cbn [mbind outcome_bind]. rewrite IH. by eexists.
Qed.
Lemma entries_lines_run G c es :
  Forall (Forall constraint_ok) (cg_subtask_constraints c) →
  (∀ tc, TI_Testcase tc ∈ es → testcase_fresh G tc) → ∃ t, entries_lines c es = Ret t.
Proof.
  intros Hc. induction es as [|e es IH]; intros He; simpl; [by eexists|].
  destruct IH as [rest ->]; [set_solver|].
  assert (∃ t, entry_lines c e = Ret t) as [t ->]; [|by eexists]. destruct e as [st|tc]; unfold entry_lines.
  - destruct (cg_subtask_constraints c !! _) as [cs|] eqn:Hcs; [|by eexists].
    rewrite Forall_forall in Hc. apply list_elem_of_lookup_2, Hc, constraint_lines_run in Hcs as [t ->]. by eexists.
  - destruct (He tc) as [Hin _]; [by left|]. destruct (input_generator tc) as [p|x args]; [by eexists|].
    destruct Hin as [[n Hn] _ _]. unfold sf_name. rewrite Hn. by eexists.
Qed.
Lemma gen_text_run G c : cases_done G c → ∃ t, gen_text c = Ret t.
Proof.
  intros [_ _ Hc Hl Hs]. unfold gen_text.
  destruct (entries_lines_run G c (cg_result c) Hl Hs) as [t Ht].
  destruct (cg_constraints c) as [|x cs]; cbn [mbind outcome_bind]; [rewrite Ht; by eexists|].
  destruct (constraint_lines_run _ Hc) as [u ->]. cbn [mbind outcome_bind]. rewrite Ht. by eexists.
Qed.
Lemma wp_write_gen_gen G c (w : Written) (P : unit → Written → Prop) :
  cases_done G c → (∀ w', P tt w') → wp (write_gen_gen c) P may_fail w.
Proof.
  intros Hc HP. unfold write_gen_gen. wp_steps. apply wp_orderly.
  { destruct (path_exists _); [|by left]. unfold is_tm_deletable.
    destruct (stat _) as [[]|]; (by left) || (by right; eexists). }
  intros keep _. wp_steps; [apply HP|]. destruct (gen_text_run G c Hc) as [t Ht].
  eapply wp_lift_ret; [exact Ht|]. unfold write_text. wp_steps; [apply HP|done].
Qed.

(** ** The inputs *)
Lemma gen_parent task_dir name :
  path_parent (path_join task_dir [Normal "gen"; Normal name]) ≫= path_parent = Some task_dir.
Proof.
  rewrite path_join_relative. change (Normal "gen" :: [Normal name]) with ([Normal "gen"] ++ [Normal name]).
  rewrite app_assoc, path_parent_app. simpl. apply path_parent_app.
Qed.
Lemma wp_load_inputs G fuel dry task_dir gen l (P : list TaskInputEntry → Loader → Prop) :
  loadable fuel task_dir → unbuilt G (ld_eval l) → outputs_ok G gen →
  (∀ es l', unbuilt G (ld_eval l') → description G es → P es l') →
  wp (load_inputs fuel dry task_dir gen) P may_fail l.
Proof.
  intros Hl Hu Hgen HP. unfold load_inputs.
  destruct (path_exists (path_join task_dir [Normal "gen"; Normal "cases.gen"])) eqn:Hcases;
    [|destruct (path_exists (path_join task_dir [Normal "gen"; Normal "GEN"])) eqn:Hgg].
  - apply wp_bind, wp_in_program. apply (wp_CasesGen_new G); [done|done| |].
    { intros t. apply (ld_small _ _ Hl). set_solver. }
    intros c Hc. destruct dry; wp_steps.
    + apply HP; [apply Hc|by apply cd_description].
    + apply (wp_write_gen_gen G); [done|]. intros w. wp_steps. apply HP; [apply Hc|by apply cd_description].
  - apply wp_bind, wp_in_program, (wp_load_validator G); [apply Hl|done|]. intros f s1 Hu1 Hf.
    apply wp_in_program. apply (wp_parse_gen_gen G _ task_dir); [done| |done|done| | |apply gen_parent].
    + intros _. apply Hl.
    + intros t. apply (ld_small _ _ Hl). set_solver.
    + intros es s2 Hu2 Hd. by apply HP.
  - apply wp_bind, wp_in_program, (wp_load_validator G); [apply Hl|done|]. intros f s1 Hu1 Hf.
    destruct (ld_inputs _ _ Hl Hcases Hgg) as (n & Hend & Hlt).
    destruct (static_inputs_run G task_dir n f gen fuel Hend Hf Hgen Hlt) as (es & Hes & Hd).
    eapply wp_lift_ret; [exact Hes|]. by apply HP.
Qed.

(** ** From the description to the task *)
Lemma closed_subtask G n m g subtasks k st' :
  grouped G n n m g → closure_of (flush_subtask g) subtasks → subtasks !! k = Some st' →
  ∃ st, flush_subtask g !! k = Some st ∧ st' = set_testcases (listed st') st ∧
    ∀ tc, tc ∈ listed st' → ∃ j st2, flush_subtask g !! j = Some st2 ∧ is_Some (subtasks !! j) ∧
      tc ∈ testcases_owned (subtask_info st2).
Proof.
  intros Hg Hc Hk. pose proof (Hc k) as Hck. rewrite Hk in Hck.
  destruct (flush_subtask g !! k) as [st|] eqn:Hst; [|done]. destruct Hck as (Heq & _ & Hin).
  exists st. split_and!; [done..|]. intros tc (j & _ & st2 & Hj & Htc)%Hin. exists j, st2. split_and!; [done| |].
  - specialize (Hc j). rewrite Hj in Hc. destruct (subtasks !! j); [by eexists|done].
  - destruct (gr_sub _ _ _ _ _ Hg _ _ Hj) as (_ & <- & _). done.
Qed.
Lemma set_testcases_facts k st :
  subtask_id (subtask_info (set_testcases k st)) = subtask_id (subtask_info st) ∧
  testcases_owned (subtask_info (set_testcases k st)) = testcases_owned (subtask_info st) ∧
  input_validator (set_testcases k st) = input_validator st.
Proof. by destruct st as [[]]. Qed.

Lemma loaded_buildable G n m g subtasks dir tt name title tl ml inf outf agg prec map :
  grouped G n n m g → closure_of (flush_subtask g) subtasks → task_type_ok G tt → memory_ok ml →
  buildable G (mkBuildTask dir tt name title tl ml inf outf subtasks (gr_testcases g) agg prec map).
Proof.
  intros Hg Hc Htt Hml.
  assert (∀ j st2 tc, flush_subtask g !! j = Some st2 → tc ∈ testcases_owned (subtask_info st2) →
    is_Some (gr_testcases g !! tc)) as Hthere.
  { intros j st2 tc Hj Htc. destruct (gr_sub _ _ _ _ _ Hg _ _ Hj) as (_ & Heq & _ & Hlt & _).
    apply (gr_tcs _ _ _ _ _ Hg), Hlt. by rewrite Heq. }
  split; simpl; try done.
  - intros k x. simpl. rewrite lookup_fmap, fmap_Some. intros (st' & Hk & ->).
    destruct (closed_subtask _ _ _ _ _ _ _ Hg Hc Hk) as (st & Hst & Heq & Hin).
    destruct (set_testcases_facts (listed st') st) as (Hid & _). rewrite <-Heq in Hid. split.
    + rewrite Hid. by apply (gr_sub _ _ _ _ _ Hg) in Hst as [? _].
    + intros tc (j & st2 & Hj & _ & Htc)%Hin. simpl. rewrite lookup_fmap, fmap_is_Some. by eapply Hthere.
  - intros k x Hx. destruct (gr_tc _ _ _ _ _ Hg _ _ Hx) as (Hid & Hi & Ho). done.
  - intros k st' tc Hk Htc. destruct (closed_subtask _ _ _ _ _ _ _ Hg Hc Hk) as (st & Hst & Heq & _).
    destruct (set_testcases_facts (listed st') st) as (_ & Hown & _). rewrite <-Heq in Hown.
    rewrite Hown in Htc. by eapply Hthere.
  - intros k st' tc Hk Htc. destruct (closed_subtask _ _ _ _ _ _ _ Hg Hc Hk) as (st & Hst & Heq & Hin).
    apply Hin in Htc as (j & st2 & Hj & [st3 Hst3] & Htc). exists j, st3. split; [done|].
    destruct (closed_subtask _ _ _ _ _ _ _ Hg Hc Hst3) as (st4 & Hst4 & Heq3 & _). simplify_eq.
    destruct (set_testcases_facts (listed st3) st2) as (_ & Hown & _). by rewrite Heq3, Hown.
  - intros k st' Hk. destruct (closed_subtask _ _ _ _ _ _ _ Hg Hc Hk) as (st & Hst & Heq & _).
    destruct (set_testcases_facts (listed st') st) as (_ & _ & Hv). rewrite Heq, Hv.
    by apply (gr_sub _ _ _ _ _ Hg) in Hst as (_ & _ & _ & _ & ? & _).
Qed.

(** ** How subtasks and testcases are arranged *)
Definition owns (t : BuildTask) (k : SubtaskId) (tc : TestcaseId) : Prop :=
  ∃ st, bt_subtasks t !! k = Some st ∧ tc ∈ testcases_owned (subtask_info st).
(** Subtasks and testcases are numbered from 0 without gaps, every testcase is owned by
    one subtask, and a subtask lists in order what its dependencies reach. *)
Record arranged (t : BuildTask) : Prop := {
  ar_subtasks : ∃ n, ∀ k, is_Some (bt_subtasks t !! k) ↔ (k < n)%N;
  ar_testcases : ∃ m, ∀ tc, is_Some (bt_testcases t !! tc) ↔ (tc < m)%N;
  ar_ids : ∀ k st, bt_subtasks t !! k = Some st → subtask_id (subtask_info st) = k;
  ar_edges : ∀ k j, edge (bt_subtasks t) k j → is_Some (bt_subtasks t !! j);
  ar_owner : ∀ tc, is_Some (bt_testcases t !! tc) ↔ ∃ k, owns t k tc;
  ar_unique : ∀ k j tc, owns t k tc → owns t j tc → k = j;
  ar_listed : ∀ k st, bt_subtasks t !! k = Some st → ascending (listed st) ∧
    ∀ tc, tc ∈ listed st ↔ ∃ j, rtc (edge (bt_subtasks t)) k j ∧ owns t j tc
}.

Section closed.
Context (G : gset Uuid) (n m : N) (g : Grouped) (subtasks : gmap SubtaskId BuildSubtask).
Context (Hg : grouped G n n m g) (Hc : closure_of (flush_subtask g) subtasks).

Lemma closed_keys k : is_Some (subtasks !! k) ↔ (k < n)%N.
Proof.
  rewrite <-(gr_keys _ _ _ _ _ Hg k). specialize (Hc k).
  destruct (flush_subtask g !! k), (subtasks !! k); try done; split; intros []; (done || by eexists).
Qed.
Lemma closed_edge k j : edge subtasks k j ↔ edge (flush_subtask g) k j.
Proof.
  unfold edge. specialize (Hc k).
  destruct (flush_subtask g !! k) as [st|], (subtasks !! k) as [st'|]; try done.
  destruct Hc as (Heq & _ & _). pose proof (depends_set (listed st') st) as Hd. rewrite <-Heq in Hd.
  split; intros (x & [= <-] & Hj); eexists; (split; [done|]); congruence.
Qed.
Lemma closed_owns t k tc :
  bt_subtasks t = subtasks → owns t k tc ↔ ∃ st, flush_subtask g !! k = Some st ∧ tc ∈ listed st.
Proof.
  intros Ht. unfold owns. rewrite Ht. split.
  - intros (st' & Hk & Htc). destruct (closed_subtask _ _ _ _ _ _ _ Hg Hc Hk) as (st & Hst & Heq & _).
    destruct (set_testcases_facts (listed st') st) as (_ & Hown & _). rewrite <-Heq in Hown.
    exists st. split; [done|]. destruct (gr_sub _ _ _ _ _ Hg _ _ Hst) as (_ & -> & _). congruence.
  - intros (st & Hst & Htc). assert (is_Some (subtasks !! k)) as [st' Hk].
    { apply closed_keys, (gr_keys _ _ _ _ _ Hg). by eexists. }
    exists st'. split; [done|].
    destruct (closed_subtask _ _ _ _ _ _ _ Hg Hc Hk) as (st2 & Hst2 & Heq & _). simplify_eq.
    destruct (set_testcases_facts (listed st') st) as (_ & Hown & _). rewrite <-Heq in Hown.
    rewrite Hown. by destruct (gr_sub _ _ _ _ _ Hg _ _ Hst) as (_ & <- & _).
Qed.
Lemma loaded_arranged dir tt name title tl ml inf outf agg prec map :
  arranged (mkBuildTask dir tt name title tl ml inf outf subtasks (gr_testcases g) agg prec map).
Proof.
  set (t := mkBuildTask _ _ _ _ _ _ _ _ _ _ _ _ _).
  assert (∀ k tc, owns t k tc ↔ ∃ st, flush_subtask g !! k = Some st ∧ tc ∈ listed st) as Ho
    by (intros k tc; by apply closed_owns).
  split; simpl.
  - exists n. apply closed_keys.
  - exists m. apply (gr_tcs _ _ _ _ _ Hg).
  - intros k st' Hk. destruct (closed_subtask _ _ _ _ _ _ _ Hg Hc Hk) as (st & Hst & Heq & _).
    destruct (set_testcases_facts (listed st') st) as (Hid & _). rewrite <-Heq in Hid.
    rewrite Hid. by apply (gr_sub _ _ _ _ _ Hg).
  - intros k j (st & Hst & Hj)%closed_edge. apply closed_keys. by eapply (gr_sub _ _ _ _ _ Hg).
  - intros tc. rewrite (gr_tcs _ _ _ _ _ Hg). setoid_rewrite Ho. split; [apply (gr_owner _ _ _ _ _ Hg)|].
    intros (k & st & Hst & Htc). by eapply (gr_sub _ _ _ _ _ Hg).
  - intros k j tc (st & Hst & Htc)%Ho (st2 & Hst2 & Htc2)%Ho. by eapply (gr_unique _ _ _ _ _ Hg).
  - intros k st' Hk. pose proof (Hc k) as Hck. rewrite Hk in Hck.
    destruct (flush_subtask g !! k); [|done]. destruct Hck as (_ & Hasc & Hin). split; [done|].
    intros tc. rewrite Hin. unfold reached, has. setoid_rewrite Ho.
    assert (∀ j, rtc (edge (flush_subtask g)) k j ↔ rtc (edge subtasks) k j) as Hrtc.
    { intros j. split; intros Hj; (eapply rtc_subrel; [|exact Hj]); intros x y; apply closed_edge. }
    setoid_rewrite Hrtc. done.
Qed.
End closed.

Lemma wp_write_yaml dry dir over yaml subtasks l (P : unit → Loader → Prop) :
  (∀ l', ld_eval l' = ld_eval l → P tt l') → wp (write_yaml dry dir over yaml subtasks) P may_fail l.
Proof.
  intros HP. unfold write_yaml. destruct over; [|wp_steps; [done|by apply HP]].
  wp_steps. apply wp_orderly.
  { destruct (path_exists _); [|by left]. unfold is_tm_deletable.
    destruct (stat _) as [[]|]; (by left) || (by right; eexists). }
  intros w _. destruct w; [|apply wp_ret; by apply HP]. destruct dry; [apply wp_ret; by apply HP|].
  wp_steps. unfold write_text. wp_steps; [by apply HP|done].
Qed.

Lemma wp_parse_task fuel dry task_dir l (P : BuildTask → Loader → Prop) :
  loadable fuel task_dir → unbuilt ∅ (ld_eval l) →
  (∀ G t l', unbuilt G (ld_eval l') → buildable G t → graders_ok G (bt_grader_map t) → arranged t →
     bt_path t = task_dir → P t l') →
  wp (parse_task fuel dry task_dir) P may_fail l.
Proof.
  intros Hl Hu HP. unfold parse_task. apply wp_bind, wp_orderly; [apply load_yaml_orderly, Hl|].
  intros [yaml over] Hyaml. destruct (ld_memory _ _ Hl _ _ Hyaml) as [Hmem Hcmem].
  destruct (list_files_found task_dir ["sol/grader.*"; "sol/stub.*"]) as (paths & Hpaths & _).
  { intros p Hp. apply (gl_valid _ (ld_globbed _ _ Hl)). unfold task_patterns, program_patterns. set_solver. }
  apply wp_bind. eapply wp_lift_ret; [exact Hpaths|].
  apply wp_bind, wp_in_program, (wp_graders ∅); [done|intros g k d [= <-]; simpl; by rewrite lookup_empty|].
  intros G map s1 Hu1 Hm. apply wp_bind, wp_in_program, (wp_detect_type G); [apply Hl|done..|].
  intros tt s2 Hu2 Htt. apply wp_bind, wp_in_program, (wp_type_output G); [apply Hl|done..|].
  intros gen s3 Hu3 Hgen. apply wp_bind, (wp_load_inputs G); [done..|]. intros es l4 Hu4 (n & m & Hn & Hes).
  destruct (group_entries_ok G n n m 0 0 es _ Hn Hes (grouped_start G n)) as (g & Hg & Hgr).
  apply wp_bind. eapply wp_lift_ret; [exact Hg|].
  destruct (close_testcases_spec _ _ (grouped_closable G n m g Hgr)) as (subtasks & Hclose & Hcl).
  apply wp_bind. eapply wp_lift_ret; [exact Hclose|].
  apply wp_bind, wp_write_yaml. intros l5 Hl5. apply wp_bind, wp_in_program. wp_steps.
  apply (wp_detect_validator G); [apply Hl|by rewrite Hl5|]. intros _ s6 Hu6 _. apply wp_ret.
  eapply HP; [exact Hu6| | |by eapply loaded_arranged|done].
  - eapply loaded_buildable; [done..|]. by destruct yaml.
  - intros k d Hd. by eapply Hm.
Qed.
End load.

(** ** Example: the task of the documentation *)
Definition ex_cases : string :=
": GEN default gen/generator.py N M seed
: GEN line gen/line.py N seed
: GEN hard gen/hard.py

: VAL default gen/validator.py
: VAL line gen/val_line.py $INPUT $ST_NUM # same as default

: CONSTRAINT 1 <= $N <= 1000
: CONSTRAINT 1 <= $M <= 1000000

: SUBTASK 0 examples
: COPY gen/example1.in
: COPY gen/example2.in

: SUBTASK 30 nodes-are-in-a-line
:STDEP examples
: GEN line
: VAL line
: CONSTRAINT $N <= 500
500   101
500   102

: SUBTASK 70
:STDEP nodes-are-in-a-line
1000   1000      201
1000   1000000   202
: RUN hard 1000 1000 95% 12.3 203
".
Definition ex_task_dir : PathBuf := path_of_string "/t".
Definition ex_dir_with (l : list (string * string)) : LocalFiles :=
  {| canonical := Some;
     nodes := list_to_map ((λ x, (path_join ex_task_dir (path_of_string x.1), ex_node x.2)) <$> (l ++
       [("gen/generator.py", ""); ("gen/line.py", ""); ("gen/hard.py", "");
        ("gen/validator.py", ""); ("gen/val_line.py", ""); ("gen/example1.in", ""); ("gen/example2.in", "");
        ("sol/solution.cpp", ""); ("task.yaml.orig", "name: t")])) |}.
Definition ex_task_files : LocalFiles := ex_dir_with [("gen/cases.gen", ex_cases)].
Definition ex_task_glob : Glob :=
  {| glob := λ p, Some (if decide (p = "/t/sol/solution.*" ∨ p = "/t/sol/*")
                        then [path_join ex_task_dir (path_of_string "sol/solution.cpp")]
                        else if decide (p = "/t/gen/generator.*")
                        then [path_join ex_task_dir (path_of_string "gen/generator.py")] else []) |}.
Definition ex_unicode : Unicode := {| nfkc := λ t, t; general_category := λ _, LowercaseLetter |}.
Definition ex_yaml : Yaml :=
  {| yaml_from := λ _, None;
     yaml_orig_from := λ _, Some (mkYAMLOrig "t" "A task" None 0 None f64_one 256 false "" "" None None None
       FifoIo None None None None None None);
     yaml_to := λ y, text_of ("title: " +:+ yaml_title y) |}.
Definition ex_writable : WritableFiles := {| can_write := λ _, true |}.
Definition ex_loader : Loader := mkLoader (EvaluationData_new ex_task_dir) [].
Definition ex_parse_dir (files : LocalFiles) : M Loader BuildTask :=
  @parse_task counting_uuids files ex_writable ex_platform ex_languages dev_profile forward_order
    ex_task_glob ex_unicode ex_yaml 1 false ex_task_dir.
Definition ex_parse_task : M Loader BuildTask := ex_parse_dir ex_task_files.

(** The subtasks with their testcases; the files written. *)
Example ex_parsed :
  match (ex_parse_task ex_loader).1 with
  | Ret t => (λ x : SubtaskId * BuildSubtask, (x.1, listed x.2, testcases_owned (subtask_info x.2))) <$>
      map_to_list (bt_subtasks t)
  | _ => []
  end = [(2, [0; 1; 2; 3; 4; 5; 6], [4; 5; 6]); (1, [0; 1; 2; 3], [2; 3]); (0, [0; 1], [0; 1])]%N.
Proof. vm_compute. reflexivity. Qed.
Example ex_written :
  (λ x : PathBuf * text, path_to_string x.1) <$> ld_written (ex_parse_task ex_loader).2
  = ["/t/gen/GEN"; "/t/task.yaml"].
Proof. vm_compute. reflexivity. Qed.

(** Where the code departs from its documentation.  A line of spaces of cases.gen is a
    testcase: *)
Lemma blank_line_testcase :
  line_kinds <$> parse_cases (lines [":SUBTASK 1"; "  "]) =
  Ret [(K_command, text_of ":SUBTASK 1"); (K_testcase, text_of "  ")].
Proof. vm_compute. reflexivity. Qed.
(** the path of a COPY keeps the spaces before a comment, and the file is not found: *)
Lemma copy_before_comment :
  (ex_parse_dir (ex_dir_with [("gen/cases.gen", ":SUBTASK 1
:COPY gen/example1.in # the first
")]) ex_loader).1 =
  Fail ["Failed to parse COPY command";
        "Cannot copy testcase from '/t/gen/example1.in ': file not found"].
Proof. vm_compute. reflexivity. Qed.
(** the first generator is the default one, whatever its name: *)
Lemma first_generator_default :
  match (ex_parse_dir (ex_dir_with [("gen/cases.gen", ":GEN line gen/line.py
:SUBTASK 1
1 2
")]) ex_loader).1 with
  | Ret t =>
      match option_map input_generator (bt_testcases t !! 0%N) with
      | Some (IG_Custom source args) => Some (path_to_string (sf_path (source_base source)), args)
      | _ => None
      end
  | _ => None
  end = Some ("/t/gen/line.py", ["1"; "2"]).
Proof. vm_compute. reflexivity. Qed.
(** the gen/GEN written for a score that is not an integer is not one of the grammar: *)
Lemma fractional_score_unreadable :
  (λ x : PathBuf * text, match parse_GEN x.2 with Ret _ => true | _ => false end) <$>
    head (ld_written (ex_parse_dir (ex_dir_with [("gen/cases.gen", ":SUBTASK 10.5
")]) ex_loader).2) = Some false.
Proof. vm_compute. reflexivity. Qed.
(** in gen/GEN a testcase before the first #ST gets a subtask of 100 points: *)
Lemma testcase_before_subtask :
  match (ex_parse_dir (ex_dir_with [("gen/GEN", "1 2
#ST: 10
3 4
")]) ex_loader).1 with
  | Ret t => (λ x : SubtaskId * BuildSubtask, (x.1, f64_display (max_score (subtask_info x.2)))) <$> map_to_list (bt_subtasks t)
  | _ => []
  end = [(1%N, text_of "10"); (0%N, text_of "100")].
Proof. vm_compute. reflexivity. Qed.
(** the dependency [*] is every subtask, the later ones and the subtask itself too: *)
Lemma star_depends_on_all :
  match (ex_parse_dir (ex_dir_with [("gen/GEN", "#ST: 10
#STDEP: *
#ST: 20
3 4
")]) ex_loader).1 with
  | Ret t => option_map (λ x, (depends_on x, listed x)) (bt_subtasks t !! 0%N)
  | _ => None
  end = Some ([0%N; 1%N], [0%N]).
Proof. vm_compute. reflexivity. Qed.

Lemma ex_loadable :
  @loadable ex_task_files dev_profile ex_task_glob ex_yaml 1 ex_task_dir.
Proof.
  split.
  - split; [intros; by eexists|]. intros p l x Hp.
    assert (@found ex_task_glob ex_task_dir p = Some []) as ->; [|by intros [= <-] ?%elem_of_nil].
    unfold program_patterns in Hp. rewrite !elem_of_cons, elem_of_nil in Hp.
    destruct_or! Hp; try done; subst p; vm_compute; reflexivity.
  - by eexists.
  - assert (forallb (λ name, match @read_to_string ex_task_files (path_join ex_task_dir [Normal "gen"; Normal name]) with
      | Some t => (text_len t + 2 <? u32_modulus)%N | None => true end) ["GEN"; "cases.gen"] = true) as Hall
      by (vm_compute; reflexivity).
    rewrite forallb_forall in Hall. intros name t Hname%list_elem_of_In Ht. specialize (Hall name Hname).
    rewrite Ht in Hall. by apply N.ltb_lt.
  - intros H. vm_compute in H. discriminate.
  - assert ((λ x, (yaml_memory_limit x.1, yaml_controller_memory_limit x.1)) <$> @load_yaml ex_task_files ex_yaml ex_task_dir
      = Ret (Some 256%N, Some 256%N)) as Hmem by (vm_compute; reflexivity).
    intros yaml b Hy. rewrite Hy in Hmem. simpl in Hmem. injection Hmem as H1 H2.
    rewrite H1, H2. split; intros x [= <-]; by left.
Qed.
Lemma ex_task_searchable t :
  bt_path t = ex_task_dir → @searchable ex_task_files ex_task_glob t ex_eval_config.
Proof.
  intros Ht. split; rewrite ?Ht.
  - intros f [->|[->|[]%elem_of_nil]%elem_of_cons]%elem_of_cons; by eexists.
  - intros _. by eexists.
  - intros p _ [[]%elem_of_nil|Hp]. vm_compute in Hp.
    apply list_elem_of_singleton in Hp as ->. by eexists.
  - apply fits_files. vm_compute. reflexivity.
Qed.

(** ** Properties *)
Section properties.
Context `{UuidV4} `{LocalFiles} `{WritableFiles} `{Blake3} `{LanguageManager} `{BuildProfile} `{UuidDisplay}.
Context `{IterOrder} `{Glob} `{Unicode} `{Yaml}.

(** C19: The task in the format of task.yaml that is loaded from a directory that is
    [loadable], whichever of its three descriptions of the inputs it has (cases.gen, gen/GEN,
    the files of input/; not the one in TOML): its subtasks and its
    testcases are numbered from 0 without gaps, every testcase is owned by exactly one
    subtask, every dependency is a subtask of the task, and each subtask lists, in
    order and once, exactly the testcases owned by the subtasks its dependencies reach
    (itself included). *)
Theorem task_loaded (fuel : nat) (dry_run : bool) (task_dir : PathBuf) (t : BuildTask) (l l' : Loader) :
  loadable fuel task_dir → unbuilt ∅ (ld_eval l) →
  parse_task fuel dry_run task_dir l = (Ret t, l') →
  arranged t ∧ bt_path t = task_dir.
Proof.
  intros Hl Hu Hrun. assert (wp (parse_task fuel dry_run task_dir) (λ t _, arranged t ∧ bt_path t = task_dir)
    may_fail l) as Hw by (by apply wp_parse_task).
  unfold wp in Hw. by rewrite Hrun in Hw.
Qed.
End properties.

Lemma task_loaded_witness :
  ∃ t l, ex_parse_task ex_loader = (Ret t, l) ∧ arranged t ∧ bt_path t = ex_task_dir.
Proof.
  assert (is_ret (ex_parse_task ex_loader).1 = true) as Hr by (vm_compute; reflexivity).
  destruct (ex_parse_task ex_loader) as [[t| | |] l] eqn:Hrun; try discriminate Hr.
  exists t, l. split; [reflexivity|].
  apply (@task_loaded counting_uuids ex_task_files ex_writable ex_platform ex_languages
    dev_profile forward_order ex_task_glob ex_unicode ex_yaml 1 false ex_task_dir t ex_loader l).
  - apply ex_loadable.
  - by split.
  - exact Hrun.
Defined.
