(* ===== verification/GenToml.v ===== *)
(** * The tasks described in TOML ([italian_toml/gen_toml.rs], [italian_toml/mod.rs])

    The samples, the groups and the subtasks of a description in TOML: their testcases are
    numbered in order, a subtask has the testcases of every group that it includes, and
    owns those that no earlier subtask has.  [parse_toml_task]: from a directory with a
    [task.toml] to the task; [IOITask_new] chooses between the two formats.  The [toml] crate, which reads the file into
    [GenConfig] (the defaults of its fields included), is a parameter. *)
From S2P Require Import Prelude Float64 RustOrd Paths StoreKey Dag Text Diagnostics Checks UiMessage Machine.
From S2P Require Import FloatText Build Languages SourceFile Judge IoiDag.
From S2P Require Import Peg GenGrammar TaskInput CasesGen GenGen TaskLoad.

(** ** The configuration *)

(** [toml::Value]; of the values that are no argument only the form they are shown in. *)
Inductive TomlValue : Type :=
  | TV_String (s : text)
  | TV_Integer (z : Z)
  | TV_Float (x : f64)
  | TV_Boolean (b : bool)
  | TV_Other (shown : text).
Abbreviation Variables := (gmap text TomlValue).

Inductive SamplesConfig : Type :=
  | Samples_Simple (num : N)
  | Samples_Detailed (group_name : option text) (num : N) (pattern : option text).
Inductive CommandLineArguments : Type :=
  | SpaceSeparated (args : text)
  | ArgumentList (args : list text).
Inductive TestCase : Type :=
  | TC_Args (args : CommandLineArguments)
  | TC_Detailed (generator : option string) (args : CommandLineArguments) (group_name : option text)
      (repeat : option N).
Record GroupConfig : Type := mkGroupConfig {
  gc_repeat : N;
  gc_generator : option string;
  include : list text;
  gc_copy : list PathBuf;
  gc_testcases : list TestCase;
  local_constants : Variables
}.
Record SubtaskConfig : Type := mkSubtaskConfig {
  sc_score : f64;
  sc_always_show_testcases : bool;
  sc_group : GroupConfig;
  sc_validator : option string;
  sc_validator_args : option CommandLineArguments
}.
(** An [IndexMap] is a list of pairs with distinct keys. *)
Record GenConfig : Type := mkGenConfig {
  gt_generator : string;
  gt_validator : string;
  gt_validator_args : CommandLineArguments;
  gt_samples : SamplesConfig;
  gt_group : list (text * GroupConfig);
  gt_subtask : list (text * SubtaskConfig);
  gt_constants : Variables
}.

(** What [serde] puts in the place of a field that is not there. *)
Definition default_generator : string := "generator".
Definition default_validator : string := "validator".
Definition default_repeat : N := 1%N.
Definition default_validator_args : CommandLineArguments :=
  ArgumentList [text_of "$FILENAME#"; text_of "$SUBTASK_NAME#"].

(** *** [SamplesConfig] *)
Definition samples_num (s : SamplesConfig) : N :=
  match s with Samples_Simple n => n | Samples_Detailed _ n _ => n end.
Definition samples_group_name (s : SamplesConfig) : text :=
  match s with Samples_Detailed (Some n) _ _ => n | _ => text_of "samples" end.
(** [str::replace] of a pattern that is not empty; the characters of a match are skipped. *)
Fixpoint replace_text (skip : nat) (p to s : text) : text :=
  match s with
  | [] => []
  | c :: r =>
      match skip with
      | S k => replace_text k p to r
      | O => match strip_prefix p s with
             | Some _ => to ++ replace_text (length p - 1) p to r
             | None => c :: replace_text 0 p to r
             end
      end
  end.
Definition samples_path (s : SamplesConfig) (task_name : string) (index : N) : PathBuf :=
  match s with
  | Samples_Detailed _ _ (Some pattern) =>
      path_of_string (string_of_text (replace_text 0 (text_of "$#") (text_of (pretty index)) pattern))
  | _ =>
      path_join (path_of_string "statement")
        (path_of_string (task_name +:+ ".input" +:+ pretty index +:+ ".txt"))
  end.

(** *** [CommandLineArguments] *)
Definition map_arg (variables : Variables) (arg : text) : Outcome string :=
  match strip_prefix (text_of "$") arg with
  | Some var =>
      match variables !! var with
      | None => Fail ["Unknown variable " +:+ string_of_text var]
      | Some (TV_String s) => Ret (string_of_text s)
      | Some (TV_Integer v) => Ret (pretty v)
      | Some (TV_Float v) => Ret (string_of_text (f64_display v))
      | Some (TV_Boolean v) => Ret (if v then "true" else "false")
      | Some (TV_Other shown) =>
          Fail ["Invalid value " +:+ string_of_text shown +:+ " for variable " +:+ string_of_text var]
      end
  | None => Ret (string_of_text arg)
  end.
Definition instantiate (a : CommandLineArguments) (variables : Variables) : Outcome (list string) :=
  match a with
  | SpaceSeparated x => try_map (map_arg variables) (split_whitespace x)
  | ArgumentList x => try_map (map_arg variables) x
  end.

(** *** [TestCase], [GroupConfig] *)
Definition tc_args (t : TestCase) : CommandLineArguments :=
  match t with TC_Args a => a | TC_Detailed _ a _ _ => a end.
Definition tc_generator (t : TestCase) : option string :=
  match t with TC_Args _ => None | TC_Detailed g _ _ _ => g end.
Definition tc_group_name (t : TestCase) : option text :=
  match t with TC_Args _ => None | TC_Detailed _ _ n _ => n end.
Definition consume_repeat (t : TestCase) : option N * TestCase :=
  match t with TC_Args a => (None, t) | TC_Detailed g a n r => (r, TC_Detailed g a n None) end.
Definition resolve_repeats (g : GroupConfig) : GroupConfig :=
  let repeats := gc_repeat g in
  mkGroupConfig 1 (gc_generator g) (include g) (gc_copy g)
    (x ← gc_testcases g; let '(n, x) := consume_repeat x in replicate (N.to_nat (default repeats n)) x)
    (local_constants g).

Example replace_ex :
  string_of_text (replace_text 0 (text_of "$#") (text_of "12") (text_of "a$#$$#b$")) = "a12$12b$".
Proof. reflexivity. Qed.
Example instantiate_ex :
  instantiate (SpaceSeparated (text_of "10 $N $x $")) (<[text_of "N" := TV_Integer 7]> (<[[] := TV_Boolean true]> ∅)) =
  Fail ["Unknown variable x"].
Proof. vm_compute. reflexivity. Qed.

(** ** The groups *)

(** What the loops gather: the testcases of each group, the groups that it includes, the
    testcases. *)
Record Gathering : Type := mkGathering {
  group_to_testcases : gmap text (list TestcaseId);
  group_inclusions : gmap text (list text);
  ga_testcases : gmap TestcaseId BuildTestcase
}.
(** [map.entry(k).or_default()], with elements added. *)
Definition push_all {A} (k : text) (l : list A) (m : gmap text (list A)) : gmap text (list A) :=
  <[k := default [] (m !! k) ++ l]> m.

(** [testcases.len() as u32]. *)
Definition next_id (g : Gathering) : TestcaseId := (N.of_nat (size (ga_testcases g)) mod u32_modulus)%N.
Definition put_testcase (id : TestcaseId) (i : InputGenerator) (o : OutputGenerator) (g : Gathering) : Gathering :=
  mkGathering (group_to_testcases g) (group_inclusions g)
    (<[id := TestcaseInfo_new id i o]> (ga_testcases g)).
Definition push_id (name : text) (id : TestcaseId) (g : Gathering) : Gathering :=
  mkGathering (push_all name [id] (group_to_testcases g)) (group_inclusions g) (ga_testcases g).
Definition add_static (o : OutputGenerator) (name : text) (g : Gathering) (path : PathBuf) : Gathering :=
  let id := next_id g in put_testcase id (IG_StaticFile path) o (push_id name id g).
(** The entries of a group. *)
Definition open_group (name : text) (incl : list text) (g : Gathering) : Gathering :=
  mkGathering (push_all name [] (group_to_testcases g)) (push_all name incl (group_inclusions g)) (ga_testcases g).

(** The samples: the first group. *)
Definition add_samples (s : SamplesConfig) (task_name : string) (o : OutputGenerator) : Gathering :=
  let name := samples_group_name s in
  foldl (add_static o name) (open_group name [] (mkGathering ∅ ∅ ∅))
    (samples_path s task_name <$> id_range (samples_num s)).

Section toml.
Context `{UuidV4} `{LocalFiles} `{Blake3} `{LanguageManager} `{BuildProfile} `{IterOrder} `{Glob} `{Unicode}.
Abbreviation Eval := (M (EvaluationData TaskCallback)).

(** [get_generator], [detect_validator]. *)
Definition get_generator (generator : string) (task_dir : PathBuf) : Eval UiSourceFile :=
  generators ← find_source_file task_dir ["gen/" +:+ generator +:+ ".*"] task_dir
    "Input file generator at" None WB_None;
  found ← at_most_one "generators" generators;
  match found with
  | Some x => mret x
  | None => bail ("No generator `" +:+ generator +:+ "` found")
  end.
Definition detect_toml_validator (task_dir : PathBuf) (validator : string) : Eval UiSourceFile :=
  validators ← find_source_file task_dir ["gen/" +:+ validator +:+ ".*"] task_dir
    "Input file validator at" None WB_None;
  found ← at_most_one "validators" validators;
  match found with
  | Some x => mret x
  | None => bail ("No validator `" +:+ validator +:+ "` found")
  end.

Definition process_testcase (task_dir : PathBuf) (o : OutputGenerator) (name : text) (generator : string)
    (testcase : TestCase) (a : Variables * Gathering) : Eval (Variables * Gathering) :=
  let '(constants, g) := a in
  let id := next_id g in
  let constants := <[text_of "#" := TV_Integer (Z.of_N id)]> constants in
  let g := push_id name id g in
  let g := match tc_group_name testcase with Some n => push_id n id g | None => g end in
  generator ← get_generator (default generator (tc_generator testcase)) task_dir;
  args ← lift (instantiate (tc_args testcase) constants);
  mret (constants, put_testcase id (IG_Custom generator args) o g).
Fixpoint process_testcases (task_dir : PathBuf) (o : OutputGenerator) (name : text) (generator : string)
    (i : nat) (l : list TestCase) (a : Variables * Gathering) : Eval (Variables * Gathering) :=
  match l with
  | [] => mret a
  | t :: l =>
      a ← with_context ("while processing testcase " +:+ pretty i +:+ " of group " +:+ string_of_text name)
            (process_testcase task_dir o name generator t a);
      process_testcases task_dir o name generator (S i) l a
  end.
Definition process_group (task_dir : PathBuf) (o : OutputGenerator) (generator : string) (constants : Variables)
    (name : text) (group : GroupConfig) (g : Gathering) : Eval Gathering :=
  let group := resolve_repeats group in
  let generator := default generator (gc_generator group) in
  let g := foldl (add_static o name) (open_group name (include group) g) (gc_copy group) in
  '(_, g) ← process_testcases task_dir o name generator 0 (gc_testcases group)
              (local_constants group ∪ constants, g);
  mret g.
Fixpoint process_groups (task_dir : PathBuf) (o : OutputGenerator) (generator : string) (constants : Variables)
    (l : list (text * GroupConfig)) (g : Gathering) : Eval Gathering :=
  match l with
  | [] => mret g
  | (name, group) :: l =>
      g ← process_group task_dir o generator constants name group g;
      process_groups task_dir o generator constants l g
  end.

(** ** The subtasks *)

(** The loop over the groups that a subtask includes. *)
Record Walk : Type := mkWalk {
  visited : gset text;
  walk_testcases : list TestcaseId;
  walk_owned : list TestcaseId;
  with_owner : gset TestcaseId;
  stack : list text
}.
Definition own_one (w : Walk) (tc : TestcaseId) : Walk :=
  if decide (tc ∈ with_owner w) then w
  else mkWalk (visited w) (walk_testcases w) (walk_owned w ++ [tc]) ({[tc]} ∪ with_owner w) (stack w).
Definition walk_step (g : Gathering) (subtask cur : text) (w : Walk) : Outcome Walk :=
  if decide (cur ∈ visited w) then Ret w
  else
    let w := mkWalk ({[cur]} ∪ visited w) (walk_testcases w) (walk_owned w) (with_owner w) (stack w) in
    if decide (cur = text_of "*") then
      Ret (mkWalk (visited w) (walk_testcases w) (walk_owned w) (with_owner w)
             (rev (keys_iter (group_to_testcases g)) ++ stack w))
    else
      tcs ← match group_to_testcases g !! cur with
            | Some tcs => Ret tcs
            | None => Fail ["unknown group " +:+ string_of_text cur +:+ " when computing testcases for subtask "
                              +:+ string_of_text subtask]
            end;
      let w := foldl own_one (mkWalk (visited w) (walk_testcases w ++ tcs) (walk_owned w) (with_owner w) (stack w)) tcs in
      deps ← unwrap "called `Option::unwrap()` on a `None` value" (group_inclusions g !! cur);
      Ret (mkWalk (visited w) (walk_testcases w) (walk_owned w) (with_owner w) (rev deps ++ stack w)).
Fixpoint walk (fuel : nat) (g : Gathering) (subtask : text) (w : Walk) : Outcome Walk :=
  match fuel with
  | O => OutOfFuel
  | S fuel =>
      match stack w with
      | [] => Ret w
      | cur :: rest =>
          w ← walk_step g subtask cur
                (mkWalk (visited w) (walk_testcases w) (walk_owned w) (with_owner w) rest);
          walk fuel g subtask w
      end
  end.
(** Every group is pushed once by the wildcard and once by each inclusion. *)
Definition walk_fuel (g : Gathering) : nat :=
  2 + size (group_to_testcases g) + sum_list (length ∘ snd <$> map_to_list (group_inclusions g)).

Definition toml_subtask (task_dir : PathBuf) (c : GenConfig) (g : Gathering) (id : SubtaskId) (name : text)
    (subtask : SubtaskConfig) (owned : gset TestcaseId) : Eval (BuildSubtask * gset TestcaseId) :=
  let validator_args := default (gt_validator_args c) (sc_validator_args subtask) in
  let constants := local_constants (sc_group subtask) ∪ gt_constants c in
  let constants := <[text_of "FILENAME#" := TV_String (text_of TM_VALIDATION_FILE_NAME)]>
                     (<[text_of "SUBTASK_NAME#" := TV_String name]> constants) in
  args ← with_context ("when instantiating command line for validator of subtask " +:+ string_of_text name)
           (lift (instantiate validator_args constants));
  validator ← with_context ("when finding validator of subtask " +:+ string_of_text name)
                (detect_toml_validator task_dir (default (gt_validator c) (sc_validator subtask)));
  w ← lift (walk (walk_fuel g) g name (mkWalk ∅ [] [] owned [name]));
  mret (mkBuildSubtask
          (mkSubtask id (Some name) (sc_score subtask) (sorted (walk_testcases w)) (sorted (walk_owned w))
             None false [] (sc_always_show_testcases subtask)) None (IV_Custom validator args),
        with_owner w).
Fixpoint toml_subtasks (task_dir : PathBuf) (c : GenConfig) (g : Gathering) (id : nat)
    (l : list (text * SubtaskConfig)) (a : gmap SubtaskId BuildSubtask * gset TestcaseId) :
    Eval (gmap SubtaskId BuildSubtask * gset TestcaseId) :=
  match l with
  | [] => mret a
  | (name, subtask) :: l =>
      let k := (N.of_nat id mod u32_modulus)%N in
      '(st, owned) ← toml_subtask task_dir c g k name subtask a.2;
      toml_subtasks task_dir c g (S id) l (<[k := st]> a.1, owned)
  end.

(** Some testcase is never used. *)
Fixpoint check_used (g : Gathering) (owned : gset TestcaseId) (l : list TestcaseId) : Outcome unit :=
  match l with
  | [] => Ret tt
  | tc :: l =>
      if decide (tc ∈ owned) then check_used g owned l
      else match filter (λ x, tc ∈ x.2) (map_iter (group_to_testcases g)) with
           | (name, _) :: _ =>
               Fail ["Testcase " +:+ pretty tc +:+ ", from group " +:+ string_of_text name +:+ ", is never used."]
           | [] => check_used g owned l
           end
  end.

(** ** [parse] *)

(** [collect] into an [IndexMap]: a key that is there keeps its place and gets the value. *)
Fixpoint index_insert {A} (k : text) (x : A) (l : list (text * A)) : list (text * A) :=
  match l with
  | [] => [(k, x)]
  | (k', y) :: l => if decide (k = k') then (k, x) :: l else (k', y) :: index_insert k x l
  end.
Fixpoint clean_names {A} (acc l : list (text * A)) : Outcome (list (text * A)) :=
  match l with
  | [] => Ret acc
  | (name, x) :: l => name ← cleanup_subtask_name name; clean_names (index_insert name x acc) l
  end.

(** [italian_toml::detect_output_generator]. *)
Definition detect_toml_solution (task_dir : PathBuf) (grader_map : GraderMap) : Eval OutputGenerator :=
  official_solutions ← find_source_file task_dir ["sol/solution.*"] task_dir "Official solution at"
    (Some grader_map) (WB_Path (path_of_string "bin/official_solution"));
  found ← at_most_one "official solutions" official_solutions;
  match found with
  | Some x => mret (OG_Custom x [])
  | None => bail "No official solution found"
  end.

Definition gather (task_dir : PathBuf) (name : string) (o : OutputGenerator) (c : GenConfig) : Eval Gathering :=
  g ← process_groups task_dir o (gt_generator c) (gt_constants c) (gt_group c) (add_samples (gt_samples c) name o);
  process_groups task_dir o (gt_generator c) (gt_constants c) ((λ x, (x.1, sc_group x.2)) <$> gt_subtask c) g.
Definition clean_config (c : GenConfig) : Outcome GenConfig :=
  group ← clean_names [] (gt_group c);
  subtask ← clean_names [] (gt_subtask c);
  Ret (mkGenConfig (gt_generator c) (gt_validator c) (gt_validator_args c) (gt_samples c) group subtask
         (gt_constants c)).
Definition toml_output_generator (task_dir : PathBuf) (tt : TaskType) (grader_map : GraderMap) :
    Eval OutputGenerator :=
  match tt with
  | TT_Batch _ => detect_toml_solution task_dir grader_map
  | _ => mret OG_NotAvailable
  end.
Definition parse_gen_toml (task_dir : PathBuf) (name : string) (tt : TaskType) (grader_map : GraderMap)
    (c : GenConfig) : Eval (gmap SubtaskId BuildSubtask * gmap TestcaseId BuildTestcase) :=
  c ← lift (clean_config c);
  o ← toml_output_generator task_dir tt grader_map;
  g ← gather task_dir name o c;
  '(subtasks, owned) ← toml_subtasks task_dir c g 0 (gt_subtask c) (∅, ∅);
  _ ← lift (check_used g owned (keys_iter (ga_testcases g)));
  mret (subtasks, ga_testcases g).
End toml.

(** ** Loading a task described in TOML ([italian_toml/mod.rs]), and either format *)

(** The [toml] crate on the two files. *)
Class Toml : Type := {
  task_toml_from : text → option TaskYAMLOrig;
  gen_toml_from : text → option GenConfig
}.

Section load.
Context `{UuidV4} `{LocalFiles} `{WritableFiles} `{Blake3} `{LanguageManager} `{BuildProfile} `{IterOrder}.
Context `{Glob} `{Unicode} `{Yaml} `{Toml}.
Abbreviation Load := (M Loader).
Abbreviation Eval := (M (EvaluationData TaskCallback)).

Definition read_toml {A} (parse : text → option A) (open_error : string) (path : PathBuf) : Outcome A :=
  match read_to_string path with
  | Some t => match parse t with Some y => Ret y | None => Fail ["Failed to deserialize task.toml"] end
  | None => Fail [open_error]
  end.
Definition load_toml (task_dir : PathBuf) : Outcome TaskYAML :=
  let path := path_join task_dir [Normal "task.toml"] in
  if negb (path_exists path) then Fail ["No task.toml found in " +:+ path_to_string task_dir]
  else
    orig ← read_toml task_toml_from ("Cannot open task.toml from " +:+ path_to_string path) path;
    into_task_yaml orig task_dir.

(** The parts of the task; unlike in the other format each has one pattern, and the
    official solution of a batch task must be there. *)
Definition toml_batch_data (task_dir : PathBuf) (grader_map : GraderMap) : Eval TaskType :=
  checkers ← find_source_file task_dir ["check/checker.*"] task_dir "Checker at" None WB_WithoutExtension;
  checker ← at_most_one "checkers" checkers;
  _ ← with_context "Failed to detect output generator" (detect_toml_solution task_dir grader_map);
  mret (TT_Batch match checker with
                 | Some c => Checker_Custom (standalone c)
                 | None => Checker_WhiteDiff
                 end).
Definition toml_interactive_data (task_dir : PathBuf) (yaml : TaskYAML) : Eval (option TaskType) :=
  controllers ← find_source_file task_dir ["check/controller.*"] task_dir "Interactive controller at" None
    WB_WithoutExtension;
  controller ← at_most_one "controllers" controllers;
  mret (match controller with
        | None => None
        | Some c => Some (TT_Interactive (mkInteractive (standalone c)
            (yaml_controller_time_limit yaml) (yaml_controller_wall_time_limit yaml)
            (yaml_controller_memory_limit yaml) (yaml_controller_process_limit yaml)
            (yaml_interactive_concurrent yaml)))
        end).
Definition toml_communication_data (task_dir : PathBuf) (yaml : TaskYAML) : Eval (option TaskType) :=
  managers ← find_source_file task_dir ["check/manager.*"] task_dir "Communication manager at" None
    WB_WithoutExtension;
  manager ← at_most_one "managers" managers;
  mret (match manager with
        | None => None
        | Some m => Some (TT_Communication (mkCommunication (standalone m)
            (default 1%N (yaml_num_processes yaml)) (yaml_user_io yaml)))
        end).
Definition toml_type (task_dir : PathBuf) (yaml : TaskYAML) (map : GraderMap) : Eval TaskType :=
  interactive ← toml_interactive_data task_dir yaml;
  communication ← toml_communication_data task_dir yaml;
  match interactive, communication with
  | Some _, Some _ =>
      bail "A task cannot be both interactive (has a controller) and communication (has a manager)."
  | Some inter, None => mret inter
  | None, Some comm => mret comm
  | None, None => toml_batch_data task_dir map
  end.

(** [gen_toml::parse]. *)
Definition load_gen_toml (task_dir : PathBuf) (name : string) (tt : TaskType) (map : GraderMap) :
    Eval (gmap SubtaskId BuildSubtask * gmap TestcaseId BuildTestcase) :=
  c ← lift (read_toml gen_toml_from "Failed to open gen/gen.toml"
              (path_join task_dir [Normal "gen"; Normal "gen.toml"]));
  parse_gen_toml task_dir name tt map c.

(** [task.yaml] is written whatever it holds. *)
Definition dict_parameters (x : SubtaskId * BuildSubtask) : ScoreTypeGroupParameters :=
  let st := subtask_info x.2 in
  GP_Dict (max_score st) ((λ tc, pad_left 3 (pretty tc)) <$> subtask_testcases st) (always_show_testcases st).
Definition write_toml_yaml (dry_run : bool) (task_dir : PathBuf) (yaml : TaskYAML)
    (subtasks : gmap SubtaskId BuildSubtask) : Load unit :=
  if dry_run then mret tt
  else
    let path := path_join task_dir [Normal "task.yaml"] in
    let yaml := set_score_parameters (Some (dict_parameters <$> sorted_subtasks subtasks))
                  (Some (count_inputs subtasks)) yaml in
    zoom ld_written set_ld_written
      (write_text ("Cannot open task.yaml from " +:+ path_to_string path) path (yaml_header ++ yaml_to yaml)).

Definition parse_toml_task (dry_run : bool) (task_dir : PathBuf) : Load BuildTask :=
  yaml ← lift (load_toml task_dir);
  graders ← lift (list_files task_dir ["sol/grader.*"; "sol/stub.*"]);
  map ← in_program (GraderMap_new graders);
  tt ← in_program (toml_type task_dir yaml map);
  '(subtasks, testcases) ← in_program (load_gen_toml task_dir (yaml_name yaml) tt map);
  let aggregator := default Min (score_type yaml) in
  let yaml := set_score_type (Some aggregator) yaml in
  _ ← write_toml_yaml dry_run task_dir yaml subtasks;
  mret (mkBuildTask task_dir tt (yaml_name yaml) (yaml_title yaml) (yaml_time_limit yaml)
          (yaml_memory_limit yaml) (map_file (yaml_infile yaml)) (map_file (yaml_outfile yaml))
          subtasks testcases aggregator (yaml_score_precision yaml) map).

(** [IOITask::new]. *)
Definition IOITask_new (fuel : nat) (dry_run : bool) (task_dir : PathBuf) : Load BuildTask :=
  if path_exists (path_join task_dir [Normal "task.toml"]) then parse_toml_task dry_run task_dir
  else parse_task fuel dry_run task_dir.
End load.

(** ** Example *)
Definition ex_group (repeat : N) (incl : list string) (copy : list string) (tcs : list TestCase) : GroupConfig :=
  mkGroupConfig repeat None (text_of <$> incl) (path_of_string <$> copy) tcs ∅.
Definition ex_args (s : string) : TestCase := TC_Args (SpaceSeparated (text_of s)).
Definition ex_subtask (score : Z) (g : GroupConfig) : SubtaskConfig :=
  mkSubtaskConfig (f64_of_Z score) false g None None.
Definition ex_gen_config : GenConfig :=
  mkGenConfig default_generator default_validator default_validator_args (Samples_Simple 2)
    [(text_of "small", ex_group 2 [] [] [ex_args "10 $#"]);
     (text_of "corner", ex_group 1 [] ["gen/corner.txt"] [])]
    [(text_of "examples", ex_subtask 0 (ex_group 1 ["samples"] [] []));
     (text_of "easy", ex_subtask 40 (ex_group 1 ["small"; "corner"] [] [ex_args "20 1"]));
     (text_of "full", ex_subtask 60 (ex_group 1 ["*"] []
       [TC_Detailed None (SpaceSeparated (text_of "99 $N")) (Some (text_of "small")) (Some 1%N)]))]
    (<[text_of "N" := TV_Integer 5]> ∅).
