(* ===== verification/TomlWalk.v ===== *)
(** * The testcases of a subtask in TOML

    The loop of [gen_toml.rs] over the groups that a subtask includes ends, visits exactly
    the groups that can be reached, whatever the order of the map, and gives the subtask
    the testcases that no earlier subtask owns. *)
From S2P Require Import Prelude Float64 RustOrd Paths StoreKey Dag Text Diagnostics Checks UiMessage Machine.
From S2P Require Import Build Languages SourceFile Judge IoiDag.
From S2P Require Import Peg GenGrammar TaskInput CasesGen GenGen TaskLoad TaskClosure GenToml.

(** ** The reference: reachability *)
Definition wildcard : text := text_of "*".
Definition reaches (g : Gathering) (a b : text) : Prop :=
  if decide (a = wildcard) then is_Some (group_to_testcases g !! b)
  else ∃ l, group_inclusions g !! a = Some l ∧ b ∈ l.
(** A testcase of a group; the wildcard is no group. *)
Definition member (g : Gathering) (a : text) (tc : TestcaseId) : Prop :=
  a ≠ wildcard ∧ ∃ l, group_to_testcases g !! a = Some l ∧ tc ∈ l.
Definition in_subtask (g : Gathering) (subtask : text) (tc : TestcaseId) : Prop :=
  ∃ a, rtc (reaches g) subtask a ∧ member g a tc.
(** Every group has its inclusions. *)
Definition declared (g : Gathering) : Prop :=
  ∀ a, is_Some (group_to_testcases g !! a) → is_Some (group_inclusions g !! a).

#[local] Opaque wildcard.

(** ** The measure *)
Fixpoint left_in (v : gset text) (l : list (text * list text)) : nat :=
  match l with
  | [] => 0
  | (a, d) :: l => (if decide (a ∈ v) then 0 else length d) + left_in v l
  end.
Lemma left_in_mono v x l : left_in ({[x]} ∪ v) l ≤ left_in v l.
Proof.
  induction l as [|[k d] l IH]; cbn [left_in]; [done|].
  destruct (decide (k ∈ {[x]} ∪ v)) as [Hk|Hk], (decide (k ∈ v)) as [Hv|Hv]; try lia. set_solver.
Qed.
Lemma left_in_drop v x d l : (x, d) ∈ l → x ∉ v → length d + left_in ({[x]} ∪ v) l ≤ left_in v l.
Proof.
  intros Hin Hx. induction l as [|[k e] l IH]; [by apply not_elem_of_nil in Hin|].
  pose proof (left_in_mono v x l) as Hm. cbn [left_in].
  apply elem_of_cons in Hin as [[= <- <-]|Hin].
  - rewrite decide_True by set_solver. rewrite decide_False by done. lia.
  - specialize (IH Hin). destruct (decide (k ∈ {[x]} ∪ v)), (decide (k ∈ v)); try lia. set_solver.
Qed.
Lemma left_in_empty l : left_in ∅ l = sum_list (length ∘ snd <$> l).
Proof. induction l as [|[k d] l IH]; simpl; [done|]. by rewrite IH. Qed.

Section walk.
Context `{IterOrder} (g : Gathering) (Hg : declared g).
Implicit Types (w : Walk).

Definition pending (v : gset text) : nat :=
  left_in v (map_to_list (group_inclusions g)) + if decide (wildcard ∈ v) then 0 else size (group_to_testcases g).
Lemma pending_group v x d :
  group_inclusions g !! x = Some d → x ≠ wildcard → x ∉ v → length d + pending ({[x]} ∪ v) ≤ pending v.
Proof.
  intros Hd Hw Hx. unfold pending. apply elem_of_map_to_list in Hd.
  pose proof (left_in_drop v x d _ Hd Hx).
  destruct (decide (wildcard ∈ {[x]} ∪ v)), (decide (wildcard ∈ v)); try lia; set_solver.
Qed.
Lemma pending_wildcard v :
  wildcard ∉ v → size (group_to_testcases g) + pending ({[wildcard]} ∪ v) ≤ pending v.
Proof.
  intros Hv. unfold pending. pose proof (left_in_mono v wildcard (map_to_list (group_inclusions g))).
  rewrite (decide_True (P := wildcard ∈ _)) by set_solver. rewrite (decide_False (P := wildcard ∈ v)) by done. lia.
Qed.

(** ** The invariant *)
Context (start : text) (owners : gset TestcaseId).
Definition known (a : text) : Prop := a = wildcard ∨ is_Some (group_to_testcases g !! a).
Record walking w : Prop := {
  wk_visited : ∀ a, a ∈ visited w → rtc (reaches g) start a;
  wk_stack : ∀ a, a ∈ stack w → rtc (reaches g) start a;
  wk_next : ∀ a b, a ∈ visited w → reaches g a b → b ∈ visited w ∨ b ∈ stack w;
  wk_start : start ∈ visited w ∨ start ∈ stack w;
  wk_known : ∀ a, a ∈ visited w → known a;
  wk_testcases : ∀ tc, tc ∈ walk_testcases w ↔ ∃ a, a ∈ visited w ∧ member g a tc;
  wk_owned : ∀ tc, tc ∈ walk_owned w ↔ tc ∈ walk_testcases w ∧ tc ∉ owners;
  wk_once : NoDup (walk_owned w);
  wk_owners : ∀ tc, tc ∈ with_owner w ↔ tc ∈ owners ∨ tc ∈ walk_testcases w
}.

(** The testcases of a group are taken. *)
Lemma own_all w tcs :
  let w' := foldl own_one w tcs in
  visited w' = visited w ∧ stack w' = stack w ∧ walk_testcases w' = walk_testcases w ∧
  (∀ tc, tc ∈ with_owner w' ↔ tc ∈ with_owner w ∨ tc ∈ tcs) ∧
  (∀ tc, tc ∈ walk_owned w' ↔ tc ∈ walk_owned w ∨ tc ∈ tcs ∧ tc ∉ with_owner w) ∧
  (NoDup (walk_owned w) → (∀ tc, tc ∈ walk_owned w → tc ∈ with_owner w) → NoDup (walk_owned w')).
Proof.
  revert w. induction tcs as [|x tcs IH]; intros w; simpl.
  { split_and!; try done; set_solver. }
  destruct (IH (own_one w x)) as (-> & -> & -> & Ho & Hw & Hn).
  unfold own_one in *. destruct (decide (x ∈ with_owner w)) as [Hx|Hx]; simpl in *.
  - split_and!; try done; intros tc; rewrite ?Ho, ?Hw, elem_of_cons;
      (destruct (decide (tc = x)) as [->|]; tauto).
  - split_and!; try done.
    + intros tc. rewrite Ho, elem_of_union, elem_of_singleton, elem_of_cons. tauto.
    + intros tc. rewrite Hw, elem_of_app, list_elem_of_singleton, elem_of_union, elem_of_singleton, elem_of_cons.
      destruct (decide (tc = x)) as [->|]; tauto.
    + intros Hnd Hin. apply Hn; [|set_solver]. apply NoDup_app. split_and!; [done| |apply NoDup_singleton].
      intros tc Htc ->%list_elem_of_singleton. auto.
Qed.

Definition measure w : nat := length (stack w) + pending (visited w).
Definition with_stack w (l : list text) : Walk :=
  mkWalk (visited w) (walk_testcases w) (walk_owned w) (with_owner w) l.

(** A name that was visited is dropped. *)
Lemma walking_drop w cur rest :
  walking w → stack w = cur :: rest → cur ∈ visited w → walking (with_stack w rest).
Proof.
  intros [Hv Hs Hn Hst Hk Ht Ho Hd How] Hstack Hc. rewrite Hstack in *. split; simpl; try done.
  - intros a Ha. apply Hs. by right.
  - intros a b Ha Hab. destruct (Hn a b Ha Hab) as [|[->|]%elem_of_cons]; auto.
  - destruct Hst as [|[->|]%elem_of_cons]; auto.
Qed.
(** A name is visited: what it includes is on the stack, its testcases are taken. *)
Lemma walking_visit w w' cur rest new :
  walking w → stack w = cur :: rest → known cur → (∀ b, reaches g cur b ↔ b ∈ new) →
  visited w' = {[cur]} ∪ visited w → stack w' = rev new ++ rest →
  (∀ tc, tc ∈ walk_testcases w' ↔ tc ∈ walk_testcases w ∨ member g cur tc) →
  (∀ tc, tc ∈ walk_owned w' ↔ tc ∈ walk_owned w ∨ member g cur tc ∧ tc ∉ with_owner w) →
  NoDup (walk_owned w') → (∀ tc, tc ∈ with_owner w' ↔ tc ∈ with_owner w ∨ member g cur tc) →
  walking w'.
Proof.
  intros [Hv Hs Hn Hst Hk Ht Ho Hd How] Hstack Hknown Hnew Hv' Hs' Ht' Ho' Hd' How'. rewrite Hstack in *.
  assert (rtc (reaches g) start cur) as Hcur by (apply Hs; by left).
  assert (∀ b, b ∈ rev new ↔ b ∈ new) as Hrev by (intros b; by rewrite !list_elem_of_In, <-in_rev).
  split; rewrite ?Hv', ?Hs'.
  - intros a [->%elem_of_singleton|Ha]%elem_of_union; auto.
  - intros a [Ha%Hrev%Hnew|Ha]%elem_of_app; [|apply Hs; by right]. eapply rtc_r; eauto.
  - intros a b. rewrite !elem_of_union, elem_of_app, Hrev, <-Hnew, !elem_of_singleton.
    intros [->|Ha] Hab; [by auto|]. destruct (Hn a b Ha Hab) as [|[|]%elem_of_cons]; tauto.
  - rewrite elem_of_union, elem_of_app, elem_of_singleton. destruct Hst as [|[|]%elem_of_cons]; tauto.
  - intros a [->%elem_of_singleton|Ha]%elem_of_union; auto.
  - intros tc. rewrite Ht', Ht. split.
    + intros [(a & Ha & Hm)|Hm]; [exists a|exists cur]; split; set_solver.
    + intros (a & [->%elem_of_singleton|Ha]%elem_of_union & Hm); eauto.
  - intros tc. rewrite Ho', Ho, Ht', How. destruct (decide (tc ∈ walk_testcases w)); tauto.
  - done.
  - intros tc. rewrite How', How, Ht'. tauto.
Qed.

Lemma step_walking w subtask cur rest :
  walking w → stack w = cur :: rest →
  match walk_step g subtask cur (with_stack w rest) with
  | Ret w' => walking w' ∧ measure w' < measure w
  | Fail _ => ¬ known cur
  | _ => False
  end.
Proof.
  intros Hw Hstack. unfold walk_step, measure. change (text_of "*") with wildcard.
  simpl. rewrite Hstack. case_decide as Hc.
  { split; [by eapply walking_drop|simpl; lia]. }
  case_decide as Hwild.
  - subst cur. split.
    + apply (walking_visit w _ wildcard rest (keys_iter (group_to_testcases g))); simpl; try done.
      * by left.
      * intros b. unfold reaches. rewrite decide_True by done. by rewrite elem_of_keys_iter.
      * intros tc. unfold member. tauto.
      * intros tc. unfold member. tauto.
      * apply Hw.
      * intros tc. unfold member. tauto.
    + simpl. pose proof (pending_wildcard (visited w) Hc).
      rewrite length_app, length_rev. unfold keys_iter. rewrite length_fmap.
      rewrite map_iter_perm. pose proof (length_map_to_list (group_to_testcases g)). lia.
  - destruct (group_to_testcases g !! cur) as [tcs|] eqn:Htcs;
      [|unfold known; rewrite Htcs; by intros [|[? ?]]]. cbn [mbind outcome_bind].
    destruct (Hg cur) as [deps Hdeps]; [by eexists|]. rewrite Hdeps. cbn [unwrap mbind outcome_bind].
    destruct (own_all (mkWalk ({[cur]} ∪ visited w) (walk_testcases w ++ tcs) (walk_owned w) (with_owner w) rest) tcs)
      as (Hv & Hs & Ht & Hwo & Ho & Hn). simpl in *.
    assert (∀ tc, member g cur tc ↔ tc ∈ tcs) as Hm.
    { intros tc. unfold member. rewrite Htcs. split; [|by eauto]. by intros (_ & ? & [= <-] & ?). }
    split.
    + apply (walking_visit w _ cur rest deps); simpl; try done.
      * right. rewrite Htcs. by eexists.
      * intros b. unfold reaches. rewrite decide_False by done. rewrite Hdeps.
        split; [by intros (? & [= <-] & ?)|by eauto].
      * by rewrite Hs.
      * intros tc. by rewrite Ht, elem_of_app, Hm.
      * intros tc. by rewrite Ho, Hm.
      * apply Hn; [apply Hw|]. intros tc [Htc _]%(wk_owned _ Hw). apply (wk_owners _ Hw). by right.
      * intros tc. by rewrite Hwo, Hm.
    + simpl. rewrite Hv, Hs, length_app, length_rev. pose proof (pending_group (visited w) cur deps Hdeps Hwild Hc). lia.
Qed.

Lemma walk_walking fuel w subtask :
  walking w → measure w < fuel →
  match walk fuel g subtask w with
  | Ret w' => walking w' ∧ stack w' = []
  | Fail _ => ∃ a, rtc (reaches g) start a ∧ ¬ known a
  | _ => False
  end.
Proof.
  revert w. induction fuel as [|fuel IH]; intros w Hw Hm; [lia|]. cbn [walk].
  destruct (stack w) as [|cur rest] eqn:Hstack; [done|].
  pose proof (step_walking w subtask cur rest Hw Hstack) as Hs. unfold with_stack in Hs.
  destruct (walk_step _ _ _ _) as [w'| | |]; try done;
    [|exists cur; split; [apply (wk_stack _ Hw); rewrite Hstack; by left|done]]. destruct Hs as [Hw' Hlt]. cbn [mbind outcome_bind].
  apply IH; [done|lia].
Qed.
End walk.

(** The result of the loop: it ends, and neither depends on the order of the map nor
    takes a testcase twice. *)
Record walked (g : Gathering) (start : text) (owners : gset TestcaseId) (w : Walk) : Prop := {
  wd_known : ∀ a, rtc (reaches g) start a → known g a;
  wd_testcases : ∀ tc, tc ∈ walk_testcases w ↔ in_subtask g start tc;
  wd_owned : ∀ tc, tc ∈ walk_owned w ↔ in_subtask g start tc ∧ tc ∉ owners;
  wd_once : NoDup (walk_owned w);
  wd_owners : ∀ tc, tc ∈ with_owner w ↔ tc ∈ owners ∨ in_subtask g start tc
}.
Lemma walking_done g start owners w : walking g start owners w → stack w = [] → walked g start owners w.
Proof.
  intros [Hv Hs Hn Hst Hk Ht Ho Hd How] Hstack. rewrite Hstack in *.
  assert (∀ a, rtc (reaches g) start a → a ∈ visited w) as Hall.
  { apply rtc_ind_r.
    - by destruct Hst as [|?%elem_of_nil].
    - intros a b _ Hab IH. by destruct (Hn _ _ IH Hab) as [|?%elem_of_nil]. }
  assert (∀ tc, tc ∈ walk_testcases w ↔ in_subtask g start tc) as Heq.
  { intros tc. rewrite Ht. split; intros (a & Ha & Hm); exists a; auto. }
  split; [by intros a Ha%Hall%Hk|done| |done|]; intros tc; rewrite ?Ho, ?How, Heq; done.
Qed.
Lemma walk_spec `{IterOrder} g start owners :
  declared g →
  match walk (walk_fuel g) g start (mkWalk ∅ [] [] owners [start]) with
  | Ret w => walked g start owners w
  | Fail _ => ∃ a, rtc (reaches g) start a ∧ ¬ known g a
  | _ => False
  end.
Proof.
  intros Hg. set (w0 := mkWalk _ _ _ _ _).
  assert (walking g start owners w0) as Hw0.
  { split; simpl.
    - by intros a ?%elem_of_empty.
    - by intros a ->%list_elem_of_singleton.
    - by intros a b ?%elem_of_empty.
    - right. by left.
    - by intros a ?%elem_of_empty.
    - intros tc. split; [by intros ?%elem_of_nil|]. by intros (a & ?%elem_of_empty & _).
    - intros tc. split; [by intros ?%elem_of_nil|]. by intros [?%elem_of_nil _].
    - constructor.
    - intros tc. split; [by left|]. by intros [|?%elem_of_nil]. }
  assert (measure g w0 < walk_fuel g) as Hlt.
  { unfold measure, pending, walk_fuel. simpl. rewrite left_in_empty, decide_False by set_solver. lia. }
  pose proof (walk_walking g Hg start owners (walk_fuel g) w0 start Hw0 Hlt) as Hw.
  destruct (walk _ _ _ _) as [w| | |]; try done. destruct Hw. by apply walking_done.
Qed.

Lemma sorted_once (l : list N) : NoDup l → ascending (sorted l).
Proof.
  intros Hnd. assert (NoDup (sorted l)) as Hs by (by rewrite sorted_perm).
  pose proof (sorted_le l) as Hle. induction Hle as [|x k Hk IH Hx]; constructor; apply NoDup_cons in Hs as [Hnot Hs];
    [by apply IH|].
  rewrite Forall_forall in *. intros y Hy. specialize (Hx y Hy). assert (y ≠ x) by (by intros ->). lia.
Qed.

(** ** Property *)


(** Three groups in a cycle, the first one with the wildcard. *)
Definition ex_gathering : Gathering :=
  mkGathering (list_to_map [(text_of "a", [0%N]); (text_of "b", [1%N; 2%N]); (text_of "c", [2%N; 3%N])])
    (list_to_map [(text_of "a", [wildcard]); (text_of "b", [text_of "c"]); (text_of "c", [text_of "b"])]) ∅.
Example ex_gathering_walked :
  match @walk backward_order (walk_fuel ex_gathering) ex_gathering (text_of "a") (mkWalk ∅ [] [] {[2%N]} [text_of "a"]) with
  | Ret w => (sorted (walk_testcases w), sorted (walk_owned w))
  | _ => ([], [])
  end = ([0; 1; 2; 2; 3], [0; 1; 3])%N.
Proof. vm_compute. reflexivity. Qed.
