(* ===== verification/TomlPlan.v ===== *)
(** * What a description in TOML asks for

    The testcases of a description in order, with the groups that have them and where
    their inputs come from, and the inclusions of its groups: the reference for the loops
    of [GenToml] that gather them. *)
From S2P Require Import Prelude Float64 RustOrd Paths StoreKey Dag Text Diagnostics Checks UiMessage Machine.
From S2P Require Import Build Languages SourceFile Judge IoiDag.
From S2P Require Import Peg GenGrammar TaskInput CasesGen GenGen TaskLoad TaskClosure GenToml TomlWalk.

(** ** The reference *)

(** The groups and then the groups of the subtasks, as they are written. *)
Definition all_groups (c : GenConfig) : list (text * GroupConfig) :=
  gt_group c ++ ((λ x, (x.1, sc_group x.2)) <$> gt_subtask c).
Definition opened (c : GenConfig) : list text := samples_group_name (gt_samples c) :: (all_groups c).*1.

(** A testcase of the description: the groups that have it, and its input. *)
Inductive Source : Type :=
  | From_file (path : PathBuf)
  | From_generator (generator : string) (args : CommandLineArguments) (constants : Variables).
Record Entry : Type := mkEntry { en_groups : list text; en_source : Source }.

(** A testcase is written once for all its repetitions: its own number of them, or the
    one of the group. *)
Definition tc_repeat (t : TestCase) : option N :=
  match t with TC_Args _ => None | TC_Detailed _ _ _ r => r end.
Definition repeated (group : GroupConfig) : list TestCase :=
  t ← gc_testcases group; replicate (N.to_nat (default (gc_repeat group) (tc_repeat t))) t.

Definition file_entry (name : text) (path : PathBuf) : Entry := mkEntry [name] (From_file path).
Definition testcase_entry (c : GenConfig) (name : text) (group : GroupConfig) (t : TestCase) : Entry :=
  mkEntry (name :: option_list (tc_group_name t))
    (From_generator (default (default (gt_generator c) (gc_generator group)) (tc_generator t)) (tc_args t)
       (local_constants group ∪ gt_constants c)).
Definition planned_group (c : GenConfig) (x : text * GroupConfig) : list Entry :=
  (file_entry x.1 <$> gc_copy x.2) ++ (testcase_entry c x.1 x.2 <$> repeated x.2).
(** The samples, then the testcases of each group. *)
Definition plan (c : GenConfig) (task_name : string) : list Entry :=
  (file_entry (samples_group_name (gt_samples c)) ∘ samples_path (gt_samples c) task_name
     <$> id_range (samples_num (gt_samples c))) ++
  (all_groups c ≫= planned_group c).

Definition group_includes (x : text * GroupConfig) : list (text * text) := pair x.1 <$> include x.2.
Definition inclusions (c : GenConfig) : list (text * text) := all_groups c ≫= group_includes.

(** From a subtask: the groups it reaches, and their testcases; the wildcard is every group. *)
Definition is_group (c : GenConfig) (task_name : string) (a : text) : Prop :=
  a ∈ opened c ∨ ∃ e, e ∈ plan c task_name ∧ a ∈ en_groups e.
Definition leads_to (c : GenConfig) (task_name : string) (a b : text) : Prop :=
  if decide (a = wildcard) then is_group c task_name b else (a, b) ∈ inclusions c.
Definition reached (c : GenConfig) (task_name : string) (subtask : text) (tc : TestcaseId) : Prop :=
  ∃ a e, rtc (leads_to c task_name) subtask a ∧ a ≠ wildcard ∧
    plan c task_name !! N.to_nat tc = Some e ∧ a ∈ en_groups e.

(** The names are cleaned; of the groups, or of the subtasks, whose names agree once they
    are cleaned only the last one is kept. *)
Definition last_named {A} (l : list (text * A)) (a : text) (x : A) : Prop :=
  ∃ before after, l = before ++ (a, x) :: after ∧ a ∉ after.*1.
Definition renamed `{Unicode} {A} (x y : text * A) : Prop := cleanup_subtask_name x.1 = Ret y.1 ∧ y.2 = x.2.
Definition cleaned `{Unicode} {A} (l l' : list (text * A)) : Prop := ∃ k,
  Forall2 renamed l k ∧
  NoDup l'.*1 ∧ (∀ a x, (a, x) ∈ l' ↔ last_named k a x) ∧ (NoDup k.*1 → l' = k).

(** ** Cleaning the names *)
Section names.
Context {A : Type}.
Implicit Types (l k : list (text * A)) (a : text) (x : A).

Definition collect k : list (text * A) := foldl (λ acc y, index_insert y.1 y.2 acc) [] k.

Lemma index_insert_fresh a x l : a ∉ l.*1 → index_insert a x l = l ++ [(a, x)].
Proof.
  induction l as [|[b y] l IH]; [done|]. cbn [index_insert fmap list_fmap fst]. intros [Hne Hl]%not_elem_of_cons.
  rewrite decide_False by done. simpl. by rewrite IH.
Qed.
Lemma index_insert_keys a x l b : b ∈ (index_insert a x l).*1 ↔ b = a ∨ b ∈ l.*1.
Proof.
  induction l as [|[c y] l IH]; simpl; [by rewrite list_elem_of_singleton, elem_of_nil; tauto|].
  case_decide; simpl; rewrite !elem_of_cons; [subst; tauto|]. rewrite IH. tauto.
Qed.
Lemma index_insert_NoDup a x l : NoDup l.*1 → NoDup (index_insert a x l).*1.
Proof.
  induction l as [|[c y] l IH]; simpl; [by intros; apply NoDup_singleton|].
  intros [Hc Hl]%NoDup_cons. case_decide; simpl; apply NoDup_cons; [by subst|].
  split; [|by apply IH]. rewrite index_insert_keys. naive_solver.
Qed.
Lemma index_insert_elem a x l b y : NoDup l.*1 →
  (b, y) ∈ index_insert a x l ↔ b = a ∧ y = x ∨ b ≠ a ∧ (b, y) ∈ l.
Proof.
  induction l as [|[c z] l IH]; simpl.
  { rewrite list_elem_of_singleton, elem_of_nil. naive_solver. }
  intros [Hc Hl]%NoDup_cons. case_decide as Ha; rewrite !elem_of_cons.
  - subst c. assert ((b, y) ∈ l → b ≠ a) as Hb.
    { intros Hin ->. apply Hc, list_elem_of_fmap. by exists (a, y). }
    naive_solver.
  - rewrite (IH Hl). naive_solver.
Qed.
Lemma last_named_snoc k b y a x :
  last_named (k ++ [(b, y)]) a x ↔ a = b ∧ x = y ∨ a ≠ b ∧ last_named k a x.
Proof.
  unfold last_named. split.
  - intros (l1 & l2 & Heq & Hno). destruct l2 as [|z l2 _] using rev_ind.
    + apply app_inj_tail in Heq as [_ [= -> ->]]. by left.
    + rewrite app_comm_cons, (assoc_L (++)) in Heq. apply app_inj_tail in Heq as [-> <-].
      rewrite fmap_app in Hno. simpl in Hno. right. split; [|exists l1, l2]; set_solver.
  - intros [[-> ->]|[Hne (l1 & l2 & -> & Hno)]].
    + exists k, []. split; [done|]. by apply not_elem_of_nil.
    + exists l1, (l2 ++ [(b, y)]). split; [by rewrite <-(assoc_L (++))|]. rewrite fmap_app. set_solver.
Qed.
Lemma collect_spec k :
  NoDup (collect k).*1 ∧ (∀ a x, (a, x) ∈ collect k ↔ last_named k a x) ∧ (NoDup k.*1 → collect k = k).
Proof.
  induction k as [|[b y] k (Hnd & Hin & Heq)] using rev_ind.
  - split_and!; [by apply NoDup_nil| |done]. intros a x. unfold last_named.
    split; [by intros ?%elem_of_nil|]. intros (l1 & l2 & H & _). by destruct l1.
  - unfold collect in *. rewrite foldl_app. cbn [foldl fst snd]. split_and!.
    + by apply index_insert_NoDup.
    + intros a x. rewrite index_insert_elem, Hin, last_named_snoc by done. done.
    + rewrite fmap_app. intros (Hk & Hb & _)%NoDup_app. rewrite (Heq Hk). apply index_insert_fresh.
      intros Hin'. apply (Hb b Hin'). simpl. by apply list_elem_of_singleton.
Qed.
Lemma clean_names_collect `{Unicode} acc l r : clean_names acc l = Ret r →
  ∃ k, Forall2 renamed l k ∧
    r = foldl (λ acc y, index_insert y.1 y.2 acc) acc k.
Proof.
  revert acc. induction l as [|[a x] l IH]; intros acc; cbn [clean_names].
  { intros [= <-]. by exists []. }
  destruct (cleanup_subtask_name a) as [b| | |] eqn:Hb; try done. intros (k & Hk & ->)%IH.
  exists ((b, x) :: k). split; [by constructor|done].
Qed.
Lemma clean_names_cleaned `{Unicode} l r : clean_names [] l = Ret r → cleaned l r.
Proof.
  intros (k & Hk & ->)%clean_names_collect. exists k. destruct (collect_spec k) as (? & ? & ?). by split_and!.
Qed.
End names.

Lemma clean_config_cleaned `{Unicode} c c' : clean_config c = Ret c' →
  cleaned (gt_group c) (gt_group c') ∧ cleaned (gt_subtask c) (gt_subtask c').
Proof.
  unfold clean_config. destruct (clean_names [] (gt_group c)) as [group| | |] eqn:Hg; try done. simpl.
  destruct (clean_names [] (gt_subtask c)) as [subtask| | |] eqn:Hs; try done. intros [= <-].
  split; by apply clean_names_cleaned.
Qed.

(** ** Gathering follows the plan *)

(** A testcase is pushed to its group, and to the one that it names. *)
Definition also (extra : option text) (id : TestcaseId) (g : Gathering) : Gathering :=
  match extra with Some a => push_id a id g | None => g end.

Lemma push_all_lookup {A} (k a : text) (l : list A) m :
  push_all k l m !! a = if decide (a = k) then Some (default [] (m !! k) ++ l) else m !! a.
Proof. unfold push_all. case_decide as Ha; [subst; apply lookup_insert_eq|by rewrite lookup_insert_ne]. Qed.
Lemma push_all_is_Some {A} (k a : text) (l : list A) m :
  is_Some (push_all k l m !! a) ↔ a = k ∨ is_Some (m !! a).
Proof.
  rewrite push_all_lookup. case_decide; [|naive_solver]. split; [by left|by eexists].
Qed.
Lemma push_all_elem {A} (k a : text) (l : list A) m (x : A) :
  (∃ l', push_all k l m !! a = Some l' ∧ x ∈ l') ↔ a = k ∧ x ∈ l ∨ ∃ l', m !! a = Some l' ∧ x ∈ l'.
Proof.
  rewrite push_all_lookup. case_decide as Ha; [subst|naive_solver]. split.
  - intros (l' & [= <-] & [Hx|Hx]%elem_of_app); [|by left]. right.
    destruct (m !! k) as [l'|]; [by eauto|by apply elem_of_nil in Hx].
  - intros Hx. eexists. split; [done|]. apply elem_of_app.
    destruct Hx as [[_ ?]|(l' & -> & ?)]; [by right|by left].
Qed.

Section plan.
Context `{LocalFiles} `{LanguageManager} `{Glob}.
Implicit Types (task_dir : PathBuf) (g : Gathering) (pl : list Entry) (o : OutputGenerator).

(** The generator is the one that is found under the name, its arguments are those of the
    testcase with the constants of the group, and the number of the testcase as [#]. *)
Definition made_from `{UuidV4} `{Blake3} `{BuildProfile} task_dir (id : TestcaseId) (src : Source)
    (i : InputGenerator) : Prop :=
  match src with
  | From_file p => i = IG_StaticFile p
  | From_generator generator args constants => ∃ x a s s',
      get_generator generator task_dir s = (Ret x, s') ∧
      instantiate args (<[text_of "#" := TV_Integer (Z.of_N id)]> constants) = Ret a ∧
      i = IG_Custom x a
  end.
Context `{UuidV4} `{Blake3} `{BuildProfile}.

(** So far: [op] were opened, the inclusions [incl] and the testcases [pl] were seen. *)
Record laid task_dir (op : list text) (incl : list (text * text)) pl g : Prop := {
  la_size : size (ga_testcases g) = length pl;
  la_testcase : ∀ i e, pl !! i = Some e → ∃ x, ga_testcases g !! N.of_nat i = Some x ∧
    made_from task_dir (N.of_nat i) (en_source e) (input_generator x);
  la_only : ∀ tc, is_Some (ga_testcases g !! tc) → N.to_nat tc < length pl;
  la_member : ∀ a tc, (∃ l, group_to_testcases g !! a = Some l ∧ tc ∈ l) ↔
    ∃ e, pl !! N.to_nat tc = Some e ∧ a ∈ en_groups e;
  la_group : ∀ a, is_Some (group_to_testcases g !! a) ↔ a ∈ op ∨ ∃ e, e ∈ pl ∧ a ∈ en_groups e;
  la_incl : ∀ a b, (∃ l, group_inclusions g !! a = Some l ∧ b ∈ l) ↔ (a, b) ∈ incl
}.

Lemma laid_start task_dir : laid task_dir [] [] [] (mkGathering ∅ ∅ ∅).
Proof.
  split; simpl; try done.
  - intros tc [x Hx]. by rewrite lookup_empty in Hx.
  - intros a tc. split; [intros (l & Hl & _); by rewrite lookup_empty in Hl|by intros (e & He & _)].
  - intros a. rewrite lookup_empty. split; [by intros []|].
    intros [?%elem_of_nil|(e & ?%elem_of_nil & _)]; done.
  - intros a b. split; [intros (l & Hl & _); by rewrite lookup_empty in Hl|by intros ?%elem_of_nil].
Qed.

Lemma laid_open task_dir op incl pl g name l :
  laid task_dir op incl pl g →
  laid task_dir (op ++ [name]) (incl ++ (pair name <$> l)) pl (open_group name l g).
Proof.
  intros [Hs Ht Ho Hm Hg Hi]. split; simpl; try done.
  - intros a tc. rewrite push_all_elem, <- Hm. split; [by intros [[_ ?%elem_of_nil]|]|by right].
  - intros a. rewrite push_all_is_Some, Hg, elem_of_app, list_elem_of_singleton. tauto.
  - intros a b. rewrite push_all_elem, Hi, elem_of_app, list_elem_of_fmap. split.
    + intros [[-> ?]|?]; [right; by exists b|by left].
    + intros [?|(b' & [= -> ->] & ?)]; [by right|by left].
Qed.

Lemma next_id_laid task_dir op incl pl g :
  laid task_dir op incl pl g → (N.of_nat (length pl) < u32_modulus)%N → next_id g = N.of_nat (length pl).
Proof. intros Hl Hn. unfold next_id. rewrite (la_size _ _ _ _ _ Hl). by apply N.mod_small. Qed.

Lemma also_elem extra id g a tc :
  (∃ l, group_to_testcases (also extra id g) !! a = Some l ∧ tc ∈ l) ↔
    a ∈ option_list extra ∧ tc = id ∨ ∃ l, group_to_testcases g !! a = Some l ∧ tc ∈ l.
Proof.
  destruct extra as [b|]; simpl; [|split; [by right|by intros [[?%elem_of_nil]|]]].
  by rewrite push_all_elem, !list_elem_of_singleton.
Qed.

Lemma also_group extra id g a :
  is_Some (group_to_testcases (also extra id g) !! a) ↔
    a ∈ option_list extra ∨ is_Some (group_to_testcases g !! a).
Proof.
  destruct extra as [b|]; simpl; [|split; [by right|by intros [?%elem_of_nil|]]].
  by rewrite push_all_is_Some, list_elem_of_singleton.
Qed.

Lemma also_rest extra id g :
  ga_testcases (also extra id g) = ga_testcases g ∧ group_inclusions (also extra id g) = group_inclusions g.
Proof. by destruct extra. Qed.

(** A testcase more. *)
Lemma laid_add task_dir op incl pl g name extra src i o :
  laid task_dir op incl pl g → (N.of_nat (length pl) < u32_modulus)%N →
  made_from task_dir (N.of_nat (length pl)) src i →
  laid task_dir op incl (pl ++ [mkEntry (name :: option_list extra) src])
    (put_testcase (next_id g) i o (also extra (next_id g) (push_id name (next_id g) g))).
Proof.
  intros Hl Hn Hmade. rewrite (next_id_laid _ _ _ _ _ Hl Hn). destruct Hl as [Hs Ht Ho Hm Hg Hi].
  destruct (also_rest extra (N.of_nat (length pl)) (push_id name (N.of_nat (length pl)) g)) as [Htc Hin].
  assert (ga_testcases g !! N.of_nat (length pl) = None) as Hnew.
  { apply eq_None_not_Some. intros ?%Ho. lia. }
  split; simpl; rewrite ?Htc, ?Hin; simpl.
  - rewrite map_size_insert_None, Hs, length_app by done. simpl. lia.
  - intros k e [Hk|[-> <-]]%lookup_snoc_Some.
    + rewrite lookup_insert_ne by lia. apply Ht. tauto.
    + rewrite lookup_insert_eq. by eexists.
  - intros tc. rewrite length_app. simpl. destruct (decide (tc = N.of_nat (length pl))) as [->|]; [lia|].
    rewrite lookup_insert_ne by done. intros ?%Ho. lia.
  - intros a tc. rewrite also_elem. simpl. rewrite push_all_elem, Hm, list_elem_of_singleton.
    setoid_rewrite lookup_snoc_Some. split.
    + intros [[Ha ->]|[[-> ->]|(e & He & Ha)]].
      * eexists. split; [right; split; [lia|done]|]. by right.
      * eexists. split; [right; split; [lia|done]|]. by left.
      * exists e. split; [left; split; [by apply lookup_lt_Some in He|done]|done].
    + intros (e & [[_ He]|[Hk <-]] & Ha); [right; right; by eauto|]. simpl in Ha.
      apply elem_of_cons in Ha as [->|Ha]; [right; left|left]; (split; [done|lia]).
  - intros a. rewrite also_group. simpl. rewrite push_all_is_Some, Hg. setoid_rewrite elem_of_app.
    setoid_rewrite list_elem_of_singleton. split.
    + intros [Ha|[->|[?|(e & ? & ?)]]]; [right; eexists; split; [by right|by right]
        |right; eexists; split; [by right|by left]|by left|right; eauto].
    + intros [?|(e & [?| ->] & Ha)]; [tauto|right; right; right; by eauto|]. simpl in Ha.
      apply elem_of_cons in Ha as [->|Ha]; tauto.
  - done.
Qed.

Lemma laid_statics task_dir op incl pl g name l o :
  laid task_dir op incl pl g → (N.of_nat (length pl + length l) < u32_modulus)%N →
  laid task_dir op incl (pl ++ (file_entry name <$> l)) (foldl (add_static o name) g l).
Proof.
  revert pl g. induction l as [|p l IH]; intros pl g Hl Hn; cbn [foldl fmap list_fmap].
  { by rewrite app_nil_r. }
  cbn [length] in Hn. rewrite (cons_middle (file_entry name p)), (assoc_L (++)).
  apply IH; [|rewrite length_app; simpl; lia].
  apply (laid_add task_dir op incl pl g name None (From_file p)); [done|lia|done].
Qed.

(** The repetitions of a testcase are asked for once. *)
Lemma resolved_entries c name group :
  testcase_entry c name group <$> gc_testcases (resolve_repeats group) =
  testcase_entry c name group <$> repeated group.
Proof.
  unfold resolve_repeats, repeated. cbn [gc_testcases]. induction (gc_testcases group) as [|t l IH]; [done|].
  cbn [mbind list_bind]. rewrite !fmap_app, IH. f_equal. by destruct t; simpl; rewrite ?fmap_replicate.
Qed.
Lemma resolved_length group : length (gc_testcases (resolve_repeats group)) = length (repeated group).
Proof.
  unfold resolve_repeats, repeated. cbn [gc_testcases]. induction (gc_testcases group) as [|t l IH]; [done|].
  cbn [mbind list_bind]. rewrite !length_app, IH. f_equal. by destruct t; simpl; rewrite ?length_replicate.
Qed.
End plan.

Section gathering.
Context `{UuidV4} `{LocalFiles} `{Blake3} `{LanguageManager} `{BuildProfile} `{Glob}.
Implicit Types (task_dir : PathBuf) (g : Gathering) (pl : list Entry) (o : OutputGenerator) (c : GenConfig).
Implicit Types (s : EvaluationData TaskCallback) (op : list text) (incl : list (text * text)).
Abbreviation any := (λ _ : EvaluationData TaskCallback, True).

(** The testcases of a group: of the constants only the number is changed. *)
Lemma wlp_laid_testcases c task_dir op incl pl o (name : text) (group : GroupConfig) (i : nat) (l : list TestCase)
    (a : Variables * Gathering) s :
  laid task_dir op incl pl a.2 → (N.of_nat (length pl + length l) < u32_modulus)%N →
  (∀ v, <[text_of "#" := v]> a.1 = <[text_of "#" := v]> (local_constants group ∪ gt_constants c)) →
  wlp (process_testcases task_dir o name (default (gt_generator c) (gc_generator group)) i l a)
    (λ a' _, laid task_dir op incl (pl ++ (testcase_entry c name group <$> l)) a'.2) any s.
Proof.
  revert i pl a s. induction l as [|t l IH]; intros i pl [constants g] s Hl Hn Hc; cbn [process_testcases].
  { apply wlp_ret. simpl. by rewrite app_nil_r. }
  cbn [length fst snd] in *. apply wlp_bind, wlp_context. unfold process_testcase.
  apply wlp_bind, wlp_run. intros x s1 Hx. apply wlp_bind, wlp_lift; [|done]. intros args Hargs. apply wlp_ret.
  cbn [fmap list_fmap]. rewrite (cons_middle (testcase_entry c name group t)), (assoc_L (++)).
  apply IH; cbn [fst snd].
  - apply (laid_add task_dir op incl pl g name (tc_group_name t)); [done|lia|].
    exists x, args, s, s1. rewrite (next_id_laid _ _ _ _ _ Hl), Hc in Hargs by lia. done.
  - rewrite length_app. simpl. lia.
  - intros v. by rewrite insert_insert_eq, Hc.
Qed.
Lemma wlp_laid_group c task_dir op incl pl o (name : text) (group : GroupConfig) g s :
  laid task_dir op incl pl g → (N.of_nat (length pl + length (planned_group c (name, group))) < u32_modulus)%N →
  wlp (process_group task_dir o (gt_generator c) (gt_constants c) name group g)
    (λ g' _, laid task_dir (op ++ [name]) (incl ++ group_includes (name, group))
       (pl ++ planned_group c (name, group)) g') any s.
Proof.
  intros Hl. unfold process_group, planned_group. cbn [fst snd]. rewrite length_app, !length_fmap. intros Hn.
  apply wlp_bind. eapply wlp_mono;
    [eapply (wlp_laid_testcases c task_dir _ _ (pl ++ (file_entry name <$> gc_copy group)) o name group 0)| |done].
  - change (gc_copy (resolve_repeats group)) with (gc_copy group). apply laid_statics; [by apply laid_open|lia].
  - rewrite resolved_length, length_app, length_fmap. lia.
  - done.
  - intros [constants g'] s' Hg. apply wlp_ret. cbn [snd] in Hg.
    by rewrite resolved_entries, <-(assoc_L (++)) in Hg.
Qed.
Lemma wlp_laid_groups c task_dir op incl pl o (l : list (text * GroupConfig)) g s :
  laid task_dir op incl pl g → (N.of_nat (length pl + length (l ≫= planned_group c)) < u32_modulus)%N →
  wlp (process_groups task_dir o (gt_generator c) (gt_constants c) l g)
    (λ g' _, laid task_dir (op ++ l.*1) (incl ++ (l ≫= group_includes)) (pl ++ (l ≫= planned_group c)) g') any s.
Proof.
  revert op incl pl g s. induction l as [|[name group] l IH]; intros op incl pl g s Hl Hn; cbn [process_groups].
  { apply wlp_ret. simpl. by rewrite !app_nil_r. }
  cbn [mbind list_bind] in *. rewrite length_app in Hn. apply wlp_bind.
  eapply wlp_mono; [apply wlp_laid_group; [exact Hl|lia]| |done]. intros g1 s1 Hg1. simpl.
  eapply wlp_mono; [apply (IH _ _ _ _ _ Hg1); rewrite length_app; lia| |done]. intros g2 s2 Hg2.
  by rewrite <-!(assoc_L (++)) in Hg2.
Qed.

(** The loops gather what the description asks for, all of it and nothing else. *)
Lemma gather_laid c task_dir (name : string) o s g s' :
  (N.of_nat (length (plan c name)) < u32_modulus)%N → gather task_dir name o c s = (Ret g, s') →
  laid task_dir (opened c) (inclusions c) (plan c name) g.
Proof.
  intros Hn Hrun. unfold plan, all_groups in Hn. rewrite bind_app, !length_app, length_fmap in Hn.
  assert (wlp (gather task_dir name o c)
    (λ g _, laid task_dir (opened c) (inclusions c) (plan c name) g) any s) as Hw.
  { unfold gather. apply wlp_bind. eapply wlp_mono; [eapply (wlp_laid_groups c)| |done].
    - unfold add_samples. apply laid_statics; [apply laid_open, laid_start|rewrite length_fmap; simpl; lia].
    - rewrite length_app, !length_fmap. simpl. lia.
    - intros g1 s1 Hg1. eapply wlp_mono; [apply (wlp_laid_groups c _ _ _ _ _ _ _ _ Hg1)| |done].
      + rewrite !length_app, !length_fmap. simpl. lia.
      + intros g2 s2 Hg2. unfold opened, inclusions, plan, all_groups. rewrite fmap_app, !bind_app, list_fmap_compose.
        by rewrite <-!(assoc_L (++)) in Hg2. }
  unfold wlp in Hw. by rewrite Hrun in Hw.
Qed.

(** What a subtask has is what the description gives it. *)
Lemma laid_reached c task_dir (name : string) g :
  laid task_dir (opened c) (inclusions c) (plan c name) g →
  ∀ a tc, in_subtask g a tc ↔ reached c name a tc.
Proof.
  intros Hl. assert (∀ a b, reaches g a b ↔ leads_to c name a b) as Hr.
  { intros a b. unfold reaches, leads_to. case_decide.
    - apply (la_group _ _ _ _ _ Hl).
    - apply (la_incl _ _ _ _ _ Hl). }
  assert (∀ a b, rtc (reaches g) a b ↔ rtc (leads_to c name) a b) as Hrtc.
  { intros a b. split; apply rtc_subrel; intros x y; apply Hr. }
  intros a tc. unfold in_subtask, reached, member. setoid_rewrite Hrtc. setoid_rewrite (la_member _ _ _ _ _ Hl).
  naive_solver.
Qed.
End gathering.

(** ** The subtasks as they are written *)

(** A subtask has the name, the score and the validator of its description. *)
Definition validator_variables (c : GenConfig) (name : text) (x : SubtaskConfig) : Variables :=
  <[text_of "FILENAME#" := TV_String (text_of TM_VALIDATION_FILE_NAME)]>
    (<[text_of "SUBTASK_NAME#" := TV_String name]> (local_constants (sc_group x) ∪ gt_constants c)).
Definition validated_by `{UuidV4} `{LocalFiles} `{Blake3} `{LanguageManager} `{BuildProfile} `{Glob}
    (task_dir : PathBuf) (c : GenConfig) (name : text) (x : SubtaskConfig) (v : InputValidator) : Prop :=
  ∃ validator args s s',
    detect_toml_validator task_dir (default (gt_validator c) (sc_validator x)) s = (Ret validator, s') ∧
    instantiate (default (gt_validator_args c) (sc_validator_args x)) (validator_variables c name x) = Ret args ∧
    v = IV_Custom validator args.
Definition described_by `{UuidV4} `{LocalFiles} `{Blake3} `{LanguageManager} `{BuildProfile} `{Glob}
    (task_dir : PathBuf) (c : GenConfig) (x : text * SubtaskConfig) (st : BuildSubtask) : Prop :=
  subtask_name (subtask_info st) = Some x.1 ∧ max_score (subtask_info st) = sc_score x.2 ∧
  always_show_testcases (subtask_info st) = sc_always_show_testcases x.2 ∧
  validated_by task_dir c x.1 x.2 (input_validator st).

Section subtasks.
Context `{UuidV4} `{LocalFiles} `{Blake3} `{LanguageManager} `{BuildProfile} `{IterOrder} `{Glob}.
Implicit Types (s : EvaluationData TaskCallback) (task_dir : PathBuf) (c : GenConfig) (g : Gathering).
Implicit Types (l before : list (text * SubtaskConfig)) (subtasks : gmap SubtaskId BuildSubtask).
Abbreviation any := (λ _ : EvaluationData TaskCallback, True).

Definition all_described task_dir c l subtasks : Prop :=
  ∀ k st, subtasks !! k = Some st → ∃ x, l !! N.to_nat k = Some x ∧ described_by task_dir c x st.

Lemma wlp_described task_dir c g id (name : text) (x : SubtaskConfig) owned s :
  wlp (toml_subtask task_dir c g id name x owned) (λ r _, described_by task_dir c (name, x) r.1) any s.
Proof.
  unfold toml_subtask. apply wlp_bind, wlp_context, wlp_lift; [|done]. intros args Hargs.
  apply wlp_bind, wlp_context, wlp_run. intros v s1 Hv. apply wlp_bind, wlp_lift; [|done]. intros w _.
  apply wlp_ret. split_and!; [done..|]. by exists v, args, s, s1.
Qed.
Lemma wlp_all_described task_dir c g before l (a : gmap SubtaskId BuildSubtask * gset TestcaseId) s :
  (N.of_nat (length before + length l) < u32_modulus)%N → all_described task_dir c before a.1 →
  wlp (toml_subtasks task_dir c g (length before) l a)
    (λ r _, all_described task_dir c (before ++ l) r.1) any s.
Proof.
  revert before a s. induction l as [|[name x] l IH]; intros before a s Hn Ha; cbn [toml_subtasks].
  { apply wlp_ret. by rewrite app_nil_r. }
  cbn [length] in Hn. rewrite N.mod_small by lia. apply wlp_bind.
  eapply wlp_mono; [apply wlp_described| |done]. intros [st owned] s1 Hst. cbn beta iota. cbn [fst] in Hst.
  replace (S (length before)) with (length (before ++ [(name, x)])) by (rewrite length_app; simpl; lia).
  rewrite (cons_middle (name, x) before l), (assoc_L (++)). apply IH; [rewrite length_app; simpl; lia|].
  intros k st'. cbn [fst]. intros [[<- <-]|[_ Hk]]%lookup_insert_Some.
  - exists (name, x). by rewrite Nat2N.id, lookup_app_r, Nat.sub_diag by done.
  - destruct (Ha k st' Hk) as (y & Hy & Hd). exists y. split; [|done]. by apply lookup_app_l_Some.
Qed.
Lemma toml_subtasks_described task_dir c g s r s' :
  (N.of_nat (length (gt_subtask c)) < u32_modulus)%N →
  toml_subtasks task_dir c g 0 (gt_subtask c) (∅, ∅) s = (Ret r, s') →
  all_described task_dir c (gt_subtask c) r.1.
Proof.
  intros Hn Hrun. assert (all_described task_dir c [] ∅) as Hs by (by intros k st ?%lookup_empty_Some).
  pose proof (wlp_all_described task_dir c g [] (gt_subtask c) (∅, ∅) s Hn Hs) as Hw.
  unfold wlp in Hw. cbn [length app] in Hw. by rewrite Hrun in Hw.
Qed.
End subtasks.
