(* ===== verification/TomlCorrect.v ===== *)
(** * A task described in TOML can be built

    [parse_gen_toml] of [GenToml] neither panics nor runs forever when the groups that the
    testcases name are declared; the task has its testcases arranged in the subtasks, and
    loading a task of either format composes with building its DAG. *)
From S2P Require Import Prelude Float64 RustOrd Paths StoreKey Dag CheckDag Text Diagnostics Checks UiMessage.
From S2P Require Import Machine Build Languages SourceFile SourceFileCorrect Scoring Judge IoiDag IoiDagCorrect.
From S2P Require Import IoiTaskCorrect Peg GenGrammar GrammarShape TaskInput CasesGen GenGen TaskLoad.
From S2P Require Import TaskClosure TaskEntries TaskFiles CasesGenCorrect GenGenCorrect TaskLoadCorrect.
From S2P Require Import GenToml TomlWalk TomlPlan.

(** ** The description *)
Definition group_size (group : GroupConfig) : nat :=
  length (gc_copy group) + length (gc_testcases (resolve_repeats group)).
Definition generators_of (group : GroupConfig) : list string :=
  option_list (gc_generator group) ++ omap tc_generator (gc_testcases (resolve_repeats group)).
Fixpoint sizes (l : list (text * GroupConfig)) : nat :=
  match l with [] => 0 | x :: l => group_size x.2 + sizes l end.
Lemma group_sizes_app l k : sizes (l ++ k) = sizes l + sizes k.
Proof. induction l; simpl; lia. Qed.
Lemma plan_length c name : length (plan c name) = N.to_nat (samples_num (gt_samples c)) + sizes (all_groups c).
Proof.
  unfold plan, id_range. rewrite length_app, !length_fmap, length_seq. f_equal.
  induction (all_groups c) as [|[a group] l IH]; [done|]. cbn [mbind list_bind sizes]. rewrite length_app, IH.
  unfold planned_group, group_size. by rewrite length_app, !length_fmap, resolved_length.
Qed.

(** What is asked of a description: its programs give valid patterns, the groups that
    the testcases name are declared, the testcases and the subtasks can be counted. *)
Record described `{Glob} (task_dir : PathBuf) (c : GenConfig) : Prop := {
  ds_generator : is_Some (found task_dir ("gen/" +:+ gt_generator c +:+ ".*"));
  ds_generators : ∀ x p, x ∈ all_groups c → p ∈ generators_of x.2 → is_Some (found task_dir ("gen/" +:+ p +:+ ".*"));
  ds_validators : ∀ x, x ∈ gt_subtask c →
    is_Some (found task_dir ("gen/" +:+ default (gt_validator c) (sc_validator x.2) +:+ ".*"));
  ds_groups : ∀ x t a, x ∈ all_groups c → t ∈ gc_testcases (resolve_repeats x.2) → tc_group_name t = Some a →
    a ∈ opened c;
  ds_small : (samples_num (gt_samples c) + N.of_nat (sizes (all_groups c)) < u32_modulus)%N;
  ds_subtasks : (N.of_nat (length (gt_subtask c)) < u32_modulus)%N
}.

(** ** Gathering *)
Section gathering.
Context `{BuildProfile} (G : gset Uuid) (named : text → Prop).
Implicit Types (g : Gathering).

Definition grouped_somewhere g (tc : TestcaseId) : Prop := ∃ a l, group_to_testcases g !! a = Some l ∧ tc ∈ l.
(** The groups: [op] were opened, the testcases in them are below [m]. *)
Record groups_ok (op : list text) (m : N) g : Prop := {
  go_members : ∀ a l tc, group_to_testcases g !! a = Some l → tc ∈ l → (tc < m)%N;
  go_opened : ∀ a, a ∈ op → is_Some (group_inclusions g !! a);
  go_declared : ∀ a, is_Some (group_to_testcases g !! a) → is_Some (group_inclusions g !! a) ∨ named a
}.
(** [n] testcases so far. *)
Record gathered (op : list text) (n : N) g : Prop := {
  ga_groups : groups_ok op n g;
  ga_size : N.of_nat (size (ga_testcases g)) = n;
  ga_keys : ∀ tc, is_Some (ga_testcases g !! tc) ↔ (tc < n)%N;
  ga_tc : ∀ k tc, ga_testcases g !! k = Some tc → testcase_id (testcase_info tc) = k ∧ testcase_fresh G tc;
  ga_used : ∀ tc, (tc < n)%N → grouped_somewhere g tc
}.

Lemma push_somewhere a id g tc :
  grouped_somewhere (push_id a id g) tc ↔ tc = id ∨ grouped_somewhere g tc.
Proof.
  unfold grouped_somewhere. simpl. split.
  - intros (b & l & Hb & Hin). rewrite push_all_lookup in Hb. case_decide as Heq; [|by eauto].
    simplify_eq. apply elem_of_app in Hin as [Hin|Hin%list_elem_of_singleton]; [|by left]. right.
    destruct (group_to_testcases g !! a) as [k|] eqn:Ha; [by exists a, k|by apply elem_of_nil in Hin].
  - intros [->|(b & l & Hb & Hin)].
    + exists a. eexists. rewrite push_all_lookup, decide_True by done. split; [done|]. set_solver.
    + destruct (decide (b = a)) as [->|Hne].
      * exists a. eexists. rewrite push_all_lookup, decide_True, Hb by done. split; [done|]. set_solver.
      * exists b, l. by rewrite push_all_lookup, decide_False.
Qed.
Lemma groups_push op m a id g :
  groups_ok op m g → (id < m)%N → a ∈ op ∨ named a → groups_ok op m (push_id a id g).
Proof.
  intros [Hm Ho Hd] Hid Ha. split; simpl; [|done|].
  - intros b l tc Hb Hin. assert (grouped_somewhere (push_id a id g) tc) as Hs by (by exists b, l).
    apply push_somewhere in Hs as [->|(c & k & Hc & Hk)]; [done|by eapply Hm].
  - intros b [->|Hb]%push_all_is_Some; [|by apply Hd]. destruct Ha as [Ha|Ha]; [left; by apply Ho|by right].
Qed.

Lemma gathered_start : gathered [] 0 (mkGathering ∅ ∅ ∅).
Proof.
  split; simpl; try done.
  - split; simpl; try done; [by intros a ?%elem_of_nil|]. intros a. rewrite lookup_empty. by intros [].
  - intros tc. rewrite lookup_empty. split; [by intros []|lia].
  - intros tc. lia.
Qed.
Lemma gathered_open op n name incl g :
  gathered op n g → gathered (name :: op) n (open_group name incl g).
Proof.
  intros [[Hm Ho Hd] Hsz Hk Htc Hu].
  assert (∀ a l, group_to_testcases (open_group name incl g) !! a = Some l →
    ∀ tc, tc ∈ l → ∃ k, group_to_testcases g !! a = Some k ∧ tc ∈ k) as Hback.
  { intros a l. simpl. rewrite push_all_lookup. case_decide as Heq; [|by eauto].
    intros [= <-] tc. rewrite app_nil_r. subst.
    destruct (group_to_testcases g !! name); [by eauto|by intros ?%elem_of_nil]. }
  split; try done; [split|].
  - intros a l tc Ha Hin. destruct (Hback a l Ha tc Hin) as (k & ? & ?). by eapply Hm.
  - simpl. intros a [->|?%Ho]%elem_of_cons; apply push_all_is_Some; auto.
  - simpl. intros a [->|[|]%Hd]%push_all_is_Some; rewrite push_all_is_Some; auto.
  - intros tc (a & l & Ha & Hin)%Hu. exists a. simpl. rewrite push_all_lookup. case_decide; [|by eauto].
    subst. rewrite Ha, app_nil_r. by eauto.
Qed.

Lemma gathered_add op n name extra i o g :
  gathered op n g → (n < u32_modulus)%N → name ∈ op → (∀ a, extra = Some a → named a) →
  input_generator_ok G i → output_generator_ok G o →
  next_id g = n ∧ gathered op (n + 1) (put_testcase n i o (also extra n (push_id name n g))).
Proof.
  intros [Hgo Hsz Hk Htc Hu] Hn Hname Hex Hi Hout.
  split; [unfold next_id; rewrite Hsz; by apply N.mod_small|].
  assert (ga_testcases g !! n = None) as Hfresh by (apply eq_None_not_Some; rewrite Hk; lia).
  assert (ga_testcases (also extra n (push_id name n g)) = ga_testcases g) as Ht by (by destruct extra).
  assert (groups_ok op (n + 1) (push_id name n g)) as Hgo1.
  { apply groups_push; [|lia|by left]. destruct Hgo as [Hm]. split; [|done..]. intros a l tc ??.
    assert (tc < n)%N by (by eapply Hm). lia. }
  assert (∀ tc, tc = n ∨ grouped_somewhere g tc → grouped_somewhere (also extra n (push_id name n g)) tc) as Hs.
  { intros tc Htc'. destruct extra; simpl; rewrite !push_somewhere; tauto. }
  split; simpl; rewrite ?Ht.
  - assert (groups_ok op (n + 1) (also extra n (push_id name n g))) as [] by
      (destruct extra; [apply groups_push; [done|lia|right; by apply Hex]|done]). split; done.
  - rewrite map_size_insert_None by done. lia.
  - intros tc. destruct (decide (tc = n)) as [->|].
    + rewrite lookup_insert_eq. split; [lia|by eexists].
    + rewrite lookup_insert_ne, Hk by done. lia.
  - intros k tc [[<- <-]|[_ Hl]]%lookup_insert_Some; [done|by apply Htc].
  - intros tc Hlt. destruct (Hs tc) as (a & l & ? & ?); [|by exists a, l].
    destruct (decide (tc = n)); [by left|]. right. apply Hu. lia.
Qed.

Lemma gathered_statics op n name o l g :
  gathered op n g → name ∈ op → output_generator_ok G o → (n + N.of_nat (length l) < u32_modulus)%N →
  gathered op (n + N.of_nat (length l)) (foldl (add_static o name) g l).
Proof.
  intros Hg Hname Ho. revert n g Hg. induction l as [|p l IH]; intros n g Hg; cbn [length foldl]; intros Hn.
  { by rewrite N.add_0_r. }
  destruct (gathered_add op n name None (IG_StaticFile p) o g Hg) as [Hid Hg1]; [lia|done..|].
  replace (n + N.of_nat (S (length l)))%N with (n + 1 + N.of_nat (length l))%N by lia.
  apply IH; [|lia]. unfold add_static. by rewrite Hid.
Qed.
Lemma gathered_samples s name o :
  output_generator_ok G o → (samples_num s < u32_modulus)%N →
  gathered [samples_group_name s] (samples_num s) (add_samples s name o).
Proof.
  intros Ho Hn. unfold add_samples.
  assert (N.of_nat (length (samples_path s name <$> id_range (samples_num s))) = samples_num s) as Hl.
  { unfold id_range. rewrite !length_fmap, length_seq. lia. }
  rewrite <-Hl at 1. rewrite <-(N.add_0_l (N.of_nat _)).
  apply gathered_statics; [apply gathered_open, gathered_start|by left|done|by rewrite Hl].
Qed.
End gathering.

Section wp.
Context `{UuidV4} `{LocalFiles} `{WritableFiles} `{Blake3} `{LanguageManager} `{BuildProfile} `{IterOrder}.
Context `{Glob} `{Unicode}.
Implicit Types (s : EvaluationData TaskCallback) (G : gset Uuid) (g : Gathering).

Lemma wp_one_program G task_dir pattern d what message s
    (P : UiSourceFile → EvaluationData TaskCallback → Prop) :
  is_Some (found task_dir pattern) → unbuilt G s →
  (∀ x s', unbuilt G s' → ui_ok G x → P x s') →
  wp (l ← find_source_file task_dir [pattern] task_dir d None WB_None; found ← at_most_one what l;
      match found with Some x => mret x | None => bail message end) P may_fail s.
Proof.
  intros Hp Hu HP. unfold find_source_file.
  destruct (list_files_found task_dir [pattern]) as (l & Hl & _); [by intros ? ->%list_elem_of_singleton|].
  do 2 apply wp_bind. eapply wp_lift_ret; [exact Hl|].
  eapply (wp_sources_at G); [done|by intros ? ? ? [=]|done|]. intros l' s1 Hu1 Hall.
  apply wp_bind. eapply wp_at_most_one; [done|]. intros [x|] Ho; [|done]. apply wp_ret.
  apply HP; [done|by apply Ho].
Qed.
Lemma wp_get_generator G name task_dir s (P : UiSourceFile → EvaluationData TaskCallback → Prop) :
  is_Some (found task_dir ("gen/" +:+ name +:+ ".*")) → unbuilt G s →
  (∀ x s', unbuilt G s' → ui_ok G x → P x s') → wp (get_generator name task_dir) P may_fail s.
Proof. intros. by apply (wp_one_program G). Qed.
Lemma wp_toml_validator G name task_dir s (P : UiSourceFile → EvaluationData TaskCallback → Prop) :
  is_Some (found task_dir ("gen/" +:+ name +:+ ".*")) → unbuilt G s →
  (∀ x s', unbuilt G s' → ui_ok G x → P x s') → wp (detect_toml_validator task_dir name) P may_fail s.
Proof. intros. by apply (wp_one_program G). Qed.

Lemma instantiate_orderly a variables : orderly (instantiate a variables).
Proof.
  assert (∀ l, orderly (try_map (map_arg variables) l)) as Ho.
  { intros l. apply try_map_orderly. intros x. unfold map_arg. repeat case_match; (by left) || (by right; eexists). }
  destruct a; apply Ho.
Qed.

Context (named : text → Prop).
Implicit Types (o : OutputGenerator) (name : text) (generator : string) (task_dir : PathBuf) (op : list text) (n : N).
Implicit Types (constants : Variables) (i : nat) (c : GenConfig).
Lemma wp_process_testcase G op n task_dir o (name : text) (generator : string) (t : TestCase) (a : Variables * Gathering) s
    (P : Variables * Gathering → EvaluationData TaskCallback → Prop) :
  is_Some (found task_dir ("gen/" +:+ default generator (tc_generator t) +:+ ".*")) →
  (∀ b, tc_group_name t = Some b → named b) → gathered G named op n a.2 → (n < u32_modulus)%N → name ∈ op →
  output_generator_ok G o → unbuilt G s →
  (∀ a' s', unbuilt G s' → gathered G named op (n + 1) a'.2 → P a' s') →
  wp (process_testcase task_dir o name generator t a) P may_fail s.
Proof.
  intros Hf Hnamed Hg Hn Hname Ho Hu HP. unfold process_testcase. destruct a as [constants g]. simpl in Hg.
  apply wp_bind. eapply wp_get_generator; [done..|]. intros x s1 Hu1 Hx.
  apply wp_bind. apply wp_orderly; [apply instantiate_orderly|]. intros args _. apply wp_ret. apply HP; [done|].
  destruct (gathered_add G named op n name (tc_group_name t) (IG_Custom x args) o g Hg) as [Hid Hg1]; [done..|].
  simpl. by rewrite Hid.
Qed.
Lemma wp_process_testcases G op n task_dir o (name : text) (generator : string) i (l : list TestCase) (a : Variables * Gathering) s
    (P : Variables * Gathering → EvaluationData TaskCallback → Prop) :
  (∀ t, t ∈ l → is_Some (found task_dir ("gen/" +:+ default generator (tc_generator t) +:+ ".*"))) →
  (∀ t b, t ∈ l → tc_group_name t = Some b → named b) → gathered G named op n a.2 →
  (n + N.of_nat (length l) < u32_modulus)%N → name ∈ op → output_generator_ok G o → unbuilt G s →
  (∀ a' s', unbuilt G s' → gathered G named op (n + N.of_nat (length l)) a'.2 → P a' s') →
  wp (process_testcases task_dir o name generator i l a) P may_fail s.
Proof.
  revert i n a s P. induction l as [|t l IH]; intros i n a s P Hf Hnamed Hg Hn Hname Ho Hu HP;
    cbn [process_testcases].
  { apply wp_ret, HP; [done|]. by rewrite N.add_0_r. }
  cbn [length] in *. apply wp_bind, wp_context.
  eapply (wp_process_testcase G op n); [apply Hf; by left|intros b; apply Hnamed; by left|done|lia|done..|].
  intros a1 s1 Hu1 Hg1. eapply (IH _ (n + 1)%N); [by intros; apply Hf; right|intros; eapply Hnamed; [by right|done]|
    done|lia|done..|].
  intros a2 s2 Hu2 Hg2. apply HP; [done|].
  by replace (n + N.of_nat (S (length l)))%N with (n + 1 + N.of_nat (length l))%N by lia.
Qed.

Lemma wp_process_group G op n task_dir o generator constants (name : text) (group : GroupConfig) g s
    (P : Gathering → EvaluationData TaskCallback → Prop) :
  is_Some (found task_dir ("gen/" +:+ generator +:+ ".*")) →
  (∀ p, p ∈ generators_of group → is_Some (found task_dir ("gen/" +:+ p +:+ ".*"))) →
  (∀ t b, t ∈ gc_testcases (resolve_repeats group) → tc_group_name t = Some b → named b) →
  gathered G named op n g → (n + N.of_nat (group_size group) < u32_modulus)%N → output_generator_ok G o →
  unbuilt G s →
  (∀ g' s', unbuilt G s' → gathered G named (name :: op) (n + N.of_nat (group_size group)) g' → P g' s') →
  wp (process_group task_dir o generator constants name group g) P may_fail s.
Proof.
  intros Hgen Hf Hnamed Hg Hn Ho Hu HP. unfold process_group. cbn zeta. unfold group_size in *. apply wp_bind.
  assert (name ∈ name :: op) as Hname by by left.
  eapply (wp_process_testcases G (name :: op) (n + N.of_nat (length (gc_copy group)))); [|done| |lia|done..|].
  - intros t Ht. assert (tc_generator t = None ∨ ∃ p, tc_generator t = Some p) as [->|[p Hp]]
      by (destruct (tc_generator t); eauto); simpl.
    + destruct (gc_generator group) as [p|] eqn:Hp; [|done]. apply Hf. unfold generators_of. rewrite Hp. by left.
    + rewrite Hp. apply Hf, elem_of_app. right. apply list_elem_of_omap. by exists t.
  - simpl. apply gathered_statics; [by apply gathered_open|done|done|lia].
  - intros [? g'] s' Hu' Hg'. apply wp_ret, HP; [done|]. by rewrite Nat2N.inj_add, N.add_assoc.
Qed.
Lemma gathered_sub G op op' n g : op' ⊆ op → gathered G named op n g → gathered G named op' n g.
Proof. intros Hsub [[] ? ? ? ?]. split; [split; auto|done..]. Qed.

Lemma wp_process_groups G op n task_dir o generator constants (l : list (text * GroupConfig)) g s
    (P : Gathering → EvaluationData TaskCallback → Prop) :
  is_Some (found task_dir ("gen/" +:+ generator +:+ ".*")) →
  (∀ x p, x ∈ l → p ∈ generators_of x.2 → is_Some (found task_dir ("gen/" +:+ p +:+ ".*"))) →
  (∀ x t b, x ∈ l → t ∈ gc_testcases (resolve_repeats x.2) → tc_group_name t = Some b → named b) →
  gathered G named op n g → (n + N.of_nat (sizes l) < u32_modulus)%N → output_generator_ok G o →
  unbuilt G s →
  (∀ g' s', unbuilt G s' → gathered G named (op ++ l.*1) (n + N.of_nat (sizes l)) g' → P g' s') →
  wp (process_groups task_dir o generator constants l g) P may_fail s.
Proof.
  intros Hgen. revert op n g s P. induction l as [|[name group] l IH]; intros op n g s P Hf Hnamed Hg Hn Ho Hu HP;
    cbn [process_groups].
  { apply wp_ret, HP; [done|]. simpl. by rewrite N.add_0_r, app_nil_r. }
  cbn [sizes snd] in *. apply wp_bind.
  eapply (wp_process_group G op n); [done|intros p; apply (Hf (name, group)); by left
    |intros t b; apply (Hnamed (name, group)); by left|done|lia|done..|].
  intros g1 s1 Hu1 Hg1. eapply (IH (name :: op) (n + N.of_nat (group_size group))%N);
    [intros; eapply Hf; [by right|done]|intros; eapply Hnamed; [by right|done..]|done|lia|done..|].
  intros g2 s2 Hu2 Hg2. apply HP; [done|]. rewrite Nat2N.inj_add, N.add_assoc.
  eapply gathered_sub; [|exact Hg2]. intros a. simpl. rewrite elem_of_app, !elem_of_cons, elem_of_app. tauto.
Qed.

(** All of it: at the end every group has its inclusions. *)
Record complete G (c : GenConfig) g (n : N) : Prop := {
  cp_gathered : gathered G named (opened c) n g;
  cp_declared : declared g
}.
Lemma wp_gather G task_dir (task_name : string) o c s (P : Gathering → EvaluationData TaskCallback → Prop) :
  described task_dir c → (∀ a, named a ↔ a ∈ opened c) → output_generator_ok G o → unbuilt G s →
  (∀ g n s', unbuilt G s' → complete G c g n → P g s') →
  wp (gather task_dir task_name o c) P may_fail s.
Proof.
  intros Hd Hnamed Ho Hu HP. unfold gather.
  pose proof (ds_small _ _ Hd) as Hn. unfold all_groups in *. rewrite group_sizes_app, Nat2N.inj_add in Hn.
  assert (∀ x, x ∈ gt_group c ∨ x ∈ (λ x, (x.1, sc_group x.2)) <$> gt_subtask c → x ∈ all_groups c) as Hin
    by (intros x; by rewrite <-elem_of_app).
  apply wp_bind. eapply (wp_process_groups G _ (samples_num (gt_samples c))); [apply Hd| | |apply gathered_samples; [done|lia]|lia|done..|].
  { intros x p Hx. apply (ds_generators _ _ Hd). auto. }
  { intros x t b Hx Ht Hb. apply Hnamed. eapply (ds_groups _ _ Hd); eauto. }
  intros g1 s1 Hu1 Hg1. eapply (wp_process_groups G); [apply Hd| | |exact Hg1|lia|done..|].
  { intros x p Hx. apply (ds_generators _ _ Hd). auto. }
  { intros x t b Hx Ht Hb. apply Hnamed. eapply (ds_groups _ _ Hd); eauto. }
  intros g2 s2 Hu2 Hg2.
  assert (gathered G named (opened c) (samples_num (gt_samples c) + N.of_nat (sizes (gt_group c)) +
    N.of_nat (sizes ((λ x, (x.1, sc_group x.2)) <$> gt_subtask c))) g2) as Hg.
  { eapply gathered_sub; [|exact Hg2]. unfold opened, all_groups. rewrite fmap_app. set_solver. }
  eapply HP; [done|]. split; [exact Hg|]. intros a [Ha|Ha%Hnamed]%(go_declared _ _ _ _ (ga_groups _ _ _ _ _ Hg)); [done|].
  by apply (go_opened _ _ _ _ (ga_groups _ _ _ _ _ Hg)).
Qed.

(** ** The subtasks *)

(** The subtasks with the names [ns], in order: each lists what its groups have and owns
    what no earlier subtask lists; [owned] is what they have together. *)
Record subtasks_ok G g (ns : list text) (subtasks : gmap SubtaskId BuildSubtask) (owned : gset TestcaseId) : Prop := {
  so_keys : ∀ k, is_Some (subtasks !! k) ↔ (k < N.of_nat (length ns))%N;
  so_subtask : ∀ k st, subtasks !! k = Some st → ∃ a, ns !! N.to_nat k = Some a ∧
    subtask_id (subtask_info st) = k ∧ subtask_name (subtask_info st) = Some a ∧
    input_validator_ok G (input_validator st) ∧ depends_on st = [];
  so_listed : ∀ k st a, subtasks !! k = Some st → ns !! N.to_nat k = Some a →
    StronglySorted N.le (listed st) ∧ ∀ tc, tc ∈ listed st ↔ in_subtask g a tc;
  so_own : ∀ k st a, subtasks !! k = Some st → ns !! N.to_nat k = Some a →
    ascending (testcases_owned (subtask_info st)) ∧
    ∀ tc, tc ∈ testcases_owned (subtask_info st) ↔
      in_subtask g a tc ∧ ∀ j b, j < N.to_nat k → ns !! j = Some b → ¬ in_subtask g b tc;
  so_owned : ∀ tc, tc ∈ owned ↔ ∃ a, a ∈ ns ∧ in_subtask g a tc
}.

Lemma wp_toml_subtask G g ns subtasks owned task_dir c (a : text) (x : SubtaskConfig) s
    (P : BuildSubtask * gset TestcaseId → EvaluationData TaskCallback → Prop) :
  is_Some (found task_dir ("gen/" +:+ default (gt_validator c) (sc_validator x) +:+ ".*")) →
  declared g → subtasks_ok G g ns subtasks owned → unbuilt G s →
  (∀ st owned' s', unbuilt G s' →
     subtasks_ok G g (ns ++ [a]) (<[N.of_nat (length ns) := st]> subtasks) owned' → P (st, owned') s') →
  wp (toml_subtask task_dir c g (N.of_nat (length ns)) a x owned) P may_fail s.
Proof.
  intros Hf Hdecl [Hk Hs Hl Ho How] Hu HP. unfold toml_subtask. cbn zeta. apply wp_bind, wp_context.
  apply wp_orderly; [apply instantiate_orderly|]. intros args _. apply wp_bind, wp_context.
  eapply wp_toml_validator; [done..|]. intros v s1 Hu1 Hv. apply wp_bind.
  pose proof (walk_spec g a owned Hdecl) as Hw. apply wp_orderly.
  { destruct (walk _ _ _ _); try done; [by left|by right; eexists]. }
  intros w Hrun. rewrite Hrun in Hw. destruct Hw as [_ Ht Hown Hnd Hows]. apply wp_ret, HP; [done|].
  assert ((ns ++ [a]) !! length ns = Some a) as Hlast by (by rewrite lookup_app_r, Nat.sub_diag).
  assert (∀ k st', subtasks !! k = Some st' → (k < N.of_nat (length ns))%N) as Hlt
    by (intros k st' Hst; apply Hk; by eexists).
  assert (∀ k, (k < N.of_nat (length ns))%N → (ns ++ [a]) !! N.to_nat k = ns !! N.to_nat k) as Hold
    by (intros k ?; apply lookup_app_l; lia).
  split.
  - intros k. rewrite length_app. simpl. destruct (decide (k = N.of_nat (length ns))) as [->|].
    + rewrite lookup_insert_eq. split; [lia|by eexists].
    + rewrite lookup_insert_ne, Hk by done. lia.
  - intros k st' [[<- <-]|[_ Hst]]%lookup_insert_Some.
    + exists a. by rewrite Nat2N.id.
    + destruct (Hs k st' Hst) as (b & Hb & ?). exists b. by rewrite Hold by eauto.
  - intros k st' b [[<- <-]|[_ Hst]]%lookup_insert_Some.
    + rewrite Nat2N.id, Hlast. intros [= <-]. split; [apply sorted_le|]. intros tc. unfold listed. simpl.
      by rewrite sorted_perm.
    + rewrite Hold by eauto. by apply Hl.
  - intros k st' b [[<- <-]|[_ Hst]]%lookup_insert_Some.
    + rewrite Nat2N.id, Hlast. intros [= <-]. split; [by apply sorted_once|]. intros tc. simpl.
      rewrite sorted_perm, Hown, How. apply and_iff_compat_l. split.
      * intros Hno j b Hj Hb Hin. rewrite lookup_app_l in Hb by done. apply Hno. exists b.
        split; [by eapply list_elem_of_lookup_2|done].
      * intros Hno (b & [j Hb]%list_elem_of_lookup & Hin). apply (Hno j b); [by eapply lookup_lt_Some| |done].
        by apply lookup_app_l_Some.
    + rewrite Hold by eauto. intros Hb. destruct (Ho k st' b Hst Hb) as [Hasc Hin]. split; [done|]. intros tc.
      rewrite Hin. apply and_iff_compat_l. apply Hlt in Hst. split; intros Hno j b' Hj Hb'.
      * rewrite lookup_app_l in Hb' by lia. by eapply Hno.
      * apply (Hno j b' Hj). by apply lookup_app_l_Some.
  - intros tc. rewrite Hows, How. setoid_rewrite elem_of_app. setoid_rewrite list_elem_of_singleton. naive_solver.
Qed.

Lemma wp_toml_subtasks G g ns task_dir c l (a : gmap SubtaskId BuildSubtask * gset TestcaseId) s
    (P : gmap SubtaskId BuildSubtask * gset TestcaseId → EvaluationData TaskCallback → Prop) :
  (∀ x, x ∈ l → is_Some (found task_dir ("gen/" +:+ default (gt_validator c) (sc_validator x.2) +:+ ".*"))) →
  declared g → subtasks_ok G g ns a.1 a.2 → (N.of_nat (length ns + length l) < u32_modulus)%N → unbuilt G s →
  (∀ a' s', unbuilt G s' → subtasks_ok G g (ns ++ l.*1) a'.1 a'.2 → P a' s') →
  wp (toml_subtasks task_dir c g (length ns) l a) P may_fail s.
Proof.
  intros Hf Hdecl. revert ns a s P Hf. induction l as [|[b x] l IH]; intros ns a s P Hf Ha Hn Hu HP;
    cbn [toml_subtasks].
  { apply wp_ret, HP; [done|]. by rewrite app_nil_r. }
  cbn [length] in Hn. rewrite N.mod_small by lia. apply wp_bind.
  eapply (wp_toml_subtask G g ns a.1 a.2); [apply (Hf (b, x)); by left|done..|]. intros st owned s1 Hu1 Ha1. cbn beta iota.
  replace (S (length ns)) with (length (ns ++ [b])) by (rewrite length_app; simpl; lia).
  apply IH; [intros; apply Hf; by right|done|rewrite length_app; simpl; lia|done|].
  intros a2 s2 Hu2 Ha2. apply HP; [done|]. by rewrite <-(assoc_L (++)) in Ha2.
Qed.
Lemma subtasks_start G g : subtasks_ok G g [] ∅ ∅.
Proof.
  split; try done.
  - intros k. rewrite lookup_empty. split; [by intros []|simpl; lia].
  - intros tc. split; [by intros ?%elem_of_empty|]. by intros (a & ?%elem_of_nil & _).
Qed.

Lemma check_used_spec g owned l :
  orderly (check_used g owned l) ∧
  (check_used g owned l = Ret tt → ∀ tc, tc ∈ l → tc ∈ owned ∨ ¬ grouped_somewhere g tc).
Proof.
  induction l as [|x l [Ho IH]]; simpl; [split; [by left|by intros _ tc ?%elem_of_nil]|].
  case_decide as Hx; [split; [done|]; intros Hr tc [->|?]%elem_of_cons; auto|].
  destruct (filter _ _) as [|[b k] r] eqn:Hfil; [|split; [by right; eexists|done]]. split; [done|].
  intros Hr tc [->|?]%elem_of_cons; [|auto]. right. intros (a & k & Ha & Hin).
  assert ((a, k) ∈ filter (λ y : text * list TestcaseId, x ∈ y.2) (map_iter (group_to_testcases g))) as Hm.
  { apply list_elem_of_filter. split; [done|]. by apply elem_of_map_iter. }
  rewrite Hfil in Hm. by apply elem_of_nil in Hm.
Qed.
End wp.

(** ** The task *)

(** How the subtasks and the testcases are arranged: the subtasks have the names [ns],
    each lists the testcases that [has] gives it, every testcase is owned by one of them,
    the first one that lists it. *)
Record toml_arranged (has : text → TestcaseId → Prop) (ns : list text) (t : BuildTask) : Prop := {
  ta_subtasks : ∀ k, is_Some (bt_subtasks t !! k) ↔ (k < N.of_nat (length ns))%N;
  ta_names : ∀ k st, bt_subtasks t !! k = Some st → ∃ a, ns !! N.to_nat k = Some a ∧
    subtask_id (subtask_info st) = k ∧ subtask_name (subtask_info st) = Some a ∧
    StronglySorted N.le (listed st) ∧ (∀ tc, tc ∈ listed st ↔ has a tc);
  ta_first : ∀ k tc, owns t k tc ↔ ∃ a, ns !! N.to_nat k = Some a ∧ has a tc ∧
    ∀ j b, j < N.to_nat k → ns !! j = Some b → ¬ has b tc;
  ta_owner : ∀ tc, is_Some (bt_testcases t !! tc) ↔ ∃ k, owns t k tc;
  ta_unique : ∀ k j tc, owns t k tc → owns t j tc → k = j
}.
Lemma arranged_iff (has has' : text → TestcaseId → Prop) ns t :
  (∀ a tc, has a tc ↔ has' a tc) → toml_arranged has ns t → toml_arranged has' ns t.
Proof. intros Hh []. by split; try done; setoid_rewrite <-Hh. Qed.

(** The task that the description asks for: the testcases of the plan with their inputs,
    the subtasks as they are described. *)
Record as_described `{UuidV4} `{LocalFiles} `{Blake3} `{LanguageManager} `{BuildProfile} `{Glob}
    (task_dir : PathBuf) (name : string) (c : GenConfig) (t : BuildTask) : Prop := {
  ad_testcases : ∀ tc, is_Some (bt_testcases t !! tc) ↔ N.to_nat tc < length (plan c name);
  ad_inputs : ∀ i e, plan c name !! i = Some e → ∃ x, bt_testcases t !! N.of_nat i = Some x ∧
    made_from task_dir (N.of_nat i) (en_source e) (input_generator x);
  ad_subtasks : all_described task_dir c (gt_subtask c) (bt_subtasks t);
  ad_arranged : toml_arranged (reached c name) (gt_subtask c).*1 t
}.

Section task.
Context `{BuildProfile} (G : gset Uuid) (named : text → Prop) (c : GenConfig) (g : Gathering) (n : N).
Context (subtasks : gmap SubtaskId BuildSubtask) (owned : gset TestcaseId).
Context (Hc : complete named G c g n) (Hs : subtasks_ok G g (gt_subtask c).*1 subtasks owned).
Context (Hused : ∀ tc, (tc < n)%N → tc ∈ owned).
Implicit Types (t : BuildTask).

Lemma in_subtask_bound a tc : in_subtask g a tc → (tc < n)%N.
Proof.
  intros (b & _ & _ & l & Hb & Hin). exact (go_members _ _ _ _ (ga_groups _ _ _ _ _ (cp_gathered _ _ _ _ _ Hc)) _ _ _ Hb Hin).
Qed.
Lemma subtask_at k : (k < N.of_nat (length (gt_subtask c).*1))%N →
  ∃ st a, subtasks !! k = Some st ∧ (gt_subtask c).*1 !! N.to_nat k = Some a.
Proof.
  intros Hk. destruct (proj2 (so_keys _ _ _ _ _ Hs k) Hk) as [st Hst].
  destruct (so_subtask _ _ _ _ _ Hs k st Hst) as (a & Ha & _). by exists st, a.
Qed.
(** The subtask that owns a testcase: the first one that lists it. *)
Lemma first_owner tc : (∃ a, a ∈ (gt_subtask c).*1 ∧ in_subtask g a tc) →
  ∃ k st, subtasks !! k = Some st ∧ tc ∈ testcases_owned (subtask_info st).
Proof.
  intros (a & [i Ha]%list_elem_of_lookup & Hin).
  assert (∀ i b, (gt_subtask c).*1 !! i = Some b → in_subtask g b tc → ∃ k d, (gt_subtask c).*1 !! k = Some d ∧
    in_subtask g d tc ∧ ∀ j e, j < k → (gt_subtask c).*1 !! j = Some e → ¬ in_subtask g e tc) as Hmin.
  { clear i a Ha Hin. intros i. induction (lt_wf i) as [i _ IH]. intros b Hb Hin.
    destruct (decide (Exists (λ j, tc ∈ default [] (listed <$> subtasks !! N.of_nat j)) (seq 0 i))) as [He|Hno].
    - apply Exists_exists in He as (j & Hj%elem_of_seq & Hlist).
      apply lookup_lt_Some in Hb. destruct (subtask_at (N.of_nat j)) as (st & d & Hst & Hd); [lia|].
      rewrite Hst in Hlist. apply (so_listed _ _ _ _ _ Hs _ _ _ Hst Hd) in Hlist.
      rewrite Nat2N.id in Hd. apply (IH j) with d; [lia|done|done].
    - exists i, b. split_and!; [done..|]. intros j e Hj He Hin'. apply Hno, Exists_exists. exists j.
      split; [apply elem_of_seq; lia|].
      destruct (subtask_at (N.of_nat j)) as (st & d & Hst & Hd); [apply lookup_lt_Some in He; lia|].
      rewrite Hst. simpl. apply (so_listed _ _ _ _ _ Hs _ _ _ Hst Hd). rewrite Nat2N.id in Hd. by simplify_eq. }
  destruct (Hmin i a Ha Hin) as (k & d & Hd & Hdin & Hfirst).
  destruct (subtask_at (N.of_nat k)) as (st & e & Hst & He); [apply lookup_lt_Some in Hd; lia|].
  exists (N.of_nat k), st. split; [done|]. apply (so_own _ _ _ _ _ Hs _ _ e Hst He).
  rewrite Nat2N.id in *. simplify_eq. done.
Qed.

Lemma toml_owns t k tc : bt_subtasks t = subtasks →
  owns t k tc ↔ ∃ a, (gt_subtask c).*1 !! N.to_nat k = Some a ∧ in_subtask g a tc ∧
    ∀ j b, j < N.to_nat k → (gt_subtask c).*1 !! j = Some b → ¬ in_subtask g b tc.
Proof.
  intros Ht. unfold owns. rewrite Ht. split.
  - intros (st & Hst & Hin). destruct (so_subtask _ _ _ _ _ Hs k st Hst) as (a & Ha & _).
    exists a. split; [done|]. by apply (so_own _ _ _ _ _ Hs k st a Hst Ha).
  - intros (a & Ha & Hin). destruct (subtask_at k) as (st & b & Hst & Hb); [apply lookup_lt_Some in Ha; lia|].
    exists st. split; [done|]. apply (so_own _ _ _ _ _ Hs k st b Hst Hb). by simplify_eq.
Qed.
Lemma toml_owner t tc : bt_subtasks t = subtasks → (tc < n)%N → ∃ k, owns t k tc.
Proof.
  intros Ht Hlt. apply Hused, (so_owned _ _ _ _ _ Hs) in Hlt. apply first_owner in Hlt as (k & st & Hst & Hin).
  exists k, st. by rewrite Ht.
Qed.

Lemma toml_task_arranged_at t :
  bt_subtasks t = subtasks → bt_testcases t = ga_testcases g → toml_arranged (in_subtask g) (gt_subtask c).*1 t.
Proof.
  intros Ht Htc. pose proof (cp_gathered _ _ _ _ _ Hc) as Hg. split.
  - intros k. rewrite Ht. apply Hs.
  - intros k st. rewrite Ht. intros Hst. destruct (so_subtask _ _ _ _ _ Hs k st Hst) as (a & Ha & ? & ? & _).
    exists a. split_and!; [done..| |]; by apply (so_listed _ _ _ _ _ Hs k st a Hst Ha).
  - intros k tc. by apply toml_owns.
  - intros tc. rewrite Htc, (ga_keys _ _ _ _ _ Hg). split; [by apply toml_owner|].
    intros (k & Hk). apply (toml_owns t k tc Ht) in Hk as (a & _ & Hin & _). by eapply in_subtask_bound.
  - intros k j tc (a & Ha & Hina & Hfa)%(toml_owns t k tc Ht) (b & Hb & Hinb & Hfb)%(toml_owns t j tc Ht).
    destruct (decide (N.to_nat k < N.to_nat j)) as [Hlt|]; [by destruct (Hfb _ _ Hlt Ha)|].
    destruct (decide (N.to_nat j < N.to_nat k)) as [Hlt|]; [by destruct (Hfa _ _ Hlt Hb)|]. lia.
Qed.

Lemma toml_buildable t :
  bt_subtasks t = subtasks → bt_testcases t = ga_testcases g → task_type_ok G (task_type t) →
  memory_ok (bt_memory_limit t) → buildable G t.
Proof.
  intros Ht Htc Htt Hmem. pose proof (cp_gathered _ _ _ _ _ Hc) as Hg.
  assert (∀ k st tc, subtasks !! k = Some st → tc ∈ listed st ∨ tc ∈ testcases_owned (subtask_info st) → (tc < n)%N) as Hb.
  { intros k st tc Hst Hin. destruct (so_subtask _ _ _ _ _ Hs k st Hst) as (a & Ha & _).
    apply (in_subtask_bound a). destruct Hin as [Hin|Hin].
    - by apply (so_listed _ _ _ _ _ Hs k st a Hst Ha).
    - by apply (so_own _ _ _ _ _ Hs k st a Hst Ha). }
  split; rewrite ?Ht, ?Htc; try done.
  - intros k x Hx. simpl in Hx. rewrite Ht in Hx. apply lookup_fmap_Some in Hx as (st & <- & Hst).
    destruct (so_subtask _ _ _ _ _ Hs k st Hst) as (a & _ & Hid & _). split; [done|].
    intros tc Hin. simpl. rewrite Htc, lookup_fmap, fmap_is_Some. apply (ga_keys _ _ _ _ _ Hg). eapply Hb; eauto.
  - intros k x Hx. destruct (ga_tc _ _ _ _ _ Hg k x Hx) as (? & ? & ?). done.
  - intros k st tc Hst Hin. apply (ga_keys _ _ _ _ _ Hg). eapply Hb; eauto.
  - intros k st tc Hst Hin. destruct (toml_owner t tc Ht) as (j & st' & Hst' & ?); [eapply Hb; eauto|].
    rewrite Ht in Hst'. eauto.
  - intros k st Hst. by destruct (so_subtask _ _ _ _ _ Hs k st Hst) as (? & _ & _ & _ & ? & _).
Qed.
End task.

(** ** Loading *)
Lemma wp_with_run {S A} (m : M S A) Q E s : wp m Q E s → wp m (λ a s', Q a s' ∧ m s = (Ret a, s')) E s.
Proof. unfold wp. by destruct (m s) as [[] ?]. Qed.

Section load.
Context `{UuidV4} `{LocalFiles} `{WritableFiles} `{Blake3} `{LanguageManager} `{BuildProfile} `{IterOrder}.
Context `{Glob} `{Unicode} `{Yaml} `{Toml}.
Implicit Types (s : EvaluationData TaskCallback) (G : gset Uuid) (l : Loader).

Lemma clean_names_orderly {A} (acc l : list (text * A)) : orderly (clean_names acc l).
Proof.
  revert acc. induction l as [|[a x] l IH]; intros acc; simpl; [by left|].
  apply orderly_bind; [apply cleanup_orderly|]. intros b _. apply IH.
Qed.
Lemma clean_config_orderly c : orderly (clean_config c).
Proof.
  unfold clean_config. do 2 (apply orderly_bind; [apply clean_names_orderly|]; intros ? _). by left.
Qed.

(** *** The parts *)
Lemma wp_toml_solution G task_dir m s (P : OutputGenerator → EvaluationData TaskCallback → Prop) :
  globbed task_dir → unbuilt G s → graders_in G (Some m) →
  (∀ o s', unbuilt G s' → output_generator_ok G o → P o s') →
  wp (detect_toml_solution task_dir m) P may_fail s.
Proof.
  intros Hg Hu Hm HP. unfold detect_toml_solution. apply wp_bind_assoc, wp_bind, (wp_find_one G); try done.
  - unfold task_patterns, program_patterns. set_solver.
  - eexists. by apply (path_file_name_app task_dir [Normal "bin"; Normal "official_solution"]).
  - intros [x|] s' Hu' Hx; [|done]. apply wp_ret, HP; [done|]. by apply Hx.
Qed.
Lemma wp_toml_output G task_dir tt m s (P : OutputGenerator → EvaluationData TaskCallback → Prop) :
  globbed task_dir → unbuilt G s → graders_in G (Some m) →
  (∀ o s', unbuilt G s' → output_generator_ok G o → P o s') →
  wp (toml_output_generator task_dir tt m) P may_fail s.
Proof.
  intros Hg Hu Hm HP. unfold toml_output_generator. destruct tt; try (apply wp_ret; by apply HP).
  by apply (wp_toml_solution G).
Qed.
Lemma wp_toml_type G task_dir yaml m s (P : TaskType → EvaluationData TaskCallback → Prop) :
  globbed task_dir → unbuilt G s → graders_in G (Some m) → memory_ok (yaml_controller_memory_limit yaml) →
  (∀ tt s', unbuilt G s' → task_type_ok G tt → P tt s') →
  wp (toml_type task_dir yaml m) P may_fail s.
Proof.
  intros Hg Hu Hm Hmem HP. unfold toml_type, toml_interactive_data, toml_communication_data, toml_batch_data.
  apply wp_bind, wp_bind_assoc, wp_bind, (wp_find_program G); [done|set_solver|done|]. intros i s1 Hu1 Hi. apply wp_ret.
  apply wp_bind, wp_bind_assoc, wp_bind, (wp_find_program G); [done|set_solver|done|]. intros k s2 Hu2 Hk. apply wp_ret.
  destruct i as [x|], k as [y|]; [done|..].
  - apply wp_ret, HP; [done|]. split; [by apply standalone_ok, Hi|done].
  - apply wp_ret, HP; [done|]. by apply standalone_ok, Hk.
  - apply wp_bind_assoc, wp_bind, (wp_find_program G); [done|set_solver|done|]. intros o s3 Hu3 Ho.
    apply wp_bind, wp_context, (wp_toml_solution G); [done..|]. intros out s4 Hu4 _. apply wp_ret, HP; [done|].
    destruct o as [x|]; [|done]. by apply standalone_ok, Ho.
Qed.

(** *** The description *)
Definition among (c : GenConfig) (a : text) : Prop := a ∈ opened c.
(** What [parse_gen_toml] gives. *)
Record parsed_toml G task_dir (name : string) (c : GenConfig)
    (r : gmap SubtaskId BuildSubtask * gmap TestcaseId BuildTestcase) : Prop := {
  pt_described : ∃ c', clean_config c = Ret c' ∧
    ∀ t, bt_subtasks t = r.1 → bt_testcases t = r.2 → as_described task_dir name c' t;
  pt_buildable : ∀ t, bt_subtasks t = r.1 → bt_testcases t = r.2 → task_type_ok G (task_type t) →
    memory_ok (bt_memory_limit t) → buildable G t
}.
Lemma wp_parse_gen_toml G task_dir name tt m c s
    (P : gmap SubtaskId BuildSubtask * gmap TestcaseId BuildTestcase → EvaluationData TaskCallback → Prop) :
  (∀ c', clean_config c = Ret c' → described task_dir c') → globbed task_dir → unbuilt G s →
  graders_in G (Some m) →
  (∀ r s', unbuilt G s' → parsed_toml G task_dir name c r → P r s') →
  wp (parse_gen_toml task_dir name tt m c) P may_fail s.
Proof.
  intros Hd Hg Hu Hm HP. unfold parse_gen_toml. apply wp_bind, wp_orderly; [apply clean_config_orderly|].
  intros c' Hc'. specialize (Hd c' Hc'). apply wp_bind, (wp_toml_output G); [done..|]. intros o s1 Hu1 Ho.
  assert (wp (gather task_dir name o c') (λ g s', (unbuilt G s' ∧ ∃ n, complete (among c') G c' g n) ∧
    gather task_dir name o c' s1 = (Ret g, s')) may_fail s1) as Hga.
  { apply wp_with_run. eapply (wp_gather (among c') G); [done|done|done|done|]. intros g n s2 Hu2 Hcomp. eauto. }
  apply wp_bind. eapply wp_mono; [exact Hga| |done]. intros g s2 [[Hu2 [n Hcomp]] Hrun]. simpl.
  assert (N.of_nat (length (plan c' name)) < u32_modulus)%N as Hsmall.
  { rewrite plan_length. pose proof (ds_small _ _ Hd). lia. }
  pose proof (gather_laid c' task_dir name o s1 g s2 Hsmall Hrun) as Hlaid. apply wp_bind.
  eapply wp_mono; [apply wp_with_run; eapply (wp_toml_subtasks (among c') G g [] _ _ _ _ _
    (λ a s', unbuilt G s' ∧ subtasks_ok G g (gt_subtask c').*1 a.1 a.2));
    [apply Hd|apply Hcomp|apply subtasks_start|apply Hd|done|by intros]| |done].
  intros [subtasks owned] s3 [[Hu3 Hs] Hsub]. cbn [fst snd] in Hs. cbn beta iota.
  apply toml_subtasks_described in Hsub; [|apply Hd].
  destruct (check_used_spec g owned (keys_iter (ga_testcases g))) as [Hor Hused].
  apply wp_bind, wp_orderly; [done|]. intros [] Hret. apply wp_ret. specialize (Hused Hret).
  pose proof (cp_gathered _ _ _ _ _ Hcomp) as Hgath.
  assert (∀ tc, (tc < n)%N → tc ∈ owned) as Hall.
  { intros tc Hlt. destruct (Hused tc) as [|Hno]; [|done|].
    - by apply elem_of_keys_iter, (ga_keys _ _ _ _ _ Hgath).
    - by destruct (Hno (ga_used _ _ _ _ _ Hgath tc Hlt)). }
  apply HP; [done|]. split; simpl.
  - exists c'. split; [done|]. intros t Ht Htc. split.
    + rewrite Htc. intros tc. split; [apply (la_only _ _ _ _ _ Hlaid)|]. intros [e He]%lookup_lt_is_Some.
      destruct (la_testcase _ _ _ _ _ Hlaid _ _ He) as (x & Hx & _). rewrite N2Nat.id in Hx. by eexists.
    + rewrite Htc. apply (la_testcase _ _ _ _ _ Hlaid).
    + by rewrite Ht.
    + eapply arranged_iff; [by eapply laid_reached|]. by eapply toml_task_arranged_at.
  - intros t. by eapply toml_buildable.
Qed.

(** *** The whole *)
Record toml_loadable (task_dir : PathBuf) : Prop := {
  tl_globbed : globbed task_dir;
  tl_name : is_Some (path_file_name task_dir);
  tl_described : ∀ t c c', read_to_string (path_join task_dir [Normal "gen"; Normal "gen.toml"]) = Some t →
    gen_toml_from t = Some c → clean_config c = Ret c' → described task_dir c';
  tl_memory : ∀ yaml, load_toml task_dir = Ret yaml →
    memory_ok (yaml_memory_limit yaml) ∧ memory_ok (yaml_controller_memory_limit yaml)
}.
Lemma read_toml_orderly {A} (parse : text → option A) e path : orderly (read_toml parse e path).
Proof. unfold read_toml. repeat case_match; (by left) || (by right; eexists). Qed.
Lemma load_toml_orderly task_dir : is_Some (path_file_name task_dir) → orderly (load_toml task_dir).
Proof.
  intros [n Hn]. unfold load_toml. destruct (negb _); [by right; eexists|].
  apply orderly_bind; [apply read_toml_orderly|]. intros o _. unfold into_task_yaml. rewrite Hn. by left.
Qed.

(** What the directory describes, and the task that is loaded from it. *)
Definition toml_loaded task_dir (t : BuildTask) : Prop :=
  bt_path t = task_dir ∧ ∃ content c c' yaml, load_toml task_dir = Ret yaml ∧
    read_to_string (path_join task_dir [Normal "gen"; Normal "gen.toml"]) = Some content ∧
    gen_toml_from content = Some c ∧ clean_config c = Ret c' ∧ as_described task_dir (yaml_name yaml) c' t.
Lemma wp_parse_toml_task dry task_dir l (P : BuildTask → Loader → Prop) :
  toml_loadable task_dir → unbuilt ∅ (ld_eval l) →
  (∀ G t l', unbuilt G (ld_eval l') → buildable G t → graders_ok G (bt_grader_map t) → toml_loaded task_dir t →
     P t l') →
  wp (parse_toml_task dry task_dir) P may_fail l.
Proof.
  intros Hl Hu HP. unfold parse_toml_task. apply wp_bind, wp_orderly; [apply load_toml_orderly, Hl|].
  intros yaml Hyaml. destruct (tl_memory _ Hl _ Hyaml) as [Hmem Hcmem].
  destruct (list_files_found task_dir ["sol/grader.*"; "sol/stub.*"]) as (paths & Hpaths & _).
  { intros p Hp. apply (gl_valid _ (tl_globbed _ Hl)). unfold task_patterns, program_patterns. set_solver. }
  apply wp_bind. eapply wp_lift_ret; [exact Hpaths|].
  apply wp_bind, wp_in_program, (wp_graders ∅); [done|intros g k d [= <-]; simpl; by rewrite lookup_empty|].
  intros G map s1 Hu1 Hm. apply wp_bind, wp_in_program, (wp_toml_type G); [apply Hl|done..|].
  intros tt s2 Hu2 Htt. apply wp_bind, wp_in_program. unfold load_gen_toml.
  apply wp_bind, wp_orderly; [apply read_toml_orderly|]. intros c Hread.
  unfold read_toml in Hread.
  destruct (read_to_string (path_join task_dir [Normal "gen"; Normal "gen.toml"])) as [content|] eqn:Hcontent; [|done].
  simpl in Hread. destruct (gen_toml_from content) as [c0|] eqn:Hc; [|done]. injection Hread as ->.
  eapply (wp_parse_gen_toml G); [|apply Hl|done|done|].
  { intros c'. by eapply (tl_described _ Hl). }
  intros [subtasks testcases] s3 Hu3 Hpt. cbn beta iota zeta.
  assert (∀ t l', ld_eval l' = s3 → bt_subtasks t = subtasks → bt_testcases t = testcases → task_type t = tt →
    bt_memory_limit t = yaml_memory_limit yaml → bt_grader_map t = map → bt_path t = task_dir → P t l') as Hend.
  { intros t l' Hl' Hst Htc Htype Hml Hmap Hdir. apply (HP G).
    - by rewrite Hl'.
    - apply (pt_buildable _ _ _ _ _ Hpt); [done|done|by rewrite Htype|by rewrite Hml].
    - intros k d Hd. rewrite Hmap in Hd. by eapply Hm.
    - split; [done|]. destruct (pt_described _ _ _ _ _ Hpt) as (c' & Hc' & Ht).
      exists content, c, c', yaml. split_and!; [done..|]. by apply Ht. }
  apply wp_bind. unfold write_toml_yaml. destruct dry.
  - do 2 apply wp_ret. by apply Hend; try (by destruct yaml).
  - unfold write_text. wp_steps; [|done]. by apply Hend; try (by destruct yaml).
Qed.
End load.

(** ** Example *)
Definition ex_toml_files (l : list (string * string)) : LocalFiles :=
  {| canonical := Some;
     nodes := list_to_map ((λ x, (path_join ex_task_dir (path_of_string x.1), ex_node x.2)) <$> (l ++
       [("task.toml", ""); ("gen/gen.toml", ""); ("gen/generator.py", ""); ("gen/validator.py", "");
        ("gen/corner.txt", ""); ("statement/t.input0.txt", ""); ("statement/t.input1.txt", "");
        ("sol/solution.cpp", "")])) |}.
Definition ex_toml_glob : Glob :=
  {| glob := λ p, Some (path_join ex_task_dir ∘ path_of_string <$>
       (if decide (p = "/t/gen/generator.*") then ["gen/generator.py"]
        else if decide (p = "/t/gen/validator.*") then ["gen/validator.py"]
        else if decide (p = "/t/sol/solution.*" ∨ p = "/t/sol/*") then ["sol/solution.cpp"] else [])) |}.
Definition ex_toml (c : GenConfig) : Toml :=
  {| task_toml_from := λ _, yaml_orig_from (Yaml := ex_yaml) [];
     gen_toml_from := λ _, Some c |}.
Definition ex_parse_toml (l : list (string * string)) (c : GenConfig) : M Loader BuildTask :=
  @parse_toml_task counting_uuids (ex_toml_files l) ex_writable ex_platform ex_languages forward_order
    ex_toml_glob ex_unicode ex_yaml (ex_toml c) false ex_task_dir.

(** The testcases: two samples, two of [small], [corner], the ones of [easy] and [full];
    the last one is also in [small], which [easy] includes. *)
Example ex_toml_parsed :
  match (ex_parse_toml [] ex_gen_config ex_loader).1 with
  | Ret t => (λ x : SubtaskId * BuildSubtask,
      (string_of_text (default [] (subtask_name (subtask_info x.2))), testcases_owned (subtask_info x.2))) <$> map_to_list (bt_subtasks t)
  | _ => []
  end = [("full", []); ("easy", [2; 3; 4; 5; 6]); ("examples", [0; 1])]%N.
Proof. vm_compute. reflexivity. Qed.

(** Where the code does not do what it means to.  A group that only a testcase names has
    no inclusions, and a subtask that includes it makes the program panic: *)
Definition ex_named (a : string) : TestCase :=
  TC_Detailed None (SpaceSeparated (text_of "1")) (Some (text_of a)) None.
Definition ex_config (group : list (text * GroupConfig)) (subtask : list (text * SubtaskConfig)) : GenConfig :=
  mkGenConfig default_generator default_validator (ArgumentList []) (Samples_Simple 0) group subtask ∅.
Lemma undeclared_group_panics :
  (ex_parse_toml [] (ex_config []
     [(text_of "a", ex_subtask 40 (ex_group 1 [] [] [ex_named "big"]));
      (text_of "b", ex_subtask 60 (ex_group 1 ["big"] [] []))]) ex_loader).1 =
  Panicked "called `Option::unwrap()` on a `None` value".
Proof. vm_compute. reflexivity. Qed.
(** a testcase that a subtask reaches through two groups is listed twice: *)
Lemma testcase_listed_twice :
  match (ex_parse_toml [] (ex_config [(text_of "big", ex_group 1 [] [] [])]
           [(text_of "a", ex_subtask 100 (ex_group 1 ["big"] [] [ex_named "big"; ex_args "2"]))]) ex_loader).1 with
  | Ret t => option_map listed (bt_subtasks t !! 0%N)
  | _ => None
  end = Some [0; 0; 1]%N.
Proof. vm_compute. reflexivity. Qed.
(** of two subtasks with the same name once it is cleaned, the first one is lost: *)
Lemma subtask_silently_replaced :
  match (ex_parse_toml [] (ex_config []
           [(text_of "a", ex_subtask 40 (ex_group 1 [] [] [ex_args "1"]));
            (text_of "a ", ex_subtask 60 (ex_group 1 [] [] [ex_args "2"]))]) ex_loader).1 with
  | Ret t => Some (size (bt_subtasks t), size (bt_testcases t))
  | _ => None
  end = Some (1, 1).
Proof. vm_compute. reflexivity. Qed.
(** a task.yaml without the line that lets task-maker write it is written: *)
Lemma manual_yaml_overwritten :
  (λ x : PathBuf * text, path_to_string x.1) <$>
    ld_written (ex_parse_toml [("task.yaml", "title: written by hand")] ex_gen_config ex_loader).2 = ["/t/task.yaml"].
Proof. vm_compute. reflexivity. Qed.

Lemma ex_toml_described (l : list (string * string)) c' :
  @clean_config ex_unicode ex_gen_config = Ret c' → @described ex_toml_glob ex_task_dir c'.
Proof.
  assert (@clean_config ex_unicode ex_gen_config = Ret ex_gen_config) as -> by (vm_compute; reflexivity).
  intros [= <-]. split; try (by intros; eexists); try (vm_compute; reflexivity).
  assert (forallb (λ x : text * GroupConfig, forallb (λ t, match tc_group_name t with
      | Some a => bool_decide (a ∈ opened ex_gen_config) | None => true end)
    (gc_testcases (resolve_repeats x.2))) (all_groups ex_gen_config) = true) as Hall by (vm_compute; reflexivity).
  intros x t a Hx%list_elem_of_In Ht%list_elem_of_In Ha. rewrite forallb_forall in Hall. specialize (Hall x Hx).
  rewrite forallb_forall in Hall. specialize (Hall t Ht). rewrite Ha in Hall. by apply bool_decide_eq_true in Hall.
Qed.
Lemma ex_toml_loadable : @toml_loadable (ex_toml_files []) dev_profile ex_toml_glob ex_unicode (ex_toml ex_gen_config) ex_task_dir.
Proof.
  split.
  - split; [intros; by eexists|]. intros p l x Hp.
    assert (@found ex_toml_glob ex_task_dir p = Some []) as ->; [|by intros [= <-] ?%elem_of_nil].
    unfold program_patterns in Hp. rewrite !elem_of_cons, elem_of_nil in Hp.
    destruct_or! Hp; try done; subst p; vm_compute; reflexivity.
  - by eexists.
  - intros t c c' _ [= <-]. by apply (ex_toml_described []).
  - assert ((λ x, (yaml_memory_limit x, yaml_controller_memory_limit x)) <$>
      @load_toml (ex_toml_files []) (ex_toml ex_gen_config) ex_task_dir = Ret (Some 256%N, Some 256%N)) as Hmem by (vm_compute; reflexivity).
    intros yaml Hy. rewrite Hy in Hmem. simpl in Hmem. injection Hmem as H1 H2.
    rewrite H1, H2. split; intros x [= <-]; by left.
Qed.
Lemma ex_toml_searchable t :
  bt_path t = ex_task_dir → @searchable (ex_toml_files []) ex_toml_glob t ex_eval_config.
Proof.
  intros Ht. unfold searchable. rewrite Ht. split.
  - intros f [->|[->|[]%elem_of_nil]%elem_of_cons]%elem_of_cons; by eexists.
  - intros _. by eexists.
  - intros p _ [[]%elem_of_nil|Hp]. vm_compute in Hp.
    apply list_elem_of_singleton in Hp as ->. by eexists.
  - apply fits_files. vm_compute. reflexivity.
Qed.

(** ** Properties *)
Section properties.
Context `{UuidV4} `{LocalFiles} `{WritableFiles} `{Blake3} `{LanguageManager} `{BuildProfile} `{UuidDisplay}.
Context `{IterOrder} `{Glob} `{Unicode} `{Yaml} `{Toml}.

(** What a run of the program does with an IOI task before the execution. *)
Definition load_and_build (fuel : nat) (dry_run : bool) (task_dir : PathBuf) (config : EvaluationConfig) :
    M Loader (BuildTask * list Solution * list ScoreManager) :=
  t ← IOITask_new fuel dry_run task_dir; in_program (build_dag t config).


End properties.

