(* ===== verification/Terry.v ===== *)
(** * Terry tasks ([task-maker-format/src/terry])

    The second format of a task: a generator, a validator, a checker and an official
    solution in [managers/], no subtasks; each solution is evaluated on an input file of
    its own.  The search of the managers ([format/mod.rs]), the executions ([dag/mod.rs],
    [statement/mod.rs]), their composition and the cleaning ([mod.rs]).  The sanity
    checks are in [TerryChecks]. *)
From S2P Require Import Prelude Float64 Paths StoreKey Dag Text Diagnostics Checks UiMessage Machine.
From S2P Require Import Build Languages SourceFile Scoring Judge IoiDag TaskInput.

Definition OUTCOME_SIZE_LIMIT : N := (1024 * 1024)%N.
Definition STDERR_SIZE_LIMIT : N := (10 * 1024)%N.
Definition SOLUTION_TIME_LIMIT : f64 := f64_of_Z 20.

Record Statement : Type := mkStatement {
  statement_path : PathBuf;
  statement_subtasks : option PathBuf;
  statement_output : PathBuf
}.
(** A task: what the messages carry, and what is built. *)
Record TerryBuild : Type := mkTerryBuild {
  terry_info : TerryTask;
  terry_statement : option Statement;
  terry_generator : UiSourceFile;
  terry_validator : option UiSourceFile;
  terry_checker : UiSourceFile;
  terry_official_solution : option UiSourceFile
}.

(** [fastrand::u64(0..i32::MAX)]: the seed of the n-th solution without a seed given. *)
Class Fastrand : Type := { random_seed : nat → Seed }.

Definition set_tag (t : Tag) (g : ExecutionGroup) : ExecutionGroup :=
  let '(mkGroup u d es fs c _ p cs) := g in mkGroup u d es fs c (Some (tag_of t)) p cs.

Section builders.
Context `{UuidV4} `{LocalFiles} `{Blake3} `{LanguageManager} `{BuildProfile} `{UuidDisplay}.
Abbreviation Eval := (M (EvaluationData TaskCallback)).

(** ** The executions ([dag/mod.rs]) *)
Definition include_official_solution (official : option UiSourceFile) (exec : Execution) : Eval Execution :=
  match official with
  | None => mret exec
  | Some solution =>
      exe ← ui_executable solution;
      path ← lift (match write_bin_to (source_base solution) with
                   | Some p => Ret p | None => Fail ["managers should always be copied"] end);
      name ← lift (match path_file_name path with
                   | Some n => Ret n | None => Fail ["Invalid solution path"] end);
      mret (input exe [Normal name] true exec)
  end.
(** What the generator and the validator end with: the output is captured. *)
Definition manager_group (exec : Execution) : Eval (FileUuid * ExecutionGroup) :=
  '(stdout, exec) ← exec_capture_stdout None exec;
  '(_, exec) ← exec_capture_stderr (Some STDERR_SIZE_LIMIT) exec;
  group ← exec_into_group exec;
  mret (file_uuid stdout, set_tag Tag_Generation group).
(** The files of a solution are kept in [bin/io] when the executables are. *)
Definition keep_file (file : FileUuid) (name extension : string) : Eval unit :=
  s ← get_st;
  if copy_exe (config (data (eval_dag s))) then
    on_dag (write_file_to file
      (path_join (task_root s) (path_of_string ("bin/io/" +:+ name +:+ extension))) false)
  else mret tt.

Definition generate (source : UiSourceFile) (description : string) (seed : Seed)
    (official : option UiSourceFile) : Eval (FileUuid * ExecutionGroup) :=
  exec ← ui_execute source description [pretty seed; "0"];
  exec ← include_official_solution official exec;
  manager_group (limits_mut limits_allow_multiprocess exec).
Definition terry_generate (source solution : UiSourceFile) (seed : Seed)
    (official : option UiSourceFile) : Eval FileUuid :=
  name ← lift (sf_name (source_base solution));
  '(input_file, gen) ← generate source
    ("Generation of input file for " +:+ name +:+ " with seed " +:+ pretty seed) seed official;
  _ ← keep_file input_file name ".in";
  _ ← bind_exec_callbacks (group_uuid gen) (SK_TerryGeneration (sf_path (source_base solution)) seed);
  _ ← add_group gen;
  mret input_file.

Definition terry_validation (source : UiSourceFile) (description : string) (input_file : FileUuid)
    (official : option UiSourceFile) : Eval (FileUuid * ExecutionGroup) :=
  exec ← ui_execute source description [];
  exec ← include_official_solution official exec;
  manager_group (set_stdin (Input_File input_file) (limits_mut limits_allow_multiprocess exec)).
Definition terry_validate (source solution : UiSourceFile) (input_file : FileUuid)
    (official : option UiSourceFile) : Eval FileUuid :=
  name ← lift (sf_name (source_base solution));
  '(handle, val) ← terry_validation source ("Validation of input file for " +:+ name) input_file official;
  _ ← bind_exec_callbacks (group_uuid val) (SK_TerryValidation (sf_path (source_base solution)));
  _ ← add_group val;
  mret handle.

Definition solve (solution : UiSourceFile) (input_file : FileUuid) (validation_handle : option FileUuid) :
    Eval (FileUuid * ExecutionGroup) :=
  name ← lift (sf_name (source_base solution));
  exec ← ui_execute solution ("Evaluation of solution " +:+ name) [];
  let exec := set_stdin (Input_File input_file) exec in
  let exec := match validation_handle with
              | Some f => input f (path_of_string "wait_for_validation") false exec
              | None => exec
              end in
  '(output_file, exec) ← exec_capture_stdout None exec;
  '(_, exec) ← exec_capture_stderr (Some STDERR_SIZE_LIMIT) exec;
  let exec := limits_mut (λ l, set_wall_time (f64_mul SOLUTION_TIME_LIMIT (f64_dec 125 2))
                                 (set_cpu_time SOLUTION_TIME_LIMIT l)) exec in
  group ← exec_into_group exec;
  mret (file_uuid output_file, set_tag Tag_Evaluation group).
Definition terry_solve (solution : UiSourceFile) (input_file : FileUuid)
    (validation_handle : option FileUuid) : Eval FileUuid :=
  '(output_file, sol) ← solve solution input_file validation_handle;
  name ← lift (sf_name (source_base solution));
  _ ← keep_file output_file name ".out";
  _ ← bind_exec_callbacks (group_uuid sol) (SK_TerrySolution (sf_path (source_base solution)));
  _ ← add_group sol;
  mret output_file.

(** [callback] is the closure that takes the outcome. *)
Definition terry_checking (source : UiSourceFile) (description : string) (input_file output_file : FileUuid)
    (official : option UiSourceFile) (callback : OutcomeCallback) : Eval ExecutionGroup :=
  exec ← ui_execute source description ["input.txt"; "output.txt"];
  exec ← include_official_solution official exec;
  let exec := limits_mut (λ _, unrestricted) exec in
  let exec := input output_file (path_of_string "output.txt") false
                (input input_file (path_of_string "input.txt") false exec) in
  '(_, exec) ← exec_capture_stdout (Some OUTCOME_SIZE_LIMIT) exec;
  '(_, exec) ← exec_capture_stderr (Some STDERR_SIZE_LIMIT) exec;
  group ← exec_into_group exec;
  _ ← done_with (group_uuid group) (CB_TerryChecked callback);
  mret group.
Definition terry_check (source solution : UiSourceFile) (input_file output_file : FileUuid)
    (official : option UiSourceFile) : Eval unit :=
  name ← lift (sf_name (source_base solution));
  let path := sf_path (source_base solution) in
  group ← terry_checking source ("Checking output of " +:+ name) input_file output_file official (OC_Solution path);
  _ ← bind_exec_callbacks (group_uuid group) (SK_TerryChecker path);
  add_group group.

(** ** The statement ([statement/mod.rs]) *)
Definition statement_args (subtasks : bool) : list string :=
  if subtasks then ["terry-statement"; "-s"; "statement.in.md"; "-t"; "subtasks.yaml"; "-o"; "output.md"]
  else ["terry-statement"; "-s"; "statement.in.md"; "-o"; "output.md"].
Definition generate_statement (st : Statement) : Eval unit :=
  let exec := Execution_new "Generation of the statement" (system "task-maker-tools") in
  let exec := limits_mut (λ l, set_mount_tmpfs true (limits_allow_multiprocess (set_read_only false l))) exec in
  '(output_file, exec) ← exec_output (path_of_string "output.md") exec;
  template ← new_file "Statement template";
  let exec := input (file_uuid template) (path_of_string "statement.in.md") false exec in
  _ ← on_dag (provide_file template (statement_path st) (from_file (statement_path st)));
  exec ← match statement_subtasks st with
         | None => mret (set_args (statement_args false) exec)
         | Some path =>
             subtasks ← new_file "Subtasks";
             let exec := input (file_uuid subtasks) (path_of_string "subtasks.yaml") false exec in
             _ ← on_dag (provide_file subtasks path (from_file path));
             mret (set_args (statement_args true) exec)
         end;
  '(_, exec) ← exec_capture_stderr (Some 1024%N) exec;
  group ← exec_into_group exec;
  let group := set_tag Tag_Booklet group in
  _ ← done_with (group_uuid group) CB_TerryStatement;
  _ ← add_group group;
  on_dag (write_file_to (file_uuid output_file) (statement_output st) false).
End builders.

(** ** [TerryTask::build_dag] *)
Section task.
Context `{UuidV4} `{LocalFiles} `{Blake3} `{LanguageManager} `{BuildProfile} `{UuidDisplay} `{IterOrder} `{Glob}.
Context `{Fastrand}.
Abbreviation Eval := (M (EvaluationData TaskCallback)).

(** The body of the loop over the solutions; [seed] is the one of the configuration. *)
Definition evaluate_solution (t : TerryBuild) (seed : option Seed) (index : nat) (x : Solution) : Eval unit :=
  let seed := default (random_seed index) seed in
  let source := solution_source x in
  input_file ← terry_generate (terry_generator t) source seed (terry_official_solution t);
  validation_file ← match terry_validator t with
                    | Some v =>
                        f ← terry_validate v source input_file (terry_official_solution t);
                        mret (Some f)
                    | None => mret None
                    end;
  output_file ← terry_solve source input_file validation_file;
  terry_check (terry_checker t) source input_file output_file (terry_official_solution t).
Fixpoint terry_solutions (t : TerryBuild) (seed : option Seed) (index : nat) (l : list Solution) : Eval unit :=
  match l with
  | [] => mret tt
  | x :: l => _ ← evaluate_solution t seed index x; terry_solutions t seed (S index) l
  end.
Definition terry_build_dag (t : TerryBuild) (config : EvaluationConfig) (seed : option Seed) :
    Eval (list Solution) :=
  _ ← send (UI_TerryTask (terry_info t));
  solutions ← find_solutions config (terry_path (terry_info t)) ["solutions/*"] None;
  infos ← lift (try_map solution_info solutions);
  _ ← send (Solutions infos);
  _ ← terry_solutions t seed 0 solutions;
  _ ← match terry_statement t with Some st => generate_statement st | None => mret tt end;
  mret solutions.

(** ** The search of the parts ([format/mod.rs]) *)
Definition EXE_EXTENSION : string := target_os +:+ "." +:+ arch.
Definition get_manager (task_dir : PathBuf) (manager : string) : Eval (option UiSourceFile) :=
  managers ← find_source_file task_dir ["managers/" +:+ manager +:+ ".*"] task_dir "Terry manager at" None
    (WB_Path (path_of_string ("managers/" +:+ manager +:+ "." +:+ EXE_EXTENSION)));
  manager ← at_most_one "managers" managers;
  mret (standalone <$> manager).

Definition get_statement_template (task_dir : PathBuf) : option Statement :=
  let path := path_join task_dir (path_of_string "statement/statement.in.md") in
  if negb (path_exists path) then None
  else
    let subtasks_path := path_join task_dir (path_of_string "managers/subtasks.yaml") in
    Some (mkStatement path (if path_exists subtasks_path then Some subtasks_path else None)
            (path_join task_dir (path_of_string "statement/statement.md"))).

(** [serde_yaml] on the task file: the name, the description, the score. *)
Class TerryYaml : Type := { terry_yaml_from : list byte → option (string * string * f64) }.

Definition require (message : string) (x : option UiSourceFile) : Eval UiSourceFile :=
  match x with Some s => mret s | None => bail message end.
Definition terry_parse_task `{TerryYaml} (task_dir : PathBuf) : Eval TerryBuild :=
  '(name, description, max_score) ← lift (
    match stat (path_join task_dir [Normal "task.yaml"]) with
    | Some (RegularFile c) => match terry_yaml_from c with Some y => Ret y | None => Fail [] end
    | _ => Fail []
    end);
  generator ← get_manager task_dir "generator";
  generator ← require "No generator found in managers/" generator;
  validator ← get_manager task_dir "validator";
  checker ← get_manager task_dir "checker";
  checker ← require "No checker found in managers/" checker;
  official ← get_manager task_dir "solution";
  mret (mkTerryBuild (mkTerryTask task_dir name description max_score) (get_statement_template task_dir)
          generator validator checker official).

(** ** [TerryTask::clean]: the files that are removed, before the directory [bin] *)
Definition file_stem_of (p : PathBuf) : Outcome string :=
  unwrap "called `Option::unwrap()` on a `None` value" (path_file_stem p).
Fixpoint generated_managers (all_managers : list string) (l : list PathBuf) : Outcome (list PathBuf) :=
  match l with
  | [] => Ret []
  | maybe_generated :: l =>
      name ← file_stem_of maybe_generated;
      name ← file_stem_of (path_of_string name);
      rest ← generated_managers all_managers l;
      Ret (if bool_decide (name ∈ all_managers) then maybe_generated :: rest else rest)
  end.
Definition terry_clean (task_dir : PathBuf) : Outcome (list PathBuf * bool) :=
  managers ← list_files task_dir ["managers/*.*"];
  all_managers ← try_map file_stem_of managers;
  maybe ← list_files task_dir ["managers/*.*.*"];
  removed ← generated_managers all_managers maybe;
  Ret (removed, path_exists (path_join task_dir [Normal "bin"])).
End task.
