(* ===== verification/TerryCorrect.v ===== *)
(** * The DAG of a Terry task

    The builders of [Terry] keep the invariant of [Build]: loading a Terry task and
    building its DAG never panics and leaves a DAG that the server accepts, in which each
    solution has its input, its run and its check, connected. *)
From S2P Require Import Prelude Float64 Paths StoreKey Dag CheckDag Text Diagnostics Checks UiMessage Machine.
From S2P Require Import Build Languages SourceFile SourceFileCorrect Scoring Judge IoiDag IoiDagCorrect.
From S2P Require Import IoiTaskCorrect TaskInput TaskFiles Terry.

Section builders.
Context `{UuidV4} `{LocalFiles} `{Blake3} `{LanguageManager} `{BuildProfile} `{UuidDisplay}.
Implicit Types (s : EvaluationData TaskCallback) (G : gset Uuid) (Q R : list Uuid).
Abbreviation Eval := (M (EvaluationData TaskCallback)).

(** ** What is observed of an execution *)
Definition captures (e : Execution) (u : FileUuid) : Prop :=
  ∃ f l, exec_stdout e = Output_Capture f l ∧ file_uuid f = u.
Record same_reads (e e' : Execution) : Prop := {
  sr_stdin : exec_stdin e' = exec_stdin e;
  sr_inputs : exec_input_files e' = exec_input_files e
}.
Definition has_input (e : Execution) (path : string) (u : FileUuid) : Prop :=
  exec_input_files e !! path_of_string path = Some (mkInput u false).

(** A group of the DAG with one execution, its tag, a callback of its end. *)
Definition runs s (t : option Tag) (c : TaskCallback) (e : Execution) : Prop :=
  ∃ u g, group_of s u = Some g ∧ executions g = [e] ∧ tag g = tag_of <$> t ∧ does s u c.
Lemma runs_extends s s' t c e : extends s s' → runs s t c e → runs s' t c e.
Proof.
  intros He (u & g & Hg & Hx & Ht & Hc). exists u, g.
  split_and!; [by eapply extends_group|done..|by apply (ext_does _ _ He)].
Qed.

(** ** The shared pieces *)
Lemma wp_ui_executable G Q R sf s (P : FileUuid → EvaluationData TaskCallback → Prop) :
  ui_ok G sf → builds G Q R s →
  (∀ f s', builds G Q R s' → extends s s' → ready s' f → P f s') →
  wp (ui_executable sf) P may_fail s.
Proof.
  intros Hsf Hb HP. unfold ui_executable, executable. wp_steps. eapply wp_prepare; [done..|].
  intros o s1 Hb1 He1 Hprep. wp_steps.
  apply wp_the_executable; [by eapply prepared_executable|]. intros f Hf. wp_steps.
  eapply wp_bind_compilation; [done|by intros u; eapply prepared_group|]. intros s2 Hb2 He2. wp_steps.
  apply HP; [done|by etrans|]. eapply extends_ready; [done|]. by eapply b_cells.
Qed.

Lemma wp_include_official G Q R (o : option UiSourceFile) e s
    (P : Execution → EvaluationData TaskCallback → Prop) :
  (∀ x, o = Some x → ui_ok G x) → builds G Q R s → supplied s e → plain e →
  (∀ e' s', builds G Q R s' → extends s s' → supplied s' e' → plain e' → P e' s') →
  wp (include_official_solution o e) P may_fail s.
Proof.
  intros Ho Hb Hs Hp HP. unfold include_official_solution. destruct o as [x|]; [|wp_steps; by apply HP].
  apply wp_bind, (wp_ui_executable G Q R); [by apply Ho|done|]. intros f s1 Hb1 He1 Hr1.
  destruct (write_bin_to (source_base x)) as [p|]; [|done].
  apply wp_bind. eapply wp_lift_ret; [done|]. destruct (path_file_name p) as [n|]; [|done].
  apply wp_bind. eapply wp_lift_ret; [done|]. wp_steps. apply HP; [done|done| |].
  - apply supplied_input; [|done]. by eapply supplied_extends.
  - eapply plain_same_io; [done|apply same_io_input].
Qed.

(** The program of a manager, with the official solution beside it. *)
Lemma wp_managed {A} G Q R sf o descr args s (K : Execution → Eval A)
    (P : A → EvaluationData TaskCallback → Prop) :
  ui_ok G sf → (∀ x, o = Some x → ui_ok G x) → builds G Q R s →
  (∀ e s', builds G Q R s' → extends s s' → supplied s' e → plain e → wp (K e) P may_fail s') →
  wp (exec ← ui_execute sf descr args; exec ← include_official_solution o exec; K exec) P may_fail s.
Proof.
  intros Hsf Ho Hb HP. apply wp_bind. eapply wp_ui_execute; [done..|]. intros e1 s1 Hb1 He1 Hs1 Hp1.
  apply wp_bind. eapply wp_include_official; [done..|]. intros e2 s2 Hb2 He2 Hs2 Hp2.
  apply HP; [done|by etrans|done|done].
Qed.

(** Both outputs are captured. *)
Lemma wp_captured {A} G Q R l l' e s (K : File → Execution → Eval A)
    (P : A → EvaluationData TaskCallback → Prop) E :
  builds G Q (exec_outs e ++ R) s → supplied s e →
  (∀ f e' s', builds G Q (exec_outs e' ++ R) s' → extends s s' → supplied s' e' →
     file_uuid f ∈ exec_outs e' → captures e' (file_uuid f) → same_reads e e' → wp (K f e') P E s') →
  wp ('(f, e) ← exec_capture_stdout l e; '(_, e) ← exec_capture_stderr l' e; K f e) P E s.
Proof.
  intros Hb Hs HP. apply wp_bind. eapply wp_capture_stdout; [done..|].
  intros f s1 e1 Hb1 He1 Hs1 Hf _. cbn beta iota. apply wp_bind.
  eapply wp_capture_stderr; [done..|]. intros f2 s2 e2 Hb2 He2 Hs2 _ Hsub. cbn beta iota.
  apply HP; [done|by etrans|done|by apply Hsub| |].
  - exists f, l. by destruct e.
  - by destruct e.
Qed.

(** The group is bound and added. *)
Lemma wp_bound_group G Q R g e t k s (P : unit → EvaluationData TaskCallback → Prop) :
  builds G (group_uuid g :: Q) (exec_outs e ++ R) s → single g e → supplied s e →
  tag g = tag_of <$> t →
  (∀ s', builds G Q R s' → extends s s' → (∀ f, f ∈ exec_outs e → ready s' f) →
     (∀ c, c = CB_Status k ∨ does s (group_uuid g) c → runs s' t c e) → P tt s') →
  wp (_ ← bind_exec_callbacks (group_uuid g) k; add_group g) P may_fail s.
Proof.
  intros Hb Hg Hs Ht HP. apply wp_bind.
  eapply wp_bind_status; [done|left; apply list_elem_of_here|]. intros s1 Hb1 He1 Hd1.
  eapply wp_add_single; [done..|by eapply supplied_extends|]. intros s2 Hb2 He2 Hg2 Hr2.
  apply HP; [done|by etrans|done|]. intros c Hc. exists (group_uuid g). eexists.
  split_and!; [exact Hg2|by destruct g, Hg|by rewrite tag_set_config|].
  apply (ext_does _ _ He2). destruct Hc as [->|Hc]; [done|by apply (ext_does _ _ He1)].
Qed.

(** A group that is made but not added. *)
Record waiting G Q R (t : option Tag) (g : ExecutionGroup) (e : Execution) s : Prop := {
  wg_builds : builds G (group_uuid g :: Q) (exec_outs e ++ R) s;
  wg_single : single g e;
  wg_supplied : supplied s e;
  wg_tag : tag g = tag_of <$> t
}.
Lemma wp_into_group G Q R e s (P : ExecutionGroup → EvaluationData TaskCallback → Prop) E :
  builds G Q (exec_outs e ++ R) s → supplied s e →
  (∀ g s', waiting G Q R None g e s' → extends s s' → P g s') →
  wp (exec_into_group e) P E s.
Proof.
  intros Hb Hs HP. unfold exec_into_group. wp_steps. eapply wp_draw; [done|].
  intros u s1 _ _ He1 _ _ Hb1. wp_steps. apply HP; [|done].
  split; [exact Hb1|done|by eapply supplied_extends|done].
Qed.
Lemma waiting_tag G Q R t g e s : waiting G Q R None g e s → waiting G Q R (Some t) (set_tag t g) e s.
Proof. destruct g. by intros []. Qed.
Lemma waiting_extends G Q R t g e s s' :
  waiting G Q R t g e s → builds G (group_uuid g :: Q) (exec_outs e ++ R) s' → extends s s' →
  waiting G Q R t g e s'.
Proof. intros [] ??. split; [done..|by eapply supplied_extends|done]. Qed.
Lemma wp_bound_waiting G Q R t g e k s (P : unit → EvaluationData TaskCallback → Prop) :
  waiting G Q R t g e s →
  (∀ s', builds G Q R s' → extends s s' → (∀ f, f ∈ exec_outs e → ready s' f) →
     (∀ c, c = CB_Status k ∨ does s (group_uuid g) c → runs s' t c e) → P tt s') →
  wp (_ ← bind_exec_callbacks (group_uuid g) k; add_group g) P may_fail s.
Proof. intros [] HP. by eapply wp_bound_group. Qed.

Lemma wp_manager_group G Q R e s (P : FileUuid * ExecutionGroup → EvaluationData TaskCallback → Prop) E :
  builds G Q (exec_outs e ++ R) s → supplied s e →
  (∀ f g e' s', waiting G Q R (Some Tag_Generation) g e' s' → extends s s' → f ∈ exec_outs e' →
     captures e' f → same_reads e e' → P (f, g) s') →
  wp (manager_group e) P E s.
Proof.
  intros Hb Hs HP. unfold manager_group. eapply wp_captured; [done..|].
  intros f e1 s1 Hb1 He1 Hs1 Hf Hc Hr. apply wp_bind. eapply wp_into_group; [done..|].
  intros g s2 Hw He2. apply wp_ret. eapply HP; [by apply waiting_tag|by etrans|done..].
Qed.

Lemma wp_keep_file G Q R f name ext s (P : unit → EvaluationData TaskCallback → Prop) E :
  builds G Q R s → f ∈ R ∨ ready s f →
  (∀ s', builds G Q R s' → extends s s' → P tt s') → wp (keep_file f name ext) P E s.
Proof.
  intros Hb Hf HP. unfold keep_file. apply wp_bind, wp_get.
  destruct (copy_exe _); [|apply wp_ret; by apply HP]. by eapply wp_write_file_to.
Qed.

Lemma wp_name sf G s (P : string → EvaluationData TaskCallback → Prop) E :
  ui_ok G sf → (∀ n, P n s) → wp (lift (sf_name (source_base sf))) P E s.
Proof.
  intros Hsf HP. unfold sf_name. destruct (sf_ok_path _ _ Hsf) as [n ->]. by eapply wp_lift_ret.
Qed.

(** ** The steps of a solution *)
Lemma wp_terry_generate G Q R source solution seed o s (P : FileUuid → EvaluationData TaskCallback → Prop) :
  ui_ok G source → ui_ok G solution → (∀ x, o = Some x → ui_ok G x) → builds G Q R s →
  (∀ f e s', builds G Q R s' → extends s s' → ready s' f → captures e f →
     runs s' (Some Tag_Generation) (CB_Status (SK_TerryGeneration (sf_path (source_base solution)) seed)) e →
     P f s') →
  wp (terry_generate source solution seed o) P may_fail s.
Proof.
  intros Hsf Hsol Ho Hb HP. unfold terry_generate, generate.
  apply wp_bind, (wp_name _ G); [done|]. intros n. apply wp_bind.
  eapply wp_managed; [done..|]. intros e1 s1 Hb1 He1 Hs1 Hp1.
  eapply (wp_manager_group G Q R); [rewrite neutral_outs by apply neutral_limits; by rewrite plain_outs
    |by apply neutral_supplied; [apply neutral_limits|]|].
  intros f g e2 s2 Hw2 He2 Hf Hc _. cbn beta iota. apply wp_bind.
  eapply wp_keep_file; [apply Hw2|left; set_solver|]. intros s3 Hb3 He3.
  assert (waiting G Q R (Some Tag_Generation) g e2 s3) as Hw3 by by eapply waiting_extends.
  apply wp_bind_assoc, wp_bind. eapply wp_bound_waiting; [done|]. intros s4 Hb4 He4 Hr4 Hd4.
  apply wp_ret. eapply HP; [done|by do 3 (etrans; [done|])|by apply Hr4|done|apply Hd4; by left].
Qed.

Lemma wp_terry_validate G Q R source solution input_file o s
    (P : FileUuid → EvaluationData TaskCallback → Prop) :
  ui_ok G source → ui_ok G solution → (∀ x, o = Some x → ui_ok G x) → builds G Q R s →
  ready s input_file →
  (∀ f e s', builds G Q R s' → extends s s' → ready s' f → captures e f →
     exec_stdin e = Input_File input_file →
     runs s' (Some Tag_Generation) (CB_Status (SK_TerryValidation (sf_path (source_base solution)))) e →
     P f s') →
  wp (terry_validate source solution input_file o) P may_fail s.
Proof.
  intros Hsf Hsol Ho Hb Hi HP. unfold terry_validate, terry_validation.
  apply wp_bind, (wp_name _ G); [done|]. intros n. apply wp_bind.
  eapply wp_managed; [done..|]. intros e1 s1 Hb1 He1 Hs1 Hp1.
  eapply (wp_manager_group G Q R).
  { rewrite exec_outs_stdin, neutral_outs by apply neutral_limits. by rewrite plain_outs. }
  { apply supplied_stdin; [|by eapply extends_ready]. by apply neutral_supplied; [apply neutral_limits|]. }
  intros f g e2 s2 Hw2 He2 Hf Hc [Hin _]. cbn beta iota.
  apply wp_bind_assoc, wp_bind. eapply wp_bound_waiting; [done|]. intros s4 Hb4 He4 Hr4 Hd4.
  apply wp_ret. eapply HP; [done|by do 2 (etrans; [done|])|by apply Hr4|done| |apply Hd4; by left].
  rewrite Hin. by destruct e1.
Qed.

Lemma wp_terry_solve G Q R solution input_file v s (P : FileUuid → EvaluationData TaskCallback → Prop) :
  ui_ok G solution → builds G Q R s → ready s input_file → (∀ h, v = Some h → ready s h) →
  (∀ f e s', builds G Q R s' → extends s s' → ready s' f → captures e f →
     exec_stdin e = Input_File input_file → (∀ h, v = Some h → has_input e "wait_for_validation" h) →
     runs s' (Some Tag_Evaluation) (CB_Status (SK_TerrySolution (sf_path (source_base solution)))) e →
     P f s') →
  wp (terry_solve solution input_file v) P may_fail s.
Proof.
  intros Hsol Hb Hi Hv HP. unfold terry_solve, solve. apply wp_bind.
  apply wp_bind, (wp_name _ G); [done|]. intros n. apply wp_bind.
  eapply wp_ui_execute; [done..|]. intros e1 s1 Hb1 He1 Hs1 Hp1. cbn zeta.
  set (e2 := match v with Some f => _ | None => _ end).
  assert (supplied s1 e2 ∧ exec_outs e2 = [] ∧ exec_stdin e2 = Input_File input_file ∧
    ∀ h, v = Some h → has_input e2 "wait_for_validation" h) as (Hs2 & Ho2 & Hin2 & Hw2).
  { assert (supplied s1 (set_stdin (Input_File input_file) e1)) as Hs
      by (apply supplied_stdin; [done|by eapply extends_ready]).
    subst e2. destruct v as [h|]; split_and!; try done.
    - apply supplied_input; [done|]. eapply extends_ready; [done|]. by apply Hv.
    - by rewrite exec_outs_input, exec_outs_stdin, plain_outs.
    - by destruct e1.
    - intros h' [= <-]. unfold has_input. destruct e1. simpl. by rewrite lookup_insert_eq.
    - by rewrite exec_outs_stdin, plain_outs.
    - by destruct e1. }
  clearbody e2. eapply (wp_captured G Q R); [by rewrite Ho2|done|].
  intros f e3 s3 Hb3 He3 Hs3 Hf Hc [Hin Hfiles]. cbn zeta. apply wp_bind.
  match goal with |- wp (exec_into_group ?x) _ _ _ => set (e4 := x) end.
  assert (exec_outs e4 = exec_outs e3) as Ho4 by (apply neutral_outs, neutral_limits).
  eapply (wp_into_group G Q R); [by rewrite Ho4|by apply neutral_supplied; [apply neutral_limits|]|].
  intros g s4 Hw4 He4. apply wp_ret. cbn beta iota. apply wp_bind, (wp_name _ G); [done|]. intros n'.
  apply wp_bind. eapply wp_keep_file; [apply Hw4|left; rewrite Ho4; set_solver|]. intros s5 Hb5 He5.
  apply wp_bind_assoc, wp_bind. eapply wp_bound_waiting.
  { apply waiting_tag. by eapply waiting_extends. }
  intros s6 Hb6 He6 Hr6 Hd6. apply wp_ret.
  eapply HP; [done|by do 4 (etrans; [done|])|apply Hr6; by rewrite Ho4| | | |apply Hd6; by left].
  - unfold e4. by destruct e3.
  - rewrite <-Hin2, <-Hin. unfold e4. by destruct e3.
  - intros h Hh%Hw2. unfold has_input in *. rewrite <-Hh, <-Hfiles. unfold e4. by destruct e3.
Qed.

Lemma wp_terry_checking G Q R source descr input_file output_file o c s
    (P : ExecutionGroup → EvaluationData TaskCallback → Prop) :
  ui_ok G source → (∀ x, o = Some x → ui_ok G x) → builds G Q R s →
  ready s input_file → ready s output_file →
  (∀ g e s', waiting G Q R None g e s' → extends s s' → has_input e "input.txt" input_file →
     has_input e "output.txt" output_file → does s' (group_uuid g) (CB_TerryChecked c) → P g s') →
  wp (terry_checking source descr input_file output_file o c) P may_fail s.
Proof.
  intros Hsf Ho Hb Hi Hout HP. unfold terry_checking.
  eapply wp_managed; [done..|]. intros e1 s1 Hb1 He1 Hs1 Hp1. cbn zeta.
  match goal with |- context [exec_capture_stdout _ ?x] => set (e2 := x) end.
  assert (supplied s1 e2 ∧ exec_outs e2 = [] ∧ has_input e2 "input.txt" input_file ∧
    has_input e2 "output.txt" output_file) as (Hs2 & Ho2 & Hin2 & Hout2).
  { subst e2. split_and!.
    - do 2 (apply supplied_input; [|by eapply extends_ready]).
      by apply neutral_supplied; [apply neutral_limits|].
    - rewrite !exec_outs_input, neutral_outs by apply neutral_limits. by apply plain_outs.
    - unfold has_input. destruct e1. simpl. rewrite lookup_insert_ne by done. by rewrite lookup_insert_eq.
    - unfold has_input. destruct e1. simpl. by rewrite lookup_insert_eq. }
  clearbody e2. eapply (wp_captured G Q R); [by rewrite Ho2|done|].
  intros f e3 s3 Hb3 He3 Hs3 Hf Hc [Hin Hfiles]. apply wp_bind.
  eapply (wp_into_group G Q R); [done..|]. intros g s4 Hw4 He4. apply wp_bind.
  eapply wp_done_with; [apply Hw4|left; apply list_elem_of_here|]. intros s5 Hb5 He5 Hd5.
  apply wp_ret. eapply HP; [by eapply waiting_extends|by do 3 (etrans; [done|])| | |exact Hd5].
  - unfold has_input in *. by rewrite Hfiles.
  - unfold has_input in *. by rewrite Hfiles.
Qed.
Lemma wp_terry_check G Q R source solution input_file output_file o s
    (P : unit → EvaluationData TaskCallback → Prop) :
  ui_ok G source → ui_ok G solution → (∀ x, o = Some x → ui_ok G x) → builds G Q R s →
  ready s input_file → ready s output_file →
  (∀ e s', builds G Q R s' → extends s s' → has_input e "input.txt" input_file →
     has_input e "output.txt" output_file →
     runs s' None (CB_TerryChecked (OC_Solution (sf_path (source_base solution)))) e → P tt s') →
  wp (terry_check source solution input_file output_file o) P may_fail s.
Proof.
  intros Hsf Hsol Ho Hb Hi Hout HP. unfold terry_check.
  apply wp_bind, (wp_name _ G); [done|]. intros n. apply wp_bind.
  eapply wp_terry_checking; [done..|]. intros g e s1 Hw1 He1 Hin Hfiles Hd1.
  eapply wp_bound_waiting; [done|]. intros s2 Hb2 He2 _ Hd2.
  eapply HP; [done|by etrans|done|done|apply Hd2; by right].
Qed.

(** ** A solution *)
Record terry_ok G (t : TerryBuild) : Prop := {
  tk_generator : ui_ok G (terry_generator t);
  tk_validator : ∀ x, terry_validator t = Some x → ui_ok G x;
  tk_checker : ui_ok G (terry_checker t);
  tk_official : ∀ x, terry_official_solution t = Some x → ui_ok G x
}.

(** The executions of a solution and what links them: the generator's output is the
    input of the validator, of the solution and of the checker; the solution waits for
    the validator; its output is the one that is checked. *)
Definition evaluated_on s (t : TerryBuild) (solution : PathBuf) (seed : Seed) : Prop :=
  ∃ input_file output_file generation evaluation checking,
    runs s (Some Tag_Generation) (CB_Status (SK_TerryGeneration solution seed)) generation ∧
    captures generation input_file ∧
    (∀ v, terry_validator t = Some v → ∃ handle validation,
       runs s (Some Tag_Generation) (CB_Status (SK_TerryValidation solution)) validation ∧
       exec_stdin validation = Input_File input_file ∧ captures validation handle ∧
       has_input evaluation "wait_for_validation" handle) ∧
    runs s (Some Tag_Evaluation) (CB_Status (SK_TerrySolution solution)) evaluation ∧
    exec_stdin evaluation = Input_File input_file ∧ captures evaluation output_file ∧
    runs s None (CB_TerryChecked (OC_Solution solution)) checking ∧
    has_input checking "input.txt" input_file ∧ has_input checking "output.txt" output_file.
Lemma evaluated_on_extends s s' t p seed :
  extends s s' → evaluated_on s t p seed → evaluated_on s' t p seed.
Proof.
  intros He (i & o & ge & ee & ce & Hg & Hi & Hv & Hee & Hein & Ho & Hc & Hci & Hco).
  pose proof (λ t c e, runs_extends s s' t c e He) as Hr.
  exists i, o, ge, ee, ce. split_and!; try done; [by apply Hr| |by apply Hr..].
  intros v (h & ve & ? & ? & ? & ?)%Hv. exists h, ve. split_and!; try done. by apply Hr.
Qed.

Context `{IterOrder} `{Fastrand}.
Lemma wp_evaluate_solution G Q R t seed index x s (P : unit → EvaluationData TaskCallback → Prop) :
  terry_ok G t → solution_ok G x → builds G Q R s →
  (∀ s', builds G Q R s' → extends s s' →
     evaluated_on s' t (sf_path (source_base (solution_source x))) (default (random_seed index) seed) →
     P tt s') →
  wp (evaluate_solution t seed index x) P may_fail s.
Proof.
  intros [Hgen Hval Hchk Hoff] Hx Hb HP. unfold evaluate_solution. cbn zeta. apply wp_bind.
  eapply wp_terry_generate; [done..|]. intros i ge s1 Hb1 He1 Hi Hci Hg. apply wp_bind.
  eapply (wp_mono _ (λ v s', builds G Q R s' ∧ extends s1 s' ∧ (∀ h, v = Some h → ready s' h) ∧
    ∀ y, terry_validator t = Some y → ∃ h ve, v = Some h ∧
      runs s' (Some Tag_Generation) (CB_Status (SK_TerryValidation (sf_path (source_base (solution_source x))))) ve ∧
      exec_stdin ve = Input_File i ∧ captures ve h) _ may_fail); [| |done].
  { destruct (terry_validator t) as [y|] eqn:Hy; [|by apply wp_ret]. apply wp_bind.
    eapply wp_terry_validate; [by apply Hval|done..|]. intros h ve s2 Hb2 He2 Hr2 Hc2 Hin2 Hd2. apply wp_ret.
    split_and!; [done|done|by intros ? [= <-]|]. intros y' _. by exists h, ve. }
  intros v s2 (Hb2 & He2 & Hv & Hval2). simpl. apply wp_bind.
  eapply wp_terry_solve; [done|done|by eapply extends_ready|done|].
  intros o ee s3 Hb3 He3 Ho Hco Hin Hwait Hd3.
  eapply wp_terry_check; [done..|by do 2 (eapply extends_ready; [done|])|done|].
  intros ce s4 Hb4 He4 Hi4 Ho4 Hd4.
  assert (extends s2 s4) as He24 by (by etrans). assert (extends s1 s4) as He14 by (by etrans).
  apply HP; [done|by etrans|]. exists i, o, ge, ee, ce.
  split_and!; try done; [by eapply (runs_extends s1)| |by eapply (runs_extends s3)].
  intros y (h & ve & -> & Hd & Hvin & Hvc)%Hval2. exists h, ve.
  split_and!; [by eapply (runs_extends s2)|done|done|by apply Hwait].
Qed.

Lemma wp_terry_solutions G Q R t seed index l s (P : unit → EvaluationData TaskCallback → Prop) :
  terry_ok G t → Forall (solution_ok G) l → builds G Q R s →
  (∀ s', builds G Q R s' → extends s s' →
     (∀ i x, l !! i = Some x → evaluated_on s' t (sf_path (source_base (solution_source x)))
        (default (random_seed (index + i)) seed)) → P tt s') →
  wp (terry_solutions t seed index l) P may_fail s.
Proof.
  intros Ht. revert index s P. induction l as [|x l IH]; intros index s P Hl Hb HP; simpl.
  { apply wp_ret. by apply HP. }
  apply Forall_cons in Hl as [Hx Hl]. apply wp_bind. eapply wp_evaluate_solution; [done..|].
  intros s1 Hb1 He1 Hev. apply IH; [done|done|]. intros s2 Hb2 He2 Hall. apply HP; [done|by etrans|].
  intros [|i] y Hy; simpl in Hy.
  - injection Hy as <-. rewrite Nat.add_0_r. by eapply evaluated_on_extends.
  - rewrite Nat.add_succ_r. by apply (Hall i y).
Qed.

(** ** The statement and the whole DAG *)
Lemma wp_generate_statement G st s (P : unit → EvaluationData TaskCallback → Prop) :
  builds G [] [] s → (∀ s', builds G [] [] s' → extends s s' → P tt s') →
  wp (generate_statement st) P may_fail s.
Proof.
  intros Hb HP. unfold generate_statement. cbn zeta. apply wp_bind.
  eapply (wp_output G [] []); [exact Hb|apply neutral_supplied; [apply neutral_limits|apply supplied_new]|].
  intros out e1 s1 Hb1 He1 Hs1 Hout _ _ _ _. cbn beta iota. unfold new_file. wp_steps.
  eapply wp_draw; [done|]. intros u s2 _ _ He2 _ Hb2 _. wp_steps.
  eapply (wp_provide_file G [] (exec_outs e1 ++ [])); [done|by left|done|]. intros s3 Hb3 He3 Hr3.
  apply wp_bind. set (e2 := input _ _ false e1).
  assert (supplied s3 e2) as Hs2
    by (apply supplied_input; [|done]; eapply supplied_extends; [|done]; by etrans).
  assert (exec_outs e2 = exec_outs e1) as Ho2 by apply exec_outs_input. clearbody e2. rewrite <-Ho2 in Hb3.
  eapply (wp_mono _ (λ e s', builds G [] (exec_outs e ++ []) s' ∧ extends s3 s' ∧ supplied s' e ∧
    exec_outs e = exec_outs e2) _ may_fail); [| |done].
  { destruct (statement_subtasks st) as [path|].
    - wp_steps. eapply wp_draw; [done|]. intros u4 s4 _ _ He4 _ Hb4 _. wp_steps.
      eapply (wp_provide_file G [] (exec_outs e2 ++ [])); [done|by left|done|]. intros s5 Hb5 He5 Hr5. wp_steps.
      rewrite (neutral_outs _ _ (neutral_args _)), exec_outs_input. split_and!; [done|by etrans| |done].
      apply neutral_supplied; [apply neutral_args|]. apply supplied_input; [|done].
      eapply supplied_extends; [|done]. by etrans.
    - apply wp_ret. rewrite (neutral_outs _ _ (neutral_args _)). split_and!; [done..| |done].
      apply neutral_supplied; [apply neutral_args|done]. }
  intros e4 s4 (Hb4 & He4 & Hs4 & Ho4). simpl. apply wp_bind.
  eapply wp_capture_stderr; [done..|]. intros f5 s5 e5 Hb5 He5 Hs5 _ Hsub. cbn beta iota. apply wp_bind.
  eapply wp_into_group; [done..|]. intros g s6 Hw6 He6. apply (waiting_tag _ _ _ Tag_Booklet) in Hw6. cbn zeta.
  set (g' := set_tag Tag_Booklet g) in *. clearbody g'. apply wp_bind.
  eapply wp_done_with; [apply Hw6|left; apply list_elem_of_here|]. intros s7 Hb7 He7 _.
  apply wp_bind. eapply (wp_add_single G [] []); [exact Hb7|apply Hw6|eapply supplied_extends; [done|apply Hw6]|].
  intros s8 Hb8 He8 _ Hr8. eapply (wp_write_file_to G [] []); [done| |].
  - right. apply Hr8, Hsub. by rewrite Ho4, Ho2.
  - intros s9 Hb9 He9. apply HP; [done|]. by do 8 (etrans; [done|]).
Qed.

Context `{Glob}.
Lemma wp_terry_build_dag G t config seed s (P : list Solution → EvaluationData TaskCallback → Prop) :
  terry_ok G t → searchable_in (terry_path (terry_info t)) "solutions/*" config → builds G [] [] s →
  (∀ l s', builds G [] [] s' →
     (∀ i x, l !! i = Some x → evaluated_on s' t (sf_path (source_base (solution_source x)))
        (default (random_seed i) seed)) → P l s') →
  wp (terry_build_dag t config seed) P may_fail s.
Proof.
  intros Ht Hs Hb HP. unfold terry_build_dag. apply wp_bind.
  eapply wp_send; [done|]. intros s1 Hb1 He1 _. apply wp_bind.
  eapply wp_find_solutions; [done|done|done|]. intros l s2 Hb2 He2 Hl. apply wp_bind.
  destruct (solution_infos_ret _ _ Hl) as [infos Hinfos]. eapply wp_lift_ret; [done|]. apply wp_bind.
  eapply wp_send; [done|]. intros s3 Hb3 He3 _. apply wp_bind.
  eapply wp_terry_solutions; [done..|]. intros s4 Hb4 He4 Hall. apply wp_bind.
  eapply (wp_mono _ (λ _ s', builds G [] [] s' ∧ extends s4 s') _ may_fail); [| |done].
  { destruct (terry_statement t) as [st|]; [|by apply wp_ret]. by eapply wp_generate_statement. }
  intros [] s5 [Hb5 He5]. apply wp_ret. apply HP; [done|]. intros i x Hx.
  eapply evaluated_on_extends; [done|]. by apply (Hall i x).
Qed.

(** ** The search of the managers *)
Record manageable (task_dir : PathBuf) : Prop := {
  mg_valid : ∀ m, m ∈ ["generator"; "validator"; "checker"; "solution"] →
    is_Some (found task_dir ("managers/" +:+ m +:+ ".*"));
  mg_names : ∀ m, m ∈ ["generator"; "validator"; "checker"; "solution"] →
    is_Some (path_file_name (path_of_string ("managers/" +:+ m +:+ "." +:+ EXE_EXTENSION)))
}.

Lemma wp_get_manager G task_dir m s (P : option UiSourceFile → EvaluationData TaskCallback → Prop) :
  manageable task_dir → m ∈ ["generator"; "validator"; "checker"; "solution"] → unbuilt G s →
  (∀ o s', unbuilt G s' → (∀ x, o = Some x → ui_ok G x) → P o s') →
  wp (get_manager task_dir m) P may_fail s.
Proof.
  intros Hg Hm Hu HP. unfold get_manager, find_source_file.
  destruct (list_files_found task_dir ["managers/" +:+ m +:+ ".*"]) as (l & Hl & _).
  { intros p ->%list_elem_of_singleton. by apply (mg_valid _ Hg). }
  do 2 apply wp_bind. eapply wp_lift_ret; [exact Hl|]. eapply (wp_sources_at G); [done|by intros ? ? ? [=]| |].
  { destruct (mg_names _ Hg m Hm) as [n Hn]. exists n. by apply path_file_name_app. }
  intros l' s1 Hu1 Hall. apply wp_bind. eapply wp_at_most_one; [done|]. intros o Ho. apply wp_ret.
  apply HP; [done|]. intros x Hx. destruct o as [y|]; simplify_eq/=. by apply standalone_ok, Ho.
Qed.

Lemma wp_terry_parse_task `{TerryYaml} task_dir s (P : TerryBuild → EvaluationData TaskCallback → Prop) :
  manageable task_dir → unbuilt ∅ s →
  (∀ t s', unbuilt ∅ s' → terry_ok ∅ t → terry_path (terry_info t) = task_dir → P t s') →
  wp (terry_parse_task task_dir) P may_fail s.
Proof.
  intros Hg Hu HP. unfold terry_parse_task. apply wp_bind.
  destruct (stat _) as [[c| |]|]; try done. destruct (terry_yaml_from c) as [[[name descr] score]|]; [|done].
  eapply wp_lift_ret; [done|]. cbn beta iota.
  apply wp_bind, (wp_get_manager ∅); [done|set_solver|done|]. intros gen s1 Hu1 Hgen.
  destruct gen as [gen|]; [|done]. apply wp_bind, wp_ret.
  apply wp_bind, (wp_get_manager ∅); [done|set_solver|done|]. intros val s2 Hu2 Hval.
  apply wp_bind, (wp_get_manager ∅); [done|set_solver|done|]. intros chk s3 Hu3 Hchk.
  destruct chk as [chk|]; [|done]. apply wp_bind, wp_ret.
  apply wp_bind, (wp_get_manager ∅); [done|set_solver|done|]. intros off s4 Hu4 Hoff.
  apply wp_ret. apply HP; [done| |done]. split; simpl; [by apply Hgen|done|by apply Hchk|done].
Qed.
End builders.

(** ** Example: two solutions, a validator, an official solution *)
Definition ex_terry_dir : PathBuf := path_of_string "/t".
Definition ex_terry_files : LocalFiles :=
  {| canonical := Some;
     nodes := list_to_map ((λ x, (path_join ex_terry_dir (path_of_string x), ex_node "")) <$>
       ["task.yaml"; "managers/generator.py"; "managers/validator.py"; "managers/checker.py";
        "managers/solution.cpp"; "solutions/a.py"; "solutions/b.cpp"; "statement/statement.in.md"]) |}.
Definition ex_terry_glob : Glob :=
  {| glob := λ p, Some (path_join ex_terry_dir ∘ path_of_string <$>
       (if decide (p = "/t/managers/generator.*") then ["managers/generator.py"]
        else if decide (p = "/t/managers/validator.*") then ["managers/validator.py"]
        else if decide (p = "/t/managers/checker.*") then ["managers/checker.py"]
        else if decide (p = "/t/managers/solution.*") then ["managers/solution.cpp"]
        else if decide (p = "/t/solutions/*") then ["solutions/a.py"; "solutions/b.cpp"] else [])) |}.
Definition ex_terry_yaml : TerryYaml := {| terry_yaml_from := λ _, Some ("t", "A task", f64_of_Z 100) |}.
Definition ex_seeds : Fastrand := {| random_seed := λ n, (1000 + N.of_nat n)%N |}.
Definition ex_terry_config : EvaluationConfig := mkEvalConfig [] [].
Definition ex_terry_start : EvaluationData TaskCallback := EvaluationData_new ex_terry_dir.

(** What a run of the program does with a Terry task before the execution. *)
Definition terry_load_and_build `{UuidV4} `{LocalFiles} `{Blake3} `{LanguageManager} `{BuildProfile} `{UuidDisplay}
    `{IterOrder} `{Glob} `{Fastrand} `{TerryYaml} (task_dir : PathBuf) (config : EvaluationConfig) (seed : option Seed) :
    M (EvaluationData TaskCallback) (TerryBuild * list Solution) :=
  t ← terry_parse_task task_dir; l ← terry_build_dag t config seed; mret (t, l).
Definition ex_terry_build : M (EvaluationData TaskCallback) (TerryBuild * list Solution) :=
  @terry_load_and_build counting_uuids ex_terry_files toy_blake3 ex_platform ex_languages dev_profile decimal_uuid
    forward_order ex_terry_glob ex_seeds ex_terry_yaml ex_terry_dir ex_terry_config None.

(** The compilations of the official solution and of a solution, then the executions. *)
Example ex_terry_groups :
  (λ t, length (filter (λ p, tag p.2 = t)
     (map_to_list (execution_groups (data (eval_dag (ex_terry_build ex_terry_start).2)))))) <$>
  [Some (mkTag "compilation"); Some (mkTag "generation"); Some (mkTag "evaluation"); None;
   Some (mkTag "booklet")] = [2; 4; 2; 2; 1].
Proof. vm_compute. reflexivity. Qed.

Lemma ex_manageable : @manageable ex_platform ex_terry_glob ex_terry_dir.
Proof.
  split; [by intros; eexists|]. intros m Hm. rewrite !elem_of_cons, elem_of_nil in Hm.
  destruct_or! Hm; try done; subst m; by eexists.
Qed.
Lemma ex_terry_searchable :
  @searchable_in ex_terry_files ex_terry_glob ex_terry_dir "solutions/*" ex_terry_config.
Proof.
  split; [by intros f ?%elem_of_nil|by eexists| |apply fits_files; vm_compute; reflexivity].
  intros p _ [?%elem_of_nil|Hp]; [done|]. revert p Hp. apply Forall_forall.
  vm_compute. repeat constructor; by eexists.
Qed.

(** ** Properties *)
Section properties.
Context `{UuidV4} `{LocalFiles} `{Blake3} `{LanguageManager} `{BuildProfile} `{UuidDisplay} `{IterOrder} `{Glob}.
Context `{Fastrand} `{TerryYaml}.

Lemma wp_terry_load_and_build task_dir config seed s
    (P : TerryBuild * list Solution → EvaluationData TaskCallback → Prop) :
  manageable task_dir → searchable_in task_dir "solutions/*" config → unbuilt ∅ s →
  (∀ t l s', builds ∅ [] [] s' → terry_path (terry_info t) = task_dir →
     (∀ i x, l !! i = Some x → evaluated_on s' t (sf_path (source_base (solution_source x)))
        (default (random_seed i) seed)) → P (t, l) s') →
  wp (terry_load_and_build task_dir config seed) P may_fail s.
Proof.
  intros Hg Hs Hu HP. apply wp_bind, wp_terry_parse_task; [done..|]. intros t s1 Hb%builds_start Ht Hdir.
  apply wp_bind. eapply wp_terry_build_dag; [done|by rewrite Hdir|done|]. intros l s2 Hb2 Hall.
  apply wp_ret. by apply HP.
Qed.

(** Loading a Terry task and building its DAG, whatever managers and solutions are
    found and whatever task.yaml holds, neither panics nor fails to end: either an error
    is reported, or the DAG is accepted by the server (every input provided or produced,
    no cycle, distinct identifiers, callbacks on executions and files of the DAG). *)
Theorem terry_task_builds (task_dir : PathBuf) (config : EvaluationConfig) (seed : option Seed)
    (s : EvaluationData TaskCallback) :
  manageable task_dir → searchable_in task_dir "solutions/*" config → unbuilt ∅ s →
  match terry_load_and_build task_dir config seed s with
  | (Ret _, s') => check_dag (data (eval_dag s')) (watch_of (eval_dag s')) = Ret (inr tt)
  | (Fail _, _) => True
  | (Panicked _, _) | (OutOfFuel, _) => False
  end.
Proof.
  intros Hg Hs Hu.
  assert (wp (terry_load_and_build task_dir config seed) (λ _, builds ∅ [] []) may_fail s) as Hw
    by (apply wp_terry_load_and_build; [done..|]; by intros).
  unfold wp in Hw. destruct (terry_load_and_build _ _ _ _) as [[] s']; try done.
  destruct (check_dag_spec (data (eval_dag s')) (watch_of (eval_dag s'))) as ([e|[]] & -> & Hr); [|done].
  exfalso. eapply error_reason_invalid; [exact Hr|]. by eapply builds_valid.
Qed.

(** C21: In the DAG of a Terry task every solution found has executions of its own that are
    connected: the generator, with the seed given or the solution's random one, makes an
    input file; that file is the standard input of the validator (when there is one) and
    of the solution, which waits for what the validator prints; the checker gets that
    input and what the solution printed, and its end sends the outcome of that solution. *)
Theorem terry_solutions_evaluated (task_dir : PathBuf) (config : EvaluationConfig) (seed : option Seed)
    (t : TerryBuild) (solutions : list Solution) (s s' : EvaluationData TaskCallback) :
  manageable task_dir → searchable_in task_dir "solutions/*" config → unbuilt ∅ s →
  terry_load_and_build task_dir config seed s = (Ret (t, solutions), s') →
  terry_path (terry_info t) = task_dir ∧
  ∀ i x, solutions !! i = Some x →
    evaluated_on s' t (sf_path (source_base (solution_source x))) (default (random_seed i) seed).
Proof.
  intros Hg Hs Hu Hrun.
  assert (wp (terry_load_and_build task_dir config seed) (λ r s', terry_path (terry_info r.1) = task_dir ∧
    ∀ i x, r.2 !! i = Some x → evaluated_on s' r.1 (sf_path (source_base (solution_source x)))
      (default (random_seed i) seed)) may_fail s) as Hw by (by apply wp_terry_load_and_build).
  unfold wp in Hw. by rewrite Hrun in Hw.
Qed.
End properties.

Lemma terry_task_builds_witness :
  match ex_terry_build ex_terry_start with
  | (Ret _, s') => @check_dag forward_order (data (eval_dag s')) (watch_of (eval_dag s')) = Ret (inr tt)
  | (Fail _, _) => True
  | (Panicked _, _) | (OutOfFuel, _) => False
  end.
Proof.
  apply (@terry_task_builds counting_uuids ex_terry_files toy_blake3 ex_platform ex_languages dev_profile
    decimal_uuid forward_order ex_terry_glob ex_seeds ex_terry_yaml ex_terry_dir ex_terry_config None ex_terry_start).
  - apply ex_manageable.
  - apply ex_terry_searchable.
  - by split.
Defined.
Lemma terry_solutions_evaluated_witness :
  ∃ t l s', ex_terry_build ex_terry_start = (Ret (t, l), s') ∧ length l = 2 ∧
    terry_path (terry_info t) = ex_terry_dir ∧
    ∀ i x, l !! i = Some x →
      evaluated_on s' t (sf_path (source_base (solution_source x))) (default (@random_seed ex_seeds i) None).
Proof.
  assert ((λ r, match r with Ret x => length x.2 | _ => 0 end) (ex_terry_build ex_terry_start).1 = 2) as Hr
    by (vm_compute; reflexivity).
  destruct (ex_terry_build ex_terry_start) as [[[t l]| | |] s'] eqn:Hrun; try discriminate Hr.
  exists t, l, s'. split; [reflexivity|]. split; [exact Hr|].
  apply (@terry_solutions_evaluated counting_uuids ex_terry_files toy_blake3 ex_platform ex_languages dev_profile
    decimal_uuid forward_order ex_terry_glob ex_seeds ex_terry_yaml ex_terry_dir ex_terry_config None t l
    ex_terry_start s').
  - apply ex_manageable.
  - apply ex_terry_searchable.
  - by split.
  - exact Hrun.
Defined.
