(* ===== verification/TerryChecks.v ===== *)
(** * The sanity checks of a Terry task ([terry/sanity_checks])

    The hooks are the ones of [SanityChecks], on the evaluation alone; the check of the
    checker runs it on the bad outputs of the data directory. *)
From S2P Require Import Prelude Float64 RustOrd Paths StoreKey Dag CheckDag Text Diagnostics Checks UiMessage Machine.
From S2P Require Import Build Languages SourceFile SourceFileCorrect Scoring Judge IoiDag IoiDagCorrect IoiTaskCorrect.
From S2P Require Import CasesGen Booklets BookletsCorrect SanityChecks AttChecks StatementChecks SanityChecksCorrect Terry TerryCorrect.

Section checks.
Context `{UuidV4} `{LocalFiles} `{Blake3} `{LanguageManager} `{BuildProfile} `{UuidDisplay} `{IterOrder} `{Glob}.
Context `{Fastrand} `{!BookletCrates}.
Abbreviation Eval := (M (EvaluationData TaskCallback)).

Definition FUZZ_SEED : Seed := 42%N.
(** The body of the loop over the bad outputs. *)
Definition fuzz_output (t : TerryBuild) (input : FileUuid) (output : PathBuf) : Eval unit :=
  name ← lift (ok_or "invalid file name" (path_file_name output));
  output_file ← new_file ("Bad output " +:+ name);
  _ ← on_dag (provide_file output_file output (from_file output));
  check ← terry_checking (terry_checker t) ("Checking bad input " +:+ name) input (file_uuid output_file)
            (terry_official_solution t) (OC_BadOutput name);
  _ ← done_with (group_uuid check) (CB_BadOutputChecked name);
  add_group check.
Definition terry_fuzz_checker (t : TerryBuild) : Eval unit :=
  let outputs_dir := path_join DATA_DIR (path_of_string "bad_outputs") in
  if negb (path_exists outputs_dir) then bail "DATA_DIR/bad_outputs does not exists"
  else
    outputs ← lift (list_files outputs_dir ["*.txt"]);
    match outputs with
    | [] => mret tt
    | _ =>
        '(input, gen) ← generate (terry_generator t) "Generation of input for FuzzChecker" FUZZ_SEED
          (terry_official_solution t);
        _ ← done_with (group_uuid gen) (CB_FuzzGenerated FUZZ_SEED);
        _ ← add_group gen;
        for_each outputs (fuzz_output t input)
    end.
Definition statement_present (t : TerryBuild) : Eval unit :=
  let in_task (p : string) := path_join (terry_path (terry_info t)) (path_of_string p) in
  if path_exists (in_task "statement/statement.md") || path_exists (in_task "statement/statement.in.md")
  then mret tt
  else send (UI_Diagnostic (Diagnostic_error "Neither statement/statement.md nor statement/statement.in.md exists")).
Definition validator_present (t : TerryBuild) : Eval unit :=
  match terry_validator t with
  | None => send (UI_Diagnostic (Diagnostic_warning "Validator not present"))
  | Some _ => mret tt
  end.

Abbreviation TerryCheck := (SanityCheck TerryBuild (EvaluationData TaskCallback)).
Definition terry_checks : list TerryCheck :=
  [mkSanityCheck "FuzzChecker" Cat_Checker terry_fuzz_checker no_hook;
   mkSanityCheck "StatementPresent" Cat_Statement statement_present no_hook;
   mkSanityCheck "ValidatorPresent" Cat_Io validator_present no_hook].

(** [TerryTask::build_dag], to its end. *)
Definition TerryTask_build_dag (t : TerryBuild) (checks : list TerryCheck) (config : EvaluationConfig)
    (seed : option Seed) : Eval (list Solution) :=
  solutions ← terry_build_dag t config seed;
  _ ← pre_hook (λ d, send (UI_Diagnostic d)) checks t;
  mret solutions.

(** ** The hooks keep the invariant of the builders *)
Implicit Types (s : EvaluationData TaskCallback) (G : gset Uuid).
Lemma wp_fuzz_output G t i output s :
  terry_ok G t → builds G [] [] s → ready s i →
  wp (fuzz_output t i output) (λ _ s', builds G [] [] s' ∧ extends s s') may_fail s.
Proof.
  intros Ht Hb Hi. unfold fuzz_output, new_file. apply wp_bind.
  destruct (path_file_name output) as [name|]; [|done]. eapply wp_lift_ret; [done|]. wp_steps.
  eapply wp_draw; [done|]. intros u s1 _ _ He1 _ Hb1 _. wp_steps.
  eapply (wp_provide_file G [] []); [done|by left|done|]. intros s2 Hb2 He2 Hr2.
  assert (extends s s2) as He02 by (by etrans). wp_steps.
  eapply (wp_terry_checking G [] []); [apply (tk_checker _ _ Ht)|apply (tk_official _ _ Ht)|done|by eapply extends_ready|done|].
  intros g e s3 [Hb3 Hg3 Hs3 _] He3 _ _ _. wp_steps.
  eapply wp_done_with; [exact Hb3|left; apply list_elem_of_here|]. intros s4 Hb4 He4 _.
  eapply wp_add_single; [exact Hb4|done|by eapply supplied_extends|]. intros s5 Hb5 He5 _ _.
  split; [done|]. do 3 (etrans; [done|]). done.
Qed.
Lemma wp_fuzz_checker G t s :
  terry_ok G t → is_Some (glob (path_to_string (path_join (path_join DATA_DIR (path_of_string "bad_outputs"))
    (path_of_string "*.txt")))) → builds G [] [] s →
  wp (terry_fuzz_checker t) (λ _ s', builds G [] [] s' ∧ extends s s') may_fail s.
Proof.
  intros Ht [l Hl] Hb. unfold terry_fuzz_checker. cbv zeta. case_match; [done|]. cbn [list_files].
  rewrite Hl. apply wp_bind. eapply wp_lift_ret; [done|]. rewrite app_nil_r. destruct l as [|o l]; [by wp_steps|].
  unfold generate. apply wp_bind. eapply wp_managed; [apply (tk_generator _ _ Ht)|apply (tk_official _ _ Ht)|done|].
  intros e1 s1 Hb1 He1 Hs1 Hp1.
  eapply (wp_manager_group G [] []); [rewrite neutral_outs by apply neutral_limits; by rewrite plain_outs
    |by apply neutral_supplied; [apply neutral_limits|]|].
  intros f g e2 s2 [Hb2 Hg2 Hs2 _] He2 Hf _ _. cbn beta iota. wp_steps.
  eapply wp_done_with; [exact Hb2|left; apply list_elem_of_here|]. intros s3 Hb3 He3 _. wp_steps.
  eapply wp_add_single; [exact Hb3|done|by eapply supplied_extends|]. intros s4 Hb4 He4 _ Hr4.
  assert (extends s s4) as He by (do 3 (etrans; [done|]); done).
  eapply wp_mono; [eapply (wp_for_each_inv (λ s', builds G [] [] s' ∧ extends s4 s')); [done|]| |done].
  - intros x s5 _ [Hb5 He5]. eapply wp_mono; [apply wp_fuzz_output; [done|done|]| |done].
    + eapply extends_ready; [exact He5|]. by apply Hr4.
    + intros [] s6 [Hb6 He6]. split; [done|by etrans].
  - intros [] s5 [Hb5 He5]. split; [done|by etrans].
Qed.
Lemma wp_terry_check_hook G t c s :
  terry_ok G t → is_Some (glob (path_to_string (path_join (path_join DATA_DIR (path_of_string "bad_outputs"))
    (path_of_string "*.txt")))) → c ∈ terry_checks → builds G [] [] s →
  wp (check_pre_hook c t) (λ _ s', builds G [] [] s' ∧ extends s s') may_fail s.
Proof.
  intros Ht Hg Hc Hb. unfold terry_checks in Hc. rewrite !elem_of_cons, elem_of_nil in Hc.
  assert (∀ d, wp (send (UI_Diagnostic d)) (λ _ s', builds G [] [] s' ∧ extends s s') may_fail s) as Hd.
  { intros d. eapply wp_send; [done|]. by intros s' Hb' He' _. }
  destruct Hc as [->|[->|[->|[]]]]; simpl.
  - by apply wp_fuzz_checker.
  - unfold statement_present. cbv zeta. case_match; [by wp_steps|apply Hd].
  - unfold validator_present. case_match; [by wp_steps|apply Hd].
Qed.

(** The DAG of a Terry task with its checks: when none fails, the server accepts it. *)
Theorem terry_checked_dag_valid G (t : TerryBuild) (checks : list TerryCheck) (config : EvaluationConfig)
    (seed : option Seed) s :
  terry_ok G t → searchable_in (terry_path (terry_info t)) "solutions/*" config →
  is_Some (glob (path_to_string (path_join (path_join DATA_DIR (path_of_string "bad_outputs"))
    (path_of_string "*.txt")))) →
  (∀ c, c ∈ checks → c ∈ terry_checks) → unbuilt G s →
  match (l ← terry_build_dag t config seed; _ ← for_each checks (λ c, check_pre_hook c t); mret l) s with
  | (Ret l, s') =>
      TerryTask_build_dag t checks config seed s = (Ret l, s') ∧
      check_dag (data (eval_dag s')) (watch_of (eval_dag s')) = Ret (inr tt)
  | (Fail _, _) => True
  | (Panicked _, _) | (OutOfFuel, _) => False
  end.
Proof.
  intros Ht Hs Hg Hc Hb%builds_start.
  assert (wp (l ← terry_build_dag t config seed; _ ← for_each checks (λ c, check_pre_hook c t); mret l)
    (λ _, builds G [] []) may_fail s) as Hw.
  { apply wp_bind. eapply wp_terry_build_dag; [done..|]. intros l s1 Hb1 _. apply wp_bind.
    eapply wp_mono; [eapply (wp_for_each_inv (builds G [] [])); [done|]| |done]; [|by intros; apply wp_ret].
    intros c s2 Hin Hb2. eapply wp_mono; [apply wp_terry_check_hook; [done|done|by apply Hc|done]| |done].
    by intros ? s3 []. }
  unfold wp, TerryTask_build_dag, mbind, M_bind in *.
  destruct (terry_build_dag t config seed s) as [[l| | |] s1]; try done.
  destruct (for_each _ _ s1) as [[[]| | |] s2] eqn:Hrun; try done.
  rewrite (pre_hook_run (λ d, send (UI_Diagnostic d)) _ _ _ _ Hrun). split; [done|].
  simpl. destruct (check_dag_spec (data (eval_dag s2)) (watch_of (eval_dag s2))) as ([e|[]] & -> & Hr); [|done].
  exfalso. simpl in Hw. eapply error_reason_invalid; [exact Hr|]. by eapply builds_valid.
Qed.
End checks.
