(* ===== verification/TerryUi.v ===== *)
(** * The state of the Terry user interface ([task-maker-format/src/terry/ui_state.rs])

    Each solution goes through a generation, a validation, its execution and its check;
    [UIState] is what the messages of an evaluation tell about them. *)
From S2P Require Import Prelude Paths StoreKey Dag Scheduler Text Diagnostics Checks UiMessage.

(** ** State *)
Inductive SolutionStatus : Type :=
  | SS_Pending | SS_Generating | SS_Generated | SS_Validating | SS_Validated | SS_Solving | SS_Solved
  | SS_Checking | SS_Done | SS_Failed (message : string) | SS_Skipped.

Record SolutionState : Type := mkSolutionState {
  sol_status : SolutionStatus;
  sol_outcome : option (SolutionOutcome + string);
  sol_seed : option Seed;
  generator_result : option ExecutionResult;
  validator_result : option ExecutionResult;
  solution_result : option ExecutionResult;
  checker_result : option ExecutionResult
}.
Definition SolutionState_new : SolutionState := mkSolutionState SS_Pending None None None None None None.

Record TerryUIState : Type := mkTerryUI {
  tui_task : TerryTask;
  tui_compilations : gmap PathBuf CompilationStatus;
  tui_solutions : gmap PathBuf SolutionState;
  tui_executor_status : option (ExecutorStatus SystemTime);
  tui_diagnostics : DiagnosticContext
}.
Definition TerryUIState_new (task : TerryTask) : TerryUIState :=
  mkTerryUI task ∅ ∅ None DiagnosticContext_new.

Definition with_tui_compilations x (s : TerryUIState) : TerryUIState :=
  mkTerryUI (tui_task s) x (tui_solutions s) (tui_executor_status s) (tui_diagnostics s).
Definition with_tui_solutions x (s : TerryUIState) : TerryUIState :=
  mkTerryUI (tui_task s) (tui_compilations s) x (tui_executor_status s) (tui_diagnostics s).
Definition with_tui_executor_status x (s : TerryUIState) : TerryUIState :=
  mkTerryUI (tui_task s) (tui_compilations s) (tui_solutions s) x (tui_diagnostics s).
Definition with_tui_diagnostics x (s : TerryUIState) : TerryUIState :=
  mkTerryUI (tui_task s) (tui_compilations s) (tui_solutions s) (tui_executor_status s) x.

(** ** The steps of a solution

    The arguments of [process_step!]: the statuses at the start and at the end, the name,
    the field of the result. *)
Inductive Step : Type := Step_generator | Step_validator | Step_solution | Step_checker.
Definition start_status (k : Step) : SolutionStatus :=
  match k with
  | Step_generator => SS_Generating | Step_validator => SS_Validating
  | Step_solution => SS_Solving | Step_checker => SS_Checking
  end.
Definition ok_status (k : Step) : SolutionStatus :=
  match k with
  | Step_generator => SS_Generated | Step_validator => SS_Validated
  | Step_solution => SS_Solved | Step_checker => SS_Done
  end.
Definition step_name (k : Step) : string :=
  match k with
  | Step_generator => "Generator" | Step_validator => "Validator"
  | Step_solution => "Solution" | Step_checker => "Checker"
  end.

Definition set_status (x : SolutionStatus) (s : SolutionState) : SolutionState :=
  let '(mkSolutionState _ o d g v e c) := s in mkSolutionState x o d g v e c.
Definition set_outcome (x : SolutionOutcome + string) (s : SolutionState) : SolutionState :=
  let '(mkSolutionState t _ d g v e c) := s in mkSolutionState t (Some x) d g v e c.
Definition set_seed (x : Seed) (s : SolutionState) : SolutionState :=
  let '(mkSolutionState t o _ g v e c) := s in mkSolutionState t o (Some x) g v e c.
Definition set_step_result (k : Step) (x : ExecutionResult) (s : SolutionState) : SolutionState :=
  let '(mkSolutionState t o d g v e c) := s in
  match k with
  | Step_generator => mkSolutionState t o d (Some x) v e c
  | Step_validator => mkSolutionState t o d g (Some x) e c
  | Step_solution => mkSolutionState t o d g v (Some x) c
  | Step_checker => mkSolutionState t o d g v e (Some x)
  end.

(** [process_step!], on the state of the solution. *)
Definition process_step (k : Step) (status : UIExecutionStatus) (s : SolutionState) : Outcome SolutionState :=
  match status with
  | UI_Pending => Ret (set_status SS_Pending s)
  | UI_Started _ => Ret (set_status (start_status k) s)
  | UI_Done [result] =>
      let status := match Dag.status result with
                    | Success => ok_status k
                    | _ => SS_Failed (step_name k +:+ " failed")
                    end in
      Ret (set_step_result k result (set_status status s))
  | UI_Done _ => Panicked "assertion `left == right` failed"
  | UI_Skipped =>
      Ret (match sol_status s with SS_Failed _ => s | _ => set_status SS_Skipped s end)
  end.

(** ** [UIState::apply] *)
Definition on_solution (solution : PathBuf) (f : SolutionState → Outcome SolutionState) :
    M TerryUIState unit :=
  s ← get_st;
  sol ← lift (unwrap "Outcome of an unknown solution" (tui_solutions s !! solution));
  sol ← lift (f sol);
  modify (with_tui_solutions (<[solution := sol]> (tui_solutions s))).

Definition terry_apply (message : UIMessage) : M TerryUIState unit :=
  match message with
  | StopUI => mret tt
  | ServerStatus status => modify (with_tui_executor_status (Some status))
  | Solutions solutions =>
      modify (with_tui_solutions (foldl (λ m info, <[info_path info := SolutionState_new]> m) ∅ solutions))
  | Compilation file status =>
      s ← get_st;
      _ ← modify (with_tui_compilations
            (<[file := default CS_Pending (tui_compilations s !! file)]> (tui_compilations s)));
      c ← lift (apply_status status);
      modify (λ s, with_tui_compilations (<[file := c]> (tui_compilations s)) s)
  | UI_TerryTask _ => mret tt
  | TerryGeneration solution seed status =>
      on_solution solution (λ sol, sol ← process_step Step_generator status sol; Ret (set_seed seed sol))
  | TerryValidation solution status => on_solution solution (process_step Step_validator status)
  | TerrySolution solution status => on_solution solution (process_step Step_solution status)
  | TerryChecker solution status => on_solution solution (process_step Step_checker status)
  | TerrySolutionOutcome solution outcome => on_solution solution (λ sol, Ret (set_outcome outcome sol))
  | UI_Diagnostic diagnostic =>
      modify (λ s, with_tui_diagnostics (add_diagnostic diagnostic (tui_diagnostics s)) s)
  | UI_IOITask _ | IOIGeneration _ _ _ | IOIValidation _ _ _ | IOISolution _ _ _ | IOIEvaluation _ _ _ _ _
  | IOIChecker _ _ _ _ | IOITestcaseScore _ _ _ _ _ | IOISubtaskScore _ _ _ _ | IOITaskScore _ _
  | IOIBooklet _ _ | IOIBookletDependency _ _ _ _ _ =>
      panic "internal error: entered unreachable code: IOI message on Terry UI"
  end.
Definition terry_apply_all (l : list UIMessage) : M TerryUIState unit := for_each l terry_apply.
