(* ===== verification/TerryUiCorrect.v ===== *)
(** * The status of a Terry solution is shown rightly

    What the messages of an evaluation leave in the state of [TerryUi], whatever the
    order in which those of different solutions come: the status of a solution is that of
    its progress, as the dependencies of its executions order it. *)
From S2P Require Import Prelude Float64 Paths StoreKey Dag Scheduler Text Diagnostics Checks UiMessage TerryUi.

(** ** Messages *)

(** What a message tells of the solution at a path. *)
Definition event (path : PathBuf) (m : UIMessage) : option (Step * UIExecutionStatus) :=
  match m with
  | TerryGeneration p _ x => if decide (p = path) then Some (Step_generator, x) else None
  | TerryValidation p x => if decide (p = path) then Some (Step_validator, x) else None
  | TerrySolution p x => if decide (p = path) then Some (Step_solution, x) else None
  | TerryChecker p x => if decide (p = path) then Some (Step_checker, x) else None
  | _ => None
  end.
Definition events (path : PathBuf) : list UIMessage → list (Step * UIExecutionStatus) := omap (event path).

Definition single_result (x : UIExecutionStatus) : Prop :=
  match x with UI_Done l => length l = 1 | _ => True end.
(** The messages after the list of the solutions. *)
Definition terry_message (known : gset PathBuf) (m : UIMessage) : Prop :=
  match m with
  | StopUI | ServerStatus _ | UI_TerryTask _ | UI_Diagnostic _ => True
  | Compilation _ x => single_result x
  | TerryGeneration p _ x | TerryValidation p x | TerrySolution p x | TerryChecker p x =>
      p ∈ known ∧ single_result x
  | TerrySolutionOutcome p _ => p ∈ known
  | _ => False
  end.

(** ** The progress of a solution *)
Record Progress : Type := mkProgress {
  finished : list Step;
  running : option Step;
  todo : list Step;
  failed : option Step;
  skipped : bool
}.
Definition not_started (steps : list Step) : Progress := mkProgress [] None steps None false.

(** A step starts when the ones before it have succeeded (at once again, if its worker is
    lost; with no start, if its result is in the cache); when one fails, or its program
    cannot be compiled, the ones after it are skipped. *)
Inductive advances : Progress → Step * UIExecutionStatus → Progress → Prop :=
  | adv_start f k l b w :
      advances (mkProgress f None (k :: l) None b) (k, UI_Started w) (mkProgress f (Some k) l None b)
  | adv_restart f k l b w :
      advances (mkProgress f (Some k) l None b) (k, UI_Started w) (mkProgress f (Some k) l None b)
  | adv_success f k l b r :
      Dag.status r = Success →
      advances (mkProgress f (Some k) l None b) (k, UI_Done [r]) (mkProgress (f ++ [k]) None l None b)
  | adv_failure f k l b r :
      Dag.status r ≠ Success →
      advances (mkProgress f (Some k) l None b) (k, UI_Done [r]) (mkProgress f None [] (Some k) b)
  | adv_cached f k l b r :
      Dag.status r = Success →
      advances (mkProgress f None (k :: l) None b) (k, UI_Done [r]) (mkProgress (f ++ [k]) None l None b)
  | adv_cached_failure f k l b r :
      Dag.status r ≠ Success →
      advances (mkProgress f None (k :: l) None b) (k, UI_Done [r]) (mkProgress f None [] (Some k) b)
  | adv_skip f o l k l' b :
      advances (mkProgress f o (l ++ k :: l') None b) (k, UI_Skipped) (mkProgress f o l None true)
  | adv_skip_next f o l k :
      advances (mkProgress f o l None true) (k, UI_Skipped) (mkProgress f o l None true)
  | adv_skip_failed f o l k k' b :
      advances (mkProgress f o l (Some k) b) (k', UI_Skipped) (mkProgress f o l (Some k) b).
Inductive runs : Progress → list (Step * UIExecutionStatus) → Progress → Prop :=
  | runs_nil p : runs p [] p
  | runs_cons p p' p'' e l : advances p e p' → runs p' l p'' → runs p (e :: l) p''.

(** The status that the progress promises. *)
Definition promised (p : Progress) : SolutionStatus :=
  match failed p, running p, last (finished p) with
  | Some k, _, _ => SS_Failed (step_name k +:+ " failed")
  | None, Some k, _ => start_status k
  | None, None, Some k => ok_status k
  | None, None, None => SS_Pending
  end.
Definition shows (p : Progress) (x : SolutionStatus) : Prop :=
  x = promised p ∨ skipped p = true ∧ failed p = None ∧ x = SS_Skipped.

Definition step_result (k : Step) (s : SolutionState) : option ExecutionResult :=
  match k with
  | Step_generator => generator_result s
  | Step_validator => validator_result s
  | Step_solution => solution_result s
  | Step_checker => checker_result s
  end.
(** The results that the events tell of a step. *)
Definition result_event (k : Step) (e : Step * UIExecutionStatus) : option ExecutionResult :=
  match e with
  | (k', UI_Done [r]) => match k, k' with
      | Step_generator, Step_generator | Step_validator, Step_validator
      | Step_solution, Step_solution | Step_checker, Step_checker => Some r
      | _, _ => None
      end
  | _ => None
  end.
Definition last_result (k : Step) (old : option ExecutionResult) (l : list (Step * UIExecutionStatus)) :
    option ExecutionResult :=
  foldl (λ o e, match result_event k e with Some r => Some r | None => o end) old l.

(** ** One event *)
Lemma promised_not_failed p : failed p = None → ∀ m, promised p ≠ SS_Failed m.
Proof.
  intros Hf m. unfold promised. rewrite Hf. destruct (running p) as [[]|]; [done..|].
  destruct (last (finished p)) as [[]|]; done.
Qed.

Lemma step_run p p' k x sol :
  advances p (k, x) p' → shows p (sol_status sol) →
  ∃ sol', process_step k x sol = Ret sol' ∧ shows p' (sol_status sol') ∧
    ∀ k', step_result k' sol' = last_result k' (step_result k' sol) [(k, x)].
Proof.
  intros Ha Hs. destruct sol as [t o d g v e c]. simpl in Hs. inversion Ha; subst; simpl.
  - eexists. split_and!; [done|by left|]. by intros [].
  - eexists. split_and!; [done|by left|]. by intros [].
  - eexists. split_and!; [done| |by destruct k; intros []]. left. unfold promised. simpl.
    rewrite last_snoc. match goal with H : Dag.status _ = _ |- _ => rewrite H end. by destruct k.
  - eexists. split_and!; [done| |by destruct k; intros []]. left. unfold promised. simpl.
    destruct (Dag.status r); [done|..]; by destruct k.
  - eexists. split_and!; [done| |by destruct k; intros []]. left. unfold promised. simpl.
    rewrite last_snoc. match goal with H : Dag.status _ = _ |- _ => rewrite H end. by destruct k.
  - eexists. split_and!; [done| |by destruct k; intros []]. left. unfold promised. simpl.
    destruct (Dag.status r); [done|..]; by destruct k.
  - eexists. split_and!; [done| |by destruct t; intros []]. right. split_and!; [done..|].
    destruct t; try done. exfalso. destruct Hs as [Hs|(_ & _ & Hs)]; [|done].
    by apply eq_sym, promised_not_failed in Hs.
  - eexists. split_and!; [done| |by destruct t; intros []]. right. split_and!; [done..|].
    destruct t; try done. exfalso. destruct Hs as [Hs|(_ & _ & Hs)]; [|done].
    by apply eq_sym, promised_not_failed in Hs.
  - destruct Hs as [Hs|(_ & Hs & _)]; [|done]. unfold promised in Hs. simpl in Hs. subst t.
    eexists. split_and!; [done|by left|]. by intros [].
Qed.

(** Two states of a solution that differ at most in the outcome and in the seed. *)
Definition same_progress (a b : SolutionState) : Prop :=
  sol_status a = sol_status b ∧ ∀ k, step_result k a = step_result k b.
#[local] Instance same_progress_equiv : Equivalence same_progress.
Proof.
  split.
  - by split.
  - intros a b [H1 H2]. split; [done|]. intros k. by rewrite H2.
  - intros a b c [H1 H2] [H3 H4]. split; [congruence|]. intros k. by rewrite H2.
Qed.
Lemma same_progress_seed x a : same_progress a (set_seed x a).
Proof. destruct a. by split; [|intros []]. Qed.
Lemma same_progress_outcome x a : same_progress a (set_outcome x a).
Proof. destruct a. by split; [|intros []]. Qed.

Lemma process_step_total k x sol : single_result x → ∃ sol', process_step k x sol = Ret sol'.
Proof. destruct x as [| |[|r [|]]|]; try done; intros _; by eexists. Qed.

(** ** One message *)
Lemma on_solution_run p f s sol sol' :
  tui_solutions s !! p = Some sol → f sol = Ret sol' →
  on_solution p f s = (Ret tt, with_tui_solutions (<[p := sol']> (tui_solutions s)) s).
Proof.
  intros Hp Hf. unfold on_solution, get_st, mbind, M_bind, lift, modify. rewrite Hp. cbn. by rewrite Hf.
Qed.

Lemma apply_step path p k (f : SolutionState → Outcome SolutionState) x s :
  is_Some (tui_solutions s !! p) → single_result x →
  (∀ sol, ∃ g, f sol = (y ← process_step k x sol; Ret (g y)) ∧ ∀ y, same_progress y (g y)) →
  ∃ s', on_solution p f s = (Ret tt, s') ∧ dom (tui_solutions s') = dom (tui_solutions s) ∧
    ∀ sol, tui_solutions s !! path = Some sol → ∃ sol', tui_solutions s' !! path = Some sol' ∧
      if decide (p = path) then ∃ y, process_step k x sol = Ret y ∧ same_progress y sol'
      else same_progress sol sol'.
Proof.
  intros [sol Hsol] Hx Hf. destruct (process_step_total k x sol Hx) as [y Hy].
  destruct (Hf sol) as (g & Hfsol & Hg). rewrite Hy in Hfsol.
  eexists. split_and!; [by apply (on_solution_run p f s sol (g y))| |]; simpl.
  - rewrite dom_insert_L. assert (p ∈ dom (tui_solutions s)) by (apply elem_of_dom; by eexists). set_solver.
  - intros sol2 Hsol2. destruct (decide (p = path)) as [<-|Hne].
    + simplify_eq. exists (g y). rewrite lookup_insert_eq. eauto.
    + exists sol2. by rewrite lookup_insert_ne.
Qed.

Lemma apply_message path s m :
  terry_message (dom (tui_solutions s)) m →
  ∃ s', terry_apply m s = (Ret tt, s') ∧ dom (tui_solutions s') = dom (tui_solutions s) ∧
    ∀ sol, tui_solutions s !! path = Some sol → ∃ sol', tui_solutions s' !! path = Some sol' ∧
      match event path m with
      | Some (k, x) => ∃ y, process_step k x sol = Ret y ∧ same_progress y sol'
      | None => same_progress sol sol'
      end.
Proof.
  assert (∀ s', tui_solutions s' = tui_solutions s → dom (tui_solutions s') = dom (tui_solutions s) ∧
    ∀ sol, tui_solutions s !! path = Some sol →
      ∃ sol', tui_solutions s' !! path = Some sol' ∧ same_progress sol sol') as Hsame.
  { intros s' ->. split; [done|]. intros sol Hsol. by exists sol. }
  assert (∀ p x, p ∈ dom (tui_solutions s) ∧ single_result x → is_Some (tui_solutions s !! p)) as Hin
    by (intros p x [Hp _]; by apply elem_of_dom).
  assert (∀ p k x (f : SolutionState → Outcome SolutionState) ev,
    p ∈ dom (tui_solutions s) ∧ single_result x →
    (∀ sol, ∃ g, f sol = (y ← process_step k x sol; Ret (g y)) ∧ ∀ y, same_progress y (g y)) →
    ev = (if decide (p = path) then Some (k, x) else None) →
    ∃ s', on_solution p f s = (Ret tt, s') ∧ dom (tui_solutions s') = dom (tui_solutions s) ∧
      ∀ sol, tui_solutions s !! path = Some sol → ∃ sol', tui_solutions s' !! path = Some sol' ∧
        match ev with
        | Some (k, x) => ∃ y, process_step k x sol = Ret y ∧ same_progress y sol'
        | None => same_progress sol sol'
        end) as Hstep.
  { intros p k x f ev Hp Hf ->. destruct (apply_step path p k f x s) as (s' & Hr & Hd & Hs);
      [by eapply Hin|by apply Hp|done|]. exists s'. split_and!; [done..|]. intros sol Hsol.
    destruct (Hs sol Hsol) as (sol' & Hs' & Hp'). exists sol'. split; [done|].
    by destruct (decide (p = path)). }
  assert (∀ k x (sol : SolutionState), ∃ g, process_step k x sol = (y ← process_step k x sol; Ret (g y)) ∧
    ∀ y, same_progress y (g y)) as Hid.
  { intros k x sol. exists (λ y, y). split; [|done]. by destruct (process_step k x sol). }
  intros Hm. destruct m; simpl in Hm; try done.
  - eexists. split; [reflexivity|]. by apply Hsame.
  - eexists. split; [reflexivity|]. by apply Hsame.
  - assert (∃ c, apply_status status = Ret c) as [c Hc].
    { destruct status as [| |[|r [|]]|]; try done; [by eexists..| |by eexists]. simpl.
      destruct (Dag.status r); by eexists. }
    eexists. split; [cbn [terry_apply]; unfold get_st, mbind, M_bind, lift, modify; rewrite Hc; reflexivity|].
    by apply Hsame.
  - eexists. split; [reflexivity|]. by apply Hsame.
  - apply (Hstep solution Step_generator status); [done| |done].
    intros sol. exists (set_seed seed). split; [done|]. apply same_progress_seed.
  - by apply (Hstep solution Step_validator status).
  - by apply (Hstep solution Step_solution status).
  - by apply (Hstep solution Step_checker status).
  - apply elem_of_dom in Hm as [sol Hsol]. eexists. split_and!.
    + cbn [terry_apply]. by apply (on_solution_run _ _ _ sol (set_outcome outcome sol)).
    + simpl. rewrite dom_insert_L. apply (elem_of_dom_2 (D := gset PathBuf)) in Hsol. set_solver.
    + intros sol2 Hsol2. simpl. destruct (decide (solution = path)) as [<-|].
      * simplify_eq. eexists. split; [apply lookup_insert_eq|]. apply same_progress_outcome.
      * exists sol2. by rewrite lookup_insert_ne.
  - eexists. split; [reflexivity|]. by apply Hsame.
Qed.

(** ** All the messages *)
Lemma same_progress_shows p a b : same_progress a b → shows p (sol_status a) → shows p (sol_status b).
Proof. by intros [-> _]. Qed.

Lemma apply_messages path msgs s p p' sol :
  Forall (terry_message (dom (tui_solutions s))) msgs →
  tui_solutions s !! path = Some sol → shows p (sol_status sol) → runs p (events path msgs) p' →
  ∃ s' sol', terry_apply_all msgs s = (Ret tt, s') ∧ tui_solutions s' !! path = Some sol' ∧
    shows p' (sol_status sol') ∧
    ∀ k, step_result k sol' = last_result k (step_result k sol) (events path msgs).
Proof.
  revert s p sol. induction msgs as [|m msgs IH]; intros s p sol Hm Hsol Hs Hrun.
  { inversion Hrun; subst. by exists s, sol. }
  apply Forall_cons in Hm as [Hm Hmsgs].
  destruct (apply_message path s m Hm) as (s1 & Hr1 & Hd1 & Hs1).
  destruct (Hs1 sol Hsol) as (sol1 & Hsol1 & Hp1). rewrite <-Hd1 in Hmsgs.
  unfold events in Hrun. simpl in Hrun. fold (events path msgs) in Hrun.
  unfold terry_apply_all. cbn [for_each]. unfold mbind, M_bind. rewrite Hr1.
  unfold events. simpl. fold (events path msgs). destruct (event path m) as [[k x]|].
  - inversion Hrun as [|? p1 ? ? ? Ha Hrest]; subst. destruct Hp1 as (y & Hy & Hsame).
    destruct (step_run p p1 k x sol Ha Hs) as (y' & Hy' & Hshow & Hres). rewrite Hy in Hy'. injection Hy' as <-.
    destruct (IH s1 p1 sol1 Hmsgs Hsol1) as (s' & sol' & Hrun' & Hsol' & Hshow' & Hres'); [|done|].
    { by eapply same_progress_shows. }
    exists s', sol'. split_and!; [done..|]. intros k'. rewrite Hres', <-(proj2 Hsame k'), Hres. done.
  - destruct (IH s1 p sol1 Hmsgs Hsol1) as (s' & sol' & Hrun' & Hsol' & Hshow' & Hres'); [|done|].
    { by eapply same_progress_shows. }
    exists s', sol'. split_and!; [done..|]. intros k'. by rewrite Hres', <-(proj2 Hp1 k').
Qed.

(** A solution that has finished everything has skipped nothing. *)
Definition within (steps : list Step) (p : Progress) : Prop :=
  ∃ rest, steps = finished p ++ option_list (running p) ++ todo p ++ rest ∧
    (skipped p = true ∨ is_Some (failed p) → rest ≠ []).
Lemma within_step steps p e p' : advances p e p' → within steps p → within steps p'.
Proof.
  intros Ha (rest & Heq & Hb). unfold within. destruct Ha; simpl in *; subst steps.
  - by exists rest.
  - by exists rest.
  - exists rest. by rewrite <-!app_assoc.
  - exists (k :: l ++ rest). by split.
  - exists rest. by rewrite <-!app_assoc.
  - exists (k :: l ++ rest). by split.
  - exists (k :: l' ++ rest). by rewrite <-!app_assoc.
  - by exists rest.
  - by exists rest.
Qed.
Lemma within_runs steps p l p' : runs p l p' → within steps p → within steps p'.
Proof. induction 1; eauto using within_step. Qed.

Lemma finished_shows steps k p x :
  within (steps ++ [k]) p → finished p = steps ++ [k] → shows p x → x = ok_status k.
Proof.
  intros (rest & Heq & Hb) Hf Hs. rewrite Hf in Heq.
  assert (option_list (running p) = [] ∧ rest = []) as [Hr ->].
  { apply (f_equal length) in Heq. rewrite !length_app in Heq.
    split; apply nil_length_inv; simpl in *; lia. }
  assert (failed p = None) as Hfail by (destruct (failed p); [exfalso; apply Hb; [right; by eexists|done]|done]).
  assert (skipped p = false) as Hskip by (destruct (skipped p); [exfalso; apply Hb; [by left|done]|done]).
  destruct Hs as [->|(Hs & _)]; [|congruence]. unfold promised. rewrite Hfail, Hf, last_snoc.
  by destruct (running p).
Qed.

(** ** Examples *)
Definition ex_sol_path : PathBuf := path_of_string "/t/solutions/a.py".
Definition ex_other_path : PathBuf := path_of_string "/t/solutions/b.py".
Definition ex_step_result (st : ExecutionStatus) : ExecutionResult :=
  mkResult st false false (mkResources f64_zero f64_zero f64_zero 0) None None.
Definition ex_terry_ui : TerryUIState :=
  with_tui_solutions (<[ex_sol_path := SolutionState_new]> {[ex_other_path := SolutionState_new]})
    (TerryUIState_new (mkTerryTask (path_of_string "/t") "t" "A task" f64_one)).
Definition ex_messages : list UIMessage :=
  [TerryGeneration ex_sol_path 7 (UI_Started 1); TerryGeneration ex_other_path 8 (UI_Started 2);
   TerryGeneration ex_sol_path 7 (UI_Done [ex_step_result Success]); TerrySolution ex_sol_path (UI_Started 1);
   TerryGeneration ex_other_path 8 (UI_Done [ex_step_result (Signal 11 "Segmentation fault")]);
   TerrySolution ex_other_path UI_Skipped; TerrySolution ex_sol_path (UI_Done [ex_step_result Success]);
   TerryChecker ex_other_path UI_Skipped; TerryChecker ex_sol_path (UI_Started 2);
   TerryChecker ex_sol_path (UI_Done [ex_step_result Success])].
Definition status_after (msgs : list UIMessage) (path : PathBuf) : option SolutionStatus :=
  sol_status <$> tui_solutions (terry_apply_all msgs ex_terry_ui).2 !! path.
Example ex_terry_statuses :
  status_after ex_messages <$> [ex_sol_path; ex_other_path] = [Some SS_Done; Some (SS_Failed "Generator failed")].
Proof. vm_compute. reflexivity. Qed.

(** A solution that cannot be compiled is skipped at once; when its input is generated
    after that it ends as if it waited for its execution. *)
Lemma skipped_solution_generated :
  status_after [TerrySolution ex_sol_path UI_Skipped; TerryChecker ex_sol_path UI_Skipped;
    TerryGeneration ex_sol_path 7 (UI_Started 1);
    TerryGeneration ex_sol_path 7 (UI_Done [ex_step_result Success])] ex_sol_path = Some SS_Generated.
Proof. vm_compute. reflexivity. Qed.

(** ** Property *)

(** C29: The user interface of a Terry task shows each solution rightly: from a solution
    whose evaluation has not started, whatever messages of the evaluation come, in any
    interleaving with the messages of the other solutions, the compilations, the status
    of the server and the diagnostics, when the events of the solution follow the
    dependencies of its executions applying them never panics, the status shown is the one
    of its progress (the step that failed, the step that runs, the last one that ended),
    or Skipped when steps were skipped and none failed; it is Done when the check has
    ended with success after all the other steps; and each step has the last result it was told. *)
Theorem terry_ui_progress (path : PathBuf) (msgs : list UIMessage) (s : TerryUIState) (sol : SolutionState)
    (steps : list Step) (p : Progress) :
  tui_solutions s !! path = Some sol → sol_status sol = SS_Pending →
  Forall (terry_message (dom (tui_solutions s))) msgs →
  runs (not_started (steps ++ [Step_checker])) (events path msgs) p →
  ∃ s' sol', terry_apply_all msgs s = (Ret tt, s') ∧ tui_solutions s' !! path = Some sol' ∧
    shows p (sol_status sol') ∧
    (finished p = steps ++ [Step_checker] → sol_status sol' = SS_Done) ∧
    ∀ k, step_result k sol' = last_result k (step_result k sol) (events path msgs).
Proof.
  intros Hsol Hpend Hmsgs Hrun.
  destruct (apply_messages path msgs s (not_started (steps ++ [Step_checker])) p sol Hmsgs Hsol)
    as (s' & sol' & Hr & Hs & Hshow & Hres); [by left|done|].
  exists s', sol'. split_and!; [done..| |done]. intros Hf.
  eapply (finished_shows steps Step_checker p); [|done..]. eapply within_runs; [done|].
  exists []. split; [by rewrite app_nil_r|]. by intros [|[]].
Qed.

Lemma terry_ui_progress_witness :
  ∃ s' sol', terry_apply_all ex_messages ex_terry_ui = (Ret tt, s') ∧
    tui_solutions s' !! ex_sol_path = Some sol' ∧
    shows (mkProgress [Step_generator; Step_solution; Step_checker] None [] None false) (sol_status sol') ∧
    ([Step_generator; Step_solution; Step_checker] = [Step_generator; Step_solution] ++ [Step_checker] →
       sol_status sol' = SS_Done) ∧
    ∀ k, step_result k sol' = last_result k (step_result k SolutionState_new) (events ex_sol_path ex_messages).
Proof.
  apply (terry_ui_progress ex_sol_path ex_messages ex_terry_ui SolutionState_new [Step_generator; Step_solution]
    (mkProgress [Step_generator; Step_solution; Step_checker] None [] None false)).
  - reflexivity.
  - reflexivity.
  - repeat constructor; simpl; set_solver.
  - assert (events ex_sol_path ex_messages =
      [(Step_generator, UI_Started 1); (Step_generator, UI_Done [ex_step_result Success]);
       (Step_solution, UI_Started 1); (Step_solution, UI_Done [ex_step_result Success]);
       (Step_checker, UI_Started 2); (Step_checker, UI_Done [ex_step_result Success])]) as ->
      by (vm_compute; reflexivity).
    eapply runs_cons; [apply adv_start|]. eapply runs_cons; [by apply adv_success|].
    eapply runs_cons; [apply adv_start|]. eapply runs_cons; [by apply adv_success|].
    eapply runs_cons; [apply adv_start|]. eapply runs_cons; [by apply adv_success|]. apply runs_nil.
Defined.
