(* ===== verification/JudgeCorrect.v ===== *)
(** * The evaluations are judged rightly

    Each callback of [Judge] gives at most one score.  The score managers of the
    solutions share the channel to the user interface: the second part shows that they
    do not disturb each other, so that what is proved of one manager ([ScoringCorrect])
    holds of each, whatever the order in which the executions end. *)
From S2P Require Import Prelude Float64 RustOrd Paths StoreKey Dag Text Diagnostics Checks UiMessage Machine.
From S2P Require Import FloatText Build Languages SourceFile SourceFileCorrect Scoring ScoringCorrect OutputChecks Judge IoiDag.
From S2P Require Import IoiDagCorrect IoiTaskCorrect.

(** ** What a callback says

    The score that a callback gives, if it gives one. *)
Definition checker_verdict (r : ExecutionResult) : option (f64 * text) :=
  if is_success (Dag.status r) then
    stdout ← result_stdout r; stderr ← result_stderr r;
    out ← from_utf8 stdout; err ← from_utf8 stderr;
    x ← parse_f64 (trim out);
    let m := translate_checker_message (trim err) in
    if is_unicode_printable m then Some (x, m) else None
  else None.
(** The manager of a communication task, when no process failed. *)
Definition manager_verdict (r : ExecutionResult) : option (f64 * text) :=
  stdout ← result_stdout r; stderr ← result_stderr r;
  x ← parse_f64 (trim (from_utf8_lossy stdout));
  Some (x, translate_checker_message (trim (from_utf8_lossy stderr))).
Definition controller_verdict (r : ExecutionResult) : option (f64 * text) :=
  if is_success (Dag.status r) then
    stderr ← result_stderr r;
    let v := read_verdict (from_utf8_lossy stderr) in
    let message := translate_checker_message (user_message v) in
    Some (default f64_zero (verdict_score v),
          if decide (admin_message v = []) then message
          else message ++ text_of " (Admin-only message: " ++ admin_message v ++ text_of ")")
  else Some (f64_zero, text_of ("Controller died (" +:+ debug_status (Dag.status r) +:+ ")")).

(** The score, if the closure is about one. *)
Definition score_says (c : ScoreCallback) (v : f64 * text) : option (ScoreTarget * (f64 * text)) :=
  match c with SC_Score t => Some (t, v) | _ => None end.
Definition verdict (c : TaskCallback) (results : list ExecutionResult) :
    option (ScoreTarget * (f64 * text)) :=
  match c with
  | CB_BatchDone t =>
      r ← head results;
      if is_success (Dag.status r) then None
      else Some (t, (f64_zero, text_of (debug_status (Dag.status r))))
  | CB_WhiteDiffDone callback =>
      r ← head results;
      score_says callback (if is_success (Dag.status r) then (f64_one, text_of "Output is correct")
                           else (f64_zero, text_of "Output is incorrect"))
  | CB_CheckerDone _ _ callback => r ← head results; v ← checker_verdict r; score_says callback v
  | CB_CommunicationDone n t =>
      match first_failure 0 results with
      | Some (i, s) =>
          Some (t, (f64_zero, if decide (i = n) then text_of "Manager failed" else text_of (debug_status s)))
      | None => r ← results !! n; v ← manager_verdict r; Some (t, v)
      end
  | CB_InteractiveDone t => r ← head results; v ← controller_verdict r; Some (t, v)
  | _ => None
  end.

(** The results with which a callback neither fails nor panics. *)
Definition judgeable (c : TaskCallback) (results : list ExecutionResult) : Prop :=
  match c with
  | CB_Status _ => True
  | CB_BatchDone _ => length results = 1
  | CB_WhiteDiffDone _ =>
      ∃ r, head results = Some r ∧ (Dag.status r = Success ∨ Dag.status r = ReturnCode 1)
  | CB_CheckerDone _ _ _ =>
      ∃ r, head results = Some r ∧ is_Some (result_stdout r) ∧ is_Some (result_stderr r)
  | CB_CommunicationDone n _ =>
      first_failure 0 results = None → ∃ r, results !! n = Some r ∧ is_Some (manager_verdict r)
  | CB_InteractiveDone _ =>
      ∃ r, head results = Some r ∧ (is_success (Dag.status r) = true → is_Some (result_stderr r))
  | CB_TerryChecked _ => ∃ r, head results = Some r ∧ is_Some (result_stdout r)
  | CB_TerryStatement =>
      ∃ r, head results = Some r ∧ (is_success (Dag.status r) = false → is_Some (result_stderr r))
  | CB_HashChunk _ | CB_EndChunk _ => True
  | _ => is_Some (head results)
  end.

(** The solution whose score a message tells. *)
Definition scored_by (m : UIMessage) : option PathBuf :=
  match m with
  | IOITestcaseScore _ _ sol _ _ | IOISubtaskScore _ sol _ _ | IOITaskScore sol _ => Some sol
  | _ => None
  end.
Definition scores_of (path : PathBuf) (l : list UIMessage) : list UIMessage :=
  filter (λ m, scored_by m = Some path) l.
Lemma scores_of_app p l l' : scores_of p (l ++ l') = scores_of p l ++ scores_of p l'.
Proof. apply filter_app. Qed.
Lemma scores_of_other p l : Forall (λ m, scored_by m ≠ Some p) l → scores_of p l = [].
Proof.
  intros Hl. induction Hl as [|m l Hm Hl IH]; [done|]. unfold scores_of in *.
  by rewrite filter_cons_False.
Qed.
Lemma scores_of_all p l : Forall (λ m, scored_by m = Some p) l → scores_of p l = l.
Proof.
  intros Hl. induction Hl as [|m l Hm Hl IH]; [done|]. unfold scores_of in *.
  by rewrite filter_cons_True, IH.
Qed.

Section judge.
Context `{IterOrder} `{OutcomeJson} `{Crates}.

(** ** The callbacks give the score they say *)
Definition after_messages (ms : list UIMessage) (j : Judge) : Judge :=
  with_judge_channel (mkUIChannel (ui_sent (judge_channel j) ++ ms) true) j.
Definition silent (m : UIMessage) : Prop := scored_by m = None.

(** The end of a callback: the score is given, or messages about no score are sent. *)
Definition says (m : M Judge unit) (v : option (ScoreTarget * (f64 * text))) : Prop :=
  ∀ j, ui_open (judge_channel j) = true →
  match v with
  | Some (t, (x, msg)) => ∀ j', give_score t x msg j = (Ret tt, j') → m j = (Ret tt, j')
  | None => ∃ ms, Forall silent ms ∧ m j = (Ret tt, after_messages ms j)
  end.

Lemma after_messages_nil j : ui_open (judge_channel j) = true → after_messages [] j = j.
Proof.
  intros Ho. destruct j as [ms [l o] x]. simpl in Ho. subst o. unfold after_messages, with_judge_channel.
  simpl. by rewrite app_nil_r.
Qed.
Lemma says_nothing : says (mret tt) None.
Proof. intros j Ho. exists []. by rewrite after_messages_nil. Qed.
Lemma says_message m : silent m → says (judge_send m) None.
Proof.
  intros Hm j Ho. exists [m]. split; [by constructor|]. destruct j as [ms [l o]]. simpl in Ho. by subst o.
Qed.
Lemma says_score t x m : says (give_score t x m) (Some (t, (x, m))).
Proof. by intros j Ho j'. Qed.
Lemma says_callback c x m : says (score_callback c x m) (score_says c (x, m)).
Proof.
  destruct c as [t|d|p]; [apply says_score|..]; simpl;
    (destruct (_ : bool); first [apply says_nothing|by apply says_message]).
Qed.
Lemma says_context ctx m v : says m v → says (with_context ctx m) v.
Proof.
  intros Hm j Ho. specialize (Hm j Ho). unfold with_context. destruct v as [[t [x msg]]|].
  - intros j' Hj. by rewrite (Hm j' Hj).
  - destruct Hm as (ms & ? & ->). by exists ms.
Qed.
Lemma says_lift {A} (o : Outcome A) a (f : A → M Judge unit) v :
  o = Ret a → says (f a) v → says (x ← lift o; f x) v.
Proof. by intros ->. Qed.

Lemma says_failure d r : says (report_failure d r) None.
Proof.
  unfold report_failure. destruct (is_success _); [apply says_nothing|by apply says_message].
Qed.

Lemma says_first (f : ExecutionResult → M Judge unit) results r v :
  head results = Some r → says (f r) v → says (r ← first_result results; f r) v.
Proof. intros Hr Hf. unfold first_result. rewrite Hr. by eapply says_lift. Qed.
Lemma says_report d results :
  is_Some (head results) → says (r ← first_result results; report_failure d r) None.
Proof. intros [r Hr]. eapply says_first; [done|]. apply says_failure. Qed.

Lemma says_checker tc d t r :
  is_Some (result_stdout r) → is_Some (result_stderr r) →
  says (checker_done tc d t r) (v ← checker_verdict r; score_says t v).
Proof.
  intros [out Hout] [err Herr]. unfold checker_done, checker_verdict. rewrite Hout, Herr.
  do 2 (eapply says_lift; [done|]). cbn [mbind option_bind].
  destruct (is_success (Dag.status r)); cbn [mbind option_bind negb]; [|by apply says_message].
  destruct (from_utf8 out) as [o|]; cbn [mbind option_bind negb]; [|by apply says_message].
  destruct (from_utf8 err) as [e|]; cbn [mbind option_bind negb]; [|by apply says_message].
  destruct (parse_f64 (trim o)) as [x|]; cbn [mbind option_bind negb]; [|by apply says_message].
  destruct (is_unicode_printable _); cbn [mbind option_bind negb]; [apply says_callback|by apply says_message].
Qed.

Lemma says_communication n t results :
  judgeable (CB_CommunicationDone n t) results →
  says (communication_done n t results) (verdict (CB_CommunicationDone n t) results).
Proof.
  intros Hj. unfold communication_done, send_score, verdict. cbn [judgeable] in Hj.
  destruct (first_failure 0 results) as [[i s]|].
  { apply says_context. destruct (decide (i = n)); apply says_score. }
  destruct (Hj eq_refl) as (r & Hr & v & Hv). rewrite Hr. cbn [mbind option_bind negb]. unfold manager_verdict in *.
  destruct (result_stdout r) as [out|] eqn:Ho; [|done].
  destruct (result_stderr r) as [err|] eqn:He; [|done].
  cbn [mbind option_bind] in *. destruct (parse_f64 _) as [x|] eqn:Hx; [|done].
  eapply says_lift; [done|]. eapply says_lift; [by rewrite Ho|]. eapply says_lift; [by rewrite He|].
  eapply says_lift; [by rewrite Hx|]. apply says_context, says_score.
Qed.

Lemma says_interactive t results :
  judgeable (CB_InteractiveDone t) results →
  says (interactive_done t results) (verdict (CB_InteractiveDone t) results).
Proof.
  intros (r & Hr & Herr). unfold interactive_done, send_score, verdict, controller_verdict.
  rewrite Hr. eapply says_first; [done|]. cbn [mbind option_bind negb].
  destruct (is_success (Dag.status r)); cbn [mbind option_bind negb]; [|apply says_context, says_score].
  destruct (Herr eq_refl) as [err ->]. eapply says_lift; [done|]. cbn [mbind option_bind negb].
  destruct (admin_message _) as [|c l]; [rewrite decide_True by done|rewrite decide_False by done];
    apply says_context, says_score.
Qed.

Lemma says_crash message who whose r : says (report_crash message who whose r) None.
Proof. unfold report_crash. destruct (is_success _); [apply says_nothing|by apply says_message]. Qed.
Lemma says_terry c r : is_Some (result_stdout r) → says (terry_checked c r) None.
Proof.
  intros [out Ho]. unfold terry_checked. rewrite Ho. eapply says_lift; [done|].
  destruct c, (outcome_from out); first [apply says_nothing|by apply says_message].
Qed.

Lemma says_latex dest r : says (latex_done dest r) None.
Proof.
  unfold latex_done, emit_warnings. destruct (result_stdout r); [|apply says_nothing].
  destruct (sorted _); [apply says_nothing|by apply says_message].
Qed.
Lemma says_typst dest r : says (typst_done dest r) None.
Proof. unfold typst_done. destruct (Dag.status r); first [apply says_nothing|by apply says_message]. Qed.

Lemma run_done_says c results : judgeable c results → says (run_done c results) (verdict c results).
Proof.
  intros Hj. destruct c; cbn [judgeable] in Hj; try (by apply says_report).
  - simpl. apply says_message. by destruct kind.
  - destruct results as [|r [|]]; try done. cbn [run_done]. unfold batch_done, verdict.
    cbn [head mbind option_bind]. destruct (Dag.status r); first [apply says_nothing|apply says_score].
  - destruct Hj as (r & Hr & Hs). cbn [run_done verdict]. rewrite Hr. cbn [mbind option_bind].
    eapply says_first; [done|]. unfold white_diff_done.
    destruct Hs as [-> | ->]; apply says_context, says_callback.
  - destruct Hj as (r & Hr & Ho & He). cbn [run_done verdict]. rewrite Hr. cbn [mbind option_bind].
    eapply says_first; [done|]. by apply says_checker.
  - by apply says_communication.
  - by apply says_interactive.
  - destruct Hj as (r & Hr & Ho). eapply says_first; [done|]. by apply says_terry.
  - destruct Hj as (r & Hr & He). eapply says_first; [done|]. unfold terry_statement.
    destruct (is_success (Dag.status r)); [apply says_nothing|]. destruct (He eq_refl) as [err ->].
    eapply says_lift; [done|]. by apply says_message.
  - destruct Hj as [r Hr]. eapply says_first; [done|]. apply says_failure.
  - destruct Hj as [r Hr]. eapply says_first; [done|]. apply says_failure.
  - destruct Hj as [r Hr]. eapply says_first; [done|]. apply says_latex.
  - destruct Hj as [r Hr]. eapply says_first; [done|]. apply says_typst.
  - destruct Hj as [r Hr]. eapply says_first; [done|]. apply says_crash.
  - destruct Hj as [r Hr]. eapply says_first; [done|]. apply says_crash.
  - destruct Hj as [r Hr]. eapply says_first; [done|]. apply says_crash.
  - destruct Hj as [r Hr]. eapply says_first; [done|]. apply says_crash.
  - apply says_nothing.
  - apply says_nothing.
Qed.
End judge.

(** ** The score managers do not disturb each other

    A program of a score manager only appends to the channel, messages about its
    solution, and does not look at it. *)
Section emits.
Context `{IterOrder} (path : PathBuf).
Implicit Types (sm : ScoreManager) (c : UIChannel).

Definition sends (c : UIChannel) (l : list UIMessage) : UIChannel := mkUIChannel (ui_sent c ++ l) true.
Definition emits {A} (m : M ScoreManager A) : Prop := ∀ sm, sm_solution sm = path →
  ∃ r ms sm1, Forall (λ x, scored_by x = Some path) ms ∧ sm_solution sm1 = path ∧
    ∀ c, ui_open c = true → m (with_sm_channel c sm) = (r, with_sm_channel (sends c ms) sm1).

Lemma emits_nothing c : ui_open c = true → sends c [] = c.
Proof. destruct c as [l o]. simpl. intros ->. unfold sends. simpl. by rewrite app_nil_r. Qed.
Lemma sends_app c l l' : sends (sends c l) l' = sends c (l ++ l').
Proof. unfold sends. simpl. by rewrite app_assoc. Qed.

Lemma emits_bind {A B} (m : M ScoreManager A) (f : A → M ScoreManager B) :
  emits m → (∀ a, emits (f a)) → emits (m ≫= f).
Proof.
  intros Hm Hf sm Hs. destruct (Hm sm Hs) as (r & ms & sm1 & Hms & Hs1 & Hrun).
  destruct r as [a|e|e|].
  - destruct (Hf a sm1 Hs1) as (r & ms' & sm2 & Hms' & Hs2 & Hrun').
    exists r, (ms ++ ms'), sm2. split_and!; [by apply Forall_app|done|]. intros c Hc.
    unfold mbind, M_bind. rewrite Hrun by done. rewrite Hrun' by done. by rewrite sends_app.
  - exists (Fail e), ms, sm1. split_and!; [done..|]. intros c Hc. unfold mbind, M_bind. by rewrite Hrun.
  - exists (Panicked e), ms, sm1. split_and!; [done..|]. intros c Hc. unfold mbind, M_bind. by rewrite Hrun.
  - exists OutOfFuel, ms, sm1. split_and!; [done..|]. intros c Hc. unfold mbind, M_bind. by rewrite Hrun.
Qed.
Lemma emits_lift {A} (o : Outcome A) : emits (lift o).
Proof.
  intros sm Hs. exists o, [], sm. split_and!; [constructor|done|]. intros c Hc. by rewrite emits_nothing.
Qed.
Lemma emits_ret {A} (a : A) : emits (mret a).
Proof. apply (emits_lift (Ret a)). Qed.
(** The state can be read, but for the channel. *)
Lemma emits_get {A} (f : ScoreManager → M ScoreManager A) :
  (∀ sm c, f (with_sm_channel c sm) = f sm) → (∀ sm, sm_solution sm = path → emits (f sm)) →
  emits (get_st ≫= f).
Proof.
  intros Hf He sm Hs. destruct (He sm Hs sm Hs) as (r & ms & sm1 & Hms & Hs1 & Hrun).
  exists r, ms, sm1. split_and!; [done..|]. intros c Hc. unfold mbind, M_bind, get_st.
  by rewrite Hf, Hrun.
Qed.
Lemma emits_modify (h : ScoreManager → ScoreManager) :
  (∀ sm c, h (with_sm_channel c sm) = with_sm_channel c (h sm)) →
  (∀ sm, sm_solution (h sm) = sm_solution sm) → emits (modify h).
Proof.
  intros Hh Hs' sm Hs. exists (Ret tt), [], (h sm). split_and!; [constructor|by rewrite Hs'|].
  intros c Hc. unfold modify. by rewrite Hh, emits_nothing.
Qed.
Lemma emits_send m : scored_by m = Some path → emits (sm_send m).
Proof.
  intros Hm sm Hs. exists (Ret tt), [m], sm. split_and!; [by constructor|done|].
  intros [l o] Hc. simpl in Hc. by subst o.
Qed.
Lemma emits_for_each {A} (l : list A) (f : A → M ScoreManager unit) :
  (∀ x, emits (f x)) → emits (for_each l f).
Proof.
  intros Hf. induction l as [|x l IH]; [apply emits_ret|]. apply emits_bind; [done|]. by intros [].
Qed.

Lemma emits_score_subtask k : emits (score_subtask k).
Proof.
  apply emits_get; [done|]. intros sm Hs. apply emits_bind; [apply emits_lift|]. intros tcs.
  apply emits_bind; [apply emits_lift|]. intros [scores|]; [|apply emits_ret].
  apply emits_bind; [apply emits_lift|]. intros n. apply emits_bind; [apply emits_lift|]. intros m.
  apply emits_bind; [by apply emits_modify|]. intros _.
  apply emits_bind; [apply emits_send; by rewrite Hs|]. intros _.
  apply emits_get; [done|]. intros sm' Hs'.
  destruct (forallb _ _); [apply emits_send; by rewrite Hs'|apply emits_ret].
Qed.
Lemma emits_score k tc x m : emits (score k tc x m).
Proof.
  apply emits_bind; [by apply emits_modify|]. intros _.
  apply emits_get; [done|]. intros sm Hs. apply emits_bind; [apply emits_send; by rewrite Hs|]. intros _.
  apply emits_get; [done|]. intros sm' _. apply emits_for_each. intros [k' [o|]]; simpl;
    [apply emits_ret|apply emits_score_subtask].
Qed.
Lemma emits_new task : emits (ScoreManager_new task).
Proof.
  apply emits_for_each. intros [k st]. simpl.
  destruct (subtask_testcases st); [apply emits_score_subtask|apply emits_ret].
Qed.

(** Two runs that differ by the channel. *)
Lemma emits_run {A} (m : M ScoreManager A) sm sm' a c :
  emits m → sm_solution sm = path → ui_open (sm_channel sm) = true → ui_open c = true →
  m sm = (Ret a, sm') →
  ∃ ms, Forall (λ x, scored_by x = Some path) ms ∧ sm_solution sm' = path ∧
    sm_channel sm' = sends (sm_channel sm) ms ∧
    m (with_sm_channel c sm) = (Ret a, with_sm_channel (sends c ms) sm').
Proof.
  intros Hm Hs Ho Hc Hrun. destruct (Hm sm Hs) as (r & ms & sm1 & Hms & Hs1 & Hall).
  pose proof (Hall _ Ho) as H1. replace (with_sm_channel (sm_channel sm) sm) with sm in H1 by (by destruct sm).
  rewrite Hrun in H1. injection H1 as <- ->. exists ms. split_and!; [done..|].
  rewrite (Hall c Hc). done.
Qed.
End emits.

(** ** Judging *)
Section judging.
Context `{IterOrder} `{OutcomeJson} `{Crates} (task : IOITask) (Htask : Scoring.task_ok task).
Implicit Types (j : Judge) (events : list (TaskCallback * list ExecutionResult)).

(** The scores that a sequence of callbacks gives to a solution. *)
Definition the_call (i : nat) (e : TaskCallback * list ExecutionResult) : option call :=
  '(t, (x, m)) ← verdict e.1 e.2;
  if decide (target_manager t = i)
  then Some (mkCall (target_subtask t) (target_testcase t) x (string_of_text m)) else None.
Definition calls_of (i : nat) events : list call := omap (the_call i) events.
Definition judge_all events : M Judge unit := for_each events (λ e, run_done e.1 e.2).

(** Alone, a solution would be in the same state and have sent the same scores. *)
Definition as_alone (path : PathBuf) (calls : list call) (sm : ScoreManager) (l : list UIMessage) : Prop :=
  ∃ sm', score_all task path calls = (Ret tt, sm') ∧ sm = with_sm_channel (sm_channel sm) sm' ∧
    scores_of path l = ui_sent (sm_channel sm').

Lemma score_all_nil path : score_all task path [] =
  ScoreManager_new task (ScoreManager_init task path (mkUIChannel [] true)).
Proof. unfold score_all, mbind, M_bind. by destruct (ScoreManager_new _ _) as [[[]| | |] ?]. Qed.
Lemma for_each_snoc {S A} (f : A → M S unit) l x s s' :
  for_each l f s = (Ret tt, s') → for_each (l ++ [x]) f s = f x s'.
Proof.
  revert s. induction l as [|y l IH]; intros s; cbn [for_each app].
  - intros [= <-]. unfold mbind, M_bind. by destruct (f x s) as [[[]| | |] ?].
  - unfold mbind, M_bind. destruct (f y s) as [[[]| | |] s1]; try done. apply IH.
Qed.
Lemma score_all_snoc path calls c sm :
  score_all task path calls = (Ret tt, sm) →
  score_all task path (calls ++ [c]) =
    score (call_subtask c) (call_testcase c) (call_score c) (call_message c) sm.
Proof.
  unfold score_all, mbind, M_bind. destruct (ScoreManager_new _ _) as [[[]| | |] sm0]; try done.
  intros Hrun. by apply (for_each_snoc _ _ c) in Hrun.
Qed.

Lemma score_all_state path calls sm :
  calls_ok task calls → score_all task path calls = (Ret tt, sm) →
  sm_solution sm = path ∧ ui_open (sm_channel sm) = true.
Proof.
  intros Hc Hrun. destruct (score_all_run task path calls Htask Hc) as (s & Hs & Hi & _).
  rewrite Hrun in Hs. injection Hs as ->. split; [apply (si_solution _ _ _ _ Hi)|apply (si_open _ _ _ _ Hi)].
Qed.
Lemma calls_ok_prefix calls c : calls_ok task (calls ++ [c]) → calls_ok task calls.
Proof.
  intros [Hn Hf]. rewrite fmap_app in Hn. apply NoDup_app in Hn as (Hn & _).
  apply Forall_app in Hf as [Hf _]. done.
Qed.

Context (paths : list PathBuf) (Hpaths : NoDup paths).

Record judged events j : Prop := {
  jd_open : ui_open (judge_channel j) = true;
  jd_alone : ∀ i path, paths !! i = Some path → ∃ sm, managers j !! i = Some sm ∧
    as_alone path (calls_of i events) sm (ui_sent (judge_channel j))
}.

Lemma calls_of_snoc i events e :
  calls_of i (events ++ [e]) = calls_of i events ++ option_list (the_call i e).
Proof. unfold calls_of. rewrite omap_app. simpl. by destruct (the_call i e). Qed.

Lemma judged_silent events e j ms :
  judged events j → verdict e.1 e.2 = None → Forall silent ms →
  judged (events ++ [e]) (after_messages ms j).
Proof.
  intros [Ho Ha] Hv Hms. split; [done|]. intros i path Hi.
  destruct (Ha i path Hi) as (sm & Hsm & sm' & Hrun & Heq & Hl). exists sm. split; [done|].
  exists sm'. rewrite calls_of_snoc. unfold the_call. rewrite Hv. simpl. rewrite app_nil_r.
  split_and!; [done..|]. rewrite scores_of_app, (scores_of_other path ms), app_nil_r; [done|].
  eapply Forall_impl; [done|]. intros m Hm. unfold silent in Hm. congruence.
Qed.

Lemma judged_score events e j t x m :
  judged events j → verdict e.1 e.2 = Some (t, (x, m)) → target_manager t < length paths →
  (∀ i, i < length paths → calls_ok task (calls_of i (events ++ [e]))) →
  ∃ j', give_score t x m j = (Ret tt, j') ∧ judged (events ++ [e]) j'.
Proof.
  intros [Ho Ha] Hv Ht Hc. set (i := target_manager t) in *.
  destruct (lookup_lt_is_Some_2 paths i Ht) as [path Hi].
  destruct (Ha i path Hi) as (sm & Hsm & sm' & Hrun & Heq & Hl).
  set (c := mkCall (target_subtask t) (target_testcase t) x (string_of_text m)).
  assert (∀ k, the_call k e = if decide (i = k) then Some c else None) as Hcall
    by (intros k; unfold the_call; by rewrite Hv).
  assert (calls_of i (events ++ [e]) = calls_of i events ++ [c]) as Hsnoc
    by (by rewrite calls_of_snoc, Hcall, decide_True).
  pose proof (Hc i Ht) as Hci. rewrite Hsnoc in Hci.
  destruct (score_all_run task path _ Htask Hci) as (sm2 & Hrun2 & _).
  rewrite (score_all_snoc _ _ _ _ Hrun) in Hrun2.
  destruct (score_all_state _ _ _ (calls_ok_prefix _ _ Hci) Hrun) as [Hs' Ho'].
  destruct (emits_run path _ sm' sm2 tt (judge_channel j) (emits_score _ _ _ _ _) Hs' Ho' Ho Hrun2)
    as (ms & Hms & Hs2 & Hch & Hgive).
  eexists. split.
  { unfold give_score. fold i. rewrite Hsm, Heq.
    replace (with_sm_channel (judge_channel j) (with_sm_channel (sm_channel sm) sm'))
      with (with_sm_channel (judge_channel j) sm') by done.
    change (score (target_subtask t) (target_testcase t) x (string_of_text m))
      with (score (call_subtask c) (call_testcase c) (call_score c) (call_message c)).
    rewrite Hgive. done. }
  split; [done|]. simpl. intros k q Hk. destruct (decide (i = k)) as [<-|Hne].
  - rewrite Hi in Hk. injection Hk as <-. eexists. split.
    { apply list_lookup_insert_eq. by eapply lookup_lt_Some. }
    exists sm2. rewrite Hsnoc, (score_all_snoc _ _ _ _ Hrun). split_and!; [done|done|].
    by rewrite scores_of_app, (scores_of_all path ms), Hl, Hch by done.
  - destruct (Ha k q Hk) as (smk & Hsmk & smk' & Hrunk & Heqk & Hlk). exists smk.
    rewrite list_lookup_insert_ne by done. split; [done|]. exists smk'.
    rewrite calls_of_snoc, Hcall, decide_False by done. simpl. rewrite app_nil_r.
    split_and!; [done..|]. rewrite scores_of_app, (scores_of_other q ms), app_nil_r; [done|].
    eapply Forall_impl; [done|]. intros y Hy. simpl in Hy. rewrite Hy. intros [= ->].
    apply Hne. by eapply NoDup_lookup.
Qed.

Lemma judged_run events after j :
  judged events j → Forall (λ e, judgeable e.1 e.2) after →
  (∀ e v, e ∈ after → verdict e.1 e.2 = Some v → target_manager v.1 < length paths) →
  (∀ i, i < length paths → calls_ok task (calls_of i (events ++ after))) →
  ∃ j', judge_all after j = (Ret tt, j') ∧ judged (events ++ after) j'.
Proof.
  revert events j. induction after as [|e after IH]; intros events j Hj Hok Ht Hc.
  { exists j. by rewrite app_nil_r. }
  apply Forall_cons in Hok as [He Hok].
  replace (events ++ e :: after) with ((events ++ [e]) ++ after) in * by (by rewrite <-app_assoc).
  assert (∃ j', run_done e.1 e.2 j = (Ret tt, j') ∧ judged (events ++ [e]) j') as (j' & Hrun & Hj').
  { pose proof (run_done_says _ _ He j (jd_open _ _ Hj)) as Hs.
    destruct (verdict e.1 e.2) as [[t [x m]]|] eqn:Hv.
    - destruct (judged_score events e j t x m) as (j' & Hgive & Hj'); [done|done| | |].
      + apply (Ht e (t, (x, m))); [by left|done].
      + intros i Hi. specialize (Hc i Hi). unfold calls_of in *. rewrite omap_app in Hc.
        destruct Hc as [Hn Hf]. rewrite fmap_app in Hn. apply NoDup_app in Hn as (Hn & _).
        by apply Forall_app in Hf as [Hf _].
      + exists j'. auto.
    - destruct Hs as (ms & Hms & Hrun). eexists. split; [exact Hrun|]. by apply judged_silent. }
  destruct (IH (events ++ [e]) j' Hj' Hok) as (j2 & Hrun2 & Hj2).
  - intros e' v Hin. apply Ht. by right.
  - done.
  - exists j2. split; [|done]. unfold judge_all. cbn [for_each]. unfold mbind, M_bind. by rewrite Hrun.
Qed.
End judging.

(** ** The start *)
Section start.
Context `{UuidV4} `{LanguageManager} `{IterOrder}.
Implicit Types (s : EvaluationData TaskCallback).
Context (t : BuildTask) (Ht : Scoring.task_ok (ui_task t)).
Definition solution_path (x : Solution) : PathBuf := sf_path (source_base (solution_source x)).

Lemma new_score_manager_alone path s :
  ui_open (eval_sender s) = true →
  ∃ ms sm, new_score_manager t path s = (Ret sm, with_eval_sender (sends (eval_sender s) ms) s) ∧
    Forall (λ x, scored_by x = Some path) ms ∧
    ∃ sm', score_all (ui_task t) path [] = (Ret tt, sm') ∧
      sm = with_sm_channel (sm_channel sm) sm' ∧ ms = ui_sent (sm_channel sm').
Proof.
  intros Ho. destruct (score_all_run (ui_task t) path [] Ht) as (sm' & Hrun & _).
  { split; constructor. }
  pose proof Hrun as Hnew. rewrite score_all_nil in Hnew.
  destruct (emits_run path _ (ScoreManager_init (ui_task t) path (mkUIChannel [] true)) sm' tt
    (eval_sender s) (emits_new path (ui_task t)) eq_refl eq_refl Ho Hnew) as (ms & Hms & Hs & Hch & Hgo).
  exists ms, (with_sm_channel (sends (eval_sender s) ms) sm'). split_and!; [|done|].
  - unfold new_score_manager.
    change (ScoreManager_init (ui_task t) path (eval_sender s)) with
      (with_sm_channel (eval_sender s) (ScoreManager_init (ui_task t) path (mkUIChannel [] true))).
    by rewrite Hgo.
  - exists sm'. split_and!; [done|done|]. by rewrite Hch.
Qed.

Lemma new_score_managers_alone l s :
  NoDup (solution_path <$> l) → ui_open (eval_sender s) = true →
  ∃ ms sms, new_score_managers t l s = (Ret sms, with_eval_sender (sends (eval_sender s) ms) s) ∧
    length sms = length l ∧
    Forall (λ m, ∃ p, p ∈ solution_path <$> l ∧ scored_by m = Some p) ms ∧
    ∀ i path, (solution_path <$> l) !! i = Some path → ∃ sm, sms !! i = Some sm ∧
      as_alone (ui_task t) path [] sm ms.
Proof.
  revert s. induction l as [|x l IH]; intros s Hnd Ho; cbn [new_score_managers].
  { exists [], []. split_and!; [|done|constructor|by intros i path].
    rewrite emits_nothing by done. by destruct s. }
  apply NoDup_cons in Hnd as [Hx Hnd].
  destruct (new_score_manager_alone (solution_path x) s Ho) as (ms & sm & Hrun & Hms & Halone).
  destruct (IH (with_eval_sender (sends (eval_sender s) ms) s) Hnd eq_refl)
    as (ms' & sms & Hrun' & Hlen & Hms' & Halone').
  exists (ms ++ ms'), (sm :: sms). split_and!.
  - unfold mbind, M_bind. unfold solution_path in Hrun. rewrite Hrun, Hrun'. simpl. by rewrite sends_app.
  - simpl. by rewrite Hlen.
  - apply Forall_app. split; (eapply Forall_impl; [done|]); simpl.
    + intros m Hm. exists (solution_path x). split; [by left|done].
    + intros m (p & Hp & Hm). exists p. split; [by right|done].
  - intros [|i] path Hi; simpl in *.
    + injection Hi as <-. exists sm. split; [done|]. destruct Halone as (sm' & Hr & Heq & ->).
      exists sm'. split_and!; [done..|]. rewrite scores_of_app, scores_of_all by done.
      rewrite scores_of_other, app_nil_r; [done|]. eapply Forall_impl; [done|].
      intros m (p & Hp & ->) [= ->]. done.
    + destruct (Halone' i path Hi) as (smi & Hsmi & sm' & Hr & Heq & Hl). exists smi. split; [done|].
      exists sm'. split_and!; [done..|]. rewrite scores_of_app, scores_of_other; [done|].
      eapply Forall_impl; [done|]. intros m Hm. simpl in Hm. rewrite Hm. intros [= Heqp].
      apply Hx. rewrite Heqp. by eapply list_elem_of_lookup_2.
Qed.
End start.

(** ** Examples *)
Definition no_json : OutcomeJson := {| outcome_from := λ _, inr "EOF while parsing a value" |}.
Definition exact_crates : Crates :=
  {| abs_diff_ne := λ x y, negb (f64_eqb x y); latex_errors := λ _, [] |}.
Definition ex_res (st : ExecutionStatus) (out err : string) : ExecutionResult :=
  mkResult st false false (mkResources f64_zero f64_zero f64_zero 0)
    (Some (bytes_of out)) (Some (bytes_of err)).
Definition ex_solutions : list Solution :=
  [mkSolution (ex_ui "a.cpp" (LanguageCpp (ex_config "g++" "c++17")) 0) [];
   mkSolution (ex_ui "s.py" LanguagePython 1) []].
Definition ex_managers := @new_score_managers forward_order ex_batch ex_solutions
  (EvaluationData_new (path_of_string "/task")).
Definition ex_judge : Judge := mkJudge (from_ret [] ex_managers.1) (eval_sender ex_managers.2) SanityState_new.
Definition ex_checked (i : nat) (st : SubtaskId) (tc : TestcaseId) (out err : string) :=
  (CB_CheckerDone (Some tc) "check" (SC_Score (mkTarget i st tc)), [ex_res Success out err]).
Definition ex_ran (i : nat) (st : SubtaskId) (tc : TestcaseId) (s : ExecutionStatus) :=
  (CB_BatchDone (mkTarget i st tc), [ex_res s EmptyString EmptyString]).
(** The two solutions end together; one crashes on the second testcase, the checker says
    nonsense about the other. *)
Definition ex_events : list (TaskCallback * list ExecutionResult) :=
  [ex_ran 0 0 0 Success; ex_ran 1 0 0 Success; ex_checked 1 0 0 " 0.5 " "translate:partial";
   ex_ran 1 1 1 (Signal 11 "Segmentation fault"); ex_checked 0 0 0 "1" "translate:success";
   ex_ran 0 1 1 Success; ex_checked 0 1 1 "well" "done"].

Example ex_judging :
  let j := (judge_all (H := forward_order) (H0 := no_json) (H1 := exact_crates) ex_events ex_judge).2 in
  (λ sm, (λ tc, testcase_scores sm !! tc) <$> [0%N; 1%N]) <$> managers j =
    [[Some (Some f64_one); Some None]; [Some (Some (f64_dec 5 1)); Some (Some f64_zero)]] ∧
  omap sent_task (ui_sent (judge_channel j)) = [f64_of_Z 25] ∧
  length (filter (λ m, silent m) (ui_sent (judge_channel j))) = 1.
Proof. vm_compute. split_and!; reflexivity. Qed.

(** A checker that prints [nan] is believed: the score manager panics. *)
Lemma nan_checker_panics :
  (judge_all (H := forward_order) (H0 := no_json) (H1 := exact_crates)
     [ex_checked 0 0 0 "1" EmptyString; ex_checked 0 1 1 "nan" EmptyString] ex_judge).1
  = Panicked "called `Option::unwrap()` on a `None` value".
Proof. vm_compute. reflexivity. Qed.

(** ** Properties *)

(** C17: The solutions of a task are judged independently: start the score managers as
    the builder of the DAG does and run the callbacks of the executions that end, of all
    the solutions, in any order.  When each result can be judged ([judgeable]), the paths of
    the solutions are distinct, no testcase of a solution gets two scores and no score is NaN
    (on which the program panics, [nan_checker_panics]), the callbacks neither fail nor
    panic, and each solution is in the state, and has sent the scores, that its own scores
    give when it is judged alone (as the score manager of the builder would).  The score of
    an evaluation that fails is 0, the others have the score that the checker, manager or controller says. *)
Theorem judging_refines_scoring `{LanguageManager} `{IterOrder} `{OutcomeJson} `{Crates} (t : BuildTask) (solutions : list Solution)
    (s s' : EvaluationData TaskCallback) (sms : list ScoreManager) (sanity : SanityState)
    (events : list (TaskCallback * list ExecutionResult)) :
  let paths := solution_path <$> solutions in
  Scoring.task_ok (ui_task t) → NoDup paths →
  ui_open (eval_sender s) = true → Forall silent (ui_sent (eval_sender s)) →
  new_score_managers t solutions s = (Ret sms, s') →
  Forall (λ e, judgeable e.1 e.2) events →
  (∀ e v, e ∈ events → verdict e.1 e.2 = Some v → target_manager v.1 < length solutions) →
  (∀ i, i < length solutions → calls_ok (ui_task t) (calls_of i events)) →
  ∃ j, judge_all events (mkJudge sms (eval_sender s') sanity) = (Ret tt, j) ∧
    ∀ i path, paths !! i = Some path → ∃ sm sm',
      managers j !! i = Some sm ∧ score_all (ui_task t) path (calls_of i events) = (Ret tt, sm') ∧
      subtask_scores sm = subtask_scores sm' ∧ testcase_scores sm = testcase_scores sm' ∧
      scores_of path (ui_sent (judge_channel j)) = ui_sent (sm_channel sm').
Proof.
  intros paths Ht Hnd Ho Hsil Hnew Hok Hrange Hcalls.
  destruct (new_score_managers_alone t Ht solutions s Hnd Ho) as (ms & sms' & Hrun & Hlen & Hms & Halone).
  rewrite Hnew in Hrun. injection Hrun as -> ->.
  assert (judged (ui_task t) paths []
    (mkJudge sms' (eval_sender (with_eval_sender (sends (eval_sender s) ms) s)) sanity)) as Hj.
  { split; [done|]. intros i path Hi. destruct (Halone i path Hi) as (sm & Hsm & sm' & Hr & Heq & Hl).
    exists sm. split; [done|]. exists sm'. split_and!; [done..|]. simpl.
    rewrite scores_of_app, scores_of_other; [done|]. eapply Forall_impl; [done|].
    intros m Hm. unfold silent in Hm. congruence. }
  assert (length paths = length solutions) as Hlp by apply length_fmap.
  destruct (judged_run (ui_task t) Ht paths Hnd [] events _ Hj Hok) as (j & Hj1 & Hj2).
  - intros e v He Hv. rewrite Hlp. by apply (Hrange e).
  - intros i Hi. rewrite Hlp in Hi. by apply Hcalls.
  - exists j. split; [done|]. intros i path Hi.
    destruct (jd_alone _ _ _ _ Hj2 i path Hi) as (sm & Hsm & sm' & Hr & Heq & Hl).
    exists sm, sm'. split_and!; [done|done| | |done]; by rewrite Heq.
Qed.


Lemma judging_refines_scoring_witness :
  ∃ j, judge_all (H := forward_order) (H0 := no_json) (H1 := exact_crates) ex_events ex_judge = (Ret tt, j) ∧
    ∀ i path, (solution_path <$> ex_solutions) !! i = Some path → ∃ sm sm',
      managers j !! i = Some sm ∧
      score_all (H := forward_order) (ui_task ex_batch) path (calls_of i ex_events) = (Ret tt, sm') ∧
      subtask_scores sm = subtask_scores sm' ∧ testcase_scores sm = testcase_scores sm' ∧
      scores_of path (ui_sent (judge_channel j)) = ui_sent (sm_channel sm').
Proof.
  apply (@judging_refines_scoring ex_platform ex_languages forward_order no_json exact_crates ex_batch ex_solutions
    (EvaluationData_new (path_of_string "/task")) ex_managers.2 (from_ret [] ex_managers.1) SanityState_new ex_events).
  - eapply bd_ids. apply (ex_buildable ∅), ex_ui_ok.
  - apply (bool_decide_unpack _). vm_compute. done.
  - done.
  - constructor.
  - apply injective_projections; [apply from_ret_eq; vm_compute; done|done].
  - repeat constructor; by eexists.
  - intros e v He. repeat (apply elem_of_cons in He as [->|He]; [by intros [= <-]; simpl; lia|]).
    by apply elem_of_nil in He.
  - intros [|[|i]] Hi; [| |simpl in Hi; lia]; (split; [apply (bool_decide_unpack _); vm_compute; done|]);
      repeat constructor; by eexists.
Defined.
