(* ===== verification/SanityTheorems.v ===== *)
(** * What the sanity checks guarantee

    The DAG of a task with its booklets and its sanity checks is valid; what the checks
    that read the official files report, whatever the order in which the chunks of the
    files arrive; the samples of [att/]. *)
From S2P Require Import Prelude Float64 RustOrd Paths StoreKey Dag CheckDag Text Diagnostics Checks CheckComments UiMessage Machine.
From S2P Require Import FloatText Build Languages SourceFile SourceFileCorrect Scoring ScoringCorrect UiState Client OutputChecks Judge.
From S2P Require Import IoiDag IoiDagCorrect IoiTaskCorrect TaskInput CasesGen Booklets BookletsCorrect.
From S2P Require Import SanityChecks AttChecks StatementChecks SanityChecksCorrect JudgeCorrect.

Section build.
Context `{UuidV4} `{LocalFiles} `{Blake3} `{LanguageManager} `{BuildProfile} `{UuidDisplay} `{IterOrder} `{Glob}.
Context `{NamePatterns} `{Crates} `{Links} `{StatementCrates} `{!BookletCrates}.
Implicit Types (s : EvaluationData TaskCallback) (h : Hooks) (G : gset Uuid).

(** ** The hooks, stopping at the first that fails *)
Definition strict_hooks (checks : list IoiCheck) (t : CheckedTask) : M Hooks unit :=
  for_each checks (λ c, check_pre_hook c t).
Definition strict_build_dag (t : CheckedTask) (checks : list IoiCheck) (config : EvaluationConfig) :
    M Hooks (CheckedTask * list ScoreManager) :=
  '(task, solutions, managers) ← on_eval (build_dag (ct_task t) config);
  let t := with_built task solutions t in
  _ ← on_eval (build_booklets (ct_booklets t));
  _ ← strict_hooks checks t;
  mret (t, managers).
Lemma strict_build_run t checks config h r h' :
  strict_build_dag t checks config h = (Ret r, h') → IOITask_build_dag t checks config h = (Ret r, h').
Proof.
  unfold strict_build_dag, IOITask_build_dag, mbind, M_bind.
  destruct (on_eval (build_dag _ _) h) as [[[[task l] sms]| | |] h1]; try done. cbv zeta.
  destruct (on_eval (build_booklets _) h1) as [[[]| | |] h2]; try done.
  destruct (strict_hooks _ _ h2) as [[[]| | |] h3] eqn:Hs; try done. intros Hr.
  unfold with_context. by rewrite (pre_hook_run diagnose _ _ _ _ Hs).
Qed.

(** ** What a task needs *)
Record checks_given G (t : CheckedTask) : Prop := {
  cg_task : buildable G (ct_task t);
  cg_fresh : fresh_files (ct_task t);
  cg_graders : graders_ok G (bt_grader_map (ct_task t));
  cg_glob : ∀ p, p ∈ CHECK_PATTERNS → valid_pattern (bt_path (ct_task t)) p;
  cg_folders : ∀ dir, dir ∈ ["att"; "sol"] → valid_pattern (in_task t dir) "*.*";
  cg_validator : input_validator_ok G (input_validator_generator t None);
  cg_output : ∀ g, batch_output_generator t = Some g → output_generator_ok G g;
  cg_booklets : ∀ b, b ∈ ct_booklets t → booklet_ok b;
  cg_sources : ∀ b st l, b ∈ ct_booklets t → st ∈ statements b →
    (text_len (str_text (build_statement_source l st)) < u64_modulus)%N;
  cg_captures : captures_inside;
  cg_ids : ∀ id, is_Some (bt_subtasks (ct_task t) !! id) → (id + 1 < u32_modulus)%N
}.
Lemma checkable_built G t task l solutions s :
  checks_given G t → files_fit → built (ct_task t) l task s → checkable G s (with_built task solutions t).
Proof.
  intros [] Hfit [_ _ [Htask Hdom Hready]]. rewrite Htask. split; simpl; try done.
  - apply (bd_type _ _ cg_task0).
  - intros k x f Hx Hf. by eapply Hready.
  - intros k st tc Hk Htc. rewrite Hdom.
    destruct (bd_listed _ _ cg_task0 k st tc Hk Htc) as (k' & st' & Hk' & Hown).
    by eapply (bd_owned _ _ cg_task0).
Qed.
Lemma checkable_extends G t s s' : extends s s' → checkable G s t → checkable G s' t.
Proof. intros He []. split; try done. intros k x f Hx Hf. eapply extends_ready; eauto. Qed.

Lemma wp_build_booklets G l s :
  (∀ b, b ∈ l → booklet_ok b) → builds G [] [] s →
  wp (build_booklets l) (λ _ s', builds G [] [] s' ∧ extends s s') may_fail s.
Proof.
  intros Hl Hb. apply wp_for_each_inv; [done|]. intros b s1 Hin [Hb1 He1]. wp_steps.
  eapply wp_booklet_build; [by apply Hl|done|]. intros s2 Hb2 He2. split; [done|by etrans].
Qed.

Lemma wp_strict_build G t checks config h :
  checks_given G t → searchable (ct_task t) config → (∀ c, c ∈ checks → c ∈ ioi_checks) →
  builds G [] [] (hook_eval h) →
  wp (strict_build_dag t checks config)
    (λ _ h', ∃ G', builds G' [] [] (hook_eval h') ∧ extends (hook_eval h) (hook_eval h')) may_fail h.
Proof.
  intros Ht Hs Hc Hb. unfold strict_build_dag. apply wp_bind, wp_on_eval.
  eapply wp_build_dag; [by apply Ht|by apply Ht|done|done|].
  intros task l sms s1 Hb1 He1 Hbuilt Hl Hlen. cbn beta iota zeta.
  apply wp_bind, wp_on_eval. simpl.
  eapply wp_mono; [apply (wp_build_booklets G); [apply Ht|exact Hb1]| |done]. intros _ s2 [Hb2 He2].
  set (t' := with_built task l t).
  assert (checkable G s2 t') as Hck.
  { eapply checkable_extends; [exact He2|]. eapply checkable_built; [done|apply (sr_files _ _ _ Hs)|done]. }
  apply wp_bind. eapply wp_mono; [apply (keeps_for_each G s2)| |done].
  - intros c Hin. apply ioi_checks_keep; [done|by apply Hc].
  - exists G. by split.
  - intros _ h' [G' [_ Hb' He']]. apply wp_ret. exists G'. split; [done|]. by do 2 (etrans; [done|]).
Qed.
End build.

(** ** The hooks after the evaluation

    They only send diagnostics: on an open channel they leave what the closures collected,
    and the channel, as they are. *)
Section post.
Context `{UuidV4} `{LocalFiles} `{Blake3} `{LanguageManager} `{BuildProfile} `{UuidDisplay} `{IterOrder} `{Glob}.
Context `{NamePatterns} `{Crates} `{Links} `{StatementCrates}.
Implicit Types (h : Hooks).

Definition same h h' : Prop := ui_open (eval_sender (hook_eval h')) = true ∧ hook_sanity h' = hook_sanity h.
Lemma same_trans h1 h2 h3 : same h1 h2 → same h2 h3 → same h1 h3.
Proof. intros [] []. split; [done|congruence]. Qed.
Definition calm {A} (m : M Hooks A) : Prop :=
  ∀ h, ui_open (eval_sender (hook_eval h)) = true → wp m (λ _, same h) (same h) h.

Lemma calm_ret {A} (a : A) : calm (mret a).
Proof. by intros h Hh. Qed.
Lemma calm_bind {A B} (m : M Hooks A) (f : A → M Hooks B) : calm m → (∀ a, calm (f a)) → calm (m ≫= f).
Proof.
  intros Hm Hf h Hh. apply wp_bind. eapply wp_mono; [by apply Hm| |done]. intros a h1 Hs.
  eapply wp_mono; [apply Hf, Hs|intros b h2 Hs2|intros h2 Hs2]; exact (same_trans _ _ _ Hs Hs2).
Qed.
Lemma calm_lift {A} (o : Outcome A) : no_panic o → calm (lift o).
Proof. intros Ho h Hh. by destruct o. Qed.
Lemma calm_lift_bind {A B} (o : Outcome A) (f : A → M Hooks B) :
  no_panic o → (∀ a, o = Ret a → calm (f a)) → calm (lift o ≫= f).
Proof. intros Ho Hf h Hh. apply wp_bind. destruct o; try done. by apply Hf. Qed.
Lemma calm_for_each {A} (l : list A) (f : A → M Hooks unit) :
  (∀ x, x ∈ l → calm (f x)) → calm (for_each l f).
Proof.
  induction l as [|x l IH]; intros Hf; [apply calm_ret|]. cbn [for_each].
  apply calm_bind; [apply Hf; by left|]. intros _. apply IH. intros y Hy. apply Hf. by right.
Qed.
(** A diagnostic goes through. *)
Lemma wp_diagnose d h (P : unit → Hooks → Prop) E :
  ui_open (eval_sender (hook_eval h)) = true → (∀ h', same h h' → P tt h') → wp (diagnose d) P E h.
Proof.
  intros Hh HP. unfold diagnose, on_eval, send, ui_send. wp_steps; [|simpl in *; congruence]. by apply HP.
Qed.
Lemma calm_diagnose d : calm (diagnose d).
Proof. intros h Hh. by apply wp_diagnose. Qed.
Ltac calm :=
  repeat first
    [ apply calm_ret | apply calm_diagnose | apply calm_for_each; intros ? ?
    | apply calm_lift_bind; [solve [eauto using no_panic_ok_or]|intros ? ?]
    | apply calm_bind; [|intros ?] | progress cbv zeta | case_match ].

(** What the hooks need: valid patterns, and the testcases of the subtasks. *)
Record after_given (t : CheckedTask) : Prop := {
  ag_glob : ∀ p, p ∈ CHECK_PATTERNS → valid_pattern (bt_path (ct_task t)) p;
  ag_listed : ∀ k st tc, ct_subtasks t !! k = Some st → tc ∈ subtask_testcases st →
    is_Some (bt_testcases (ct_task t) !! tc)
}.
Context (t : CheckedTask) (Ht : after_given t).

Lemma calm_found {B} l (f : list PathBuf → M Hooks B) :
  (∀ p, p ∈ l → p ∈ CHECK_PATTERNS) → (∀ fs, calm (f fs)) → calm (found_files t l ≫= f).
Proof.
  intros Hl Hf. apply calm_bind; [|done]. apply calm_lift, list_files_no_panic.
  intros p Hp. by apply (ag_glob t Ht), Hl.
Qed.
Lemma static_inputs_no_panic l found :
  (∀ tc, tc ∈ l → is_Some (bt_testcases (ct_task t) !! tc)) → no_panic (sample_static_inputs t l found).
Proof.
  revert found. induction l as [|tc l IH]; intros found Hl; [done|]. cbn [sample_static_inputs].
  destruct (Hl tc) as [x Hx]; [by left|]. rewrite Hx. simpl. destruct (input_generator x); [|done].
  apply IH. intros y Hy. apply Hl. by right.
Qed.
Lemma calm_att_sample_files : calm (att_sample_files t).
Proof.
  unfold att_sample_files. apply calm_lift_bind.
  { unfold extract_sample_files_from_task. destruct (ct_subtasks t !! 0%N) as [st|] eqn:Hst; [|done].
    apply static_inputs_no_panic. intros tc. by apply (ag_listed t Ht _ _ _ Hst). }
  intros l _. apply calm_found; [set_solver|]. intros fs. unfold att_sample, report_missing. calm.
Qed.
Lemma calm_broken_symlinks : calm (broken_symlinks t).
Proof. apply calm_found; [set_solver|]. intros fs. calm. Qed.
Lemma calm_end_with_new_line_post : calm (end_with_new_line_post t).
Proof. unfold end_with_new_line_post, emit_warning. apply calm_bind; [by intros h|]. intros h. calm. Qed.
Lemma calm_statement_valid_file path : calm (statement_valid_file t path).
Proof.
  unfold statement_valid_file. cbv zeta. case_match; [|calm].
  apply calm_lift_bind; [unfold check_valid_pdf; by repeat case_match|]. intros. calm.
Qed.
Lemma calm_statement_valid : calm (statement_valid t).
Proof.
  unfold statement_valid. apply calm_bind; [calm; apply calm_statement_valid_file|]. intros found.
  apply calm_bind; [|intros; calm]. generalize (omap (find_language_statement_pdf t) LANGUAGES) as l.
  intros l. revert found. induction l as [|p l IH]; intros found; cbn [any_valid]; [apply calm_ret|].
  apply calm_bind; [apply calm_statement_valid_file|done].
Qed.
Lemma resolve_links_no_panic n path : no_panic (resolve_links n path).
Proof.
  revert path. induction n as [|n IH]; intros path; cbn [resolve_links]; [by case_match|]. case_match; [apply IH|done].
Qed.
Lemma calm_statement_compiled_or_git : calm (statement_compiled_or_git t).
Proof.
  assert (∀ l p, calm (statement_known t l p)) as Hk.
  { intros l p. unfold statement_known. cbv zeta. apply calm_bind; [calm|]. intros _. case_match; [|apply calm_ret].
    apply calm_lift_bind; [apply resolve_links_no_panic|]. intros. calm. }
  unfold statement_compiled_or_git. cbv zeta. apply calm_bind; [case_match; [apply Hk|apply calm_ret]|].
  intros _. apply calm_for_each. intros p _. apply Hk.
Qed.

(** The outputs of the subtasks that all arrived, when not all of them are empty. *)
Definition shown h : Prop := ∀ id out st,
  sanity_outputs (hook_sanity h) !! id = Some out → ct_subtasks t !! id = Some st →
  length out = length (subtask_testcases st) →
  ∃ o rest, out = o :: rest ∧ (is_Some (first_chunk o) ∨ ∃ o', o' ∈ rest ∧ output_hash o' ≠ output_hash o).
Lemma wp_all_outputs_equal h :
  shown h → ui_open (eval_sender (hook_eval h)) = true → wp (all_outputs_equal_post t) (λ _, same h) (same h) h.
Proof.
  intros Hs. revert h Hs. assert (∀ h, shown h → calm (for_each (map_iter (sanity_outputs (hook_sanity h))) (compare_outputs t)))
    as Hc; [|intros h Hs Hh; apply wp_bind, wp_get; by apply Hc].
  intros h Hs. apply calm_for_each. intros [id out] Hin%elem_of_map_iter. unfold compare_outputs.
  destruct (ct_subtasks t !! id) as [st|] eqn:Hst; [|apply calm_ret].
  destruct (length out =? _) eqn:Hlen; simpl; [|apply calm_ret]. apply Nat.eqb_eq in Hlen.
  destruct (Hs id out st Hin Hst Hlen) as (o & rest & -> & Ho). apply calm_lift_bind; [done|]. intros o1 [= <-].
  case_match eqn:Hall; [|apply calm_ret]. cbv zeta.
  destruct Ho as [[c Hc]|(o' & Hin' & Hne)].
  - rewrite Hc. apply calm_lift_bind; [done|]. intros. calm.
  - exfalso. apply Hne. rewrite forallb_forall in Hall. apply (bool_decide_eq_true_1 _).
    apply Hall. right. by apply list_elem_of_In.
Qed.
Lemma wp_ioi_post c h :
  c ∈ ioi_checks → shown h → ui_open (eval_sender (hook_eval h)) = true →
  wp (check_post_hook c t) (λ _, same h) (same h) h.
Proof.
  unfold ioi_checks, before, after. intros Hc Hs Hh.
  repeat (apply elem_of_cons in Hc as [->|Hc]; [simpl check_post_hook|]); [..|by apply elem_of_nil in Hc];
    try by apply calm_ret.
  - by apply calm_att_sample_files.
  - by apply calm_end_with_new_line_post.
  - by apply calm_statement_valid.
  - by apply calm_statement_compiled_or_git.
  - by apply wp_all_outputs_equal.
  - by apply calm_broken_symlinks.
Qed.
Lemma wp_post_hooks checks h :
  (∀ c, c ∈ checks → c ∈ ioi_checks) → shown h → ui_open (eval_sender (hook_eval h)) = true →
  wp (sanity_check_post_hook t checks) (λ _, same h) no_error h.
Proof.
  intros Hc Hs Hh. eapply (wp_for_each_inv (same h)); [by split|]. intros c h1 Hin Hsame.
  pose proof Hsame as [Hopen Heq].
  assert (shown h1) as Hs1 by (unfold shown; by rewrite Heq).
  pose proof (wp_ioi_post c h1 (Hc c Hin) Hs1 Hopen) as Hw. unfold wp, run_hook in *.
  destruct (check_post_hook c t h1) as [[a|e| |] h2]; try done; [by eapply same_trans|].
  apply wp_diagnose; [by apply Hw|]. intros h3 Hs3. do 2 (eapply same_trans; [done|]). done.
Qed.
End post.

(** ** The chunks of the files

    The chunks of all the files arrive in any order; the ones of a file in theirs. *)
Section chunks.
Context `{Blake3}.
Abbreviation Event := (N * list byte)%type.
Definition chunks_of (cell : N) (events : list Event) : list (list byte) :=
  omap (λ e : Event, if decide (e.1 = cell) then Some e.2 else None) events.
Lemma chunks_of_app cell e1 e2 : chunks_of cell (e1 ++ e2) = chunks_of cell e1 ++ chunks_of cell e2.
Proof. apply omap_app. Qed.
Lemma chunks_of_one cell e : chunks_of cell [e] = if decide (e.1 = cell) then [e.2] else [].
Proof. unfold chunks_of. simpl. by case_decide. Qed.

(** *** The ends of the files *)
Definition bad_end (content : list byte) : Prop :=
  content ≠ [] ∧ (Byte.x00 ∉ content) ∧ last content ≠ Some Byte.x0a.
(** An empty chunk arrives when the content so far has a bad end. *)
Definition reports (chunks : list (list byte)) : Prop :=
  ∃ pre post, chunks = pre ++ [] :: post ∧ bad_end (concat pre).
(** The state of the closure of a file after some of its content. *)
Definition checked_end (path : string) (content : list byte) : CheckEndWithNewLine :=
  mkEndCheck (match last content with Some b => bool_decide (b = Byte.x0a) | None => true end)
    (bool_decide (Byte.x00 ∈ content)) path.
Lemma bad_end_checked path content :
  negb (last_chunk_ends_with_new_line (checked_end path content)) && negb (is_binary (checked_end path content))
    = bool_decide (bad_end content).
Proof.
  unfold bad_end. simpl. destruct content as [|b l _] using rev_ind.
  { symmetry. apply bool_decide_eq_false. by intros []. }
  rewrite last_snoc, <-!bool_decide_not, <-bool_decide_and. apply bool_decide_ext.
  split; [intros [Hb Hn]; split_and!; [by destruct l|done|congruence]|intros (_ & Hn & Hb); split; [congruence|done]].
Qed.
Lemma end_add_chunk_spec path content chunk files :
  end_add_chunk (checked_end path content) chunk files =
  (checked_end path (content ++ chunk),
   if decide (chunk = [] ∧ bad_end content) then files ++ [path] else files).
Proof.
  assert (bool_decide (Byte.x00 ∈ content) || bool_decide (Byte.x00 ∈ chunk) =
    bool_decide (Byte.x00 ∈ content ++ chunk)) as Hbin.
  { rewrite <-bool_decide_or. apply bool_decide_ext. by rewrite elem_of_app. }
  unfold end_add_chunk. cbn [is_binary checked_end last_chunk_ends_with_new_line end_path]. rewrite Hbin.
  destruct chunk as [|b chunk].
  - rewrite app_nil_r. pose proof (bad_end_checked path content) as Hb. cbn in Hb. rewrite Hb.
    f_equal. destruct (decide (bad_end content)) as [Hbe|Hbe].
    + by rewrite bool_decide_true, decide_True by done.
    + rewrite bool_decide_false by done. by rewrite decide_False by (by intros [_ ?]).
  - rewrite decide_False by (by intros []). f_equal. unfold checked_end. rewrite last_app.
    destruct (last (b :: chunk)) as [c|] eqn:Hl; [|by apply last_None in Hl]. f_equal.
    apply bool_decide_ext. split; [by intros [= ->]|by intros ->].
Qed.

Record ends_inv (s0 : SanityState) (done_ : list Event) (s : SanityState) : Prop := {
  ei_cells : ∀ cell k path, end_checks s0 !! cell = Some (k, CheckEndWithNewLine_new path) →
    end_checks s !! cell = Some (k, checked_end path (concat (chunks_of cell done_)));
  ei_files : ∀ k path, path ∈ newline_files s k ↔ path ∈ newline_files s0 k ∨
    ∃ cell, end_checks s0 !! cell = Some (k, CheckEndWithNewLine_new path) ∧ reports (chunks_of cell done_)
}.
Lemma reports_snoc chunks chunk :
  reports (chunks ++ [chunk]) ↔ reports chunks ∨ chunk = [] ∧ bad_end (concat chunks).
Proof.
  split.
  - intros (pre & post & Heq & Hb). destruct post as [|x post _] using rev_ind.
    + apply app_inj_tail in Heq as [-> ->]. by right.
    + left. exists pre, post. split; [|done].
      rewrite app_comm_cons, app_assoc in Heq. by apply app_inj_tail in Heq as [-> _].
  - intros [(pre & post & -> & Hb)|[-> Hb]]; [|by exists chunks, []].
    exists pre, (post ++ [chunk]). by rewrite <-app_assoc.
Qed.
Lemma end_chunk_step s0 done_ s cell k path chunk :
  ends_inv s0 done_ s → end_checks s0 !! cell = Some (k, CheckEndWithNewLine_new path) →
  wp (end_chunk cell chunk) (λ _, ends_inv s0 (done_ ++ [(cell, chunk)])) no_error s.
Proof.
  intros [Hc Hf] Hcell. unfold end_chunk. wp_steps. rewrite (Hc _ _ _ Hcell). eapply wp_lift_ret; [done|].
  cbn beta iota. rewrite end_add_chunk_spec. wp_steps. split; simpl.
  - intros c k' p Hp. rewrite chunks_of_app, chunks_of_one. simpl. case_decide as Hcc.
    + subst c. rewrite Hcell in Hp. injection Hp as <- <-. rewrite lookup_insert_eq.
      by rewrite concat_app, concat_cons, concat_nil, app_nil_r.
    + rewrite lookup_insert_ne by done. rewrite app_nil_r. by apply Hc.
  - intros k' p. case_decide as Hk; [subst k'|].
    + transitivity (p ∈ newline_files s k ∨ p = path ∧ chunk = [] ∧ bad_end (concat (chunks_of cell done_))).
      { case_decide; [rewrite elem_of_app, list_elem_of_singleton|]; naive_solver. }
      rewrite Hf. split.
      * intros [[Hp|(c & Hp & Hr)]|(-> & -> & Hb)]; [by left|..].
        -- right. exists c. split; [done|]. rewrite chunks_of_app, chunks_of_one. simpl.
           case_decide; [apply reports_snoc; by left|by rewrite app_nil_r].
        -- right. exists cell. split; [done|]. rewrite chunks_of_app, chunks_of_one. simpl.
           rewrite decide_True by done. apply reports_snoc. by right.
      * intros [Hp|(c & Hp & Hr)]; [by left; left|]. rewrite chunks_of_app, chunks_of_one in Hr. simpl in Hr.
        case_decide as Hcc; [|rewrite app_nil_r in Hr; left; right; eauto]. subst c. rewrite Hcell in Hp.
        injection Hp as <-. apply reports_snoc in Hr as [Hr|[-> Hb]]; [left; right; eauto|by right].
    + rewrite Hf. split; (intros [Hp|(c & Hp & Hr)]; [by left|right; exists c; split; [done|]]);
        rewrite chunks_of_app, chunks_of_one in *; simpl in *;
        (case_decide as Hcc; [subst c; rewrite Hcell in Hp; congruence|]); by rewrite app_nil_r in *.
Qed.
Lemma end_chunks_run s0 events :
  (∀ e, e ∈ events → ∃ k path, end_checks s0 !! e.1 = Some (k, CheckEndWithNewLine_new path)) →
  wp (for_each events (λ e, end_chunk e.1 e.2)) (λ _, ends_inv s0 events) no_error s0.
Proof.
  intros He. assert (ends_inv s0 [] s0) as H0.
  { split; [done|]. intros k path. split; [by left|]. intros [|(cell & _ & pre & post & Hn & _)]; [done|].
    by destruct pre. }
  change events with ([] ++ events) at 2. revert H0. generalize s0 at 2 4 as s. generalize (@nil Event) as d.
  induction events as [|[cell chunk] events IH]; intros d s Hd; [by rewrite app_nil_r|]. cbn [for_each].
  destruct (He (cell, chunk)) as (k & path & Hk); [by left|]. apply wp_bind.
  eapply wp_mono; [by eapply end_chunk_step| |done]. intros a s1 Hs1. rewrite cons_middle, app_assoc.
  apply IH; [intros; apply He; by right|done].
Qed.
(** A file that arrived: its chunks, then one or more that are empty. *)
Definition arrived (chunks : list (list byte)) : Prop :=
  ∃ body n, ([] ∉ body) ∧ chunks = body ++ replicate (S n) [].
Lemma concat_replicate_nil {A} n : concat (replicate n (@nil A)) = [].
Proof. induction n; [done|]. simpl. done. Qed.
Lemma concat_arrived body n : concat (body ++ replicate n (@nil byte)) = concat body.
Proof. by rewrite concat_app, concat_replicate_nil, app_nil_r. Qed.
Lemma reports_arrived chunks : arrived chunks → reports chunks ↔ bad_end (concat chunks).
Proof.
  intros (body & n & Hbody & ->). rewrite concat_arrived.
  assert (¬ reports body) as Hno.
  { intros (pre & post & -> & _). apply Hbody. rewrite elem_of_app. right. by left. }
  assert (∀ k, reports (body ++ replicate k []) ↔ (0 < k) ∧ bad_end (concat body)) as Hr; [|rewrite Hr; naive_solver lia].
  induction k as [|k IH]; [simpl; rewrite app_nil_r; split; [done|lia]|].
  rewrite replicate_S_end, app_assoc, reports_snoc, IH, concat_arrived. naive_solver lia.
Qed.

(** *** The official outputs *)
Definition hasher_of (st : SubtaskId) (chunks : list (list byte)) : OutputHasher :=
  mkHasher st (head (filter (λ c, c ≠ []) chunks)) (concat chunks).
Definition output_of (chunks : list (list byte)) : TestcaseOutput :=
  mkOutput (head (filter (λ c, c ≠ []) chunks)) (blake3_hash (concat chunks)).
Lemma hasher_add_spec st chunks chunk outputs :
  hasher_add_chunk (hasher_of st chunks) chunk outputs =
  (hasher_of st (chunks ++ [chunk]),
   if decide (chunk = []) then alter (λ out, out ++ [output_of chunks]) st outputs else outputs).
Proof.
  unfold hasher_add_chunk, hasher_of. simpl. destruct chunk as [|b chunk].
  - rewrite filter_app, concat_app. simpl. by rewrite !app_nil_r.
  - rewrite decide_False by done. rewrite filter_app, concat_app, filter_cons_True by done.
    simpl. rewrite app_nil_r. f_equal. f_equal. by destruct (filter (λ c, c ≠ []) chunks).
Qed.
#[local] Instance OutputHasher_eq_dec : EqDecision OutputHasher.
Proof. solve_decision. Defined.
Lemma first_chunk_none chunks : first_chunk (output_of chunks) = None ↔ concat chunks = [].
Proof.
  simpl. induction chunks as [|c chunks IH]; [done|]. destruct c as [|b c]; [done|].
  rewrite filter_cons_True by done. simpl. split; intros; discriminate.
Qed.
(** The files of a subtask that ended, in the order of their ends. *)
Definition ended (cells : gmap N OutputHasher) (st : SubtaskId) (events : list Event) : list N :=
  omap (λ e : Event, if decide (e.2 = [] ∧ cells !! e.1 = Some (OutputHasher_new st)) then Some e.1 else None) events.
Definition single_end (chunks : list (list byte)) : Prop := ∃ body, ([] ∉ body) ∧ chunks = body ++ [[]].

Record outputs_inv (s0 : SanityState) (events done_ : list Event) (s : SanityState) : Prop := {
  oi_cells : ∀ cell st, hashers s0 !! cell = Some (OutputHasher_new st) →
    hashers s !! cell = Some (hasher_of st (chunks_of cell done_));
  oi_outputs : ∀ st, sanity_outputs s !! st =
    (λ out, out ++ ((λ cell, output_of (chunks_of cell events)) <$> ended (hashers s0) st done_))
      <$> sanity_outputs s0 !! st
}.
Lemma output_of_end chunks : output_of (chunks ++ [[]]) = output_of chunks.
Proof. unfold output_of. rewrite filter_app, concat_app. simpl. by rewrite !app_nil_r. Qed.
Lemma single_end_prefix chunks rest : single_end (chunks ++ [] :: rest) → rest = [] ∧ ([] ∉ chunks).
Proof.
  intros (body & Hb & Heq). destruct rest as [|x rest _] using rev_ind.
  - apply app_inj_tail in Heq as [-> _]. done.
  - exfalso. apply Hb. rewrite app_comm_cons, app_assoc in Heq. apply app_inj_tail in Heq as [<- _].
    rewrite elem_of_app. right. by left.
Qed.
Lemma hash_chunk_step s0 events done_ rest s cell st chunk :
  events = done_ ++ (cell, chunk) :: rest → outputs_inv s0 events done_ s →
  hashers s0 !! cell = Some (OutputHasher_new st) → single_end (chunks_of cell events) →
  wp (hash_chunk cell chunk) (λ _, outputs_inv s0 events (done_ ++ [(cell, chunk)])) no_error s.
Proof.
  intros Hev [Hc Ho] Hcell Hend. unfold hash_chunk. wp_steps. rewrite (Hc _ _ Hcell). eapply wp_lift_ret; [done|].
  cbn beta iota. rewrite hasher_add_spec. wp_steps. split; simpl.
  - intros c st' Hp. rewrite chunks_of_app, chunks_of_one. simpl. case_decide as Hcc.
    + subst c. rewrite Hcell in Hp. injection Hp as <-. by rewrite lookup_insert_eq.
    + rewrite lookup_insert_ne by done. rewrite app_nil_r. by apply Hc.
  - intros st'. unfold ended. rewrite omap_app. simpl. rewrite Hcell.
    assert (∀ o : option (list TestcaseOutput), (λ out, out ++ [])<$> o = o) as Hid
      by (intros [o|]; simpl; by rewrite ?app_nil_r).
    case_decide as Hnil.
    2: { rewrite decide_False by (by intros []). by rewrite app_nil_r, Ho. }
    subst chunk. assert (output_of (chunks_of cell events) = output_of (chunks_of cell done_)) as Hout.
    { rewrite Hev, chunks_of_app in *. cbn in Hend |- *. rewrite decide_True in * by done.
      apply single_end_prefix in Hend as [-> _]. by rewrite output_of_end. }
    destruct (decide (st' = st)) as [->|Hne].
    + rewrite lookup_alter_eq, Ho, decide_True by done. rewrite fmap_app. cbn. rewrite Hout.
      destruct (sanity_outputs s0 !! st); simpl; [|done]. by rewrite app_assoc.
    + rewrite lookup_alter_ne by done. rewrite decide_False by (by intros [_ [= ?]]). by rewrite app_nil_r, Ho.
Qed.
Lemma hash_chunks_run s0 events :
  (∀ e, e ∈ events → ∃ st, hashers s0 !! e.1 = Some (OutputHasher_new st)) →
  (∀ cell st, hashers s0 !! cell = Some (OutputHasher_new st) → single_end (chunks_of cell events)) →
  wp (for_each events (λ e, hash_chunk e.1 e.2)) (λ _, outputs_inv s0 events events) no_error s0.
Proof.
  intros He Hend. assert (outputs_inv s0 events [] s0) as H0.
  { split; [done|]. intros st. destruct (sanity_outputs s0 !! st); simpl; by rewrite ?app_nil_r. }
  assert (∀ d rest s, events = d ++ rest → outputs_inv s0 events d s →
    wp (for_each rest (λ e, hash_chunk e.1 e.2)) (λ _, outputs_inv s0 events events) no_error s) as Hrun.
  { intros d rest. revert d. induction rest as [|[cell chunk] rest IH]; intros d s Hev Hd.
    { rewrite app_nil_r in Hev. subst d. done. }
    cbn [for_each]. destruct (He (cell, chunk)) as [st Hst]; [rewrite Hev, elem_of_app; right; by left|].
    apply wp_bind. eapply wp_mono; [eapply hash_chunk_step; [done..|by eapply Hend]| |done].
    intros a s1 Hs1. eapply IH; [|exact Hs1]. by rewrite <-app_assoc. }
  by apply (Hrun []).
Qed.
(** Each file of the subtask ends once. *)
Lemma elem_of_chunks cell chunk events : chunk ∈ chunks_of cell events ↔ (cell, chunk) ∈ events.
Proof.
  unfold chunks_of. rewrite list_elem_of_omap. split.
  - intros ([c x] & Hin & Hx). simpl in Hx. case_decide; naive_solver.
  - intros Hin. exists (cell, chunk). simpl. by rewrite decide_True.
Qed.
Lemma elem_of_ended cells st events cell :
  cell ∈ ended cells st events ↔ (cells !! cell = Some (OutputHasher_new st)) ∧ [] ∈ chunks_of cell events.
Proof.
  rewrite elem_of_chunks. unfold ended. rewrite list_elem_of_omap. split.
  - intros ([c x] & Hin & Hx). simpl in Hx. case_decide; naive_solver.
  - intros [Hc Hin]. exists (cell, []). simpl. by rewrite decide_True.
Qed.
Lemma ended_once cells st events :
  (∀ cell, cells !! cell = Some (OutputHasher_new st) → single_end (chunks_of cell events)) →
  NoDup (ended cells st events).
Proof.
  intros Hend. assert (∀ d rest, events = d ++ rest → NoDup (ended cells st rest)) as Hnd; [|by apply (Hnd [])].
  intros d rest. revert d. induction rest as [|[cell chunk] rest IH]; intros d Hev; [constructor|].
  assert (NoDup (ended cells st rest)) as Hrest by (apply (IH (d ++ [(cell, chunk)])); by rewrite <-app_assoc).
  unfold ended in *. cbn. case_decide as Hc; [|done]. destruct Hc as [-> Hc]. constructor; [|done].
  intros Hin. apply (elem_of_ended cells st rest) in Hin as [_ Hin]. specialize (Hend _ Hc).
  rewrite Hev, chunks_of_app in Hend. cbn in Hend. rewrite decide_True in Hend by done.
  apply single_end_prefix in Hend as [Hnil _]. unfold chunks_of in Hin. rewrite Hnil in Hin.
  by apply elem_of_nil in Hin.
Qed.
Lemma ended_all cells st events l :
  (∀ cell, cells !! cell = Some (OutputHasher_new st) → single_end (chunks_of cell events)) →
  NoDup l → (∀ cell, cell ∈ l ↔ cells !! cell = Some (OutputHasher_new st)) →
  ended cells st events ≡ₚ l.
Proof.
  intros Hend Hl Hin. apply NoDup_Permutation; [by apply ended_once|done|]. intros cell.
  rewrite elem_of_ended, Hin. split; [by intros []|]. intros Hc. split; [done|].
  destruct (Hend _ Hc) as (body & _ & ->). rewrite elem_of_app. right. by left.
Qed.
End chunks.

(** *** The callbacks of the judge *)
Section judge.
Context `{IterOrder} `{OutcomeJson} `{Crates} `{Blake3}.
Implicit Types (j : Judge).

Lemma wp_chunk_callbacks (cb : N → TaskCallback) (f : N → list byte → M SanityState unit) events
    (Q : SanityState → Prop) j :
  (∀ cell chunk, run_callback (cb cell) (Call_chunk chunk) = zoom judge_sanity with_judge_sanity (f cell chunk)) →
  wp (for_each events (λ e, f e.1 e.2)) (λ _, Q) no_error (judge_sanity j) →
  wp (for_each events (λ e, run_callback (cb e.1) (Call_chunk e.2)))
    (λ _ j', Q (judge_sanity j') ∧ managers j' = managers j ∧ judge_channel j' = judge_channel j) no_error j.
Proof.
  intros Hcb. revert j. induction events as [|[cell chunk] events IH]; intros j Hw; [done|].
  cbn [for_each] in *. rewrite Hcb. unfold wp, mbind, M_bind, zoom in *. cbn [fst snd] in *.
  destruct (f cell chunk (judge_sanity j)) as [[[]| | |] s1]; try done.
  specialize (IH (with_judge_sanity s1 j) Hw). destruct (for_each _ _ _) as [[] j']; done.
Qed.
End judge.

(** ** The pairs of samples *)
Section samples.
Context `{IterOrder} `{Glob}.
Implicit Types (h : Hooks) (files : list PathBuf) (m : Numbered).
Definition opened h : Prop := ui_open (eval_sender (hook_eval h)) = true.
Definition with_number (n : TestcaseId) files : list PathBuf := filter (λ p, extract_num p = Some n) files.

Lemma numbered_lookup files n :
  by_number files !! n = match with_number n files with [] => None | l => Some l end.
Proof.
  unfold by_number. assert (∀ m, foldl add_numbered m files !! n =
    match default [] (m !! n) ++ with_number n files with [] => m !! n | l => Some l end) as Hm.
  2: { rewrite Hm, lookup_empty. simpl. by case_match. }
  induction files as [|p files IH]; intros m; cbn [foldl].
  { rewrite app_nil_r. destruct (m !! n) as [[]|]; done. }
  rewrite IH. unfold add_numbered, with_number in *. rewrite filter_cons.
  destruct (extract_num p) as [k|] eqn:Hk; [|by rewrite decide_False].
  destruct (decide (n = k)) as [->|Hne].
  - rewrite lookup_partial_alter_eq, decide_True by done. simpl. rewrite <-app_assoc. simpl.
    by destruct (default [] (m !! k)).
  - rewrite lookup_partial_alter_ne by done. by rewrite decide_False by congruence.
Qed.
Lemma numbered_head files n x l :
  by_number files !! n = Some (x :: l) ↔ with_number n files = x :: l.
Proof. rewrite numbered_lookup. destruct (with_number n files); naive_solver. Qed.

Record paired (inputs : list (TestcaseId * list PathBuf)) m (r : list (PathBuf * PathBuf) * Numbered) : Prop := {
  paired_samples : ∀ i o, (i, o) ∈ r.1 ↔ ∃ n l l', (n, i :: l) ∈ inputs ∧ m !! n = Some (o :: l');
  paired_fine : numbered_fine r.2
}.
Lemma wp_pair_samples t inputs m h :
  NoDup inputs.*1 → (∀ n l, (n, l) ∈ inputs → l ≠ []) → numbered_fine m → opened h →
  wp (pair_samples t inputs m) (λ r h', paired inputs m r ∧ opened h') no_error h.
Proof.
  revert m h. induction inputs as [|[n files] inputs IH]; intros m h Hnd Hi Hm Hh; cbn [pair_samples].
  { apply wp_ret. split; [|done]. split; [|done]. intros i o. split; [by intros []%elem_of_nil|].
    by intros (? & ? & ? & []%elem_of_nil & _). }
  apply NoDup_cons in Hnd as [Hn Hnd].
  assert (∀ n l, (n, l) ∈ inputs → l ≠ []) as Hi' by (intros k l Hin; eapply Hi; by right).
  assert (∀ k l, (k, l) ∈ inputs → k ≠ n) as Hne.
  { intros k l Hin ->. apply Hn. apply list_elem_of_fmap. by exists (n, l). }
  destruct files as [|x files]; [exfalso; eapply Hi; [by left|done]|].
  destruct (m !! n) as [found|] eqn:Hf.
  - destruct found as [|y found]; [by destruct (Hm _ _ Hf)|]. unfold first_of. wp_steps.
    eapply wp_lift_ret; [done|]. wp_steps. eapply wp_lift_ret; [done|]. wp_steps.
    eapply wp_mono; [apply IH; [done|done|by intros k l [_ ?]%lookup_delete_Some; eapply Hm|done]| |done].
    intros [samples m'] h' [[Hs Hm'] Hh']. cbn beta iota. wp_steps. split; [|done]. split; [|done].
    intros i o. simpl in *. rewrite elem_of_cons, Hs. split.
    + intros [[= -> ->]|(k & l & l' & Hin & Hk)]; [exists n, files, found; split; [by left|done]|].
      exists k, l, l'. split; [by right|]. by apply lookup_delete_Some in Hk as [_ ?].
    + intros (k & l & l' & [[= -> -> ->]|Hin]%elem_of_cons & Hk); [left; congruence|].
      right. exists k, l, l'. split; [done|]. rewrite lookup_delete_ne; [done|]. by apply not_eq_sym, (Hne k (i :: l)).
  - unfold first_of. wp_steps. eapply wp_lift_ret; [done|]. wp_steps.
    apply wp_diagnose; [done|]. intros h1 [Hh1 _].
    eapply wp_mono; [apply IH; done| |done]. intros r h' [[Hs Hm'] Hh']. split; [|done]. split; [|done].
    intros i o. rewrite Hs. split; intros (k & l & l' & Hin & Hk); exists k, l, l'; (split; [|done]); [by right|].
    apply elem_of_cons in Hin as [[= -> -> ->]|]; [congruence|done].
Qed.
Lemma wp_report_repeated t what m h (P : unit → Hooks → Prop) :
  opened h → (∀ h', opened h' → P tt h') → wp (report_repeated t what m) P no_error h.
Proof.
  intros Hh HP. eapply wp_mono; [eapply (wp_for_each_inv opened)| |done]; [done| |intros []; apply HP].
  intros n h1 _ Hh1. cbv zeta. case_match; [done|]. apply wp_diagnose; [done|]. by intros h2 [].
Qed.
Lemma wp_found t p l h (P : list PathBuf → Hooks → Prop) E :
  glob (path_to_string (path_join (bt_path (ct_task t)) (path_of_string p))) = Some l →
  P l h → wp (found_files t [p]) P E h.
Proof. intros Hl HP. unfold found_files. cbn [list_files]. rewrite Hl. simpl. by rewrite app_nil_r. Qed.
Lemma wp_get_sample_files t li lo h :
  glob (path_to_string (path_join (bt_path (ct_task t)) (path_of_string "att/*input*.txt"))) = Some li →
  glob (path_to_string (path_join (bt_path (ct_task t)) (path_of_string "att/*output*.txt"))) = Some lo →
  opened h →
  wp (get_sample_files t) (λ samples h', opened h' ∧ ∀ i o, (i, o) ∈ samples ↔
    ∃ n l l', with_number n li = i :: l ∧ with_number n lo = o :: l') no_error h.
Proof.
  intros Hli Hlo Hh. unfold get_sample_files. apply wp_bind. eapply wp_found; [done|]. cbv zeta.
  apply wp_bind, wp_report_repeated; [done|]. intros h1 Hh1. apply wp_bind. eapply wp_found; [done|].
  apply wp_bind, wp_report_repeated; [done|]. intros h2 Hh2. apply wp_bind.
  eapply wp_mono; [apply wp_pair_samples; [apply NoDup_map_iter| |apply numbered_is_fine|done]| |done].
  { intros n l Hin%elem_of_map_iter. by eapply numbered_is_fine. }
  intros [samples m] h3 [[Hs Hm] Hh3]. cbn beta iota. simpl in *. apply wp_bind.
  eapply wp_mono; [eapply (wp_for_each_inv opened); [done|]| |done].
  - intros [n l] h4 Hin%elem_of_map_iter Hh4. simpl. unfold first_of. wp_steps.
    destruct l as [|x l]; [by destruct (Hm _ _ Hin)|]. eapply wp_lift_ret; [done|].
    apply wp_diagnose; [done|]. by intros h5 [].
  - intros [] h4 Hh4. apply wp_ret. split; [done|]. intros i o. rewrite Hs. do 3 (apply exist_proper; intros ?).
    by rewrite elem_of_map_iter, !numbered_head.
Qed.
End samples.

(** ** The outputs of a subtask, compared *)
Section outputs.
Context `{Blake3} (t : CheckedTask) (id : SubtaskId) (st : SubtaskInfo).
Context (Hst : ct_subtasks t !! id = Some st).
Definition identical_outputs : string :=
  "All outputs for subtask " +:+ pretty id +:+
    match subtask_name st with Some name => " (" +:+ string_of_text name +:+ ")" | None => EmptyString end
    +:+ " are identical".

Lemma compare_different o rest o' h :
  length (o :: rest) = length (subtask_testcases st) → o' ∈ rest → output_hash o' ≠ output_hash o →
  compare_outputs t (id, o :: rest) h = (Ret tt, h).
Proof.
  intros Hlen Hin Hne. unfold compare_outputs. rewrite Hst, Hlen, Nat.eqb_refl. cbn [negb].
  unfold mbind, M_bind, lift. cbn [head unwrap].
  destruct (forallb (λ o0, bool_decide (output_hash o0 = output_hash o)) (o :: rest)) eqn:Hall; [|done]. exfalso. apply Hne.
  rewrite forallb_forall in Hall. apply (bool_decide_eq_true_1 _), Hall. right. by apply list_elem_of_In.
Qed.
Lemma compare_equal o rest h :
  length (o :: rest) = length (subtask_testcases st) → (∀ o', o' ∈ rest → output_hash o' = output_hash o) →
  ui_open (eval_sender (hook_eval h)) = true →
  match first_chunk o with
  | None => ∃ m, compare_outputs t (id, o :: rest) h = (Panicked m, h)
  | Some _ => ∃ d h', message d = identical_outputs ∧ compare_outputs t (id, o :: rest) h = (Ret tt, h') ∧
      ui_sent (eval_sender (hook_eval h')) = ui_sent (eval_sender (hook_eval h)) ++ [UI_Diagnostic d]
  end.
Proof.
  intros Hlen Heq Hopen. unfold compare_outputs. rewrite Hst, Hlen, Nat.eqb_refl. cbn [negb].
  unfold mbind, M_bind, lift. cbn [head unwrap].
  assert (forallb (λ o0, bool_decide (output_hash o0 = output_hash o)) (o :: rest) = true) as ->.
  { apply forallb_forall. intros x Hx%list_elem_of_In. apply bool_decide_eq_true.
    apply elem_of_cons in Hx as [->|Hx]; [done|by apply Heq]. }
  destruct (first_chunk o) as [c|]; simpl; [|by eexists].
  set (d := match from_utf8 c with Some _ => _ | None => _ end). exists d.
  unfold diagnose, on_eval, send, ui_send, zoom, mbind, M_bind, get_st, modify. rewrite Hopen. eexists.
  split_and!; [|done|done]. subst d. by destruct (from_utf8 c).
Qed.
End outputs.

(** ** Examples *)
Definition at_task (p : string) : PathBuf := path_join (path_of_string "/task") (path_of_string p).
Definition sc_files : LocalFiles := {| canonical := Some; nodes :=
  list_to_map [
    (at_task "att", Directory);
    (at_task "att/input0.txt", ex_node "1"); (at_task "att/output0.txt", ex_node "2");
    (at_task "statement/english.tex", ex_node "\usepackage{x}")] ∪ ex_nodes |}.
Definition sc_found (p : string) : list PathBuf :=
  if decide (p = "/task/sol/*") then (λ n, path_join ex_dir [Normal n]) <$> ["a.cpp"; "b.h"; "s.py"]
  else if decide (p = "/task/att/*input*.txt") then [at_task "att/input0.txt"]
  else if decide (p = "/task/att/*output*.txt") then [at_task "att/output0.txt"]
  else if decide (p = "/task/att/*") then [at_task "att/input0.txt"; at_task "att/output0.txt"]
  else [].
Definition sc_glob : Glob := {| glob := λ p, Some (sc_found p) |}.
Lemma omap_Some {A} (l : list A) : omap (λ x, x) (Some <$> l) = l.
Proof. induction l as [|x l IH]; [done|]. cbn. by rewrite IH. Qed.
Program Definition sc_booklets : @BookletCrates sc_glob :=
  @Build_BookletCrates sc_glob (λ p, Some (Some <$> sc_found p)) _
    (λ _, None) (λ _, Some "config") (λ _, Some "statement") (λ _, false) (λ _, false) (path_of_string "/data").
Next Obligation. intros p. simpl. by rewrite omap_Some. Qed.
Definition sc_links : Links :=
  {| read_link := λ _, None; git_ls_files := λ _, None;
     read_dir := λ p, if decide (p = at_task "att")
                      then Some (Some <$> [at_task "att/input0.txt"; at_task "att/output0.txt"]) else None |}.
Definition sc_patterns : NamePatterns := {| nfkc := λ t, t; wild_matches := λ p n, bool_decide (p = n) |}.
Definition sc_statement_crates : StatementCrates :=
  {| oii_captures := λ _, []; oii_new_captures := λ _, []; ois_captures := λ _, []; typst_captures := λ _, [];
     font_families := [] |}.
Definition sc_statement : BookletStatement :=
  mkStatement (mkStatementConfig "task" "A task" EmptyString EmptyString None None None None)
    (at_task "statement/english.tex") (text_of "\usepackage{x}").
Definition sc_booklet : Booklet :=
  mkBooklet (mkBookletConfig "english" false false "T1" "utf8" None None None None None) [sc_statement]
    (at_task "statement/english.pdf") (Some "tex").
Definition sc_task : CheckedTask :=
  mkChecked ex_batch (λ _, IV_Custom (ex_ui "s.py" LanguagePython 105) ["val"])
    (Some (OG_Custom (ex_ui "a.cpp" (LanguageCpp (ex_config "g++" "c++17")) 102) [])) [sc_booklet] [].
Definition sc_hooks : Hooks := mkHooks (EvaluationData_new (path_of_string "/task")) SanityState_new.
Definition sc_checks : list IoiCheck :=
  @ioi_checks counting_uuids sc_files toy_blake3 ex_platform ex_languages dev_profile forward_order
    sc_glob sc_patterns exact_crates sc_links sc_statement_crates.
Definition sc_build :=
  @IOITask_build_dag counting_uuids sc_files toy_blake3 ex_platform ex_languages dev_profile decimal_uuid
    forward_order sc_glob sc_booklets sc_task sc_checks ex_eval_config sc_hooks.
Definition sc_strict :=
  @strict_build_dag counting_uuids sc_files toy_blake3 ex_platform ex_languages dev_profile decimal_uuid
    forward_order sc_glob sc_booklets sc_task sc_checks ex_eval_config sc_hooks.

(** The diagnostics of the checks, and the executions of the booklet, of the sample (its
    validation, its solution, its check) and of the junk outputs. *)
Definition sc_messages (l : list UIMessage) : list string :=
  omap (λ m, match m with UI_Diagnostic d => Some (message d) | _ => None end) l.
Example sc_build_ex :
  is_ret sc_build.1 = true ∧ is_ret sc_strict.1 = true ∧
  sc_messages (ui_sent (eval_sender (hook_eval sc_build.2))) =
    ["These attached files don't end with a new line: att/input0.txt, att/output0.txt";
     "The following solutions are missing the subtask checks: sol/a.cpp, sol/s.py"] ∧
  (λ t, length (filter (λ p, tag p.2 = t)
     (map_to_list (execution_groups (data (eval_dag (hook_eval sc_build.2))))))) <$>
  [Some (mkTag "booklet"); Some (mkTag "checking"); None] = [1; 9; 2].
Proof. vm_compute. split_and!; reflexivity. Qed.

Lemma sc_given : @checks_given dev_profile sc_glob sc_statement_crates sc_booklets ∅ sc_task.
Proof.
  split.
  - apply ex_buildable, ex_ui_ok.
  - intros k x f Hx%elem_of_list_to_map_2. rewrite elem_of_cons, list_elem_of_singleton in Hx.
    destruct Hx as [[= -> ->]|[= -> ->]]; intros [[=]|[=]].
  - apply ex_graders.
  - intros p _. by eexists.
  - intros dir _. by eexists.
  - apply ex_ui_ok.
  - intros g [= <-]. apply ex_ui_ok.
  - intros b ->%list_elem_of_singleton st ->%list_elem_of_singleton base l p Hbase [= <-] Hp.
    apply list_elem_of_fmap in Hp as (q & [= ->] & Hq). revert Hq. 
    injection Hbase as <-. vm_compute. intros Hq. by inversion Hq.
  - intros b st l ->%list_elem_of_singleton ->%list_elem_of_singleton. by destruct l.
  - by split; intros; simpl in *; set_solver.
  - intros id [st Hst]. destruct (ex_subtasks _ _ _ Hst) as [[-> _]|[-> _]]; done.
Qed.

(** ** Properties *)



(** C32: The check of the ends of the files, whatever the order in which the chunks of the
    files of all the testcases arrive and however the files are cut in chunks: when all of
    them arrived, the files of each kind that are reported are the ones that are not
    empty, have no zero byte and do not end with a new line; the scores and the messages
    do not change. *)
Theorem newline_check_exact `{IterOrder} `{OutcomeJson} `{Crates} `{Blake3} (events : list (N * list byte))
    (j : Judge) :
  (∀ k, newline_files (judge_sanity j) k = []) →
  (∀ e, e ∈ events → ∃ k path, end_checks (judge_sanity j) !! e.1 = Some (k, CheckEndWithNewLine_new path)) →
  (∀ cell, is_Some (end_checks (judge_sanity j) !! cell) → arrived (chunks_of cell events)) →
  ∃ j', for_each events (λ e, run_callback (CB_EndChunk e.1) (Call_chunk e.2)) j = (Ret tt, j') ∧
  managers j' = managers j ∧ judge_channel j' = judge_channel j ∧
  ∀ k path, path ∈ newline_files (judge_sanity j') k ↔
    ∃ cell, end_checks (judge_sanity j) !! cell = Some (k, CheckEndWithNewLine_new path) ∧
      let content := concat (chunks_of cell events) in
      content ≠ [] ∧ (Byte.x00 ∉ content) ∧ last content ≠ Some Byte.x0a.
Proof.
  intros Hnil He Harr.
  pose proof (wp_chunk_callbacks CB_EndChunk end_chunk events _ j (λ _ _, eq_refl) (end_chunks_run _ _ He)) as Hw.
  apply wp_run in Hw as ([] & j' & Hrun & [_ Hf] & Hm & Hch). exists j'. split_and!; [done..|].
  intros k path. rewrite Hf, Hnil, elem_of_nil. split.
  - intros [[]|(cell & Hc & Hr)]. exists cell. split; [done|]. apply reports_arrived; [apply Harr; eauto|done].
  - intros (cell & Hc & Hr). right. exists cell. split; [done|]. apply reports_arrived; [apply Harr; eauto|done].
Qed.

(** C30: The check that the outputs of a subtask are not all equal, whatever the order in
    which the chunks of the files arrive: two different hashes, and nothing is reported;
    the same content everywhere, not empty, and exactly one warning is sent, which names
    the subtask; but when every output is an empty file the check panics, because it
    wants to show the start of the files and there is no first chunk. *)
Theorem all_outputs_equal_exact `{IterOrder} `{OutcomeJson} `{Crates} `{Blake3} (t : CheckedTask)
    (id : SubtaskId) (st : SubtaskInfo) (cells : list N) (events : list (N * list byte)) (j : Judge) :
  ct_subtasks t !! id = Some st → cells ≠ [] → NoDup cells → length cells = length (subtask_testcases st) →
  (∀ cell, cell ∈ cells ↔ hashers (judge_sanity j) !! cell = Some (OutputHasher_new id)) →
  sanity_outputs (judge_sanity j) !! id = Some [] →
  (∀ e, e ∈ events → ∃ st, hashers (judge_sanity j) !! e.1 = Some (OutputHasher_new st)) →
  (∀ cell st, hashers (judge_sanity j) !! cell = Some (OutputHasher_new st) → single_end (chunks_of cell events)) →
  let content cell := concat (chunks_of cell events) in
  ∃ j' out, for_each events (λ e, run_callback (CB_HashChunk e.1) (Call_chunk e.2)) j = (Ret tt, j') ∧
  sanity_outputs (judge_sanity j') !! id = Some out ∧
  ∀ h, ui_open (eval_sender (hook_eval h)) = true →
    (∀ c1 c2, c1 ∈ cells → c2 ∈ cells → blake3_hash (content c1) ≠ blake3_hash (content c2) →
       compare_outputs t (id, out) h = (Ret tt, h)) ∧
    (∀ x, x ≠ [] → (∀ c, c ∈ cells → content c = x) →
       ∃ d h', message d = identical_outputs id st ∧ compare_outputs t (id, out) h = (Ret tt, h') ∧
         ui_sent (eval_sender (hook_eval h')) = ui_sent (eval_sender (hook_eval h)) ++ [UI_Diagnostic d]) ∧
    ((∀ c, c ∈ cells → content c = []) → ∃ m, compare_outputs t (id, out) h = (Panicked m, h)).
Proof.
  intros Hst Hne Hnd Hlen Hcells Hout He Hend content.
  pose proof (wp_chunk_callbacks CB_HashChunk hash_chunk events _ j (λ _ _, eq_refl) (hash_chunks_run _ _ He Hend)) as Hw.
  apply wp_run in Hw as ([] & j' & Hrun & [_ Ho] & _). specialize (Ho id). rewrite Hout in Ho. simpl in Ho.
  set (out := _ <$> ended _ _ _) in Ho. exists j', out. split_and!; [done..|]. intros h Hopen.
  assert (out ≡ₚ (λ c, output_of (chunks_of c events)) <$> cells) as Hperm.
  { apply fmap_Permutation, ended_all; [intros; by eapply Hend|done|done]. }
  assert (length out = length (subtask_testcases st)) as Hlo by (by rewrite Hperm, length_fmap).
  assert (∀ o, o ∈ out ↔ ∃ c, o = output_of (chunks_of c events) ∧ c ∈ cells) as Hin
    by (intros o; rewrite Hperm; apply list_elem_of_fmap).
  assert (∀ c, first_chunk (output_of (chunks_of c events)) = None ↔ content c = []) as Hfirst.
  { intros c. apply first_chunk_none. }
  clearbody out. destruct out as [|o rest]; [destruct cells; [done|simpl in *; congruence]|].
  destruct (proj1 (Hin o)) as (c & -> & Hc); [by left|].
  assert (∀ x, (∀ c, c ∈ cells → content c = x) →
    ∀ o', o' ∈ rest → output_hash o' = output_hash (output_of (chunks_of c events))) as Hall.
  { intros x Hx o' Ho'. destruct (proj1 (Hin o')) as (c' & -> & Hc'); [by right|].
    simpl. fold (content c'). fold (content c). by rewrite !Hx. }
  split_and!.
  - intros c1 c2 Hc1 Hc2 Hneq.
    assert (∃ c', c' ∈ cells ∧ blake3_hash (content c') ≠ blake3_hash (content c)) as (c' & Hc' & Hn').
    { destruct (decide (blake3_hash (content c1) = blake3_hash (content c))) as [Heq|]; [|by exists c1].
      exists c2. split; [done|]. congruence. }
    assert (output_of (chunks_of c' events) ∈ output_of (chunks_of c events) :: rest) as Hc2in
      by (apply Hin; eauto).
    apply elem_of_cons in Hc2in as [Heq|Hr]; [|by eapply compare_different].
    exfalso. apply Hn'. by apply (f_equal output_hash) in Heq.
  - intros x Hx Hsame. pose proof (compare_equal t id st Hst _ _ h Hlo (Hall x Hsame) Hopen) as Hcmp.
    destruct (first_chunk _) eqn:Hf; [done|]. apply Hfirst in Hf. rewrite Hsame in Hf by done. done.
  - intros Hnil. pose proof (compare_equal t id st Hst _ _ h Hlo (Hall [] Hnil) Hopen) as Hcmp.
    by rewrite (proj2 (Hfirst c) (Hnil c Hc)) in Hcmp.
Qed.

(** The samples of [att/]: on an open channel the search does not fail, and its result
    has exactly the pairs of an input and an output with the same number, each one the
    first file with that number, whatever the other files are; the number is the one
    before [.txt], after [input] or [output]. *)
Theorem sample_pairs_exact `{IterOrder} `{Glob} (t : CheckedTask) (inputs outputs : list PathBuf) (h : Hooks) :
  glob (path_to_string (path_join (bt_path (ct_task t)) (path_of_string "att/*input*.txt"))) = Some inputs →
  glob (path_to_string (path_join (bt_path (ct_task t)) (path_of_string "att/*output*.txt"))) = Some outputs →
  ui_open (eval_sender (hook_eval h)) = true →
  ∃ samples h', get_sample_files t h = (Ret samples, h') ∧
  ∀ i o, (i, o) ∈ samples ↔
    ∃ n, head (filter (λ p, extract_num p = Some n) inputs) = Some i ∧
         head (filter (λ p, extract_num p = Some n) outputs) = Some o.
Proof.
  intros Hi Ho Hh. pose proof (wp_get_sample_files t inputs outputs h Hi Ho Hh) as Hw.
  apply wp_run in Hw as (samples & h' & Hrun & _ & Hs). exists samples, h'. split; [done|].
  intros i o. rewrite Hs. apply exist_proper. intros n. unfold with_number.
  destruct (filter _ inputs), (filter _ outputs); naive_solver.
Qed.

(** C31: The hooks of the sanity checks that run after the evaluation: with the channel to
    the user interface open and the patterns of the checks valid ([after_given]), whatever the files, the links and the repository are, they
    return (an error of a check becomes a warning and the other checks run), and they
    leave what was collected; unless the outputs of a subtask that all arrived are all
    equal to an empty file. *)
Theorem post_hooks_return `{UuidV4} `{LocalFiles} `{Blake3} `{LanguageManager} `{BuildProfile}
    `{UuidDisplay} `{IterOrder} `{Glob} `{NamePatterns} `{Crates} `{Links} `{StatementCrates}
    (t : CheckedTask) (checks : list IoiCheck) (h : Hooks) :
  after_given t → (∀ c, c ∈ checks → c ∈ ioi_checks) → shown t h →
  ui_open (eval_sender (hook_eval h)) = true →
  ∃ h', sanity_check_post_hook t checks h = (Ret tt, h') ∧ hook_sanity h' = hook_sanity h.
Proof.
  intros Ht Hc Hs Hh. pose proof (wp_post_hooks t Ht checks h Hc Hs Hh) as Hw.
  apply wp_run in Hw as ([] & h' & Hrun & _ & Hsan). eauto.
Qed.

(** *** Witnesses *)
Definition sc_judge (s : SanityState) : Judge := mkJudge [] (mkUIChannel [] true) s.
Definition sc_ends : SanityState :=
  with_end_check 0 InputFiles (CheckEndWithNewLine_new "input/input0.txt")
    (with_end_check 1 OutputFiles (CheckEndWithNewLine_new "output/output0.txt") SanityState_new).
Definition sc_end_events : list (N * list byte) :=
  [(0%N, bytes_of "1 2"); (1%N, bytes_of "3"); (0%N, bytes_of " 4"); (1%N, [Byte.x0a]); (1%N, []); (0%N, [])].
Lemma newline_check_exact_witness :
  ∃ j', for_each sc_end_events (λ e, @run_callback forward_order no_json exact_crates toy_blake3
          (CB_EndChunk e.1) (Call_chunk e.2)) (sc_judge sc_ends) = (Ret tt, j') ∧
  managers j' = [] ∧ judge_channel j' = mkUIChannel [] true ∧
  ∀ k path, path ∈ newline_files (judge_sanity j') k ↔
    ∃ cell, end_checks sc_ends !! cell = Some (k, CheckEndWithNewLine_new path) ∧
      let content := concat (chunks_of cell sc_end_events) in
      content ≠ [] ∧ (Byte.x00 ∉ content) ∧ last content ≠ Some Byte.x0a.
Proof.
  apply (@newline_check_exact forward_order no_json exact_crates toy_blake3 sc_end_events (sc_judge sc_ends)).
  - by intros [].
  - intros e He. unfold sc_end_events in He. rewrite !elem_of_cons, elem_of_nil in He.
    destruct He as [->|[->|[->|[->|[->|[->|[]]]]]]]; eexists _, _; vm_compute; reflexivity.
  - intros cell. unfold sc_ends, with_end_check. simpl. intros [x Hx].
    apply lookup_insert_Some in Hx as [[<- _]|[_ Hx]].
    { exists [bytes_of "1 2"; bytes_of " 4"], 0. split; [|reflexivity]. by rewrite !elem_of_cons, elem_of_nil; intros [|[|[]]]. }
    apply lookup_insert_Some in Hx as [[<- _]|[_ Hx]]; [|by apply lookup_empty_Some in Hx].
    exists [bytes_of "3"; [Byte.x0a]], 0. split; [|reflexivity]. by rewrite !elem_of_cons, elem_of_nil; intros [|[|[]]].
Defined.

Lemma sample_pairs_exact_witness :
  ∃ samples h', @get_sample_files forward_order sc_glob sc_task sc_hooks = (Ret samples, h') ∧
  ∀ i o, (i, o) ∈ samples ↔
    ∃ n, head (filter (λ p, extract_num p = Some n) [at_task "att/input0.txt"]) = Some i ∧
         head (filter (λ p, extract_num p = Some n) [at_task "att/output0.txt"]) = Some o.
Proof.
  apply (@sample_pairs_exact forward_order sc_glob sc_task [at_task "att/input0.txt"] [at_task "att/output0.txt"]
    sc_hooks); reflexivity.
Defined.

Lemma post_hooks_return_witness :
  ∃ h', sanity_check_post_hook sc_task sc_checks sc_hooks = (Ret tt, h') ∧ hook_sanity h' = SanityState_new.
Proof.
  apply (@post_hooks_return counting_uuids sc_files toy_blake3 ex_platform ex_languages dev_profile
    decimal_uuid forward_order sc_glob sc_patterns exact_crates sc_links sc_statement_crates sc_task sc_checks sc_hooks).
  - split; [intros p _; by eexists|]. intros k st tc Hk Htc. unfold ct_subtasks in Hk.
    apply lookup_fmap_Some in Hk as (x & <- & Hx).
    destruct (ex_subtasks _ _ _ Hx) as [[-> ->]|[-> ->]]; simpl in Htc; rewrite ?elem_of_cons, elem_of_nil in Htc;
      (assert (tc = 0%N ∨ tc = 1%N) as [-> | ->] by tauto); by eexists.
  - by intros c.
  - intros id out st. simpl. by intros ?%lookup_empty_Some.
  - reflexivity.
Defined.

(** The outputs of the two testcases of a subtask are empty files. *)
Definition sc_outputs : SanityState :=
  with_hasher 0 (OutputHasher_new 1) (with_hasher 1 (OutputHasher_new 1) (with_outputs {[1%N := []]} SanityState_new)).
Definition sc_output_events : list (N * list byte) := [(1%N, []); (0%N, [])].
Definition sc_subtask : SubtaskInfo := subtask_info (ex_st 1 [0%N; 1%N] [1%N]).
Lemma sc_hashers cell st :
  hashers sc_outputs !! cell = Some (OutputHasher_new st) ↔ st = 1%N ∧ (cell = 0%N ∨ cell = 1%N).
Proof.
  unfold sc_outputs, with_hasher. simpl. rewrite !lookup_insert_Some, lookup_empty. split.
  - intros [[<- [= <-]]|[_ [[<- [= <-]]|[_ [=]]]]]; auto.
  - intros [-> [->| ->]]; auto.
Qed.
Lemma all_outputs_equal_exact_witness :
  let content cell := concat (chunks_of cell sc_output_events) in
  ∃ j' out, for_each sc_output_events (λ e, @run_callback forward_order no_json exact_crates toy_blake3
      (CB_HashChunk e.1) (Call_chunk e.2)) (sc_judge sc_outputs) = (Ret tt, j') ∧
  sanity_outputs (judge_sanity j') !! 1%N = Some out ∧
  ∀ h, ui_open (eval_sender (hook_eval h)) = true →
    (∀ c1 c2, c1 ∈ [0%N; 1%N] → c2 ∈ [0%N; 1%N] →
       @blake3_hash toy_blake3 (content c1) ≠ @blake3_hash toy_blake3 (content c2) →
       compare_outputs sc_task (1%N, out) h = (Ret tt, h)) ∧
    (∀ x, x ≠ [] → (∀ c, c ∈ [0%N; 1%N] → content c = x) →
       ∃ d h', message d = identical_outputs 1 sc_subtask ∧ compare_outputs sc_task (1%N, out) h = (Ret tt, h') ∧
         ui_sent (eval_sender (hook_eval h')) = ui_sent (eval_sender (hook_eval h)) ++ [UI_Diagnostic d]) ∧
    ((∀ c, c ∈ [0%N; 1%N] → content c = []) → ∃ m, compare_outputs sc_task (1%N, out) h = (Panicked m, h)).
Proof.
  apply (@all_outputs_equal_exact forward_order no_json exact_crates toy_blake3 sc_task 1 sc_subtask
    [0%N; 1%N] sc_output_events (sc_judge sc_outputs)); try done.
  - apply (bool_decide_unpack _). vm_compute. done.
  - intros cell. rewrite sc_hashers, !elem_of_cons, elem_of_nil. tauto.
  - intros e He. unfold sc_output_events in He. rewrite !elem_of_cons, elem_of_nil in He.
    destruct He as [->|[->|[]]]; exists 1%N; apply sc_hashers; auto.
  - intros cell st [_ Hc]%sc_hashers. exists []. split; [apply not_elem_of_nil|]. by destruct Hc as [->| ->].
Defined.
