(* ===== verification/ClientCorrect.v ===== *)
(** * The client is right

    What the client sends is a sequence of whole messages and whole files, what it
    does with a file it is given, and a file that the server asks for arrives in
    the store of the server. *)
From S2P Require Import Prelude Disk Paths StoreKey Store Dag Cache CheckDag Scheduler Proto Executor.
From S2P Require Import Client.

(** ** What the client sends *)

(** Messages that no content follows and that do not start an evaluation. *)
Definition plain (m : ExecutorClientMessage) : Prop :=
  match m with Cl_ProvideFile _ _ | Cl_Evaluate _ _ => False | _ => True end.

(** A file is sent as a message with its key, the chunks of its content and an empty
    chunk. *)
Definition file_packets (uuid : FileUuid) (key : FileStoreKey) (chunks : list (list byte)) :
    list (Packet ExecutorClientMessage) :=
  Item (Cl_ProvideFile uuid key) :: (RawData <$> chunks) ++ [RawData []].

(** The chunks are the ones of a file that the DAG provides. *)
Definition chunks_of (data : ExecutionDAGData) (uuid : FileUuid) (key : FileStoreKey)
    (chunks : list (list byte)) : Prop :=
  ∃ f, provided_files data !! uuid = Some f ∧ Dag.provided_key f = key ∧
    Forall (λ c, c ≠ []) chunks ∧
    match f with Content _ _ c => concat chunks = c | LocalFile _ _ _ => True end.

Inductive client_stream (data : ExecutionDAGData) : list (Packet ExecutorClientMessage) → Prop :=
  | stream_nil : client_stream data []
  | stream_item m ps : plain m → client_stream data ps → client_stream data (ps ++ [Item m])
  | stream_file uuid key chunks ps :
      chunks_of data uuid key chunks → client_stream data ps →
      client_stream data (ps ++ file_packets uuid key chunks).

(** What is left when the file that was announced cannot be read. *)
Definition dangling (tail : list (Packet ExecutorClientMessage)) : Prop :=
  tail = [] ∨ ∃ uuid key n, tail = Item (Cl_ProvideFile uuid key) :: replicate n (Item Cl_Status).

(** *** Invariants of the client

    An invariant that the local work of the client keeps, and one that the messages
    without a content keep too. *)
Class Frame {CB} (I : Client CB → Prop) : Prop := {
  fr_callbacks : ∀ x s, I s → I (with_cl_callbacks x s);
  fr_store : ∀ x s, I s → I (with_cl_store x s);
  fr_calls : ∀ x s, I s → I (with_cl_calls x s);
  fr_receiver : ∀ s, I s → I (with_cl_receiver (receive_file (cl_receiver s)).2 s)
}.
Class SendFrame {CB} (I : Client CB → Prop) : Prop := {
  fr_frame : Frame I;
  fr_polling : ∀ x s, I s → I (with_cl_polling x s);
  fr_turn : ∀ x s, I s → I (with_cl_turn x s);
  fr_send : ∀ m, plain m → stable I (on_cl_sender (send m))
}.
#[export] Existing Instance fr_frame.

Section frame.
Context `{IterOrder} `{Blake3} `{World} `{BuildProfile} `{!Bincode FileStoreIndex}.
Context {CB : Type} `{!Closures CB} `{Poller} (I : Client CB → Prop) `{!Frame I}.

Lemma stable_disk {A} (m : M Disk A) : stable I (on_cl_disk m).
Proof. apply stable_zoom. intros. by apply fr_store. Qed.
Lemma stable_store {A} (m : M FileStore A) : stable I (on_cl_store m).
Proof. apply stable_zoom. intros. by apply fr_store. Qed.

Lemma stable_callbacks : stable I dag_callbacks.
Proof. apply stable_read. intros s _. apply stable_lift. Qed.

Lemma stable_set_callbacks x : stable I (set_dag_callbacks x).
Proof. apply stable_modify. intros. by apply fr_callbacks. Qed.

Lemma stable_call cb arg : stable I (call cb arg).
Proof.
  apply stable_read. intros s _. apply stable_bind; [apply stable_modify; intros; by apply fr_calls|].
  intros _. destruct (call_error _ _ _); auto with stable.
Qed.

Lemma stable_chunks_read ctx path : stable I (read_chunks ctx path).
Proof. apply stable_bind; [apply stable_disk|]. auto with stable. Qed.

Lemma stable_chunks_received : stable I receive_chunks.
Proof.
  intros s Hs. unfold receive_chunks, mbind, M_bind, get_st. pose proof (fr_receiver s Hs) as Hr.
  by destruct (receive_file (cl_receiver s)) as [[] rest].
Qed.
End frame.

Create HintDb client.
#[export] Hint Resolve stable_ret stable_lift stable_bail stable_context stable_for_each stable_bind : client.
#[export] Hint Extern 1 (Frame _) => typeclasses eauto : client.
#[export] Hint Extern 2 (stable _ (on_cl_disk _)) => apply stable_disk : client.
#[export] Hint Extern 2 (stable _ (on_cl_store _)) => apply stable_store : client.
#[export] Hint Extern 2 (stable _ dag_callbacks) => apply stable_callbacks : client.
#[export] Hint Extern 2 (stable _ (set_dag_callbacks _)) => apply stable_set_callbacks : client.
#[export] Hint Extern 2 (stable _ (call _ _)) => apply stable_call : client.
#[export] Hint Extern 2 (stable _ (read_chunks _ _)) => apply stable_chunks_read : client.
#[export] Hint Extern 2 (stable _ receive_chunks) => apply stable_chunks_received : client.

Section local_work.
Context `{IterOrder} `{Blake3} `{World} `{BuildProfile} `{!Bincode FileStoreIndex}.
Context {CB : Type} `{!Closures CB} `{Poller} (I : Client CB → Prop) `{!Frame I}.

Lemma stable_chunked chunked chunk : stable I (call_chunked chunked chunk).
Proof. unfold call_chunked. auto with client. Qed.

Lemma stable_chunks dest chunked limit chunks buffer :
  stable I (process_chunks dest chunked limit chunks buffer).
Proof.
  revert buffer. induction chunks as [|c chunks IH]; intros buffer; simpl; [auto with client|].
  apply stable_bind; [destruct dest; auto with client|]. intros _.
  apply stable_bind; [apply stable_chunked|done].
Qed.

Lemma stable_process uuid success iterator hint :
  stable I iterator → stable I (process_provided_file uuid success iterator hint).
Proof.
  intros Hi. apply stable_bind; [auto with client|]. intros cbs.
  destruct (file_callbacks cbs !! uuid) as [c|]; [|auto with client].
  apply stable_bind; [auto with client|]. intros dest. apply stable_bind; [done|]. intros chunks.
  apply stable_bind; [apply stable_chunks|]. intros buffer.
  apply stable_bind; [apply stable_chunked|]. intros _.
  apply stable_bind; [auto with client|]. intros _.
  destruct (get_content c) as [[limit cb]|]; [|auto with client].
  apply stable_bind; [|auto with client].
  apply stable_bind; [auto with client|]. auto with client.
Qed.

Lemma stable_local uuid file : stable I (process_local uuid file).
Proof.
  destruct file; simpl.
  - apply stable_bind; [auto with client|]. intros chunks.
    apply stable_context, stable_process. auto with client.
  - apply stable_context, stable_process. auto with client.
Qed.

Lemma stable_drain uuid get clear arg : stable I (drain_callbacks uuid get clear arg).
Proof.
  apply stable_bind; [auto with client|]. intros cbs.
  destruct (execution_callbacks cbs !! uuid); [|auto with client].
  apply stable_bind; [auto with client|]. auto with client.
Qed.

Lemma stable_status cb status : stable I (handle_server_status cb status).
Proof.
  apply stable_bind; [|auto with client].
  induction (status_connected_workers status) as [|w l IH]; simpl; [auto with client|].
  apply stable_bind; [unfold convert_worker; destruct (status_current_job w); auto with client|].
  auto with client.
Qed.
End local_work.
#[export] Hint Extern 2 (stable _ (call_chunked _ _)) => apply stable_chunked : client.
#[export] Hint Extern 2 (stable _ (process_provided_file _ _ _ _)) => apply stable_process : client.
#[export] Hint Extern 2 (stable _ (drain_callbacks _ _ _ _)) => apply stable_drain : client.
#[export] Hint Extern 2 (stable _ (handle_server_status _ _)) => apply stable_status : client.

Section sending_work.
Context `{IterOrder} `{Blake3} `{World} `{BuildProfile} `{!Bincode FileStoreIndex}.
Context {CB : Type} `{!Closures CB} `{Poller} (I : Client CB → Prop) `{!SendFrame I}.

Lemma stable_plain ctx m : plain m → stable I (with_context ctx (on_cl_sender (send m))).
Proof. intros Hm. apply stable_context. by apply fr_send. Qed.

Lemma stable_statuses n : stable I (send_statuses n).
Proof.
  induction n as [|n IH]; simpl; [auto with client|]. apply stable_read. intros s _.
  destruct (cl_polling s); [|auto with client]. apply stable_bind.
  - unfold is_ok. intros s' Hs'. pose proof (fr_send Cl_Status Logic.I s' Hs') as Hx.
    by destruct (on_cl_sender _ s') as [[] ?].
  - intros [|]; [done|]. apply stable_modify. intros. by apply fr_polling.
Qed.

Lemma stable_poll : stable I poll.
Proof.
  apply stable_read. intros s _. apply stable_bind; [apply stable_modify; intros; by apply fr_turn|].
  intros _. apply stable_statuses.
Qed.

Lemma stable_done result missing : stable I (handle_done result missing).
Proof.
  revert missing. induction result as [|[[uuid key] success] l IH]; intros missing; simpl;
    [auto with client|].
  apply stable_bind; [auto with client|]. intros [handle|].
  - apply stable_bind; [auto with client|]. auto with client.
  - apply stable_bind; [apply stable_poll|]. intros _.
    apply stable_bind; [by apply stable_plain|done].
Qed.

(** Every message but the request for a file. *)
Lemma stable_message cb missing m :
  (∀ uuid, m ≠ Sv_AskFile uuid) → stable I (handle_server_message cb missing m).
Proof.
  intros Hm. destruct m; cbn [handle_server_message]; try (by destruct (Hm uuid));
    apply stable_bind; auto with client.
  - apply stable_poll.
  - intros _. apply stable_bind; [by apply stable_plain|]. auto with client.
  - apply stable_done.
Qed.
End sending_work.

Section stream_client.
Context `{IterOrder} `{Blake3} `{World} `{BuildProfile} `{!Bincode FileStoreIndex}.
Context {CB : Type} `{!Closures CB} `{Poller}.
Implicit Types (s : Client CB).

(** The channel of the client is [pre] and then a stream. *)
Context (data : ExecutionDAGData) (pre : list (Packet ExecutorClientMessage)).
Definition whole s : Prop :=
  cl_data s = data ∧ ∃ ps, cl_sender s = mkChannel (pre ++ ps) true ∧ client_stream data ps.
Definition broken s : Prop :=
  cl_data s = data ∧ ∃ ps tail, cl_sender s = mkChannel (pre ++ ps ++ tail) true ∧
    client_stream data ps ∧ dangling tail.

Lemma whole_broken s : whole s → broken s.
Proof.
  intros [? (ps & Hps & ?)]. split; [done|]. exists ps, []. rewrite app_nil_r. split_and!; [done..|by left].
Qed.

Lemma send_open m ps s :
  cl_sender s = mkChannel ps true →
  on_cl_sender (send m) s = (Ret tt, with_cl_sender (mkChannel (ps ++ [Item m]) true) s).
Proof.
  intros Hs. unfold on_cl_sender, zoom, send, send_packet, mbind, M_bind, get_st, modify. by rewrite Hs.
Qed.

#[export] Instance whole_frame : SendFrame whole.
Proof.
  split; [split; by intros|by intros..|].
  intros m Hm s [Hd (ps & Hps & Hst)]. rewrite (send_open _ _ _ Hps). split; [done|].
  exists (ps ++ [Item m]). simpl. rewrite app_assoc. split; [done|]. by constructor.
Qed.

#[export] Instance broken_frame : Frame broken.
Proof. split; by intros. Qed.

(** *** Sending a file *)
Lemma whole_file uuid key chunks s s' :
  whole s → cl_data s' = cl_data s → chunks_of data uuid key chunks →
  cl_sender s' = mkChannel ((sent (cl_sender s) ++ [Item (Cl_ProvideFile uuid key)]) ++
    (RawData <$> chunks) ++ [RawData []]) true →
  whole s'.
Proof.
  intros [Hd (ps & Hps & Hst)] Hd' Hc Hs'. split; [congruence|].
  exists (ps ++ file_packets uuid key chunks). split; [|by constructor].
  rewrite Hs', Hps. unfold file_packets. simpl. f_equal. by rewrite <-!app_assoc.
Qed.

(** The announcement of a file. *)
Lemma announce_open ctx m ps s :
  cl_sender s = mkChannel ps true →
  on_cl_sender (with_context ctx (send m)) s =
    (Ret tt, with_cl_sender (mkChannel (ps ++ [Item m]) true) s).
Proof.
  intros Hs. unfold on_cl_sender, zoom, with_context, send, send_packet, mbind, M_bind, get_st, modify.
  by rewrite Hs.
Qed.

Lemma announced_broken uuid key ps s :
  cl_data s = data → cl_sender s = mkChannel ((pre ++ ps) ++ [Item (Cl_ProvideFile uuid key)]) true →
  client_stream data ps → broken s.
Proof.
  intros Hd Hs Hps. split; [done|]. exists ps, [Item (Cl_ProvideFile uuid key)].
  rewrite app_assoc. split_and!; [done..|]. right. by exists uuid, key, 0.
Qed.

Lemma wlp_ask_file uuid s : whole s → wlp (handle_server_ask_file uuid) (λ _, whole) broken s.
Proof.
  intros Hw. pose proof Hw as [Hd (ps & Hps & Hst)].
  apply wlp_bind, wlp_get. apply wlp_bind, wlp_lift; [|by apply whole_broken].
  intros f Hf%unwrap_Ret. rewrite Hd in Hf.
  assert (∀ key, wlp (on_cl_sender (with_context "Failed to send ExecutorClientMessage::ProvideFile"
      (send (Cl_ProvideFile uuid key)))) (λ _ s', s' =
      with_cl_sender (mkChannel ((pre ++ ps) ++ [Item (Cl_ProvideFile uuid key)]) true) s)
      (λ _, False) s) as Hsend.
  { intros key. unfold wlp. by rewrite (announce_open _ _ _ _ Hps). }
  destruct f as [file key path|file key c]; apply wlp_bind;
    (eapply wlp_mono; [apply Hsend| |done]); intros [] s' ->.
  - apply wlp_context, wlp_bind, wlp_zoom, wlp_context, wlp_any.
    + intros content d. unfold wlp, on_cl_sender, zoom. simpl.
      rewrite send_file_content_open by done. simpl.
      eapply (whole_file uuid key (file_blocks content)); [exact Hw|done| |].
      * exists (LocalFile file key path). split_and!; [done..|apply file_blocks_nonempty|done].
      * simpl. by rewrite Hps, fmap_app.
    + intros d. by eapply announced_broken.
  - unfold wlp, on_cl_sender, zoom. simpl. unfold with_context. rewrite send_data_open by done. simpl.
    eapply (whole_file uuid key (data_chunks c)); [exact Hw|done| |].
    + exists (Content file key c). split_and!; [done..| |]; [by destruct c; repeat constructor|].
      destruct c; simpl; by rewrite ?app_nil_r.
    + simpl. by rewrite Hps.
Qed.

(** *** The loop *)
Lemma wlp_whole {A} (m : M (Client CB) A) s :
  stable whole m → whole s → wlp m (λ _, whole) broken s.
Proof.
  intros Hm Hs. eapply wlp_mono; [by apply wlp_stable|done|]. intros s'. apply whole_broken.
Qed.

Lemma wlp_message cb missing m s :
  whole s → wlp (handle_server_message cb missing m) (λ _, whole) broken s.
Proof.
  intros Hs. assert ((∃ uuid, m = Sv_AskFile uuid) ∨ ∀ uuid, m ≠ Sv_AskFile uuid) as [[uuid ->]|Hm]
    by (destruct m; naive_solver).
  - apply wlp_bind. eapply wlp_mono; [by apply wlp_whole; [apply stable_poll, _|]| |done].
    intros [] s1 Hs1. apply wlp_bind, wlp_context.
    eapply wlp_mono; [by apply wlp_ask_file| |done]. by intros [].
  - apply wlp_whole; [|done]. apply stable_message; [apply _|done].
Qed.

Lemma wlp_loop fuel cb missing s :
  whole s → wlp (evaluate_loop fuel cb missing) (λ _, whole) broken s.
Proof.
  revert missing s. induction fuel as [|fuel IH]; intros missing s Hs; simpl.
  - by destruct (bool_decide _).
  - destruct (bool_decide _); [done|]. apply wlp_bind, wlp_ok, wlp_zoom, wlp_any.
    + intros m ps. apply wlp_bind. eapply wlp_mono; [by apply wlp_message| |done].
      intros [missing'|] s' Hs'; [by apply IH|done].
    + done.
Qed.

(** Status messages after a broken stream. *)
Lemma stable_broken_statuses n : stable broken (send_statuses n : M (Client CB) unit).
Proof.
  induction n as [|n IH]; simpl; [auto with stable|]. apply stable_read. intros s _.
  destruct (cl_polling s); [|auto with stable]. apply stable_bind.
  - intros s' [Hd (ps & tail & Hps & Hst & Hdg)]. unfold is_ok. rewrite (send_open _ _ _ Hps). simpl.
    split; [done|]. destruct Hdg as [->|(uuid & key & k & ->)].
    + exists (ps ++ [Item Cl_Status]), []. rewrite app_nil_r. simpl. rewrite !app_nil_r, app_assoc.
      split_and!; [done|by constructor|by left].
    + exists ps, (Item (Cl_ProvideFile uuid key) :: replicate (S k) (Item Cl_Status)).
      simpl. rewrite <-!app_assoc. simpl. rewrite <-replicate_cons_app.
      split_and!; [done..|]. right. by exists uuid, key, (S k).
  - intros [|]; [done|]. apply stable_modify. intros s' Hs'. exact Hs'.
Qed.

Lemma stable_broken_poll : stable broken (poll : M (Client CB) unit).
Proof.
  apply stable_read. intros s _. apply stable_bind; [|intros _; apply stable_broken_statuses].
  apply stable_modify. intros s' Hs'. exact Hs'.
Qed.

Lemma wlp_stop_poller {A} (m : M (Client CB) A) s :
  wlp m (λ _, whole) broken s → wlp (stop_poller m) (λ _, whole) broken s.
Proof.
  unfold wlp, stop_poller. destruct (m s) as [r s1]. unfold mbind, M_bind.
  pose proof (stable_poll whole s1) as Hw. pose proof (stable_broken_poll s1) as Hb.
  destruct (poll s1) as [[]  s2]; simpl in *; [destruct (cl_polling s2)| | |]; by destruct r; auto.
Qed.
End stream_client.

(** ** The loop ends *)
Section fuel.
Context `{IterOrder} `{Blake3} `{World} `{BuildProfile} `{!Bincode FileStoreIndex}.
Context {CB : Type} `{!Closures CB} `{Poller}.

Definition packets_left (n : nat) (s : Client CB) : Prop := length (cl_receiver s) ≤ n.

Lemma receive_file_shorter {T} (ps : list (Packet T)) : length (receive_file ps).2 ≤ length ps.
Proof.
  induction ps as [|[m|d] ps IH]; simpl; [done..|]. destruct d; simpl; [lia|].
  destruct (receive_file ps) as [r rest]. simpl in *. lia.
Qed.

#[export] Instance packets_left_frame n : SendFrame (packets_left n).
Proof.
  split; [split| | |]; unfold packets_left; simpl; try done.
  - intros s Hs. pose proof (receive_file_shorter (cl_receiver s)). lia.
  - intros m _. by apply stable_zoom.
Qed.

Lemma stable_ask_file n uuid : stable (packets_left n) (handle_server_ask_file uuid).
Proof.
  assert (∀ m, stable (packets_left n) (on_cl_sender m)) as Hs by (intros m; by apply stable_zoom).
  apply stable_read. intros s _. apply stable_lift_bind. intros [file key path|file key c] _.
  - apply stable_bind; [done|]. intros _. apply stable_context, stable_bind; [by apply stable_zoom|done].
  - by apply stable_bind.
Qed.

Lemma stable_packets_message n cb missing m :
  stable (packets_left n) (handle_server_message cb missing m).
Proof.
  assert ((∃ uuid, m = Sv_AskFile uuid) ∨ ∀ uuid, m ≠ Sv_AskFile uuid) as [[uuid ->]|Hm]
    by (destruct m; naive_solver).
  - apply stable_bind; [apply stable_poll, _|]. intros _.
    apply stable_bind; [apply stable_context, stable_ask_file|auto with client].
  - by apply stable_message; [apply _|].
Qed.

(** The fuel of [evaluate] is enough: more of it gives the same run. *)
Lemma evaluate_loop_fuel k cb missing (s : Client CB) :
  length (cl_receiver s) < k →
  evaluate_loop k cb missing s = evaluate_loop (S (length (cl_receiver s))) cb missing s.
Proof.
  assert (∀ n k k' missing s, packets_left n s → n < k → n < k' →
    evaluate_loop k cb missing s = evaluate_loop k' cb missing s) as Hn.
  { clear. induction n as [|n IH]; intros [|k] [|k'] missing s Hs ? ?; try lia;
      cbn [evaluate_loop]; (destruct (bool_decide _); [done|]); unfold mbind, M_bind, ok, zoom, recv.
    - by destruct (cl_receiver s) eqn:Hr; [|unfold packets_left in Hs; rewrite Hr in Hs; simpl in Hs; lia].
    - destruct (cl_receiver s) as [|[m|d] ps] eqn:Hr; [done| |done]. simpl.
      assert (packets_left n (with_cl_receiver ps s)) as Hps
        by (unfold packets_left in *; rewrite Hr in Hs; simpl in *; lia).
      pose proof (stable_packets_message n cb missing m _ Hps) as Hm.
      destruct (handle_server_message cb missing m _) as [[[missing'|]| | |] s']; try done.
      simpl in Hm. apply IH; [done|lia..]. }
  intros Hk. apply (Hn (length (cl_receiver s))); unfold packets_left; lia.
Qed.

End fuel.

(** The start: the files of the DAG are processed, and then it is sent. *)
Lemma wlp_start `{IterOrder} `{Blake3} `{World} `{BuildProfile}
    `{!Bincode FileStoreIndex} {CB} `{!Closures CB} data (s : Client CB) :
  cl_data s = data → cl_sender s = mkChannel [] true →
  wlp start_evaluation
    (λ _ s', ∃ watch, whole data [Item (Cl_Evaluate data watch)] s')
    (λ s', sent (cl_sender s') = []) s.
Proof.
  intros Hd Hs. set (P := λ s : Client CB, cl_data s = data ∧ cl_sender s = mkChannel [] true).
  assert (Frame P) as HP by (split; by intros).
  assert (∀ A (m : M (Client CB) A) s, stable P m → P s →
    wlp m (λ _, P) (λ s', sent (cl_sender s') = []) s) as HwP.
  { intros A m s1 Hm Hs1. eapply wlp_mono; [by apply (wlp_stable P)|done|]. intros s' [_ Hs'].
    by rewrite Hs'. }
  apply wlp_bind, wlp_get. apply wlp_bind.
  eapply wlp_mono; [by apply HwP; [apply stable_callbacks|]| |done]. intros cbs s1 Hs1.
  apply wlp_bind. eapply wlp_mono; [apply HwP; [|exact Hs1]| |done].
  - apply stable_for_each. intros p. by apply stable_local.
  - intros [] s2 [Hd2 Hs2]. unfold wlp. rewrite (send_open _ _ _ Hs2). eexists. split; [done|].
    exists []. rewrite Hd. split; [done|constructor].
Qed.

(** C33: the client sends the DAG with the set of what it wants to be told, once, and
    then only whole messages and whole files, the status messages of the poller
    never inside a file; each file has the key and, if it is in memory, the
    content that the DAG gives it.  When an evaluation fails the only thing left
    open is a file that could not be read. *)
Theorem client_stream_whole `{IterOrder} `{Blake3} `{World} `{BuildProfile}
    `{!Bincode FileStoreIndex} {CB} `{!Closures CB} `{Poller} cb (s s' : Client CB) r :
  cl_sender s = mkChannel [] true → evaluate cb s = (r, s') →
  match r with
  | Ret _ => ∃ watch ps, sent (cl_sender s') = Item (Cl_Evaluate (cl_data s) watch) :: ps ∧
      client_stream (cl_data s) ps
  | Fail _ => sent (cl_sender s') = [] ∨
      ∃ watch ps tail, sent (cl_sender s') = Item (Cl_Evaluate (cl_data s) watch) :: ps ++ tail ∧
        client_stream (cl_data s) ps ∧ dangling tail
  | _ => True
  end.
Proof.
  intros Hs Hr. set (data := cl_data s).
  assert (wlp (evaluate cb) (λ _ s', ∃ watch, whole data [Item (Cl_Evaluate data watch)] s')
    (λ s', sent (cl_sender s') = [] ∨ ∃ watch, broken data [Item (Cl_Evaluate data watch)] s') s) as Hw.
  { apply wlp_bind. eapply wlp_mono; [by apply (wlp_start data)| |by left].
    intros [] s1 (watch & Hs1). eapply wlp_mono.
    - apply (wlp_stop_poller data [Item (Cl_Evaluate data watch)]), wlp_bind, wlp_get.
      apply wlp_loop. exact Hs1.
    - intros [] s2 Hs2. by exists watch.
    - intros s2 Hs2. right. by exists watch. }
  unfold wlp in Hw. rewrite Hr in Hw. destruct r; [| |done..].
  - destruct Hw as (watch & _ & ps & Hps & Hst). exists watch, ps. by rewrite Hps.
  - destruct Hw as [?|(watch & _ & ps & tail & Hps & ? & ?)]; [by left|right].
    exists watch, ps, tail. by rewrite Hps.
Qed.

(** ** What is done with a file *)
Section process.
Context `{IterOrder} `{Blake3} `{World} `{BuildProfile} `{!Bincode FileStoreIndex}.
Context {CB : Type} `{!Closures CB}.
Context (Hio : ∀ n, io_ok n = true) (Hcall : ∀ l cb arg, call_error (CB := CB) l cb arg = None).
Implicit Types (s : Client CB).

Lemma wp_io_quiet {A} (f : Disk → option (A * Disk)) a d' (Q : A → Disk → Prop) E d :
  f (advance d) = Some (a, d') → Q a d' → wp (io_call f) Q E d.
Proof. intros Hf HQ. unfold wp, io_call. by rewrite Hio, Hf. Qed.

(** The part of the state that the work on a file changes. *)
Definition worked s (new : list (CB * CallArg)) (fs : gmap PathBuf DiskFile) (ds : gset PathBuf)
    s' : Prop :=
  ∃ d, files d = fs ∧ dirs d = ds ∧
    s' = with_cl_calls (cl_calls s ++ new) (with_cl_store (with_disk d (cl_store s)) s).
Abbreviation disk_files s := (files (disk (cl_store s))).
Abbreviation disk_dirs s := (dirs (disk (cl_store s))).

Lemma worked_refl s : worked s [] (disk_files s) (disk_dirs s) s.
Proof.
  exists (disk (cl_store s)). split_and!; [done..|]. destruct s as [da cb [] se re ca po tu].
  unfold with_cl_calls, with_cl_store, with_disk. simpl. by rewrite app_nil_r.
Qed.

Lemma worked_trans s1 s2 s3 n1 n2 f1 f2 d1 d2 :
  worked s1 n1 f1 d1 s2 → worked s2 n2 f2 d2 s3 → worked s1 (n1 ++ n2) f2 d2 s3.
Proof.
  intros (x & <- & <- & ->) (y & <- & <- & ->). exists y. split_and!; [done..|].
  unfold with_cl_calls, with_cl_store, with_disk. simpl. by rewrite app_assoc.
Qed.

Lemma worked_disk s d :
  worked s [] (files d) (dirs d) (with_cl_store (with_disk d (cl_store s)) s).
Proof.
  exists d. split_and!; [done..|]. unfold with_cl_calls, with_cl_store. simpl. by rewrite app_nil_r.
Qed.

Lemma worked_state s new fs ds s' :
  worked s new fs ds s' → disk_files s' = fs ∧ disk_dirs s' = ds.
Proof. by intros (d & <- & <- & ->). Qed.

Lemma wp_call cb arg s : wp (call cb arg) (λ _, worked s [(cb, arg)] (disk_files s) (disk_dirs s)) no_error s.
Proof.
  apply wp_bind, wp_get, wp_bind, wp_modify. rewrite Hcall. apply wp_ret.
  exists (disk (cl_store s)). split_and!; [done..|]. by destruct s as [da cbs [] se re ca po tu].
Qed.

Definition chunk_calls (chunked : list CB) (chunk : list byte) : list (CB * CallArg) :=
  (λ cb, (cb, Call_chunk chunk)) <$> chunked.

Lemma wp_chunked chunked chunk s :
  wp (call_chunked chunked chunk) (λ _, worked s (chunk_calls chunked chunk) (disk_files s) (disk_dirs s)) no_error s.
Proof.
  revert s. induction chunked as [|cb chunked IH]; intros s; [apply wp_ret, worked_refl|].
  apply wp_bind, wp_context. eapply wp_mono; [apply wp_call| |done]. intros [] s1 Hs1.
  destruct (worked_state _ _ _ _ _ Hs1) as [Hf Hd].
  eapply wp_mono; [apply IH| |done]. intros [] s2 Hs2. rewrite Hf, Hd in Hs2.
  exact (worked_trans _ _ _ _ _ _ _ _ _ Hs1 Hs2).
Qed.

(** The buffer holds the first bytes of what was read. *)
Lemma fill_take limit l chunk :
  fill limit (take (N.to_nat limit) l) chunk = take (N.to_nat limit) (l ++ chunk).
Proof.
  unfold fill. rewrite length_take. destruct (N.ltb_spec (N.of_nat (Nat.min (N.to_nat limit) (length l))) limit).
  - assert (length l < N.to_nat limit) by lia. rewrite take_app_ge by lia.
    rewrite (take_ge l) by lia. f_equal.
    replace (N.to_nat (limit - N.of_nat (Nat.min (N.to_nat limit) (length l))))
      with (N.to_nat limit - length l) by lia.
    destruct (Nat.le_ge_cases (length chunk) (N.to_nat limit - length l)).
    + rewrite Nat.min_l by done. by rewrite !take_ge by lia.
    + by rewrite Nat.min_r.
  - rewrite take_app_le by lia. done.
Qed.

(** The file that is written grows by the chunks. *)
Definition written (dest : option PathBuf) (data : list byte) (fs : gmap PathBuf DiskFile) :
    gmap PathBuf DiskFile :=
  match dest with
  | Some p => alter (λ f, mkDiskFile (content f ++ data) (readonly f)) p fs
  | None => fs
  end.

Lemma written_written dest a b fs : written dest b (written dest a fs) = written dest (a ++ b) fs.
Proof.
  destruct dest as [p|]; [|done]. unfold written. apply map_eq. intros q.
  destruct (decide (p = q)) as [<-|]; [|by rewrite !lookup_alter_ne].
  rewrite !lookup_alter_eq. destruct (fs !! p); [|done]. simpl. by rewrite <-app_assoc.
Qed.

Lemma wp_chunks dest chunked limit chunks l s :
  match dest with Some p => is_Some (disk_files s !! p) | None => True end →
  wp (process_chunks dest chunked limit chunks (take (N.to_nat limit) l))
    (λ buffer s', buffer = take (N.to_nat limit) (l ++ concat chunks) ∧
       worked s (chunks ≫= chunk_calls chunked) (written dest (concat chunks) (disk_files s))
         (disk_dirs s) s')
    no_error s.
Proof.
  revert l s. induction chunks as [|c chunks IH]; intros l s Hd; simpl.
  { apply wp_ret. rewrite app_nil_r. split; [done|].
    replace (written dest [] (disk_files s)) with (disk_files s); [apply worked_refl|].
    destruct dest as [p|]; [|done]. unfold written. symmetry. apply alter_id.
    intros f _. rewrite app_nil_r. by destruct f. }
  apply wp_bind. apply (wp_mono _ (λ _, worked s [] (written dest c (disk_files s)) (disk_dirs s)) _ no_error); [|..]; [| |done].
  { destruct dest as [p|]; [|apply wp_ret, worked_refl]. apply wp_zoom, wp_context.
    destruct Hd as [f Hf]. eapply wp_io_quiet; [simpl; by rewrite Hf|].
    simpl. rewrite alter_alt, Hf.
    eexists. split_and!; [..|unfold with_cl_calls; simpl; by rewrite app_nil_r]; done. }
  intros [] s1 Hs1. destruct (worked_state _ _ _ _ _ Hs1) as [Hf1 Hd1].
  apply wp_bind. eapply wp_mono; [apply wp_chunked| |done]. intros [] s2 Hs2.
  destruct (worked_state _ _ _ _ _ Hs2) as [Hf2 Hd2]. rewrite Hf1 in Hf2. rewrite Hd1 in Hd2.
  pose proof (worked_trans _ _ _ _ _ _ _ _ _ Hs1 Hs2) as H12. rewrite fill_take.
  eapply wp_mono; [apply IH| |done].
  - rewrite Hf2. destruct dest as [p|]; [|done].
    unfold written. rewrite lookup_alter_eq. by apply fmap_is_Some.
  - intros buffer s3 [-> Hs3]. rewrite Hf2, Hd2, written_written in Hs3.
    rewrite <-app_assoc. split; [done|]. exact (worked_trans _ _ _ _ _ _ _ _ _ H12 Hs3).
Qed.

(** Whether the file is written: it is wanted, successful or not, and it is not its
    own source. *)
Definition here (d : Disk) (p : PathBuf) : bool :=
  bool_decide (is_Some (files d !! p) ∨ p ∈ dirs d).
Definition itself (d : Disk) (hint : option PathBuf) (dst : PathBuf) : bool :=
  match hint with
  | Some source => here d source && here d dst && bool_decide (canonical source = canonical dst)
  | None => false
  end.
Definition to_write (d : Disk) (w : option WriteToCallback) (success : bool)
    (hint : option PathBuf) : option PathBuf :=
  match w with
  | Some w => if (success || allow_failure w) && negb (itself d hint (dest w)) then Some (dest w) else None
  | None => None
  end.

Lemma wp_same_file source dst d :
  wp (same_file source dst) (λ b d', b = here d source && here d dst &&
    bool_decide (canonical source = canonical dst) ∧ files d' = files d ∧ dirs d' = dirs d) no_error d.
Proof.
  assert (∀ p d1, files d1 = files d → dirs d1 = dirs d →
    wp (ok (canonicalize_existing p)) (λ o d', o = (if here d p then Some (canonical p) else None) ∧
      files d' = files d ∧ dirs d' = dirs d) no_error d1) as Hc.
  { intros p d1 Hf Hd. unfold wp, ok, canonicalize_existing, io_call, here. rewrite Hio. simpl.
    rewrite <-Hf, <-Hd. by case_decide; [rewrite bool_decide_true|rewrite bool_decide_false]. }
  apply wp_bind. eapply wp_mono; [by apply Hc| |done]. intros o1 d1 (-> & Hf1 & Hd1).
  apply wp_bind. eapply wp_mono; [by apply Hc| |done]. intros o2 d2 (-> & Hf2 & Hd2).
  apply wp_ret. split; [|done]. by destruct (here d source), (here d dst).
Qed.

Lemma wp_open_dest w success hint d :
  match w with Some w => is_Some (path_parent (dest w)) | None => True end →
  wp (open_dest w success hint) (λ dst d', dst = to_write d w success hint ∧
    match dst with
    | Some p => files d' = <[p := mkDiskFile [] false]> (files d)
    | None => files d' = files d ∧ dirs d' = dirs d
    end) no_error d.
Proof.
  intros Hw. destruct w as [w|]; [|by apply wp_ret]. unfold open_dest, to_write.
  destruct success, (allow_failure w); simpl; try (by apply wp_ret).
  all: apply wp_bind; apply (wp_mono _ (λ b d', b = itself d hint (dest w) ∧
    files d' = files d ∧ dirs d' = dirs d) _ no_error);
    [destruct hint; simpl; [|by apply wp_ret]|intros skip d1 (-> & Hf1 & Hd1)|done];
    [apply wp_same_file|].
  all: destruct (itself d hint (dest w)); [by apply wp_ret|]; destruct Hw as [par Hpar];
    rewrite Hpar; apply wp_bind, wp_ret, wp_bind, wp_context; eapply wp_io_quiet; [done|];
    apply wp_bind, wp_context; eapply wp_io_quiet; [done|]; apply wp_ret; simpl; by rewrite Hf1.
Qed.

Lemma wp_make_executable w d :
  match w with Some w => is_Some (files d !! dest w) ∨ dest w ∉ dirs d | None => True end →
  wp (make_executable w) (λ _ d', content <$> files d' = content <$> files d) no_error d.
Proof.
  intros Hw. destruct w as [w|]; [|by apply wp_ret]. unfold make_executable.
  destruct (wt_executable w); [|by apply wp_ret]. apply wp_bind, path_exists_spec; [by apply wp_ret|].
  intros Hex. assert (∃ f, files d !! dest w = Some f) as [f Hf].
  { destruct Hex as [[f Hf]|?], Hw as [[f' Hf']|?]; eauto. done. }
  apply wp_bind, wp_context. eapply wp_io_quiet; [simpl; by rewrite Hf|].
  apply wp_context. eapply wp_io_quiet; [simpl; by rewrite Hf|]. simpl.
  apply map_eq. intros q. rewrite !lookup_fmap. destruct (decide (dest w = q)) as [<-|].
  - by rewrite lookup_insert_eq, Hf.
  - by rewrite lookup_insert_ne.
Qed.

(** The calls of the callbacks of a file, in order. *)
Definition file_calls (c : FileCallbacks CB) (chunks : list (list byte)) : list (CB * CallArg) :=
  ((chunks ++ [[]]) ≫= chunk_calls (get_content_chunked c)) ++
  match get_content c with
  | Some (limit, cb) => [(cb, Call_content (take (N.to_nat limit) (concat chunks)))]
  | None => []
  end.
Definition content_taken (uuid : FileUuid) (cbs : ExecutionDAGCallbacks CB) : ExecutionDAGCallbacks CB :=
  mkDagCallbacks (execution_callbacks cbs)
    (alter (λ c, mkFileCallbacks (write_to c) None (get_content_chunked c)) uuid (file_callbacks cbs))
    (urgent_files cbs).

(** The state at the end. *)
Lemma wp_process uuid success chunks hint cbs c s :
  cl_callbacks s = Some cbs → file_callbacks cbs !! uuid = Some c →
  match write_to c with
  | Some w => is_Some (path_parent (dest w)) ∧ dest w ∉ dirs (disk (cl_store s))
  | None => True
  end →
  wp (process_provided_file uuid success (mret chunks) hint)
    (λ _ s', cl_calls s' = cl_calls s ++ file_calls c chunks ∧
       content <$> disk_files s' = (let fs := content <$> disk_files s in
         match to_write (disk (cl_store s)) (write_to c) success hint with
         | Some p => <[p := concat chunks]> fs
         | None => fs
         end) ∧
       cl_callbacks s' = match get_content c with
         | Some _ => Some (content_taken uuid cbs) | None => cl_callbacks s end ∧
       cl_sender s' = cl_sender s ∧ cl_receiver s' = cl_receiver s) no_error s.
Proof.
  intros Hcbs Hc Hok. unfold process_provided_file, dag_callbacks.
  apply wp_bind, wp_bind, wp_get. eapply wp_lift_ret; [by rewrite Hcbs|]. rewrite Hc.
  apply wp_bind, wp_zoom. eapply wp_mono; [apply wp_open_dest| |done].
  { destruct (write_to c); [apply Hok|done]. }
  intros dst d1 [Hdst Hd1].
  set (s1 := with_cl_store _ s). pose proof (worked_disk s d1) as W1. fold s1 in W1.
  apply wp_bind, wp_ret, wp_bind.
  rewrite <-(take_nil (N.to_nat (match get_content c with Some (limit, _) => limit | None => 0%N end))).
  eapply wp_mono; [apply wp_chunks| |done].
  { destruct dst as [p|]; [|done]. simpl. rewrite Hd1, lookup_insert_eq. eauto. }
  intros buffer s2 [-> W2]. destruct (worked_state _ _ _ _ _ W2) as [Hf2 Hd2].
  apply wp_bind. eapply wp_mono; [apply wp_chunked| |done]. intros [] s3 W3.
  rewrite Hf2, Hd2, take_nil in W3. destruct (worked_state _ _ _ _ _ W3) as [Hf3 Hd3].
  pose proof (worked_trans _ _ _ _ _ _ _ _ _ W1 (worked_trans _ _ _ _ _ _ _ _ _ W2 W3)) as W13.
  apply wp_bind, wp_zoom. eapply wp_mono; [apply wp_make_executable| |done].
  { destruct (write_to c) as [w|]; [|done]. unfold to_write in Hdst.
    destruct dst as [p|]; [left|right].
    - rewrite Hf3. assert (p = dest w) as -> by (destruct (_ && _); [by injection Hdst|done]).
      simpl. rewrite Hd1.
      rewrite lookup_alter_eq, lookup_insert_eq. simpl. eauto.
    - rewrite Hd3. simpl. destruct Hd1 as [_ ->]. apply Hok. }
  intros [] d4 Hd4. set (s4 := with_cl_store _ s3).
  pose proof (worked_trans _ _ _ _ _ _ _ _ _ W13 (worked_disk s3 d4)) as W4. fold s4 in W4.
  assert (content <$> files d4 = (let fs := content <$> disk_files s in
      match dst with Some p => <[p := concat chunks]> fs | None => fs end)) as Hfiles.
  { rewrite Hd4, Hf3. simpl. destruct dst as [p|]; [|by destruct Hd1 as [-> _]].
    simpl. rewrite Hd1. apply map_eq. intros q. rewrite lookup_fmap.
    destruct (decide (p = q)) as [<-|].
    - by rewrite lookup_alter_eq, !lookup_insert_eq.
    - by rewrite lookup_alter_ne, !lookup_insert_ne, lookup_fmap. }
  rewrite <-Hdst. clearbody s4. destruct W4 as (d & Hd & _ & ->). unfold file_calls.
  rewrite bind_app. simpl. rewrite !app_nil_r.
  destruct (get_content c) as [[limit cb]|].
  - apply wp_bind, wp_bind, wp_bind, wp_get. eapply wp_lift_ret; [simpl; by rewrite Hcbs|].
    apply wp_modify, wp_context. eapply wp_mono; [apply wp_call| |done].
    intros [] s6 (d6 & Hd6 & _ & ->). simpl in *. split_and!; try done.
    + by rewrite <-!app_assoc.
    + by rewrite Hd6, Hd.
  - apply wp_ret. simpl. split_and!; [by rewrite ?app_nil_r|by rewrite Hd|done..].
Qed.

(** Where a file may be written: it has a parent and is not a directory. *)
Definition dest_ok (d : Disk) (w : option WriteToCallback) : Prop :=
  match w with Some w => is_Some (path_parent (dest w)) ∧ dest w ∉ dirs d | None => True end.
End process.

(** What the client does with a file that has callbacks, when no call of the
    system and no callback fails: it is written where the DAG wants it, with the
    content of all the chunks, unless the execution failed and failures are not
    allowed or it is its own source; each chunk and then an empty one is given to
    all the callbacks that take chunks, and the callback of the content gets the
    first [limit] bytes, once. *)
Theorem provided_file_processed `{IterOrder} `{Blake3} `{World} `{BuildProfile}
    `{!Bincode FileStoreIndex} {CB} `{!Closures CB} uuid success chunks hint cbs c (s : Client CB) :
  (∀ n, io_ok n = true) → (∀ l cb arg, call_error (CB := CB) l cb arg = None) →
  cl_callbacks s = Some cbs → file_callbacks cbs !! uuid = Some c →
  dest_ok (disk (cl_store s)) (write_to c) →
  ∃ s', process_provided_file uuid success (mret chunks) hint s = (Ret tt, s') ∧
    cl_calls s' = cl_calls s ++ file_calls c chunks ∧
    content <$> files (disk (cl_store s')) =
      (let fs := content <$> files (disk (cl_store s)) in
       match to_write (disk (cl_store s)) (write_to c) success hint with
       | Some p => <[p := concat chunks]> fs
       | None => fs
       end) ∧
    (is_Some (get_content c) → cl_callbacks s' = Some (content_taken uuid cbs)) ∧
    cl_sender s' = cl_sender s ∧ cl_receiver s' = cl_receiver s.
Proof.
  intros Hio Hcall Hcbs Hc Hok.
  destruct (wp_run _ _ _ (wp_process Hio Hcall uuid success chunks hint cbs c s Hcbs Hc Hok))
    as ([] & s' & Hrun & Hcalls & Hfiles & Hcb & Hsend & Hrecv).
  exists s'. split_and!; [exact Hrun|exact Hcalls|exact Hfiles| |exact Hsend|exact Hrecv].
  intros [x Hx]. by rewrite Hcb, Hx.
Qed.

(** ** From the client to the store of the server *)

(** The content of a file that the DAG provides. *)
Definition file_content (d : Disk) (f : ProvidedFile) : option (list byte) :=
  match f with Content _ _ c => Some c | LocalFile _ _ p => content <$> files d !! p end.

Section transfer.
Context `{IterOrder} `{Blake3} `{World} `{BuildProfile} `{UuidDisplay} `{!Bincode FileStoreIndex}.
Context {CB : Type} `{!Closures CB}.

(** A request for a file that can be read is answered with the packets of the file. *)
Lemma ask_file_packets uuid f c ps (s : Client CB) :
  (∀ n, io_ok n = true) → cl_sender s = mkChannel ps true →
  provided_files (cl_data s) !! uuid = Some f → file_content (disk (cl_store s)) f = Some c →
  ∃ chunks s', handle_server_ask_file uuid s = (Ret tt, s') ∧ concat chunks = c ∧
    Forall (λ b, b ≠ []) chunks ∧
    cl_sender s' = mkChannel (ps ++ file_packets uuid (Dag.provided_key f) chunks) true.
Proof.
  intros Hio Hs Hf Hc. unfold handle_server_ask_file, mbind, M_bind, get_st, lift.
  unfold index. rewrite Hf. simpl.
  destruct f as [file key path|file key c'].
  - apply fmap_Some in Hc as (df & Hdf & ->). rewrite (announce_open _ _ _ _ Hs).
    unfold with_context, send_path, zoom, read_file, mbind, M_bind, io_call, with_context. simpl.
    rewrite Hio, Hdf. simpl. unfold on_cl_sender, zoom. simpl. rewrite send_file_content_open by done.
    exists (file_blocks (content df)). eexists. split; [done|].
    split_and!; [apply concat_file_blocks|apply file_blocks_nonempty|]. simpl.
    unfold file_packets. by rewrite fmap_app, <-app_assoc.
  - injection Hc as ->. rewrite (announce_open _ _ _ _ Hs).
    unfold on_cl_sender, zoom, with_context. simpl. rewrite send_data_open by done.
    exists (data_chunks c). eexists. split; [done|]. split_and!; [| |].
    + destruct c; simpl; by rewrite ?app_nil_r.
    + destruct c; by repeat constructor.
    + simpl. unfold file_packets. by rewrite <-app_assoc.
Qed.

(** The server stores the file that the packets carry. *)
Lemma packets_stored info uuid key chunks rest live (m : ClientManager) :
  Forall (λ b, b ≠ []) chunks → key = from_content (concat chunks) →
  cm_receiver m = file_packets uuid key chunks ++ rest →
  cm_scheduler m = Some tt → cm_open m = true → store_inv live (cm_store m) →
  (total (cm_store m) + N.of_nat (length (concat chunks)) < u64_modulus)%N →
  wp (message ← zoom cm_receiver with_cm_receiver recv; handle_client_message info message)
    (λ go m', go = true ∧ ∃ h, cm_receiver m' = rest ∧
       cm_sent m' = cm_sent m ++ [In_FileReady (info_uuid info) uuid h] ∧
       handle_key h = key ∧ store_inv (h :: live) (cm_store m') ∧
       (files (disk (cm_store m)) !! key_to_path (base_path (cm_store m)) key = None →
        stored key (concat chunks) (cm_store m'))) may_fail m.
Proof.
  intros Hne Hkey Hr Hsch Hopen Hinv Hlt. apply wp_bind. unfold wp at 1, zoom, recv. rewrite Hr. simpl.
  apply wp_bind, wp_get, wp_bind. unfold file_packets. simpl. rewrite <-app_assoc. simpl.
  rewrite receive_blocks by done. apply wp_bind, wp_modify.
  eapply wp_lift_ret; [done|]. apply wp_bind, wp_context, wp_zoom. simpl.
  eapply wp_mono; [by apply (store_spec live)| |done].
  intros h st (Hinv' & Hk & Hb & Hst & _). apply wp_bind, wp_bind, wp_get. simpl. rewrite Hsch.
  apply wp_context, wp_bind, wp_get. simpl. rewrite Hopen. apply wp_modify, wp_ret.
  split; [done|]. exists h. by split_and!.
Qed.
End transfer.

(** C34: a file that the server asks for arrives: the client answers with packets
    from which the client manager of the server stores a file with the content
    that the DAG provides under the key that the DAG gives it, and tells the
    scheduler that it is ready; what follows in the channel is untouched. *)
Theorem asked_file_arrives `{IterOrder} `{Blake3} `{World} `{BuildProfile} `{UuidDisplay}
    `{!Bincode FileStoreIndex} {CB} `{!Closures CB} info uuid f c ps (s : Client CB) rest live
    (m : ClientManager) :
  (∀ n, io_ok n = true) → cl_sender s = mkChannel ps true →
  provided_files (cl_data s) !! uuid = Some f → file_content (disk (cl_store s)) f = Some c →
  Dag.provided_key f = from_content c →
  cm_scheduler m = Some tt → cm_open m = true → store_inv live (cm_store m) →
  (total (cm_store m) + N.of_nat (length c) < u64_modulus)%N →
  ∃ packets s', handle_server_ask_file uuid s = (Ret tt, s') ∧
    cl_sender s' = mkChannel (ps ++ packets) true ∧
    wp (message ← zoom cm_receiver with_cm_receiver recv; handle_client_message info message)
      (λ go m', go = true ∧ ∃ h, cm_receiver m' = rest ∧
         cm_sent m' = cm_sent m ++ [In_FileReady (info_uuid info) uuid h] ∧
         handle_key h = Dag.provided_key f ∧ store_inv (h :: live) (cm_store m') ∧
         (files (disk (cm_store m)) !! key_to_path (base_path (cm_store m)) (Dag.provided_key f) = None →
          stored (Dag.provided_key f) c (cm_store m'))) may_fail
      (with_cm_receiver (packets ++ rest) m).
Proof.
  intros Hio Hs Hf Hc Hkey Hsch Hopen Hinv Hlt.
  destruct (ask_file_packets uuid f c ps s Hio Hs Hf Hc) as (chunks & s' & Hrun & <- & Hne & Hs').
  exists (file_packets uuid (Dag.provided_key f) chunks), s'. split_and!; [done..|].
  by apply (packets_stored info uuid (Dag.provided_key f) chunks rest live
    (with_cm_receiver (file_packets uuid (Dag.provided_key f) chunks ++ rest) m)).
Qed.

(** ** An example *)
Import StoreExample CacheExample.
#[local] Instance ex_uuids : UuidDisplay := decimal_uuid.

(** Callbacks that never fail, and a poller that sends one message at a time. *)
Module ClientExample.
#[export] Instance ex_closures : Closures N := {| call_error _ _ _ := None |}.
#[export] Instance ex_poller : Poller := {| polls _ := 1 |}.
End ClientExample.
Import ClientExample.

Definition ex_provided : ProvidedFile := Content (mkFile 7 "input") ex_key1 ex_content1.
Definition ex_dest : WriteToCallback := Build_WriteToCallback [RootDir; Normal "out"; Normal "f"] false false.
Definition ex_file_callbacks : FileCallbacks N := mkFileCallbacks (Some ex_dest) (Some (2%N, 1%N)) [2%N].
Definition ex_client (ps : list (Packet ExecutorServerMessage)) (open : bool) : Client N :=
  mkClient (mkDagData {[7%N := ex_provided]} ∅ ExecutionDAGConfig_new)
    (Some (mkDagCallbacks ∅ {[7%N := ex_file_callbacks]} ∅)) ex_store (mkChannel [] open) ps [] true 0.

(** The input is processed at the start, asked by the server and sent; then the
    evaluation is done. *)
Definition ex_evaluation := evaluate 0%N (ex_client [Item (Sv_AskFile 7); Item (Sv_Done [])] true).

Example ex_evaluation_sent :
  (λ p, match p with
    | Item (Cl_Evaluate _ _) => 1 | Item Cl_Status => 2 | Item (Cl_ProvideFile _ _) => 3
    | RawData [] => 5 | RawData _ => 4 | _ => 0 end) <$> sent (cl_sender ex_evaluation.2)
  = [1; 2; 3; 4; 5; 2].
Proof. vm_compute. reflexivity. Qed.

Example ex_evaluation_calls :
  cl_calls ex_evaluation.2 =
  [(2%N, Call_chunk ex_content1); (2%N, Call_chunk []); (1%N, Call_content (bytes_of_string "ab"))].
Proof. vm_compute. reflexivity. Qed.

(** When the server is gone and the poller notices it, it stops, and telling it to
    stop at the end of the evaluation panics. *)
Lemma client_poller_panics :
  let s := ex_client [] true in
  let gone := with_cl_sender (mkChannel [] false) s in
  (stop_poller (evaluate_loop (CB := N) 1 0%N None) gone).1 =
    Panicked "Failed to send done signal to status poller".
Proof. vm_compute. reflexivity. Qed.

Lemma client_stream_whole_witness :
  ∃ watch ps, sent (cl_sender ex_evaluation.2) =
      Item (Cl_Evaluate (cl_data (ex_client [] true)) watch) :: ps ∧
    client_stream (cl_data (ex_client [] true)) ps.
Proof.
  apply (client_stream_whole 0%N (ex_client [Item (Sv_AskFile 7); Item (Sv_Done [])] true)
    ex_evaluation.2 (Ret tt)); [done|].
  apply run_result. vm_compute. reflexivity.
Defined.

Lemma provided_file_processed_witness :
  ∃ s', process_provided_file 7 true (mret [ex_content1]) None (ex_client [] true) = (Ret tt, s') ∧
    cl_calls s' = file_calls ex_file_callbacks [ex_content1].
Proof.
  destruct (provided_file_processed 7 true [ex_content1] None
    (mkDagCallbacks ∅ {[7%N := ex_file_callbacks]} ∅) ex_file_callbacks (ex_client [] true))
    as (s' & Hrun & Hcalls & _).
  - done.
  - done.
  - done.
  - by apply lookup_singleton_eq.
  - split; [by eexists|]. apply (bool_decide_unpack _). by vm_compute.
  - exists s'. split; [exact Hrun|exact Hcalls].
Defined.

Lemma asked_file_arrives_witness :
  ∃ packets s', handle_server_ask_file 7 (ex_client [] true) = (Ret tt, s') ∧
    cl_sender s' = mkChannel packets true ∧ packets ≠ [].
Proof.
  destruct (asked_file_arrives ex_info 7 ex_provided ex_content1 [] (ex_client [] true) [] []
    (mkManager ex_store (mkChannel [] true) [] (Some tt) [] true)) as (packets & s' & Hrun & Hs' & _).
  - done.
  - done.
  - by apply lookup_singleton_eq.
  - done.
  - done.
  - done.
  - done.
  - apply store_start_inv, ex_store_start.
  - by vm_compute.
  - exists packets, s'. split_and!; [exact Hrun|exact Hs'|].
    intros ->. vm_compute in Hrun. injection Hrun as <-. done.
Defined.
