(* ===== verification/Sandbox.v ===== *)
(** * Execution units ([task-maker-exec/src/execution_unit])

    The directory in which an execution runs and the configuration of its
    sandbox ([sandbox.rs]), the compilation of a Typst document ([typst.rs]) and
    the unit that is one of the two ([mod.rs]).  The sandbox itself is the [tabox]
    crate: its configuration is the list of the calls made on its builder, and
    what it reports is an argument.  A hard link is a file with the same content:
    the files of the store are read only.  Of the mode of a file only the write
    bit is recorded, of the one of a directory nothing. *)
From S2P Require Import Prelude Float64 RustOrd Paths StoreKey Disk Store Dag.

(** ** The host *)

(** [std::env::var], the crate [which] and the names drawn by the crate [tempfile]
    (the [n]-th call of the process). *)
Class Host : Type := {
  env_var : string → option string;
  which : PathBuf → option PathBuf;
  temp_name : nat → string
}.

(** [READABLE_DIRS]. *)
Definition READABLE_DIRS : list PathBuf :=
  path_of_string <$> ["/lib"; "/lib64"; "/usr"; "/bin"; "/opt"; "/etc/alternatives/";
    "/var/lib/dpkg/alternatives/"; "/var/lib/texmf/"].

(** The calls on [tabox::configuration::SandboxConfiguration]. *)
Inductive ConfigCall : Type :=
  | Cfg_working_directory (p : PathBuf)
  | Cfg_mount (source target : PathBuf) (writable : bool)
  | Cfg_env (key value : string)
  | Cfg_stdin (p : PathBuf)
  | Cfg_stdout (p : PathBuf)
  | Cfg_stderr (p : PathBuf)
  | Cfg_time_limit (seconds : N)
  | Cfg_wall_time_limit (seconds : N)
  | Cfg_memory_limit (bytes : N)
  | Cfg_stack_limit (bytes : N)
  | Cfg_syscall_filter (multiprocess chmod : bool)
  | Cfg_mount_tmpfs (b : bool)
  | Cfg_mount_proc (b : bool)
  | Cfg_executable (p : PathBuf)
  | Cfg_arg (a : string)
  | Cfg_uid (n : N)
  | Cfg_gid (n : N).
Abbreviation SandboxConfiguration := (list ConfigCall).

(** [tabox::result::ExitStatus] and what the runner of the sandbox answers. *)
Inductive ExitStatus : Type :=
  | ExitCode (code : Z)
  | ExitSignal (signal : Z) (name : option string)
  | ExitKilled.
Record ResourceUsage : Type := mkUsage {
  memory_usage : N;
  user_cpu_time : f64;
  system_cpu_time : f64;
  wall_time_usage : f64
}.
Inductive RawSandboxResult : Type :=
  | Raw_Success (status : ExitStatus) (usage : ResourceUsage)
  | Raw_Error (error : string).

Inductive SandboxResult : Type :=
  | Sandbox_Success (exit_status : N) (signal : option (N * string))
      (resources : ExecutionResourcesUsage) (was_killed : bool)
  | Sandbox_Failed (error : string).

Definition resources_default : ExecutionResourcesUsage :=
  mkResources f64_zero f64_zero f64_zero 0.
Definition SandboxResult_default : SandboxResult :=
  Sandbox_Success 0 None resources_default false.

(** [code as u32] of an [i32]. *)
Definition as_u32 (z : Z) : N := Z.to_N (z mod 2 ^ 32).

(** [x.ceil() as u64]: the conversion saturates, a NaN gives zero. *)
Definition u64_max : N := (u64_modulus - 1)%N.
Definition ceil_as_u64 (x : f64) : N :=
  match x with
  | S754_finite false m e =>
      if (0 <=? e)%Z then N.min u64_max (Z.to_N (Zpos m * 2 ^ e))
      else N.min u64_max (Z.to_N (- (- Zpos m / 2 ^ (- e)))%Z)
  | S754_infinity false => u64_max
  | _ => 0%N
  end.
Example ceil_ex : ceil_as_u64 (f64_dec 31 1) = 4%N.
Proof. reflexivity. Qed.

(** [u64] multiplication. *)
Definition u64_mul `{BuildProfile} (a b : N) : Outcome N :=
  if (a * b <? u64_modulus)%N then Ret (a * b)%N
  else if overflow_checks then Panicked "attempt to multiply with overflow"
  else Ret ((a * b) mod u64_modulus)%N.

(** [Path::strip_prefix]. *)
Fixpoint strip_path (prefix p : PathBuf) : option PathBuf :=
  match prefix, p with
  | [], p => Some p
  | c :: prefix, c' :: p => if decide (c = c') then strip_path prefix p else None
  | _, [] => None
  end.

Definition dev_null : PathBuf := [RootDir; Normal "dev"; Normal "null"].

(** The [tempfile] crate, [hard_link], [mkfifo], [is_file] and [is_dir]. *)
Section calls.
Context `{World} `{Host}.

Definition TempDir_new_in (base : PathBuf) : M Disk PathBuf :=
  io_call (λ d,
    let p := path_join base [Normal (temp_name (tick d))] in
    if decide (files d !! p = None ∧ p ∉ dirs d) then Some (p, map_dirs (λ s, {[p]} ∪ s) d)
    else None).
Definition hard_link (source dest : PathBuf) : M Disk unit :=
  io_call (λ d, f ← files d !! source;
    if decide (files d !! dest = None ∧ dest ∉ dirs d) then Some (tt, map_files <[dest := f]> d)
    else None).
Definition copy_file (source dest : PathBuf) : M Disk unit :=
  io_call (λ d, f ← files d !! source; Some (tt, map_files <[dest := f]> d)).
(** A FIFO is recorded as an empty file. *)
Definition mkfifo (p : PathBuf) : M Disk unit :=
  io_call (λ d, if decide (files d !! p = None ∧ p ∉ dirs d)
                then Some (tt, map_files <[p := mkDiskFile [] false]> d) else None).
Definition is_file (p : PathBuf) : M Disk bool :=
  is_ok (io_call (λ d, _ ← files d !! p; Some (tt, d))).
Definition is_dir (p : PathBuf) : M Disk bool :=
  is_ok (io_call (λ d, if decide (p ∈ dirs d) then Some (tt, d) else None)).
Definition chmod_dir (p : PathBuf) : M Disk unit :=
  io_call (λ d, if decide (p ∈ dirs d) then Some (tt, d) else None).
(** [std::fs::write]. *)
Definition write_file (p : PathBuf) (c : list byte) : M Disk unit :=
  _ ← create_file p; append_file p c.
End calls.

(** ** Executables ([detect_exe.rs]) *)
Inductive ExecutablePlatform : Type := Linux | Windows | MacOs | MacOsFat.
Inductive ExecutableBits : Type := Bits_Unknown | Bits32 | Bits64.

Definition PATTERNS : list (list N * (ExecutablePlatform * ExecutableBits)) :=
  [([77; 90], (Windows, Bits_Unknown));
   ([35; 33], (Linux, Bits_Unknown));
   ([206; 250; 237; 254], (MacOs, Bits32));
   ([207; 250; 237; 254], (MacOs, Bits64));
   ([190; 186; 254; 202], (MacOsFat, Bits32));
   ([191; 186; 254; 202], (MacOsFat, Bits64));
   ([127; 69; 76; 70; 1], (Linux, Bits32));
   ([127; 69; 76; 70; 2], (Linux, Bits64))]%N.

(** The loop over the patterns: [header] is what was read, [rest] what follows it
    in the file; [read_exact] fails when the file is too short. *)
Fixpoint match_patterns (patterns : list (list N * (ExecutablePlatform * ExecutableBits)))
    (header rest : list N) : Outcome (option (ExecutablePlatform * ExecutableBits)) :=
  match patterns with
  | [] => Ret None
  | (bytes, res) :: patterns =>
      let missing := length bytes - length header in
      if (length rest <? missing) then Fail ["Failed to read file content for detecting exe"] else
      let header := header ++ take missing rest in
      if bool_decide (take (length bytes) header = bytes) then Ret (Some res)
      else match_patterns patterns header (drop missing rest)
  end.

Section sandbox.
Context `{IterOrder} `{World} `{Host} `{BuildProfile}.

Definition detect_exe (path : PathBuf) : M Disk (option (ExecutablePlatform * ExecutableBits)) :=
  c ← with_context "Failed to open file for detecting exe" (read_file path);
  lift (match_patterns PATTERNS [] (Byte.to_N <$> c)).

Definition validate_local_executable (path : PathBuf) : M Disk unit :=
  e ← is_file path;
  if negb e then bail "Executable is not a file" else
  exe ← with_context "Failed to detect sandbox executable" (detect_exe path);
  match exe with
  | None => bail "Invalid executable, missing shebang?"
  | Some _ => mret tt
  end.

(** ** The directory of a sandbox *)
Definition create_sandbox_dir (box_dir path : PathBuf) : M Disk unit :=
  with_context "Failed to create sandbox directory" (create_dir_all (path_join box_dir path)).

Definition write_sandbox_file (dest source : PathBuf) (executable : bool) : M Disk unit :=
  parent ← match path_parent dest with
           | Some p => mret p
           | None => bail "Invalid destination path"
           end;
  _ ← with_context "Failed to create parent directory" (create_dir_all parent);
  linked ← is_ok (hard_link source dest);
  _ ← if linked : bool then mret tt
      else with_context "Failed to copy" (copy_file source dest);
  if executable
  then with_context "Failed to chmod 500" (set_permissions dest true)
  else with_context "Failed to chmod 400" (set_permissions dest true).

(** With the mode 0o600. *)
Definition touch_file (dest : PathBuf) : M Disk unit :=
  parent ← match path_parent dest with
           | Some p => mret p
           | None => bail "Invalid file path"
           end;
  _ ← with_context "Failed to create parent directory" (create_dir_all parent);
  _ ← with_context "Failed to create" (create_file dest);
  with_context "Failed to chmod 600" (set_permissions dest false).

Definition passwd : list byte :=
  bytes_of_string ("root::0:0::/:/bin/sh" +:+ newline +:+ "nobody::1000:1000::/:/bin/sh" +:+ newline).

(** The path of a dependency: [dep_keys.get(..).context(..)?.path()]. *)
Definition dep_path (ctx : string) (dep_keys : gmap FileUuid FileStoreHandle) (file : FileUuid) :
    M Disk PathBuf :=
  match dep_keys !! file with Some h => mret (handle_path h) | None => bail ctx end.

Definition is_capture (b : ExecutionOutputBehaviour) : bool :=
  match b with Output_Capture _ _ => true | _ => false end.

Definition setup (box_dir : PathBuf) (execution : Execution)
    (dep_keys : gmap FileUuid FileStoreHandle) : M Disk unit :=
  let box := path_join box_dir [Normal "box"] in
  _ ← create_sandbox_dir box_dir [Normal "box"];
  _ ← create_sandbox_dir box_dir [Normal "etc"];
  _ ← with_context "Failed to write /etc/passwd in the sandbox"
        (write_file (path_join (path_join box_dir [Normal "etc"]) [Normal "passwd"]) passwd);
  _ ← match exec_stdin execution with
      | Input_File stdin =>
          p ← dep_path "stdin not provided" dep_keys stdin;
          write_sandbox_file (path_join box_dir [Normal "stdin"]) p false
      | _ => mret tt
      end;
  _ ← if is_capture (exec_stdout execution)
      then touch_file (path_join box_dir [Normal "stdout"]) else mret tt;
  _ ← if is_capture (exec_stderr execution)
      then touch_file (path_join box_dir [Normal "stderr"]) else mret tt;
  _ ← for_each (map_iter (exec_input_files execution)) (λ pi,
        p ← dep_path "file not provided" dep_keys (input_file pi.2);
        write_sandbox_file (path_join box pi.1) p (input_executable pi.2));
  _ ← for_each (keys_iter (exec_output_files execution)) (λ path,
        touch_file (path_join box path));
  if read_only (exec_limits execution)
  then with_context "Failed to chmod 500" (chmod_dir box) else mret tt.

(** [SandboxData]; the pid is the one of the process and whether the sandbox was
    killed is an argument of [Sandbox_result]. *)
Record Sandbox : Type := mkSandbox {
  boxdir : PathBuf;
  sb_execution : Execution;
  keep_sandbox : bool;
  fifo_dir : option PathBuf
}.

Definition Sandbox_new (sandboxes_dir : PathBuf) (execution : Execution)
    (dep_keys : gmap FileUuid FileStoreHandle) (fifo_dir : option PathBuf) : M Disk Sandbox :=
  _ ← with_context "Failed to create sandbox directory" (create_dir_all sandboxes_dir);
  boxdir ← with_context "Failed to create sandbox temporary directory" (TempDir_new_in sandboxes_dir);
  _ ← with_context "Sandbox setup failed" (setup boxdir execution dep_keys);
  mret (mkSandbox boxdir execution false fifo_dir).

Definition Sandbox_keep (s : Sandbox) : Sandbox :=
  mkSandbox (boxdir s) (sb_execution s) true (fifo_dir s).

Definition stream_path (behaviour : ExecutionOutputBehaviour) (name : string) (boxdir : PathBuf) :
    PathBuf :=
  match behaviour with
  | Output_Path path => path_join boxdir path
  | _ => path_join boxdir [Normal name]
  end.
Definition Sandbox_stdout_path (s : Sandbox) : PathBuf :=
  stream_path (exec_stdout (sb_execution s)) "stdout" (boxdir s).
Definition Sandbox_stderr_path (s : Sandbox) : PathBuf :=
  stream_path (exec_stderr (sb_execution s)) "stderr" (boxdir s).
Definition Sandbox_output_path (s : Sandbox) (output : PathBuf) : PathBuf :=
  path_join (path_join (boxdir s) [Normal "box"]) output.
End sandbox.

(** ** The configuration of the sandbox *)
Definition box_root : PathBuf := [RootDir; Normal "box"].

Definition sandbox_to_host_path (path_in_sandbox boxdir : PathBuf) (fifo_dir : option PathBuf) :
    PathBuf :=
  let in_box :=
    match strip_path [RootDir] path_in_sandbox with
    | Some path => path_join boxdir path
    | None => path_join box_root path_in_sandbox
    end in
  match fifo_dir with
  | Some fifo_dir =>
      match strip_path [Normal FIFO_SANDBOX_DIR] path_in_sandbox with
      | Some path => path_join fifo_dir path
      | None => in_box
      end
  | None => in_box
  end.

Section build.
Context `{IterOrder} `{World} `{Host} `{BuildProfile}.

(** The disk and the calls made so far. *)
Record Build : Type := mkBuild { build_disk : Disk; build_config : SandboxConfiguration }.
Definition with_build_disk (d : Disk) (b : Build) : Build := mkBuild d (build_config b).
Definition on_build_disk {A} (m : M Disk A) : M Build A := zoom build_disk with_build_disk m.
Definition cfg (c : ConfigCall) : M Build unit :=
  modify (λ b, mkBuild (build_disk b) (build_config b ++ [c])).

Definition config_stdin (stdin : ExecutionInputBehaviour) (boxdir : PathBuf)
    (fifo_dir : option PathBuf) : M Build unit :=
  match stdin with
  | Input_Path path => cfg (Cfg_stdin (sandbox_to_host_path path boxdir fifo_dir))
  | Input_File _ => cfg (Cfg_stdin (path_join boxdir [Normal "stdin"]))
  | Input_Ignored => cfg (Cfg_stdin dev_null)
  | Input_Inherit => mret tt
  end.

(** The standard output, with [call] and [name], and the standard error. *)
Definition config_output (behaviour : ExecutionOutputBehaviour) (call : PathBuf → ConfigCall)
    (name : string) (boxdir : PathBuf) (fifo_dir : option PathBuf) : M Build unit :=
  match behaviour with
  | Output_Path path => cfg (call (sandbox_to_host_path path boxdir fifo_dir))
  | Output_Capture _ _ => cfg (call (path_join boxdir [Normal name]))
  | Output_Ignored => cfg (call dev_null)
  | Output_Inherit => mret tt
  end.

Definition config_env (execution : Execution) : M Build unit :=
  _ ← for_each (exec_copy_env execution) (λ key,
        match env_var key with Some value => cfg (Cfg_env key value) | None => mret tt end);
  for_each (map_iter (exec_env execution)) (λ p, cfg (Cfg_env p.1 p.2)).

Definition cpu_limit (l : ExecutionLimits) : option f64 :=
  match cpu_time l, sys_time l with
  | Some cpu, Some sys => Some (f64_add cpu sys)
  | Some cpu, None => Some cpu
  | None, Some sys => Some sys
  | None, None => None
  end.

Definition when_some {A} (o : option A) (f : A → M Build unit) : M Build unit :=
  match o with Some a => f a | None => mret tt end.

Definition config_limits (l : ExecutionLimits) (dag_config : ExecutionDAGConfig) : M Build unit :=
  _ ← when_some (cpu_limit l) (λ cpu,
        cfg (Cfg_time_limit (ceil_as_u64 (f64_add cpu (extra_time dag_config)))));
  _ ← when_some (wall_time l) (λ wall,
        cfg (Cfg_wall_time_limit (ceil_as_u64 (f64_add wall (extra_time dag_config)))));
  _ ← when_some (memory l) (λ mem,
        mem ← lift (u64_add mem (extra_memory dag_config));
        bytes ← lift (u64_mul mem 1024);
        cfg (Cfg_memory_limit bytes));
  _ ← when_some (stack l) (λ stack,
        bytes ← lift (u64_mul stack 1024); cfg (Cfg_stack_limit bytes));
  if permissive l then mret tt
  else cfg (Cfg_syscall_filter (allow_multiprocess l) (negb (read_only l))).

(** The two loops over the readable directories; the result is [mounted_dirs]. *)
Fixpoint mount_dirs (l : list PathBuf) (mounted_dirs : gset PathBuf) : M Build (gset PathBuf) :=
  match l with
  | [] => mret mounted_dirs
  | dir :: l =>
      if decide (dir ∈ mounted_dirs) then mount_dirs l mounted_dirs else
      e ← on_build_disk (is_dir dir);
      if e : bool
      then _ ← cfg (Cfg_mount dir dir false); mount_dirs l ({[dir]} ∪ mounted_dirs)
      else mount_dirs l mounted_dirs
  end.

Definition config_command (command : ExecutionCommand) (boxdir : PathBuf)
    (mounted_dirs : gset PathBuf) : M Build unit :=
  match command with
  | System cmd =>
      match which cmd with
      | Some cmd =>
          path ← on_build_disk (with_context "Failed to canonicalize path" (canonicalize cmd));
          path ← lift (unwrap "invalid binary path" (path_parent path));
          _ ← if decide (path ∈ mounted_dirs) then mret tt else cfg (Cfg_mount path path false);
          cfg (Cfg_executable cmd)
      | None => bail "Executable not found"
      end
  | Local cmd =>
      _ ← on_build_disk (with_context "Local sandbox executable validation failed"
            (validate_local_executable (path_join (path_join boxdir [Normal "box"]) cmd)));
      cfg (Cfg_executable (path_join box_root cmd))
  | TypstCompilation _ => panic "internal error: entered unreachable code"
  end.

Definition config_fifo (fifo_dir : option PathBuf) : M Build unit :=
  when_some fifo_dir (λ path,
    _ ← on_build_disk (with_context "Failed to chmod 111" (chmod_dir path));
    cfg (Cfg_mount path (path_join box_root [Normal FIFO_SANDBOX_DIR]) false)).

Definition build_command (boxdir : PathBuf) (execution : Execution)
    (dag_config : ExecutionDAGConfig) (fifo_dir : option PathBuf) : M Build unit :=
  let limits := exec_limits execution in
  _ ← cfg (Cfg_working_directory box_root);
  _ ← cfg (Cfg_mount (path_join boxdir [Normal "box"]) box_root true);
  _ ← cfg (Cfg_env "PATH" (default EmptyString (env_var "PATH")));
  _ ← config_stdin (exec_stdin execution) boxdir fifo_dir;
  _ ← config_output (exec_stdout execution) Cfg_stdout "stdout" boxdir fifo_dir;
  _ ← config_output (exec_stderr execution) Cfg_stderr "stderr" boxdir fifo_dir;
  _ ← config_env execution;
  _ ← config_limits limits dag_config;
  _ ← cfg (Cfg_mount (path_join boxdir [Normal "etc"]) [RootDir; Normal "etc"] true);
  _ ← config_fifo fifo_dir;
  mounted_dirs ← mount_dirs READABLE_DIRS ∅;
  mounted_dirs ← mount_dirs (extra_readable_dirs limits) mounted_dirs;
  _ ← if mount_tmpfs limits then cfg (Cfg_mount_tmpfs true) else mret tt;
  _ ← if mount_proc limits then cfg (Cfg_mount_proc true) else mret tt;
  _ ← config_command (exec_command execution) boxdir mounted_dirs;
  _ ← for_each (exec_args execution) (λ arg, cfg (Cfg_arg arg));
  _ ← cfg (Cfg_uid 1000);
  cfg (Cfg_gid 1000).

(** ** Running a sandbox *)

(** What [run] makes of the answer of the runner; [tried_to_kill] is the flag of
    [SandboxData] at that time. *)
Definition Sandbox_result (tried_to_kill : bool) (raw : RawSandboxResult) : Outcome SandboxResult :=
  match raw with
  | Raw_Error e => Fail ["Sandbox failed: " +:+ e]
  | Raw_Success status usage =>
      let resources := mkResources (user_cpu_time usage) (system_cpu_time usage)
        (wall_time_usage usage) (memory_usage usage / 1024)%N in
      Ret match status with
      | ExitCode code => Sandbox_Success (as_u32 code) None resources false
      | ExitSignal s name =>
          Sandbox_Success 0 (Some (as_u32 s, default "unknown" name)) resources
            (bool_decide (s = 9%Z) && tried_to_kill)
      | ExitKilled => Sandbox_Success 1 (Some (9%N, "Killed by sandbox")) resources true
      end
  end.

(** The crates that print a value ([serde_json], [std::fmt::Debug]). *)
Context (show_execution : Execution → list byte) (show_config : SandboxConfiguration → list byte)
  (show_raw : RawSandboxResult → list byte).

(** [Sandbox::run]; [runner] is what the sandbox does to the disk and answers. *)
Definition Sandbox_run (runner : SandboxConfiguration → Disk → RawSandboxResult * Disk)
    (tried_to_kill : bool) (s : Sandbox) (dag_config : ExecutionDAGConfig) : M Disk SandboxResult :=
  λ d, let '(cmd, b) := build_command (boxdir s) (sb_execution s) dag_config (fifo_dir s)
         (mkBuild d []) in
  match cmd with
  | Fail e => (Ret (Sandbox_Failed (hd EmptyString e)), build_disk b)
  | Panicked e => (Panicked e, build_disk b)
  | OutOfFuel => (OutOfFuel, build_disk b)
  | Ret _ =>
      (_ ← (if keep_sandbox s then
              _ ← with_context "Cannot write execution info inside sandbox"
                (write_file (path_join (boxdir s) [Normal "info.json"]) (show_execution (sb_execution s)));
              with_context "Cannot write command info inside sandbox"
                (write_file (path_join (boxdir s) [Normal "tabox.txt"]) (show_config (build_config b)))
            else mret tt);
       raw ← (λ d, let '(raw, d) := runner (build_config b) d in (Ret raw, d));
       _ ← (if keep_sandbox s then
              with_context "Failed to write result.txt"
                (write_file (path_join (boxdir s) [Normal "result.txt"]) (show_raw raw))
            else mret tt);
       lift (Sandbox_result tried_to_kill raw)) (build_disk b)
  end.
End build.

(** ** Typst compilations *)
Record TypstCompiler : Type := mkTypst {
  typ_inputs : list (string * string);
  typ_files : gmap PathBuf PathBuf;
  typ_outputs : gmap PathBuf (list byte)
}.

(** The [typst] crate: the document, or the messages of the errors. *)
Class Typst : Type := {
  typst_pdf : list (string * string) → gmap PathBuf PathBuf → Disk → Outcome (list byte)
}.

Inductive ExecutionUnit : Type :=
  | Unit_Sandbox (s : Sandbox)
  | Unit_Typst (t : TypstCompiler).

Inductive OutputFile : Type :=
  | OnDisk (p : PathBuf)
  | InMemory (c : list byte).

Section units.
Context `{IterOrder} `{World} `{Host} `{BuildProfile}.

Fixpoint typst_files (l : list (PathBuf * ExecutionInput)) (dep_keys : gmap FileUuid FileStoreHandle)
    (files : gmap PathBuf PathBuf) : M Disk (gmap PathBuf PathBuf) :=
  match l with
  | [] => mret files
  | (path, input) :: l =>
      p ← dep_path "file not provided" dep_keys (input_file input);
      typst_files l dep_keys (<[default path (strip_path [CurDir] path) := p]> files)
  end.

(** The fonts are the ones of the crate and of the system; building the client of
    the network is one more call. *)
Definition TypstCompiler_new (execution : Execution) (dep_keys : gmap FileUuid FileStoreHandle) :
    M Disk TypstCompiler :=
  files ← typst_files (map_iter (exec_input_files execution)) dep_keys ∅;
  _ ← match env_var "XDG_CACHE_HOME", env_var "HOME" with
      | None, None => bail "environment variable not found"
      | _, _ => mret tt
      end;
  match exec_command execution with
  | TypstCompilation inputs =>
      _ ← io_call (λ d, Some (tt, d));
      mret (mkTypst inputs files ∅)
  | _ => bail "building a typst compiler for a non-typst execution"
  end.

Definition booklet_pdf : PathBuf := [Normal "booklet.pdf"].
Definition TypstCompiler_run `{Typst} (t : TypstCompiler) : M Disk (SandboxResult * TypstCompiler) :=
  λ d, (pdf ← typst_pdf (typ_inputs t) (typ_files t) d;
        Ret (SandboxResult_default,
             mkTypst (typ_inputs t) (typ_files t) (<[booklet_pdf := pdf]> (typ_outputs t))), d).

Definition TypstCompiler_output (t : TypstCompiler) (path : PathBuf) : list byte :=
  default [] (typ_outputs t !! path).

(** ** [ExecutionUnit] *)
Definition is_typst (e : Execution) : bool :=
  match exec_command e with TypstCompilation _ => true | _ => false end.

Definition ExecutionUnit_new (sandboxes_dir : PathBuf) (execution : Execution)
    (dep_keys : gmap FileUuid FileStoreHandle) (fifo_dir : option PathBuf) : M Disk ExecutionUnit :=
  if is_typst execution
  then t ← TypstCompiler_new execution dep_keys; mret (Unit_Typst t)
  else s ← Sandbox_new sandboxes_dir execution dep_keys fifo_dir; mret (Unit_Sandbox s).

Definition ExecutionUnit_keep (u : ExecutionUnit) : ExecutionUnit :=
  match u with Unit_Sandbox s => Unit_Sandbox (Sandbox_keep s) | Unit_Typst t => Unit_Typst t end.

Definition ExecutionUnit_stdout_path (u : ExecutionUnit) : OutputFile :=
  match u with Unit_Sandbox s => OnDisk (Sandbox_stdout_path s) | Unit_Typst _ => InMemory [] end.
Definition ExecutionUnit_stderr_path (u : ExecutionUnit) : OutputFile :=
  match u with Unit_Sandbox s => OnDisk (Sandbox_stderr_path s) | Unit_Typst _ => InMemory [] end.
Definition ExecutionUnit_output_path (u : ExecutionUnit) (output : PathBuf) : OutputFile :=
  match u with
  | Unit_Sandbox s => OnDisk (Sandbox_output_path s output)
  | Unit_Typst t => InMemory (TypstCompiler_output t output)
  end.
End units.

Section unit_run.
Context `{IterOrder} `{World} `{Host} `{BuildProfile} `{Typst}.
Context (show_execution : Execution → list byte) (show_config : SandboxConfiguration → list byte)
  (show_raw : RawSandboxResult → list byte)
  (runner : SandboxConfiguration → Disk → RawSandboxResult * Disk).

(** [ExecutionUnit::run]; the unit has the outputs of its compilation. *)
Definition ExecutionUnit_run (tried_to_kill : bool) (u : ExecutionUnit)
    (dag_config : ExecutionDAGConfig) : M Disk (SandboxResult * ExecutionUnit) :=
  match u with
  | Unit_Sandbox s =>
      res ← Sandbox_run show_execution show_config show_raw runner tried_to_kill s dag_config;
      mret (res, u)
  | Unit_Typst t =>
      '(res, t) ← TypstCompiler_run t; mret (res, Unit_Typst t)
  end.
End unit_run.
