(* ===== verification/SandboxCorrect.v ===== *)
(** * The configuration of a sandbox is right

    Whatever an execution asks for, its sandbox can write only in its own directory
    and reads only what it is allowed to; a command that is built carries the
    limits of the execution. *)
From S2P Require Import Prelude Float64 RustOrd Paths StoreKey Disk Store Dag Sandbox.

Section confined.
Context `{IterOrder} `{World} `{Host} `{BuildProfile}.
Variables (box : PathBuf) (execution : Execution) (dag_config : ExecutionDAGConfig)
  (fifos : option PathBuf).

(** The directory of the executable of a command. *)
Definition command_dir (command : ExecutionCommand) (dir : PathBuf) : Prop :=
  ∃ cmd exe, command = System cmd ∧ which cmd = Some exe ∧ path_parent (canonical exe) = Some dir.

(** What a call may give to the process. *)
Definition confined (c : ConfigCall) : Prop :=
  match c with
  | Cfg_mount source target true =>
      source = path_join box [Normal "box"] ∧ target = box_root ∨
      source = path_join box [Normal "etc"] ∧ target = [RootDir; Normal "etc"]
  | Cfg_mount source target false =>
      fifos = Some source ∧ target = path_join box_root [Normal FIFO_SANDBOX_DIR] ∨
      source = target ∧ (source ∈ READABLE_DIRS ++ extra_readable_dirs (exec_limits execution) ∨
        command_dir (exec_command execution) source)
  | Cfg_env key _ => key = "PATH" ∨ key ∈ exec_copy_env execution ∨ is_Some (exec_env execution !! key)
  | Cfg_arg a => a ∈ exec_args execution
  | Cfg_mount_tmpfs b => b = mount_tmpfs (exec_limits execution)
  | Cfg_mount_proc b => b = mount_proc (exec_limits execution)
  | Cfg_syscall_filter multiprocess chmod =>
      multiprocess = allow_multiprocess (exec_limits execution) ∧
      chmod = negb (read_only (exec_limits execution))
  | Cfg_uid n | Cfg_gid n => n = 1000%N
  | _ => True
  end.

(** An invariant that the confined calls and the calls of the system keep is kept by
    the whole function. *)
Section stable.
Variable I : Build → Prop.
Hypothesis I_cfg : ∀ c b, confined c → I b → I (mkBuild (build_disk b) (build_config b ++ [c])).
Hypothesis I_disk : ∀ d b, I b → I (with_build_disk d b).

Lemma stable_cfg c : confined c → stable I (cfg c).
Proof. intros Hc. apply stable_modify. intros. by apply I_cfg. Qed.

Lemma stable_build_disk {A} (m : M Disk A) : stable I (on_build_disk m).
Proof. apply stable_zoom. intros. by apply I_disk. Qed.

Lemma stable_when {A} (o : option A) f :
  (∀ a, o = Some a → stable I (f a)) → stable I (when_some o f).
Proof. destruct o; simpl; auto with stable. Qed.

Lemma stable_input stdin : stable I (config_stdin stdin box fifos).
Proof. by destruct stdin; simpl; (apply stable_cfg || apply stable_ret). Qed.

Lemma stable_output behaviour call name :
  (∀ p, confined (call p)) → stable I (config_output behaviour call name box fifos).
Proof. intros Hc. by destruct behaviour; simpl; (apply stable_cfg || apply stable_ret). Qed.

Lemma stable_env : stable I (config_env execution).
Proof.
  assert (∀ l, (∀ key, key ∈ l → key ∈ exec_copy_env execution) → stable I (for_each l (λ key,
    match env_var key with Some value => cfg (Cfg_env key value) | None => mret tt end))) as Hcopy.
  { induction l as [|key l IH]; intros Hl; [apply stable_ret|]. apply stable_bind.
    - destruct (env_var key); [|apply stable_ret]. apply stable_cfg. right. left. apply Hl. left.
    - intros _. apply IH. intros k Hk. apply Hl. by right. }
  assert (∀ l, (∀ p, p ∈ l → exec_env execution !! p.1 = Some p.2) →
    stable I (for_each l (λ p, cfg (Cfg_env p.1 p.2)))) as Henv.
  { induction l as [|p l IH]; intros Hl; [apply stable_ret|]. apply stable_bind.
    - apply stable_cfg. right. right. exists p.2. apply Hl. left.
    - intros _. apply IH. intros k Hk. apply Hl. by right. }
  apply stable_bind; [by apply Hcopy|]. intros _. apply Henv. intros [k v]. apply elem_of_map_iter.
Qed.

Lemma stable_limits : stable I (config_limits (exec_limits execution) dag_config).
Proof.
  unfold config_limits. repeat (apply stable_bind; [|intros _]).
  1-2: by apply stable_when; intros; apply stable_cfg.
  1-2: apply stable_when; intros; repeat (apply stable_bind; [apply stable_lift|intros]);
    by apply stable_cfg.
  destruct (permissive _); [apply stable_ret|]. by apply stable_cfg.
Qed.

Lemma stable_mount_dirs l mounted :
  (∀ dir, dir ∈ l → dir ∈ READABLE_DIRS ++ extra_readable_dirs (exec_limits execution)) →
  stable I (mount_dirs l mounted).
Proof.
  revert mounted. induction l as [|dir l IH]; intros mounted Hl; simpl; [apply stable_ret|].
  assert (∀ mounted, stable I (mount_dirs l mounted)) as IH'.
  { intros m. apply IH. intros d Hd. apply Hl. by right. }
  destruct (decide _); [done|]. apply stable_bind; [apply stable_build_disk|]. intros [|]; [|done].
  apply stable_bind; [|done]. apply stable_cfg. right. split; [done|]. left. apply Hl. left.
Qed.

Lemma stable_command mounted :
  stable I (config_command (exec_command execution) box mounted).
Proof.
  destruct (exec_command execution) as [cmd|cmd|] eqn:Hc;
    [|apply stable_bind; [apply stable_build_disk|intros; by apply stable_cfg]|by intros b].
  simpl. destruct (which cmd) as [exe|] eqn:Hw; [|apply stable_bail].
  intros b Hb. unfold mbind at 1, M_bind. unfold on_build_disk, zoom, canonicalize, io_call, with_context.
  destruct (io_ok _); simpl; [|by apply I_disk].
  apply (stable_lift_bind I); [|by apply I_disk]. intros path Hp. apply unwrap_Ret in Hp.
  apply stable_bind; [|intros _; by apply stable_cfg].
  destruct (decide _); [apply stable_ret|]. apply stable_cfg. right. split; [done|]. right.
  exists cmd, exe. auto.
Qed.

Lemma stable_fifo : stable I (config_fifo fifos).
Proof.
  apply stable_when. intros path Hp. apply stable_bind; [apply stable_build_disk|].
  intros _. apply stable_cfg. by left.
Qed.

Lemma stable_args l :
  (∀ a, a ∈ l → a ∈ exec_args execution) → stable I (for_each l (λ arg, cfg (Cfg_arg arg))).
Proof.
  induction l as [|a l IH]; intros Hl; [apply stable_ret|].
  apply stable_bind; [apply stable_cfg, Hl; left|]. intros _. apply IH. intros x Hx. apply Hl. by right.
Qed.

Lemma stable_mounts {A} (f : gset PathBuf → M Build A) :
  (∀ mounted, stable I (f mounted)) →
  stable I (mounted ← mount_dirs READABLE_DIRS ∅;
            mounted ← mount_dirs (extra_readable_dirs (exec_limits execution)) mounted; f mounted).
Proof.
  intros Hf. apply stable_bind; [apply stable_mount_dirs; set_solver|]. intros mounted.
  apply stable_bind; [apply stable_mount_dirs; set_solver|done].
Qed.

Definition finish (mounted : gset PathBuf) : M Build unit :=
  _ ← if mount_tmpfs (exec_limits execution) then cfg (Cfg_mount_tmpfs true) else mret tt;
  _ ← if mount_proc (exec_limits execution) then cfg (Cfg_mount_proc true) else mret tt;
  _ ← config_command (exec_command execution) box mounted;
  _ ← for_each (exec_args execution) (λ arg, cfg (Cfg_arg arg));
  _ ← cfg (Cfg_uid 1000);
  cfg (Cfg_gid 1000).

Lemma stable_finish mounted : stable I (finish mounted).
Proof.
  unfold finish. apply stable_bind.
  { destruct (mount_tmpfs _) eqn:Hm; [apply stable_cfg; by rewrite <-Hm|apply stable_ret]. }
  intros _. apply stable_bind.
  { destruct (mount_proc _) eqn:Hm; [apply stable_cfg; by rewrite <-Hm|apply stable_ret]. }
  intros _. apply stable_bind; [apply stable_command|]. intros _.
  apply stable_bind; [by apply stable_args|]. intros _.
  apply stable_bind; [by apply stable_cfg|]. intros _. by apply stable_cfg.
Qed.

Definition mounts_and_finish : M Build unit :=
  _ ← cfg (Cfg_mount (path_join box [Normal "etc"]) [RootDir; Normal "etc"] true);
  _ ← config_fifo fifos;
  mounted ← mount_dirs READABLE_DIRS ∅;
  mounted ← mount_dirs (extra_readable_dirs (exec_limits execution)) mounted;
  finish mounted.

Lemma stable_rest : stable I mounts_and_finish.
Proof.
  apply stable_bind; [apply stable_cfg; by right|]. intros _.
  apply stable_bind; [apply stable_fifo|]. intros _.
  apply (stable_mounts finish), stable_finish.
Qed.

Lemma stable_build : stable I (build_command box execution dag_config fifos).
Proof.
  unfold build_command. apply stable_bind; [by apply stable_cfg|]. intros _.
  apply stable_bind; [apply stable_cfg; by left|]. intros _.
  apply stable_bind; [apply stable_cfg; by left|]. intros _.
  apply stable_bind; [apply stable_input|]. intros _.
  apply stable_bind; [by apply stable_output|]. intros _.
  apply stable_bind; [by apply stable_output|]. intros _.
  apply stable_bind; [apply stable_env|]. intros _.
  apply stable_bind; [apply stable_limits|]. intros _. apply stable_rest.
Qed.
End stable.

(** ** The limits of the execution *)

(** A program that makes a call unless it fails. *)
Definition emits {A} (P : ConfigCall → Prop) (m : M Build A) : Prop :=
  ∀ b, wlp m (λ _ b', Exists P (build_config b')) may_fail b.

Lemma keeps_cfg (P : ConfigCall → Prop) c b :
  confined c → Exists P (build_config b) →
  Exists P (build_config (mkBuild (build_disk b) (build_config b ++ [c]))).
Proof. intros _ HP. apply Exists_app. by left. Qed.

Lemma emits_cfg (P : ConfigCall → Prop) c : P c → emits P (cfg c).
Proof. intros HP b. apply wlp_modify, Exists_app. right. by left. Qed.

Lemma emits_next {A B} P (m : M Build A) (f : A → M Build B) :
  (∀ a, emits P (f a)) → emits P (m ≫= f).
Proof.
  intros Hf b. apply wlp_bind. eapply wlp_mono; [by apply (wlp_any _ (λ _ _, True) may_fail)| |done].
  intros a b' _. apply Hf.
Qed.

Lemma emits_here {A B} P (m : M Build A) (f : A → M Build B) :
  emits P m → (∀ a, stable (λ b, Exists P (build_config b)) (f a)) → emits P (m ≫= f).
Proof.
  intros Hm Hf b. apply wlp_bind. eapply wlp_mono; [apply Hm| |done]. intros a b' Hb.
  eapply wlp_mono; [apply (wlp_stable _ _ _ (Hf a) Hb)|done..].
Qed.

(** The parts of a program that adds calls all preserve an invariant. *)
#[local] Ltac keep_calls :=
  repeat first [apply stable_bind; [|intros] | apply stable_when; intros | apply stable_lift
    | apply stable_ret | apply stable_cfg; [apply keeps_cfg|done]
    | match goal with |- stable _ (if ?b then _ else _) => destruct b eqn:? end].

(** The calls that the execution requires. *)
Definition required (c : ConfigCall) : Prop :=
  let l := exec_limits execution in
  match c with
  | Cfg_time_limit n =>
      ∃ cpu, cpu_limit l = Some cpu ∧ n = ceil_as_u64 (f64_add cpu (extra_time dag_config))
  | Cfg_wall_time_limit n =>
      ∃ wall, wall_time l = Some wall ∧ n = ceil_as_u64 (f64_add wall (extra_time dag_config))
  | Cfg_memory_limit n =>
      ∃ mem, memory l = Some mem ∧ n = ((mem + extra_memory dag_config) * 1024)%N ∧
        (n < u64_modulus)%N
  | Cfg_stack_limit n => ∃ s, stack l = Some s ∧ n = (s * 1024)%N ∧ (n < u64_modulus)%N
  | Cfg_syscall_filter multiprocess chmod =>
      permissive l = false ∧ multiprocess = allow_multiprocess l ∧ chmod = negb (read_only l)
  | Cfg_uid n | Cfg_gid n => n = 1000%N
  | _ => False
  end.

Lemma emits_when {X} (P : ConfigCall → Prop) (o : option X) (f : X → M Build unit) x :
  o = Some x → emits P (f x) → emits P (when_some o f).
Proof. by intros ->. Qed.

Lemma emits_mul (P : ConfigCall → Prop) (a b : N) call :
  (a * b < u64_modulus)%N → P (call (a * b)%N) →
  emits P (bytes ← lift (u64_mul a b); cfg (call bytes)).
Proof.
  intros Hlt HP s. unfold u64_mul. rewrite (proj2 (N.ltb_lt _ _)) by done. by apply emits_cfg.
Qed.

Lemma emits_limits c :
  required c → (∀ n, c ≠ Cfg_uid n) → (∀ n, c ≠ Cfg_gid n) →
  emits (eq c) (config_limits (exec_limits execution) dag_config).
Proof.
  intros Hc Huid Hgid. unfold config_limits. destruct c; try done; simpl in Hc;
    [| | | | |by edestruct Huid|by edestruct Hgid].
  - destruct Hc as (cpu & Hl & ->). apply emits_here; [by eapply emits_when, emits_cfg|].
    intros _. keep_calls.
  - destruct Hc as (wall & Hl & ->). apply emits_next. intros _.
    apply emits_here; [by eapply emits_when, emits_cfg|]. intros _. keep_calls.
  - destruct Hc as (mem & Hl & -> & Hlt). do 2 (apply emits_next; intros _).
    apply emits_here; [|intros _; keep_calls]. eapply emits_when; [done|].
    intros b. unfold u64_add. rewrite (proj2 (N.ltb_lt _ _)) by lia.
    apply wlp_bind, wlp_lift; [intros a [= <-]|done]. by apply (emits_mul (eq _)).
  - destruct Hc as (st & Hl & -> & Hlt). do 3 (apply emits_next; intros _).
    apply emits_here; [|intros _; keep_calls]. eapply emits_when; [done|]. by apply emits_mul.
  - destruct Hc as (Hp & -> & ->). do 4 (apply emits_next; intros _). rewrite Hp. by apply emits_cfg.
Qed.

Lemma emits_finish c mounted : c = Cfg_uid 1000 ∨ c = Cfg_gid 1000 → emits (eq c) (finish mounted).
Proof.
  intros Hc. unfold finish. do 4 (apply emits_next; intros _). destruct Hc as [-> | ->].
  - apply emits_here; [by apply emits_cfg|]. intros _. keep_calls.
  - apply emits_next. intros _. by apply emits_cfg.
Qed.

Lemma emits_required c : required c → emits (eq c) (build_command box execution dag_config fifos).
Proof.
  intros Hc. unfold build_command. do 7 (apply emits_next; intros _).
  assert ((c = Cfg_uid 1000 ∨ c = Cfg_gid 1000) ∨
    (∀ n, c ≠ Cfg_uid n) ∧ (∀ n, c ≠ Cfg_gid n)) as [Hid|[Huid Hgid]].
  { destruct c; simpl in Hc; subst; auto. }
  - do 3 (apply emits_next; intros _). do 2 (apply emits_next; intros ?). by apply emits_finish.
  - apply emits_here; [|intros _; apply (stable_rest (λ b, _ b)); [apply keeps_cfg|done]].
    by apply emits_limits.
Qed.

Definition names_executable (c : ConfigCall) : Prop := ∃ p, c = Cfg_executable p.

Lemma emits_executable : emits names_executable (build_command box execution dag_config fifos).
Proof.
  unfold build_command. do 10 (apply emits_next; intros _). do 2 (apply emits_next; intros ?).
  do 2 (apply emits_next; intros _). apply emits_here; [|intros _].
  - destruct (exec_command execution) as [cmd|cmd|]; simpl.
    + destruct (which cmd); [|done]. do 2 (apply emits_next; intros ?). apply emits_next. intros _.
      apply emits_cfg. by eexists.
    + apply emits_next. intros _. apply emits_cfg. by eexists.
    + done.
  - apply stable_bind; [apply stable_args; [apply keeps_cfg|done]|]. intros _. keep_calls.
Qed.
End confined.

(** Whatever an execution asks for, the configuration of its sandbox gives it
    write access to the directories box and etc of the sandbox only and read access
    to the system directories, to the extra directories of the execution, to the
    directory of the command and to the one of the FIFOs only, the arguments and the
    variables of the execution only, and the user 1000; a configuration that is
    built has an executable and all the time, memory and stack limits and the filter
    of system calls that the execution requires. *)
Theorem sandbox_confined `{IterOrder} `{World} `{Host} `{BuildProfile}
    (box : PathBuf) (execution : Execution) (dag_config : ExecutionDAGConfig)
    (fifos : option PathBuf) (d : Disk) :
  let '(r, b) := build_command box execution dag_config fifos (mkBuild d []) in
  Forall (confined box execution fifos) (build_config b) ∧
  match r with
  | Ret _ => (∀ c, required execution dag_config c → c ∈ build_config b) ∧
             ∃ p, Cfg_executable p ∈ build_config b
  | _ => True
  end.
Proof.
  pose proof (stable_build box execution dag_config fifos
    (λ b, Forall (confined box execution fifos) (build_config b))) as Hall.
  pose proof (emits_required box execution dag_config fifos) as Hreq.
  pose proof (emits_executable box execution dag_config fifos (mkBuild d [])) as Hexe.
  destruct (build_command _ _ _ _ _) as [r b] eqn:Hrun. split.
  - change b with (r, b).2. rewrite <-Hrun. apply Hall; [|done|constructor].
    intros c b' Hc Hb'. apply Forall_app. by repeat constructor.
  - destruct r as [[]| | |]; [|done..]. split.
    + intros c Hc. specialize (Hreq c Hc (mkBuild d [])). unfold wlp in Hreq. rewrite Hrun in Hreq.
      apply Exists_exists in Hreq as (c' & Hin & <-). done.
    + unfold wlp in Hexe. rewrite Hrun in Hexe.
      apply Exists_exists in Hexe as (c & Hin & [p ->]). by exists p.
Qed.

(** The limits on the number of open files, on the size of the files and on the
    locked memory have no effect on the sandbox. *)
Lemma sandbox_ignores_limits `{IterOrder} `{World} `{Host} `{BuildProfile} box e dag_config fifos n :
  build_command box (limits_mut (set_fsize n) e) dag_config fifos =
    build_command box e dag_config fifos ∧
  build_command box (limits_mut (set_nofile n) e) dag_config fifos =
    build_command box e dag_config fifos ∧
  build_command box (limits_mut (set_memlock n) e) dag_config fifos =
    build_command box e dag_config fifos.
Proof. by destruct e as [? ? ? ? ? ? ? ? ? ? []]. Qed.
