(* ===== verification/Worker.v ===== *)
(** * The worker ([task-maker-exec/src/worker/mod.rs])

    The thread that talks with the server and the thread of the running job: they
    share the channel to the server and the record of the current job.  Every
    function is one step of their common state [Worker]; [Step] below interleaves
    them.  What the processes in the sandboxes do is up to the environment: a
    sandbox ends at any moment, in any order, with any result.  A job with a
    controller is run by [Controller], of which this file has the data and the
    interface.  The drops of the handles of the store are not recorded. *)
From S2P Require Import Prelude Float64 RustOrd Paths StoreKey Disk Store Dag Cache CheckDag Scheduler.
From S2P Require Import Proto Executor Sandbox.

(** ** State *)

(** The results and the files that the thread of a job collects. *)
Record Outputs : Type := mkOutputs {
  out_keys : gmap FileUuid FileStoreKey;
  out_paths : gmap FileUuid OutputFile
}.

(** *** The data of [controller.rs]

    What the sandboxes of a job with a controller share: the solution is started
    many times, [solution_result] is the sum of the results. *)
Record State : Type := mkState {
  solution_result : ExecutionResult;
  controller_result : option ExecutionResult;
  exited : list bool;
  state_outputs : Outputs
}.

(** The thread of a sandbox ([run_sandbox]): its process runs, its result is in the
    state, it has ended. *)
Inductive SandboxPhase : Type :=
  | Sb_running
  | Sb_merged (success : bool)
  | Sb_ended
  | Sb_panicked (msg : string).
Record SandboxThread : Type := mkSandboxThread {
  sb_unit : ExecutionUnit;
  sb_phase : SandboxPhase
}.

(** The manager ([sandbox_manager]): it reads the requests of the controller, waits
    for the pipes of a solution, has left the loop, waits for the sandboxes. *)
Inductive ManagerPhase : Type :=
  | Mg_serving
  | Mg_waiting_pipes
  | Mg_leaving
  | Mg_joining.

(** [ct_controller] and [ct_solution] are the two executions, [ct_deps] the handles of
    their files, [ct_threads] the controller and the solutions started; [ct_terminate] is
    [job_should_terminate], [ct_next] is [next_process_index], [ct_answers] what was
    written to the controller. *)
Record ControlledRun : Type := mkControlled {
  ct_settings : ControllerSettings;
  ct_controller : Execution;
  ct_solution : Execution;
  ct_deps : gmap FileUuid FileStoreHandle;
  ct_threads : list SandboxThread;
  ct_terminate : bool;
  ct_next : nat;
  ct_manager : ManagerPhase;
  ct_answers : list (Z * Z)
}.

(** *** The data of the worker

    The mpsc channel for the files that the server asks: its sender is in
    [WorkerCurrentJob], [w_asked] of [Worker] is what was sent. *)
Record WorkerCurrentJob : Type := mkCurrent {
  current_job : option (WorkerJob * gmap FileUuid FileStoreHandle);
  current_sandboxes : option (list ExecutionUnit);
  missing_deps : gmap FileStoreKey (list FileUuid);
  server_asked_files : bool;
  controller_state : option State
}.
Definition WorkerCurrentJob_new : WorkerCurrentJob := mkCurrent None None ∅ false None.

Inductive ThreadPhase : Type :=
  | Th_running (units : list ExecutionUnit) (results : list (option ExecutionResult)) (outs : Outputs)
  | Th_controlled (run : ControlledRun)
  | Th_reporting (outs : Outputs)
  | Th_sending (files : list FileUuid) (outs : Outputs)
  | Th_exited
  | Th_panicked (e : list string).
Record Thread : Type := mkJobThread {
  th_job : WorkerJob;
  th_fifo_dir : option PathBuf;
  th_phase : ThreadPhase
}.

(** [w_killed]: the sandboxes of the current job whose [tried_to_kill] is set. *)
Record Worker : Type := mkWorker {
  w_store : FileStore;
  w_sender : Channel WorkerClientMessage;
  w_receiver : list (Packet WorkerServerMessage);
  w_current : WorkerCurrentJob;
  w_asked : option (list FileUuid);
  w_killed : gset nat;
  w_thread : option Thread;
  w_sandbox_path : PathBuf
}.

Definition with_w_store x w : Worker :=
  mkWorker x (w_sender w) (w_receiver w) (w_current w) (w_asked w) (w_killed w) (w_thread w) (w_sandbox_path w).
Definition with_w_sender x w : Worker :=
  mkWorker (w_store w) x (w_receiver w) (w_current w) (w_asked w) (w_killed w) (w_thread w) (w_sandbox_path w).
Definition with_w_receiver x w : Worker :=
  mkWorker (w_store w) (w_sender w) x (w_current w) (w_asked w) (w_killed w) (w_thread w) (w_sandbox_path w).
Definition with_w_current x w : Worker :=
  mkWorker (w_store w) (w_sender w) (w_receiver w) x (w_asked w) (w_killed w) (w_thread w) (w_sandbox_path w).
Definition with_w_asked x w : Worker :=
  mkWorker (w_store w) (w_sender w) (w_receiver w) (w_current w) x (w_killed w) (w_thread w) (w_sandbox_path w).
Definition with_w_killed x w : Worker :=
  mkWorker (w_store w) (w_sender w) (w_receiver w) (w_current w) (w_asked w) x (w_thread w) (w_sandbox_path w).
Definition with_w_thread x w : Worker :=
  mkWorker (w_store w) (w_sender w) (w_receiver w) (w_current w) (w_asked w) (w_killed w) x (w_sandbox_path w).

Definition on_w_disk {A} (m : M Disk A) : M Worker A :=
  zoom (λ w, disk (w_store w)) (λ d w, with_w_store (with_disk d (w_store w)) w) m.
Definition on_w_store {A} (m : M FileStore A) : M Worker A := zoom w_store with_w_store m.
Definition on_w_sender (m : M (Channel WorkerClientMessage) unit) : M Worker unit :=
  zoom w_sender with_w_sender m.

Definition set_missing_deps x c : WorkerCurrentJob :=
  mkCurrent (current_job c) (current_sandboxes c) x (server_asked_files c) (controller_state c).
Definition set_current_job x c : WorkerCurrentJob :=
  mkCurrent x (current_sandboxes c) (missing_deps c) (server_asked_files c) (controller_state c).
Definition set_asked_files x c : WorkerCurrentJob :=
  mkCurrent (current_job c) (current_sandboxes c) (missing_deps c) x (controller_state c).
Definition set_sandboxes x c : WorkerCurrentJob :=
  mkCurrent (current_job c) x (missing_deps c) (server_asked_files c) (controller_state c).
Definition set_controller_state x c : WorkerCurrentJob :=
  mkCurrent (current_job c) (current_sandboxes c) (missing_deps c) (server_asked_files c) x.
Definition on_current (f : WorkerCurrentJob → WorkerCurrentJob) : M Worker unit :=
  modify (λ w, with_w_current (f (w_current w)) w).

Definition thread_alive (w : Worker) : bool :=
  match w_thread w with
  | Some th => match th_phase th with Th_exited | Th_panicked _ => false | _ => true end
  | None => false
  end.

(** The interface of [controller.rs]: how a job with a controller is started, and the
    steps of its threads. *)
Class Controller : Type := {
  execute_controlled_job : ControllerSettings → M Worker unit;
  controlled_step : Worker → Worker → Prop
}.

(** [sandbox.kill()]: a compilation cannot be killed. *)
Definition can_kill (u : ExecutionUnit) : bool :=
  match u with Unit_Sandbox _ => true | Unit_Typst _ => false end.
Definition killable (units : list ExecutionUnit) : gset nat :=
  list_to_set (omap (λ p, if can_kill p.2 then Some p.1 else None)
    (zip (seq 0 (length units)) units)).
Definition kill_sandboxes (indices : gset nat) : M Worker unit :=
  modify (λ w, with_w_killed (w_killed w ∪ indices) w).

(** ** The results of an execution *)

(** [capture_stream]: blocks of 1024 bytes are read until [size_limit] is reached;
    [rest] is what follows in the file. *)
Section results.
Context `{IterOrder} `{World} `{Host} `{BuildProfile} `{Blake3}.

Definition below (n : nat) (size_limit : option N) : bool :=
  match size_limit with Some limit => (N.of_nat n <? limit)%N | None => true end.

Fixpoint capture_loop (fuel : nat) (size_limit : option N) (rest result : list byte) :
    M Disk (list byte) :=
  if below (length result) size_limit then
    match fuel with
    | O => out_of_fuel
    | S fuel =>
        buffer ← io_call (λ d, Some (take 1024 rest, d));
        if decide (buffer = []) then mret result
        else capture_loop fuel size_limit (drop 1024 rest) (result ++ buffer)
    end
  else mret result.

Definition capture_stream (file : OutputFile) (behaviour : ExecutionOutputBehaviour) :
    M Disk (option (list byte)) :=
  match behaviour with
  | Output_Capture _ size_limit =>
      match file with
      | OnDisk path =>
          c ← read_file path;
          result ← capture_loop (S (length c)) size_limit c [];
          mret (Some result)
      | InMemory content =>
          mret (Some (match size_limit with
                      | Some limit => take (N.to_nat limit) content
                      | None => content
                      end))
      end
  | _ => mret None
  end.

(** A computation whose error is kept as a value. *)
Definition try {S A} (m : M S A) : M S (A + list string) := λ s,
  match m s with
  | (Ret a, s) => (Ret (inl a), s)
  | (Fail e, s) => (Ret (inr e), s)
  | (Panicked e, s) => (Panicked e, s)
  | (OutOfFuel, s) => (OutOfFuel, s)
  end.

Definition captured (r : option (list byte) + list string) : option (list byte) :=
  match r with inl o => o | inr _ => None end.

Definition compute_execution_result (execution : Execution) (result : SandboxResult)
    (sandbox : ExecutionUnit) : M Disk ExecutionResult :=
  match result with
  | Sandbox_Success exit_status signal resources was_killed =>
      stdout ← try (capture_stream (ExecutionUnit_stdout_path sandbox) (exec_stdout execution));
      stderr ← try (capture_stream (ExecutionUnit_stderr_path sandbox) (exec_stderr execution));
      let execution_status :=
        if negb (exit_status =? 0)%N then ReturnCode exit_status
        else match signal with Some (code, name) => Signal code name | None => Success end in
      let status :=
        match stdout, stderr with
        | inl _, inl _ => exec_status execution execution_status resources
        | inr _, _ => internal_error "Failed to read stdout file"
        | _, inr _ => internal_error "Failed to read stderr file"
        end in
      mret (mkResult status was_killed false resources (captured stdout) (captured stderr))
  | Sandbox_Failed error =>
      let status := if is_typst execution then Failure error else InternalError error in
      mret (mkResult status false false resources_default None None)
  end.

(** [FileStoreKey::from_file]. *)
Definition from_file (path : PathBuf) : M Disk FileStoreKey :=
  c ← with_context "Failed to read file" (read_file path); mret (from_content c).

Definition add_file (file : FileUuid) (out : OutputFile) (os : Outputs * ExecutionStatus) :
    M Disk (Outputs * ExecutionStatus) :=
  let '(outs, status) := os in
  let add key out := mkOutputs (<[file := key]> (out_keys outs)) (<[file := out]> (out_paths outs)) in
  match out with
  | OnDisk path =>
      e ← path_exists path;
      if e : bool then
        key ← ok (from_file path);
        match key with
        | Some key => mret (add key out, status)
        | None => mret (outs, internal_error "Failed to get store key")
        end
      else mret (add (from_content []) (OnDisk dev_null), status)
  | InMemory content => mret (add (from_content content) out, status)
  end.

Fixpoint add_files (l : list (FileUuid * OutputFile)) (os : Outputs * ExecutionStatus) :
    M Disk (Outputs * ExecutionStatus) :=
  match l with
  | [] => mret os
  | (file, out) :: l => os ← add_file file out os; add_files l os
  end.

(** The files that an execution declares, with where its sandbox leaves them. *)
Definition captured_file (behaviour : ExecutionOutputBehaviour) (out : OutputFile) :
    list (FileUuid * OutputFile) :=
  match behaviour with Output_Capture file _ => [(file_uuid file, out)] | _ => [] end.
Definition result_files (exec : Execution) (sandbox : ExecutionUnit) : list (FileUuid * OutputFile) :=
  captured_file (exec_stdout exec) (ExecutionUnit_stdout_path sandbox) ++
  captured_file (exec_stderr exec) (ExecutionUnit_stderr_path sandbox) ++
  ((λ p, (file_uuid p.2, ExecutionUnit_output_path sandbox p.1)) <$> map_iter (exec_output_files exec)).

Definition get_result_outputs (exec : Execution) (sandbox : ExecutionUnit) (os : Outputs * ExecutionStatus) :
    M Disk (Outputs * ExecutionStatus) :=
  add_files (result_files exec sandbox) os.

Definition with_status (st : ExecutionStatus) (r : ExecutionResult) : ExecutionResult :=
  mkResult st (was_killed r) (was_cached r) (resources r) (result_stdout r) (result_stderr r).

(** The turn of the thread for an execution that ended: its result, whether it
    failed (before its outputs are collected) and the outputs. *)
Definition execution_ended (exec : Execution) (result : SandboxResult) (sandbox : ExecutionUnit)
    (outs : Outputs) : M Disk (ExecutionResult * bool * Outputs) :=
  result ← compute_execution_result exec result sandbox;
  '(outs, st) ← get_result_outputs exec sandbox (outs, status result);
  mret (with_status st result, negb (is_success (status result)), outs).
End results.

Section worker.
Context `{IterOrder} `{World} `{Host} `{BuildProfile} `{Blake3} `{UuidDisplay} `{!Bincode FileStoreIndex}.
Context `{!Controller}.

(** ** Starting a job *)
Definition make_fifos (sandbox_path : PathBuf) (fifos : list Fifo) : M Disk (option PathBuf) :=
  match fifos with
  | [] => mret None
  | _ =>
      dir ← with_context "Failed to create temporary directory" (TempDir_new_in sandbox_path);
      _ ← for_each fifos (λ f,
            name ← lift (unwrap "called `Option::unwrap()` on a `None` value" (last (Dag.sandbox_path f)));
            with_context "Failed to create FIFO" (mkfifo (path_join dir [name])));
      mret (Some dir)
  end.

Fixpoint make_units (sandbox_path : PathBuf) (keep : bool) (l : list Execution)
    (handles : gmap FileUuid FileStoreHandle) (fifo_dir : option PathBuf) :
    M Disk (list ExecutionUnit) :=
  match l with
  | [] => mret []
  | exec :: l =>
      sandbox ← ExecutionUnit_new sandbox_path exec handles fifo_dir;
      boxes ← make_units sandbox_path keep l handles fifo_dir;
      mret ((if keep then ExecutionUnit_keep sandbox else sandbox) :: boxes)
  end.

Definition no_outputs : Outputs := mkOutputs ∅ ∅.

(** [execute_job]: the new thread starts with no result. *)
Definition execute_job : M Worker unit :=
  w ← get_st;
  match current_job (w_current w) with
  | None => bail "Worker job is gone"
  | Some (job, handles) =>
      let group := job_group job in
      match controller_settings group with
      | Some settings => execute_controlled_job settings
      | None =>
          fifo_dir ← on_w_disk (make_fifos (w_sandbox_path w) (fifo group));
          boxes ← on_w_disk (make_units (w_sandbox_path w) (keep_sandboxes (group_config group))
                              (executions group) handles fifo_dir);
          _ ← on_current (λ c, set_asked_files true (set_sandboxes (Some boxes) c));
          _ ← modify (λ w, with_w_killed ∅ (with_w_asked None w));
          modify (with_w_thread (Some (mkJobThread job fifo_dir
            (Th_running boxes (replicate (length (executions group)) None) no_outputs))))
      end
  end.
Definition start_job : M Worker unit := execute_job.

(** Joining a thread that is running blocks: [OutOfFuel]; the rules of [Step] join
    it when it has ended. *)
Definition wait_sandbox : M Worker unit :=
  w ← get_st;
  match w_thread w with
  | None => mret tt
  | Some th =>
      match th_phase th with
      | Th_exited => modify (with_w_thread None)
      | Th_panicked e =>
          _ ← modify (with_w_thread None);
          with_context "Sandbox thread failed" (lift (Fail ("Sandbox thread panicked" :: e)))
      | _ => out_of_fuel
      end
  end.

(** ** The messages of the server *)

(** The loop over the dependencies: the missing files, each asked once, and the
    handles of the other ones. *)
Fixpoint find_deps (dep_keys : gmap FileUuid FileStoreKey) (l : list FileUuid)
    (missing : gmap FileStoreKey (list FileUuid)) (handles : gmap FileUuid FileStoreHandle) :
    M Worker (gmap FileStoreKey (list FileUuid) * gmap FileUuid FileStoreHandle) :=
  match l with
  | [] => mret (missing, handles)
  | input :: l =>
      key ← match dep_keys !! input with
            | Some key => mret key
            | None => bail "missing key for dependency"
            end;
      handle ← on_w_store (get key);
      match handle with
      | None =>
          _ ← if decide (is_Some (missing !! key)) then mret tt
              else on_w_sender (with_context "Failed to send AskFile to server" (send (Wk_AskFile key)));
          find_deps dep_keys l (<[key := default [] (missing !! key) ++ [input]]> missing) handles
      | Some handle => find_deps dep_keys l missing (<[input := handle]> handles)
      end
  end.

Definition handle_work (job : WorkerJob) : M Worker unit :=
  w ← get_st;
  match current_job (w_current w) with
  | Some _ => panic "assertion failed: self.current_job.lock().unwrap().current_job.is_none()"
  | None =>
      _ ← wait_sandbox;
      '(missing, handles) ← find_deps (dep_keys job) (dependencies (job_group job)) ∅ ∅;
      _ ← on_current (λ c, set_current_job (Some (job, handles)) (set_missing_deps missing c));
      if decide (missing = ∅) then start_job else mret tt
  end.

(** [uuids] get the handle of a file; the first one uses it, each other one clones
    it and the original is dropped at the end. *)
Fixpoint insert_handles (uuids : list FileUuid) (handle : FileStoreHandle) : M Worker unit :=
  match uuids with
  | [] => mret tt
  | uuid :: uuids =>
      w ← get_st;
      match current_job (w_current w) with
      | None => bail "Received file while doing nothing"
      | Some (job, handles) =>
          handle' ← on_w_store (handle_clone handle);
          _ ← on_current (set_current_job (Some (job, <[uuid := handle']> handles)));
          insert_handles uuids handle
      end
  end.

Definition receive_chunks : M Worker (list (list byte)) :=
  w ← get_st;
  let '(r, rest) := receive_file (w_receiver w) in
  _ ← modify (with_w_receiver rest); lift r.

Definition handle_provide_file (key : FileStoreKey) : M Worker unit :=
  chunks ← receive_chunks;
  handle ← with_context "Failed to store server-provided file" (on_w_store (store key chunks));
  w ← get_st;
  match missing_deps (w_current w) !! key with
  | None => bail "Server sent a not required dependency"
  | Some uuids =>
      _ ← on_current (λ c, set_missing_deps (delete key (missing_deps c)) c);
      _ ← insert_handles uuids handle;
      w ← get_st;
      if decide (missing_deps (w_current w) = ∅) then start_job else mret tt
  end.

Definition kill_current : M Worker unit :=
  w ← get_st;
  match current_sandboxes (w_current w) with
  | Some sandboxes => kill_sandboxes (killable sandboxes)
  | None => mret tt
  end.

Definition handle_kill_job (group : ExecutionGroupUuid) : M Worker unit :=
  w ← get_st;
  match current_job (w_current w) with
  | Some (job, _) => if decide (group_uuid (job_group job) = group) then kill_current else mret tt
  | None => mret tt
  end.

(** Sending to a thread that has ended only logs an error. *)
Definition handle_ask_files (files : list FileUuid) : M Worker unit :=
  w ← get_st;
  if server_asked_files (w_current w) then
    _ ← on_current (set_asked_files false);
    if thread_alive w then modify (with_w_asked (Some files)) else mret tt
  else mret tt.

(** One turn of the loop of [work]; [false] ends it. *)
Definition handle_server_message (message : WorkerServerMessage) : M Worker bool :=
  match message with
  | Ws_Work job => _ ← handle_work job; mret true
  | Ws_ProvideFile key => _ ← handle_provide_file key; mret true
  | Ws_Exit => mret false
  | Ws_KillJob group => _ ← handle_kill_job group; mret true
  | Ws_AskFiles files => _ ← handle_ask_files files; mret true
  end.

(** The channel is closed, or it breaks. *)
Definition connection_lost : M Worker bool := _ ← kill_current; mret false.

Definition main_turn : M Worker bool :=
  message ← ok (zoom w_receiver with_w_receiver recv);
  match message with
  | Some message => handle_server_message message
  | None => connection_lost
  end.

Definition begin_work : M Worker unit :=
  on_w_sender (with_context "Failed to send GetWork" (send Wk_GetWork)).
(** After the loop: the thread is not left waiting for the answer of the server. *)
Definition end_loop : M Worker unit := on_current (set_asked_files false).

(** ** The thread of the job ([sandbox_group_manager] and [finalize_job]) *)
Definition set_phase (p : ThreadPhase) : M Worker unit :=
  modify (λ w, match w_thread w with
    | Some th => with_w_thread (Some (mkJobThread (th_job th) (th_fifo_dir th) p)) w
    | None => w
    end).

(** The other sandboxes whose execution has no result yet. *)
Definition unfinished (index : nat) (results : list (option ExecutionResult)) : gset nat :=
  list_to_set (omap (λ p, match p.2 with
    | None => if decide (p.1 = index) then None else Some p.1
    | Some _ => None
    end) (zip (seq 0 (length results)) results)).

(** A sandbox ends; [ran] is its unit after the run: with one execution the unit that
    ran is the one of the group, with more of them it is a clone. *)
Definition sandbox_ended (index : nat) (result : SandboxResult) (ran : ExecutionUnit) : M Worker unit :=
  w ← get_st;
  match w_thread w with
  | Some (mkJobThread job _ (Th_running units results outs)) =>
      exec ← lift (unwrap "index out of bounds" (executions (job_group job) !! index));
      unit ← lift (unwrap "index out of bounds" (units !! index));
      let alone := bool_decide (length (executions (job_group job)) = 1) in
      if decide (is_Some (mjoin (results !! index)))
      then panic "assertion failed: results[index].is_none()" else
      '(result, failed, outs) ← on_w_disk (execution_ended exec result (if alone then ran else unit) outs);
      _ ← if failed && negb alone
          then kill_sandboxes (unfinished index results ∩ killable units) else mret tt;
      set_phase (Th_running units (<[index := Some result]> results) outs)
  | _ => mret tt
  end.

(** All the results are there. *)
Definition report : M Worker unit :=
  w ← get_st;
  match w_thread w with
  | Some (mkJobThread job _ (Th_running units results outs)) =>
      results ← lift (unwrap "called `Option::unwrap()` on a `None` value" (mapM id results));
      _ ← on_w_sender (with_context "Failed to send WorkerDone" (send (Wk_WorkerDone results (out_keys outs))));
      set_phase (Th_reporting outs)
  | _ => mret tt
  end.

(** The list of files that the server wants; none when its sender is dropped. *)
Definition receive_asked : M Worker unit :=
  w ← get_st;
  match w_thread w with
  | Some (mkJobThread _ _ (Th_reporting outs)) =>
      match w_asked w with
      | Some files => _ ← modify (with_w_asked None); set_phase (Th_sending files outs)
      | None =>
          _ ← on_current (λ c, set_sandboxes None (set_current_job None c));
          set_phase Th_exited
      end
  | _ => mret tt
  end.

Definition send_output (uuid : FileUuid) (outs : Outputs) : M Worker unit :=
  match out_keys outs !! uuid with
  | Some key =>
      _ ← on_w_sender (with_context "Failed to send ProvideFile" (send (Wk_ProvideFile uuid key)));
      out ← lift (index (out_paths outs) uuid);
      match out with
      | OnDisk path =>
          with_context "Failed to send missing file"
            (send_path (λ w, disk (w_store w)) (λ d w, with_w_store (with_disk d (w_store w)) w)
               on_w_sender path)
      | InMemory content =>
          with_context "Failed to sent in-memory file" (on_w_sender (send_data content))
      end
  | None => mret tt
  end.

(** The job is completed: the worker is reset and asks for more work, whether the
    message can be sent or not; then the directory of the FIFOs can be deleted. *)
Definition job_completed : M Worker unit :=
  w ← get_st;
  _ ← on_current (λ c, set_controller_state None (set_sandboxes None (set_current_job None c)));
  _ ← is_ok (on_w_sender (send Wk_GetWork));
  _ ← match w_thread w with
      | Some (mkJobThread _ (Some dir) _) => or_warn (on_w_disk (chmod_dir dir))
      | _ => mret tt
      end;
  set_phase Th_exited.

Definition send_asked : M Worker unit :=
  w ← get_st;
  match w_thread w with
  | Some (mkJobThread _ _ (Th_sending (file :: files) outs)) =>
      _ ← send_output file outs; set_phase (Th_sending files outs)
  | Some (mkJobThread _ _ (Th_sending [] outs)) => job_completed
  | _ => mret tt
  end.

(** The thread unwraps the result: an error is a panic, and its mpsc receiver is
    dropped. *)
Definition thread_step (m : M Worker unit) : M Worker unit := λ w,
  match m w with
  | (Fail e, w) => set_phase (Th_panicked e) w
  | (Panicked e, w) => set_phase (Th_panicked [e]) w
  | r => r
  end.

(** ** The threads together *)
Inductive MainPhase : Type :=
  | Main_looping
  | Main_waiting
  | Main_ended (r : Outcome unit).

(** [p_inbox]: all the messages that the server has sent. *)
Record Process : Type := mkProcess {
  p_worker : Worker;
  p_main : MainPhase;
  p_inbox : list WorkerServerMessage
}.

(** A message with the packets of its file. *)
Definition message_packets (m : WorkerServerMessage) (chunks : list (list byte)) :
    list (Packet WorkerServerMessage) :=
  match m with
  | Ws_ProvideFile _ => Item m :: (RawData <$> chunks) ++ [RawData []]
  | _ => [Item m]
  end.

Definition next_is_work (w : Worker) : bool :=
  match w_receiver w with Item (Ws_Work _) :: _ => true | _ => false end.

(** The end of a turn: an error ends the thread, which at the end of the loop waits
    for the one of the job. *)
Definition after_turn (r : Outcome bool) (w : Worker) (inbox : list WorkerServerMessage) : Process :=
  match r with
  | Ret true => mkProcess w Main_looping inbox
  | Ret false => mkProcess (end_loop w).2 Main_waiting inbox
  | Fail e => mkProcess w (Main_ended (Fail e)) inbox
  | Panicked e => mkProcess w (Main_ended (Panicked e)) inbox
  | OutOfFuel => mkProcess w (Main_ended OutOfFuel) inbox
  end.

(** What the server may send, given the process. *)
Variable admissible : Process → WorkerServerMessage → list (list byte) → Prop.

Inductive step : Process → Process → Prop :=
  (** The server sends a message, or it goes away. *)
  | Step_server w main inbox m chunks :
      admissible (mkProcess w main inbox) m chunks →
      step (mkProcess w main inbox)
        (mkProcess (with_w_receiver (w_receiver w ++ message_packets m chunks) w) main (inbox ++ [m]))
  | Step_closed w main inbox :
      step (mkProcess w main inbox)
        (mkProcess (with_w_sender (mkChannel (sent (w_sender w)) false) w) main inbox)
  (** The main thread; a job waits for the previous one. *)
  | Step_turn w inbox r w' :
      (next_is_work w = true → thread_alive w = false) → main_turn w = (r, w') →
      step (mkProcess w Main_looping inbox) (after_turn r w' inbox)
  | Step_join w inbox r w' :
      thread_alive w = false → wait_sandbox w = (r, w') →
      step (mkProcess w Main_waiting inbox) (mkProcess w' (Main_ended r) inbox)
  (** The thread of the job; the processes in the sandboxes change the disk. *)
  | Step_sandbox w main inbox job dir units results outs d index result ran w' :
      w_thread w = Some (mkJobThread job dir (Th_running units results outs)) →
      results !! index = Some None →
      thread_step (sandbox_ended index result ran) (with_w_store (with_disk d (w_store w)) w) = (Ret tt, w') →
      step (mkProcess w main inbox) (mkProcess w' main inbox)
  | Step_report w main inbox job dir units results outs w' :
      w_thread w = Some (mkJobThread job dir (Th_running units results outs)) →
      None ∉ results → thread_step report w = (Ret tt, w') →
      step (mkProcess w main inbox) (mkProcess w' main inbox)
  | Step_asked w main inbox job dir outs w' :
      w_thread w = Some (mkJobThread job dir (Th_reporting outs)) →
      is_Some (w_asked w) ∨ server_asked_files (w_current w) = false →
      thread_step receive_asked w = (Ret tt, w') →
      step (mkProcess w main inbox) (mkProcess w' main inbox)
  | Step_send w main inbox job dir files outs w' :
      w_thread w = Some (mkJobThread job dir (Th_sending files outs)) →
      thread_step send_asked w = (Ret tt, w') →
      step (mkProcess w main inbox) (mkProcess w' main inbox)
  (** The threads of a job with a controller. *)
  | Step_controlled w main inbox w' :
      controlled_step w w' → step (mkProcess w main inbox) (mkProcess w' main inbox).

(** The worker at the beginning of its loop. *)
Definition Worker_new (st : FileStore) (sandbox_path : PathBuf) : Worker :=
  mkWorker st (mkChannel [] true) [] WorkerCurrentJob_new None ∅ None sandbox_path.
Definition started (p : Process) : Prop :=
  ∃ st sandbox_path w, begin_work (Worker_new st sandbox_path) = (Ret tt, w) ∧
    p = mkProcess w Main_looping [].

Definition worker_reachable (p : Process) : Prop := ∃ p0, started p0 ∧ rtc step p0 p.
End worker.
