(* ===== verification/WorkerView.v ===== *)
(** * The worker seen by its invariants

    Counts of messages, the part of the state of a worker that its invariants are
    about, and what a job with a controller promises to the worker. *)
From S2P Require Import Prelude Float64 RustOrd Paths StoreKey Disk Store Dag Cache CheckDag Scheduler.
From S2P Require Import Proto Executor Sandbox Worker.

(** ** Counting messages *)
Definition tally {A} (f : A → bool) (l : list A) : nat := length (List.filter f l).

Lemma tally_app {A} (f : A → bool) l1 l2 : tally f (l1 ++ l2) = tally f l1 + tally f l2.
Proof. unfold tally. by rewrite List.filter_app, length_app. Qed.
Lemma tally_cons {A} (f : A → bool) x l : tally f (x :: l) = (if f x then 1 else 0) + tally f l.
Proof. unfold tally. simpl. by destruct (f x). Qed.
Lemma tally_none {A} (f : A → bool) l : Forall (λ x, f x = false) l → tally f l = 0.
Proof. induction 1 as [|x l Hx _ IH]; [done|]. by rewrite tally_cons, Hx, IH. Qed.

Definition in_packet {T} (f : T → bool) (p : Packet T) : bool :=
  match p with Item m => f m | RawData _ => false end.

Lemma tally_raw {T} (f : T → bool) chunks : tally (in_packet f) (RawData <$> chunks) = 0.
Proof. apply tally_none, Forall_fmap, Forall_forall. by intros. Qed.

Definition is_getwork (m : WorkerClientMessage) : bool := match m with Wk_GetWork => true | _ => false end.
Definition asks_for (key : FileStoreKey) (m : WorkerClientMessage) : bool :=
  match m with Wk_AskFile k => bool_decide (k = key) | _ => false end.
Definition is_work (m : WorkerServerMessage) : bool := match m with Ws_Work _ => true | _ => false end.
Definition provides (key : FileStoreKey) (m : WorkerServerMessage) : bool :=
  match m with Ws_ProvideFile k => bool_decide (k = key) | _ => false end.

(** How often the worker asked for a job or for a file, and how often the server
    answered; an answer is pending while the worker has not read it. *)
Definition asked_work (w : Worker) : nat := tally (in_packet is_getwork) (sent (w_sender w)).
Definition asked_file (key : FileStoreKey) (w : Worker) : nat :=
  tally (in_packet (asks_for key)) (sent (w_sender w)).
Definition pending_work (w : Worker) : nat := tally (in_packet is_work) (w_receiver w).
Definition pending_file (key : FileStoreKey) (w : Worker) : nat :=
  tally (in_packet (provides key)) (w_receiver w).
Definition given_work (inbox : list WorkerServerMessage) : nat := tally is_work inbox.
Definition given_file (key : FileStoreKey) (inbox : list WorkerServerMessage) : nat :=
  tally (provides key) inbox.

(** ** The view of the state that the invariants need *)
Definition view (w : Worker) :=
  (w_sender w, w_receiver w, current_job (w_current w), missing_deps (w_current w), w_thread w).

Definition same_but_thread (w w' : Worker) : Prop :=
  w_sender w' = w_sender w ∧ w_receiver w' = w_receiver w ∧
  current_job (w_current w') = current_job (w_current w) ∧
  missing_deps (w_current w') = missing_deps (w_current w).

Lemma view_same w w' : view w' = view w → same_but_thread w w' ∧ w_thread w' = w_thread w.
Proof. unfold view, same_but_thread. by intros [= -> -> -> -> ->]. Qed.

Lemma stable_w_disk {A} (m : M Disk A) v : stable (λ w, view w = v) (on_w_disk m).
Proof. by apply stable_zoom. Qed.
Lemma stable_w_store {A} (m : M FileStore A) v : stable (λ w, view w = v) (on_w_store m).
Proof. by apply stable_zoom. Qed.
Lemma stable_kill indices v : stable (λ w, view w = v) (kill_sandboxes indices).
Proof. by apply stable_modify. Qed.
Lemma stable_kill_current v : stable (λ w, view w = v) kill_current.
Proof.
  apply stable_read. intros w _.
  destruct (current_sandboxes _); [apply stable_kill|apply stable_ret].
Qed.

Lemma wlp_same {A} (m : M Worker A) w :
  (∀ v, stable (λ w, view w = v) m) → wlp m (λ _ w', view w' = view w) (λ w', view w' = view w) w.
Proof. intros Hm. by apply wlp_stable. Qed.

Definition sends (ps : list (Packet WorkerClientMessage)) (w : Worker) : Worker :=
  with_w_sender (mkChannel (sent (w_sender w) ++ ps) (channel_open (w_sender w))) w.

Lemma sends_nil w : sends [] w = w.
Proof. unfold sends. rewrite app_nil_r. by destruct w as [? []]. Qed.
Lemma sends_sends ps qs w : sends qs (sends ps w) = sends (ps ++ qs) w.
Proof. unfold sends. simpl. by rewrite app_assoc. Qed.
Lemma view_sends ps w w' : view w = view w' → view (sends ps w) = view (sends ps w').
Proof. unfold view, sends. simpl. by intros [= -> -> -> -> ->]. Qed.

(** A message is sent, or the channel is closed. *)
Lemma wlp_w_send ctx m w :
  wlp (on_w_sender (with_context ctx (send m)))
    (λ _ w', w' = sends [Item m] w) (λ w', view w' = view w) w.
Proof.
  apply wlp_zoom, wlp_context, wlp_bind, wlp_get. destruct (channel_open (w_sender w)) eqn:Ho.
  - apply wlp_modify. unfold sends. by rewrite Ho.
  - unfold wlp. simpl. unfold view. simpl. by destruct w.
Qed.

(** ** Every end of a step

    A postcondition for every end of a step, a panic included. *)
Definition ends {S A} (m : M S A) (Q : A → S → Prop) (E : S → Prop) (s : S) : Prop :=
  match m s with
  | (Ret a, s') => Q a s'
  | (OutOfFuel, _) => True
  | (_, s') => E s'
  end.

Lemma ends_bind {S A B} (m : M S A) (f : A → M S B) Q E s :
  ends m (λ a s', ends (f a) Q E s') E s → ends (m ≫= f) Q E s.
Proof. unfold ends, mbind, M_bind. by destruct (m s) as [[] ?]. Qed.
Lemma ends_mono {S A} (m : M S A) (Q Q' : A → S → Prop) (E E' : S → Prop) s :
  ends m Q E s → (∀ a s', Q a s' → Q' a s') → (∀ s', E s' → E' s') → ends m Q' E' s.
Proof. unfold ends. destruct (m s) as [[] ?]; auto. Qed.
Lemma ends_stable {S A} (I : S → Prop) (m : M S A) s : stable I m → I s → ends m (λ _, I) I s.
Proof. intros Hm Hs. specialize (Hm s Hs). unfold ends. by destruct (m s) as [[] ?]. Qed.
Lemma ends_get {S} (Q : S → S → Prop) E s : Q s s → ends get_st Q E s.
Proof. done. Qed.
Lemma ends_modify {S} f (Q : unit → S → Prop) E s : Q tt (f s) → ends (modify f) Q E s.
Proof. done. Qed.
Lemma ends_lift {S A} (o : Outcome A) (Q : A → S → Prop) E s :
  (∀ a, o = Ret a → Q a s) → E s → ends (lift o) Q E s.
Proof. unfold ends, lift. destruct o; auto. Qed.

(** A thread that works on its job changes to another phase and sends [ps]. *)
Definition moved (w w' : Worker) (ph : ThreadPhase) (ps : list (Packet WorkerClientMessage)) : Prop :=
  (∃ th, w_thread w = Some th ∧ w_thread w' = Some (mkJobThread (th_job th) (th_fifo_dir th) ph)) ∧
  w_receiver w' = w_receiver w ∧ current_job (w_current w') = current_job (w_current w) ∧
  missing_deps (w_current w') = missing_deps (w_current w) ∧
  sent (w_sender w') = sent (w_sender w) ++ ps.

Lemma ends_w_send ctx m E w :
  (∀ w', view w' = view w → E w') →
  ends (on_w_sender (with_context ctx (send m)))
    (λ _ w', w' = sends [Item m] w ∧ channel_open (w_sender w) = true) E w.
Proof.
  intros HE. pose proof (wlp_w_send ctx m w) as Hsend. unfold wlp, ends in *.
  unfold on_w_sender, zoom, with_context, send, send_packet, mbind, M_bind, get_st in *.
  destruct (channel_open _); simpl in *; auto.
Qed.

Lemma ends_set_phase ph ps w w1 th (Q : unit → Worker → Prop) E :
  w_thread w = Some th → view w1 = view (sends ps w) →
  (∀ w', moved w w' ph ps → Q tt w') → ends (set_phase ph) Q E w1.
Proof.
  intros Ht [(Hs & Hr & Hj & Hm) Hth]%view_same HQ. apply ends_modify. simpl in *. rewrite Hth, Ht.
  apply HQ. split_and!; simpl; [|by rewrite ?Hr|by rewrite ?Hj|by rewrite ?Hm|by rewrite Hs].
  exists th. by split.
Qed.

(** ** The interface of a job with a controller

    While it runs it sends nothing; it ends with a report, with a panic, or without a
    word. *)
Definition controlled_end (ph : ThreadPhase) (ps : list (Packet WorkerClientMessage)) : Prop :=
  match ph with
  | Th_controlled _ | Th_exited | Th_panicked _ => ps = []
  | Th_reporting outs => ∃ results, ps = [Item (Wk_WorkerDone results (out_keys outs))]
  | _ => False
  end.

Class ControllerLaws (C : Controller) : Prop := {
  controlled_start settings job handles w :
    current_job (w_current w) = Some (job, handles) →
    wlp (execute_controlled_job settings)
      (λ _ w', ∃ dir run, view w' = view (with_w_thread (Some (mkJobThread job dir (Th_controlled run))) w))
      (λ w', view w' = view w) w;
  controlled_moved w w' :
    controlled_step w w' →
    ∃ th run, w_thread w = Some th ∧ th_phase th = Th_controlled run ∧
      ∃ ph ps, moved w w' ph ps ∧ controlled_end ph ps
}.
