(* ===== verification/Controller.v ===== *)
(** * Jobs with a controller ([task-maker-exec/src/worker/controller.rs])

    A job of two executions: the controller, which runs once, and the solution,
    which the controller starts as often as it wants.  A thread, the manager,
    answers the requests of the controller, a thread for each sandbox adds its
    result to the common [State]; at the end the manager reports the result of the
    controller and the sum of the results of the solutions.  The environment decides
    what the controller writes, when the sandboxes end and with which result.  The
    keeper, the process under which the sandboxes run, and the lines it exchanges are
    left out, with the waits for a process to be ready and the poisoning of a mutex by a
    panic. *)
From S2P Require Import Prelude Float64 RustOrd Paths StoreKey Disk Store Dag Cache CheckDag Scheduler.
From S2P Require Import Proto Executor Sandbox Worker WorkerView.

Definition write_to_controller_fifo : PathBuf := [Normal "write_to_controller"].
Definition read_from_controller_fifo : PathBuf := [Normal "read_from_controller"].

(** ** The sum of the results *)

(** [ExecutionResult::default()]. *)
Definition ExecutionResult_default : ExecutionResult :=
  mkResult Success false false resources_default None None.

(** [f64::max]: a NaN is ignored. *)
Definition f64_max (x y : f64) : f64 :=
  if is_nan x then y else if is_nan y then x else if f64_ltb x y then y else x.

(** What the result of a solution adds to [solution_result]; with [concurrent] the
    solutions run together. *)
Definition add_result `{BuildProfile} (concurrent : bool) (result sr : ExecutionResult) :
    Outcome ExecutionResult :=
  let r := resources result in
  let s := resources sr in
  res_memory ←
    if concurrent then u64_add (res_memory s) (res_memory r) else Ret (N.max (res_memory r) (res_memory s));
  let wall_time :=
    if concurrent then f64_max (res_wall_time r) (res_wall_time s)
    else f64_add (res_wall_time s) (res_wall_time r) in
  Ret (mkResult (if is_success (status result) then status sr else status result)
    (if was_killed result then true else was_killed sr) (was_cached sr)
    (mkResources (f64_add (res_cpu_time s) (res_cpu_time r)) (f64_add (res_sys_time s) (res_sys_time r))
       wall_time res_memory)
    (result_stdout sr) (result_stderr sr)).

Section controller.
Context `{IterOrder} `{World} `{Host} `{BuildProfile} `{Blake3} `{UuidDisplay} `{!Bincode FileStoreIndex}.

(** ** Starting the job *)

(** The assertions on the group of a job with a controller. *)
Definition is_inherit (b : ExecutionOutputBehaviour) : bool :=
  match b with Output_Inherit => true | _ => false end.
Definition ignored_or_inherit (b : ExecutionOutputBehaviour) : bool :=
  match b with Output_Ignored | Output_Inherit => true | _ => false end.
Definition group_asserts (group : ExecutionGroup) : option (Execution * Execution) :=
  match fifo group, executions group with
  | [], [controller; solution] =>
      if negb (is_typst controller) && negb (is_typst solution)
         && match exec_stdin solution with Input_Inherit => true | _ => false end
         && is_inherit (exec_stdout solution) && ignored_or_inherit (exec_stderr solution)
         && bool_decide (exec_output_files solution = ∅)
      then Some (controller, solution) else None
  | _, _ => None
  end.

Definition sb_fifo (name : PathBuf) : PathBuf := path_join [Normal FIFO_SANDBOX_DIR] name.

(** The execution of the controller talks through the two FIFOs and may have many
    processes. *)
Definition controller_execution (execution : Execution) : Execution :=
  limits_mut limits_allow_multiprocess
    (set_stdout (Output_Path (sb_fifo read_from_controller_fifo))
      (set_stdin (Input_Path (sb_fifo write_to_controller_fifo)) execution)).

(** [execute_controlled_job]: starting the keeper is one more call. *)
Definition start_controlled_job (settings : ControllerSettings) : M Worker unit :=
  w ← get_st;
  fifo_dir ← on_w_disk (with_context "Failed to create temporary directory" (TempDir_new_in (w_sandbox_path w)));
  _ ← on_w_disk (with_context "Failed to create temporary directory" (TempDir_new_in (w_sandbox_path w)));
  _ ← on_current (set_asked_files true);
  _ ← modify (with_w_asked None);
  match current_job (w_current w) with
  | None => bail "Worker job is gone"
  | Some (job, deps) =>
      '(controller, solution) ← lift (unwrap "assertion failed" (group_asserts (job_group job)));
      _ ← on_w_disk (with_context "Cannot spawn the controller keeper" (io_call (λ d, Some (tt, d))));
      _ ← on_w_disk (for_each [write_to_controller_fifo; read_from_controller_fifo] (λ name,
            with_context "Failed to create FIFO" (mkfifo (path_join fifo_dir name))));
      let execution := controller_execution controller in
      sandbox ← on_w_disk (Sandbox_new (w_sandbox_path w) execution deps (Some fifo_dir));
      let unit := Unit_Sandbox sandbox in
      _ ← on_current (set_sandboxes (Some [unit]));
      _ ← on_current (set_controller_state
            (Some (mkState ExecutionResult_default None [false] (mkOutputs ∅ ∅))));
      _ ← modify (with_w_killed ∅);
      modify (with_w_thread (Some (mkJobThread job (Some fifo_dir)
        (Th_controlled (mkControlled settings execution solution deps
           [mkSandboxThread unit Sb_running] false 0 Mg_serving [])))))
  end.

(** ** The threads of the sandboxes *)
Definition set_thread_phase (index : nat) (p : SandboxPhase) (c : ControlledRun) : ControlledRun :=
  mkControlled (ct_settings c) (ct_controller c) (ct_solution c) (ct_deps c)
    (alter (λ t, mkSandboxThread (sb_unit t) p) index (ct_threads c))
    (ct_terminate c) (ct_next c) (ct_manager c) (ct_answers c).
Definition set_terminate (c : ControlledRun) : ControlledRun :=
  mkControlled (ct_settings c) (ct_controller c) (ct_solution c) (ct_deps c) (ct_threads c)
    true (ct_next c) (ct_manager c) (ct_answers c).
Definition set_next (n : nat) (c : ControlledRun) : ControlledRun :=
  mkControlled (ct_settings c) (ct_controller c) (ct_solution c) (ct_deps c) (ct_threads c)
    (ct_terminate c) n (ct_manager c) (ct_answers c).
Definition set_manager (m : ManagerPhase) (c : ControlledRun) : ControlledRun :=
  mkControlled (ct_settings c) (ct_controller c) (ct_solution c) (ct_deps c) (ct_threads c)
    (ct_terminate c) (ct_next c) m (ct_answers c).
Definition push_thread (u : ExecutionUnit) (c : ControlledRun) : ControlledRun :=
  mkControlled (ct_settings c) (ct_controller c) (ct_solution c) (ct_deps c)
    (ct_threads c ++ [mkSandboxThread u Sb_running])
    (ct_terminate c) (ct_next c) (ct_manager c) (ct_answers c).
Definition push_answer (pipes : Z * Z) (c : ControlledRun) : ControlledRun :=
  mkControlled (ct_settings c) (ct_controller c) (ct_solution c) (ct_deps c) (ct_threads c)
    (ct_terminate c) (ct_next c) (ct_manager c) (ct_answers c ++ [pipes]).

Definition the_run : M Worker (WorkerJob * ControlledRun) :=
  w ← get_st;
  match w_thread w with
  | Some (mkJobThread job _ (Th_controlled c)) => mret (job, c)
  | _ => out_of_fuel
  end.
Definition update_run (f : ControlledRun → ControlledRun) : M Worker unit :=
  '(_, c) ← the_run; set_phase (Th_controlled (f c)).

(** The state, behind the lock. *)
Definition the_state : M Worker State :=
  w ← get_st;
  lift (unwrap "called `Option::unwrap()` on a `None` value" (controller_state (w_current w))).

(** [controller_state.exited[index] = true] and the sum of the results. *)
Definition merge_result (concurrent : bool) (index : nat) (result : ExecutionResult) (outs : Outputs)
    (st : State) : Outcome State :=
  sums ← (if decide (0 < index) then
            sr ← add_result concurrent result (solution_result st); Ret (sr, controller_result st)
          else Ret (solution_result st, Some result));
  if decide (index < length (exited st))
  then Ret (mkState sums.1 sums.2 (<[index := true]> (exited st)) outs)
  else Panicked "index out of bounds".

(** [run_sandbox], after its process has ended: until the lock is released. *)
Definition run_sandbox (index : nat) (result : SandboxResult) : M Worker ExecutionResult :=
  '(job, c) ← the_run;
  thread ← lift (unwrap "no thread" (ct_threads c !! index));
  let execution := if decide (index = 0) then ct_controller c else ct_solution c in
  st ← the_state;
  '(result, failed, outs) ← on_w_disk (execution_ended execution result (sb_unit thread) (state_outputs st));
  st ← lift (merge_result (concurrent (ct_settings c)) index result outs st);
  _ ← on_current (set_controller_state (Some st));
  _ ← update_run (set_thread_phase index (Sb_merged (negb failed)));
  mret result.

(** Its end: the failure of a solution, or the end of the controller, ends the job. *)
Definition sandbox_done (index : nat) (success : bool) : M Worker unit :=
  _ ← if negb success || bool_decide (index = 0) then update_run set_terminate else mret tt;
  update_run (set_thread_phase index Sb_ended).

(** ** The manager *)

(** [ensure_controller!]: the controller is killed and the loop ends. *)
Definition kill_controller : M Worker unit :=
  w ← get_st;
  sandboxes ← lift (unwrap "called `Option::unwrap()` on a `None` value" (current_sandboxes (w_current w)));
  match sandboxes with
  | [] => panic "index out of bounds"
  | _ => _ ← kill_sandboxes ({[0]} ∩ killable sandboxes); update_run (set_manager Mg_leaving)
  end.

Definition start_solution : M Worker unit :=
  '(_, c) ← the_run;
  let index := ct_next c in
  _ ← update_run (set_next (S index));
  if negb (N.of_nat index <? process_limit (ct_settings c))%N then kill_controller else
  w ← get_st;
  unit ← on_w_disk (ExecutionUnit_new (w_sandbox_path w) (ct_solution c) (ct_deps c) None);
  if ct_terminate c then update_run (set_manager Mg_leaving) else
  st ← the_state;
  _ ← on_current (set_controller_state
        (Some (mkState (solution_result st) (controller_result st) (exited st ++ [false]) (state_outputs st))));
  sandboxes ← lift (unwrap "called `Option::unwrap()` on a `None` value" (current_sandboxes (w_current w)));
  _ ← on_current (set_sandboxes (Some (sandboxes ++ [unit])));
  update_run (λ c, set_manager Mg_waiting_pipes (push_thread unit c)).

(** What the manager reads from the controller. *)
Inductive ControllerLine : Type :=
  | Line (s : string)
  | Line_end
  | Line_error.

Definition manager_line (line : ControllerLine) : M Worker unit :=
  match line with
  | Line s => if decide (s = "START_SOLUTION") then start_solution else kill_controller
  | Line_end => update_run (set_manager Mg_leaving)
  | Line_error => bail "Failed to read from the controller"
  end.

(** The pipes of the solution are known: they are written to the controller, which may
    have closed its end. *)
Inductive WriteResult : Type := Written | Broken_pipe | Write_error.

Definition manager_answer (pipes : Z * Z) (r : WriteResult) : M Worker unit :=
  match r with
  | Written => update_run (λ c, set_manager Mg_serving (push_answer pipes c))
  | Broken_pipe => set_phase Th_exited
  | Write_error => bail "Writing START_SOLUTION response to controller"
  end.

(** After the loop: the sandboxes that still run are killed if the job has to end by then. *)
Definition still_running (st : State) (sandboxes : list ExecutionUnit) : gset nat :=
  list_to_set (omap (λ p, if p.2.1 : bool then None else Some p.1)
    (zip (seq 0 (length (exited st))) (zip (exited st) sandboxes))).

Definition manager_leave : M Worker unit :=
  '(_, c) ← the_run;
  _ ← (if ct_terminate c then
         st ← the_state;
         w ← get_st;
         sandboxes ← lift (unwrap "called `Option::unwrap()` on a `None` value" (current_sandboxes (w_current w)));
         kill_sandboxes (still_running st sandboxes ∩ killable sandboxes)
       else mret tt);
  update_run (set_manager Mg_joining).

(** All the threads are joined, then the job is reported.  There is no step while the thread
    to join next still runs. *)
Definition join_sandbox (t : SandboxThread) : M Worker unit :=
  match sb_phase t with
  | Sb_ended => mret tt
  | Sb_panicked _ => panic "called `Result::unwrap()` on an `Err` value"
  | _ => out_of_fuel
  end.

Definition manager_report : M Worker unit :=
  '(_, c) ← the_run;
  _ ← for_each (ct_threads c) join_sandbox;
  st ← the_state;
  _ ← on_current (set_controller_state None);
  controller_result ← lift (unwrap "called `Option::unwrap()` on a `None` value" (controller_result st));
  _ ← on_w_sender (with_context "Failed to send WorkerDone"
        (send (Wk_WorkerDone [controller_result; solution_result st] (out_keys (state_outputs st)))));
  set_phase (Th_reporting (state_outputs st)).

(** ** The steps

    A panic in the thread of a sandbox ends that thread, one in the manager the whole
    job. *)
Definition sandbox_panicked (index : nat) (m : M Worker ExecutionResult) :
    M Worker (option (nat * ExecutionResult)) := λ w,
  match m w with
  | (Ret r, w) => (Ret (Some (index, r)), w)
  | (Fail _, w') => (OutOfFuel, w')
  | (OutOfFuel, w') => (OutOfFuel, w')
  | (Panicked msg, w') => (_ ← update_run (set_thread_phase index (Sb_panicked msg)); mret None) w
  end.

Definition run_of (w : Worker) : option ControlledRun :=
  match w_thread w with
  | Some (mkJobThread _ _ (Th_controlled c)) => Some c
  | _ => None
  end.

(** What a step does that the report depends on: the result of a sandbox is added to the
    state, or a solution is started. *)
Inductive RunEvent : Type :=
  | Ev_ended (index : nat) (result : ExecutionResult)
  | Ev_started (index : nat).

(** A request that starts a solution is followed by the wait for its pipes; the index of
    the solution is the number of the requests so far. *)
Definition line_event (w : Worker) : option RunEvent :=
  match run_of w with
  | Some c =>
      match ct_manager c with Mg_waiting_pipes => Some (Ev_started (ct_next c)) | _ => None end
  | None => None
  end.

Inductive controlled_event : option RunEvent → Worker → Worker → Prop :=
  | Ct_ended w c index thread d result event w' :
      run_of w = Some c → ct_threads c !! index = Some thread → sb_phase thread = Sb_running →
      sandbox_panicked index (run_sandbox index result) (with_w_store (with_disk d (w_store w)) w) =
        (Ret event, w') →
      controlled_event ((λ p, Ev_ended p.1 p.2) <$> event) w w'
  | Ct_done w c index thread success w' :
      run_of w = Some c → ct_threads c !! index = Some thread → sb_phase thread = Sb_merged success →
      sandbox_done index success w = (Ret tt, w') →
      controlled_event None w w'
  | Ct_line w c line w' :
      run_of w = Some c → ct_manager c = Mg_serving →
      thread_step (manager_line line) w = (Ret tt, w') →
      controlled_event (line_event w') w w'
  | Ct_answer w c pipes r w' :
      run_of w = Some c → ct_manager c = Mg_waiting_pipes →
      thread_step (manager_answer pipes r) w = (Ret tt, w') →
      controlled_event None w w'
  | Ct_leave w c w' :
      run_of w = Some c → ct_manager c = Mg_leaving →
      thread_step manager_leave w = (Ret tt, w') →
      controlled_event None w w'
  | Ct_report w c w' :
      run_of w = Some c → ct_manager c = Mg_joining →
      thread_step manager_report w = (Ret tt, w') →
      controlled_event None w w'.

#[export] Instance tm_controller : Controller :=
  {| execute_controlled_job := start_controlled_job;
     controlled_step w w' := ∃ event, controlled_event event w w' |}.

(** ** What it promises to the worker *)

(** The state [w] when the thread has moved to another moment of its run. *)
Definition on_run (th : Thread) (w0 w : Worker) : Prop :=
  ∃ c, view w = view (with_w_thread (Some (mkJobThread (th_job th) (th_fifo_dir th) (Th_controlled c))) w0).

Lemma on_run_view th w0 w w' : view w' = view w → on_run th w0 w → on_run th w0 w'.
Proof. intros Hv [c Hc]. exists c. by rewrite Hv. Qed.

Section stable_run.
Context (th : Thread) (w0 : Worker).
Abbreviation keeps m := (stable (on_run th w0) m).

Lemma keeps_view {A} (m : M Worker A) : (∀ v, stable (λ w, view w = v) m) → keeps m.
Proof. intros Hm w Hw. eapply on_run_view; [|done]. by apply Hm. Qed.
Lemma keeps_disk {A} (m : M Disk A) : keeps (on_w_disk m).
Proof. apply keeps_view. intros v. apply stable_w_disk. Qed.
Lemma keeps_kill indices : keeps (kill_sandboxes indices).
Proof. apply keeps_view. intros v. apply stable_kill. Qed.
Lemma keeps_the_run : keeps the_run.
Proof.
  apply stable_read. intros w _. destruct (w_thread w) as [[j d []]|];
    first [apply stable_ret|by intros w' Hw'].
Qed.
Lemma keeps_state : keeps the_state.
Proof. apply stable_read. intros w _. apply stable_lift. Qed.
Lemma keeps_controller_state st : keeps (on_current (set_controller_state st)).
Proof. apply stable_modify. by intros w Hw. Qed.
Lemma keeps_sandboxes l : keeps (on_current (set_sandboxes l)).
Proof. apply stable_modify. by intros w Hw. Qed.
Lemma keeps_update f : keeps (update_run f).
Proof.
  apply stable_bind; [apply keeps_the_run|]. intros [job c]. apply stable_modify. intros w [c' Hv].
  pose proof (view_same _ _ Hv) as [_ Ht]. simpl in Ht. rewrite Ht. exists (f c).
  revert Hv. unfold view. simpl. by intros [= -> -> -> -> _].
Qed.
End stable_run.
Ltac run_stable :=
  repeat lazymatch goal with
  | |- stable _ (_ ≫= _) => apply stable_bind; [|intros ?]
  | |- stable _ (on_w_disk _) => apply keeps_disk
  | |- stable _ (kill_sandboxes _) => apply keeps_kill
  | |- stable _ the_run => apply keeps_the_run
  | |- stable _ the_state => apply keeps_state
  | |- stable _ (on_current (set_controller_state _)) => apply keeps_controller_state
  | |- stable _ (on_current (set_sandboxes _)) => apply keeps_sandboxes
  | |- stable _ (update_run _) => apply keeps_update
  | |- stable _ (lift _) => apply stable_lift
  | |- stable _ (mret _) => apply stable_ret
  | |- stable _ (bail _) => apply stable_bail
  | |- stable _ (panic _) => apply stable_lift
  | |- stable _ get_st => apply stable_gets
  | |- stable _ (match ?x with _ => _ end) => destruct x
  end.

Lemma keeps_run_sandbox th w0 index result : stable (on_run th w0) (run_sandbox index result).
Proof. unfold run_sandbox. run_stable. Qed.
Lemma keeps_sandbox_done th w0 index success : stable (on_run th w0) (sandbox_done index success).
Proof. unfold sandbox_done. run_stable. Qed.
Lemma keeps_kill_controller th w0 : stable (on_run th w0) kill_controller.
Proof. unfold kill_controller. run_stable. Qed.
Lemma keeps_line th w0 line : stable (on_run th w0) (manager_line line).
Proof.
  pose proof (keeps_kill_controller th w0). destruct line; simpl; unfold start_solution; run_stable; done.
Qed.
Lemma keeps_leave th w0 : stable (on_run th w0) manager_leave.
Proof.
  unfold manager_leave. run_stable.
Qed.

Lemma start_controlled settings job deps w :
  current_job (w_current w) = Some (job, deps) →
  wlp (start_controlled_job settings)
    (λ _ w', ∃ dir run, view w' = view (with_w_thread (Some (mkJobThread job dir (Th_controlled run))) w))
    (λ w', view w' = view w) w.
Proof.
  intros Hj. unfold start_controlled_job. apply wlp_bind, wlp_get.
  assert (∀ A (m : M Disk A) (Q : A → Worker → Prop) w1, view w1 = view w →
    (∀ a w2, view w2 = view w → Q a w2) → wlp (on_w_disk m) Q (λ w', view w' = view w) w1) as Hdisk.
  { intros A m Q w1 Hw1 HQ. eapply wlp_mono; [apply (wlp_same (on_w_disk _)), stable_w_disk| |].
    - intros a w2 Hw2. apply HQ. congruence.
    - intros w2 Hw2. congruence. }
  apply wlp_bind, Hdisk; [done|]. intros dir w1 Hw1. apply wlp_bind, Hdisk; [done|]. intros _ w2 Hw2.
  apply wlp_bind, wlp_modify, wlp_bind, wlp_modify. rewrite Hj. apply wlp_bind.
  apply wlp_lift; [intros [controller solution] _|done].
  apply wlp_bind, Hdisk; [done|]. intros _ w3 Hw3. apply wlp_bind, Hdisk; [done|]. intros _ w4 Hw4.
  apply wlp_bind, Hdisk; [done|]. intros box w5 Hw5.
  apply wlp_bind, wlp_modify, wlp_bind, wlp_modify, wlp_bind, wlp_modify, wlp_modify.
  eexists _, _. revert Hw5. unfold view. simpl. by intros [= -> -> -> -> _].
Qed.

Lemma run_of_thread w c : run_of w = Some c → ∃ th, w_thread w = Some th ∧ th_phase th = Th_controlled c.
Proof.
  unfold run_of. destruct (w_thread w) as [[job dir ph]|]; [|done]. destruct ph; try done.
  intros [= ->]. by eexists.
Qed.

Lemma on_run_start w th c : w_thread w = Some th → th_phase th = Th_controlled c → on_run th w w.
Proof. intros Ht Hph. exists c. unfold view. simpl. rewrite Ht. by destruct th; simpl in *; subst. Qed.

Lemma on_run_moved th w w' : w_thread w = Some th → on_run th w w' → ∃ c, moved w w' (Th_controlled c) [].
Proof.
  intros Ht [c Hv]. apply view_same in Hv as [(Hs & Hr & Hj & Hm) Hth]. simpl in *. exists c.
  split_and!; [by exists th|done|done|done|]. by rewrite Hs, app_nil_r.
Qed.

Definition moved_on (w w' : Worker) : Prop := ∃ ph ps, moved w w' ph ps ∧ controlled_end ph ps.

Lemma on_run_moved_on th w w' : w_thread w = Some th → on_run th w w' → moved_on w w'.
Proof. intros Ht Hw. destruct (on_run_moved _ _ _ Ht Hw) as [c Hc]. by exists (Th_controlled c), []. Qed.

(** A failed step of the manager. *)
Lemma thread_step_moved m w w' th :
  w_thread w = Some th → ends m (λ _ w1, moved_on w w1) (on_run th w) w →
  thread_step m w = (Ret tt, w') → moved_on w w'.
Proof.
  intros Ht Hm. unfold thread_step, ends in *.
  assert (∀ e w1, on_run th w w1 → set_phase (Th_panicked e) w1 = (Ret tt, w') → moved_on w w') as Hp.
  { intros e w1 [c Hv]. apply view_same in Hv as [(Hs & Hr & Hj & Hmi) Hth]. simpl in *.
    unfold set_phase, modify. rewrite Hth. intros [= <-]. exists (Th_panicked e), []. split; [|done].
    split_and!; simpl; [by exists th|done..|]. by rewrite Hs, app_nil_r. }
  destruct (m w) as [[[]|e|e|] w1]; [by intros [= <-]|by apply Hp|by apply Hp|done].
Qed.

Lemma thread_step_on_run m w w' th c :
  w_thread w = Some th → th_phase th = Th_controlled c → stable (on_run th w) m →
  thread_step m w = (Ret tt, w') → moved_on w w'.
Proof.
  intros Ht Hph Hm. eapply thread_step_moved; [done|].
  eapply ends_mono; [eapply ends_stable; [done|by eapply on_run_start]| |done].
  intros [] w1 Hw1. by eapply on_run_moved_on.
Qed.

Lemma ends_answer pipes r w th c :
  w_thread w = Some th → th_phase th = Th_controlled c →
  ends (manager_answer pipes r) (λ _ w1, moved_on w w1) (on_run th w) w.
Proof.
  intros Ht Hph. pose proof (on_run_start _ _ _ Ht Hph) as Hw. destruct r; simpl.
  - eapply ends_mono; [apply ends_stable; [apply keeps_update|done]| |done].
    intros [] w1 Hw1. by eapply on_run_moved_on.
  - eapply (ends_set_phase _ [] w); [done|by rewrite sends_nil|]. intros w1 Hw1. by exists Th_exited, [].
  - done.
Qed.

Lemma keeps_join th w0 t : stable (on_run th w0) (join_sandbox t).
Proof. unfold join_sandbox. destruct (sb_phase t); by intros w Hw. Qed.

Lemma ends_run_bind {A} (m : M Worker A) (f : A → M Worker unit) w w1 th :
  stable (on_run th w) m → on_run th w w1 →
  (∀ a w2, on_run th w w2 → ends (f a) (λ _ w3, moved_on w w3) (on_run th w) w2) →
  ends (m ≫= f) (λ _ w3, moved_on w w3) (on_run th w) w1.
Proof. intros Hm Hw1 Hf. apply ends_bind. eapply ends_mono; [by apply ends_stable|exact Hf|done]. Qed.

Lemma ends_manager_report w th c :
  w_thread w = Some th → th_phase th = Th_controlled c →
  ends manager_report (λ _ w1, moved_on w w1) (on_run th w) w.
Proof.
  intros Ht Hph. pose proof (on_run_start _ _ _ Ht Hph) as Hw.
  apply ends_run_bind; [apply keeps_the_run|done|]. intros [job c1] w1 Hw1.
  apply ends_run_bind; [apply stable_for_each, keeps_join|done|]. intros [] w2 Hw2.
  apply ends_run_bind; [apply keeps_state|done|]. intros st w3 Hw3.
  apply ends_run_bind; [apply keeps_controller_state|done|]. intros [] w4 Hw4.
  apply ends_run_bind; [apply stable_lift|done|]. intros result w5 Hw5.
  apply ends_bind. eapply ends_mono; [apply (ends_w_send _ _ (on_run th w))| |done].
  { intros w6 Hv. by eapply on_run_view. }
  intros [] w6 [-> _]. apply ends_modify. destruct Hw5 as [c5 Hv].
  apply view_same in Hv as [(Hs & Hr & Hj & Hmi) Hth]. simpl in *. rewrite Hth.
  eexists (Th_reporting _), [_]. split; [|by eexists].
  split_and!; simpl; [by exists th|done..|]. by rewrite Hs.
Qed.

#[export] Instance tm_controller_laws : ControllerLaws tm_controller.
Proof.
  split; [intros; by eapply start_controlled|]. intros w w' [event Hev].
  assert (∃ c, run_of w = Some c) as [c Hc] by (destruct Hev; by eexists).
  destruct (run_of_thread _ _ Hc) as (th & Ht & Hph). exists th, c. split_and!; [done..|].
  assert (∀ (m : M Worker unit), stable (on_run th w) m → thread_step m w = (Ret tt, w') → moved_on w w') as Hstep
    by (intros m Hm; by eapply thread_step_on_run).
  destruct Hev as [w c1 index thread d result event w' _ _ _ Hrun|w c1 index thread success w' _ _ _ Hrun
    |w c1 line w' _ _ Hrun|w c1 pipes r w' _ _ Hrun|w c1 w' _ _ Hrun|w c1 w' _ _ Hrun].
  - set (w1 := with_w_store _ w) in *. assert (on_run th w w1) as Hw1.
    { apply (on_run_view th w w); [done|by eapply on_run_start]. }
    eapply on_run_moved_on; [done|]. pose proof (keeps_run_sandbox th w index result w1 Hw1) as Hkeep.
    unfold sandbox_panicked in Hrun. destruct (run_sandbox _ _ w1) as [[r|e|msg|] w2]; try done; [by injection Hrun as _ <-|].
    pose proof (keeps_update th w (set_thread_phase index (Sb_panicked msg)) w1 Hw1) as Hup.
    unfold mbind, M_bind in Hrun. destruct (update_run _ w1) as [[] w3]; try done. by injection Hrun as _ <-.
  - eapply on_run_moved_on; [done|]. pose proof (keeps_sandbox_done th w index success w) as Hkeep.
    rewrite Hrun in Hkeep. by eapply Hkeep, on_run_start.
  - eapply Hstep; [apply keeps_line|done].
  - eapply thread_step_moved; [done|by eapply ends_answer|done].
  - eapply Hstep; [apply keeps_leave|done].
  - eapply thread_step_moved; [done|by eapply ends_manager_report|done].
Qed.
End controller.
