(* ===== verification/WorkerCorrect.v ===== *)
(** * The worker is right

    Invariants of the two threads of a worker, for a server that answers what it is
    asked: [Process] is the state of both, [server_admissible] says what the server
    may send. *)
From S2P Require Import Prelude Float64 RustOrd Paths StoreKey Disk Store Dag Cache CheckDag Scheduler.
From S2P Require Import Proto Executor Sandbox Worker WorkerView.

Section correct.
Context `{IterOrder} `{World} `{Host} `{BuildProfile} `{Blake3} `{UuidDisplay} `{!Bincode FileStoreIndex}.
Context `{!Controller} `{!ControllerLaws _}.

(** ** A server that answers *)

(** A job that has the keys of all its dependencies. *)
Definition job_ok (job : WorkerJob) : Prop :=
  ∀ f, f ∈ dependencies (job_group job) → is_Some (dep_keys job !! f).

Definition message_ok (m : WorkerServerMessage) (chunks : list (list byte)) : Prop :=
  Forall (λ b, b ≠ []) chunks ∧ match m with Ws_Work job => job_ok job | _ => True end.

Definition server_admissible (p : Process) (m : WorkerServerMessage) (chunks : list (list byte)) : Prop :=
  message_ok m chunks ∧
  match m with
  | Ws_Work _ => given_work (p_inbox p) < asked_work (p_worker p)
  | Ws_ProvideFile key => given_file key (p_inbox p) < asked_file key (p_worker p)
  | _ => True
  end.

Abbreviation process_step := (step server_admissible).
Abbreviation reachable := (worker_reachable server_admissible).

(** What is in the channel from the server. *)
Inductive inbound : list (Packet WorkerServerMessage) → Prop :=
  | inbound_nil : inbound []
  | inbound_message m chunks ps :
      message_ok m chunks → inbound ps → inbound (message_packets m chunks ++ ps).

Lemma inbound_snoc ps m chunks : inbound ps → message_ok m chunks → inbound (ps ++ message_packets m chunks).
Proof.
  intros Hps Hm. induction Hps as [|m' chunks' ps Hm' _ IH]; simpl.
  - rewrite <-(app_nil_r (message_packets m chunks)). by constructor; [|constructor].
  - rewrite <-app_assoc. by constructor.
Qed.

(** ** What the worker sends *)

(** The stream after [GetWork], and after the report of a job. *)
Inductive Turn : Type := Asking | Reported.
Inductive stream : Turn → list (Packet WorkerClientMessage) → Prop :=
  | stream_begin : stream Asking [Item Wk_GetWork]
  | stream_ask key ps : stream Asking ps → stream Asking (ps ++ [Item (Wk_AskFile key)])
  | stream_report results outs ps :
      stream Asking ps → stream Reported (ps ++ [Item (Wk_WorkerDone results outs)])
  | stream_file uuid key chunks ps :
      Forall (λ b, b ≠ []) chunks → stream Reported ps →
      stream Reported (ps ++ Item (Wk_ProvideFile uuid key) :: (RawData <$> chunks) ++ [RawData []])
  | stream_work ps : stream Reported ps → stream Asking (ps ++ [Item Wk_GetWork]).

(** ** The dependencies of a job *)
Record deps_known (keys : gmap FileUuid FileStoreKey) (l : list FileUuid)
    (missing : gmap FileStoreKey (list FileUuid)) (handles : gmap FileUuid FileStoreHandle) : Prop := {
  dk_handles : ∀ f h, handles !! f = Some h → keys !! f = Some (handle_key h);
  dk_missing : ∀ k fs f, missing !! k = Some fs → f ∈ fs → keys !! f = Some k;
  dk_all : ∀ f, f ∈ l → is_Some (handles !! f) ∨ ∃ k fs, missing !! k = Some fs ∧ f ∈ fs
}.

Definition ask_packets (asked : list FileStoreKey) : list (Packet WorkerClientMessage) :=
  (λ k, Item (Wk_AskFile k)) <$> asked.

Lemma tally_asks key asked :
  NoDup asked → tally (in_packet (asks_for key)) (ask_packets asked) = if decide (key ∈ asked) then 1 else 0.
Proof.
  induction 1 as [|k asked Hk _ IH]; [done|]. unfold ask_packets in *. rewrite fmap_cons, tally_cons, IH.
  simpl. destruct (decide (k = key)) as [->|Hne].
  - rewrite bool_decide_eq_true_2 by done. rewrite decide_False by done. by rewrite decide_True by left.
  - rewrite bool_decide_eq_false_2 by done. by apply decide_ext; set_solver.
Qed.

Lemma tally_asks_work asked : tally (in_packet is_getwork) (ask_packets asked) = 0.
Proof. apply tally_none, Forall_fmap, Forall_forall. by intros. Qed.

Lemma stream_asks ps asked : stream Asking ps → stream Asking (ps ++ ask_packets asked).
Proof.
  revert ps. induction asked as [|k asked IH]; intros ps Hps; simpl; [by rewrite app_nil_r|].
  change (Item (Wk_AskFile k) :: _) with ([Item (Wk_AskFile k)] ++ ask_packets asked).
  rewrite app_assoc. apply IH. by constructor.
Qed.

Lemma deps_known_handle keys l missing handles input h :
  keys !! input = Some (handle_key h) → deps_known keys l missing handles →
  deps_known keys (l ++ [input]) missing (<[input := h]> handles).
Proof.
  intros Hk [Hh Hm Ha]. split.
  - intros f h' [[<- <-]|[_ Hf]]%lookup_insert_Some; [done|by apply Hh].
  - done.
  - intros f [Hf| ->%list_elem_of_singleton]%elem_of_app.
    + destruct (Ha f Hf) as [[h' Hh']|?]; [left|by right].
      destruct (decide (f = input)) as [->|Hne]; [by rewrite lookup_insert_eq; eexists|].
      rewrite lookup_insert_ne by done. by eexists.
    + left. rewrite lookup_insert_eq. by eexists.
Qed.

Lemma deps_known_missing keys l missing handles input k :
  keys !! input = Some k → deps_known keys l missing handles →
  deps_known keys (l ++ [input]) (<[k := default [] (missing !! k) ++ [input]]> missing) handles.
Proof.
  intros Hk [Hh Hm Ha]. split; [done| |].
  - intros k' fs f [[<- <-]|[_ Hf]]%lookup_insert_Some; [|by apply Hm].
    intros [Hf| ->%list_elem_of_singleton]%elem_of_app; [|done].
    destruct (missing !! k) as [fs|] eqn:Hfs; [by apply (Hm k fs)|by apply not_elem_of_nil in Hf].
  - intros f [Hf| ->%list_elem_of_singleton]%elem_of_app.
    + destruct (Ha f Hf) as [?|(k' & fs & Hfs & Hin)]; [by left|right].
      destruct (decide (k' = k)) as [->|Hne].
      * rewrite Hfs. exists k, (fs ++ [input]). rewrite lookup_insert_eq. set_solver.
      * exists k', fs. by rewrite lookup_insert_ne.
    + right. exists k. rewrite lookup_insert_eq. eexists. split; [done|set_solver].
Qed.

(** Every missing file is asked exactly once. *)
Definition found_deps keys l (missing : gmap FileStoreKey (list FileUuid)) (w : Worker)
    (missing' : gmap FileStoreKey (list FileUuid))
    (handles' : gmap FileUuid FileStoreHandle) (w' : Worker) : Prop :=
  ∃ asked, NoDup asked ∧ deps_known keys l missing' handles' ∧
    (∀ k, k ∈ asked ↔ missing !! k = None ∧ is_Some (missing' !! k)) ∧
    (∀ k, is_Some (missing !! k) → is_Some (missing' !! k)) ∧
    view w' = view (sends (ask_packets asked) w).
Definition asked_some (w w' : Worker) : Prop := ∃ asked, view w' = view (sends (ask_packets asked) w).

Lemma asked_none w w' : view w' = view w → asked_some w w'.
Proof. intros Hw'. exists []. by rewrite sends_nil. Qed.

Lemma asked_more k w w' : asked_some (sends [Item (Wk_AskFile k)] w) w' → asked_some w w'.
Proof. intros [asked Hv]. exists (k :: asked). by rewrite sends_sends in Hv. Qed.

Lemma wlp_find_deps keys l seen missing handles w :
  deps_known keys seen missing handles →
  wlp (find_deps keys l missing handles)
    (λ r w', found_deps keys (seen ++ l) missing w r.1 r.2 w') (asked_some w) w.
Proof.
  revert seen missing handles w.
  induction l as [|input l IH]; intros seen missing handles w Hd; simpl.
  { exists []. rewrite sends_nil, app_nil_r. split_and!; [constructor|done| |done|done].
    intros k. split; [by intros ?%not_elem_of_nil|]. intros [Hk [? ?]]. simpl in *. congruence. }
  apply wlp_bind. destruct (keys !! input) as [key|] eqn:Hkey; [|by apply asked_none].
  apply wlp_ret, wlp_bind, wlp_zoom.
  eapply wlp_mono; [apply wlp_get_key| |intros st _; by apply asked_none].
  intros [h|] st Hh.
  - eapply wlp_mono; [eapply (IH (seen ++ [input]))| |].
    + apply deps_known_handle; [|done]. by rewrite Hkey, (Hh h).
    + intros r w'. by rewrite <-app_assoc.
    + by intros w' [asked Hv]; exists asked.
  - apply wlp_bind. destruct (decide (is_Some (missing !! key))) as [Hs|Hs].
    + apply wlp_ret. eapply wlp_mono; [eapply (IH (seen ++ [input])), deps_known_missing; done| |].
      * intros r w' (asked & Hnd & Hdk & Hin & Hsub & Hv). exists asked. rewrite <-app_assoc in Hdk.
        assert (∀ k, is_Some (missing !! k) ↔ is_Some (<[key:=default [] (missing !! key) ++ [input]]> missing !! k)) as Hdom.
        { intros k. rewrite lookup_insert_is_Some'. split; [tauto|]. by intros [<-|?]. }
        split_and!; [done|done| | |done].
        -- intros k. rewrite Hin, <-!not_eq_None_Some in *. specialize (Hdom k).
           rewrite <-!not_eq_None_Some in Hdom. destruct (missing !! k), (_ !! k); intuition congruence.
        -- intros k Hk. by apply Hsub, Hdom.
      * by intros w' [asked Hv]; exists asked.
    + eapply wlp_mono; [apply wlp_w_send| |intros w' Hw'; by apply asked_none].
      intros [] w1 ->. eapply wlp_mono; [eapply (IH (seen ++ [input])), deps_known_missing; done| |].
      * intros r w' (asked & Hnd & Hdk & Hin & Hsub & Hv). exists (key :: asked).
        rewrite <-app_assoc in Hdk. rewrite sends_sends in Hv.
        assert (missing !! key = None) as Hnone by (by apply eq_None_not_Some).
        split_and!; [|done| | |done].
        -- constructor; [|done]. rewrite Hin, lookup_insert_eq. by intros [? _].
        -- intros k. rewrite elem_of_cons, Hin. destruct (decide (k = key)) as [->|Hne].
           ++ split; [|by left]. intros _. split; [done|]. apply Hsub. rewrite lookup_insert_eq. by eexists.
           ++ rewrite lookup_insert_ne by done. intuition congruence.
        -- intros k Hk. apply Hsub. rewrite lookup_insert_is_Some'. by right.
      * intros w' Hw'. by eapply (asked_more key).
Qed.

(** ** The messages of the server, one by one *)
Definition has_controller (job : WorkerJob) : Prop := is_Some (controller_settings (job_group job)).

(** The thread of a job that starts. *)
Definition starts_with (job : WorkerJob) (ph : ThreadPhase) : Prop :=
  match ph with
  | Th_running _ results outs =>
      results = replicate (length (executions (job_group job))) None ∧ outs = no_outputs
  | Th_controlled _ => has_controller job
  | _ => False
  end.
Definition running (job : WorkerJob) (th : option Thread) : Prop :=
  ∃ dir ph, th = Some (mkJobThread job dir ph) ∧ starts_with job ph.

Lemma wlp_start_job job handles w :
  current_job (w_current w) = Some (job, handles) →
  wlp start_job
    (λ _ w', ∃ th, running job th ∧ view w' = view (with_w_thread th w))
    (λ w', view w' = view w) w.
Proof.
  intros Hj. unfold start_job, execute_job. apply wlp_bind, wlp_get. rewrite Hj.
  destruct (controller_settings (job_group job)) as [settings|] eqn:Hc.
  { eapply wlp_mono; [by eapply controlled_start| |done]. intros [] w' (dir & run & Hv).
    eexists. split; [|done]. exists dir, (Th_controlled run). split; [done|by exists settings]. }
  apply wlp_bind. eapply wlp_mono; [apply (wlp_same (on_w_disk _)), stable_w_disk| |done].
  intros dir w1 Hv1. apply wlp_bind.
  eapply wlp_mono; [apply (wlp_same (on_w_disk _)), stable_w_disk| |intros w' ->; done].
  intros units w2 Hv2. rewrite Hv1 in Hv2. apply wlp_bind, wlp_modify, wlp_bind, wlp_modify, wlp_modify.
  exists (Some (mkJobThread job dir
    (Th_running units (replicate (length (executions (job_group job))) None) no_outputs))).
  split; [by eexists dir, _|]. revert Hv2. unfold view. simpl. by intros [= -> -> -> -> _].
Qed.

(** A job is running, or it waits for files. *)
Definition waits_or_runs (job : WorkerJob) (w : Worker) : Prop :=
  if decide (missing_deps (w_current w) = ∅) then running job (w_thread w) else w_thread w = None.

Lemma wlp_start_or_wait job handles w :
  current_job (w_current w) = Some (job, handles) → w_thread w = None →
  wlp (if decide (missing_deps (w_current w) = ∅) then start_job else mret tt)
    (λ _ w', waits_or_runs job w' ∧ same_but_thread w w') (λ w', view w' = view w) w.
Proof.
  intros Hj Hth. unfold waits_or_runs. destruct (decide _) as [Hm|Hm].
  - eapply wlp_mono; [by eapply wlp_start_job| |done]. intros [] w' (th & Hrun & Hv).
    apply view_same in Hv as [Hv Hth']. split; [|done]. destruct Hv as (_ & _ & _ & Hm').
    rewrite Hm', decide_True by done. by rewrite Hth'.
  - apply wlp_ret. by rewrite decide_False.
Qed.

(** The thread of the previous job, if any, has ended well. *)
Definition no_thread (w : Worker) : Prop :=
  match w_thread w with Some th => th_phase th = Th_exited | None => True end.

Lemma wlp_wait_sandbox w :
  no_thread w → wlp wait_sandbox (λ _ w', view w' = view (with_w_thread None w)) no_error w.
Proof.
  intros Hth. apply wlp_bind, wlp_get. unfold no_thread in Hth.
  destruct (w_thread w) as [th|] eqn:Ht.
  - rewrite Hth. by apply wlp_modify.
  - apply wlp_ret. unfold view. simpl. by rewrite Ht.
Qed.

Lemma wlp_handle_work job w :
  current_job (w_current w) = None → no_thread w → job_ok job →
  wlp (handle_work job)
    (λ _ w', ∃ asked handles, NoDup asked ∧
       deps_known (dep_keys job) (dependencies (job_group job)) (missing_deps (w_current w')) handles ∧
       (∀ k, k ∈ asked ↔ is_Some (missing_deps (w_current w') !! k)) ∧
       w_sender w' = w_sender (sends (ask_packets asked) w) ∧ w_receiver w' = w_receiver w ∧
       current_job (w_current w') = Some (job, handles) ∧ waits_or_runs job w')
    (λ w', (∃ asked, w_sender w' = w_sender (sends (ask_packets asked) w)) ∧ w_thread w' = None) w.
Proof.
  intros Hj Hth Hdeps. apply wlp_bind, wlp_get. rewrite Hj. apply wlp_bind.
  eapply wlp_mono; [by apply wlp_wait_sandbox| |done]. intros [] w1 Hv1.
  apply view_same in Hv1 as [(Hs1 & Hr1 & Hj1 & Hm1) Ht1]. simpl in *.
  apply wlp_bind. eapply wlp_mono; [eapply (wlp_find_deps _ _ [] ∅ ∅)| |].
  { split; [intros ? ?; by rewrite lookup_empty|intros ? ? ?; by rewrite lookup_empty|].
    by intros f Hf%not_elem_of_nil. }
  - intros [missing handles] w2 (asked & Hnd & Hdk & Hin & _ & Hv2). simpl in *.
    apply view_same in Hv2 as [(Hs2 & Hr2 & Hj2 & Hm2) Ht2]. simpl in *.
    apply wlp_bind, wlp_modify. set (w3 := with_w_current _ w2).
    eapply wlp_mono; [by eapply (wlp_start_or_wait job handles w3); [done|rewrite <-Ht1, <-Ht2]| |].
    + intros [] w4 (Hwr & Hs4 & Hr4 & Hj4 & Hm4). exists asked, handles. rewrite Hm4, Hs4, Hr4, Hj4.
      simpl. split_and!; [done|done| | |congruence|done|done].
      * intros k. rewrite Hin, lookup_empty. tauto.
      * rewrite Hs2. unfold sends. simpl. by rewrite Hs1.
    + intros w4 Hv4. apply view_same in Hv4 as [(Hs4 & _) Ht4]. simpl in *. split; [|congruence].
      exists asked. rewrite Hs4, Hs2. unfold sends. simpl. by rewrite Hs1.
  - intros w2 [asked Hv2]. apply view_same in Hv2 as [(Hs2 & _) Ht2]. simpl in *.
    split; [|congruence]. exists asked. rewrite Hs2. unfold sends. simpl. by rewrite Hs1.
Qed.

Lemma wlp_store_key key chunks (st : FileStore) :
  wlp (store key chunks) (λ h _, handle_key h = key) may_fail st.
Proof.
  apply wlp_bind, wlp_bind, wlp_get, wlp_bind, wlp_modify, wlp_ret, wlp_bind.
  apply wlp_any; [|done]. intros [|] st1; [by apply wlp_ret|].
  apply wlp_bind, wlp_any; [|done]. intros [] st2. by apply wlp_ret.
Qed.

(** All of [uuids] get a handle of the file. *)
Lemma wlp_insert_handles uuids handle job handles w :
  current_job (w_current w) = Some (job, handles) →
  wlp (insert_handles uuids handle)
    (λ _ w', ∃ handles', current_job (w_current w') = Some (job, handles') ∧
       (∀ f, f ∉ uuids → handles' !! f = handles !! f) ∧
       (∀ f, f ∈ uuids → ∃ h, handles' !! f = Some h ∧ handle_key h = handle_key handle) ∧
       w_sender w' = w_sender w ∧ w_receiver w' = w_receiver w ∧
       missing_deps (w_current w') = missing_deps (w_current w) ∧ w_thread w' = w_thread w)
    no_error w.
Proof.
  revert handles w. induction uuids as [|uuid uuids IH]; intros handles w Hj; simpl.
  { apply wlp_ret. exists handles. split_and!; try done. by intros f Hf%not_elem_of_nil. }
  apply wlp_bind, wlp_get. rewrite Hj.
  apply wlp_bind, wlp_zoom, wlp_bind, wlp_get, wlp_bind, wlp_modify, wlp_ret, wlp_bind, wlp_modify.
  eapply wlp_mono; [by apply IH| |done].
  intros [] w' (handles' & Hj' & Hout & Hin & Hs & Hr & Hm & Ht). exists handles'.
  simpl in *. split_and!; [done| | |done..].
  - intros f [Hne Hf]%not_elem_of_cons. rewrite Hout by done. by apply lookup_insert_ne.
  - intros f Hf. destruct (decide (f ∈ uuids)) as [Hfu|Hfu]; [by apply Hin|].
    apply elem_of_cons in Hf as [->|]; [|done]. rewrite Hout by done.
    rewrite lookup_insert_eq. by eexists.
Qed.

Lemma deps_known_given keys l missing handles handles' key uuids h :
  missing !! key = Some uuids → handle_key h = key →
  (∀ f, f ∉ uuids → handles' !! f = handles !! f) →
  (∀ f, f ∈ uuids → ∃ h', handles' !! f = Some h' ∧ handle_key h' = handle_key h) →
  deps_known keys l missing handles → deps_known keys l (delete key missing) handles'.
Proof.
  intros Hk Hh Hout Hin [Hhs Hms Hall]. split.
  - intros f h' Hf. destruct (decide (f ∈ uuids)) as [Hfu|Hfu].
    + destruct (Hin f Hfu) as (h1 & Hh1 & Hk1). simplify_eq. rewrite Hk1. by eapply Hms.
    + rewrite Hout in Hf by done. by apply Hhs.
  - intros k fs f [_ Hf]%lookup_delete_Some. by apply (Hms k fs).
  - intros f Hf. destruct (decide (f ∈ uuids)) as [Hfu|Hfu].
    { left. destruct (Hin f Hfu) as (h1 & Hh1 & _). by eexists. }
    rewrite Hout by done. destruct (Hall f Hf) as [?|(k & fs & Hfs & Hff)]; [by left|right].
    exists k, fs. rewrite lookup_delete_ne; [done|]. intros <-. by simplify_eq.
Qed.

Lemma wlp_handle_provide key chunks rest uuids job handles w :
  Forall (λ b, b ≠ []) chunks → w_receiver w = (RawData <$> chunks) ++ RawData [] :: rest →
  current_job (w_current w) = Some (job, handles) →
  missing_deps (w_current w) !! key = Some uuids → w_thread w = None →
  deps_known (dep_keys job) (dependencies (job_group job)) (missing_deps (w_current w)) handles →
  wlp (handle_provide_file key)
    (λ _ w', ∃ handles',
       deps_known (dep_keys job) (dependencies (job_group job)) (missing_deps (w_current w')) handles' ∧
       missing_deps (w_current w') = delete key (missing_deps (w_current w)) ∧
       w_sender w' = w_sender w ∧ w_receiver w' = rest ∧
       current_job (w_current w') = Some (job, handles') ∧ waits_or_runs job w')
    (λ w', w_sender w' = w_sender w ∧ w_thread w' = None) w.
Proof.
  intros Hne Hr Hj Hm Ht Hdk. apply wlp_bind, wlp_bind, wlp_get. rewrite Hr, receive_blocks by done.
  apply wlp_bind, wlp_modify, wlp_lift; [intros ? _|done].
  apply wlp_bind, wlp_context, wlp_zoom. eapply wlp_mono; [apply wlp_store_key| |done].
  intros h st Hh. apply wlp_bind, wlp_get. simpl. rewrite Hm. apply wlp_bind, wlp_modify, wlp_bind.
  eapply wlp_mono; [by eapply wlp_insert_handles| |done].
  intros [] w1 (handles' & Hj1 & Hout & Hin & Hs1 & Hr1 & Hm1 & Ht1). simpl in *.
  apply wlp_bind, wlp_get. eapply wlp_mono; [by eapply wlp_start_or_wait; [|rewrite Ht1]| |].
  - intros [] w2 (Hwr & Hs2 & Hr2 & Hj2 & Hm2). exists handles'. rewrite Hm2, Hm1.
    split_and!; [by eapply deps_known_given|done|congruence|congruence|congruence|done].
  - intros w2 Hv2. apply view_same in Hv2 as [(Hs2 & _) Ht2]. split; congruence.
Qed.

Lemma wlp_kill_job group w :
  wlp (handle_kill_job group) (λ _ w', view w' = view w) (λ w', view w' = view w) w.
Proof.
  apply wlp_same. intros v. apply stable_read. intros w' _.
  destruct (current_job _) as [[job ?]|]; [|apply stable_ret].
  destruct (decide _); [apply stable_kill_current|apply stable_ret].
Qed.

Lemma wlp_ask_files files w : wlp (handle_ask_files files) (λ _ w', view w' = view w) no_error w.
Proof.
  apply wlp_bind, wlp_get. destruct (server_asked_files _); [|by apply wlp_ret].
  apply wlp_bind, wlp_modify. destruct (thread_alive w); [by apply wlp_modify|by apply wlp_ret].
Qed.

(** ** The invariant *)

(** What a thread that has failed leaves: a file that was announced only. *)
Definition broken (ps : list (Packet WorkerClientMessage)) : Prop :=
  ∃ t qs tail, ps = qs ++ tail ∧ stream t qs ∧
    (tail = [] ∨ ∃ uuid key, tail = [Item (Wk_ProvideFile uuid key)]).

Lemma stream_broken t ps : stream t ps → broken ps.
Proof. intros Hps. exists t, ps, []. rewrite app_nil_r. auto. Qed.

(** The stream while a thread works, and when none does. *)
Definition phase_stream (ph : ThreadPhase) (ps : list (Packet WorkerClientMessage)) : Prop :=
  match ph with
  | Th_running _ _ _ | Th_controlled _ => stream Asking ps
  | Th_reporting _ | Th_sending _ _ => stream Reported ps
  | Th_panicked _ | Th_exited => broken ps
  end.
Definition thread_stream (w : Worker) : Prop :=
  match w_thread w with
  | Some th => phase_stream (th_phase th) (sent (w_sender w))
  | None => broken (sent (w_sender w))
  end.

(** Only the thread of a job with a controller may end without a report. *)
Definition thread_ok (th : Thread) : Prop :=
  match th_phase th with Th_exited | Th_controlled _ => has_controller (th_job th) | _ => True end.

Definition job_state (w : Worker) : Prop :=
  match current_job (w_current w) with
  | None => missing_deps (w_current w) = ∅ ∧ no_thread w
  | Some (job, handles) =>
      job_ok job ∧
      deps_known (dep_keys job) (dependencies (job_group job)) (missing_deps (w_current w)) handles ∧
      if decide (missing_deps (w_current w) = ∅)
      then ∃ th, w_thread w = Some th ∧ th_job th = job ∧ thread_ok th
      else w_thread w = None
  end.

Definition idle (w : Worker) : nat := match current_job (w_current w) with None => 1 | _ => 0 end.
Definition misses (key : FileStoreKey) (w : Worker) : nat :=
  match missing_deps (w_current w) !! key with Some _ => 1 | None => 0 end.

(** While the main thread runs its loop: the server answers once what it is asked,
    and without a thread the stream is whole. *)
Record looping (w : Worker) (inbox : list WorkerServerMessage) : Prop := {
  lo_inbound : inbound (w_receiver w);
  lo_work : asked_work w + pending_work w ≤ given_work inbox + idle w;
  lo_given_work : given_work inbox ≤ asked_work w;
  lo_file : ∀ k, asked_file k w + pending_file k w = given_file k inbox + misses k w;
  lo_given_file : ∀ k, given_file k inbox ≤ asked_file k w;
  lo_job : job_state w;
  lo_idle : no_thread w → stream Asking (sent (w_sender w)) ∨
    stream Reported (sent (w_sender w)) ∧ current_job (w_current w) = None ∧
    asked_work w + pending_work w ≤ given_work inbox
}.

Definition inv (p : Process) : Prop :=
  match p_main p with
  | Main_ended (Panicked _) | Main_ended OutOfFuel => True
  | Main_looping => looping (p_worker p) (p_inbox p) ∧ thread_stream (p_worker p)
  | _ => thread_stream (p_worker p)
  end.

(** *** What the server does *)
Lemma tally_message f m chunks :
  tally (in_packet f) (message_packets m chunks) = if f m then 1 else 0.
Proof.
  assert (∀ ps, tally (in_packet f) ps = 0 → tally (in_packet f) (Item m :: ps) = if f m then 1 else 0) as Hm.
  { intros ps Hps. rewrite tally_cons, Hps. simpl. by destruct (f m). }
  destruct m; simpl; apply Hm; [done..| |done|done].
  rewrite tally_app, tally_raw. done.
Qed.

Lemma looping_server w inbox m chunks :
  server_admissible (mkProcess w Main_looping inbox) m chunks → looping w inbox →
  looping (with_w_receiver (w_receiver w ++ message_packets m chunks) w) (inbox ++ [m]).
Proof.
  intros [Hok Hadm] [Hin Hw Hgw Hf Hgf Hj Hi]. simpl in Hadm.
  unfold asked_work, pending_work, given_work, asked_file, pending_file, given_file in *.
  assert (∀ f, tally f (inbox ++ [m]) = tally f inbox + (if f m then 1 else 0)) as Hsnoc.
  { intros f. rewrite tally_app, tally_cons. change (tally f []) with 0. lia. }
  split; unfold asked_work, pending_work, given_work, asked_file, pending_file, given_file; simpl.
  - by apply inbound_snoc.
  - rewrite Hsnoc, tally_app, tally_message. destruct (is_work m); unfold idle in *; simpl in *; lia.
  - rewrite Hsnoc. destruct m; simpl in *; lia.
  - intros k. specialize (Hf k). rewrite Hsnoc, tally_app, tally_message. unfold misses in *. simpl in *. lia.
  - intros k. specialize (Hgf k). rewrite Hsnoc. destruct m; simpl in *; try lia.
    case_bool_decide; subst; lia.
  - done.
  - rewrite Hsnoc, tally_app, tally_message. intros Hnt.
    destruct (Hi Hnt) as [?|(? & ? & ?)]; [by left|right]. split_and!; [done..|lia].
Qed.

(** *** The main thread *)
Lemma looping_view w w' inbox : view w' = view w → looping w inbox → looping w' inbox.
Proof.
  intros [(Hs & Hr & Hj & Hm) Ht]%view_same [? ? ? Hf Hgf Hjob Hi].
  unfold job_state, no_thread, idle, misses, asked_work, pending_work, asked_file, pending_file in *.
  split; unfold job_state, no_thread, idle, misses, asked_work, pending_work, asked_file, pending_file;
    by rewrite ?Hs, ?Hr, ?Hj, ?Hm, ?Ht.
Qed.

Lemma thread_stream_view w w' : view w' = view w → thread_stream w → thread_stream w'.
Proof. intros [(Hs & _) Ht]%view_same. unfold thread_stream. by rewrite Hs, Ht. Qed.

(** A message that answers nothing is read. *)
Lemma looping_read w inbox m ps :
  w_receiver w = Item m :: ps → inbound ps → is_work m = false → (∀ k, provides k m = false) →
  looping w inbox → looping (with_w_receiver ps w) inbox.
Proof.
  intros Hr Hps Hw Hp [Hin Hwk Hgw Hf Hgf Hj Hi].
  unfold asked_work, pending_work, asked_file, pending_file in *. rewrite Hr in *.
  split; unfold asked_work, pending_work, asked_file, pending_file; simpl.
  - done.
  - rewrite tally_cons in Hwk. unfold idle in *. simpl in *. lia.
  - done.
  - intros k. specialize (Hf k). rewrite tally_cons in Hf. simpl in Hf. rewrite Hp in Hf. done.
  - done.
  - done.
  - intros Hnt. destruct (Hi Hnt) as [?|(? & ? & Hc)]; [by left|right]. split_and!; [done..|].
    rewrite tally_cons in Hc. lia.
Qed.

(** A job comes only when the worker has none. *)
Lemma work_expected w inbox job ps :
  w_receiver w = Item (Ws_Work job) :: ps → looping w inbox →
  current_job (w_current w) = None ∧ missing_deps (w_current w) = ∅ ∧ no_thread w ∧
  stream Asking (sent (w_sender w)) ∧
  asked_work w + tally (in_packet is_work) ps = given_work inbox.
Proof.
  intros Hr [Hin Hwk Hgw Hf Hgf Hj Hi]. unfold pending_work in *. rewrite Hr, tally_cons in *.
  simpl in *. unfold idle, job_state in *. destruct (current_job (w_current w)) as [[job' ?]|]; [lia|].
  destruct Hj as [Hm Hnt]. destruct (Hi Hnt) as [?|(_ & _ & Hc)]; [|lia]. split_and!; [done..|lia].
Qed.

Lemma running_stream job th ps : running job th → stream Asking ps →
  match th with Some th => phase_stream (th_phase th) ps | None => broken ps end.
Proof. intros (dir & ph & -> & Hph) Hps. by destruct ph. Qed.

Lemma waits_or_runs_state job w :
  waits_or_runs job w →
  if decide (missing_deps (w_current w) = ∅)
  then ∃ th, w_thread w = Some th ∧ th_job th = job ∧ thread_ok th
  else w_thread w = None.
Proof. unfold waits_or_runs. destruct (decide _); [|done]. intros (dir & ph & -> & Hph).
  eexists. split_and!; [done..|]. by destruct ph. Qed.

Lemma waits_or_runs_stream job w :
  waits_or_runs job w → stream Asking (sent (w_sender w)) → thread_stream w.
Proof.
  unfold waits_or_runs, thread_stream. destruct (decide _).
  - intros Hrun Hs. by eapply running_stream.
  - intros ->. apply stream_broken.
Qed.

Lemma turn_work w inbox job ps :
  w_receiver w = Item (Ws_Work job) :: ps → inbound ps → job_ok job → looping w inbox →
  wlp (handle_work job) (λ _ w', looping w' inbox ∧ thread_stream w') thread_stream
    (with_w_receiver ps w).
Proof.
  intros Hr Hps Hok Hlo. destruct (work_expected _ _ _ _ Hr Hlo) as (Hj & Hm & Hnt & Hst & Hcount).
  destruct Hlo as [_ _ Hgw Hf Hgf _ _].
  eapply wlp_mono; [by apply wlp_handle_work| |].
  - intros [] w' (asked & handles & Hnd & Hdk & Hin & Hs' & Hr' & Hj' & Hwr). simpl in *.
    assert (stream Asking (sent (w_sender w'))) as Hst' by (rewrite Hs'; by apply stream_asks).
    split; [|by eapply waits_or_runs_stream].
    unfold asked_work, pending_work, asked_file, pending_file in *. rewrite Hr in Hf.
    assert (sent (w_sender w') = sent (w_sender w) ++ ask_packets asked) as Hsent by by rewrite Hs'.
    split; unfold asked_work, pending_work, asked_file, pending_file, idle; rewrite ?Hr', ?Hj', ?Hsent.
    + done.
    + rewrite tally_app, tally_asks_work. lia.
    + rewrite tally_app. lia.
    + intros k. specialize (Hf k). rewrite tally_cons in Hf. rewrite tally_app, tally_asks by done.
      unfold misses in *. rewrite Hm, lookup_empty in Hf. simpl in Hf. specialize (Hin k).
      destruct (decide (k ∈ asked)) as [Hk|Hk], (missing_deps (w_current w') !! k); try lia.
      * apply Hin in Hk as [? [=]].
      * destruct Hk. by apply Hin.
    + intros k. rewrite tally_app. specialize (Hgf k). lia.
    + unfold job_state. rewrite Hj'. split_and!; [done|done|by apply waits_or_runs_state].
    + intros _. left. by apply stream_asks.
  - intros w' [[asked Hs'] Ht']. unfold thread_stream. rewrite Ht', Hs'. simpl.
    by eapply stream_broken, stream_asks.
Qed.

(** A file comes only when a job waits for it. *)
Lemma file_expected w inbox key ps :
  w_receiver w = Item (Ws_ProvideFile key) :: ps → looping w inbox →
  ∃ job handles uuids, current_job (w_current w) = Some (job, handles) ∧ w_thread w = None ∧
    missing_deps (w_current w) !! key = Some uuids.
Proof.
  intros Hr [_ _ _ Hf Hgf Hj _]. specialize (Hf key). specialize (Hgf key).
  unfold pending_file in Hf. rewrite Hr, tally_cons in Hf. simpl in Hf.
  rewrite bool_decide_eq_true_2 in Hf by done. unfold misses, job_state in *.
  destruct (missing_deps (w_current w) !! key) as [uuids|] eqn:Hm; [|lia].
  destruct (current_job (w_current w)) as [[job handles]|].
  - destruct Hj as (_ & _ & Hth). exists job, handles, uuids.
    destruct (decide _) as [He|_]; [by rewrite He in Hm|done].
  - destruct Hj as [He _]. by rewrite He in Hm.
Qed.

Lemma turn_file w inbox key chunks ps :
  w_receiver w = Item (Ws_ProvideFile key) :: (RawData <$> chunks) ++ RawData [] :: ps →
  Forall (λ b, b ≠ []) chunks → inbound ps → looping w inbox →
  wlp (handle_provide_file key) (λ _ w', looping w' inbox ∧ thread_stream w') thread_stream
    (with_w_receiver ((RawData <$> chunks) ++ RawData [] :: ps) w).
Proof.
  intros Hr Hne Hps Hlo. destruct (file_expected _ _ _ _ Hr Hlo) as (job & handles & uuids & Hj & Ht & Hm).
  destruct Hlo as [_ Hwk Hgw Hf Hgf Hjob Hi]. unfold job_state in Hjob. rewrite Hj in Hjob.
  destruct Hjob as (Hok & Hdk & _).
  assert (stream Asking (sent (w_sender w))) as Hst.
  { destruct Hi as [?|(_ & ? & _)]; [unfold no_thread; by rewrite Ht|done|congruence]. }
  eapply wlp_mono; [by eapply (wlp_handle_provide key chunks ps uuids job handles); try done; apply Hok| |].
  - intros [] w' (handles' & Hdk' & Hm' & Hs' & Hr' & Hj' & Hwr). simpl in *.
    rewrite <-Hs' in Hst. split; [|by eapply waits_or_runs_stream].
    unfold asked_work, pending_work, asked_file, pending_file in *. rewrite Hr in *.
    assert (∀ f, tally (in_packet f) (Item (Ws_ProvideFile key) :: (RawData <$> chunks) ++ RawData [] :: ps) =
      (if f (Ws_ProvideFile key) then 1 else 0) + tally (in_packet f) ps) as Htally.
    { intros f. by rewrite tally_cons, tally_app, tally_raw, tally_cons. }
    split; unfold asked_work, pending_work, asked_file, pending_file, idle; rewrite ?Hr', ?Hj', ?Hs'.
    + done.
    + rewrite Htally in Hwk. unfold idle in Hwk. rewrite Hj in Hwk. done.
    + done.
    + intros k. specialize (Hf k). rewrite Htally in Hf. unfold misses in *. rewrite Hm'. simpl in Hf.
      destruct (decide (key = k)) as [->|Hk].
      * rewrite bool_decide_eq_true_2 in Hf by done. rewrite Hm in Hf. rewrite lookup_delete_eq. lia.
      * rewrite bool_decide_eq_false_2 in Hf by done. by rewrite lookup_delete_ne.
    + done.
    + unfold job_state. rewrite Hj'. split_and!; [done|done|by apply waits_or_runs_state].
    + intros _. left. by rewrite <-Hs'.
  - intros w' [Hs' Ht']. unfold thread_stream. rewrite Ht', Hs'. simpl. by eapply stream_broken.
Qed.

Lemma wlp_recv w ps m :
  w_receiver w = Item m :: ps →
  ok (zoom w_receiver with_w_receiver recv) w = (Ret (Some m), with_w_receiver ps w).
Proof. intros Hr. unfold ok, zoom, recv. by rewrite Hr. Qed.

Lemma wlp_recv_closed w :
  w_receiver w = [] → ok (zoom w_receiver with_w_receiver recv) w = (Ret None, w).
Proof. intros Hr. unfold ok, zoom, recv. rewrite Hr. by destruct w; simpl in *; subst. Qed.

Lemma looping_turn w inbox :
  looping w inbox → thread_stream w →
  wlp (main_turn)
    (λ go w', if go : bool then looping w' inbox ∧ thread_stream w' else thread_stream w')
    thread_stream w.
Proof.
  intros Hlo Hts. pose proof (lo_inbound _ _ Hlo) as Hin. unfold main_turn.
  assert (∀ P : bool → Worker → Prop, (∀ w', view w' = view w → P false w') →
    wlp connection_lost P thread_stream w) as Hlost.
  { intros P HP. apply wlp_bind. eapply wlp_mono; [apply wlp_same, stable_kill_current| |].
    - intros [] w' Hv. apply wlp_ret. by apply HP.
    - intros w' Hv. by apply (thread_stream_view w). }
  remember (w_receiver w) as rs eqn:Hr. destruct Hin as [|m chunks ps [Hne Hok] Hps]; symmetry in Hr.
  { apply wlp_bind. unfold wlp at 1. rewrite wlp_recv_closed by done. apply Hlost.
    intros w' Hv. by apply (thread_stream_view w). }
  assert (∃ tail, w_receiver w = Item m :: tail) as [tail Htail] by (destruct m; rewrite Hr; by eexists).
  apply wlp_bind. unfold wlp at 1. rewrite (wlp_recv _ _ _ Htail).
  assert (∀ w', view w' = view (with_w_receiver ps w) → is_work m = false →
    (∀ k, provides k m = false) → tail = ps → looping w' inbox ∧ thread_stream w') as Hquiet.
  { intros w' Hv Hw Hp ->. split; [|by apply (thread_stream_view (with_w_receiver ps w))].
    eapply looping_view; [done|]. by eapply looping_read. }
  destruct m as [job|group|key|files|]; simpl in Hr; rewrite Htail in Hr; injection Hr as Hr; subst tail;
    simpl.
  - apply wlp_bind. eapply wlp_mono; [by eapply turn_work| |done]. intros [] w' Hw'. by apply wlp_ret.
  - apply wlp_bind. eapply wlp_mono; [apply wlp_kill_job| |].
    + intros [] w' Hv. apply wlp_ret. by apply Hquiet.
    + intros w' Hv. by apply (thread_stream_view (with_w_receiver ps w)).
  - rewrite <-app_assoc. simpl. rewrite <-app_assoc in Htail. simpl in Htail.
    apply wlp_bind. eapply wlp_mono; [by eapply turn_file| |done]. intros [] w' Hw'. by apply wlp_ret.
  - apply wlp_bind. eapply wlp_mono; [apply wlp_ask_files| |done].
    intros [] w' Hv. apply wlp_ret. by apply Hquiet.
  - by apply wlp_ret.
Qed.

(** *** The thread of the job *)

(** The packets that the thread sends before it asks for more work. *)
Definition answers (ps : list (Packet WorkerClientMessage)) : Prop :=
  tally (in_packet is_getwork) ps = 0 ∧ ∀ k, tally (in_packet (asks_for k)) ps = 0.

Lemma inv_moved w w' main inbox ph ps :
  moved w w' ph ps → answers ps →
  (∀ th, w_thread w = Some th → th_phase th ≠ Th_exited ∧
     (thread_ok th → thread_ok (mkJobThread (th_job th) (th_fifo_dir th) ph))) →
  (ph = Th_exited → stream Asking (sent (w_sender w) ++ ps)) → phase_stream ph (sent (w_sender w) ++ ps) →
  inv (mkProcess w main inbox) → inv (mkProcess w' main inbox).
Proof.
  intros ((th & Ht & Ht') & Hr & Hj & Hm & Hs) [Hgw Hask] Halive Hph Hst.
  assert (thread_stream w') as Hts by (unfold thread_stream; by rewrite Ht', Hs).
  unfold inv. simpl. destruct main as [| |[]]; try done. intros [Hlo _]. split; [|done].
  destruct Hlo as [Hin Hwk Hgiv Hf Hgf Hjob Hi].
  unfold asked_work, pending_work, asked_file, pending_file, idle, misses in *.
  split; unfold asked_work, pending_work, asked_file, pending_file, idle, misses; rewrite ?Hr, ?Hj, ?Hm, ?Hs.
  - done.
  - rewrite tally_app, Hgw. lia.
  - rewrite tally_app. lia.
  - intros k. rewrite tally_app, Hask. specialize (Hf k). lia.
  - intros k. rewrite tally_app. specialize (Hgf k). lia.
  - unfold job_state in *. rewrite Hj, Hm. destruct (current_job (w_current w)) as [[job handles]|].
    + destruct Hjob as (? & ? & Hth). split_and!; [done..|]. destruct (decide _); [|congruence].
      destruct Hth as (th1 & Hth1 & Hjob1 & Hok). simplify_eq. eexists. split; [done|]. split; [done|].
      by apply Halive.
    + destruct Hjob as [_ Hnt]. unfold no_thread in Hnt. rewrite Ht in Hnt. by destruct (Halive th).
  - unfold no_thread. rewrite Ht'. simpl. intros Hx. left. by apply Hph.
Qed.

Lemma inv_finished w w' main inbox th th' ps :
  w_thread w = Some th → th_phase th ≠ Th_exited → w_thread w' = Some th' → th_phase th' = Th_exited →
  w_receiver w' = w_receiver w → current_job (w_current w') = None →
  missing_deps (w_current w') = missing_deps (w_current w) → sent (w_sender w') = sent (w_sender w) ++ ps →
  ps = [] ∨ ps = [Item Wk_GetWork] → stream Reported (sent (w_sender w)) →
  inv (mkProcess w main inbox) → inv (mkProcess w' main inbox).
Proof.
  intros Ht Hph Ht' Hph' Hr Hj' Hm Hs Hps Hst.
  assert (stream Reported (sent (w_sender w')) ∧ ps = [] ∨
    stream Asking (sent (w_sender w')) ∧ ps = [Item Wk_GetWork]) as Hst'.
  { rewrite Hs. destruct Hps as [-> | ->]; [left; by rewrite app_nil_r|right; split; [by constructor|done]]. }
  assert (thread_stream w') as Hts.
  { unfold thread_stream. rewrite Ht', Hph'. destruct Hst' as [[? _]|[? _]]; by eapply stream_broken. }
  assert ((∀ k, tally (in_packet (asks_for k)) ps = 0) ∧ tally (in_packet is_getwork) ps ≤ 1) as [Hask Hgw].
  { destruct Hps as [-> | ->]; split; done || (intros; unfold tally; simpl; lia). }
  unfold inv. simpl. destruct main as [| |[]]; try done. intros [Hlo _]. split; [|done].
  destruct Hlo as [Hin Hwk Hgiv Hf Hgf Hjob Hi].
  assert (idle w = 0 ∧ missing_deps (w_current w) = ∅) as [Hidle Hmiss].
  { unfold job_state, idle, no_thread in *. rewrite Ht in *. destruct (current_job (w_current w)) as [[]|].
    - split; [done|]. destruct Hjob as (_ & _ & Hth). by destruct (decide _).
    - by destruct Hjob. }
  rewrite Hidle in Hwk. unfold asked_work, pending_work, asked_file, pending_file, misses in *.
  split; unfold asked_work, pending_work, asked_file, pending_file, idle, misses;
    rewrite ?Hr, ?Hj', ?Hm, ?Hs.
  - done.
  - rewrite tally_app. lia.
  - rewrite tally_app. lia.
  - intros k. rewrite tally_app, Hask. specialize (Hf k). lia.
  - intros k. rewrite tally_app. specialize (Hgf k). lia.
  - unfold job_state, no_thread. rewrite Hj', Hm, Ht'. done.
  - intros _. rewrite <-Hs. destruct Hst' as [[? ->]|[? _]]; [right|by left].
    split_and!; [done..|]. rewrite Hs, app_nil_r. lia.
Qed.

(** What a failing step has done: the thread panics then. *)
Definition failed (w w' : Worker) : Prop :=
  ∃ ps, view w' = view (sends ps w) ∧ answers ps ∧ broken (sent (w_sender w) ++ ps).

Lemma answers_nil : answers [].
Proof. done. Qed.

Lemma inv_view w w' main inbox : view w' = view w → inv (mkProcess w main inbox) → inv (mkProcess w' main inbox).
Proof.
  intros Hv. pose proof (thread_stream_view _ _ Hv) as Hts.
  unfold inv. simpl. destruct main as [| |[]]; try done. intros [Hlo ?]. split; [|by apply Hts].
  by eapply looping_view.
Qed.

Lemma phase_broken ph ps : phase_stream ph ps → broken ps.
Proof. destruct ph; simpl; eauto using stream_broken. Qed.

Lemma failed_same w w' th :
  w_thread w = Some th → phase_stream (th_phase th) (sent (w_sender w)) → view w' = view w → failed w w'.
Proof.
  intros Ht Hst Hv. exists []. rewrite sends_nil, app_nil_r. split_and!; [done|apply answers_nil|].
  by eapply phase_broken.
Qed.

Lemma inv_thread_step m w main inbox w' th :
  w_thread w = Some th → th_phase th ≠ Th_exited → inv (mkProcess w main inbox) →
  ends m (λ _ w', inv (mkProcess w' main inbox)) (failed w) w →
  thread_step m w = (Ret tt, w') → inv (mkProcess w' main inbox).
Proof.
  intros Ht Hph Hinv Hm. unfold ends in Hm. unfold thread_step.
  assert (∀ w1 e, failed w w1 → set_phase (Th_panicked e) w1 = (Ret tt, w') →
    inv (mkProcess w' main inbox)) as Hfail.
  { intros w1 e (ps & Hv & Hans & Hbr). apply view_same in Hv as [(Hs & Hr & Hj & Hmi) Hth]. simpl in *.
    unfold set_phase, modify. rewrite Hth, Ht. intros [= <-].
    eapply (inv_moved w _ _ _ (Th_panicked e) ps); [|done| |done|done|done].
    - split_and!; simpl; [|by rewrite ?Hr|by rewrite ?Hj|by rewrite ?Hmi|by rewrite Hs].
      exists th. by split.
    - intros th1 ?. by simplify_eq. }
  destruct (m w) as [[[]|e|e|] w1]; [by intros [= <-]|by apply Hfail|by apply Hfail|done].
Qed.

(** The thread exists and its stream is right. *)
Lemma inv_thread w main inbox th :
  inv (mkProcess w main inbox) → w_thread w = Some th →
  phase_stream (th_phase th) (sent (w_sender w)) ∨ (∀ w', inv (mkProcess w' main inbox)).
Proof.
  unfold inv, thread_stream. simpl. intros Hinv Ht. rewrite Ht in Hinv.
  destruct main as [| |[]]; try (by left); [left; apply Hinv|by right..].
Qed.

(** The steps of the thread, one by one. *)
Lemma ends_view {A} (m : M Worker A) w th :
  (∀ v, stable (λ w, view w = v) m) → w_thread w = Some th →
  phase_stream (th_phase th) (sent (w_sender w)) →
  ends m (λ _ w', view w' = view w) (failed w) w.
Proof.
  intros Hm Ht Hst. eapply ends_mono; [by apply (ends_stable (λ w', view w' = view w))|done|].
  intros w' Hv. by eapply failed_same.
Qed.

Section thread_steps.
Context (w : Worker) (main : MainPhase) (inbox : list WorkerServerMessage) (job : WorkerJob)
  (dir : option PathBuf).
Hypothesis Hinv : inv (mkProcess w main inbox).

Lemma ends_sandbox_ended index result ran units results outs :
  w_thread w = Some (mkJobThread job dir (Th_running units results outs)) →
  stream Asking (sent (w_sender w)) →
  ends (sandbox_ended index result ran) (λ _ w', inv (mkProcess w' main inbox)) (failed w) w.
Proof.
  intros Ht Hst. assert (failed w w) as Hf by (by eapply failed_same).
  apply ends_bind, ends_get. rewrite Ht. apply ends_bind, ends_lift; [intros exec _|done].
  apply ends_bind, ends_lift; [intros unit _|done]. destruct (decide _); [done|].
  apply ends_bind. eapply ends_mono; [by eapply ends_view; [apply stable_w_disk| |]| |done].
  intros [[r failed'] outs'] w1 Hv1. apply ends_bind.
  eapply ends_mono; [apply (ends_stable (λ w', view w' = view w)); [|done]| |].
  - destruct (_ && _); [apply stable_kill|apply stable_ret].
  - intros [] w2 Hv2. eapply (ends_set_phase _ []); [done|by rewrite sends_nil|].
    intros w' Hmoved. eapply inv_moved; [done|apply answers_nil| |done| |done].
    + intros th Hth. by simplify_eq.
    + by rewrite app_nil_r.
  - intros w2 Hv2. by eapply failed_same.
Qed.

Lemma ends_report units results outs :
  w_thread w = Some (mkJobThread job dir (Th_running units results outs)) →
  stream Asking (sent (w_sender w)) →
  ends report (λ _ w', inv (mkProcess w' main inbox)) (failed w) w.
Proof.
  intros Ht Hst. assert (∀ w', view w' = view w → failed w w') as Hf by (intros; by eapply failed_same).
  apply ends_bind, ends_get. rewrite Ht. apply ends_bind, ends_lift; [intros rs _|by apply Hf].
  apply ends_bind. eapply ends_mono; [by apply ends_w_send| |done]. intros [] w1 [-> _].
  eapply ends_set_phase; [done|done|]. intros w' Hmoved.
  eapply inv_moved; [done| | |done| |done]; [done|intros th Hth; by simplify_eq|by constructor].
Qed.

Lemma ends_asked outs :
  w_thread w = Some (mkJobThread job dir (Th_reporting outs)) →
  stream Reported (sent (w_sender w)) →
  ends receive_asked (λ _ w', inv (mkProcess w' main inbox)) (failed w) w.
Proof.
  intros Ht Hst. apply ends_bind, ends_get. rewrite Ht. destruct (w_asked w) as [files|].
  - apply ends_bind, ends_modify. eapply (ends_set_phase _ [] w); [done|by rewrite sends_nil|].
    intros w' Hmoved. eapply inv_moved; [done|apply answers_nil| |done| |done].
    + intros th Hth. by simplify_eq.
    + by rewrite app_nil_r.
  - apply ends_bind, ends_modify, ends_modify. simpl. rewrite Ht.
    eapply (inv_finished w _ main inbox _ _ []); try done; [simpl; by rewrite app_nil_r|by left].
Qed.

(** A file in the stream. *)
Definition file_packets (uuid : FileUuid) (key : FileStoreKey) (chunks : list (list byte)) :
    list (Packet WorkerClientMessage) :=
  Item (Wk_ProvideFile uuid key) :: (RawData <$> chunks) ++ [RawData []].

Lemma answers_file uuid key chunks : answers (file_packets uuid key chunks).
Proof. split; intros; unfold file_packets; by rewrite tally_cons, tally_app, tally_raw. Qed.

(** Once a file is announced it is sent whole or, when it cannot be read, not at all. *)
Lemma ends_content uuid key w1 (m : M (Channel WorkerClientMessage) unit) chunks :
  stream Reported (sent (w_sender w)) → view w1 = view (sends [Item (Wk_ProvideFile uuid key)] w) →
  channel_open (w_sender w) = true → Forall (λ b, b ≠ []) chunks →
  (∀ ch : Channel WorkerClientMessage, channel_open ch = true →
    m ch = (Ret tt, mkChannel (sent ch ++ (RawData <$> chunks) ++ [RawData []]) true)) →
  ends (on_w_sender m)
    (λ _ w', ∃ ps, view w' = view (sends ps w) ∧ answers ps ∧ stream Reported (sent (w_sender w) ++ ps))
    (failed w) w1.
Proof.
  intros Hst Hv Hopen Hne Hm. apply view_same in Hv as [(Hs & Hr & Hj & Hmi) Ht].
  unfold ends, on_w_sender, zoom. rewrite Hm by (by rewrite Hs).
  exists (file_packets uuid key chunks). split_and!; [|apply answers_file|by constructor].
  unfold view. simpl in *. rewrite Hs, Hr, Hj, Hmi, Ht. unfold sends, file_packets. simpl.
  by rewrite Hopen, <-app_assoc.
Qed.

Lemma announced_failed uuid key w1 :
  stream Reported (sent (w_sender w)) → view w1 = view (sends [Item (Wk_ProvideFile uuid key)] w) →
  failed w w1.
Proof.
  intros Hst Hv. exists [Item (Wk_ProvideFile uuid key)]. split_and!; [done|by split|].
  exists Reported, (sent (w_sender w)), [Item (Wk_ProvideFile uuid key)].
  split_and!; [done..|]. right. by exists uuid, key.
Qed.

Lemma ends_send_output uuid outs :
  stream Reported (sent (w_sender w)) →
  ends (send_output uuid outs)
    (λ _ w', ∃ ps, view w' = view (sends ps w) ∧ answers ps ∧ stream Reported (sent (w_sender w) ++ ps))
    (failed w) w.
Proof.
  intros Hst. assert (∀ w', view w' = view w → failed w w') as Hf.
  { intros w' Hv. exists []. rewrite sends_nil, app_nil_r.
    split_and!; [done|apply answers_nil|by eapply stream_broken]. }
  unfold send_output. destruct (out_keys outs !! uuid) as [key|].
  2: { exists []. by rewrite sends_nil, app_nil_r. }
  apply ends_bind. eapply ends_mono; [by apply ends_w_send| |done]. intros [] w1 [-> Hopen].
  set (w1 := sends _ w). assert (∀ w', view w' = view w1 → failed w w') as Hf1.
  { intros w' Hv. by eapply announced_failed. }
  apply ends_bind, ends_lift; [|by apply Hf1]. intros out _.
  assert (∀ (m : M Worker unit) Q ctx, ends m Q (failed w) w1 → ends (with_context ctx m) Q (failed w) w1) as Hctx.
  { intros m Q ctx. unfold ends, with_context. by destruct (m w1) as [[] ?]. }
  destruct out as [path|content]; apply Hctx.
  - unfold send_path. apply ends_bind. eapply ends_mono.
    + apply (ends_stable (λ w', view w' = view w1)); [by apply stable_zoom|done].
    + intros c w2 Hv2. eapply (ends_content _ _ w2 _ (file_blocks c)); [done|exact Hv2|done|apply file_blocks_nonempty|].
      intros ch Hch. by rewrite send_file_content_open, fmap_app.
    + apply Hf1.
  - eapply (ends_content _ _ w1 _ (data_chunks content)); [done|done|done|apply data_chunks_nonempty|].
    intros ch Hch. by apply send_data_open.
Qed.

Lemma ends_try_send m w1 E :
  ends (is_ok (on_w_sender (send m)))
    (λ _ w', ∃ ps, (ps = [] ∨ ps = [Item m]) ∧ view w' = view (sends ps w1)) E w1.
Proof.
  unfold ends, is_ok, on_w_sender, zoom, send, send_packet, mbind, M_bind, get_st.
  destruct (channel_open (w_sender w1)) eqn:Ho; simpl.
  - exists [Item m]. split; [by right|]. unfold sends. by rewrite Ho.
  - exists []. split; [by left|]. rewrite sends_nil. unfold view. by destruct w1 as [? []].
Qed.

Lemma ends_send files outs :
  w_thread w = Some (mkJobThread job dir (Th_sending files outs)) →
  stream Reported (sent (w_sender w)) →
  ends send_asked (λ _ w', inv (mkProcess w' main inbox)) (failed w) w.
Proof.
  intros Ht Hst. apply ends_bind, ends_get. rewrite Ht. destruct files as [|file files].
  - unfold job_completed. apply ends_bind, ends_get, ends_bind, ends_modify. rewrite Ht.
    set (w1 := with_w_current _ w). apply ends_bind.
    eapply ends_mono; [apply (ends_try_send _ _ (failed w))| |done].
    intros _ w2 (ps & Hps & Hv2). apply ends_bind.
    eapply (ends_mono _ (λ _ w', view w' = view w2) _ (λ _, False)); [| |done].
    + destruct dir; [|done]. unfold ends, or_warn, on_w_disk, zoom, chmod_dir, io_call.
      destruct (io_ok _); [destruct (decide _)|]; done.
    + intros [] w3 Hv3. rewrite Hv2 in Hv3. apply view_same in Hv3 as [(Hs3 & Hr3 & Hj3 & Hm3) Ht3].
      simpl in *. apply ends_modify. rewrite Ht3, Ht.
      by eapply (inv_finished w _ main inbox _ _ ps); try done; simpl; rewrite ?Hs3.
  - apply ends_bind. eapply ends_mono; [by apply ends_send_output| |done].
    intros [] w1 (ps & Hv & Hans & Hst'). eapply ends_set_phase; [done|done|]. intros w' Hmoved.
    eapply inv_moved; [done|done| |done| |done]; [intros th Hth; by simplify_eq|done].
Qed.
End thread_steps.

Lemma inv_controlled w w' main inbox th run ph ps :
  w_thread w = Some th → th_phase th = Th_controlled run → moved w w' ph ps → controlled_end ph ps →
  stream Asking (sent (w_sender w)) → inv (mkProcess w main inbox) → inv (mkProcess w' main inbox).
Proof.
  intros Ht Hph Hmoved Hend Hst. eapply inv_moved; [done|..].
  - destruct ph; simpl in Hend; try done; try (subst; by apply answers_nil).
    by destruct Hend as [results ->].
  - intros th1 Hth1. simplify_eq. unfold thread_ok. rewrite Hph. simpl. split; [done|]. by destruct ph.
  - intros ->. simpl in Hend. subst. by rewrite app_nil_r.
  - destruct ph; simpl in Hend; try done; subst; rewrite ?app_nil_r; try done; try by eapply stream_broken.
    destruct Hend as [results ->]. by constructor.
Qed.

(** *** Every step keeps the invariant *)
Lemma inv_turn w inbox r w' :
  inv (mkProcess w Main_looping inbox) → main_turn w = (r, w') → inv (after_turn r w' inbox).
Proof.
  intros [Hlo Hts] Hrun. pose proof (looping_turn w inbox Hlo Hts) as Hw. unfold wlp in Hw.
  rewrite Hrun in Hw. by destruct r as [[]| | |].
Qed.

Lemma inv_join w inbox r w' :
  inv (mkProcess w Main_waiting inbox) → thread_alive w = false → wait_sandbox w = (r, w') →
  inv (mkProcess w' (Main_ended r) inbox).
Proof.
  unfold inv, thread_stream, thread_alive, wait_sandbox, mbind, M_bind, get_st. simpl.
  destruct (w_thread w) as [th|] eqn:Ht; simpl.
  - destruct (th_phase th); try done; intros Hbr _ [= <- <-]; done.
  - intros Hbr _ [= <- <-]. by rewrite Ht.
Qed.

Lemma inv_server w main inbox m chunks :
  server_admissible (mkProcess w main inbox) m chunks → inv (mkProcess w main inbox) →
  inv (mkProcess (with_w_receiver (w_receiver w ++ message_packets m chunks) w) main (inbox ++ [m])).
Proof.
  intros Hadm. unfold inv. simpl. destruct main as [| |[]]; try done.
  intros [Hlo Hts]. split; [|done]. by apply looping_server.
Qed.

Lemma worker_step_inv p p' : process_step p p' → inv p → inv p'.
Proof.
  intros Hstep Hinv.
  assert (∀ w main inbox th w', inv (mkProcess w main inbox) → w_thread w = Some th →
    (phase_stream (th_phase th) (sent (w_sender w)) → inv (mkProcess w' main inbox)) →
    inv (mkProcess w' main inbox)) as Hth.
  { intros w main inbox th w' Hi Ht Hgo. destruct (inv_thread _ _ _ _ Hi Ht); auto. }
  destruct Hstep as [w main inbox m chunks Hadm|w main inbox|w inbox r w' Hal Hrun|w inbox r w' Hal Hrun
    |w main inbox job dir units results outs d index result ran w' Ht _ Hrun
    |w main inbox job dir units results outs w' Ht _ Hrun|w main inbox job dir outs w' Ht _ Hrun
    |w main inbox job dir files outs w' Ht Hrun|w main inbox w' Hc].
  - by apply inv_server.
  - revert Hinv. unfold inv. simpl. destruct main as [| |[]]; try done. intros [Hlo Hts].
    split; [|done]. by destruct Hlo.
  - by eapply inv_turn.
  - by eapply inv_join.
  - set (w1 := with_w_store _ w) in *.
    assert (inv (mkProcess w1 main inbox)) as Hinv1 by (by apply (inv_view w)).
    eapply (Hth w1); [done|exact Ht|]. intros Hst.
    by eapply (inv_thread_step _ w1); [exact Ht| | |eapply ends_sandbox_ended|].
  - eapply (Hth w); [done..|]. intros Hst.
    by eapply (inv_thread_step _ w); [exact Ht| | |eapply ends_report|].
  - eapply (Hth w); [done..|]. intros Hst.
    by eapply (inv_thread_step _ w); [exact Ht| | |eapply ends_asked|].
  - eapply (Hth w); [done..|]. intros Hst.
    by eapply (inv_thread_step _ w); [exact Ht| | |eapply ends_send|].
  - destruct (controlled_moved _ _ Hc) as (th & run & Ht & Hph & ph & ps & Hmoved & Hend).
    eapply (Hth w); [done..|]. rewrite Hph. intros Hst. by eapply inv_controlled.
Qed.

Lemma started_inv p : started p → inv p.
Proof.
  intros (st & path & w & Hrun & ->). injection Hrun as <-. split; [|by apply stream_broken with Asking; constructor].
  split; try done; [constructor|unfold given_work, tally; simpl; lia|].
  intros _. left. constructor.
Qed.

Lemma worker_reachable_inv p : reachable p → inv p.
Proof.
  intros (p0 & Hp0 & Hsteps). apply started_inv in Hp0. induction Hsteps; [done|].
  eauto using worker_step_inv.
Qed.
End correct.

(** ** The properties *)

(** C35: with a server that answers what it is asked, nothing unexpected arrives: when
    the next message is a job the worker has none (its assertion holds) and the
    thread of the previous one has ended, and when it is a file a job waits for that
    file and no thread runs. *)
Theorem worker_expects `{IterOrder} `{World} `{Host} `{BuildProfile} `{Blake3} `{UuidDisplay}
    `{!Bincode FileStoreIndex} {C : Controller} `{!ControllerLaws C} p m ps :
  worker_reachable server_admissible p → p_main p = Main_looping →
  w_receiver (p_worker p) = Item m :: ps →
  match m with
  | Ws_Work _ => current_job (w_current (p_worker p)) = None ∧
      missing_deps (w_current (p_worker p)) = ∅ ∧ no_thread (p_worker p)
  | Ws_ProvideFile key => ∃ job handles uuids,
      current_job (w_current (p_worker p)) = Some (job, handles) ∧ w_thread (p_worker p) = None ∧
      missing_deps (w_current (p_worker p)) !! key = Some uuids
  | _ => True
  end.
Proof.
  intros Hp Hmain Hr. apply worker_reachable_inv in Hp. unfold inv in Hp. rewrite Hmain in Hp.
  destruct Hp as [Hlo _], m; try done.
  - by destruct (work_expected _ _ _ _ Hr Hlo) as (? & ? & ? & _).
  - by eapply file_expected.
Qed.

(** C36: a job that the worker has is either with its thread (which has not ended, but
    for a job with a controller), and then each of its dependencies has a handle of
    the file with the key that the server gave, or it waits without a thread for files
    that are missing, each of which the worker has asked once more than the server has
    answered or the answer is on its way. *)
Theorem worker_job_ready `{IterOrder} `{World} `{Host} `{BuildProfile} `{Blake3} `{UuidDisplay}
    `{!Bincode FileStoreIndex} {C : Controller} `{!ControllerLaws C} p job handles :
  worker_reachable server_admissible p → p_main p = Main_looping →
  current_job (w_current (p_worker p)) = Some (job, handles) →
  (∃ th, w_thread (p_worker p) = Some th ∧ th_job th = job ∧
     (th_phase th = Th_exited → has_controller job) ∧
     ∀ f, f ∈ dependencies (job_group job) →
       ∃ h, handles !! f = Some h ∧ dep_keys job !! f = Some (handle_key h)) ∨
  w_thread (p_worker p) = None ∧ missing_deps (w_current (p_worker p)) ≠ ∅ ∧
    ∀ k, is_Some (missing_deps (w_current (p_worker p)) !! k) →
      asked_file k (p_worker p) + pending_file k (p_worker p) = given_file k (p_inbox p) + 1.
Proof.
  intros Hp Hmain Hj. apply worker_reachable_inv in Hp. unfold inv in Hp. rewrite Hmain in Hp.
  destruct Hp as [[_ _ _ Hf _ Hjob _] _]. unfold job_state in Hjob. rewrite Hj in Hjob.
  destruct Hjob as (_ & [Hh Hm Hall] & Hth). destruct (decide _) as [He|He]; [left|right].
  - destruct Hth as (th & Ht & Hjt & Hph). exists th. split_and!; [done|done| |].
    { intros Hex. revert Hph. unfold thread_ok. by rewrite Hex, Hjt. }
    intros f Hin.
    destruct (Hall f Hin) as [[h Hfh]|(k & fs & Hk & _)]; [exists h; auto|by rewrite He in Hk].
  - split_and!; [done..|]. intros k [fs Hk]. rewrite Hf. unfold misses. by rewrite Hk.
Qed.

(** C37: the two threads of the worker never mix their messages: what the worker sends
    is a sequence of turns, each one the request for work, the requests for files, the
    report of the job and then whole files, and only a thread that failed or that the
    end of the main thread left alone can have announced a file without sending it. *)
Theorem worker_stream_whole `{IterOrder} `{World} `{Host} `{BuildProfile} `{Blake3} `{UuidDisplay}
    `{!Bincode FileStoreIndex} {C : Controller} `{!ControllerLaws C} p :
  worker_reachable server_admissible p →
  match p_main p with
  | Main_ended (Panicked _) | Main_ended OutOfFuel => True
  | Main_looping =>
      broken (sent (w_sender (p_worker p))) ∧
      ((∀ th e, w_thread (p_worker p) = Some th → th_phase th ≠ Th_panicked e) →
       ∃ t, stream t (sent (w_sender (p_worker p))))
  | _ => broken (sent (w_sender (p_worker p)))
  end.
Proof.
  intros Hp. apply worker_reachable_inv in Hp. unfold inv in Hp.
  assert (thread_stream (p_worker p) → broken (sent (w_sender (p_worker p)))) as Hbr.
  { unfold thread_stream. destruct (w_thread _) as [th|]; [|done]. by destruct (th_phase th); eauto using stream_broken. }
  destruct (p_main p) as [| |[]]; auto. destruct Hp as [Hlo Hts]. split; [auto|]. intros Hnp.
  unfold thread_stream in Hts. pose proof (lo_idle _ _ Hlo) as Hi. unfold no_thread in Hi.
  destruct (w_thread (p_worker p)) as [th|] eqn:Ht.
  - destruct (th_phase th) eqn:Hph; simpl in *; eauto.
    + destruct Hi as [?|[? _]]; eauto.
    + by destruct (Hnp th e).
  - destruct Hi as [?|[? _]]; eauto.
Qed.

(** ** An example *)
Import StoreExample CacheExample.
Module WorkerExample.
#[export] Instance ex_host : Host :=
  {| env_var _ := None; which p := Some (RootDir :: Normal "bin" :: p); temp_name n := pretty n |}.

(** A worker that refuses the jobs with a controller. *)
#[export] Instance no_controller : Controller :=
  {| execute_controlled_job _ := bail "no controller"; controlled_step _ _ := False |}.
#[export] Instance no_controller_laws : ControllerLaws no_controller.
Proof. by split. Qed.
End WorkerExample.
Import WorkerExample.

Definition ex_job : WorkerJob := mkJob ex_group {[7%N := ex_key1]}.
Definition ex_w0 : Worker := (begin_work (Worker_new ex_store [RootDir; Normal "boxes"])).2.
Definition ex_receive (m : WorkerServerMessage) (chunks : list (list byte)) (w : Worker) : Worker :=
  with_w_receiver (w_receiver w ++ message_packets m chunks) w.
Definition ex_turn (w : Worker) : Worker := (main_turn w).2.
Definition ex_asking : Worker := ex_turn (ex_receive (Ws_Work ex_job) [] ex_w0).
Definition ex_running : Worker := ex_turn (ex_receive (Ws_ProvideFile ex_key1) [ex_content1] ex_asking).
Definition ex_ended : Worker :=
  (thread_step (sandbox_ended 0 (Sandbox_Success 0 None resources_default false) (Unit_Typst (mkTypst [] ∅ ∅)))
     ex_running).2.
Definition ex_reported : Worker := (thread_step report ex_ended).2.
Definition ex_asked : Worker := ex_turn (ex_receive (Ws_AskFiles [8%N]) [] ex_reported).
Definition ex_sending : Worker := (thread_step receive_asked ex_asked).2.
Definition ex_sent : Worker := (thread_step send_asked ex_sending).2.
Definition ex_done : Worker := (thread_step send_asked ex_sent).2.

Definition packet_code (p : Packet WorkerClientMessage) : nat :=
  match p with
  | Item Wk_GetWork => 1
  | Item (Wk_AskFile _) => 2
  | Item (Wk_WorkerDone _ _) => 3
  | Item (Wk_ProvideFile _ _) => 4
  | RawData _ => 5
  end.
Example ex_done_sent : packet_code <$> sent (w_sender ex_done) = [1; 2; 3; 4; 5; 1].
Proof. vm_compute. reflexivity. Qed.

Abbreviation ex_reach := (worker_reachable server_admissible).

Lemma reach_server w main inbox m chunks :
  ex_reach (mkProcess w main inbox) → server_admissible (mkProcess w main inbox) m chunks →
  ex_reach (mkProcess (ex_receive m chunks w) main (inbox ++ [m])).
Proof. intros (p0 & H0 & Hs) Hadm. exists p0. split; [done|]. eapply rtc_r; [done|by constructor]. Qed.

Lemma reach_turn w inbox :
  ex_reach (mkProcess w Main_looping inbox) → thread_alive w = false ∨ next_is_work w = false →
  (main_turn w).1 = Ret true → ex_reach (mkProcess (ex_turn w) Main_looping inbox).
Proof.
  intros (p0 & H0 & Hs) Hal Hrun. exists p0. split; [done|]. eapply rtc_r; [done|].
  change (mkProcess (ex_turn w) Main_looping inbox) with (after_turn (Ret true) (ex_turn w) inbox).
  apply Step_turn; [destruct Hal; congruence|]. by apply run_result.
Qed.

Lemma ex_job_ok : job_ok ex_job.
Proof.
  intros f Hf. assert (f = 7%N) as ->; [|by eexists].
  change (dependencies (job_group ex_job)) with [7%N] in Hf. by apply list_elem_of_singleton in Hf.
Qed.

Lemma ex_w0_reach : ex_reach (mkProcess ex_w0 Main_looping []).
Proof. eexists. split; [by exists ex_store, [RootDir; Normal "boxes"], ex_w0|apply rtc_refl]. Qed.

Lemma ex_offered_reach :
  ex_reach (mkProcess (ex_receive (Ws_Work ex_job) [] ex_w0) Main_looping [Ws_Work ex_job]).
Proof.
  apply (reach_server _ _ []); [apply ex_w0_reach|]. split; [split; [done|apply ex_job_ok]|].
  vm_compute. lia.
Qed.

Lemma ex_asking_reach : ex_reach (mkProcess ex_asking Main_looping [Ws_Work ex_job]).
Proof.
  apply reach_turn; [apply ex_offered_reach|by left|]. vm_compute. reflexivity.
Qed.

Lemma ex_running_reach :
  ex_reach (mkProcess ex_running Main_looping [Ws_Work ex_job; Ws_ProvideFile ex_key1]).
Proof.
  apply reach_turn; [|by right|vm_compute; reflexivity].
  apply (reach_server _ _ [Ws_Work ex_job]); [apply ex_asking_reach|].
  split; [by repeat constructor|]. vm_compute. lia.
Qed.

Lemma worker_expects_witness :
  current_job (w_current (ex_receive (Ws_Work ex_job) [] ex_w0)) = None ∧
  missing_deps (w_current (ex_receive (Ws_Work ex_job) [] ex_w0)) = ∅ ∧
  no_thread (ex_receive (Ws_Work ex_job) [] ex_w0).
Proof.
  exact (worker_expects _ (Ws_Work ex_job) [] ex_offered_reach eq_refl eq_refl).
Defined.

(** The handles of the job when it runs. *)
Definition ex_handles : gmap FileUuid FileStoreHandle :=
  match current_job (w_current ex_running) with Some (_, handles) => handles | None => ∅ end.
Definition ex_group_job : WorkerJob :=
  match current_job (w_current ex_running) with Some (job, _) => job | None => ex_job end.

Lemma ex_running_job : current_job (w_current ex_running) = Some (ex_group_job, ex_handles).
Proof.
  unfold ex_group_job, ex_handles.
  assert (bool_decide (is_Some (current_job (w_current ex_running))) = true) as Hs by by vm_compute.
  apply bool_decide_eq_true in Hs as [[job handles] ->]. done.
Qed.

Lemma worker_job_ready_witness :
  ∃ th, w_thread ex_running = Some th ∧ th_job th = ex_group_job ∧
    ∀ f, f ∈ dependencies (job_group ex_group_job) →
      ∃ h, ex_handles !! f = Some h ∧ dep_keys ex_group_job !! f = Some (handle_key h).
Proof.
  destruct (worker_job_ready _ ex_group_job ex_handles ex_running_reach eq_refl ex_running_job)
    as [(th & Ht & Hj & _ & Hall)|[Hno _]].
  - exists th. split; [exact Ht|]. split; [exact Hj|exact Hall].
  - exfalso. assert (bool_decide (is_Some (w_thread ex_running)) = true) as Hs by by vm_compute.
    apply bool_decide_eq_true in Hs as [th Hth]. simpl in Hno. congruence.
Defined.

Lemma worker_stream_whole_witness :
  broken (sent (w_sender ex_running)).
Proof. exact (proj1 (worker_stream_whole _ ex_running_reach)). Defined.
