(* ===== verification/WorkerResults.v ===== *)
(** * The results and the outputs of a job

    What the thread of a job reports does not depend on the order in which its
    sandboxes end, how much of an output is captured, and the way of the outputs to
    the store of the server. *)
From S2P Require Import Prelude Float64 RustOrd Paths StoreKey Disk Store Dag Cache CheckDag Scheduler.
From S2P Require Import Proto Executor WorkerManager Sandbox Worker.

(** ** Computations that only read the disk *)
Section reader.
Context `{World} (no_faults : ∀ n, io_ok n = true).

(** The result depends on the files only, and they stay as they are. *)
Definition reader {A} (m : M Disk A) : Prop := ∀ d,
  files (m d).2 = files d ∧ dirs (m d).2 = dirs d ∧
  ∀ d', files d' = files d → dirs d' = dirs d → (m d').1 = (m d).1.

Lemma reader_ret {A} (a : A) : reader (mret a).
Proof. by intros d. Qed.
Lemma reader_fail {A} (o : Outcome A) : reader (lift o).
Proof. by intros d. Qed.
Lemma reader_bind {A B} (m : M Disk A) (f : A → M Disk B) :
  reader m → (∀ a, reader (f a)) → reader (m ≫= f).
Proof.
  intros Hm Hf d. destruct (Hm d) as (Hfs & Hds & Hsame). unfold mbind, M_bind.
  destruct (m d) as [[a|e|e|] d1] eqn:Hd; simpl in *.
  2-4: split_and!; [done..|]; intros d' ? ?; specialize (Hsame d'); destruct (m d') as [[] ?]; naive_solver.
  destruct (Hf a d1) as (Hfs1 & Hds1 & Hsame1). split_and!; [congruence..|].
  intros d' Hfd Hdd. specialize (Hsame d' Hfd Hdd). destruct (Hm d') as (Hfs' & Hds' & _).
  destruct (m d') as [o d1']. simpl in *. subst o. apply Hsame1; congruence.
Qed.
Lemma reader_context {A} ctx (m : M Disk A) : reader m → reader (with_context ctx m).
Proof.
  intros Hm d. destruct (Hm d) as (Hfs & Hds & Hsame). unfold with_context.
  destruct (m d) as [o d1] eqn:Hd. split_and!; [done..|]. intros d' ? ?.
  specialize (Hsame d'). destruct (m d') as [o' d1']. simpl in *. rewrite Hsame by done. done.
Qed.
Lemma reader_ok {A} (m : M Disk A) : reader m → reader (ok m).
Proof.
  intros Hm d. destruct (Hm d) as (Hfs & Hds & Hsame). unfold ok.
  destruct (m d) as [[] d1] eqn:Hd; (split_and!; [done..|]); intros d' Hfd Hdd;
    specialize (Hsame d' Hfd Hdd); destruct (m d') as [[] d1']; simpl in *; congruence.
Qed.
Lemma reader_try {A} (m : M Disk A) : reader m → reader (try m).
Proof.
  intros Hm d. destruct (Hm d) as (Hfs & Hds & Hsame). unfold try.
  destruct (m d) as [[] d1] eqn:Hd; (split_and!; [done..|]); intros d' Hfd Hdd;
    specialize (Hsame d' Hfd Hdd); destruct (m d') as [[] d1']; simpl in *; congruence.
Qed.
Lemma reader_io {A} (f : Disk → option A) :
  (∀ d d', files d' = files d → dirs d' = dirs d → f d' = f d) →
  reader (io_call (λ d, a ← f d; Some (a, d))).
Proof.
  intros Hf d. unfold io_call. rewrite no_faults.
  assert (∀ d', files d' = files d → dirs d' = dirs d → f (advance d') = f (advance d)) as Hadv.
  { intros d' ? ?. by apply Hf. }
  destruct (f (advance d)) as [a|] eqn:Hd; simpl.
  - split_and!; [done..|]. intros d' ? ?. rewrite no_faults, Hadv by done. done.
  - split_and!; [done..|]. intros d' ? ?. rewrite no_faults, Hadv by done. done.
Qed.

Lemma reader_read_file p : reader (read_file p).
Proof.
  intros d. unfold read_file, io_call. rewrite no_faults. simpl. destruct (files d !! p) eqn:Hp; simpl.
  - split_and!; [done..|]. intros d' Hf _. rewrite no_faults. simpl. by rewrite Hf, Hp.
  - split_and!; [done..|]. intros d' Hf _. rewrite no_faults. simpl. by rewrite Hf, Hp.
Qed.

Lemma reader_exists p : reader (path_exists p).
Proof.
  intros d. unfold path_exists, is_ok, io_call. rewrite no_faults. simpl.
  destruct (decide _) as [He|He]; (split_and!; [done..|]); intros d' Hf Hd;
    rewrite no_faults; simpl; [rewrite decide_True|rewrite decide_False]; try done; by rewrite Hf, Hd.
Qed.
End reader.

Create HintDb reader.
#[export] Hint Resolve reader_ret reader_fail reader_bind reader_context reader_ok reader_try
  reader_read_file reader_exists : reader.

(** ** How much is captured *)
Section capture.
Context `{IterOrder} `{World} `{Host} `{BuildProfile} `{Blake3}.
Context (no_faults : ∀ n, io_ok n = true).

(** The number of blocks of 1024 bytes that reach a limit. *)
Definition blocks (limit : N) : nat := N.to_nat ((limit + 1023) / 1024).

Definition capture_end (size_limit : option N) (k : nat) (rest : list byte) : list byte :=
  match size_limit with
  | Some limit => take (1024 * (blocks limit - k)) rest
  | None => rest
  end.

Lemma below_blocks k limit : below (1024 * k) (Some limit) = bool_decide (k < blocks limit).
Proof.
  unfold below, blocks. apply eq_true_iff_eq. rewrite N.ltb_lt, bool_decide_eq_true.
  pose proof (N.div_mod (limit + 1023) 1024 ltac:(lia)). pose proof (N.mod_lt (limit + 1023) 1024 ltac:(lia)).
  generalize dependent ((limit + 1023) / 1024)%N. generalize dependent ((limit + 1023) mod 1024)%N.
  intros r Hr q Hq. lia.
Qed.

Lemma capture_loop_end fuel size_limit result d :
  fuel ≠ 0 → ∃ d', capture_loop fuel size_limit [] result d = (Ret result, d') ∧
    files d' = files d ∧ dirs d' = dirs d.
Proof.
  intros Hf. destruct fuel as [|fuel]; [done|]. simpl. destruct (below _ _); [|by exists d].
  unfold mbind, M_bind, io_call. rewrite no_faults. simpl. by eexists.
Qed.

Lemma capture_loop_spec fuel size_limit k rest result d :
  length rest < fuel → length result = 1024 * k →
  ∃ d', capture_loop fuel size_limit rest result d =
    (Ret (result ++ capture_end size_limit k rest), d') ∧ files d' = files d ∧ dirs d' = dirs d.
Proof.
  revert k rest result d. induction fuel as [|fuel IH]; intros k rest result d Hlen Hres; [lia|].
  destruct rest as [|b rest].
  { assert (capture_end size_limit k [] = []) as -> by (unfold capture_end; destruct size_limit; by rewrite ?take_nil).
    rewrite app_nil_r. by apply capture_loop_end. }
  remember (b :: rest) as r eqn:Hr. assert (length r = S (length rest)) as Hlr by by subst.
  cbn [capture_loop]. rewrite Hres.
  assert (below (1024 * k) size_limit = false → capture_end size_limit k r = []) as Hstop.
  { destruct size_limit as [limit|]; [|done]. rewrite below_blocks, bool_decide_eq_false. intros Hk.
    unfold capture_end. by replace (blocks limit - k) with 0 by lia. }
  destruct (below _ _) eqn:Hb; [|rewrite Hstop, app_nil_r by done; by exists d].
  unfold mbind, M_bind, io_call. rewrite no_faults. cbn [advance].
  destruct (decide (take 1024 r = [])) as [He|_]; [by subst|].
  destruct (decide (1024 ≤ length r)) as [Hbig|Hsmall].
  - destruct (IH (S k) (drop 1024 r) (result ++ take 1024 r) (advance d)) as (d' & -> & Hf & Hd).
    + rewrite length_drop. lia.
    + rewrite length_app, length_take. lia.
    + exists d'. split_and!; [|done..]. do 2 f_equal. rewrite <-app_assoc. f_equal.
      unfold capture_end in *. destruct size_limit as [limit|]; [|apply take_drop].
      rewrite below_blocks in Hb. apply bool_decide_eq_true in Hb.
      replace (1024 * (blocks limit - k)) with (1024 + 1024 * (blocks limit - S k)) by lia.
      by rewrite take_take_drop.
  - rewrite (take_ge r), (drop_ge r) by lia.
    destruct (capture_loop_end fuel size_limit (result ++ r) (advance d)) as (d' & -> & Hf & Hd); [lia|].
    exists d'. split_and!; [|done..]. do 3 f_equal. unfold capture_end. destruct size_limit as [limit|]; [|done].
    rewrite below_blocks in Hb. apply bool_decide_eq_true in Hb. rewrite take_ge; [done|lia].
Qed.

(** What a stream of a file gives. *)
Definition captured_part (size_limit : option N) (c : list byte) : list byte := capture_end size_limit 0 c.

Lemma capture_file path file size_limit f d :
  files d !! path = Some f →
  ∃ d', capture_stream (OnDisk path) (Output_Capture file size_limit) d =
    (Ret (Some (captured_part size_limit (content f))), d') ∧ files d' = files d ∧ dirs d' = dirs d.
Proof.
  intros Hf. assert (read_file path d = (Ret (content f), advance d)) as Hread.
  { unfold read_file, io_call. rewrite no_faults. simpl. by rewrite Hf. }
  destruct (capture_loop_spec (S (length (content f))) size_limit 0 (content f) [] (advance d))
    as (d' & Hrun & Hfs & Hds); [lia|done|].
  exists d'. unfold capture_stream, mbind, M_bind. rewrite Hread. cbv beta iota. by rewrite Hrun.
Qed.

Lemma reader_capture out behaviour : reader (capture_stream out behaviour).
Proof.
  destruct behaviour as [file size_limit|path| |]; [|by intros d..].
  destruct out as [path|c]; [|by intros d]. intros d.
  destruct (files d !! path) as [f|] eqn:Hf.
  - destruct (capture_file path file size_limit f d Hf) as (d1 & Hrun & Hfs & Hds). rewrite Hrun.
    split_and!; [done..|]. intros d' Hfd _. rewrite <-Hfd in Hf.
    destruct (capture_file path file size_limit f d' Hf) as (d2 & Hrun2 & _). by rewrite Hrun2.
  - unfold capture_stream, read_file, mbind, M_bind, io_call. rewrite no_faults. simpl. rewrite Hf.
    split_and!; [done..|]. intros d' Hfd _. rewrite no_faults. simpl. by rewrite Hfd, Hf.
Qed.
End capture.

(** C38: when no call of the system fails [capture_stream] gives the beginning of the
    stream: all of it without a limit or when it is shorter than the limit, at least
    as much as the limit, and less than 1024 bytes more. *)
Theorem capture_stream_bounds `{IterOrder} `{World} `{Host} `{BuildProfile} `{Blake3}
    path file size_limit f d :
  (∀ n, io_ok n = true) → files d !! path = Some f →
  ∃ r d', capture_stream (OnDisk path) (Output_Capture file size_limit) d = (Ret (Some r), d') ∧
    r `prefix_of` content f ∧
    match size_limit with
    | None => r = content f
    | Some limit => (N.of_nat (length r) < limit + 1024)%N ∧
        ((N.of_nat (length r) < limit)%N → r = content f)
    end.
Proof.
  intros Hio Hf. destruct (capture_file Hio path file size_limit f d Hf) as (d' & Hrun & _).
  eexists _, d'. split; [exact Hrun|]. unfold captured_part, capture_end.
  destruct size_limit as [limit|]; [|by split]. rewrite Nat.sub_0_r. split; [apply prefix_take|].
  assert ((N.of_nat (1024 * blocks limit) < limit + 1024)%N ∧ (limit ≤ N.of_nat (1024 * blocks limit))%N) as [Hup Hlow].
  { unfold blocks. pose proof (N.div_mod (limit + 1023) 1024 ltac:(lia)).
    pose proof (N.mod_lt (limit + 1023) 1024 ltac:(lia)).
    generalize dependent ((limit + 1023) / 1024)%N. generalize dependent ((limit + 1023) mod 1024)%N.
    intros r Hr q Hq. lia. }
  rewrite length_take. split; [lia|]. intros Hlt. apply take_ge. lia.
Qed.

(** ** The order of the sandboxes *)

(** The end of a sandbox: its index, its result and its unit after the run. *)
Abbreviation Ending := (nat * SandboxResult * ExecutionUnit)%type.
Section order.
Context `{IterOrder} `{World} `{Host} `{BuildProfile} `{Blake3} `{UuidDisplay} `{!Bincode FileStoreIndex}.
Context (no_faults : ∀ n, io_ok n = true).

(** No call fails for ever: the computation gives a result. *)
Definition returns {A} (m : M Disk A) : Prop := ∀ d, ∃ a, (m d).1 = Ret a.

Lemma total_bind {A B} (m : M Disk A) (f : A → M Disk B) : returns m → (∀ a, returns (f a)) → returns (m ≫= f).
Proof.
  intros Hm Hf d. destruct (Hm d) as [a Ha]. unfold mbind, M_bind. destruct (m d) as [o d1]. simpl in Ha.
  subst o. apply Hf.
Qed.
Lemma total_ret {A} (a : A) : returns (mret a).
Proof. intros d. by exists a. Qed.

Lemma total_capture out behaviour : returns (try (capture_stream out behaviour)).
Proof.
  intros d. destruct behaviour as [file size_limit|path| |]; [|by eexists..].
  destruct out as [path|c]; [|by eexists]. destruct (files d !! path) as [f|] eqn:Hf.
  - destruct (capture_file no_faults path file size_limit f d Hf) as (d1 & Hrun & _).
    unfold try. rewrite Hrun. by eexists.
  - unfold try, capture_stream, read_file, mbind, M_bind, io_call. rewrite no_faults. simpl. rewrite Hf. by eexists.
Qed.

Lemma total_add_file file out os : returns (add_file file out os).
Proof.
  intros d. destruct os as [outs st], out as [path|c]; simpl; [|by eexists].
  apply total_bind.
  - intros d'. unfold path_exists, is_ok. destruct (io_call _ d') as [[] ?] eqn:Hio; try by eexists.
    + unfold io_call in Hio. rewrite no_faults in Hio. by destruct (decide _).
    + unfold io_call in Hio. rewrite no_faults in Hio. by destruct (decide _).
  - intros [|]; [|apply total_ret]. apply total_bind; [|intros [|]; apply total_ret].
    intros d'. unfold ok, from_file, mbind, M_bind, with_context, read_file, io_call. rewrite no_faults. simpl.
    destruct (files d' !! path); by eexists.
Qed.

Lemma total_add_files l os : returns (add_files l os).
Proof.
  revert os. induction l as [|[file out] l IH]; intros os; simpl; [apply total_ret|].
  apply total_bind; [apply total_add_file|apply IH].
Qed.

Lemma total_compute exec result unit : returns (compute_execution_result exec result unit).
Proof.
  destruct result; simpl; [|apply total_ret].
  apply total_bind; [apply total_capture|]. intros stdout.
  apply total_bind; [apply total_capture|]. intros stderr. apply total_ret.
Qed.

Lemma total_ended exec result unit outs : returns (execution_ended exec result unit outs).
Proof.
  apply total_bind; [apply total_compute|]. intros r. apply total_bind; [apply total_add_files|].
  intros [o st]. apply total_ret.
Qed.

Lemma reader_add_file file out os : reader (add_file file out os).
Proof.
  destruct os as [outs st], out as [path|c]; simpl; [|apply reader_ret].
  apply reader_bind; [by apply reader_exists|]. intros [|]; [|apply reader_ret].
  apply reader_bind; [|intros [|]; apply reader_ret]. apply reader_ok, reader_bind; [|intros; apply reader_ret].
  by apply reader_context, reader_read_file.
Qed.

Lemma reader_add_files l os : reader (add_files l os).
Proof.
  revert os. induction l as [|[file out] l IH]; intros os; simpl; [apply reader_ret|].
  apply reader_bind; [apply reader_add_file|apply IH].
Qed.

Lemma reader_compute exec result unit : reader (compute_execution_result exec result unit).
Proof.
  destruct result; simpl; [|apply reader_ret].
  apply reader_bind; [by apply reader_try, reader_capture|]. intros stdout.
  apply reader_bind; [by apply reader_try, reader_capture|]. intros stderr. apply reader_ret.
Qed.

Lemma reader_ended exec result unit outs : reader (execution_ended exec result unit outs).
Proof.
  apply reader_bind; [apply reader_compute|]. intros r. apply reader_bind; [apply reader_add_files|].
  intros [o st]. apply reader_ret.
Qed.

(** The files of an execution are added to the ones of the other executions. *)
Definition join_outputs (o base : Outputs) : Outputs :=
  mkOutputs (out_keys o ∪ out_keys base) (out_paths o ∪ out_paths base).

Definition over (base : Outputs) (os : Outputs * ExecutionStatus) : Outputs * ExecutionStatus :=
  (join_outputs os.1 base, os.2).

Lemma run_bind {S A B} (m : M S A) (f : A → M S B) s :
  (m ≫= f) s = match m s with
               | (Ret a, s) => f a s
               | (Fail e, s) => (Fail e, s)
               | (Panicked e, s) => (Panicked e, s)
               | (OutOfFuel, s) => (OutOfFuel, s)
               end.
Proof. done. Qed.

Lemma add_file_over base file out os d :
  add_file file out (over base os) d =
    (let '(r, d') := add_file file out os d in (os ← r; Ret (over base os), d')).
Proof.
  assert (∀ key, join_outputs (mkOutputs (<[file := key]> (out_keys os.1)) (<[file := out]> (out_paths os.1))) base =
    mkOutputs (<[file := key]> (out_keys (join_outputs os.1 base)))
      (<[file := out]> (out_paths (join_outputs os.1 base)))) as Hadd.
  { intros key. unfold join_outputs. simpl. by rewrite !insert_union_l. }
  destruct os as [outs st], out as [path|c]; simpl in *; [|unfold mret, M_ret, over; simpl; by rewrite Hadd].
  rewrite !(run_bind (path_exists path)). destruct (path_exists path d) as [[[|]| | |] d1]; try done.
  - rewrite !(run_bind (ok _)). destruct (ok (from_file path) d1) as [[[key|]| | |] d2]; try done.
    unfold mret, M_ret, over. simpl. by rewrite Hadd.
  - unfold mret, M_ret, over, join_outputs. simpl. by rewrite !insert_union_l.
Qed.

Lemma add_files_over base l os d :
  add_files l (over base os) d =
    (let '(r, d') := add_files l os d in (os ← r; Ret (over base os), d')).
Proof.
  revert os d. induction l as [|[file out] l IH]; intros os d; [done|].
  cbn [add_files]. rewrite !run_bind, add_file_over.
  destruct (add_file file out os d) as [[os'| | |] d1]; [apply IH|done..].
Qed.

Lemma ended_over exec result unit outs d :
  execution_ended exec result unit outs d =
    (let '(x, d') := execution_ended exec result unit no_outputs d in
     (x ← x; Ret (x.1, join_outputs x.2 outs), d')).
Proof.
  unfold execution_ended. rewrite !run_bind.
  destruct (compute_execution_result exec result unit d) as [[r| | |] d1]; try done.
  rewrite !run_bind. unfold get_result_outputs.
  assert ((outs, status r) = over outs (no_outputs, status r)) as ->.
  { unfold over, join_outputs. simpl. rewrite !(left_id_L ∅ (∪)). by destruct outs. }
  rewrite add_files_over.
  by destruct (add_files (result_files exec unit) (no_outputs, status r) d1) as [[[o st]| | |] d2].
Qed.

Definition run_ended (l : list Ending) : M Worker unit := for_each l (λ c, sandbox_ended c.1.1 c.1.2 c.2).

(** What an end gives, on its own. *)
Definition ending (d : Disk) (job : WorkerJob) (units : list ExecutionUnit) (c : Ending) :
    ExecutionResult * bool * Outputs :=
  let '(i, res, ran) := c in
  match executions (job_group job) !! i, units !! i with
  | Some exec, Some unit =>
      from_ret (mkResult Success false false resources_default None None, false, no_outputs)
        (execution_ended exec res
          (if bool_decide (length (executions (job_group job)) = 1) then ran else unit) no_outputs d).1
  | _, _ => (mkResult Success false false resources_default None None, false, no_outputs)
  end.

Definition same_files (d d' : Disk) : Prop := files d' = files d ∧ dirs d' = dirs d.

Lemma ending_same d d' job units c : same_files d d' → ending d' job units c = ending d job units c.
Proof.
  intros [Hf Hd]. destruct c as [[i res] ran]. unfold ending.
  destruct (executions _ !! i) as [exec|]; [|done]. destruct (units !! i) as [unit|]; [|done].
  destruct (reader_ended exec res (if bool_decide (length (executions (job_group job)) = 1) then ran else unit)
    no_outputs d) as (_ & _ & Hsame). by rewrite (Hsame d').
Qed.

Lemma sandbox_ended_run w job dir units results outs i res ran exec unit :
  w_thread w = Some (mkJobThread job dir (Th_running units results outs)) →
  executions (job_group job) !! i = Some exec → units !! i = Some unit → results !! i = Some None →
  let e := ending (disk (w_store w)) job units (i, res, ran) in
  ∃ w', sandbox_ended i res ran w = (Ret tt, w') ∧
    w_thread w' = Some (mkJobThread job dir
      (Th_running units (<[i := Some e.1.1]> results) (join_outputs e.2 outs))) ∧
    same_files (disk (w_store w)) (disk (w_store w')) ∧ w_sender w' = w_sender w.
Proof.
  intros Ht He Hu Hr. unfold ending. rewrite He, Hu. simpl. unfold sandbox_ended. rewrite run_bind. simpl.
  rewrite Ht, run_bind, He. simpl. rewrite run_bind, Hu. simpl. rewrite Hr. simpl.
  destruct (decide (is_Some (@None ExecutionResult))) as [[? ?]|_]; [done|].
  set (u := if bool_decide _ then ran else unit). rewrite run_bind.
  unfold on_w_disk, zoom. rewrite ended_over.
  destruct (total_ended exec res u no_outputs (disk (w_store w))) as [x Hx].
  destruct (reader_ended exec res u no_outputs (disk (w_store w))) as (Hf & Hd & _).
  destruct (execution_ended exec res u no_outputs (disk (w_store w))) as [o d1]. simpl in *. subst o. simpl.
  destruct x as [[r failed] o]. simpl. rewrite run_bind.
  set (w1 := with_w_store _ w). set (kill := if _ && _ then _ else _).
  assert (∃ w2, kill w1 = (Ret tt, w2) ∧ w_thread w2 = w_thread w ∧ w_store w2 = w_store w1 ∧
    w_sender w2 = w_sender w) as (w2 & -> & Ht2 & Hs2 & Hc2).
  { unfold kill. destruct (_ && _); by eexists. }
  unfold set_phase, modify. rewrite Ht2, Ht. eexists. split; [done|]. split; [done|].
  unfold same_files. simpl. by rewrite Hs2.
Qed.

(** The results and the outputs after some sandboxes have ended. *)
Definition final_results (f : Ending → ExecutionResult) (l : list Ending)
    (results : list (option ExecutionResult)) : list (option ExecutionResult) :=
  foldl (λ rs c, <[c.1.1 := Some (f c)]> rs) results l.
Definition final_outputs (f : Ending → Outputs) (l : list Ending) (outs : Outputs) : Outputs :=
  foldl (λ o c, join_outputs (f c) o) outs l.

Lemma final_results_ext f g l results :
  (∀ c, f c = g c) → final_results f l results = final_results g l results.
Proof.
  intros Hfg. unfold final_results. revert results. induction l as [|c l IH]; intros rs; [done|].
  simpl. by rewrite Hfg.
Qed.
Lemma final_outputs_ext f g l outs : (∀ c, f c = g c) → final_outputs f l outs = final_outputs g l outs.
Proof.
  intros Hfg. unfold final_outputs. revert outs. induction l as [|c l IH]; intros os; [done|].
  simpl. by rewrite Hfg.
Qed.

Lemma run_ended_spec l w job dir units results outs :
  w_thread w = Some (mkJobThread job dir (Th_running units results outs)) →
  NoDup (l.*1.*1) → (∀ i, i ∈ l.*1.*1 → results !! i = Some None ∧
    is_Some (executions (job_group job) !! i) ∧ is_Some (units !! i)) →
  let f := ending (disk (w_store w)) job units in
  ∃ w', run_ended l w = (Ret tt, w') ∧
    w_thread w' = Some (mkJobThread job dir
      (Th_running units (final_results (λ c, (f c).1.1) l results) (final_outputs (λ c, (f c).2) l outs))) ∧
    w_sender w' = w_sender w.
Proof.
  revert w results outs. induction l as [|[[i res] ran] l IH]; intros w results outs Ht Hnd Hl.
  { by exists w. }
  simpl in Hnd. apply NoDup_cons in Hnd as [Hi Hnd].
  destruct (Hl i) as (Hr & [exec He] & [unit Hu]); [left|].
  destruct (sandbox_ended_run w job dir units results outs i res ran exec unit Ht He Hu Hr)
    as (w1 & Hrun & Ht1 & Hsame & Hc1).
  destruct (IH w1 _ _ Ht1 Hnd) as (w' & Hrun' & Ht' & Hc').
  { intros j Hj. destruct (Hl j) as (Hrj & ? & ?); [by right|]. split_and!; [|done..].
    rewrite list_lookup_insert_ne; [done|]. by intros ->. }
  exists w'. split_and!; [| |congruence].
  - unfold run_ended. cbn [for_each]. rewrite run_bind. simpl. by rewrite Hrun.
  - cbv zeta in Ht'. set (f := ending (disk (w_store w)) job units).
    rewrite (final_results_ext _ (λ c, (f c).1.1)) in Ht'
      by (intros c; by rewrite (ending_same _ _ _ _ _ Hsame)).
    rewrite (final_outputs_ext _ (λ c, (f c).2)) in Ht'
      by (intros c; by rewrite (ending_same _ _ _ _ _ Hsame)).
    exact Ht'.
Qed.

(** The result of an execution is at its place. *)
Lemma final_results_other f l results i :
  i ∉ l.*1.*1 → final_results f l results !! i = results !! i.
Proof.
  unfold final_results. revert results. induction l as [|c l IH]; intros rs Hi; [done|]. simpl in *.
  apply not_elem_of_cons in Hi as [Hne Hi]. rewrite IH by done. by apply list_lookup_insert_ne.
Qed.

Lemma final_results_length f l results : length (final_results f l results) = length results.
Proof.
  unfold final_results. revert results. induction l as [|c l IH]; intros rs; [done|]. simpl.
  rewrite IH. apply length_insert.
Qed.

Lemma final_results_in f l results c :
  NoDup (l.*1.*1) → (∀ i, i ∈ l.*1.*1 → i < length results) → c ∈ l →
  final_results f l results !! c.1.1 = Some (Some (f c)).
Proof.
  revert results. induction l as [|c' l IH]; intros rs Hnd Hlt Hc; [by apply not_elem_of_nil in Hc|].
  simpl in Hnd. apply NoDup_cons in Hnd as [Hni Hnd].
  change (final_results f (c' :: l) rs) with (final_results f l (<[c'.1.1 := Some (f c')]> rs)).
  apply elem_of_cons in Hc as [->|Hc].
  - rewrite final_results_other by done. apply list_lookup_insert_eq, Hlt. by left.
  - apply IH; [done| |done]. intros i Hi. rewrite length_insert. apply Hlt. by right.
Qed.

Lemma final_outputs_in f l outs file key :
  out_keys (final_outputs f l outs) !! file = Some key →
  (∃ c, c ∈ l ∧ out_keys (f c) !! file = Some key) ∨ out_keys outs !! file = Some key.
Proof.
  unfold final_outputs. revert outs. induction l as [|c l IH]; intros outs Hf; [by right|]. simpl in Hf.
  apply IH in Hf as [(c' & Hc' & Hf)|Hf].
  - left. exists c'. split; [by right|done].
  - simpl in Hf. apply lookup_union_Some_raw in Hf as [Hf|[_ Hf]]; [left|by right].
    exists c. split; [left|done].
Qed.

Lemma final_outputs_keeps f l outs file key :
  (∀ c, c ∈ l → out_keys (f c) !! file = None) → out_keys outs !! file = Some key →
  out_keys (final_outputs f l outs) !! file = Some key.
Proof.
  unfold final_outputs. revert outs. induction l as [|c l IH]; intros outs Hno Hf; [done|]. simpl.
  apply IH; [intros c' Hc'; apply Hno; by right|]. simpl. rewrite lookup_union_r; [done|]. apply Hno. left.
Qed.

Lemma final_outputs_has f l outs c file key :
  NoDup l → c ∈ l → out_keys (f c) !! file = Some key →
  (∀ c', c' ∈ l → is_Some (out_keys (f c') !! file) → c' = c) →
  out_keys (final_outputs f l outs) !! file = Some key.
Proof.
  revert outs. induction l as [|x l IH]; intros outs Hnd Hc Hk Huniq; [by apply not_elem_of_nil in Hc|].
  apply NoDup_cons in Hnd as [Hx Hnd]. change (final_outputs f (x :: l) outs) with
    (final_outputs f l (join_outputs (f x) outs)).
  apply elem_of_cons in Hc as [->|Hc].
  - apply final_outputs_keeps; [|simpl; by apply lookup_union_Some_l]. intros c' Hc'.
    apply eq_None_not_Some. intros Hs. apply Huniq in Hs as ->; [done|by right].
  - apply IH; [done..|]. intros c' Hc' Hs. apply Huniq; [by right|done].
Qed.

Lemma add_files_keys l os d os' file :
  (add_files l os d).1 = Ret os' → is_Some (out_keys os'.1 !! file) →
  file ∈ l.*1 ∨ is_Some (out_keys os.1 !! file).
Proof.
  revert os d. induction l as [|[f out] l IH]; intros os d; [intros [= <-]; by right|].
  cbn [add_files]. rewrite run_bind. destruct (add_file f out os d) as [[os1| | |] d1] eqn:Hadd; try done.
  intros Hrun Hf. destruct (IH _ _ Hrun Hf) as [Hin|Hin]; [left; by right|].
  assert (is_Some (out_keys os1.1 !! file) → f = file ∨ is_Some (out_keys os.1 !! file)) as Hone.
  { clear -Hadd. destruct os as [outs st], out as [path|c]; simpl in Hadd.
    - rewrite run_bind in Hadd. destruct (path_exists path d) as [[[|]| | |] d2]; try done.
      + rewrite run_bind in Hadd. destruct (ok (from_file path) d2) as [[[key|]| | |] d3]; try done;
          injection Hadd as <- <-; simpl; [rewrite lookup_insert_is_Some|]; tauto.
      + injection Hadd as <- <-. simpl. rewrite lookup_insert_is_Some. tauto.
    - injection Hadd as <- <-. simpl. rewrite lookup_insert_is_Some. tauto. }
  destruct (Hone Hin) as [->|?]; [left; left|by right].
Qed.

Lemma result_files_outputs exec unit file :
  file ∈ (result_files exec unit).*1 → file ∈ execution_outputs exec.
Proof.
  unfold result_files, execution_outputs. rewrite !fmap_app, !elem_of_app. intros [Hf|[Hf|Hf]].
  - left. by destruct (exec_stdout exec).
  - right. left. by destruct (exec_stderr exec).
  - right. right. apply list_elem_of_fmap in Hf as ([f out] & -> & Hf).
    apply list_elem_of_fmap in Hf as ([path fi] & [= -> ->] & Hf). apply list_elem_of_fmap.
    exists fi. split; [done|]. apply elem_of_values_iter. exists path. by apply elem_of_map_iter.
Qed.

Lemma ending_keys d job units c file :
  is_Some (out_keys (ending d job units c).2 !! file) →
  ∃ exec, executions (job_group job) !! c.1.1 = Some exec ∧ file ∈ execution_outputs exec.
Proof.
  destruct c as [[i res] ran]. unfold ending. simpl.
  assert (¬ is_Some ((∅ : gmap FileUuid FileStoreKey) !! file)) as Hemp by (rewrite lookup_empty; by intros [? ?]).
  destruct (executions _ !! i) as [exec|]; [|done]. destruct (units !! i) as [unit|]; [|done].
  set (u := if bool_decide _ then ran else unit). intros Hf. exists exec. split; [done|].
  destruct (total_ended exec res u no_outputs d) as [x Hx]. rewrite Hx in Hf. simpl in Hf.
  revert Hx. unfold execution_ended. rewrite run_bind.
  destruct (compute_execution_result exec res u d) as [[r| | |] d1]; try done.
  rewrite run_bind. unfold get_result_outputs.
  destruct (add_files _ _ d1) as [[[o st]| | |] d2] eqn:Hadd; try done. intros [= <-]. simpl in Hf.
  destruct (add_files_keys (result_files exec u) (no_outputs, status r) d1 (o, st) file) as [Hin|Hin];
    [by rewrite Hadd|done|by eapply result_files_outputs|done].
Qed.

Lemma NoDup_bind_disjoint {A B} (f : A → list B) l i j x y b :
  NoDup (l ≫= f) → l !! i = Some x → l !! j = Some y → b ∈ f x → b ∈ f y → i = j.
Proof.
  revert i j. induction l as [|z l IH]; intros i j; [done|]. simpl. rewrite NoDup_app.
  intros (Hz & Hno & Hl) Hi Hj Hx Hy.
  assert (∀ k w, l !! k = Some w → b ∈ f w → b ∉ f z) as Hout.
  { intros k w Hk Hw Hb. apply (Hno b Hb). apply list_elem_of_bind. exists w. split; [done|].
    by eapply list_elem_of_lookup_2. }
  destruct i as [|i], j as [|j]; simplify_eq/=; [done|by destruct (Hout j y)|by destruct (Hout i x)|].
  f_equal. by eapply IH.
Qed.
End order.

(** Whatever the order in which the sandboxes of a job end, the worker reports to
    the server the result of each execution at its place and a key for exactly the
    files that the executions gave, each one as if its execution had been alone. *)
Theorem job_reported_in_order `{IterOrder} `{World} `{Host} `{BuildProfile} `{Blake3} `{UuidDisplay}
    `{!Bincode FileStoreIndex} (l : list Ending) w job dir units :
  let n := length (executions (job_group job)) in
  let f := ending (disk (w_store w)) job units in
  (∀ k, io_ok k = true) → channel_open (w_sender w) = true →
  w_thread w = Some (mkJobThread job dir (Th_running units (replicate n None) no_outputs)) →
  length units = n → l.*1.*1 ≡ₚ seq 0 n → NoDup (outputs (job_group job)) →
  ∃ results keys w', (_ ← run_ended l; report) w = (Ret tt, w') ∧
    sent (w_sender w') = sent (w_sender w) ++ [Item (Wk_WorkerDone results keys)] ∧
    length results = n ∧
    (∀ c, c ∈ l → results !! c.1.1 = Some (f c).1.1) ∧
    (∀ file key, keys !! file = Some key ↔ ∃ c, c ∈ l ∧ out_keys (f c).2 !! file = Some key).
Proof.
  intros n f Hio Hopen Ht Hunits Hl Hnd.
  assert (∀ i, i ∈ l.*1.*1 → i < n) as Hlt by (intros i; rewrite Hl, elem_of_seq; lia).
  assert (NoDup (l.*1.*1)) as Hndl by (rewrite Hl; apply NoDup_seq).
  destruct (run_ended_spec Hio l w job dir units _ _ Ht Hndl) as (w1 & Hrun & Ht1 & Hs1).
  { intros i Hi%Hlt. split; [by apply lookup_replicate_2|]. split; by apply lookup_lt_is_Some_2; lia || rewrite Hunits. }
  fold f in Ht1. set (rs := final_results _ _ _) in Ht1. set (o := final_outputs _ _ _) in Ht1.
  assert (∀ c, c ∈ l → rs !! c.1.1 = Some (Some (f c).1.1)) as Hrs.
  { intros c Hc. apply (final_results_in (λ c, (f c).1.1)); [done| |done].
    intros i Hi. rewrite length_replicate. by apply Hlt. }
  assert (length rs = n) as Hlen by (unfold rs; by rewrite final_results_length, length_replicate).
  assert (∃ results, mapM id rs = Some results ∧ rs = Some <$> results) as (results & Hmap & Hres).
  { exists (omap id rs). assert (Forall is_Some rs) as Hall.
    { apply Forall_lookup. intros i x Hx. assert (i ∈ l.*1.*1) as Hi.
      { rewrite Hl, elem_of_seq. apply lookup_lt_Some in Hx. lia. }
      apply list_elem_of_fmap in Hi as (p & -> & Hp). apply list_elem_of_fmap in Hp as (c & -> & Hc).
      rewrite Hrs in Hx by done. simplify_eq. by eexists. }
    clear -Hall. induction Hall as [|x rs [r ->] _ [IH1 IH2]]; [done|]. simpl. rewrite IH1. simpl.
    split; [done|]. simpl in IH2. by rewrite <-IH2 at 1. }
  exists results, (out_keys o), (set_phase (Th_reporting o)
    (with_w_sender (mkChannel (sent (w_sender w1) ++ [Item (Wk_WorkerDone results (out_keys o))]) true) w1)).2.
  split_and!.
  - rewrite run_bind, Hrun. unfold report. rewrite run_bind. simpl. rewrite Ht1, run_bind, Hmap. simpl.
    rewrite run_bind. unfold on_w_sender, zoom, with_context, send, send_packet, mbind, M_bind, get_st.
    rewrite Hs1, Hopen. simpl. unfold set_phase, modify. simpl. by rewrite Ht1, Hopen.
  - unfold set_phase, modify. simpl. rewrite Ht1. simpl. by rewrite Hs1.
  - by rewrite <-Hlen, Hres, length_fmap.
  - intros c Hc. specialize (Hrs c Hc). rewrite Hres, list_lookup_fmap in Hrs.
    destruct (results !! c.1.1); simpl in *; congruence.
  - intros file key. split.
    + intros [?|Hf]%final_outputs_in; [done|]. simpl in Hf. by rewrite lookup_empty in Hf.
    + intros (c & Hc & Hf). apply (final_outputs_has (λ c, (f c).2) l no_outputs c); [|done..|].
      { by eapply NoDup_fmap_1, NoDup_fmap_1. }
      intros c' Hc' Hs'. destruct (ending_keys Hio _ _ _ _ _ Hs') as (exec' & He' & Hf').
      destruct (ending_keys Hio (disk (w_store w)) job units c file) as (exec & He & Hfe); [by eexists|].
      pose proof (NoDup_bind_disjoint execution_outputs _ _ _ _ _ _ Hnd He' He Hf' Hfe) as Hij.
      rewrite <-list_fmap_compose in Hndl. by apply (NoDup_fmap_inj_on (fst ∘ fst) l).
Qed.

(** ** From the worker to the store of the server *)
Definition output_content (d : Disk) (outs : Outputs) (uuid : FileUuid) : option (list byte) :=
  match out_paths outs !! uuid with
  | Some (OnDisk path) => content <$> files d !! path
  | Some (InMemory c) => Some c
  | None => None
  end.

Lemma send_output_packets `{World} uuid outs key c w :
  (∀ n, io_ok n = true) → channel_open (w_sender w) = true →
  out_keys outs !! uuid = Some key → output_content (disk (w_store w)) outs uuid = Some c →
  ∃ chunks w', send_output uuid outs w = (Ret tt, w') ∧ concat chunks = c ∧ Forall (λ b, b ≠ []) chunks ∧
    sent (w_sender w') = sent (w_sender w) ++
      Item (Wk_ProvideFile uuid key) :: (RawData <$> chunks) ++ [RawData []].
Proof.
  intros Hio Hopen Hkey Hc. unfold send_output. rewrite Hkey, run_bind.
  unfold on_w_sender, zoom, with_context, send, send_packet, mbind, M_bind, get_st. rewrite Hopen. simpl.
  rewrite Hopen. unfold output_content in Hc. unfold index.
  destruct (out_paths outs !! uuid) as [[path|c']|]; simpl; [| |done].
  - apply fmap_Some in Hc as (df & Hdf & ->). unfold send_path, mbind, M_bind, zoom, with_context, read_file, io_call.
    rewrite Hio. simpl. rewrite Hdf. simpl. rewrite send_file_content_open by done.
    exists (file_blocks (content df)). eexists. split; [done|].
    split_and!; [apply concat_file_blocks|apply file_blocks_nonempty|].
    simpl. by rewrite <-app_assoc, fmap_app.
  - injection Hc as ->. rewrite send_data_open by done. exists (data_chunks c). eexists. split; [done|].
    split_and!; [apply concat_data_chunks|apply data_chunks_nonempty|]. simpl. by rewrite <-app_assoc.
Qed.

(** An output that the server asks arrives: from the packets that the worker
    sends the server stores a file with the content of the output under the key that
    the worker reported, and what follows in the channel is untouched. *)
Theorem worker_output_arrives `{IterOrder} `{World} `{BuildProfile} `{Blake3} `{!Bincode FileStoreIndex}
    uuid outs key c w found rest live (t : WorkerThread) :
  (∀ n, io_ok n = true) → channel_open (w_sender w) = true →
  out_keys outs !! uuid = Some key → output_content (disk (w_store w)) outs uuid = Some c →
  from_content c = key → store_inv live (wt_store t) →
  (total (wt_store t) + N.of_nat (length c) < u64_modulus)%N →
  ∃ packets w', send_output uuid outs w = (Ret tt, w') ∧
    sent (w_sender w') = sent (w_sender w) ++ packets ∧
    wp (receive_outputs 1 found)
      (λ found' t', ∃ h, wt_receiver t' = rest ∧ found' = <[uuid := h]> found ∧ handle_key h = key ∧
         store_inv (h :: live) (wt_store t') ∧
         (files (disk (wt_store t)) !! key_to_path (base_path (wt_store t)) key = None →
          stored key c (wt_store t'))) may_fail
      (with_wt_receiver (packets ++ rest) t).
Proof.
  intros Hio Hopen Hkey Hc Hck Hinv Hlt.
  destruct (send_output_packets uuid outs key c w Hio Hopen Hkey Hc) as (chunks & w' & Hrun & <- & Hne & Hs).
  eexists _, w'. split_and!; [done|exact Hs|]. cbn [receive_outputs].
  apply wp_bind, wp_context, wp_zoom. simpl. apply wp_bind, wp_get. simpl.
  rewrite <-app_assoc. simpl. rewrite receive_blocks by done.
  apply wp_bind, wp_bind, wp_modify. eapply wp_lift_ret; [done|].
  apply wp_bind, wp_context, wp_zoom. simpl. eapply wp_mono; [by apply (store_spec live)| |done].
  intros h st (Hinv' & Hk & Hb & Hst & _). apply wp_ret. exists h. by split_and!.
Qed.

(** ** Examples *)
Import StoreExample CacheExample.
Module ResultsExample.
#[export] Instance ex_host : Host :=
  {| env_var _ := None; which p := Some (RootDir :: Normal "bin" :: p); temp_name n := pretty n |}.
End ResultsExample.
Import ResultsExample.

Definition ex_box (n : string) (file : FileUuid) : ExecutionUnit :=
  Unit_Sandbox (mkSandbox [RootDir; Normal n]
    (set_stdout (Output_Capture (mkFile file "out") None) (Execution_new n (System [Normal "cat"]))) false None).
Definition ex_exec_of (file : FileUuid) : Execution :=
  set_stdout (Output_Capture (mkFile file "out") (Some 1%N)) (Execution_new "cat" (System [Normal "cat"])).
Definition ex_two : WorkerJob :=
  mkJob (group_add_execution (ex_exec_of 9) (group_add_execution (ex_exec_of 8) (ExecutionGroup_new 1 "two"))) ∅.
Definition ex_stdout (n : string) : PathBuf := [RootDir; Normal n; Normal "stdout"].
Definition ex_disk : Disk :=
  mkDisk 0 {[ex_stdout "a" := mkDiskFile ex_content1 false; ex_stdout "b" := mkDiskFile ex_content2 false]} ∅.
Definition ex_units : list ExecutionUnit := [ex_box "a" 8; ex_box "b" 9].
Definition ex_two_worker : Worker :=
  mkWorker (with_disk ex_disk ex_store) (mkChannel [] true) [] WorkerCurrentJob_new None ∅
    (Some (mkJobThread ex_two None (Th_running ex_units [None; None] no_outputs))) [RootDir].
Definition ex_success : SandboxResult := Sandbox_Success 0 None resources_default false.
(** The second execution ends first, with the exit status 3. *)
Definition ex_endings : list Ending :=
  [(1, Sandbox_Success 3 None resources_default false, ex_box "b" 9); (0, ex_success, ex_box "a" 8)].

Lemma capture_stream_bounds_witness :
  ∃ r d', capture_stream (OnDisk (ex_stdout "a")) (Output_Capture (mkFile 8 "out") (Some 1%N)) ex_disk =
      (Ret (Some r), d') ∧ (N.of_nat (length r) < 1 + 1024)%N.
Proof.
  destruct (capture_stream_bounds (ex_stdout "a") (mkFile 8 "out") (Some 1%N)
    (mkDiskFile ex_content1 false) ex_disk) as (r & d' & Hrun & _ & Hlt & _); [done|by vm_compute|].
  exists r, d'. split; [exact Hrun|exact Hlt].
Defined.

Lemma job_reported_in_order_witness :
  ∃ results keys w', (_ ← run_ended ex_endings; report) ex_two_worker = (Ret tt, w') ∧
    sent (w_sender w') = [Item (Wk_WorkerDone results keys)] ∧ length results = 2.
Proof.
  destruct (job_reported_in_order ex_endings ex_two_worker ex_two None ex_units)
    as (results & keys & w' & Hrun & Hs & Hlen & _).
  - done.
  - done.
  - done.
  - done.
  - apply perm_swap.
  - change (outputs (job_group ex_two)) with [8%N; 9%N]. apply (bool_decide_unpack _). by vm_compute.
  - exists results, keys, w'. split; [exact Hrun|]. split; [exact Hs|exact Hlen].
Defined.

Definition ex_outs : Outputs := mkOutputs {[8%N := ex_key2]} {[8%N := InMemory ex_content2]}.

Lemma worker_output_arrives_witness :
  ∃ packets w', send_output 8 ex_outs ex_two_worker = (Ret tt, w') ∧
    sent (w_sender w') = [] ++ packets ∧
    wp (receive_outputs 1 ∅)
      (λ found' t', ∃ h, wt_receiver t' = [] ∧ found' = <[8%N := h]> ∅ ∧ handle_key h = ex_key2 ∧
         store_inv (h :: [ex_handle]) (wt_store t') ∧
         (files (disk (wt_store (ex_thread []))) !! key_to_path (base_path (wt_store (ex_thread []))) ex_key2 = None →
          stored ex_key2 ex_content2 (wt_store t'))) may_fail
      (with_wt_receiver (packets ++ []) (ex_thread [])).
Proof.
  apply (worker_output_arrives 8 ex_outs ex_key2 ex_content2 ex_two_worker ∅ [] [ex_handle] (ex_thread [])).
  - done.
  - done.
  - by apply lookup_singleton_eq.
  - unfold output_content, ex_outs. simpl. by rewrite lookup_singleton_eq.
  - done.
  - apply ex_stored_inv.
  - apply (bool_decide_unpack _). by vm_compute.
Defined.

(** With a limit of one byte all the bytes of a short file are captured. *)
Lemma capture_exceeds_limit :
  (capture_stream (OnDisk (ex_stdout "a")) (Output_Capture (mkFile 8 "out") (Some 1%N)) ex_disk).1 =
    Ret (Some ex_content1) ∧ length ex_content1 = 3.
Proof. split; vm_compute; reflexivity. Qed.

(** A compilation with Typst in a group with another execution runs on a clone of its
    unit: its document is lost, and the output is an empty file. *)
Definition ex_typst_exec : Execution :=
  (output 8 booklet_pdf (Execution_new "typst" (TypstCompilation []))).2.
Definition ex_typst_job (l : list Execution) : WorkerJob :=
  mkJob (foldl (λ g e, group_add_execution e g) (ExecutionGroup_new 1 "typst") l) ∅.
Definition ex_typst : ExecutionUnit := Unit_Typst (mkTypst [] ∅ ∅).
Definition ex_typst_ran : ExecutionUnit := Unit_Typst (mkTypst [] ∅ {[booklet_pdf := ex_content1]}).

Lemma typst_output_lost :
  (λ l, out_keys (ending ex_disk (ex_typst_job l) (replicate (length l) ex_typst)
     (0, SandboxResult_default, ex_typst_ran)).2 !! 8%N) <$>
    [[ex_typst_exec]; [ex_typst_exec; ex_exec_of 9]] =
  [Some (from_content ex_content1); Some (from_content [])].
Proof. vm_compute. reflexivity. Qed.
