(* ===== verification/ControllerCorrect.v ===== *)
(** * Jobs with a controller are right

    A run of [Controller] is a sequence of its steps, with what the other thread of
    the worker does in between; its trace is the list of the results in the order in
    which they were added to the state.  The report of the job is determined by the
    trace. *)
From S2P Require Import Prelude Float64 RustOrd Paths StoreKey Disk Store Dag Cache CheckDag Scheduler.
From S2P Require Import Proto Executor Sandbox Worker WorkerView Controller WorkerCorrect WorkerResults.

(** ** The sum of the results of the solutions *)
Fixpoint add_results `{BuildProfile} (concurrent : bool) (l : list ExecutionResult) (sr : ExecutionResult) :
    Outcome ExecutionResult :=
  match l with
  | [] => Ret sr
  | r :: l => sr ← add_result concurrent r sr; add_results concurrent l sr
  end.

Lemma add_results_snoc `{BuildProfile} conc l r sr :
  add_results conc (l ++ [r]) sr = (sr ← add_results conc l sr; add_result conc r sr).
Proof.
  revert sr. induction l as [|x l IH]; intros sr; simpl.
  - unfold mbind, outcome_bind. by destruct (add_result conc r sr).
  - unfold mbind, outcome_bind in *. destruct (add_result conc x sr); auto.
Qed.

(** Memory in KiB: with [concurrent] the sum, without it the maximum. *)
Definition total_memory (concurrent : bool) (l : list ExecutionResult) : N :=
  foldr (λ r m, if concurrent then res_memory (resources r) + m else N.max (res_memory (resources r)) m)%N 0%N l.

Definition result_failed (r : ExecutionResult) : Prop := is_success (status r) = false.

Lemma add_result_inv `{BuildProfile} conc r sr sr' :
  add_result conc r sr = Ret sr' →
  status sr' = (if is_success (status r) then status sr else status r) ∧
  was_killed sr' = was_killed r || was_killed sr ∧ was_cached sr' = was_cached sr ∧
  ((if conc then res_memory (resources sr) + res_memory (resources r) < u64_modulus else True)%N →
   res_memory (resources sr') =
     if conc then res_memory (resources sr) + res_memory (resources r)
     else N.max (res_memory (resources r)) (res_memory (resources sr)))%N.
Proof.
  unfold add_result, mbind, outcome_bind, u64_add. destruct conc.
  - destruct (N.ltb_spec (res_memory (resources sr) + res_memory (resources r)) u64_modulus) as [Hlt|Hge].
    + intros [= <-]. simpl. by destruct (was_killed r).
    + destruct overflow_checks; [done|]. intros [= <-]. simpl. split_and!; [done|by destruct (was_killed r)|done|lia].
  - intros [= <-]. simpl. by destruct (was_killed r).
Qed.

(** The status of the sum: the one of the last solution that failed. *)
Definition last_failure (l : list ExecutionResult) (d : ExecutionStatus) : ExecutionStatus :=
  foldl (λ d r, if is_success (status r) then d else status r) d l.

Definition memory_fits (concurrent : bool) (l : list ExecutionResult) : Prop :=
  if concurrent then (total_memory true l < u64_modulus)%N else True.

Lemma add_results_gen `{BuildProfile} (conc : bool) l sr :
  (if conc then res_memory (resources sr) + total_memory true l < u64_modulus else True)%N →
  ∃ sr', add_results conc l sr = Ret sr' ∧ status sr' = last_failure l (status sr) ∧
    was_killed sr' = existsb was_killed l || was_killed sr ∧ was_cached sr' = was_cached sr ∧
    res_memory (resources sr') =
      (if conc then res_memory (resources sr) + total_memory conc l
       else N.max (total_memory conc l) (res_memory (resources sr)))%N.
Proof.
  revert sr. induction l as [|r l IH]; intros sr Hfits.
  { exists sr. split_and!; try done. simpl. destruct conc; lia. }
  assert (∃ sr1, add_result conc r sr = Ret sr1) as [sr1 H1].
  { unfold add_result, mbind, outcome_bind. destruct conc; [|by eexists]. simpl in Hfits.
    rewrite u64_add_Ret by lia. by eexists. }
  destruct (add_result_inv _ _ _ _ H1) as (Hst & Hk & Hc & Hm).
  assert (res_memory (resources sr1) =
    if conc then res_memory (resources sr) + res_memory (resources r)
    else N.max (res_memory (resources r)) (res_memory (resources sr)))%N as Hm1.
  { apply Hm. destruct conc; [|done]. simpl in Hfits. lia. }
  destruct (IH sr1) as (sr' & Hrun & Hst' & Hk' & Hc' & Hm').
  { destruct conc; [|done]. simpl in Hfits. lia. }
  exists sr'. cbn [add_results]. unfold mbind, outcome_bind. rewrite H1. split_and!; [done| | | |].
  - by rewrite Hst', Hst.
  - rewrite Hk', Hk. simpl. destruct (was_killed r), (existsb _ l), (was_killed sr); done.
  - congruence.
  - rewrite Hm', Hm1. simpl. destruct conc; lia.
Qed.

Lemma last_failure_success l d :
  is_success (last_failure l d) = true ↔ Forall (λ r, is_success (status r) = true) l ∧ is_success d = true.
Proof.
  unfold last_failure. revert d. induction l as [|r l IH]; intros d; simpl.
  - split; [by split|by intros [_ ?]].
  - rewrite IH, Forall_cons. destruct (is_success (status r)) eqn:Hr; [tauto|]. rewrite Hr.
    split; intros [? ?]; [done|]. destruct_and?. intuition congruence.
Qed.

Lemma last_failure_last l1 r l2 d :
  result_failed r → Forall (λ r, is_success (status r) = true) l2 →
  last_failure (l1 ++ r :: l2) d = status r.
Proof.
  unfold last_failure, result_failed. intros Hr Hl2. rewrite foldl_app. simpl. rewrite Hr. clear Hr.
  generalize (status r). intros s. revert s. induction Hl2 as [|x l2 Hx _ IH]; intros s; [done|]. simpl. by rewrite Hx.
Qed.

(** ** Runs and their traces *)
Section runs.
Context `{IterOrder} `{World} `{Host} `{BuildProfile} `{Blake3} `{UuidDisplay} `{!Bincode FileStoreIndex}.

(** What the other thread of the worker may do to the run: everything but this. *)
Definition same_run (w w' : Worker) : Prop :=
  w_thread w' = w_thread w ∧ sent (w_sender w') = sent (w_sender w) ∧
  controller_state (w_current w') = controller_state (w_current w) ∧
  current_sandboxes (w_current w') = current_sandboxes (w_current w).

Inductive run_trace : list RunEvent → Worker → Worker → Prop :=
  | trace_start w : run_trace [] w w
  | trace_event l event w1 w2 w3 :
      run_trace l w1 w2 → controlled_event event w2 w3 → run_trace (l ++ option_list event) w1 w3
  | trace_other l w1 w2 w3 : run_trace l w1 w2 → same_run w2 w3 → run_trace l w1 w3.

(** The results that were added and the solutions that were started. *)
Definition ended (l : list RunEvent) : list (nat * ExecutionResult) :=
  omap (λ e, match e with Ev_ended i r => Some (i, r) | Ev_started _ => None end) l.
Definition started (l : list RunEvent) : list nat :=
  omap (λ e, match e with Ev_started i => Some i | Ev_ended _ _ => None end) l.

(** The results of the solutions. *)
Definition solutions (l : list (nat * ExecutionResult)) : list ExecutionResult :=
  (filter (λ p, 0 < p.1) l).*2.

Lemma solutions_snoc l i r :
  solutions (l ++ [(i, r)]) = if decide (0 < i) then solutions l ++ [r] else solutions l.
Proof.
  unfold solutions. rewrite filter_app, fmap_app. destruct (decide (0 < i)) as [Hi|Hi].
  - by rewrite filter_cons_True.
  - by rewrite filter_cons_False, app_nil_r.
Qed.

(** *** The invariant of a run *)
Definition merged (p : SandboxPhase) : Prop := match p with Sb_merged _ | Sb_ended => True | _ => False end.

Record running_ok (l : list (nat * ExecutionResult)) (c : ControlledRun) (w : Worker) (st : State) : Prop := {
  ro_state : controller_state (w_current w) = Some st;
  ro_sandboxes : current_sandboxes (w_current w) = Some (sb_unit <$> ct_threads c);
  ro_exited : ∀ i t, ct_threads c !! i = Some t →
    exited st !! i = Some (bool_decide (i ∈ l.*1)) ∧ (merged (sb_phase t) ↔ i ∈ l.*1);
  ro_length : length (exited st) = length (ct_threads c);
  ro_nodup : NoDup l.*1;
  ro_started : ∀ i, i ∈ l.*1 → i < length (ct_threads c);
  ro_sum : add_results (concurrent (ct_settings c)) (solutions l) ExecutionResult_default =
    Ret (solution_result st);
  ro_controller : ∀ r, controller_result st = Some r ↔ (0, r) ∈ l;
  ro_number : 1 ≤ length (ct_threads c) ≤ 1 + ct_next c ∧
    (match ct_manager c with Mg_serving | Mg_waiting_pipes => length (ct_threads c) = 1 + ct_next c
     | _ => True end);
  ro_limit : (N.of_nat (length (ct_threads c)) ≤ 1 + process_limit (ct_settings c))%N;
  ro_kill : is_typst (ct_solution c) = false ∧ Forall (λ t, can_kill (sb_unit t) = true) (ct_threads c)
}.

Definition reported_ok (ps : list (Packet WorkerClientMessage)) (l : list (nat * ExecutionResult))
    (sl : list nat) (settings : ControllerSettings) (outs : Outputs) (w : Worker) : Prop :=
  ∃ cr sr, sl = seq 1 (length sl) ∧ (N.of_nat (length sl) ≤ process_limit settings)%N ∧
    l.*1 ≡ₚ 0 :: sl ∧ (0, cr) ∈ l ∧
    add_results (concurrent settings) (solutions l) ExecutionResult_default = Ret sr ∧
    sent (w_sender w) = ps ++ [Item (Wk_WorkerDone [cr; sr] (out_keys outs))].

(** [ps]: what was sent before the job. *)
Definition run_inv (ps : list (Packet WorkerClientMessage)) (settings : ControllerSettings)
    (l : list (nat * ExecutionResult)) (sl : list nat) (w : Worker) : Prop :=
  match w_thread w with
  | Some (mkJobThread _ _ (Th_controlled c)) =>
      ct_settings c = settings ∧ sent (w_sender w) = ps ∧
      sl = seq 1 (pred (length (ct_threads c))) ∧ ∃ st, running_ok l c w st
  | Some (mkJobThread _ _ (Th_reporting outs)) => reported_ok ps l sl settings outs w
  | _ => sent (w_sender w) = ps
  end.

Lemma same_run_inv ps settings l sl w w' : same_run w w' → run_inv ps settings l sl w → run_inv ps settings l sl w'.
Proof.
  intros (Ht & Hs & Hc & Hb). unfold run_inv, reported_ok. rewrite Ht, Hs.
  destruct (w_thread w) as [[job dir ph]|]; [|done]. destruct ph; try done.
  intros (Hset & Hps & Hsl & st & [? ? ? ? ? ? ? ? ? ? ?]). split_and!; [done..|]. exists st.
  by split; rewrite ?Hc, ?Hb.
Qed.

(** *** The steps of the run, computed *)
Lemma run_of_Some w c :
  run_of w = Some c → ∃ job dir, w_thread w = Some (mkJobThread job dir (Th_controlled c)).
Proof.
  unfold run_of. destruct (w_thread w) as [[job dir ph]|]; [|done]. destruct ph; try done.
  intros [= ->]. by eexists _, _.
Qed.

Section computed.
Context (w : Worker) (job : WorkerJob) (dir : option PathBuf) (c : ControlledRun).
Hypothesis Ht : w_thread w = Some (mkJobThread job dir (Th_controlled c)).

Lemma run_the_run : the_run w = (Ret (job, c), w).
Proof. unfold the_run, mbind, M_bind, get_st. by rewrite Ht. Qed.

Lemma run_update f :
  update_run f w = (Ret tt, with_w_thread (Some (mkJobThread job dir (Th_controlled (f c)))) w).
Proof. unfold update_run, mbind, M_bind. rewrite run_the_run. unfold set_phase, modify. by rewrite Ht. Qed.

End computed.

Lemma run_the_state w : the_state w =
  (unwrap "called `Option::unwrap()` on a `None` value" (controller_state (w_current w)), w).
Proof. done. Qed.

(** The state of the worker when the result of a sandbox is added. *)
Lemma run_sandbox_inv index result w w' r job dir c :
  w_thread w = Some (mkJobThread job dir (Th_controlled c)) →
  run_sandbox index result w = (Ret r, w') →
  ∃ st st' success outs d, controller_state (w_current w) = Some st ∧
    merge_result (concurrent (ct_settings c)) index r outs st = Ret st' ∧
    w' = with_w_thread (Some (mkJobThread job dir (Th_controlled (set_thread_phase index (Sb_merged success) c))))
           (with_w_current (set_controller_state (Some st') (w_current w))
             (with_w_store (with_disk d (w_store w)) w)).
Proof.
  intros Ht. unfold run_sandbox. rewrite run_bind, (run_the_run _ _ _ _ Ht), run_bind.
  destruct (ct_threads c !! index) as [t|]; [|done]. cbn -[execution_ended the_state]. rewrite run_bind, run_the_state.
  destruct (controller_state (w_current w)) as [st|] eqn:Hst; [|done]. cbn -[execution_ended].
  rewrite run_bind. unfold on_w_disk at 1, zoom at 1.
  destruct (execution_ended _ _ _ _ _) as [[[[r1 failed] outs]| | |] d]; try done.
  cbn -[merge_result]. rewrite run_bind. unfold lift at 1.
  destruct (merge_result _ index r1 outs st) as [st'| | |] eqn:Hm; try done. cbn. rewrite run_bind.
  cbn. rewrite run_bind. set (w1 := with_w_current _ _).
  rewrite (run_update w1 job dir c) by done. cbn. intros [= <- <-].
  by exists st, st', (negb failed), outs, d.
Qed.

Lemma merge_result_inv conc index r outs st st' :
  merge_result conc index r outs st = Ret st' →
  index < length (exited st) ∧ exited st' = <[index := true]> (exited st) ∧
  (if decide (0 < index)
   then add_result conc r (solution_result st) = Ret (solution_result st') ∧
     controller_result st' = controller_result st
   else solution_result st' = solution_result st ∧ controller_result st' = Some r).
Proof.
  unfold merge_result, mbind, outcome_bind. destruct (decide (0 < index)).
  - destruct (add_result _ _ _); try done. destruct (decide _); [|done]. by intros [= <-].
  - destruct (decide _); [|done]. by intros [= <-].
Qed.

(** *** Phases of the threads *)
Lemma kill_alter p (index : nat) (l : list SandboxThread) :
  Forall (λ t, can_kill (sb_unit t) = true) l →
  Forall (λ t, can_kill (sb_unit t) = true) (alter (λ t, mkSandboxThread (sb_unit t) p) index l).
Proof. intros Hl. by apply Forall_alter. Qed.

Lemma units_alter p (index : nat) (l : list SandboxThread) :
  sb_unit <$> alter (λ t, mkSandboxThread (sb_unit t) p) index l = sb_unit <$> l.
Proof. revert index. induction l as [|t l IH]; intros [|index]; simpl; [done..|]. f_equal. apply IH. Qed.

Lemma length_set_phase index p c : length (ct_threads (set_thread_phase index p c)) = length (ct_threads c).
Proof. apply length_alter. Qed.

Lemma set_phase_lookup p index c i t :
  ct_threads (set_thread_phase index p c) !! i = Some t →
  (i = index ∧ sb_phase t = p) ∨ (i ≠ index ∧ ct_threads c !! i = Some t).
Proof.
  simpl. destruct (decide (i = index)) as [->|Hi].
  - rewrite list_lookup_alter_eq. intros (t1 & _ & ->)%fmap_Some. by left.
  - rewrite list_lookup_alter_ne by done. by right.
Qed.

Lemma merge_running_ok l c w w' st st' index t r success outs :
  running_ok l c w st → ct_threads c !! index = Some t → ¬ merged (sb_phase t) →
  merge_result (concurrent (ct_settings c)) index r outs st = Ret st' →
  controller_state (w_current w') = Some st' → current_sandboxes (w_current w') = current_sandboxes (w_current w) →
  running_ok (l ++ [(index, r)]) (set_thread_phase index (Sb_merged success) c) w' st'.
Proof.
  intros [Hst Hb He Hlen Hnd Hlt Hsum Hc Hn Hlim Hkill] Ht Hph Hm Hst' Hb'.
  destruct (merge_result_inv _ _ _ _ _ _ Hm) as (Hi & Hex & Hres).
  destruct (He _ _ Ht) as [_ Hin]. assert (index ∉ l.*1) as Hnew by tauto.
  assert ((l ++ [(index, r)]).*1 = l.*1 ++ [index]) as Hl by by rewrite fmap_app.
  split; rewrite ?Hl; simpl.
  - done.
  - by rewrite Hb', units_alter.
  - intros i t' [[-> Hp]|[Hne Hp]]%set_phase_lookup.
    + rewrite Hex, list_lookup_insert_eq by done. rewrite bool_decide_eq_true_2 by set_solver.
      split; [done|]. rewrite Hp. split; [set_solver|done].
    + rewrite Hex, list_lookup_insert_ne by done. destruct (He _ _ Hp) as [-> Hmp]. split.
      * f_equal. apply bool_decide_ext. set_solver.
      * rewrite Hmp. set_solver.
  - by rewrite Hex, length_insert, length_alter.
  - apply NoDup_app. split_and!; [done| |apply NoDup_singleton]. intros x Hx ->%list_elem_of_singleton. done.
  - intros i. rewrite length_alter. intros [?| ->%list_elem_of_singleton]%elem_of_app; [by apply Hlt|].
    by apply lookup_lt_Some in Ht.
  - rewrite solutions_snoc. destruct (decide (0 < index)).
    + destruct Hres as [Hadd _]. rewrite add_results_snoc, Hsum. exact Hadd.
    + destruct Hres as [-> _]. done.
  - intros r'. rewrite elem_of_app, list_elem_of_singleton. destruct (decide (0 < index)) as [Hpos|Hz].
    + destruct Hres as [_ ->]. rewrite Hc. split; [by left|]. intros [?|[= <- <-]]; [done|lia].
    + destruct Hres as [_ ->]. assert (index = 0) as -> by lia. split; [intros [= ->]; by right|].
      intros [Hr|[= ->]]; [|done]. destruct Hnew. apply list_elem_of_fmap. by eexists (0, _).
  - by rewrite length_alter.
  - by rewrite length_alter.
  - split; [apply Hkill|by apply kill_alter, Hkill].
Qed.

(** A step that only changes the phase of a thread or the manager. *)
Lemma phase_running_ok l c w w' st index t p :
  running_ok l c w st → ct_threads c !! index = Some t → (merged p ↔ merged (sb_phase t)) →
  w_current w' = w_current w → running_ok l (set_thread_phase index p c) w' st.
Proof.
  intros [Hst Hb He Hlen Hnd Hlt Hsum Hc Hn Hlim Hkill] Ht Hp Hw. split; simpl; rewrite ?Hw, ?length_alter; try done.
  - by rewrite Hb, units_alter.
  - intros i t' [[-> Hp']|[_ Ht']]%set_phase_lookup; [|by apply He].
    destruct (He _ _ Ht) as [-> Hin]. split; [done|]. by rewrite Hp', Hp.
  - split; [apply Hkill|by apply kill_alter, Hkill].
Qed.

Lemma manager_running_ok l c w w' st m :
  running_ok l c w st → w_current w' = w_current w →
  match m with Mg_serving | Mg_waiting_pipes => length (ct_threads c) = 1 + ct_next c | _ => True end →
  running_ok l (set_manager m c) w' st.
Proof.
  intros [Hst Hb He Hlen Hnd Hlt Hsum Hc Hn Hlim Hkill] Hw Hm. split; simpl; rewrite ?Hw; try done.
  destruct Hn as [? _]. by split.
Qed.

(** A step of the manager returns or the thread panics. *)
Lemma thread_step_cases m w w' job dir c :
  w_thread w = Some (mkJobThread job dir (Th_controlled c)) →
  ends m (λ _ _, True) (on_run (mkJobThread job dir (Th_controlled c)) w) w → thread_step m w = (Ret tt, w') →
  m w = (Ret tt, w') ∨ ∃ e, w_thread w' = Some (mkJobThread job dir (Th_panicked e)) ∧ w_sender w' = w_sender w.
Proof.
  intros Ht Hm Hrun. unfold thread_step, ends in *.
  assert (∀ e w1, on_run (mkJobThread job dir (Th_controlled c)) w w1 → set_phase (Th_panicked e) w1 = (Ret tt, w') →
    ∃ e, w_thread w' = Some (mkJobThread job dir (Th_panicked e)) ∧ w_sender w' = w_sender w) as Hp.
  { intros e w1 [c1 Hv]. apply view_same in Hv as [(Hs & _) Hth]. simpl in *. unfold set_phase, modify.
    rewrite Hth. intros [= <-]. exists e. by split. }
  destruct (m w) as [[[]|e|e|] w1]; simpl in *; [by left|right; eauto..|done].
Qed.

(** The invariant when the phase of the thread is known. *)
Lemma run_inv_controlled ps settings l sl w job dir c :
  w_thread w = Some (mkJobThread job dir (Th_controlled c)) →
  run_inv ps settings l sl w ↔
    ct_settings c = settings ∧ sent (w_sender w) = ps ∧
    sl = seq 1 (pred (length (ct_threads c))) ∧ ∃ st, running_ok l c w st.
Proof. intros Ht. unfold run_inv. by rewrite Ht. Qed.

Lemma run_inv_panicked ps settings l sl sl' w w' e job dir c :
  w_thread w = Some (mkJobThread job dir (Th_controlled c)) → run_inv ps settings l sl w →
  w_thread w' = Some (mkJobThread job dir (Th_panicked e)) → w_sender w' = w_sender w →
  run_inv ps settings l sl' w'.
Proof. intros Ht. unfold run_inv. rewrite Ht. intros (_ & Hs & _) -> ->. done. Qed.

Lemma ended_inv ps settings l sl w w' index result event d job dir c t :
  w_thread w = Some (mkJobThread job dir (Th_controlled c)) →
  ct_threads c !! index = Some t → sb_phase t = Sb_running →
  sandbox_panicked index (run_sandbox index result) (with_w_store (with_disk d (w_store w)) w) = (Ret event, w') →
  run_inv ps settings l sl w → run_inv ps settings (l ++ option_list event) sl w'.
Proof.
  intros Ht Hth Hph Hrun (Hset & Hps & Hsl & st & Hok)%(run_inv_controlled _ _ _ _ _ _ _ _ Ht).
  set (w1 := with_w_store _ w) in *. assert (w_thread w1 = w_thread w) as Ht1 by done. rewrite Ht in Ht1.
  unfold sandbox_panicked in Hrun.
  destruct (run_sandbox index result w1) as [[r|e|msg|] w2] eqn:Hr; try done.
  - injection Hrun as <- <-.
    destruct (run_sandbox_inv _ _ _ _ _ _ _ _ Ht1 Hr) as (st0 & st' & success & outs & d' & Hst0 & Hm & ->).
    assert (st0 = st) as -> by (pose proof (ro_state _ _ _ _ Hok) as Hs; simpl in Hst0; congruence).
    eapply run_inv_controlled; [done|]. split_and!; [done|done|by rewrite length_set_phase|]. exists st'.
    eapply (merge_running_ok l c w); [done|done| |done|done|done]. rewrite Hph. simpl. tauto.
  - rewrite run_bind, (run_update _ _ _ _ Ht1) in Hrun. injection Hrun as <- <-. rewrite app_nil_r.
    eapply run_inv_controlled; [done|]. split_and!; [done|done|by rewrite length_set_phase|]. exists st.
    eapply (phase_running_ok l c w); [done|done| |done]. by rewrite Hph.
Qed.

Lemma done_inv ps settings l sl w w' index success job dir c t :
  w_thread w = Some (mkJobThread job dir (Th_controlled c)) →
  ct_threads c !! index = Some t → sb_phase t = Sb_merged success →
  sandbox_done index success w = (Ret tt, w') →
  run_inv ps settings l sl w → run_inv ps settings l sl w'.
Proof.
  intros Ht Hth Hph Hrun (Hset & Hps & Hsl & st & Hok)%(run_inv_controlled _ _ _ _ _ _ _ _ Ht).
  assert (∃ c1, (c1 = c ∨ c1 = set_terminate c) ∧
    w' = with_w_thread (Some (mkJobThread job dir (Th_controlled (set_thread_phase index Sb_ended c1)))) w)
    as (c1 & Hc1 & ->).
  { unfold sandbox_done in Hrun. rewrite run_bind in Hrun. destruct (_ || _).
    - rewrite (run_update _ _ _ _ Ht), (run_update _ job dir (set_terminate c)) in Hrun by done.
      injection Hrun as <-. eauto.
    - cbn -[update_run] in Hrun. rewrite (run_update _ _ _ _ Ht) in Hrun. injection Hrun as <-. eauto. }
  assert (running_ok l c1 w st ∧ ct_threads c1 = ct_threads c ∧ ct_settings c1 = ct_settings c) as (Hok1 & Hth1 & Hset1).
  { destruct Hc1 as [->| ->]; [done|]. by destruct Hok. }
  eapply run_inv_controlled; [done|].
  split_and!; [simpl; congruence|done|by rewrite length_set_phase, Hth1|]. exists st.
  eapply phase_running_ok; [exact Hok1|by rewrite Hth1| |done]. by rewrite Hph.
Qed.

(** The controller is killed: its sandbox is there. *)
Lemma kill_controller_run w job dir c :
  w_thread w = Some (mkJobThread job dir (Th_controlled c)) →
  current_sandboxes (w_current w) = Some (sb_unit <$> ct_threads c) → 1 ≤ length (ct_threads c) →
  kill_controller w = (Ret tt, with_w_thread
    (Some (mkJobThread job dir (Th_controlled (set_manager Mg_leaving c))))
    (with_w_killed (w_killed w ∪ {[0]} ∩ killable (sb_unit <$> ct_threads c)) w)).
Proof.
  intros Ht Hb Hn. unfold kill_controller. rewrite run_bind. cbn -[update_run].
  rewrite Hb, run_bind. cbn -[update_run kill_sandboxes].
  destruct (ct_threads c) as [|t ts]; [simpl in Hn; lia|]. cbn -[update_run kill_sandboxes].
  rewrite run_bind. unfold kill_sandboxes, modify. by erewrite run_update by done.
Qed.

Lemma leaving_inv ps settings l sl w w' st job dir c c' :
  w_thread w' = Some (mkJobThread job dir (Th_controlled c')) →
  running_ok l c w st → ct_threads c' = ct_threads c → ct_settings c' = ct_settings c →
  ct_solution c' = ct_solution c → ct_next c ≤ ct_next c' → ct_manager c' = Mg_leaving →
  ct_settings c = settings → sent (w_sender w') = ps → w_current w' = w_current w →
  sl = seq 1 (pred (length (ct_threads c))) → run_inv ps settings l sl w'.
Proof.
  intros Ht [Hst Hb He Hlen Hnd Hlt Hsum Hc [Hn _] Hlim Hkill] Hth Hse Hso Hnext Hm Hset Hs Hw Hsl.
  eapply run_inv_controlled; [done|]. split_and!; [congruence|done|by rewrite Hth|].
  exists st. split; rewrite ?Hw, ?Hth, ?Hse, ?Hm, ?Hso; try done.
  split; [lia|done].
Qed.

(** A solution is started. *)
Lemma line_event_manager w job dir c :
  w_thread w = Some (mkJobThread job dir (Th_controlled c)) →
  started (option_list (line_event w)) =
    match ct_manager c with Mg_waiting_pipes => [ct_next c] | _ => [] end.
Proof. intros Ht. unfold line_event, run_of. rewrite Ht. by destruct (ct_manager c). Qed.

Lemma push_running_ok l c w w' st u :
  running_ok l c w st → ct_manager c = Mg_serving →
  (N.of_nat (ct_next c) <? process_limit (ct_settings c))%N = true → can_kill u = true →
  controller_state (w_current w') =
    Some (mkState (solution_result st) (controller_result st) (exited st ++ [false]) (state_outputs st)) →
  current_sandboxes (w_current w') = Some ((sb_unit <$> ct_threads c) ++ [u]) →
  running_ok l (set_manager Mg_waiting_pipes (push_thread u (set_next (S (ct_next c)) c))) w'
    (mkState (solution_result st) (controller_result st) (exited st ++ [false]) (state_outputs st)).
Proof.
  intros [Hst Hb He Hlen Hnd Hlt Hsum Hc [Hn Hserv] Hlim [Hty Hkill]] Hm Hl Hu Hst' Hb'. rewrite Hm in Hserv.
  split; simpl; rewrite ?length_app; simpl; try done.
  - by rewrite Hb', fmap_app.
  - intros i t Hi. destruct (decide (i < length (ct_threads c))) as [Hlti|Hge].
    + rewrite lookup_app_l in Hi by done. rewrite lookup_app_l by lia. by apply He.
    + rewrite lookup_app_r in Hi by lia. apply list_lookup_singleton_Some in Hi as [Hi <-].
      assert (i = length (exited st)) as -> by lia. rewrite list_lookup_middle by done.
      assert (length (exited st) ∉ l.*1) as Hnin by (intros Hin%Hlt; lia).
      rewrite bool_decide_eq_false_2 by done. split; [done|]. simpl. tauto.
  - lia.
  - intros i Hi%Hlt. lia.
  - lia.
  - apply N.ltb_lt in Hl. lia.
  - split; [done|]. apply Forall_app. by split; [|constructor].
Qed.

Lemma start_solution_inv ps settings l sl w w' job dir c :
  w_thread w = Some (mkJobThread job dir (Th_controlled c)) → ct_manager c = Mg_serving →
  start_solution w = (Ret tt, w') → run_inv ps settings l sl w →
  run_inv ps settings l (sl ++ started (option_list (line_event w'))) w'.
Proof.
  intros Ht Hm Hrun (Hset & Hps & Hsl & st & Hok)%(run_inv_controlled _ _ _ _ _ _ _ _ Ht).
  pose proof (ro_state _ _ _ _ Hok) as Hst. pose proof (ro_sandboxes _ _ _ _ Hok) as Hb.
  unfold start_solution in Hrun. rewrite run_bind, (run_the_run _ _ _ _ Ht) in Hrun.
  rewrite run_bind, (run_update _ _ _ _ Ht) in Hrun. set (w1 := with_w_thread _ w) in Hrun.
  destruct (_ <? _)%N eqn:Hl; cbn [negb] in Hrun.
  - rewrite run_bind in Hrun. unfold get_st at 1 in Hrun. rewrite run_bind in Hrun.
    unfold on_w_disk at 1, zoom at 1 in Hrun. destruct (ExecutionUnit_new _ _ _ _ _) as [[u| | |] d] eqn:Hu; try done.
    set (w2 := with_w_store _ w1) in Hrun. destruct (ct_terminate c).
    + erewrite run_update in Hrun by done. injection Hrun as <-.
      eapply (leaving_inv ps settings l _ w); [done|done|done|done|done|simpl; lia|done..|by rewrite app_nil_r].
    + rewrite run_bind, run_the_state in Hrun. simpl (controller_state _) in Hrun. rewrite Hst in Hrun.
      cbn -[update_run] in Hrun. rewrite run_bind in Hrun. cbn -[update_run] in Hrun.
      rewrite run_bind in Hrun. rewrite Hb in Hrun. cbn -[update_run] in Hrun. rewrite run_bind in Hrun.
      cbn -[update_run] in Hrun. erewrite run_update in Hrun by done. injection Hrun as <-.
      eapply run_inv_controlled; [done|]. split_and!; [done|done| |eexists].
      { simpl. rewrite length_app, Hsl. destruct (ro_number _ _ _ _ Hok) as [_ Hn]. rewrite Hm in Hn.
        rewrite Hn, Nat.add_1_r. simpl. by rewrite <- seq_S. }
      eapply push_running_ok; try done. destruct (ro_kill _ _ _ _ Hok) as [Hty _].
      unfold ExecutionUnit_new in Hu. rewrite Hty, run_bind in Hu.
      destruct (Sandbox_new _ _ _ _ _) as [[]]; simplify_eq/=. by injection Hu as <- _.
  - rewrite (kill_controller_run w1 job dir (set_next (S (ct_next c)) c)) in Hrun;
      [|done|done|apply (ro_number _ _ _ _ Hok)].
    injection Hrun as <-.
    eapply (leaving_inv ps settings l _ w); [done|done|done|done|done|simpl; lia|done..|by rewrite app_nil_r].
Qed.

Lemma line_inv ps settings l sl w w' line job dir c :
  w_thread w = Some (mkJobThread job dir (Th_controlled c)) → ct_manager c = Mg_serving →
  manager_line line w = (Ret tt, w') → run_inv ps settings l sl w →
  run_inv ps settings l (sl ++ started (option_list (line_event w'))) w'.
Proof.
  intros Ht Hm Hrun Hinv. pose proof Hinv as (Hset & Hps & Hsl & st & Hok)%(run_inv_controlled _ _ _ _ _ _ _ _ Ht).
  destruct line as [s| |]; simpl in Hrun; [|..|done].
  - destruct (decide _); [by eapply start_solution_inv|].
    rewrite (kill_controller_run w job dir c) in Hrun;
      [|done|apply (ro_sandboxes _ _ _ _ Hok)|apply (ro_number _ _ _ _ Hok)].
    injection Hrun as <-.
    eapply (leaving_inv ps settings l _ w); [done..|by rewrite app_nil_r].
  - rewrite (run_update _ _ _ _ Ht) in Hrun. injection Hrun as <-.
    eapply (leaving_inv ps settings l _ w); [done..|by rewrite app_nil_r].
Qed.

Lemma answer_inv ps settings l sl w w' pipes r job dir c :
  w_thread w = Some (mkJobThread job dir (Th_controlled c)) → ct_manager c = Mg_waiting_pipes →
  manager_answer pipes r w = (Ret tt, w') → run_inv ps settings l sl w → run_inv ps settings l sl w'.
Proof.
  intros Ht Hm Hrun (Hset & Hps & Hsl & st & Hok)%(run_inv_controlled _ _ _ _ _ _ _ _ Ht).
  destruct r; simpl in Hrun; [| |done].
  - rewrite (run_update _ _ _ _ Ht) in Hrun. injection Hrun as <-.
    eapply run_inv_controlled; [done|]. split_and!; [done..|]. exists st.
    destruct Hok as [? ? ? ? ? ? ? ? [? Hn] ? ?]. rewrite Hm in Hn. by split.
  - unfold set_phase, modify in Hrun. rewrite Ht in Hrun. injection Hrun as <-. done.
Qed.

(** The sandboxes that run are killed when the job has to end. *)
Lemma leave_run w st job dir c :
  w_thread w = Some (mkJobThread job dir (Th_controlled c)) → controller_state (w_current w) = Some st →
  current_sandboxes (w_current w) = Some (sb_unit <$> ct_threads c) →
  manager_leave w = (Ret tt, with_w_thread (Some (mkJobThread job dir (Th_controlled (set_manager Mg_joining c))))
    (if ct_terminate c
     then with_w_killed (w_killed w ∪ still_running st (sb_unit <$> ct_threads c) ∩
            killable (sb_unit <$> ct_threads c)) w
     else w)).
Proof.
  intros Ht Hst Hb. unfold manager_leave. rewrite run_bind, (run_the_run _ _ _ _ Ht), run_bind.
  destruct (ct_terminate c).
  - rewrite run_bind, run_the_state, Hst. cbn -[update_run mbind].
    rewrite run_bind. cbn -[update_run mbind]. rewrite run_bind, Hb. cbn -[update_run].
    by erewrite run_update.
  - cbn -[update_run]. by rewrite (run_update _ _ _ _ Ht).
Qed.

Lemma leave_inv ps settings l sl w w' job dir c :
  w_thread w = Some (mkJobThread job dir (Th_controlled c)) →
  manager_leave w = (Ret tt, w') → run_inv ps settings l sl w → run_inv ps settings l sl w'.
Proof.
  intros Ht Hrun (Hset & Hps & Hsl & st & Hok)%(run_inv_controlled _ _ _ _ _ _ _ _ Ht).
  rewrite (leave_run _ _ _ _ _ Ht (ro_state _ _ _ _ Hok) (ro_sandboxes _ _ _ _ Hok)) in Hrun.
  injection Hrun as <-. eapply run_inv_controlled; [done|].
  split_and!; [done|by destruct (ct_terminate c)|done|]. exists st.
  eapply (manager_running_ok l c w); [done|by destruct (ct_terminate c)|done].
Qed.

(** The report: the controller has its result, so that only the channel can fail. *)
Lemma join_all l w : Forall (λ t, sb_phase t = Sb_ended) l → for_each l join_sandbox w = (Ret tt, w).
Proof.
  induction 1 as [|t l Ht _ IH]; [done|]. simpl. rewrite run_bind. unfold join_sandbox at 1. by rewrite Ht.
Qed.
Lemma join_some l w w' : for_each l join_sandbox w = (Ret tt, w') → w' = w ∧ Forall (λ t, sb_phase t = Sb_ended) l.
Proof.
  revert w. induction l as [|t l IH]; intros w; simpl; [by intros [= ->]|].
  rewrite run_bind. unfold join_sandbox at 1. destruct (sb_phase t) eqn:Ht; try done. cbn [mret M_ret].
  intros [-> Hl]%IH. by split; [|constructor].
Qed.

Lemma all_ended l c w st :
  running_ok l c w st → Forall (λ t, sb_phase t = Sb_ended) (ct_threads c) →
  l.*1 ≡ₚ seq 0 (length (ct_threads c)) ∧ ∃ cr, controller_result st = Some cr.
Proof.
  intros Hok Hall. assert (∀ i, i ∈ l.*1 ↔ i < length (ct_threads c)) as Hin.
  { intros i. split; [apply (ro_started _ _ _ _ Hok)|]. intros [t Ht]%lookup_lt_is_Some_2.
    rewrite Forall_lookup in Hall. apply (ro_exited _ _ _ _ Hok i t Ht). by rewrite (Hall _ _ Ht). }
  split.
  - apply NoDup_Permutation; [apply (ro_nodup _ _ _ _ Hok)|apply NoDup_seq|]. intros i. rewrite Hin, elem_of_seq. lia.
  - destruct (Hin 0) as [_ Hzero]. destruct (ro_number _ _ _ _ Hok) as [Hn _].
    destruct (list_elem_of_fmap_1 _ _ _ (Hzero ltac:(lia))) as ([i r] & Hi & Hr). simpl in Hi. subst.
    exists r. by apply (ro_controller _ _ _ _ Hok).
Qed.

Lemma manager_report_run l w st job dir c :
  w_thread w = Some (mkJobThread job dir (Th_controlled c)) → running_ok l c w st →
  Forall (λ t, sb_phase t = Sb_ended) (ct_threads c) → channel_open (w_sender w) = true →
  ∃ cr w', manager_report w = (Ret tt, w') ∧ (0, cr) ∈ l ∧
    w_thread w' = Some (mkJobThread job dir (Th_reporting (state_outputs st))) ∧
    sent (w_sender w') = sent (w_sender w) ++
      [Item (Wk_WorkerDone [cr; solution_result st] (out_keys (state_outputs st)))].
Proof.
  intros Ht Hok Hall Hopen. destruct (all_ended _ _ _ _ Hok Hall) as [_ [cr Hcr]]. exists cr.
  eexists. split_and!; [|by apply (ro_controller _ _ _ _ Hok)| |].
  - unfold manager_report. rewrite run_bind, (run_the_run _ _ _ _ Ht), run_bind, join_all by done.
    rewrite run_bind, run_the_state, (ro_state _ _ _ _ Hok). cbn -[mbind on_w_sender]. rewrite run_bind.
    cbn -[mbind on_w_sender]. rewrite run_bind, Hcr. cbn -[mbind on_w_sender]. rewrite run_bind.
    unfold on_w_sender, zoom, with_context, send, send_packet, mbind, M_bind, get_st. simpl. rewrite Hopen. simpl.
    unfold set_phase, modify. simpl. by rewrite Ht.
  - done.
  - done.
Qed.

Lemma report_inv ps settings l sl w w' job dir c :
  w_thread w = Some (mkJobThread job dir (Th_controlled c)) →
  manager_report w = (Ret tt, w') → run_inv ps settings l sl w → run_inv ps settings l sl w'.
Proof.
  intros Ht Hrun (Hset & Hps & Hsl & st & Hok)%(run_inv_controlled _ _ _ _ _ _ _ _ Ht).
  assert (Forall (λ t, sb_phase t = Sb_ended) (ct_threads c) ∧ channel_open (w_sender w) = true) as [Hall Hopen].
  { unfold manager_report in Hrun. rewrite run_bind, (run_the_run _ _ _ _ Ht), run_bind in Hrun.
    destruct (for_each (ct_threads c) join_sandbox w) as [[[]| | |] w1] eqn:Hj; try done.
    apply join_some in Hj as [-> Hall]. split; [done|]. rewrite run_bind, run_the_state in Hrun.
    rewrite (ro_state _ _ _ _ Hok) in Hrun. cbn -[mbind on_w_sender] in Hrun. rewrite run_bind in Hrun.
    cbn -[mbind on_w_sender] in Hrun. rewrite run_bind in Hrun.
    destruct (controller_result st); [|done]. cbn -[mbind on_w_sender] in Hrun. rewrite run_bind in Hrun.
    unfold on_w_sender, zoom, with_context, send, send_packet, mbind, M_bind, get_st in Hrun. simpl in Hrun.
    by destruct (channel_open (w_sender w)). }
  destruct (manager_report_run l w st job dir c) as (cr & w1 & Hrun1 & Hcr & Ht1 & Hs1); [done..|].
  rewrite Hrun in Hrun1. injection Hrun1 as <-. unfold run_inv. rewrite Ht1.
  destruct (all_ended _ _ _ _ Hok Hall) as [Hperm _].
  destruct (ro_number _ _ _ _ Hok) as [[Hn _] _]. pose proof (ro_limit _ _ _ _ Hok) as Hlim.
  exists cr, (solution_result st). rewrite Hsl, length_seq, <-Hset, Hs1, Hps.
  split_and!; [done|lia| |done|apply (ro_sum _ _ _ _ Hok)|done].
  rewrite Hperm. destruct (length (ct_threads c)) as [|n]; [lia|done].
Qed.

Lemma ended_app l k : ended (l ++ k) = ended l ++ ended k.
Proof. apply omap_app. Qed.
Lemma started_app l k : started (l ++ k) = started l ++ started k.
Proof. apply omap_app. Qed.

Definition trace_ok ps settings (l : list RunEvent) (w : Worker) : Prop :=
  run_inv ps settings (ended l) (started l) w.

Lemma trace_ok_silent ps settings l w : run_inv ps settings (ended l) (started l) w → trace_ok ps settings (l ++ []) w.
Proof. by rewrite app_nil_r. Qed.

Lemma event_inv ps settings l w w' event :
  controlled_event event w w' → trace_ok ps settings l w → trace_ok ps settings (l ++ option_list event) w'.
Proof.
  intros Hev Hinv. assert (∃ c, run_of w = Some c) as [c Hc] by (destruct Hev; by eexists).
  destruct (run_of_Some _ _ Hc) as (job & dir & Ht).
  assert (∀ (m : M Worker unit), stable (on_run (mkJobThread job dir (Th_controlled c)) w) m →
    ends m (λ _ _, True) (on_run (mkJobThread job dir (Th_controlled c)) w) w) as Hst.
  { intros m Hm. eapply ends_mono; [by eapply ends_stable, on_run_start|done|done]. }
  assert (∀ (m : M Worker unit) sl, ends m (λ _ _, True) (on_run (mkJobThread job dir (Th_controlled c)) w) w →
    thread_step m w = (Ret tt, w') → (m w = (Ret tt, w') → run_inv ps settings (ended l) sl w') →
    run_inv ps settings (ended l) sl w') as Hstep.
  { intros m sl Hm Hrun Hret.
    destruct (thread_step_cases _ _ _ _ _ _ Ht Hm Hrun) as [?|(e & ? & ?)]; [by apply Hret|].
    by eapply run_inv_panicked. }
  destruct Hev as [w c1 index t d result event w' Hc1 Hth Hph Hrun|w c1 index t success w' Hc1 Hth Hph Hrun
    |w c1 line w' Hc1 Hm Hrun|w c1 pipes r w' Hc1 Hm Hrun|w c1 w' Hc1 Hm Hrun|w c1 w' Hc1 Hm Hrun];
    assert (c1 = c) as -> by congruence.
  - pose proof (ended_inv _ _ _ _ _ _ _ _ _ _ _ _ _ _ Ht Hth Hph Hrun Hinv) as Hw'. unfold trace_ok.
    rewrite ended_app, started_app. destruct event as [[i r]|]; simpl; by rewrite ?app_nil_r in *.
  - apply trace_ok_silent. by eapply done_inv.
  - unfold trace_ok. rewrite ended_app, started_app.
    replace (ended (option_list (line_event w'))) with (@nil (nat * ExecutionResult))
      by (unfold line_event; by destruct (run_of w') as [c'|]; [destruct (ct_manager c')|]).
    rewrite app_nil_r. eapply Hstep; [apply Hst, keeps_line|done|]. intros Hret. by eapply line_inv.
  - apply trace_ok_silent. eapply Hstep; [|done|intros Hret; by eapply answer_inv].
    eapply ends_mono; [by eapply ends_answer|done|done].
  - apply trace_ok_silent. eapply Hstep; [apply Hst, keeps_leave|done|]. intros Hret. by eapply leave_inv.
  - apply trace_ok_silent. eapply Hstep; [|done|intros Hret; by eapply report_inv].
    eapply ends_mono; [by eapply ends_manager_report|done|done].
Qed.

Lemma trace_inv ps settings l w w' :
  run_trace l w w' → trace_ok ps settings [] w → trace_ok ps settings l w'.
Proof.
  intros Hrun Hw. induction Hrun as [w|l event w1 w2 w3 _ IH Hev|l w1 w2 w3 _ IH Hsame]; [done|..].
  - eapply event_inv; [done|by apply IH].
  - eapply same_run_inv; [done|by apply IH].
Qed.

(** The beginning. *)
Lemma group_asserts_typst group controller solution :
  unwrap "assertion failed" (group_asserts group) = Ret (controller, solution) → is_typst solution = false.
Proof.
  unfold group_asserts. destruct (fifo group); [|done]. destruct (executions group) as [|a [|b []]]; try done.
  destruct (is_typst a), (is_typst b) eqn:Hb; simpl; try done. destruct (_ && _); [|done]. by intros [= _ <-].
Qed.

Lemma start_inv settings w w' :
  start_controlled_job settings w = (Ret tt, w') → trace_ok (sent (w_sender w)) settings [] w'.
Proof.
  intros Hrun.
  assert (wlp (start_controlled_job settings) (λ _, trace_ok (sent (w_sender w)) settings []) may_fail w) as Hw.
  { assert (∀ A (m : M Disk A) (Q : A → Worker → Prop) w1, w_sender w1 = w_sender w →
      (∀ a w2, w_sender w2 = w_sender w → Q a w2) → wlp (on_w_disk m) Q may_fail w1) as Hdisk.
    { intros A m Q w1 Hw1 HQ. unfold wlp, on_w_disk, zoom. destruct (m _) as [[] d]; try done. by apply HQ. }
    apply wlp_bind, wlp_get, wlp_bind, Hdisk; [done|]. intros dir w1 Hw1.
    apply wlp_bind, Hdisk; [done|]. intros _ w2 Hw2. apply wlp_bind, wlp_modify, wlp_bind, wlp_modify.
    destruct (current_job (w_current w)) as [[job deps]|]; [|done]. apply wlp_bind.
    apply wlp_lift; [intros [controller solution] Hgroup|done].
    apply wlp_bind, Hdisk; [done|]. intros _ w3 Hw3. apply wlp_bind, Hdisk; [done|]. intros _ w4 Hw4.
    apply wlp_bind, Hdisk; [done|]. intros box w5 Hw5.
    apply wlp_bind, wlp_modify, wlp_bind, wlp_modify, wlp_bind, wlp_modify, wlp_modify.
    eapply run_inv_controlled; [done|]. split_and!; [done|simpl; congruence|done|]. eexists.
    split; simpl; try done; [|constructor|by intros i Hi%not_elem_of_nil| |lia|].
    - intros i t. destruct i as [|i]; [|done]. intros [= <-]. simpl. split; [done|]. set_solver.
    - intros r. split; [done|]. by intros Hr%not_elem_of_nil.
    - split; [|by repeat constructor]. by eapply group_asserts_typst. }
  unfold wlp in Hw. by rewrite Hrun in Hw.
Qed.

(** *** The sandboxes that are killed *)
Lemma elem_of_numbered {A} (l : list A) n i x : n = length l → (i, x) ∈ zip (seq 0 n) l ↔ l !! i = Some x.
Proof.
  intros ->. rewrite list_elem_of_lookup. split.
  - intros [j Hj]. rewrite lookup_zip_with in Hj. apply bind_Some in Hj as (k & Hk & Hj).
    apply lookup_seq in Hk as [-> _]. apply bind_Some in Hj as (y & Hy & [= <- <-]). done.
  - intros Hi. exists i. rewrite lookup_zip_with, lookup_seq_lt by by eapply lookup_lt_Some. simpl. by rewrite Hi.
Qed.

Lemma elem_of_killable units i : i ∈ killable units ↔ ∃ u, units !! i = Some u ∧ can_kill u = true.
Proof.
  unfold killable. rewrite elem_of_list_to_set, list_elem_of_omap. split.
  - intros ([j u] & Hin & Hk). rewrite elem_of_numbered in Hin by done. simpl in Hk.
    destruct (can_kill u) eqn:?; simplify_eq. eauto.
  - intros (u & Hu & Hk). exists (i, u). rewrite elem_of_numbered by done. simpl. by rewrite Hk.
Qed.

Lemma elem_of_still_running st units i :
  length units = length (exited st) → i ∈ still_running st units ↔ exited st !! i = Some false.
Proof.
  intros Hlen. unfold still_running. rewrite elem_of_list_to_set, list_elem_of_omap.
  assert (length (exited st) = length (zip (exited st) units)) as Hz by (rewrite length_zip_with; lia).
  split.
  - intros ([j [b u]] & Hin & Hk). rewrite elem_of_numbered in Hin by done. simpl in Hk.
    destruct b; simplify_eq. rewrite lookup_zip_with in Hin. apply bind_Some in Hin as (b & Hb & Hin).
    apply bind_Some in Hin as (u' & _ & [= -> _]). done.
  - intros Hi. destruct (lookup_lt_is_Some_2 units i) as [u Hu]; [rewrite Hlen; by eapply lookup_lt_Some|].
    exists (i, (false, u)). rewrite elem_of_numbered by done. split; [|done].
    rewrite lookup_zip_with, Hi. simpl. by rewrite Hu.
Qed.

(** What the manager answers by killing the controller: another request, or one more
    solution than the limit. *)
Definition bad_request (c : ControlledRun) (s : string) : Prop :=
  s ≠ "START_SOLUTION" ∨ (process_limit (ct_settings c) ≤ N.of_nat (ct_next c))%N.

Lemma can_kill_killable l c w st i t :
  running_ok l c w st → ct_threads c !! i = Some t → i ∈ killable (sb_unit <$> ct_threads c).
Proof.
  intros Hok Hi. apply elem_of_killable. exists (sb_unit t). rewrite list_lookup_fmap, Hi. split; [done|].
  destruct (ro_kill _ _ _ _ Hok) as [_ Hall]. rewrite Forall_lookup in Hall. by eapply Hall.
Qed.

Lemma kill_controller_kills l w w1 st job dir c c1 :
  running_ok l c w st → w_current w1 = w_current w → ct_threads c1 = ct_threads c →
  w_thread w1 = Some (mkJobThread job dir (Th_controlled c1)) →
  ∃ w2, kill_controller w1 = (Ret tt, w2) ∧ ct_manager <$> run_of w2 = Some Mg_leaving ∧ 0 ∈ w_killed w2.
Proof.
  intros Hok Hw Hc Ht. destruct (ro_number _ _ _ _ Hok) as [[Hn _] _]. eexists.
  rewrite (kill_controller_run w1 job dir c1); [|done|by rewrite Hw, Hc; apply Hok|by rewrite Hc].
  split_and!; [done|done|]. simpl. apply elem_of_union_r, elem_of_intersection.
  split; [set_solver|]. rewrite Hc. destruct (lookup_lt_is_Some_2 (ct_threads c) 0) as [t Ht0]; [lia|].
  by eapply can_kill_killable.
Qed.

Lemma bad_request_kills l w st job dir c s :
  w_thread w = Some (mkJobThread job dir (Th_controlled c)) → running_ok l c w st → bad_request c s →
  ∃ w2, manager_line (Line s) w = (Ret tt, w2) ∧ ct_manager <$> run_of w2 = Some Mg_leaving ∧ 0 ∈ w_killed w2.
Proof.
  intros Ht Hok Hbad. simpl. destruct (decide (s = "START_SOLUTION")) as [->|Hs].
  - destruct Hbad as [?|Hbad]; [done|]. unfold start_solution.
    rewrite run_bind, (run_the_run _ _ _ _ Ht), run_bind, (run_update _ _ _ _ Ht).
    apply N.ltb_ge in Hbad. cbn zeta. rewrite Hbad.
    by apply (kill_controller_kills l w _ st job dir c (set_next (S (ct_next c)) c)).
  - by apply (kill_controller_kills l w w st job dir c c).
Qed.

(** Once the job has to end a line starts nothing. *)
Lemma terminated_line l w w' st job dir c line :
  w_thread w = Some (mkJobThread job dir (Th_controlled c)) → running_ok l c w st → ct_terminate c = true →
  manager_line line w = (Ret tt, w') → ct_manager <$> run_of w' = Some Mg_leaving.
Proof.
  intros Ht Hok Hend. destruct line as [s| |]; simpl; [|by rewrite (run_update _ _ _ _ Ht); intros [= <-]|done].
  assert (∀ w1 c1, w_current w1 = w_current w → ct_threads c1 = ct_threads c →
    w_thread w1 = Some (mkJobThread job dir (Th_controlled c1)) →
    kill_controller w1 = (Ret tt, w') → ct_manager <$> run_of w' = Some Mg_leaving) as Hkill.
  { intros w1 c1 Hw Hc Ht1. destruct (kill_controller_kills l w w1 st job dir c c1) as (w2 & -> & ? & _); [done..|].
    by intros [= <-]. }
  destruct (decide _); [|by apply (Hkill w c)]. unfold start_solution.
  rewrite run_bind, (run_the_run _ _ _ _ Ht), run_bind, (run_update _ _ _ _ Ht). set (w1 := with_w_thread _ w).
  destruct (negb _); [by apply (Hkill w1 (set_next (S (ct_next c)) c))|]. rewrite run_bind. unfold get_st at 1. rewrite run_bind.
  unfold on_w_disk at 1, zoom at 1. destruct (ExecutionUnit_new _ _ _ _ _) as [[u| | |] d]; try done.
  rewrite Hend. erewrite run_update by done. by intros [= <-].
Qed.

Lemma terminated_starts_nothing l w st job dir c event w' :
  w_thread w = Some (mkJobThread job dir (Th_controlled c)) → running_ok l c w st → ct_terminate c = true →
  controlled_event event w w' → started (option_list event) = [].
Proof.
  intros Ht Hok Hend Hev. destruct Hev as [? ? ? ? ? ? event|?|w c1 line w' Hc Hm Hrun|?|?|?]; try done.
  { by destruct event as [[]|]. }
  pose proof (keeps_line (mkJobThread job dir (Th_controlled c)) w line) as Hk.
  destruct (thread_step_cases (manager_line line) w w' job dir c Ht) as [Hret|(e & Hp & _)]; [|done| |].
  { eapply ends_mono; [by eapply ends_stable, on_run_start|done|done]. }
  - apply (terminated_line _ _ _ _ _ _ _ _ Ht Hok Hend) in Hret. unfold line_event.
    destruct (run_of w') as [c'|]; [|done]. simpl in Hret. by injection Hret as ->.
  - unfold line_event, run_of. by rewrite Hp.
Qed.

Lemma leave_kills l w st job dir c :
  w_thread w = Some (mkJobThread job dir (Th_controlled c)) → running_ok l c w st → ct_terminate c = true →
  ∃ w2, manager_leave w = (Ret tt, w2) ∧
    ∀ i t, ct_threads c !! i = Some t → sb_phase t = Sb_running → i ∈ w_killed w2.
Proof.
  intros Ht Hok Hend. eexists. split.
  { exact (leave_run _ _ _ _ _ Ht (ro_state _ _ _ _ Hok) (ro_sandboxes _ _ _ _ Hok)). }
  intros i t Hi Hph. rewrite Hend. simpl. apply elem_of_union_r, elem_of_intersection.
  split; [|by eapply can_kill_killable].
  apply elem_of_still_running; [by rewrite length_fmap, (ro_length _ _ _ _ Hok)|].
  destruct (ro_exited _ _ _ _ Hok i t Hi) as [-> Hm]. rewrite Hph in Hm. simpl in Hm.
  rewrite bool_decide_eq_false_2; [done|tauto].
Qed.

(** *** The other steps of the process *)
Lemma same_kill_current w : stable (same_run w) kill_current.
Proof. apply stable_read. intros w1 _. destruct (current_sandboxes _); by apply stable_modify || apply stable_ret. Qed.

Lemma same_kill_job w group : stable (same_run w) (handle_kill_job group).
Proof.
  apply stable_read. intros w1 _. destruct (current_job _) as [[job ?]|]; [|apply stable_ret].
  destruct (decide _); [apply same_kill_current|apply stable_ret].
Qed.

Lemma same_ask_files w files : stable (same_run w) (handle_ask_files files).
Proof.
  apply stable_read. intros w1 _. destruct (server_asked_files _); [|apply stable_ret].
  apply stable_bind; [by apply stable_modify|]. intros []. destruct (thread_alive w1); by apply stable_modify || apply stable_ret.
Qed.

Lemma quiet_turn w inbox r w' c :
  looping w inbox → run_of w = Some c → next_is_work w = false → main_turn w = (r, w') → same_run w w'.
Proof.
  intros Hlo Hc Hwork Hrun. destruct (run_of_Some _ _ Hc) as (job & dir & Ht).
  assert (∀ (m : M Worker bool) w1, stable (same_run w) m → same_run w w1 → m w1 = (r, w') → same_run w w') as Hst.
  { intros m w1 Hm Hw1 Hrun1. specialize (Hm w1 Hw1). by rewrite Hrun1 in Hm. }
  assert (∀ m : M Worker unit, stable (same_run w) m → ∀ b : bool, stable (same_run w) (_ ← m; mret b)) as Hret.
  { intros m Hm b. apply stable_bind; [done|]. intros []. apply stable_ret. }
  unfold main_turn in Hrun. rewrite run_bind in Hrun. unfold ok, zoom, recv in Hrun. unfold next_is_work in Hwork.
  destruct (w_receiver w) as [|[m|raw] ps] eqn:Hr; cbn -[connection_lost handle_server_message] in Hrun.
  - eapply Hst; [apply Hret, same_kill_current| |exact Hrun]. done.
  - destruct m as [job'|group|key|files|]; [done|..].
    + eapply Hst; [apply Hret, same_kill_job| |exact Hrun]. done.
    + destruct (file_expected _ _ _ _ Hr Hlo) as (? & ? & ? & _ & Hno & _). congruence.
    + eapply Hst; [apply Hret, same_ask_files| |exact Hrun]. done.
    + injection Hrun as _ <-. done.
  - eapply Hst; [apply Hret, same_kill_current| |exact Hrun]. done.
Qed.

(** Every step of the process while a job with a controller runs is one of its steps, or
    leaves the run as it is. *)
Lemma process_run_step p p' c :
  inv p → run_of (p_worker p) = Some c → step server_admissible p p' →
  ∃ l, run_trace l (p_worker p) (p_worker p').
Proof.
  intros Hinv Hc Hstep. destruct (run_of_Some _ _ Hc) as (job & dir & Ht).
  assert (thread_alive (p_worker p) = true) as Hal by (unfold thread_alive; by rewrite Ht).
  assert (∀ w', same_run (p_worker p) w' → ∃ l, run_trace l (p_worker p) w') as Hsame.
  { intros w' Hw'. exists []. by eapply trace_other; [constructor|]. }
  destruct Hstep as [w main inbox m chunks Hadm|w main inbox|w inbox r w' Hwork Hrun|w inbox r w' Hdead Hrun
    |w main inbox job1 dir1 units results outs d index result ran w' Ht1 _ Hrun
    |w main inbox job1 dir1 units results outs w' Ht1 _ Hrun|w main inbox job1 dir1 outs w' Ht1 _ Hrun
    |w main inbox job1 dir1 files outs w' Ht1 Hrun|w main inbox w' [event Hev]]; simpl in *;
    try congruence.
  - by apply Hsame.
  - by apply Hsame.
  - destruct Hinv as [Hlo _]. assert (same_run w w') as Hw.
    { eapply quiet_turn; [done|done| |done]. destruct (next_is_work w); [|done]. rewrite Hwork in Hal by done. done. }
    apply Hsame. destruct r as [[]| | |]; exact Hw.
  - exists ([] ++ option_list event). eapply trace_event; [constructor|done].
Qed.
End runs.


(** ** The properties *)

(** C39: however the controller, the solutions and the main thread interleave: when a job
    with a controller is reported, the solutions that were started have the numbers 1, 2, ...,
    at most as many as the limit; the results added to the state are the one
    of the controller and the one of each of the started solutions, each exactly once; and
    the worker has sent one message, with the result of the controller and the sum of
    the results of the solutions in the order in which they ended. *)
Theorem controlled_job_reported `{IterOrder} `{World} `{Host} `{BuildProfile} `{Blake3} `{UuidDisplay}
    `{!Bincode FileStoreIndex} settings l w0 w w' job dir outs :
  start_controlled_job settings w0 = (Ret tt, w) → run_trace l w w' →
  w_thread w' = Some (mkJobThread job dir (Th_reporting outs)) →
  ∃ cr sr, started l = seq 1 (length (started l)) ∧
    (N.of_nat (length (started l)) ≤ process_limit settings)%N ∧
    (ended l).*1 ≡ₚ 0 :: started l ∧ (0, cr) ∈ ended l ∧
    add_results (concurrent settings) (solutions (ended l)) ExecutionResult_default = Ret sr ∧
    sent (w_sender w') = sent (w_sender w0) ++ [Item (Wk_WorkerDone [cr; sr] (out_keys outs))].
Proof.
  intros Hstart Htrace Ht. apply start_inv in Hstart. pose proof (trace_inv _ _ _ _ _ Htrace Hstart) as Hinv.
  unfold trace_ok, run_inv in Hinv. rewrite Ht in Hinv. exact Hinv.
Qed.

(** The sum of the results of the solutions, for a memory that fits in 64 bits:
    there is no panic, it is a success exactly when all of them are and otherwise it
    has the status of the last one that failed, it was killed when one of them was, and
    its memory is the sum of theirs when they run together, the maximum otherwise. *)
Theorem solutions_summed `{BuildProfile} conc l :
  memory_fits conc l →
  ∃ sr, add_results conc l ExecutionResult_default = Ret sr ∧
    (is_success (status sr) = true ↔ Forall (λ r, is_success (status r) = true) l) ∧
    (∀ l1 r l2, l = l1 ++ r :: l2 → result_failed r → Forall (λ r, is_success (status r) = true) l2 →
       status sr = status r) ∧
    was_killed sr = existsb was_killed l ∧ was_cached sr = false ∧
    res_memory (resources sr) = total_memory conc l.
Proof.
  intros Hfits. destruct (add_results_gen conc l ExecutionResult_default) as (sr & Hrun & Hst & Hk & Hc & Hm).
  { destruct conc; simpl in *; [exact Hfits|exact I]. }
  exists sr. split; [done|]. rewrite Hst. split_and!.
  - rewrite last_failure_success. simpl. tauto.
  - intros l1 r l2 -> Hr Hl2. by apply last_failure_last.
  - by rewrite Hk, orb_false_r.
  - done.
  - rewrite Hm. simpl. destruct conc; lia.
Qed.

(** C40: while a job with a controller runs: at most as many solutions are started as the limit; a
    request that is unknown or exceeds the limit kills the controller and ends the loop of the manager; once the job has
    to end (the controller ended, or a sandbox failed) no step starts a solution; if that
    is so when the manager leaves its loop, it kills all the sandboxes that still run; and when all the
    sandboxes have ended the report succeeds unless the server is gone.  A solution that
    runs when the job has to end only after the manager has left is not killed, see
    [solution_outlives_controller]. *)
Theorem controlled_job_ends `{IterOrder} `{World} `{Host} `{BuildProfile} `{Blake3} `{UuidDisplay}
    `{!Bincode FileStoreIndex} settings l w0 w w' job dir c :
  start_controlled_job settings w0 = (Ret tt, w) → run_trace l w w' →
  w_thread w' = Some (mkJobThread job dir (Th_controlled c)) →
  (N.of_nat (length (started l)) ≤ process_limit settings)%N ∧
  (∀ s, bad_request c s → ∃ w2, manager_line (Line s) w' = (Ret tt, w2) ∧
     ct_manager <$> run_of w2 = Some Mg_leaving ∧ 0 ∈ w_killed w2) ∧
  (∀ event w2, ct_terminate c = true → controlled_event event w' w2 →
     started (option_list event) = []) ∧
  (ct_terminate c = true → ∃ w2, manager_leave w' = (Ret tt, w2) ∧
     ∀ i t, ct_threads c !! i = Some t → sb_phase t = Sb_running → i ∈ w_killed w2) ∧
  (Forall (λ t, sb_phase t = Sb_ended) (ct_threads c) → channel_open (w_sender w') = true →
     ∃ results outs w2, manager_report w' = (Ret tt, w2) ∧ length results = 2 ∧
       w_thread w2 = Some (mkJobThread job dir (Th_reporting outs)) ∧
       sent (w_sender w2) = sent (w_sender w') ++ [Item (Wk_WorkerDone results (out_keys outs))]).
Proof.
  intros Hstart Htrace Ht. apply start_inv in Hstart. pose proof (trace_inv _ _ _ _ _ Htrace Hstart) as Hinv.
  unfold trace_ok, run_inv in Hinv. rewrite Ht in Hinv. destruct Hinv as (<- & _ & Hsl & st & Hok).
  pose proof (ro_limit _ _ _ _ Hok) as Hlim.
  split_and!; [rewrite Hsl, length_seq; lia|..].
  - intros s Hbad. by eapply bad_request_kills.
  - intros event w2 Hend Hev. by eapply terminated_starts_nothing.
  - intros Hend. by eapply leave_kills.
  - intros Hall Hopen.
    destruct (manager_report_run _ _ _ _ _ _ Ht Hok Hall Hopen) as (cr & w2 & Hrun & _ & Ht2 & Hs2).
    by exists [cr; solution_result st], (state_outputs st), w2.
Qed.

(** Every step of the worker while a job with a controller runs, whatever the server
    sends, is a step of the run or leaves the run and the channel as they are. *)
Lemma worker_run_steps `{IterOrder} `{World} `{Host} `{BuildProfile} `{Blake3} `{UuidDisplay}
    `{!Bincode FileStoreIndex} p p' c :
  worker_reachable server_admissible p → run_of (p_worker p) = Some c → step server_admissible p p' →
  ∃ l, run_trace l (p_worker p) (p_worker p').
Proof. intros Hp Hc Hstep. by eapply process_run_step; [apply worker_reachable_inv| |]. Qed.

(** ** An interpreter of the steps, for the examples *)
Inductive Action : Type :=
  | Do_line (line : ControllerLine)
  | Do_answer (pipes : Z * Z) (r : WriteResult)
  | Do_end (index : nat) (result : SandboxResult)
  | Do_done (index : nat)
  | Do_leave
  | Do_report.

Section interpreter.
Context `{IterOrder} `{World} `{Host} `{BuildProfile} `{Blake3} `{UuidDisplay} `{!Bincode FileStoreIndex}.

Definition returned {A} (r : Outcome A * Worker) : option (A * Worker) :=
  match r with (Ret a, w) => Some (a, w) | _ => None end.
Definition silent (r : Outcome unit * Worker) : option (option RunEvent * Worker) :=
  p ← returned r; Some (None, p.2).
Definition act (a : Action) (w : Worker) : option (option RunEvent * Worker) :=
  c ← run_of w;
  match a, ct_manager c with
  | Do_line line, Mg_serving =>
      match returned (thread_step (manager_line line) w) with
      | Some (_, w) => Some (line_event w, w)
      | None => None
      end
  | Do_answer pipes r, Mg_waiting_pipes => silent (thread_step (manager_answer pipes r) w)
  | Do_leave, Mg_leaving => silent (thread_step manager_leave w)
  | Do_report, Mg_joining => silent (thread_step manager_report w)
  | Do_end index result, _ =>
      t ← ct_threads c !! index;
      match sb_phase t with
      | Sb_running =>
          match returned (sandbox_panicked index (run_sandbox index result) w) with
          | Some (event, w) => Some ((λ p, Ev_ended p.1 p.2) <$> event, w)
          | None => None
          end
      | _ => None
      end
  | Do_done index, _ =>
      t ← ct_threads c !! index;
      match sb_phase t with Sb_merged success => silent (sandbox_done index success w) | _ => None end
  | _, _ => None
  end.

Fixpoint acts (l : list Action) (w : Worker) : option (list RunEvent * Worker) :=
  match l with
  | [] => Some ([], w)
  | a :: l => p ← act a w; q ← acts l p.2; Some (option_list p.1 ++ q.1, q.2)
  end.

Lemma returned_Some {A} (r : Outcome A * Worker) a w : returned r = Some (a, w) → r = (Ret a, w).
Proof. destruct r as [[] ?]; simpl; congruence. Qed.
Lemma silent_Some r e w : silent r = Some (e, w) → e = None ∧ r = (Ret tt, w).
Proof. unfold silent. destruct r as [[[]| | |] ?]; simpl; try done. by intros [= <- <-]. Qed.

Lemma act_event a w e w' : act a w = Some (e, w') → controlled_event e w w'.
Proof.
  unfold act. destruct (run_of w) as [c|] eqn:Hc; [|done]. cbn [mbind option_bind].
  destruct a as [line|pipes r|index result|index| |].
  - destruct (ct_manager c) eqn:Hm; try done.
    destruct (returned _) as [[[] w1]|] eqn:Hr; [|done]. intros [= <- <-]. apply returned_Some in Hr. by eapply Ct_line.
  - destruct (ct_manager c) eqn:Hm; try done. intros [-> Hr]%silent_Some. by eapply Ct_answer.
  - destruct (ct_threads c !! index) as [t|] eqn:Ht; [|by destruct (ct_manager c)].
    intros Hr. assert (∃ e', e = (λ p, Ev_ended p.1 p.2) <$> e' ∧ sb_phase t = Sb_running ∧
      sandbox_panicked index (run_sandbox index result) w = (Ret e', w')) as (e' & -> & Hph & Hrun).
    { destruct (ct_manager c); cbn [mbind option_bind] in Hr; destruct (sb_phase t); try done;
        destruct (returned _) as [[e' w1]|] eqn:Hr1; try done; injection Hr as <- <-;
        apply returned_Some in Hr1; by exists e'. }
    apply (Ct_ended w c index t (disk (w_store w)) result); [done..|]. rewrite <-Hrun. f_equal. by destruct w as [[]].
  - destruct (ct_threads c !! index) as [t|] eqn:Ht; [|by destruct (ct_manager c)].
    intros Hr. assert (∃ success, sb_phase t = Sb_merged success ∧ e = None ∧
      sandbox_done index success w = (Ret tt, w')) as (success & Hph & -> & Hrun).
    { destruct (ct_manager c); cbn [mbind option_bind] in Hr; destruct (sb_phase t); try done;
        apply silent_Some in Hr as [-> Hr]; eauto. }
    by eapply Ct_done.
  - destruct (ct_manager c) eqn:Hm; try done. intros [-> Hr]%silent_Some. by eapply Ct_leave.
  - destruct (ct_manager c) eqn:Hm; try done. intros [-> Hr]%silent_Some. by eapply Ct_report.
Qed.

Lemma acts_trace_from l0 l w0 w e w' :
  run_trace l0 w0 w → acts l w = Some (e, w') → run_trace (l0 ++ e) w0 w'.
Proof.
  revert l0 w e. induction l as [|a l IH]; intros l0 w e Hw; simpl.
  - intros [= <- <-]. by rewrite app_nil_r.
  - destruct (act a w) as [[e1 w1]|] eqn:Ha; [|done]. simpl.
    destruct (acts l w1) as [[e2 w2]|] eqn:Hl; [|done]. simpl. intros [= <- <-]. rewrite app_assoc.
    eapply IH; [|done]. eapply trace_event; [done|]. by eapply act_event.
Qed.
Lemma acts_trace l w e w' : acts l w = Some (e, w') → run_trace e w w'.
Proof. apply (acts_trace_from []). constructor. Qed.
End interpreter.

(** ** Examples *)
Import StoreExample CacheExample ResultsExample.

Definition ex_ctl_exec : Execution := Execution_new "controller" (System [Normal "controller"]).
Definition ex_sol_exec : Execution :=
  set_stdout Output_Inherit (set_stdin Input_Inherit (Execution_new "solution" (System [Normal "solution"]))).
Definition ex_settings : ControllerSettings := mkController 2 true.
Definition ex_ctl_group : ExecutionGroup :=
  let g := group_add_execution ex_sol_exec (group_add_execution ex_ctl_exec (ExecutionGroup_new 1 "communication")) in
  mkGroup (group_uuid g) (group_description g) (executions g) (fifo g) (group_config g) (tag g) (priority g)
    (Some ex_settings).
Definition ex_ctl_job : WorkerJob := mkJob ex_ctl_group ∅.
Definition ex_ctl_idle : Worker :=
  with_w_current (set_current_job (Some (ex_ctl_job, ∅)) WorkerCurrentJob_new)
    (Worker_new ex_store [RootDir; Normal "boxes"]).
Definition ex_ctl_started : Worker := (start_controlled_job ex_settings ex_ctl_idle).2.

Definition ex_used (memory : N) (code : N) : SandboxResult :=
  Sandbox_Success code None (mkResources f64_one f64_zero f64_one memory) false.
(** Two solutions; the second one ends first and fails. *)
Definition ex_actions : list Action :=
  [Do_line (Line "START_SOLUTION"); Do_answer (5, 6)%Z Written; Do_line (Line "START_SOLUTION");
   Do_answer (7, 8)%Z Written; Do_end 2 (ex_used 30 1); Do_done 2; Do_line Line_end].
Definition ex_closing : list Action :=
  [Do_leave; Do_end 0 (ex_used 10 0); Do_end 1 (ex_used 20 0); Do_done 0; Do_done 1].

Definition ex_ran (l : list Action) : Worker := from_option snd ex_ctl_started (acts l ex_ctl_started).
Definition ex_events (l : list Action) : list RunEvent :=
  from_option fst [] (acts l ex_ctl_started).

Lemma ex_start_ret : (start_controlled_job ex_settings ex_ctl_idle).1 = Ret tt.
Proof. vm_compute. reflexivity. Qed.
Lemma ex_start : start_controlled_job ex_settings ex_ctl_idle = (Ret tt, ex_ctl_started).
Proof. exact (run_result (start_controlled_job ex_settings ex_ctl_idle) _ ex_start_ret). Qed.
Lemma ex_trace l : is_Some (acts l ex_ctl_started) → run_trace (ex_events l) ex_ctl_started (ex_ran l).
Proof. intros [[e w] Hl]. unfold ex_events, ex_ran. rewrite Hl. by eapply acts_trace. Qed.

Example ex_run_events :
  let l := ex_events (ex_actions ++ ex_closing ++ [Do_report]) in
  (ended l).*1 = [2; 0; 1] ∧ started l = [1; 2].
Proof. split; vm_compute; reflexivity. Qed.

Definition ex_all : list Action := ex_actions ++ ex_closing ++ [Do_report].
Definition reporting (w : Worker) : bool :=
  match w_thread w with Some (mkJobThread _ _ (Th_reporting _)) => true | _ => false end.
Lemma reporting_thread w : reporting w = true →
  ∃ job dir outs, w_thread w = Some (mkJobThread job dir (Th_reporting outs)).
Proof. unfold reporting. destruct (w_thread w) as [[job dir []]|]; eauto; done. Qed.
Lemma ran l : bool_decide (is_Some (acts l ex_ctl_started)) = true → is_Some (acts l ex_ctl_started).
Proof. by intros ?%bool_decide_eq_true. Qed.

(** The two solutions ran together, the memory is the sum. *)
Example ex_summed :
  (λ sr, (status sr, res_memory (resources sr))) <$>
    add_results true (solutions (ended (ex_events ex_all))) ExecutionResult_default = Ret (ReturnCode 1, 50%N).
Proof. vm_compute. reflexivity. Qed.

Lemma controlled_job_reported_witness :
  let l := ex_events ex_all in
  ∃ cr sr outs, started l = seq 1 (length (started l)) ∧
    (N.of_nat (length (started l)) ≤ process_limit ex_settings)%N ∧
    (ended l).*1 ≡ₚ 0 :: started l ∧ (0, cr) ∈ ended l ∧
    add_results (concurrent ex_settings) (solutions (ended l)) ExecutionResult_default = Ret sr ∧
    sent (w_sender (ex_ran ex_all)) = sent (w_sender ex_ctl_idle) ++ [Item (Wk_WorkerDone [cr; sr] (out_keys outs))].
Proof.
  intros l. destruct (reporting_thread (ex_ran ex_all)) as (job & dir & outs & Ht); [vm_compute; reflexivity|].
  destruct (controlled_job_reported ex_settings (ex_events ex_all) ex_ctl_idle ex_ctl_started (ex_ran ex_all)
    job dir outs) as (cr & sr & Hall).
  - exact ex_start.
  - apply (ex_trace ex_all), ran. vm_compute. reflexivity.
  - exact Ht.
  - exists cr, sr, outs. exact Hall.
Defined.

Lemma solutions_summed_witness :
  ∃ sr, add_results true (solutions (ended (ex_events ex_all))) ExecutionResult_default = Ret sr ∧
    res_memory (resources sr) = total_memory true (solutions (ended (ex_events ex_all))).
Proof.
  destruct (solutions_summed true (solutions (ended (ex_events ex_all)))) as (sr & Hrun & _ & _ & _ & _ & Hm).
  - unfold memory_fits. apply N.ltb_lt. vm_compute. reflexivity.
  - exists sr. split; [exact Hrun|exact Hm].
Defined.

Definition phase_ended (t : SandboxThread) : bool := match sb_phase t with Sb_ended => true | _ => false end.
Lemma has_phase_ended t : phase_ended t = true → sb_phase t = Sb_ended.
Proof. unfold phase_ended. by destruct (sb_phase t). Qed.

Definition ex_open : Worker := ex_ran (ex_actions ++ ex_closing).
Definition ex_open_run : ControlledRun := default (mkControlled ex_settings ex_ctl_exec ex_sol_exec ∅ [] false 0 Mg_serving [])
  (run_of ex_open).
Lemma ex_open_thread : ∃ job dir, w_thread ex_open = Some (mkJobThread job dir (Th_controlled ex_open_run)).
Proof.
  unfold ex_open_run. assert (bool_decide (is_Some (run_of ex_open)) = true) as Hs by by vm_compute.
  apply bool_decide_eq_true in Hs as [c Hc]. rewrite Hc. by apply run_of_Some.
Qed.

Lemma controlled_job_ends_witness :
  ∃ results outs w2, manager_report ex_open = (Ret tt, w2) ∧ length results = 2 ∧
    sent (w_sender w2) = sent (w_sender ex_open) ++ [Item (Wk_WorkerDone results (out_keys outs))].
Proof.
  destruct ex_open_thread as (job & dir & Ht).
  destruct (controlled_job_ends ex_settings (ex_events (ex_actions ++ ex_closing)) ex_ctl_idle ex_ctl_started ex_open
    job dir ex_open_run) as (_ & _ & _ & _ & Hend).
  - exact ex_start.
  - apply (ex_trace (ex_actions ++ ex_closing)), ran. vm_compute. reflexivity.
  - exact Ht.
  - destruct Hend as (results & outs & w2 & Hrun & Hlen & _ & Hs).
    + apply Forall_forall. intros t Hin. apply has_phase_ended.
      assert (Forall (λ t, phase_ended t = true) (ct_threads ex_open_run)) as Hall.
      { apply Forall_forall. intros t' Ht'%list_elem_of_In. revert t' Ht'. apply forallb_forall. vm_compute. reflexivity. }
      rewrite Forall_forall in Hall. by apply Hall.
    + vm_compute. reflexivity.
    + exists results, outs, w2. split; [exact Hrun|]. split; [exact Hlen|exact Hs].
Defined.

(** The controller that closes its input after a request: the manager ends without a
    report, the job stays the one of the worker, which never asks for another one. *)
Lemma controlled_job_lost :
  let w := ex_ran [Do_line (Line "START_SOLUTION"); Do_answer (5, 6)%Z Broken_pipe] in
  (th_phase <$> w_thread w) = Some Th_exited ∧ is_Some (current_job (w_current w)) ∧
  sent (w_sender w) = [] ∧ (∀ w', ¬ controlled_step w w').
Proof.
  intros w. assert (bool_decide (is_Some (current_job (w_current w))) = true) as Hj by by vm_compute.
  assert (run_of w = None) as Hr by by vm_compute.
  split_and!; [by vm_compute|by apply bool_decide_eq_true in Hj|by vm_compute|].
  intros w' [event Hev]. destruct Hev; congruence.
Qed.

(** A controller that closes its output and ends while a solution runs: the manager has left
    its loop before the end of the controller is recorded, so that the job has to end, the
    solution runs and is not killed, and nothing but its own end lets the manager report. *)
Lemma solution_outlives_controller :
  let w := ex_ran [Do_line (Line "START_SOLUTION"); Do_answer (5, 6)%Z Written; Do_line Line_end;
                   Do_leave; Do_end 0 (ex_used 10 0); Do_done 0] in
  (λ c, (ct_terminate c, ct_manager c, sb_phase <$> ct_threads c)) <$> run_of w =
    Some (true, Mg_joining, [Sb_ended; Sb_running]) ∧ w_killed w = ∅.
Proof. split; by vm_compute. Qed.
